(* ===== verification/_CoqProject ===== *)
-Q . S2P
Prelude.v
Order.v
Decimal.v
Calendar.v
Errors.v
SchemaErrors.v
Reader.v
TextForm.v
Span.v
Civil.v
Instants.v
SpanParse.v
Number.v
Value.v
Keys.v
Maps.v
Encode.v
Decode.v
Walk.v
MergePath.v
Merge.v
MergeLaws.v
Provenance.v
Visit.v
Encoder.v
TreeSink.v
Decoder.v
DecoderLaws.v
Encoded.v
JsonNumber.v
Float64.v
Vocab.v
SchemaRead.v
Validate.v
ValidateLaws.v
SchemaMerge.v
Channel.v
Redact.v
Stream.v
Codec.v
Frames.v
Gate.v
KeyTemplate.v
InlineRefs.v
FieldPath.v
Flat.v
FlatLaws.v
Resolve.v
Forms.v
FormLaws.v
Registry.v
RegistryLaws.v
RegistryAnswers.v
ByteRing.v
Shm.v
ShmLaws.v
Rdma.v
RdmaLaws.v
KindDescription.v
KindLaws.v
KindHash.v
Json.v
JsonLaws.v
KindJson.v
Args.v
ArgsLaws.v
Catalog.v
Build.v
BuildLaws.v
Convert.v
ConvertLaws.v
DurationLaws.v
FieldTypes.v
Derive.v
DeriveLaws.v
