(* ===== verification/Prelude.v ===== *)
(** * guatiao: a verification library

    guatiao passes configuration and providers between languages: a value model whose C
    form is plain structs, a schema that says what a provider takes, layered
    configuration, a binary form of values, and links over which one process calls
    another's providers. This library models the parts of it that compute, as executable
    functions over the data the code has, and proves what each promises.

    ** How the parts fit

    A value is a tree ([Value]), whose numbers and texts are bytes that satisfy a check
    ([Number], [Reader]). Maps keep the order of their keys and are searched through an
    index of hashes once they are wide ([Maps], [Keys]). Values are written to bytes and
    read from them ([Encode], [Decode]), walked as events into a sink ([Visit],
    [Encoder], [TreeSink], [Encoded]) and read as events from bytes ([Decoder],
    [DecoderLaws]). Layers of configuration are merged with a record of which layer said
    what ([MergePath], [Merge], [MergeLaws], [Provenance]). A schema is a value, read as
    a kind ([Vocab], [SchemaRead]), checked against ([JsonNumber], [Float64],
    [Validate], [ValidateLaws]), and says how its fields merge ([SchemaMerge]), what is
    secret ([Redact]) and what its references name ([InlineRefs]); builders write one
    ([Build], [BuildLaws]). A channel announces schemas and carries values that follow
    them ([Channel]). A link carries frames ([Codec], [Frames]) over a byte stream
    ([Stream]) through a writer its threads share ([Gate]); two processes of a machine,
    or of a network whose cards write each other's memory, carry that stream over a ring
    of bytes ([ByteRing], [Shm], [Rdma]). A call's arguments and its answer cross in one
    body, each piece after the last ([Args], [ArgsLaws]), and what a process offers
    crosses as a catalog ([Catalog]). An application's settings are values stored flat,
    a line of text for each leaf under the path that reaches it ([FieldPath], [Flat],
    [FlatLaws]), looked up by those paths ([Resolve]), and shown as a form says
    ([Forms], [FormLaws]). A host's libraries, the keys their providers answer to and
    the handles that keep them loaded are the registry's ([KeyTemplate], [Registry],
    [RegistryLaws], [RegistryAnswers]). What a provider says of its kinds is a
    description, read from a value ([KindDescription], with its laws in [KindLaws]),
    which arrives as JSON ([Json], [JsonLaws], [KindJson]) and is told from others by a
    hash ([KindHash]). Rust's types cross into values and back: each by an instance of
    two classes ([Convert]), the composites from their parts ([ConvertLaws],
    [DurationLaws], [FieldTypes]), and a program's structs and enums by what the derives
    write of them ([Derive], [DeriveLaws]). Ordered lists and the standard library's
    stable sort are in [Order].

    ** Files and sources

    Under [src/crates/guatiao/src/]:
    - [Decimal], [Calendar], [Civil], [Instants], [Span], [SpanParse], [TextForm]:
      [value/time/] and [value/span/], dates, times, instants and spans, and their text;
    - [Reader], [Number], [Value], [Keys], [Maps]: [value/types/] and
      [value/wire/keys.rs];
    - [Errors]: [value/error.rs]; [SchemaErrors]: the errors of [schema/mod.rs];
    - [Encode], [Decode]: [value/wire/mod.rs]; [Walk]: [value/walk.rs];
    - [MergePath]: [value/merge/path.rs]; [Merge], [MergeLaws], [Provenance]:
      [value/merge/mod.rs];
    - [Visit], [TreeSink]: [value/visit/]; [Encoder], [Decoder], [DecoderLaws],
      [Encoded]: [value/wire/stream.rs]; [Channel]: [value/wire/channel.rs];
    - [Vocab], [SchemaRead], [SchemaMerge], [Redact], [InlineRefs], [Build] (its laws
      in [BuildLaws]): the files of [schema/] of those names; [JsonNumber], [Float64],
      [Validate], [ValidateLaws]: [schema/validate.rs] and [schema/pattern.rs];
    - [Convert], with its laws in [ConvertLaws], [DurationLaws] and [FieldTypes]:
      [value/convert.rs] and the files of [value/convert/];
    - [KeyTemplate]: [library/key.rs]; [Registry], with its invariant in
      [RegistryLaws] and its theorems in [RegistryAnswers]: [library/registry.rs], the
      unloading of [library/raw/image.rs], the services of [library/raw/host.rs] and
      the holds of [library/raw/lease.rs];
    - [KindDescription], [KindLaws]: [library/kind/description.rs]; [KindHash]:
      [library/kind/description/floor_hash.rs]; [Json], [JsonLaws], [KindJson]:
      [library/kind/description/json.rs].

    Under [src/crates/guatiao-source-remote/src/]: [Stream] is [transport/mod.rs] and
    [transport/stream.rs], [Codec] and [Frames] are [protocol/codec.rs] and
    [protocol/mod.rs], [Args], with its proofs in [ArgsLaws], is [protocol/args.rs],
    [Catalog] is [protocol/catalog.rs], [Gate] is [link/gate.rs], [Shm], with its proofs
    in [ShmLaws], is [transport/shm.rs], and [Rdma], with its proofs in [RdmaLaws], is
    [transport/rdma/ring.rs], both over the ring of [ByteRing].

    Under [src/crates/guatiao-intake/src/]: [FieldPath] is [path/mod.rs] and
    [path/walk.rs]; [Flat], with its proofs in [FlatLaws], and [Resolve] are [flat.rs];
    [Forms], with its proofs in [FormLaws], is [read.rs], [judge.rs], [vocab.rs] and
    what [declare.rs] reads.

    [Derive], with its laws in [DeriveLaws], is what [expand.rs], [untagged.rs],
    [shapes.rs] and [rename.rs] of [src/crates/guatiao-derive/src/] write, and what that
    calls of [src/crates/guatiao/src/lib.rs]: a declaration is a plan of its fields or
    variants, and a template a function over the plan.

    Definitions keep the names of the code's functions, with a suffix or a prefix where
    the name is taken. A method's receiver is its first argument, [&mut self] is state
    passed and returned, [?] is the bind of [result], and a panic is the error [Panic]
    of [fault], so that a theorem which excludes it says the code does not panic. Loops
    over an explicit stack are [loop] or a fuelled [Fixpoint] whose body is one round;
    machine integers are [Z] with their width written out, wrapping, saturating or
    checked as the code does.

    ** What the theorems show

    - Bytes: a body decodes to a value exactly when it is its encoding
      ([decode_exactly_wire], [wire_roundtrip]); decoding ends, on any bytes
      ([decode_total]); the streaming forms agree with the tree
      ([decode_as_reads_values], [encoder_accepts_trees], [sinks_agree],
      [encoded_is_the_value], [reencoding_is_identity]) and never panic.
    - Maps: every operation is that of a finite map that keeps order
      ([map_set_refines] and its kin), with the index of hashes or without
      ([wide_map_is_the_map]).
    - Merging: what each mode does key by key ([merge_map_rule], [merge_list_rules],
      [merge_shapes]), that it ends and keeps trees well formed ([merge_ends_well]),
      and what the record answers ([source_of_exact], [record_departs_from_value]).
    - Schemas: what validation accepts, as an inductive reading of the schema
      ([validation_decides], [validate_map_decides]), what its refusals say, exact
      comparison of numbers of any size ([compare_exact]), reading that ends
      ([reading_ends_at_a_kind]), what builders write is read back as it was said
      ([schema_is_read_back], [finish_exact]), overrides, references inlined
      ([inline_refs_expands]), and that a redacted copy says nothing of a secret
      ([redaction_hides]).
    - Links: frames are read exactly as written ([frames_exactly], [encode_frame_exact],
      [frame_refusals]), over any stream ([stream_roundtrip], [read_frame_exact],
      [link_roundtrip]); threads share the writer without losing, repeating or
      reordering a frame ([one_thread_writes], [gate_keeps_order],
      [every_frame_is_delivered]); a channel's values follow the schema announced
      ([accept_refines], [values_follow_their_schema]).
    - Calls: the arguments and the answer that arrive are those that were sent, and
      nothing else is taken ([arguments_arrive], [arguments_exact], [reply_arrives],
      [tail_is_the_same_bytes], [answer_tail_is_the_same_bytes]), and a catalog is
      read back ([catalog_is_read_back]).
    - Rings: what is read is what was written, in order, however the two sides
      interleave ([shm_in_order], [rdma_in_order]), and a sleeper has nothing left to
      read ([no_wake_up_is_lost], [neither_side_waits_for_ever]); counters of a hostile
      side are refused or stay inside the ring ([hostile_counters_stay_inside]).
    - Text: dates, spans, paths and key templates are read from exactly the text that
      spells them ([timestamp_text_exact], [span_text_roundtrip], [path_text_exact],
      [template_text_exact]).
    - Kinds: what text is JSON and what it says ([json_exact]), what a description is
      and how it is written ([descriptions_exact], [document_json_exact]), where a
      refusal points ([refusals_are_placed]), that a table has room for its slots
      ([slots_have_room]) and what a floor hash tells apart ([floor_hash_tells]).
    - Conversions: a value of any type built of the modelled ones is read back from what
      it writes, and reading never panics ([types_cross]); an integer is read at its
      width ([integers_exact]) and a duration as its text denotes ([seconds_exact]);
      structs and enums cross as their derives write them ([derived_struct_crosses],
      [tagged_enum_crosses], [untagged_enum_crosses], [choice_crosses]), but for a
      flattened member whose key another field takes ([flatten_clash]).
    - Settings: what flat storage keeps of a value and gives back
      ([flatten_replaces], [flat_roundtrip]), every stored key finds its field
      ([flatten_resolves]), conditions that wait on each other are found
      ([find_cycle_exact]), fields are shown when their conditions hold
      ([is_visible_exact]) and placed once ([layout_exact]).
    - Libraries: none is closed while held, however threads take and drop handles
      between the steps of the registry ([closed_is_unheld]), and one let go is closed
      once nothing holds it ([collect_closes]); a refused unload changes nothing
      ([unload_exact]); keys, services and kinds answer what is loaded
      ([key_answers], [best_outranks]), but for a path two libraries were loaded from
      ([one_path_two_libraries]).

    ** Fuel and bounds

    Recursion the code bounds by [MAX_DEPTH] is structural on the levels left ([room]),
    and running out is the code's own refusal, never a default. Loops over stacks take
    fuel: a size of what is on the stack ([vsize], [items_size]) that every round
    lessens, so enough is proved to be enough ([loop_fuel], [loop_den] and their uses);
    running out would be [Panic], which the theorems exclude. Reading a byte stream
    takes fuel from what can still arrive, following references from the number of names
    a document defines, threads inside the gate from the work left ([work]), and JSON
    from the length of its text, which every round shortens.

    ** Not modelled

    Memory: pointers, capacities and the allocator, so a refused allocation is not an
    outcome (every [_in] form is its plain form); views across the C boundary and the
    tables of functions kinds are called through; loading object files; how the derives
    parse a declaration, the schemas and the streaming walks they write, and the derives
    for kinds and forms; the conversions of [f32], addresses and [SystemTime]; sockets,
    TLS, QUIC and the web transports; the interpreters of the language sources; weaker
    memory than the fences of the rings give, and what an RDMA card does but for
    landing, finishing and failing requests; JSON, TOML and YAML, which other crates
    read; and the text of error messages, which are values here. The regular expressions
    of [pattern] are a parameter, as is the choice of seeds of a hash. *)

From Stdlib Require Export ZArith Lia.
From stdpp Require Export base list numbers strings option sets gmap.

#[global] Open Scope Z_scope.

(** ** Results *)

(** [Result<A, E>] of the source. *)
Inductive result (E A : Type) : Type :=
  | Ok (a : A)
  | Err (e : E).
Arguments Ok {E A} a.
Arguments Err {E A} e.

#[export] Instance result_ret E : MRet (result E) := λ A a, Ok a.
#[export] Instance result_bind E : MBind (result E) :=
  λ A B f m, match m with Ok a => f a | Err e => Err e end.
#[export] Instance result_fmap E : FMap (result E) :=
  λ A B f m, match m with Ok a => Ok (f a) | Err e => Err e end.

Definition map_err {E F A : Type} (f : E -> F) (m : result E A) : result F A :=
  match m with Ok a => Ok a | Err e => Err (f e) end.

(** [Option::ok_or]. *)
Definition ok_or {E A : Type} (o : option A) (e : E) : result E A :=
  match o with Some a => Ok a | None => Err e end.

Definition is_ok {E A : Type} (m : result E A) : bool :=
  match m with Ok _ => true | Err _ => false end.

#[export] Instance result_eq_dec `{EqDecision E, EqDecision A} : EqDecision (result E A).
Proof. solve_decision. Defined.

Section results.
Context {E A B : Type}.

Lemma bind_Ok (m : result E A) (f : A -> result E B) b :
  (m ≫= f) = Ok b <-> exists a, m = Ok a /\ f a = Ok b.
Proof. destruct m; simpl; naive_solver. Qed.

Lemma bind_Err (m : result E A) (f : A -> result E B) e :
  (m ≫= f) = Err e <-> m = Err e \/ exists a, m = Ok a /\ f a = Err e.
Proof. destruct m; simpl; naive_solver. Qed.

Lemma map_err_Ok {F} (f : E -> F) (m : result E A) a : map_err f m = Ok a <-> m = Ok a.
Proof. destruct m; simpl; naive_solver. Qed.

Lemma map_err_Err {F} (f : E -> F) (m : result E A) e' :
  map_err f m = Err e' <-> exists e, m = Err e /\ e' = f e.
Proof. destruct m; simpl; naive_solver. Qed.

Lemma ok_or_Ok (o : option A) (e : E) a : ok_or o e = Ok a <-> o = Some a.
Proof. destruct o; simpl; naive_solver. Qed.
End results.

(** Takes a successful (or refused) sequence of steps apart, one hypothesis a
    step. *)
Ltac inv_result :=
  repeat match goal with
  | H : (_ ≫= _) = Ok _ |- _ => apply bind_Ok in H; destruct H as (? & ? & H)
  | H : map_err _ _ = Ok _ |- _ => apply map_err_Ok in H
  | H : ok_or _ _ = Ok _ |- _ => apply ok_or_Ok in H
  | H : Ok _ = Ok _ |- _ => injection H as H; subst
  | H : Err _ = Err _ |- _ => injection H as H; subst
  | H : Ok _ = Err _ |- _ => discriminate H
  | H : Err _ = Ok _ |- _ => discriminate H
  | x : (_ * _)%type |- _ => destruct x
  end.

(** Leaves a hypothesis's first premise to prove, and then uses it. *)
Ltac supply H :=
  match type of H with
  | ?P -> _ => let h := fresh in assert P as h; [|specialize (H h); clear h]
  end.

(** ** Bytes and text *)

(** A byte is a [Z] from 0 to 255; text is its UTF-8 bytes. *)
Abbreviation byte := Z (only parsing).
Abbreviation bytes := (list Z) (only parsing).

Definition byte_of_ascii (c : Ascii.ascii) : byte := Z.of_N (Ascii.N_of_ascii c).

(** The bytes of a literal, [b"..."] and ["..."] of the source. *)
Definition bs (s : string) : bytes := map byte_of_ascii (String.list_ascii_of_string s).

Definition is_byte (b : Z) : Prop := 0 <= b < 256.

(** [u8::is_ascii_digit]. *)
Definition is_digit (b : byte) : bool := (48 <=? b) && (b <=? 57).
(** [u8::is_ascii_uppercase], [u8::is_ascii_lowercase] and
    [u8::is_ascii_alphabetic]. *)
Definition is_upper (b : byte) : bool := (65 <=? b) && (b <=? 90).
Definition is_lower (b : byte) : bool := (97 <=? b) && (b <=? 122).
Definition is_alpha (b : byte) : bool := is_upper b || is_lower b.
(** [u8::to_ascii_uppercase]. *)
Definition to_upper (b : byte) : byte := if is_lower b then b - 32 else b.

(** ** Machine widths *)

Definition i32_max : Z := 2^31 - 1.
Definition i64_max : Z := 2^63 - 1.
Definition i64_min : Z := - 2^63.
Definition u32_max : Z := 2^32 - 1.
Definition u64_max : Z := 2^64 - 1.
Definition i128_max : Z := 2^127 - 1.

(** A value kept in an unsigned 64-bit register: what a wrapping operation
    leaves. *)
Definition wrap64 (n : Z) : Z := n mod 2^64.

(** [u64::checked_mul] and [u64::checked_add]. *)
Definition checked_u64 (n : Z) : option Z := if n <=? u64_max then Some n else None.

(** ** Arithmetic automation *)

(** [lia] with the equations of every [/], [mod], [Z.quot] and [Z.rem]. *)
Ltac dlia := Z.to_euclidean_division_equations; lia.

(** Splits on every boolean comparison of integers in the goal, dropping the
    impossible branches. *)
Ltac zbool :=
  repeat match goal with
  | |- context [Z.leb ?a ?b] => destruct (Z.leb_spec a b); try lia
  | |- context [Z.ltb ?a ?b] => destruct (Z.ltb_spec a b); try lia
  | |- context [Z.eqb ?a ?b] => destruct (Z.eqb_spec a b); try lia
  end.

(** Turns a hypothesis about boolean connectives and comparisons into one about
    propositions. *)
Ltac bprop H :=
  rewrite ?orb_true_iff, ?orb_false_iff, ?andb_true_iff, ?andb_false_iff,
    ?negb_true_iff, ?negb_false_iff, ?orb_true_iff, ?orb_false_iff, ?andb_true_iff,
    ?andb_false_iff, ?Z.leb_le, ?Z.leb_gt, ?Z.ltb_lt, ?Z.ltb_ge, ?Z.eqb_eq, ?Z.eqb_neq in H.

(** Decides a closed proposition by evaluation, such as membership of a byte in
    a literal. *)
Ltac by_eval := apply (bool_decide_unpack _); vm_compute; exact I.

(** ** Loops

    A [while] or [loop] of the source: [step] runs the body once and says whether
    to go round again ([inl], with the next state) or to leave the loop with a
    value ([inr]); an error leaves it at once. [fuel] bounds the rounds, and
    [out] is the error of a loop cut short by it. [loop_fuel] is why neither
    matters: where a measure goes down every round, any fuel above it gives one
    result, whatever [out] is. *)

Fixpoint loop {St E A : Type} (step : St -> result E (St + A)) (fuel : nat) (out : E) (s : St)
    : result E A :=
  match fuel with
  | O => Err out
  | S fuel =>
      match step s with
      | Err e => Err e
      | Ok (inl s') => loop step fuel out s'
      | Ok (inr a) => Ok a
      end
  end.

Section loops.
Context {St E A : Type} (step : St -> result E (St + A)).
Implicit Types (s : St) (Inv : St -> Prop) (m : St -> nat).

Lemma loop_fuel Inv m :
  (forall s s', Inv s -> step s = Ok (inl s') -> Inv s' /\ (m s' < m s)%nat) ->
  forall f f' out out' s, Inv s -> (m s < f)%nat -> (m s < f')%nat ->
  loop step f out s = loop step f' out' s.
Proof.
  intros Hd f. induction f as [|f IH]; intros f' out out' s Hs Hf Hf'; [lia|].
  destruct f' as [|f']; [lia|]. simpl. destruct (step s) as [[s'|a]|e] eqn:Es; [|done..].
  destruct (Hd s s' Hs Es). apply IH; [done|lia..].
Qed.

(** The loop's rule: what every round keeps holds where it is left. *)
Lemma loop_Ok Inv :
  (forall s s', Inv s -> step s = Ok (inl s') -> Inv s') ->
  forall f out s a, Inv s -> loop step f out s = Ok a ->
  exists s', Inv s' /\ step s' = Ok (inr a).
Proof.
  intros Hd f out. induction f as [|f IH]; intros s a Hs H; [done|].
  simpl in H. destruct (step s) as [[s'|a']|e] eqn:Es; [|injection H as ->; eauto|done].
  apply (IH s'); eauto.
Qed.

Lemma loop_Err Inv m :
  (forall s s', Inv s -> step s = Ok (inl s') -> Inv s' /\ (m s' < m s)%nat) ->
  forall f out s e, Inv s -> (m s < f)%nat -> loop step f out s = Err e ->
  exists s', Inv s' /\ step s' = Err e.
Proof.
  intros Hd f out. induction f as [|f IH]; intros s e Hs Hf H; [lia|].
  simpl in H. destruct (step s) as [[s'|a']|e'] eqn:Es; [|done|injection H as ->; eauto].
  destruct (Hd s s' Hs Es). apply (IH s'); [done|lia|done].
Qed.

Lemma loop_ext Inv (step' : St -> result E (St + A)) :
  (forall s, Inv s -> step' s = step s) ->
  (forall s s', Inv s -> step s = Ok (inl s') -> Inv s') ->
  forall f out s, Inv s -> loop step' f out s = loop step f out s.
Proof.
  intros He Hd f out. induction f as [|f IH]; intros s Hs; [done|].
  simpl. rewrite He by done. destruct (step s) as [[s'|a]|e] eqn:Es; eauto.
Qed.

Lemma loop_continue f out s s' : step s = Ok (inl s') -> loop step (S f) out s = loop step f out s'.
Proof. intros Es. simpl. by rewrite Es. Qed.

Lemma loop_break f out s a : step s = Ok (inr a) -> loop step (S f) out s = Ok a.
Proof. intros Es. simpl. by rewrite Es. Qed.

(** A loop is what each round leaves to do: [den s] is the answer from [s]. *)
Lemma loop_den Inv m (den : St -> result E A) :
  (forall s, Inv s -> match step s with
     | Ok (inl s') => Inv s' /\ (m s' < m s)%nat /\ den s = den s'
     | Ok (inr a) => den s = Ok a
     | Err e => den s = Err e
     end) ->
  forall f out s, Inv s -> (m s < f)%nat -> loop step f out s = den s.
Proof.
  intros Hd f out. induction f as [|f IH]; intros s Hs Hf; [lia|].
  simpl. specialize (Hd s Hs). destruct (step s) as [[s'|a]|e]; [|done..].
  destruct Hd as (H1 & H2 & ->). apply IH; [done|lia].
Qed.
End loops.

(** Rounds of a loop, from one state to a later one. *)
Inductive rounds {St E A : Type} (step : St -> result E (St + A)) : St -> St -> Prop :=
  | rounds_refl s : rounds step s s
  | rounds_step s s' s'' : step s = Ok (inl s') -> rounds step s' s'' -> rounds step s s''.

Section rounds.
Context {St E A : Type} (step : St -> result E (St + A)).

Lemma rounds_trans s s' s'' : rounds step s s' -> rounds step s' s'' -> rounds step s s''.
Proof. induction 1; [done|]. intros. eapply rounds_step; eauto. Qed.

Lemma rounds_loop s s' : rounds step s s' ->
  exists n, forall f out, loop step (n + f) out s = loop step f out s'.
Proof.
  induction 1 as [s|s s1 s2 E1 _ [n IH]]; [by exists 0%nat|]. exists (S n). intros f out.
  simpl. by rewrite E1.
Qed.
End rounds.

(** ** Text *)

(** [str::strip_prefix]. *)
Fixpoint strip_of (prefix l : bytes) : option bytes :=
  match prefix, l with
  | [], l => Some l
  | p :: prefix, x :: l => if p =? x then strip_of prefix l else None
  | _ :: _, [] => None
  end.

Lemma strip_of_Some prefix l t : strip_of prefix l = Some t <-> l = prefix ++ t.
Proof.
  revert l. induction prefix as [|p prefix IH]; intros l; cbn [strip_of app]; [split; by intros [= ->]|].
  destruct l as [|x l]; [done|]. destruct (Z.eqb_spec p x) as [->|Hn]; [rewrite IH; split; [by intros ->|by intros [= ->]]|].
  split; [done|]. intros [= -> _]. done.
Qed.

(** ** Folds that may refuse *)

(** A [for] loop whose body ends in [?]. *)
Fixpoint try_fold {E A B : Type} (f : B -> A -> result E B) (b : B) (l : list A) : result E B :=
  match l with
  | [] => Ok b
  | x :: l => b ← f b x; try_fold f b l
  end.

Section try_folds.
Context {E A B : Type} (f : B -> A -> result E B).

Lemma try_fold_app b l l' : try_fold f b (l ++ l') = (b ← try_fold f b l; try_fold f b l').
Proof. revert b. induction l as [|x l IH]; intros b; [done|]. cbn. destruct (f b x); [apply IH|done]. Qed.

(** What every step keeps, the fold keeps. *)
Lemma try_fold_inv (Inv : B -> Prop) l :
  (forall b x b', x ∈ l -> Inv b -> f b x = Ok b' -> Inv b') ->
  forall b b', Inv b -> try_fold f b l = Ok b' -> Inv b'.
Proof.
  induction l as [|x l IH]; intros Hs b b' Hb H; simpl in H; [by injection H as <-|].
  apply bind_Ok in H as (b1 & E1 & H). refine (IH _ b1 b' _ H).
  - intros b2 y b3 Hy. apply Hs. by right.
  - eapply Hs; [by left|done|done].
Qed.

Lemma try_fold_ext (g : B -> A -> result E B) l :
  (forall b x, x ∈ l -> f b x = g b x) -> forall b, try_fold f b l = try_fold g b l.
Proof.
  intros H. induction l as [|x l IH]; intros b; [done|]. simpl. rewrite H by (by left).
  destruct (g b x); [|done]. apply IH. intros b' y Hy. apply H. by right.
Qed.

(** Two loops whose steps agree, place by place. *)
Lemma try_fold_places {A' : Type} (g : B -> A' -> result E B) l l' : length l = length l' ->
  (forall i x y, l !! i = Some x -> l' !! i = Some y -> forall b, f b x = g b y) ->
  forall b, try_fold f b l = try_fold g b l'.
Proof.
  revert l'. induction l as [|x l IH]; intros [|y l'] Hl H b; try done.
  simpl. rewrite (H O x y) by done. destruct (g b y); [|done]. apply IH; [by injection Hl|].
  intros i. apply (H (S i)).
Qed.
End try_folds.
