(* ===== verification/Order.v ===== *)
(** * Orders

    The order of text, and stable sorting: [slice::sort_by] of the standard library,
    which keeps elements the order calls equal as they came. *)

From stdpp Require Import sorting.
From S2P Require Import Prelude.

(** ** Comparisons that order everything *)

Class TotalLe {A : Type} (le : A -> A -> bool) : Prop := {
  le_total a b : le a b = false -> le b a = true;
  le_trans a b c : le a b = true -> le b c = true -> le a c = true;
}.

Lemma le_refl {A} (le : A -> A -> bool) `{!TotalLe le} a : le a a = true.
Proof. destruct (le a a) eqn:E; [done|]. by rewrite (le_total a a E) in E. Qed.

(** Elements compared by a key of theirs, and by a second comparison where the first
    says nothing. *)
Definition on {A B} (key : A -> B) (le : B -> B -> bool) (a b : A) : bool := le (key a) (key b).
Definition then_by {A} (le le' : A -> A -> bool) (a b : A) : bool := le a b && (negb (le b a) || le' a b).

#[export] Instance on_total {A B} (key : A -> B) le `{!TotalLe le} : TotalLe (on key le).
Proof. split; unfold on; intros; [by apply le_total|by eapply le_trans]. Qed.

#[export] Instance then_total {A} (le le' : A -> A -> bool) `{!TotalLe le, !TotalLe le'} : TotalLe (then_by le le').
Proof.
  split; unfold then_by; intros a b.
  - destruct (le a b) eqn:E1, (le b a) eqn:E2; cbn; try done; [apply le_total|]. by rewrite (le_total _ _ E1) in E2.
  - intros c. rewrite !andb_true_iff, !orb_true_iff, !negb_true_iff. intros [H1 H2] [H3 H4].
    split; [by eapply le_trans|]. destruct (le c a) eqn:E; [right|by left].
    assert (le b a = true) as Hba by (by eapply le_trans). assert (le c b = true) as Hcb by (by eapply le_trans).
    destruct H2 as [H2|H2]; [congruence|]. destruct H4 as [H4|H4]; [congruence|]. by eapply le_trans.
Qed.

#[export] Instance geb_total : TotalLe (λ a b : Z, b <=? a).
Proof. split; intros; lia. Qed.

(** ** Text *)

(** [str]'s order: byte by byte, a prefix first. *)
Fixpoint text_le (a b : bytes) : bool :=
  match a, b with
  | [], _ => true
  | _ :: _, [] => false
  | x :: a, y :: b => (x <? y) || ((x =? y) && text_le a b)
  end.
Definition text_order (a b : bytes) : Prop := text_le a b = true.
#[export] Instance text_order_dec : RelDecision text_order := λ a b, decide (text_le a b = true).

#[export] Instance text_order_trans : Transitive text_order.
Proof.
  unfold text_order. intros a. induction a as [|x a IH]; intros [|y b] [|z c]; cbn; try done.
  rewrite !orb_true_iff, !andb_true_iff, !Z.ltb_lt, !Z.eqb_eq. intros [H1|[-> H1]] [H2|[-> H2]]; [left; lia|auto|auto|].
  right. split; [done|]. by apply (IH b).
Qed.
#[export] Instance text_order_antisymm : AntiSymm (=) text_order.
Proof.
  unfold text_order. intros a. induction a as [|x a IH]; intros [|y b]; cbn; try done.
  rewrite !orb_true_iff, !andb_true_iff, !Z.ltb_lt, !Z.eqb_eq. intros [H1|[-> H1]] [H2|[E H2]]; try lia. f_equal. by apply IH.
Qed.
#[export] Instance text_order_total : Total text_order.
Proof.
  unfold text_order. intros a. induction a as [|x a IH]; intros [|y b]; cbn; auto.
  rewrite !orb_true_iff, !andb_true_iff, !Z.ltb_lt, !Z.eqb_eq. destruct (Z.lt_trichotomy x y) as [H|[->|H]]; [auto| |auto].
  destruct (IH b); auto.
Qed.

Lemma text_le_refl a : text_order a a.
Proof. destruct (total text_order a a); done. Qed.

Lemma text_le_app prefix t : text_order prefix (prefix ++ t).
Proof.
  unfold text_order. induction prefix as [|x prefix IH]; [done|]. cbn. rewrite Z.eqb_refl, IH. by rewrite orb_true_r.
Qed.

Lemma text_order_cancel a x y : text_order (a ++ x) (a ++ y) -> text_order x y.
Proof.
  unfold text_order. induction a as [|c a IH]; [done|]. cbn [app text_le]. rewrite orb_true_iff, andb_true_iff, Z.ltb_lt.
  intros [H|[_ H]]; [lia|by apply IH].
Qed.

#[export] Instance text_le_total : TotalLe text_le.
Proof.
  split; intros a b; [|intros c; apply text_order_trans]. intros H. destruct (total text_order a b) as [E|E]; [|done].
  unfold text_order in E. congruence.
Qed.

(** ** A stable sort *)

Section sorting.
Context {A : Type} (le : A -> A -> bool).

Fixpoint insert_by (x : A) (l : list A) : list A :=
  match l with
  | [] => [x]
  | y :: l => if le x y then x :: y :: l else y :: insert_by x l
  end.
Definition sort_by (l : list A) : list A := foldr insert_by [] l.
Definition in_order (a b : A) : Prop := le a b = true.

Lemma insert_perm x l : insert_by x l ≡ₚ x :: l.
Proof. induction l as [|y l IH]; [done|]. cbn [insert_by]. destruct (le x y); [done|]. rewrite IH. by constructor. Qed.

Lemma sort_perm l : sort_by l ≡ₚ l.
Proof. induction l as [|x l IH]; [done|]. cbn [sort_by foldr]. rewrite insert_perm. by constructor. Qed.

Context `{!TotalLe le}.

Lemma insert_in_order x l : StronglySorted in_order l -> StronglySorted in_order (insert_by x l).
Proof using All.
  induction 1 as [|y l Hs IH Hy]; [repeat constructor|]. cbn [insert_by]. destruct (le x y) eqn:E.
  - constructor; [by constructor|]. constructor; [done|]. eapply Forall_impl; [exact Hy|]. intros z. by apply le_trans.
  - constructor; [done|]. rewrite insert_perm. constructor; [by apply le_total|done].
Qed.

Lemma sort_sorted l : StronglySorted in_order (sort_by l).
Proof using All. induction l as [|x l IH]; [constructor|]. by apply insert_in_order. Qed.

(** Elements the order does not tell apart stay as they came. *)
Lemma insert_keeps (P : A -> bool) x l : (forall a b, P a = true -> P b = true -> le a b = true) ->
  List.filter P (insert_by x l) = List.filter P (x :: l).
Proof using All.
  intros HP. induction l as [|y l IH]; [done|]. cbn [insert_by]. destruct (le x y) eqn:E; [done|].
  cbn [List.filter] in *. rewrite IH. destruct (P x) eqn:Ex, (P y) eqn:Ey; try done. by rewrite (HP x y) in E.
Qed.

Lemma sort_keeps (P : A -> bool) l : (forall a b, P a = true -> P b = true -> le a b = true) ->
  List.filter P (sort_by l) = List.filter P l.
Proof using All.
  intros HP. induction l as [|x l IH]; [done|]. cbn [sort_by foldr]. rewrite insert_keeps by done. cbn [List.filter].
  unfold sort_by in IH. by rewrite IH.
Qed.
End sorting.
