(* ===== verification/Decimal.v ===== *)
(** * Decimal text

    What the standard library writes for an unsigned integer ([{}] and the
    zero-padded [{:0w}] of a format string), what [u8::is_ascii_digit] and a
    fold over digits read back, and the lemmas that relate the two. Every text
    form of the library (dates, times, spans, paths) is built from these. *)

From S2P Require Import Prelude.

Section decimal.
(** The digits of [n] put in front of [acc]; [fuel] bounds their number. *)
Fixpoint dec_onto (fuel : nat) (n : Z) (acc : bytes) : bytes :=
  match fuel with
  | O => acc
  | S fuel =>
      let acc := (48 + n mod 10) :: acc in
      if n <? 10 then acc else dec_onto fuel (n / 10) acc
  end.

(** [format!("{n}")] for an unsigned [n]. *)
Definition dec (n : Z) : bytes := dec_onto (S (Z.to_nat (Z.log2 n))) n [].

(** [format!("{n:0w}")]. *)
Definition pad (w : nat) (n : Z) : bytes :=
  let d := dec n in replicate (w - length d) 48 ++ d.

(** [run.iter().fold(0, |v, b| v * 10 + u32::from(b - b'0'))]. *)
Definition num_from (v : Z) (ds : bytes) : Z :=
  foldl (λ v b, v * 10 + (b - 48)) v ds.
Definition num (ds : bytes) : Z := num_from 0 ds.
End decimal.

Definition digits (ds : bytes) : Prop := Forall (λ b, is_digit b = true) ds.

Lemma is_digit_spec b : is_digit b = true <-> 48 <= b <= 57.
Proof. unfold is_digit. rewrite andb_true_iff, !Z.leb_le. lia. Qed.

Lemma is_digit_false b : is_digit b = false <-> b < 48 \/ 57 < b.
Proof. unfold is_digit. rewrite andb_false_iff, !Z.leb_gt. lia. Qed.

Lemma digits_app a b : digits (a ++ b) <-> digits a /\ digits b.
Proof. apply Forall_app. Qed.

Lemma digits_forallb ds : forallb is_digit ds = true <-> digits ds.
Proof. unfold digits. by rewrite forallb_forall, List.Forall_forall. Qed.

Lemma num_from_app v a b : num_from v (a ++ b) = num_from (num_from v a) b.
Proof. apply foldl_app. Qed.

Lemma num_from_lin ds : forall v,
  num_from v ds = v * 10 ^ Z.of_nat (length ds) + num ds.
Proof.
  unfold num. induction ds as [|d ds IH]; intros v; [simpl; lia|].
  change (num_from v (d :: ds)) with (num_from (v * 10 + (d - 48)) ds).
  change (num_from 0 (d :: ds)) with (num_from (0 * 10 + (d - 48)) ds).
  rewrite (IH (v * 10 + _)), (IH (0 * 10 + _)). cbn [length].
  rewrite Nat2Z.inj_succ, Z.pow_succ_r by lia. lia.
Qed.

Lemma num_app a b : num (a ++ b) = num a * 10 ^ Z.of_nat (length b) + num b.
Proof. unfold num at 1. rewrite num_from_app. apply num_from_lin. Qed.

Lemma num_cons d ds : num (d :: ds) = (d - 48) * 10 ^ Z.of_nat (length ds) + num ds.
Proof. change (d :: ds) with ([d] ++ ds). rewrite num_app. f_equal. Qed.

Lemma num_bound ds : digits ds -> 0 <= num ds < 10 ^ Z.of_nat (length ds).
Proof.
  induction 1 as [|d ds Hd _ IH]; [cbn; lia|].
  apply is_digit_spec in Hd. rewrite num_cons. cbn [length].
  rewrite Nat2Z.inj_succ, Z.pow_succ_r by lia. nia.
Qed.

Lemma num_replicate0 k : num (replicate k 48) = 0.
Proof.
  induction k as [|k IH]; [done|]. cbn [replicate]. rewrite num_cons, IH. lia.
Qed.

Lemma num_zeros k ds : num (replicate k 48 ++ ds) = num ds.
Proof. rewrite num_app, num_replicate0. lia. Qed.

Lemma digits_replicate0 k : digits (replicate k 48).
Proof. apply Forall_replicate. done. Qed.

(** The digits [dec_onto] puts down, as a list of their own: no leading zero
    past a lone one. *)
Lemma dec_onto_spec fuel : forall n acc,
  0 <= n < 2 ^ Z.of_nat fuel -> fuel <> 0%nat ->
  exists ds, dec_onto fuel n acc = ds ++ acc /\ digits ds /\ num ds = n /\
    ((n < 10 /\ ds = [48 + n]) \/ (10 <= n /\ exists d ds', ds = d :: ds' /\ 49 <= d)).
Proof.
  induction fuel as [|fuel IH]; intros n acc Hn Hf; [done|].
  rewrite Nat2Z.inj_succ, Z.pow_succ_r in Hn by lia.
  assert (Hd : is_digit (48 + n mod 10) = true).
  { apply is_digit_spec. pose proof (Z.mod_pos_bound n 10). lia. }
  cbn [dec_onto]. destruct (Z.ltb_spec n 10) as [Hlt|Hge].
  - exists [48 + n]. rewrite Z.mod_small in * by lia. unfold digits, num, num_from.
    cbn. split_and!; [done|by constructor|lia|left; split; [lia|done]].
  - destruct (IH (n / 10) ((48 + n mod 10) :: acc)) as (ds & -> & Hds & Hnum & Hhd).
    { split; [apply Z.div_pos; lia|apply Z.div_lt_upper_bound; lia]. }
    { destruct fuel; [|done]. cbn in Hn. lia. }
    exists (ds ++ [48 + n mod 10]). split_and!.
    + by rewrite <- app_assoc.
    + apply digits_app. split; [done|by constructor].
    + rewrite num_app, Hnum. unfold num, num_from. cbn.
      pose proof (Z.div_mod n 10). lia.
    + right. split; [done|].
      destruct Hhd as [[H10 ->]|[_ (d & ds' & -> & H)]]; simpl; eexists _, _;
        (split; [done|]); [|done].
      pose proof (Z.div_le_lower_bound n 10 1). lia.
Qed.

Lemma dec_spec n : 0 <= n ->
  digits (dec n) /\ num (dec n) = n /\
  ((n < 10 /\ dec n = [48 + n]) \/ (10 <= n /\ exists d ds', dec n = d :: ds' /\ 49 <= d)).
Proof.
  intros Hn. unfold dec.
  destruct (dec_onto_spec (S (Z.to_nat (Z.log2 n))) n []) as (ds & -> & H); [|done|].
  - split; [done|]. rewrite Nat2Z.inj_succ, Z2Nat.id by apply Z.log2_nonneg.
    destruct (Z.eq_dec n 0) as [->|]; [done|]. apply Z.log2_spec. lia.
  - rewrite app_nil_r. done.
Qed.

Lemma dec_digits n : 0 <= n -> digits (dec n).
Proof. intros. by apply dec_spec. Qed.

Lemma num_dec n : 0 <= n -> num (dec n) = n.
Proof. intros. by apply dec_spec. Qed.

Lemma dec_cons n : 0 <= n -> exists d ds, dec n = d :: ds /\ is_digit d = true.
Proof.
  intros Hn. destruct (dec_spec n Hn) as (Hd & _ & H).
  destruct (dec n) as [|d ds] eqn:E; [naive_solver|].
  exists d, ds. split; [done|]. by inversion Hd.
Qed.

Lemma dec_nonempty n : 0 <= n -> dec n <> [].
Proof. intros Hn. destruct (dec_cons n Hn) as (? & ? & -> & _). done. Qed.

Lemma dec_length w n : 0 <= n < 10 ^ Z.of_nat w -> (0 < w)%nat -> (length (dec n) <= w)%nat.
Proof.
  intros Hn Hw. destruct (dec_spec n) as (Hds & Hnum & H); [lia|].
  destruct H as [[_ ->]|[Hge (d & ds & E & Hd)]]; [simpl; lia|].
  rewrite E in *. cbn [length]. inversion Hds; subst.
  rewrite num_cons in *. pose proof (num_bound ds ltac:(assumption)).
  destruct (decide (S (length ds) ≤ w)%nat) as [|Hlt]; [done|exfalso].
  assert (10 ^ Z.of_nat w <= 10 ^ Z.of_nat (length ds)) by (apply Z.pow_le_mono_r; lia).
  nia.
Qed.

Lemma pad_digits w n : 0 <= n -> digits (pad w n).
Proof.
  intros. apply digits_app. split; [apply digits_replicate0|by apply dec_digits].
Qed.

Lemma num_pad w n : 0 <= n -> num (pad w n) = n.
Proof. intros. unfold pad. rewrite num_zeros. by apply num_dec. Qed.

Lemma pad_length w n : 0 <= n < 10 ^ Z.of_nat w -> (0 < w)%nat -> length (pad w n) = w.
Proof.
  intros Hn Hw. unfold pad. rewrite length_app, length_replicate.
  pose proof (dec_length w n Hn Hw). lia.
Qed.

(** Digit strings of one length are told apart by the number they spell. *)
Lemma num_inj a b : digits a -> digits b -> length a = length b -> num a = num b -> a = b.
Proof.
  revert b. induction a as [|x a IH]; intros [|y b] Ha Hb Hl Hn; try done.
  inversion Ha; inversion Hb; subst. injection Hl as Hl.
  rewrite !num_cons, Hl in Hn.
  pose proof (num_bound a ltac:(assumption)) as Ba.
  pose proof (num_bound b ltac:(assumption)) as Bb. rewrite Hl in Ba.
  assert (x = y) as -> by nia. f_equal. apply IH; auto. lia.
Qed.

Lemma pad_num w ds : digits ds -> length ds = w -> (0 < w)%nat -> pad w (num ds) = ds.
Proof.
  intros Hds Hl Hw. pose proof (num_bound ds Hds). rewrite Hl in *.
  apply num_inj; [apply pad_digits; lia|done| |apply num_pad; lia].
  rewrite pad_length; [done|lia|done].
Qed.

Lemma dec_inj a b : 0 <= a -> 0 <= b -> dec a = dec b -> a = b.
Proof. intros Ha Hb E. rewrite <- (num_dec a), <- (num_dec b), E; auto. Qed.

Create HintDb decimal.
Create Rewrite HintDb decimal.
#[export] Hint Resolve dec_digits pad_digits digits_replicate0 : decimal.
#[export] Hint Rewrite num_dec num_pad num_zeros num_replicate0 : decimal.

#[global] Arguments dec : simpl never.
#[global] Arguments pad : simpl never.
