(* ===== verification/Calendar.v ===== *)
(** * The proleptic Gregorian calendar

    The day arithmetic of [value/time/mod.rs]: days from 1970-01-01 to a civil
    date and back, leap years, month lengths. [/] and [%] on machine integers
    are [Z.quot] and [Z.rem]; [div_euclid] by a positive number is [Z.div].
    The reference the two conversions are measured against is the calendar
    itself: which date comes after which ([next_civil]). *)

From S2P Require Import Prelude.

(** Seconds in a day, nanoseconds in a second and in a day. *)
Definition DAY : Z := 86400.
Definition NANOS_PER_SECOND : Z := 1000000000.
Definition DAY_NANOS : Z := DAY * NANOS_PER_SECOND.

(** The writable years and days. *)
Definition YEARS (y : Z) : bool := (0 <=? y) && (y <=? 9999).
Definition FIRST_DAY : Z := -719528.
Definition LAST_DAY : Z := 2932896.

(** [as u32], [as u8] and [as i32] casts: the low bits. *)
Definition as_u8 (n : Z) : Z := n mod 2^8.
Definition as_u32 (n : Z) : Z := n mod 2^32.
Definition as_i32 (n : Z) : Z := (n + 2^31) mod 2^32 - 2^31.

Definition days_from_civil (y m d : Z) : Z :=
  let y := if m <=? 2 then y - 1 else y in
  let era := y / 400 in
  let yoe := y - era * 400 in
  let doy := Z.quot (153 * (if 2 <? m then m - 3 else m + 9) + 2) 5 + d - 1 in
  let doe := yoe * 365 + Z.quot yoe 4 - Z.quot yoe 100 + doy in
  era * 146097 + doe - 719468.

Definition civil_from_days (days : Z) : Z * Z * Z :=
  let z := days + 719468 in
  let era := z / 146097 in
  let doe := z - era * 146097 in
  let yoe := Z.quot (doe - Z.quot doe 1460 + Z.quot doe 36524 - Z.quot doe 146096) 365 in
  let doy := doe - (365 * yoe + Z.quot yoe 4 - Z.quot yoe 100) in
  let mp := Z.quot (5 * doy + 2) 153 in
  let d := as_u32 (doy - Z.quot (153 * mp + 2) 5 + 1) in
  let m := as_u32 (if mp <? 10 then mp + 3 else mp - 9) in
  let y := yoe + era * 400 + (if m <=? 2 then 1 else 0) in
  (y, m, d).

Definition is_leap (y : Z) : bool :=
  (Z.rem y 4 =? 0) && (negb (Z.rem y 100 =? 0) || (Z.rem y 400 =? 0)).

Definition days_in_month (y m : Z) : Z :=
  if (m =? 2) && is_leap y then 29
  else if m =? 2 then 28
  else if (m =? 4) || (m =? 6) || (m =? 9) || (m =? 11) then 30
  else 31.

(** ** The calendar itself *)

(** A date the calendar has. *)
Definition on_calendar (y m d : Z) : Prop :=
  1 <= m <= 12 /\ 1 <= d <= days_in_month y m.

(** The date after [y-m-d]. *)
Definition next_civil (c : Z * Z * Z) : Z * Z * Z :=
  let '(y, m, d) := c in
  if d <? days_in_month y m then (y, m, d + 1)
  else if m <? 12 then (y, m + 1, 1)
  else (y + 1, 1, 1).

(** The calendar's order on dates. *)
Definition civil_lt (c c' : Z * Z * Z) : Prop :=
  let '(y, m, d) := c in let '(y', m', d') := c' in
  y < y' \/ (y = y' /\ (m < m' \/ (m = m' /\ d < d'))).

(** ** Lemmas *)

Lemma is_leap_spec y :
  is_leap y = true <-> y mod 4 = 0 /\ (y mod 100 <> 0 \/ y mod 400 = 0).
Proof.
  unfold is_leap.
  rewrite andb_true_iff, orb_true_iff, negb_true_iff, Z.eqb_neq, !Z.eqb_eq.
  Z.to_euclidean_division_equations; lia.
Qed.

Lemma is_leap_false y :
  is_leap y = false <-> ~ (y mod 4 = 0 /\ (y mod 100 <> 0 \/ y mod 400 = 0)).
Proof. rewrite <- is_leap_spec. by destruct (is_leap y). Qed.

(** The length of each month, month by month. *)
Lemma days_in_month_cases y m : 1 <= m <= 12 ->
  (m = 2 /\ days_in_month y m = if is_leap y then 29 else 28) \/
  (m <> 2 /\ days_in_month y m = if decide (m = 4 \/ m = 6 \/ m = 9 \/ m = 11) then 30 else 31).
Proof.
  intros Hm. unfold days_in_month.
  destruct (Z.eqb_spec m 2) as [->|Hm2]; [by left; destruct (is_leap y)|].
  right. split; [done|]. cbn [andb].
  destruct (Z.eqb_spec m 4), (Z.eqb_spec m 6), (Z.eqb_spec m 9), (Z.eqb_spec m 11);
    simpl; case_decide; lia.
Qed.

Lemma days_in_month_bounds y m : 28 <= days_in_month y m <= 31.
Proof.
  unfold days_in_month. destruct (m =? 2), (is_leap y); simpl; [lia..| |];
  destruct (_ || _); lia.
Qed.

(** Days from 0000-03-01 to the first of March of [y], in closed form. *)
Definition march_days (y : Z) : Z := 365 * y + y / 4 - y / 100 + y / 400.

(** Days from the first of March to the first of month [mp] of the year that
    starts there, March being 0. *)
Definition month_start (mp : Z) : Z := (153 * mp + 2) / 5.

Lemma days_from_civil_closed y m d : 1 <= m <= 12 ->
  days_from_civil y m d =
    march_days (if m <=? 2 then y - 1 else y) +
    month_start (if 2 <? m then m - 3 else m + 9) + d - 1 - 719468.
Proof.
  intros Hm. unfold days_from_civil, march_days, month_start.
  set (y' := if m <=? 2 then y - 1 else y).
  rewrite !Z.quot_div_nonneg by
    (first [destruct (2 <? m) eqn:E; lia | Z.div_mod_to_equations; lia]).
  set (mp := if 2 <? m then m - 3 else m + 9).
  clearbody y' mp. Z.div_mod_to_equations; lia.
Qed.

Lemma march_days_step y :
  march_days y = march_days (y - 1) + (if is_leap y then 366 else 365).
Proof.
  unfold march_days. destruct (is_leap y) eqn:E.
  - apply is_leap_spec in E. Z.div_mod_to_equations; lia.
  - apply is_leap_false in E. Z.div_mod_to_equations; lia.
Qed.

Lemma march_days_mono y y' : y <= y' -> march_days y + 365 * (y' - y) <= march_days y'.
Proof. intros. unfold march_days. Z.div_mod_to_equations; lia. Qed.

(** The day before a month's first is the last of the month before it. *)
Lemma days_from_civil_next y m d : on_calendar y m d ->
  forall y' m' d', next_civil (y, m, d) = (y', m', d') ->
  days_from_civil y' m' d' = days_from_civil y m d + 1 /\ on_calendar y' m' d'.
Proof.
  intros [Hm Hd] y' m' d' E. unfold next_civil in E.
  destruct (Z.ltb_spec d (days_in_month y m)).
  { injection E as <- <- <-. rewrite !days_from_civil_closed by lia.
    unfold on_calendar. lia. }
  assert (d = days_in_month y m) as -> by lia. clear H Hd.
  pose proof (days_in_month_bounds y' m').
  destruct (Z.ltb_spec m 12); injection E as <- <- <-; rewrite !days_from_civil_closed by lia.
  - split; [|unfold on_calendar; lia].
    pose proof (march_days_step y). unfold month_start.
    pose proof (days_in_month_cases y m Hm) as Hdm.
    assert (m = 1 \/ m = 2 \/ m = 3 \/ m = 4 \/ m = 5 \/ m = 6 \/ m = 7 \/ m = 8 \/
            m = 9 \/ m = 10 \/ m = 11) as Hc by lia.
    zbool; case_decide; destruct (is_leap y); dlia.
  - assert (m = 12) as -> by lia. split; [|unfold on_calendar; lia].
    unfold month_start, days_in_month. cbn [Z.eqb Pos.eqb andb orb].
    replace (y + 1 - 1) with y by lia. zbool. dlia.
Qed.

(** The year of the era, from a day of the era: the formula is exact on every
    day of the 400-year cycle. *)
Lemma yoe_of_doe a b c doy :
  0 <= a < 4 -> 0 <= b < 25 -> 0 <= c < 4 ->
  0 <= doy <= 365 -> (doy = 365 -> a = 3 /\ (b <> 24 \/ c = 3)) ->
  let doe := 36524 * c + 1461 * b + 365 * a + doy in
  (doe - doe / 1460 + doe / 36524 - doe / 146096) / 365 = 100 * c + 4 * b + a.
Proof.
  intros Ha Hb Hc Hd Hl doe. subst doe.
  assert (c = 0 \/ c = 1 \/ c = 2 \/ c = 3) as Hcc by lia.
  assert (a = 0 \/ a = 1 \/ a = 2 \/ a = 3) as Haa by lia.
  destruct Hcc as [-> | [-> | [-> | ->]]], Haa as [-> | [-> | [-> | ->]]];
    Z.div_mod_to_equations; lia.
Qed.

(** Every day of the era is a day of one of its 400 years. *)
Lemma doe_split doe : 0 <= doe < 146097 ->
  exists a b c doy, 0 <= a < 4 /\ 0 <= b < 25 /\ 0 <= c < 4 /\ 0 <= doy <= 365 /\
    (doy = 365 -> a = 3 /\ (b <> 24 \/ c = 3)) /\
    doe = 36524 * c + 1461 * b + 365 * a + doy.
Proof.
  intros H.
  set (c := Z.min 3 (doe / 36524)). set (r := doe - 36524 * c).
  set (b := r / 1461). set (r2 := r - 1461 * b).
  set (a := Z.min 3 (r2 / 365)).
  exists a, b, c, (r2 - 365 * a).
  assert (0 <= c < 4) by (unfold c; Z.div_mod_to_equations; lia).
  assert (0 <= r < 36525 /\ (c <> 3 -> r < 36524)) by
    (unfold r, c in *; Z.div_mod_to_equations; lia).
  assert (0 <= b < 25) by (unfold b; Z.div_mod_to_equations; lia).
  assert (0 <= r2 < 1461 /\ (b = 24 -> c <> 3 -> r2 < 1460)) by
    (unfold r2, b in *; Z.div_mod_to_equations; lia).
  assert (0 <= a < 4 /\ 0 <= r2 - 365 * a <= 365 /\ (r2 - 365 * a = 365 -> r2 = 1460 /\ a = 3))
    by (unfold a; Z.div_mod_to_equations; lia).
  unfold r2, r in *. lia.
Qed.

(** The era's day number of a date counted from March. *)
Lemma march_days_doe y a b c : y - (y / 400) * 400 = 100 * c + 4 * b + a ->
  0 <= a < 4 -> 0 <= b < 25 -> 0 <= c < 4 ->
  march_days y = y / 400 * 146097 + 36524 * c + 1461 * b + 365 * a.
Proof.
  intros E Ha Hb Hc. unfold march_days.
  replace (y / 100) with (y / 400 * 4 + c) by dlia.
  replace (y / 4) with (y / 400 * 100 + 25 * c + b) by dlia. lia.
Qed.

(** [civil_from_days] of a day number written as an era, a year of it and a day
    of that year. *)
Lemma civil_from_days_at era a b c doy :
  0 <= a < 4 -> 0 <= b < 25 -> 0 <= c < 4 ->
  0 <= doy <= 365 -> (doy = 365 -> a = 3 /\ (b <> 24 \/ c = 3)) ->
  civil_from_days (era * 146097 + 36524 * c + 1461 * b + 365 * a + doy - 719468) =
    (let mp := (5 * doy + 2) / 153 in
     let m := if mp <? 10 then mp + 3 else mp - 9 in
     (100 * c + 4 * b + a + era * 400 + (if m <=? 2 then 1 else 0), m,
      doy - month_start mp + 1)).
Proof.
  intros Ha Hb Hc Hd Hl. unfold civil_from_days.
  set (doe := 36524 * c + 1461 * b + 365 * a + doy).
  assert (0 <= doe < 146097) by (unfold doe; lia).
  replace (era * 146097 + 36524 * c + 1461 * b + 365 * a + doy - 719468 + 719468)
    with (doe + era * 146097) by (unfold doe; lia).
  rewrite Z.div_add, Z.div_small, Z.add_0_l by lia.
  replace (doe + era * 146097 - era * 146097) with doe by lia.
  rewrite !(Z.quot_div_nonneg doe) by lia.
  pose proof (yoe_of_doe a b c doy Ha Hb Hc Hd Hl) as Hy. cbv zeta in Hy. fold doe in Hy.
  rewrite (Z.quot_div_nonneg _ 365) by dlia. rewrite Hy.
  rewrite !(Z.quot_div_nonneg (100 * c + 4 * b + a)) by lia.
  replace (doe - (365 * (100 * c + 4 * b + a) + (100 * c + 4 * b + a) / 4 -
    (100 * c + 4 * b + a) / 100)) with doy by (unfold doe; dlia).
  rewrite (Z.quot_div_nonneg (5 * doy + 2)) by lia.
  set (mp := (5 * doy + 2) / 153). assert (0 <= mp <= 11) by (unfold mp; dlia).
  unfold month_start. rewrite (Z.quot_div_nonneg (153 * mp + 2)) by lia.
  unfold as_u32. cbv zeta.
  rewrite (Z.mod_small (if mp <? 10 then _ else _)) by (zbool; lia).
  rewrite (Z.mod_small (doy - _ + 1)) by (unfold mp; dlia).
  done.
Qed.

(** A day of a March year, by month: the month it falls in, and that the month
    has it. *)
Lemma doy_month y doy : 0 <= doy <= 365 ->
  (doy = 365 -> is_leap (y + 1) = true) ->
  let mp := (5 * doy + 2) / 153 in
  let m := if mp <? 10 then mp + 3 else mp - 9 in
  on_calendar (y + (if m <=? 2 then 1 else 0)) m (doy - month_start mp + 1).
Proof.
  intros Hd Hl mp m. assert (0 <= mp <= 11) by (unfold mp; dlia).
  assert (Hm : 1 <= m <= 12) by (unfold m; zbool; lia).
  split; [done|].
  destruct (days_in_month_cases (y + (if m <=? 2 then 1 else 0)) m Hm) as [[E ->]|[E ->]].
  - rewrite E. cbn [Z.leb Z.compare Pos.compare Pos.compare_cont].
    assert (mp = 11) as Emp by (unfold m in E; revert E; zbool; lia).
    unfold month_start. rewrite Emp. unfold mp in Emp.
    destruct (is_leap (y + 1)) eqn:EL; [dlia|].
    assert (doy <> 365) by (intros ->; specialize (Hl eq_refl); done). dlia.
  - assert (mp <> 11) by (intros E'; apply E; unfold m; rewrite E'; done).
    unfold month_start. case_decide as Hc; revert Hc; unfold m, mp in *; zbool; dlia.
Qed.

Lemma era_year_leap era a b c :
  0 <= a < 4 -> 0 <= b < 25 -> 0 <= c < 4 -> a = 3 -> b <> 24 \/ c = 3 ->
  is_leap (100 * c + 4 * b + a + era * 400 + 1) = true.
Proof. intros. apply is_leap_spec. dlia. Qed.

(** Every day number is the day number of the date it converts to, which the
    calendar has. *)
Lemma days_of_civil_of_days n :
  let '(y, m, d) := civil_from_days n in
  on_calendar y m d /\ days_from_civil y m d = n.
Proof.
  set (era := (n + 719468) / 146097).
  destruct (doe_split (n + 719468 - era * 146097)) as (a & b & c & doy & Ha & Hb & Hc & Hd & Hl & E);
    [unfold era; dlia|].
  replace n with (era * 146097 + 36524 * c + 1461 * b + 365 * a + doy - 719468) by lia.
  rewrite civil_from_days_at by done. cbv zeta.
  set (mp := (5 * doy + 2) / 153). set (m := if mp <? 10 then mp + 3 else mp - 9).
  assert (0 <= mp <= 11) by (unfold mp; dlia).
  split.
  - apply doy_month; [done|]. intros E'. apply era_year_leap; naive_solver lia.
  - rewrite days_from_civil_closed by (unfold m; zbool; lia).
    replace (if m <=? 2 then 100 * c + 4 * b + a + era * 400 + (if m <=? 2 then 1 else 0) - 1
             else 100 * c + 4 * b + a + era * 400 + (if m <=? 2 then 1 else 0))
      with (100 * c + 4 * b + a + era * 400) by (zbool; lia).
    replace (if 2 <? m then m - 3 else m + 9) with mp by (unfold m; zbool; lia).
    rewrite (march_days_doe _ a b c) by (try lia; dlia).
    replace ((100 * c + 4 * b + a + era * 400) / 400) with era by dlia. lia.
Qed.

(** The day of the March year of a date the calendar has. *)
Lemma march_doy y m d : on_calendar y m d ->
  let mp := if 2 <? m then m - 3 else m + 9 in
  let doy := month_start mp + d - 1 in
  0 <= doy <= 365 /\ (doy = 365 -> is_leap y = true /\ m <= 2) /\
  (5 * doy + 2) / 153 = mp.
Proof.
  intros [Hm Hd] mp doy.
  assert (0 <= mp <= 11) by (unfold mp; zbool; lia).
  unfold doy, month_start.
  destruct (days_in_month_cases y m Hm) as [[E Ed]|[E Ed]]; rewrite Ed in Hd.
  - subst m. unfold mp in *. cbn in Hd |- *. destruct (is_leap y); dlia.
  - unfold mp in *. revert Hd. zbool; case_decide; intros; split_and!; dlia.
Qed.

Lemma civil_of_days_of_civil y m d : on_calendar y m d ->
  civil_from_days (days_from_civil y m d) = (y, m, d).
Proof.
  intros Hc. pose proof Hc as [Hm Hd]. rewrite days_from_civil_closed by lia.
  destruct (march_doy y m d Hc) as (Hdoy & Hleap & Emp).
  set (mp := if 2 <? m then m - 3 else m + 9) in *.
  set (doy := month_start mp + d - 1) in *.
  set (y' := if m <=? 2 then y - 1 else y).
  set (yoe := y' - y' / 400 * 400). assert (0 <= yoe < 400) by (unfold yoe; dlia).
  set (c := yoe / 100). set (b := yoe mod 100 / 4). set (a := yoe mod 4).
  assert (0 <= a < 4 /\ 0 <= b < 25 /\ 0 <= c < 4 /\ yoe = 100 * c + 4 * b + a) as (Ha & Hb & Hcc & Ey)
    by (unfold a, b, c; dlia).
  rewrite (march_days_doe y' a b c) by done.
  replace (y' / 400 * 146097 + 36524 * c + 1461 * b + 365 * a + month_start mp + d - 1 - 719468)
    with (y' / 400 * 146097 + 36524 * c + 1461 * b + 365 * a + doy - 719468) by (unfold doy; lia).
  rewrite civil_from_days_at; [|done..|].
  - cbv zeta. rewrite Emp. unfold doy.
    assert (Em : (if mp <? 10 then mp + 3 else mp - 9) = m) by (unfold mp; zbool; lia).
    rewrite Em. repeat f_equal; [|lia]. unfold y' in *. revert Ey. zbool; intros; unfold yoe in *; lia.
  - intros E. destruct (Hleap E) as [EL Hm2]. apply is_leap_spec in EL.
    unfold y' in *. destruct (Z.leb_spec m 2); [|lia].
    assert (Ey' : y = 400 * ((y - 1) / 400) + 100 * c + 4 * b + a + 1) by (unfold yoe in *; lia).
    clear -EL Ey' Ha Hb Hcc. generalize dependent ((y - 1) / 400). intros. dlia.
Qed.

Lemma days_from_civil_inj y m d y' m' d' : on_calendar y m d -> on_calendar y' m' d' ->
  days_from_civil y m d = days_from_civil y' m' d' -> (y, m, d) = (y', m', d').
Proof.
  intros H H' E. rewrite <- (civil_of_days_of_civil _ _ _ H), E.
  by apply civil_of_days_of_civil.
Qed.

#[global] Arguments days_from_civil : simpl never.
#[global] Arguments civil_from_days : simpl never.
#[global] Arguments days_in_month : simpl never.
#[global] Arguments is_leap : simpl never.

(** The first day of the month that is [k] months after January of year 0. *)
Definition month_first (k : Z) : Z := days_from_civil (k / 12) (k mod 12 + 1) 1.

Lemma month_first_day y m d : 1 <= m <= 12 ->
  days_from_civil y m d = month_first (12 * y + m - 1) + d - 1.
Proof.
  intros Hm. unfold month_first.
  replace ((12 * y + m - 1) / 12) with y by dlia.
  replace ((12 * y + m - 1) mod 12 + 1) with m by dlia.
  rewrite !days_from_civil_closed by done. lia.
Qed.

Lemma month_first_step y m : 1 <= m <= 12 ->
  month_first (12 * y + m) = month_first (12 * y + m - 1) + days_in_month y m.
Proof.
  intros Hm. pose proof (days_in_month_bounds y m) as Hb.
  pose proof (days_from_civil_next y m (days_in_month y m) ltac:(split; lia)) as H.
  rewrite (month_first_day y m) in H by done. unfold next_civil in H.
  destruct (Z.ltb_spec (days_in_month y m) (days_in_month y m)); [lia|].
  destruct (Z.ltb_spec m 12).
  - destruct (H y (m + 1) 1 eq_refl) as [E _]. rewrite month_first_day in E by lia.
    replace (12 * y + (m + 1) - 1) with (12 * y + m) in E by lia. lia.
  - destruct (H (y + 1) 1 1 eq_refl) as [E _]. rewrite month_first_day in E by lia.
    replace (12 * (y + 1) + 1 - 1) with (12 * y + m) in E by lia. lia.
Qed.

Lemma month_first_mono k n : 0 <= n -> month_first k <= month_first (k + n).
Proof.
  revert n. apply natlike_ind; [by rewrite Z.add_0_r|]. intros n Hn IH.
  pose proof (month_first_step ((k + n) / 12) ((k + n) mod 12 + 1) ltac:(dlia)) as E.
  pose proof (days_in_month_bounds ((k + n) / 12) ((k + n) mod 12 + 1)).
  replace (12 * ((k + n) / 12) + ((k + n) mod 12 + 1)) with (k + Z.succ n) in E by dlia.
  replace (k + Z.succ n - 1) with (k + n) in E by lia. lia.
Qed.

(** Counting days is monotone in the calendar's order. *)
Lemma days_from_civil_mono y m d y' m' d' : on_calendar y m d -> on_calendar y' m' d' ->
  civil_lt (y, m, d) (y', m', d') -> days_from_civil y m d < days_from_civil y' m' d'.
Proof.
  intros [Hm Hd] [Hm' Hd'] Hlt. rewrite !month_first_day by done.
  destruct (decide (12 * y + m = 12 * y' + m')) as [E|E].
  - assert (y = y') as -> by lia. assert (m = m') as -> by lia. simpl in Hlt. lia.
  - pose proof (month_first_step y m Hm).
    pose proof (month_first_mono (12 * y + m) (12 * y' + m' - 1 - (12 * y + m))
      ltac:(simpl in Hlt; lia)) as H'.
    replace (12 * y + m + _) with (12 * y' + m' - 1) in H' by lia. lia.
Qed.

(** ** Properties *)

(** The day count and the calendar are inverse to one another: every day
    number is the day count of the one calendar date [civil_from_days] gives it,
    and every calendar date is what its day count converts back to. *)
Theorem days_civil_bijection :
  (forall n y m d, civil_from_days n = (y, m, d) <->
     on_calendar y m d /\ days_from_civil y m d = n).
Proof.
  intros n y m d. split.
  - intros E. pose proof (days_of_civil_of_days n) as H. rewrite E in H. exact H.
  - intros [Hc <-]. by apply civil_of_days_of_civil.
Qed.

(** The day count is the calendar's own order: a date comes before another
    exactly when its day count is smaller, and the date after a date is counted
    one more, so no day of the calendar is skipped or counted twice. *)
Theorem days_count_in_order (y m d y' m' d' : Z)
    (H : on_calendar y m d) (H' : on_calendar y' m' d') :
  (civil_lt (y, m, d) (y', m', d') <-> days_from_civil y m d < days_from_civil y' m' d') /\
  (next_civil (y, m, d) = (y', m', d') <-> days_from_civil y' m' d' = days_from_civil y m d + 1).
Proof.
  split.
  - split; [by apply days_from_civil_mono|]. intros Hlt.
    assert (civil_lt (y, m, d) (y', m', d') \/ (y, m, d) = (y', m', d') \/
      civil_lt (y', m', d') (y, m, d)) as [?|[[= -> -> ->]|Hgt]]; [|done|lia|].
    + simpl. destruct (Z.lt_trichotomy y y') as [?|[->|?]]; [lia| |lia].
      destruct (Z.lt_trichotomy m m') as [?|[->|?]]; [lia| |lia].
      destruct (Z.lt_trichotomy d d') as [?|[->|?]]; [lia|auto|lia].
    + apply days_from_civil_mono in Hgt; [lia|done..].
  - split; [by intros E; apply (days_from_civil_next y m d H)|]. intros E.
    destruct (next_civil (y, m, d)) as [[y0 m0] d0] eqn:En.
    destruct (days_from_civil_next y m d H _ _ _ En) as [E0 H0].
    rewrite <- E in E0. apply days_from_civil_inj in E0; [|done..]. done.
Qed.

Lemma days_count_in_order_witness :
  next_civil (1900, 2, 28) = (1900, 3, 1) <->
  days_from_civil 1900 3 1 = days_from_civil 1900 2 28 + 1.
Proof.
  apply (days_count_in_order 1900 2 28 1900 3 1); split; vm_compute; split; discriminate.
Defined.
