(* ===== verification/Errors.v ===== *)
(** * Why a write or a read was refused

    The error types of [value/alloc.rs] and [value/error.rs], and the depth
    bound every recursive walk shares. *)

From S2P Require Import Prelude.

(** [AllocError]. *)
Inductive AllocError : Type :=
  | AllocNull
  | AllocTooSmall (declared need : Z)
  | NoAllocFn
  | NoFreeFn
  | AllocFailed
  | AllocTooLarge.

(** [ValueError]. [Unparsed]'s expectation is the phrase the source shows. *)
Inductive ValueError : Type :=
  | VAlloc (e : AllocError)
  | NotANumber
  | NotUtf8
  | WrongKind
  | UnknownTag (tag : Z)
  | OutOfRange
  | TooDeep
  | DuplicateKey
  | Unrepresentable
  | Unparsed (at_ : nat) (expected : string).

#[export] Instance AllocError_eq_dec : EqDecision AllocError.
Proof. solve_decision. Defined.
#[export] Instance ValueError_eq_dec : EqDecision ValueError.
Proof. solve_decision. Defined.

(** [MAX_DEPTH]. *)
Definition MAX_DEPTH : nat := 128.

(** How an operation that may panic ends without a value: refused with an error
    of its own, or stopped by an [expect], an [unreachable!] or an index out of
    range. Loops and recursions bounded by fuel also end in [Panic] when it runs
    out; where it never does is a theorem. *)
Inductive fault (E : Type) : Type :=
  | Refuse (e : E)
  | Panic.
Arguments Refuse {E} e.
Arguments Panic {E}.

#[export] Instance fault_eq_dec `{EqDecision E} : EqDecision (fault E).
Proof. solve_decision. Defined.

(** [?] through a [From] conversion of the error. *)
Definition fault_map {E F : Type} (f : E -> F) (x : fault E) : fault F :=
  match x with Refuse e => Refuse (f e) | Panic => Panic end.
