(* ===== verification/SchemaErrors.v ===== *)
(** * What validation refuses with

    The errors of [schema/mod.rs]: here, before the wire's, which carry them. *)

From Stdlib Require Import SpecFloat.
From S2P Require Import Prelude Errors.

#[export] Instance spec_float_eq_dec : EqDecision spec_float.
Proof. solve_decision. Defined.

(** [ValidationError]. The phrase that says what was expected is given by what it
    interpolates, not spelled; the last four are those of a path into a store. *)

(** [Bounds]: each the exact text that declared it. *)
Record Bounds := MkBounds {
  bmin : option bytes; bmax : option bytes; exclusive_min : option bytes; exclusive_max : option bytes }.

Inductive Expected : Type :=
  | NoDeeper
  | OtherThan (names : list bytes)
  | Lengths (min max : option Z)
  | TextMatching (pattern : bytes)
  | BooleanText
  | Boolean
  | WholeNumber
  | ANumber
  | Within (b : Bounds)
  | WithinNoMinus (b : Bounds)
  | MultipleOf (step : spec_float)
  | OneOfMembers (names : list bytes)
  | OneOfArms (names : list bytes)
  | ExpectNull
  | AcceptedForm
  | DeclaredKind
  | SomeText
  | SomeBytes
  | AList
  | ListOf (min max : option Z)
  | TupleOf (min max : option Z)
  | AtMost (n : nat)
  | Unrepeated
  | AnObject
  | TextKeys
  | ReadableKey
  | NotAField (name : bytes)
  | NotOfTheArm (name chosen : bytes)
  | RequiredValue
  | RequiredByArm (chosen : bytes)
  | Discriminated (tag : bytes)
  | NamingOneOf (tag : bytes) (names : list bytes)
  | MapOfValues
  | WithMembers (whole : bytes)
  | NamingAnArm (names : list bytes) (whole : bytes)
  | NothingInArm (chosen walked : bytes)
  | OnlyInArm (chosen walked : bytes) (accepted : list bytes).

Inductive ValidationError : Type :=
  | UnknownOption (key : bytes) (known : list bytes)
  | BadValue (key : bytes) (expected : Expected).

#[export] Instance Bounds_eq_dec : EqDecision Bounds.
Proof. solve_decision. Defined.
#[export] Instance Expected_eq_dec : EqDecision Expected.
Proof. solve_decision. Defined.
#[export] Instance ValidationError_eq_dec : EqDecision ValidationError.
Proof. solve_decision. Defined.
