(* ===== verification/Reader.v ===== *)
(** * The cursor over date and time text

    [Reader] of [value/time/mod.rs]: a position in a text, moved by the parsing
    steps, each of which refuses with [Unparsed] at the byte it stopped at; and
    [write_fraction], which writes what the fraction parser reads. The steps
    thread the cursor; a refusal keeps only its position, as [?] does. *)

From S2P Require Import Prelude Decimal Calendar Errors.

(** [Reader<'a>]. *)
Record Reader := MkReader { text : bytes; pos : nat }.

Definition new_reader (t : bytes) : Reader := MkReader t 0.

(** [self.at += n]. *)
Definition adv (n : nat) (r : Reader) : Reader := MkReader (text r) (pos r + n).

Definition refuse {A} (r : Reader) (expected : string) : result ValueError A :=
  Err (Unparsed (pos r) expected).

(** [Reader::digits]: exactly [n] ASCII digits, as a number. *)
Definition digits_n (n : nat) (expected : string) (r : Reader) : result ValueError (Z * Reader) :=
  if decide (pos r + n <= length (text r))%nat then
    let run := take n (drop (pos r) (text r)) in
    if forallb is_digit run then Ok (num run, adv n r) else refuse r expected
  else refuse r expected.

(** [Reader::field]: two digits from [lo] to [hi]. *)
Definition field (lo hi : Z) (expected : string) (r : Reader) : result ValueError (Z * Reader) :=
  '(v, r') ← digits_n 2 expected r;
  if (v <? lo) || (hi <? v) then refuse r expected else Ok (v, r').

(** [Reader::byte]. *)
Definition byte_of (any_of : bytes) (expected : string) (r : Reader) : result ValueError (byte * Reader) :=
  match text r !! pos r with
  | Some b => if decide (b ∈ any_of) then Ok (b, adv 1 r) else refuse r expected
  | None => refuse r expected
  end.

(** [Reader::end]. *)
Definition end_ (expected : string) (r : Reader) : result ValueError unit :=
  if decide (pos r = length (text r)) then Ok tt else refuse r expected.

(** [while self.text.get(self.at).is_some_and(u8::is_ascii_digit)]: how many. *)
Fixpoint digit_run (l : bytes) : nat :=
  match l with
  | b :: l => if is_digit b then S (digit_run l) else 0
  | [] => 0
  end.

(** [digits.ends_with('0')] and [digits.pop()], until it does not. *)
Fixpoint strip_zeros (l : bytes) : bytes :=
  match l with
  | [] => []
  | b :: l =>
      match strip_zeros l with
      | [] => if b =? 48 then [] else [b]
      | l' => b :: l'
      end
  end.

(** [write_fraction]: [.] and the nanoseconds with trailing zeros removed, or
    nothing for 0. *)
Definition write_fraction (out : bytes) (nanos : Z) : bytes :=
  if nanos =? 0 then out else out ++ bs "." ++ strip_zeros (pad 9 nanos).

(** ** What is left to read *)

#[global] Arguments adv : simpl never.

Definition rest (r : Reader) : bytes := drop (pos r) (text r).

Lemma rest_new t : rest (new_reader t) = t.
Proof. done. Qed.

Lemma rest_adv n r : rest (adv n r) = drop n (rest r).
Proof. unfold rest, adv. simpl. by rewrite drop_drop. Qed.

(** ** Steps as grammars

    What a step of the cursor takes off the text, in the two directions a
    reader's correctness has. [sound p P]: whatever [p] takes is in the relation
    [P] between texts and values. [accepts p l v tl]: [p] takes [l] for [v] when
    [tl] follows it. Both compose along the bind the steps are chained with. *)

Definition sound {A} (p : Reader -> result ValueError (A * Reader)) (P : bytes -> A -> Prop) : Prop :=
  forall r v r', p r = Ok (v, r') -> exists l, P l v /\ r' = adv (length l) r /\ rest r = l ++ rest r'.

Definition accepts {A} (p : Reader -> result ValueError (A * Reader)) (l : bytes) (v : A)
    (tl : bytes) : Prop :=
  forall r, rest r = l ++ tl -> p r = Ok (v, adv (length l) r).

Lemma adv_adv m n r : adv n (adv m r) = adv (m + n) r.
Proof. unfold adv. simpl. f_equal. lia. Qed.

Lemma rest_took r l tl : rest r = l ++ tl -> rest (adv (length l) r) = tl.
Proof. intros E. by rewrite rest_adv, E, drop_app_length. Qed.

Section steps.
Context {A B : Type}.
Implicit Types (p : Reader -> result ValueError (A * Reader)).
Implicit Types (f : A -> Reader -> result ValueError (B * Reader)).

Lemma sound_bind p f P (Q : A -> bytes -> B -> Prop) :
  sound p P -> (forall a, sound (f a) (Q a)) ->
  sound (λ r, '(a, r) ← p r; f a r)
    (λ l v, exists l1 l2 a, l = l1 ++ l2 /\ P l1 a /\ Q a l2 v).
Proof.
  intros Hp Hf r v r' H. apply bind_Ok in H as ([a r1] & H1 & H2).
  apply Hp in H1 as (l1 & HP & -> & E1). apply Hf in H2 as (l2 & HQ & -> & E2).
  exists (l1 ++ l2). rewrite adv_adv, length_app. split; [by exists l1, l2, a|].
  split; [done|]. by rewrite E1, E2, adv_adv, app_assoc.
Qed.

Lemma accepts_bind p f l1 l2 a v tl :
  accepts p l1 a (l2 ++ tl) -> accepts (f a) l2 v tl ->
  accepts (λ r, '(a, r) ← p r; f a r) (l1 ++ l2) v tl.
Proof.
  intros Hp Hf r E. rewrite <- app_assoc in E. rewrite (Hp r E). cbn [mbind result_bind].
  rewrite (Hf (adv (length l1) r) (rest_took r l1 _ E)), adv_adv, length_app. done.
Qed.

Lemma sound_ret (v : A) : sound (λ r, Ok (v, r)) (λ l v', l = [] /\ v' = v).
Proof.
  intros r v' r' [= <- <-]. exists []. split; [done|]. split; [|done].
  unfold adv. destruct r. simpl. by rewrite Nat.add_0_r.
Qed.

Lemma accepts_ret (v : A) tl : accepts (λ r, Ok (v, r)) [] v tl.
Proof. intros r _. unfold adv. destruct r. simpl. by rewrite Nat.add_0_r. Qed.

Lemma sound_weaken p (P P' : bytes -> A -> Prop) :
  sound p P -> (forall l v, P l v -> P' l v) -> sound p P'.
Proof. intros H HP r v r' E. destruct (H r v r' E) as (l & ? & ?). exists l. auto. Qed.

Lemma accepts_eq p l l' v v' tl : accepts p l v tl -> l = l' -> v = v' -> accepts p l' v' tl.
Proof. by intros H -> ->. Qed.
End steps.

(** [digits_n] takes a run of [n] digits. *)
Lemma digits_n_sound n e : (0 < n)%nat ->
  sound (digits_n n e) (λ l v, digits l /\ length l = n /\ v = num l).
Proof.
  intros Hn r v r'. unfold digits_n, refuse. case_decide; [|done].
  destruct (forallb _ _) eqn:E; [|done]. intros [= <- <-]. apply digits_forallb in E.
  assert (Hl : length (take n (drop (pos r) (text r))) = n)
    by (rewrite length_take, length_drop; lia).
  eexists. split; [by split_and!|]. rewrite Hl. split; [done|].
  rewrite rest_adv. unfold rest. by rewrite take_drop.
Qed.

Lemma digits_n_accepts e l tl : digits l -> l <> [] ->
  accepts (digits_n (length l) e) l (num l) tl.
Proof.
  intros Hds Hl r E. unfold digits_n. unfold rest in E.
  assert (H : take (length l) (drop (pos r) (text r)) = l) by by rewrite E, take_app_length.
  rewrite decide_True; [by rewrite H, (proj2 (digits_forallb l) Hds)|].
  apply (f_equal length) in E. rewrite length_drop, length_app in E.
  destruct l; [done|]. simpl in *. lia.
Qed.

Lemma digits_n_pad w e n tl : 0 <= n < 10 ^ Z.of_nat w -> (0 < w)%nat ->
  accepts (digits_n w e) (pad w n) n tl.
Proof.
  intros Hn Hw r E. pose proof (pad_length w n Hn Hw) as Hl.
  pose proof (digits_n_accepts e (pad w n) tl ltac:(apply pad_digits; lia)
    ltac:(intros E'; rewrite E' in Hl; simpl in Hl; lia) r E) as H.
  rewrite num_pad in H by lia. rewrite Hl in *. exact H.
Qed.

(** [field] takes two digits in range. *)
Lemma field_sound lo hi e :
  sound (field lo hi e) (λ l v, lo <= v <= hi /\ 0 <= v < 100 /\ l = pad 2 v).
Proof.
  intros r v r' H. unfold field in H. apply bind_Ok in H as ([v0 r0] & H & H').
  apply digits_n_sound in H as (l & (Hl & Hn & ->) & -> & E); [|lia].
  case_match eqn:Eb; [done|]. injection H' as <- <-. bprop Eb.
  pose proof (num_bound l Hl) as Hb. rewrite Hn in Hb.
  exists l. rewrite pad_num by (auto with lia). split_and!; auto; lia.
Qed.

Lemma field_accepts lo hi e v tl : lo <= v <= hi -> 0 <= v < 100 ->
  accepts (field lo hi e) (pad 2 v) v tl.
Proof.
  intros Hv Hb r E. unfold field.
  pose proof (pad_length 2 v ltac:(lia) ltac:(lia)) as Hl.
  pose proof (digits_n_accepts e (pad 2 v) tl ltac:(apply pad_digits; lia)
    ltac:(intros E'; rewrite E' in Hl; done) r E) as H.
  rewrite Hl, num_pad in H by lia. rewrite H, Hl. cbn [mbind result_bind].
  destruct (Z.ltb_spec v lo), (Z.ltb_spec hi v); simpl; done || lia.
Qed.

(** [byte_of] takes one of its bytes. *)
Lemma byte_of_sound any e : sound (byte_of any e) (λ l b, b ∈ any /\ l = [b]).
Proof.
  intros r b r'. unfold byte_of, refuse. destruct (text r !! pos r) as [b0|] eqn:E; [|done].
  case_decide; [|done]. intros [= <- <-]. exists [b0]. split_and!; [done..|].
  rewrite rest_adv. unfold rest. by rewrite (drop_S _ _ _ E).
Qed.

Lemma rest_head r b tl : rest r = b :: tl -> text r !! pos r = Some b.
Proof.
  unfold rest. intros E. apply (f_equal (lookup 0%nat)) in E.
  by rewrite lookup_drop, Nat.add_0_r in E.
Qed.

Lemma byte_of_accepts any e b tl : b ∈ any -> accepts (byte_of any e) [b] b tl.
Proof.
  intros Hb r E. unfold byte_of. rewrite (rest_head r b tl E). by rewrite decide_True.
Qed.

(** What follows the whole text: nothing. *)
Lemma end_ok e r : rest r = [] -> (pos r <= length (text r))%nat -> end_ e r = Ok tt.
Proof.
  unfold end_, rest. intros E H. apply (f_equal length) in E. rewrite length_drop in E.
  simpl in E. by rewrite decide_True by lia.
Qed.

Lemma end_inv e r u : end_ e r = Ok u -> rest r = [].
Proof.
  unfold end_, refuse, rest. case_decide as E; [|done]. intros _. rewrite E. apply drop_all.
Qed.

Section whole.
Context {A : Type} (p : Reader -> result ValueError (A * Reader)) (e : string).

(** [FromStr]: a step over the whole text, with nothing after. *)
Definition read_all (t : bytes) : result ValueError A :=
  '(v, r) ← p (new_reader t); _ ← end_ e r; Ok v.

Lemma read_all_sound P t v : sound p P -> read_all t = Ok v -> P t v.
Proof.
  intros Hp H. apply bind_Ok in H as ([v' r] & H1 & H). apply bind_Ok in H as (u & H2 & H).
  injection H as <-. apply Hp in H1 as (l & HP & -> & E). apply end_inv in H2.
  rewrite rest_new, H2, app_nil_r in E. by subst t.
Qed.

Lemma read_all_accepts t v : accepts p t v [] -> read_all t = Ok v.
Proof.
  intros Hp. unfold read_all.
  rewrite (Hp (new_reader t)) by by rewrite rest_new, app_nil_r.
  cbn [mbind result_bind]. rewrite end_ok; [done| |simpl; lia].
  apply (rest_took _ t). by rewrite rest_new, app_nil_r.
Qed.
End whole.

(** ** The fraction *)

Lemma digit_run_spec l : exists ds tl, l = ds ++ tl /\ digits ds /\ length ds = digit_run l /\
  (tl = [] \/ exists b tl', tl = b :: tl' /\ is_digit b = false).
Proof.
  induction l as [|b l (ds & tl & E & Hds & Hl & Ht)]; [by exists [], []; repeat constructor; left|].
  simpl. destruct (is_digit b) eqn:Eb.
  - exists (b :: ds), tl. subst l. split_and!; [done|by constructor|simpl; lia|done].
  - exists [], (b :: l). split_and!; [done|constructor|done|right; eauto].
Qed.

Lemma digit_run_app ds tl : digits ds ->
  (tl = [] \/ exists b tl', tl = b :: tl' /\ is_digit b = false) ->
  digit_run (ds ++ tl) = length ds.
Proof.
  induction 1 as [|d ds Hd _ IH]; simpl.
  - intros [->|(b & tl' & -> & E)]; [done|simpl; by rewrite E].
  - intros H. by rewrite Hd, IH.
Qed.

Lemma strip_zeros_spec l :
  exists k, l = strip_zeros l ++ replicate k 48.
Proof.
  induction l as [|b l [k E]]; [by exists 0%nat|]. simpl.
  destruct (strip_zeros l) as [|c l'] eqn:Es.
  - destruct (Z.eqb_spec b 48) as [->|].
    + exists (S k). simpl in *. by rewrite E.
    + exists k. simpl in *. by rewrite E at 1.
  - exists k. rewrite E at 1. done.
Qed.

Lemma strip_zeros_digits l : digits l -> digits (strip_zeros l).
Proof.
  intros H. destruct (strip_zeros_spec l) as [k E]. rewrite E in H.
  by apply digits_app in H as [? _].
Qed.

Lemma strip_zeros_nil l : strip_zeros l = [] -> l = replicate (length l) 48.
Proof.
  intros E. destruct (strip_zeros_spec l) as [k Ek]. rewrite E in Ek. simpl in Ek.
  rewrite Ek, length_replicate. done.
Qed.

(** What the fraction of [nanos] spells: between one and nine digits which, as
    a fraction of a second, are [nanos]. *)
Lemma fraction_digits nanos : 0 < nanos < NANOS_PER_SECOND ->
  let ds := strip_zeros (pad 9 nanos) in
  digits ds /\ (1 <= length ds <= 9)%nat /\
  num ds * 10 ^ (9 - Z.of_nat (length ds)) = nanos.
Proof.
  intros Hn ds. assert (Hb : 0 <= nanos < 10 ^ Z.of_nat 9) by (unfold NANOS_PER_SECOND in Hn; lia).
  pose proof (pad_length 9 nanos Hb ltac:(lia)) as Hl.
  pose proof (pad_digits 9 nanos ltac:(lia)) as Hd.
  pose proof (num_pad 9 nanos ltac:(lia)) as Hnum.
  destruct (strip_zeros_spec (pad 9 nanos)) as [k E]. fold ds in E.
  rewrite E, length_app, length_replicate in Hl.
  split; [by apply strip_zeros_digits|]. split.
  - split; [|lia]. destruct ds eqn:Eds; [|simpl; lia].
    apply strip_zeros_nil in Eds. rewrite Eds, num_replicate0 in Hnum. lia.
  - rewrite E, num_app, num_replicate0, length_replicate in Hnum.
    replace (9 - Z.of_nat (length ds)) with (Z.of_nat k) by lia. lia.
Qed.

Lemma write_fraction_app out nanos : write_fraction out nanos = out ++ write_fraction [] nanos.
Proof. unfold write_fraction. destruct (_ =? _); [by rewrite app_nil_r|done]. Qed.
