(* ===== verification/TextForm.v ===== *)
(** * Types that cross as text

    What the source asks of a type whose value form is text ([Display] with
    [FromStr]): the two functions, the invariant of the type, and the laws the
    rest of the library relies on. Dates, times, date-times, instants and spans
    are its instances. *)

From S2P Require Import Prelude Errors.

Class TextForm (A : Type) := {
  tf_wf : A -> Prop;
  to_text : A -> bytes;
  of_text : bytes -> result ValueError A;
}.

(** What is written is read back as it was, and nothing off the invariant is
    ever read. *)
Class TextFormLaws (A : Type) `{TextForm A} : Prop := {
  of_to_text a : tf_wf a -> of_text (to_text a) = Ok a;
  of_text_wf t a : of_text t = Ok a -> tf_wf a;
}.

Section laws.
Context {A : Type} `{TextFormLaws A}.

(** Two values with one text are one value. *)
Lemma to_text_inj a b : tf_wf a -> tf_wf b -> to_text a = to_text b -> a = b.
Proof.
  intros Ha Hb E. apply of_to_text in Ha, Hb. rewrite E in Ha. congruence.
Qed.

(** Reading and writing again settles on one text: any accepted spelling has
    the same canonical text as the value it names. *)
Lemma canonical_text t a : of_text t = Ok a -> of_text (to_text a) = Ok a.
Proof. intros E. apply of_to_text. by eapply of_text_wf. Qed.
End laws.
