(* ===== verification/Span.v ===== *)
(** * Spans: lengths of time in calendar units

    [value/span.rs]: the eight magnitudes and their one sign, the builders and
    getters, the canonical ISO 8601 text, and the conversions to and from
    [Duration]. The parser is in [SpanParse]. *)

From S2P Require Import Prelude Decimal Calendar Errors Reader.

(** The units, in the order they are written. [YEARS] of the source is
    [YEARS_] here, where [YEARS] is the calendar's range. *)
Definition YEARS_ : nat := 0.
Definition MONTHS : nat := 1.
Definition WEEKS : nat := 2.
Definition DAYS : nat := 3.
Definition HOURS : nat := 4.
Definition MINUTES : nat := 5.
Definition SECONDS : nat := 6.
Definition NANOS : nat := 7.

(** [Span]: [units] is the array of eight. *)
Record Span := MkSpan { units : list Z; negative : bool }.

#[export] Instance Span_eq_dec : EqDecision Span.
Proof. solve_decision. Defined.

(** [self.units[at]]. *)
Definition unit_at (s : Span) (at_ : nat) : Z := units s !!! at_.

Definition span_new : Span := MkSpan (replicate 8 0) false.

(** [Span::is_zero] and [Span::is_negative]. *)
Definition is_zero (s : Span) : bool := forallb (λ u, u =? 0) (units s).
Definition is_negative (s : Span) : bool := negative s.

(** Zero has no sign. *)
Definition normalised (s : Span) : Span :=
  if is_zero s then MkSpan (units s) false else s.

Definition from_parts (us : list Z) (neg : bool) : Span := normalised (MkSpan us neg).

(** [n.unsigned_abs().min(i64::MAX as u64)]. *)
Definition magnitude (n : Z) : Z := Z.min (Z.abs n) i64_max.

Definition with_ (at_ : nat) (n : Z) (s : Span) : Span :=
  let us := <[at_ := magnitude n]> (units s) in
  normalised (MkSpan us (if n =? 0 then negative s else n <? 0)).

Definition signed (s : Span) (at_ : nat) : Z :=
  if negative s then - unit_at s at_ else unit_at s at_.

(** The builders and getters [unit!] writes. *)
Definition years (s : Span) (n : Z) : Span := with_ YEARS_ n s.
Definition months (s : Span) (n : Z) : Span := with_ MONTHS n s.
Definition weeks (s : Span) (n : Z) : Span := with_ WEEKS n s.
Definition days_ (s : Span) (n : Z) : Span := with_ DAYS n s.
Definition hours (s : Span) (n : Z) : Span := with_ HOURS n s.
Definition minutes (s : Span) (n : Z) : Span := with_ MINUTES n s.
Definition seconds_ (s : Span) (n : Z) : Span := with_ SECONDS n s.
Definition get_years (s : Span) : Z := signed s YEARS_.
Definition get_months (s : Span) : Z := signed s MONTHS.
Definition get_weeks (s : Span) : Z := signed s WEEKS.
Definition get_days (s : Span) : Z := signed s DAYS.
Definition get_hours (s : Span) : Z := signed s HOURS.
Definition get_minutes (s : Span) : Z := signed s MINUTES.
Definition get_seconds (s : Span) : Z := signed s SECONDS.
Definition get_nanoseconds (s : Span) : Z := signed s NANOS.

(** [Span::nanoseconds]: a billion or more carry into the seconds. *)
Definition nanoseconds (s : Span) (n : Z) : Span :=
  let m := magnitude n in
  let out := with_ NANOS 0 s in
  let carried := Z.min (unit_at out SECONDS + m / NANOS_PER_SECOND) u64_max in
  let us := <[NANOS := m mod NANOS_PER_SECOND]>
              (<[SECONDS := Z.min carried i64_max]> (units out)) in
  normalised (MkSpan us (if n =? 0 then negative out else n <? 0)).

Definition span_abs (s : Span) : Span := MkSpan (units s) false.
Definition negate (s : Span) : Span := normalised (MkSpan (units s) (negb (negative s))).

(** ** The canonical text *)

(** [write!(f, "{}{designator}", u[at])] for a unit that is not zero. *)
Definition unit_text (us : list Z) (c : nat * byte) : bytes :=
  if us !!! c.1 =? 0 then [] else dec (us !!! c.1) ++ [c.2].

Definition date_units : list (nat * byte) :=
  [(YEARS_, 89); (MONTHS, 77); (WEEKS, 87); (DAYS, 68)].
Definition time_units : list (nat * byte) := [(HOURS, 72); (MINUTES, 77)].

Definition seconds_text (us : list Z) : bytes :=
  if (us !!! SECONDS =? 0) && (us !!! NANOS =? 0) then []
  else write_fraction (dec (us !!! SECONDS)) (us !!! NANOS) ++ bs "S".

(** [Display for Span]. *)
Definition show_span (s : Span) : bytes :=
  (if negative s then bs "-" else []) ++ bs "P" ++
  if is_zero s then bs "T0S" else
  concat (map (unit_text (units s)) date_units) ++
  (if existsb (λ n, negb (n =? 0)) (drop HOURS (units s)) then
     bs "T" ++ concat (map (unit_text (units s)) time_units) ++ seconds_text (units s)
   else []).

(** ** Exact lengths *)

(** [core::time::Duration]: whole seconds in a [u64], nanoseconds below one. *)
Record Duration := MkDuration { as_secs : Z; subsec_nanos : Z }.

Definition duration_wf (d : Duration) : Prop :=
  0 <= as_secs d <= u64_max /\ 0 <= subsec_nanos d < NANOS_PER_SECOND.

(** [From<Duration> for Span]. *)
Definition span_of_duration (d : Duration) : Span :=
  let secs := as_secs d in
  from_parts [0; 0; 0; 0; secs / 3600; secs mod 3600 / 60; secs mod 60; subsec_nanos d] false.

(** [total.checked_add] of [n.checked_mul] of the unit and its seconds. *)
Definition add_exact (total : option Z) (c : Z * Z) : option Z :=
  t ← total; p ← checked_u64 (c.1 * c.2); checked_u64 (t + p).

(** [TryFrom<Span> for Duration]. *)
Definition duration_of_span (s : Span) : result ValueError Duration :=
  let u := unit_at s in
  if negative s || negb (u YEARS_ =? 0) || negb (u MONTHS =? 0) then Err Unrepresentable
  else
    secs ← ok_or (foldl add_exact (Some 0)
      [(u WEEKS, 7 * 86400); (u DAYS, 86400); (u HOURS, 3600); (u MINUTES, 60); (u SECONDS, 1)])
      Unrepresentable;
    Ok (MkDuration secs (u NANOS)).

(** ** The invariant of the type *)

(** What the field comments of [Span] say: eight magnitudes, each at most
    [i64::MAX], the nanoseconds below a second, and no sign on zero. *)
Definition span_wf (s : Span) : Prop :=
  length (units s) = 8%nat /\ Forall (λ u, 0 <= u <= i64_max) (units s) /\
  unit_at s NANOS < NANOS_PER_SECOND /\ (is_zero s = true -> negative s = false).

(** A [Span] whose magnitudes are in range, named one by one. *)
Lemma span_wf_cases s : span_wf s ->
  exists y mo w d h mi se na,
    units s = [y; mo; w; d; h; mi; se; na] /\
    0 <= y <= i64_max /\ 0 <= mo <= i64_max /\ 0 <= w <= i64_max /\ 0 <= d <= i64_max /\
    0 <= h <= i64_max /\ 0 <= mi <= i64_max /\ 0 <= se <= i64_max /\ 0 <= na < NANOS_PER_SECOND /\
    (is_zero s = true -> negative s = false).
Proof.
  intros (Hl & Hf & Hn & Hz). destruct s as [us neg]. unfold unit_at in *. simpl in *.
  do 9 (destruct us as [|? us]; try discriminate Hl).
  repeat match goal with H : Forall _ (_ :: _) |- _ => apply Forall_cons_iff in H as [? H] end.
  cbn in Hn. repeat eexists; eauto; lia.
Qed.

Lemma normalised_wf us neg : length us = 8%nat -> Forall (λ u, 0 <= u <= i64_max) us ->
  us !!! NANOS < NANOS_PER_SECOND -> span_wf (normalised (MkSpan us neg)).
Proof.
  intros. unfold normalised. destruct (is_zero _) eqn:E; split_and!; try done.
  unfold is_zero in *. simpl in *. by rewrite E.
Qed.

Lemma normalised_units s : units (normalised s) = units s.
Proof. unfold normalised. by destruct (is_zero s). Qed.

Lemma from_parts_units us neg : units (from_parts us neg) = us.
Proof. apply normalised_units. Qed.

Lemma is_zero_units s s' : units s = units s' -> is_zero s = is_zero s'.
Proof. unfold is_zero. by intros ->. Qed.

Lemma span_wf_normal s : span_wf s -> normalised s = s.
Proof.
  intros (_ & _ & _ & Hz). unfold normalised. destruct (is_zero s) eqn:E; [|done].
  destruct s. simpl in *. by rewrite Hz.
Qed.

Lemma from_parts_wf s : span_wf s -> from_parts (units s) (negative s) = s.
Proof. intros. unfold from_parts. destruct s. by apply span_wf_normal. Qed.

Lemma magnitude_range n : 0 <= magnitude n <= i64_max.
Proof. unfold magnitude, i64_max. lia. Qed.

Lemma insert_units_wf us at_ m :
  Forall (λ u, 0 <= u <= i64_max) us -> 0 <= m <= i64_max ->
  Forall (λ u, 0 <= u <= i64_max) (<[at_ := m]> us).
Proof. intros. by apply Forall_insert. Qed.

Lemma with_wf s at_ n : span_wf s -> (at_ < NANOS)%nat \/ n = 0 -> span_wf (with_ at_ n s).
Proof.
  intros (Hl & Hf & Hn & _) Hat. unfold with_. apply normalised_wf.
  - by rewrite length_insert.
  - apply insert_units_wf; [done|apply magnitude_range].
  - destruct (decide (at_ = NANOS)) as [->|].
    + destruct Hat as [Hat| ->]; [unfold NANOS in Hat; lia|].
      rewrite list_lookup_total_insert_eq by (unfold NANOS; lia).
      unfold magnitude, NANOS_PER_SECOND, i64_max. lia.
    + by rewrite list_lookup_total_insert_ne.
Qed.

Lemma nanoseconds_wf s n : span_wf s -> span_wf (nanoseconds s n).
Proof.
  intros H. pose proof (with_wf s NANOS 0 H (or_intror eq_refl)) as (Hl & Hf & _ & _).
  pose proof (magnitude_range n). unfold nanoseconds. cbv zeta. apply normalised_wf.
  - by rewrite !length_insert.
  - apply insert_units_wf; [apply insert_units_wf; [done|]|].
    + assert (0 <= unit_at (with_ NANOS 0 s) SECONDS).
      { unfold unit_at. rewrite Forall_lookup in Hf.
        destruct (lookup_lt_is_Some_2 (units (with_ NANOS 0 s)) SECONDS) as [x Hx];
          [rewrite Hl; unfold SECONDS; lia|].
        rewrite (list_lookup_total_correct _ _ _ Hx). apply Hf in Hx. lia. }
      unfold NANOS_PER_SECOND, u64_max, i64_max in *. dlia.
    + unfold NANOS_PER_SECOND, i64_max in *. dlia.
  - rewrite list_lookup_total_insert_eq by (rewrite length_insert, Hl; unfold NANOS; lia).
    unfold NANOS_PER_SECOND. dlia.
Qed.

Lemma negate_wf s : span_wf s -> span_wf (negate s).
Proof. intros (? & ? & ? & _). by apply normalised_wf. Qed.

Lemma abs_wf s : span_wf s -> span_wf (span_abs s).
Proof. intros (? & ? & ? & _). by split_and!. Qed.

Lemma span_new_wf : span_wf span_new.
Proof. split_and!; [done|repeat constructor; unfold i64_max; lia|done|done]. Qed.

Lemma span_of_duration_wf d : duration_wf d -> span_wf (span_of_duration d).
Proof.
  intros [Hs Hn]. apply normalised_wf; [done| |by apply Hn].
  unfold u64_max, i64_max, NANOS_PER_SECOND in *.
  repeat (apply Forall_cons_iff; split; [dlia|]); constructor.
Qed.

(** ** Exact lengths, exactly *)

(** The exact seconds of a span: a week 7 days, a day 24 hours. *)
Definition exact_secs (s : Span) : Z :=
  let u := unit_at s in
  u WEEKS * 604800 + u DAYS * 86400 + u HOURS * 3600 + u MINUTES * 60 + u SECONDS.

Lemma add_exact_Some t n per : 0 <= t -> 0 <= n -> 0 <= per ->
  add_exact (Some t) (n, per) = checked_u64 (t + n * per).
Proof.
  intros. assert (0 <= n * per) by nia. unfold add_exact, checked_u64. simpl.
  repeat (case_match; simpl); lia || done.
Qed.

Lemma add_exact_sum l : forall t,
  Forall (λ c, 0 <= c.1 /\ 0 <= c.2) l -> 0 <= t <= u64_max ->
  foldl add_exact (Some t) l = checked_u64 (t + foldr (λ c acc, c.1 * c.2 + acc) 0 l).
Proof.
  induction l as [|[n per] l IH]; intros t Hl Ht.
  { cbn [foldl foldr]. unfold checked_u64. rewrite Z.add_0_r, (proj2 (Z.leb_le _ _)) by lia. done. }
  apply Forall_cons_iff in Hl as [[Hn Hper] Hl]. simpl in Hn, Hper.
  assert (Hge : 0 <= foldr (λ c acc, c.1 * c.2 + acc) 0 l).
  { clear -Hl. induction Hl as [|c l Hc _ IH]; simpl; nia. }
  assert (0 <= n * per) by nia.
  assert (HN : foldl add_exact None l = None) by (clear; induction l; auto).
  cbn [foldl foldr fst snd]. rewrite add_exact_Some by lia.
  unfold checked_u64 at 1. destruct (Z.leb_spec (t + n * per) u64_max).
  - rewrite IH by (done || lia). by rewrite Z.add_assoc.
  - rewrite HN. unfold checked_u64. destruct (Z.leb_spec (t + (n * per + foldr (λ c acc, c.1 * c.2 + acc) 0 l)) u64_max);
      [lia|done].
Qed.

Lemma duration_of_span_Ok s d : span_wf s ->
  duration_of_span s = Ok d <->
  negative s = false /\ unit_at s YEARS_ = 0 /\ unit_at s MONTHS = 0 /\
  exact_secs s <= u64_max /\ d = MkDuration (exact_secs s) (unit_at s NANOS).
Proof.
  intros H. destruct (span_wf_cases s H)
    as (y & mo & w & dd & h & mi & se & na & E & ?).
  unfold duration_of_span, exact_secs. cbv zeta.
  rewrite add_exact_sum; [|unfold unit_at; rewrite E; repeat constructor; cbn; lia|unfold u64_max; lia].
  unfold unit_at. rewrite E. cbn -[Z.mul Z.add u64_max].
  replace (0 + _) with (w * 604800 + dd * 86400 + h * 3600 + mi * 60 + se) by lia.
  unfold checked_u64. destruct (negative s); simpl; [naive_solver|].
  destruct (Z.eqb_spec y 0), (Z.eqb_spec mo 0); simpl; [|naive_solver..].
  case_match eqn:Hb; simpl; [apply Z.leb_le in Hb|apply Z.leb_gt in Hb]; naive_solver lia.
Qed.

Lemma exact_secs_of_duration d : duration_wf d ->
  exact_secs (span_of_duration d) = as_secs d.
Proof.
  intros [Hs Hn]. unfold exact_secs, unit_at, span_of_duration. cbv zeta.
  rewrite from_parts_units. cbn -[Z.mul Z.add Z.div Z.modulo]. dlia.
Qed.

(** ** Properties *)

(** Every way to make a span keeps its invariant, whatever the numbers given:
    magnitudes at most [i64::MAX] (builders saturate), nanoseconds below a
    second (a billion or more carry), and no sign on zero. *)
Theorem span_operations_wf (s : Span) (Hs : span_wf s) :
  (forall n, Forall span_wf [years s n; months s n; weeks s n; days_ s n; hours s n;
    minutes s n; seconds_ s n; nanoseconds s n]) /\
  span_wf span_new /\ span_wf (negate s) /\ span_wf (span_abs s) /\
  (forall d, duration_wf d -> span_wf (span_of_duration d)).
Proof.
  split; [|split_and!; [apply span_new_wf|by apply negate_wf|by apply abs_wf|apply span_of_duration_wf]].
  intros n.
  repeat (apply Forall_cons_iff; split; [first [by apply nanoseconds_wf
    |apply with_wf; [done|left; unfold YEARS_, MONTHS, WEEKS, DAYS, HOURS, MINUTES, SECONDS, NANOS; lia]]|]).
  constructor.
Qed.

Lemma span_operations_wf_witness : span_wf (negate (years span_new (- 2^63))).
Proof.
  apply (proj2 (proj2 (span_operations_wf (years span_new (- 2^63))
    ltac:(apply with_wf; [apply span_new_wf|left; unfold YEARS_, NANOS; lia])))).
Defined.

(** A span converts to a [Duration] exactly when it is not negative, has no
    calendar units (years, months) and its exact seconds fit a [u64]; the
    duration is those seconds and its nanoseconds; and a duration survives the
    trip through a span. *)
Theorem span_duration_exact (s : Span) (d d' : Duration) (Hs : span_wf s) (Hd : duration_wf d') :
  (duration_of_span s = Ok d <->
    negative s = false /\ unit_at s YEARS_ = 0 /\ unit_at s MONTHS = 0 /\
    exact_secs s <= u64_max /\ d = MkDuration (exact_secs s) (unit_at s NANOS)) /\
  duration_of_span (span_of_duration d') = Ok d'.
Proof.
  split; [by apply duration_of_span_Ok|].
  apply duration_of_span_Ok; [by apply span_of_duration_wf|].
  rewrite exact_secs_of_duration by done. destruct Hd as [Hse Hna].
  unfold unit_at. unfold span_of_duration at 2 3 4. cbv zeta. rewrite from_parts_units.
  assert (negative (span_of_duration d') = false) as ->
    by (unfold span_of_duration, from_parts, normalised; by case_match).
  destruct d' as [se na]. cbn in *. split_and!; done || lia.
Qed.

Lemma span_duration_exact_witness :
  duration_of_span (weeks span_new 2) = Ok (MkDuration 1209600 0) /\
  duration_of_span (span_of_duration (MkDuration 90061 7)) = Ok (MkDuration 90061 7).
Proof.
  assert (Hs : span_wf (weeks span_new 2))
    by (apply with_wf; [apply span_new_wf|left; unfold WEEKS, NANOS; lia]).
  assert (Hd : duration_wf (MkDuration 90061 7)) by (split; vm_compute; split; discriminate || reflexivity).
  destruct (span_duration_exact (weeks span_new 2) (MkDuration 1209600 0) _ Hs Hd) as [H1 H2].
  split; [|exact H2]. apply H1. vm_compute. repeat split; discriminate.
Defined.
