(* ===== verification/Civil.v ===== *)
(** * Dates, times of day, civil date-times and instants

    [value/time/date.rs], [clock.rs], [datetime.rs] and [timestamp.rs], with the
    part of [value/time/mod.rs] that reads them: the types, their constructors,
    span arithmetic, and the RFC 3339 text each writes and reads. *)

From S2P Require Import Prelude Decimal Calendar Errors Reader TextForm Span.

(** ** The types *)

(** [Date]: the fields are an [i32] and two [u8]s. *)
Record Date := MkDate { year : Z; month : Z; day : Z }.

(** [Time]: three [u8]s and a [u32]. *)
Record Time := MkTime { hour : Z; minute : Z; second : Z; nanosecond : Z }.

(** [DateTime]. *)
Record DateTime := MkDateTime { date : Date; time : Time }.

(** [Timestamp]: an [i64] and a [u32]. *)
Record Timestamp := MkTimestamp { seconds : Z; nanos : Z }.

#[export] Instance Date_eq_dec : EqDecision Date.
Proof. solve_decision. Defined.
#[export] Instance Time_eq_dec : EqDecision Time.
Proof. solve_decision. Defined.
#[export] Instance DateTime_eq_dec : EqDecision DateTime.
Proof. solve_decision. Defined.
#[export] Instance Timestamp_eq_dec : EqDecision Timestamp.
Proof. solve_decision. Defined.

(** ** Dates *)

(** [Date::try_new]. *)
Definition date_try_new (y m d : Z) : result ValueError Date :=
  if negb (YEARS y) || negb ((1 <=? m) && (m <=? 12)) || (d =? 0) || (days_in_month y m <? d)
  then Err Unrepresentable else Ok (MkDate y m d).

(** [Date::days] and [Date::from_days]. *)
Definition date_days (d : Date) : Z := days_from_civil (year d) (month d) (day d).
Definition date_from_days (days : Z) : Date :=
  let '(y, m, d) := civil_from_days days in MkDate (as_i32 y) (as_u8 m) (as_u8 d).

(** [i32::try_from]. *)
Definition i32_try (n : Z) : option Z :=
  if (- 2^31 <=? n) && (n <=? i32_max) then Some n else None.

(** [Date::shifted]: the [i128] sums are exact (see [span_sums_fit_i128] in [Instants]). *)
Definition shifted (self : Date) (span : Span) (more_days : Z) : option Date :=
  let months := get_years span * 12 + get_months span in
  let ym := year self * 12 + month self - 1 + months in
  y ← i32_try (ym / 12);
  if YEARS y then
    let m := as_u8 (ym mod 12 + 1) in
    let last := as_u8 (days_in_month y m) in
    let landed := MkDate y m (Z.min (day self) last) in
    let days := date_days landed + get_weeks span * 7 + get_days span + more_days in
    if (days <? FIRST_DAY) || (LAST_DAY <? days) then None else Some (date_from_days days)
  else None.

(** [Date::checked_add]. *)
Definition date_checked_add (self : Date) (span : Span) : option Date :=
  if negb (get_hours span =? 0) || negb (get_minutes span =? 0) ||
     negb (get_seconds span =? 0) || negb (get_nanoseconds span =? 0)
  then None else shifted self span 0.

(** [Display for Date]: [{:04}-{:02}-{:02}]. *)
Definition show_date (d : Date) : bytes :=
  pad 4 (year d) ++ bs "-" ++ pad 2 (month d) ++ bs "-" ++ pad 2 (day d).

(** [Reader::date]. *)
Definition read_date (r : Reader) : result ValueError (Date * Reader) :=
  '(y, r) ← digits_n 4 "a four-digit year" r;
  '(_, r) ← byte_of (bs "-") "'-' after the year" r;
  '(m, r) ← field 1 12 "a month from 01 to 12" r;
  '(_, r) ← byte_of (bs "-") "'-' after the month" r;
  '(d, r') ← field 1 31 "a day of the month" r;
  if days_in_month y m <? d then refuse r "a day of the month"
  else Ok (MkDate (as_i32 y) (as_u8 m) (as_u8 d), r').

(** [FromStr for Date]. *)
Definition date_from_str (t : bytes) : result ValueError Date :=
  '(d, r) ← read_date (new_reader t);
  _ ← end_ "nothing after the date" r;
  Ok d.

(** ** Times of day *)

(** [Time::try_new]. *)
Definition time_try_new (h m s n : Z) : result ValueError Time :=
  if (23 <? h) || (59 <? m) || (59 <? s) || (NANOS_PER_SECOND <=? n)
  then Err Unrepresentable else Ok (MkTime h m s n).

Definition midnight : Time := MkTime 0 0 0 0.

(** [Time::seconds_of_day] and [Time::from_seconds_of_day]. *)
Definition seconds_of_day (t : Time) : Z := hour t * 3600 + minute t * 60 + second t.
Definition from_seconds_of_day (s n : Z) : Time :=
  MkTime (as_u8 (Z.quot s 3600)) (as_u8 (Z.rem (Z.quot s 60) 60)) (as_u8 (Z.rem s 60)) n.

(** [Display for Time]: [{:02}:{:02}:{:02}{fraction}]. *)
Definition show_time (t : Time) : bytes :=
  pad 2 (hour t) ++ bs ":" ++ pad 2 (minute t) ++ bs ":" ++ pad 2 (second t) ++
  write_fraction [] (nanosecond t).

(** The optional fraction [Reader::time] ends with. *)
Definition read_fraction (r : Reader) : result ValueError (Z * Reader) :=
  if decide (text r !! pos r = Some 46) then
    let r := adv 1 r in
    let n := digit_run (rest r) in
    if decide (n = 0%nat \/ (9 < n)%nat) then
      refuse r "one to nine digits of a second, no finer than a nanosecond"
    else
      let ds := take n (drop (pos r) (text r)) in
      Ok (num ds * 10 ^ (9 - Z.of_nat n), adv n r)
  else Ok (0, r).

(** [Reader::time]. *)
Definition read_time (r : Reader) : result ValueError (Time * Reader) :=
  '(hh, r) ← field 0 23 "an hour from 00 to 23" r;
  '(_, r) ← byte_of (bs ":") "':' after the hour" r;
  '(mm, r) ← field 0 59 "a minute from 00 to 59" r;
  '(_, r) ← byte_of (bs ":") "':' after the minute" r;
  '(ss, r) ← field 0 59 "a second from 00 to 59" r;
  '(n, r) ← read_fraction r;
  Ok (MkTime (as_u8 hh) (as_u8 mm) (as_u8 ss) n, r).

(** [FromStr for Time]. *)
Definition time_from_str (t : bytes) : result ValueError Time :=
  '(x, r) ← read_time (new_reader t);
  _ ← end_ "nothing after the time: a time of day has no offset" r;
  Ok x.

(** ** Civil date-times *)

(** [DateTime::checked_add]. *)
Definition datetime_checked_add (self : DateTime) (span : Span) : option DateTime :=
  let n := (seconds_of_day (time self) + get_hours span * 3600 + get_minutes span * 60 +
            get_seconds span) * NANOS_PER_SECOND
           + nanosecond (time self) + get_nanoseconds span in
  d ← shifted (date self) span (n / DAY_NANOS);
  let of_day := n mod DAY_NANOS in
  let t := from_seconds_of_day (Z.quot of_day NANOS_PER_SECOND)
             (as_u32 (Z.rem of_day NANOS_PER_SECOND)) in
  Some (MkDateTime d t).

(** [Display for DateTime]. *)
Definition show_datetime (x : DateTime) : bytes :=
  show_date (date x) ++ bs "T" ++ show_time (time x).

(** [Reader::date_time]. *)
Definition read_date_time (r : Reader) : result ValueError (DateTime * Reader) :=
  '(d, r) ← read_date r;
  '(_, r) ← byte_of (bs "Tt") "'T' between the date and the time" r;
  '(t, r) ← read_time r;
  Ok (MkDateTime d t, r).

(** [FromStr for DateTime]. *)
Definition datetime_from_str (t : bytes) : result ValueError DateTime :=
  '(x, r) ← read_date_time (new_reader t);
  _ ← end_ "nothing after the time: a civil date and time has no offset" r;
  Ok x.

(** ** Instants *)

(** [Timestamp::from_unix]. *)
Definition from_unix (s n : Z) : result ValueError Timestamp :=
  if (NANOS_PER_SECOND <=? n) || negb ((FIRST_DAY * DAY <=? s) && (s <? (LAST_DAY + 1) * DAY))
  then Err Unrepresentable else Ok (MkTimestamp s n).

(** [Timestamp::utc]. *)
Definition utc (t : Timestamp) : DateTime :=
  MkDateTime (date_from_days (seconds t / DAY)) (from_seconds_of_day (seconds t mod DAY) (nanos t)).

(** [Display for Timestamp]. *)
Definition show_timestamp (t : Timestamp) : bytes := show_datetime (utc t) ++ bs "Z".

(** [Reader::offset]: seconds east of UTC. *)
Definition read_offset (r : Reader) : result ValueError (Z * Reader) :=
  '(sign, r) ← byte_of (bs "Zz+-") "'Z' or an offset such as +05:30" r;
  if decide (sign = 90 \/ sign = 122) then Ok (0, r)
  else
    '(oh, r) ← field 0 23 "an offset hour from 00 to 23" r;
    '(_, r) ← byte_of (bs ":") "':' in the offset" r;
    '(om, r) ← field 0 59 "an offset minute from 00 to 59" r;
    let o := oh * 3600 + om * 60 in
    Ok (if sign =? 45 then - o else o, r).

(** [FromStr for Timestamp]. *)
Definition timestamp_from_str (t : bytes) : result ValueError Timestamp :=
  '(local, r) ← read_date_time (new_reader t);
  let offset_at := pos r in
  '(offset, r) ← read_offset r;
  _ ← end_ "nothing after the offset" r;
  let s := date_days (date local) * DAY + seconds_of_day (time local) - offset in
  map_err (λ _, Unparsed offset_at
    "an offset that keeps the instant within the years 0000 to 9999")
    (from_unix s (nanosecond (time local))).

(** [SystemTime::duration_since(UNIX_EPOCH)], a [SystemTime] being a number of
    nanoseconds from the epoch: the length from the epoch, or, before it, the
    error that holds the length to it. *)
Definition duration_since_epoch (t : Z) : result Duration Duration :=
  if 0 <=? t then Ok (MkDuration (t / NANOS_PER_SECOND) (t mod NANOS_PER_SECOND))
  else Err (MkDuration (- t / NANOS_PER_SECOND) (- t mod NANOS_PER_SECOND)).

(** [i64::try_from] a [u64]. *)
Definition i64_try (n : Z) : result ValueError Z :=
  if n <=? i64_max then Ok n else Err Unrepresentable.

(** [TryFrom<SystemTime> for Timestamp]. *)
Definition timestamp_of_system (t : Z) : result ValueError Timestamp :=
  '(s, n) ←
    match duration_since_epoch t with
    | Ok d => s ← i64_try (as_secs d); Ok (s, subsec_nanos d)
    | Err d =>
        s ← i64_try (as_secs d);
        Ok (if subsec_nanos d =? 0 then (- s, 0)
            else (- s - 1, NANOS_PER_SECOND - subsec_nanos d))
    end;
  from_unix s n.

(** [TryFrom<Timestamp> for SystemTime]; [held] says which instants the
    platform's clock holds, to the nanosecond. *)
Definition system_of_timestamp (held : Z -> bool) (t : Timestamp) : result ValueError Z :=
  let checked n := if held n then Some n else None in
  let whole := Z.abs (seconds t) * NANOS_PER_SECOND in
  ok_or
    (at_ ← (if 0 <=? seconds t then checked (0 + whole) else checked (0 - whole));
     checked (at_ + nanos t)) Unrepresentable.

(** ** The invariants of the types *)

Definition date_wf (d : Date) : Prop :=
  0 <= year d <= 9999 /\ on_calendar (year d) (month d) (day d).
Definition time_wf (t : Time) : Prop :=
  0 <= hour t <= 23 /\ 0 <= minute t <= 59 /\ 0 <= second t <= 59 /\
  0 <= nanosecond t < NANOS_PER_SECOND.
Definition datetime_wf (x : DateTime) : Prop := date_wf (date x) /\ time_wf (time x).
Definition timestamp_wf (t : Timestamp) : Prop :=
  FIRST_DAY * DAY <= seconds t < (LAST_DAY + 1) * DAY /\ 0 <= nanos t < NANOS_PER_SECOND.

Lemma YEARS_spec y : YEARS y = true <-> 0 <= y <= 9999.
Proof. unfold YEARS. rewrite andb_true_iff, !Z.leb_le. lia. Qed.

(** [try_new] accepts exactly what is on the calendar. *)
Lemma date_try_new_spec y m d v : 0 <= d ->
  date_try_new y m d = Ok v <-> v = MkDate y m d /\ date_wf v.
Proof.
  intros Hd. unfold date_try_new, YEARS, date_wf, on_calendar.
  case_match eqn:E; bprop E.
  - split; [done|]. intros (-> & ? & ? & ?). cbn [year month day] in *. exfalso. lia.
  - split; [intros [= <-]; cbn [year month day]; split; [done|lia]|]. by intros [-> _].
Qed.

(** The writable dates are the days from [FIRST_DAY] to [LAST_DAY]. *)
Lemma writable_days y m d : on_calendar y m d ->
  0 <= y <= 9999 <-> FIRST_DAY <= days_from_civil y m d <= LAST_DAY.
Proof.
  intros [Hm Hd]. rewrite days_from_civil_closed by done.
  pose proof (days_in_month_bounds y m) as Hb.
  unfold FIRST_DAY, LAST_DAY, march_days.
  destruct (days_in_month_cases y m Hm) as [[Em Ed]|[Em Ed]].
  - subst m. assert (days_in_month y 2 <= 29) by (rewrite Ed; destruct (is_leap y); lia).
    unfold month_start. zbool. split; intros; dlia.
  - unfold month_start. revert Ed. zbool; case_decide; intros; split; intros; dlia.
Qed.

Lemma date_days_range d : date_wf d -> FIRST_DAY <= date_days d <= LAST_DAY.
Proof. intros [Hy Hc]. by apply writable_days. Qed.

Lemma date_from_days_spec n : FIRST_DAY <= n <= LAST_DAY ->
  date_wf (date_from_days n) /\ date_days (date_from_days n) = n.
Proof.
  intros Hn. unfold date_from_days.
  pose proof (days_of_civil_of_days n) as H. destruct (civil_from_days n) as [[y m] d].
  destruct H as [Hc E]. assert (Hy : 0 <= y <= 9999) by (apply (writable_days y m d Hc); lia).
  pose proof (days_in_month_bounds y m). destruct Hc as [Hm Hd].
  assert (as_i32 y = y) as -> by (unfold as_i32; rewrite Z.mod_small; lia).
  assert (as_u8 m = m) as -> by (unfold as_u8; rewrite Z.mod_small; lia).
  assert (as_u8 d = d) as -> by (unfold as_u8; rewrite Z.mod_small; lia).
  done.
Qed.

Lemma date_from_days_of_days d : date_wf d -> date_from_days (date_days d) = d.
Proof.
  intros [Hy Hc]. destruct d as [y m d]. unfold date_from_days, date_days.
  cbn [year month day] in *.
  rewrite civil_of_days_of_civil by done.
  pose proof (days_in_month_bounds y m). destruct Hc as [Hm Hd].
  f_equal; unfold as_i32, as_u8; rewrite Z.mod_small; lia.
Qed.

Lemma date_days_inj d d' : date_wf d -> date_wf d' -> date_days d = date_days d' -> d = d'.
Proof.
  intros H H' E. rewrite <- (date_from_days_of_days d), E by done. by apply date_from_days_of_days.
Qed.

(** The clock and the seconds of the day. *)
Lemma from_seconds_of_day_spec s n : 0 <= s < DAY -> 0 <= n < NANOS_PER_SECOND ->
  time_wf (from_seconds_of_day s n) /\ seconds_of_day (from_seconds_of_day s n) = s /\
  nanosecond (from_seconds_of_day s n) = n.
Proof.
  intros Hs Hn. unfold DAY in Hs. unfold time_wf, seconds_of_day, from_seconds_of_day, as_u8. cbn.
  rewrite !Z.mod_small by dlia. dlia.
Qed.

Lemma seconds_of_day_range t : time_wf t -> 0 <= seconds_of_day t < DAY.
Proof. unfold time_wf, seconds_of_day, DAY. lia. Qed.

Lemma from_seconds_of_day_of_day t : time_wf t ->
  from_seconds_of_day (seconds_of_day t) (nanosecond t) = t.
Proof.
  destruct t as [h m s n]. unfold time_wf, seconds_of_day, from_seconds_of_day, as_u8. cbn.
  intros (? & ? & ? & ?). f_equal; rewrite Z.mod_small; dlia.
Qed.

(** ** Reading what was written *)

Lemma as_i32_id n : 0 <= n <= i32_max -> as_i32 n = n.
Proof. intros. unfold as_i32, i32_max in *. rewrite Z.mod_small; lia. Qed.
Lemma as_u8_id n : 0 <= n < 256 -> as_u8 n = n.
Proof. intros. unfold as_u8. rewrite Z.mod_small; lia. Qed.

(** A date's text is read back to it, whatever follows. *)
Lemma read_date_accepts d tl : date_wf d -> accepts read_date (show_date d) d tl.
Proof.
  intros [Hy [Hm Hd]]. pose proof (days_in_month_bounds (year d) (month d)).
  unfold read_date, show_date.
  apply (accepts_bind _ _ _ _ (year d)); [apply digits_n_pad; lia|].
  apply (accepts_bind _ _ _ _ 45); [apply byte_of_accepts; by_eval|].
  apply (accepts_bind _ _ _ _ (month d)); [apply field_accepts; lia|].
  apply (accepts_bind _ _ _ _ 45); [apply byte_of_accepts; by_eval|].
  intros r E. rewrite (field_accepts 1 31 _ (day d) tl ltac:(lia) ltac:(lia) r E).
  cbn [mbind result_bind]. destruct (Z.ltb_spec (days_in_month (year d) (month d)) (day d)); [lia|].
  rewrite as_i32_id, !as_u8_id by (unfold i32_max; lia). by destruct d.
Qed.

(** Only a date's own text is read as it. *)
Lemma read_date_sound : sound read_date (λ l d, date_wf d /\ l = show_date d).
Proof.
  unfold read_date. eapply sound_weaken.
  { apply sound_bind; [apply digits_n_sound; lia|intros y].
    apply sound_bind; [apply byte_of_sound|intros c].
    apply sound_bind; [apply field_sound|intros m].
    apply sound_bind; [apply byte_of_sound|intros c'].
    instantiate (1 := λ c' l d, d = MkDate (as_i32 y) (as_u8 m) (as_u8 (day d)) /\
      1 <= day d <= 31 /\ day d <= days_in_month y m /\ l = pad 2 (day d)).
    intros r v r' H. apply bind_Ok in H as ([d r1] & H & H').
    apply field_sound in H as (l & (? & ? & ->) & -> & E).
    case_match eqn:Ed; [done|]. apply Z.ltb_ge in Ed. injection H' as <- <-.
    exists (pad 2 d). cbn [day]. rewrite !(as_u8_id d) by lia. by split_and!; try lia. }
  intros l d (l1 & l2 & y & -> & (Hd1 & Hl1 & ->) & l3 & l4 & c & -> & [Hc ->] &
    l5 & l6 & m & -> & (Hm & _ & ->) & l7 & l8 & c' & -> & [Hc' ->] & -> & ? & ? & ->).
  pose proof (num_bound l1 Hd1) as Hb. rewrite Hl1 in Hb.
  apply list_elem_of_singleton in Hc, Hc'. subst.
  cbn [year month day] in *. rewrite as_i32_id, !as_u8_id in * by (unfold i32_max; lia).
  unfold date_wf, on_calendar, show_date. cbn [year month day].
  rewrite pad_num by (auto with lia). split; [lia|done].
Qed.

(** What may follow a time: nothing that would be read into its fraction. *)
Definition ends_time (tl : bytes) : Prop :=
  match tl with [] => True | b :: _ => is_digit b = false /\ b <> 46 end.

(** The grammar of an optional fraction of a second. *)
Definition fraction_text (l : bytes) (n : Z) : Prop :=
  (l = [] /\ n = 0) \/
  exists ds, l = 46 :: ds /\ digits ds /\ (1 <= length ds <= 9)%nat /\
    n = num ds * 10 ^ (9 - Z.of_nat (length ds)).

Lemma fraction_text_range l n : fraction_text l n -> 0 <= n < NANOS_PER_SECOND.
Proof.
  unfold NANOS_PER_SECOND. intros [[_ ->]|(ds & _ & Hd & Hl & ->)]; [lia|].
  pose proof (num_bound ds Hd) as Hb.
  assert (10 ^ Z.of_nat (length ds) * 10 ^ (9 - Z.of_nat (length ds)) = 1000000000) as E.
  { rewrite <- Z.pow_add_r by lia. by replace (_ + _) with 9 by lia. }
  assert (0 < 10 ^ (9 - Z.of_nat (length ds))) by (apply Z.pow_pos_nonneg; lia). nia.
Qed.

Lemma read_fraction_accepts f n tl : fraction_text f n -> ends_time tl ->
  accepts read_fraction f n tl.
Proof.
  intros [[-> ->]|(ds & -> & Hd & Hl & ->)] Htl r E; unfold read_fraction.
  - rewrite decide_False; [apply (accepts_ret 0 tl r E)|]. intros Hd.
    apply (f_equal (lookup 0%nat)) in E. unfold rest in E.
    rewrite lookup_drop, Nat.add_0_r, Hd in E. destruct tl; [done|].
    simpl in *. injection E as <-. by destruct Htl.
  - rewrite decide_True by exact (rest_head _ _ _ E).
    assert (E1 : rest (adv 1 r) = ds ++ tl) by (by rewrite rest_adv, E).
    cbv zeta. rewrite E1, digit_run_app; [|done|].
    + rewrite decide_False by lia. change (drop (pos (adv 1 r)) _) with (rest (adv 1 r)).
      rewrite E1, take_app_length. by rewrite adv_adv.
    + destruct tl as [|b tl]; [by left|right]. exists b, tl. split; [done|]. apply Htl.
Qed.

Lemma read_fraction_sound : sound read_fraction fraction_text.
Proof.
  intros r n r'. unfold read_fraction, refuse. case_decide as Hd.
  - cbv zeta. change (drop (pos (adv 1 r)) (text (adv 1 r))) with (rest (adv 1 r)).
    case_decide as Hn; [done|]. intros [= <- <-].
    destruct (digit_run_spec (rest (adv 1 r))) as (ds & tl & E & Hds & Hl & _).
    rewrite E, <- Hl in *.
    exists (46 :: ds). rewrite take_app_length. split.
    + right. exists ds. split_and!; [done..|lia|lia|done].
    + rewrite adv_adv. split; [done|].
      rewrite (rest_adv (1 + _)), <- drop_drop, <- rest_adv, E, drop_app_length.
      simpl. rewrite <- E, rest_adv. unfold rest. by rewrite (drop_S _ _ _ Hd).
  - intros [= <- <-]. exists []. split; [by left|]. split; [|done].
    unfold adv. destruct r. simpl. by rewrite Nat.add_0_r.
Qed.

(** The grammar of a time of day. *)
Definition time_text (l : bytes) (t : Time) : Prop :=
  time_wf t /\ exists f, fraction_text f (nanosecond t) /\
    l = pad 2 (hour t) ++ bs ":" ++ pad 2 (minute t) ++ bs ":" ++ pad 2 (second t) ++ f.

Lemma read_time_accepts l t tl : time_text l t -> ends_time tl -> accepts read_time l t tl.
Proof.
  intros [(Hh & Hm & Hs & Hn) (f & Hf & ->)] Htl. unfold read_time.
  apply (accepts_bind _ _ _ _ (hour t)); [apply field_accepts; lia|].
  apply (accepts_bind _ _ _ _ 58); [apply byte_of_accepts; by_eval|].
  apply (accepts_bind _ _ _ _ (minute t)); [apply field_accepts; lia|].
  apply (accepts_bind _ _ _ _ 58); [apply byte_of_accepts; by_eval|].
  apply (accepts_bind _ _ _ _ (second t)); [apply field_accepts; lia|].
  rewrite <- (app_nil_r f).
  apply (accepts_bind _ _ _ _ (nanosecond t)); [by apply read_fraction_accepts|].
  rewrite !as_u8_id by lia. destruct t. apply accepts_ret.
Qed.

Lemma read_time_sound : sound read_time time_text.
Proof.
  unfold read_time. eapply sound_weaken.
  { apply sound_bind; [apply field_sound|intros h].
    apply sound_bind; [apply byte_of_sound|intros c].
    apply sound_bind; [apply field_sound|intros m].
    apply sound_bind; [apply byte_of_sound|intros c'].
    apply sound_bind; [apply field_sound|intros s].
    apply sound_bind; [apply read_fraction_sound|intros n]. apply sound_ret. }
  intros l t (l1 & l2 & h & -> & (Hh & _ & ->) & l3 & l4 & c & -> & [Hc ->] &
    l5 & l6 & m & -> & (Hm & _ & ->) & l7 & l8 & c' & -> & [Hc' ->] &
    l9 & l10 & s & -> & (Hs & _ & ->) & f & l11 & n & -> & Hf & -> & ->).
  apply list_elem_of_singleton in Hc, Hc'. subst.
  pose proof (fraction_text_range f n Hf).
  unfold time_text, time_wf. cbn [hour minute second nanosecond]. rewrite !as_u8_id by lia.
  split; [lia|]. exists f. split; [done|]. by rewrite app_nil_r.
Qed.

Lemma write_fraction_text n : 0 <= n < NANOS_PER_SECOND -> fraction_text (write_fraction [] n) n.
Proof.
  intros Hn. unfold write_fraction. destruct (Z.eqb_spec n 0) as [->|]; [by left|right].
  destruct (fraction_digits n ltac:(lia)) as (? & ? & ?). by eexists.
Qed.

(** The grammar of a date, [T] or [t], and a time. *)
Definition datetime_text (l : bytes) (x : DateTime) : Prop :=
  date_wf (date x) /\ exists c lt, c ∈ bs "Tt" /\ time_text lt (time x) /\
    l = show_date (date x) ++ c :: lt.

Lemma show_time_text t : time_wf t -> time_text (show_time t) t.
Proof.
  intros H. split; [done|]. exists (write_fraction [] (nanosecond t)).
  split; [apply write_fraction_text; apply H|done].
Qed.

Lemma show_datetime_text x : datetime_wf x -> datetime_text (show_datetime x) x.
Proof.
  intros [Hd Ht]. split; [done|]. exists 84, (show_time (time x)).
  split_and!; [by_eval|by apply show_time_text|done].
Qed.

Lemma read_date_time_accepts l x tl : datetime_text l x -> ends_time tl ->
  accepts read_date_time l x tl.
Proof.
  intros (Hd & c & lt & Hc & Ht & ->) Htl. unfold read_date_time.
  apply (accepts_bind _ _ _ _ (date x)); [by apply read_date_accepts|].
  apply (accepts_bind _ _ [c] _ c); [by apply byte_of_accepts|].
  rewrite <- (app_nil_r lt).
  apply (accepts_bind _ _ _ _ (time x)); [by apply read_time_accepts|].
  destruct x. apply accepts_ret.
Qed.

Lemma read_date_time_sound : sound read_date_time datetime_text.
Proof.
  unfold read_date_time. eapply sound_weaken.
  { apply sound_bind; [apply read_date_sound|intros d].
    apply sound_bind; [apply byte_of_sound|intros c].
    apply sound_bind; [apply read_time_sound|intros t]. apply sound_ret. }
  intros l x (l1 & l2 & d & -> & [Hd ->] & l3 & l4 & c & -> & [Hc ->] &
    l5 & l6 & t & -> & Ht & -> & ->).
  split; [done|]. exists c, l5. split_and!; [done|done|]. by rewrite app_nil_r.
Qed.

(** The grammar of an offset from UTC, and the seconds east it says. *)
Definition offset_text (l : bytes) (o : Z) : Prop :=
  (o = 0 /\ (l = bs "Z" \/ l = bs "z")) \/
  exists sign h m, 0 <= h <= 23 /\ 0 <= m <= 59 /\
    ((sign = 43 /\ o = h * 3600 + m * 60) \/ (sign = 45 /\ o = - (h * 3600 + m * 60))) /\
    l = sign :: pad 2 h ++ bs ":" ++ pad 2 m.

Lemma read_offset_accepts l o tl : offset_text l o -> accepts read_offset l o tl.
Proof.
  unfold read_offset. intros [[-> [->| ->]]|(sign & h & m & Hh & Hm & Hs & ->)].
  - apply (accepts_bind _ _ [90] [] 90); [apply byte_of_accepts; by_eval|].
    intros r E. rewrite decide_True by by left. by apply (accepts_ret 0 tl).
  - apply (accepts_bind _ _ [122] [] 122); [apply byte_of_accepts; by_eval|].
    intros r E. rewrite decide_True by by right. by apply (accepts_ret 0 tl).
  - apply (accepts_bind _ _ [sign] _ sign).
    { apply byte_of_accepts. destruct Hs as [[-> _]|[-> _]]; by_eval. }
    intros r E. rewrite decide_False by (destruct Hs as [[-> _]|[-> _]]; lia).
    revert r E.
    change (accepts (λ r, '(oh, r) ← field 0 23 "an offset hour from 00 to 23" r;
      '(_, r) ← byte_of (bs ":") "':' in the offset" r;
      '(om, r) ← field 0 59 "an offset minute from 00 to 59" r;
      let o := oh * 3600 + om * 60 in Ok (if sign =? 45 then - o else o, r))
      (pad 2 h ++ bs ":" ++ pad 2 m) o tl).
    apply (accepts_bind _ _ _ _ h); [apply field_accepts; lia|].
    apply (accepts_bind _ _ _ _ 58); [apply byte_of_accepts; by_eval|].
    rewrite <- (app_nil_r (pad 2 m)).
    apply (accepts_bind _ _ _ _ m); [apply field_accepts; lia|].
    eapply accepts_eq; [apply accepts_ret|done|].
    destruct Hs as [[-> ->]|[-> ->]]; done.
Qed.

Lemma read_offset_sound : sound read_offset offset_text.
Proof.
  unfold read_offset. eapply sound_weaken.
  { apply sound_bind; [apply byte_of_sound|intros sign].
    instantiate (1 := λ sign l o, if decide (sign = 90 \/ sign = 122) then l = [] /\ o = 0 else
      exists h m, 0 <= h <= 23 /\ 0 <= m <= 59 /\ l = pad 2 h ++ bs ":" ++ pad 2 m /\
        o = if sign =? 45 then - (h * 3600 + m * 60) else h * 3600 + m * 60).
    cbv beta. case_decide; [apply sound_ret|]. eapply sound_weaken.
    { apply sound_bind; [apply field_sound|intros h].
      apply sound_bind; [apply byte_of_sound|intros c].
      apply sound_bind; [apply field_sound|intros m]. apply sound_ret. }
    intros l o (l1 & l2 & h & -> & (Hh & _ & ->) & l3 & l4 & c & -> & [Hc ->] &
      l5 & l6 & m & -> & (Hm & _ & ->) & -> & ->).
    apply list_elem_of_singleton in Hc. subst. exists h, m.
    split_and!; [lia..| |done]. by rewrite app_nil_r. }
  intros l o (l1 & l2 & sign & -> & [Hs ->] & H).
  change (bs "Zz+-") with [90; 122; 43; 45] in Hs.
  repeat (apply elem_of_cons in Hs as [->|Hs]); [..|by apply elem_of_nil in Hs];
    [left; rewrite decide_True in H by lia; naive_solver..| |];
    rewrite decide_False in H by lia; destruct H as (h & m & ? & ? & -> & ->); right.
  - exists 43, h, m. split_and!; [lia..|by left|done].
  - exists 45, h, m. split_and!; [lia..|by right|done].
Qed.

(** ** Span arithmetic *)

Lemma i32_try_Some n y : i32_try n = Some y <-> y = n /\ - 2^31 <= n <= i32_max.
Proof.
  unfold i32_try. case_match eqn:E; bprop E; [naive_solver lia|].
  split; [done|]. intros (_ & ?). exfalso. lia.
Qed.

Lemma days_in_month_u8 y m : as_u8 (days_in_month y m) = days_in_month y m.
Proof. pose proof (days_in_month_bounds y m). apply as_u8_id. lia. Qed.

(** Where [shifted] lands: the year and month [months] later, the day clamped to
    that month's length, then the days counted on from there. *)
Lemma shifted_spec d span more d' : date_wf d ->
  shifted d span more = Some d' <->
  exists y m, 1 <= m <= 12 /\ 0 <= y <= 9999 /\
    y * 12 + m = year d * 12 + month d + get_years span * 12 + get_months span /\
    date_wf d' /\
    date_days d' = days_from_civil y m (Z.min (day d) (days_in_month y m)) +
      get_weeks span * 7 + get_days span + more.
Proof.
  intros [Hy [Hm Hd]]. unfold shifted. cbv zeta.
  set (ym := year d * 12 + month d - 1 + (get_years span * 12 + get_months span)).
  rewrite (as_u8_id (ym mod 12 + 1)) by dlia. split.
  - intros H. apply bind_Some in H as (y & Hi & H). apply i32_try_Some in Hi as [-> _].
    destruct (YEARS _) eqn:EY; [|done]. apply YEARS_spec in EY.
    rewrite days_in_month_u8 in H. unfold date_days at 1 2 in H. cbn [year month day] in H.
    case_match eqn:Ed; [done|]. injection H as <-. bprop Ed.
    destruct (date_from_days_spec _ (conj (proj1 Ed) (proj2 Ed))) as [Hwf E].
    exists (ym / 12), (ym mod 12 + 1). split_and!; [dlia..|done|exact E].
  - intros (y & m & Hm' & Hy' & Eym & Hwf & E).
    assert (ym / 12 = y) as -> by (unfold ym; dlia).
    assert (ym mod 12 + 1 = m) as -> by (unfold ym; dlia).
    rewrite (proj2 (i32_try_Some y y)) by (unfold i32_max; lia). cbn [mbind option_bind].
    rewrite (proj2 (YEARS_spec y)) by lia. rewrite days_in_month_u8.
    unfold date_days at 1 2 3. cbn [year month day]. rewrite <- E.
    pose proof (date_days_range d' Hwf). case_match eqn:Ed; bprop Ed; [exfalso; lia|].
    by rewrite date_from_days_of_days.
Qed.

(** The nanoseconds of a civil date-time from 1970-01-01T00:00:00 on its own
    wall clock. *)
Definition wall_nanos (x : DateTime) : Z :=
  (date_days (date x) * DAY + seconds_of_day (time x)) * NANOS_PER_SECOND + nanosecond (time x).

(** The nanoseconds of a span's hours and below. *)
Definition clock_nanos (s : Span) : Z :=
  (get_hours s * 3600 + get_minutes s * 60 + get_seconds s) * NANOS_PER_SECOND + get_nanoseconds s.

Lemma wall_nanos_inj x x' : datetime_wf x -> datetime_wf x' -> wall_nanos x = wall_nanos x' -> x = x'.
Proof.
  intros [Hd Ht] [Hd' Ht'] E. unfold wall_nanos in E.
  pose proof (seconds_of_day_range _ Ht) as B. pose proof (seconds_of_day_range _ Ht') as B'.
  pose proof Ht as (_ & _ & _ & Hn). pose proof Ht' as (_ & _ & _ & Hn').
  unfold DAY, NANOS_PER_SECOND in E, B, B', Hn, Hn'.
  assert (nanosecond (time x) = nanosecond (time x')) as En by lia.
  assert (date_days (date x) = date_days (date x')) as Ed by lia.
  assert (seconds_of_day (time x) = seconds_of_day (time x')) as Es by lia.
  apply date_days_inj in Ed; [|done..].
  assert (time x = time x') as Et.
  { rewrite <- (from_seconds_of_day_of_day (time x)), <- (from_seconds_of_day_of_day (time x')), Es, En; done. }
  destruct x, x'. simpl in *. by subst.
Qed.

Lemma datetime_checked_add_spec x span x' : datetime_wf x ->
  datetime_checked_add x span = Some x' <->
  exists y m, 1 <= m <= 12 /\ 0 <= y <= 9999 /\
    y * 12 + m = year (date x) * 12 + month (date x) + get_years span * 12 + get_months span /\
    datetime_wf x' /\
    wall_nanos x' = (days_from_civil y m (Z.min (day (date x)) (days_in_month y m)) +
        get_weeks span * 7 + get_days span) * DAY_NANOS +
      (seconds_of_day (time x) * NANOS_PER_SECOND + nanosecond (time x) + clock_nanos span).
Proof.
  intros [Hd Ht]. unfold datetime_checked_add. cbv zeta.
  set (n := _ + get_nanoseconds span).
  assert (En : n = seconds_of_day (time x) * NANOS_PER_SECOND + nanosecond (time x) + clock_nanos span)
    by (unfold n, clock_nanos; lia).
  assert (Hof : 0 <= n mod DAY_NANOS < DAY_NANOS) by (unfold DAY_NANOS, DAY, NANOS_PER_SECOND; dlia).
  assert (as_u32 (Z.rem (n mod DAY_NANOS) NANOS_PER_SECOND) = n mod DAY_NANOS mod NANOS_PER_SECOND) as ->.
  { unfold as_u32. rewrite Z.rem_mod_nonneg by (unfold NANOS_PER_SECOND; lia).
    rewrite (Z.mod_small _ (2^32)); [done|]. unfold NANOS_PER_SECOND. dlia. }
  rewrite Z.quot_div_nonneg by (unfold NANOS_PER_SECOND; lia).
  destruct (from_seconds_of_day_spec (n mod DAY_NANOS / NANOS_PER_SECOND)
    (n mod DAY_NANOS mod NANOS_PER_SECOND)) as (Ht' & Es & Ens).
  { unfold DAY_NANOS, DAY, NANOS_PER_SECOND in *. dlia. }
  { unfold NANOS_PER_SECOND. dlia. }
  set (t' := from_seconds_of_day _ _) in *.
  assert (Esum : seconds_of_day t' * NANOS_PER_SECOND + nanosecond t' = n mod DAY_NANOS).
  { rewrite Es, Ens. pose proof (Z.div_mod (n mod DAY_NANOS) NANOS_PER_SECOND ltac:(done)). lia. }
  assert (Edm : n = DAY_NANOS * (n / DAY_NANOS) + n mod DAY_NANOS) by (apply Z.div_mod; done).
  rewrite <- En.
  assert (EDN : DAY_NANOS = DAY * NANOS_PER_SECOND) by done. split.
  - intros H. apply bind_Some in H as (d' & H & [= <-]). apply shifted_spec in H; [|done].
    destruct H as (y & m & Hm' & Hy' & Eym & Hwf & E). exists y, m.
    do 3 (split; [done|]). split; [by split|]. unfold wall_nanos. cbn [date time]. nia.
  - intros (y & m & Hm' & Hy' & Eym & Hwf & E).
    destruct (shifted (date x) span (n / DAY_NANOS)) as [d'|] eqn:Esh; cbn [mbind option_bind].
    + apply shifted_spec in Esh; [|done].
      destruct Esh as (y' & m' & ? & ? & Eym' & Hwf' & E').
      assert (y' = y /\ m' = m) as [-> ->] by lia. f_equal. symmetry.
      apply wall_nanos_inj; [done|by split|]. unfold wall_nanos at 2. cbn [date time]. nia.
    + exfalso. assert (shifted (date x) span (n / DAY_NANOS) = Some (date x')) as Hs; [|congruence].
      apply shifted_spec; [done|]. destruct Hwf as [Hdx Htx]. exists y, m. do 4 (split; [done|]).
      unfold wall_nanos in E. pose proof (seconds_of_day_range _ Htx) as B.
      destruct Htx as (_ & _ & _ & Hnx). rewrite EDN in *. unfold DAY, NANOS_PER_SECOND in *.
      lia.
Qed.
