(* ===== verification/Instants.v ===== *)
(** * Instants, and the text forms of the civil types

    The grammar of an instant's text and what [timestamp_from_str] makes of it,
    the conversions to and from the system clock, and the [TextForm] instances
    of [Date], [Time], [DateTime] and [Timestamp]. *)

From S2P Require Import Prelude Decimal Calendar Errors Reader TextForm Span Civil.

(** The nanoseconds of an instant from 1970-01-01T00:00:00Z. *)
Definition instant_nanos (t : Timestamp) : Z := seconds t * NANOS_PER_SECOND + nanos t.

(** RFC 3339 [date-time]: a civil date and time, then [Z] or an offset; the
    instant is the wall clock less the offset, and must be writable. *)
Definition timestamp_text (l : bytes) (t : Timestamp) : Prop :=
  timestamp_wf t /\ exists lx x lo o, l = lx ++ lo /\ datetime_text lx x /\ offset_text lo o /\
    instant_nanos t = wall_nanos x - o * NANOS_PER_SECOND.

#[export] Instance Date_text : TextForm Date :=
  { tf_wf := date_wf; to_text := show_date; of_text := date_from_str }.
#[export] Instance Time_text : TextForm Time :=
  { tf_wf := time_wf; to_text := show_time; of_text := time_from_str }.
#[export] Instance DateTime_text : TextForm DateTime :=
  { tf_wf := datetime_wf; to_text := show_datetime; of_text := datetime_from_str }.
#[export] Instance Timestamp_text : TextForm Timestamp :=
  { tf_wf := timestamp_wf; to_text := show_timestamp; of_text := timestamp_from_str }.

(** The projections unfold before the functions they project. *)
#[global] Strategy expand [tf_wf to_text of_text Date_text Time_text DateTime_text Timestamp_text].

(** ** Each reader accepts its grammar and nothing else *)

Lemma date_from_str_iff l d : date_from_str l = Ok d <-> date_wf d /\ l = show_date d.
Proof.
  split.
  - apply (read_all_sound read_date _ (λ l d, date_wf d /\ l = show_date d)), read_date_sound.
  - intros [Hd ->]. by apply read_all_accepts, read_date_accepts.
Qed.

Lemma time_from_str_iff l t : time_from_str l = Ok t <-> time_text l t.
Proof.
  split.
  - apply (read_all_sound read_time _ time_text), read_time_sound.
  - intros H. by apply read_all_accepts, read_time_accepts.
Qed.

Lemma datetime_from_str_iff l x : datetime_from_str l = Ok x <-> datetime_text l x.
Proof.
  split.
  - apply (read_all_sound read_date_time _ datetime_text), read_date_time_sound.
  - intros H. by apply read_all_accepts, read_date_time_accepts.
Qed.

Lemma datetime_text_wf l x : datetime_text l x -> datetime_wf x.
Proof. intros (? & c & lt & _ & [? _] & _). by split. Qed.

Lemma offset_ends l o : offset_text l o -> ends_time l.
Proof.
  intros [[_ [->| ->]]|(s & h & m & _ & _ & [[-> _]|[-> _]] & ->)]; split; done.
Qed.

Lemma from_unix_Ok s n t : 0 <= n ->
  from_unix s n = Ok t <-> t = MkTimestamp s n /\ timestamp_wf t.
Proof.
  intros Hn. unfold from_unix, timestamp_wf. case_match eqn:E; bprop E.
  - split; [done|]. intros [-> ?]. cbn [seconds nanos] in *. exfalso. lia.
  - split; [intros [= <-]; cbn [seconds nanos]; split; [done|lia]|]. by intros [-> _].
Qed.

Lemma timestamp_from_str_iff l t : timestamp_from_str l = Ok t <-> timestamp_text l t.
Proof.
  unfold timestamp_from_str, timestamp_text, instant_nanos, wall_nanos. split.
  - intros H. apply bind_Ok in H as ([x r] & H1 & H). cbv zeta in H.
    apply bind_Ok in H as ([o r'] & H2 & H). apply bind_Ok in H as (u & H3 & H).
    apply map_err_Ok in H. apply read_date_time_sound in H1 as (lx & Hx & -> & E).
    apply read_offset_sound in H2 as (lo & Ho & -> & E2). apply end_inv in H3.
    rewrite H3, app_nil_r in E2. rewrite rest_new, E2 in E.
    pose proof (datetime_text_wf _ _ Hx) as [_ (_ & _ & _ & Hn)].
    apply from_unix_Ok in H as [-> Ht]; [|lia]. split; [done|].
    exists lx, x, lo, o. split_and!; [done..|]. cbn [seconds nanos]. lia.
  - intros (Ht & lx & x & lo & o & -> & Hx & Ho & En).
    rewrite (read_date_time_accepts lx x lo Hx (offset_ends _ _ Ho)) by done.
    cbn [mbind result_bind]. cbv zeta.
    rewrite (read_offset_accepts lo o [] Ho)
      by (rewrite app_nil_r; by apply (rest_took _ lx)).
    cbn [mbind result_bind]. rewrite adv_adv, <- length_app.
    rewrite end_ok; [|by apply (rest_took _ (lx ++ lo)); rewrite rest_new, app_nil_r|simpl; lia].
    cbn [mbind result_bind]. apply map_err_Ok.
    pose proof (datetime_text_wf _ _ Hx) as [_ (_ & _ & _ & Hn)].
    apply from_unix_Ok; [lia|]. destruct t as [s n]. destruct Ht as [Hs Hn'].
    cbn [seconds nanos] in *. unfold NANOS_PER_SECOND in *. split; [f_equal; lia|].
    split; cbn [seconds nanos]; [done|unfold NANOS_PER_SECOND; lia].
Qed.

(** ** UTC *)

Lemma utc_spec t : timestamp_wf t -> datetime_wf (utc t) /\ wall_nanos (utc t) = instant_nanos t.
Proof.
  intros [Hs Hn]. unfold utc, wall_nanos, instant_nanos, datetime_wf. cbn [date time].
  destruct (date_from_days_spec (seconds t / DAY)) as [Hd Ed].
  { unfold DAY in *. dlia. }
  destruct (from_seconds_of_day_spec (seconds t mod DAY) (nanos t)) as (Ht & Es & En);
    [unfold DAY; dlia|done|].
  split; [done|]. rewrite Ed, Es, En. unfold DAY in *. dlia.
Qed.

Lemma show_timestamp_text t : timestamp_wf t -> timestamp_text (show_timestamp t) t.
Proof.
  intros H. destruct (utc_spec t H) as [Hw E]. split; [done|].
  exists (show_datetime (utc t)), (utc t), (bs "Z"), 0. split_and!; [done| | |lia].
  - by apply show_datetime_text.
  - left. split; [done|by left].
Qed.

#[export] Instance Date_laws : TextFormLaws Date.
Proof.
  split; unfold of_text, to_text, tf_wf; cbn [Date_text].
  - intros d Hd. by apply date_from_str_iff.
  - intros t d H. by apply date_from_str_iff in H as [? _].
Qed.
#[export] Instance Time_laws : TextFormLaws Time.
Proof.
  split; unfold of_text, to_text, tf_wf; cbn [Time_text].
  - intros d Hd. by apply time_from_str_iff, show_time_text.
  - intros t d H. by apply time_from_str_iff in H as [? _].
Qed.
#[export] Instance DateTime_laws : TextFormLaws DateTime.
Proof.
  split; unfold of_text, to_text, tf_wf; cbn [DateTime_text].
  - intros d Hd. by apply datetime_from_str_iff, show_datetime_text.
  - intros t d H. by eapply datetime_text_wf, datetime_from_str_iff.
Qed.
#[export] Instance Timestamp_laws : TextFormLaws Timestamp.
Proof.
  split; unfold of_text, to_text, tf_wf; cbn [Timestamp_text].
  - intros d Hd. by apply timestamp_from_str_iff, show_timestamp_text.
  - intros t d H. by apply timestamp_from_str_iff in H as [? _].
Qed.

(** ** The system clock *)

Lemma instant_nanos_inj t t' : timestamp_wf t -> timestamp_wf t' ->
  instant_nanos t = instant_nanos t' -> t = t'.
Proof.
  unfold instant_nanos, timestamp_wf, NANOS_PER_SECOND. destruct t as [s n], t' as [s' n']. cbn [seconds nanos].
  intros [_ ?] [_ ?] ?. f_equal; lia.
Qed.

Lemma timestamp_of_system_spec n t :
  timestamp_of_system n = Ok t <-> timestamp_wf t /\ instant_nanos t = n.
Proof.
  assert (Hin : forall s m, 0 <= m < NANOS_PER_SECOND -> s * NANOS_PER_SECOND + m = n ->
    from_unix s m = Ok t <-> timestamp_wf t /\ instant_nanos t = n).
  { intros s m Hm E. rewrite from_unix_Ok by lia. split.
    - intros [-> ?]. by split.
    - intros [Hw E']. split; [|done]. destruct Hw as [_ Hn]. destruct t as [s' n'].
      unfold instant_nanos in E'. cbn [seconds nanos] in *. unfold NANOS_PER_SECOND in *. f_equal; lia. }
  assert (Hbig : i64_max < Z.abs n / NANOS_PER_SECOND -> ~ (timestamp_wf t /\ instant_nanos t = n)).
  { unfold timestamp_wf, instant_nanos, FIRST_DAY, LAST_DAY, DAY, NANOS_PER_SECOND, i64_max.
    intros H [? E]. dlia. }
  unfold timestamp_of_system, duration_since_epoch, i64_try.
  destruct (Z.leb_spec 0 n); cbn [as_secs subsec_nanos].
  - destruct (Z.leb_spec (n / NANOS_PER_SECOND) i64_max); cbn [mbind result_bind].
    + apply Hin; unfold NANOS_PER_SECOND; dlia.
    + split; [done|]. intros H'. exfalso. apply Hbig; [|done]. by rewrite Z.abs_eq.
  - destruct (Z.leb_spec (- n / NANOS_PER_SECOND) i64_max); cbn [mbind result_bind].
    + destruct (Z.eqb_spec (- n mod NANOS_PER_SECOND) 0); apply Hin; unfold NANOS_PER_SECOND in *; dlia.
    + split; [done|]. intros H'. exfalso. apply Hbig; [|done]. rewrite Z.abs_neq by lia. done.
Qed.

Lemma system_of_timestamp_spec held t : timestamp_wf t ->
  system_of_timestamp held t =
    if held (seconds t * NANOS_PER_SECOND) && held (instant_nanos t)
    then Ok (instant_nanos t) else Err Unrepresentable.
Proof.
  intros _. unfold system_of_timestamp, instant_nanos. cbv zeta.
  replace (if 0 <=? seconds t then _ else _) with
    (if held (seconds t * NANOS_PER_SECOND) then Some (seconds t * NANOS_PER_SECOND) else None).
  - destruct (held (seconds t * _)); [|done]. cbn [mbind option_bind andb]. by destruct (held _).
  - destruct (Z.leb_spec 0 (seconds t)).
    + by rewrite Z.abs_eq, Z.add_0_l by lia.
    + by rewrite Z.abs_neq, Z.sub_0_l, <- Z.mul_opp_l, Z.opp_involutive by lia.
Qed.

(** ** Bounds *)

Lemma signed_range s at_ : span_wf s -> (at_ < 8)%nat -> - i64_max <= signed s at_ <= i64_max.
Proof.
  intros H Hat. destruct (span_wf_cases s H) as (y & mo & w & d & h & mi & se & na & E & ?).
  unfold signed, unit_at. rewrite E.
  assert (NANOS_PER_SECOND <= i64_max) by done.
  do 8 (destruct at_ as [|at_]; [cbn; destruct (negative s); lia|]). lia.
Qed.

Definition in_i128 (n : Z) : Prop := - 2^127 <= n <= i128_max.

(** ** Properties *)

(** Adding a span to a date succeeds exactly when the span has no clock
    units and the result is a writable date; the result is the day count of the
    date moved by the span's years and months, its day clamped to the length of
    the month it lands in, plus the weeks and days. *)
Theorem date_checked_add_spec (d d' : Date) (span : Span) (Hd : date_wf d) :
  date_checked_add d span = Some d' <->
  get_hours span = 0 /\ get_minutes span = 0 /\ get_seconds span = 0 /\ get_nanoseconds span = 0 /\
  exists y m, 1 <= m <= 12 /\ 0 <= y <= 9999 /\
    y * 12 + m = year d * 12 + month d + get_years span * 12 + get_months span /\
    date_wf d' /\
    date_days d' = days_from_civil y m (Z.min (day d) (days_in_month y m)) +
      get_weeks span * 7 + get_days span.
Proof.
  unfold date_checked_add. case_match eqn:E; bprop E.
  - split; [done|]. intros (? & ? & ? & ? & _). exfalso. lia.
  - rewrite shifted_spec by done. setoid_rewrite Z.add_0_r. naive_solver.
Qed.

Lemma date_checked_add_spec_witness :
  date_checked_add (MkDate 2024 1 31) (months span_new 1) = Some (MkDate 2024 2 29).
Proof.
  apply (date_checked_add_spec _ (MkDate 2024 2 29) _).
  - split; vm_compute; repeat split; discriminate.
  - do 4 (split; [reflexivity|]). exists 2024, 2.
    do 3 (split; [vm_compute; repeat split; discriminate|]). split; [|reflexivity].
    split; vm_compute; repeat split; discriminate.
Defined.

(** Adding a span to a civil date and time is exact to the nanosecond: it
    succeeds exactly when the wall clock, moved by the years and months (with
    the day clamped) and then by the weeks, days, hours, minutes, seconds and
    nanoseconds as lengths, is a writable date and time, and gives that one. *)
Theorem datetime_checked_add_exact (x x' : DateTime) (span : Span) (Hx : datetime_wf x) :
  datetime_checked_add x span = Some x' <->
  exists y m, 1 <= m <= 12 /\ 0 <= y <= 9999 /\
    y * 12 + m = year (date x) * 12 + month (date x) + get_years span * 12 + get_months span /\
    datetime_wf x' /\
    wall_nanos x' = (days_from_civil y m (Z.min (day (date x)) (days_in_month y m)) +
        get_weeks span * 7 + get_days span) * DAY_NANOS +
      (seconds_of_day (time x) * NANOS_PER_SECOND + nanosecond (time x) + clock_nanos span).
Proof. by apply datetime_checked_add_spec. Qed.

Lemma datetime_checked_add_exact_witness :
  datetime_checked_add (MkDateTime (MkDate 2023 12 31) (MkTime 23 59 59 999999999))
    (nanoseconds span_new 1) = Some (MkDateTime (MkDate 2024 1 1) midnight).
Proof.
  apply (datetime_checked_add_exact _ (MkDateTime (MkDate 2024 1 1) midnight) _).
  - split; split; vm_compute; repeat split; discriminate.
  - exists 2023, 12. do 3 (split; [vm_compute; repeat split; discriminate|]).
    split; [|reflexivity]. split; split; vm_compute; repeat split; discriminate.
Defined.

(** No sum of span arithmetic leaves the [i128] it is computed in, whatever
    the date, the time and the span: the months, the year and month they land
    on, the nanoseconds of the clock, and the days. *)
Theorem span_sums_fit_i128 (x : DateTime) (s : Span) (landed : Date)
    (Hx : datetime_wf x) (Hs : span_wf s) (Hl : date_wf landed) :
  let n := (seconds_of_day (time x) + get_hours s * 3600 + get_minutes s * 60 + get_seconds s) *
    NANOS_PER_SECOND + nanosecond (time x) + get_nanoseconds s in
  let months := get_years s * 12 + get_months s in
  in_i128 n /\ in_i128 months /\ in_i128 (year (date x) * 12 + month (date x) - 1 + months) /\
  in_i128 (date_days landed + get_weeks s * 7 + get_days s + n / DAY_NANOS).
Proof.
  destruct Hx as [[Hy [Hm _]] Ht]. pose proof (seconds_of_day_range _ Ht) as Hsd.
  destruct Ht as (_ & _ & _ & Hn). pose proof (date_days_range _ Hl) as Hdd. cbv zeta.
  assert (forall at_, (at_ < 8)%nat -> - i64_max <= signed s at_ <= i64_max) as H
    by (intros; by apply signed_range).
  pose proof (H YEARS_ ltac:(unfold YEARS_; lia)). pose proof (H MONTHS ltac:(unfold MONTHS; lia)).
  pose proof (H WEEKS ltac:(unfold WEEKS; lia)). pose proof (H DAYS ltac:(unfold DAYS; lia)).
  pose proof (H HOURS ltac:(unfold HOURS; lia)). pose proof (H MINUTES ltac:(unfold MINUTES; lia)).
  pose proof (H SECONDS ltac:(unfold SECONDS; lia)). pose proof (H NANOS ltac:(unfold NANOS; lia)).
  unfold get_years, get_months, get_weeks, get_days, get_hours, get_minutes, get_seconds,
    get_nanoseconds, in_i128, i128_max, i64_max, FIRST_DAY, LAST_DAY, DAY, NANOS_PER_SECOND in *.
  set (n := _ * 1000000000 + _ + _).
  assert (- 2^110 <= n <= 2^110) by (unfold n; lia). clearbody n.
  assert (- 2^110 <= n / DAY_NANOS <= 2^110) by (unfold DAY_NANOS, DAY, NANOS_PER_SECOND; dlia).
  repeat split; lia.
Qed.

Lemma span_sums_fit_i128_witness :
  in_i128 (date_days (MkDate 9999 12 31) + get_weeks (weeks span_new i64_max) * 7 +
    get_days (weeks span_new i64_max) + 0).
Proof.
  refine (proj2 (proj2 (proj2 (span_sums_fit_i128 (MkDateTime (MkDate 1970 1 1) midnight)
    (weeks span_new i64_max) (MkDate 9999 12 31) _ _ _)))).
  - split; split; vm_compute; repeat split; discriminate.
  - apply with_wf; [apply span_new_wf|left; unfold WEEKS, NANOS; lia].
  - split; vm_compute; repeat split; discriminate.
Defined.

(** A date is read from exactly its own ten-byte text: every accepted text
    is the canonical text of a writable calendar date, and is read as it. *)
Theorem date_text_exact (l : bytes) (d : Date) :
  date_from_str l = Ok d <-> date_wf d /\ l = show_date d.
Proof. apply date_from_str_iff. Qed.

(** Times of day and civil date-times are read from exactly their grammar
    (two-digit fields in range, an optional fraction of one to nine digits, [T]
    or [t] between), and their own texts are in it. *)
Theorem civil_text_exact (l : bytes) :
  (forall t, time_from_str l = Ok t <-> time_text l t) /\
  (forall x, datetime_from_str l = Ok x <-> datetime_text l x) /\
  (forall t, time_wf t -> time_text (show_time t) t) /\
  (forall x, datetime_wf x -> datetime_text (show_datetime x) x).
Proof.
  split; [intros; apply time_from_str_iff|]. split; [intros; apply datetime_from_str_iff|].
  split; intros; [by apply show_time_text|by apply show_datetime_text].
Qed.

(** An instant is read from exactly the RFC 3339 grammar, with any offset,
    and the instant read is the wall clock less the offset; a text whose instant
    falls outside the writable years is refused. *)
Theorem timestamp_text_exact (l : bytes) (t : Timestamp) :
  timestamp_from_str l = Ok t <-> timestamp_text l t.
Proof. apply timestamp_from_str_iff. Qed.

(** An instant's text is the UTC wall clock's, is read back to the same
    instant, and two instants with one text are one instant. *)
Theorem timestamp_roundtrip (t t' : Timestamp) (Ht : timestamp_wf t) (Ht' : timestamp_wf t') :
  wall_nanos (utc t) = instant_nanos t /\
  timestamp_from_str (show_timestamp t) = Ok t /\
  (show_timestamp t = show_timestamp t' -> t = t').
Proof.
  pose proof (of_to_text t) as H. pose proof (to_text_inj t t') as H'.
  unfold tf_wf, of_text, to_text in H, H'. cbn [Timestamp_text] in H, H'.
  split; [by apply utc_spec|]. split; [by apply H|by apply H'].
Qed.

Lemma timestamp_roundtrip_witness :
  timestamp_from_str (show_timestamp (MkTimestamp (-1) 500000000)) =
    Ok (MkTimestamp (-1) 500000000) /\
  show_timestamp (MkTimestamp (-1) 500000000) = bs "1969-12-31T23:59:59.5Z".
Proof.
  split; [|vm_compute; reflexivity].
  apply (timestamp_roundtrip _ (MkTimestamp 0 0)); split; vm_compute; repeat split; discriminate.
Defined.

(** The system clock's instants convert exactly, before the epoch as after
    it: a reading is refused only outside the writable years, and an instant
    the platform's clock holds (with its whole second) goes there and back
    unchanged. *)
Theorem system_time_exact (held : Z -> bool) (n : Z) (t : Timestamp) :
  (timestamp_of_system n = Ok t <-> timestamp_wf t /\ instant_nanos t = n) /\
  (timestamp_wf t -> system_of_timestamp held t = Ok n -> timestamp_of_system n = Ok t) /\
  (timestamp_wf t -> held (seconds t * NANOS_PER_SECOND) = true -> held (instant_nanos t) = true ->
    system_of_timestamp held t = Ok (instant_nanos t)).
Proof.
  split; [apply timestamp_of_system_spec|]. split.
  - intros Ht. rewrite system_of_timestamp_spec by done. case_match; [|done].
    intros [= <-]. by apply timestamp_of_system_spec.
  - intros Ht H1 H2. by rewrite system_of_timestamp_spec, H1, H2.
Qed.

Lemma system_time_exact_witness :
  timestamp_of_system (-1) = Ok (MkTimestamp (-1) 999999999) /\
  system_of_timestamp (λ _, true) (MkTimestamp (-1) 999999999) = Ok (-1).
Proof.
  assert (timestamp_wf (MkTimestamp (-1) 999999999)) by (split; vm_compute; repeat split; discriminate).
  split.
  - apply (proj1 (system_time_exact (λ _, true) (-1) (MkTimestamp (-1) 999999999))). by split.
  - by apply (proj2 (proj2 (system_time_exact (λ _, true) (-1) (MkTimestamp (-1) 999999999)))).
Defined.
