(* ===== verification/SpanParse.v ===== *)
(** * Reading a span

    [value/span/parse.rs]: the ISO 8601 form and the friendly one. A loop of the
    source is a [loop] over its variables with one more unit of fuel than the
    text has bytes: every round takes at least one byte. *)

From S2P Require Import Prelude Decimal Calendar Errors Reader TextForm Span.

(** ** The cursor

    The same two fields as the cursor of [Reader]. *)

Definition peek (r : Reader) : option byte := text r !! pos r.

Definition eat (b : byte) (r : Reader) : bool * Reader :=
  if decide (peek r = Some b) then (true, adv 1 r) else (false, r).

Fixpoint space_run (l : bytes) : nat :=
  match l with b :: l => if b =? 32 then S (space_run l) else 0 | [] => 0 end.

Definition skip_spaces (r : Reader) : Reader := adv (space_run (rest r)) r.

(** The [while] of the whole part: the number so far and the digits read, [None]
    where a checked operation or the filter refuses. *)
Fixpoint whole_digits (l : bytes) (whole : Z) (n : nat) : option (Z * nat) :=
  match l with
  | d :: l =>
      if is_digit d then
        w ← checked_u64 (whole * 10);
        w ← checked_u64 (w + (d - 48));
        if w <=? i64_max then whole_digits l w (S n) else None
      else Some (whole, n)
  | [] => Some (whole, n)
  end.

(** The [while] of the fraction, [None] at a tenth digit. *)
Fixpoint nano_digits (l : bytes) (nanos : Z) (n : nat) : option (Z * nat) :=
  match l with
  | d :: l =>
      if is_digit d then
        if decide (n = 9%nat) then None else nano_digits l (nanos * 10 + (d - 48)) (S n)
      else Some (nanos, n)
  | [] => Some (nanos, n)
  end.

(** [Reader::number]: the whole part, the nanoseconds, and whether there was a
    fraction. *)
Definition number (r : Reader) : result ValueError ((Z * Z * bool) * Reader) :=
  match whole_digits (rest r) 0 0 with
  | None => refuse r "a number no greater than 9223372036854775807"
  | Some (whole, n) =>
      if decide (n = 0%nat) then refuse r "a number"
      else
        let '(dot, r) := eat 46 (adv n r) in
        if negb dot then Ok (whole, 0, false, r)
        else
          match nano_digits (rest r) 0 0 with
          | None => refuse (adv 9 r) "no more than nine fractional digits"
          | Some (nanos, n) =>
              if decide (n = 0%nat) then refuse r "a digit after the '.'"
              else Ok (whole, nanos * 10 ^ (9 - Z.of_nat n), true, adv n r)
          end
  end.

(** ** The ISO 8601 form *)

(** One round of the date part's loop. *)
Definition iso_date_step (s : Reader * list Z * nat * bool)
    : result ValueError ((Reader * list Z * nat * bool) + (Reader * list Z * bool)) :=
  let '(r, us, next, any) := s in
  if match peek r with Some b => is_digit b | None => false end then
    '(n, _, fraction, r1) ← number r;
    if fraction : bool then refuse r "a whole number: only the seconds take a fraction"
    else
      at_ ← match option_map to_upper (peek r1) with
            | Some 89 => Ok YEARS_
            | Some 77 => Ok MONTHS
            | Some 87 => Ok WEEKS
            | Some 68 => Ok DAYS
            | _ => refuse r1 "Y, M, W or D, or T before a time"
            end;
      if decide (at_ < next)%nat
      then refuse r1 "the date units in the order Y, M, W, D, each once"
      else Ok (inl (adv 1 r1, <[at_ := n]> us, S at_, true))
  else Ok (inr (r, us, any)).

(** One round of the time part's loop. *)
Definition iso_time_step (s : Reader * list Z * nat * bool)
    : result ValueError ((Reader * list Z * nat * bool) + (Reader * list Z * bool)) :=
  let '(r, us, next, timed) := s in
  if decide (pos r < length (text r))%nat then
    '(n, nanos, fraction, r1) ← number r;
    at_ ← match option_map to_upper (peek r1) with
          | Some 72 => Ok HOURS
          | Some 77 => Ok MINUTES
          | Some 83 => Ok SECONDS
          | _ => refuse r1 "H, M or S"
          end;
    if decide (at_ < next)%nat then refuse r1 "the time units in the order H, M, S, each once"
    else if fraction && negb (bool_decide (at_ = SECONDS))
    then refuse r "a whole number: only the seconds take a fraction"
    else
      let us := <[at_ := n]> us in
      let us := if decide (at_ = SECONDS) then <[NANOS := nanos]> us else us in
      Ok (inl (adv 1 r1, us, S at_, true))
  else Ok (inr (r, us, timed)).

Definition rounds (r : Reader) : nat := S (length (text r)).

(** [iso], after the [P]. *)
Definition iso (r : Reader) : result ValueError (list Z) :=
  '(r, us, any) ← loop iso_date_step (rounds r) OutOfRange (r, replicate 8 0, 0%nat, false);
  '(r, us, any) ←
    (if decide (peek r = Some 84 \/ peek r = Some 116) then
       '(r, us, timed) ← loop iso_time_step (rounds r) OutOfRange (adv 1 r, us, HOURS, false);
       if negb timed then refuse r "a time unit after T" else Ok (r, us, true)
     else Ok (r, us, any));
  if decide (pos r <> length (text r)) then refuse r "nothing after the last unit"
  else if negb any then refuse r "at least one unit"
  else Ok us.

(** ** The friendly form *)

(** The bytes a unit is spelled with: letters, or not ASCII. *)
Fixpoint letter_run (l : bytes) : nat :=
  match l with
  | b :: l => if is_alpha b || (128 <=? b) then S (letter_run l) else 0
  | [] => 0
  end.

(** The spellings: each one's slot, the nanoseconds of one of it where it is a
    part of a second, and its length. *)
Definition spelling (w : bytes) : option (nat * Z * nat) :=
  if decide (w = bs "y") then Some (0%nat, 0, 1%nat)
  else if decide (w = bs "mo") then Some (1%nat, 0, 2%nat)
  else if decide (w = bs "w") then Some (2%nat, 0, 1%nat)
  else if decide (w = bs "d") then Some (3%nat, 0, 1%nat)
  else if decide (w = bs "h") then Some (4%nat, 0, 1%nat)
  else if decide (w = bs "m") then Some (5%nat, 0, 1%nat)
  else if decide (w = bs "min") then Some (5%nat, 0, 3%nat)
  else if decide (w = bs "s") then Some (6%nat, 0, 1%nat)
  else if decide (w = bs "ms") then Some (7%nat, 1000000, 2%nat)
  else if decide (w = bs "us") then Some (8%nat, 1000, 2%nat)
  else if decide (w = [194; 181; 115]) then Some (8%nat, 1000, 3%nat)
  else if decide (w = bs "ns") then Some (9%nat, 1, 2%nat)
  else None.

(** [+] and [*] of [u64], wrapping. *)
Definition add64 (a b : Z) : Z := wrap64 (a + b).

Section friendly.
(** The addition the accumulators use. *)
Variable add : Z -> Z -> Z.

(** One round: a number, its unit, and the spaces after it. *)
Definition friendly_step (s : Reader * list Z * list bool)
    : result ValueError ((Reader * list Z * list bool) + list Z) :=
  let '(r, us, seen) := s in
  if decide (pos r < length (text r))%nat then
    '(n, nanos, fraction, r1) ← number r;
    match spelling (take (letter_run (rest r1)) (rest r1)) with
    | None => refuse r1 "a unit: y, mo, w, d, h, m, min, s, ms, us or ns"
    | Some (slot, nanos_per, len) =>
        if fraction && negb (bool_decide (slot = 6%nat))
        then refuse r "a whole number: only seconds take a fraction"
        else if (seen !!! slot : bool) then refuse r1 "each unit once"
        else
          us ← (if decide (slot <= 6)%nat then
                  let us := <[slot := n]> us in
                  Ok (if decide (slot = 6%nat)
                      then <[NANOS := add (us !!! NANOS) nanos]> us else us)
                else
                  total ← ok_or (checked_u64 (n * nanos_per))
                    (Unparsed (pos r) "a part of a second no larger than a u64 of nanoseconds");
                  let us := <[NANOS := add (us !!! NANOS) (total mod NANOS_PER_SECOND)]> us in
                  Ok (<[SECONDS := add (us !!! SECONDS) (total / NANOS_PER_SECOND)]> us));
          Ok (inl (skip_spaces (adv len r1), us, <[slot := true]> seen))
    end
  else Ok (inr us).

(** [friendly], at the first byte after the sign. *)
Definition friendly (r : Reader) : result ValueError (list Z) :=
  let r := skip_spaces r in
  if decide (pos r = length (text r)) then refuse r "a number and a unit, such as 1h or PT1H"
  else
    us ← loop friendly_step (rounds r) OutOfRange (r, replicate 8 0, replicate 10 false);
    let us := <[SECONDS := add (us !!! SECONDS) (us !!! NANOS / NANOS_PER_SECOND)]> us in
    let us := <[NANOS := us !!! NANOS mod NANOS_PER_SECOND]> us in
    if i64_max <? us !!! SECONDS
    then Err (Unparsed 0 "seconds no greater than 9223372036854775807")
    else Ok us.
End friendly.

Definition is_P (o : option byte) : bool := bool_decide (o = Some 80 \/ o = Some 112).

(** [span], which is [Span]'s [FromStr]. *)
Definition span_from_str (t : bytes) : result ValueError Span :=
  let '(neg, r) := eat 45 (new_reader t) in
  let r := if negb neg && bool_decide (peek r = Some 43) && is_P (text r !! 1%nat)
           then adv 1 r else r in
  us ← (if is_P (peek r) then iso (adv 1 r) else friendly add64 r);
  Ok (from_parts us neg).

(** ** Numbers *)

Definition no_digit (tl : bytes) : Prop :=
  match tl with b :: _ => is_digit b = false | [] => True end.

Lemma num_from_ge ds : forall w, digits ds -> 0 <= w -> w <= num_from w ds.
Proof.
  intros w Hd Hw. rewrite num_from_lin. pose proof (num_bound ds Hd).
  assert (1 <= 10 ^ Z.of_nat (length ds)) by lia. nia.
Qed.

Lemma whole_digits_app ds : forall tl w k, digits ds -> no_digit tl -> 0 <= w ->
  num_from w ds <= i64_max ->
  whole_digits (ds ++ tl) w k = Some (num_from w ds, (k + length ds)%nat).
Proof.
  induction ds as [|d ds IH]; intros tl w k Hd Ht Hw Hn.
  - rewrite Nat.add_0_r. destruct tl; [done|]. simpl in *. by rewrite Ht.
  - apply Forall_cons_iff in Hd as [Hd Hds]. cbn [app whole_digits]. rewrite Hd.
    apply is_digit_spec in Hd.
    change (num_from w (d :: ds)) with (num_from (w * 10 + (d - 48)) ds) in *.
    pose proof (num_from_ge ds (w * 10 + (d - 48)) Hds ltac:(lia)).
    unfold checked_u64, u64_max, i64_max in *.
    rewrite (proj2 (Z.leb_le (w * 10) _)) by lia. cbn [mbind option_bind].
    rewrite !(proj2 (Z.leb_le _ _)) by lia. cbn [mbind option_bind].
    rewrite (proj2 (Z.leb_le _ _)) by lia. rewrite IH; [|done|done|lia|lia].
    f_equal. f_equal. simpl. lia.
Qed.

Lemma whole_digits_Some l : forall w k n k', 0 <= w <= i64_max -> whole_digits l w k = Some (n, k') ->
  0 <= n <= i64_max /\ (k <= k' <= k + length l)%nat.
Proof.
  induction l as [|d l IH]; intros w k n k' Hw H; simpl in H; [injection H as <- <-; simpl; lia|].
  destruct (is_digit d) eqn:Ed; [|injection H as <- <-; simpl; lia].
  apply is_digit_spec in Ed. unfold checked_u64 in H.
  case_match; [|done]. cbn [mbind option_bind] in H.
  case_match; [|done]. cbn [mbind option_bind] in H.
  case_match eqn:E; [|done]. apply Z.leb_le in E. apply IH in H; [simpl|]; lia.
Qed.

Lemma nano_digits_app ds : forall tl w k, digits ds -> no_digit tl -> (k + length ds <= 9)%nat ->
  nano_digits (ds ++ tl) w k = Some (num_from w ds, (k + length ds)%nat).
Proof.
  induction ds as [|d ds IH]; intros tl w k Hd Ht Hk.
  - rewrite Nat.add_0_r. destruct tl; [done|]. simpl in *. by rewrite Ht.
  - apply Forall_cons_iff in Hd as [Hd Hds]. cbn [app nano_digits]. rewrite Hd. simpl in Hk.
    rewrite decide_False by lia. rewrite IH; [|done|done|lia]. f_equal. f_equal. simpl. lia.
Qed.

Lemma nano_digits_Some l : forall w k n k', 0 <= w < 10 ^ Z.of_nat k -> (k <= 9)%nat ->
  nano_digits l w k = Some (n, k') ->
  0 <= n < 10 ^ Z.of_nat k' /\ (k <= k' <= 9)%nat /\ (k' <= k + length l)%nat.
Proof.
  induction l as [|d l IH]; intros w k n k' Hw Hk H; simpl in H;
    [injection H as <- <-; simpl; lia|].
  destruct (is_digit d) eqn:Ed; [|injection H as <- <-; simpl; lia].
  apply is_digit_spec in Ed. case_decide; [done|].
  apply IH in H; [simpl; lia| |lia]. rewrite Nat2Z.inj_succ, Z.pow_succ_r by lia. lia.
Qed.

Lemma rest_length r : length (rest r) = (length (text r) - pos r)%nat.
Proof. unfold rest. by rewrite length_drop. Qed.

Lemma peek_rest r : peek r = head (rest r).
Proof.
  unfold peek, rest. rewrite <- (Nat.add_0_r (pos r)) at 1. rewrite <- lookup_drop.
  by destruct (drop _ _).
Qed.

(** A number is decimal digits, at most [i64::MAX], *)
Lemma number_whole ds tl r : digits ds -> ds <> [] -> num ds <= i64_max -> no_digit tl ->
  head tl <> Some 46 -> rest r = ds ++ tl ->
  number r = Ok (num ds, 0, false, adv (length ds) r).
Proof.
  intros Hd Hne Hn Ht Hdot E. unfold number. rewrite E, whole_digits_app by (done || lia).
  simpl. rewrite decide_False by (destruct ds; done). unfold eat. rewrite peek_rest.
  rewrite (rest_took _ _ _ E), decide_False by done. done.
Qed.

(** and may have a fraction of one to nine digits more. *)
Lemma number_fraction ds fs tl r : digits ds -> ds <> [] -> num ds <= i64_max -> digits fs ->
  (1 <= length fs <= 9)%nat -> no_digit tl -> rest r = ds ++ 46 :: fs ++ tl ->
  number r = Ok (num ds, num fs * 10 ^ (9 - Z.of_nat (length fs)), true,
                 adv (length ds + S (length fs)) r).
Proof.
  intros Hd Hne Hn Hf Hl Ht E. unfold number. rewrite E, whole_digits_app by (done || lia).
  simpl. rewrite decide_False by (destruct ds; done). unfold eat. rewrite peek_rest.
  rewrite (rest_took _ _ _ E), decide_True by done. simpl.
  rewrite rest_adv, (rest_took _ _ _ E). simpl.
  rewrite drop_0, nano_digits_app by (done || lia). simpl.
  rewrite decide_False by lia. by rewrite !adv_adv; do 3 f_equal.
Qed.

(** What any number read gives: values in range, and a cursor further on. *)
Lemma number_Ok r n na fr r' : number r = Ok (n, na, fr, r') ->
  0 <= n <= i64_max /\ 0 <= na < NANOS_PER_SECOND /\ (fr = false -> na = 0) /\
  exists k, (0 < k <= length (rest r))%nat /\ r' = adv k r.
Proof.
  unfold number. destruct (whole_digits (rest r) 0 0) as [[w k]|] eqn:Ew; [|done].
  apply whole_digits_Some in Ew as [Hw Hk]; [|unfold i64_max; lia].
  case_decide; [done|]. unfold eat. case_decide as Hp; simpl.
  - destruct (nano_digits _ 0 0) as [[na' k']|] eqn:En; [|done]. case_decide; [done|].
    intros [= <- <- <- <-].
    apply nano_digits_Some in En as (Hna & Hk' & Hk''); [|simpl; lia..]. split; [done|]. split.
    + unfold NANOS_PER_SECOND.
      assert (10 ^ Z.of_nat k' * 10 ^ (9 - Z.of_nat k') = 1000000000) as E10.
      { rewrite <- Z.pow_add_r by lia. by replace (_ + _) with 9 by lia. }
      assert (0 < 10 ^ (9 - Z.of_nat k')) by (apply Z.pow_pos_nonneg; lia). nia.
    + split; [done|]. exists (k + (1 + k'))%nat. rewrite !adv_adv. split; [|done].
      rewrite !rest_adv, !length_drop in Hk''. lia.
  - intros [= <- <- <- <-]. split; [done|]. split; [unfold NANOS_PER_SECOND; lia|].
    split; [done|]. exists k. split; [lia|done].
Qed.

(** ** The canonical text, read back *)

Lemma rest_pos r : rest r <> [] -> (pos r < length (text r))%nat.
Proof.
  intros H. pose proof (rest_length r). destruct (rest r); [done|]. simpl in *. lia.
Qed.

Lemma adv_0 r : adv 0 r = r.
Proof. unfold adv. destruct r. simpl. by rewrite Nat.add_0_r. Qed.

Section canonical.
Context (U : list Z) (HU : Forall (λ u, 0 <= u <= i64_max) U) (Hlen : length U = 8%nat).

Lemma U_range i : (i < 8)%nat -> 0 <= U !!! i <= i64_max.
Proof using HU Hlen.
  intros Hi. rewrite <- Hlen in Hi. rewrite Forall_lookup in HU.
  destruct (lookup_lt_is_Some_2 U i Hi) as [x Hx].
  rewrite (list_lookup_total_correct _ _ _ Hx). by eapply HU.
Qed.

(** The units read, where a zero unit is not written. *)
Definition put_unit (us : list Z) (c : nat * byte) : list Z :=
  if U !!! c.1 =? 0 then us else <[c.1 := U !!! c.1]> us.
Definition some_unit (cs : list (nat * byte)) : bool :=
  existsb (λ c, negb (U !!! c.1 =? 0)) cs.

Fixpoint in_order (next : nat) (cs : list (nat * byte)) : Prop :=
  match cs with [] => True | c :: cs => (next <= c.1 < 8)%nat /\ in_order (S c.1) cs end.

Lemma in_order_weaken cs n n' : (n' <= n)%nat -> in_order n cs -> in_order n' cs.
Proof. destruct cs; simpl; [done|]. intros ? [? ?]. split; [lia|done]. Qed.

(** A unit written is a number and its designator. *)
Lemma unit_number c tl r : (c.1 < 8)%nat -> U !!! c.1 <> 0 ->
  is_digit c.2 = false -> c.2 <> 46 ->
  rest r = unit_text U c ++ tl ->
  number r = Ok (U !!! c.1, 0, false, adv (length (dec (U !!! c.1))) r) /\
  rest (adv (length (dec (U !!! c.1))) r) = c.2 :: tl /\
  length (unit_text U c) = S (length (dec (U !!! c.1))) /\
  exists b, peek r = Some b /\ is_digit b = true.
Proof using HU Hlen.
  intros Hi H0 Hc H46 E. pose proof (U_range c.1 Hi) as Hr. unfold unit_text in *.
  rewrite (proj2 (Z.eqb_neq _ _) H0) in *. rewrite <- app_assoc in E. simpl in E.
  split; [|split; [by apply rest_took|split]].
  - rewrite (number_whole (dec (U !!! c.1)) (c.2 :: tl)), num_dec; try done.
    all: try rewrite num_dec; try apply dec_digits; try apply dec_nonempty; simpl; try lia.
    congruence.
  - rewrite length_app. simpl. lia.
  - rewrite peek_rest, E. destruct (dec_cons (U !!! c.1) (proj1 Hr)) as (d & ds & -> & Hd).
    by exists d.
Qed.

Lemma date_loop_reads cs : forall us next any r tl fuel,
  Forall (λ c, c ∈ date_units) cs -> in_order next cs ->
  rest r = concat (map (unit_text U) cs) ++ tl -> no_digit tl ->
  (length (concat (map (unit_text U) cs)) < fuel)%nat ->
  loop iso_date_step fuel OutOfRange (r, us, next, any) =
    Ok (adv (length (concat (map (unit_text U) cs))) r, foldl put_unit us cs,
        any || some_unit cs).
Proof using HU Hlen.
  induction cs as [|c cs IH]; intros us next any r tl fuel Hcs Ho E Ht Hf.
  - destruct fuel as [|fuel]; [lia|]. apply loop_break. unfold iso_date_step.
    rewrite peek_rest, E. simpl. rewrite orb_false_r.
    assert (r = adv 0 r) as <- by (unfold adv; destruct r; simpl; by rewrite Nat.add_0_r).
    destruct tl; simpl in *; [done|]. by rewrite Ht.
  - apply Forall_cons_iff in Hcs as [Hc Hcs]. destruct Ho as [Hi Ho].
    cbn [map concat] in *. rewrite <- app_assoc in E.
    unfold put_unit, some_unit. cbn [foldl existsb].
    destruct (Z.eqb_spec (U !!! c.1) 0) as [H0|H0].
    + assert (unit_text U c = []) as Hu by (unfold unit_text; by rewrite H0).
      rewrite Hu in *. simpl in *. apply (IH _ _ _ _ tl); try done.
      by apply (in_order_weaken _ (S c.1)); [lia|].
    + assert (is_digit c.2 = false /\ c.2 <> 46) as [Hd H46].
      { unfold date_units in Hc. repeat (apply elem_of_cons in Hc as [->|Hc]; [done|]).
        by apply elem_of_nil in Hc. }
      destruct (unit_number c _ r ltac:(lia) H0 Hd H46 E) as (En & Er & El & b & Hb & Hbd).
      destruct fuel as [|fuel]; [lia|]. erewrite loop_continue.
      2: { unfold iso_date_step. rewrite Hb, Hbd, En. cbn [mbind result_bind]. rewrite peek_rest, Er.
           cbn [head option_map]. instantiate (1 := (_, <[c.1 := U !!! c.1]> us, S c.1, true)).
           assert (match to_upper c.2 with 89 => Ok YEARS_ | 77 => Ok MONTHS | 87 => Ok WEEKS
                   | 68 => Ok DAYS | _ => refuse (adv (length (dec (U !!! c.1))) r)
                     "Y, M, W or D, or T before a time" end = Ok c.1) as Hat.
           { unfold date_units in Hc. repeat (apply elem_of_cons in Hc as [->|Hc]; [done|]).
             by apply elem_of_nil in Hc. }
           rewrite Hat. cbn [mbind result_bind]. rewrite decide_False by lia. reflexivity. }
      rewrite (IH _ _ _ _ tl); [|done|done| |done|].
      * rewrite !adv_adv, length_app, El. simpl. rewrite orb_true_r. do 3 f_equal. f_equal. lia.
      * by rewrite rest_adv, Er.
      * rewrite length_app in Hf. lia.
Qed.

Lemma time_loop_reads cs : forall us next timed r tl fuel,
  Forall (λ c, c ∈ time_units) cs -> in_order next cs -> (next <= SECONDS)%nat ->
  rest r = concat (map (unit_text U) cs) ++ tl ->
  (length (rest r) < fuel)%nat ->
  exists fuel' next', (length tl < fuel')%nat /\ (next' <= SECONDS)%nat /\
  loop iso_time_step fuel OutOfRange (r, us, next, timed) =
    loop iso_time_step fuel' OutOfRange
      (adv (length (concat (map (unit_text U) cs))) r, foldl put_unit us cs,
       next', timed || some_unit cs).
Proof using HU Hlen.
  induction cs as [|c cs IH]; intros us next timed r tl fuel Hcs Ho Hnx E Hf.
  - exists fuel, next. simpl. rewrite adv_0, orb_false_r. rewrite E in Hf. done.
  - apply Forall_cons_iff in Hcs as [Hc Hcs]. destruct Ho as [Hi Ho].
    cbn [map concat] in *. rewrite <- app_assoc in E.
    unfold put_unit, some_unit. cbn [foldl existsb].
    destruct (Z.eqb_spec (U !!! c.1) 0) as [H0|H0].
    + assert (unit_text U c = []) as Hu by (unfold unit_text; by rewrite H0).
      rewrite Hu in *. simpl in *. apply (IH us next timed r tl); try done.
      by apply (in_order_weaken _ (S c.1)); [lia|].
    + assert (is_digit c.2 = false /\ c.2 <> 46 /\ (c.1 < SECONDS)%nat /\
        match to_upper c.2 with 72 => Some HOURS | 77 => Some MINUTES | 83 => Some SECONDS
          | _ => None end = Some c.1) as (Hd & H46 & Hs & Hat).
      { unfold time_units in Hc.
        repeat (apply elem_of_cons in Hc as [->|Hc]; [split_and!; by_eval|]).
        by apply elem_of_nil in Hc. }
      destruct (unit_number c _ r ltac:(lia) H0 Hd H46 E) as (En & Er & El & b & Hb & Hbd).
      destruct fuel as [|fuel]; [lia|]. erewrite loop_continue.
      2: { unfold iso_time_step. rewrite decide_True.
           2: { apply rest_pos. rewrite E. destruct (unit_text U c); [simpl in El; lia|done]. }
           rewrite En. cbn [mbind result_bind]. rewrite peek_rest, Er. cbn [head option_map].
           instantiate (1 := (_, <[c.1 := U !!! c.1]> us, S c.1, true)).
           assert (match to_upper c.2 with 72 => Ok HOURS | 77 => Ok MINUTES | 83 => Ok SECONDS
                   | _ => refuse (adv (length (dec (U !!! c.1))) r) "H, M or S" end = Ok c.1) as ->.
           { revert Hat. repeat case_match; congruence. }
           cbn [mbind result_bind]. rewrite decide_False by lia. cbn [andb].
           rewrite decide_False by lia. reflexivity. }
      apply (f_equal length) in E as E'. rewrite length_app in E'.
      edestruct (IH (<[c.1:=U !!! c.1]> us) (S c.1) true) as (f' & n' & Hf' & Hn' & ->);
        [done|done|unfold SECONDS in *; lia|by rewrite rest_adv, Er|
         rewrite rest_adv, Er; cbn [length]; simpl; rewrite drop_0; lia|].
      exists f', n'. split; [done|]. split; [done|].
      rewrite !adv_adv, length_app, El. simpl. rewrite orb_true_r. do 5 f_equal. lia.
Qed.

Lemma seconds_loop_reads us next timed r fuel :
  U !!! NANOS < NANOS_PER_SECOND -> (next <= SECONDS)%nat ->
  rest r = seconds_text U -> (length (rest r) < fuel)%nat ->
  (pos r <= length (text r))%nat ->
  loop iso_time_step fuel OutOfRange (r, us, next, timed) =
    Ok (adv (length (seconds_text U)) r,
        if (U !!! SECONDS =? 0) && (U !!! NANOS =? 0) then us
        else <[NANOS := U !!! NANOS]> (<[SECONDS := U !!! SECONDS]> us),
        timed || negb ((U !!! SECONDS =? 0) && (U !!! NANOS =? 0))).
Proof using HU Hlen.
  intros Hna Hnx E Hf Hp.
  pose proof (U_range SECONDS ltac:(unfold SECONDS; lia)) as Hs.
  pose proof (U_range NANOS ltac:(unfold NANOS; lia)) as Hn.
  assert (Hbr : forall us t r f, rest r = [] -> (0 < f)%nat ->
    loop iso_time_step f OutOfRange (r, us, next, t) = Ok (r, us, t)).
  { clear -U. intros us t r [|f] E Hf; [lia|]. apply loop_break. unfold iso_time_step.
    pose proof (rest_length r) as H. rewrite E in H. simpl in H. by rewrite decide_False by lia. }
  assert (Hbr' : forall us t r f, rest r = [] -> (0 < f)%nat ->
    loop iso_time_step f OutOfRange (r, us, S SECONDS, t) = Ok (r, us, t)).
  { clear -U. intros us t r [|f] E Hf; [lia|]. apply loop_break. unfold iso_time_step.
    pose proof (rest_length r) as H. rewrite E in H. simpl in H. by rewrite decide_False by lia. }
  unfold seconds_text in *.
  destruct ((U !!! SECONDS =? 0) && (U !!! NANOS =? 0)) eqn:Ez; cbn [negb].
  { rewrite orb_false_r. simpl. rewrite adv_0. apply Hbr; [done|]. lia. }
  rewrite write_fraction_app, <- app_assoc in *.
  set (k := length (dec (U !!! SECONDS) ++ write_fraction [] (U !!! NANOS) ++ bs "S")) in *.
  assert (Hk : (0 < k)%nat) by (unfold k; rewrite !length_app; simpl; lia).
  assert (exists fr, number r = Ok (U !!! SECONDS, U !!! NANOS, fr, adv (k - 1) r) /\
    rest (adv (k - 1) r) = [83]) as (fr & En & Er).
  { unfold k in *. clear k. pose proof (dec_digits (U !!! SECONDS) (proj1 Hs)) as Hdd.
    pose proof (dec_nonempty (U !!! SECONDS) (proj1 Hs)) as Hdn.
    unfold write_fraction in *. destruct (Z.eqb_spec (U !!! NANOS) 0) as [H0|H0].
    - exists false. rewrite H0. rewrite app_nil_l in *.
      rewrite length_app. change (length (bs "S")) with 1%nat.
      replace (_ + 1 - 1)%nat with (length (dec (U !!! SECONDS))) by lia. split.
      + rewrite (number_whole (dec (U !!! SECONDS)) (bs "S")), num_dec by
          (try rewrite num_dec; try apply dec_digits; done || lia). done.
      + by apply rest_took.
    - destruct (fraction_digits (U !!! NANOS) (conj (proj2 (Z.le_neq _ _) (conj (proj1 Hn) (not_eq_sym H0))) Hna)) as (Hfd & Hfl & Hfn).
      set (fs := strip_zeros (pad 9 (U !!! NANOS))) in *. exists true.
      rewrite !length_app. cbn [length app]. change (length (bs ".")) with 1%nat.
      change (length (bs "S")) with 1%nat.
      replace (_ - 1)%nat with (length (dec (U !!! SECONDS)) + S (length fs))%nat by lia. split.
      + rewrite (number_fraction (dec (U !!! SECONDS)) fs (bs "S")), num_dec, Hfn; try done;
          try rewrite num_dec; lia || done || (rewrite E; by rewrite <- app_assoc).
      + rewrite <- adv_adv, rest_adv, (rest_took _ _ _ E).
        simpl. by rewrite drop_app_length. }
  destruct fuel as [|fuel]; [lia|]. erewrite loop_continue.
  2: { unfold iso_time_step. rewrite decide_True.
       2: { apply rest_pos. rewrite E. destruct (dec (U !!! SECONDS)) eqn:Ed; [|done].
            by apply dec_nonempty in Ed; [|lia]. }
       rewrite En. cbn [mbind result_bind]. rewrite peek_rest, Er. cbn -[insert].
       rewrite decide_False by lia. rewrite andb_false_r. rewrite decide_True by done.
       reflexivity. }
  rewrite Hbr'; [|by rewrite rest_adv, Er|].
  - rewrite adv_adv, orb_true_r. replace (k - 1 + 1)%nat with k by lia. done.
  - rewrite E in Hf. fold k in Hf. lia.
Qed.
End canonical.

(** What the parts put back together are: the units themselves. *)
Lemma put_all U : length U = 8%nat ->
  let us1 := foldl (put_unit U) (replicate 8 0) date_units in
  (existsb (λ n, negb (n =? 0)) (drop HOURS U) = false -> us1 = U) /\
  (let us2 := foldl (put_unit U) us1 time_units in
   (if (U !!! SECONDS =? 0) && (U !!! NANOS =? 0) then us2
    else <[NANOS := U !!! NANOS]> (<[SECONDS := U !!! SECONDS]> us2)) = U).
Proof.
  intros Hl. do 9 (destruct U as [|? U]; try discriminate Hl). cbv zeta.
  assert (H : foldl (put_unit [z; z0; z1; z2; z3; z4; z5; z6]) (replicate 8 0) date_units =
    [z; z0; z1; z2; 0; 0; 0; 0]).
  { unfold put_unit. cbn. repeat case_match; bprop H; bprop H0; bprop H1; bprop H2; subst; done. }
  rewrite H. split.
  - cbn. intros E. bprop E. destruct E as (-> & -> & -> & -> & _). done.
  - unfold put_unit. cbn.
    destruct (Z.eqb_spec z3 0), (Z.eqb_spec z4 0), (Z.eqb_spec z5 0), (Z.eqb_spec z6 0); subst; done.
Qed.

Lemma some_time U : length U = 8%nat ->
  existsb (λ n, negb (n =? 0)) (drop HOURS U) =
    some_unit U time_units || negb ((U !!! SECONDS =? 0) && (U !!! NANOS =? 0)).
Proof.
  intros Hl. do 9 (destruct U as [|? U]; try discriminate Hl). cbn.
  by destruct (z3 =? 0), (z4 =? 0), (z5 =? 0), (z6 =? 0).
Qed.

Lemma some_date s : length (units s) = 8%nat -> is_zero s = false ->
  existsb (λ n, negb (n =? 0)) (drop HOURS (units s)) = false -> some_unit (units s) date_units = true.
Proof.
  unfold is_zero. destruct (units s) as [|a [|b [|c [|d [|e [|f [|g [|h [|]]]]]]]]]; try done.
  intros _. cbn. by destruct (a =? 0), (b =? 0), (c =? 0), (d =? 0), (e =? 0), (f =? 0), (g =? 0), (h =? 0).
Qed.

Lemma iso_reads s r : span_wf s -> is_zero s = false ->
  rest r = concat (map (unit_text (units s)) date_units) ++
    (if existsb (λ n, negb (n =? 0)) (drop HOURS (units s)) then
       bs "T" ++ concat (map (unit_text (units s)) time_units) ++ seconds_text (units s)
     else []) ->
  (pos r <= length (text r))%nat ->
  iso r = Ok (units s).
Proof.
  intros Hwf Hz E Hp. destruct Hwf as (Hlen & HU & Hna & _). unfold unit_at in Hna.
  pose proof (some_date s Hlen Hz) as Hsd.
  set (U := units s) in *. unfold iso.
  destruct (put_all U Hlen) as [Hus1 Hus2]. pose proof (some_time U Hlen) as Hst.
  set (T := if existsb _ _ then _ else _) in E.
  assert (HT : no_digit T) by (unfold T; destruct (existsb _ _); done).
  assert (Hr : (length (rest r) < rounds r)%nat) by (rewrite rest_length; unfold rounds; lia).
  rewrite (date_loop_reads U HU Hlen date_units _ _ _ r T);
    [|by apply Forall_forall|by repeat split; apply Nat.leb_le|done|done|].
  2: { rewrite E, length_app in Hr. lia. }
  set (us1 := foldl _ _ _) in *. set (r1 := adv _ r).
  assert (E1 : rest r1 = T) by by apply (rest_took _ _ T).
  assert (Hr1 : (pos r1 + length T = length (text r1))%nat).
  { assert (length (rest r) = length (text r) - pos r)%nat as H by apply rest_length.
    rewrite E, length_app in H. unfold r1, adv. cbn [pos text]. lia. }
  cbn [mbind result_bind orb]. rewrite peek_rest, E1. clearbody r1. clear E Hr HT.
  destruct (existsb (λ n, negb (n =? 0)) (drop HOURS U)) eqn:Et; unfold T in *; clear T.
  - rewrite decide_True by by left.
    assert (E2 : rest (adv 1 r1) = concat (map (unit_text U) time_units) ++ seconds_text U)
      by by rewrite rest_adv, E1.
    destruct (time_loop_reads U HU Hlen time_units us1 HOURS false (adv 1 r1) (seconds_text U)
      (rounds r1)) as (f & nx & Hf & Hnx & ->);
      [by apply Forall_forall|by repeat split; apply Nat.leb_le|unfold HOURS, SECONDS; lia|done| |].
    { rewrite rest_length. unfold rounds, adv. cbn [pos text]. lia. }
    rewrite length_app in Hr1. change (length (bs "T")) with 1%nat in Hr1. rewrite length_app in Hr1.
    rewrite (seconds_loop_reads U HU Hlen); [|done|done|by apply rest_took| |].
    + cbn [mbind result_bind orb]. rewrite <- Hst. cbn [negb mbind result_bind].
      rewrite decide_False by (unfold adv; cbn [pos text]; lia). by rewrite Hus2.
    + by rewrite (rest_took _ _ _ E2).
    + unfold adv. cbn [pos text]. lia.
  - rewrite decide_False by (by intros [?|?]). cbn [mbind result_bind]. simpl in Hr1.
    rewrite decide_False by lia. rewrite Hsd by done. by rewrite Hus1.
Qed.

Lemma show_span_nonzero s : is_zero s = false ->
  show_span s = (if negative s then bs "-" else []) ++ bs "P" ++
    concat (map (unit_text (units s)) date_units) ++
    (if existsb (λ n, negb (n =? 0)) (drop HOURS (units s)) then
       bs "T" ++ concat (map (unit_text (units s)) time_units) ++ seconds_text (units s)
     else []).
Proof. intros Hz. unfold show_span. by rewrite Hz. Qed.

Lemma span_from_show s : span_wf s -> span_from_str (show_span s) = Ok s.
Proof.
  intros Hs. destruct (is_zero s) eqn:Hz.
  { assert (s = span_new) as ->; [|by vm_compute].
    destruct (span_wf_cases s Hs) as (y & mo & w & d & h & mi & se & na & E & H).
    assert (Hn : negative s = false) by (by apply H). clear H.
    unfold is_zero in Hz. rewrite E in Hz. cbn in Hz. bprop Hz.
    destruct s as [us neg]. simpl in *. subst. f_equal. naive_solver. }
  pose proof (show_span_nonzero s Hz) as E. unfold span_from_str.
  set (body := concat (map (unit_text (units s)) date_units) ++ _) in E.
  assert (Hiso : forall r, rest r = body -> (pos r <= length (text r))%nat -> iso r = Ok (units s))
    by (intros; by apply iso_reads).
  clearbody body. rewrite E. clear E.
  destruct (negative s) eqn:Hneg.
  - change (eat 45 _) with (true, adv 1 (new_reader (bs "-" ++ bs "P" ++ body))).
    cbv zeta beta iota. cbn [negb andb].
    change (peek (adv 1 _)) with (Some 80). cbn [is_P]. change (is_P (Some 80)) with true.
    cbv iota. rewrite Hiso; [|done|simpl; lia]. cbn [mbind result_bind].
    rewrite <- Hneg. by rewrite from_parts_wf.
  - change (eat 45 _) with (false, new_reader (bs "P" ++ body)).
    cbv zeta beta iota. change (peek (new_reader _)) with (Some 80).
    cbn [negb andb]. rewrite bool_decide_eq_false_2 by done. cbn [andb].
    change (peek (new_reader _)) with (Some 80). change (is_P (Some 80)) with true.
    cbv iota. rewrite Hiso; [|done|simpl; lia]. cbn [mbind result_bind].
    rewrite <- Hneg. by rewrite from_parts_wf.
Qed.

(** ** What any reading gives *)

(** Magnitudes as the ISO form leaves them. *)
Definition units_wf (us : list Z) : Prop :=
  length us = 8%nat /\ Forall (λ u, 0 <= u <= i64_max) us /\ us !!! NANOS < NANOS_PER_SECOND.

(** A cursor on [t]. *)
Definition on_text (t : bytes) (r : Reader) : Prop := text r = t /\ (pos r <= length t)%nat.

(** A refusal: what was expected, at an offset of the text. *)
Definition refusal (t : bytes) (e : ValueError) : Prop :=
  exists at_ ex, e = Unparsed at_ ex /\ (at_ <= length t)%nat.

Lemma units_wf_zero : units_wf (replicate 8 0).
Proof. split_and!; [done|repeat constructor; done|done]. Qed.

Lemma units_wf_put us i n : units_wf us -> (i < NANOS)%nat -> 0 <= n <= i64_max ->
  units_wf (<[i := n]> us).
Proof.
  intros (Hl & Hf & Hn) Hi Hr. split_and!; [by rewrite length_insert|by apply Forall_insert|].
  by rewrite list_lookup_total_insert_ne by (unfold NANOS in *; lia).
Qed.

Lemma units_wf_nanos us n : units_wf us -> 0 <= n < NANOS_PER_SECOND ->
  units_wf (<[NANOS := n]> us).
Proof.
  intros (Hl & Hf & Hn) Hr. split_and!; [by rewrite length_insert| |].
  - apply Forall_insert; [done|]. unfold NANOS_PER_SECOND, i64_max in *. lia.
  - rewrite list_lookup_total_insert_eq by (unfold NANOS; lia). lia.
Qed.

Lemma on_text_adv t r k : on_text t r -> (k <= length (rest r))%nat -> on_text t (adv k r).
Proof. intros [<- Hp] Hk. rewrite rest_length in Hk. split; [done|]. simpl. lia. Qed.

Lemma refuse_refusal {A} t r ex (e : ValueError) : on_text t r ->
  refuse r ex = @Err _ A e -> refusal t e.
Proof. intros [<- Hp] [= <-]. by exists (pos r), ex. Qed.

Lemma nano_digits_None l : forall w k, (k <= 9)%nat -> nano_digits l w k = None ->
  (9 - k < length l)%nat.
Proof.
  induction l as [|d l IH]; intros w k Hk H; [done|]. simpl in H.
  destruct (is_digit d); [|done]. case_decide; [simpl; lia|]. apply IH in H; simpl; lia.
Qed.

Lemma eat_on t b r b' r' : on_text t r -> eat b r = (b', r') ->
  on_text t r' /\ (length (rest r') <= length (rest r))%nat.
Proof.
  unfold eat. rewrite peek_rest. intros H. case_decide as Hd; intros [= <- <-]; [|done].
  destruct (rest r) as [|? l] eqn:E; [done|]. split.
  - apply on_text_adv; [done|]. rewrite E. simpl. lia.
  - rewrite rest_adv, E. simpl. rewrite drop_0. lia.
Qed.

Lemma number_on t r : on_text t r ->
  match number r with
  | Ok (n, na, fr, r') => 0 <= n <= i64_max /\ 0 <= na < NANOS_PER_SECOND /\ (fr = false -> na = 0) /\
      on_text t r' /\ (length (rest r') < length (rest r))%nat
  | Err e => refusal t e
  end.
Proof.
  intros H. destruct (number r) as [[[[n na] fr] r']|e] eqn:E.
  - apply number_Ok in E as (? & ? & ? & k & Hk & ->). split_and!; try done; try lia.
    + apply on_text_adv; [done|lia].
    + rewrite rest_adv, length_drop. lia.
  - unfold number in E. destruct (whole_digits (rest r) 0 0) as [[w k]|] eqn:Ew;
      [|by eapply refuse_refusal].
    apply whole_digits_Some in Ew as [_ Hk]; [|unfold i64_max; lia].
    case_decide; [by eapply refuse_refusal|].
    assert (H1 : on_text t (adv k r)) by (apply on_text_adv; [done|lia]).
    destruct (eat 46 (adv k r)) as [b r'] eqn:Ee.
    destruct (eat_on _ _ _ _ _ H1 Ee) as [H2 _]. destruct b; [|done]. simpl in E.
    destruct (nano_digits (rest r') 0 0) as [[na k']|] eqn:En.
    + case_decide; [by eapply refuse_refusal|done].
    + apply nano_digits_None in En; [|lia]. eapply refuse_refusal; [|exact E].
      apply on_text_adv; [done|lia].
Qed.

(** A letter read and stepped over. *)
Lemma peek_on t r b : on_text t r -> peek r = Some b ->
  on_text t (adv 1 r) /\ (length (rest (adv 1 r)) < length (rest r))%nat.
Proof.
  rewrite peek_rest. intros H E. destruct (rest r) as [|? l] eqn:El; [done|]. split.
  - apply on_text_adv; [done|]. rewrite El. simpl. lia.
  - rewrite rest_adv, El. simpl. rewrite drop_0. lia.
Qed.

(** The invariant of both ISO loops, and that every round takes a byte. *)
Definition iso_inv (t : bytes) (s : Reader * list Z * nat * bool) : Prop :=
  let '(r, us, _, _) := s in on_text t r /\ units_wf us.
Definition iso_left (s : Reader * list Z * nat * bool) : nat :=
  let '(r, _, _, _) := s in length (rest r).

Definition iso_step_ok (t : bytes) (step : Reader * list Z * nat * bool ->
    result ValueError ((Reader * list Z * nat * bool) + (Reader * list Z * bool))) : Prop :=
  forall s, iso_inv t s ->
    match step s with
    | Ok (inl s') => iso_inv t s' /\ (iso_left s' < iso_left s)%nat
    | Ok (inr (r, us, _)) => on_text t r /\ units_wf us
    | Err e => refusal t e
    end.

Lemma iso_date_step_ok t : iso_step_ok t iso_date_step.
Proof.
  intros [[[r us] next] any] [Hr Hus]. unfold iso_date_step.
  destruct (peek r) as [b|]; [|done]. destruct (is_digit b); [|done].
  pose proof (number_on t r Hr) as Hn. destruct (number r) as [[[[n na] fr] r1]|e]; [|done].
  destruct Hn as (Hn & _ & _ & Hr1 & Hl). cbn [mbind result_bind].
  destruct fr; [by eexists _, _; split; [done|]; destruct Hr as [<- ?]|].
  destruct (peek r1) as [c|] eqn:Ep; cbn [option_map].
  2: { eexists _, _. split; [done|]. by destruct Hr1 as [<- ?]. }
  destruct (peek_on t r1 c Hr1 Ep) as [Hr2 Hl2].
  assert (match to_upper c with 89 => Ok YEARS_ | 77 => Ok MONTHS | 87 => Ok WEEKS | 68 => Ok DAYS
          | _ => refuse r1 "Y, M, W or D, or T before a time" end =
          refuse r1 "Y, M, W or D, or T before a time" \/
    exists i, (i < NANOS)%nat /\ match to_upper c with 89 => Ok YEARS_ | 77 => Ok MONTHS
          | 87 => Ok WEEKS | 68 => Ok DAYS
          | _ => refuse r1 "Y, M, W or D, or T before a time" end = Ok i) as [->|(i & Hi & ->)].
  { repeat case_match; first [by left|right; eexists; split; [|done]; unfold NANOS, YEARS_, MONTHS, WEEKS, DAYS; lia]. }
  - eexists _, _. split; [done|]. by destruct Hr1 as [<- ?].
  - cbn [mbind result_bind]. case_decide.
    + eexists _, _. split; [done|]. by destruct Hr1 as [<- ?].
    + cbn [iso_inv iso_left]. split; [|lia]. split; [done|]. by apply units_wf_put.
Qed.

Lemma iso_time_step_ok t : iso_step_ok t iso_time_step.
Proof.
  intros [[[r us] next] any] [Hr Hus]. unfold iso_time_step. case_decide; [|done].
  pose proof (number_on t r Hr) as Hn. destruct (number r) as [[[[n na] fr] r1]|e]; [|done].
  destruct Hn as (Hn & Hna & _ & Hr1 & Hl). cbn [mbind result_bind].
  destruct (peek r1) as [c|] eqn:Ep; cbn [option_map].
  2: { eexists _, _. split; [done|]. by destruct Hr1 as [<- ?]. }
  destruct (peek_on t r1 c Hr1 Ep) as [Hr2 Hl2].
  assert (match to_upper c with 72 => Ok HOURS | 77 => Ok MINUTES | 83 => Ok SECONDS
          | _ => refuse r1 "H, M or S" end = refuse r1 "H, M or S" \/
    exists i, (i < NANOS)%nat /\ match to_upper c with 72 => Ok HOURS | 77 => Ok MINUTES
          | 83 => Ok SECONDS | _ => refuse r1 "H, M or S" end = Ok i) as [->|(i & Hi & ->)].
  { repeat case_match; first [by left|right; eexists; split; [|done]; unfold NANOS, HOURS, MINUTES, SECONDS; lia]. }
  - eexists _, _. split; [done|]. by destruct Hr1 as [<- ?].
  - cbn [mbind result_bind]. destruct (decide (i < next)%nat).
    + eexists _, _. split; [done|]. by destruct Hr1 as [<- ?].
    + destruct (fr && _); [eexists _, _; split; [done|]; by destruct Hr as [<- ?]|].
      cbn [iso_inv iso_left]. split; [|lia]. split; [done|].
      case_decide; [apply units_wf_nanos; [|done]|]; by apply units_wf_put.
Qed.

Lemma iso_loop_ok t step r us next any : iso_step_ok t step -> on_text t r -> units_wf us ->
  match loop step (rounds r) OutOfRange (r, us, next, any) with
  | Ok (r', us', _) => on_text t r' /\ units_wf us'
  | Err e => refusal t e
  end.
Proof.
  intros Hs Hr Hus.
  assert (Hd : forall s s', iso_inv t s -> step s = Ok (inl s') ->
    iso_inv t s' /\ (iso_left s' < iso_left s)%nat).
  { intros s s' Hi E. specialize (Hs s Hi). by rewrite E in Hs. }
  assert (Hi : iso_inv t (r, us, next, any)) by done.
  destruct (loop _ _ _ _) as [[[r' us'] any']|e] eqn:E.
  - apply (loop_Ok _ (iso_inv t)) in E as (s' & Hi' & Es); [|intros s s' ? H; by apply (Hd s s')|done].
    specialize (Hs s' Hi'). by rewrite Es in Hs.
  - apply (loop_Err _ (iso_inv t) iso_left Hd) in E as (s' & Hi' & Es); [|done|].
    + specialize (Hs s' Hi'). by rewrite Es in Hs.
    + cbn [iso_left]. rewrite rest_length. unfold rounds. lia.
Qed.

Lemma iso_result t r : on_text t r ->
  match iso r with Ok us => units_wf us | Err e => refusal t e end.
Proof.
  intros Hr. unfold iso.
  pose proof (iso_loop_ok t _ r _ 0 false (iso_date_step_ok t) Hr units_wf_zero) as H.
  destruct (loop iso_date_step _ _ _) as [[[r1 us1] any1]|e]; [|done]. destruct H as [Hr1 Hus1].
  cbn [mbind result_bind].
  assert (Hend : forall any r us, on_text t r -> units_wf us ->
    match (if decide (pos r <> length (text r)) then refuse r "nothing after the last unit"
           else if negb any then refuse r "at least one unit" else Ok us) with
    | Ok us => units_wf us | Err e => refusal t e end).
  { intros any r' us' Hr' Hus'. destruct Hr' as [<- Hp].
    case_decide; [by eexists _, _|]. destruct any; [done|]. by eexists _, _. }
  case_decide as Hpk; cbn [mbind result_bind]; [|by apply Hend].
  assert (Hr2 : on_text t (adv 1 r1)) by (destruct Hpk as [Hpk|Hpk]; apply (peek_on t r1 _ Hr1 Hpk)).
  pose proof (iso_loop_ok t _ (adv 1 r1) _ HOURS false (iso_time_step_ok t) Hr2 Hus1) as H.
  change (rounds (adv 1 r1)) with (rounds r1) in H.
  destruct (loop iso_time_step _ _ _) as [[[r3 us3] timed]|e]; [|done]. destruct H as [Hr3 Hus3].
  cbn [mbind result_bind]. destruct timed; cbn [negb mbind result_bind]; [exact (Hend true r3 us3 Hr3 Hus3)|].
  eexists _, _. split; [done|]. by destruct Hr3 as [<- ?].
Qed.

(** ** The friendly form: bounds *)

(** What the accumulators can hold, by the spellings seen: a part of a second
    adds at most a [u64] of nanoseconds, and each is read once. *)
Definition seen_sub (seen : list bool) : Z :=
  Z.b2z (seen !!! 7%nat) + Z.b2z (seen !!! 8%nat) + Z.b2z (seen !!! 9%nat).

Definition friendly_units (us : list Z) (seen : list bool) : Prop :=
  length us = 8%nat /\ length seen = 10%nat /\
  Forall (λ u, 0 <= u <= i64_max) (take 6 us) /\
  0 <= us !!! SECONDS <= i64_max + seen_sub seen * 18446744073 /\
  0 <= us !!! NANOS <= (seen_sub seen + Z.b2z (seen !!! 6%nat)) * 999999999.

Definition friendly_inv (t : bytes) (s : Reader * list Z * list bool) : Prop :=
  let '(r, us, seen) := s in on_text t r /\ friendly_units us seen.
Definition friendly_left (s : Reader * list Z * list bool) : nat :=
  let '(r, _, _) := s in length (rest r).

Lemma b2z_range b : 0 <= Z.b2z b <= 1.
Proof. destruct b; simpl; lia. Qed.

(** The bounds of every flag, as numbers. *)
Ltac flag_bounds :=
  repeat match goal with
  | b : bool |- _ =>
      lazymatch goal with
      | _ : 0 <= Z.b2z b <= 1 |- _ => fail
      | _ => pose proof (b2z_range b)
      end
  end.

Lemma seen_sub_range seen : 0 <= seen_sub seen <= 3.
Proof.
  unfold seen_sub. by destruct (seen !!! 7%nat), (seen !!! 8%nat), (seen !!! 9%nat).
Qed.

Lemma add64_small a b : 0 <= a + b <= u64_max -> add64 a b = a + b.
Proof. intros. unfold add64, wrap64. apply Z.mod_small. unfold u64_max in *. lia. Qed.

(** The spellings, by what is done with the number before them. *)
Lemma spelling_cases w slot per len : spelling w = Some (slot, per, len) ->
  len = length w /\ (0 < len)%nat /\ 0 <= per /\
  ((slot < 6)%nat \/ slot = 6%nat \/ (6 < slot < 10)%nat).
Proof.
  unfold spelling.
  repeat (case_decide as Hw; [intros [= <- <- <-]; rewrite Hw; split; [done|lia]|clear Hw]).
  done.
Qed.

Lemma letter_run_le l : (letter_run l <= length l)%nat.
Proof. induction l as [|b l IH]; simpl; [lia|]. destruct (is_alpha b || _); lia. Qed.

Lemma space_run_le l : (space_run l <= length l)%nat.
Proof. induction l as [|b l IH]; simpl; [lia|]. destruct (b =? 32); lia. Qed.

Lemma skip_spaces_on t r : on_text t r ->
  on_text t (skip_spaces r) /\ (length (rest (skip_spaces r)) <= length (rest r))%nat.
Proof.
  intros H. unfold skip_spaces. split.
  - apply on_text_adv; [done|apply space_run_le].
  - rewrite rest_adv, length_drop. lia.
Qed.

(** A magnitude other than the seconds. *)
Lemma friendly_put us seen slot n : friendly_units us seen -> (slot < 6)%nat ->
  0 <= n <= i64_max -> friendly_units (<[slot := n]> us) (<[slot := true]> seen).
Proof.
  intros (Hl & Hls & Hf & Hse & Hna) Hs Hn.
  unfold friendly_units, seen_sub, SECONDS, NANOS in *.
  rewrite !length_insert, !list_lookup_total_insert_ne by lia. split_and!; try done; try lia.
  rewrite take_insert by lia. case_decide; [by apply Forall_insert|done].
Qed.

(** The seconds replace what was there. *)
Lemma friendly_put_seconds us seen n na : friendly_units us seen -> seen !!! 6%nat = false ->
  0 <= n <= i64_max -> 0 <= na < NANOS_PER_SECOND ->
  let us' := <[SECONDS := n]> us in
  0 <= us' !!! NANOS + na <= u64_max /\
  friendly_units (<[NANOS := us' !!! NANOS + na]> us') (<[6%nat := true]> seen).
Proof.
  intros (Hl & Hls & Hf & Hse & Hna) H6 Hn Hnn us'. pose proof (seen_sub_range seen) as Hr.
  unfold friendly_units, us', seen_sub in *.
  do 9 (destruct us as [|? us]; try discriminate Hl).
  do 11 (destruct seen as [|? seen]; try discriminate Hls).
  unfold u64_max, NANOS_PER_SECOND, i64_max in *. cbn -[Z.mul Z.add] in *. subst.
  cbn -[Z.mul Z.add] in *. flag_bounds. split; [lia|]. split_and!; done || lia.
Qed.

Lemma friendly_put_part us seen slot total : friendly_units us seen ->
  (6 < slot < 10)%nat -> seen !!! slot = false -> 0 <= total <= u64_max ->
  let us1 := <[NANOS := us !!! NANOS + total mod NANOS_PER_SECOND]> us in
  0 <= us !!! NANOS + total mod NANOS_PER_SECOND <= u64_max /\
  0 <= us1 !!! SECONDS + total / NANOS_PER_SECOND <= u64_max /\
  friendly_units (<[SECONDS := us1 !!! SECONDS + total / NANOS_PER_SECOND]> us1)
    (<[slot := true]> seen).
Proof.
  intros (Hl & Hls & Hf & Hse & Hna) Hs Hnew Ht us1. pose proof (seen_sub_range seen) as Hr.
  unfold friendly_units, us1, seen_sub in *.
  do 9 (destruct us as [|? us]; try discriminate Hl).
  do 11 (destruct seen as [|? seen]; try discriminate Hls).
  assert (slot = 7 \/ slot = 8 \/ slot = 9)%nat as [->|[->| ->]] by lia;
    unfold u64_max, NANOS_PER_SECOND, i64_max in *; cbn -[Z.mul Z.add Z.div Z.modulo] in *; subst;
    cbn -[Z.mul Z.add Z.div Z.modulo] in *;
    assert (0 <= total mod 1000000000 <= 999999999) by dlia;
    assert (0 <= total / 1000000000 <= 18446744073) by dlia;
    flag_bounds; (split; [lia|split; [lia|split_and!; done || lia]]).
Qed.

(** A round of the wrapping loop is a round of exact arithmetic, keeps the
    bounds, takes a byte, and refuses at an offset of the text. *)
Lemma friendly_step_ok t s : friendly_inv t s ->
  friendly_step add64 s = friendly_step Z.add s /\
  match friendly_step Z.add s with
  | Ok (inl s') => friendly_inv t s' /\ (friendly_left s' < friendly_left s)%nat
  | Ok (inr us) => exists seen, friendly_units us seen
  | Err e => refusal t e
  end.
Proof.
  destruct s as [[r us] seen]. intros [Hr Hus]. unfold friendly_step.
  case_decide; [|split; [done|by exists seen]].
  pose proof (number_on t r Hr) as Hn. destruct (number r) as [[[[n na] fr] r1]|e]; [|done].
  destruct Hn as (Hn & Hna & _ & Hr1 & Hl). cbn [mbind result_bind].
  set (w := take _ (rest r1)).
  assert (Hw : (length w <= length (rest r1))%nat)
    by (unfold w; rewrite length_take; pose proof (letter_run_le (rest r1)); lia).
  destruct (spelling w) as [[[slot per] len]|] eqn:Es.
  2: { split; [done|]. eexists _, _. split; [done|]. by destruct Hr1 as [<- ?]. }
  apply spelling_cases in Es as (-> & Hlen & Hper & Hslot).
  destruct (fr && _); [split; [done|]; eexists _, _; split; [done|]; by destruct Hr as [<- ?]|].
  destruct (seen !!! slot) eqn:Hseen.
  { split; [done|]. eexists _, _. split; [done|]. by destruct Hr1 as [<- ?]. }
  assert (Hr2 : on_text t (adv (length w) r1)) by by apply on_text_adv.
  destruct (skip_spaces_on t _ Hr2) as [Hr3 Hl3]. rewrite rest_adv, length_drop in Hl3.
  destruct Hslot as [Hs|[->|Hs]].
  - destruct (decide (slot <= 6)%nat); [|lia]. destruct (decide (slot = 6%nat)); [lia|].
    cbn [mbind result_bind]. split; [done|]. split; [|cbn [friendly_left]; lia].
    split; [done|]. by apply friendly_put.
  - destruct (decide (6 <= 6)%nat); [|lia]. destruct (decide (6%nat = 6%nat)); [|done].
    destruct (friendly_put_seconds us seen n na Hus Hseen Hn Hna) as [Hb Hu].
    change (<[6%nat := n]> us) with (<[SECONDS := n]> us). rewrite add64_small by done.
    cbn [mbind result_bind]. split; [done|]. split; [|cbn [friendly_left]; lia].
    split; [done|]. exact Hu.
  - destruct (decide (slot <= 6)%nat); [lia|]. destruct (checked_u64 (n * per)) as [total|] eqn:Ec; cbn [ok_or mbind result_bind].
    2: { split; [done|]. eexists _, _. split; [done|]. by destruct Hr as [<- ?]. }
    assert (0 <= total <= u64_max) as Ht.
    { unfold checked_u64 in Ec. case_match eqn:Eb; [|done]. injection Ec as <-.
      apply Z.leb_le in Eb. nia. }
    destruct (friendly_put_part us seen slot total Hus Hs Hseen Ht) as (H1 & H2 & Hu).
    rewrite (add64_small _ _ H1), (add64_small _ _ H2).
    split; [done|]. split; [|cbn [friendly_left]; lia]. by split.
Qed.

Lemma friendly_step_inv t s s' : friendly_inv t s -> friendly_step Z.add s = Ok (inl s') ->
  friendly_inv t s' /\ (friendly_left s' < friendly_left s)%nat.
Proof. intros Hi Es. pose proof (friendly_step_ok t s Hi) as [_ H]. by rewrite Es in H. Qed.

Lemma friendly_result t r : on_text t r ->
  friendly add64 r = friendly Z.add r /\
  match friendly Z.add r with Ok us => units_wf us | Err e => refusal t e end.
Proof.
  intros Hr. unfold friendly. destruct (skip_spaces_on t r Hr) as [Hr1 _].
  case_decide.
  { split; [done|]. eexists _, _. split; [done|]. by destruct Hr1 as [<- ?]. }
  assert (Hi : friendly_inv t (skip_spaces r, replicate 8 0, replicate 10 false)).
  { split; [done|]. split_and!; try done; repeat constructor; done. }
  rewrite (loop_ext (friendly_step Z.add) (friendly_inv t) (friendly_step add64));
    [|intros s Hs; by apply (friendly_step_ok t s Hs)|
      intros s s' Hs Es; by apply (friendly_step_inv t s s' Hs Es)|done].
  destruct (loop (friendly_step Z.add) _ _ _) as [us|e] eqn:El.
  - apply (loop_Ok _ (friendly_inv t)) in El as (s' & Hi' & Es);
      [|intros s s' Hs Es; by apply (friendly_step_inv t s s' Hs Es)|done].
    pose proof (friendly_step_ok t s' Hi') as [_ H']. rewrite Es in H'.
    destruct H' as (seen & Hl & _ & Hf & Hse & Hna). pose proof (seen_sub_range seen) as Hc.
    pose proof (b2z_range (seen !!! 6%nat)) as Hb.
    cbn [mbind result_bind]. do 9 (destruct us as [|? us]; try discriminate Hl).
    unfold NANOS_PER_SECOND, SECONDS, NANOS, i64_max in *.
    cbn -[Z.mul Z.add Z.div Z.modulo add64] in *.
    rewrite add64_small by (unfold u64_max; dlia). split; [done|].
    destruct (2 ^ 63 - 1 <? z5 + z6 / 1000000000) eqn:Hbig; bprop Hbig;
      [eexists _, _; split; [done|]; lia|].
    split_and!; [done| |unfold NANOS_PER_SECOND; cbn -[Z.modulo]; dlia].
    repeat (apply Forall_cons_iff in Hf as [? Hf]). unfold i64_max.
    repeat (apply Forall_cons_iff; split; [dlia|]). constructor.
  - split; [done|]. cbn [mbind result_bind].
    apply (loop_Err _ (friendly_inv t) friendly_left (friendly_step_inv t)) in El
      as (s' & Hi' & Es); [|done|].
    + pose proof (friendly_step_ok t s' Hi') as [_ H']. by rewrite Es in H'.
    + cbn [friendly_left]. rewrite rest_length. unfold rounds. lia.
Qed.

Lemma span_result t :
  match span_from_str t with Ok s => span_wf s | Err e => refusal t e end.
Proof.
  unfold span_from_str. assert (H0 : on_text t (new_reader t)) by (split; [done|simpl; lia]).
  destruct (eat 45 (new_reader t)) as [neg r] eqn:Ee.
  destruct (eat_on t _ _ _ _ H0 Ee) as [Hr _]. cbv zeta.
  set (b := negb neg && _ && _).
  assert (H1 : on_text t (if b then adv 1 r else r)).
  { destruct b eqn:Eb; [|done]. unfold b in Eb. bprop Eb. destruct Eb as [[_ Ep] _].
    apply bool_decide_eq_true in Ep. by apply (peek_on t r _ Hr Ep). }
  clearbody b. set (r1 := if b then adv 1 r else r) in *. clearbody r1.
  assert (Hres : match (if is_P (peek r1) then iso (adv 1 r1) else friendly add64 r1) with
    | Ok us => units_wf us | Err e => refusal t e end).
  { destruct (is_P (peek r1)) eqn:Ep.
    - apply iso_result. unfold is_P in Ep. apply bool_decide_eq_true in Ep.
      by destruct Ep as [Ep|Ep]; apply (peek_on t r1 _ H1 Ep).
    - destruct (friendly_result t r1 H1) as [E H]. by rewrite E. }
  destruct (if is_P (peek r1) then iso (adv 1 r1) else friendly add64 r1) as [us|e]; [|done].
  cbn [mbind result_bind]. destruct Hres as (? & ? & ?). by apply normalised_wf.
Qed.

#[export] Instance Span_text : TextForm Span :=
  { tf_wf := span_wf; to_text := show_span; of_text := span_from_str }.
#[export] Instance Span_laws : TextFormLaws Span.
Proof.
  split; unfold of_text, to_text, tf_wf; cbn [Span_text].
  - apply span_from_show.
  - intros t s E. pose proof (span_result t) as H. by rewrite E in H.
Qed.

(** ** Properties *)

(** A span's canonical ISO 8601 text is read back to the same span, every
    unit and the sign, so two spans with one text are one span. *)
Theorem span_text_roundtrip (s s' : Span) (Hs : span_wf s) (Hs' : span_wf s') :
  span_from_str (show_span s) = Ok s /\ (show_span s = show_span s' -> s = s').
Proof.
  pose proof (span_from_show s Hs) as H. pose proof (span_from_show s' Hs') as H'.
  split; [done|]. intros E. rewrite E in H. congruence.
Qed.

Lemma span_text_roundtrip_witness :
  let s := nanoseconds (hours (days_ span_new (-1)) (-36)) (-1500000000) in
  show_span s = bs "-P1DT36H1.5S" /\ span_from_str (show_span s) = Ok s.
Proof.
  split; [vm_compute; reflexivity|].
  refine (proj1 (span_text_roundtrip _ span_new _ span_new_wf)).
  apply nanoseconds_wf, with_wf; [apply with_wf; [apply span_new_wf|]|];
    left; unfold DAYS, HOURS, NANOS; lia.
Defined.

(** Whatever the text, reading a span returns: a span whose invariant holds,
    or a refusal that names an offset within the text (never a loop that does
    not end, another error, or an offset past it). *)
Theorem span_reading_total (t : bytes) :
  (exists s, span_from_str t = Ok s /\ span_wf s) \/
  (exists at_ ex, span_from_str t = Err (Unparsed at_ ex) /\ (at_ <= length t)%nat).
Proof.
  pose proof (span_result t) as H. destruct (span_from_str t) as [s|e]; [by left; exists s|].
  right. destruct H as (at_ & ex & -> & H). by exists at_, ex.
Qed.

(** The [u64] additions of the friendly form never wrap: computed in
    wrapping arithmetic it is the form computed in exact arithmetic, whatever
    the text and wherever the cursor is. *)
Theorem friendly_never_wraps (r : Reader) (Hr : (pos r <= length (text r))%nat) :
  friendly add64 r = friendly Z.add r.
Proof. by apply (friendly_result (text r)). Qed.

Lemma friendly_never_wraps_witness :
  friendly add64 (new_reader (bs "9223372036854775807s 18446744073ns")) =
    friendly Z.add (new_reader (bs "9223372036854775807s 18446744073ns")).
Proof. apply friendly_never_wraps. vm_compute. lia. Defined.

(** The friendly form is documented to take its units in any order, but the
    order decides the length read: seconds written after a part of a second
    that carries replace what was carried, so [2000ms 1s] is one second where
    [1s 2000ms] is three. *)
Theorem friendly_order_decides :
  span_from_str (bs "1s 2000ms") = Ok (seconds_ span_new 3) /\
  span_from_str (bs "2000ms 1s") = Ok (seconds_ span_new 1).
Proof. split; vm_compute; reflexivity. Qed.
