(* ===== verification/Number.v ===== *)
(** * Numbers and text as bytes

    [value/types/number.rs]: the check of RFC 8259 section 6 every NUMBER passes,
    and the grammar it is of; and [core::str::from_utf8]'s verdict, which every
    STRING and every key passes. *)

From S2P Require Import Prelude Decimal Errors Reader.

(** ** The check *)

Definition digit_at (bytes : bytes) (i : nat) : bool :=
  match bytes !! i with Some b => is_digit b | None => false end.

(** [while matches!(at(bytes, i), Some(b'0'..=b'9')) { i += 1; }]. *)
Definition skip_digits (bytes : bytes) (i : nat) : nat := (i + digit_run (drop i bytes))%nat.

(** The integer part. *)
Definition number_int (bytes : bytes) (i : nat) : result nat nat :=
  match bytes !! i with
  | Some b =>
      if b =? 48 then Ok (i + 1)%nat
      else if (49 <=? b) && (b <=? 57) then Ok (skip_digits bytes (i + 1))
      else Err i
  | None => Err i
  end.

(** The fraction, if there is one. *)
Definition number_frac (bytes : bytes) (i : nat) : result nat nat :=
  if decide (bytes !! i = Some 46) then
    if digit_at bytes (i + 1) then Ok (skip_digits bytes (i + 1)) else Err (i + 1)%nat
  else Ok i.

(** The exponent, if there is one. *)
Definition number_exp (bytes : bytes) (i : nat) : result nat nat :=
  if decide (bytes !! i = Some 101 \/ bytes !! i = Some 69) then
    let i := (i + 1)%nat in
    let i := if decide (bytes !! i = Some 43 \/ bytes !! i = Some 45) then (i + 1)%nat else i in
    if digit_at bytes i then Ok (skip_digits bytes i) else Err i
  else Ok i.

(** [validate_json_number]: the error is the offset at which the text stopped
    conforming. *)
Definition validate_json_number (bytes : bytes) : result nat unit :=
  let i := if decide (bytes !! 0%nat = Some 45) then 1%nat else 0%nat in
  i ← number_int bytes i;
  i ← number_frac bytes i;
  i ← number_exp bytes i;
  if decide (i <> length bytes) then Err i else Ok tt.

(** [Number::is_number]. *)
Definition is_number (text : bytes) : bool := is_ok (validate_json_number text).

(** ** UTF-8 *)

(** [0x80..=0xBF]. *)
Definition is_cont (b : byte) : bool := (128 <=? b) && (b <=? 191).

(** [core::str::from_utf8(..).is_ok()]: the well-formed byte sequences of the
    Unicode standard, table 3-7. *)
Fixpoint is_utf8 (l : bytes) : bool :=
  match l with
  | [] => true
  | b :: l =>
      if (0 <=? b) && (b <=? 127) then is_utf8 l
      else if (194 <=? b) && (b <=? 223) then
        match l with c :: l => is_cont c && is_utf8 l | [] => false end
      else if (224 <=? b) && (b <=? 239) then
        match l with
        | c :: d :: l =>
            (if b =? 224 then (160 <=? c) && (c <=? 191)
             else if b =? 237 then (128 <=? c) && (c <=? 159) else is_cont c) &&
            is_cont d && is_utf8 l
        | _ => false
        end
      else if (240 <=? b) && (b <=? 244) then
        match l with
        | c :: d :: e :: l =>
            (if b =? 240 then (144 <=? c) && (c <=? 191)
             else if b =? 244 then (128 <=? c) && (c <=? 143) else is_cont c) &&
            is_cont d && is_cont e && is_utf8 l
        | _ => false
        end
      else false
  end.

(** [char::from_u32], and the character as [String::push] writes it. *)
Definition char_from_u32 (code : Z) : option Z :=
  if ((0 <=? code) && (code <? 0xd800)) || ((0xe000 <=? code) && (code <=? 0x10ffff)) then Some code else None.
Definition char_utf8 (c : Z) : bytes :=
  if c <? 0x80 then [c]
  else if c <? 0x800 then [192 + Z.shiftr c 6; 128 + c mod 64]
  else if c <? 0x10000 then [224 + Z.shiftr c 12; 128 + Z.shiftr c 6 mod 64; 128 + c mod 64]
  else [240 + Z.shiftr c 18; 128 + Z.shiftr c 12 mod 64; 128 + Z.shiftr c 6 mod 64; 128 + c mod 64].

(** ** The grammar *)

(** RFC 8259 section 6: [number = [ minus ] int [ frac ] [ exp ]]. *)
Definition int_text (l : bytes) : Prop :=
  l = bs "0" \/ exists d ds, l = d :: ds /\ 49 <= d <= 57 /\ digits ds.
Definition frac_text (l : bytes) : Prop :=
  l = [] \/ exists ds, l = bs "." ++ ds /\ digits ds /\ ds <> [].
Definition exp_text (l : bytes) : Prop :=
  l = [] \/ exists e s ds, l = e :: s ++ ds /\ (e = 101 \/ e = 69) /\
    (s = [] \/ s = bs "+" \/ s = bs "-") /\ digits ds /\ ds <> [].
Definition json_number (l : bytes) : Prop :=
  exists m i f e, l = m ++ i ++ f ++ e /\ (m = [] \/ m = bs "-") /\
    int_text i /\ frac_text f /\ exp_text e.

(** ** Each part of the check takes its part of the grammar

    A part starts at an offset of the text and answers where it stops; it looks
    no further than that. *)

Definition agree (n : nat) (l l' : bytes) : Prop := forall j, (j <= n)%nat -> l' !! j = l !! j.

Lemma drop_lookup_cons (l : bytes) i b : l !! i = Some b -> drop i l = b :: drop (i + 1) l.
Proof. intros H. rewrite Nat.add_1_r. by apply drop_S. Qed.

Lemma skip_digits_split l i : (i <= length l)%nat ->
  exists ds tl, drop i l = ds ++ tl /\ digits ds /\ skip_digits l i = (i + length ds)%nat /\
    (skip_digits l i <= length l)%nat /\ digit_at l (skip_digits l i) = false.
Proof.
  intros Hi. unfold skip_digits. destruct (digit_run_spec (drop i l)) as (ds & tl & E & Hd & Hl & Ht).
  exists ds, tl. rewrite <- Hl. split; [done|]. split; [done|]. split; [done|].
  apply (f_equal length) in E as E'. rewrite length_drop, length_app in E'. split; [lia|].
  unfold digit_at. rewrite <- lookup_drop, E, lookup_app_r, Nat.sub_diag by lia.
  destruct Ht as [->|(b & tl' & -> & Hb)]; done.
Qed.

Lemma digit_run_agree l : forall l', (forall j, (j <= digit_run l)%nat -> l' !! j = l !! j) ->
  digit_run l' = digit_run l.
Proof.
  induction l as [|b l IH]; intros l' H.
  - specialize (H 0%nat ltac:(simpl; lia)). by destruct l'.
  - simpl in *. pose proof (H 0%nat ltac:(lia)) as H0. destruct l' as [|b' l']; [done|].
    injection H0 as ->. simpl. destruct (is_digit b); [|done]. f_equal. apply IH.
    intros j Hj. apply (H (S j)). lia.
Qed.

Lemma skip_digits_agree l l' i : agree (skip_digits l i) l l' ->
  skip_digits l' i = skip_digits l i.
Proof.
  unfold skip_digits, agree. intros H. f_equal. apply digit_run_agree. intros j Hj.
  rewrite !lookup_drop. apply H. lia.
Qed.

Lemma digit_at_agree n l l' i : agree n l l' -> (i <= n)%nat -> digit_at l' i = digit_at l i.
Proof. unfold digit_at. intros H Hi. by rewrite (H i Hi). Qed.

(** The start of a part, what it took, and the rest. *)
Definition took (l : bytes) (i k : nat) (p : bytes) : Prop :=
  drop i l = p ++ drop k l /\ k = (i + length p)%nat /\ (k <= length l)%nat.

Lemma took_nil l i : (i <= length l)%nat -> took l i i [].
Proof. intros. split; [done|]. simpl. lia. Qed.

Lemma took_cons l i b k p : l !! i = Some b -> took l (i + 1) k p -> took l i k (b :: p).
Proof.
  intros Hb (E & -> & Hk). split; [|simpl; lia]. rewrite (drop_lookup_cons l i b Hb), E. done.
Qed.

Lemma took_digits l i : (i <= length l)%nat ->
  exists ds, digits ds /\ took l i (skip_digits l i) ds /\
    (digit_at l i = true -> ds <> []) /\ digit_at l (skip_digits l i) = false.
Proof.
  intros Hi. destruct (skip_digits_split l i Hi) as (ds & tl & E & Hd & Hs & Hle & Hn).
  exists ds. split; [done|]. split; [|split; [|done]].
  - split; [|by split]. rewrite Hs, <- drop_drop, E, drop_app_length. done.
  - intros H ->. simpl in Hs. rewrite Nat.add_0_r in Hs. rewrite Hs in Hn. congruence.
Qed.

Lemma lookup_le (l : bytes) i b : l !! i = Some b -> (i + 1 <= length l)%nat.
Proof. intros H. apply lookup_lt_Some in H. lia. Qed.

Lemma number_int_took l i : (i <= length l)%nat ->
  match number_int l i with
  | Ok k => exists p, took l i k p /\ int_text p
  | Err k => k = i
  end.
Proof.
  intros Hi. unfold number_int. destruct (l !! i) as [b|] eqn:Eb; [|done].
  pose proof (lookup_le l i b Eb) as Hi1. destruct (Z.eqb_spec b 48) as [->|].
  - exists [48]. split; [|by left]. apply took_cons; [done|]. by apply took_nil.
  - destruct ((49 <=? b) && (b <=? 57)) eqn:Er; [|done]. bprop Er.
    destruct (took_digits l (i + 1) Hi1) as (ds & Hd & Ht & _ & _).
    exists (b :: ds). split; [by apply took_cons|]. right. by exists b, ds.
Qed.

Lemma number_frac_took l i : (i <= length l)%nat ->
  match number_frac l i with
  | Ok k => exists p, took l i k p /\ frac_text p
  | Err k => took l i k (bs ".")
  end.
Proof.
  intros Hi. unfold number_frac. case_decide as Hd; [|by exists []; split; [apply took_nil|left]].
  pose proof (lookup_le _ _ _ Hd) as Hi1. destruct (digit_at l (i + 1)) eqn:Ed.
  - destruct (took_digits l (i + 1) Hi1) as (ds & Hds & Ht & Hne & _).
    exists (46 :: ds). split; [by apply took_cons|]. right. exists ds. auto.
  - apply took_cons; [done|]. by apply took_nil.
Qed.

Lemma number_exp_took l i : (i <= length l)%nat ->
  match number_exp l i with
  | Ok k => exists p, took l i k p /\ exp_text p
  | Err k => exists e s, took l i k (e :: s) /\ (e = 101 \/ e = 69) /\
      (s = [] \/ s = bs "+" \/ s = bs "-")
  end.
Proof.
  intros Hi. unfold number_exp. cbv zeta. case_decide as He; [|by exists []; split; [apply took_nil|left]].
  assert (exists e, l !! i = Some e /\ (e = 101 \/ e = 69)) as (e & Ee & Hee) by naive_solver.
  pose proof (lookup_le _ _ _ Ee) as Hi1.
  set (i' := if decide _ then _ else _).
  assert (exists s, (s = [] \/ s = bs "+" \/ s = bs "-") /\ took l (i + 1) i' s) as (s & Hs & Ht).
  { unfold i'. case_decide as Hsg; [|by exists []; split; [left|apply took_nil]].
    destruct Hsg as [Hsg|Hsg]; [exists (bs "+")|exists (bs "-")];
      (split; [auto|]); (apply took_cons; [done|]); apply took_nil; by eapply lookup_le. }
  clearbody i'. destruct Ht as (E & Ei & Hle). destruct (digit_at l i') eqn:Ed.
  - destruct (took_digits l i' Hle) as (ds & Hds & (E' & Ek & Hle') & Hne & _).
    exists (e :: s ++ ds). split; [|right; exists e, s, ds; split_and!; auto].
    apply took_cons; [done|]. split; [by rewrite E, E', app_assoc|]. rewrite length_app. lia.
  - exists e, s. split; [by apply took_cons|auto].
Qed.

(** ** The parts look no further than where they stop *)

Definition where_ (r : result nat nat) : nat := match r with Ok k => k | Err k => k end.

Lemma number_int_local l l' i : (i <= length l)%nat -> agree (where_ (number_int l i)) l l' ->
  number_int l' i = number_int l i.
Proof.
  unfold number_int. intros Hi H. destruct (l !! i) as [b|] eqn:Eb.
  - assert (l' !! i = Some b) as ->.
    { rewrite <- Eb. apply H. repeat case_match; simpl; unfold skip_digits; lia. }
    destruct (b =? 48); [done|]. destruct ((49 <=? b) && (b <=? 57)); [|done].
    f_equal. by apply skip_digits_agree.
  - assert (l' !! i = None) as -> by (rewrite <- Eb; apply H; simpl; lia). done.
Qed.

Lemma number_frac_local l l' i : agree (where_ (number_frac l i)) l l' ->
  number_frac l' i = number_frac l i.
Proof.
  unfold number_frac. intros H.
  assert (l' !! i = l !! i) as ->.
  { apply H. repeat case_match; simpl; unfold skip_digits; lia. }
  case_decide; [|done].
  assert (digit_at l' (i + 1) = digit_at l (i + 1)) as ->.
  { eapply digit_at_agree; [exact H|]. case_match; simpl; unfold skip_digits; lia. }
  destruct (digit_at l (i + 1)); [|done]. f_equal. by apply skip_digits_agree.
Qed.

Lemma number_exp_local l l' i : agree (where_ (number_exp l i)) l l' ->
  number_exp l' i = number_exp l i.
Proof.
  unfold number_exp. cbv zeta. intros H.
  assert (l' !! i = l !! i) as ->.
  { apply H. repeat case_match; simpl; unfold skip_digits; lia. }
  destruct (decide (l !! i = Some 101 \/ l !! i = Some 69)); [|done].
  assert (l' !! (i + 1)%nat = l !! (i + 1)%nat) as ->.
  { apply H. repeat case_match; simpl; unfold skip_digits; lia. }
  set (i' := if decide _ then _ else _) in *.
  assert (digit_at l' i' = digit_at l i') as ->.
  { eapply digit_at_agree; [exact H|]. case_match; simpl; unfold skip_digits; lia. }
  destruct (digit_at l i'); [|done]. f_equal. by apply skip_digits_agree.
Qed.

(** ** The whole check *)

Lemma sign_took l : let i := if decide (l !! 0%nat = Some 45) then 1%nat else 0%nat in
  exists m, (m = [] \/ m = bs "-") /\ took l 0 i m.
Proof.
  simpl. case_decide as H.
  - exists (bs "-"). split; [by right|]. apply (took_cons _ 0 45); [done|].
    apply took_nil. by apply lookup_lt_Some in H.
  - exists []. split; [by left|]. apply took_nil. lia.
Qed.

Lemma took_app l i j k p q : took l i j p -> took l j k q -> took l i k (p ++ q).
Proof.
  intros (E & -> & ?) (E' & -> & ?). split; [by rewrite E, E', app_assoc|].
  rewrite length_app. lia.
Qed.

Lemma took_take l k p : took l 0 k p -> take k l = p.
Proof.
  rewrite <- (take_drop k l) at 1. intros (E & -> & Hk). rewrite drop_0 in E.
  rewrite take_drop in E. rewrite E at 1. by rewrite Nat.add_0_l, take_app_length.
Qed.

(** What the check says of a text it refuses: it could still have become a
    number up to the offset. *)
Lemma validate_spec l :
  match validate_json_number l with
  | Ok _ => json_number l
  | Err k => (k <= length l)%nat /\ exists s, json_number (take k l ++ s)
  end.
Proof.
  unfold validate_json_number. cbv zeta. destruct (sign_took l) as (m & Hm & H0).
  set (i0 := if decide (l !! 0%nat = Some 45) then 1%nat else 0%nat) in *. clearbody i0.
  pose proof H0 as (_ & _ & Hi0).
  pose proof (number_int_took l i0 Hi0) as H1.
  destruct (number_int l i0) as [i1|k]; cbn [mbind result_bind].
  2: { subst k. split; [done|]. exists (bs "0"). rewrite (took_take _ _ _ H0).
       exists m, (bs "0"), [], []. rewrite !app_nil_r. split_and!; auto; by left. }
  destruct H1 as (p1 & H1 & Hp1). pose proof (took_app _ _ _ _ _ _ H0 H1) as H01.
  pose proof H1 as (_ & _ & Hi1). pose proof (number_frac_took l i1 Hi1) as H2.
  destruct (number_frac l i1) as [i2|k]; cbn [mbind result_bind].
  2: { pose proof (took_app _ _ _ _ _ _ H01 H2) as H. split; [apply H|]. exists (bs "0").
       rewrite (took_take _ _ _ H). exists m, p1, (bs ".0"), []. rewrite <- !app_assoc.
       split_and!; [done|done|done| |by left]. right. exists (bs "0"). by repeat constructor. }
  destruct H2 as (p2 & H2 & Hp2). pose proof (took_app _ _ _ _ _ _ H01 H2) as H012.
  pose proof H2 as (_ & _ & Hi2). pose proof (number_exp_took l i2 Hi2) as H3.
  destruct (number_exp l i2) as [i3|k]; cbn [mbind result_bind].
  2: { destruct H3 as (e & s & H3 & He & Hs). pose proof (took_app _ _ _ _ _ _ H012 H3) as H.
       split; [apply H|]. exists (bs "0"). rewrite (took_take _ _ _ H).
       exists m, p1, p2, (e :: s ++ bs "0"). rewrite <- !app_assoc.
       split_and!; [done|done|done|done|]. right. exists e, s, (bs "0"). split_and!; [done|done|done|by repeat constructor|done]. }
  destruct H3 as (p3 & H3 & Hp3). pose proof (took_app _ _ _ _ _ _ H012 H3) as H.
  assert (Hn : json_number (take i3 l)).
  { rewrite (took_take _ _ _ H). exists m, p1, p2, p3. by rewrite <- !app_assoc. }
  case_decide.
  - split; [apply H|]. exists []. by rewrite app_nil_r.
  - assert (i3 = length l) as -> by lia. by rewrite firstn_all in Hn.
Qed.

(** A text that agrees with a refused one as far as the offset is refused
    there too. *)
Lemma validate_local l l' k : validate_json_number l = Err k -> agree k l l' ->
  validate_json_number l' = Err k.
Proof.
  unfold validate_json_number. cbv zeta. intros H Ha.
  assert (l' !! 0%nat = l !! 0%nat) as -> by (apply Ha; lia).
  set (i0 := if decide (l !! 0%nat = Some 45) then 1%nat else 0%nat) in *.
  assert (Hi0 : (i0 <= length l)%nat).
  { unfold i0. case_decide as Hd; [by apply lookup_lt_Some in Hd|lia]. }
  clearbody i0.
  pose proof (number_int_took l i0 Hi0) as H1. pose proof (number_int_local l l' i0 Hi0) as L1.
  destruct (number_int l i0) as [i1|k1]; cbn [mbind result_bind where_] in *.
  2: { injection H as ->. by rewrite L1. }
  destruct H1 as (p1 & (_ & _ & Hi1) & _).
  pose proof (number_frac_took l i1 Hi1) as H2. pose proof (number_frac_local l l' i1) as L2.
  assert (Hle2 : match number_frac l i1 with Ok k => (i1 <= k)%nat | Err k => (i1 <= k)%nat end).
  { destruct (number_frac l i1) as [?|?]; [destruct H2 as (? & (_ & -> & _) & _); lia|].
    destruct H2 as (_ & -> & _). lia. }
  destruct (number_frac l i1) as [i2|k2]; cbn [mbind result_bind where_] in *.
  2: { injection H as ->. rewrite L1 by (intros j Hj; apply Ha; lia). cbn [mbind result_bind].
       by rewrite L2. }
  destruct H2 as (p2 & (_ & _ & Hi2) & _).
  pose proof (number_exp_took l i2 Hi2) as H3. pose proof (number_exp_local l l' i2) as L3.
  assert (Hle3 : match number_exp l i2 with Ok k => (i2 <= k)%nat | Err k => (i2 <= k)%nat end).
  { destruct (number_exp l i2) as [?|?]; [destruct H3 as (? & (_ & -> & _) & _); lia|].
    destruct H3 as (? & ? & (_ & -> & _) & _). lia. }
  destruct (number_exp l i2) as [i3|k3]; cbn [mbind result_bind where_] in *.
  2: { injection H as ->. rewrite L1 by (intros j Hj; apply Ha; lia). cbn [mbind result_bind].
       rewrite L2 by (intros j Hj; apply Ha; lia). cbn [mbind result_bind]. by rewrite L3. }
  case_decide as Hne; [|done]. injection H as ->.
  rewrite L1 by (intros j Hj; apply Ha; lia). cbn [mbind result_bind].
  rewrite L2 by (intros j Hj; apply Ha; lia). cbn [mbind result_bind].
  rewrite L3 by (intros j Hj; apply Ha; lia). cbn [mbind result_bind].
  destruct H3 as (? & (_ & _ & Hk) & _).
  rewrite decide_True; [done|]. intros ->.
  destruct (lookup_lt_is_Some_2 l (length l') ltac:(lia)) as [b Hb].
  rewrite <- (Ha (length l')) in Hb by lia. apply lookup_lt_Some in Hb. lia.
Qed.

(** ** Every number is accepted *)

Definition ends_digits (tl : bytes) : Prop :=
  tl = [] \/ exists b tl', tl = b :: tl' /\ is_digit b = false.

Lemma drop_cons_lookup (l : bytes) i b tl : drop i l = b :: tl -> l !! i = Some b /\ drop (i + 1) l = tl.
Proof.
  intros E. split.
  - rewrite <- (Nat.add_0_r i), <- lookup_drop, E. done.
  - by rewrite <- drop_drop, E.
Qed.

Lemma drop_nil_lookup (l : bytes) i : drop i l = [] -> l !! i = None.
Proof. intros E. rewrite <- (Nat.add_0_r i), <- lookup_drop, E. done. Qed.

Lemma skip_digits_takes l i ds tl : drop i l = ds ++ tl -> digits ds -> ends_digits tl ->
  skip_digits l i = (i + length ds)%nat /\ drop (skip_digits l i) l = tl.
Proof.
  intros E Hd Ht. unfold skip_digits. rewrite E, digit_run_app by done. split; [done|].
  by rewrite <- drop_drop, E, drop_app_length.
Qed.

Lemma digit_at_takes l i ds tl : drop i l = ds ++ tl -> digits ds -> ds <> [] -> digit_at l i = true.
Proof.
  intros E Hd Hne. destruct ds as [|d ds]; [done|]. apply drop_cons_lookup in E as [E _].
  unfold digit_at. rewrite E. by inversion Hd.
Qed.

Lemma number_int_takes l i p tl : drop i l = p ++ tl -> int_text p -> ends_digits tl ->
  exists k, number_int l i = Ok k /\ drop k l = tl.
Proof.
  intros E Hp Ht. unfold number_int. destruct Hp as [->|(d & ds & -> & Hd & Hds)].
  - apply drop_cons_lookup in E as [-> E]. by exists (i + 1)%nat.
  - apply drop_cons_lookup in E as [-> E]. destruct (Z.eqb_spec d 48); [lia|].
    rewrite !(proj2 (Z.leb_le _ _)) by lia. destruct (skip_digits_takes _ _ _ _ E Hds Ht).
    by eexists.
Qed.

Lemma number_frac_takes l i p tl : drop i l = p ++ tl -> frac_text p -> ends_digits tl ->
  head tl <> Some 46 -> exists k, number_frac l i = Ok k /\ drop k l = tl.
Proof.
  intros E Hp Ht Hd. unfold number_frac. destruct Hp as [->|(ds & -> & Hds & Hne)].
  - exists i. split; [|done]. rewrite decide_False; [done|]. intros Hi.
    apply drop_lookup_cons in Hi. rewrite Hi in E. simpl in E. by rewrite <- E in Hd.
  - apply drop_cons_lookup in E as [E1 E]. rewrite decide_True by done.
    rewrite (digit_at_takes _ _ _ _ E Hds Hne).
    destruct (skip_digits_takes _ _ _ _ E Hds Ht). by eexists.
Qed.

Lemma number_exp_takes l i p : drop i l = p -> exp_text p ->
  exists k, number_exp l i = Ok k /\ drop k l = [].
Proof.
  intros E Hp. unfold number_exp. cbv zeta.
  destruct Hp as [->|(e & s & ds & -> & He & Hs & Hds & Hne)].
  - exists i. split; [|done]. pose proof (drop_nil_lookup _ _ E) as ->.
    by rewrite decide_False by (by intros [?|?]).
  - apply drop_cons_lookup in E as [E1 E]. rewrite E1.
    rewrite decide_True by (destruct He as [->| ->]; auto).
    set (i' := if decide _ then _ else _).
    assert (E' : drop i' l = ds ++ []).
    { rewrite app_nil_r. unfold i'. destruct ds as [|d ds]; [done|]. inversion Hds as [|? ? Hd]; subst.
      apply is_digit_spec in Hd. destruct Hs as [->|[->| ->]].
      - apply drop_cons_lookup in E as E2. destruct E2 as [-> _]. rewrite decide_False; [done|].
        intros [[=]|[=]]; lia.
      - apply drop_cons_lookup in E as [-> E]. rewrite decide_True by auto. done.
      - apply drop_cons_lookup in E as [-> E]. rewrite decide_True by auto. done. }
    clearbody i'. rewrite (digit_at_takes _ _ _ _ E' Hds Hne).
    destruct (skip_digits_takes _ _ _ _ E' Hds ltac:(by left)). by eexists.
Qed.

Lemma frac_exp_ends f e : frac_text f -> exp_text e -> ends_digits (f ++ e).
Proof.
  intros Hf He. assert (Hee : ends_digits e).
  { destruct He as [->|(c & s & ds & -> & Hc & _)]; [by left|right].
    exists c, (s ++ ds). split; [done|]. by destruct Hc as [->| ->]. }
  destruct Hf as [->|(ds & -> & _ & _)]; [done|]. right. by eexists _, _.
Qed.

Lemma validate_accepts l : json_number l -> validate_json_number l = Ok tt.
Proof.
  intros (m & i & f & e & E & Hm & Hi & Hf & He). unfold validate_json_number. cbv zeta.
  set (i0 := if decide (l !! 0%nat = Some 45) then 1%nat else 0%nat).
  assert (E0 : drop i0 l = i ++ f ++ e).
  { unfold i0. rewrite E. destruct Hm as [->| ->]; [|done].
    destruct Hi as [->|(d & ds & -> & Hd & _)]; [done|]. rewrite decide_False; [done|].
    intros [=]. lia. }
  clearbody i0. clear E Hm.
  assert (Hi0 : (i0 <= length l)%nat).
  { apply (f_equal length) in E0. rewrite length_drop, length_app in E0.
    assert (1 <= length i)%nat by (destruct Hi as [->|(? & ? & -> & _)]; simpl; lia). lia. }
  pose proof (number_int_took l i0 Hi0) as H1.
  destruct (number_int_takes _ _ _ _ E0 Hi (frac_exp_ends f e Hf He)) as (i1 & Ei1 & E1).
  rewrite Ei1 in H1 |- *. destruct H1 as (_ & (_ & _ & H1) & _). cbn [mbind result_bind].
  pose proof (number_frac_took l i1 H1) as H2.
  destruct (number_frac_takes l i1 f e E1 Hf) as (i2 & Ei2 & E2).
  { apply (frac_exp_ends [] e); [by left|done]. }
  { destruct He as [->|(c & s & ds & -> & Hc & _)]; [done|].
    simpl. destruct Hc as [->| ->]; congruence. }
  rewrite Ei2 in H2 |- *. destruct H2 as (_ & (_ & _ & H2) & _). cbn [mbind result_bind].
  pose proof (number_exp_took l i2 H2) as H3.
  destruct (number_exp_takes l i2 e E2 He) as (i3 & Ei3 & E3).
  rewrite Ei3 in H3 |- *. destruct H3 as (_ & (_ & _ & H3) & _). cbn [mbind result_bind].
  apply (f_equal length) in E3. rewrite length_drop in E3. simpl in E3.
  rewrite decide_False; [done|]. lia.
Qed.

Lemma validate_iff l : validate_json_number l = Ok tt <-> json_number l.
Proof.
  split; [|apply validate_accepts]. intros H. pose proof (validate_spec l) as Hs. by rewrite H in Hs.
Qed.

Lemma is_number_spec l : is_number l = true <-> json_number l.
Proof.
  unfold is_number. rewrite <- validate_iff. destruct (validate_json_number l) as [[]|]; done.
Qed.

(** A number is ASCII, so it is text. *)
Lemma is_utf8_ascii l : Forall (λ b, 0 <= b <= 127) l -> is_utf8 l = true.
Proof.
  induction 1 as [|b l Hb _ IH]; [done|]. simpl.
  by rewrite (proj2 (Z.leb_le 0 b)), (proj2 (Z.leb_le b 127)) by lia.
Qed.

Lemma digits_ascii ds : digits ds -> Forall (λ b, 0 <= b <= 127) ds.
Proof. intros H. eapply Forall_impl; [exact H|]. intros b Hb. apply is_digit_spec in Hb. lia. Qed.

Lemma json_number_utf8 l : json_number l -> is_utf8 l = true.
Proof.
  intros (m & i & f & e & -> & Hm & Hi & Hf & He). apply is_utf8_ascii.
  assert (forall c, 0 <= c <= 127 -> Forall (λ b, 0 <= b <= 127) [c]) as H1 by (intros; by apply Forall_singleton).
  repeat (apply Forall_app; split).
  - destruct Hm as [->| ->]; [done|]. by apply H1.
  - destruct Hi as [->|(d & ds & -> & Hd & Hds)]; [by apply H1|].
    constructor; [lia|by apply digits_ascii].
  - destruct Hf as [->|(ds & -> & Hds & _)]; [done|]. constructor; [by vm_compute|by apply digits_ascii].
  - destruct He as [->|(c & s & ds & -> & Hc & Hs & Hds & _)]; [done|].
    constructor; [lia|]. apply Forall_app. split; [|by apply digits_ascii].
    by destruct Hs as [->|[->| ->]]; [|apply H1|apply H1].
Qed.

(** ** Properties *)

(** The check accepts exactly the number grammar of RFC 8259 section 6:
    no leading zero, no leading plus, a digit on both sides of the point, a
    digit in the exponent, nothing after. *)
Theorem number_check_exact (l : bytes) : validate_json_number l = Ok tt <-> json_number l.
Proof. apply validate_iff. Qed.

(** A refused number's offset is where the text stopped conforming: within
    the text, what comes before it is the start of some number, and no text that
    agrees with it as far as that offset is a number. *)
Theorem number_offset_exact (l : bytes) (k : nat) (H : validate_json_number l = Err k) :
  (k <= length l)%nat /\ (exists s, json_number (take k l ++ s)) /\
  (forall l', agree k l l' -> ~ json_number l').
Proof.
  pose proof (validate_spec l) as Hs. rewrite H in Hs. destruct Hs as [Hk Hs].
  split; [done|]. split; [done|]. intros l' Ha Hn. apply validate_iff in Hn.
  rewrite (validate_local l l' k H Ha) in Hn. done.
Qed.

Lemma number_offset_exact_witness :
  validate_json_number (bs "1.2.3") = Err 3%nat /\ ~ json_number (bs "1.2.3").
Proof.
  split; [vm_compute; reflexivity|].
  apply (proj2 (proj2 (number_offset_exact (bs "1.2.3") 3 ltac:(vm_compute; reflexivity)))).
  intros j _. reflexivity.
Defined.
