(* ===== verification/Value.v ===== *)
(** * The value

    [value/value.rs] and [value/types/]: a node and what its tag selects, the
    checks a foreign node must pass to be read as text, a number or a map, and
    the measures and the induction principle every walk of a tree uses.

    Storage (the buffers, their capacities and the allocators they recorded) is
    not part of a node here: a list is its items and a map its entries, in
    order. *)

From S2P Require Import Prelude Errors Number.

(** [Value], by the arm its tag selects. Bytes under a STRING, a NUMBER or a key
    are whatever a producer wrote; [VUnknown n] is the tag [8 + n], which this
    build does not know. *)
Inductive Value : Type :=
  | VAbsent
  | VNull
  | VBool (b : bool)
  | VNumber (text : bytes)
  | VString (text : bytes)
  | VBytes (b : bytes)
  | VList (items : list Value)
  | VMap (entries : list (bytes * Value))
  | VUnknown (n : nat).

(** [Map]: its entries, in insertion order. *)
Abbreviation Map := (list (bytes * Value)) (only parsing).

(** [Tag]. *)
Inductive Tag : Type :=
  | GUATIAO_ABSENT | GUATIAO_NULL | GUATIAO_BOOL | GUATIAO_NUMBER
  | GUATIAO_STRING | GUATIAO_BYTES | GUATIAO_LIST | GUATIAO_MAP.

#[export] Instance Tag_eq_dec : EqDecision Tag.
Proof. solve_decision. Defined.

(** [u32::from(Tag)] and [Tag::try_from(u32)]. *)
Definition tag_code (t : Tag) : Z :=
  match t with
  | GUATIAO_ABSENT => 0 | GUATIAO_NULL => 1 | GUATIAO_BOOL => 2 | GUATIAO_NUMBER => 3
  | GUATIAO_STRING => 4 | GUATIAO_BYTES => 5 | GUATIAO_LIST => 6 | GUATIAO_MAP => 7
  end.
Definition tag_try_from (raw : Z) : result ValueError Tag :=
  if raw =? 0 then Ok GUATIAO_ABSENT else if raw =? 1 then Ok GUATIAO_NULL
  else if raw =? 2 then Ok GUATIAO_BOOL else if raw =? 3 then Ok GUATIAO_NUMBER
  else if raw =? 4 then Ok GUATIAO_STRING else if raw =? 5 then Ok GUATIAO_BYTES
  else if raw =? 6 then Ok GUATIAO_LIST else if raw =? 7 then Ok GUATIAO_MAP
  else Err (UnknownTag raw).

(** The node's [tag] field. *)
Definition raw_tag (v : Value) : Z :=
  match v with
  | VAbsent => 0 | VNull => 1 | VBool _ => 2 | VNumber _ => 3
  | VString _ => 4 | VBytes _ => 5 | VList _ => 6 | VMap _ => 7
  | VUnknown n => 8 + Z.of_nat n
  end.

(** [Value::tag]. *)
Definition tag (v : Value) : result ValueError Tag := tag_try_from (raw_tag v).

Lemma tag_unknown n : tag (VUnknown n) = Err (UnknownTag (8 + Z.of_nat n)).
Proof.
  unfold tag, tag_try_from. cbn [raw_tag]. repeat (rewrite (proj2 (Z.eqb_neq _ _)); [|lia]). done.
Qed.

(** [Map::keys_are_text]. *)
Definition keys_are_text (m : Map) : bool := forallb (λ e, is_utf8 e.1) m.

(** The doors to an arm ([TryAsRef]): the tag, and for text, numbers and maps
    what the type promises. *)
Definition as_text (v : Value) : option bytes :=
  match v with VString t => if is_utf8 t then Some t else None | _ => None end.
Definition as_number (v : Value) : option bytes :=
  match v with VNumber t => if is_number t then Some t else None | _ => None end.
Definition as_bool (v : Value) : option bool := match v with VBool b => Some b | _ => None end.
Definition as_buffer (v : Value) : option bytes := match v with VBytes b => Some b | _ => None end.
Definition as_list (v : Value) : option (list Value) := match v with VList l => Some l | _ => None end.
Definition as_map (v : Value) : option Map :=
  match v with VMap m => if keys_are_text m then Some m else None | _ => None end.

(** ** Induction over a tree *)

Section ind.
Context (P : Value -> Prop).
Context (Habsent : P VAbsent) (Hnull : P VNull) (Hbool : forall b, P (VBool b)).
Context (Hnumber : forall t, P (VNumber t)) (Hstring : forall t, P (VString t)).
Context (Hbytes : forall b, P (VBytes b)).
Context (Hlist : forall l, Forall P l -> P (VList l)).
Context (Hmap : forall m, Forall (λ e, P e.2) m -> P (VMap m)).
Context (Hunknown : forall t, P (VUnknown t)).

(** The items and the entries are trees of their own. *)
Fixpoint value_ind' (v : Value) : P v :=
  match v with
  | VAbsent => Habsent
  | VNull => Hnull
  | VBool b => Hbool b
  | VNumber t => Hnumber t
  | VString t => Hstring t
  | VBytes b => Hbytes b
  | VList l => Hlist l
      ((fix go l : Forall P l :=
          match l with [] => Forall_nil_2 _ | x :: l => Forall_cons_2 _ _ _ (value_ind' x) (go l) end) l)
  | VMap m => Hmap m
      ((fix go m : Forall (λ e, P e.2) m :=
          match m with
          | [] => Forall_nil_2 _
          | e :: m => Forall_cons_2 _ _ _ (value_ind' e.2) (go m)
          end) m)
  | VUnknown t => Hunknown t
  end.
End ind.

(** ** Equality

    [walk::equal]: the same tag, and the same content byte for byte, entries in
    order. *)

Fixpoint value_eqb (a b : Value) : bool :=
  match a, b with
  | VAbsent, VAbsent | VNull, VNull => true
  | VBool x, VBool y => Bool.eqb x y
  | VNumber s, VNumber t | VString s, VString t | VBytes s, VBytes t => bool_decide (s = t)
  | VList l, VList l' =>
      (fix go l l' := match l, l' with
        | [], [] => true
        | x :: l, y :: l' => value_eqb x y && go l l'
        | _, _ => false end) l l'
  | VMap m, VMap m' =>
      (fix go m m' := match m, m' with
        | [], [] => true
        | (k, x) :: m, (k', y) :: m' => bool_decide (k = k') && value_eqb x y && go m m'
        | _, _ => false end) m m'
  | VUnknown s, VUnknown t => (s =? t)%nat
  | _, _ => false
  end.

Lemma value_eqb_spec a : forall b, value_eqb a b = true <-> a = b.
Proof.
  induction a as [| |x|s|s|s|l IH|m IH|s] using value_ind'; intros [| |y|t|t|t|l'|m'|t];
    simpl; try (split; congruence).
  - rewrite Bool.eqb_true_iff. naive_solver.
  - rewrite bool_decide_eq_true. naive_solver.
  - rewrite bool_decide_eq_true. naive_solver.
  - rewrite bool_decide_eq_true. naive_solver.
  - revert l'. induction IH as [|x l Hx _ IHl]; intros [|y l']; try (split; congruence).
    rewrite andb_true_iff, Hx, IHl. naive_solver.
  - revert m'. induction IH as [|[k x] m Hx _ IHm]; intros [|[k' y] m']; try (split; congruence).
    simpl in Hx. rewrite !andb_true_iff, bool_decide_eq_true, Hx, IHm. naive_solver.
  - rewrite Nat.eqb_eq. naive_solver.
Qed.

#[export] Instance Value_eq_dec : EqDecision Value.
Proof.
  intros a b. destruct (value_eqb a b) eqn:E; [left; by apply value_eqb_spec|right].
  intros H. apply value_eqb_spec in H. congruence.
Defined.

(** ** The invariant of a tree built in Rust *)

(** Lengths are [usize] and at most what an address space holds. *)
Definition usize_max : Z := u64_max.
Definition fits {A} (l : list A) : Prop := Z.of_nat (length l) <= usize_max.

(** Text is UTF-8, a NUMBER in the grammar, a map's keys UTF-8 and none
    repeated, every tag known, and what is stored is bytes. *)
Fixpoint value_wf (v : Value) : Prop :=
  match v with
  | VAbsent | VNull | VBool _ => True
  | VNumber t => is_number t = true /\ fits t
  | VString t => is_utf8 t = true /\ fits t
  | VBytes b => Forall is_byte b /\ fits b
  | VList l => fits l /\ (fix go l := match l with [] => True | x :: l => value_wf x /\ go l end) l
  | VMap m =>
      fits m /\ NoDup (map fst m) /\
      (fix go m := match m with
        | [] => True
        | e :: m => (is_utf8 e.1 = true /\ fits e.1 /\ value_wf e.2) /\ go m
        end) m
  | VUnknown _ => False
  end.

Definition entry_wf (e : bytes * Value) : Prop :=
  is_utf8 e.1 = true /\ fits e.1 /\ value_wf e.2.

Lemma value_wf_list l : value_wf (VList l) <-> fits l /\ Forall value_wf l.
Proof.
  simpl. apply and_iff_compat_l. induction l as [|x l IH]; [by split; [constructor|]|].
  by rewrite Forall_cons_iff, IH.
Qed.

Lemma value_wf_map m : value_wf (VMap m) <-> fits m /\ NoDup (map fst m) /\ Forall entry_wf m.
Proof.
  simpl. do 2 apply and_iff_compat_l. induction m as [|x l IH]; [by split; [constructor|]|].
  by rewrite Forall_cons_iff, IH.
Qed.

(** The invariant, decided. *)
Definition fits_ok {A} (l : list A) : bool := Z.of_nat (length l) <=? usize_max.
Fixpoint wf_ok (v : Value) : bool :=
  match v with
  | VAbsent | VNull | VBool _ => true
  | VNumber t => is_number t && fits_ok t
  | VString t => is_utf8 t && fits_ok t
  | VBytes b => forallb (λ x, (0 <=? x) && (x <? 256)) b && fits_ok b
  | VList l => fits_ok l && forallb wf_ok l
  | VMap m =>
      fits_ok m && bool_decide (NoDup (map fst m)) &&
      forallb (λ e, is_utf8 e.1 && fits_ok e.1 && wf_ok e.2) m
  | VUnknown _ => false
  end.

Lemma wf_ok_wf v : wf_ok v = true -> value_wf v.
Proof.
  induction v as [| |b|t|t|b|l IH|m IH|t] using value_ind'; cbn [wf_ok]; try done;
    rewrite ?andb_true_iff; unfold fits_ok; rewrite ?Z.leb_le.
  - by intros.
  - by intros.
  - rewrite forallb_forall. intros [Hb Hf]. split; [|done]. apply List.Forall_forall. intros x Hx.
    specialize (Hb x Hx). bprop Hb. unfold is_byte. lia.
  - intros [Hf Hl]. apply value_wf_list. split; [done|]. rewrite forallb_forall in Hl.
    apply List.Forall_forall. intros x Hx. rewrite List.Forall_forall in IH. auto.
  - intros [[Hf Hn%bool_decide_eq_true] Hm]. apply value_wf_map. split_and!; [done..|].
    rewrite forallb_forall in Hm. apply List.Forall_forall. intros e He. specialize (Hm e He).
    rewrite !andb_true_iff in Hm. destruct Hm as [[Hu Hl] Hv]. split; [done|]. split; [by apply Z.leb_le|].
    rewrite List.Forall_forall in IH. by apply (IH e He).
Qed.

(** ** The size of a walk *)

(** The rounds of a loop over an explicit stack: one for a leaf, and one more
    to leave a container. *)
Fixpoint vsize (v : Value) : nat :=
  match v with
  | VList l => (2 + (fix go l := match l with [] => 0%nat | x :: l => vsize x + go l end) l)%nat
  | VMap m => (2 + (fix go m := match m with [] => 0%nat | e :: m => vsize e.2 + go m end) m)%nat
  | _ => 1%nat
  end.

Definition items_size (l : list Value) : nat := sum_list_with vsize l.

Lemma vsize_list l : vsize (VList l) = (2 + items_size l)%nat.
Proof. done. Qed.
Lemma vsize_map m : vsize (VMap m) = (2 + items_size (map snd m))%nat.
Proof.
  change (vsize (VMap m)) with (2 + (fix go m := match m with [] => 0%nat | e :: m =>
    (vsize (@snd bytes Value e) + go m)%nat end) m)%nat.
  f_equal. induction m as [|x l IH]; [done|]. simpl. by rewrite IH.
Qed.
Lemma vsize_pos v : (0 < vsize v)%nat.
Proof. destruct v; simpl; lia. Qed.

#[global] Arguments vsize : simpl never.
#[global] Arguments value_wf : simpl never.

Lemma keys_are_text_spec m : keys_are_text m = true <-> Forall (λ e, is_utf8 e.1 = true) m.
Proof. unfold keys_are_text. by rewrite forallb_forall, List.Forall_forall. Qed.
