(* ===== verification/Keys.v ===== *)
(** * The hashes of a wide map's keys

    [value/wire/keys.rs]: the seeded hash, in 64-bit arithmetic, and the set of
    hashes a read of a wide map keeps. What a hash is never decides an answer:
    every use compares the bytes too. *)

From S2P Require Import Prelude.

(** A map counting more than this many keys is checked through hashes. *)
Definition LINEAR : nat := 16.

(** [Seeded]: two [u64]s. *)
Record Seeded := MkSeeded { seed0 : Z; seed1 : Z }.

Definition hash_M : Z := 0x9e3779b97f4a7c15.

(** [fold]: the two halves of the 128-bit product, together. *)
Definition fold_mul (a b : Z) : Z :=
  let p := a * b in Z.lxor (wrap64 p) (wrap64 (Z.shiftr p 64)).

(** [u64::from_le_bytes]. *)
Definition from_le_bytes (w : bytes) : Z := foldr (λ b acc, b + 256 * acc) 0 w.

(** The loop over the eight-byte words and what follows them. *)
Fixpoint hash_words (s1 h : Z) (key : bytes) : Z :=
  match key with
  | b0 :: b1 :: b2 :: b3 :: b4 :: b5 :: b6 :: b7 :: rest =>
      hash_words s1
        (fold_mul (Z.lxor h (from_le_bytes [b0; b1; b2; b3; b4; b5; b6; b7])) (Z.lxor s1 hash_M))
        rest
  | [] => h
  | rest => fold_mul (Z.lxor h (from_le_bytes (rest ++ replicate (8 - length rest) 0))) s1
  end.

(** [Seeded::hash_one]. *)
Definition hash_one (seeds : Seeded) (key : bytes) : Z :=
  let h := Z.lxor (seed0 seeds) (wrap64 (Z.of_nat (length key) * hash_M)) in
  fold_mul (hash_words (seed1 seeds) h key) (Z.lxor (seed0 seeds) hash_M).

(** [Seeded::of]: the seeds [drawn] holds, drawn there first if it holds none;
    [random] is what the standard library's random state gives. *)
Definition seeded_of (random : Seeded) (drawn : option Seeded) : Seeded * option Seeded :=
  match drawn with Some s => (s, drawn) | None => (random, Some random) end.

(** [KeySet]. *)
Record KeySet := MkKeySet { ks_seeds : Seeded; hashes : gset Z }.

(** [KeySet::new]; the room it reserves is not modelled. *)
Definition keyset_new (random : Seeded) (drawn : option Seeded) : KeySet * option Seeded :=
  let '(seeds, drawn) := seeded_of random drawn in (MkKeySet seeds ∅, drawn).

(** [KeySet::insert]: false when an earlier key had the same hash. *)
Definition keyset_insert (ks : KeySet) (key : bytes) : bool * KeySet :=
  let h := hash_one (ks_seeds ks) key in
  (bool_decide (h ∉ hashes ks), MkKeySet (ks_seeds ks) ({[h]} ∪ hashes ks)).

(** ** Lemmas *)

(** What a set holds after reading [keys]. *)
Definition keyset_of (ks : KeySet) (keys : list bytes) : Prop :=
  forall h, h ∈ hashes ks <-> exists k, k ∈ keys /\ h = hash_one (ks_seeds ks) k.

Lemma keyset_new_of random drawn : keyset_of (fst (keyset_new random drawn)) [].
Proof.
  unfold keyset_new. destruct (seeded_of random drawn) as [s d]. intros h. simpl.
  split; [set_solver|]. intros (k & Hk & _). by apply elem_of_nil in Hk.
Qed.

(** A repeated key has a repeated hash, and the set goes on holding its keys'. *)
Lemma keyset_insert_of ks keys k : keyset_of ks keys ->
  keyset_of (snd (keyset_insert ks k)) (keys ++ [k]) /\
  (k ∈ keys -> fst (keyset_insert ks k) = false).
Proof.
  intros Hks. unfold keyset_insert. cbn [fst snd]. split.
  - intros h. cbn [hashes ks_seeds]. rewrite elem_of_union, elem_of_singleton, (Hks h).
    setoid_rewrite elem_of_app. setoid_rewrite list_elem_of_singleton. naive_solver.
  - intros Hk. apply bool_decide_eq_false. intros Hn. apply Hn, Hks. eauto.
Qed.

(** The hash is a [u64]. *)
Lemma lxor_u64 a b : 0 <= a < 2^64 -> 0 <= b < 2^64 -> 0 <= Z.lxor a b < 2^64.
Proof.
  intros [Ha0 Ha] [Hb0 Hb]. assert (H : 0 <= Z.lxor a b) by by apply Z.lxor_nonneg.
  split; [done|]. destruct (Z.eq_dec (Z.lxor a b) 0) as [->|Hne]; [done|].
  apply Z.log2_lt_pow2; [lia|]. eapply Z.le_lt_trans; [by apply Z.log2_lxor|].
  destruct (Z.eq_dec a 0) as [->|], (Z.eq_dec b 0) as [->|]; [done|..];
    apply Z.max_lub_lt; done || (apply Z.log2_lt_pow2; lia).
Qed.

Lemma fold_mul_u64 a b : 0 <= fold_mul a b < 2^64.
Proof. apply lxor_u64; unfold wrap64; apply Z.mod_pos_bound; lia. Qed.

Lemma hash_one_u64 seeds key : 0 <= hash_one seeds key < 2^64.
Proof. apply fold_mul_u64. Qed.
