(* ===== verification/Maps.v ===== *)
(** * Maps

    [value/types/map.rs]: an ordered sequence of entries searched by scanning,
    and the hash index that finds a key in a wide one. The abstraction is a
    finite map from keys to values together with the order of the keys.

    Growing through an allocator that refuses is not modelled here: a store
    takes place. *)

From S2P Require Import Prelude Errors Number Value Keys.

(** ** The operations *)

(** [Map::position], [contains_key] and [get]. *)
Definition position (m : Map) (key : bytes) : option nat := fst <$> list_find (λ e, e.1 = key) m.
Definition contains_key (m : Map) (key : bytes) : bool := bool_decide (is_Some (position m key)).
Definition get (m : Map) (key : bytes) : option Value := i ← position m key; e ← m !! i; Some e.2.

(** [entry.value = value] at a position. *)
Definition put_at (m : Map) (i : nat) (v : Value) : Map := alter (λ e, (e.1, v)) i m.

(** [Map::insert_node]: appends an entry under a key known to be absent. *)
Definition insert_node (m : Map) (key : bytes) (v : Value) : Map := m ++ [(key, v)].

(** [Map::set] and its forms. *)
Definition set_ (m : Map) (key : bytes) (v : Value) : Map :=
  match position m key with
  | Some i => put_at m i v
  | None => insert_node m key v
  end.

(** [Map::push_into]. *)
Definition push_into (m : Map) (key : bytes) (v : Value) : result ValueError Map :=
  let m := if contains_key m key then m else set_ m key (VList []) in
  node ← ok_or (get m key) WrongKind;
  l ← ok_or (as_list node) WrongKind;
  i ← ok_or (position m key) WrongKind;
  Ok (put_at m i (VList (l ++ [v]))).

(** [Map::remove] and [Map::discard]. *)
Definition remove (m : Map) (key : bytes) : option (Value * Map) :=
  i ← position m key;
  e ← m !! i;
  Some (e.2, take i m ++ drop (i + 1) m).
Definition discard (m : Map) (key : bytes) : bool * Map :=
  match remove m key with Some (_, m') => (true, m') | None => (false, m) end.

(** [Map::clear], [Map::keys] and [Map::values]. *)
Definition clear (m : Map) : Map := [].
Definition keys (m : Map) : list bytes := map fst m.
Definition values (m : Map) : list Value := map snd m.

(** [Map::drop_keys_not_text]: the loop that keeps the entries it can. *)
Definition drop_keys_not_text (m : Map) : nat * Map :=
  if keys_are_text m then (0%nat, m)
  else
    let kept := foldl (λ kept e, if is_utf8 e.1 then kept ++ [e] else kept) [] m in
    ((length m - length kept)%nat, kept).

(** [pop_last]. *)
Definition pop_last (m : Map) : option ((bytes * Value) * Map) :=
  e ← last m; Some (e, take (length m - 1) m).

(** ** Finding keys in a wide map *)

(** [KeyIndex]: where the first key with each hash sits. *)
Record KeyIndex := MkKeyIndex { ix_seeds : Seeded; first : gmap Z nat }.

(** [KeyIndex::of], without the room it reserves. *)
Definition or_insert (first : gmap Z nat) (h : Z) (at_ : nat) : gmap Z nat :=
  match first !! h with Some _ => first | None => <[h := at_]> first end.
Definition index_of (entries : Map) (seeds : Seeded) : KeyIndex :=
  MkKeyIndex seeds
    (foldl (λ first '(at_, e), or_insert first (hash_one seeds e.1) at_) ∅
      (imap (λ at_ e, (at_, e)) entries)).

(** [KeyIndex::find]. *)
Definition index_find (ix : KeyIndex) (entries : Map) (key : bytes) : option nat :=
  at_ ← first ix !! hash_one (ix_seeds ix) key;
  e ← entries !! at_;
  if decide (e.1 = key) then Some at_ else position entries key.

(** [Filling]: a map being filled. *)
Record Filling := MkFilling { f_map : Map; f_index : option KeyIndex; f_more : nat }.

Definition with_room (m : Map) (more : nat) : Filling := MkFilling m None more.

Section filling.
(** What the standard library's random state gives when seeds are drawn. *)
Variable random : Seeded.

(** [Filling::index]: the index, made first when the map is wide or expected
    to be. *)
Definition filling_index (f : Filling) (drawn : option Seeded) : option KeyIndex * option Seeded :=
  match f_index f with
  | Some ix => (Some ix, drawn)
  | None =>
      if decide (LINEAR < length (f_map f) + f_more f)%nat then
        let '(seeds, drawn) := seeded_of random drawn in (Some (index_of (f_map f) seeds), drawn)
      else (None, drawn)
  end.

(** [Filling::set_in_seeded]. *)
Definition filling_set (f : Filling) (drawn : option Seeded) (key : bytes) (v : Value)
    : Filling * option Seeded :=
  let m := f_map f in
  let '(index, drawn) := filling_index f drawn in
  match index with
  | None => (MkFilling (set_ m key v) None (f_more f), drawn)
  | Some ix =>
      let hash := hash_one (ix_seeds ix) key in
      match first ix !! hash with
      | None =>
          (MkFilling (insert_node m key v)
            (Some (MkKeyIndex (ix_seeds ix) (<[hash := length m]> (first ix)))) (f_more f), drawn)
      | Some at0 =>
          let at_ :=
            match m !! at0 with
            | Some e => if decide (e.1 = key) then Some at0 else position m key
            | None => position m key
            end in
          (MkFilling (match at_ with Some i => put_at m i v | None => insert_node m key v end)
            (Some ix) (f_more f), drawn)
      end
  end.

(** [Filling::contains_key]. *)
Definition filling_contains (f : Filling) (key : bytes) : bool :=
  match fst (filling_index f None) with
  | Some ix => bool_decide (is_Some (index_find ix (f_map f) key))
  | None => contains_key (f_map f) key
  end.

(** The stores of one build, in order. *)
Definition filling_all (f : Filling) (drawn : option Seeded) (l : list (bytes * Value))
    : Filling * option Seeded :=
  foldl (λ s e, filling_set s.1 s.2 e.1 e.2) (f, drawn) l.

(** [Map::absorb], each entry taken from the end of the reversed source; each
    store draws its own seeds if it needs them. *)
Fixpoint absorb_from (fuel : nat) (from : Map) (into : Filling) (n : nat) : nat * Filling :=
  match fuel with
  | O => (n, into)
  | S fuel =>
      match pop_last from with
      | None => (n, into)
      | Some (e, from) => absorb_from fuel from (fst (filling_set into None e.1 e.2)) (S n)
      end
  end.
Definition absorb (m from : Map) : nat * Map :=
  let '(n, f) := absorb_from (S (length from)) (rev from) (with_room m (length from)) 0 in
  (n, f_map f).

(** [Map::extend] (and [from_iter], over an empty map). *)
Definition extend (m : Map) (l : list (bytes * Value)) : Map :=
  f_map (foldl (λ f e, fst (filling_set f None e.1 e.2)) (with_room m (length l)) l).

(** [Lookup::new] and [Lookup::get]. *)
Definition lookup_index (m : Map) : option KeyIndex :=
  if decide (LINEAR < length m)%nat then Some (index_of m (fst (seeded_of random None))) else None.
Definition lookup_get (m : Map) (key : bytes) : option Value :=
  at_ ← (match lookup_index m with
         | Some ix => index_find ix m key
         | None => position m key
         end);
  e ← m !! at_;
  Some e.2.
End filling.

(** ** Scanning *)

Lemma find_keys {A} (Q : bytes -> Prop) `{!forall k, Decision (Q k)} (m : list (bytes * A)) :
  fst <$> list_find (λ e, Q e.1) m = fst <$> list_find Q (map fst m).
Proof.
  induction m as [|e m IH]; [done|]. simpl. destruct (decide (Q e.1)); [done|].
  destruct (list_find _ m), (list_find Q _); naive_solver.
Qed.

Lemma position_keys m k : position m k = fst <$> list_find (λ k', k' = k) (keys m).
Proof. exact (find_keys (λ k', k' = k) m). Qed.

Lemma position_Some m k i : position m k = Some i <->
  keys m !! i = Some k /\ forall j, (j < i)%nat -> keys m !! j <> Some k.
Proof.
  rewrite position_keys. split.
  - intros H. apply fmap_Some in H as ([i' k'] & H & ->). apply list_find_Some in H as (H & -> & Hj).
    split; [done|]. intros j Hlt E. by apply (Hj j k).
  - intros [H Hj]. apply fmap_Some. exists (i, k). split; [|done]. apply list_find_Some.
    split_and!; [done..|]. intros j y E Hlt ->. by apply (Hj j).
Qed.

Lemma position_None m k : position m k = None <-> k ∉ keys m.
Proof.
  rewrite position_keys, fmap_None, list_find_None, Forall_forall. naive_solver.
Qed.

Lemma position_entry m k i : position m k = Some i -> exists v, m !! i = Some (k, v).
Proof.
  intros H. apply position_Some in H as [H _]. unfold keys in H.
  change (map fst m) with (fst <$> m) in H.
  rewrite list_lookup_fmap in H. destruct (m !! i) as [[k' v]|]; [|done].
  simpl in H. injection H as ->. eauto.
Qed.

Lemma keys_put_at m i v : keys (put_at m i v) = keys m.
Proof.
  unfold keys, put_at. change (fst <$> alter (λ e, (e.1, v)) i m = fst <$> m).
  apply list_eq. intros j. rewrite !list_lookup_fmap.
  destruct (decide (i = j)) as [->|]; [|by rewrite list_lookup_alter_ne].
  rewrite list_lookup_alter_eq. by destruct (m !! j).
Qed.

Lemma contains_key_spec m k : contains_key m k = true <-> k ∈ keys m.
Proof.
  unfold contains_key. rewrite bool_decide_eq_true. destruct (position m k) eqn:E.
  - split; [|eauto]. intros _. apply position_Some in E as [E _]. by eapply list_elem_of_lookup_2.
  - apply position_None in E. split; [by intros [? ?]|done].
Qed.

(** ** The abstraction: a finite map, and an order *)

(** What a map stores under each key: the first entry under it. *)
Definition contents (m : Map) : gmap (list Z) Value := list_to_map m.

Lemma get_contents m k : get m k = contents m !! k.
Proof.
  unfold get, contents. induction m as [|[k' v] m IH]; [done|].
  unfold position. cbn [list_find]. rewrite list_to_map_cons. cbn [fst].
  destruct (decide (k' = k)) as [->|Hne].
  - cbn. by rewrite lookup_insert_eq.
  - rewrite lookup_insert_ne by done. rewrite <- IH.
    unfold position. destruct (list_find _ m) as [[i e]|]; done.
Qed.

Lemma contents_put_at m k i v : position m k = Some i ->
  contents (put_at m i v) = <[k := v]> (contents m).
Proof.
  intros H. apply map_eq. intros k2. rewrite <- get_contents. destruct (decide (k2 = k)) as [->|Hne].
  - rewrite lookup_insert_eq. unfold get.
    assert (position (put_at m i v) k = Some i) as ->.
    { rewrite position_keys, keys_put_at, <- position_keys. done. }
    destruct (position_entry _ _ _ H) as [v0 E]. cbn [mbind option_bind].
    unfold put_at. rewrite list_lookup_alter_eq, E. done.
  - rewrite lookup_insert_ne by done. rewrite <- get_contents. unfold get.
    rewrite position_keys, keys_put_at, <- position_keys.
    destruct (position m k2) as [j|] eqn:Ej; [|done]. cbn [mbind option_bind].
    unfold put_at. destruct (decide (i = j)) as [->|]; [|by rewrite list_lookup_alter_ne].
    destruct (position_entry _ _ _ H) as [v0 E]. destruct (position_entry _ _ _ Ej) as [v1 E'].
    congruence.
Qed.

Lemma contents_insert_node m k v : k ∉ keys m -> contents (insert_node m k v) = <[k := v]> (contents m).
Proof.
  intros H. unfold contents, insert_node. rewrite list_to_map_app. cbn [list_to_map foldr fst snd].
  rewrite <- insert_union_r; [by rewrite (right_id_L ∅ (∪))|].
  by apply not_elem_of_list_to_map_1.
Qed.

(** What a store does: the key's value, and the order of the keys. *)
Lemma set_contents m k v : contents (set_ m k v) = <[k := v]> (contents m).
Proof.
  unfold set_. destruct (position m k) as [i|] eqn:E; [by apply contents_put_at|].
  apply contents_insert_node. by apply position_None.
Qed.

Lemma set_keys m k v : keys (set_ m k v) = if contains_key m k then keys m else keys m ++ [k].
Proof.
  unfold set_, contains_key. destruct (position m k) as [i|]; simpl.
  - by rewrite keys_put_at.
  - unfold keys, insert_node. by rewrite map_app.
Qed.

Lemma set_fresh m k v : k ∉ keys m -> set_ m k v = m ++ [(k, v)].
Proof. intros H. unfold set_. apply position_None in H. by rewrite H. Qed.

Lemma set_nodup m k v : NoDup (keys m) -> NoDup (keys (set_ m k v)).
Proof.
  intros H. rewrite set_keys. destruct (contains_key m k) eqn:E; [done|].
  apply NoDup_app. split; [done|]. split; [|apply NoDup_singleton].
  intros x Hx Hk. apply list_elem_of_singleton in Hk as ->. apply contains_key_spec in Hx. congruence.
Qed.

(** ** The index *)

(** The index says where the first key with each hash is. *)
Definition index_ok (ix : KeyIndex) (m : Map) : Prop :=
  forall h, first ix !! h = fst <$> list_find (λ k, hash_one (ix_seeds ix) k = h) (keys m).

Lemma find_snoc (Q : bytes -> Prop) `{!forall k, Decision (Q k)} (l : list bytes) x :
  fst <$> list_find Q (l ++ [x]) =
    match fst <$> list_find Q l with
    | Some i => Some i
    | None => if decide (Q x) then Some (length l) else None
    end.
Proof.
  induction l as [|y l IH]; simpl; [by destruct (decide (Q x))|].
  destruct (decide (Q y)); [done|].
  destruct (list_find Q (l ++ [x])) as [[i z]|], (list_find Q l) as [[j w]|]; simpl in *;
    destruct (decide (Q x)); simplify_eq; done.
Qed.

Lemma index_ok_keys ix m m' : keys m' = keys m -> index_ok ix m -> index_ok ix m'.
Proof. unfold index_ok. by intros ->. Qed.

Lemma index_ok_snoc ix m k v : index_ok ix m ->
  index_ok (MkKeyIndex (ix_seeds ix) (or_insert (first ix) (hash_one (ix_seeds ix) k) (length m)))
    (insert_node m k v).
Proof.
  intros H h. unfold keys, insert_node. rewrite map_app. cbn [map fst ix_seeds first].
  rewrite (find_snoc (λ k, hash_one (ix_seeds ix) k = h)), length_map.
  change (map fst m) with (keys m). rewrite <- (H h). unfold or_insert.
  destruct (decide (hash_one (ix_seeds ix) k = h)) as [->|Hne].
  - destruct (first ix !! h) eqn:E; [done|]. by rewrite lookup_insert_eq.
  - destruct (first ix !! hash_one (ix_seeds ix) k) eqn:E; [by destruct (first ix !! h)|].
    rewrite lookup_insert_ne by done. by destruct (first ix !! h).
Qed.

Lemma index_of_ok m seeds : index_ok (index_of m seeds) m.
Proof.
  induction m as [|[k v] m IH] using rev_ind; [done|].
  pose proof (index_ok_snoc _ _ k v IH) as H. unfold index_of in *. cbn [ix_seeds first] in H.
  rewrite imap_app, foldl_app. cbn [imap foldl]. rewrite Nat.add_0_r. exact H.
Qed.

(** Whatever the hashes, the index finds what a scan finds. *)
Lemma index_find_ok ix m k : index_ok ix m -> index_find ix m k = position m k.
Proof.
  intros H. unfold index_find. rewrite (H _).
  destruct (list_find _ (keys m)) as [[i k']|] eqn:E; cbn [fmap option_fmap option_map mbind option_bind fst].
  - apply list_find_Some in E as (E & Eh & Hj).
    assert (exists v, m !! i = Some (k', v)) as [v Ev].
    { unfold keys in E. change (map fst m) with (fst <$> m) in E. rewrite list_lookup_fmap in E.
      destruct (m !! i) as [[k0 v]|]; [|done]. injection E as ->. eauto. }
    rewrite Ev. cbn [mbind option_bind fst]. case_decide as Hk; [|done]. subst k'.
    symmetry. apply position_Some. split; [done|]. intros j Hlt Ej. by apply (Hj j k).
  - symmetry. apply position_None. apply list_find_None in E. rewrite Forall_forall in E.
    intros Hk. by apply (E k).
Qed.

(** ** A map being filled *)

Definition filling_ok (f : Filling) : Prop :=
  forall ix, f_index f = Some ix -> index_ok ix (f_map f).

Lemma filling_index_ok random f drawn : filling_ok f ->
  forall ix d, filling_index random f drawn = (Some ix, d) -> index_ok ix (f_map f).
Proof.
  intros H ix d. unfold filling_index. destruct (f_index f) as [ix0|] eqn:E.
  - intros [= <- _]. by apply H.
  - case_decide; [|done]. destruct (seeded_of random drawn). intros [= <- _]. apply index_of_ok.
Qed.

Lemma filling_set_ok random f drawn k v : filling_ok f ->
  let f' := fst (filling_set random f drawn k v) in
  f_map f' = set_ (f_map f) k v /\ filling_ok f'.
Proof.
  intros Hf. unfold filling_set.
  destruct (filling_index random f drawn) as [[ix|] d] eqn:Ei; [|by split].
  pose proof (filling_index_ok _ _ _ Hf _ _ Ei) as H. pose proof (index_find_ok ix _ k H) as Hfind.
  unfold index_find in Hfind. unfold set_. cbv zeta.
  destruct (first ix !! hash_one (ix_seeds ix) k) as [at0|] eqn:Eh; cbn [fst f_map mbind option_bind] in *.
  - assert (match f_map f !! at0 with
        | Some e => if decide (e.1 = k) then Some at0 else position (f_map f) k
        | None => position (f_map f) k end = position (f_map f) k) as ->.
    { destruct (f_map f !! at0) as [e|]; [|done]. exact Hfind. }
    split; [done|]. intros ix' [= <-]. cbn [f_map]. destruct (position (f_map f) k) as [i|].
    + eapply index_ok_keys; [apply keys_put_at|done].
    + pose proof (index_ok_snoc ix _ k v H) as Hs. unfold or_insert in Hs. rewrite Eh in Hs.
      by destruct ix.
  - rewrite <- Hfind. split; [done|]. intros ix' [= <-].
    pose proof (index_ok_snoc ix _ k v H) as Hs. unfold or_insert in Hs. by rewrite Eh in Hs.
Qed.

(** ** Many stores *)

(** The stores of a list of pairs, one [set] after another. *)
Definition set_all (m : Map) (l : list (bytes * Value)) : Map := foldl (λ m e, set_ m e.1 e.2) m l.

Lemma filling_all_ok random l : forall f drawn, filling_ok f ->
  f_map (fst (filling_all random f drawn l)) = set_all (f_map f) l.
Proof.
  induction l as [|e l IH]; intros f drawn Hf; [done|].
  destruct (filling_set_ok random f drawn e.1 e.2 Hf) as [E Hf']. unfold filling_all in *.
  simpl. rewrite <- E. destruct (filling_set random f drawn e.1 e.2) as [f' d']. by apply IH.
Qed.

Lemma with_room_ok m more : filling_ok (with_room m more).
Proof. intros ix. done. Qed.

Lemma pop_last_snoc m e : pop_last (m ++ [e]) = Some (e, m).
Proof.
  unfold pop_last. rewrite last_snoc. cbn [mbind option_bind]. do 2 f_equal.
  rewrite length_app. simpl. by rewrite Nat.add_sub, take_app_length.
Qed.

Lemma absorb_from_ok random l : forall fuel f n, filling_ok f -> (length l < fuel)%nat ->
  let r := absorb_from random fuel (rev l) f n in
  fst r = (n + length l)%nat /\ f_map (snd r) = set_all (f_map f) l.
Proof.
  induction l as [|e l IH]; intros fuel f n Hf Hl; (destruct fuel as [|fuel]; [simpl in Hl; lia|]);
    [by simpl; rewrite Nat.add_0_r|].
  cbn [rev absorb_from]. rewrite pop_last_snoc.
  destruct (filling_set_ok random f None e.1 e.2 Hf) as [E Hf'].
  destruct (IH fuel (fst (filling_set random f None e.1 e.2)) (S n) Hf' ltac:(simpl in Hl; lia))
    as [E1 E2].
  split; [rewrite E1; simpl; lia|]. by rewrite E2, E.
Qed.

Lemma extend_ok random l : forall f, filling_ok f ->
  f_map (foldl (λ f e, fst (filling_set random f None e.1 e.2)) f l) = set_all (f_map f) l.
Proof.
  induction l as [|e l IH]; intros f Hf; [done|].
  destruct (filling_set_ok random f None e.1 e.2 Hf) as [E Hf']. simpl. rewrite <- E. by apply IH.
Qed.

Lemma set_all_contents l : forall m, contents (set_all m l) = list_to_map (rev l) ∪ contents m.
Proof.
  induction l as [|[k v] l IH]; intros m; [simpl; by rewrite (left_id_L ∅ (∪))|].
  cbn [set_all foldl rev]. fold (set_all (set_ m k v) l). cbn [fst snd].
  rewrite IH, set_contents. rewrite list_to_map_app, list_to_map_cons, list_to_map_nil.
  cbn [fst snd].
  rewrite <- (assoc_L (∪)). by rewrite <- insert_union_l, (left_id_L ∅ (∪)).
Qed.

Lemma set_all_nodup l : forall m, NoDup (keys m) -> NoDup (keys (set_all m l)).
Proof. induction l as [|[k v] l IH]; intros m H; [done|]. by apply IH, set_nodup. Qed.

(** A lookup and a membership test through an index are the scan's. *)
Lemma lookup_get_ok random m k : lookup_get random m k = get m k.
Proof.
  unfold lookup_get, get, lookup_index. case_decide; [|done].
  by rewrite (index_find_ok _ m k (index_of_ok m _)).
Qed.

Lemma filling_contains_ok random f k : filling_ok f -> filling_contains random f k = contains_key (f_map f) k.
Proof.
  intros Hf. unfold filling_contains, contains_key.
  destruct (filling_index random f None) as [[ix|] d] eqn:E; [|done].
  cbn [fst]. rewrite (index_find_ok ix _ k); [done|].
  exact (filling_index_ok random f None Hf ix d E).
Qed.

(** ** Removing *)

Lemma delete_middle {A} (l : list A) i x : l !! i = Some x ->
  l = take i l ++ (x :: drop (i + 1) l).
Proof. intros H. rewrite Nat.add_1_r. symmetry. by apply take_drop_middle. Qed.

Lemma remove_spec m k v m' : NoDup (keys m) ->
  remove m k = Some (v, m') ->
  exists before after, m = before ++ ((k, v) :: after) /\ m' = before ++ after /\
    (k ∉ keys m') /\ NoDup (keys m').
Proof.
  intros Hnd H. unfold remove in H. apply bind_Some in H as (i & Hi & H).
  destruct (position_entry _ _ _ Hi) as [v0 E]. rewrite E in H. cbn [mbind option_bind] in H.
  injection H as -> <-. pose proof (delete_middle _ _ _ E) as Em.
  exists (take i m), (drop (i + 1) m). split; [done|]. split; [done|].
  rewrite Em in Hnd. unfold keys in *. rewrite map_app in *. cbn [map fst] in Hnd.
  apply NoDup_app in Hnd as (H1 & H2 & H3). apply NoDup_cons in H3 as [H3 H4]. split.
  - rewrite elem_of_app. intros [H|H]; [|done]. apply (H2 k H). by left.
  - apply NoDup_app. split; [done|]. split; [|done]. intros x Hx Hx'. apply (H2 x Hx). by right.
Qed.

Lemma contents_remove before after k v : NoDup (keys (before ++ (k, v) :: after)) ->
  contents (before ++ after) = delete k (contents (before ++ (k, v) :: after)).
Proof.
  intros Hnd. unfold keys in Hnd. rewrite map_app in Hnd. cbn [map fst] in Hnd.
  apply NoDup_app in Hnd as (_ & H2 & H3). apply NoDup_cons in H3 as [H3 _].
  unfold contents. rewrite !list_to_map_app, list_to_map_cons. cbn [fst].
  rewrite delete_union, delete_insert_eq.
  rewrite (delete_id (list_to_map before)), (delete_id (list_to_map after)); [done|..].
  - by apply not_elem_of_list_to_map_1.
  - apply not_elem_of_list_to_map_1. intros Hk. apply (H2 k Hk). by left.
Qed.

Lemma drop_keys_filter m : drop_keys_not_text m =
  ((length m - length (filter (λ e, is_utf8 e.1 = true) m))%nat, filter (λ e, is_utf8 e.1 = true) m).
Proof.
  assert (Hall : forall m : list (list Z * Value), keys_are_text m = true -> filter (λ e, is_utf8 e.1 = true) m = m).
  { clear m. intros m H. apply keys_are_text_spec in H. induction H as [|e m He _ IH]; [done|].
    by rewrite filter_cons_True, IH. }
  assert (Hfold : forall (m acc : list (list Z * Value)), foldl (λ kept e, if is_utf8 e.1 then kept ++ [e] else kept) acc m =
    acc ++ filter (λ e, is_utf8 e.1 = true) m).
  { clear m Hall. induction m as [|e m IH]; intros acc; simpl; [by rewrite app_nil_r|].
    rewrite IH. destruct (is_utf8 e.1) eqn:E.
    - rewrite filter_cons_True by done. by rewrite <- app_assoc.
    - rewrite filter_cons_False by congruence. done. }
  unfold drop_keys_not_text. destruct (keys_are_text m) eqn:E.
  - rewrite (Hall m E). f_equal. lia.
  - rewrite Hfold. done.
Qed.

(** ** Properties *)

(** C16: a store is the finite map's insertion, and keeps the order: a key
    already there keeps its place, a new one goes to the end; no key is ever
    repeated; and a lookup reads what the finite map holds. *)
Theorem map_set_refines (m : Map) (k k' : bytes) (v : Value) :
  contents (set_ m k v) = <[k := v]> (contents m) /\
  keys (set_ m k v) = (if contains_key m k then keys m else keys m ++ [k]) /\
  get m k' = contents m !! k' /\
  contains_key m k' = bool_decide (is_Some (contents m !! k')) /\
  (NoDup (keys m) -> NoDup (keys (set_ m k v))).
Proof.
  split; [apply set_contents|]. split; [apply set_keys|]. split; [apply get_contents|].
  split; [|apply set_nodup]. rewrite <- get_contents. unfold contains_key, get.
  destruct (position m k') as [i|] eqn:E; [|done].
  destruct (position_entry _ _ _ E) as [w Ew]. cbn [mbind option_bind]. by rewrite Ew.
Qed.

(** Removing a key takes out exactly its entry and hands back its value,
    keeping the order of the rest: the finite map's deletion. A key not there
    leaves the map as it was. *)
Theorem map_remove_refines (m : Map) (k : bytes) (Hm : NoDup (keys m)) :
  match remove m k with
  | Some (v, m') =>
      contents m !! k = Some v /\ contents m' = delete k (contents m) /\
      discard m k = (true, m') /\ NoDup (keys m') /\
      exists before after, m = before ++ (k, v) :: after /\ m' = before ++ after
  | None => contents m !! k = None /\ discard m k = (false, m)
  end.
Proof.
  unfold discard. destruct (remove m k) as [[v m']|] eqn:E.
  - destruct (remove_spec _ _ _ _ Hm E) as (b & a & -> & -> & Hk & Hnd).
    pose proof (contents_remove b a k v Hm) as Hd. split.
    + rewrite <- get_contents. unfold remove in E. apply bind_Some in E as (i & Ei & E).
      unfold get. rewrite Ei. cbn [mbind option_bind]. apply bind_Some in E as (e & -> & E).
      by injection E as <- _.
    + split_and!; [done|done|done|]. by exists b, a.
  - split; [|done]. rewrite <- get_contents. unfold get.
    destruct (position m k) as [i|] eqn:Ei; [|done].
    destruct (position_entry _ _ _ Ei) as [v Ev].
    unfold remove in E. rewrite Ei in E. cbn [mbind option_bind] in E. by rewrite Ev in E.
Qed.

Lemma map_remove_refines_witness :
  remove [(bs "a", VNull); (bs "b", VBool true); (bs "c", VNull)] (bs "b") =
    Some (VBool true, [(bs "a", VNull); (bs "c", VNull)]) /\
  contents [(bs "a", VNull); (bs "c", VNull)] =
    delete (bs "b") (contents [(bs "a", VNull); (bs "b", VBool true); (bs "c", VNull)]).
Proof.
  split; [reflexivity|].
  refine (proj1 (proj2 (map_remove_refines
    [(bs "a", VNull); (bs "b", VBool true); (bs "c", VNull)] (bs "b") _))).
  apply (bool_decide_unpack _). vm_compute. exact I.
Defined.

(** C9: a wide map's hash index never decides an answer: whatever the seeds, and
    however many keys collide, a lookup and a membership test through it are the
    scan's, and filling a map through it is one [set] after another. *)
Theorem wide_map_is_the_map (random : Seeded) (drawn : option Seeded) (m : Map)
    (l : list (bytes * Value)) (more : nat) (k : bytes) :
  lookup_get random m k = get m k /\
  filling_contains random (with_room m more) k = contains_key m k /\
  f_map (fst (filling_all random (with_room m more) drawn l)) = set_all m l /\
  extend random m l = set_all m l /\
  absorb random m l = (length l, set_all m l).
Proof.
  split; [apply lookup_get_ok|].
  split; [apply filling_contains_ok, with_room_ok|].
  split; [apply filling_all_ok, with_room_ok|].
  split; [apply extend_ok, with_room_ok|].
  unfold absorb. pose proof (absorb_from_ok random l (S (length l)) (with_room m (length l)) 0
    (with_room_ok _ _) ltac:(lia)) as [E1 E2].
  destruct (absorb_from _ _ _ _ _) as [n f].
  cbn [fst snd] in E1, E2. by rewrite E1, E2.
Qed.

(** Filling a map with pairs, and absorbing or copying another map into it,
    give the finite map in which a later pair's value replaces an earlier one's
    and the pairs replace what was there; no key comes out repeated; and
    dropping the keys that are not text keeps exactly the others, in order. *)
Theorem map_fill_refines (random : Seeded) (m : Map) (l : list (bytes * Value)) :
  contents (extend random m l) = list_to_map (rev l) ∪ contents m /\
  contents (snd (absorb random m l)) = list_to_map (rev l) ∪ contents m /\
  (NoDup (keys m) -> NoDup (keys (snd (absorb random m l)))) /\
  snd (drop_keys_not_text m) = filter (λ e, is_utf8 e.1 = true) m /\
  fst (drop_keys_not_text m) = (length m - length (snd (drop_keys_not_text m)))%nat.
Proof.
  assert (E1 : extend random m l = set_all m l) by apply extend_ok, with_room_ok.
  assert (E2 : snd (absorb random m l) = set_all m l).
  { unfold absorb. pose proof (absorb_from_ok random l (S (length l)) (with_room m (length l)) 0
      (with_room_ok _ _) ltac:(lia)) as [_ E2]. by destruct (absorb_from _ _ _ _ _). }
  rewrite E1, E2, drop_keys_filter. split_and!; [apply set_all_contents|apply set_all_contents| |done|done].
  apply set_all_nodup.
Qed.

(** Appending to the list under a key appends there, creating the list when
    there is none, and refuses a key that holds something else; nothing else in
    the map changes. *)
Theorem map_push_into_spec (m : Map) (k : bytes) (v : Value) :
  match contents m !! k with
  | Some (VList l) => exists m', push_into m k v = Ok m' /\
      contents m' = <[k := VList (l ++ [v])]> (contents m) /\ keys m' = keys m
  | None => exists m', push_into m k v = Ok m' /\
      contents m' = <[k := VList [v]]> (contents m) /\ keys m' = keys m ++ [k]
  | Some _ => push_into m k v = Err WrongKind
  end.
Proof.
  assert (Hpush : forall m l, contents m !! k = Some (VList l) ->
    exists m', (node ← ok_or (get m k) WrongKind; l ← ok_or (as_list node) WrongKind;
      i ← ok_or (position m k) WrongKind; Ok (put_at m i (VList (l ++ [v])))) = Ok m' /\
      contents m' = <[k := VList (l ++ [v])]> (contents m) /\ keys m' = keys m).
  { clear m. intros m l Hl. rewrite <- get_contents in Hl. unfold get in Hl |- *.
    destruct (position m k) as [i|] eqn:Ei; [|done]. cbn [mbind option_bind] in Hl |- *. rewrite Hl.
    eexists. split; [reflexivity|]. split; [by apply contents_put_at|apply keys_put_at]. }
  unfold push_into. destruct (contents m !! k) as [w|] eqn:E.
  - assert (contains_key m k = true) as ->.
    { unfold contains_key. rewrite <- get_contents in E. unfold get in E.
      by destruct (position m k). }
    destruct w; try (by rewrite get_contents, E). by apply Hpush.
  - assert (contains_key m k = false) as Hc.
    { unfold contains_key. rewrite <- get_contents in E. unfold get in E.
      destruct (position m k) as [i|] eqn:Ei; [|done].
      destruct (position_entry _ _ _ Ei) as [w Ew]. cbn [mbind option_bind] in E. by rewrite Ew in E. }
    rewrite Hc. destruct (Hpush (set_ m k (VList [])) []) as (m' & E' & Em & Ek).
    { by rewrite set_contents, lookup_insert_eq. }
    exists m'. split; [exact E'|]. rewrite Em, Ek, set_contents, set_keys, Hc.
    split; [|done]. by rewrite insert_insert_eq.
Qed.
