(* ===== verification/Encode.v ===== *)
(** * A value as bytes

    The encoding half of [value/wire/mod.rs]: the loop over an explicit stack
    that writes a tree, the length it will have, and the recursive definition
    both are. *)

From S2P Require Import Prelude Errors Number Value.

(** ** LEB128 *)

(** [put_len]: at most ten bytes for a [u64]. *)
Fixpoint put_len_loop (fuel : nat) (out : bytes) (n : Z) : bytes :=
  match fuel with
  | O => out
  | S fuel =>
      let byte := Z.land n 0x7f in
      let n := Z.shiftr n 7 in
      if n =? 0 then out ++ [byte] else put_len_loop fuel (out ++ [Z.lor byte 0x80]) n
  end.
Definition put_len (out : bytes) (n : Z) : bytes := put_len_loop 10 out n.

(** [len_size]. *)
Fixpoint len_size_loop (fuel : nat) (size n : Z) : Z :=
  match fuel with
  | O => size
  | S fuel => if 0x80 <=? n then len_size_loop fuel (size + 1) (Z.shiftr n 7) else size
  end.
Definition len_size (n : Z) : Z := len_size_loop 10 1 n.

Definition len_of {A} (l : list A) : Z := Z.of_nat (length l).

(** ** Encoding *)

(** [Left]: what is left of a container being written. *)
Inductive Left : Type :=
  | Items (l : list Value)
  | Entries (m : list (bytes * Value)).

(** [node_into]: one node's tag and body; a container answers what is left of
    it. *)
Definition node_into (node : Value) (out : bytes) : result ValueError (option Left * bytes) :=
  t ← tag node;
  let out := out ++ [tag_code t] in
  match t with
  | GUATIAO_ABSENT | GUATIAO_NULL => Ok (None, out)
  | GUATIAO_BOOL =>
      b ← ok_or (as_bool node) WrongKind;
      Ok (None, out ++ [if b : bool then 1 else 0])
  | GUATIAO_NUMBER =>
      n ← ok_or (as_number node) NotANumber;
      Ok (None, put_len out (len_of n) ++ n)
  | GUATIAO_STRING =>
      s ← ok_or (as_text node) NotUtf8;
      Ok (None, put_len out (len_of s) ++ s)
  | GUATIAO_BYTES =>
      b ← ok_or (as_buffer node) WrongKind;
      Ok (None, put_len out (len_of b) ++ b)
  | GUATIAO_LIST =>
      l ← ok_or (as_list node) WrongKind;
      Ok (Some (Items l), put_len out (len_of l))
  | GUATIAO_MAP =>
      m ← ok_or (as_map node) NotUtf8;
      Ok (Some (Entries m), put_len out (len_of m))
  end.

(** The second half of a round of [encode]'s loop: the next node of the
    container on top, or the container left. *)
Definition encode_top (stack : list Left) (out : bytes) : (option Value * list Left * bytes) + bytes :=
  match stack with
  | [] => inr out
  | Items (item :: items) :: below => inl (Some item, Items items :: below, out)
  | Items [] :: below => inl (None, below, out)
  | Entries (e :: entries) :: below =>
      let out := put_len out (len_of e.1) ++ e.1 in inl (Some e.2, Entries entries :: below, out)
  | Entries [] :: below => inl (None, below, out)
  end.

(** One round: the node to write next, the containers being written, and the
    bytes so far. *)
Definition encode_step (s : option Value * list Left * bytes)
    : result ValueError ((option Value * list Left * bytes) + bytes) :=
  let '(next, stack, out) := s in
  '(stack, out) ←
    match next with
    | Some node =>
        '(opened, out) ← node_into node out;
        Ok (match opened with Some o => o :: stack | None => stack end, out)
    | None => Ok (stack, out)
    end;
  Ok (encode_top stack out).

(** [encode], and [to_bytes]. *)
Definition encode (value : Value) (out : bytes) : result ValueError bytes :=
  loop encode_step (S (vsize value)) TooDeep (Some value, [], out).
Definition to_bytes (value : Value) : result ValueError bytes := encode value [].

(** One round of [encoded_len]'s loop. *)
Definition encoded_len_step (s : Z * list Value) : result ValueError ((Z * list Value) + Z) :=
  let '(n, stack) := s in
  match stack with
  | [] => Ok (inr n)
  | node :: stack =>
      let n := n + 1 in
      t ← tag node;
      match t with
      | GUATIAO_ABSENT | GUATIAO_NULL => Ok (inl (n, stack))
      | GUATIAO_BOOL => Ok (inl (n + 1, stack))
      | GUATIAO_NUMBER =>
          t ← ok_or (as_number node) NotANumber;
          Ok (inl (n + (len_size (len_of t) + len_of t), stack))
      | GUATIAO_STRING =>
          t ← ok_or (as_text node) NotUtf8;
          Ok (inl (n + (len_size (len_of t) + len_of t), stack))
      | GUATIAO_BYTES =>
          b ← ok_or (as_buffer node) WrongKind;
          Ok (inl (n + (len_size (len_of b) + len_of b), stack))
      | GUATIAO_LIST =>
          l ← ok_or (as_list node) WrongKind;
          Ok (inl (n + len_size (len_of l), rev l ++ stack))
      | GUATIAO_MAP =>
          m ← ok_or (as_map node) NotUtf8;
          Ok (inl (foldl (λ s e, (s.1 + (len_size (len_of e.1) + len_of e.1), e.2 :: s.2))
                     (n + len_size (len_of m), stack) m))
      end
  end.

(** [encoded_len]; the stack is written from its top. *)
Definition encoded_len (value : Value) : result ValueError Z :=
  loop encoded_len_step (S (vsize value)) TooDeep (0, [value]).

(** ** The recursive definition

    What the module's grammar says of each node. *)

Definition leb (n : Z) : bytes := put_len [] n.
Definition key_wire (k : bytes) : bytes := leb (len_of k) ++ k.

Fixpoint wire (v : Value) : bytes :=
  match v with
  | VAbsent => [0]
  | VNull => [1]
  | VBool b => [2; if b then 1 else 0]
  | VNumber t => 3 :: leb (len_of t) ++ t
  | VString t => 4 :: leb (len_of t) ++ t
  | VBytes b => 5 :: leb (len_of b) ++ b
  | VList l => 6 :: leb (len_of l) ++
      (fix go l := match l with [] => [] | x :: l => wire x ++ go l end) l
  | VMap m => 7 :: leb (len_of m) ++
      (fix go m := match m with [] => [] | e :: m => (key_wire e.1 ++ wire e.2) ++ go m end) m
  | VUnknown t => []
  end.

(** What encoding refuses: the first node, in the order they are written, that
    its own door refuses. *)
Fixpoint refused (v : Value) : option ValueError :=
  match v with
  | VNumber t => if is_number t then None else Some NotANumber
  | VString t => if is_utf8 t then None else Some NotUtf8
  | VList l =>
      (fix go l := match l with
        | [] => None
        | x :: l => match refused x with Some e => Some e | None => go l end
        end) l
  | VMap m =>
      if keys_are_text m then
        (fix go m := match m with
          | [] => None
          | e :: m => match refused e.2 with Some e => Some e | None => go m end
          end) m
      else Some NotUtf8
  | VUnknown n => Some (UnknownTag (8 + Z.of_nat n))
  | _ => None
  end.

#[global] Arguments wire : simpl never.
#[global] Arguments refused : simpl never.

Lemma wire_list l : wire (VList l) = 6 :: leb (len_of l) ++ concat (map wire l).
Proof.
  unfold wire. fold wire. do 2 f_equal. induction l as [|x l IH]; [done|]. simpl. by rewrite <- IH.
Qed.

Definition entry_wire (e : bytes * Value) : bytes := key_wire e.1 ++ wire e.2.

Lemma wire_map m : wire (VMap m) = 7 :: leb (len_of m) ++ concat (map entry_wire m).
Proof.
  unfold wire. fold wire. do 2 f_equal. induction m as [|x l IH]; [done|]. simpl. by rewrite <- IH.
Qed.

Fixpoint refused_all (l : list Value) : option ValueError :=
  match l with
  | [] => None
  | x :: l => match refused x with Some e => Some e | None => refused_all l end
  end.

Lemma refused_list l : refused (VList l) = refused_all l.
Proof.
  unfold refused. fold refused. induction l as [|x l IH]; [done|]. simpl. by rewrite <- IH.
Qed.

Lemma refused_map m :
  refused (VMap m) = if keys_are_text m then refused_all (map snd m) else Some NotUtf8.
Proof.
  unfold refused. fold refused. destruct (keys_are_text m); [|done].
  induction m as [|x l IH]; [done|]. simpl. by rewrite <- IH.
Qed.

Lemma refused_all_app l l' :
  refused_all (l ++ l') = match refused_all l with Some e => Some e | None => refused_all l' end.
Proof. induction l as [|x l IH]; [done|]. simpl. by destruct (refused x). Qed.

(** ** LEB128, arithmetically *)

Lemma lor_high a b s : 0 <= a < 2 ^ s -> 0 <= s -> 0 <= b -> Z.lor a (Z.shiftl b s) = a + b * 2 ^ s.
Proof.
  intros Ha Hs Hb. rewrite <- Z.shiftl_mul_pow2 by done.
  assert (Z.land a (Z.shiftl b s) = 0) as Hl.
  { destruct (decide (a = 0)) as [->|Ha0]; [apply Z.land_0_l|].
    apply Z.bits_inj'. intros i Hi. rewrite Z.land_spec, Z.bits_0.
    destruct (decide (i < s)) as [Hlt|Hge].
    - by rewrite Z.shiftl_spec_low, andb_false_r.
    - rewrite (Z.bits_above_log2 a i), andb_false_l; [done|lia|].
      apply Z.log2_lt_pow2; [lia|].
      eapply Z.lt_le_trans; [apply Ha|]. apply Z.pow_le_mono_r; lia. }
  rewrite Z.add_nocarry_lxor by done. by rewrite Z.lxor_lor.
Qed.

Lemma leb_byte n : 0 <= n -> Z.lor (Z.land n 127) 128 = n mod 128 + 128.
Proof.
  intros Hn. change 127 with (Z.ones 7). rewrite Z.land_ones by lia. change (2 ^ 7) with 128.
  change 128 with (Z.shiftl 1 7) at 2. rewrite lor_high; dlia.
Qed.

Lemma put_len_step fuel out n : 0 <= n ->
  put_len_loop (S fuel) out n =
    if n <? 128 then out ++ [n] else put_len_loop fuel (out ++ [n mod 128 + 128]) (n / 128).
Proof.
  intros Hn. cbn [put_len_loop]. rewrite Z.shiftr_div_pow2 by lia. change (2 ^ 7) with 128.
  rewrite leb_byte by done. change 127 with (Z.ones 7). rewrite Z.land_ones by lia.
  change (2 ^ 7) with 128.
  destruct (Z.ltb_spec n 128), (Z.eqb_spec (n / 128) 0); try dlia; [|done].
  by rewrite Z.mod_small.
Qed.

Lemma put_len_acc fuel : forall out n, 0 <= n ->
  put_len_loop fuel out n = out ++ put_len_loop fuel [] n.
Proof.
  induction fuel as [|fuel IH]; intros out n Hn; [by rewrite app_nil_r|].
  rewrite !put_len_step by done. destruct (n <? 128); [done|].
  rewrite IH by dlia. rewrite (IH ([] ++ _)) by dlia. by rewrite <- app_assoc.
Qed.

Lemma put_len_fuel fuel : forall fuel' out n, 0 <= n -> n < 128 ^ Z.of_nat fuel ->
  n < 128 ^ Z.of_nat fuel' -> (0 < fuel)%nat -> (0 < fuel')%nat ->
  put_len_loop fuel out n = out ++ put_len_loop fuel' [] n.
Proof.
  induction fuel as [|fuel IH]; intros fuel' out n Hn Hf Hf' Hp Hp'; [lia|].
  destruct fuel' as [|fuel']; [lia|]. rewrite !put_len_step by done.
  destruct (Z.ltb_spec n 128); [done|].
  rewrite Nat2Z.inj_succ, Z.pow_succ_r in Hf, Hf' by lia.
  assert (0 < fuel)%nat by (destruct fuel; [simpl in Hf; lia|lia]).
  assert (0 < fuel')%nat by (destruct fuel'; [simpl in Hf'; lia|lia]).
  rewrite (IH fuel' (out ++ _)) by dlia. rewrite (put_len_acc fuel' ([] ++ _)) by dlia.
  by rewrite <- app_assoc.
Qed.

Lemma leb_unfold n : 0 <= n < 2 ^ 64 ->
  leb n = if n <? 128 then [n] else (n mod 128 + 128) :: leb (n / 128).
Proof.
  intros Hn. unfold leb, put_len. rewrite put_len_step by lia.
  destruct (Z.ltb_spec n 128); [done|]. cbn [app].
  by rewrite (put_len_fuel 9 10) by (dlia || (simpl; dlia)).
Qed.

Lemma put_len_leb out n : 0 <= n < 2 ^ 64 -> put_len out n = out ++ leb n.
Proof. intros Hn. unfold leb, put_len. apply put_len_fuel; simpl; lia. Qed.

(** Induction along the bytes of a number. *)
Lemma leb_ind (P : Z -> Prop) :
  (forall n, 0 <= n < 128 -> P n) -> (forall n, 128 <= n < 2 ^ 64 -> P (n / 128) -> P n) ->
  forall n, 0 <= n < 2 ^ 64 -> P n.
Proof.
  intros H1 H2 n Hn. pose proof Hn as [H0 _]. revert n H0 Hn.
  apply (Z_lt_induction (λ n, 0 <= n < 2 ^ 64 -> P n)).
  intros n IH Hn. destruct (Z.ltb_spec n 128); [apply H1; lia|]. apply H2; [lia|].
  apply IH; dlia.
Qed.

Lemma len_size_acc fuel : forall size n, len_size_loop fuel size n = size + len_size_loop fuel 0 n.
Proof.
  induction fuel as [|fuel IH]; intros size n; simpl; [lia|].
  destruct (128 <=? n); [|lia]. rewrite IH, (IH 1). lia.
Qed.

Lemma len_size_leb n : 0 <= n < 2 ^ 64 -> len_size n = len_of (leb n).
Proof.
  unfold len_size. intros Hn. assert (Hf : n < 128 ^ Z.of_nat 10) by (simpl; lia).
  revert Hf. generalize 10%nat as fuel. revert n Hn.
  apply (leb_ind (λ n, forall fuel, n < 128 ^ Z.of_nat fuel -> len_size_loop fuel 1 n = len_of (leb n))).
  - intros n Hn fuel _. rewrite leb_unfold by lia. rewrite (proj2 (Z.ltb_lt n 128)) by lia.
    destruct fuel as [|fuel]; [done|]. simpl. by rewrite (proj2 (Z.leb_gt 128 n)) by lia.
  - intros n Hn IH fuel Hf. rewrite leb_unfold by lia. rewrite (proj2 (Z.ltb_ge n 128)) by lia.
    destruct fuel as [|fuel]; [simpl in Hf; lia|]. cbn [len_size_loop].
    rewrite (proj2 (Z.leb_le 128 n)) by lia. rewrite Z.shiftr_div_pow2 by lia. change (2 ^ 7) with 128.
    rewrite Nat2Z.inj_succ, Z.pow_succ_r in Hf by lia.
    specialize (IH fuel ltac:(dlia)). rewrite len_size_acc. rewrite len_size_acc in IH.
    unfold len_of in *. cbn [length]. lia.
Qed.

(** ** The loop is the recursive definition *)

(** What is left to write, written. *)
Definition enc (v : Value) (out : bytes) : result ValueError bytes :=
  match refused v with Some e => Err e | None => Ok (out ++ wire v) end.
Fixpoint enc_items (l : list Value) (out : bytes) : result ValueError bytes :=
  match l with [] => Ok out | x :: l => out ← enc x out; enc_items l out end.
Fixpoint enc_entries (m : list (bytes * Value)) (out : bytes) : result ValueError bytes :=
  match m with
  | [] => Ok out
  | e :: m => out ← enc e.2 (put_len out (len_of e.1) ++ e.1); enc_entries m out
  end.
Definition enc_left (l : Left) (out : bytes) : result ValueError bytes :=
  match l with Items l => enc_items l out | Entries m => enc_entries m out end.
Fixpoint enc_stack (stack : list Left) (out : bytes) : result ValueError bytes :=
  match stack with [] => Ok out | l :: stack => out ← enc_left l out; enc_stack stack out end.
Definition enc_state (s : option Value * list Left * bytes) : result ValueError bytes :=
  let '(next, stack, out) := s in
  out ← (match next with Some v => enc v out | None => Ok out end); enc_stack stack out.

(** Lengths of what a tree holds fit their [u64]. *)
Fixpoint lengths_fit (v : Value) : Prop :=
  match v with
  | VNumber t | VString t | VBytes t => fits t
  | VList l => fits l /\ (fix go l := match l with [] => True | x :: l => lengths_fit x /\ go l end) l
  | VMap m => fits m /\
      (fix go m := match m with [] => True | e :: m => (fits e.1 /\ lengths_fit e.2) /\ go m end) m
  | _ => True
  end.

Lemma lengths_fit_list l : lengths_fit (VList l) <-> fits l /\ Forall lengths_fit l.
Proof.
  simpl. apply and_iff_compat_l. induction l as [|x l IH]; [by split; [constructor|]|].
  by rewrite Forall_cons_iff, IH.
Qed.

Lemma lengths_fit_map m :
  lengths_fit (VMap m) <-> fits m /\ Forall (λ e, fits e.1 /\ lengths_fit e.2) m.
Proof.
  simpl. apply and_iff_compat_l. induction m as [|x l IH]; [by split; [constructor|]|].
  by rewrite Forall_cons_iff, IH.
Qed.

#[global] Arguments lengths_fit : simpl never.

Lemma wf_lengths_fit v : value_wf v -> lengths_fit v.
Proof.
  induction v as [| | | | | |l IH|m IH|] using value_ind'; try (unfold value_wf, lengths_fit; tauto).
  - rewrite value_wf_list, lengths_fit_list. intros [Hl H]. split; [done|].
    eapply Forall_impl; [exact (proj2 (Forall_and _ l) (conj IH H))|]. naive_solver.
  - rewrite value_wf_map, lengths_fit_map. intros (Hl & _ & H). split; [done|].
    eapply Forall_impl; [exact (proj2 (Forall_and _ m) (conj IH H))|].
    intros e [He (? & ? & ?)]. auto.
Qed.

Lemma fits_len {A} (l : list A) : fits l -> 0 <= len_of l < 2 ^ 64.
Proof. unfold fits, len_of, usize_max, u64_max. lia. Qed.

Lemma put_len_fits {A} out (l : list A) : fits l -> put_len out (len_of l) = out ++ leb (len_of l).
Proof. intros. by apply put_len_leb, fits_len. Qed.

Lemma enc_items_spec l : forall out, enc_items l out =
  match refused_all l with Some e => Err e | None => Ok (out ++ concat (map wire l)) end.
Proof.
  induction l as [|x l IH]; intros out; simpl; [by rewrite app_nil_r|].
  unfold enc. destruct (refused x); [done|]. cbn [mbind result_bind]. rewrite IH.
  destruct (refused_all l); [done|]. by rewrite app_assoc.
Qed.

Lemma enc_entries_spec m : forall out, Forall (λ e, fits e.1) m -> enc_entries m out =
  match refused_all (map snd m) with
  | Some e => Err e | None => Ok (out ++ concat (map entry_wire m)) end.
Proof.
  induction m as [|e m IH]; intros out Hm; simpl; [by rewrite app_nil_r|].
  apply Forall_cons_iff in Hm as [He Hm]. unfold enc. destruct (refused e.2); [done|].
  cbn [mbind result_bind]. rewrite IH by done. destruct (refused_all _); [done|].
  rewrite put_len_fits by done. unfold entry_wire, key_wire. by rewrite <- !app_assoc.
Qed.

(** A node's head, and what its body then is. *)
Lemma node_into_enc v out : lengths_fit v ->
  match node_into v out with
  | Err e => enc v out = Err e
  | Ok (None, out') => enc v out = Ok out'
  | Ok (Some l, out') => enc v out = enc_left l out'
  end.
Proof.
  intros Hf. destruct v as [| |b|t|t|t|l|m|n]; unfold node_into, enc.
  - done.
  - done.
  - change (tag (VBool b)) with (@Ok ValueError _ GUATIAO_BOOL). cbn. rewrite <- app_assoc. by destruct b.
  - change (tag (VNumber t)) with (@Ok ValueError _ GUATIAO_NUMBER).
    cbn [mbind result_bind as_number tag_code]. unfold refused. destruct (is_number t); [|done].
    cbn [ok_or mbind result_bind]. rewrite put_len_fits by done. unfold wire. by rewrite <- !app_assoc.
  - change (tag (VString t)) with (@Ok ValueError _ GUATIAO_STRING).
    cbn [mbind result_bind as_text tag_code]. unfold refused. destruct (is_utf8 t); [|done].
    cbn [ok_or mbind result_bind]. rewrite put_len_fits by done. unfold wire. by rewrite <- !app_assoc.
  - change (tag (VBytes t)) with (@Ok ValueError _ GUATIAO_BYTES).
    cbn [mbind result_bind as_buffer tag_code ok_or].
    rewrite put_len_fits by done. unfold wire. by rewrite <- !app_assoc.
  - change (tag (VList l)) with (@Ok ValueError _ GUATIAO_LIST).
    cbn [mbind result_bind as_list tag_code ok_or enc_left]. apply lengths_fit_list in Hf as [Hl _].
    rewrite enc_items_spec, refused_list, wire_list, put_len_fits by done.
    destruct (refused_all l); [done|]. by rewrite <- !app_assoc.
  - change (tag (VMap m)) with (@Ok ValueError _ GUATIAO_MAP).
    cbn [mbind result_bind as_map tag_code]. apply lengths_fit_map in Hf as [Hl Hf].
    rewrite refused_map. destruct (keys_are_text m); [|done]. cbn [ok_or mbind result_bind enc_left].
    rewrite enc_entries_spec; [|by eapply Forall_impl; [exact Hf|]; intros ? []].
    rewrite wire_map, put_len_fits by done.
    destruct (refused_all (map snd m)); [done|]. by rewrite <- !app_assoc.
  - by rewrite tag_unknown.
Qed.

Definition left_fits (l : Left) : Prop :=
  match l with
  | Items l => Forall lengths_fit l
  | Entries m => Forall (λ e, fits e.1 /\ lengths_fit e.2) m
  end.
Definition enc_inv (s : option Value * list Left * bytes) : Prop :=
  let '(next, stack, _) := s in
  match next with Some v => lengths_fit v | None => True end /\ Forall left_fits stack.
Definition left_size (l : Left) : nat :=
  match l with Items l => S (items_size l) | Entries m => S (items_size (map snd m)) end.
Definition enc_left_size (s : option Value * list Left * bytes) : nat :=
  let '(next, stack, _) := s in
  (match next with Some v => vsize v | None => 1 end + sum_list_with left_size stack)%nat.

Lemma node_into_left v out l out' : lengths_fit v -> node_into v out = Ok (Some l, out') ->
  left_fits l /\ vsize v = S (left_size l).
Proof.
  intros Hf H. unfold node_into in H. destruct v as [| |b|s|s|s|items|m|n].
  - discriminate H.
  - discriminate H.
  - change (tag (VBool b)) with (@Ok ValueError _ GUATIAO_BOOL) in H. by cbn in H.
  - change (tag (VNumber s)) with (@Ok ValueError _ GUATIAO_NUMBER) in H.
    cbn [mbind result_bind as_number] in H. by destruct (is_number s).
  - change (tag (VString s)) with (@Ok ValueError _ GUATIAO_STRING) in H.
    cbn [mbind result_bind as_text] in H. by destruct (is_utf8 s).
  - change (tag (VBytes s)) with (@Ok ValueError _ GUATIAO_BYTES) in H.
    by cbn [mbind result_bind as_buffer ok_or] in H.
  - change (tag (VList items)) with (@Ok ValueError _ GUATIAO_LIST) in H.
    cbn [mbind result_bind as_list ok_or] in H. injection H as <- <-.
    apply lengths_fit_list in Hf as [_ Hf]. split; [done|]. by rewrite vsize_list.
  - change (tag (VMap m)) with (@Ok ValueError _ GUATIAO_MAP) in H.
    cbn [mbind result_bind as_map] in H. destruct (keys_are_text m); [|done].
    cbn [mbind result_bind ok_or] in H. injection H as <- <-.
    apply lengths_fit_map in Hf as [_ Hf]. split; [done|]. by rewrite vsize_map.
  - by rewrite tag_unknown in H.
Qed.

Lemma left_size_items x l : left_size (Items (x :: l)) = (vsize x + left_size (Items l))%nat.
Proof. unfold left_size, items_size. simpl. lia. Qed.
Lemma left_size_entries e m : left_size (Entries (e :: m)) = (vsize e.2 + left_size (Entries m))%nat.
Proof. unfold left_size, items_size. simpl. lia. Qed.

Lemma encode_top_spec stack out : Forall left_fits stack ->
  match encode_top stack out with
  | inl s' => enc_inv s' /\ (enc_left_size s' <= sum_list_with left_size stack)%nat /\
      enc_stack stack out = enc_state s'
  | inr out' => enc_stack stack out = Ok out'
  end.
Proof.
  destruct stack as [|[[|x l]|[|e m]] below]; intros Hs; [done| | | |];
    apply Forall_cons_iff in Hs as [H Hs]; cbn [encode_top].
  - split; [done|]. split; [simpl; lia|done].
  - cbn in H. apply Forall_cons_iff in H as [Hx H]. split; [split; [done|by constructor]|].
    split; [|simpl; by destruct (enc x out)].
    cbn [enc_left_size sum_list_with]. rewrite left_size_items. pose proof (vsize_pos x). simpl. lia.
  - split; [done|]. split; [simpl; lia|done].
  - cbn in H. apply Forall_cons_iff in H as [[_ Hx] H]. split; [split; [done|by constructor]|].
    split; [|simpl; by destruct (enc e.2 _)].
    cbn [enc_left_size sum_list_with]. rewrite left_size_entries. pose proof (vsize_pos e.2). simpl. lia.
Qed.

(** A round writes what it leaves unsaid, and leaves less. *)
Lemma encode_step_spec s : enc_inv s ->
  match encode_step s with
  | Ok (inl s') => enc_inv s' /\ (enc_left_size s' < enc_left_size s)%nat /\ enc_state s = enc_state s'
  | Ok (inr out) => enc_state s = Ok out
  | Err e => enc_state s = Err e
  end.
Proof.
  destruct s as [[next stack] out]. intros [Hn Hs]. unfold encode_step.
  cbn [enc_state enc_left_size]. destruct next as [v|].
  - pose proof (node_into_enc v out Hn) as Hv. pose proof (node_into_left v out) as Hl.
    pose proof (vsize_pos v).
    destruct (node_into v out) as [[[l|] out']|e] eqn:Ev; cbn [mbind result_bind]; rewrite Hv; [| |done].
    + destruct (Hl l out' Hn eq_refl) as [Hlf Hsz].
      pose proof (encode_top_spec (l :: stack) out' ltac:(by constructor)) as Ht.
      destruct (encode_top (l :: stack) out') as [s'|]; [|exact Ht].
      destruct Ht as (H1 & H2 & H3). split; [done|]. split; [cbn [sum_list_with] in H2; lia|exact H3].
    + pose proof (encode_top_spec stack out' Hs) as Ht. cbn [mbind result_bind].
      destruct (encode_top stack out') as [s'|]; [|exact Ht].
      destruct Ht as (H1 & H2 & H3). split; [done|]. split; [lia|exact H3].
  - pose proof (encode_top_spec stack out Hs) as Ht. cbn [mbind result_bind].
    destruct (encode_top stack out) as [s'|]; [|exact Ht].
    destruct Ht as (H1 & H2 & H3). split; [done|]. split; [lia|exact H3].
Qed.

Lemma encode_loop fuel : forall s, enc_inv s -> (enc_left_size s < fuel)%nat ->
  loop encode_step fuel TooDeep s = enc_state s.
Proof.
  induction fuel as [|fuel IH]; intros s Hs Hf; [lia|]. simpl.
  pose proof (encode_step_spec s Hs) as H. destruct (encode_step s) as [[s'|out]|e]; [|done..].
  destruct H as (H1 & H2 & ->). apply IH; [done|lia].
Qed.

Lemma encode_enc v out : lengths_fit v -> encode v out = enc v out.
Proof.
  intros Hv. unfold encode. rewrite encode_loop; [|by split|simpl; lia].
  simpl. by destruct (enc v out).
Qed.

(** ** The length *)

Fixpoint total_len (l : list Value) : Z := match l with [] => 0 | x :: l => len_of (wire x) + total_len l end.

Lemma total_len_app l l' : total_len (l ++ l') = total_len l + total_len l'.
Proof. induction l as [|x l IH]; simpl; [done|]. rewrite IH. lia. Qed.
Lemma total_len_rev l : total_len (rev l) = total_len l.
Proof. induction l as [|x l IH]; simpl; [done|]. rewrite total_len_app, IH. simpl. lia. Qed.
Lemma total_len_concat l : total_len l = len_of (concat (map wire l)).
Proof.
  induction l as [|x l IH]; [done|]. simpl. unfold len_of in *. rewrite length_app, IH. lia.
Qed.

Lemma refused_all_None l : refused_all l = None <-> Forall (λ v, refused v = None) l.
Proof.
  induction l as [|x l IH]; simpl; [by split|]. rewrite Forall_cons_iff, <- IH.
  destruct (refused x); naive_solver.
Qed.

(** The entries of a map, pushed and their keys counted. *)
Lemma push_entries (m : list (bytes * Value)) : forall n stack,
  foldl (λ s e, (s.1 + (len_size (len_of e.1) + len_of e.1), e.2 :: s.2)) (n, stack) m =
    (n + foldr (λ e acc, len_size (len_of e.1) + len_of e.1 + acc) 0 m, rev (map snd m) ++ stack).
Proof.
  induction m as [|e m IH]; intros n stack; simpl; [f_equal; lia|].
  rewrite IH. f_equal; [lia|]. by rewrite <- app_assoc.
Qed.

Lemma entries_len (m : list (bytes * Value)) : Forall (λ e, fits e.1) m ->
  foldr (λ e acc, len_size (len_of e.1) + len_of e.1 + acc) 0 m + total_len (map snd m) =
    len_of (concat (map entry_wire m)).
Proof.
  induction m as [|e m IH]; intros Hm; [done|]. apply Forall_cons_iff in Hm as [He Hm]. simpl.
  rewrite len_size_leb by (by apply fits_len). specialize (IH Hm).
  unfold entry_wire at 1, key_wire. unfold len_of in *. rewrite !length_app. lia.
Qed.

Definition len_inv (s : Z * list Value) : Prop := Forall lengths_fit s.2.
Definition len_left (s : Z * list Value) : nat := items_size s.2.
Definition len_ok (s : Z * list Value) : Prop := Forall (λ v, refused v = None) s.2.

Lemma items_size_cons x l : items_size (x :: l) = (vsize x + items_size l)%nat.
Proof. done. Qed.
Lemma items_size_app l l' : items_size (l ++ l') = (items_size l + items_size l')%nat.
Proof. unfold items_size. induction l as [|x l IH]; simpl; [done|]. lia. Qed.
Lemma items_size_rev l : items_size (rev l) = items_size l.
Proof.
  induction l as [|x l IH]; [done|]. cbn [rev]. rewrite items_size_app, IH. unfold items_size. simpl. lia.
Qed.
Lemma Forall_rev_iff {A} (P : A -> Prop) l : Forall P (rev l) <-> Forall P l.
Proof.
  split; intros H; [rewrite <- (rev_involutive l)|]; by apply List.Forall_rev.
Qed.

Lemma refused_entries m : keys_are_text m = true ->
  refused (VMap m) = None <-> Forall (λ v, refused v = None) (map snd m).
Proof. intros H. by rewrite refused_map, H, refused_all_None. Qed.

(** A round counts what it takes off the stack, and refuses only what encoding
    refuses. *)
Lemma encoded_len_step_spec s : len_inv s ->
  match encoded_len_step s with
  | Ok (inl s') => len_inv s' /\ (len_left s' < len_left s)%nat /\ (len_ok s <-> len_ok s') /\
      s.1 + total_len s.2 = s'.1 + total_len s'.2
  | Ok (inr n) => len_ok s /\ n = s.1 + total_len s.2
  | Err e => ~ len_ok s
  end.
Proof.
  destruct s as [n [|v stack]]; [intros _; split; [constructor|simpl; lia]|].
  intros H. unfold len_inv in H. cbn [snd] in H. apply Forall_cons_iff in H as [Hv Hs].
  unfold encoded_len_step, len_inv, len_left, len_ok. cbn [fst snd].
  assert (Hleaf : forall n', refused v = None -> n' = n + len_of (wire v) -> vsize v = 1%nat ->
    Forall lengths_fit stack /\ (items_size stack < items_size (v :: stack))%nat /\
    (Forall (λ v, refused v = None) (v :: stack) <-> Forall (λ v, refused v = None) stack) /\
    n + total_len (v :: stack) = n' + total_len stack).
  { intros n' Hr Hk Hz. split; [done|]. unfold items_size. simpl. rewrite Hz, Forall_cons_iff.
    split; [lia|]. split; [tauto|]. lia. }
  assert (Hbad : forall e, refused v = Some e -> ~ Forall (λ v, refused v = None) (v :: stack)).
  { intros e He Hf. apply Forall_cons_iff in Hf as [Hf _]. congruence. }
  destruct v as [| |b|t|t|t|l|m|k].
  - change (tag VAbsent) with (@Ok ValueError _ GUATIAO_ABSENT). by apply (Hleaf (n + 1)).
  - change (tag VNull) with (@Ok ValueError _ GUATIAO_NULL). by apply (Hleaf (n + 1)).
  - change (tag (VBool b)) with (@Ok ValueError _ GUATIAO_BOOL).
    apply (Hleaf (n + 1 + 1)); [done| |done]. unfold wire, len_of. simpl. lia.
  - change (tag (VNumber t)) with (@Ok ValueError _ GUATIAO_NUMBER).
    cbn [mbind result_bind as_number]. destruct (is_number t) eqn:E; cbn [ok_or mbind result_bind].
    + apply (Hleaf (n + 1 + (len_size (len_of t) + len_of t))); [by unfold refused; rewrite E| |done]. rewrite len_size_leb by by apply fits_len.
      unfold wire, len_of. cbn [length]. rewrite length_app. lia.
    + apply (Hbad NotANumber). unfold refused. by rewrite E.
  - change (tag (VString t)) with (@Ok ValueError _ GUATIAO_STRING).
    cbn [mbind result_bind as_text]. destruct (is_utf8 t) eqn:E; cbn [ok_or mbind result_bind].
    + apply (Hleaf (n + 1 + (len_size (len_of t) + len_of t))); [by unfold refused; rewrite E| |done]. rewrite len_size_leb by by apply fits_len.
      unfold wire, len_of. cbn [length]. rewrite length_app. lia.
    + apply (Hbad NotUtf8). unfold refused. by rewrite E.
  - change (tag (VBytes t)) with (@Ok ValueError _ GUATIAO_BYTES).
    cbn [mbind result_bind as_buffer ok_or].
    apply (Hleaf (n + 1 + (len_size (len_of t) + len_of t))); [done| |done]. rewrite len_size_leb by by apply fits_len.
    unfold wire, len_of. cbn [length]. rewrite length_app. lia.
  - change (tag (VList l)) with (@Ok ValueError _ GUATIAO_LIST).
    cbn [mbind result_bind as_list ok_or fst snd]. apply lengths_fit_list in Hv as [Hl Hf].
    split; [apply Forall_app; by rewrite Forall_rev_iff|].
    split; [rewrite items_size_app, items_size_rev, items_size_cons, vsize_list; lia|].
    split; [rewrite Forall_app, Forall_rev_iff, Forall_cons_iff, refused_list, refused_all_None; tauto|].
    rewrite total_len_app, total_len_rev, len_size_leb by by apply fits_len.
    cbn [total_len]. rewrite wire_list, (total_len_concat l). unfold len_of. cbn [length].
    rewrite length_app. lia.
  - change (tag (VMap m)) with (@Ok ValueError _ GUATIAO_MAP).
    cbn [mbind result_bind as_map]. apply lengths_fit_map in Hv as [Hl Hf].
    destruct (keys_are_text m) eqn:Ek; cbn [ok_or mbind result_bind].
    2: { apply (Hbad NotUtf8). by rewrite refused_map, Ek. }
    rewrite push_entries. cbn [fst snd].
    assert (Hf1 : Forall (λ e, fits e.1) m) by (eapply Forall_impl; [exact Hf|]; intros ? []; done).
    assert (Hf2 : Forall lengths_fit (map snd m)).
    { apply Forall_map. eapply Forall_impl; [exact Hf|]. by intros ? []. }
    split; [apply Forall_app; by rewrite Forall_rev_iff|].
    split; [rewrite items_size_app, items_size_rev, items_size_cons, vsize_map; lia|].
    split; [rewrite Forall_app, Forall_rev_iff, Forall_cons_iff, refused_entries by done; tauto|].
    rewrite total_len_app, total_len_rev, len_size_leb by by apply fits_len.
    cbn [total_len]. rewrite wire_map. pose proof (entries_len m Hf1) as E.
    unfold len_of in *. cbn [length]. rewrite length_app. lia.
  - rewrite tag_unknown. apply (Hbad (UnknownTag (8 + Z.of_nat k))). done.
Qed.

Lemma encoded_len_loop fuel : forall s, len_inv s -> (len_left s < fuel)%nat ->
  match loop encoded_len_step fuel TooDeep s with
  | Ok n => len_ok s /\ n = s.1 + total_len s.2
  | Err e => ~ len_ok s
  end.
Proof.
  induction fuel as [|fuel IH]; intros s Hs Hf; [lia|]. simpl.
  pose proof (encoded_len_step_spec s Hs) as H. destruct (encoded_len_step s) as [[s'|n]|e]; [|done..].
  destruct H as (H1 & H2 & H3 & H4). specialize (IH s' H1 ltac:(lia)).
  destruct (loop _ _ _ _); [|tauto]. destruct IH as [IH ->]. split; [tauto|lia].
Qed.

Lemma encoded_len_spec v : lengths_fit v ->
  match refused v with
  | None => encoded_len v = Ok (len_of (wire v))
  | Some _ => exists e, encoded_len v = Err e
  end.
Proof.
  intros Hv. unfold encoded_len.
  pose proof (encoded_len_loop (S (vsize v)) (0, [v]) ltac:(by constructor)) as H.
  unfold len_left, len_ok in H. cbn [fst snd] in H. specialize (H ltac:(unfold items_size; simpl; lia)).
  destruct (loop _ _ _ _) as [n|e].
  - destruct H as [H ->]. apply Forall_cons_iff in H as [H _]. rewrite H. f_equal. simpl. lia.
  - destruct (refused v) eqn:E; [eauto|]. exfalso. apply H. by apply Forall_singleton.
Qed.

(** ** Properties *)

(** The loop over an explicit stack is the recursive encoding the module's
    grammar describes: it appends exactly the tree's bytes, or refuses with what
    the first node its own door refuses is refused for, whatever the depth; and
    the length computed first is the length written. *)
Theorem encode_is_wire (v : Value) (out : bytes) (Hv : lengths_fit v) :
  encode v out = match refused v with Some e => Err e | None => Ok (out ++ wire v) end /\
  (refused v = None -> encoded_len v = Ok (len_of (wire v))) /\
  (forall n, encoded_len v = Ok n -> refused v = None).
Proof.
  split; [by apply encode_enc|]. pose proof (encoded_len_spec v Hv) as H.
  split; [by intros E; rewrite E in H|]. intros n Hn. destruct (refused v); [|done].
  destruct H as [e He]. congruence.
Qed.

Lemma encode_is_wire_witness :
  let v := VMap [(bs "n", VNumber (bs "1.10")); (bs "l", VList [VNull; VBool true])] in
  to_bytes v = Ok [7; 2; 1; 110; 3; 4; 49; 46; 49; 48; 1; 108; 6; 2; 1; 2; 1] /\
  encoded_len v = Ok 17.
Proof.
  set (v := VMap _). cbv zeta. assert (Hv : lengths_fit v).
  { apply lengths_fit_map. split; [vm_compute; discriminate|].
    repeat (apply Forall_cons_iff; split; [split; [vm_compute; discriminate|]|]); [..|constructor].
    - vm_compute. discriminate.
    - apply lengths_fit_list. split; [vm_compute; discriminate|]. by repeat constructor. }
  split.
  - apply (proj1 (encode_is_wire v [] Hv)).
  - apply (proj1 (proj2 (encode_is_wire v [] Hv))). vm_compute. reflexivity.
Defined.
