(* ===== verification/Decode.v ===== *)
(** * Bytes as a value

    The decoding half of [value/wire/mod.rs]: the reader, the loop over the
    containers being built, and the keys of a wide map told apart by their
    hashes. Decoding is given an allocator that does not refuse. *)

From S2P Require Import Prelude Errors SchemaErrors Number Value Keys Maps Encode.

(** [WireError]; [Nested] is its [TooDeep]. What a schema or a type refuses a
    value for is not carried. *)
Inductive WireError : Type :=
  | Truncated (at_ : nat)
  | BadTag (at_ : nat) (tag : Z)
  | Overlong (at_ : nat)
  | BadText (at_ : nat)
  | BadNumber (at_ : nat)
  | NotABool (at_ : nat) (byte : Z)
  | RepeatedKey (at_ : nat)
  | Trailing (at_ : nat)
  | Alloc (at_ : nat) (error : ValueError)
  | UnknownFrame (at_ : nat) (kind : Z)
  | NoSchema (channel : Z)
  | NotASchema (channel : Z)
  | Invalid (channel : Z) (error : ValidationError)
  | Nested (at_ : nat)
  | Refused.

#[export] Instance WireError_eq_dec : EqDecision WireError.
Proof. solve_decision. Defined.

(** ** The reader *)

Record WireReader := MkWireReader { wbytes : bytes; at_ : nat; base : nat }.

Definition offset (r : WireReader) : nat := (base r + at_ r)%nat.
Definition wrest (r : WireReader) : bytes := drop (at_ r) (wbytes r).
Definition wadv (n : nat) (r : WireReader) : WireReader := MkWireReader (wbytes r) (at_ r + n) (base r).
Definition remaining (r : WireReader) : Z := Z.of_nat (length (wbytes r) - at_ r).

(** [Reader::byte]. *)
Definition byte_ (r : WireReader) : result (fault WireError) (Z * WireReader) :=
  match wbytes r !! at_ r with
  | Some b => Ok (b, wadv 1 r)
  | None => Err (Refuse (Truncated (offset r)))
  end.

(** [Reader::leb]'s loop over the bytes, in [u64] arithmetic: [start] is the
    length's own offset, [k] how many bytes were read. *)
Fixpoint leb_loop (l : bytes) (start : nat) (n shift : Z) (k : nat) : result (fault WireError) (Z * nat) :=
  match l with
  | [] => Err (Refuse (Truncated (start + k)))
  | byte :: l =>
      let bits := Z.land byte 0x7f in
      if (shift =? 63) && (1 <? bits) || (63 <? shift) then Err (Refuse (Overlong start))
      else
        let n := Z.lor n (wrap64 (Z.shiftl bits shift)) in
        if Z.land byte 0x80 =? 0 then
          if (byte =? 0) && (0 <? shift) then Err (Refuse (Overlong start)) else Ok (n, S k)
        else leb_loop l start n (shift + 7) (S k)
  end.
Definition read_leb (r : WireReader) : result (fault WireError) (Z * WireReader) :=
  '(n, k) ← leb_loop (wrest r) (offset r) 0 0 0; Ok (n, wadv k r).

(** [Reader::len] and [Reader::count]. *)
Definition read_len (r : WireReader) : result (fault WireError) (Z * WireReader) :=
  '(n, r) ← read_leb r;
  if remaining r <? n then Err (Refuse (Truncated (offset r))) else Ok (n, r).
Definition read_count (r : WireReader) : result (fault WireError) (Z * WireReader) :=
  '(n, r) ← read_leb r;
  if remaining r <? n then Err (Refuse (Truncated (offset r))) else Ok (n, r).

(** [Reader::slice] and [Reader::text]. *)
Definition read_slice (r : WireReader) : result (fault WireError) (bytes * WireReader) :=
  '(n, r) ← read_len r;
  let n := Z.to_nat n in
  Ok (take n (wrest r), wadv n r).
Definition read_text (r : WireReader) : result (fault WireError) (bytes * WireReader) :=
  let start := offset r in
  '(s, r) ← read_slice r;
  if is_utf8 s then Ok (s, r) else Err (Refuse (BadText start)).

(** [Node]: a finished leaf, or a container with how many it holds. *)
Inductive Node : Type :=
  | Leaf (v : Value)
  | NList (count : Z)
  | NMap (count : Z).

(** [Reader::node]. *)
Definition read_node (r : WireReader) : result (fault WireError) (Node * WireReader) :=
  let start := offset r in
  '(tag, r) ← byte_ r;
  match tag_try_from tag with
  | Ok GUATIAO_ABSENT => Ok (Leaf VAbsent, r)
  | Ok GUATIAO_NULL => Ok (Leaf VNull, r)
  | Ok GUATIAO_BOOL =>
      let start := offset r in
      '(b, r) ← byte_ r;
      if b =? 0 then Ok (Leaf (VBool false), r)
      else if b =? 1 then Ok (Leaf (VBool true), r)
      else Err (Refuse (NotABool start b))
  | Ok GUATIAO_NUMBER =>
      let body := offset r in
      '(t, r) ← read_text r;
      if is_number t then Ok (Leaf (VNumber t), r) else Err (Refuse (BadNumber body))
  | Ok GUATIAO_STRING => '(t, r) ← read_text r; Ok (Leaf (VString t), r)
  | Ok GUATIAO_BYTES => '(b, r) ← read_slice r; Ok (Leaf (VBytes b), r)
  | Ok GUATIAO_LIST => '(n, r) ← read_count r; Ok (NList n, r)
  | Ok GUATIAO_MAP => '(n, r) ← read_count r; Ok (NMap n, r)
  | Err _ => Err (Refuse (BadTag start tag))
  end.

(** ** The loop *)

(** [Frame]: a container being built. *)
Inductive Frame : Type :=
  | FList (list : list Value) (left_ : Z)
  | FMap (map : list (bytes * Value)) (left_ : Z) (key : option (bytes * nat)) (seen : option KeySet).

(** [Frame::left_] and [Frame::into_value]. *)
Definition frame_left (f : Frame) : Z := match f with FList _ n | FMap _ n _ _ => n end.
Definition into_value (f : Frame) : Value :=
  match f with FList l _ => VList l | FMap m _ _ _ => VMap m end.

(** The reader, the containers being built (the innermost first), and the seeds
    drawn so far. *)
Definition DecodeState : Type := WireReader * list Frame * option Seeded.

(** A finished value put where it belongs: the answer, or the container on
    top. *)
Definition deliver (value : Value) (r : WireReader) (stack : list Frame) (seeds : option Seeded)
    : result (fault WireError) (DecodeState + Value) :=
  match stack with
  | [] => if decide (at_ r <> length (wbytes r)) then Err (Refuse (Trailing (offset r))) else Ok (inr value)
  | FList l left_ :: below => Ok (inl (r, FList (l ++ [value]) (left_ - 1) :: below, seeds))
  | FMap m left_ key seen :: below =>
      match key with
      | None => Err Panic
      | Some (k, key_at) =>
          let '(repeated, seen) :=
            match seen with
            | Some ks =>
                let '(fresh, ks) := keyset_insert ks k in
                (negb fresh && contains_key m k, Some ks)
            | None => (contains_key m k, None)
            end in
          if repeated : bool then Err (Refuse (RepeatedKey key_at))
          else Ok (inl (r, FMap (insert_node m k value) (left_ - 1) None seen :: below, seeds))
      end
  end.

Section decode.
(** What the standard library's random state gives when seeds are drawn. *)
Variable random : Seeded.

(** One node read, delivered or opened. *)
Definition decode_node (r : WireReader) (stack : list Frame) (seeds : option Seeded)
    : result (fault WireError) (DecodeState + Value) :=
  '(n, r) ← read_node r;
  match n with
  | Leaf v => deliver v r stack seeds
  | NList left_ =>
      if left_ =? 0 then deliver (VList []) r stack seeds
      else Ok (inl (r, FList [] left_ :: stack, seeds))
  | NMap left_ =>
      if left_ =? 0 then deliver (VMap []) r stack seeds
      else
        let '(seen, seeds) :=
          if Z.of_nat LINEAR <? left_ then
            let '(ks, seeds) := keyset_new random seeds in (Some ks, seeds)
          else (None, seeds) in
        Ok (inl (r, FMap [] left_ None seen :: stack, seeds))
  end.

(** One round of [decode_seeded]'s loop. *)
Definition decode_step (s : DecodeState) : result (fault WireError) (DecodeState + Value) :=
  let '(r, stack, seeds) := s in
  match stack with
  | [] => decode_node r stack seeds
  | top :: below =>
      if frame_left top =? 0 then deliver (into_value top) r below seeds
      else
        match top with
        | FList _ _ => decode_node r stack seeds
        | FMap m left_ _ seen =>
            let start := offset r in
            '(k, r) ← read_text r;
            decode_node r (FMap m left_ (Some (k, start)) seen :: below) seeds
        end
  end.

(** [decode_seeded], [decode_at] and [decode]. *)
Definition decode_seeded (b : bytes) (base : nat) (seeds : option Seeded) : result (fault WireError) Value :=
  loop decode_step (2 + 2 * length b) Panic (MkWireReader b 0 base, [], seeds).
Definition decode_at (b : bytes) (base : nat) : result (fault WireError) Value := decode_seeded b base None.
Definition decode (b : bytes) : result (fault WireError) Value := decode_at b 0.
End decode.

(** ** LEB128 both ways *)

Lemma leb_pos n : 0 <= n < 2 ^ 64 -> (0 < length (leb n))%nat.
Proof. intros Hn. rewrite leb_unfold by done. destruct (n <? 128); simpl; lia. Qed.

Lemma land_7f b : 0 <= b -> Z.land b 127 = b mod 128.
Proof. intros. change 127 with (Z.ones 7). by rewrite Z.land_ones by lia. Qed.

Lemma land_80 b : is_byte b -> (Z.land b 128 =? 0) = (b <? 128).
Proof.
  intros Hb. unfold is_byte in Hb.
  assert (H : forallb (λ b, Bool.eqb (Z.land b 128 =? 0) (b <? 128)) (seqZ 0 256) = true)
    by (vm_compute; reflexivity).
  rewrite forallb_forall in H. apply Bool.eqb_prop, H. apply list_elem_of_In, elem_of_seqZ. lia.
Qed.

Lemma wrap64_shift bits j : 0 <= bits < 128 -> (j <= 9)%nat -> (j = 9%nat -> bits <= 1) ->
  wrap64 (Z.shiftl bits (7 * Z.of_nat j)) = Z.shiftl bits (7 * Z.of_nat j).
Proof.
  intros Hb Hj H9. unfold wrap64. apply Z.mod_small. rewrite Z.shiftl_mul_pow2 by lia.
  assert (j = 9 \/ j <= 8)%nat as [->|H8] by lia.
  - specialize (H9 eq_refl). change (7 * Z.of_nat 9) with 63. lia.
  - assert (2 ^ (7 * Z.of_nat j) <= 2 ^ 56) by (apply Z.pow_le_mono_r; lia).
    assert (0 < 2 ^ (7 * Z.of_nat j)) by (apply Z.pow_pos_nonneg; lia). nia.
Qed.

(** What is read is the shortest form of a [u64], *)
Lemma leb_loop_sound l : forall start n j k n' k', Forall is_byte l ->
  0 <= n < 2 ^ (7 * Z.of_nat j) -> leb_loop l start n (7 * Z.of_nat j) k = Ok (n', k') ->
  exists m, 0 <= m /\ ((0 < j)%nat -> 0 < m) /\ n' = n + m * 2 ^ (7 * Z.of_nat j) /\ n' < 2 ^ 64 /\
    m < 2 ^ 64 /\ l = leb m ++ drop (length (leb m)) l /\ k' = (k + length (leb m))%nat.
Proof.
  induction l as [|b l IH]; intros start n j k n' k' Hl Hn H; [done|].
  apply Forall_cons_iff in Hl as [Hb Hl]. pose proof Hb as Hb'. unfold is_byte in Hb'.
  cbn [leb_loop] in H. rewrite land_7f in H by lia.
  destruct (_ || _) eqn:Eo in H; [done|]. bprop Eo. destruct Eo as [Eo Eo2].
  assert (Hj : (j <= 9)%nat) by lia.
  assert (H9 : j = 9%nat -> b mod 128 <= 1) by (intros ->; destruct Eo as [Eo|Eo]; [done|lia]).
  rewrite wrap64_shift, lor_high in H by (done || dlia). rewrite land_80 in H by done.
  assert (Hp : 0 < 2 ^ (7 * Z.of_nat j)) by (apply Z.pow_pos_nonneg; lia).
  assert (Hlt : n + b mod 128 * 2 ^ (7 * Z.of_nat j) < 2 ^ 64).
  { assert (j = 9 \/ j <= 8)%nat as [->|H8] by lia.
    - specialize (H9 eq_refl). change (7 * Z.of_nat 9) with 63 in *. nia.
    - assert (2 ^ (7 * Z.of_nat j) <= 2 ^ 56) by (apply Z.pow_le_mono_r; lia).
      pose proof (Z.mod_pos_bound b 128 ltac:(lia)). nia. }
  destruct (Z.ltb_spec b 128).
  - rewrite Z.mod_small in * by lia.
    destruct ((b =? 0) && _) eqn:Ez; [done|]. bprop Ez. injection H as <- <-.
    assert (leb b = [b]) as El by (rewrite leb_unfold by lia; by rewrite (proj2 (Z.ltb_lt b 128))).
    exists b. rewrite El. simpl. rewrite drop_0. split_and!; done || nia.
  - replace (7 * Z.of_nat j + 7) with (7 * Z.of_nat (S j)) in H by lia.
    assert (E128 : 2 ^ (7 * Z.of_nat (S j)) = 128 * 2 ^ (7 * Z.of_nat j)).
    { replace (7 * Z.of_nat (S j)) with (7 + 7 * Z.of_nat j) by lia. by rewrite Z.pow_add_r by lia. }
    apply IH in H as (m & Hm & Hmp & -> & Hlt' & Hm64 & El & ->); [|done|rewrite E128; pose proof (Z.mod_pos_bound b 128 ltac:(lia)); nia].
    specialize (Hmp ltac:(lia)). rewrite E128 in Hlt' |- *.
    assert (Hm' : b mod 128 + 128 * m < 2 ^ 64) by nia.
    assert (Eu : leb (b mod 128 + 128 * m) = b :: leb m).
    { rewrite leb_unfold by dlia. rewrite (proj2 (Z.ltb_ge _ 128)) by dlia.
      f_equal; [dlia|]. f_equal. dlia. }
    exists (b mod 128 + 128 * m). rewrite Eu. cbn [length app drop]. split_and!; try dlia.
    by f_equal.
Qed.

(** and every [u64] is read from its shortest form, whatever follows. *)
Lemma leb_loop_accepts m : 0 <= m < 2 ^ 64 -> forall start n j k tl,
  0 <= n < 2 ^ (7 * Z.of_nat j) -> (j <= 9)%nat ->
  n + m * 2 ^ (7 * Z.of_nat j) < 2 ^ 64 -> ((0 < j)%nat -> 0 < m) ->
  leb_loop (leb m ++ tl) start n (7 * Z.of_nat j) k =
    Ok (n + m * 2 ^ (7 * Z.of_nat j), (k + length (leb m))%nat).
Proof.
  revert m. apply (leb_ind (λ m, forall start n j k tl,
    0 <= n < 2 ^ (7 * Z.of_nat j) -> (j <= 9)%nat ->
    n + m * 2 ^ (7 * Z.of_nat j) < 2 ^ 64 -> ((0 < j)%nat -> 0 < m) ->
    leb_loop (leb m ++ tl) start n (7 * Z.of_nat j) k =
      Ok (n + m * 2 ^ (7 * Z.of_nat j), (k + length (leb m))%nat))).
  - intros m Hm start n j k tl Hn Hj Hlt Hp.
    assert (leb m = [m]) as -> by (rewrite leb_unfold by lia; by rewrite (proj2 (Z.ltb_lt m 128)) by lia).
    cbn [app leb_loop]. rewrite land_7f, Z.mod_small by lia.
    assert (Hpw : 0 < 2 ^ (7 * Z.of_nat j)) by (apply Z.pow_pos_nonneg; lia).
    assert (H9 : j = 9%nat -> m <= 1) by (intros ->; change (7 * Z.of_nat 9) with 63 in *; nia).
    destruct (_ || _) eqn:Eo.
    { exfalso. bprop Eo. destruct Eo as [[E1 E2]|Eo]; [|lia]. apply Z.eqb_eq in E1. specialize (H9 ltac:(lia)). lia. }
    rewrite wrap64_shift, lor_high by (done || lia).
    rewrite land_80 by (unfold is_byte; lia). rewrite (proj2 (Z.ltb_lt m 128)) by lia.
    destruct ((m =? 0) && _) eqn:Ez; [bprop Ez; lia|]. do 2 f_equal. simpl. lia.
  - intros m Hm IH start n j k tl Hn Hj Hlt Hp.
    assert (leb m = (m mod 128 + 128) :: leb (m / 128)) as ->
      by (rewrite leb_unfold by lia; by rewrite (proj2 (Z.ltb_ge m 128)) by lia).
    cbn [app leb_loop]. rewrite land_7f by dlia.
    replace ((m mod 128 + 128) mod 128) with (m mod 128) by dlia.
    assert (Hpw : 0 < 2 ^ (7 * Z.of_nat j)) by (apply Z.pow_pos_nonneg; lia).
    assert (Hj8 : (j <= 8)%nat).
    { destruct (decide (j = 9%nat)) as [->|]; [|lia]. change (7 * Z.of_nat 9) with 63 in *. nia. }
    rewrite (proj2 (Z.eqb_neq _ 63)) by lia. rewrite (proj2 (Z.ltb_ge 63 _)) by lia. cbn [andb orb].
    rewrite wrap64_shift, lor_high by (dlia || lia).
    rewrite land_80 by (unfold is_byte; dlia). rewrite (proj2 (Z.ltb_ge _ 128)) by dlia.
    replace (7 * Z.of_nat j + 7) with (7 * Z.of_nat (S j)) by lia.
    assert (E128 : 2 ^ (7 * Z.of_nat (S j)) = 128 * 2 ^ (7 * Z.of_nat j)).
    { replace (7 * Z.of_nat (S j)) with (7 + 7 * Z.of_nat j) by lia. by rewrite Z.pow_add_r by lia. }
    assert (Em : m = 128 * (m / 128) + m mod 128) by dlia.
    pose proof (Z.mod_pos_bound m 128 ltac:(lia)).
    rewrite IH; [|rewrite E128; nia|lia|rewrite E128; nia|dlia].
    rewrite E128. f_equal. f_equal; [nia|simpl; lia].
Qed.

(** ** What the reader takes *)

(** A reader within its bytes. *)
Definition reader_ok (r : WireReader) : Prop := (at_ r <= length (wbytes r))%nat.

(** [r'] is [r] after reading [l]. *)
Definition wtook (r : WireReader) (l : bytes) (r' : WireReader) : Prop :=
  r' = wadv (length l) r /\ wrest r = l ++ wrest r' /\ reader_ok r'.

Lemma wrest_adv n r : wrest (wadv n r) = drop n (wrest r).
Proof. unfold wrest, wadv. simpl. by rewrite drop_drop. Qed.

Lemma wadv_wadv m n r : wadv n (wadv m r) = wadv (m + n) r.
Proof. unfold wadv. simpl. f_equal. lia. Qed.

Lemma wtook_intro r l tl : reader_ok r -> wrest r = l ++ tl ->
  wtook r l (wadv (length l) r) /\ wrest (wadv (length l) r) = tl.
Proof.
  intros Hr E. assert (E' : wrest (wadv (length l) r) = tl) by by rewrite wrest_adv, E, drop_app_length.
  split; [|done]. split; [done|]. split; [by rewrite E'|].
  apply (f_equal length) in E. unfold wrest in E. rewrite length_drop, length_app in E.
  unfold reader_ok, wadv in *. simpl. lia.
Qed.

Lemma wtook_app r l r1 l1 r2 : wtook r l r1 -> wtook r1 l1 r2 -> wtook r (l ++ l1) r2.
Proof.
  intros (-> & E & _) (-> & E1 & H). split; [by rewrite wadv_wadv, length_app|].
  split; [by rewrite E, E1, app_assoc|done].
Qed.

Lemma remaining_len r : reader_ok r -> remaining r = len_of (wrest r).
Proof. intros. unfold remaining, len_of, wrest. by rewrite length_drop. Qed.

(** The reader's bytes, all of them bytes. *)
Definition all_bytes (r : WireReader) : Prop := Forall is_byte (wbytes r).

Lemma all_bytes_rest r : all_bytes r -> Forall is_byte (wrest r).
Proof. intros H. unfold wrest. by apply Forall_drop. Qed.

(** A refusal by the reader names an offset of its bytes. *)
Definition wire_at (e : WireError) : nat :=
  match e with
  | Truncated at_ | BadTag at_ _ | Overlong at_ | BadText at_ | BadNumber at_ | NotABool at_ _
  | RepeatedKey at_ | Trailing at_ | Alloc at_ _ | UnknownFrame at_ _ | Nested at_ => at_
  | _ => 0%nat
  end.
Definition bad_at (r : WireReader) (f : (fault WireError)) : Prop :=
  exists e, f = Refuse e /\ (base r + at_ r <= wire_at e <= base r + length (wbytes r))%nat.

Lemma bad_at_adv n r f : bad_at (wadv n r) f -> bad_at r f.
Proof. intros (e & -> & H). exists e. split; [done|]. simpl in H. lia. Qed.

Lemma byte_spec r : reader_ok r ->
  match byte_ r with Ok (b, r') => wtook r [b] r' | Err f => bad_at r f end.
Proof.
  intros Hr. unfold byte_. destruct (wbytes r !! at_ r) as [b|] eqn:E.
  - apply (wtook_intro r [b] (drop (S (at_ r)) (wbytes r))); [done|]. unfold wrest. by apply drop_S.
  - eexists. split; [done|]. unfold reader_ok in Hr. simpl. unfold offset. lia.
Qed.

Lemma byte_takes r b tl : wrest r = b :: tl -> byte_ r = Ok (b, wadv 1 r).
Proof.
  intros E. unfold byte_. apply (f_equal (lookup 0%nat)) in E. unfold wrest in E.
  rewrite lookup_drop, Nat.add_0_r in E. by rewrite E.
Qed.

Lemma leb_loop_Err l : forall start n shift k f, leb_loop l start n shift k = Err f ->
  f = Refuse (Overlong start) \/ f = Refuse (Truncated (start + k + length l)).
Proof.
  induction l as [|b l IH]; intros start n shift k f H; simpl in H.
  - injection H as <-. right. do 2 f_equal. simpl. lia.
  - destruct (_ || _); [injection H as <-; by left|].
    destruct (_ =? 0); [destruct (_ && _); [injection H as <-; by left|done]|].
    apply IH in H as [->| ->]; [by left|right]. do 2 f_equal. simpl. lia.
Qed.

Lemma leb_spec r : reader_ok r -> all_bytes r ->
  match read_leb r with
  | Ok (n, r') => 0 <= n < 2 ^ 64 /\ wtook r (leb n) r'
  | Err f => bad_at r f
  end.
Proof.
  intros Hr Hb. unfold read_leb. destruct (leb_loop _ _ _ _ _) as [[n k]|f] eqn:E; cbn [mbind result_bind].
  - apply (leb_loop_sound _ _ _ 0) in E as (m & Hm & _ & -> & Hlt & _ & El & ->);
      [|by apply all_bytes_rest|done].
    change (2 ^ (7 * Z.of_nat 0)) with 1 in *. rewrite Z.mul_1_r in *. rewrite Z.add_0_l in *.
    split; [done|]. cbn [Nat.add]. by apply (wtook_intro r (leb m) _ Hr El).
  - apply leb_loop_Err in E as [->| ->]; eexists; (split; [done|]); unfold reader_ok in Hr; simpl;
      unfold offset, wrest; rewrite ?length_drop; lia.
Qed.

Lemma leb_takes r n tl : 0 <= n < 2 ^ 64 -> wrest r = leb n ++ tl ->
  read_leb r = Ok (n, wadv (length (leb n)) r).
Proof.
  intros Hn E. unfold read_leb. rewrite E.
  pose proof (leb_loop_accepts n Hn (offset r) 0 0 0 tl) as H. change (7 * Z.of_nat 0) with 0 in H.
  rewrite H by (simpl; lia). cbn [mbind result_bind]. simpl. do 2 f_equal. lia.
Qed.

Lemma len_spec r : reader_ok r -> all_bytes r ->
  match read_len r with
  | Ok (n, r') => 0 <= n < 2 ^ 64 /\ wtook r (leb n) r' /\ n <= len_of (wrest r')
  | Err f => bad_at r f
  end.
Proof.
  intros Hr Hb. unfold read_len. pose proof (leb_spec r Hr Hb) as H.
  destruct (read_leb r) as [[n r']|f]; cbn [mbind result_bind]; [|done].
  destruct H as [Hn Ht]. pose proof Ht as (-> & _ & Hr'). rewrite remaining_len by done.
  destruct (Z.ltb_spec (len_of (wrest (wadv (length (leb n)) r))) n); [|done].
  eexists. split; [done|]. unfold reader_ok in Hr'. simpl in *. unfold offset. simpl. lia.
Qed.

Lemma len_takes r n tl : reader_ok r -> 0 <= n < 2 ^ 64 -> wrest r = leb n ++ tl -> n <= len_of tl ->
  read_len r = Ok (n, wadv (length (leb n)) r).
Proof.
  intros Hr Hn E Hle. unfold read_len. rewrite (leb_takes r n tl Hn E). cbn [mbind result_bind].
  destruct (wtook_intro r (leb n) tl Hr E) as [(_ & _ & Hr') E'].
  rewrite remaining_len, E' by done. by rewrite (proj2 (Z.ltb_ge _ _)).
Qed.

Lemma wadv_facts n r : wbytes (wadv n r) = wbytes r /\ base (wadv n r) = base r.
Proof. done. Qed.

Lemma slice_spec r : reader_ok r -> all_bytes r ->
  match read_slice r with
  | Ok (s, r') => wtook r (key_wire s) r' /\ 0 <= len_of s < 2 ^ 64
  | Err f => bad_at r f
  end.
Proof.
  intros Hr Hb. unfold read_slice. pose proof (len_spec r Hr Hb) as H.
  destruct (read_len r) as [[n r']|f]; cbn [mbind result_bind]; [|done].
  destruct H as (Hn & Ht & Hle). pose proof Ht as (_ & _ & Hr').
  assert (El : length (take (Z.to_nat n) (wrest r')) = Z.to_nat n)
    by (rewrite length_take; unfold len_of in Hle; lia).
  assert (Elen : len_of (take (Z.to_nat n) (wrest r')) = n) by (unfold len_of; rewrite El; lia).
  split; [|by rewrite Elen]. unfold key_wire. rewrite Elen. eapply wtook_app; [exact Ht|].
  destruct (wtook_intro r' (take (Z.to_nat n) (wrest r')) (drop (Z.to_nat n) (wrest r')) Hr')
    as [H _]; [by rewrite take_drop|]. by rewrite El in H.
Qed.

Lemma slice_takes r s tl : reader_ok r -> fits s -> wrest r = key_wire s ++ tl ->
  read_slice r = Ok (s, wadv (length (key_wire s)) r).
Proof.
  intros Hr Hs E. unfold read_slice, key_wire in *. rewrite <- app_assoc in E.
  rewrite (len_takes r (len_of s) (s ++ tl) Hr (fits_len s Hs) E)
    by (unfold len_of; rewrite length_app; lia).
  cbn [mbind result_bind]. destruct (wtook_intro r _ _ Hr E) as [_ E'].
  assert (Z.to_nat (len_of s) = length s) as -> by (unfold len_of; lia).
  by rewrite E', take_app_length, wadv_wadv, length_app.
Qed.

Lemma text_spec r : reader_ok r -> all_bytes r ->
  match read_text r with
  | Ok (s, r') => wtook r (key_wire s) r' /\ is_utf8 s = true /\ 0 <= len_of s < 2 ^ 64
  | Err f => bad_at r f
  end.
Proof.
  intros Hr Hb. unfold read_text. pose proof (slice_spec r Hr Hb) as H.
  destruct (read_slice r) as [[s r']|f]; cbn [mbind result_bind]; [|done].
  destruct H as [H Hl]. destruct (is_utf8 s) eqn:Eu; [done|].
  eexists. split; [done|]. unfold reader_ok in Hr. simpl. unfold offset. lia.
Qed.

Lemma text_takes r s tl : reader_ok r -> fits s -> is_utf8 s = true -> wrest r = key_wire s ++ tl ->
  read_text r = Ok (s, wadv (length (key_wire s)) r).
Proof.
  intros Hr Hs Hu E. unfold read_text. rewrite (slice_takes r s tl Hr Hs E). cbn [mbind result_bind].
  by rewrite Hu.
Qed.

(** ** Encoding, decoded *)

Section roundtrip.
Variable random : Seeded.

(** Rounds of the loop, from one outcome of a round to a later one. *)
Inductive runs : result (fault WireError) (DecodeState + Value) -> result (fault WireError) (DecodeState + Value) -> Prop :=
  | runs_refl x : runs x x
  | runs_step s y : runs (decode_step random s) y -> runs (Ok (inl s)) y.

Lemma runs_trans x y z : runs x y -> runs y z -> runs x z.
Proof. induction 1; [done|]. intros. apply runs_step. auto. Qed.

Lemma runs_loop x v : runs x (Ok (inr v)) -> forall s, x = Ok (inl s) ->
  exists n, forall f, (n <= f)%nat -> loop (decode_step random) f Panic s = Ok v.
Proof.
  intros H. remember (Ok (inr v)) as y eqn:Ey. induction H as [x|s y H IH]; intros s0 E; [congruence|].
  injection E as ->. destruct (decode_step random s0) as [[s1|w]|f] eqn:Es.
  - destruct (IH Ey s1 eq_refl) as [n Hn]. exists (S n). intros f Hf.
    destruct f as [|f]; [lia|]. simpl. rewrite Es. apply Hn. lia.
  - exists 1%nat. intros f Hf. destruct f as [|f]; [lia|]. simpl. rewrite Es.
    inversion H; congruence.
  - inversion H; congruence.
Qed.

(** A node of its own bytes is read and delivered, whatever is being built
    and whatever follows. *)
Definition decodes (v : Value) : Prop := forall r stack seeds tl,
  reader_ok r -> wrest r = wire v ++ tl ->
  exists seeds', runs (decode_node random r stack seeds)
    (deliver v (wadv (length (wire v)) r) stack seeds').

Lemma node_takes r t tl : reader_ok r -> wrest r = t :: tl ->
  byte_ r = Ok (t, wadv 1 r) /\ wrest (wadv 1 r) = tl /\ reader_ok (wadv 1 r).
Proof.
  intros Hr E. split; [by eapply byte_takes|].
  destruct (wtook_intro r [t] tl Hr E) as [(_ & _ & H) H']. done.
Qed.

Lemma wadv_cons {A} (l : list A) t r : wadv (length (t :: l)) r = wadv (length l) (wadv 1 r).
Proof. by rewrite wadv_wadv. Qed.

Lemma list_decodes l : Forall decodes l -> Forall value_wf l -> forall r stack seeds done_ tl,
  reader_ok r -> wrest r = concat (map wire l) ++ tl ->
  exists seeds', runs (Ok (inl (r, FList done_ (len_of l) :: stack, seeds)))
    (deliver (VList (done_ ++ l)) (wadv (length (concat (map wire l))) r) stack seeds').
Proof.
  intros Hd Hw. induction Hd as [|x l Hx _ IH]; intros r stack seeds done_ tl Hr E.
  - exists seeds. rewrite app_nil_r. apply runs_step. simpl.
    assert (wadv 0 r = r) as -> by (unfold wadv; destruct r; simpl; by rewrite Nat.add_0_r).
    apply runs_refl.
  - apply Forall_cons_iff in Hw as [_ Hw]. cbn [map concat] in *. rewrite <- app_assoc in E.
    destruct (Hx r (FList done_ (len_of (x :: l)) :: stack) seeds _ Hr E) as [s1 H1].
    destruct (wtook_intro _ _ _ Hr E) as [(_ & _ & Hr') E'].
    destruct (IH Hw (wadv (length (wire x)) r) stack s1 (done_ ++ [x]) tl Hr' E') as [s2 H2].
    exists s2. apply runs_step. cbn [decode_step frame_left].
    rewrite (proj2 (Z.eqb_neq (len_of (x :: l)) 0)) by (unfold len_of; simpl; lia).
    eapply runs_trans; [exact H1|]. cbn [deliver].
    replace (len_of (x :: l) - 1) with (len_of l) by (unfold len_of; simpl; lia).
    rewrite <- app_assoc in H2. rewrite length_app, <- wadv_wadv. exact H2.
Qed.

(** The hashes seen are those of the keys read. *)
Definition seen_ok (m : list (bytes * Value)) (seen : option KeySet) : Prop :=
  match seen with Some ks => keyset_of ks (keys m) | None => True end.

Lemma seen_check m k seen : seen_ok m seen ->
  exists seen', (match seen with
    | Some ks => let '(fresh, ks) := keyset_insert ks k in (negb fresh && contains_key m k, Some ks)
    | None => (contains_key m k, None) end) = (contains_key m k, seen') /\
  forall v, seen_ok (insert_node m k v) seen'.
Proof.
  destruct seen as [ks|]; intros H; [|by exists None].
  destruct (keyset_insert_of ks _ k H) as [H1 H2].
  destruct (keyset_insert ks k) as [fresh ks'] eqn:E. cbn [fst snd] in *. exists (Some ks'). split.
  - f_equal. destruct (contains_key m k) eqn:Ec; [|by rewrite andb_false_r].
    apply contains_key_spec in Ec. by rewrite H2.
  - intros v. unfold seen_ok, keys, insert_node. by rewrite map_app.
Qed.

Lemma map_decodes m : Forall (λ e, decodes e.2) m -> Forall entry_wf m ->
  forall r stack seeds done_ seen tl, reader_ok r -> seen_ok done_ seen ->
  NoDup (keys (done_ ++ m)) -> wrest r = concat (map entry_wire m) ++ tl ->
  exists seeds', runs (Ok (inl (r, FMap done_ (len_of m) None seen :: stack, seeds)))
    (deliver (VMap (done_ ++ m)) (wadv (length (concat (map entry_wire m))) r) stack seeds').
Proof.
  intros Hd Hw. induction Hd as [|[k x] m Hx _ IH]; intros r stack seeds done_ seen tl Hr Hseen Hnd E.
  - exists seeds. rewrite app_nil_r. apply runs_step. simpl.
    assert (wadv 0 r = r) as -> by (unfold wadv; destruct r; simpl; by rewrite Nat.add_0_r).
    apply runs_refl.
  - apply Forall_cons_iff in Hw as [(Hu & Hf & _) Hw]. cbn [fst snd] in *.
    cbn [map concat] in *. unfold entry_wire at 1 in E. cbn [fst snd] in E. rewrite <- !app_assoc in E.
    destruct (wtook_intro _ _ _ Hr E) as [(_ & _ & Hr1) E1].
    destruct (wtook_intro _ _ _ Hr1 E1) as [(_ & _ & Hr2) E2].
    destruct (Hx (wadv (length (key_wire k)) r)
      (FMap done_ (len_of ((k, x) :: m)) (Some (k, offset r)) seen :: stack) seeds _ Hr1 E1) as [s1 H1].
    assert (Hk : contains_key done_ k = false).
    { destruct (contains_key done_ k) eqn:Ec; [|done]. apply contains_key_spec in Ec.
      unfold keys in *. rewrite map_app in Hnd. apply NoDup_app in Hnd as (_ & Hnd & _).
      destruct (Hnd k Ec). by left. }
    destruct (seen_check done_ k seen Hseen) as (seen' & Es & Hs').
    destruct (IH Hw (wadv (length (wire x)) (wadv (length (key_wire k)) r)) stack s1
      (insert_node done_ k x) seen' tl Hr2 (Hs' x)) as [s2 H2];
      [by unfold insert_node; rewrite <- app_assoc|done|].
    exists s2. apply runs_step. cbn [decode_step frame_left].
    rewrite (proj2 (Z.eqb_neq (len_of ((k, x) :: m)) 0)) by (unfold len_of; simpl; lia).
    rewrite (text_takes r k _ Hr Hf Hu E). cbn [mbind result_bind].
    eapply runs_trans; [exact H1|]. cbn [deliver]. rewrite Es, Hk.
    replace (len_of ((k, x) :: m) - 1) with (len_of m) by (unfold len_of; simpl; lia).
    unfold insert_node in H2. rewrite <- app_assoc in H2.
    unfold entry_wire at 1. cbn [fst snd]. rewrite !length_app, <- !wadv_wadv. exact H2.
Qed.

Lemma concat_len (f : Value -> bytes) l : Forall (λ v, (0 < length (f v))%nat) l ->
  (length l <= length (concat (map f l)))%nat.
Proof.
  induction 1 as [|x l Hx _ IH]; [done|]. simpl. rewrite length_app. lia.
Qed.

Lemma wire_pos v : value_wf v -> (0 < length (wire v))%nat.
Proof. destruct v; intros H; simpl; try lia. done. Qed.

Lemma count_takes r n tl : reader_ok r -> 0 <= n < 2 ^ 64 -> wrest r = leb n ++ tl -> n <= len_of tl ->
  read_count r = Ok (n, wadv (length (leb n)) r).
Proof. apply len_takes. Qed.

(** What a node's head says it took. *)
Definition node_bytes (n : Node) : bytes :=
  match n with Leaf v => wire v | NList n => 6 :: leb n | NMap n => 7 :: leb n end.

(** The head of a value's encoding, and what it leaves of it. *)
Definition head_of (v : Value) : Node :=
  match v with VList l => NList (len_of l) | VMap m => NMap (len_of m) | _ => Leaf v end.
Definition body_of (v : Value) : bytes :=
  match v with
  | VList l => concat (map wire l)
  | VMap m => concat (map entry_wire m)
  | _ => []
  end.

Lemma head_body v : wire v = node_bytes (head_of v) ++ body_of v.
Proof. destruct v; cbn [head_of node_bytes body_of]; rewrite ?app_nil_r; try done; [apply wire_list|apply wire_map]. Qed.

Lemma body_count v : value_wf v -> match head_of v with NList n | NMap n => 0 <= n < 2 ^ 64 /\ n <= len_of (body_of v) | _ => True end.
Proof.
  destruct v as [| |b|t|t|t|l|m|n]; intros Hv; try done; cbn [head_of body_of].
  - apply value_wf_list in Hv as [Hf Hl]. split; [by apply fits_len|].
    pose proof (concat_len wire l) as H. unfold len_of.
    specialize (H ltac:(eapply Forall_impl; [exact Hl|]; apply wire_pos)). lia.
  - apply value_wf_map in Hv as (Hf & _ & Hl). split; [by apply fits_len|]. unfold len_of.
    assert (length m <= length (concat (map entry_wire m)))%nat; [|lia].
    clear -Hl. induction Hl as [|e m (_ & _ & Hw) _ IHl]; [done|]. simpl.
    rewrite length_app. unfold entry_wire at 1. rewrite length_app.
    pose proof (wire_pos e.2 Hw). lia.
Qed.

(** A well-formed value's head is read from its bytes. *)
Lemma head_takes v r tl : value_wf v -> reader_ok r -> wrest r = wire v ++ tl ->
  read_node r = Ok (head_of v, wadv (length (node_bytes (head_of v))) r).
Proof.
  intros Hv Hr E. pose proof (body_count v Hv) as Hb. rewrite head_body, <- app_assoc in E.
  destruct v as [| |b|t|t|t|l|m|n]; [..|done]; cbn [head_of node_bytes body_of app] in *.
  all: destruct (node_takes r _ _ Hr E) as (E1 & E2 & Hr1); unfold read_node; rewrite E1; cbn [mbind result_bind].
  - done.
  - done.
  - destruct (node_takes _ _ _ Hr1 E2) as (E3 & _ & _). change (tag_try_from 2) with (@Ok ValueError _ GUATIAO_BOOL).
    cbn iota. rewrite E3. cbn [mbind result_bind]. rewrite wadv_wadv. by destruct b.
  - destruct Hv as [Hn Hf]. change (tag_try_from 3) with (@Ok ValueError _ GUATIAO_NUMBER). cbn iota.
    rewrite (text_takes _ t tl Hr1 Hf); [|by apply json_number_utf8, is_number_spec|exact E2].
    cbn [mbind result_bind]. rewrite Hn. unfold wire. fold (key_wire t). by rewrite wadv_cons.
  - destruct Hv as [Hn Hf]. change (tag_try_from 4) with (@Ok ValueError _ GUATIAO_STRING). cbn iota.
    rewrite (text_takes _ t tl Hr1 Hf Hn E2). cbn [mbind result_bind]. unfold wire. fold (key_wire t).
    by rewrite wadv_cons.
  - destruct Hv as [_ Hf]. change (tag_try_from 5) with (@Ok ValueError _ GUATIAO_BYTES). cbn iota.
    rewrite (slice_takes _ t tl Hr1 Hf E2). cbn [mbind result_bind]. unfold wire. fold (key_wire t).
    by rewrite wadv_cons.
  - change (tag_try_from 6) with (@Ok ValueError _ GUATIAO_LIST). cbn iota.
    rewrite (count_takes _ (len_of l) (concat (map wire l) ++ tl) Hr1); [|tauto|exact E2|].
    + cbn [mbind result_bind]. by rewrite wadv_cons.
    + unfold len_of in *. rewrite length_app. lia.
  - change (tag_try_from 7) with (@Ok ValueError _ GUATIAO_MAP). cbn iota.
    rewrite (count_takes _ (len_of m) (concat (map entry_wire m) ++ tl) Hr1); [|tauto|exact E2|].
    + cbn [mbind result_bind]. by rewrite wadv_cons.
    + unfold len_of in *. rewrite length_app. lia.
Qed.

Lemma wf_decodes v : value_wf v -> decodes v.
Proof.
  induction v as [| |b|t|t|t|l IH|m IH|n] using value_ind'; intros Hv r stack seeds tl Hr E; [..|done];
    unfold decode_node; rewrite (head_takes _ r tl Hv Hr E); cbn [mbind result_bind head_of];
    try (exists seeds; apply runs_refl);
    rewrite head_body, <- app_assoc in E; destruct (wtook_intro _ _ _ Hr E) as [(_ & _ & Hr2) E3];
    rewrite head_body, length_app, <- wadv_wadv; cbn [head_of body_of node_bytes] in *.
  - apply value_wf_list in Hv as [Hf Hl].
    assert (Hdl : Forall decodes l).
    { eapply Forall_impl; [exact (proj2 (Forall_and _ l) (conj IH Hl))|]. naive_solver. }
    destruct (list_decodes l Hdl Hl _ stack seeds [] tl Hr2 E3) as [s H].
    destruct (Z.eqb_spec (len_of l) 0) as [H0|H0].
    + assert (l = []) as -> by (destruct l; [done|unfold len_of in H0; simpl in H0; lia]).
      exists seeds. simpl. rewrite (wadv_wadv _ 0), Nat.add_0_r. apply runs_refl.
    + exists s. exact H.
  - apply value_wf_map in Hv as (Hf & Hnd & Hl).
    assert (Hdl : Forall (λ e, decodes e.2) m).
    { eapply Forall_impl; [exact (proj2 (Forall_and _ m) (conj IH Hl))|].
      intros e [He (_ & _ & Hw)]. auto. }
    destruct (Z.eqb_spec (len_of m) 0) as [H0|H0].
    + assert (m = []) as -> by (destruct m; [done|unfold len_of in H0; simpl in H0; lia]).
      exists seeds. simpl. rewrite (wadv_wadv _ 0), Nat.add_0_r. apply runs_refl.
    + destruct (if Z.of_nat LINEAR <? len_of m then _ else _) as [seen seeds'] eqn:Es.
      destruct (map_decodes m Hdl Hl _ stack seeds' [] seen tl Hr2) as [s H]; [|done|done|].
      { destruct (Z.of_nat LINEAR <? len_of m); [|by injection Es as <- _].
        pose proof (keyset_new_of random seeds) as Hk.
        destruct (keyset_new random seeds) as [ks sd]. by injection Es as <- _. }
      exists s. exact H.
Qed.
End roundtrip.

(** ** Every round takes a byte or leaves a container *)

Definition decode_inv (s : DecodeState) : Prop := let '(r, _, _) := s in reader_ok r.
Definition decode_left (s : DecodeState) : nat :=
  let '(r, stack, _) := s in (2 * length (wrest r) + length stack)%nat.

Lemma count_spec r : reader_ok r -> all_bytes r ->
  match read_count r with
  | Ok (n, r') => 0 <= n < 2 ^ 64 /\ wtook r (leb n) r' /\ n <= len_of (wrest r')
  | Err f => bad_at r f
  end.
Proof. apply len_spec. Qed.

Lemma wtook_byte r b r1 l r2 : wtook r [b] r1 -> wtook r1 l r2 -> wtook r (b :: l) r2.
Proof. apply (wtook_app r [b]). Qed.

Lemma bad_at_took r l r' f : wtook r l r' -> bad_at r' f -> bad_at r f.
Proof. intros (-> & _). apply bad_at_adv. Qed.

Lemma bad_at_here r r' e : reader_ok r -> wire_at e = offset r -> r' = r -> bad_at r' (Refuse e).
Proof. intros Hr He ->. exists e. split; [done|]. rewrite He. unfold offset, reader_ok in *. lia. Qed.

Lemma fits_of {A} (l : list A) : 0 <= len_of l < 2 ^ 64 -> fits l.
Proof. unfold len_of, fits, usize_max, u64_max. lia. Qed.

Lemma tag_try_from_cases t : (exists k, tag_try_from t = Ok k /\ tag_code k = t) \/
  exists e, tag_try_from t = Err e.
Proof.
  unfold tag_try_from. repeat (case_match eqn:E; [apply Z.eqb_eq in E as ->; left; eauto|clear E]).
  right. eauto.
Qed.

Lemma node_spec r : reader_ok r -> all_bytes r ->
  match read_node r with
  | Ok (n, r') => wtook r (node_bytes n) r' /\ (0 < length (node_bytes n))%nat /\
      match n with
      | Leaf v => value_wf v
      | NList c | NMap c => 0 <= c < 2 ^ 64
      end
  | Err f => bad_at r f
  end.
Proof.
  intros Hr Hb. unfold read_node. pose proof (byte_spec r Hr) as H1.
  destruct (byte_ r) as [[t r1]|f]; cbn [mbind result_bind]; [|done].
  pose proof H1 as (Er1 & _ & Hr1). assert (Hb1 : all_bytes r1) by (rewrite Er1; exact Hb).
  destruct (tag_try_from_cases t) as [(k & -> & <-)|[e ->]].
  2: { by apply (bad_at_here r). }
  assert (Hleaf : forall s r2 v c, wtook r1 (key_wire s) r2 -> wtook r [c] r1 ->
    wire v = c :: key_wire s -> value_wf v -> wtook r (wire v) r2 /\ (0 < length (wire v))%nat /\ value_wf v).
  { intros s r2 v c Ht Hc -> Hv. split; [by eapply wtook_byte|]. split; [simpl; lia|done]. }
  destruct k; cbn [tag_code] in *.
  - split; [exact H1|]. split; [simpl; lia|done].
  - split; [exact H1|]. split; [simpl; lia|done].
  - pose proof (byte_spec r1 Hr1) as H2. destruct (byte_ r1) as [[b r2]|f]; cbn [mbind result_bind].
    2: by eapply bad_at_took.
    pose proof (wtook_byte _ _ _ _ _ H1 H2) as H12.
    destruct (Z.eqb_spec b 0) as [->|]; [split; [exact H12|split; [simpl; lia|done]]|].
    destruct (Z.eqb_spec b 1) as [->|]; [split; [exact H12|split; [simpl; lia|done]]|].
    eapply bad_at_took; [exact H1|]. by apply (bad_at_here r1).
  - pose proof (text_spec r1 Hr1 Hb1) as H2. destruct (read_text r1) as [[s r2]|f]; cbn [mbind result_bind].
    2: by eapply bad_at_took.
    destruct H2 as (H2 & Hu & Hl). destruct (is_number s) eqn:En.
    + eapply Hleaf; [exact H2|exact H1|done|]. split; [done|by apply fits_of].
    + eapply bad_at_took; [exact H1|]. by apply (bad_at_here r1).
  - pose proof (text_spec r1 Hr1 Hb1) as H2. destruct (read_text r1) as [[s r2]|f]; cbn [mbind result_bind].
    2: by eapply bad_at_took.
    destruct H2 as (H2 & Hu & Hl). eapply Hleaf; [exact H2|exact H1|done|].
    split; [done|by apply fits_of].
  - pose proof (slice_spec r1 Hr1 Hb1) as H2. destruct (read_slice r1) as [[s r2]|f]; cbn [mbind result_bind].
    2: by eapply bad_at_took.
    destruct H2 as (H2 & Hl). eapply Hleaf; [exact H2|exact H1|done|].
    split; [|by apply fits_of]. pose proof (all_bytes_rest r1 Hb1) as Hs.
    destruct H2 as (_ & E & _). rewrite E in Hs. unfold key_wire in Hs.
    apply Forall_app in Hs as [Hs _]. by apply Forall_app in Hs as [_ Hs].
  - pose proof (count_spec r1 Hr1 Hb1) as H2. destruct (read_count r1) as [[n r2]|f]; cbn [mbind result_bind].
    2: by eapply bad_at_took.
    destruct H2 as (Hn & H2 & _). split; [by eapply wtook_byte|]. split; [simpl; lia|done].
  - pose proof (count_spec r1 Hr1 Hb1) as H2. destruct (read_count r1) as [[n r2]|f]; cbn [mbind result_bind].
    2: by eapply bad_at_took.
    destruct H2 as (Hn & H2 & _). split; [by eapply wtook_byte|]. split; [simpl; lia|done].
Qed.

(** ** The invariant of the loop

    The bytes read so far are those of the containers being built. *)

Definition pending_key (key : option (bytes * nat)) : bytes :=
  match key with Some (k, _) => key_wire k | None => [] end.
Definition frame_bytes (f : Frame) : bytes :=
  match f with
  | FList l n => 6 :: leb (len_of l + n) ++ concat (map wire l)
  | FMap m n key _ => 7 :: leb (len_of m + n) ++ concat (map entry_wire m) ++ pending_key key
  end.
Fixpoint stack_bytes (stack : list Frame) : bytes :=
  match stack with [] => [] | f :: below => stack_bytes below ++ frame_bytes f end.

(** A frame: what it holds is well formed, and how much more it may take. Below
    the top one each awaits a value, under its key where it is a map. *)
Definition frame_ok (r : WireReader) (awaiting : bool) (f : Frame) : Prop :=
  match f with
  | FList l n => Forall value_wf l /\ 0 <= n /\ len_of l + n < 2 ^ 64 /\ (awaiting = true -> 0 < n)
  | FMap m n key seen =>
      Forall entry_wf m /\ NoDup (keys m) /\ seen_ok m seen /\ 0 <= n /\ len_of m + n < 2 ^ 64 /\
      if awaiting then
        0 < n /\ exists k key_at, key = Some (k, key_at) /\ is_utf8 k = true /\ fits k /\
          (base r <= key_at <= base r + length (wbytes r))%nat
      else key = None
  end.
Definition stack_ok (r : WireReader) (stack : list Frame) : Prop :=
  match stack with [] => True | top :: below => frame_ok r false top /\ Forall (frame_ok r true) below end.

(** Where a read of [b] from [base0] is. *)
Definition reading (b : bytes) (base0 : nat) (r : WireReader) : Prop :=
  wbytes r = b /\ base r = base0 /\ reader_ok r.
Definition dinv (b : bytes) (base0 : nat) (s : DecodeState) : Prop :=
  let '(r, stack, _) := s in
  reading b base0 r /\ b = stack_bytes stack ++ wrest r /\ stack_ok r stack.

Definition bad_in (b : bytes) (base0 : nat) (f : (fault WireError)) : Prop :=
  exists e, f = Refuse e /\ (base0 <= wire_at e <= base0 + length b)%nat.

(** An outcome of a round: the invariant, the answer, or a refusal within the
    bytes. *)
Definition outcome_ok (b : bytes) (base0 : nat) (m : nat) (x : result (fault WireError) (DecodeState + Value)) : Prop :=
  match x with
  | Ok (inl s) => dinv b base0 s /\ (decode_left s < m)%nat
  | Ok (inr v) => value_wf v /\ wire v = b
  | Err f => bad_in b base0 f
  end.

Lemma reading_took b base0 r l r' : reading b base0 r -> wtook r l r' -> reading b base0 r'.
Proof. intros (<- & <- & _) (-> & _ & H). by split_and!. Qed.

Lemma bad_at_in b base0 r f : reading b base0 r -> bad_at r f -> bad_in b base0 f.
Proof. intros (<- & <- & _) (e & -> & H). exists e. split; [done|]. lia. Qed.

Lemma frame_ok_reader r r' aw f : wbytes r = wbytes r' -> base r = base r' -> frame_ok r aw f -> frame_ok r' aw f.
Proof. intros E1 E2. unfold frame_ok. destruct f; [done|]. by rewrite E1, E2. Qed.

Lemma frames_ok_reader r r' aw fs : wbytes r = wbytes r' -> base r = base r' ->
  Forall (frame_ok r aw) fs -> Forall (frame_ok r' aw) fs.
Proof. intros E1 E2 H. eapply Forall_impl; [exact H|]. intros f. by apply frame_ok_reader. Qed.

(** A value delivered. *)
Lemma deliver_ok b base0 v r stack seeds m : reading b base0 r -> Forall (frame_ok r true) stack ->
  value_wf v -> b = stack_bytes stack ++ wire v ++ wrest r ->
  (2 * length (wrest r) + length stack < m)%nat ->
  outcome_ok b base0 m (deliver v r stack seeds).
Proof.
  intros Hr Hs Hv E Hm. pose proof Hr as (Eb & Ebase & Hrok).
  destruct stack as [|[l n|mp n key seen] below]; cbn [deliver].
  - case_decide as Hend.
    + exists (Trailing (offset r)). split; [done|]. simpl. rewrite <- Eb, <- Ebase. unfold offset, reader_ok in *. lia.
    + split; [done|]. assert (wrest r = []) as En by (unfold wrest; apply drop_ge; lia).
      rewrite En in E. simpl in E. by rewrite app_nil_r in E.
  - apply Forall_cons_iff in Hs as [(Hl & Hn & Hlt & Hp) Hs]. specialize (Hp eq_refl).
    split; [|simpl in *; lia]. split; [done|]. split; [|split; [|done]].
    + rewrite E. cbn [stack_bytes frame_bytes]. rewrite map_app, concat_app. cbn [map concat].
      replace (len_of (l ++ [v]) + (n - 1)) with (len_of l + n)
        by (unfold len_of; rewrite length_app; simpl; lia).
      rewrite app_nil_r. cbn [app]. rewrite <- !app_assoc. cbn [app]. by rewrite <- !app_assoc.
    + split_and!; [apply Forall_app; by split; [|apply Forall_singleton]|lia| |done].
      unfold len_of in *. rewrite length_app. simpl. lia.
  - apply Forall_cons_iff in Hs as [(Hl & Hnd & Hseen & Hn & Hlt & Hp & k & ka & -> & Hu & Hf & Hka) Hs].
    destruct (seen_check mp k seen Hseen) as (seen' & -> & Hseen').
    destruct (contains_key mp k) eqn:Ek.
    + exists (RepeatedKey ka). split; [done|]. simpl. rewrite <- Eb, <- Ebase. lia.
    + split; [|simpl in *; lia]. split; [done|]. split; [|split; [|done]].
      * rewrite E. cbn [stack_bytes frame_bytes pending_key]. unfold insert_node.
        rewrite map_app, concat_app. cbn [map concat]. unfold entry_wire at 3. cbn [fst snd].
        replace (len_of (mp ++ [(k, v)]) + (n - 1)) with (len_of mp + n)
          by (unfold len_of; rewrite length_app; simpl; lia).
        rewrite !app_nil_r. rewrite <- !app_assoc. cbn [app]. rewrite <- !app_assoc. done.
      * split_and!; [|..|done].
        -- apply Forall_app. split; [done|]. by apply Forall_singleton.
        -- unfold keys, insert_node. rewrite map_app. apply NoDup_app. split; [done|].
           split; [|apply NoDup_singleton]. intros x Hx Hx'. apply list_elem_of_singleton in Hx' as ->.
           apply (contains_key_spec mp k) in Hx. by rewrite Ek in Hx.
        -- apply Hseen'.
        -- lia.
        -- unfold len_of, insert_node in *. rewrite length_app. simpl. lia.
Qed.

Lemma reading_all_bytes b base0 r : Forall is_byte b -> reading b base0 r -> all_bytes r.
Proof. intros Hb (E & _). unfold all_bytes. by rewrite E. Qed.

Lemma wtook_length r l r' : wtook r l r' -> length (wrest r) = (length l + length (wrest r'))%nat.
Proof. intros (_ & E & _). by rewrite E, length_app. Qed.

(** A node read where every container awaits one. *)
Lemma decode_node_ok random b base0 r stack seeds m : Forall is_byte b -> reading b base0 r ->
  Forall (frame_ok r true) stack -> b = stack_bytes stack ++ wrest r ->
  (2 * length (wrest r) + length stack <= m)%nat ->
  outcome_ok b base0 m (decode_node random r stack seeds).
Proof.
  intros Hb Hr Hs E Hm. pose proof (reading_all_bytes _ _ _ Hb Hr) as Hab.
  unfold decode_node. pose proof (node_spec r (proj2 (proj2 Hr)) Hab) as Hn.
  destruct (read_node r) as [[n r1]|f]; cbn [mbind result_bind]; [|by eapply bad_at_in].
  destruct Hn as (Ht & Hpos & Hv). pose proof (reading_took _ _ _ _ _ Hr Ht) as Hr1.
  pose proof (wtook_length _ _ _ Ht) as Hlen. pose proof Ht as (Er1 & Erest & _). rewrite Erest in E.
  assert (Hs1 : Forall (frame_ok r1 true) stack).
  { subst r1. by eapply frames_ok_reader; [..|exact Hs]. }
  destruct n as [v|c|c]; cbn [node_bytes] in *.
  - apply deliver_ok; [done|done|done|done|lia].
  - destruct (Z.eqb_spec c 0) as [->|Hc].
    + apply deliver_ok; [done|done| | |lia].
      * apply value_wf_list. split; [|constructor]. by vm_compute.
      * rewrite E. by rewrite wire_list.
    + split; [|simpl in *; lia]. split; [done|]. split; [|split; [|done]].
      * rewrite E. cbn [stack_bytes frame_bytes map concat]. rewrite app_nil_r, <- app_assoc.
        change (len_of (@nil Value) + c) with c. done.
      * split_and!; [constructor|lia|unfold len_of; simpl; lia|done].
  - destruct (Z.eqb_spec c 0) as [->|Hc].
    + apply deliver_ok; [done|done| | |lia].
      * apply value_wf_map. split; [by vm_compute|]. split; constructor.
      * rewrite E. by rewrite wire_map.
    + destruct (if Z.of_nat LINEAR <? c then _ else _) as [seen seeds'] eqn:Es.
      split; [|simpl in *; lia]. split; [done|]. split; [|split; [|done]].
      * rewrite E. cbn [stack_bytes frame_bytes map concat pending_key]. rewrite app_nil_r, <- app_assoc.
        change (len_of (@nil (bytes * Value)) + c) with c. done.
      * split_and!; [constructor|constructor| |lia|unfold len_of; simpl; lia|done].
        destruct (Z.of_nat LINEAR <? c); [|by injection Es as <- _].
        pose proof (keyset_new_of random seeds) as Hk.
        destruct (keyset_new random seeds) as [ks sd]. by injection Es as <- _.
Qed.

Lemma frame_awaits r f : frame_ok r false f -> (frame_left f =? 0) = false ->
  match f with FList _ _ => frame_ok r true f | FMap _ _ _ _ => 0 < frame_left f end.
Proof.
  intros H Hf. apply Z.eqb_neq in Hf. destruct f as [l n|mp n key seen]; cbn [frame_left] in Hf.
  - destruct H as (? & ? & ? & _). split_and!; try done. lia.
  - destruct H as (_ & _ & _ & ? & _). simpl. lia.
Qed.

Lemma finished_wf r f : frame_ok r false f -> (frame_left f =? 0) = true ->
  value_wf (into_value f) /\ wire (into_value f) = frame_bytes f.
Proof.
  intros H Hf. apply Z.eqb_eq in Hf. destruct f as [l n|mp n key seen]; cbn [frame_left] in Hf; subst n.
  - destruct H as (Hl & _ & Hlt & _). cbn [into_value frame_bytes]. rewrite Z.add_0_r in *. split.
    + apply value_wf_list. split; [|done]. apply fits_of. unfold len_of in *. lia.
    + apply wire_list.
  - destruct H as (Hl & Hnd & _ & _ & Hlt & ->). cbn [into_value frame_bytes pending_key].
    rewrite Z.add_0_r in *. split.
    + apply value_wf_map. split; [|done]. apply fits_of. unfold len_of in *. lia.
    + by rewrite wire_map, app_nil_r.
Qed.

Lemma decode_step_ok random b base0 s : Forall is_byte b -> dinv b base0 s ->
  outcome_ok b base0 (decode_left s) (decode_step random s).
Proof.
  intros Hb. destruct s as [[r stack] seeds]. intros (Hr & E & Hs). unfold decode_step.
  destruct stack as [|top below].
  { apply decode_node_ok; [done|done|constructor|done|done]. }
  destruct Hs as [Htop Hbelow]. destruct (frame_left top =? 0) eqn:Eleft.
  - destruct (finished_wf r top Htop Eleft) as [Hv Hw].
    apply deliver_ok; [done|done|done| |simpl; lia]. rewrite Hw, E. cbn [stack_bytes].
    by rewrite <- app_assoc.
  - pose proof (frame_awaits r top Htop Eleft) as Ha. destruct top as [l n|mp n key seen].
    + apply decode_node_ok; [done|done|by constructor|done|done].
    + cbn [frame_left] in Ha. destruct Htop as (Hl & Hnd & Hseen & Hn & Hlt & ->).
      pose proof (text_spec r (proj2 (proj2 Hr)) (reading_all_bytes _ _ _ Hb Hr)) as Ht.
      destruct (read_text r) as [[k r1]|f]; cbn [mbind result_bind]; [|by eapply bad_at_in].
      destruct Ht as (Ht & Hu & Hk). pose proof (reading_took _ _ _ _ _ Hr Ht) as Hr1.
      pose proof (wtook_length _ _ _ Ht) as Hlen. pose proof Ht as (Er1 & Erest & _).
      apply decode_node_ok; [done|done| | |simpl; lia].
      * constructor; [|by subst r1; eapply frames_ok_reader; [..|exact Hbelow]].
        split_and!; try done. exists k, (offset r). split_and!; try done.
        -- by apply fits_of.
        -- subst r1. unfold offset. simpl. lia.
        -- subst r1. unfold offset. simpl. pose proof (proj2 (proj2 Hr)) as H. unfold reader_ok in H. lia.
      * rewrite E, Erest. cbn [stack_bytes frame_bytes pending_key]. rewrite !app_nil_r.
        rewrite <- !app_assoc. cbn [app]. by rewrite <- !app_assoc.
Qed.

Lemma decode_loop_ok random b base0 fuel : Forall is_byte b -> forall s, dinv b base0 s ->
  (decode_left s < fuel)%nat ->
  match loop (decode_step random) fuel Panic s with
  | Ok v => value_wf v /\ wire v = b
  | Err f => bad_in b base0 f
  end.
Proof.
  intros Hb. induction fuel as [|fuel IH]; intros s Hs Hf; [lia|]. simpl.
  pose proof (decode_step_ok random b base0 s Hb Hs) as H.
  destruct (decode_step random s) as [[s'|v]|f]; [|done..]. destruct H as [Hs' Hlt].
  apply IH; [done|lia].
Qed.

Lemma decode_start b base0 seeds :
  dinv b base0 (MkWireReader b 0 base0, [], seeds) /\
  (decode_left (MkWireReader b 0 base0, [], seeds) < 2 + 2 * length b)%nat.
Proof.
  split; [|unfold decode_left, wrest; simpl; rewrite drop_0; lia].
  split; [split_and!; [done|done|unfold reader_ok; simpl; lia]|]. split; [|done].
  simpl. unfold wrest. simpl. by rewrite drop_0.
Qed.

Lemma decode_sound random b base0 seeds : Forall is_byte b ->
  match decode_seeded random b base0 seeds with
  | Ok v => value_wf v /\ wire v = b
  | Err f => bad_in b base0 f
  end.
Proof.
  intros Hb. destruct (decode_start b base0 seeds) as [H1 H2].
  by apply (decode_loop_ok random b base0 (2 + 2 * length b) Hb).
Qed.

Lemma utf8_bytes_aux n : forall l, (length l <= n)%nat -> is_utf8 l = true -> Forall is_byte l.
Proof.
  induction n as [|n IH]; intros l Hl H; (destruct l as [|b l]; [constructor|]); simpl in Hl; [lia|].
  unfold is_byte. cbn [is_utf8] in H. unfold is_cont in H.
  repeat case_match; try done; bprop H;
    repeat match goal with E : _ && _ = true |- _ => bprop E end;
    repeat match goal with E : (_ =? _) = true |- _ => apply Z.eqb_eq in E; subst end;
    repeat (constructor; [unfold is_byte; lia|]); apply IH; simpl in *; (lia || tauto).
Qed.

Lemma utf8_bytes l : is_utf8 l = true -> Forall is_byte l.
Proof. by apply (utf8_bytes_aux (length l)). Qed.

(** ** Bytes and values, one to one *)

Lemma decode_wire random v base0 seeds : value_wf v -> Forall is_byte (wire v) ->
  decode_seeded random (wire v) base0 seeds = Ok v.
Proof.
  intros Hv Hb. destruct (decode_start (wire v) base0 seeds) as [H1 H2].
  set (s := (MkWireReader (wire v) 0 base0, [], seeds)) in *.
  assert (Hr : reader_ok (MkWireReader (wire v) 0 base0)) by (unfold reader_ok; simpl; lia).
  destruct (wf_decodes random v Hv (MkWireReader (wire v) 0 base0) [] seeds [] Hr) as [seeds' Hrun].
  { rewrite app_nil_r. unfold wrest. simpl. by rewrite drop_0. }
  assert (Hd : deliver v (wadv (length (wire v)) (MkWireReader (wire v) 0 base0)) [] seeds' = Ok (inr v)).
  { simpl. rewrite decide_False; [done|]. simpl. lia. }
  rewrite Hd in Hrun.
  destruct (runs_loop random _ v (runs_step random s _ Hrun) s eq_refl) as [n Hn].
  unfold decode_seeded. fold s. rewrite <- (Hn (n + (2 + 2 * length (wire v)))%nat) by lia.
  apply (loop_fuel (decode_step random) (dinv (wire v) base0) decode_left); [|done|lia|lia].
  intros s1 s2 Hs1 Es. pose proof (decode_step_ok random _ _ s1 Hb Hs1) as Ho. by rewrite Es in Ho.
Qed.

Lemma leb_bytes n : 0 <= n < 2 ^ 64 -> Forall is_byte (leb n).
Proof.
  revert n. apply leb_ind.
  - intros n Hn. rewrite leb_unfold by lia. rewrite (proj2 (Z.ltb_lt n 128)) by lia.
    apply Forall_singleton. unfold is_byte. lia.
  - intros n Hn IH. rewrite leb_unfold by lia. rewrite (proj2 (Z.ltb_ge n 128)) by lia.
    constructor; [unfold is_byte; dlia|done].
Qed.

Lemma key_wire_bytes k : Forall is_byte k -> fits k -> Forall is_byte (key_wire k).
Proof. intros. apply Forall_app. split; [by apply leb_bytes, fits_len|done]. Qed.

Lemma Forall_concat_map {A} (P : Z -> Prop) (f : A -> bytes) l :
  Forall (λ x, Forall P (f x)) l -> Forall P (concat (map f l)).
Proof. induction 1; [constructor|]. simpl. by apply Forall_app. Qed.

Lemma wire_bytes v : value_wf v -> Forall is_byte (wire v).
Proof.
  induction v as [| |b|t|t|t|l IH|m IH|n] using value_ind'; intros Hv.
  - by repeat constructor.
  - by repeat constructor.
  - by destruct b; repeat constructor.
  - destruct Hv as [Hn Hf]. constructor; [done|]. apply key_wire_bytes; [|done].
    by apply utf8_bytes, json_number_utf8, is_number_spec.
  - destruct Hv as [Hn Hf]. constructor; [done|]. apply key_wire_bytes; [|done]. by apply utf8_bytes.
  - destruct Hv as [Hn Hf]. constructor; [done|]. by apply key_wire_bytes.
  - apply value_wf_list in Hv as [Hf Hl]. rewrite wire_list. constructor; [done|].
    apply Forall_app. split; [by apply leb_bytes, fits_len|]. apply Forall_concat_map.
    eapply Forall_impl; [exact (proj2 (Forall_and _ l) (conj IH Hl))|]. naive_solver.
  - apply value_wf_map in Hv as (Hf & _ & Hl). rewrite wire_map. constructor; [done|].
    apply Forall_app. split; [by apply leb_bytes, fits_len|]. apply Forall_concat_map.
    eapply Forall_impl; [exact (proj2 (Forall_and _ m) (conj IH Hl))|].
    intros [k x] [Hx (Hu & Hk & Hw)]. cbn [fst snd] in *. apply Forall_app.
    split; [apply key_wire_bytes; [by apply utf8_bytes|done]|auto].
  - done.
Qed.

Lemma wf_not_refused v : value_wf v -> refused v = None.
Proof.
  induction v as [| |b|t|t|t|l IH|m IH|n] using value_ind'; intros Hv; try done.
  - destruct Hv as [Hn _]. unfold refused. by rewrite Hn.
  - destruct Hv as [Hn _]. unfold refused. by rewrite Hn.
  - apply value_wf_list in Hv as [_ Hl]. rewrite refused_list. apply refused_all_None.
    eapply Forall_impl; [exact (proj2 (Forall_and _ l) (conj IH Hl))|]. naive_solver.
  - apply value_wf_map in Hv as (_ & _ & Hl). rewrite refused_map.
    assert (keys_are_text m = true) as ->.
    { apply keys_are_text_spec. eapply Forall_impl; [exact Hl|]. by intros ? []. }
    apply refused_all_None, Forall_map.
    eapply Forall_impl; [exact (proj2 (Forall_and _ m) (conj IH Hl))|].
    intros e [He (_ & _ & Hw)]. auto.
Qed.

(** ** The seeds decide nothing *)

(** A state but for the seeds and the hashes. *)
Definition erase_frame (f : Frame) : Frame :=
  match f with FList l n => FList l n | FMap m n key _ => FMap m n key None end.
Definition erase (x : result (fault WireError) (DecodeState + Value))
    : result (fault WireError) ((WireReader * list Frame) + Value) :=
  match x with
  | Ok (inl (r, stack, _)) => Ok (inl (r, map erase_frame stack))
  | Ok (inr v) => Ok (inr v)
  | Err f => Err f
  end.
Definition top_seen (stack : list Frame) : Prop :=
  match stack with FMap m _ _ seen :: _ => seen_ok m seen | _ => True end.

Lemma deliver_erase v r stack stack' seeds seeds' : top_seen stack -> top_seen stack' ->
  map erase_frame stack = map erase_frame stack' ->
  erase (deliver v r stack seeds) = erase (deliver v r stack' seeds').
Proof.
  intros Ht Ht' E. destruct stack as [|[l n|m n key seen] below], stack' as [|[l' n'|m' n' key' seen'] below'];
    try done; cbn [deliver].
  - injection E as -> -> E. simpl. by rewrite E.
  - injection E as -> -> -> E. destruct key' as [[k ka]|]; [|done].
    destruct (seen_check m' k seen Ht) as (s1 & -> & _).
    destruct (seen_check m' k seen' Ht') as (s2 & -> & _).
    destruct (contains_key m' k); [done|]. simpl. by rewrite E.
Qed.

Lemma decode_node_erase random random' r stack stack' seeds seeds' : top_seen stack -> top_seen stack' ->
  map erase_frame stack = map erase_frame stack' ->
  erase (decode_node random r stack seeds) = erase (decode_node random' r stack' seeds').
Proof.
  intros Ht Ht' E. unfold decode_node. destruct (read_node r) as [[[v|n|n] r1]|f]; cbn [mbind result_bind].
  - by apply deliver_erase.
  - destruct (n =? 0); [by apply deliver_erase|]. simpl. by rewrite E.
  - destruct (n =? 0); [by apply deliver_erase|].
    destruct (if Z.of_nat LINEAR <? n then _ else _) as [s1 d1].
    destruct (if Z.of_nat LINEAR <? n then _ else _) as [s2 d2]. simpl. by rewrite E.
  - done.
Qed.

Lemma decode_step_erase random random' b base0 s s' : dinv b base0 s -> dinv b base0 s' ->
  erase (Ok (inl s)) = erase (Ok (inl s')) ->
  erase (decode_step random s) = erase (decode_step random' s').
Proof.
  destruct s as [[r stack] seeds], s' as [[r' stack'] seeds'].
  intros (_ & _ & Hs) (_ & _ & Hs') E. injection E as -> E. unfold decode_step.
  assert (Hseen : forall f below, Forall (frame_ok r' true) (f :: below) -> top_seen (f :: below)).
  { intros f below H. apply Forall_cons_iff in H as [H _]. destruct f; [done|]. by destruct H as (_ & _ & ? & _). }
  assert (Hbelow : forall below, Forall (frame_ok r' true) below -> top_seen below).
  { intros [|f below] H; [done|]. by apply Hseen. }
  destruct stack as [|top below], stack' as [|top' below']; try done.
  { by apply decode_node_erase. }
  injection E as Et E. destruct Hs as [Htop Hb], Hs' as [Htop' Hb'].
  destruct top as [l n|m n key seen], top' as [l' n'|m' n' key' seen']; try done; cbn [frame_left].
  - injection Et as -> ->. destruct (n' =? 0).
    + apply deliver_erase; auto.
    + apply decode_node_erase; [done|done|]. simpl. by rewrite E.
  - injection Et as -> -> ->. destruct (n' =? 0).
    + apply deliver_erase; auto.
    + destruct (read_text r') as [[k r1]|f]; [|done]. cbn [mbind result_bind].
      apply decode_node_erase; [by destruct Htop as (_ & _ & ? & _)|by destruct Htop' as (_ & _ & ? & _)|].
      simpl. by rewrite E.
Qed.

Lemma decode_loop_erase random random' b base0 fuel : Forall is_byte b -> forall s s',
  dinv b base0 s -> dinv b base0 s' -> erase (Ok (inl s)) = erase (Ok (inl s')) ->
  loop (decode_step random) fuel Panic s = loop (decode_step random') fuel Panic s'.
Proof.
  intros Hb. induction fuel as [|fuel IH]; intros s s' Hs Hs' E; [done|]. simpl.
  pose proof (decode_step_erase random random' b base0 s s' Hs Hs' E) as H.
  pose proof (decode_step_ok random b base0 s Hb Hs) as O.
  pose proof (decode_step_ok random' b base0 s' Hb Hs') as O'.
  destruct (decode_step random s) as [[s1|v]|f], (decode_step random' s') as [[s2|v']|f'];
    try (destruct s1 as [[??]?]); try (destruct s2 as [[??]?]); try done.
  - apply IH; [apply O|apply O'|exact H].
  - by injection H as ->.
  - by injection H as ->.
Qed.

(** ** Properties *)

(** C2: the encoding is canonical and complete: bytes decode to a value exactly
    when they are its encoding, so what is decoded is what was sent, every
    well-formed tree of any depth survives the trip, and no two bytes strings
    decode to one value. *)
Theorem decode_exactly_wire (random : Seeded) (seeds : option Seeded) (b : bytes) (base0 : nat)
    (v : Value) (Hb : Forall is_byte b) :
  decode_seeded random b base0 seeds = Ok v <-> value_wf v /\ wire v = b.
Proof.
  split.
  - intros E. pose proof (decode_sound random b base0 seeds Hb) as H. by rewrite E in H.
  - intros [Hv <-]. by apply decode_wire.
Qed.

Lemma decode_exactly_wire_witness :
  decode (MkSeeded 7 0) [7; 2; 1; 110; 3; 4; 49; 46; 49; 48; 1; 108; 6; 2; 1; 2; 1] =
    Ok (VMap [(bs "n", VNumber (bs "1.10")); (bs "l", VList [VNull; VBool true])]).
Proof.
  apply (decode_exactly_wire (MkSeeded 7 0) None
    [7; 2; 1; 110; 3; 4; 49; 46; 49; 48; 1; 108; 6; 2; 1; 2; 1] 0).
  - repeat constructor; discriminate.
  - split; [|reflexivity]. apply value_wf_map. split; [vm_compute; discriminate|].
    split; [apply (bool_decide_unpack _); vm_compute; exact I|].
    repeat (apply Forall_cons_iff; split; [split; [reflexivity|split; [vm_compute; discriminate|]]|]);
      [..|constructor].
    + split; [vm_compute; reflexivity|vm_compute; discriminate].
    + apply value_wf_list. split; [vm_compute; discriminate|]. by repeat constructor.
Defined.

(** What [to_bytes] writes for a well-formed tree is read back as that
    tree, byte for byte and whatever its depth, and never refused. *)
Theorem wire_roundtrip (random : Seeded) (v : Value) (Hv : value_wf v) :
  exists b, to_bytes v = Ok b /\ encoded_len v = Ok (len_of b) /\ decode random b = Ok v.
Proof.
  exists (wire v). pose proof (wf_lengths_fit v Hv) as Hl.
  split; [unfold to_bytes; rewrite encode_enc by done; unfold enc; by rewrite wf_not_refused|].
  split; [pose proof (encoded_len_spec v Hl) as H; by rewrite wf_not_refused in H|].
  apply decode_wire; [done|by apply wire_bytes].
Qed.

Lemma wire_roundtrip_witness :
  exists b, to_bytes (VList [VString (bs "a"); VAbsent]) = Ok b /\
    encoded_len (VList [VString (bs "a"); VAbsent]) = Ok (len_of b) /\
    decode (MkSeeded 1 2) b = Ok (VList [VString (bs "a"); VAbsent]).
Proof.
  apply (wire_roundtrip (MkSeeded 1 2) (VList [VString (bs "a"); VAbsent])).
  apply value_wf_list. split; [vm_compute; discriminate|].
  repeat (apply Forall_cons_iff; split); [|..|constructor]; [|done].
  split; [reflexivity|vm_compute; discriminate].
Defined.

(** C3: decoding any bytes returns: a well-formed value, or a refusal that names
    an offset of the bytes as the caller counts them; it never panics and no
    loop runs past its bound. *)
Theorem decode_total (random : Seeded) (seeds : option Seeded) (b : bytes) (base0 : nat)
    (Hb : Forall is_byte b) :
  (exists v, decode_seeded random b base0 seeds = Ok v /\ value_wf v) \/
  (exists e, decode_seeded random b base0 seeds = Err (Refuse e) /\
     (base0 <= wire_at e <= base0 + length b)%nat).
Proof.
  pose proof (decode_sound random b base0 seeds Hb) as H.
  destruct (decode_seeded random b base0 seeds) as [v|f]; [left; exists v; tauto|].
  right. destruct H as (e & -> & H). by exists e.
Qed.

Lemma decode_total_witness : decode_at (MkSeeded 1 2) [6; 1; 8] 10 = Err (Refuse (BadTag 12 8)).
Proof.
  destruct (decode_total (MkSeeded 1 2) None [6; 1; 8] 10) as [(v & E & _)|(e & E & _)].
  - repeat constructor; discriminate.
  - vm_compute in E. discriminate E.
  - vm_compute in E. injection E as <-. vm_compute. reflexivity.
Defined.

(** The seeds a wide map's keys are hashed under never decide anything: a
    value or a refusal, it is the same under any seeds, drawn or given, even
    where every key collides. *)
Theorem decode_ignores_seeds (random random' : Seeded) (seeds seeds' : option Seeded)
    (b : bytes) (base0 : nat) (Hb : Forall is_byte b) :
  decode_seeded random b base0 seeds = decode_seeded random' b base0 seeds'.
Proof.
  unfold decode_seeded. apply (decode_loop_erase random random' b base0); [done|..|done];
    apply decode_start.
Qed.

Lemma decode_ignores_seeds_witness :
  decode_seeded (MkSeeded 7 0) [7; 2; 1; 97; 1; 1; 97; 1] 0 None = Err (Refuse (RepeatedKey 5)).
Proof.
  rewrite (decode_ignores_seeds (MkSeeded 7 0) (MkSeeded 1 2) None (Some (MkSeeded 3 4))).
  - vm_compute. reflexivity.
  - repeat constructor; discriminate.
Defined.
