(* ===== verification/Walk.v ===== *)
(** * Whole-tree walks

    [value/walk.rs]: the deep copy, structural equality and the hash of a tree's
    structure, each the source's loop over an explicit stack, and the recursive
    definition each of them is.

    Where a copy is built (the allocators a node recorded) is not modelled: a
    copy is what it reads, and an allocator does not refuse. *)

From S2P Require Import Prelude Errors Number Value Maps Encode.

(** ** Copying *)

(** [Built] and [Left]: a container being filled, and what is left of its
    source. *)
Inductive Built : Type :=
  | BuiltList (l : list Value)
  | BuiltMap (m : Map).
Inductive CopyLeft : Type :=
  | LeftList (items : list Value)
  | LeftMap (entries : Map).

(** [Copying]: a container being copied, with the key it goes under. *)
Record Copying := MkCopying { built : Built; left_ : CopyLeft; ckey : option bytes }.

(** [Built::into_value]. *)
Definition built_value (b : Built) : Value :=
  match b with BuiltList l => VList l | BuiltMap m => VMap m end.

(** [Copying::list] and [Copying::map]. *)
Definition copying_list (src : list Value) (key : option bytes) : Copying :=
  MkCopying (BuiltList []) (LeftList src) key.
Definition copying_map (src : Map) (key : option bytes) : Copying :=
  MkCopying (BuiltMap []) (LeftMap src) key.

(** [Copying::next]: the next child and its key, and the container moved past
    it. *)
Definition copying_next (c : Copying) : option ((option bytes * Value) * Copying) :=
  match left_ c with
  | LeftList (x :: items) => Some ((None, x), MkCopying (built c) (LeftList items) (ckey c))
  | LeftMap (e :: entries) => Some ((Some e.1, e.2), MkCopying (built c) (LeftMap entries) (ckey c))
  | _ => None
  end.

(** [Copying::attach]. *)
Definition attach (c : Copying) (key : option bytes) (v : Value) : result (fault ValueError) Copying :=
  match built c with
  | BuiltList l => Ok (MkCopying (BuiltList (l ++ [v])) (left_ c) (ckey c))
  | BuiltMap m =>
      k ← ok_or key Panic;
      Ok (MkCopying (BuiltMap (insert_node m k v)) (left_ c) (ckey c))
  end.

(** [Step], and [step]: a child copied on the spot, or opened to be filled. *)
Inductive Step : Type :=
  | CopiedLeaf (v : Value)
  | OpenContainer (c : Copying).
Definition copy_step (node : Value) (key : option bytes) : result (fault ValueError) Step :=
  t ← map_err Refuse (tag node);
  match t with
  | GUATIAO_LIST =>
      l ← ok_or (as_list node) (Refuse WrongKind); Ok (OpenContainer (copying_list l key))
  | GUATIAO_MAP =>
      m ← ok_or (as_map node) (Refuse NotUtf8); Ok (OpenContainer (copying_map m key))
  | GUATIAO_ABSENT => Ok (CopiedLeaf VAbsent)
  | GUATIAO_NULL => Ok (CopiedLeaf VNull)
  | GUATIAO_BOOL => b ← ok_or (as_bool node) (Refuse WrongKind); Ok (CopiedLeaf (VBool b))
  | GUATIAO_STRING => t ← ok_or (as_text node) (Refuse NotUtf8); Ok (CopiedLeaf (VString t))
  | GUATIAO_NUMBER => n ← ok_or (as_number node) (Refuse WrongKind); Ok (CopiedLeaf (VNumber n))
  | GUATIAO_BYTES => b ← ok_or (as_buffer node) (Refuse WrongKind); Ok (CopiedLeaf (VBytes b))
  end.

(** One round of [copy_tree]'s loop; the top of the stack is its head. *)
Definition copy_round (stack : list Copying) : result (fault ValueError) (list Copying + Built) :=
  match stack with
  | [] => Err Panic
  | top :: below =>
      match copying_next top with
      | Some ((key, node), top) =>
          s ← copy_step node key;
          match s with
          | CopiedLeaf copy => top ← attach top key copy; Ok (inl (top :: below))
          | OpenContainer c => Ok (inl (c :: top :: below))
          end
      | None =>
          match below with
          | parent :: below =>
              parent ← attach parent (ckey top) (built_value (built top));
              Ok (inl (parent :: below))
          | [] => Ok (inr (built top))
          end
      end
  end.

(** What is left of a container, in rounds. *)
Definition left_nodes (l : CopyLeft) : nat :=
  match l with LeftList l => items_size l | LeftMap m => items_size (map snd m) end.

(** [copy_tree] and its entry points. *)
Definition copy_tree (root : Copying) : result (fault ValueError) Built :=
  loop copy_round (2 + left_nodes (left_ root)) Panic [root].
Definition copy_value (node : Value) : result (fault ValueError) Value :=
  s ← copy_step node None;
  match s with
  | CopiedLeaf copy => Ok copy
  | OpenContainer root => b ← copy_tree root; Ok (built_value b)
  end.
Definition copy_list (l : list Value) : result (fault ValueError) (list Value) :=
  b ← copy_tree (copying_list l None);
  match b with BuiltList copy => Ok copy | BuiltMap _ => Err Panic end.
Definition copy_map (m : Map) : result (fault ValueError) Map :=
  b ← copy_tree (copying_map m None);
  match b with BuiltMap copy => Ok copy | BuiltList _ => Err Panic end.

(** ** Equality *)

(** [Pair]. *)
Inductive Pair : Type :=
  | PValues (a b : Value)
  | PLists (a b : list Value)
  | PMaps (a b : Map).

(** [Value::text_bytes] and [Value::map_arm]: the storage under a tag, its
    content unchecked. *)
Definition text_bytes (v : Value) (t : Tag) : option bytes :=
  match v, t with
  | VString s, GUATIAO_STRING | VNumber s, GUATIAO_NUMBER => Some s
  | _, _ => None
  end.
Definition map_arm (v : Value) : option Map := match v with VMap m => Some m | _ => None end.

(** [same]: both as a type, by its own equality. *)
Definition same {A} `{EqDecision A} (door : Value -> option A) (a b : Value) : bool :=
  match door a, door b with Some x, Some y => bool_decide (x = y) | _, _ => false end.

(** [values]: two nodes compared, with the children left to compare. *)
Definition values_equal (a b : Value) (stack : list Pair) : bool * list Pair :=
  if negb (raw_tag a =? raw_tag b) then (false, stack)
  else
    match tag a with
    | Ok GUATIAO_ABSENT | Ok GUATIAO_NULL | Err _ => (true, stack)
    | Ok GUATIAO_BOOL => (same as_bool a b, stack)
    | Ok GUATIAO_STRING =>
        (bool_decide (text_bytes a GUATIAO_STRING = text_bytes b GUATIAO_STRING), stack)
    | Ok GUATIAO_NUMBER =>
        (bool_decide (text_bytes a GUATIAO_NUMBER = text_bytes b GUATIAO_NUMBER), stack)
    | Ok GUATIAO_BYTES => (same as_buffer a b, stack)
    | Ok GUATIAO_LIST =>
        match as_list a, as_list b with
        | Some x, Some y => (true, PLists x y :: stack)
        | _, _ => (false, stack)
        end
    | Ok GUATIAO_MAP =>
        match map_arm a, map_arm b with
        | Some x, Some y => (true, PMaps x y :: stack)
        | _, _ => (false, stack)
        end
    end.

(** The entries of two maps paired off while their keys agree. *)
Fixpoint entries_equal (l : list ((bytes * Value) * (bytes * Value))) (stack : list Pair)
    : bool * list Pair :=
  match l with
  | [] => (true, stack)
  | (x, y) :: l =>
      if decide (x.1 = y.1) then entries_equal l (PValues x.2 y.2 :: stack) else (false, stack)
  end.

(** One round of [equal]'s loop: [next.take()], else the top of the stack. *)
Definition equal_round (s : option Pair * list Pair)
    : result unit ((option Pair * list Pair) + bool) :=
  let '(next, stack) := s in
  match (match next with Some p => Some (p, stack)
         | None => match stack with p :: stack => Some (p, stack) | [] => None end end) with
  | None => Ok (inr true)
  | Some (p, stack) =>
      let '(same, stack) :=
        match p with
        | PValues a b => values_equal a b stack
        | PLists a b =>
            if (length a =? length b)%nat
            then (true, rev (zip_with PValues a b) ++ stack) else (false, stack)
        | PMaps a b =>
            if (length a =? length b)%nat then entries_equal (zip a b) stack else (false, stack)
        end in
      if negb same then Ok (inr false) else Ok (inl (None, stack))
  end.

Definition pair_size (p : Pair) : nat :=
  match p with
  | PValues a _ => vsize a
  | PLists a _ => S (items_size a)
  | PMaps a _ => S (items_size (map snd a))
  end.

(** [equal]. *)
Definition equal (first : Pair) : result unit bool :=
  loop equal_round (2 + pair_size first) tt (Some first, []).

(** ** Hashing *)

(** One call on the [Hasher]. *)
Inductive Token : Type :=
  | WriteU32 (n : Z)
  | WriteU8 (n : Z)
  | WriteUsize (n : Z)
  | Write (b : bytes).

#[export] Instance Token_eq_dec : EqDecision Token.
Proof. solve_decision. Defined.

(** [bytes], inside [hash]. *)
Definition feed_bytes (b : bytes) : list Token := [WriteUsize (len_of b); Write b].

(** One round of [hash]'s loop: what is fed, and the nodes left. *)
Definition hash_round (s : option Value * list Value * list Token)
    : result unit ((option Value * list Value * list Token) + list Token) :=
  let '(next, stack, fed) := s in
  match (match next with Some v => Some (v, stack)
         | None => match stack with v :: stack => Some (v, stack) | [] => None end end) with
  | None => Ok (inr fed)
  | Some (node, stack) =>
      let fed := fed ++ [WriteU32 (raw_tag node)] in
      match tag node with
      | Ok GUATIAO_ABSENT | Ok GUATIAO_NULL | Err _ => Ok (inl (None, stack, fed))
      | Ok GUATIAO_BOOL =>
          let b := match as_bool node with Some b => if b : bool then 1 else 0 | None => 2 end in
          Ok (inl (None, stack, fed ++ [WriteU8 b]))
      | Ok GUATIAO_STRING =>
          Ok (inl (None, stack, fed ++ feed_bytes (default [] (text_bytes node GUATIAO_STRING))))
      | Ok GUATIAO_NUMBER =>
          Ok (inl (None, stack, fed ++ feed_bytes (default [] (text_bytes node GUATIAO_NUMBER))))
      | Ok GUATIAO_BYTES =>
          Ok (inl (None, stack, fed ++ feed_bytes (default [] (as_buffer node))))
      | Ok GUATIAO_LIST =>
          let items := default [] (as_list node) in
          Ok (inl (None, rev (rev items) ++ stack, fed ++ [WriteUsize (len_of items)]))
      | Ok GUATIAO_MAP =>
          let entries := default [] (map_arm node) in
          Ok (inl (None, rev (map snd (rev entries)) ++ stack,
                   foldl (λ fed e, fed ++ feed_bytes (fst e)) (fed ++ [WriteUsize (len_of entries)])
                     entries))
      end
  end.

(** [hash]: the calls made on the hasher. *)
Definition hash_feed (v : Value) : result unit (list Token) :=
  loop hash_round (1 + vsize v) tt (Some v, [], []).

(** ** The copy is the tree *)

(** What copying refuses: the first node, in the order they are reached, that
    its own door refuses. *)
Fixpoint uncopiable (v : Value) : option ValueError :=
  match v with
  | VNumber t => if is_number t then None else Some WrongKind
  | VString t => if is_utf8 t then None else Some NotUtf8
  | VList l =>
      (fix go l := match l with
        | [] => None
        | x :: l => match uncopiable x with Some e => Some e | None => go l end
        end) l
  | VMap m =>
      if keys_are_text m then
        (fix go m := match m with
          | [] => None
          | e :: m => match uncopiable e.2 with Some e => Some e | None => go m end
          end) m
      else Some NotUtf8
  | VUnknown n => Some (UnknownTag (8 + Z.of_nat n))
  | _ => None
  end.
Fixpoint uncopiable_all (l : list Value) : option ValueError :=
  match l with
  | [] => None
  | x :: l => match uncopiable x with Some e => Some e | None => uncopiable_all l end
  end.

#[global] Arguments uncopiable : simpl never.

Lemma uncopiable_list l : uncopiable (VList l) = uncopiable_all l.
Proof. unfold uncopiable. fold uncopiable. induction l as [|x l IH]; [done|]. simpl. by rewrite <- IH. Qed.

Lemma uncopiable_map m :
  uncopiable (VMap m) = if keys_are_text m then uncopiable_all (map snd m) else Some NotUtf8.
Proof.
  unfold uncopiable. fold uncopiable. destruct (keys_are_text m); [|done].
  induction m as [|x l IH]; [done|]. simpl. by rewrite <- IH.
Qed.

Lemma uncopiable_all_None l : uncopiable_all l = None <-> Forall (λ v, uncopiable v = None) l.
Proof.
  induction l as [|x l IH]; simpl; [by split; [constructor|]|].
  rewrite Forall_cons_iff. destruct (uncopiable x); [naive_solver|]. rewrite IH. naive_solver.
Qed.

(** The recursive copy. *)
Definition copied (v : Value) : result (fault ValueError) Value :=
  match uncopiable v with Some e => Err (Refuse e) | None => Ok v end.

(** A container's copy, from what it holds and what is left of its source. *)
Fixpoint fill_items (b : list Value) (l : list Value) : result (fault ValueError) (list Value) :=
  match l with [] => Ok b | x :: l => v ← copied x; fill_items (b ++ [v]) l end.
Fixpoint fill_entries (b : Map) (m : Map) : result (fault ValueError) Map :=
  match m with [] => Ok b | e :: m => v ← copied e.2; fill_entries (b ++ [(e.1, v)]) m end.
Definition fill (c : Copying) : result (fault ValueError) Built :=
  match built c, left_ c with
  | BuiltList b, LeftList l => BuiltList <$> fill_items b l
  | BuiltMap b, LeftMap m => BuiltMap <$> fill_entries b m
  | _, _ => Err Panic
  end.

(** What remains to do once a container is full, and on a whole stack. *)
Fixpoint copy_finish (b : Built) (key : option bytes) (below : list Copying)
    : result (fault ValueError) Built :=
  match below with
  | [] => Ok b
  | parent :: below =>
      parent ← attach parent key (built_value b);
      b ← fill parent;
      copy_finish b (ckey parent) below
  end.
Definition copy_den (stack : list Copying) : result (fault ValueError) Built :=
  match stack with
  | [] => Err Panic
  | top :: below => b ← fill top; copy_finish b (ckey top) below
  end.

(** A frame over a list fills a list, one over a map a map. *)
Definition frame_fits (c : Copying) : Prop :=
  match built c, left_ c with
  | BuiltList _, LeftList _ | BuiltMap _, LeftMap _ => True
  | _, _ => False
  end.

Definition copy_measure (stack : list Copying) : nat :=
  sum_list_with (λ c, S (left_nodes (left_ c))) stack.

(** A container's copy is its items' copies, in order. *)
Lemma fill_items_spec l : forall b,
  fill_items b l = match uncopiable_all l with Some e => Err (Refuse e) | None => Ok (b ++ l) end.
Proof.
  induction l as [|x l IH]; intros b; simpl; [by rewrite app_nil_r|].
  unfold copied. destruct (uncopiable x); [done|]. cbn. rewrite IH, <- app_assoc. done.
Qed.

Lemma fill_entries_spec m : forall b,
  fill_entries b m =
    match uncopiable_all (map snd m) with Some e => Err (Refuse e) | None => Ok (b ++ m) end.
Proof.
  induction m as [|[k x] m IH]; intros b; simpl; [by rewrite app_nil_r|].
  unfold copied. destruct (uncopiable x); [done|]. cbn. rewrite IH, <- app_assoc. done.
Qed.

(** One node, in either of the two forms a step has. *)
Lemma copy_step_den v key :
  match copy_step v key with
  | Ok (CopiedLeaf c) => copied v = Ok c
  | Ok (OpenContainer c) =>
      copied v = built_value <$> fill c /\ ckey c = key /\ frame_fits c /\
      (S (left_nodes (left_ c)) < vsize v)%nat
  | Err e => copied v = Err e
  end.
Proof.
  unfold copied. destruct v as [| |x|t|t|b|l|m|n].
  9: { unfold copy_step. rewrite tag_unknown. done. }
  all: cbn -[vsize]; try done.
  - unfold uncopiable. by destruct (is_number t).
  - unfold uncopiable. by destruct (is_utf8 t).
  - rewrite uncopiable_list, vsize_list. unfold fill. cbn -[fill_items].
    rewrite fill_items_spec. destruct (uncopiable_all l); cbn; split_and!; done || lia.
  - rewrite uncopiable_map, vsize_map. destruct (keys_are_text m); [|done]. unfold fill.
    cbn -[fill_entries]. rewrite fill_entries_spec.
    destruct (uncopiable_all (map snd m)); cbn; split_and!; done || lia.
Qed.

Lemma attach_fits c key v c' : attach c key v = Ok c' ->
  left_ c' = left_ c /\ ckey c' = ckey c /\ (frame_fits c -> frame_fits c').
Proof.
  unfold attach, frame_fits. intros H. destruct (built c); inv_result; done.
Qed.

(** The next child of a container, and the copy of what is left with it. *)
Lemma copying_next_den c : frame_fits c ->
  match copying_next c with
  | Some ((key, v), c') =>
      frame_fits c' /\ ckey c' = ckey c /\ left_nodes (left_ c) = (vsize v + left_nodes (left_ c'))%nat /\
      fill c = (v' ← copied v; c' ← attach c' key v'; fill c')
  | None => fill c = Ok (built c)
  end.
Proof.
  destruct c as [[b|b] [[|x l]|[|x l]] k]; intros H; try done;
    unfold fill, attach; cbn; split_and!; try done; by destruct (copied _).
Qed.

(** A round does what is left of the stack, and leaves less to do. *)
Lemma copy_round_den stack : Forall frame_fits stack ->
  match copy_round stack with
  | Ok (inl stack') =>
      Forall frame_fits stack' /\ (copy_measure stack' < copy_measure stack)%nat /\
      copy_den stack = copy_den stack'
  | Ok (inr b) => copy_den stack = Ok b
  | Err e => copy_den stack = Err e
  end.
Proof.
  intros Hs. destruct stack as [|top below]; [done|]. apply Forall_cons_iff in Hs as [Ht Hs].
  pose proof (copying_next_den top Ht) as Hn. cbn [copy_round copy_den].
  destruct (copying_next top) as [[[key v] top']|].
  - destruct Hn as (Ht' & Hk & Hl & ->). pose proof (copy_step_den v key) as Hv.
    destruct (copy_step v key) as [[c|c]|e]; cbn [mbind result_bind].
    + rewrite Hv. cbn [mbind result_bind].
      destruct (attach top' key c) as [top2|] eqn:Ea; [|done]. cbn [mbind result_bind].
      destruct (attach_fits _ _ _ _ Ea) as (El & Ek & Ef). split_and!.
      * constructor; auto.
      * unfold copy_measure. cbn [sum_list_with]. rewrite El. pose proof (vsize_pos v). lia.
      * cbn [copy_den]. by rewrite Ek, Hk.
    + destruct Hv as (Hv & Hck & Hc & Hm). split_and!.
      * by repeat constructor.
      * unfold copy_measure. cbn [sum_list_with]. lia.
      * cbn [copy_den copy_finish]. rewrite Hv, Hck. destruct (fill c); [|done]. cbn.
        destruct (attach top' key _) as [top2|] eqn:Ea; [|done]. cbn.
        destruct (attach_fits _ _ _ _ Ea) as (_ & Ek & _). by rewrite Ek, Hk.
    + by rewrite Hv.
  - rewrite Hn. cbn [mbind result_bind]. destruct below as [|parent below]; [done|].
    cbn [copy_finish]. destruct (attach parent _ _) as [p|] eqn:Ea; [|done]. cbn [mbind result_bind].
    destruct (attach_fits _ _ _ _ Ea) as (El & Ek & Ef). apply Forall_cons_iff in Hs as [Hp Hs].
    split_and!; [constructor; auto| |done].
    unfold copy_measure. cbn [sum_list_with]. rewrite El. lia.
Qed.

Lemma copy_tree_den root : frame_fits root -> copy_tree root = fill root.
Proof.
  intros H. unfold copy_tree. rewrite (loop_den _ (Forall frame_fits) copy_measure copy_den).
  - unfold copy_den. cbn [copy_finish]. by destruct (fill root).
  - apply copy_round_den.
  - by constructor.
  - unfold copy_measure. simpl. lia.
Qed.

(** A copy is the tree it copies, or the first refusal; it never panics. *)
Lemma copy_value_spec v : copy_value v = copied v.
Proof.
  unfold copy_value. pose proof (copy_step_den v None) as H.
  destruct (copy_step v None) as [[c|c]|e]; cbn [mbind result_bind]; [done| |done].
  destruct H as (-> & _ & Hf & _). rewrite copy_tree_den by done. by destruct (fill c).
Qed.

(** What copies is what encodes; only a NUMBER that is not one is named
    differently. *)
Lemma uncopiable_refused v : uncopiable v = None <-> refused v = None.
Proof.
  induction v as [| |x|s|s|s|l IH|m IH|s] using value_ind'; try done.
  - unfold uncopiable, refused. by destruct (is_number s).
  - rewrite uncopiable_list, refused_list. induction IH as [|x l Hx _ IHl]; [done|]. simpl.
    destruct (uncopiable x), (refused x); naive_solver.
  - rewrite uncopiable_map, refused_map. destruct (keys_are_text m); [|done].
    induction IH as [|x l Hx _ IHl]; [done|]. simpl.
    destruct (uncopiable x.2), (refused x.2); naive_solver.
Qed.

(** ** The equality is equality *)

Definition pair_eqb (p : Pair) : bool :=
  match p with
  | PValues a b => bool_decide (a = b)
  | PLists a b => bool_decide (a = b)
  | PMaps a b => bool_decide (a = b)
  end.

Lemma values_equal_spec a b stack :
  let '(ok, stack') := values_equal a b stack in
  bool_decide (a = b) && forallb pair_eqb stack = ok && forallb pair_eqb stack' /\
  (ok = true -> sum_list_with pair_size stack' < vsize a + sum_list_with pair_size stack)%nat.
Proof.
  unfold values_equal. destruct (Z.eqb_spec (raw_tag a) (raw_tag b)) as [E|E]; cbn [negb].
  2: { split; [|done]. by rewrite bool_decide_eq_false_2 by congruence. }
  destruct a as [| |x|t|t|b0|l|m|n].
  9: { rewrite tag_unknown. split; [|unfold vsize; lia]. destruct b; simpl in E; try lia.
       by rewrite bool_decide_eq_true_2 by (f_equal; lia). }
  all: destruct b as [| |y|t'|t'|b'|l'|m'|n']; simpl in E; try lia; cbn -[vsize bool_decide].
  all: split; [|try (unfold vsize; lia)].
  all: try (rewrite ?andb_true_l; f_equal; by apply bool_decide_ext; naive_solver).
  - intros _. rewrite vsize_list. lia.
  - intros _. rewrite vsize_map. lia.
Qed.

Lemma zip_pairs a : forall b stack, length a = length b ->
  bool_decide (a = b) && forallb pair_eqb stack =
    forallb pair_eqb (rev (zip_with PValues a b) ++ stack) /\
  sum_list_with pair_size (rev (zip_with PValues a b) ++ stack) =
    (items_size a + sum_list_with pair_size stack)%nat.
Proof.
  induction a as [|x a IH]; intros [|y b] stack Hl; try done. simpl in Hl.
  cbn [zip_with rev]. rewrite <- app_assoc. cbn [app].
  destruct (IH b (PValues x y :: stack)) as [IH1 IH2]; [lia|]. rewrite <- IH1, IH2. split.
  - cbn [forallb pair_eqb]. rewrite andb_assoc. f_equal. rewrite <- bool_decide_and.
    apply bool_decide_ext. naive_solver.
  - cbn [sum_list_with pair_size]. unfold items_size. cbn [sum_list_with]. lia.
Qed.

Lemma entries_equal_spec a : forall b stack, length a = length b ->
  let '(ok, stack') := entries_equal (zip a b) stack in
  bool_decide (a = b) && forallb pair_eqb stack = ok && forallb pair_eqb stack' /\
  (sum_list_with pair_size stack' <= items_size (map snd a) + sum_list_with pair_size stack)%nat.
Proof.
  induction a as [|[k x] a IH]; intros [|[k' y] b] stack Hl; try done. simpl in Hl.
  cbn [zip zip_with entries_equal fst snd]. destruct (decide (k = k')) as [->|Hk].
  - specialize (IH b (PValues x y :: stack) ltac:(lia)).
    destruct (entries_equal _ _) as [ok stack']. destruct IH as [IH1 IH2]. split.
    + rewrite <- IH1. cbn [forallb pair_eqb]. rewrite andb_assoc. f_equal. rewrite <- bool_decide_and.
      apply bool_decide_ext. naive_solver.
    + cbn [sum_list_with pair_size] in IH2. cbn [map]. unfold items_size in *. cbn [sum_list_with snd]. lia.
  - split; [|lia]. by rewrite bool_decide_eq_false_2 by congruence.
Qed.

Definition equal_left (s : option Pair * list Pair) : list Pair :=
  match s.1 with Some p => p :: s.2 | None => s.2 end.

Lemma equal_round_den s :
  match equal_round s with
  | Ok (inl s') =>
      True /\ (sum_list_with pair_size (equal_left s') < sum_list_with pair_size (equal_left s))%nat /\
      Ok (E := unit) (forallb pair_eqb (equal_left s)) = Ok (forallb pair_eqb (equal_left s'))
  | Ok (inr a) => Ok (E := unit) (forallb pair_eqb (equal_left s)) = Ok a
  | Err e => Ok (forallb pair_eqb (equal_left s)) = Err e
  end.
Proof.
  assert (Hp : forall p stack,
    match (let '(same, stack) :=
        match p with
        | PValues a b => values_equal a b stack
        | PLists a b =>
            if (length a =? length b)%nat
            then (true, rev (zip_with PValues a b) ++ stack) else (false, stack)
        | PMaps a b =>
            if (length a =? length b)%nat then entries_equal (zip a b) stack else (false, stack)
        end in
      if negb same then Ok (E := unit) (inr false) else Ok (inl (@None Pair, stack))) with
    | Ok (inl s') =>
        True /\ (sum_list_with pair_size (equal_left s') < sum_list_with pair_size (p :: stack))%nat /\
        Ok (E := unit) (forallb pair_eqb (p :: stack)) = Ok (forallb pair_eqb (equal_left s'))
    | Ok (inr a) => Ok (E := unit) (forallb pair_eqb (p :: stack)) = Ok a
    | Err e => Ok (forallb pair_eqb (p :: stack)) = Err e
    end).
  { intros p stack. destruct p as [a b|a b|a b]; cbn [forallb pair_eqb sum_list_with pair_size].
    - pose proof (values_equal_spec a b stack) as H. destruct (values_equal a b stack) as [[] st];
        destruct H as [-> H]; cbn; [|done]. split_and!; [done| |done]. by apply H.
    - destruct (Nat.eqb_spec (length a) (length b)) as [E|E]; cbn [negb].
      + destruct (zip_pairs a b stack E) as [-> H]. unfold equal_left. cbn [fst snd].
        rewrite H. split_and!; [done|lia|done].
      + by rewrite bool_decide_eq_false_2 by congruence.
    - destruct (Nat.eqb_spec (length a) (length b)) as [E|E]; cbn [negb].
      + pose proof (entries_equal_spec a b stack E) as H. destruct (entries_equal _ _) as [[] st];
          destruct H as [-> H]; cbn; [|done]. unfold equal_left. cbn. split_and!; [done|lia|done].
      + by rewrite bool_decide_eq_false_2 by congruence. }
  destruct s as [[p|] stack]; [exact (Hp p stack)|]. destruct stack as [|p stack]; [done|exact (Hp p stack)].
Qed.

Lemma equal_spec first : equal first = Ok (pair_eqb first).
Proof.
  unfold equal. rewrite (loop_den _ (λ _, True) (λ s, sum_list_with pair_size (equal_left s))
    (λ s, Ok (forallb pair_eqb (equal_left s)))).
  - unfold equal_left. cbn [fst snd forallb]. by rewrite andb_true_r.
  - intros s _. apply equal_round_den.
  - done.
  - unfold equal_left. cbn [fst snd sum_list_with]. lia.
Qed.

(** ** The hash *)

(** What a tree feeds a hasher, recursively: a map's keys before its values. *)
Fixpoint feed (v : Value) : list Token :=
  WriteU32 (raw_tag v) ::
  match v with
  | VBool b => [WriteU8 (if b then 1 else 0)]
  | VNumber t | VString t | VBytes t => feed_bytes t
  | VList l => WriteUsize (len_of l) ::
      (fix go l := match l with [] => [] | x :: l => feed x ++ go l end) l
  | VMap m => WriteUsize (len_of m) :: concat (map (λ e, feed_bytes (fst e)) m) ++
      (fix go m := match m with [] => [] | e :: m => feed (snd e) ++ go m end) m
  | _ => []
  end.

#[global] Arguments feed : simpl never.

Lemma feed_list l : feed (VList l) = WriteU32 6 :: WriteUsize (len_of l) :: concat (map feed l).
Proof. unfold feed. fold feed. do 2 f_equal. induction l as [|x l IH]; [done|]. simpl. by rewrite IH. Qed.

Lemma feed_map m : feed (VMap m) =
  WriteU32 7 :: WriteUsize (len_of m) :: concat (map (λ e, feed_bytes (fst e)) m) ++
    concat (map feed (map snd m)).
Proof.
  unfold feed. fold feed. do 3 f_equal. induction m as [|x l IH]; [done|]. simpl. by rewrite IH.
Qed.

Definition hash_left (s : option Value * list Value * list Token) : list Value :=
  match s.1.1 with Some v => v :: s.1.2 | None => s.1.2 end.
Definition hash_den (s : option Value * list Value * list Token) : result unit (list Token) :=
  Ok (s.2 ++ concat (map feed (hash_left s))).

Lemma foldl_feed (m : Map) : forall fed,
  foldl (λ fed e, fed ++ feed_bytes (fst e)) fed m = fed ++ concat (map (λ e, feed_bytes (fst e)) m).
Proof.
  induction m as [|e m IH]; intros fed; [by rewrite app_nil_r|]. cbn [foldl map concat].
  by rewrite IH, <- app_assoc.
Qed.

Lemma hash_round_den s :
  match hash_round s with
  | Ok (inl s') =>
      True /\ (items_size (hash_left s') < items_size (hash_left s))%nat /\ hash_den s = hash_den s'
  | Ok (inr a) => hash_den s = Ok a
  | Err e => hash_den s = Err e
  end.
Proof.
  assert (Hv : forall v stack fed,
    match hash_round (Some v, stack, fed) with
    | Ok (inl s') =>
        True /\ (items_size (hash_left s') < items_size (v :: stack))%nat /\
        hash_den (Some v, stack, fed) = hash_den s'
    | Ok (inr a) => hash_den (Some v, stack, fed) = Ok a
    | Err e => hash_den (Some v, stack, fed) = Err e
    end).
  { intros v stack fed. unfold hash_round. destruct v as [| |x|t|t|b|l|m|n].
    9: { rewrite tag_unknown. unfold hash_den, hash_left, items_size. cbn [fst snd map concat].
         rewrite <- app_assoc. split_and!; [done|cbn [sum_list_with]; pose proof (vsize_pos (VUnknown n)); lia|done]. }
    all: cbn -[vsize feed]; unfold hash_den, hash_left, items_size; cbn [fst snd map concat sum_list_with].
    all: rewrite <- ?app_assoc.
    all: split_and!; [done| |try done].
    all: try (match goal with |- (_ < vsize ?v + _)%nat => pose proof (vsize_pos v) end; lia).
    - rewrite rev_involutive, sum_list_with_app, vsize_list. unfold items_size. lia.
    - rewrite rev_involutive, map_app, concat_app, feed_list. cbn [app]. done.
    - rewrite <- map_rev, rev_involutive, sum_list_with_app, vsize_map. unfold items_size. lia.
    - rewrite <- map_rev, rev_involutive, map_app, concat_app, feed_map, foldl_feed. cbn [app].
      by rewrite <- !app_assoc. }
  destruct s as [[[v|] stack] fed]; [exact (Hv v stack fed)|].
  destruct stack as [|v stack]; [|exact (Hv v stack fed)].
  unfold hash_den. cbn. by rewrite app_nil_r.
Qed.

Lemma hash_feed_spec v : hash_feed v = Ok (feed v).
Proof.
  unfold hash_feed. rewrite (loop_den _ (λ _, True) (λ s, items_size (hash_left s)) hash_den).
  - unfold hash_den, hash_left. simpl. by rewrite app_nil_r.
  - intros s _. apply hash_round_den.
  - done.
  - unfold hash_left, items_size. simpl. lia.
Qed.

(** Where one tree's input ends is part of the input: no tree's is a prefix of
    another's. *)
Definition feeds_apart (v : Value) : Prop :=
  forall w s t, feed v ++ s = feed w ++ t -> v = w /\ s = t.

Lemma feed_bytes_apart a b s t : feed_bytes a ++ s = feed_bytes b ++ t -> a = b /\ s = t.
Proof. unfold feed_bytes. simpl. intros [=]. by subst. Qed.

Lemma feeds_apart_list l : Forall feeds_apart l -> forall l' s t,
  length l = length l' -> concat (map feed l) ++ s = concat (map feed l') ++ t -> l = l' /\ s = t.
Proof.
  intros H. induction H as [|x l Hx _ IH]; intros [|y l'] s t Hl E; try done.
  cbn [map concat] in E. rewrite <- !app_assoc in E. apply Hx in E as [-> E].
  injection Hl as Hl. apply IH in E as [-> ->]; done.
Qed.

Lemma feed_keys_apart (m : Map) : forall (m' : Map) s t, length m = length m' ->
  concat (map (λ e, feed_bytes (fst e)) m) ++ s = concat (map (λ e, feed_bytes (fst e)) m') ++ t ->
  map fst m = map fst m' /\ s = t.
Proof.
  induction m as [|e m IH]; intros [|e' m'] s t Hl E; try done.
  cbn [map concat] in E. rewrite <- !app_assoc in E. apply feed_bytes_apart in E as [He E].
  injection Hl as Hl. apply IH in E as [Em ->]; [|done]. cbn [map]. by rewrite He, Em.
Qed.

Lemma len_of_inj {A B} (l : list A) (l' : list B) : len_of l = len_of l' -> length l = length l'.
Proof. unfold len_of. lia. Qed.

Lemma map_fst_snd (m m' : Map) : map fst m = map fst m' -> map snd m = map snd m' -> m = m'.
Proof.
  revert m'. induction m as [|[k v] m IH]; intros [|[k' v'] m']; try done.
  simpl. intros [=] [=]. subst. f_equal. auto.
Qed.

Lemma feed_apart v : feeds_apart v.
Proof.
  induction v as [| |x|a|a|a|l IH|m IH|a] using value_ind'; intros w s t E.
  all: destruct w as [| |y|b|b|b|l'|m'|b].
  all: try (unfold feed in E; simpl in E; injection E as E; lia).
  all: try (unfold feed in E; cbn in E; injection E; intros; subst; split; [f_equal; lia|done]).
  - unfold feed in E. cbn in E. injection E as Ex Es. by destruct x, y.
  - rewrite !feed_list in E. cbn [app] in E. injection E as El E. apply len_of_inj in El.
    by apply feeds_apart_list in E as [-> ->].
  - rewrite !feed_map in E. cbn [app] in E. injection E as El E. apply len_of_inj in El.
    rewrite <- !app_assoc in E. apply feed_keys_apart in E as [Ek E]; [|done].
    apply feeds_apart_list in E as [Ev ->].
    + by rewrite (map_fst_snd m m').
    + by apply Forall_map.
    + by rewrite !length_map.
Qed.

(** ** What the walks promise *)

Lemma copy_list_spec l :
  copy_list l = match uncopiable_all l with Some e => Err (Refuse e) | None => Ok l end.
Proof.
  unfold copy_list. rewrite copy_tree_den by done. unfold fill. cbn -[fill_items].
  rewrite fill_items_spec. by destruct (uncopiable_all l).
Qed.

Lemma copy_map_spec m :
  copy_map m = match uncopiable_all (map snd m) with Some e => Err (Refuse e) | None => Ok m end.
Proof.
  unfold copy_map. rewrite copy_tree_den by done. unfold fill. cbn -[fill_entries].
  rewrite fill_entries_spec. by destruct (uncopiable_all (map snd m)).
Qed.

(** Copying a tree of any depth answers the tree itself, or the refusal of
    the first node whose door refuses it, and never panics; a list or a map
    copies when everything in it does; and a tree copies exactly when it
    encodes. *)
Theorem copy_is_the_tree v l m :
  copy_value v = match uncopiable v with Some e => Err (Refuse e) | None => Ok v end /\
  copy_list l = match uncopiable_all l with Some e => Err (Refuse e) | None => Ok l end /\
  copy_map m = match uncopiable_all (map snd m) with Some e => Err (Refuse e) | None => Ok m end /\
  (copy_value v = Ok v <-> refused v = None).
Proof.
  split_and!; [apply copy_value_spec|apply copy_list_spec|apply copy_map_spec|].
  rewrite copy_value_spec, <- uncopiable_refused. unfold copied. by destruct (uncopiable v).
Qed.

(** The equality walk decides equality of whole trees, maps by their entries
    in order, whatever the nodes hold; and the hash walk feeds a hasher the same
    input for two trees exactly when they are equal, one tree's input never the
    beginning of another's. *)
Theorem equal_and_hash_exact a b s t :
  equal (PValues a b) = Ok (bool_decide (a = b)) /\
  (hash_feed a = hash_feed b <-> a = b) /\
  (exists fa fb, hash_feed a = Ok fa /\ hash_feed b = Ok fb /\ (fa ++ s = fb ++ t <-> a = b /\ s = t)).
Proof.
  rewrite !hash_feed_spec, equal_spec. split_and!; [done| |].
  - split; [|by intros ->]. intros [= E]. apply (feed_apart a b [] []). by rewrite !app_nil_r.
  - exists (feed a), (feed b). split_and!; [done..|]. split; [apply feed_apart|by intros [-> ->]].
Qed.
