(* ===== verification/MergePath.v ===== *)
(** * Paths, as segments and as text

    [value/merge/path.rs]: a place in a merged value is a list of segments, and
    its text is what an error message shows and an override table holds.

    Text is its UTF-8 bytes. The source walks [char]s; every character it looks
    for is ASCII, and an ASCII byte is never part of a longer character, so a
    walk by bytes tells the same ones apart and copies the same text. *)

From S2P Require Import Prelude Decimal.

(** The characters with a meaning: quote, dot, brackets, backslash. *)
Definition QUOTE : byte := 34.
Definition DOT : byte := 46.
Definition OPEN : byte := 91.
Definition CLOSE : byte := 93.
Definition BACKSLASH : byte := 92.

(** [is_digits] and [needs_quotes]. *)
Definition is_digits (segment : bytes) : bool :=
  negb (bool_decide (segment = [])) && forallb is_digit segment.
Definition stops (b : byte) : bool := (b =? DOT) || (b =? OPEN) || (b =? CLOSE).
Definition needs_quotes (segment : bytes) : bool :=
  bool_decide (segment = []) || existsb stops segment.

(** The quoted form's characters: a quote or a backslash is escaped. *)
Definition escape (segment : bytes) : bytes :=
  foldl (λ out c, (if (c =? QUOTE) || (c =? BACKSLASH) then out ++ [BACKSLASH] else out) ++ [c])
    [] segment.

(** The body of [render]'s loop, and [render]. *)
Definition render_segment (out : bytes) (at_ : nat) (segment : bytes) : bytes :=
  if is_digits segment then out ++ [OPEN] ++ segment ++ [CLOSE]
  else if needs_quotes segment then out ++ [OPEN; QUOTE] ++ escape segment ++ [QUOTE; CLOSE]
  else (if (0 <? at_)%nat then out ++ [DOT] else out) ++ segment.
Definition render (segments : list bytes) : bytes :=
  foldl (λ out '(at_, segment), render_segment out at_ segment) []
    (imap (λ at_ segment, (at_, segment)) segments).

(** [name]: a bare name, and where it ends. *)
Fixpoint name_run (l : bytes) : nat :=
  match l with b :: l => if stops b then 0 else S (name_run l) | [] => 0 end.
Definition name (chars : bytes) (at_ : nat) : option (bytes * nat) :=
  let run := name_run (drop at_ chars) in
  if (0 <? run)%nat then Some (take run (drop at_ chars), (at_ + run)%nat) else None.

(** The loop over a quoted segment: the segment, and where its closing quote
    is. [l] is the text from [at_]. *)
Fixpoint quoted (l : bytes) (at_ : nat) (segment : bytes) : option (bytes * nat) :=
  match l with
  | [] => None
  | c :: l =>
      if c =? QUOTE then Some (segment, at_)
      else if c =? BACKSLASH then
        match l with
        | [] => None
        | c :: l => quoted l (at_ + 2) (segment ++ [c])
        end
      else quoted l (S at_) (segment ++ [c])
  end.

(** The loop over an unquoted segment: up to a closing bracket or the end. *)
Fixpoint unquoted (l : bytes) (at_ : nat) (segment : bytes) : option (bytes * nat) :=
  match l with
  | [] => Some (segment, at_)
  | c :: l =>
      if c =? CLOSE then Some (segment, at_)
      else if c =? OPEN then None
      else unquoted l (S at_) (segment ++ [c])
  end.

(** The bracketed segment at [at_], past its bracket. *)
Definition bracketed (chars : bytes) (at_ : nat) : option (bytes * nat) :=
  '(segment, at_) ←
    (if decide (chars !! at_ = Some QUOTE) then
       '(segment, at_) ← quoted (drop (S at_) chars) (S at_) []; Some (segment, S at_)
     else
       '(segment, at_) ← unquoted (drop at_ chars) at_ [];
       if decide (segment = []) then None else Some (segment, at_));
  if decide (chars !! at_ = Some CLOSE) then Some (segment, S at_) else None.

(** One round of [parse]'s loop, and [parse]; each round moves on, so the length
    of the text bounds them. *)
Definition parse_step (chars : bytes) (s : nat * list bytes)
    : result unit ((nat * list bytes) + list bytes) :=
  let '(at_, out) := s in
  match chars !! at_ with
  | None => Ok (inr out)
  | Some c =>
      if c =? OPEN then
        '(segment, at_) ← ok_or (bracketed chars (S at_)) tt; Ok (inl (at_, out ++ [segment]))
      else if (c =? DOT) && (0 <? at_)%nat then
        '(segment, at_) ← ok_or (name chars (S at_)) tt; Ok (inl (at_, out ++ [segment]))
      else if (at_ =? 0)%nat then
        '(segment, at_) ← ok_or (name chars at_) tt; Ok (inl (at_, out ++ [segment]))
      else Err tt
  end.
Definition parse (text : bytes) : option (list bytes) :=
  match loop (parse_step text) (S (length text)) tt (0%nat, []) with
  | Ok out => Some out
  | Err _ => None
  end.

Example parse_examples :
  render [bs "a"; bs "b.c"; bs "0"; bs "d"] = bs "a[" ++ [34] ++ bs "b.c" ++ [34] ++ bs "][0].d" /\
  parse (bs "peers[0].name") = Some [bs "peers"; bs "0"; bs "name"] /\
  Forall (λ t, parse t = None) (map bs [".a"; "a."; "a..b"; "a[0"; "a]"; "[a[b]"; "a[0]b"; "a.[0]"]%string).
Proof. by_eval. Qed.

(** ** The grammar *)

Definition bare (s : bytes) : Prop := s <> [] /\ Forall (λ b, stops b = false) s.

(** The text between the quotes of a quoted segment. *)
Inductive escaped : bytes -> bytes -> Prop :=
  | escaped_nil : escaped [] []
  | escaped_plain c b s : c <> QUOTE -> c <> BACKSLASH -> escaped b s -> escaped (c :: b) (c :: s)
  | escaped_pair c b s : escaped b s -> escaped (BACKSLASH :: c :: b) (c :: s).

(** The text between the brackets of a bracketed segment. *)
Inductive bracket_text : bytes -> bytes -> Prop :=
  | bracket_quoted b s : escaped b s -> bracket_text (QUOTE :: b ++ [QUOTE]) s
  | bracket_plain s : s <> [] -> Forall (λ c, c <> OPEN /\ c <> CLOSE) s -> head s <> Some QUOTE ->
      bracket_text s s.

(** What follows a segment, and a whole path. *)
Inductive tail_spells : bytes -> list bytes -> Prop :=
  | tail_end : tail_spells [] []
  | tail_dot s t p : bare s -> tail_spells t p -> tail_spells (DOT :: s ++ t) (s :: p)
  | tail_bracket b s t p : bracket_text b s -> tail_spells t p ->
      tail_spells (OPEN :: b ++ CLOSE :: t) (s :: p).
Inductive spells : bytes -> list bytes -> Prop :=
  | spells_root : spells [] []
  | spells_name s t p : bare s -> tail_spells t p -> spells (s ++ t) (s :: p)
  | spells_bracket b s t p : bracket_text b s -> tail_spells t p ->
      spells (OPEN :: b ++ CLOSE :: t) (s :: p).

(** ** Each step takes what the grammar says *)

Lemma stops_spec b : stops b = true <-> b = DOT \/ b = OPEN \/ b = CLOSE.
Proof. unfold stops. rewrite !orb_true_iff, !Z.eqb_eq. tauto. Qed.

Lemma name_run_spec l : Forall (λ b, stops b = false) (take (name_run l) l) /\
  (forall b, l !! name_run l = Some b -> stops b = true) /\ (name_run l <= length l)%nat.
Proof.
  induction l as [|b l IH]; [by split_and!|]. simpl. destruct (stops b) eqn:E; simpl.
  - split_and!; [constructor|by intros ? [= <-]|lia].
  - destruct IH as (H1 & H2 & H3). split_and!; [by constructor|done|lia].
Qed.

Lemma name_run_app s t : Forall (λ b, stops b = false) s ->
  (forall b, head t = Some b -> stops b = true) -> name_run (s ++ t) = length s.
Proof.
  intros Hs Ht. induction Hs as [|b s Hb _ IH]; simpl.
  - destruct t as [|b t]; [done|]. simpl. by rewrite (Ht b).
  - by rewrite Hb, IH.
Qed.

Lemma head_drop {A} n (l : list A) : head (drop n l) = l !! n.
Proof. revert n. induction l as [|x l IH]; intros [|n]; try done. apply IH. Qed.

Lemma drop_cut {A} n (l a t : list A) : drop n l = a ++ t -> drop (n + length a) l = t.
Proof. intros E. by rewrite <- drop_drop, E, drop_app_length. Qed.

Lemma name_Some chars at_ s e : name chars at_ = Some (s, e) ->
  bare s /\ drop at_ chars = s ++ drop e chars /\ e = (at_ + length s)%nat.
Proof.
  unfold name, bare. set (l := drop at_ chars). destruct (name_run_spec l) as (H1 & H2 & H3).
  destruct (Nat.ltb_spec 0 (name_run l)) as [Hr|]; [|done]. intros [= <- <-].
  rewrite length_take, Nat.min_l by done. split_and!; [|done| |done].
  - destruct l as [|b l']; [simpl in Hr; lia|]. destruct (name_run (b :: l')); [lia|done].
  - rewrite <- drop_drop. fold l. by rewrite take_drop.
Qed.

Lemma name_takes chars at_ s t : bare s -> drop at_ chars = s ++ t ->
  (forall b, head t = Some b -> stops b = true) ->
  name chars at_ = Some (s, (at_ + length s)%nat).
Proof.
  intros [Hn Hs] E Ht. unfold name. rewrite E, name_run_app by done.
  destruct (Nat.ltb_spec 0 (length s)) as [Hr|Hr]; [|destruct s; [done|simpl in Hr; lia]].
  by rewrite take_app_length.
Qed.

Lemma quoted_Some n : forall l at_ acc s e, (length l <= n)%nat -> quoted l at_ acc = Some (s, e) ->
  exists b s' t, l = b ++ QUOTE :: t /\ escaped b s' /\ s = acc ++ s' /\ e = (at_ + length b)%nat.
Proof.
  induction n as [|n IH]; intros [|c l] at_ acc s e Hl H; simpl in Hl; try lia; try done.
  simpl in H. destruct (Z.eqb_spec c QUOTE) as [->|Hq].
  { injection H as <- <-. exists [], [], l. cbn [length]. rewrite app_nil_r, Nat.add_0_r. split_and!; [done|constructor|done|done]. }
  destruct (Z.eqb_spec c BACKSLASH) as [->|Hb].
  - destruct l as [|c l]; [done|]. apply IH in H as (b & s' & t & -> & Hs & -> & ->); [|simpl in Hl; lia].
    exists (BACKSLASH :: c :: b), (c :: s'), t. split_and!; [done|by constructor|by rewrite <- app_assoc|simpl; lia].
  - apply IH in H as (b & s' & t & -> & Hs & -> & ->); [|lia].
    exists (c :: b), (c :: s'), t. split_and!; [done|by constructor|by rewrite <- app_assoc|simpl; lia].
Qed.

Lemma quoted_takes b s : escaped b s -> forall at_ acc t,
  quoted (b ++ QUOTE :: t) at_ acc = Some (acc ++ s, (at_ + length b)%nat).
Proof.
  intros H. induction H as [|c b s Hq Hb _ IH|c b s _ IH]; intros at_ acc t; simpl.
  - by rewrite app_nil_r, Nat.add_0_r.
  - rewrite (proj2 (Z.eqb_neq _ _) Hq), (proj2 (Z.eqb_neq _ _) Hb), IH, <- app_assoc.
    simpl. do 2 f_equal. lia.
  - rewrite IH, <- app_assoc. simpl. do 2 f_equal. lia.
Qed.

Lemma unquoted_Some l : forall at_ acc s e, unquoted l at_ acc = Some (s, e) ->
  exists s' t, l = s' ++ t /\ Forall (λ c, c <> OPEN /\ c <> CLOSE) s' /\ s = acc ++ s' /\
    e = (at_ + length s')%nat.
Proof.
  induction l as [|c l IH]; intros at_ acc s e H; simpl in H.
  { injection H as <- <-. exists [], []. rewrite !app_nil_r. split_and!; [done|apply Forall_nil_2|done|simpl; lia]. }
  destruct (Z.eqb_spec c CLOSE) as [->|Hc].
  { injection H as <- <-. exists [], (CLOSE :: l). rewrite !app_nil_r. split_and!; [done|apply Forall_nil_2|done|simpl; lia]. }
  destruct (Z.eqb_spec c OPEN) as [->|Ho]; [done|].
  apply IH in H as (s' & t & -> & Hs & -> & ->). exists (c :: s'), t.
  split_and!; [done|by constructor|by rewrite <- app_assoc|simpl; lia].
Qed.

Lemma unquoted_takes s : Forall (λ c, c <> OPEN /\ c <> CLOSE) s -> forall at_ acc t,
  unquoted (s ++ CLOSE :: t) at_ acc = Some (acc ++ s, (at_ + length s)%nat).
Proof.
  intros H. induction H as [|c s [Ho Hc] _ IH]; intros at_ acc t; simpl.
  - by rewrite app_nil_r, Nat.add_0_r.
  - rewrite (proj2 (Z.eqb_neq _ _) Hc), (proj2 (Z.eqb_neq _ _) Ho), IH, <- app_assoc.
    simpl. do 2 f_equal. lia.
Qed.

Lemma drop_one {A} n (x : A) l t : drop n l = x :: t -> drop (S n) l = t.
Proof. intros E. rewrite <- (drop_cut n l [x] t E). f_equal. simpl. lia. Qed.

Lemma bracketed_Some chars at_ s e : bracketed chars at_ = Some (s, e) ->
  exists b, drop at_ chars = b ++ CLOSE :: drop e chars /\ bracket_text b s.
Proof.
  unfold bracketed. intros H. apply bind_Some in H as ([s1 e1] & H1 & H).
  destruct (decide (chars !! e1 = Some CLOSE)) as [Hc|]; [|done]. injection H as <- <-.
  destruct (decide (chars !! at_ = Some QUOTE)) as [Hq|Hq].
  - apply bind_Some in H1 as ([s2 e2] & H1 & [= <- <-]).
    apply (quoted_Some _ _ _ _ _ _ (le_n _)) in H1 as (b & s' & t & Eb & Hb & -> & ->).
    exists (QUOTE :: b ++ [QUOTE]). split; [|by constructor].
    rewrite (drop_S _ QUOTE) by done. rewrite Eb. cbn [app]. f_equal. rewrite <- app_assoc. cbn [app].
    do 2 f_equal. apply drop_cut, drop_one in Eb. rewrite <- Eb. by apply drop_S.
  - apply bind_Some in H1 as ([s2 e2] & H1 & H).
    destruct (decide (s2 = [])) as [|Hs]; [done|]. injection H as <- <-.
    apply unquoted_Some in H1 as (s' & t & Eb & Hb & -> & ->). exists s'. split.
    + rewrite Eb. f_equal. apply drop_cut in Eb. rewrite <- Eb. by apply drop_S.
    + apply bracket_plain; [done..|]. rewrite <- head_drop, Eb in Hq. by destruct s'.
Qed.

Lemma bracketed_takes chars at_ b s t : drop at_ chars = b ++ CLOSE :: t -> bracket_text b s ->
  bracketed chars at_ = Some (s, (at_ + length b + 1)%nat).
Proof.
  intros E Hb. unfold bracketed. destruct Hb as [b s Hb|s Hn Hs Hq].
  - cbn [app] in E. rewrite <- app_assoc in E. cbn [app] in E.
    rewrite decide_True by (by rewrite <- head_drop, E).
    rewrite (drop_one _ _ _ _ E), (quoted_takes _ _ Hb). cbn [mbind option_bind app].
    pose proof (drop_cut _ _ _ _ (drop_one _ _ _ _ E)) as E'. apply drop_one in E'.
    rewrite decide_True by (by rewrite <- head_drop, E').
    f_equal. f_equal. simpl. rewrite length_app. simpl. lia.
  - rewrite decide_False by (rewrite <- head_drop, E; by destruct s).
    rewrite E, (unquoted_takes s Hs). cbn [mbind option_bind app].
    rewrite decide_False by done. cbn [mbind option_bind].
    rewrite decide_True by (by rewrite <- head_drop, (drop_cut _ _ _ _ E)).
    do 2 f_equal. lia.
Qed.

(** ** Reading *)

Lemma tail_head t p : tail_spells t p -> forall b, head t = Some b -> stops b = true.
Proof. intros []; intros c [= <-]; done. Qed.

(** Past the first segment, what is left is read exactly when it is a tail. *)
Lemma parse_tail_sound chars f : forall at_ out r, (0 < at_)%nat ->
  loop (parse_step chars) f tt (at_, out) = Ok r ->
  exists p, r = out ++ p /\ tail_spells (drop at_ chars) p.
Proof.
  induction f as [|f IH]; intros at_ out r Hp H; [done|]. cbn [loop parse_step] in H.
  destruct (chars !! at_) as [c|] eqn:Ec.
  2: { injection H as <-. exists []. rewrite app_nil_r, drop_ge; [split; [done|constructor]|].
       by apply lookup_ge_None. }
  apply drop_S in Ec. rewrite Ec. destruct (Z.eqb_spec c OPEN) as [->|Ho].
  - destruct (bracketed chars (S at_)) as [[s e]|] eqn:Eb; [|done]. cbn in H.
    assert (He : (0 < e)%nat).
    { unfold bracketed in Eb. apply bind_Some in Eb as ([? ?] & _ & Eb).
      case_decide; [|done]. injection Eb as _ <-. lia. }
    apply bracketed_Some in Eb as (b & -> & Hb). apply IH in H as (p & -> & Ht); [|done].
    exists (s :: p). rewrite <- app_assoc. split; [done|by constructor].
  - destruct (Z.eqb_spec c DOT) as [->|Hd]; cbn [andb] in H.
    + rewrite (proj2 (Nat.ltb_lt _ _) Hp) in H.
      destruct (name chars (S at_)) as [[s e]|] eqn:Eb; [|done]. cbn in H.
      apply name_Some in Eb as (Hs & -> & ->). apply IH in H as (p & -> & Ht); [|lia].
      exists (s :: p). rewrite <- app_assoc. split; [done|by constructor].
    + rewrite (proj2 (Nat.eqb_neq _ _)) in H by lia. done.
Qed.

Lemma parse_tail_accepts t p : tail_spells t p -> forall chars f at_ out, (0 < at_)%nat ->
  drop at_ chars = t -> (length t < f)%nat ->
  loop (parse_step chars) f tt (at_, out) = Ok (out ++ p).
Proof.
  intros H. induction H as [|s t p Hs Ht IH|b s t p Hb Ht IH]; intros chars [|f] at_ out Hp E Hf;
    simpl in Hf; try lia; cbn [loop parse_step].
  - rewrite <- head_drop, E. simpl. by rewrite app_nil_r.
  - rewrite <- head_drop, E. cbn -[Nat.ltb]. rewrite (proj2 (Nat.ltb_lt _ _) Hp). cbn.
    pose proof (drop_one _ _ _ _ E) as E1. rewrite (name_takes _ _ _ _ Hs E1 (tail_head _ _ Ht)). cbn.
    rewrite IH; [by rewrite <- app_assoc|lia|exact (drop_cut _ _ _ _ E1)|].
    rewrite length_app in Hf. lia.
  - rewrite <- head_drop, E. cbn. pose proof (drop_one _ _ _ _ E) as E1.
    rewrite (bracketed_takes _ _ _ _ _ E1 Hb). cbn.
    rewrite IH; [by rewrite <- app_assoc|lia| |].
    + rewrite <- (drop_cut (S at_) chars (b ++ [CLOSE]) t); [|by rewrite E1, <- app_assoc].
      f_equal. rewrite length_app. simpl. lia.
    + rewrite length_app in Hf. simpl in Hf. lia.
Qed.

Lemma parse_loop_iff t p f : (length t <= f)%nat ->
  loop (parse_step t) (S f) tt (0%nat, []) = Ok p <-> spells t p.
Proof.
  intros Hf. cbn [loop parse_step]. split.
  - destruct t as [|c t]; [intros [= <-]; constructor|]. cbn [lookup list_lookup].
    destruct (Z.eqb_spec c OPEN) as [->|Ho].
    + destruct (bracketed (OPEN :: t) 1) as [[s e]|] eqn:Eb; [|done]. cbn [ok_or mbind result_bind app].
      assert (He : (0 < e)%nat).
      { unfold bracketed in Eb. apply bind_Some in Eb as ([? ?] & _ & Eb).
        case_decide; [|done]. injection Eb as _ <-. lia. }
      apply bracketed_Some in Eb as (b & E & Hb). change (t = b ++ CLOSE :: drop e (OPEN :: t)) in E.
      intros H. apply parse_tail_sound in H as (p' & -> & Ht); [|done]. rewrite E. by constructor.
    + cbn [Nat.ltb Nat.leb]. rewrite andb_false_r. cbn [Nat.eqb].
      destruct (name (c :: t) 0) as [[s e]|] eqn:Eb; [|done]. cbn [ok_or mbind result_bind app].
      apply name_Some in Eb as (Hs & E & ->). change (c :: t = s ++ drop (0 + length s) (c :: t)) in E.
      assert (0 < length s)%nat by (destruct Hs as [Hs _]; destruct s; [done|simpl; lia]).
      intros H'. apply parse_tail_sound in H' as (p' & -> & Ht); [|lia]. rewrite E. by constructor.
  - intros H. destruct H as [|s t p Hs Ht|b s t p Hb Ht]; [done| |].
    + assert (0 < length s)%nat by (destruct Hs as [Hs _]; destruct s; [done|simpl; lia]).
      assert (Hc : exists c, (s ++ t) !! 0%nat = Some c /\ stops c = false).
      { destruct Hs as [Hn Hs]. destruct s as [|c s]; [done|]. exists c. split; [done|].
        by apply Forall_cons_iff in Hs as [? _]. }
      destruct Hc as (c & Hc & Hst). rewrite Hc. cbn [Nat.ltb Nat.leb Nat.eqb].
      rewrite andb_false_r. destruct (Z.eqb_spec c OPEN) as [->|_]; [done|].
      rewrite (name_takes (s ++ t) 0 s t Hs eq_refl (tail_head _ _ Ht)). cbn [ok_or mbind result_bind].
      rewrite length_app in Hf.
      rewrite (parse_tail_accepts t p Ht); [done|lia|by rewrite Nat.add_0_l, drop_app_length|lia].
    + assert (E1 : drop 1 (OPEN :: b ++ CLOSE :: t) = b ++ CLOSE :: t) by done.
      cbn [lookup list_lookup]. change (OPEN =? OPEN) with true. cbv iota.
      rewrite (bracketed_takes _ _ _ _ _ E1 Hb). cbn [ok_or mbind result_bind].
      simpl in Hf. rewrite length_app in Hf. simpl in Hf.
      rewrite (parse_tail_accepts t p Ht); [done|lia| |lia].
      refine (eq_trans _ (drop_cut 1 _ (b ++ [CLOSE]) t _)); [|by rewrite E1, <- app_assoc].
      f_equal. rewrite length_app. simpl. lia.
Qed.

Lemma parse_iff t p : parse t = Some p <-> spells t p.
Proof.
  rewrite <- (parse_loop_iff t p (length t)) by done. unfold parse.
  destruct (loop _ _ _ _); naive_solver.
Qed.

(** ** Writing *)

Lemma escape_acc s : forall acc,
  foldl (λ out c, (if (c =? QUOTE) || (c =? BACKSLASH) then out ++ [BACKSLASH] else out) ++ [c]) acc s
  = acc ++ escape s.
Proof.
  unfold escape. induction s as [|c s IH]; intros acc; cbn [foldl]; [by rewrite app_nil_r|].
  rewrite IH, (IH (_ ++ [c])). rewrite app_assoc. f_equal.
  destruct ((c =? QUOTE) || (c =? BACKSLASH)); [by rewrite <- app_assoc|done].
Qed.

Lemma escape_cons c s :
  escape (c :: s) = (if (c =? QUOTE) || (c =? BACKSLASH) then [BACKSLASH; c] else [c]) ++ escape s.
Proof.
  unfold escape at 1. cbn [foldl]. rewrite escape_acc. f_equal.
  by destruct ((c =? QUOTE) || (c =? BACKSLASH)).
Qed.

Lemma escape_escaped s : escaped (escape s) s.
Proof.
  induction s as [|c s IH]; [constructor|]. rewrite escape_cons.
  destruct ((c =? QUOTE) || (c =? BACKSLASH)) eqn:E; [by constructor|].
  apply orb_false_iff in E as [E1%Z.eqb_neq E2%Z.eqb_neq]. by constructor.
Qed.

Lemma is_digits_spec s : is_digits s = true <-> s <> [] /\ Forall (λ b, 48 <= b <= 57) s.
Proof.
  unfold is_digits. rewrite andb_true_iff, negb_true_iff, bool_decide_eq_false, digits_forallb.
  apply and_iff_compat_l. unfold digits. apply Forall_iff. intros b. apply is_digit_spec.
Qed.

(** A segment is written in brackets, or bare behind its dot. *)
Lemma segment_cases s :
  (exists b, bracket_text b s /\
     forall out at_, render_segment out at_ s = out ++ OPEN :: b ++ [CLOSE]) \/
  (bare s /\
     forall out at_, render_segment out at_ s = (if (0 <? at_)%nat then out ++ [DOT] else out) ++ s).
Proof.
  unfold render_segment. destruct (is_digits s) eqn:Ed.
  { left. exists s. split; [|done]. apply is_digits_spec in Ed as [Hn Hd]. apply bracket_plain; [done| |].
    - eapply Forall_impl; [done|]. unfold OPEN, CLOSE. simpl. lia.
    - destruct Hd as [|c s Hc _]; [done|]. intros [= ->]. unfold QUOTE in Hc. lia. }
  destruct (needs_quotes s) eqn:Eq.
  - left. exists (QUOTE :: escape s ++ [QUOTE]). split; [constructor; apply escape_escaped|].
    intros out at_. f_equal. cbn [app]. by rewrite <- app_assoc.
  - right. split; [|done]. unfold needs_quotes in Eq.
    apply orb_false_iff in Eq as [Hn%bool_decide_eq_false Hs]. split; [done|].
    apply Forall_forall. intros b Hb. destruct (stops b) eqn:E; [|done].
    assert (existsb stops s = true); [|congruence].
    apply existsb_exists. exists b. by rewrite <- list_elem_of_In.
Qed.

(** What a path writes after its first segment. *)
Definition path_text (p : list bytes) : bytes := concat (map (render_segment [] 1) p).

Lemma path_tail p : tail_spells (path_text p) p.
Proof.
  unfold path_text. induction p as [|s p IH]; [constructor|]. cbn [map concat].
  destruct (segment_cases s) as [(b & Hb & ->)|(Hs & ->)]; cbn [Nat.ltb Nat.leb app].
  - rewrite <- app_assoc. by apply tail_bracket.
  - by apply tail_dot.
Qed.

Lemma render_segment_text out at_ s : (0 < at_)%nat ->
  render_segment out at_ s = out ++ render_segment [] 1 s.
Proof.
  intros Hp. destruct (segment_cases s) as [(b & _ & E)|(_ & E)]; rewrite !E; [done|].
  rewrite (proj2 (Nat.ltb_lt _ _) Hp). cbn [Nat.ltb Nat.leb app]. by rewrite <- app_assoc.
Qed.

Lemma render_tail p : forall (f : nat -> nat) out, (forall i, 0 < f i)%nat ->
  foldl (λ out '(at_, segment), render_segment out at_ segment) out
    (imap (λ i segment, (f i, segment)) p) = out ++ path_text p.
Proof.
  unfold path_text. induction p as [|s p IH]; intros f out Hf; [by rewrite app_nil_r|].
  cbn [imap foldl map concat]. rewrite render_segment_text by done.
  etransitivity; [apply (IH (f ∘ S)); intros i; apply Hf|]. by rewrite <- app_assoc.
Qed.

Lemma render_spells p : spells (render p) p.
Proof.
  destruct p as [|s p]; [constructor|]. unfold render. cbn [imap foldl].
  assert (E : forall out, foldl (λ out '(at_, segment), render_segment out at_ segment) out
    (imap ((λ at_ segment, (at_, segment)) ∘ S) p) = out ++ path_text p).
  { intros out. apply (render_tail p S). lia. }
  rewrite E. pose proof (path_tail p) as Ht.
  destruct (segment_cases s) as [(b & Hb & ->)|(Hs & ->)]; cbn [Nat.ltb Nat.leb app].
  - rewrite <- app_assoc. by apply spells_bracket.
  - by apply spells_name.
Qed.

(** ** What paths promise *)

(** The text of a path is read as that path, and only the path grammar is
    read: a text names segments exactly when the grammar spells them so. Two
    paths with one text are one path, so the text a path crosses a boundary as
    never stands for another place. *)
Theorem path_text_exact t p q :
  parse (render p) = Some p /\ (parse t = Some p <-> spells t p) /\ (render p = render q <-> p = q).
Proof.
  assert (R : forall p, parse (render p) = Some p) by (intros; apply parse_iff, render_spells).
  split_and!; [apply R|apply parse_iff|]. split; [|by intros ->].
  intros E. apply (f_equal parse) in E. rewrite !R in E. congruence.
Qed.
