(* ===== verification/Merge.v ===== *)
(** * Merging two values

    [value/merge/mod.rs]: the three modes, per-path overrides, and the folding of
    layers. The functions recurse on each other as the source's do; each call
    takes one unit of fuel, and a recursion the fuel cut short would be a
    [Panic]. [merge_fuel] is never used up: the depth check bounds the calls.

    What the standard library draws at random (the seeds of a key index, the
    hasher of a union) is a parameter. Results are built through an allocator
    that does not refuse. *)

From S2P Require Import Prelude Decimal Errors Number Value Keys Maps Encode Walk MergePath.

(** ** Modes, options and errors *)

(** [MergeMode], with its discriminants. *)
Inductive MergeMode : Type := Simple | Substitute | Deep.
Definition mode_code (m : MergeMode) : Z := match m with Simple => 1 | Substitute => 3 | Deep => 2 end.
Definition default_mode : MergeMode := Substitute.

#[export] Instance MergeMode_eq_dec : EqDecision MergeMode.
Proof. solve_decision. Defined.

(** [MergeOptions]. *)
Record MergeOptions := MkMergeOptions { mergelists : bool }.
Definition no_options : MergeOptions := MkMergeOptions false.
Definition with_mergelists (o : MergeOptions) (on : bool) : MergeOptions := MkMergeOptions on.

(** [MergeError]; its path is text. *)
Inductive MergeError : Type :=
  | Kind (path : bytes) (earlier later : option Tag) (mode : MergeMode)
  | Build (e : ValueError).

#[export] Instance MergeError_eq_dec : EqDecision MergeError.
Proof. solve_decision. Defined.

(** A path is its segments; [child] adds one. *)
Abbreviation path := (list (list Z)) (only parsing).
Definition child (parent : path) (segment : bytes) : path := parent ++ [segment].
Definition index_segment (i : nat) : bytes := dec (Z.of_nat i).

(** [MergeOverrides]: exact paths and their modes. *)
Definition MergeOverrides : Type := gmap (list (list Z)) MergeMode.
Definition overrides_new : MergeOverrides := ∅.
Definition overrides_set (o : MergeOverrides) (p : path) (m : MergeMode) : MergeOverrides := <[p := m]> o.
Definition overrides_get (o : MergeOverrides) (p : path) : option MergeMode := o !! p.
Definition overrides_is_empty (o : MergeOverrides) : bool := bool_decide (o = ∅).

(** [Context], and [Context::mode_at]. *)
Record Context := MkContext {
  c_mode : MergeMode; c_options : MergeOptions; c_overrides : option MergeOverrides }.
Definition mode_at (ctx : Context) (p : path) : MergeMode :=
  default (c_mode ctx) (o ← c_overrides ctx; overrides_get o p).

(** ** Kinds *)

(** [kind], [is_map], [is_list] and [is_scalar]. *)
Definition kind (v : Value) : option Tag := match tag v with Ok t => Some t | Err _ => None end.
Definition is_map (v : Value) : bool := bool_decide (is_Some (as_map v)).
Definition is_list (v : Value) : bool := bool_decide (kind v = Some GUATIAO_LIST).
Definition is_scalar (v : Value) : bool := negb (is_map v) && negb (is_list v).
Definition is_absent (v : Value) : bool := bool_decide (kind v = Some GUATIAO_ABSENT).

(** The items of a list and the entries of a map, none for anything else. *)
Definition items_of (v : Value) : list Value := default [] (as_list v).
Definition entries_of (v : Value) : Map := default [] (as_map v).

Abbreviation merged A := (result (fault MergeError) A) (only parsing).
Definition build (e : ValueError) : fault MergeError := Refuse (Build e).

(** [clone_into]. *)
Definition clone_into (v : Value) : merged Value := map_err (fault_map Build) (copy_value v).

(** ** The union of two lists: items already held *)

(** [SCAN]. *)
Definition SCAN : nat := 16.

(** [Held]. *)
Record Held := MkHeld { h_first : gmap Z nat; h_indexed : nat }.
Definition held_new : Held := MkHeld ∅ 0.

Section merge.
(** The seeds the random state draws, and a hasher's answer to the calls made
    on it. *)
Variable random : Seeded.
Variable finish : list Token -> Z.

(** [Held::hash]; the walk is total ([Walk.hash_feed_spec]). *)
Definition held_hash (v : Value) : Z :=
  match hash_feed v with Ok fed => finish fed | Err _ => 0 end.

(** [Held::contains]: a scan of a short list; for a long one, its new items
    indexed by their hashes first. *)
Definition held_contains (h : Held) (built : list Value) (item : Value) : merged (bool * Held) :=
  if (length built <=? SCAN)%nat then Ok (existsb (λ held, value_eqb held item) built, h)
  else
    let first :=
      foldl (λ first '(at_, held), or_insert first (held_hash held) at_) (h_first h)
        (drop (h_indexed h) (imap (λ at_ held, (at_, held)) built)) in
    let h := MkHeld first (length built) in
    has ← match first !! held_hash item with
          | None => Ok false
          | Some at_ =>
              held ← ok_or (built !! at_) Panic;
              Ok (if value_eqb held item then true else existsb (λ held, value_eqb held item) built)
          end;
    Ok (has, h).

(** [Lookup::contains_key] and [Filling::set_in]. *)
Definition lookup_contains (m : Map) (key : bytes) : bool :=
  bool_decide (is_Some (lookup_get random m key)).
Definition set_in (f : Filling) (key : bytes) (v : Value) : Filling :=
  fst (filling_set random f None key v).

(** [shares_a_key]. *)
Definition shares_a_key (a b : Value) : bool :=
  match as_map a with
  | Some m => existsb (λ e, lookup_contains m e.1) (entries_of b)
  | None => false
  end.

(** ** The rules the modes share *)

(** [merge_maps_recursively]; [rec] is [merge_value] on a child, one deeper. *)
Definition merge_maps_recursively (rec : Value -> Value -> path -> merged Value)
    (earlier later : Value) (p : path) : merged Value :=
  let later_get key := m ← as_map later; lookup_get random m key in
  let earlier_has key := match as_map earlier with Some m => lookup_contains m key | None => false end in
  out ← try_fold (λ out e,
          c ← (match later_get e.1 with
               | Some later_value => rec e.2 later_value (child p e.1)
               | None => clone_into e.2
               end);
          Ok (set_in out e.1 c))
        (with_room [] 0) (entries_of earlier);
  out ← try_fold (λ out e,
          if earlier_has e.1 then Ok out else c ← clone_into e.2; Ok (set_in out e.1 c))
        out (entries_of later);
  Ok (VMap (f_map out)).

(** [absorb_list_of_maps]; [fold] is the mode's own merge, one deeper. *)
Definition absorb_list_of_maps (fold : Value -> Value -> merged Value) (mode : MergeMode)
    (earlier later : Value) (p : path) : merged Value :=
  result ← clone_into earlier;
  try_fold (λ result item,
      if is_map item then fold result item
      else Err (Refuse (Kind (render p) (Some GUATIAO_MAP) (kind item) mode)))
    result (items_of later).

(** The items of the later list that are not maps, each appended unless it is
    held already. *)
Definition append_unique (result : list Value) (later : Value) : merged (list Value * Held) :=
  try_fold (λ '(result, held) item,
      if is_map item then Ok (result, held)
      else
        '(has, held) ← held_contains held result item;
        if has : bool then Ok (result, held) else c ← clone_into item; Ok (result ++ [c], held))
    (result, held_new) (items_of later).

(** [union_lists]; [rec] is [merge_deep] on two maps, one deeper. The later
    maps are a [BTreeMap] by position: a list in the order of positions. *)
Definition union_lists (ctx : Context) (rec : Value -> Value -> path -> merged Value)
    (earlier later : Value) (p : path) : merged Value :=
  result ← try_fold (λ result item, c ← clone_into item; Ok (result ++ [c])) [] (items_of earlier);
  result ←
    (if mergelists (c_options ctx) then
       let later_maps : list (nat * Value) :=
         filter (λ e, is_map e.2 = true) (imap (λ i item, (i, item)) (items_of later)) in
       '(result, _) ← append_unique result later;
       let later_at (l : list (nat * Value)) (i : nat) : option Value :=
         snd ∘ snd <$> list_find (λ e, e.1 = i) l in
       let mergeable : list nat :=
         omap (λ '(i, item),
             match later_at later_maps i with
             | Some later_map => if is_map item && shares_a_key item later_map then Some i else None
             | None => None
             end) (imap (λ i item, (i, item)) result) in
       '(result, later_maps) ← try_fold (λ '(result, later_maps) i,
           match later_at later_maps i with
           | None => Ok (result, later_maps)
           | Some later_item =>
               let later_maps := filter (λ e, e.1 <> i) later_maps in
               item ← ok_or (result !! i) Panic;
               m ← rec item later_item (child p (index_segment i));
               Ok (<[i := m]> result, later_maps)
           end) (result, later_maps) mergeable;
       try_fold (λ result e, c ← clone_into e.2; Ok (result ++ [c])) result later_maps
     else
       '(result, _) ← append_unique result later;
       try_fold (λ result item, if is_map item then c ← clone_into item; Ok (result ++ [c]) else Ok result)
         result (items_of later));
  Ok (VList result).

(** [overwrite_positionally]; [rec] is [merge_simple] on a pair of items, one
    deeper. *)
Definition overwrite_positionally (rec : Value -> Value -> path -> merged Value)
    (earlier later : Value) (p : path) : merged Value :=
  out ← try_fold (λ out '(index, later_item),
          combined ← (match items_of earlier !! index with
                      | Some earlier_item => rec earlier_item later_item (child p (index_segment index))
                      | None => clone_into later_item
                      end);
          Ok (out ++ [combined]))
        [] (imap (λ index item, (index, item)) (items_of later));
  out ← try_fold (λ out leftover, c ← clone_into leftover; Ok (out ++ [c]))
        out (drop (length (items_of later)) (items_of earlier));
  Ok (VList out).

(** The shallow copy of a later map's keys over the earlier map. *)
Definition write_over (earlier later : Value) : merged Value :=
  copy ← clone_into earlier;
  m ← ok_or (as_map copy) (build WrongKind);
  out ← try_fold (λ out e,
          if is_absent e.2 && filling_contains random out e.1 then Ok out
          else c ← clone_into e.2; Ok (set_in out e.1 c))
        (with_room m 0) (entries_of later);
  Ok (VMap (f_map out)).

Definition too_deep (depth : nat) : bool := (MAX_DEPTH <=? depth)%nat.

(** [merge_simple]. *)
Fixpoint merge_simple (fuel depth : nat) (earlier later : Value) (p : path) : merged Value :=
  match fuel with
  | O => Err Panic
  | S fuel =>
      if too_deep depth then Err (build TooDeep)
      else if is_absent later then clone_into earlier
      else if is_absent earlier then clone_into later
      else if is_scalar later then clone_into later
      else if is_list later then
        if negb (is_list earlier) then clone_into later
        else overwrite_positionally (merge_simple fuel (S depth)) earlier later p
      else if negb (is_map earlier) then clone_into later
      else write_over earlier later
  end.

Variable ctx : Context.

Definition kind_error (p : path) (earlier later : option Tag) (mode : MergeMode) : merged Value :=
  Err (Refuse (Kind (render p) earlier later mode)).

(** [merge_value], [merge_substitute] and [merge_deep]. *)
Fixpoint merge_value (fuel depth : nat) (earlier later : Value) (p : path) : merged Value :=
  match fuel with
  | O => Err Panic
  | S fuel =>
      if too_deep depth then Err (build TooDeep)
      else if is_absent later then clone_into earlier
      else if is_absent earlier then clone_into later
      else match mode_at ctx p with
           | Simple => merge_simple fuel depth earlier later p
           | Substitute => merge_substitute fuel depth earlier later p
           | Deep => merge_deep fuel depth earlier later p
           end
  end
with merge_substitute (fuel depth : nat) (earlier later : Value) (p : path) : merged Value :=
  match fuel with
  | O => Err Panic
  | S fuel =>
      if negb (is_map earlier) then
        if is_scalar later || is_list later then clone_into later
        else kind_error p (kind earlier) (kind later) Substitute
      else if is_map later then
        merge_maps_recursively (merge_value fuel (S depth)) earlier later p
      else if is_list later then
        absorb_list_of_maps (λ result item, merge_substitute fuel (S depth) result item p)
          Substitute earlier later p
      else kind_error p (Some GUATIAO_MAP) (kind later) Substitute
  end
with merge_deep (fuel depth : nat) (earlier later : Value) (p : path) : merged Value :=
  match fuel with
  | O => Err Panic
  | S fuel =>
      if bool_decide (kind earlier = Some GUATIAO_NULL) || is_scalar later then clone_into later
      else if is_list earlier && is_list later then
        union_lists ctx (merge_deep fuel (S depth)) earlier later p
      else if is_map earlier && is_map later then
        merge_maps_recursively (merge_value fuel (S depth)) earlier later p
      else if is_map earlier && is_list later then
        absorb_list_of_maps (λ result item, merge_deep fuel (S depth) result item p)
          Deep earlier later p
      else kind_error p (kind earlier) (kind later) Deep
  end.
End merge.

(** The calls a merge may nest: two for each level of depth left. *)
Definition merge_fuel : nat := 2 * MAX_DEPTH + 4.

(** [MergeMode::merge_with] and [MergeMode::merge]. *)
Definition merge_with (random : Seeded) (finish : list Token -> Z) (mode : MergeMode)
    (earlier later : Value) (options : MergeOptions) (overrides : option MergeOverrides)
    : merged Value :=
  merge_value random finish (MkContext mode options overrides) merge_fuel 0 earlier later [].
Definition merge (random : Seeded) (finish : list Token -> Z) (mode : MergeMode)
    (earlier later : Value) : merged Value :=
  merge_with random finish mode earlier later no_options None.
