(* ===== verification/MergeLaws.v ===== *)
(** * What merging promises

    The laws of [Merge]: every merge ends, and ends with a well-formed tree, a
    shape disagreement or the depth bound; the map rule key by key, the list
    rules of the three modes, absence, idempotence, and the folding of layers. *)

From S2P Require Import Prelude Decimal Errors Number Value Keys Maps Encode Walk MergePath Merge.

(** ** The pieces, as their specifications *)

Definition cloned (v : Value) : merged Value :=
  match uncopiable v with Some e => Err (build e) | None => Ok v end.

Lemma clone_into_cloned v : clone_into v = cloned v.
Proof. unfold clone_into, cloned. rewrite copy_value_spec. unfold copied. by destruct (uncopiable v). Qed.

(** A loop that pushes a copy of each item. *)
Lemma push_clones l : forall out,
  try_fold (λ out item, c ← clone_into item; Ok (out ++ [c])) out l =
    match uncopiable_all l with Some e => Err (build e) | None => Ok (out ++ l) end.
Proof.
  induction l as [|x l IH]; intros out; cbn [try_fold uncopiable_all]; [by rewrite app_nil_r|].
  rewrite clone_into_cloned. unfold cloned. destruct (uncopiable x); [done|]. cbn [mbind result_bind].
  by rewrite IH, <- app_assoc.
Qed.

Lemma set_in_ok random f k v : filling_ok f ->
  f_map (set_in random f k v) = set_ (f_map f) k v /\ filling_ok (set_in random f k v).
Proof. apply filling_set_ok. Qed.

Lemma lookup_contains_ok random m k : lookup_contains random m k = contains_key m k.
Proof.
  unfold lookup_contains. rewrite lookup_get_ok. unfold get, contains_key.
  destruct (position m k) as [i|] eqn:E; [|done].
  destruct (position_entry _ _ _ E) as [w Ew]. cbn [mbind option_bind]. by rewrite Ew.
Qed.

(** Each item through a function that may refuse. *)
Fixpoint try_map {E A B} (f : A -> result E B) (l : list A) : result E (list B) :=
  match l with [] => Ok [] | x :: l => y ← f x; ys ← try_map f l; Ok (y :: ys) end.

Definition with_key {E} (g : bytes * Value -> result E Value) (e : bytes * Value)
    : result E (bytes * Value) := c ← g e; Ok (e.1, c).

Lemma try_map_keys {E} (g : bytes * Value -> result E Value) l l' :
  try_map (with_key g) l = Ok l' -> keys l' = keys l.
Proof.
  revert l'. induction l as [|e l IH]; intros l' H; simpl in H; [by injection H as <-|].
  change (with_key g e) with (c ← g e; Ok (E := E) (e.1, c)) in H. destruct (g e); [|discriminate H]. cbn in H.
  destruct (try_map _ l) as [ys|]; [|discriminate H]. cbn in H. injection H as <-. simpl. by rewrite (IH ys).
Qed.

(** Filling a map with fresh keys appends the entries in order. *)
Lemma fill_fresh random (g : bytes * Value -> merged Value) l : forall f,
  filling_ok f -> NoDup (keys l) -> (forall k, k ∈ keys l -> k ∉ keys (f_map f)) ->
  match try_fold (λ out e, c ← g e; Ok (set_in random out e.1 c)) f l, try_map (with_key g) l with
  | Ok f', Ok l' => filling_ok f' /\ f_map f' = f_map f ++ l'
  | Err e, Err e' => e = e'
  | _, _ => False
  end.
Proof.
  induction l as [|e l IH]; intros f Hf Hnd Hk; [split; [done|symmetry; apply app_nil_r]|].
  cbn [try_fold try_map]. change (with_key g e) with (c ← g e; Ok (E := fault MergeError) (e.1, c)). destruct (g e) as [c|]; [|done]. cbn [mbind result_bind].
  destruct (set_in_ok random f e.1 c Hf) as [E Hf'].
  rewrite set_fresh in E by (apply Hk; by left). apply NoDup_cons in Hnd as [Hn Hnd].
  specialize (IH (set_in random f e.1 c) Hf' Hnd).
  supply IH.
  { intros k Hin. rewrite E. unfold keys. rewrite map_app, elem_of_app. cbn.
    rewrite list_elem_of_singleton. intros [Hin'| ->]; [|done]. apply (Hk k); [by right|done]. }
  destruct (try_fold _ _ l), (try_map _ l); try done. cbn. destruct IH as [IH1 IH2].
  split; [done|]. by rewrite IH2, E, <- app_assoc.
Qed.

(** ** The map rule *)

Definition later_only (e l : Map) : Map := filter (λ x, x.1 ∉ keys e) l.

Definition merge_entry (rec : Value -> Value -> path -> merged Value) (l : Map) (p : path)
    (x : bytes * Value) : merged Value :=
  match get l x.1 with Some w => rec x.2 w (child p x.1) | None => cloned x.2 end.

Lemma fold_skipping {S E A} (Q : A -> Prop) `{!forall x, Decision (Q x)} (skip : A -> bool)
    (f : S -> A -> result E S) l :
  (forall x, skip x = true <-> ~ Q x) -> forall s,
  try_fold (λ s x, if skip x then Ok s else f s x) s l = try_fold f s (filter Q l).
Proof.
  intros Hs. induction l as [|x l IH]; intros s; [done|]. cbn [try_fold].
  destruct (decide (Q x)) as [Hq|Hq].
  - rewrite filter_cons_True by done. destruct (skip x) eqn:Ex; [by apply Hs in Ex|].
    cbn [try_fold]. destruct (f s x); [|done]. apply IH.
  - rewrite filter_cons_False by done. rewrite (proj2 (Hs x) Hq). apply IH.
Qed.

Lemma merge_maps_ok random rec e l p :
  keys_are_text e = true -> keys_are_text l = true -> NoDup (keys e) -> NoDup (keys l) ->
  merge_maps_recursively random rec (VMap e) (VMap l) p =
    (es ← try_map (with_key (merge_entry rec l p)) e;
     ls ← try_map (with_key (λ x, cloned x.2)) (later_only e l);
     Ok (VMap (es ++ ls))).
Proof.
  intros He Hl Hnde Hndl. unfold merge_maps_recursively, entries_of, as_map. rewrite He, Hl.
  cbn [default from_option id mbind option_bind].
  rewrite (try_fold_ext _ (λ out x, c ← merge_entry rec l p x; Ok (set_in random out x.1 c)) e).
  2: { intros b x _. unfold merge_entry. rewrite lookup_get_ok. destruct (get l x.1); [done|].
       by rewrite clone_into_cloned. }
  pose proof (fill_fresh random (merge_entry rec l p) e (with_room [] 0) (with_room_ok _ _) Hnde) as H1.
  supply H1; [intros k _; apply not_elem_of_nil|].
  destruct (try_fold _ _ e) as [f|], (try_map _ e) as [es|] eqn:Ees; try done; [|by rewrite H1].
  cbn [mbind result_bind]. destruct H1 as [Hf Ef]. cbn [with_room f_map app] in Ef.
  apply try_map_keys in Ees as Ek.
  rewrite (fold_skipping (λ x, x.1 ∉ keys e)).
  2: { intros x. rewrite lookup_contains_ok, contains_key_spec. split; [tauto|].
       intros H. destruct (decide (x.1 ∈ keys e)); [done|tauto]. }
  rewrite (try_fold_ext _ (λ out x, c ← cloned x.2; Ok (set_in random out x.1 c))).
  2: { intros b x _. by rewrite clone_into_cloned. }
  pose proof (fill_fresh random (λ x, cloned x.2) (later_only e l) f Hf) as H2. unfold later_only in *.
  supply H2.
  { unfold keys. change (NoDup (fst <$> filter (λ x, x.1 ∉ keys e) l)).
    eapply sublist_NoDup; [exact Hndl|]. apply (fmap_sublist fst), sublist_filter. }
  supply H2.
  { intros k Hk. rewrite Ef, Ek. unfold keys in Hk. apply list_elem_of_fmap in Hk as (x & -> & Hx).
    by apply list_elem_of_filter in Hx as [Hx _]. }
  destruct (try_fold _ f _) as [f'|], (try_map _ (filter _ l)) as [ls|]; try done; [|by rewrite H2].
  cbn [mbind result_bind]. destruct H2 as [_ E']. by rewrite E', Ef.
Qed.

(** ** Items already held *)

Section held.
Context (finish : list Token -> Z).

(** The table has the first position of each hash among the items indexed. *)
Definition table_of (first : gmap Z nat) (l : list Value) : Prop :=
  forall h, first !! h = fst <$> list_find (λ v, held_hash finish v = h) l.
Definition held_ok (hd : Held) (built : list Value) : Prop :=
  (h_indexed hd <= length built)%nat /\ table_of (h_first hd) (take (h_indexed hd) built).

Lemma table_snoc first l v : table_of first l ->
  table_of (or_insert first (held_hash finish v) (length l)) (l ++ [v]).
Proof.
  intros H h. unfold or_insert.
  assert (E : fst <$> list_find (λ v, held_hash finish v = h) (l ++ [v]) =
    match first !! h with Some i => Some i
    | None => if decide (held_hash finish v = h) then Some (length l) else None end).
  { rewrite (H h). clear. induction l as [|y l IH]; simpl; [by destruct (decide _)|].
    destruct (decide (held_hash finish y = h)); [done|].
    destruct (list_find _ (l ++ [v])) as [[i z]|], (list_find _ l) as [[j w]|]; simpl in *;
      destruct (decide (held_hash finish v = h)); simplify_eq; done. }
  rewrite E. destruct (decide (held_hash finish v = h)) as [<-|Hne].
  - destruct (first !! _) eqn:Ef; [by rewrite Ef|by rewrite lookup_insert_eq].
  - destruct (first !! held_hash finish v); [by destruct (first !! h)|].
    rewrite lookup_insert_ne by done. by destruct (first !! h).
Qed.

Lemma table_extend l : forall first pre, table_of first pre ->
  table_of (foldl (λ first '(at_, held), or_insert first (held_hash finish held) at_) first
    (imap (λ i held, ((length pre + i)%nat, held)) l)) (pre ++ l).
Proof.
  induction l as [|v l IH]; intros first pre H; [by rewrite app_nil_r|].
  cbn [imap foldl]. rewrite Nat.add_0_r. apply table_snoc with (v := v) in H.
  specialize (IH _ _ H). rewrite <- app_assoc in IH. cbn [app] in IH.
  rewrite length_app in IH. cbn [length] in IH.
  erewrite imap_ext; [exact IH|]. intros i x _. simpl. f_equal. lia.
Qed.

Lemma drop_imap {A B} (f : nat -> A -> B) n l : (n <= length l)%nat ->
  drop n (imap f l) = imap (λ i, f (n + i)%nat) (drop n l).
Proof.
  intros H. rewrite <- (take_drop n l) at 1. rewrite imap_app.
  replace n with (length (imap f (take n l))) at 1 by (rewrite length_imap, length_take; lia).
  rewrite drop_app_length. apply imap_ext. intros i x _. simpl. f_equal. rewrite length_take. lia.
Qed.

Lemma existsb_held item built : existsb (λ held, value_eqb held item) built = bool_decide (item ∈ built).
Proof.
  induction built as [|x l IH]; [done|]. cbn [existsb]. rewrite IH.
  apply eq_true_iff_eq. rewrite orb_true_iff, value_eqb_spec, !bool_decide_eq_true, elem_of_cons.
  naive_solver.
Qed.

(** Whatever the hashes, an item is found exactly when the list holds it. *)
Lemma held_contains_ok hd built item : held_ok hd built ->
  exists hd', held_contains finish hd built item = Ok (bool_decide (item ∈ built), hd') /\ held_ok hd' built.
Proof.
  intros [Hi Ht]. unfold held_contains. destruct (length built <=? SCAN)%nat.
  { exists hd. split; [by rewrite existsb_held|by split]. }
  rewrite drop_imap by done.
  pose proof (table_extend (drop (h_indexed hd) built) _ _ Ht) as H. rewrite take_drop in H.
  rewrite length_take, Nat.min_l in H by done.
  set (first := foldl _ _ _) in *. cbv zeta.
  exists (MkHeld first (length built)). split; [|split; cbn [h_indexed h_first]; [done|by rewrite firstn_all]].
  rewrite (H (held_hash finish item)).
  destruct (list_find _ built) as [[i v]|] eqn:E; cbn [fmap option_fmap option_map fst mbind result_bind].
  - apply list_find_Some in E as (E & Eh & _). rewrite E. cbn [ok_or mbind result_bind].
    destruct (value_eqb v item) eqn:Ev; [|by rewrite existsb_held].
    apply value_eqb_spec in Ev as ->. rewrite bool_decide_eq_true_2; [done|by eapply list_elem_of_lookup_2].
  - rewrite bool_decide_eq_false_2; [done|]. intros Hin. apply list_find_None in E.
    rewrite Forall_forall in E. by apply (E item).
Qed.

Lemma held_ok_snoc hd built v : held_ok hd built -> held_ok hd (built ++ [v]).
Proof.
  intros [Hi Ht]. split; [rewrite length_app; lia|]. by rewrite take_app_le.
Qed.

(** The later items that are not maps and are not held yet, in order. *)
Fixpoint new_items (held l : list Value) : list Value :=
  match l with
  | [] => []
  | x :: l => if is_map x || bool_decide (x ∈ held) then new_items held l else x :: new_items (held ++ [x]) l
  end.

Lemma append_unique_ok result later :
  match append_unique finish result later, uncopiable_all (new_items result (items_of later)) with
  | Ok (result', _), None => result' = result ++ new_items result (items_of later)
  | Err e, Some e' => e = build e'
  | _, _ => False
  end.
Proof.
  unfold append_unique. assert (H : held_ok held_new result).
  { split; [simpl; lia|]. intros h. done. }
  revert H. generalize held_new as hd. revert result. induction (items_of later) as [|x l IH]; intros built hd H.
  { cbn. by rewrite app_nil_r. }
  cbn [try_fold new_items]. destruct (is_map x); cbn [orb mbind result_bind]; [by apply IH|].
  destruct (held_contains_ok hd built x H) as (hd' & -> & H'). cbn [mbind result_bind].
  destruct (bool_decide (x ∈ built)); [by apply IH|].
  rewrite clone_into_cloned. unfold cloned. cbn [uncopiable_all]. destruct (uncopiable x); [done|].
  cbn [mbind result_bind]. specialize (IH (built ++ [x]) hd' (held_ok_snoc _ _ _ H')).
  destruct (try_fold _ _ l) as [[r h]|], (uncopiable_all _); try done. by rewrite IH, <- app_assoc.
Qed.
End held.

(** ** Well-formed trees

    What a tree built in Rust keeps, lengths apart. *)

Fixpoint sound (v : Value) : Prop :=
  match v with
  | VNumber t => is_number t = true
  | VString t => is_utf8 t = true
  | VList l => (fix go l := match l with [] => True | x :: l => sound x /\ go l end) l
  | VMap m => NoDup (map fst m) /\
      (fix go m := match m with [] => True | e :: m => (is_utf8 e.1 = true /\ sound e.2) /\ go m end) m
  | VUnknown _ => False
  | _ => True
  end.
Definition entry_sound (e : bytes * Value) : Prop := is_utf8 e.1 = true /\ sound e.2.

Lemma sound_list l : sound (VList l) <-> Forall sound l.
Proof.
  cbn [sound]. induction l as [|x l IH]; [by split; [constructor|]|]. by rewrite Forall_cons_iff, IH.
Qed.

Lemma sound_map m : sound (VMap m) <-> NoDup (keys m) /\ Forall entry_sound m.
Proof.
  cbn [sound]. apply and_iff_compat_l. induction m as [|x l IH]; [by split; [constructor|]|].
  by rewrite Forall_cons_iff, IH.
Qed.

(** The same as a check that runs. *)
Fixpoint soundb (v : Value) : bool :=
  match v with
  | VNumber t => is_number t
  | VString t => is_utf8 t
  | VList l => (fix go l := match l with [] => true | x :: l => soundb x && go l end) l
  | VMap m => bool_decide (NoDup (map fst m)) &&
      (fix go m := match m with [] => true | e :: m => is_utf8 e.1 && soundb e.2 && go m end) m
  | VUnknown _ => false
  | _ => true
  end.

Lemma soundb_sound v : soundb v = true -> sound v.
Proof.
  induction v as [| |x|s|s|s|l IH|m IH|s] using value_ind'; try done; cbn [soundb].
  - intros H. apply sound_list. induction IH as [|x l Hx _ IHl]; [constructor|].
    apply andb_true_iff in H as [H1 H2]. constructor; auto.
  - intros [Hn%bool_decide_eq_true H]%andb_true_iff. apply sound_map. split; [done|]. clear Hn.
    induction IH as [|x l Hx _ IHl]; [constructor|].
    apply andb_true_iff in H as [[H0 H1]%andb_true_iff H2]. constructor; [split|]; auto.
Qed.

#[global] Arguments sound : simpl never.

Lemma entries_text m : Forall entry_sound m -> keys_are_text m = true.
Proof. intros H. apply keys_are_text_spec. eapply Forall_impl; [exact H|]. by intros e []. Qed.

Lemma wf_sound v : value_wf v -> sound v.
Proof.
  induction v as [| |x|s|s|s|l IH|m IH|s] using value_ind'; try done.
  - by intros [H _].
  - by intros [H _].
  - intros [_ H]%value_wf_list. apply sound_list. rewrite Forall_forall in IH, H |- *. auto.
  - intros (_ & Hn & H)%value_wf_map. apply sound_map. split; [done|].
    rewrite Forall_forall in IH, H |- *. intros e He. destruct (H e He) as (H1 & _ & H2). split; auto.
Qed.

Lemma sound_uncopiable v : sound v -> uncopiable v = None.
Proof.
  induction v as [| |x|s|s|s|l IH|m IH|s] using value_ind'; try done.
  - unfold sound, uncopiable. by intros ->.
  - unfold sound, uncopiable. by intros ->.
  - intros H%sound_list. rewrite uncopiable_list. apply uncopiable_all_None.
    rewrite Forall_forall in IH, H |- *. auto.
  - intros [_ H]%sound_map. rewrite uncopiable_map, (entries_text m H). apply uncopiable_all_None.
    apply Forall_map. rewrite Forall_forall in IH, H |- *. intros e He. destruct (H e He). auto.
Qed.

Lemma sound_cloned v : sound v -> cloned v = Ok v.
Proof. intros H. unfold cloned. by rewrite sound_uncopiable. Qed.

Lemma sound_clones l : Forall sound l -> uncopiable_all l = None.
Proof. intros H. apply uncopiable_all_None. eapply Forall_impl; [exact H|]. apply sound_uncopiable. Qed.

Lemma is_map_Some v : is_map v = true <-> exists m, v = VMap m /\ keys_are_text m = true.
Proof.
  unfold is_map. rewrite bool_decide_eq_true. unfold as_map. split.
  - destruct v; try by intros [? ?]. destruct (keys_are_text entries) eqn:E; [eauto|by intros [? ?]].
  - intros (m & -> & ->). eauto.
Qed.

Lemma is_list_Some v : is_list v = true <-> exists l, v = VList l.
Proof.
  unfold is_list, kind. rewrite bool_decide_eq_true. split; [|by intros [l ->]].
  destruct v; try done; [eauto|]. by rewrite tag_unknown.
Qed.

Lemma is_absent_Some v : is_absent v = true <-> v = VAbsent.
Proof.
  unfold is_absent, kind. rewrite bool_decide_eq_true. split; [|by intros ->].
  destruct v; try done. by rewrite tag_unknown.
Qed.

Lemma set_Forall (P : bytes * Value -> Prop) m k v : Forall P m -> P (k, v) -> Forall P (set_ m k v).
Proof.
  intros Hm Hv. unfold set_. destruct (position m k) as [i|] eqn:E.
  - destruct (position_entry _ _ _ E) as [w Ew]. unfold put_at.
    apply Forall_alter; [done|]. intros x Hx _. by rewrite Ew in Hx; injection Hx as <-.
  - apply Forall_app. by split; [|constructor].
Qed.

(** ** Every merge ends well

    [Q] is a promise about the inputs, from which the output's is drawn: with no
    promise, what is shown is that nothing panics. *)

Section outcomes.
Context (random : Seeded) (finish : list Token -> Z) (Q : Prop).

(** A value with the property, a shape disagreement, or the depth bound. *)
Definition ends {A} (P : A -> Prop) (r : merged A) : Prop :=
  match r with
  | Ok a => P a
  | Err (Refuse (Kind _ _ _ _)) => True
  | Err (Refuse (Build e)) => Q -> e = TooDeep
  | Err Panic => False
  end.

Lemma ends_bind {A B} (P : A -> Prop) (R : B -> Prop) m (f : A -> merged B) :
  ends P m -> (forall a, P a -> ends R (f a)) -> ends R (m ≫= f).
Proof. intros Hm Hf. destruct m as [a|[[]|]]; [by apply Hf|done..]. Qed.

Lemma ends_fold {A B} (P : B -> Prop) (f : B -> A -> merged B) l :
  (forall b x, x ∈ l -> P b -> ends P (f b x)) -> forall b, P b -> ends P (try_fold f b l).
Proof.
  induction l as [|x l IH]; intros Hf b Hb; [done|]. cbn [try_fold].
  eapply ends_bind; [apply Hf; [by left|done]|]. intros b' Hb'. apply IH; [|done].
  intros b2 y Hy. apply Hf. by right.
Qed.

Lemma ends_weaken {A} (P R : A -> Prop) m : (forall a, P a -> R a) -> ends P m -> ends R m.
Proof. intros H Hm. destruct m as [a|[[]|]]; [by apply H|done..]. Qed.

Definition ok (v : Value) : Prop := Q -> sound v.
Definition ok_map (v : Value) : Prop := is_map v = true /\ ok v.
Definition ok_list (l : list Value) : Prop := Q -> Forall sound l.

Lemma ends_cloned v : ok v -> ends (λ c, c = v) (clone_into v).
Proof.
  intros Hv. rewrite clone_into_cloned. unfold cloned. destruct (uncopiable v) as [e|] eqn:E; [|done].
  intros HQ. apply Hv, sound_uncopiable in HQ. congruence.
Qed.
Lemma ends_clone v : ok v -> ends ok (clone_into v).
Proof. intros Hv. eapply ends_weaken; [|by apply ends_cloned]. by intros a ->. Qed.

Lemma ok_items v : ok v -> ok_list (items_of v).
Proof.
  intros H HQ. unfold items_of, as_list. destruct v; try by constructor. by apply sound_list, H.
Qed.

Lemma ok_entries v e : ok v -> e ∈ entries_of v -> is_utf8 e.1 = true /\ ok e.2.
Proof.
  intros H He. unfold entries_of, as_map in He. destruct v; try by apply elem_of_nil in He.
  destruct (keys_are_text entries) eqn:E; [|by apply elem_of_nil in He]. cbn in He. split.
  - apply keys_are_text_spec in E. rewrite Forall_forall in E. by apply E.
  - intros HQ. apply H, sound_map in HQ as [_ HQ]. rewrite Forall_forall in HQ. by apply HQ.
Qed.

Lemma ends_push l : ok_list l -> forall out, ok_list out ->
  ends ok_list (try_fold (λ out item, c ← clone_into item; Ok (out ++ [c])) out l).
Proof.
  intros Hl out Hout. apply ends_fold; [|done]. intros b x Hx Hb.
  eapply ends_bind; [apply ends_clone|].
  - intros HQ. specialize (Hl HQ). rewrite Forall_forall in Hl. by apply Hl.
  - intros c Hc HQ. apply Forall_app. split; [by apply Hb|]. constructor; [by apply Hc|constructor].
Qed.

(** A map being filled, with keys that are text. *)
Definition ok_filling (f : Filling) : Prop :=
  filling_ok f /\ keys_are_text (f_map f) = true /\
  (Q -> NoDup (keys (f_map f)) /\ Forall entry_sound (f_map f)).

Lemma ok_set f k v : ok_filling f -> is_utf8 k = true -> ok v -> ok_filling (set_in random f k v).
Proof.
  intros (Hf & Ht & HQ) Hk Hv. destruct (set_in_ok random f k v Hf) as [E Hf'].
  split; [done|]. rewrite E. split.
  - apply keys_are_text_spec, set_Forall; [by apply keys_are_text_spec|done].
  - intros q. destruct (HQ q) as [H1 H2]. split; [by apply set_nodup|]. apply set_Forall; [done|].
    split; [done|by apply Hv].
Qed.

Lemma ok_filled f : ok_filling f -> ok_map (VMap (f_map f)).
Proof.
  intros (_ & Ht & HQ). split; [apply is_map_Some; eauto|]. intros q. apply sound_map. by apply HQ.
Qed.

Lemma ends_maps rec earlier later p : ok earlier -> ok later ->
  (forall a b q, ok a -> ok b -> ends ok (rec a b q)) ->
  ends ok_map (merge_maps_recursively random rec earlier later p).
Proof.
  intros He Hl Hrec. unfold merge_maps_recursively.
  assert (Hget : forall k w m, as_map later = Some m -> lookup_get random m k = Some w -> ok w).
  { intros k w m Em Ew. rewrite lookup_get_ok in Ew. unfold get in Ew.
    destruct (position m k) as [i|]; [|done]. cbn in Ew. destruct (m !! i) as [e|] eqn:Ee; [|done].
    injection Ew as <-. apply (ok_entries later e Hl). unfold entries_of. rewrite Em.
    by eapply list_elem_of_lookup_2. }
  eapply ends_bind; [apply (ends_fold ok_filling)|].
  - intros f e Hin Hf. destruct (ok_entries _ _ He Hin) as [Hu Hv].
    eapply (ends_bind ok); [|intros c Hc; by apply ok_set].
    destruct (as_map later) as [m|] eqn:Em; cbn [mbind option_bind]; [|by apply ends_clone].
    destruct (lookup_get random m e.1) as [w|] eqn:Ew; [|by apply ends_clone].
    apply Hrec; [done|by eapply Hget].
  - split; [apply with_room_ok|]. split; [done|]. intros _. split; constructor.
  - intros f Hf. eapply ends_bind; [apply (ends_fold ok_filling); [|exact Hf]|].
    + intros f' e Hin Hf'. destruct (ok_entries _ _ Hl Hin) as [Hu Hv].
      match goal with |- context [if ?c then _ else _] => destruct c end; [done|].
      eapply (ends_bind ok); [by apply ends_clone|]. intros c Hc. by apply ok_set.
    + intros f' Hf'. by apply ok_filled.
Qed.

Lemma ends_absorb fold mode earlier later p : ok_map earlier -> ok later ->
  (forall r item, ok_map r -> ok_map item -> ends ok_map (fold r item)) ->
  ends ok_map (absorb_list_of_maps fold mode earlier later p).
Proof.
  intros He Hl Hf. unfold absorb_list_of_maps.
  eapply ends_bind; [apply ends_cloned, He|]. intros r ->. apply ends_fold; [|done].
  intros b x Hx Hb. destruct (is_map x) eqn:Ex; [|done]. apply Hf; [done|]. split; [done|].
  intros HQ. pose proof (ok_items later Hl HQ) as H. rewrite Forall_forall in H. by apply H.
Qed.

Lemma new_items_Forall (P : Value -> Prop) l : forall held, Forall P l -> Forall P (new_items held l).
Proof.
  induction l as [|x l IH]; intros held H; [done|]. apply Forall_cons_iff in H as [Hx H]. simpl.
  destruct (_ || _); [by apply IH|]. constructor; [done|by apply IH].
Qed.

Lemma ends_append_unique result later : ok_list result -> ok later ->
  ends (λ s, ok_list s.1) (append_unique finish result later).
Proof.
  intros Hr Hl. pose proof (append_unique_ok finish result later) as H.
  destruct (append_unique finish result later) as [[r h]|e], (uncopiable_all _) as [e'|] eqn:E; try done.
  - subst r. intros q. apply Forall_app. split; [by apply Hr|].
    apply new_items_Forall. by apply ok_items.
  - subst e. intros q. rewrite sound_clones in E; [done|]. apply new_items_Forall. by apply ok_items.
Qed.

(** The state of the positional merge: what was a map still is. *)
Definition ok_positional (shape : list Value) (s : list Value * list (nat * Value)) : Prop :=
  ok_list s.1 /\ Forall (λ e, is_map e.2 = true /\ ok e.2) s.2 /\
  forall i, (exists v, shape !! i = Some v /\ is_map v = true) ->
    exists v, s.1 !! i = Some v /\ is_map v = true.

Lemma later_at_elem (l : list (nat * Value)) i w :
  snd ∘ snd <$> list_find (λ e, e.1 = i) l = Some w -> (i, w) ∈ l.
Proof.
  destruct (list_find _ l) as [[j [i' w']]|] eqn:E; [|done]. intros [= <-].
  apply list_find_Some in E as (E & <- & _). by eapply list_elem_of_lookup_2.
Qed.

Lemma ends_union ctx rec earlier later p : ok earlier -> ok later ->
  (forall a b q, ok_map a -> ok_map b -> ends ok_map (rec a b q)) ->
  ends ok (union_lists random finish ctx rec earlier later p).
Proof.
  intros He Hl Hrec. unfold union_lists.
  eapply ends_bind; [apply ends_push; [by apply ok_items|by intros _; constructor]|].
  intros result Hr. eapply (ends_bind ok_list); [|by intros r Hr' q; apply sound_list, Hr'].
  destruct (mergelists (c_options ctx)).
  - eapply ends_bind; [by apply ends_append_unique|]. intros [r h] Hr1. cbn [fst snd] in *.
    eapply (ends_bind (ok_positional r)).
    + apply ends_fold.
      * intros [r1 lm] i Hi (H1 & H2 & H3). cbn [fst snd] in *.
        destruct (snd ∘ snd <$> list_find _ lm) as [w|] eqn:Ew; [|done].
        apply later_at_elem in Ew. rewrite Forall_forall in H2. destruct (H2 _ Ew) as [Hw1 Hw2].
        apply list_elem_of_omap in Hi as ([j v] & Hj & Hi).
        apply list_elem_of_lookup in Hj as [j' Hj]. rewrite list_lookup_imap in Hj.
        destruct (r !! j') as [v'|] eqn:Ev; [|done]. injection Hj as <- <-.
        destruct (snd ∘ snd <$> _) as [w'|]; [|done].
        destruct (is_map v') eqn:Em; [|done]. cbn [andb] in Hi.
        destruct (shares_a_key _ _ _); [|done]. injection Hi as ->.
        destruct (H3 i) as (u & Eu & Hu); [by exists v'|]. rewrite Eu. cbn [ok_or mbind result_bind].
        eapply ends_bind; [apply Hrec|].
        -- split; [done|]. intros q. specialize (H1 q). rewrite Forall_forall in H1.
           apply H1. by eapply list_elem_of_lookup_2.
        -- by split.
        -- intros m [Hm1 Hm2]. split_and!; cbn [fst snd].
           ++ intros q. apply Forall_insert; [by apply H1|by apply Hm2].
           ++ apply Forall_forall. intros e Hin. apply list_elem_of_filter in Hin as [_ Hin]. by apply H2.
           ++ intros k Hk. destruct (decide (k = i)) as [->|Hne].
              ** exists m. split; [|done]. apply list_lookup_insert_eq. by eapply lookup_lt_Some.
              ** rewrite list_lookup_insert_ne by done. by apply H3.
      * split_and!; cbn [fst snd]; [done| |done]. apply Forall_forall. intros e Hin.
        apply list_elem_of_filter in Hin as [Hm Hin]. split; [done|]. intros q.
        pose proof (ok_items later Hl q) as Hs. rewrite Forall_forall in Hs. apply Hs.
        apply list_elem_of_lookup in Hin as [j Hj]. rewrite list_lookup_imap in Hj.
        destruct (items_of later !! j) as [v|] eqn:Ev; [|done]. injection Hj as <-.
        by eapply list_elem_of_lookup_2.
    + intros [r1 lm] (H1 & H2 & _). cbn [fst snd] in *. apply ends_fold; [|done].
      intros b e Hin Hb. rewrite Forall_forall in H2. destruct (H2 _ Hin) as [_ H].
      eapply ends_bind; [by apply ends_clone|]. intros c Hc q. apply Forall_app.
      split; [by apply Hb|]. constructor; [by apply Hc|constructor].
  - eapply ends_bind; [by apply ends_append_unique|]. intros [r h] Hr1. cbn [fst snd] in *.
    apply ends_fold; [|done]. intros b x Hx Hb. destruct (is_map x); [|done].
    eapply ends_bind; [apply ends_clone|].
    + intros q. pose proof (ok_items later Hl q) as H. rewrite Forall_forall in H. by apply H.
    + intros c Hc q. apply Forall_app. split; [by apply Hb|]. constructor; [by apply Hc|constructor].
Qed.

(** ** [Simple] *)

Lemma ends_overwrite rec earlier later p : ok earlier -> ok later ->
  (forall a b q, ok a -> ok b -> ends ok (rec a b q)) ->
  ends ok (overwrite_positionally rec earlier later p).
Proof.
  intros He Hl Hrec. unfold overwrite_positionally.
  assert (Hitem : forall v x i, ok v -> items_of v !! i = Some x -> ok x).
  { intros v x i Hv E q. pose proof (ok_items v Hv q) as H. rewrite Forall_forall in H.
    apply H. by eapply list_elem_of_lookup_2. }
  eapply (ends_bind ok_list).
  - apply ends_fold; [|by intros _; constructor]. intros b [i x] Hin Hb.
    apply list_elem_of_lookup in Hin as [j Hj]. rewrite list_lookup_imap in Hj.
    destruct (items_of later !! j) as [v|] eqn:Ev; [|done]. injection Hj as -> ->.
    eapply (ends_bind ok).
    + destruct (items_of earlier !! i) as [w|] eqn:Ew; [apply Hrec|apply ends_clone]; eauto.
    + intros c Hc q. apply Forall_app. split; [by apply Hb|]. constructor; [by apply Hc|constructor].
  - intros out Hout. eapply ends_bind; [apply ends_push; [|done]|].
    + intros q. apply Forall_drop. by apply ok_items.
    + intros r Hr q. apply sound_list. by apply Hr.
Qed.

Lemma ends_write_over earlier later : ok_map earlier -> ok later ->
  ends ok (write_over random earlier later).
Proof.
  intros He Hl. unfold write_over. eapply ends_bind; [apply ends_cloned, He|]. intros c ->.
  destruct He as [(m & -> & Hm)%is_map_Some Hok]. unfold as_map. rewrite Hm. cbn [ok_or mbind result_bind].
  eapply (ends_bind ok_filling).
  - apply ends_fold.
    + intros f e Hin Hf. destruct (ok_entries _ _ Hl Hin) as [Hu Hv].
      destruct (_ && _); [done|]. eapply ends_bind; [by apply ends_clone|].
      intros c Hc. by apply ok_set.
    + split; [apply with_room_ok|]. split; [done|]. intros q. by apply sound_map, Hok.
  - intros f Hf. by apply ok_filled.
Qed.

Lemma ends_simple fuel : forall depth earlier later p,
  (130 <= fuel + depth)%nat -> (1 <= fuel)%nat -> ok earlier -> ok later ->
  ends ok (merge_simple random fuel depth earlier later p).
Proof.
  induction fuel as [|fuel IH]; intros depth earlier later p Hf H1 He Hl; [lia|].
  cbn [merge_simple]. unfold too_deep. destruct (Nat.leb_spec MAX_DEPTH depth) as [|Hd]; [done|].
  unfold MAX_DEPTH in Hd.
  destruct (is_absent later); [by apply ends_clone|]. destruct (is_absent earlier); [by apply ends_clone|].
  destruct (is_scalar later); [by apply ends_clone|]. destruct (is_list later).
  - destruct (is_list earlier); cbn [negb]; [|by apply ends_clone].
    apply ends_overwrite; [done..|]. intros a b q Ha Hb. apply IH; [lia|lia|done|done].
  - destruct (is_map earlier) eqn:Em; cbn [negb]; [|by apply ends_clone]. by apply ends_write_over.
Qed.

(** ** The modes together *)

(** The calls a merge at some depth may nest. *)
Definition need (depth : nat) : nat := 2 * (130 - depth).

Section modes.
Context (ctx : Context).

Definition value_ends (fuel : nat) : Prop := forall depth earlier later p,
  (need depth <= fuel)%nat -> (1 <= fuel)%nat -> ok earlier -> ok later ->
  ends ok (merge_value random finish ctx fuel depth earlier later p).

Lemma maps_end fuel depth earlier later p : value_ends fuel -> (need (S depth) <= fuel)%nat ->
  (1 <= fuel)%nat -> ok_map earlier -> ok_map later ->
  ends ok_map (merge_substitute random finish ctx (S fuel) depth earlier later p) /\
  ends ok_map (merge_deep random finish ctx (S fuel) depth earlier later p).
Proof.
  intros IH Hf H1 [He1 He2] [Hl1 Hl2]. cbn [merge_substitute merge_deep].
  apply is_map_Some in He1 as Hm. destruct Hm as (m & -> & Hm).
  apply is_map_Some in Hl1 as Hm'. destruct Hm' as (m' & -> & Hm').
  unfold is_scalar. rewrite He1, Hl1. cbn [negb andb orb].
  assert (ends ok_map (merge_maps_recursively random (merge_value random finish ctx fuel (S depth))
    (VMap m) (VMap m') p)).
  { apply ends_maps; [done..|]. intros a b q Ha Hb. by apply IH. }
  split; [done|]. rewrite bool_decide_eq_false_2 by done. cbn [orb].
  assert (is_list (VMap m) = false) as -> by done. done.
Qed.

Lemma values_end fuel : value_ends fuel.
Proof.
  induction (lt_wf fuel) as [fuel _ IH]. intros depth earlier later p Hf H1 He Hl.
  destruct fuel as [|fuel]; [lia|]. cbn [merge_value]. unfold too_deep.
  destruct (Nat.leb_spec MAX_DEPTH depth) as [|Hd]; [done|]. unfold MAX_DEPTH in Hd. unfold need in Hf.
  destruct (is_absent later); [by apply ends_clone|]. destruct (is_absent earlier); [by apply ends_clone|].
  destruct fuel as [|[|fuel]]; try lia.
  assert (IH1 : value_ends (S fuel)) by (apply IH; lia). assert (IH2 : value_ends fuel) by (apply IH; lia).
  assert (Hmaps : forall a b q, ok a -> ok b ->
    ends ok (merge_value random finish ctx (S fuel) (S depth) a b q)).
  { intros a b q Ha Hb. apply IH1; [unfold need; lia|lia|done|done]. }
  assert (Hpairs : forall r item q, ok_map r -> ok_map item ->
    ends ok_map (merge_substitute random finish ctx (S fuel) (S depth) r item q) /\
    ends ok_map (merge_deep random finish ctx (S fuel) (S depth) r item q)).
  { intros r item q Hr Hi. apply maps_end; [done|unfold need; lia|lia|done|done]. }
  assert (Hw : forall r, ends ok_map r -> ends ok r).
  { intros r. apply ends_weaken. by intros a []. }
  destruct (mode_at ctx p).
  - apply ends_simple; [lia|lia|done|done].
  - cbn [merge_substitute]. destruct (is_map earlier) eqn:Ee; cbn [negb].
    + destruct (is_map later) eqn:El; [by apply Hw, ends_maps|].
      destruct (is_list later); [|done]. apply Hw, ends_absorb; [by split|done|].
      intros r item Hr Hi. by apply Hpairs.
    + destruct (_ || _); [by apply ends_clone|done].
  - cbn [merge_deep]. destruct (_ || _); [by apply ends_clone|].
    destruct (is_list earlier && is_list later).
    { apply ends_union; [done..|]. intros a b q Ha Hb. by apply Hpairs. }
    destruct (is_map earlier) eqn:Ee; cbn [andb]; [|done].
    destruct (is_map later) eqn:El; [by apply Hw, ends_maps|].
    destruct (is_list later); [|done]. apply Hw, ends_absorb; [by split|done|].
    intros r item Hr Hi. by apply Hpairs.
Qed.
End modes.
End outcomes.

(** ** Depth, fuel and place

    A merge that succeeds gives the same value higher up, with more fuel, and at
    any other place when no override names one: the three only bound it and name
    its errors. *)

Definition below {E A} (r r' : result E A) : Prop := forall a, r = Ok a -> r' = Ok a.

Lemma below_refl {E A} (r : result E A) : below r r.
Proof. by intros a. Qed.

Lemma below_Err {E A} (e : E) (r : result E A) : below (Err e) r.
Proof. by intros a. Qed.

Lemma below_bind {E A B} (r r' : result E A) (f f' : A -> result E B) :
  below r r' -> (forall a, below (f a) (f' a)) -> below (r ≫= f) (r' ≫= f').
Proof. intros Hr Hf b (a & Ha & Hb)%bind_Ok. apply bind_Ok. exists a. split; [by apply Hr|by apply Hf]. Qed.

Lemma below_fold {E A B} (f f' : B -> A -> result E B) l :
  (forall b x, below (f b x) (f' b x)) -> forall b, below (try_fold f b l) (try_fold f' b l).
Proof. intros H. induction l as [|x l IH]; intros b; [apply below_refl|]. by apply below_bind. Qed.

Section places.
Context (random : Seeded) (finish : list Token -> Z) (ctx : Context).

Abbreviation rec_below rec rec' :=
  (forall a b p p', below (rec a b p : merged Value) (rec' a b p')) (only parsing).

Lemma maps_below rec rec' e l p p' : rec_below rec rec' ->
  below (merge_maps_recursively random rec e l p) (merge_maps_recursively random rec' e l p').
Proof.
  intros H. unfold merge_maps_recursively. apply below_bind; [|intros; apply below_refl].
  apply below_fold. intros b x. apply below_bind; [|intros; apply below_refl].
  destruct (m ← as_map l; lookup_get random m x.1); [apply H|apply below_refl].
Qed.

Lemma absorb_below f f' mode e l p p' : (forall a b, below (f a b) (f' a b)) ->
  below (absorb_list_of_maps f mode e l p) (absorb_list_of_maps f' mode e l p').
Proof.
  intros H. unfold absorb_list_of_maps. apply below_bind; [apply below_refl|]. intros r.
  apply below_fold. intros b x. destruct (is_map x); [apply H|apply below_Err].
Qed.

Lemma union_below rec rec' e l p p' : rec_below rec rec' ->
  below (union_lists random finish ctx rec e l p) (union_lists random finish ctx rec' e l p').
Proof.
  intros H. unfold union_lists. apply below_bind; [apply below_refl|]. intros r.
  apply below_bind; [|intros; apply below_refl]. destruct (mergelists _); [|apply below_refl].
  apply below_bind; [apply below_refl|]. intros [r1 h]. apply below_bind; [|intros; apply below_refl].
  apply below_fold. intros [r2 lm] i. destruct (snd ∘ snd <$> _); [|apply below_refl].
  apply below_bind; [apply below_refl|]. intros item. apply below_bind; [apply H|intros; apply below_refl].
Qed.

Lemma overwrite_below rec rec' e l p p' : rec_below rec rec' ->
  below (overwrite_positionally rec e l p) (overwrite_positionally rec' e l p').
Proof.
  intros H. unfold overwrite_positionally. apply below_bind; [|intros; apply below_refl].
  apply below_fold. intros b [i x]. apply below_bind; [|intros; apply below_refl].
  destruct (items_of e !! i); [apply H|apply below_refl].
Qed.

Lemma simple_below fuel : forall fuel' depth depth' e l p p', (fuel <= fuel')%nat -> (depth' <= depth)%nat ->
  below (merge_simple random fuel depth e l p) (merge_simple random fuel' depth' e l p').
Proof.
  induction fuel as [|fuel IH]; intros fuel' depth depth' e l p p' Hf Hd; [apply below_Err|].
  destruct fuel' as [|fuel']; [lia|]. cbn [merge_simple]. unfold too_deep.
  destruct (Nat.leb_spec MAX_DEPTH depth) as [|Hm]; [apply below_Err|].
  rewrite (proj2 (Nat.leb_gt MAX_DEPTH depth')) by lia.
  repeat (match goal with |- below (if ?c then _ else _) _ => destruct c end; try apply below_refl).
  apply overwrite_below. intros a b q q'. apply IH; lia.
Qed.

Lemma modes_below (Ho : c_overrides ctx = None) fuel : forall fuel' depth depth' e l p p',
  (fuel <= fuel')%nat -> (depth' <= depth)%nat ->
  below (merge_value random finish ctx fuel depth e l p)
    (merge_value random finish ctx fuel' depth' e l p') /\
  below (merge_substitute random finish ctx fuel depth e l p)
    (merge_substitute random finish ctx fuel' depth' e l p') /\
  below (merge_deep random finish ctx fuel depth e l p)
    (merge_deep random finish ctx fuel' depth' e l p').
Proof.
  assert (Hmode : forall p, mode_at ctx p = c_mode ctx) by (intros p; unfold mode_at; by rewrite Ho).
  induction fuel as [|fuel IH]; intros fuel' depth depth' e l p p' Hf Hd;
    [split_and!; apply below_Err|].
  destruct fuel' as [|fuel']; [lia|].
  assert (IHn : forall a b q q', _) by exact (λ a b q q', IH fuel' (S depth) (S depth') a b q q'
    ltac:(lia) ltac:(lia)).
  cbn [merge_value merge_substitute merge_deep]. split_and!.
  - unfold too_deep. destruct (Nat.leb_spec MAX_DEPTH depth) as [|Hm]; [apply below_Err|].
    rewrite (proj2 (Nat.leb_gt MAX_DEPTH depth')) by lia.
    destruct (is_absent l); [apply below_refl|]. destruct (is_absent e); [apply below_refl|].
    rewrite !Hmode. destruct (c_mode ctx); [apply simple_below; lia|apply IH; lia..].
  - repeat (match goal with |- below (if ?c then _ else _) _ => destruct c end;
      try apply below_refl; try apply below_Err).
    + apply maps_below. intros a b q q'. apply IHn.
    + apply absorb_below. intros a b. apply IHn.
  - repeat (match goal with |- below (if ?c then _ else _) _ => destruct c end;
      try apply below_refl; try apply below_Err).
    + apply union_below. intros a b q q'. apply IHn.
    + apply maps_below. intros a b q q'. apply IHn.
    + apply absorb_below. intros a b. apply IHn.
Qed.
End places.

(** ** One step at the root *)

Section root.
Context (random : Seeded) (finish : list Token -> Z).

Lemma fuel_left : exists f, merge_fuel = S (S f).
Proof. by exists 258%nat. Qed.

(** Two maps, under a recursive mode: the map rule. *)
Lemma merge_map_step ctx fuel depth e l p : mode_at ctx p <> Simple -> (depth < MAX_DEPTH)%nat ->
  keys_are_text e = true -> keys_are_text l = true ->
  merge_value random finish ctx (S (S fuel)) depth (VMap e) (VMap l) p =
    merge_maps_recursively random (merge_value random finish ctx fuel (S depth)) (VMap e) (VMap l) p.
Proof.
  intros Hm Hd He Hl. cbn [merge_value]. unfold too_deep. rewrite (proj2 (Nat.leb_gt _ _) Hd).
  assert (Hmap : forall m, keys_are_text m = true -> is_map (VMap m) = true).
  { intros m H. apply is_map_Some. eauto. }
  assert (forall m, is_absent (VMap m) = false) as Ha by done. rewrite !Ha.
  assert (forall m, is_list (VMap m) = false) as Hli by done.
  destruct (mode_at ctx p); [done| |].
  - cbn [merge_substitute]. by rewrite !Hmap.
  - cbn [merge_deep]. unfold is_scalar. rewrite !Hmap by done. cbn [negb andb]. rewrite !Hli.
    by rewrite bool_decide_eq_false_2.
Qed.

Lemma get_text m k w : get m k = Some w -> (k, w) ∈ m.
Proof.
  unfold get. intros H. destruct (position m k) as [i|] eqn:E; [|done].
  destruct (position_entry _ _ _ E) as [u Eu]. cbn [mbind option_bind] in H. rewrite Eu in H.
  injection H as ->. by eapply list_elem_of_lookup_2.
Qed.

Lemma get_in m k w : NoDup (keys m) -> (k, w) ∈ m -> get m k = Some w.
Proof.
  intros Hnd H. rewrite get_contents. by apply elem_of_list_to_map_1.
Qed.

Lemma try_map_lookup {E} (g : bytes * Value -> result E Value) l l' k w :
  try_map (with_key g) l = Ok l' -> (k, w) ∈ l -> exists c, g (k, w) = Ok c /\ (k, c) ∈ l'.
Proof.
  revert l'. induction l as [|e l IH]; intros l' H Hin; [by apply elem_of_nil in Hin|].
  cbn [try_map] in H. change (with_key g e) with (c ← g e; Ok (E := E) (e.1, c)) in H.
  destruct (g e) as [c|] eqn:Eg; [|discriminate H]. cbn [mbind result_bind] in H.
  destruct (try_map _ l) as [ys|]; [|discriminate H]. cbn in H. injection H as <-.
  apply elem_of_cons in Hin as [<-|Hin].
  - exists c. split; [done|by left].
  - destruct (IH ys eq_refl Hin) as (c' & H1 & H2). exists c'. split; [done|by right].
Qed.

Lemma try_map_ok {E A B} (f : A -> result E B) (g : A -> B) l :
  (forall x, x ∈ l -> f x = Ok (g x)) -> try_map f l = Ok (map g l).
Proof.
  induction l as [|x l IH]; intros H; [done|]. cbn [try_map map]. rewrite H by (by left).
  cbn [mbind result_bind]. rewrite IH; [done|]. intros y Hy. apply H. by right.
Qed.

Lemma copy_later_only e l : Forall entry_sound l ->
  try_map (with_key (λ x, cloned x.2)) (later_only e l) = Ok (later_only e l).
Proof.
  intros H. rewrite (try_map_ok _ id); [by rewrite map_id|]. intros [k w] Hx. unfold with_key.
  apply list_elem_of_filter in Hx as [_ Hx]. rewrite Forall_forall in H. destruct (H _ Hx) as [_ Hw].
  cbn in *. by rewrite sound_cloned.
Qed.

Lemma keys_later_only e l : keys (later_only e l) = filter (λ k, k ∉ keys e) (keys l).
Proof.
  unfold later_only, keys. induction l as [|[k v] l IH]; [done|]. cbn [map fst].
  destruct (decide (k ∉ map fst e)).
  - rewrite !filter_cons_True by done. cbn [map fst]. by rewrite IH.
  - rewrite !filter_cons_False by done. done.
Qed.

Lemma contents_None m k : contents m !! k = None <-> k ∉ keys m.
Proof. rewrite <- get_contents. unfold get. rewrite <- position_None. destruct (position m k) as [i|] eqn:E; [|done].
  destruct (position_entry _ _ _ E) as [u Eu]. cbn. rewrite Eu. naive_solver. Qed.

Lemma contents_app m m' k : contents (m ++ m') !! k =
  match contents m !! k with Some w => Some w | None => contents m' !! k end.
Proof.
  unfold contents. rewrite list_to_map_app, lookup_union.
  destruct (list_to_map m !! k), (list_to_map m' !! k); done.
Qed.

Lemma contents_filter (P : bytes -> Prop) `{!forall k, Decision (P k)} m k :
  contents (filter (λ x, P x.1) m) !! k = if decide (P k) then contents m !! k else None.
Proof.
  unfold contents. induction m as [|[k' v] m IH]; [by destruct (decide (P k))|].
  destruct (decide (P k')) as [Hp|Hp].
  - rewrite filter_cons_True by done. rewrite !list_to_map_cons. cbn [fst snd].
    destruct (decide (k = k')) as [->|Hne]; [rewrite !lookup_insert_eq; by rewrite decide_True|].
    rewrite !lookup_insert_ne by done. exact IH.
  - rewrite filter_cons_False by done. rewrite IH, list_to_map_cons. cbn [fst snd].
    destruct (decide (P k)); [|done]. by rewrite lookup_insert_ne by congruence.
Qed.

(** What a merge of two maps holds under a key. *)
Lemma maps_contents rec e l p m k : sound (VMap e) -> sound (VMap l) ->
  merge_maps_recursively random rec (VMap e) (VMap l) p = Ok (VMap m) ->
  keys m = keys e ++ filter (λ k, k ∉ keys e) (keys l) /\
  match contents e !! k, contents l !! k with
  | Some a, Some b => exists c, contents m !! k = Some c /\ rec a b (child p k) = Ok c
  | Some a, None => contents m !! k = Some a
  | None, found => contents m !! k = found
  end.
Proof.
  intros [Hne He]%sound_map [Hnl Hl]%sound_map H.
  rewrite merge_maps_ok in H by (try apply entries_text; done).
  apply bind_Ok in H as (es & Hes & H). rewrite copy_later_only in H by done.
  cbn [mbind result_bind] in H. injection H as <-. apply try_map_keys in Hes as Hk. split.
  - rewrite <- keys_later_only. unfold keys in *. by rewrite map_app, Hk.
  - rewrite contents_app. destruct (contents e !! k) as [a|] eqn:Ea.
    + assert (Hin : (k, a) ∈ e) by (apply get_text; by rewrite get_contents).
      destruct (try_map_lookup _ _ _ _ _ Hes Hin) as (c & Hc & Hin').
      assert (contents es !! k = Some c) as ->.
      { rewrite <- get_contents. apply get_in; [|done]. unfold keys in *. by rewrite Hk. }
      unfold merge_entry in Hc. cbn [fst snd] in Hc. rewrite get_contents in Hc.
      destruct (contents l !! k) as [b|]; [eauto|].
      rewrite Forall_forall in He. destruct (He _ Hin) as [_ Ha]. cbn in Ha.
      rewrite sound_cloned in Hc by done. by injection Hc as <-.
    + apply contents_None in Ea. assert (contents es !! k = None) as ->.
      { apply contents_None. unfold keys in *. by rewrite Hk. }
      etransitivity; [exact (contents_filter (λ k, k ∉ keys e) l k)|]. by rewrite decide_True.
Qed.

Lemma merge_maps_map rec e l p v : sound (VMap e) -> sound (VMap l) ->
  merge_maps_recursively random rec (VMap e) (VMap l) p = Ok v -> exists m, v = VMap m.
Proof.
  intros [Hne He]%sound_map [Hnl Hl]%sound_map H.
  rewrite merge_maps_ok in H by (try apply entries_text; done).
  apply bind_Ok in H as (es & _ & H). rewrite copy_later_only in H by done. injection H as <-. eauto.
Qed.

(** ** Lists *)

Lemma union_ok ctx rec a b p : mergelists (c_options ctx) = false -> Forall sound a -> Forall sound b ->
  union_lists random finish ctx rec (VList a) (VList b) p =
    Ok (VList (a ++ new_items a b ++ filter (λ x, is_map x = true) b)).
Proof.
  intros Hm Ha Hb. unfold union_lists. cbn [items_of as_list default from_option id].
  rewrite push_clones, (sound_clones a Ha). cbn [mbind result_bind app]. rewrite Hm.
  pose proof (append_unique_ok finish a (VList b)) as H. cbn [items_of as_list default from_option id] in H.
  rewrite sound_clones in H by (by apply new_items_Forall).
  destruct (append_unique finish a (VList b)) as [[r h]|]; [|done]. subst r. cbn [mbind result_bind].
  assert (Hf : forall l out, Forall sound l ->
    try_fold (λ result item, if is_map item then (c ← clone_into item; Ok (result ++ [c])) else Ok result)
      out l = (Ok (out ++ filter (λ x, is_map x = true) l) : merged (list Value))).
  { induction l as [|x l IH]; intros out Hl; [by rewrite app_nil_r|].
    apply Forall_cons_iff in Hl as [Hx Hl]. cbn [try_fold]. destruct (is_map x) eqn:E.
    - rewrite filter_cons_True by done. rewrite clone_into_cloned, sound_cloned by done.
      cbn [mbind result_bind]. by rewrite IH, <- app_assoc.
    - rewrite filter_cons_False by congruence. by apply IH. }
  rewrite Hf by done. cbn [mbind result_bind]. by rewrite <- app_assoc.
Qed.

Lemma new_items_in l : forall held x, x ∈ l -> is_map x = false -> x ∈ held \/ x ∈ new_items held l.
Proof.
  induction l as [|y l IH]; intros held x Hx Hm; [by apply elem_of_nil in Hx|]. simpl.
  apply elem_of_cons in Hx as [<-|Hx].
  - rewrite Hm. cbn [orb]. destruct (bool_decide (x ∈ held)) eqn:E; [apply bool_decide_eq_true in E; by left|].
    right. by left.
  - destruct (_ || _); [by apply IH|]. destruct (IH (held ++ [y]) x Hx Hm) as [H|H].
    + apply elem_of_app in H as [H|H]; [by left|]. apply list_elem_of_singleton in H as ->. right. by left.
    + right. by right.
Qed.

Lemma new_items_fresh l : forall held x, x ∈ new_items held l -> (x ∉ held) /\ is_map x = false /\ x ∈ l.
Proof.
  induction l as [|y l IH]; intros held x Hx; [by apply elem_of_nil in Hx|]. simpl in Hx.
  destruct (is_map y) eqn:Em; cbn [orb] in Hx.
  { destruct (IH _ _ Hx) as (H1 & H2 & H3). split_and!; [done..|by right]. }
  destruct (bool_decide (y ∈ held)) eqn:E.
  { destruct (IH _ _ Hx) as (H1 & H2 & H3). split_and!; [done..|by right]. }
  apply bool_decide_eq_false in E. apply elem_of_cons in Hx as [->|Hx]; [split_and!; [done..|by left]|].
  destruct (IH _ _ Hx) as (H1 & H2 & H3). split_and!; [|done|by right].
  intros H. apply H1, elem_of_app. by left.
Qed.

Lemma new_items_nodup l : forall held, NoDup (new_items held l).
Proof.
  induction l as [|y l IH]; intros held; [constructor|]. simpl. destruct (_ || _); [done|].
  constructor; [|done]. intros H. apply new_items_fresh in H as [H _]. apply H, elem_of_app. right. by left.
Qed.

(** A loop that appends one result an item is a map over the items. *)
Lemma fold_snoc {A} (f : A -> merged Value) l : forall out,
  try_fold (λ out x, c ← f x; Ok (out ++ [c])) out l = (cs ← try_map f l; Ok (out ++ cs)).
Proof.
  induction l as [|x l IH]; intros out; cbn [try_fold try_map]; [cbn; by rewrite app_nil_r|].
  destruct (f x); [|done]. cbn [mbind result_bind]. rewrite IH.
  destruct (try_map f l); [|done]. cbn. by rewrite <- app_assoc.
Qed.

Lemma try_map_nth {E A B} (f : A -> result E B) l l' : try_map f l = Ok l' ->
  length l' = length l /\ forall i x, l !! i = Some x -> exists y, l' !! i = Some y /\ f x = Ok y.
Proof.
  revert l'. induction l as [|x l IH]; intros l' H; cbn [try_map] in H; [by injection H as <-|].
  destruct (f x) as [y|] eqn:Ef; [|discriminate H]. cbn [mbind result_bind] in H.
  destruct (try_map f l) as [ys|]; [|discriminate H]. injection H as <-.
  destruct (IH ys eq_refl) as [H1 H2]. split; [simpl; by rewrite H1|].
  intros [|i] z Hz; simpl in Hz; [injection Hz as <-; by exists y|]. by apply H2.
Qed.

(** [Simple] on two lists, position by position. *)
Lemma overwrite_ok rec a b p c : Forall sound a -> Forall sound b ->
  overwrite_positionally rec (VList a) (VList b) p = Ok c ->
  exists l, c = VList l /\ length l = Nat.max (length a) (length b) /\
  forall i, match a !! i, b !! i with
    | Some x, Some y => exists z, l !! i = Some z /\ rec x y (child p (index_segment i)) = Ok z
    | Some x, None => l !! i = Some x
    | None, found => l !! i = found
    end.
Proof.
  intros Ha Hb H. unfold overwrite_positionally in H. cbn [items_of as_list default from_option id] in H.
  set (f := λ '(index, later_item), match a !! index with
      | Some earlier_item => rec earlier_item later_item (child p (index_segment index))
      | None => clone_into later_item end : merged Value) in *.
  rewrite (try_fold_ext _ (λ out x, c ← f x; Ok (out ++ [c]))), fold_snoc in H
    by (intros ? [? ?] _; done).
  apply bind_Ok in H as (out & Hout & H). apply bind_Ok in Hout as (cs & Hcs & Hout).
  injection Hout as <-. cbn [app] in H.
  rewrite push_clones, sound_clones in H by (by apply Forall_drop). cbn [mbind result_bind] in H.
  injection H as <-. eexists. split; [reflexivity|].
  destruct (try_map_nth _ _ _ Hcs) as [Hlen Hnth]. rewrite length_imap in Hlen. split.
  { rewrite length_app, length_drop. lia. }
  intros i. destruct (b !! i) as [y|] eqn:Ey.
  - destruct (Hnth i (i, y)) as (z & Ez & Hz).
    { rewrite list_lookup_imap, Ey. done. }
    rewrite lookup_app_l by (by eapply lookup_lt_Some). rewrite Ez. unfold f in Hz.
    destruct (a !! i) as [x|]; [eauto|]. rewrite clone_into_cloned, sound_cloned in Hz; [congruence|].
    rewrite Forall_forall in Hb. apply Hb. by eapply list_elem_of_lookup_2.
  - apply lookup_ge_None in Ey. rewrite lookup_app_r by lia. rewrite lookup_drop.
    replace (length b + (i - length cs))%nat with i by lia. by destruct (a !! i).
Qed.
End root.

(** ** Nesting *)

(** How many maps deep a tree is. *)
Fixpoint map_height (v : Value) : nat :=
  match v with
  | VMap m => S ((fix go m := match m with [] => 0%nat | e :: m => Nat.max (map_height (snd e)) (go m) end) m)
  | _ => 0%nat
  end.

Lemma map_height_entry m e : e ∈ m -> (map_height e.2 < map_height (VMap m))%nat.
Proof.
  intros H. cbn [map_height]. induction m as [|x m IH]; [by apply elem_of_nil in H|].
  apply elem_of_cons in H as [<-|H]; [lia|]. specialize (IH H). lia.
Qed.

#[global] Arguments map_height : simpl never.

Section same.
Context (random : Seeded) (finish : list Token -> Z).
Let ctx := MkContext Substitute no_options None.

Lemma merge_same v : forall fuel depth p, sound v -> (depth + map_height v < MAX_DEPTH)%nat ->
  (need depth <= fuel)%nat -> merge_value random finish ctx fuel depth v v p = Ok v.
Proof.
  assert (Hleaf : forall v fuel depth p, sound v -> (depth < MAX_DEPTH)%nat -> (need depth <= fuel)%nat ->
    is_map v = false -> merge_value random finish ctx fuel depth v v p = Ok v).
  { intros w fuel depth p Hs Hd Hf Hm. destruct fuel as [|[|fuel]]; [unfold need, MAX_DEPTH in *; lia..|].
    cbn [merge_value merge_substitute mode_at ctx c_overrides c_mode default from_option mbind option_bind id].
    unfold too_deep. rewrite (proj2 (Nat.leb_gt _ _) Hd), clone_into_cloned, (sound_cloned w Hs).
    destruct (is_absent w); [done|]. rewrite Hm. unfold is_scalar. rewrite Hm. by destruct (is_list w). }
  induction v as [| |x|s|s|s|l IH|m IH|s] using value_ind'; intros fuel depth p Hs Hd Hf;
    try (apply Hleaf; done || (unfold map_height in Hd; lia)).
  - destruct fuel as [|[|fuel]]; [unfold need, MAX_DEPTH in *; lia..|].
    apply sound_map in Hs as [Hnd Hs]. pose proof (entries_text m Hs) as Ht.
    rewrite merge_map_step; [|done|lia|done|done]. rewrite merge_maps_ok by done.
    assert (E : try_map (with_key (merge_entry (merge_value random finish ctx fuel (S depth)) m p)) m = Ok m).
    { rewrite (try_map_ok _ id); [by rewrite map_id|]. intros [k w] Hin. unfold with_key, merge_entry.
      cbn [fst snd]. rewrite (get_in m k w Hnd Hin). rewrite !Forall_forall in IH, Hs.
      destruct (Hs _ Hin) as [_ Hw]. pose proof (map_height_entry m (k, w) Hin) as Hh. cbn [snd] in Hh, Hw.
      rewrite (IH (k, w) Hin); [done|done|cbn [snd]; lia|unfold need, MAX_DEPTH in *; lia]. }
    rewrite E. cbn [mbind result_bind]. rewrite copy_later_only by done. cbn [mbind result_bind].
    assert (later_only m m = []) as ->; [|by rewrite app_nil_r].
    apply elem_of_nil_inv. intros x Hx. apply list_elem_of_filter in Hx as [H1 H2]. apply H1.
    unfold keys. by apply (list_elem_of_fmap_2 fst).
Qed.
End same.

(** ** What merging promises *)

(** A merge of sound trees ends with a sound tree, or one of two errors. *)
Definition ends_well (r : merged Value) : Prop :=
  match r with
  | Ok v => sound v
  | Err (Refuse (Kind _ _ _ _)) => True
  | Err (Refuse (Build e)) => e = TooDeep
  | Err Panic => False
  end.

Lemma merge_ends_at random finish ctx fuel earlier later :
  (need 0 <= fuel)%nat -> (1 <= fuel)%nat ->
  let r := merge_value random finish ctx fuel 0 earlier later [] in
  r <> Err Panic /\ (sound earlier /\ sound later -> ends_well r).
Proof.
  intros Hn H1 r. pose proof (λ Q, values_end random finish Q ctx fuel 0%nat earlier later [] Hn H1) as H.
  fold r in H. clearbody r. split.
  - intros ->. apply (H False); by intros [].
  - intros [He Hl]. specialize (H True (λ _, He) (λ _, Hl)). unfold ends, ok in H.
    destruct r as [v|[[]|]]; simpl; auto.
Qed.

(** C5: every merge ends, in every mode and under any overrides, whatever the two
    trees hold and however deep they are: the depth check bounds the calls, so no
    recursion runs away and no index is out of range. Of two well-formed trees it
    makes a well-formed tree, or refuses for their shapes or their depth and
    nothing else. *)
Theorem merge_ends_well random finish mode earlier later options overrides :
  let r := merge_with random finish mode earlier later options overrides in
  r <> Err Panic /\ (sound earlier /\ sound later -> ends_well r).
Proof. apply merge_ends_at; unfold need, merge_fuel, MAX_DEPTH; lia. Qed.

Lemma merge_ends_well_witness :
  ends_well (merge (MkSeeded 0 0) (λ _, 0) Substitute
    (VMap [(bs "a", VList [VMap []; VAbsent])]) (VMap [(bs "a", VMap [])])).
Proof.
  refine (proj2 (merge_ends_well (MkSeeded 0 0) (λ _, 0) Substitute
    (VMap [(bs "a", VList [VMap []; VAbsent])]) (VMap [(bs "a", VMap [])]) no_options None) _).
  (split; apply soundb_sound; vm_compute; reflexivity).
Defined.

(** A merge at the root, with fuel to take its first steps. *)
Definition at_root (random : Seeded) (finish : list Token -> Z) (fuel : nat) (mode : MergeMode)
    (e l : Value) : merged Value :=
  merge_value random finish (MkContext mode no_options None) (S (S fuel)) 0 e l [].

Lemma merge_at_root : exists fuel, (need 0 <= fuel + 2)%nat /\ forall random finish mode e l,
  merge random finish mode e l = at_root random finish fuel mode e l.
Proof.
  destruct fuel_left as [f Ef]. exists f. split.
  { assert (need 0 <= merge_fuel)%nat by (unfold need, merge_fuel, MAX_DEPTH; lia). lia. }
  intros random finish mode e l.
  exact (f_equal (λ n, merge_value random finish (MkContext mode no_options None) n 0 e l []) Ef).
Qed.

Lemma map_rule_at_root random finish fuel mode e l v k :
  mode <> Simple -> sound (VMap e) -> sound (VMap l) ->
  at_root random finish fuel mode (VMap e) (VMap l) = Ok v ->
  exists m, v = VMap m /\
  keys m = keys e ++ filter (λ k, k ∉ keys e) (keys l) /\
  match contents e !! k, contents l !! k with
  | Some a, Some b => exists c, contents m !! k = Some c /\ at_root random finish fuel mode a b = Ok c
  | Some a, None => contents m !! k = Some a
  | None, found => contents m !! k = found
  end.
Proof.
  intros Hm He Hl H. unfold at_root in *. apply sound_map in He as He'. apply sound_map in Hl as Hl'.
  rewrite merge_map_step in H; [|done|unfold MAX_DEPTH; lia|apply entries_text, He'|apply entries_text, Hl'].
  destruct (merge_maps_map _ _ _ _ _ _ He Hl H) as [m ->]. exists m. split; [done|].
  destruct (maps_contents _ _ _ _ _ _ k He Hl H) as [H1 H2]. split; [done|].
  destruct (contents e !! k) as [a|]; [|done]. destruct (contents l !! k) as [b|]; [|done].
  destruct H2 as (c & Hc & Hr). exists c. split; [done|].
  by apply (modes_below random finish (MkContext mode no_options None) eq_refl fuel (S (S fuel)) 1 0 a b
    (child [] k) []); [lia|lia|].
Qed.

(** C6: under the recursive modes, the merge of two maps keeps the order of the
    earlier map's keys and puts the later map's new ones after them; a key both
    hold has the merge of the two values, and a key one of them holds has its
    value: a key the later layer leaves out is never deleted. *)
Theorem merge_map_rule random finish mode e l v k
    (Hm : mode <> Simple) (He : sound (VMap e)) (Hl : sound (VMap l))
    (H : merge random finish mode (VMap e) (VMap l) = Ok v) :
  exists m, v = VMap m /\
  keys m = keys e ++ filter (λ k, k ∉ keys e) (keys l) /\
  match contents e !! k, contents l !! k with
  | Some a, Some b => exists c, contents m !! k = Some c /\ merge random finish mode a b = Ok c
  | Some a, None => contents m !! k = Some a
  | None, found => contents m !! k = found
  end.
Proof.
  destruct merge_at_root as (f & _ & Ef). rewrite Ef in H.
  pose proof (map_rule_at_root random finish f mode e l v k Hm He Hl H) as R.
  destruct (contents e !! k) as [a|]; [|done]. destruct (contents l !! k) as [b|]; [|done].
  by rewrite Ef.
Qed.

Lemma merge_map_rule_witness :
  let e := [(bs "a", VNull); (bs "t", VMap [(bs "x", VNull)])] in
  let l := [(bs "b", VNull); (bs "t", VMap [(bs "y", VNull)])] in
  exists m, VMap [(bs "a", VNull); (bs "t", VMap [(bs "x", VNull); (bs "y", VNull)]); (bs "b", VNull)] = VMap m /\
  keys m = keys e ++ filter (λ k, k ∉ keys e) (keys l) /\
  exists c, contents m !! bs "t" = Some c /\
    merge (MkSeeded 0 0) (λ _, 0) Substitute (VMap [(bs "x", VNull)]) (VMap [(bs "y", VNull)]) = Ok c.
Proof.
  refine (merge_map_rule (MkSeeded 0 0) (λ _, 0) Substitute
    [(bs "a", VNull); (bs "t", VMap [(bs "x", VNull)])]
    [(bs "b", VNull); (bs "t", VMap [(bs "y", VNull)])] _ (bs "t") _ _ _ _);
    [done|(apply soundb_sound; vm_compute; reflexivity)..|vm_compute; reflexivity].
Defined.

(** The shapes a mode refuses to combine, away from two maps, two lists and a
    list onto a map. *)
Definition conflict (mode : MergeMode) (e l : Value) : bool :=
  match mode with
  | Simple => false
  | Substitute => xorb (is_map e) (is_map l)
  | Deep => negb (value_eqb e VNull) && negb (is_scalar l)
  end.

Lemma null_kind e : bool_decide (kind e = Some GUATIAO_NULL) = value_eqb e VNull.
Proof.
  apply eq_true_iff_eq. rewrite bool_decide_eq_true, value_eqb_spec. unfold kind.
  split; [|by intros ->]. destruct e; try done. by rewrite tag_unknown.
Qed.

Lemma shapes_at_root random finish fuel mode e l : sound l ->
  is_absent e = false -> is_absent l = false ->
  is_map e && (is_map l || is_list l) = false -> is_list e && is_list l = false ->
  at_root random finish (S fuel) mode e l =
    if conflict mode e l then Err (Refuse (Kind [] (kind e) (kind l) mode)) else Ok l.
Proof.
  intros Hl Ha Hb Hm Hs. unfold at_root. set (f := S fuel). cbn [merge_value]. rewrite Ha, Hb.
  assert (Hc : clone_into l = Ok l) by (by rewrite clone_into_cloned, sound_cloned).
  change (too_deep 0) with false. cbv iota. unfold mode_at. cbn [c_overrides c_mode mbind option_bind default from_option id].
  destruct mode; cbn [conflict].
  - cbn [merge_simple]. rewrite Ha, Hb, Hc. change (too_deep 0) with false. cbv iota.
    unfold is_scalar. destruct (is_map e), (is_map l), (is_list e), (is_list l); done.
  - cbn [merge_substitute]. rewrite Hc. unfold is_scalar.
    destruct (is_map e) eqn:Ee, (is_map l) eqn:El, (is_list l) eqn:Esl; cbn; try done.
    + apply is_map_Some in Ee as (m & -> & _). done.
    + apply is_map_Some in El as (m & -> & _). done.
  - cbn [merge_deep]. rewrite Hc, null_kind. unfold is_scalar.
    destruct (value_eqb e VNull), (is_map e), (is_map l), (is_list e), (is_list l); done.
Qed.

(** Shapes that do not combine are refused, naming the root and the two
    kinds, and never guessed at; everything else that is not two maps, two lists
    or a list onto a map is replaced by the later value. [Substitute] refuses a
    map against anything else on either side, [Deep] a container onto a value
    that is neither null nor the same shape, [Simple] nothing. An absent side is
    no opinion, in every mode. *)
Theorem merge_shapes random finish mode e l (He : sound e) (Hl : sound l) :
  merge random finish mode e VAbsent = Ok e /\
  merge random finish mode VAbsent l = Ok l /\
  (is_absent e = false /\ is_absent l = false /\
   is_map e && (is_map l || is_list l) = false /\ is_list e && is_list l = false ->
   merge random finish mode e l =
     if conflict mode e l then Err (Refuse (Kind [] (kind e) (kind l) mode)) else Ok l).
Proof.
  destruct merge_at_root as (f & Hf & Ef). rewrite !Ef.
  assert (Hce : clone_into e = Ok e) by (by rewrite clone_into_cloned, sound_cloned).
  assert (Hcl : clone_into l = Ok l) by (by rewrite clone_into_cloned, sound_cloned).
  split_and!.
  - unfold at_root. cbn [merge_value]. by rewrite Hce.
  - unfold at_root. cbn [merge_value]. change (is_absent VAbsent) with true. cbv iota.
    change (too_deep 0) with false. cbv iota. destruct (is_absent l) eqn:Ea; [|done].
    by apply is_absent_Some in Ea as ->.
  - intros (H1 & H2 & H3 & H4). unfold need in Hf. destruct f as [|f]; [lia|].
    by apply shapes_at_root.
Qed.

Lemma merge_shapes_witness :
  merge (MkSeeded 0 0) (λ _, 0) Substitute (VMap []) (VNull) =
    Err (Refuse (Kind [] (Some GUATIAO_MAP) (Some GUATIAO_NULL) Substitute)).
Proof.
  refine (proj2 (proj2 (merge_shapes (MkSeeded 0 0) (λ _, 0) Substitute (VMap []) VNull _ _)) _);
    [apply soundb_sound; reflexivity|apply soundb_sound; reflexivity|by split_and!].
Defined.

(** The list rules. [Substitute]: the later list is the list. [Deep]: the
    earlier list, then each later item that is not a map and is not held yet,
    once, then every later map; so nothing is lost and nothing shrinks.
    [Simple]: position by position, the excess of either side surviving. The
    hashes that find repeats in a long list decide nothing. *)
Theorem merge_list_rules random finish a b c (Ha : Forall sound a) (Hb : Forall sound b) :
  merge random finish Substitute (VList a) (VList b) = Ok (VList b) /\
  (exists extra, merge random finish Deep (VList a) (VList b) =
     Ok (VList (a ++ extra ++ filter (λ x, is_map x = true) b)) /\
     NoDup extra /\ forall x, x ∈ extra <-> x ∈ b /\ is_map x = false /\ (x ∉ a)) /\
  (merge random finish Simple (VList a) (VList b) = Ok c ->
   exists l, c = VList l /\ length l = Nat.max (length a) (length b) /\
   forall i, match a !! i, b !! i with
     | Some x, Some y => exists z, l !! i = Some z /\ merge random finish Simple x y = Ok z
     | Some x, None => l !! i = Some x
     | None, found => l !! i = found
     end).
Proof.
  destruct merge_at_root as (f & Hf & Ef). unfold need in Hf. destruct f as [|f]; [lia|].
  rewrite !Ef. assert (Hsb : sound (VList b)) by (by apply sound_list).
  assert (Hc : clone_into (VList b) = Ok (VList b)) by (by rewrite clone_into_cloned, sound_cloned).
  split_and!.
  - unfold at_root. set (g := S f). cbn [merge_value]. unfold mode_at.
    cbn [c_overrides c_mode mbind option_bind default from_option id merge_substitute].
    unfold is_map. cbn. exact Hc.
  - exists (new_items a b). split_and!.
    + unfold at_root. set (g := S f). cbn [merge_value]. unfold mode_at.
      cbn [c_overrides c_mode mbind option_bind default from_option id merge_deep].
      etransitivity; [|apply (union_ok random finish (MkContext Deep no_options None)
        (merge_deep random finish (MkContext Deep no_options None) g 1) a b []); done]. done.
    + apply new_items_nodup.
    + intros x. split.
      * intros Hx. apply new_items_fresh in Hx as (H1 & H2 & H3). done.
      * intros (H1 & H2 & H3). by destruct (new_items_in b a x H1 H2).
  - intros H.
    assert (E : overwrite_positionally (merge_simple random (S f) 1) (VList a) (VList b) [] = Ok c) by exact H.
    destruct (overwrite_ok _ _ _ _ _ Ha Hb E) as (l & -> & H1 & H2). exists l. split_and!; [done..|].
    intros i. specialize (H2 i). destruct (a !! i) as [x|]; [|done]. destruct (b !! i) as [y|]; [|done].
    destruct H2 as (z & Hz & Hr). exists z. split; [done|]. rewrite Ef.
    assert (Hs : merge_simple random (S (S f)) 0 x y [] = Ok z).
    { by apply (simple_below random (S f) (S (S f)) 1 0 x y (child [] (index_segment i)) []); [lia|lia|]. }
    unfold at_root. cbn [merge_value]. cbn [merge_simple] in Hs. change (too_deep 0) with false in *.
    cbv iota in *. destruct (is_absent y) eqn:Ey; [done|]. destruct (is_absent x) eqn:Ex; [done|].
    unfold mode_at. cbn [c_overrides c_mode mbind option_bind default from_option id merge_simple].
    rewrite Ey, Ex. change (too_deep 0) with false. exact Hs.
Qed.

Lemma merge_list_rules_witness :
  merge (MkSeeded 0 0) (λ _, 0) Substitute (VList [VNull; VNull]) (VList [VBool true]) =
    Ok (VList [VBool true]).
Proof.
  refine (proj1 (merge_list_rules (MkSeeded 0 0) (λ _, 0) [VNull; VNull] [VBool true] VNull _ _));
    apply sound_list, soundb_sound; reflexivity.
Defined.

(** Merging a tree into itself under [Substitute], or an empty map into a
    map, or a map into an empty one, changes nothing, as far down as a merge may
    go. *)
Theorem merge_identity random finish v m
    (Hv : sound v) (Hh : (map_height v < MAX_DEPTH)%nat) (Hm : sound (VMap m)) :
  merge random finish Substitute v v = Ok v /\
  merge random finish Substitute (VMap m) (VMap []) = Ok (VMap m) /\
  merge random finish Substitute (VMap []) (VMap m) = Ok (VMap m).
Proof.
  destruct merge_at_root as (f & Hf & Ef). rewrite !Ef. unfold at_root. split.
  { apply merge_same; [done|lia|]. unfold need in *. lia. }
  apply sound_map in Hm as [Hn Hs]. pose proof (entries_text m Hs) as Ht.
  rewrite !merge_map_step by (done || (unfold MAX_DEPTH; lia)).
  rewrite !merge_maps_ok by (done || constructor). split.
  - rewrite (try_map_ok (with_key (merge_entry _ _ _)) id).
    + rewrite map_id. cbn. by rewrite app_nil_r.
    + intros [k w] Hx. unfold with_key, merge_entry. cbn. rewrite Forall_forall in Hs.
      destruct (Hs _ Hx) as [_ Hw]. cbn in Hw. by rewrite sound_cloned.
  - cbn [try_map mbind result_bind app]. rewrite copy_later_only by done. cbn [mbind result_bind].
    do 2 f_equal. unfold later_only. clear. induction m as [|x m IH]; [done|].
    rewrite filter_cons_True; [by rewrite IH|apply not_elem_of_nil].
Qed.

Lemma merge_identity_witness :
  let m := [(bs "t", VMap [(bs "x", VNull); (bs "y", VList [VNull])])] in
  merge (MkSeeded 0 0) (λ _, 0) Substitute (VMap m) (VMap m) = Ok (VMap m).
Proof.
  refine (proj1 (merge_identity (MkSeeded 0 0) (λ _, 0)
    (VMap [(bs "t", VMap [(bs "x", VNull); (bs "y", VList [VNull])])])
    [(bs "t", VMap [(bs "x", VNull); (bs "y", VList [VNull])])] _ _ _)).
  - apply soundb_sound; reflexivity.
  - apply Nat.ltb_lt. reflexivity.
  - apply soundb_sound; reflexivity.
Defined.
