(* ===== verification/Provenance.v ===== *)
(** * Which layer each leaf came from

    The second half of [value/merge/mod.rs]: [Provenance], the walk that records
    what a layer claims, and the folding of labelled layers.

    The standard library's ordered map is its entries in the order of their
    paths; segments are compared byte by byte, paths segment by segment. *)

From Stdlib Require Import Sorting.Sorted.
From S2P Require Import Prelude Decimal Errors Number Value Keys Maps Encode Walk MergePath Merge MergeLaws.

(** ** The ordered map *)

(** [Ord for Vec] and [str]. *)
Fixpoint lex {A} (cmp : A -> A -> comparison) (a b : list A) : comparison :=
  match a, b with
  | [], [] => Eq
  | [], _ => Lt
  | _, [] => Gt
  | x :: a, y :: b => match cmp x y with Eq => lex cmp a b | c => c end
  end.
Definition path_cmp : path -> path -> comparison := lex (lex Z.compare).

(** A layer's label, and [Provenance]'s leaves. *)
Abbreviation label := (list Z) (only parsing).
Abbreviation leaves := (list (path * label)) (only parsing).

Fixpoint bt_insert (k : path) (v : label) (l : leaves) : leaves :=
  match l with
  | [] => [(k, v)]
  | e :: l' =>
      match path_cmp k e.1 with Lt => (k, v) :: l | Eq => (k, v) :: l' | Gt => e :: bt_insert k v l' end
  end.
Definition bt_get (l : leaves) (k : path) : option label := snd ∘ snd <$> list_find (λ e, e.1 = k) l.
Definition bt_remove (k : path) (l : leaves) : leaves := filter (λ e, e.1 <> k) l.
(** [range(k..)]: the entries from [k] on, in order. *)
Definition bt_from (k : path) (l : leaves) : leaves := filter (λ e, path_cmp e.1 k <> Lt) l.

Fixpoint take_while {A} (f : A -> bool) (l : list A) : list A :=
  match l with x :: l => if f x then x :: take_while f l else [] | [] => [] end.
(** [<[String]>::starts_with]. *)
Fixpoint starts_with (k p : path) {struct p} : bool :=
  match p, k with
  | [], _ => true
  | _ :: _, [] => false
  | s :: p, t :: k => bool_decide (t = s) && starts_with k p
  end.

(** ** Provenance *)

(** [Source]. *)
Inductive Source : Type :=
  | Layer (l : label)
  | Mixed
  | Absent.

#[export] Instance Source_eq_dec : EqDecision Source.
Proof. solve_decision. Defined.

(** The loop of [source_of] over the leaves beneath a path. *)
Fixpoint source_scan (found : option label) (l : leaves) : Source :=
  match l with
  | [] => match found with Some layer => Layer layer | None => Absent end
  | e :: l =>
      match found with
      | None => source_scan (Some e.2) l
      | Some seen => if decide (seen = e.2) then source_scan found l else Mixed
      end
  end.

(** [Provenance::source_of]. *)
Definition source_of (l : leaves) (p : path) : Source :=
  match bt_get l p with
  | Some layer => Layer layer
  | None => source_scan None (take_while (λ e, starts_with e.1 p) (bt_from p l))
  end.

(** [Provenance::forget_subtree]. *)
Definition forget_subtree (l : leaves) (p : path) : leaves :=
  let beneath := take_while (λ k, starts_with k p) (map fst (bt_from p l)) in
  foldl (λ l leaf, bt_remove leaf l) l beneath.

(** [Provenance::claim]; a map whose keys are not text has no entries here. *)
Fixpoint claim (l : leaves) (p : path) (v : Value) (layer : label) (depth : nat) : leaves :=
  if too_deep depth then bt_insert p layer l
  else match v with
  | VAbsent => l
  | VMap m =>
      if negb (keys_are_text m) || bool_decide (m = []) then bt_insert p layer l
      else (fix go l m := match m with
        | [] => l
        | e :: m => go (claim l (p ++ [e.1]) e.2 layer (S depth)) m
        end) l m
  | VList items =>
      if bool_decide (items = []) then bt_insert p layer l
      else (fix go l i items := match items with
        | [] => l
        | x :: items => go (claim l (p ++ [index_segment i]) x layer (S depth)) (S i) items
        end) l 0%nat items
  | _ => bt_insert p layer l
  end.

(** [replace]. *)
Definition replace (l : leaves) (p : path) (later : Value) (layer : label) (depth : nat) : leaves :=
  claim (forget_subtree l p) p later layer depth.

(** [record_simple]. *)
Fixpoint record_simple (earlier later : Value) (p : path) (layer : label) (l : leaves) (depth : nat)
    : leaves :=
  if too_deep depth || is_absent later then l
  else if is_map earlier && is_map later then
    foldl (λ l e,
        if is_absent e.2 then l else replace l (child p e.1) e.2 layer (S depth))
      l (entries_of later)
  else if is_list earlier && is_list later then
    match later with
    | VList items =>
        (fix go l i items := match items with
          | [] => l
          | x :: items =>
              let item_path := child p (index_segment i) in
              go (match items_of earlier !! i with
                  | Some e => record_simple e x item_path layer l (S depth)
                  | None => replace l item_path x layer (S depth)
                  end) (S i) items
          end) l 0%nat items
    | _ => l
    end
  else replace l p later layer depth.

Section layers.
Variable random : Seeded.
Variable finish : list Token -> Z.
Variable ctx : Context.

(** [record_claims]. *)
Fixpoint record_claims (earlier later : Value) (p : path) (layer : label) (l : leaves) (depth : nat)
    : leaves :=
  if too_deep depth then l
  else if is_absent later then l
  else
    let mode := mode_at ctx p in
    if decide (mode = Simple) then record_simple earlier later p layer l depth
    else if is_map earlier && is_map later then
      match later with
      | VMap m =>
          (fix go l m := match m with
            | [] => l
            | e :: m =>
                let child_path := child p e.1 in
                go (match (em ← as_map earlier; lookup_get random em e.1) with
                    | Some ec => record_claims ec e.2 child_path layer l (S depth)
                    | None => replace l child_path e.2 layer (S depth)
                    end) m
            end) l m
      | _ => l
      end
    else if bool_decide (mode = Deep) && is_list earlier && is_list later then
      if bool_decide (items_of earlier = []) then replace l p later layer depth else l
    else replace l p later layer depth.

(** One layer of [merge_layers_with], and the whole fold. *)
Definition add_layer (s : option Value * leaves) (layer : label * Value)
    : merged (option Value * leaves) :=
  let '(accumulated, provenance) := s in
  match accumulated with
  | None =>
      let provenance := claim provenance [] layer.2 layer.1 0 in
      c ← clone_into layer.2; Ok (Some c, provenance)
  | Some previous =>
      let provenance := record_claims previous layer.2 [] layer.1 provenance 0 in
      m ← merge_value random finish ctx merge_fuel 0 previous layer.2 [];
      Ok (Some m, provenance)
  end.
Definition fold_layers (layers : list (label * Value)) : merged (Value * leaves) :=
  '(accumulated, provenance) ← try_fold add_layer (None, []) layers;
  Ok (default (VMap []) accumulated, provenance).
End layers.

(** [MergeMode::merge_layers_with] and [MergeMode::merge_layers]. *)
Definition merge_layers_with (random : Seeded) (finish : list Token -> Z) (mode : MergeMode)
    (layers : list (label * Value)) (options : MergeOptions) (overrides : option MergeOverrides)
    : merged (Value * leaves) :=
  fold_layers random finish (MkContext mode options overrides) layers.
Definition merge_layers (random : Seeded) (finish : list Token -> Z) (mode : MergeMode)
    (layers : list (label * Value)) : merged (Value * leaves) :=
  merge_layers_with random finish mode layers no_options None.

(** ** Orders *)

(** What a comparison promises its clients. *)
Class Ordered {A} (cmp : A -> A -> comparison) : Prop := {
  cmp_eq a b : cmp a b = Eq <-> a = b;
  cmp_opp a b : cmp b a = CompOpp (cmp a b);
  cmp_lt a b c : cmp a b = Lt -> cmp b c = Lt -> cmp a c = Lt;
}.

#[export] Instance Z_ordered : Ordered Z.compare.
Proof.
  split; intros.
  - apply Z.compare_eq_iff.
  - apply Z.compare_antisym.
  - rewrite Z.compare_lt_iff in *. lia.
Qed.

#[export] Instance lex_ordered {A} (cmp : A -> A -> comparison) `{!Ordered cmp} : Ordered (lex cmp).
Proof.
  split.
  - induction a as [|x a IH]; intros [|y b]; simpl; try (split; congruence).
    pose proof (cmp_eq x y) as H. destruct (cmp x y); [|split; [done|]; intros [= -> _]..].
    + rewrite IH. split; [intros ->; f_equal; by apply H|by intros [= _ ->]].
    + by destruct (proj2 H eq_refl).
    + by destruct (proj2 H eq_refl).
  - induction a as [|x a IH]; intros [|y b]; simpl; try done.
    rewrite (cmp_opp x y). destruct (cmp x y); simpl; [apply IH|done..].
  - induction a as [|x a IH]; intros [|y b] [|z c]; simpl; try done.
    destruct (cmp x y) eqn:E1, (cmp y z) eqn:E2; try done; intros H1 H2.
    + apply cmp_eq in E1 as ->. rewrite E2. by eapply IH.
    + apply cmp_eq in E1 as ->. by rewrite E2.
    + apply cmp_eq in E2 as ->. by rewrite E1.
    + by rewrite (cmp_lt x y z).
Qed.

#[export] Instance path_ordered : Ordered path_cmp.
Proof. unfold path_cmp. apply _. Qed.

Definition sorted (l : leaves) : Prop := StronglySorted (λ a b, path_cmp a.1 b.1 = Lt) l.

Lemma path_cmp_refl p : path_cmp p p = Eq.
Proof. by apply cmp_eq. Qed.

Lemma path_cmp_gt a b : path_cmp a b = Gt <-> path_cmp b a = Lt.
Proof. rewrite (cmp_opp b a). by destruct (path_cmp b a). Qed.

(** ** The ordered map is a finite map *)

Lemma bt_get_cons e l k : bt_get (e :: l) k = if decide (e.1 = k) then Some e.2 else bt_get l k.
Proof.
  unfold bt_get. cbn [list_find]. destruct (decide (e.1 = k)); [done|].
  by destruct (list_find _ l) as [[i x]|].
Qed.

Lemma bt_get_above l k k' : Forall (λ e, path_cmp k' e.1 = Lt) l -> path_cmp k k' <> Gt -> bt_get l k = None.
Proof.
  intros H Hk. induction H as [|e l He _ IH]; [done|]. rewrite bt_get_cons.
  destruct (decide (e.1 = k)) as [<-|]; [|done]. exfalso. apply Hk. by apply path_cmp_gt.
Qed.

Lemma bt_get_elem l k v : sorted l -> bt_get l k = Some v <-> (k, v) ∈ l.
Proof.
  intros H. induction H as [|e l Hl IH He]; [by rewrite elem_of_nil|].
  rewrite bt_get_cons, elem_of_cons. destruct (decide (e.1 = k)) as [<-|Hne].
  - split; [intros [= <-]; left; by destruct e|]. intros [<-|Hin]; [done|].
    rewrite Forall_forall in He. specialize (He _ Hin). cbn in He. by rewrite path_cmp_refl in He.
  - rewrite IH. split; [by right|]. intros [<-|Hin]; done.
Qed.

Lemma bt_insert_Forall (P : path * label -> Prop) k v l : P (k, v) -> Forall P l -> Forall P (bt_insert k v l).
Proof.
  intros Hk H. induction H as [|e l He Hl IH]; [by constructor|]. cbn [bt_insert].
  destruct (path_cmp k e.1); by repeat constructor.
Qed.

Lemma bt_insert_sorted k v l : sorted l -> sorted (bt_insert k v l).
Proof.
  intros H. induction H as [|e l Hl IH He]; [by repeat constructor|]. cbn [bt_insert].
  destruct (path_cmp k e.1) eqn:E.
  - apply cmp_eq in E as ->. by constructor.
  - constructor; [by constructor|]. constructor; [done|]. eapply Forall_impl; [exact He|].
    intros x Hx. by eapply cmp_lt.
  - constructor; [done|]. apply bt_insert_Forall; [by apply path_cmp_gt|done].
Qed.

Lemma bt_insert_get k v l q : sorted l ->
  bt_get (bt_insert k v l) q = if decide (k = q) then Some v else bt_get l q.
Proof.
  intros H. induction H as [|e l Hl IH He]; [cbn [bt_insert]; by rewrite bt_get_cons|]. cbn [bt_insert].
  destruct (path_cmp k e.1) eqn:E; rewrite !bt_get_cons; cbn [fst snd].
  - apply cmp_eq in E as ->. by destruct (decide (e.1 = q)).
  - done.
  - rewrite IH. destruct (decide (e.1 = q)) as [<-|]; [|done]. rewrite decide_False; [done|].
    intros ->. by rewrite path_cmp_refl in E.
Qed.

Lemma sorted_filter (P : path * label -> Prop) `{!forall x, Decision (P x)} l :
  sorted l -> sorted (filter P l).
Proof.
  intros Hl0. induction Hl0 as [|e l Hl IH He]; [constructor|]. rewrite filter_cons.
  destruct (decide (P e)); [|done]. constructor; [done|]. rewrite Forall_forall in He |- *. intros x Hx. apply list_elem_of_filter in Hx as [_ Hx]. by apply He.
Qed.

Lemma bt_remove_get k l q : bt_get (bt_remove k l) q = if decide (k = q) then None else bt_get l q.
Proof.
  unfold bt_remove. induction l as [|e l IH]; [by destruct (decide (k = q))|]. rewrite filter_cons.
  destruct (decide (e.1 <> k)) as [Hk|Hk]; rewrite !bt_get_cons, IH.
  - destruct (decide (e.1 = q)) as [<-|]; [by rewrite decide_False|done].
  - apply dec_stable in Hk as <-. by destruct (decide (e.1 = q)).
Qed.

(** ** A subtree is one range *)

Lemma starts_with_spec k p : starts_with k p = true <-> exists t, k = p ++ t.
Proof.
  revert k. induction p as [|s p IH]; intros k; [split; [intros _; by exists k|done]|].
  destruct k as [|t k]; cbn [starts_with]; [split; [done|by intros [? ?]]|].
  rewrite andb_true_iff, bool_decide_eq_true, IH. split.
  - intros [-> [u ->]]. by exists u.
  - intros [u [= -> ->]]. split; [done|]. by exists u.
Qed.

Lemma starts_from p t : path_cmp (p ++ t) p <> Lt.
Proof.
  unfold path_cmp. induction p as [|s p IH]; cbn; [by destruct t|]. by rewrite (proj2 (cmp_eq s s) eq_refl).
Qed.

(** A path sorts before everything beneath it, and those follow it together. *)
Lemma starts_between p y t : path_cmp y p <> Lt -> path_cmp y (p ++ t) <> Gt -> starts_with y p = true.
Proof.
  unfold path_cmp. revert y. induction p as [|s p IH]; intros y H1 H2; [done|].
  destruct y as [|s' y]; [done|]. cbn in H1, H2 |- *.
  destruct (lex Z.compare s' s) eqn:E; [|done..]. apply (cmp_eq (cmp := lex Z.compare)) in E as ->.
  rewrite bool_decide_eq_true_2 by done. by apply IH.
Qed.

Lemma take_while_filter l p : sorted l -> Forall (λ e, path_cmp e.1 p <> Lt) l ->
  take_while (λ e, starts_with e.1 p) l = filter (λ e, starts_with e.1 p = true) l.
Proof.
  intros H. induction H as [|e l Hl IH He]; intros Hf; [done|]. apply Forall_cons_iff in Hf as [Hp Hf].
  cbn [take_while]. rewrite filter_cons. destruct (starts_with e.1 p) eqn:E.
  - rewrite decide_True by done. by rewrite IH.
  - rewrite decide_False by done. symmetry. apply elem_of_nil_inv. intros x Hx.
    apply list_elem_of_filter in Hx as [Hx Hin]. apply starts_with_spec in Hx as [t Ht].
    rewrite Forall_forall in He. specialize (He _ Hin). cbn in He. rewrite Ht in He.
    rewrite (starts_between p e.1 t) in E; [done|done|]. by rewrite He.
Qed.

Lemma beneath_filter l p : sorted l ->
  take_while (λ e, starts_with e.1 p) (bt_from p l) = filter (λ e, starts_with e.1 p = true) l.
Proof.
  intros H. unfold bt_from. rewrite take_while_filter; [|by apply sorted_filter|].
  - rewrite list_filter_filter. apply list_filter_iff. intros e. split; [by intros [? ?]|].
    intros Hs. split; [done|]. apply starts_with_spec in Hs as [t ->]. apply starts_from.
  - apply Forall_forall. intros e He. by apply list_elem_of_filter in He as [He _].
Qed.

Lemma take_while_map {A B} (g : A -> B) f l :
  take_while f (map g l) = map g (take_while (λ x, f (g x)) l).
Proof. induction l as [|x l IH]; [done|]. simpl. destruct (f (g x)); [|done]. simpl. by rewrite IH. Qed.

Lemma bt_remove_all ks : forall l, sorted l ->
  sorted (foldl (λ l leaf, bt_remove leaf l) l ks) /\
  forall q, bt_get (foldl (λ l leaf, bt_remove leaf l) l ks) q =
    if decide (q ∈ ks) then None else bt_get l q.
Proof.
  induction ks as [|k ks IH]; intros l Hl; cbn [foldl].
  - split; [done|]. intros q. by rewrite decide_False by apply not_elem_of_nil.
  - destruct (IH (bt_remove k l)) as [H1 H2]; [by apply sorted_filter|]. split; [done|]. intros q.
    rewrite H2, bt_remove_get. destruct (decide (q ∈ ks)) as [Hin|Hin].
    + by rewrite decide_True by (by right).
    + destruct (decide (k = q)) as [->|Hk]; [by rewrite decide_True by (by left)|].
      rewrite decide_False; [done|]. intros [->|?]%elem_of_cons; done.
Qed.

Lemma forget_spec l p : sorted l ->
  sorted (forget_subtree l p) /\
  forall q, bt_get (forget_subtree l p) q = if starts_with q p then None else bt_get l q.
Proof.
  intros Hl. unfold forget_subtree. rewrite take_while_map, beneath_filter by done.
  destruct (bt_remove_all (map fst (filter (λ e, starts_with e.1 p = true) l)) l Hl) as [H1 H2].
  split; [done|]. intros q. rewrite H2. destruct (starts_with q p) eqn:E.
  - case_decide as Hin; [done|]. destruct (bt_get l q) as [v|] eqn:Eq; [|done]. exfalso. apply Hin.
    apply bt_get_elem in Eq; [|done]. apply (list_elem_of_fmap_2 fst _ (q, v)).
    by apply list_elem_of_filter.
  - rewrite decide_False; [done|]. intros Hin. apply list_elem_of_fmap in Hin as ([q' v] & -> & Hin).
    apply list_elem_of_filter in Hin as [Hs _]. cbn in *. congruence.
Qed.

(** ** The source of a place *)

Lemma source_scan_spec l : forall found,
  match source_scan found l with
  | Layer x => (found = Some x \/ found = None /\ exists e, e ∈ l /\ e.2 = x) /\ forall e, e ∈ l -> e.2 = x
  | Absent => found = None /\ l = []
  | Mixed => exists x y, x <> y /\ (found = Some x \/ exists e, e ∈ l /\ e.2 = x) /\ exists e, e ∈ l /\ e.2 = y
  end.
Proof.
  induction l as [|e l IH]; intros found; cbn [source_scan].
  { destruct found; [|done]. split; [by left|]. by intros e ?%elem_of_nil. }
  destruct found as [seen|].
  - destruct (decide (seen = e.2)) as [->|Hne].
    + specialize (IH (Some e.2)). destruct (source_scan _ l).
      * destruct IH as [[[= <-]|[? _]] H]; [|done]. split; [by left|].
        intros e' [->|Hin]%elem_of_cons; [done|by apply H].
      * destruct IH as (x & y & Hxy & Hx & e' & He' & Hy). exists x, y. split_and!; [done| |].
        -- destruct Hx as [Hx|(e2 & H2 & E2)]; [by left|]. right. exists e2. split; [by right|done].
        -- exists e'. split; [by right|done].
      * by destruct IH.
    + exists seen, e.2. split_and!; [done|by left|]. exists e. split; [by left|done].
  - specialize (IH (Some e.2)). destruct (source_scan _ l).
    + destruct IH as [[[= <-]|[? _]] H]; [|done]. split.
      * right. split; [done|]. exists e. split; [by left|done].
      * intros e' [->|Hin]%elem_of_cons; [done|by apply H].
    + destruct IH as (x & y & Hxy & Hx & e' & He' & Hy). exists x, y. split_and!; [done| |].
      * right. destruct Hx as [[= <-]|(e2 & H2 & E2)]; [exists e; split; [by left|done]|].
        exists e2. split; [by right|done].
      * exists e'. split; [by right|done].
    + by destruct IH.
Qed.

(** Who is recorded at or beneath a place. *)
Definition beneath (l : leaves) (p : path) (x : label) : Prop :=
  exists q, starts_with q p = true /\ bt_get l q = Some x.

Lemma beneath_elem l p e : sorted l -> e ∈ filter (λ e, starts_with e.1 p = true) l <->
  starts_with e.1 p = true /\ bt_get l e.1 = Some e.2.
Proof. intros H. rewrite list_elem_of_filter, bt_get_elem by done. by destruct e. Qed.

Lemma source_of_spec l p : sorted l ->
  match source_of l p with
  | Layer x => bt_get l p = Some x \/ bt_get l p = None /\ beneath l p x /\ forall y, beneath l p y -> y = x
  | Mixed => bt_get l p = None /\ exists x y, x <> y /\ beneath l p x /\ beneath l p y
  | Absent => forall x, ~ beneath l p x
  end.
Proof.
  intros Hl. unfold source_of. destruct (bt_get l p) as [x|] eqn:E; [by left|].
  rewrite beneath_filter by done.
  pose proof (source_scan_spec (filter (λ e, starts_with e.1 p = true) l) None) as H.
  assert (Hb : forall x, beneath l p x <-> exists e, e ∈ filter (λ e, starts_with e.1 p = true) l /\ e.2 = x).
  { intros x. split.
    - intros (q & Hq & Hx). exists (q, x). split; [|done]. by apply beneath_elem.
    - intros ([q y] & He & <-). apply beneath_elem in He as [H1 H2]; [|done]. by exists q. }
  destruct (source_scan _ _) as [x| |].
  - right. split; [done|]. destruct H as [[?|[_ H]] Hall]; [done|]. split; [by apply Hb|].
    intros y (e & He & <-)%Hb. by apply Hall.
  - split; [done|]. destruct H as (x & y & Hxy & [?|Hx] & Hy); [done|]. exists x, y.
    split_and!; [done|by apply Hb..].
  - destruct H as [_ H]. intros x (e & He & _)%Hb. rewrite H in He. by apply elem_of_nil in He.
Qed.

(** ** What a layer claims *)

(** The leaves of a value, from some depth on: an empty container is a leaf, an
    absent value is none, and the depth bound cuts a deeper tree into one. *)
Fixpoint leaf_paths (depth : nat) (v : Value) : list path :=
  if too_deep depth then [[]]
  else match v with
  | VAbsent => []
  | VMap m =>
      if negb (keys_are_text m) || bool_decide (m = []) then [[]]
      else (fix go m := match m with
        | [] => []
        | e :: m => map (cons e.1) (leaf_paths (S depth) e.2) ++ go m
        end) m
  | VList items =>
      if bool_decide (items = []) then [[]]
      else (fix go i items := match items with
        | [] => []
        | x :: items => map (cons (index_segment i)) (leaf_paths (S depth) x) ++ go (S i) items
        end) 0%nat items
  | _ => [[]]
  end.

(** The leaves gained at the places [p ++ t] for [t] in [ps], and no others. *)
Definition claims (p : path) (ps : list path) (layer : label) (l l' : leaves) : Prop :=
  sorted l' /\ forall q, bt_get l' q = if decide (q ∈ map (app p) ps) then Some layer else bt_get l q.

Lemma claims_one l p layer : sorted l -> claims p [[]] layer l (bt_insert p layer l).
Proof.
  intros Hl. split; [by apply bt_insert_sorted|]. intros q. rewrite bt_insert_get by done.
  cbn [map]. rewrite app_nil_r. destruct (decide (p = q)) as [<-|Hne].
  - by rewrite decide_True by (by left).
  - rewrite decide_False; [done|]. by intros ->%list_elem_of_singleton.
Qed.

Lemma claims_none l p layer : sorted l -> claims p [] layer l l.
Proof. intros Hl. split; [done|]. intros q. by rewrite decide_False by apply not_elem_of_nil. Qed.

Lemma map_app_cons p s (ps : list path) : map (app p) (map (cons s) ps) = map (app (p ++ [s])) ps.
Proof. rewrite map_map. apply map_ext. intros t. by rewrite <- app_assoc. Qed.

Lemma claims_step l l1 l2 p s ps ps' layer : claims (p ++ [s]) ps layer l l1 ->
  claims p ps' layer l1 l2 -> claims p (map (cons s) ps ++ ps') layer l l2.
Proof.
  intros [H1 G1] [H2 G2]. split; [done|]. intros q. rewrite G2, G1, map_app, map_app_cons.
  destruct (decide (q ∈ map (app p) ps')) as [Hin|Hin].
  - rewrite decide_True; [done|]. apply elem_of_app. by right.
  - destruct (decide (q ∈ map (app (p ++ [s])) ps)) as [Hin'|Hin'].
    + rewrite decide_True; [done|]. apply elem_of_app. by left.
    + rewrite decide_False; [done|]. intros [?|?]%elem_of_app; done.
Qed.

Lemma claim_spec v : forall l p layer depth, sorted l ->
  claims p (leaf_paths depth v) layer l (claim l p v layer depth).
Proof.
  induction v as [| |x|s|s|s|items IH|m IH|s] using value_ind'; intros l p layer depth Hl;
    cbn [claim leaf_paths]; destruct (too_deep depth); try (by apply claims_one); try (by apply claims_none).
  - case_bool_decide as He; [by apply claims_one|]. clear He. generalize 0%nat as i. revert l Hl.
    induction IH as [|x items Hx _ IHi]; intros l Hl i; [by apply claims_none|].
    pose proof (Hx l (p ++ [index_segment i]) layer (S depth) Hl) as Hc.
    eapply claims_step; [exact Hc|]. apply IHi, Hc.
  - destruct (negb _ || _); [by apply claims_one|]. revert l Hl.
    induction IH as [|e m Hx _ IHm]; intros l Hl; [by apply claims_none|].
    pose proof (Hx l (p ++ [e.1]) layer (S depth) Hl) as Hc.
    eapply claims_step; [exact Hc|]. apply IHm, Hc.
Qed.

Lemma starts_app p t : starts_with (p ++ t) p = true.
Proof. apply starts_with_spec. by exists t. Qed.

Lemma starts_child q p s : starts_with q (p ++ [s]) = true -> starts_with q p = true.
Proof. intros [t ->]%starts_with_spec. rewrite <- app_assoc. apply starts_app. Qed.

Lemma replace_spec l p v layer depth : sorted l ->
  sorted (replace l p v layer depth) /\
  forall q, bt_get (replace l p v layer depth) q =
    if starts_with q p then if decide (q ∈ map (app p) (leaf_paths depth v)) then Some layer else None
    else bt_get l q.
Proof.
  intros Hl. unfold replace. destruct (forget_spec l p Hl) as [H1 H2].
  destruct (claim_spec v (forget_subtree l p) p layer depth H1) as [H3 H4]. split; [done|].
  intros q. rewrite H4, H2. destruct (starts_with q p) eqn:E; [done|].
  rewrite decide_False; [done|]. intros (t & -> & _)%list_elem_of_fmap. by rewrite starts_app in E.
Qed.

(** A change by one layer that stays beneath a place. *)
Definition keeps_outside (layer : label) (p : path) (l l' : leaves) : Prop :=
  sorted l' /\
  (forall q, starts_with q p = false -> bt_get l' q = bt_get l q) /\
  (forall q y, bt_get l' q = Some y -> y = layer \/ bt_get l q = Some y).

Lemma outside_refl layer p l : sorted l -> keeps_outside layer p l l.
Proof. intros Hl. split_and!; [done|done|by right]. Qed.

Lemma outside_step layer p s l l1 l2 :
  keeps_outside layer (p ++ [s]) l l1 -> keeps_outside layer p l1 l2 -> keeps_outside layer p l l2.
Proof.
  intros (H1 & G1 & L1) (H2 & G2 & L2). split_and!; [done| |].
  - intros q Hq. rewrite G2, G1; [done| |done].
    destruct (starts_with q (p ++ [s])) eqn:E; [|done]. apply starts_child in E. congruence.
  - intros q y Hy. destruct (L2 q y Hy) as [->|Hy']; [by left|by apply L1].
Qed.

Lemma outside_replace l p v layer depth : sorted l -> keeps_outside layer p l (replace l p v layer depth).
Proof.
  intros Hl. destruct (replace_spec l p v layer depth Hl) as [H1 H2]. split_and!; [done| |].
  - intros q Hq. by rewrite H2, Hq.
  - intros q y. rewrite H2. destruct (starts_with q p); [|by right].
    case_decide; [|done]. intros [= <-]. by left.
Qed.

Lemma simple_outside later : forall earlier p layer l depth, sorted l ->
  keeps_outside layer p l (record_simple earlier later p layer l depth).
Proof.
  assert (Hmap : forall m p layer l depth, sorted l -> keeps_outside layer p l
    (foldl (λ l e, if is_absent e.2 then l else replace l (child p e.1) e.2 layer (S depth)) l m)).
  { induction m as [|e m IH]; intros p layer l depth Hl; [by apply outside_refl|]. cbn [foldl].
    destruct (is_absent e.2); [by apply IH|].
    pose proof (outside_replace l (child p e.1) e.2 layer (S depth) Hl) as H.
    eapply outside_step; [exact H|]. apply IH, H. }
  induction later as [| |x|s|s|s|items IH|m IH|s] using value_ind'; intros earlier p layer l depth Hl;
    cbn [record_simple]; destruct (_ || _); try (by apply outside_refl);
    try (destruct (is_map earlier && is_map _); [by apply Hmap|]);
    destruct (is_list earlier && is_list _); try (by apply outside_refl); try (by apply outside_replace).
  generalize 0%nat as i. revert l Hl. induction IH as [|x items Hx _ IHi]; intros l Hl i; [by apply outside_refl|].
  assert (H : forall l', l' = match items_of earlier !! i with
      | Some e => record_simple e x (child p (index_segment i)) layer l (S depth)
      | None => replace l (child p (index_segment i)) x layer (S depth) end ->
    keeps_outside layer (p ++ [index_segment i]) l l').
  { intros l' ->. destruct (items_of earlier !! i); [by apply Hx|by apply outside_replace]. }
  specialize (H _ eq_refl). eapply outside_step; [exact H|]. apply IHi, H.
Qed.

Section records.
Context (random : Seeded) (ctx : Context).

Lemma record_outside later : forall earlier p layer l depth, sorted l ->
  keeps_outside layer p l (record_claims random ctx earlier later p layer l depth).
Proof.
  induction later as [| |x|s|s|s|items IH|m IH|s] using value_ind'; intros earlier p layer l depth Hl;
    cbn [record_claims]; destruct (too_deep depth); try (by apply outside_refl);
    (destruct (is_absent _); [by apply outside_refl|]);
    (destruct (decide _); [by apply simple_outside|]);
    (destruct (is_map earlier && is_map _); [|
      destruct (bool_decide (_ = Deep) && is_list earlier && is_list _);
        [destruct (bool_decide (items_of earlier = []))|]; by apply outside_replace || by apply outside_refl]);
    try (by apply outside_refl).
  revert l Hl. induction IH as [|e m Hx _ IHm]; intros l Hl; [by apply outside_refl|].
  assert (H : forall l', l' = match (em ← as_map earlier; lookup_get random em e.1) with
      | Some ec => record_claims random ctx ec e.2 (child p e.1) layer l (S depth)
      | None => replace l (child p e.1) e.2 layer (S depth) end ->
    keeps_outside layer (p ++ [e.1]) l l').
  { intros l' ->. destruct (em ← as_map earlier; lookup_get random em e.1);
      [by apply Hx|by apply outside_replace]. }
  specialize (H _ eq_refl). eapply outside_step; [exact H|]. apply IHm, H.
Qed.

(** A map's layer leaves every key it does not carry to the layers before it. *)
Lemma record_other_keys earlier m p layer l depth k t : sorted l -> is_map earlier = true ->
  is_map (VMap m) = true -> mode_at ctx p <> Simple -> k ∉ keys m ->
  bt_get (record_claims random ctx earlier (VMap m) p layer l depth) (p ++ k :: t) = bt_get l (p ++ k :: t).
Proof.
  intros Hl He Hm Hs Hk. cbn [record_claims]. destruct (too_deep depth); [done|].
  change (is_absent (VMap m)) with false. cbv iota. rewrite decide_False by done. rewrite He, Hm.
  cbn [andb]. clear Hm. revert l Hl Hk.
  induction m as [|e m IH]; intros l Hl Hk; [done|]. apply not_elem_of_cons in Hk as [Hne Hk].
  assert (H : forall l', l' = match (em ← as_map earlier; lookup_get random em e.1) with
      | Some ec => record_claims random ctx ec e.2 (child p e.1) layer l (S depth)
      | None => replace l (child p e.1) e.2 layer (S depth) end ->
    keeps_outside layer (p ++ [e.1]) l l').
  { intros l' ->. destruct (em ← as_map earlier; lookup_get random em e.1);
      [by apply record_outside|by apply outside_replace]. }
  specialize (H _ eq_refl) as (H1 & H2 & _). etransitivity; [by apply IH|]. apply H2.
  destruct (starts_with _ _) eqn:E; [|done]. apply starts_with_spec in E as [u E].
  rewrite <- app_assoc in E. apply app_inv_head in E. by injection E.
Qed.
End records.

(** ** Folding layers *)

Section folding.
Context (random : Seeded) (finish : list Token -> Z) (ctx : Context).

Abbreviation fold_merges c layers :=
  (try_fold (λ acc (layer : label * Value), merge_value random finish ctx merge_fuel 0 acc layer.2 []) c layers)
  (only parsing).

(** The values of a fold do not look at what is recorded beside them, and what
    is recorded names layers folded. *)
Lemma layers_value rest : forall c prov,
  fst <$> try_fold (add_layer random finish ctx) (Some c, prov) rest = Some <$> fold_merges c rest.
Proof.
  induction rest as [|[lab x] rest IH]; intros c prov; [done|]. cbn [try_fold add_layer].
  destruct (merge_value _ _ _ _ _ _ _ _) as [m|]; [|done]. apply IH.
Qed.

Definition recorded (labels : list label) (l : leaves) : Prop :=
  sorted l /\ forall q y, bt_get l q = Some y -> y ∈ labels.

Lemma recorded_step layer labels p l l' : recorded labels l -> layer ∈ labels ->
  keeps_outside layer p l l' -> recorded labels l'.
Proof.
  intros [H1 H2] Hin (H3 & _ & H4). split; [done|]. intros q y Hy.
  destruct (H4 q y Hy) as [->|Hy']; [done|by eapply H2].
Qed.

Lemma outside_claim l p v layer depth : sorted l -> keeps_outside layer p l (claim l p v layer depth).
Proof.
  intros Hl. destruct (claim_spec v l p layer depth Hl) as [H1 H2]. split_and!; [done| |].
  - intros q Hq. rewrite H2, decide_False; [done|]. intros (t & -> & _)%list_elem_of_fmap.
    by rewrite starts_app in Hq.
  - intros q y. rewrite H2. case_decide; [intros [= <-]; by left|by right].
Qed.

Lemma layers_recorded layers labels s s' : (forall layer, layer ∈ layers -> layer.1 ∈ labels) ->
  recorded labels s.2 -> try_fold (add_layer random finish ctx) s layers = Ok s' -> recorded labels s'.2.
Proof.
  intros Hin. apply (try_fold_inv _ (λ s, recorded labels s.2)).
  intros [acc l] [lab x] s2 Hl Hr H. cbn [add_layer] in H. specialize (Hin _ Hl). cbn [fst snd] in *.
  destruct acc as [c|]; apply bind_Ok in H as (m & _ & [= <-]); cbn [snd].
  - eapply recorded_step; [done|done|]. apply record_outside, Hr.
  - eapply recorded_step; [done|done|]. apply outside_claim, Hr.
Qed.

Lemma fold_never_panics rest : forall c, fold_merges c rest <> Err Panic.
Proof.
  induction rest as [|layer rest IH]; intros c; [done|]. cbn [try_fold].
  destruct (merge_ends_at random finish ctx merge_fuel c layer.2) as [H _];
    [unfold need, merge_fuel, MAX_DEPTH; lia..|].
  destruct (merge_value _ _ _ _ _ _ _ _) as [m|e]; [apply IH|]. intros E. apply H. exact E.
Qed.

Lemma fold_layers_value layer rest :
  fst <$> fold_layers random finish ctx (layer :: rest) = (c ← clone_into layer.2; fold_merges c rest).
Proof.
  unfold fold_layers. cbn [try_fold]. destruct layer as [lab x].
  cbn [add_layer fst snd]. destruct (clone_into x) as [c|]; [|done]. cbn [mbind result_bind].
  pose proof (layers_value rest c (claim [] [] x lab 0)) as H.
  destruct (try_fold (add_layer random finish ctx) _ rest) as [[acc l]|e];
    destruct (try_fold _ c rest) as [v|e']; cbn [fmap result_fmap fst] in H.
  - injection H as ->. reflexivity.
  - discriminate H.
  - discriminate H.
  - injection H as ->. reflexivity.
Qed.

Lemma fold_layers_never_panics layer rest : fold_layers random finish ctx (layer :: rest) <> Err Panic.
Proof.
  intros Hp. pose proof (fold_layers_value layer rest) as E. rewrite Hp, clone_into_cloned in E.
  unfold cloned in E. destruct (uncopiable layer.2); [discriminate E|]. cbn [mbind result_bind fmap result_fmap] in E.
  symmetry in E. exact (fold_never_panics rest layer.2 E).
Qed.

Lemma fold_layers_recorded layer rest v l : fold_layers random finish ctx (layer :: rest) = Ok (v, l) ->
  recorded (map fst (layer :: rest)) l.
Proof.
  intros H. unfold fold_layers in H. apply bind_Ok in H as ([acc l'] & H & Hv). injection Hv as _ ->.
  refine (layers_recorded _ _ (None, []) (acc, l) _ _ H); [|by split; [constructor|]].
  intros x Hx. by apply (list_elem_of_fmap_2 fst).
Qed.
End folding.

(** ** What provenance promises *)

(** The source of a place is exactly what is recorded at it and beneath it:
    the leaf there; else the one layer all the leaves beneath agree on; mixed
    when two disagree; absent when there is none. The range the ordered map is
    scanned by is the whole subtree and nothing else, and forgetting a subtree
    forgets exactly it. *)
Theorem source_of_exact l p q (Hl : sorted l) :
  match source_of l p with
  | Layer x => bt_get l p = Some x \/ bt_get l p = None /\ beneath l p x /\ forall y, beneath l p y -> y = x
  | Mixed => bt_get l p = None /\ exists x y, x <> y /\ beneath l p x /\ beneath l p y
  | Absent => forall x, ~ beneath l p x
  end /\
  sorted (forget_subtree l p) /\
  bt_get (forget_subtree l p) q = if starts_with q p then None else bt_get l q.
Proof.
  split; [by apply source_of_spec|]. destruct (forget_spec l p Hl) as [H1 H2]. by split.
Qed.

Lemma source_of_exact_witness :
  let l := [([bs "tls"; bs "ca"], bs "system"); ([bs "tls"; bs "verify"], bs "user"); ([bs "tlsv2"], bs "site")] in
  source_of l [bs "tls"] = Mixed /\ bt_get (forget_subtree l [bs "tls"]) [bs "tlsv2"] = Some (bs "site").
Proof.
  split; [reflexivity|].
  refine (eq_trans (proj2 (proj2 (source_of_exact
    [([bs "tls"; bs "ca"], bs "system"); ([bs "tls"; bs "verify"], bs "user"); ([bs "tlsv2"], bs "site")]
    [bs "tls"] [bs "tlsv2"] _))) _); [|reflexivity].
  repeat constructor.
Defined.

(** A layer claims exactly the leaves of what it says. The first layer is
    recorded at each leaf of its value and nowhere else; a value that takes a
    place outright leaves its own leaves there and no older ones; a layer merged
    in changes nothing outside the place it is merged at, and nothing under a
    key its map does not carry; an absent value claims nothing. *)
Theorem layer_claims_exact random ctx earlier later m p k t q layer l depth (Hl : sorted l) :
  bt_get (claim [] [] later layer depth) q =
    (if decide (q ∈ leaf_paths depth later) then Some layer else None) /\
  bt_get (replace l p later layer depth) (p ++ t) =
    (if decide (t ∈ leaf_paths depth later) then Some layer else None) /\
  (starts_with q p = false ->
   bt_get (record_claims random ctx earlier later p layer l depth) q = bt_get l q) /\
  (is_map earlier = true /\ is_map (VMap m) = true /\ mode_at ctx p <> Simple /\ (k ∉ keys m) ->
   bt_get (record_claims random ctx earlier (VMap m) p layer l depth) (p ++ k :: t) = bt_get l (p ++ k :: t)) /\
  record_claims random ctx earlier VAbsent p layer l depth = l.
Proof.
  split_and!.
  - destruct (claim_spec later [] [] layer depth) as [_ H]; [constructor|]. rewrite H.
    replace (map (app []) (leaf_paths depth later)) with (leaf_paths depth later); [done|].
    symmetry. apply map_id.
  - destruct (replace_spec l p later layer depth Hl) as [_ H]. rewrite H, starts_app.
    destruct (decide (t ∈ leaf_paths depth later)) as [Hin|Hin].
    + rewrite decide_True; [done|]. by apply (list_elem_of_fmap_2 (app p)).
    + rewrite decide_False; [done|]. intros (t' & E & Ht)%list_elem_of_fmap. apply app_inv_head in E as ->. done.
  - by apply record_outside.
  - intros (H1 & H2 & H3 & H4). by apply record_other_keys.
  - cbn [record_claims]. by destruct (too_deep depth).
Qed.

Lemma layer_claims_exact_witness :
  bt_get (replace [([bs "a"; bs "b"], bs "x")] [bs "a"] (VList [VNull]) (bs "y") 0) ([bs "a"] ++ [bs "0"]) = Some (bs "y").
Proof.
  refine (eq_trans (proj1 (proj2 (layer_claims_exact (MkSeeded 0 0) (MkContext Deep no_options None)
    VNull (VList [VNull]) [] [bs "a"] [] [bs "0"] [] (bs "y") [([bs "a"; bs "b"], bs "x")] 0 _))) _); [|reflexivity].
  repeat constructor.
Defined.

(** Layers fold from the left. No layers are an empty map that nothing
    claims; otherwise the value is the first layer, each later one merged into
    what came before it, and the fold ends: with a value, or with the first
    merge's error and never a panic. Whatever is recorded names one of the
    layers folded. *)
Theorem layers_are_a_fold random finish mode options overrides (layer : label * Value) rest :
  let merge_all layers := merge_layers_with random finish mode layers options overrides in
  merge_all [] = Ok (VMap [], []) /\
  fst <$> merge_all (layer :: rest) =
    (c ← clone_into layer.2;
     try_fold (λ acc later, merge_with random finish mode acc later.2 options overrides) c rest) /\
  merge_all (layer :: rest) <> Err Panic /\
  (forall v l q y, merge_all (layer :: rest) = Ok (v, l) ->
     bt_get l q = Some y -> y ∈ map fst (layer :: rest)).
Proof.
  intros merge_all. split_and!; [reflexivity| | |].
  - exact (fold_layers_value random finish (MkContext mode options overrides) layer rest).
  - exact (fold_layers_never_panics random finish (MkContext mode options overrides) layer rest).
  - intros v l q y H.
    exact (proj2 (fold_layers_recorded random finish (MkContext mode options overrides) layer rest v l H) q y).
Qed.

(** Two merges whose record does not follow the value. A map that absorbs a
    list of maps gets keys no layer is recorded for, and the list's positions,
    which the value does not have, are recorded instead. And an earlier empty map
    stays recorded as a leaf once a later layer fills it, so the place is said to
    come from the layer that put nothing there. *)
Theorem record_departs_from_value random finish :
  let tls v := VMap [(bs "tls", v)] in
  (exists l, merge_layers random finish Substitute
     [(bs "system", tls (VMap [(bs "ca", VNull)])); (bs "user", tls (VList [VMap [(bs "verify", VBool false)]]))] =
       Ok (tls (VMap [(bs "ca", VNull); (bs "verify", VBool false)]), l) /\
     source_of l [bs "tls"; bs "ca"] = Absent /\ source_of l [bs "tls"; bs "verify"] = Absent /\
     source_of l [bs "tls"; bs "0"; bs "verify"] = Layer (bs "user")) /\
  (exists l, merge_layers random finish Substitute
     [(bs "system", tls (VMap [])); (bs "user", tls (VMap [(bs "verify", VBool false)]))] =
       Ok (tls (VMap [(bs "verify", VBool false)]), l) /\
     source_of l [bs "tls"; bs "verify"] = Layer (bs "user") /\
     source_of l [bs "tls"] = Layer (bs "system")).
Proof. split; eexists; (split; [vm_compute; reflexivity|]); by vm_compute. Qed.
