(* ===== verification/Visit.v ===== *)
(** * A value as events

    [value/visit]: the events a value is handed to a sink as, a tree walking
    itself into one ([visit/tree.rs], through [visit/sink.rs]'s [Flat]), and
    what a sequence of events tells. A sink is a class: its state and its answer
    to each event, refused or not. *)

From S2P Require Import Prelude Errors Number Value Keys Maps Encode.

(** ** Steps on a state that outlives a refusal *)

(** A method on [&mut self]: its answer, and the state it leaves, also where it
    refuses. *)
Definition Steps (St A : Type) : Type := St -> result (fault ValueError) A * St.

#[export] Instance steps_ret St : MRet (Steps St) := λ A a s, (Ok a, s).
#[export] Instance steps_bind St : MBind (Steps St) := λ A B f m s,
  match m s with (Ok a, s) => f a s | (Err e, s) => (Err e, s) end.
Definition the_state {St} : Steps St St := λ s, (Ok s, s).
Definition update {St} (f : St -> St) : Steps St unit := λ s, (Ok (), f s).
Definition refuse {St A} (e : ValueError) : Steps St A := λ s, (Err (Refuse e), s).

Lemma steps_Ok {St A B} (m : Steps St A) (f : A -> Steps St B) s a s' :
  m s = (Ok a, s') -> (m ≫= f) s = f a s'.
Proof. intros H. unfold mbind, steps_bind. by rewrite H. Qed.
Lemma steps_Err {St A B} (m : Steps St A) (f : A -> Steps St B) s x s' :
  m s = (Err x, s') -> (m ≫= f) s = (Err x, s').
Proof. intros H. unfold mbind, steps_bind. by rewrite H. Qed.

(** [Sink]'s calls. A length is a promise of exactly so many elements. *)
Inductive Event : Type :=
  | EvAbsent
  | EvNull
  | EvBool (b : bool)
  | EvNumber (t : bytes)
  | EvString (t : bytes)
  | EvBytes (b : bytes)
  | EvListBegin (len : option Z)
  | EvListEnd
  | EvMapBegin (len : option Z)
  | EvKey (k : bytes)
  | EvMapEnd.

#[export] Instance Event_eq_dec : EqDecision Event.
Proof. solve_decision. Defined.

(** [Sink]. *)
Class Sink (St : Type) := event : Event -> Steps St unit.

(** Events one after another, up to the first refused. *)
Fixpoint emit {St} `{Sink St} (l : list Event) : Steps St unit :=
  match l with [] => mret () | e :: l => event e;; emit l end.

(** ** A tree walks itself *)

(** [room]: opening a container at [depth]. *)
Definition room (depth : nat) : result ValueError nat :=
  if decide (MAX_DEPTH <= depth)%nat then Err TooDeep else Ok (S depth).

Section walk.
Context {St : Type} `{Sink St}.

(** [Deep::walk], [walk_list] and [walk_map] through [Flat]: the node's tag and
    its door, then its events; a container's elements between its begin and its
    end. *)
Fixpoint walk_deep (v : Value) (depth : nat) : Steps St unit :=
  match v with
  | VAbsent => event EvAbsent
  | VNull => event EvNull
  | VBool b => event (EvBool b)
  | VNumber t => if is_number t then event (EvNumber t) else refuse NotANumber
  | VString t => if is_utf8 t then event (EvString t) else refuse NotUtf8
  | VBytes b => event (EvBytes b)
  | VList l =>
      match room depth with
      | Err e => refuse e
      | Ok inside =>
          event (EvListBegin (Some (len_of l)));;
          (fix items (l : list Value) : Steps St unit :=
            match l with
            | [] => event EvListEnd
            | x :: l => walk_deep x inside;; items l
            end) l
      end
  | VMap m =>
      if keys_are_text m then
        match room depth with
        | Err e => refuse e
        | Ok inside =>
            event (EvMapBegin (Some (len_of m)));;
            (fix entries (m : list (bytes * Value)) : Steps St unit :=
              match m with
              | [] => event EvMapEnd
              | e :: m => event (EvKey e.1);; walk_deep e.2 inside;; entries m
              end) m
        end
      else refuse NotUtf8
  | VUnknown n => refuse (UnknownTag (8 + Z.of_nat n))
  end.

(** [Walk for Value]. *)
Definition walk (v : Value) : Steps St unit := walk_deep v 0.
End walk.

(** ** What events tell *)

(** A length that is not given, or is kept. *)
Definition kept {A} (promise : option Z) (l : list A) : Prop :=
  match promise with None => True | Some n => n = len_of l end.

(** [tells v es]: the events are one whole value's, [v]: every promise kept, a
    key before each value of a map and none twice, and numbers in the grammar. *)
Fixpoint tells (v : Value) (es : list Event) : Prop :=
  match v with
  | VAbsent => es = [EvAbsent]
  | VNull => es = [EvNull]
  | VBool b => es = [EvBool b]
  | VNumber t => es = [EvNumber t] /\ is_number t = true
  | VString t => es = [EvString t]
  | VBytes b => es = [EvBytes b]
  | VList l => exists p ess, kept p l /\ es = EvListBegin p :: concat ess ++ [EvListEnd] /\
      (fix go (l : list Value) (ess : list (list Event)) {struct l} : Prop :=
        match l, ess with
        | [], [] => True
        | x :: l, e :: ess => tells x e /\ go l ess
        | _, _ => False
        end) l ess
  | VMap m => exists p ess, kept p m /\ NoDup (keys m) /\
      es = EvMapBegin p :: concat ess ++ [EvMapEnd] /\
      (fix go (m : list (bytes * Value)) (ess : list (list Event)) {struct m} : Prop :=
        match m, ess with
        | [], [] => True
        | x :: m, e :: ess => (exists es', e = EvKey x.1 :: es' /\ tells x.2 es') /\ go m ess
        | _, _ => False
        end) m ess
  | VUnknown _ => False
  end.

Definition tells_entry (x : bytes * Value) (es : list Event) : Prop :=
  exists es', es = EvKey x.1 :: es' /\ tells x.2 es'.

#[global] Arguments tells : simpl never.

Lemma tells_list l es : tells (VList l) es <->
  exists p ess, kept p l /\ es = EvListBegin p :: concat ess ++ [EvListEnd] /\ Forall2 tells l ess.
Proof.
  unfold tells. fold tells. apply exist_proper; intros p. apply exist_proper; intros ess.
  do 2 apply and_iff_compat_l. revert ess. induction l as [|x l IH]; intros [|e ess]; try (split; [done|intros H; inversion H]); [done|].
  rewrite IH. split; [intros []; by constructor|]. intros H. by inversion H.
Qed.

Lemma tells_map m es : tells (VMap m) es <->
  exists p ess, kept p m /\ NoDup (keys m) /\ es = EvMapBegin p :: concat ess ++ [EvMapEnd] /\
    Forall2 tells_entry m ess.
Proof.
  unfold tells. fold tells. apply exist_proper; intros p. apply exist_proper; intros ess.
  do 3 apply and_iff_compat_l. revert ess. induction m as [|x m IH]; intros [|e ess]; try (split; [done|intros H; inversion H]); [done|].
  rewrite IH. split; [intros []; by constructor|]. intros H. by inversion H.
Qed.

(** ** The tree events build

    The builder every sink of events is measured against: the containers open,
    the innermost first, and the value told once it is whole. *)

Inductive Told : Type :=
  | TList (promise : option Z) (items : list Value)
  | TMap (promise : option Z) (entries : list (bytes * Value)) (key : option bytes).

Definition Telling : Type := list Told * option Value.
Definition untold : Telling := ([], None).

(** One more than [n] held, of the promised. *)
Definition overrun (promise : option Z) (n : nat) : bool :=
  match promise with Some p => p <? Z.of_nat (S n) | None => false end.

(** Whether a value may come next. *)
Definition due (s : Telling) : bool :=
  match s with
  | ([], None) => true
  | ([], Some _) => false
  | (TList p l :: _, _) => negb (overrun p (length l))
  | (TMap p m key :: _, _) => bool_decide (is_Some key) && negb (overrun p (length m))
  end.

(** A whole value where one is due. *)
Definition told (v : Value) (s : Telling) : Telling :=
  match s with
  | ([], _) => ([], Some v)
  | (TList p l :: below, d) => (TList p (l ++ [v]) :: below, d)
  | (TMap p m (Some k) :: below, d) => (TMap p (m ++ [(k, v)]) None :: below, d)
  | (TMap p m None :: below, d) => s
  end.

Definition kept_all {A} (promise : option Z) (l : list A) : bool :=
  match promise with Some n => n =? len_of l | None => true end.

(** One event. *)
Definition tell (ev : Event) (s : Telling) : result ValueError Telling :=
  let value v := if due s then Ok (told v s) else Err WrongKind in
  match ev with
  | EvAbsent => value VAbsent
  | EvNull => value VNull
  | EvBool b => value (VBool b)
  | EvNumber t => if is_number t then value (VNumber t) else Err NotANumber
  | EvString t => value (VString t)
  | EvBytes b => value (VBytes b)
  | EvListBegin p => if due s then Ok (TList p [] :: s.1, s.2) else Err WrongKind
  | EvMapBegin p => if due s then Ok (TMap p [] None :: s.1, s.2) else Err WrongKind
  | EvKey k =>
      match s with
      | (TMap p m None :: below, d) =>
          if contains_key m k then Err DuplicateKey else Ok (TMap p m (Some k) :: below, d)
      | _ => Err WrongKind
      end
  | EvListEnd =>
      match s with
      | (TList p l :: below, d) => if kept_all p l then Ok (told (VList l) (below, d)) else Err WrongKind
      | _ => Err WrongKind
      end
  | EvMapEnd =>
      match s with
      | (TMap p m None :: below, d) =>
          if kept_all p m then Ok (told (VMap m) (below, d)) else Err WrongKind
      | _ => Err WrongKind
      end
  end.

#[global] Arguments overrun : simpl never.

Fixpoint tell_all (es : list Event) (s : Telling) : result ValueError Telling :=
  match es with [] => Ok s | e :: es => s ← tell e s; tell_all es s end.

Lemma tell_all_app es es' s : tell_all (es ++ es') s = (s ← tell_all es s; tell_all es' s).
Proof. revert s. induction es as [|e es IH]; intros s; [done|]. cbn. destruct (tell e s); [apply IH|done]. Qed.

Lemma overrun_kept {A} p (l : list A) n : kept p l -> (n < length l)%nat -> overrun p n = false.
Proof. destruct p as [p|]; [|done]. unfold kept, len_of, overrun. intros -> H. apply Z.ltb_ge. lia. Qed.

Lemma kept_all_spec {A} p (l : list A) : kept_all p l = true <-> kept p l.
Proof. destruct p as [p|]; [|done]. apply Z.eqb_eq. Qed.

(** Items told one by one into an open list, and entries into an open map. *)
Lemma tell_items p l es d below : Forall2 (λ v es, forall s, due s = true -> tell_all es s = Ok (told v s)) l es ->
  forall done_, kept p (done_ ++ l) ->
  tell_all (concat es) (TList p done_ :: below, d) = Ok (TList p (done_ ++ l) :: below, d).
Proof.
  induction 1 as [|v e l es Hv _ IH]; intros done_ Hp; [by rewrite app_nil_r|].
  cbn [concat]. rewrite tell_all_app, Hv; cbn [mbind result_bind told].
  - rewrite IH by by rewrite <- app_assoc. by rewrite <- app_assoc.
  - simpl. by rewrite (overrun_kept _ _ _ Hp) by (rewrite length_app; simpl; lia).
Qed.

Lemma tell_entries p m es d below :
  Forall2 (λ x es, exists es', es = EvKey x.1 :: es' /\
    forall s, due s = true -> tell_all es' s = Ok (told x.2 s)) m es ->
  forall done_, kept p (done_ ++ m) -> NoDup (keys (done_ ++ m)) ->
  tell_all (concat es) (TMap p done_ None :: below, d) = Ok (TMap p (done_ ++ m) None :: below, d).
Proof.
  induction 1 as [|[k v] e m es (e' & -> & Hv) _ IH]; intros done_ Hp Hnd; [by rewrite app_nil_r|].
  assert (Ek : contains_key done_ k = false).
  { apply not_true_iff_false. rewrite contains_key_spec. unfold keys in *. rewrite map_app in Hnd.
    apply NoDup_app in Hnd as (_ & H & _). intros Hk. apply (H k Hk). by left. }
  cbn [concat app tell_all tell fst snd]. rewrite Ek. cbn [mbind result_bind].
  rewrite tell_all_app, Hv; cbn [mbind result_bind told].
  - rewrite IH; rewrite <- app_assoc; done.
  - simpl. by rewrite (overrun_kept _ _ _ Hp) by (rewrite length_app; simpl; lia).
Qed.

Lemma Forall2_with {A B} (P : A -> Prop) (Q R : A -> B -> Prop) l k :
  Forall P l -> Forall2 Q l k -> (forall x y, P x -> Q x y -> R x y) -> Forall2 R l k.
Proof. intros H1 H2 Hi. induction H2; [constructor|]. apply Forall_cons_iff in H1 as []. constructor; auto. Qed.

(** A tree's events build it, wherever one is due; *)
Lemma tells_told v : forall es s, tells v es -> due s = true -> tell_all es s = Ok (told v s).
Proof.
  induction v as [| |b|t|t|t|l IH|m IH|n] using value_ind'; intros es s Ht Hd.
  - rewrite Ht. simpl. by rewrite Hd.
  - rewrite Ht. simpl. by rewrite Hd.
  - rewrite Ht. simpl. by rewrite Hd.
  - destruct Ht as [-> Hn]. simpl. by rewrite Hn, Hd.
  - rewrite Ht. simpl. by rewrite Hd.
  - rewrite Ht. simpl. by rewrite Hd.
  - apply tells_list in Ht as (p & ess & Hp & -> & Hl). cbn [tell_all tell]. rewrite Hd.
    cbn [mbind result_bind]. rewrite tell_all_app.
    rewrite (tell_items p l ess s.2 s.1); [|by eapply Forall2_with; [exact IH|exact Hl|auto]|done].
    cbn [mbind result_bind tell_all tell app]. rewrite (proj2 (kept_all_spec p l) Hp). by destruct s.
  - apply tells_map in Ht as (p & ess & Hp & Hnd & -> & Hm). cbn [tell_all tell]. rewrite Hd.
    cbn [mbind result_bind]. rewrite tell_all_app.
    rewrite (tell_entries p m ess s.2 s.1); [| |done|done].
    2: { eapply Forall2_with; [exact IH|exact Hm|]. intros x e Hx (e' & -> & He). exists e'. auto. }
    cbn [mbind result_bind tell_all tell app]. rewrite (proj2 (kept_all_spec p m) Hp). by destruct s.
  - done.
Qed.

(** The events that left what is being told. A container below the top awaits a
    value. *)
Fixpoint recorded (fs : list Told) (awaits : bool) (es : list Event) : Prop :=
  match fs with
  | [] => es = []
  | TList p l :: below => exists es0 ess, recorded below true es0 /\ Forall2 tells l ess /\
      es = es0 ++ EvListBegin p :: concat ess
  | TMap p m key :: below => exists es0 ess, recorded below true es0 /\ Forall2 tells_entry m ess /\
      NoDup (keys m) /\ (forall k, key = Some k -> k ∉ keys m) /\ (awaits = true -> is_Some key) /\
      es = es0 ++ EvMapBegin p :: concat ess ++ match key with Some k => [EvKey k] | None => [] end
  end.
Definition record_of (s : Telling) (es : list Event) : Prop :=
  match s with
  | ([], Some v) => tells v es
  | (fs, d) => d = None /\ recorded fs false es
  end.

Lemma record_told v s es es' : record_of s es -> tells v es' ->
  match s with ([], d) => d = None | (TMap _ _ key :: _, _) => is_Some key | _ => True end ->
  record_of (told v s) (es ++ es').
Proof.
  destruct s as [[|[p l|p m key] below] d]; intros Hr Hv Hdue; cbn [told].
  - subst d. destruct Hr as [_ ->]. exact Hv.
  - destruct Hr as [-> (es0 & ess & H0 & Hl & ->)]. split; [done|].
    exists es0, (ess ++ [es']). split_and!; [done| |].
    + apply Forall2_app; [done|by constructor].
    + rewrite concat_app. cbn [concat]. by rewrite app_nil_r, <- app_assoc.
  - destruct Hdue as [k ->]. destruct Hr as [-> (es0 & ess & H0 & Hm & Hnd & Hk & _ & ->)].
    split; [done|]. exists es0, (ess ++ [EvKey k :: es']). split_and!; try done.
    + apply Forall2_app; [done|]. constructor; [by exists es'|done].
    + unfold keys. rewrite map_app. apply NoDup_app. split; [done|]. split; [|apply NoDup_singleton].
      intros x Hx Hx'. apply list_elem_of_singleton in Hx' as ->. by apply (Hk k).
    + rewrite concat_app. cbn [concat]. rewrite !app_nil_r. rewrite <- !app_assoc. cbn [app].
      by rewrite <- !app_assoc.
Qed.

Lemma record_awaits s es : record_of s es -> due s = true -> recorded s.1 true es /\ s.2 = None.
Proof.
  destruct s as [[|[p l|p m key] below] [d|]]; intros Hr Hd; try done; try (by destruct Hr).
  destruct Hr as [_ (es0 & ess & H0 & Hm & Hnd & Hk & _ & ->)]. split; [|done].
  exists es0, ess. split_and!; try done. intros _. simpl in Hd. apply andb_true_iff in Hd as [Hd _].
  by apply bool_decide_eq_true in Hd.
Qed.

Lemma due_told s : due s = true ->
  match s with ([], d) => d = None | (TMap _ _ key :: _, _) => is_Some key | _ => True end.
Proof.
  destruct s as [[|[p l|p m key] below] [d|]]; intros H; try done; simpl in H;
    apply andb_true_iff in H as [H _]; by apply bool_decide_eq_true in H.
Qed.

Lemma recorded_below below d es : d = None -> recorded below true es ->
  record_of (below, d) es /\
  match below with [] => d = None | TMap _ _ key :: _ => is_Some key | _ => True end.
Proof.
  intros -> H. destruct below as [|[p l|p m key] below]; [done|done|].
  destruct H as (es0 & ess & H0 & Hm & Hnd & Hk & Ha & ->). split; [|auto].
  split; [done|]. exists es0, ess. by split_and!.
Qed.

Lemma tell_record ev s s' es : tell ev s = Ok s' -> record_of s es -> record_of s' (es ++ [ev]).
Proof.
  intros Ht Hr.
  assert (Hval : forall v, tells v [ev] -> (if due s then Ok (told v s) else Err WrongKind) = Ok s' ->
    record_of s' (es ++ [ev])).
  { intros v Hv H. destruct (due s) eqn:Hd; [|done]. injection H as <-.
    apply record_told; [done|done|]. by apply due_told. }
  destruct ev as [| |b|t|t|t|p| |p|k|]; cbn [tell] in Ht.
  - by apply (Hval VAbsent).
  - by apply (Hval VNull).
  - by apply (Hval (VBool b)).
  - destruct (is_number t) eqn:En; [|done]. by apply (Hval (VNumber t)).
  - by apply (Hval (VString t)).
  - by apply (Hval (VBytes t)).
  - destruct (due s) eqn:Hd; [|done]. injection Ht as <-.
    destruct (record_awaits _ _ Hr Hd) as [Ha E]. split; [done|]. by exists es, [].
  - destruct s as [[|[p l|] below] d]; try done. destruct (kept_all p l) eqn:Ek; [|done].
    injection Ht as <-. apply kept_all_spec in Ek. destruct Hr as [Hd (es0 & ess & H0 & Hl & ->)].
    destruct (recorded_below _ _ _ Hd H0) as [Hb Hb']. rewrite <- app_assoc. apply (record_told (VList l) (below, d)); [done| |].
    + apply tells_list. by exists p, ess.
    + by destruct below as [|[]].
  - destruct (due s) eqn:Hd; [|done]. injection Ht as <-.
    destruct (record_awaits _ _ Hr Hd) as [Ha E]. split; [done|].
    exists es, []. split_and!; try done. constructor.
  - destruct s as [[|[|p m [?|]] below] d]; try done. destruct (contains_key m k) eqn:Ek; [done|].
    injection Ht as <-. destruct Hr as [-> (es0 & ess & H0 & Hm & Hnd & Hk & _ & ->)]. split; [done|].
    exists es0, ess. split_and!; try done.
    + intros k' E. injection E as <-. intros Hin. apply contains_key_spec in Hin. congruence.
    + rewrite app_nil_r, <- app_assoc. done.
  - destruct s as [[|[|p m [?|]] below] d]; try done. destruct (kept_all p m) eqn:Ek; [|done].
    injection Ht as <-. apply kept_all_spec in Ek.
    destruct Hr as [Hd (es0 & ess & H0 & Hm & Hnd & Hk & _ & ->)].
    destruct (recorded_below _ _ _ Hd H0) as [Hb Hb']. rewrite app_nil_r, <- app_assoc.
    apply (record_told (VMap m) (below, d)); [done| |].
    + apply tells_map. by exists p, ess.
    + by destruct below as [|[]].
Qed.

Lemma tell_all_record es' : forall s s' es, tell_all es' s = Ok s' -> record_of s es ->
  record_of s' (es ++ es').
Proof.
  induction es' as [|ev es' IH]; intros s s' es H Hr; simpl in H; [injection H as <-; by rewrite app_nil_r|].
  apply bind_Ok in H as (s1 & E & H). replace (es ++ ev :: es') with ((es ++ [ev]) ++ es')
    by by rewrite <- app_assoc. apply (IH s1); [done|]. by eapply tell_record.
Qed.

(** and nothing else does. *)
Lemma tell_exact v es : tell_all es untold = Ok ([], Some v) <-> tells v es.
Proof.
  split; intros H; [|by rewrite (tells_told v)].
  by apply (tell_all_record es untold _ [] H).
Qed.

(** ** What a tree says *)

(** The events of a walk and what stops it. *)
Definition saying : Type := list Event * option ValueError.
Definition after (a b : saying) : saying :=
  match a with (es, None) => (es ++ b.1, b.2) | (es, Some e) => (es, Some e) end.

Fixpoint said (v : Value) (depth : nat) : saying :=
  match v with
  | VAbsent => ([EvAbsent], None)
  | VNull => ([EvNull], None)
  | VBool b => ([EvBool b], None)
  | VNumber t => if is_number t then ([EvNumber t], None) else ([], Some NotANumber)
  | VString t => if is_utf8 t then ([EvString t], None) else ([], Some NotUtf8)
  | VBytes b => ([EvBytes b], None)
  | VList l =>
      match room depth with
      | Err e => ([], Some e)
      | Ok inside => after ([EvListBegin (Some (len_of l))], None)
          ((fix go (l : list Value) : saying :=
            match l with [] => ([EvListEnd], None) | x :: l => after (said x inside) (go l) end) l)
      end
  | VMap m =>
      if keys_are_text m then
        match room depth with
        | Err e => ([], Some e)
        | Ok inside => after ([EvMapBegin (Some (len_of m))], None)
            ((fix go (m : list (bytes * Value)) : saying :=
              match m with
              | [] => ([EvMapEnd], None)
              | x :: m => after ([EvKey x.1], None) (after (said x.2 inside) (go m))
              end) m)
        end
      else ([], Some NotUtf8)
  | VUnknown n => ([], Some (UnknownTag (8 + Z.of_nat n)))
  end.

#[global] Arguments room : simpl never.
#[global] Arguments said : simpl never.
#[global] Arguments walk_deep : simpl never.

Fixpoint said_items (l : list Value) (inside : nat) : saying :=
  match l with [] => ([EvListEnd], None) | x :: l => after (said x inside) (said_items l inside) end.
Fixpoint said_entries (m : list (bytes * Value)) (inside : nat) : saying :=
  match m with
  | [] => ([EvMapEnd], None)
  | x :: m => after ([EvKey x.1], None) (after (said x.2 inside) (said_entries m inside))
  end.

Lemma said_list l depth : said (VList l) depth =
  match room depth with
  | Err e => ([], Some e)
  | Ok inside => after ([EvListBegin (Some (len_of l))], None) (said_items l inside)
  end.
Proof. unfold said. fold said. destruct (room depth) as [inside|]; [|done]. f_equal. by induction l as [|x l ->]. Qed.
Lemma said_map m depth : said (VMap m) depth =
  if keys_are_text m then
    match room depth with
    | Err e => ([], Some e)
    | Ok inside => after ([EvMapBegin (Some (len_of m))], None) (said_entries m inside)
    end
  else ([], Some NotUtf8).
Proof.
  unfold said. fold said. destruct (keys_are_text m); [|done]. destruct (room depth) as [inside|]; [|done].
  f_equal. by induction m as [|x m ->].
Qed.

Section says.
Context {St : Type} `{Sink St}.

Definition say (a : saying) : Steps St unit :=
  emit a.1;; match a.2 with None => mret () | Some e => refuse e end.

Lemma emit_app a b (s : St) : emit (a ++ b) s = (emit a;; emit b) s.
Proof.
  revert s. induction a as [|ev a IH]; intros s; [done|]. cbn [app emit]. unfold mbind, steps_bind in *.
  destruct (event ev s) as [[[]|f] s1]; [|done]. apply IH.
Qed.

Lemma say_after a b (s : St) : say (after a b) s = (say a;; say b) s.
Proof.
  destruct a as [es [e|]]; unfold say, after; cbn [fst snd]; unfold mbind, steps_bind.
  - by destruct (emit es s) as [[[]|f] s1].
  - rewrite emit_app. unfold mbind, steps_bind. destruct (emit es s) as [[[]|f] s1]; done.
Qed.

Lemma say_event ev (s : St) : say ([ev], None) s = event ev s.
Proof. unfold say, mbind, steps_bind. simpl. unfold mbind, steps_bind. by destruct (event ev s) as [[[]|f] s1]. Qed.

Lemma say_refuse e (s : St) : say ([], Some e) s = refuse e s.
Proof. done. Qed.

Lemma steps_ext {A B} (m m' : Steps St A) (f g : A -> Steps St B) s :
  m s = m' s -> (forall a s, f a s = g a s) -> (m ≫= f) s = (m' ≫= g) s.
Proof. intros E1 E2. unfold mbind, steps_bind. rewrite E1. destruct (m' s) as [[a|x] s1]; [apply E2|done]. Qed.

(** A walk hands its sink what the tree says, and no more. *)
Lemma walk_says v : forall depth s, walk_deep v depth s = say (said v depth) s.
Proof.
  induction v as [| |b|t|t|t|l IH|m IH|n] using value_ind'; intros depth s.
  - symmetry. apply say_event.
  - symmetry. apply say_event.
  - symmetry. apply say_event.
  - unfold walk_deep, said. destruct (is_number t); [symmetry; apply say_event|done].
  - unfold walk_deep, said. destruct (is_utf8 t); [symmetry; apply say_event|done].
  - symmetry. apply say_event.
  - rewrite said_list. unfold walk_deep. fold walk_deep. destruct (room depth) as [inside|e]; [|done].
    rewrite say_after. apply steps_ext; [by rewrite say_event|]. intros _ s1. revert s1.
    induction IH as [|x l Hx _ IHl]; intros s1; cbn [said_items]; [by rewrite say_event|].
    rewrite say_after. apply steps_ext; [apply Hx|]. intros _. apply IHl.
  - rewrite said_map. unfold walk_deep. fold walk_deep. destruct (keys_are_text m); [|done].
    destruct (room depth) as [inside|e]; [|done].
    rewrite say_after. apply steps_ext; [by rewrite say_event|]. intros _ s1. revert s1.
    induction IH as [|x m Hx _ IHm]; intros s1; cbn [said_entries]; [by rewrite say_event|].
    rewrite say_after. apply steps_ext; [by rewrite say_event|]. intros _ s2.
    rewrite say_after. apply steps_ext; [apply Hx|]. intros _. apply IHm.
  - done.
Qed.
End says.

(** Containers within containers. *)
Fixpoint vdepth (v : Value) : nat :=
  match v with
  | VList l => S ((fix go l := match l with [] => 0%nat | x :: l => Nat.max (vdepth x) (go l) end) l)
  | VMap m => S ((fix go m := match m with [] => 0%nat | e :: m => Nat.max (vdepth e.2) (go m) end) m)
  | _ => 0%nat
  end.
Definition deepest (l : list Value) : nat := foldr (λ x n, Nat.max (vdepth x) n) 0%nat l.
#[global] Arguments vdepth : simpl never.
Lemma vdepth_list l : vdepth (VList l) = S (deepest l).
Proof. reflexivity. Qed.
Lemma vdepth_map m : vdepth (VMap m) = S (deepest (map snd m)).
Proof. unfold vdepth. fold vdepth. f_equal. by induction m as [|x m ->]. Qed.

Lemma room_spec depth : room depth = if decide (depth < MAX_DEPTH)%nat then Ok (S depth) else Err TooDeep.
Proof. unfold room. repeat case_decide; done || lia. Qed.

(** Within the depth, the walk of a tree tells it; past it, it is stopped where
    a value was due. *)
Definition tells_within (v : Value) (depth : nat) : Prop :=
  if decide (depth + vdepth v <= MAX_DEPTH)%nat
  then exists es, said v depth = (es, None) /\ tells v es
  else exists es, said v depth = (es, Some TooDeep) /\
    forall s, due s = true -> exists s', tell_all es s = Ok s'.

(** The items of a list, and the entries of a map, from where they are. *)
Lemma said_items_within l inside : (inside <= MAX_DEPTH)%nat -> Forall (λ v, tells_within v inside) l ->
  if decide (inside + deepest l <= MAX_DEPTH)%nat
  then exists ess, said_items l inside = (concat ess ++ [EvListEnd], None) /\ Forall2 tells l ess
  else exists es, said_items l inside = (es, Some TooDeep) /\
    forall p done_ below d, kept p (done_ ++ l) ->
    exists s', tell_all es (TList p done_ :: below, d) = Ok s'.
Proof.
  intros Hin. induction 1 as [|x l Hx _ IH].
  - rewrite decide_True by (simpl; lia). by exists [].
  - cbn [said_items deepest foldr]. fold (deepest l). unfold tells_within in Hx.
    assert (Hdue : forall p done_ below d, kept p (done_ ++ x :: l) -> due (TList p done_ :: below, d) = true).
    { intros p done_ below d Hp. simpl. rewrite (overrun_kept _ _ _ Hp); [done|]. rewrite length_app. simpl. lia. }
    destruct (decide (inside + vdepth x <= MAX_DEPTH)%nat) as [Hd|Hd].
    + destruct Hx as (es & -> & Hes). cbn [after].
      destruct (decide (inside + deepest l <= MAX_DEPTH)%nat) as [Hl|Hl].
      * rewrite decide_True by lia.
        destruct IH as (ess & -> & Hess). exists (es :: ess). split; [|by constructor].
        cbn [fst snd concat]. by rewrite <- app_assoc.
      * rewrite decide_False by lia. destruct IH as (es' & -> & Hes').
        eexists. split; [done|]. intros p done_ below d Hp. cbn [fst].
        rewrite tell_all_app, (tells_told x es _ Hes) by by apply Hdue.
        cbn [mbind result_bind told]. apply Hes'. by rewrite <- app_assoc.
    + rewrite decide_False by lia. destruct Hx as (es & -> & Hes). exists es. split; [done|].
      intros. apply Hes. by apply Hdue.
Qed.

Lemma said_entries_within m inside : (inside <= MAX_DEPTH)%nat -> Forall (λ e, tells_within e.2 inside) m ->
  if decide (inside + deepest (map snd m) <= MAX_DEPTH)%nat
  then exists ess, said_entries m inside = (concat ess ++ [EvMapEnd], None) /\ Forall2 tells_entry m ess
  else exists es, said_entries m inside = (es, Some TooDeep) /\
    forall p done_ below d, kept p (done_ ++ m) -> NoDup (keys (done_ ++ m)) ->
    exists s', tell_all es (TMap p done_ None :: below, d) = Ok s'.
Proof.
  intros Hin. induction 1 as [|[k x] m Hx _ IH].
  - rewrite decide_True by (simpl; lia). by exists [].
  - cbn [said_entries deepest foldr map fst snd]. fold (deepest (map snd m)).
    unfold tells_within in Hx. cbn [snd] in Hx.
    assert (Hk : forall p done_ below d, kept p (done_ ++ (k, x) :: m) -> NoDup (keys (done_ ++ (k, x) :: m)) ->
      tell (EvKey k) (TMap p done_ None :: below, d) = Ok (TMap p done_ (Some k) :: below, d) /\
      due (TMap p done_ (Some k) :: below, d) = true).
    { intros p done_ below d Hp Hnd. split.
      - cbn [tell]. destruct (contains_key done_ k) eqn:E; [|done]. apply contains_key_spec in E.
        unfold keys in *. rewrite map_app in Hnd. apply NoDup_app in Hnd as (_ & H & _).
        exfalso. apply (H k E). by left.
      - simpl. rewrite (overrun_kept _ _ _ Hp); [done|]. rewrite length_app. simpl. lia. }
    destruct (decide (inside + vdepth x <= MAX_DEPTH)%nat) as [Hd|Hd].
    + destruct Hx as (es & -> & Hes). cbn [after fst snd].
      destruct (decide (inside + deepest (map snd m) <= MAX_DEPTH)%nat) as [Hl|Hl].
      * rewrite decide_True by lia.
        destruct IH as (ess & -> & Hess). exists ((EvKey k :: es) :: ess).
        split; [cbn [fst snd concat app]; by rewrite <- app_assoc|]. constructor; [by exists es|done].
      * rewrite decide_False by lia. destruct IH as (es' & -> & Hes').
        eexists. split; [done|]. intros p done_ below d Hp Hnd. cbn [fst app tell_all].
        destruct (Hk p done_ below d Hp Hnd) as [-> Hdue]. cbn [mbind result_bind].
        rewrite tell_all_app, (tells_told x es _ Hes) by done.
        cbn [mbind result_bind told]. apply Hes'; by rewrite <- app_assoc.
    + rewrite decide_False by lia. destruct Hx as (es & -> & Hes). cbn [after fst snd].
      eexists. split; [done|]. intros p done_ below d Hp Hnd. cbn [app tell_all].
      destruct (Hk p done_ below d Hp Hnd) as [-> Hdue]. cbn [mbind result_bind]. by apply Hes.
Qed.

Lemma wf_tells v : value_wf v -> forall depth, (depth <= MAX_DEPTH)%nat -> tells_within v depth.
Proof.
  assert (Hleaf : forall v es depth, vdepth v = 0%nat -> (depth <= MAX_DEPTH)%nat ->
    said v depth = (es, None) -> tells v es -> tells_within v depth).
  { intros w es depth Hw Hd Hs Ht. unfold tells_within. rewrite decide_True by lia. by exists es. }
  induction v as [| |b|t|t|t|l IH|m IH|n] using value_ind'; intros Hv depth Hd.
  - by eapply Hleaf.
  - by eapply Hleaf.
  - by eapply Hleaf.
  - destruct Hv as [Hn _]. apply (Hleaf _ [EvNumber t]); [done|done|unfold said; by rewrite Hn|done].
  - destruct Hv as [Hn _]. apply (Hleaf _ [EvString t]); [done|done|unfold said; by rewrite Hn|done].
  - by eapply Hleaf.
  - apply value_wf_list in Hv as [_ Hl]. unfold tells_within. rewrite said_list, vdepth_list, room_spec.
    destruct (decide (depth < MAX_DEPTH)%nat) as [Hr|Hr]; [|rewrite decide_False by lia; exists []; split; [done|]; by eexists].
    pose proof (said_items_within l (S depth) Hr) as H. supply H.
    { eapply Forall_impl; [exact (proj2 (Forall_and _ l) (conj IH Hl))|]. intros x [Hx1 Hx2]. by apply Hx1. }
    destruct (decide (S depth + deepest l <= MAX_DEPTH)%nat) as [Hdl|Hdl].
    + rewrite decide_True by lia. destruct H as (ess & -> & He). eexists. split; [done|].
      apply tells_list. by exists (Some (len_of l)), ess.
    + rewrite decide_False by lia. destruct H as (es & -> & He). eexists. split; [done|].
      intros s Hs. cbn [fst app tell_all tell]. rewrite Hs. cbn [mbind result_bind]. by apply He.
  - apply value_wf_map in Hv as (_ & Hnd & Hm). unfold tells_within. rewrite said_map, vdepth_map, room_spec.
    rewrite (proj2 (keys_are_text_spec m)) by (eapply Forall_impl; [exact Hm|]; by intros ? []).
    destruct (decide (depth < MAX_DEPTH)%nat) as [Hr|Hr]; [|rewrite decide_False by lia; exists []; split; [done|]; by eexists].
    pose proof (said_entries_within m (S depth) Hr) as H. supply H.
    { eapply Forall_impl; [exact (proj2 (Forall_and _ m) (conj IH Hm))|]. intros x [Hx1 (_ & _ & Hx2)]. by apply Hx1. }
    destruct (decide (S depth + deepest (map snd m) <= MAX_DEPTH)%nat) as [Hdl|Hdl].
    + rewrite decide_True by lia. destruct H as (ess & -> & He). eexists. split; [done|].
      apply tells_map. by exists (Some (len_of m)), ess.
    + rewrite decide_False by lia. destruct H as (es & -> & He). eexists. split; [done|].
      intros s Hs. cbn [fst app tell_all tell]. rewrite Hs. cbn [mbind result_bind]. by apply He.
  - done.
Qed.
