(* ===== verification/Encoder.v ===== *)
(** * Events as bytes

    The writing half of [value/wire/stream.rs]: the sink that writes events as
    wire bytes with no tree built, counts put back where they were not promised,
    and keys told apart by their bytes in what was written. *)

From S2P Require Import Prelude Errors Number Value Keys Maps Encode Decode Visit.

(** [Keys]: a map's keys as ranges of the output. *)
Record OutKeys := MkOutKeys { ranges : list (nat * nat); key_hashes : option KeySet; keyed : bool }.
Definition no_keys : OutKeys := MkOutKeys [] None false.

(** [Open]: a container being written. *)
Record Opened := MkOpened {
  count_at : nat;
  promised : option Z;
  written : Z;
  map_keys : option OutKeys }.

(** [Encoder], the innermost container first. *)
Record Encoder := MkEncoder {
  out : bytes;
  open_ : list Opened;
  finished : bool;
  enc_seeds : option Seeded }.

(** [Encoder::new] and [Encoder::is_complete]. *)
Definition encoder_new (out : bytes) : Encoder := MkEncoder out [] false None.
Definition is_complete (e : Encoder) : bool := finished e && match open_ e with [] => true | _ => false end.

Definition set_out (b : bytes) (e : Encoder) : Encoder := MkEncoder b (open_ e) (finished e) (enc_seeds e).
Definition set_open (os : list Opened) (e : Encoder) : Encoder := MkEncoder (out e) os (finished e) (enc_seeds e).

(** [Vec::push], [Vec::extend_from_slice] and [put_len] on the output. *)
Definition write (b : bytes) : Steps Encoder unit := update (λ e, set_out (out e ++ b) e).
Definition write_len (n : Z) : Steps Encoder unit := update (λ e, set_out (put_len (out e) n) e).

(** [Encoder::value_here]. *)
Definition value_here : Steps Encoder unit := λ e,
  match open_ e with
  | [] => (if finished e then Err (Refuse WrongKind) else Ok (), e)
  | o :: below =>
      if match map_keys o with Some ks => negb (keyed ks) | None => false end
      then (Err (Refuse WrongKind), e)
      else
        let o' := MkOpened (count_at o) (promised o) (written o + 1)
          (option_map (λ ks, MkOutKeys (ranges ks) (key_hashes ks) false) (map_keys o)) in
        (if match promised o with Some n => n <? written o' | None => false end
         then Err (Refuse WrongKind) else Ok (), set_open (o' :: below) e)
  end.

(** [Encoder::value_done]. *)
Definition value_done : Steps Encoder unit := update (λ e,
  match open_ e with [] => MkEncoder (out e) [] true (enc_seeds e) | _ => e end).

(** [Encoder::leaf]. *)
Definition leaf (t : Tag) (body : option bytes) : Steps Encoder unit :=
  value_here;; write [tag_code t];;
  match body with
  | Some b => write_len (len_of b);; write b
  | None => mret ()
  end;;
  value_done.

(** [Encoder::begin]. *)
Definition begin_ (t : Tag) (len : option Z) (map : bool) : Steps Encoder unit :=
  value_here;; write [tag_code t];;
  e ← the_state;
  match len with Some n => write_len n | None => write [0] end;;
  update (λ e', set_open (MkOpened (length (out e)) len 0 (if map then Some no_keys else None) :: open_ e') e').

(** The count put where a byte was reserved for it: the byte itself, or what
    follows it moved. Past the output, an index panics. *)
Definition splice_count (at_ : nat) (count out : bytes) : result (fault ValueError) bytes :=
  if decide (at_ < length out)%nat then
    match count with
    | [one] => Ok (<[at_ := one]> out)
    | _ => Ok (take at_ out ++ count ++ drop (S at_) out)
    end
  else Err Panic.

(** [Encoder::end]. *)
Definition end_ (map : bool) : Steps Encoder unit := λ e,
  match open_ e with
  | [] => (Err (Refuse WrongKind), e)
  | o :: below =>
      if match map_keys o with None => negb map | Some ks => map && negb (keyed ks) end then
        let e := set_open below e in
        match promised o with
        | Some n => if n =? written o then value_done e else (Err (Refuse WrongKind), e)
        | None =>
            match splice_count (count_at o) (put_len [] (written o)) (out e) with
            | Ok b => value_done (set_out b e)
            | Err f => (Err f, e)
            end
        end
      else (Err (Refuse WrongKind), e)
  end.

(** [ranges.iter().any(same)]: whether a key written is [key]; a range past the
    output panics. *)
Fixpoint any_same (out key : bytes) (rs : list (nat * nat)) : result (fault ValueError) bool :=
  match rs with
  | [] => Ok false
  | (at_, len) :: rs =>
      if decide (at_ + len <= length out)%nat then
        if decide (take len (drop at_ out) = key) then Ok true else any_same out key rs
      else Err Panic
  end.

Section encoder.
(** What the standard library's random state gives when seeds are drawn. *)
Variable random : Seeded.

(** Whether a key repeats one of [ks], and the hashes with its own: a hash seen
    before is a repeat only if the key itself is. *)
Definition key_repeated (out key : bytes) (ks : OutKeys) : result (fault ValueError) (bool * option KeySet) :=
  match key_hashes ks with
  | Some hs =>
      let '(fresh, hs) := keyset_insert hs key in
      if fresh then Ok (false, Some hs)
      else same ← any_same out key (ranges ks); Ok (same, Some hs)
  | None => same ← any_same out key (ranges ks); Ok (same, None)
  end.

(** The hashes made once the map counts, or was promised, more than [LINEAR]. *)
Definition key_hashed (out : bytes) (ks : OutKeys) (promise : option Z) (seeds : option Seeded)
    : option KeySet * option Seeded :=
  let held := Z.of_nat (length (ranges ks)) in
  let left_ := match promise with Some n => Z.max 0 (n - held) | None => 0 end in
  match key_hashes ks with
  | Some hs => (Some hs, seeds)
  | None =>
      if Z.of_nat LINEAR <? held + left_ then
        let '(hs, seeds) := keyset_new random seeds in
        (Some (foldl (λ hs r, snd (keyset_insert hs (take r.2 (drop r.1 out)))) hs (ranges ks)), seeds)
      else (None, seeds)
  end.

(** [Sink::key]. *)
Definition enc_key (key : bytes) : Steps Encoder unit := λ e,
  match open_ e with
  | MkOpened at_ promise n (Some ks) :: below =>
      if keyed ks then (Err (Refuse WrongKind), e)
      else
        let put ks := MkOpened at_ promise n (Some ks) :: below in
        match key_repeated (out e) key ks with
        | Err f => (Err f, e)
        | Ok (repeated, hs) =>
            let e := set_open (put (MkOutKeys (ranges ks) hs false)) e in
            if repeated : bool then (Err (Refuse DuplicateKey), e)
            else
              let b := put_len (out e) (len_of key) in
              let ks := MkOutKeys (ranges ks ++ [(length b, length key)]) hs false in
              let '(hs, seeds) := key_hashed (b ++ key) ks promise (enc_seeds e) in
              (Ok (), MkEncoder (b ++ key) (put (MkOutKeys (ranges ks) hs true)) (finished e) seeds)
        end
  | _ => (Err (Refuse WrongKind), e)
  end.

(** [impl Sink for Encoder]. *)
#[export] Instance encoder_sink : Sink Encoder := λ ev,
  match ev with
  | EvAbsent => leaf GUATIAO_ABSENT None
  | EvNull => leaf GUATIAO_NULL None
  | EvBool b => value_here;; write [tag_code GUATIAO_BOOL];;
      write [if b then 1 else 0];; value_done
  | EvNumber t => if is_number t then leaf GUATIAO_NUMBER (Some t) else refuse NotANumber
  | EvString t => leaf GUATIAO_STRING (Some t)
  | EvBytes b => leaf GUATIAO_BYTES (Some b)
  | EvListBegin len => begin_ GUATIAO_LIST len false
  | EvListEnd => end_ false
  | EvMapBegin len => begin_ GUATIAO_MAP len true
  | EvKey k => enc_key k
  | EvMapEnd => end_ true
  end.

(** [encode_of] and [to_bytes_of], of anything that walks into the encoder. *)
Definition encode_walk (walk : Steps Encoder unit) (b : bytes) : result (fault ValueError) bytes :=
  match walk (encoder_new b) with
  | (Ok _, e) => if is_complete e then Ok (out e) else Err (Refuse WrongKind)
  | (Err f, _) => Err f
  end.
Definition encode_of (v : Value) (b : bytes) : result (fault ValueError) bytes := encode_walk (walk v) b.
Definition to_bytes_of (v : Value) : result (fault ValueError) bytes := encode_of v [].
End encoder.

Example encode_of_ex :
  to_bytes_of (MkSeeded 1 2) (VMap [(bs "n", VNumber (bs "1.10")); (bs "l", VList [VNull; VBool true])]) =
    Ok [7; 2; 1; 110; 3; 4; 49; 46; 49; 48; 1; 108; 6; 2; 1; 2; 1].
Proof. reflexivity. Qed.

(** ** What has been written is what has been told *)

Definition promise_bytes (p : option Z) : bytes := match p with Some n => leb n | None => [0] end.
Definition told_bytes (f : Told) : bytes :=
  match f with
  | TList p l => 6 :: promise_bytes p ++ concat (map wire l)
  | TMap p m key => 7 :: promise_bytes p ++ concat (map entry_wire m) ++
      match key with Some k => key_wire k | None => [] end
  end.
Fixpoint telling_bytes (fs : list Told) : bytes :=
  match fs with [] => [] | f :: below => telling_bytes below ++ told_bytes f end.

(** [key] is at [r] of [b]. *)
Definition at_range (b : bytes) (r : nat * nat) (key : bytes) : Prop :=
  r.2 = length key /\ exists p q, b = p ++ key ++ q /\ length p = r.1.

Definition key_list (m : list (bytes * Value)) (key : option bytes) : list bytes :=
  keys m ++ match key with Some k => [k] | None => [] end.

(** A map's keys are those told; below the top, and once its value is begun, no
    key is waiting for one. *)
Definition keys_rel (b : bytes) (awaits : bool) (m : list (bytes * Value)) (key : option bytes) (ks : OutKeys) : Prop :=
  Forall2 (at_range b) (ranges ks) (key_list m key) /\
  keyed ks = negb awaits && bool_decide (is_Some key) /\ (awaits = true -> is_Some key) /\
  match key_hashes ks with Some hs => keyset_of hs (key_list m key) | None => True end.

Definition opened_rel (pre : bytes) (awaits : bool) (o : Opened) (f : Told) : Prop :=
  count_at o = S (length pre) /\
  (match promised o with Some n => 0 <= n < 2 ^ 64 | None => True end) /\
  match f, map_keys o with
  | TList p l, None => promised o = p /\ written o = len_of l + (if awaits then 1 else 0)
  | TMap p m key, Some ks =>
      promised o = p /\ written o = len_of m + (if awaits then 1 else 0) /\
      keys_rel (pre ++ told_bytes f) awaits m key ks
  | _, _ => False
  end.

Fixpoint opens_rel (base : bytes) (awaits : bool) (os : list Opened) (fs : list Told) {struct fs} : Prop :=
  match os, fs with
  | [], [] => True
  | o :: os, f :: fs => opened_rel (base ++ telling_bytes fs) awaits o f /\ opens_rel base true os fs
  | _, _ => False
  end.

(** The encoder where [s] was told it, having appended to [base]. *)
Definition encoding (base : bytes) (s : Telling) (e : Encoder) : Prop :=
  match s with
  | ([], Some v) => finished e = true /\ open_ e = [] /\ out e = base ++ wire v
  | (fs, d) => d = None /\ finished e = false /\ out e = base ++ telling_bytes fs /\
      opens_rel base false (open_ e) fs
  end.

(** What the source's types say of an event's lengths. *)
Definition event_ok (ev : Event) : Prop :=
  match ev with
  | EvNumber t | EvString t | EvBytes t | EvKey t => fits t
  | EvListBegin (Some n) | EvMapBegin (Some n) => 0 <= n < 2 ^ 64
  | _ => True
  end.
Definition held (f : Told) : nat := match f with TList _ l => length l | TMap _ m _ => length m end.
Definition promise_of (f : Told) : option Z := match f with TList p _ | TMap p _ _ => p end.
(** What a container holds is counted in 64 bits, where it has to be. *)
Definition held_ok (f : Told) : Prop := is_Some (promise_of f) \/ Z.of_nat (held f) < 2 ^ 64.

Lemma at_range_app b c r k : at_range b r k -> at_range (b ++ c) r k.
Proof.
  intros [H (p & q & -> & Hp)]. split; [done|]. exists p, (q ++ c). by rewrite <- !app_assoc.
Qed.

Lemma at_range_last b k : at_range (b ++ k) (length b, length k) k.
Proof. split; [done|]. exists b, []. by rewrite app_nil_r. Qed.

Lemma at_range_read b r k : at_range b r k -> (r.1 + r.2 <= length b)%nat /\ take r.2 (drop r.1 b) = k.
Proof.
  intros [H (p & q & -> & Hp)]. rewrite !length_app. split; [lia|].
  by rewrite <- Hp, drop_app_length, H, take_app_length.
Qed.

(** The scan of the ranges is the scan of the keys. *)
Lemma any_same_keys b k rs ks : Forall2 (at_range b) rs ks -> any_same b k rs = Ok (bool_decide (k ∈ ks)).
Proof.
  induction 1 as [|[a n] k' rs ks H _ IH]; [by rewrite bool_decide_eq_false_2 by (by intros ?%elem_of_nil)|].
  apply at_range_read in H as [H1 H2]. cbn [fst snd any_same] in *. rewrite decide_True by done.
  rewrite H2. destruct (decide (k' = k)) as [->|Hne].
  - by rewrite bool_decide_eq_true_2 by by left.
  - rewrite IH. f_equal. apply bool_decide_ext. rewrite elem_of_cons. naive_solver.
Qed.

Lemma key_repeated_spec b awaits m k ks : keys_rel b awaits m None ks ->
  exists hs, key_repeated b k ks = Ok (contains_key m k, hs) /\
    match hs with Some hs => keyset_of hs (keys m ++ [k]) | None => True end.
Proof.
  intros (Hr & _ & _ & Hh). unfold key_list in *. rewrite app_nil_r in *. unfold key_repeated.
  assert (Ec : bool_decide (k ∈ keys m) = contains_key m k).
  { symmetry. destruct (contains_key m k) eqn:E; symmetry.
    - apply bool_decide_eq_true. by apply contains_key_spec.
    - apply bool_decide_eq_false. intros H. apply contains_key_spec in H. congruence. }
  rewrite (any_same_keys _ _ _ _ Hr), Ec. destruct (key_hashes ks) as [hs|]; [|by exists None].
  destruct (keyset_insert_of hs _ k Hh) as [H1 H2]. destruct (keyset_insert hs k) as [fresh hs'].
  cbn [fst snd] in *. exists (Some hs'). split; [|done]. destruct fresh; [|done].
  do 2 f_equal. destruct (contains_key m k) eqn:E; [|done]. apply contains_key_spec in E.
  by discriminate (H2 E).
Qed.

Lemma hash_ranges b rs ks : Forall2 (at_range b) rs ks -> forall hs l, keyset_of hs l ->
  keyset_of (foldl (λ hs r, snd (keyset_insert hs (take r.2 (drop r.1 b)))) hs rs) (l ++ ks).
Proof.
  induction 1 as [|r k rs ks H _ IH]; intros hs l Hl; [by rewrite app_nil_r|].
  simpl. rewrite (proj2 (at_range_read _ _ _ H)). replace (l ++ k :: ks) with ((l ++ [k]) ++ ks)
    by by rewrite <- app_assoc. apply IH. by apply keyset_insert_of.
Qed.

Lemma key_hashed_spec random b ks l promise seeds : Forall2 (at_range b) (ranges ks) l ->
  (match key_hashes ks with Some hs => keyset_of hs l | None => True end) ->
  exists hs seeds', key_hashed random b ks promise seeds = (hs, seeds') /\
    match hs with Some hs => keyset_of hs l | None => True end.
Proof.
  intros Hr Hh. unfold key_hashed. destruct (key_hashes ks) as [hs|]; [by exists (Some hs), seeds|].
  destruct (_ <? _); [|by exists None, seeds]. pose proof (keyset_new_of random seeds) as Hn.
  destruct (keyset_new random seeds) as [hs s]. eexists _, s. split; [done|].
  by apply (hash_ranges b _ _ Hr hs []).
Qed.

(** Where a value is due, and has been counted. *)
Definition waiting (base : bytes) (fs : list Told) (e : Encoder) : Prop :=
  finished e = false /\ opens_rel base true (open_ e) fs.

Lemma value_here_spec base s e : encoding base s e ->
  exists e', value_here e = (if due s then Ok () else Err (Refuse WrongKind), e') /\
    (due s = true -> s.2 = None /\ out e' = base ++ telling_bytes s.1 /\ waiting base s.1 e').
Proof.
  destruct s as [[|f below] d]; intros He.
  - unfold value_here. destruct d as [v|].
    + destruct He as (Hf & Ho & _). rewrite Ho, Hf. by eexists.
    + destruct He as (_ & Hf & Hout & Ho). destruct (open_ e) as [|] eqn:E; [|done]. rewrite Hf.
      exists e. split; [done|]. intros _. unfold waiting. by rewrite E.
  - destruct He as (-> & Hf & Hout & Ho). unfold value_here.
    destruct (open_ e) as [|o os]; [done|]. destruct Ho as [(Hat & Hp & Hrel) Hos].
    destruct f as [p l|p m key]; destruct (map_keys o) as [ks|] eqn:Ek; try done.
    + destruct Hrel as [<- Hw]. cbn [option_map written due]. rewrite Hw. unfold overrun.
      eexists. split.
      { f_equal. destruct (promised o) as [n|]; [|done]. replace (len_of l + 0 + 1) with (Z.of_nat (S (length l)))
          by (unfold len_of; lia). by destruct (_ <? _). }
      intros _. split; [done|]. split; [done|]. split; [done|]. split; [|done].
      split; [done|]. split; [done|]. cbn [map_keys]. split; [done|]. simpl. lia.
    + destruct Hrel as (<- & Hw & Hr & Hk & _ & Hh). rewrite Hk. cbn [negb andb due].
      destruct key as [k|].
      2: { rewrite (bool_decide_eq_false_2 (is_Some None)) by by intros []. eexists. by split. }
      rewrite (bool_decide_eq_true_2 (is_Some (Some k))) by done. cbn [negb andb option_map written].
      rewrite Hw. unfold overrun. eexists. split.
      { f_equal. destruct (promised o) as [n|]; [|done]. replace (len_of m + 0 + 1) with (Z.of_nat (S (length m)))
          by (unfold len_of; lia). by destruct (_ <? _). }
      intros _. split; [done|]. split; [done|]. split; [done|]. split; [|done].
      split; [done|]. split; [done|]. cbn [map_keys promised written count_at ranges keyed key_hashes].
      split; [done|]. split; [lia|]. by split_and!.
Qed.

Lemma told_bytes_list p l v : told_bytes (TList p (l ++ [v])) = told_bytes (TList p l) ++ wire v.
Proof. simpl. rewrite map_app, concat_app. simpl. by rewrite app_nil_r, <- app_assoc. Qed.
Lemma told_bytes_map p m k v : told_bytes (TMap p (m ++ [(k, v)]) None) = told_bytes (TMap p m (Some k)) ++ wire v.
Proof.
  simpl. rewrite map_app, concat_app. simpl. unfold entry_wire at 2. simpl.
  by rewrite !app_nil_r, <- !app_assoc.
Qed.

Lemma keys_rel_grow b c awaits m key ks : keys_rel b awaits m key ks -> keys_rel (b ++ c) awaits m key ks.
Proof.
  intros (H1 & H2). split; [|done]. eapply Forall2_impl; [exact H1|]. intros. by apply at_range_app.
Qed.

Lemma value_done_spec base fs e v : waiting base fs e -> out e = base ++ telling_bytes fs ++ wire v ->
  exists e', value_done e = (Ok (), e') /\ encoding base (told v (fs, None)) e'.
Proof.
  intros [Hf Ho] Hout. unfold value_done, update. eexists. split; [done|].
  destruct fs as [|f below], (open_ e) as [|o os] eqn:Eo; try done.
  destruct Ho as [(Hat & Hp & Hrel) Hos].
  destruct f as [p l|p m key]; destruct (map_keys o) as [ks|] eqn:Ek; try done.
  - destruct Hrel as [Hpr Hw]. cbn [told]. split; [done|]. split; [done|].
    cbn [telling_bytes] in *. split; [by rewrite Hout, told_bytes_list, <- app_assoc|]. rewrite Eo.
    split; [|done]. split; [done|]. split; [done|]. rewrite Ek. split; [done|].
    rewrite Hw. unfold len_of. rewrite length_app. simpl. lia.
  - destruct Hrel as (Hpr & Hw & Hks). pose proof Hks as (Hr & Hkd & Ha & Hh).
    destruct (Ha eq_refl) as [k ->]. cbn [told]. split; [done|]. split; [done|].
    cbn [telling_bytes] in *. split; [by rewrite Hout, told_bytes_map, <- app_assoc|]. rewrite Eo.
    split; [|done]. split; [done|]. split; [done|]. rewrite Ek. split; [done|].
    split; [rewrite Hw; unfold len_of; rewrite length_app; simpl; lia|].
    rewrite told_bytes_map, app_assoc. apply keys_rel_grow.
    assert (El : key_list (m ++ [(k, v)]) None = key_list m (Some k)).
    { unfold key_list, keys. rewrite map_app. by rewrite app_nil_r. }
    unfold keys_rel. rewrite El. by split_and!.
Qed.

(** The bytes of a leaf. *)
Lemma written_leaf base s e b e1 v : encoding base s e -> due s = true ->
  value_here e = (Ok (), e1) -> wire v = b -> s.2 = None /\ 
  exists e', value_done (set_out (out e1 ++ b) e1) = (Ok (), e') /\ encoding base (told v s) e'.
Proof.
  intros He Hd Hv Hw. destruct (value_here_spec _ _ _ He) as (e1' & E & H). rewrite Hd in E.
  rewrite Hv in E. injection E as <-. destruct (H Hd) as (H2 & Hout & Hwait). split; [done|].
  destruct s as [fs d]. cbn [fst snd] in *. subst d. apply (value_done_spec base fs); [done|].
  simpl. by rewrite Hout, Hw, <- app_assoc.
Qed.

Lemma value_here_refuses base s e : encoding base s e -> due s = false ->
  exists e', value_here e = (Err (Refuse WrongKind), e').
Proof. intros He Hd. destruct (value_here_spec _ _ _ He) as (e' & E & _). rewrite Hd in E. eauto. Qed.

Lemma value_here_takes base s e : encoding base s e -> due s = true ->
  exists e', value_here e = (Ok (), e') /\ out e' = base ++ telling_bytes s.1 /\ waiting base s.1 e' /\ s.2 = None.
Proof.
  intros He Hd. destruct (value_here_spec _ _ _ He) as (e' & E & H). rewrite Hd in E. destruct (H Hd) as (H1 & H2 & H3). by exists e'.
Qed.

(** What an event comes to, and what is then told. *)
Definition comes_to (base : bytes) (r : result ValueError Telling) (x : result (fault ValueError) unit * Encoder) : Prop :=
  match r with
  | Ok s => exists e, x = (Ok (), e) /\ encoding base s e
  | Err f => exists e, x = (Err (Refuse f), e)
  end.

Lemma leaf_spec base s e t body v : encoding base s e ->
  (match body with Some b => fits b | None => True end) ->
  wire v = tag_code t :: match body with Some b => key_wire b | None => [] end ->
  comes_to base (if due s then Ok (told v s) else Err WrongKind) (leaf t body e).
Proof.
  intros He Hb Hw. unfold leaf. destruct (due s) eqn:Hd.
  - destruct (value_here_takes _ _ _ He Hd) as (e1 & E & _). rewrite (steps_Ok _ _ _ _ _ E).
    destruct (written_leaf _ _ _ _ _ v He Hd E Hw) as [_ (e' & E' & He')]. exists e'. split; [|done].
    rewrite <- E'. destruct body as [b|]; [|done].
    unfold mbind, steps_bind, write, write_len, update. cbn [out set_out open_ finished enc_seeds].
    rewrite put_len_fits by done. unfold set_out, key_wire. cbn [out open_ finished enc_seeds].
    by rewrite <- !app_assoc.
  - destruct (value_here_refuses _ _ _ He Hd) as (e1 & E). rewrite (steps_Err _ _ _ _ _ E). by exists e1.
Qed.

Lemma begin_spec base s e t len (map : bool) f : encoding base s e ->
  (match len with Some n => 0 <= n < 2 ^ 64 | None => True end) ->
  f = (if map then TMap len [] None else TList len []) -> tag_code t = (if map then 7 else 6) ->
  comes_to base (if due s then Ok (f :: s.1, s.2) else Err WrongKind) (begin_ t len map e).
Proof.
  intros He Hl -> Ht. unfold begin_. destruct (due s) eqn:Hd.
  - destruct (value_here_takes _ _ _ He Hd) as (e1 & E & Hout & [Hf Ho] & Hs).
    rewrite (steps_Ok _ _ _ _ _ E). destruct s as [fs d]. cbn [fst snd] in *. subst d.
    set (b := out e1 ++ [tag_code t] ++ promise_bytes len). set (at_ := length (out e1 ++ [tag_code t])).
    exists (MkEncoder b (MkOpened at_ len 0 (if map then Some no_keys else None) :: open_ e1)
      (finished e1) (enc_seeds e1)). split.
    { unfold b, at_, mbind, steps_bind, the_state, update, write, write_len, mret, steps_ret. simpl.
      destruct len as [n|]; unfold set_open, set_out; simpl; [rewrite put_len_leb by done|];
        by rewrite <- app_assoc. }
    assert (Hb : b = base ++ telling_bytes fs ++ told_bytes (if map then TMap len [] None else TList len [])).
    { unfold b. rewrite Hout, Ht, <- app_assoc. destruct map; simpl; by rewrite ?app_nil_r. }
    split; [done|]. split; [done|]. split; [exact Hb|]. split; [|exact Ho].
    split; [unfold at_; rewrite Hout, length_app; simpl; lia|]. split; [done|].
    destruct map; cbn [map_keys promised written]; [|done]. split; [done|]. split; [done|].
    by split_and!.
  - destruct (value_here_refuses _ _ _ He Hd) as (e1 & E). rewrite (steps_Err _ _ _ _ _ E). by exists e1.
Qed.

Lemma key_spec random base s e k : encoding base s e -> fits k ->
  comes_to base (tell (EvKey k) s) (enc_key random k e).
Proof.
  intros He Hk. unfold enc_key. destruct s as [[|f below] d].
  { destruct d as [v|]; cbn [tell comes_to].
    - destruct He as (_ & -> & _). by eexists.
    - destruct He as (_ & _ & _ & Ho). destruct (open_ e); [by eexists|done]. }
  destruct He as (-> & Hf & Hout & Ho). destruct (open_ e) as [|[at_ pr n mk] os] eqn:Eo; [done|].
  destruct Ho as [(Hat & Hp & Hrel) Hos]. cbn [count_at promised written map_keys] in *.
  destruct f as [p l|p m key]; destruct mk as [ks|]; try done.
  { cbn [tell comes_to]. by eexists. }
  destruct Hrel as (<- & Hw & Hks). pose proof Hks as (Hr & Hkd & _). rewrite Hkd.
  destruct key as [k0|].
  { rewrite bool_decide_eq_true_2 by done. cbn [negb andb tell comes_to]. by eexists. }
  rewrite (bool_decide_eq_false_2 (is_Some None)) by by intros []. cbn [negb andb tell].
  cbn [telling_bytes] in Hout. rewrite app_assoc in Hout. rewrite <- Hout in Hks, Hr.
  destruct (key_repeated_spec _ _ _ k _ Hks) as (hs & -> & Hhs).
  destruct (contains_key m k) eqn:Ec; [by eexists|].
  assert (Hb : put_len (out (set_open (MkOpened at_ pr n (Some (MkOutKeys (ranges ks) hs false)) :: os) e)) (len_of k) ++ k =
    out e ++ key_wire k).
  { unfold key_wire. rewrite put_len_fits, <- app_assoc by done. done. }
  set (b := put_len _ _) in *.
  assert (Hr' : Forall2 (at_range (b ++ k)) (ranges ks ++ [(length b, length k)]) (key_list m (Some k))).
  { unfold key_list in *. rewrite app_nil_r in Hr. apply Forall2_app.
    - rewrite Hb. eapply Forall2_impl; [exact Hr|]. intros. by apply at_range_app.
    - constructor; [apply at_range_last|done]. }
  destruct (key_hashed_spec random (b ++ k) (MkOutKeys (ranges ks ++ [(length b, length k)]) hs false)
    (key_list m (Some k)) pr (enc_seeds e) Hr') as (hs' & seeds' & E & Hhs'); [by destruct hs|].
  cbn [enc_seeds set_open]. rewrite E. eexists. split; [done|].
  assert (Eb : (base ++ telling_bytes below) ++ told_bytes (TMap pr m (Some k)) = b ++ k).
  { rewrite Hb, Hout, <- (app_assoc (base ++ _)). f_equal. cbn [told_bytes]. rewrite app_nil_r.
    cbn [app]. by rewrite <- app_assoc. }
  split; [done|]. split; [done|]. cbn [telling_bytes open_ out].
  split; [by rewrite app_assoc, Eb|]. split; [|done]. split; [done|]. split; [done|].
  cbn [map_keys promised written]. split; [done|]. split; [done|]. rewrite Eb. by split_and!.
Qed.

Lemma leb_not_nil n : 0 <= n < 2 ^ 64 -> leb n <> [].
Proof. intros Hn. pose proof (leb_pos n Hn). destruct (leb n); [simpl in *; lia|done]. Qed.

(** The count put over the byte reserved for it. *)
Lemma splice_count_spec pre t c tl : c <> [] ->
  splice_count (length (pre ++ [t])) c (pre ++ t :: 0 :: tl) = Ok (pre ++ t :: c ++ tl).
Proof.
  intros Hc. unfold splice_count. rewrite decide_True by (rewrite !length_app; simpl; lia).
  assert (E : pre ++ t :: 0 :: tl = (pre ++ [t]) ++ 0 :: tl) by by rewrite <- app_assoc.
  assert (Ew : take (length (pre ++ [t])) (pre ++ t :: 0 :: tl) ++ c ++
    drop (S (length (pre ++ [t]))) (pre ++ t :: 0 :: tl) = pre ++ t :: c ++ tl).
  { rewrite E, take_app_length. replace (S (length (pre ++ [t]))) with (length (pre ++ [t]) + 1)%nat by lia.
    rewrite drop_app_add. by rewrite <- app_assoc. }
  destruct c as [|one [|two c]]; [done| |by rewrite Ew].
  f_equal. rewrite E, insert_app_r_alt, Nat.sub_diag by done. by rewrite <- app_assoc.
Qed.

(** A container with its count is its value's bytes. *)
Lemma counted base fs e b t p n tl v : waiting base fs e ->
  out e = base ++ telling_bytes fs ++ t :: promise_bytes p ++ tl -> 0 <= n < 2 ^ 64 ->
  wire v = t :: leb n ++ tl ->
  (match p with Some m => m = n /\ b = out e | None =>
     splice_count (S (length (base ++ telling_bytes fs))) (put_len [] n) (out e) = Ok b end) ->
  exists e', value_done (set_out b e) = (Ok (), e') /\ encoding base (told v (fs, None)) e'.
Proof.
  intros Hw Hout Hn Hv Hb. apply (value_done_spec base fs); [exact Hw|]. cbn [out set_out]. rewrite Hv.
  destruct p as [m|]; cbn [promise_bytes] in *.
  - destruct Hb as [<- ->]. done.
  - replace (S (length (base ++ telling_bytes fs))) with (length ((base ++ telling_bytes fs) ++ [t])) in Hb
      by (rewrite length_app; simpl; lia).
    rewrite Hout, app_assoc in Hb. cbn [app] in Hb. fold (leb n) in Hb. rewrite splice_count_spec in Hb.
    + injection Hb as <-. by rewrite <- app_assoc.
    + by apply leb_not_nil.
Qed.

Lemma splice_count_takes base fs t tl n : 0 <= n < 2 ^ 64 -> exists b,
  splice_count (S (length (base ++ telling_bytes fs))) (put_len [] n)
    (base ++ telling_bytes fs ++ t :: promise_bytes None ++ tl) = Ok b.
Proof.
  intros Hn. replace (S (length (base ++ telling_bytes fs))) with (length ((base ++ telling_bytes fs) ++ [t]))
    by (rewrite length_app; simpl; lia).
  rewrite app_assoc. cbn [promise_bytes app]. fold (leb n). rewrite splice_count_spec; [by eexists|].
  by apply leb_not_nil.
Qed.

Lemma closing base below e o os t p n tl v : open_ e = o :: os -> finished e = false ->
  opens_rel base true os below -> count_at o = S (length (base ++ telling_bytes below)) ->
  promised o = p -> written o = n -> (match p with Some m => 0 <= m < 2 ^ 64 | None => 0 <= n < 2 ^ 64 end) -> wire v = t :: leb n ++ tl ->
  out e = base ++ telling_bytes below ++ t :: promise_bytes p ++ tl ->
  comes_to base (if match p with Some m => m =? n | None => true end then Ok (told v (below, None)) else Err WrongKind)
    (match p with
     | Some m => if m =? n then value_done (set_open os e) else (Err (Refuse WrongKind), set_open os e)
     | None => match splice_count (count_at o) (put_len [] n) (out (set_open os e)) with
               | Ok b => value_done (set_out b (set_open os e))
               | Err f => (Err f, set_open os e)
               end
     end).
Proof.
  intros Eo Hf Hos Hat Hp Hn Hrange Hv Hout.
  assert (Hw : waiting base below (set_open os e)) by done.
  destruct p as [m|].
  - destruct (Z.eqb_spec m n) as [->|]; [|by eexists].
    destruct (counted base below (set_open os e) (out e) t (Some n) n tl v Hw Hout Hrange Hv) as (e' & E & He'); [done|].
    exists e'. by split.
  - rewrite Hat. cbn [out set_open]. destruct (splice_count_takes base below t tl n Hrange) as [b Eb].
    rewrite <- Hout in Eb. rewrite Eb.
    destruct (counted base below (set_open os e) b t None n tl v Hw Hout Hrange Hv Eb) as (e' & E & He').
    exists e'. by split.
Qed.

Lemma end_spec base s e (map : bool) : encoding base s e -> Forall held_ok s.1 ->
  comes_to base (tell (if map then EvMapEnd else EvListEnd) s) (end_ map e).
Proof.
  intros He Hh. unfold end_. destruct s as [[|f below] d].
  { destruct d as [v|]; destruct map; cbn [tell comes_to].
    1, 2: destruct He as (_ & -> & _); by eexists.
    all: destruct He as (_ & _ & _ & Ho); destruct (open_ e); [by eexists|done]. }
  destruct He as (-> & Hf & Hout & Ho). destruct (open_ e) as [|o os] eqn:Eo; [done|].
  destruct Ho as [(Hat & Hp & Hrel) Hos]. apply Forall_cons_iff in Hh as [Hh _].
  cbn [telling_bytes] in Hout.
  assert (Hrange : forall n, promise_of f = promised o -> n = Z.of_nat (held f) ->
    match promised o with Some m => 0 <= m < 2 ^ 64 | None => 0 <= n < 2 ^ 64 end).
  { intros n E ->. unfold held_ok in Hh. rewrite E in Hh. destruct (promised o); [done|].
    destruct Hh as [[? Hh]|Hh]; [done|lia]. }
  destruct f as [p l|p m key]; destruct (map_keys o) as [ks|] eqn:Ek; try done; cbn [held promise_of] in *.
  - destruct Hrel as [Hpr Hn]. destruct map; cbn [negb tell]; [by eexists|]. rewrite Hpr, Hn, Z.add_0_r.
    specialize (Hrange (len_of l) (eq_sym Hpr) eq_refl). rewrite Hpr in Hrange.
    pose proof (closing base below e o os 6 p (len_of l) (concat (List.map wire l)) (VList l) Eo Hf Hos Hat Hpr
      ltac:(lia) Hrange (wire_list l) Hout) as H. by destruct p.
  - destruct Hrel as (Hpr & Hn & _ & Hkd & _). rewrite Hkd.
    destruct key as [k|]; [rewrite bool_decide_eq_true_2 by done|
      rewrite (bool_decide_eq_false_2 (is_Some None)) by by intros []]; destruct map; cbn [negb andb tell];
      try by eexists.
    rewrite Hpr, Hn, Z.add_0_r. cbn [told_bytes] in Hout. rewrite app_nil_r in Hout.
    specialize (Hrange (len_of m) (eq_sym Hpr) eq_refl). rewrite Hpr in Hrange.
    pose proof (closing base below e o os 7 p (len_of m) (concat (List.map entry_wire m)) (VMap m) Eo Hf Hos Hat Hpr
      ltac:(lia) Hrange (wire_map m) Hout) as H. by destruct p.
Qed.

(** One event. *)
Lemma event_encodes random ev base s e : event_ok ev -> encoding base s e -> Forall held_ok s.1 ->
  comes_to base (tell ev s) (encoder_sink random ev e).
Proof.
  intros Hev He Hh. destruct ev as [| |b|t|t|t|p| |p|k|]; cbn [tell encoder_sink].
  - by apply leaf_spec.
  - by apply leaf_spec.
  - destruct (due s) eqn:Hd.
    + destruct (value_here_takes _ _ _ He Hd) as (e1 & E & _). rewrite (steps_Ok _ _ _ _ _ E).
      destruct (written_leaf _ _ _ _ _ (VBool b) He Hd E eq_refl) as [_ (e' & E' & He')].
      exists e'. split; [|done]. rewrite <- E'. unfold mbind, steps_bind, write, update, set_out. simpl.
      by rewrite <- app_assoc.
    + destruct (value_here_refuses _ _ _ He Hd) as (e1 & E). rewrite (steps_Err _ _ _ _ _ E). by exists e1.
  - destruct (is_number t); [|by eexists]. by apply leaf_spec.
  - by apply leaf_spec.
  - by apply leaf_spec.
  - by apply begin_spec.
  - by apply (end_spec base s e false).
  - by apply begin_spec.
  - by apply key_spec.
  - by apply (end_spec base s e true).
Qed.

(** What every event keeps of the containers open. *)
Lemma tell_open (P Q : Told -> Prop) ev s s' : tell ev s = Ok s' -> Forall P s.1 ->
  (forall f, P f -> Q f) -> (forall f f', P f -> promise_of f' = promise_of f -> (held f' <= S (held f))%nat -> Q f') ->
  (match ev with EvListBegin p => Q (TList p []) | EvMapBegin p => Q (TMap p [] None) | _ => True end) ->
  Forall Q s'.1.
Proof.
  intros H Hs Hm Hg Hb.
  assert (Hw : forall fs, Forall P fs -> Forall Q fs) by (intros fs Hf; eapply Forall_impl; [exact Hf|exact Hm]).
  assert (Ht : forall v s, Forall P s.1 -> Forall Q (told v s).1).
  { intros v [[|[p l|p m [k|]] below] d] Hf; cbn [told fst] in *; auto;
      apply Forall_cons_iff in Hf as [H1 H2]; (constructor; [|auto]); eapply Hg; try done; simpl;
      rewrite length_app; simpl; lia. }
  assert (Hv : forall v, (if due s then Ok (told v s) else Err WrongKind) = Ok s' ->
    Forall Q s'.1) by (intros v E; destruct (due s); [injection E as <-; auto|done]).
  destruct ev as [| |b|t|t|t|p| |p|k|]; cbn [tell] in H; eauto.
  - destruct (is_number t); [eauto|done].
  - destruct (due s); [|done]. injection H as <-. constructor; auto.
  - destruct s as [[|[p l|] below] d]; try done. destruct (kept_all p l); [|done]. injection H as <-.
    apply (Ht (VList l) (below, d)). by apply Forall_cons_iff in Hs as [_ Hs].
  - destruct (due s); [|done]. injection H as <-. constructor; auto.
  - destruct s as [[|[|p m [?|]] below] d]; try done. destruct (contains_key m k); [done|]. injection H as <-.
    apply Forall_cons_iff in Hs as [H1 Hs]. constructor; [|auto]. eapply Hg; [exact H1|done|simpl; lia].
  - destruct s as [[|[|p m [?|]] below] d]; try done. destruct (kept_all p m); [|done]. injection H as <-.
    apply (Ht (VMap m) (below, d)). by apply Forall_cons_iff in Hs as [_ Hs].
Qed.

(** Events whose containers can be counted: fewer of them than a 64-bit count
    holds, or every length promised. *)
Definition has_promise (ev : Event) : Prop := match ev with EvListBegin None | EvMapBegin None => False | _ => True end.
Definition countable (es : list Event) (fs : list Told) : Prop :=
  (exists n, Forall (λ f, (held f <= n)%nat) fs /\ Z.of_nat (n + length es) < 2 ^ 64) \/
  (Forall (λ f, is_Some (promise_of f)) fs /\ Forall has_promise es).

Lemma countable_held es fs : countable es fs -> Forall held_ok fs.
Proof.
  intros [(n & H & Hn)|[H _]]; (eapply Forall_impl; [exact H|]); intros f Hf; [right; simpl in Hf; lia|by left].
Qed.

Lemma countable_tell ev es s s' : tell ev s = Ok s' -> countable (ev :: es) s.1 -> countable es s'.1.
Proof.
  intros Ht [(n & H & Hn)|[H Hp]].
  - left. exists (S n). split; [|simpl in Hn; lia]. apply (tell_open _ _ ev s s' Ht H); simpl; intros; try lia.
    destruct ev; simpl; lia || done.
  - right. apply Forall_cons_iff in Hp as [Hev Hp]. split; [|done].
    apply (tell_open _ _ ev s s' Ht H); [done|by intros f f' ? ->|].
    destruct ev as [| | | | | |[]| |[]| |]; done.
Qed.

Lemma emit_encodes random es base : forall s e, Forall event_ok es -> encoding base s e -> countable es s.1 ->
  comes_to base (tell_all es s) (@emit _ (encoder_sink random) es e).
Proof.
  induction es as [|ev es IH]; intros s e Hes He Hc; [by exists e|].
  apply Forall_cons_iff in Hes as [Hev Hes]. cbn [emit tell_all].
  pose proof (event_encodes random ev base s e Hev He (countable_held _ _ Hc)) as H.
  destruct (tell ev s) as [s'|f] eqn:Et; cbn [mbind result_bind].
  - destruct H as (e1 & E & H). unfold event. rewrite (steps_Ok _ _ _ _ _ E).
    apply IH; [done|done|]. by eapply countable_tell.
  - destruct H as (e1 & E). unfold event. rewrite (steps_Err _ _ _ _ _ E). by exists e1.
Qed.

Lemma encoding_new base : encoding base untold (encoder_new base).
Proof. split_and!; try done. simpl. by rewrite app_nil_r. Qed.

Lemma encoding_complete base s e : encoding base s e ->
  is_complete e = match s with ([], Some _) => true | _ => false end.
Proof.
  unfold is_complete. destruct s as [[|f fs] [v|]]; intros He.
  - destruct He as (-> & -> & _). done.
  - destruct He as (_ & -> & _). done.
  - by destruct He.
  - destruct He as (_ & -> & _). done.
Qed.

(** ** A tree's walk, written *)

Lemma after_events (P : Event -> Prop) a b : Forall P a.1 -> Forall P b.1 -> Forall P (after a b).1.
Proof. destruct a as [es [e|]]; intros Ha Hb; [done|]. simpl. by apply Forall_app. Qed.

Lemma said_events v : value_wf v -> forall depth, Forall (λ ev, event_ok ev /\ has_promise ev) (said v depth).1.
Proof.
  induction v as [| |b|t|t|t|l IH|m IH|n] using value_ind'; intros Hv depth; try by repeat constructor.
  - destruct Hv as [Hn Hf]. unfold said. rewrite Hn. by repeat constructor.
  - destruct Hv as [Hn Hf]. unfold said. rewrite Hn. by repeat constructor.
  - destruct Hv as [Hn Hf]. unfold said. by repeat constructor.
  - apply value_wf_list in Hv as [Hf Hl]. rewrite said_list. destruct (room depth) as [inside|]; [|constructor].
    apply after_events; [constructor; [|done]; split; [by apply fits_len|done]|].
    clear Hf. induction IH as [|x l Hx _ IHl]; cbn [said_items]; [by repeat constructor|].
    apply Forall_cons_iff in Hl as [H1 H2]. apply after_events; auto.
  - apply value_wf_map in Hv as (Hf & _ & Hm). rewrite said_map. destruct (keys_are_text m); [|constructor].
    destruct (room depth) as [inside|]; [|constructor].
    apply after_events; [constructor; [|done]; split; [by apply fits_len|done]|].
    clear Hf. induction IH as [|x m Hx _ IHm]; cbn [said_entries]; [by repeat constructor|].
    apply Forall_cons_iff in Hm as [(_ & Hk & H1) H2].
    apply after_events; [by repeat constructor|]. apply after_events; auto.
Qed.

Lemma encode_of_spec random v b : value_wf v ->
  encode_of random v b =
    if decide (vdepth v <= MAX_DEPTH)%nat then Ok (b ++ wire v) else Err (Refuse TooDeep).
Proof.
  intros Hv. unfold encode_of, encode_walk, walk. rewrite walk_says.
  pose proof (said_events v Hv 0) as Hev. apply Forall_and in Hev as [Hok Hp].
  pose proof (wf_tells v Hv 0 ltac:(lia)) as Ht. unfold tells_within in Ht. rewrite Nat.add_0_l in Ht.
  pose proof (λ es, emit_encodes random es b untold (encoder_new b)) as H.
  destruct (decide (vdepth v <= MAX_DEPTH)%nat) as [Hd|Hd]; destruct Ht as (es & E & Ht);
    rewrite E in *; cbn [fst] in *; specialize (H es Hok (encoding_new b));
    (supply H; [right; by split|]); unfold say, mbind, steps_bind; cbn [fst snd].
  - apply tell_exact in Ht. rewrite Ht in H. destruct H as (e & -> & He). cbn [mret steps_ret].
    rewrite (encoding_complete _ _ _ He). by destruct He as (_ & _ & ->).
  - destruct (Ht untold eq_refl) as [s' Hs]. rewrite Hs in H. by destruct H as (e & -> & _).
Qed.

(** ** Whatever the events

    A refusal may leave the encoder with an event half done. *)

Definition range_in (b : bytes) (r : nat * nat) : Prop := (r.1 + r.2 <= length b)%nat.
Definition opened_in (base b : bytes) (o : Opened) : Prop :=
  (length base <= count_at o < length b)%nat /\
  match map_keys o with Some ks => Forall (range_in b) (ranges ks) | None => True end.
Definition intact (base : bytes) (e : Encoder) : Prop :=
  base `prefix_of` out e /\ Forall (opened_in base (out e)) (open_ e).

(** A step that leaves the encoder so, refused or not, and does not panic. *)
Definition keeps {A} (base : bytes) (m : Steps Encoder A) : Prop :=
  forall e, intact base e -> intact base (m e).2 /\ (m e).1 <> Err Panic.

Lemma keeps_bind {A B} base (m : Steps Encoder A) (f : A -> Steps Encoder B) :
  keeps base m -> (forall a, keeps base (f a)) -> keeps base (m ≫= f).
Proof.
  intros Hm Hf e He. destruct (Hm e He) as [H1 H2]. unfold mbind, steps_bind.
  destruct (m e) as [[a|x] e']; [by apply Hf|]. by destruct x.
Qed.
Lemma keeps_ret {A} base (a : A) : keeps base (mret a).
Proof. by intros e. Qed.
Lemma keeps_refuse {A} base x : keeps (A := A) base (refuse x).
Proof. by intros e. Qed.
Lemma keeps_state base : keeps base the_state.
Proof. by intros e. Qed.

Lemma opened_in_grow base b b' o : (length b <= length b')%nat -> opened_in base b o -> opened_in base b' o.
Proof.
  intros Hl [H1 H2]. split; [lia|]. destruct (map_keys o); [|done].
  eapply Forall_impl; [exact H2|]. unfold range_in. simpl. lia.
Qed.
Lemma opened_all_grow base b b' os : (length b <= length b')%nat -> Forall (opened_in base b) os ->
  Forall (opened_in base b') os.
Proof. intros Hl H. eapply Forall_impl; [exact H|]. intros o. by apply opened_in_grow. Qed.

Lemma put_len_more fuel : forall out n, exists tl, put_len_loop (S fuel) out n = out ++ tl /\ tl <> [].
Proof.
  induction fuel as [|fuel IH]; intros b n.
  - cbn [put_len_loop]. destruct (_ =? 0); by eexists.
  - change (put_len_loop (S (S fuel)) b n) with (let byte := Z.land n 0x7f in let n := Z.shiftr n 7 in
      if n =? 0 then b ++ [byte] else put_len_loop (S fuel) (b ++ [Z.lor byte 0x80]) n).
    cbv zeta. destruct (_ =? 0); [by eexists|]. destruct (IH (b ++ [Z.lor (Z.land n 127) 128]) (Z.shiftr n 7)) as (tl & -> & _).
    eexists. rewrite <- app_assoc. by split.
Qed.
Lemma put_len_tail b n : exists tl, put_len b n = b ++ tl /\ tl <> [].
Proof. apply put_len_more. Qed.

Lemma intact_app base e tl os : intact base e -> Forall (opened_in base (out e ++ tl)) os ->
  forall f s, intact base (MkEncoder (out e ++ tl) os f s).
Proof. intros [Hp _] Ho f s. split; [by apply prefix_app_r|done]. Qed.

Lemma keeps_write base b : keeps base (write b).
Proof.
  intros e He. split; [|done]. apply intact_app; [done|]. eapply opened_all_grow; [|apply He].
  rewrite length_app. lia.
Qed.
Lemma keeps_write_len base n : keeps base (write_len n).
Proof.
  intros e He. split; [|done]. unfold write_len, update, set_out. cbn [snd].
  destruct (put_len_tail (out e) n) as (tl & -> & _). apply intact_app; [done|].
  eapply opened_all_grow; [|apply He]. rewrite length_app. lia.
Qed.

Lemma keeps_here base : keeps base value_here.
Proof.
  intros e He. unfold value_here. destruct (open_ e) as [|o os] eqn:Eo; [by destruct (finished e)|].
  destruct (match map_keys o with Some ks => negb (keyed ks) | None => false end); [done|].
  split; [|cbn [fst]; by destruct (match promised o with Some n => _ | None => false end)].
  destruct He as [Hp Ho]. split; [done|]. rewrite Eo in Ho. apply Forall_cons_iff in Ho as [[H1 H2] Ho].
  constructor; [|done]. split; [done|]. cbn [map_keys]. by destruct (map_keys o).
Qed.

Lemma keeps_done base : keeps base value_done.
Proof.
  intros e [Hp Ho]. split; [|done]. unfold value_done, update. cbn [snd].
  destruct (open_ e) eqn:Eo; split; try done. by rewrite Eo.
Qed.

Lemma keeps_leaf base t body : keeps base (leaf t body).
Proof.
  apply keeps_bind; [apply keeps_here|intros _]. apply keeps_bind; [apply keeps_write|intros _].
  apply keeps_bind; [|intros _; apply keeps_done].
  destruct body; [|apply keeps_ret]. apply keeps_bind; [apply keeps_write_len|intros _; apply keeps_write].
Qed.

Lemma keeps_begin base t len map : keeps base (begin_ t len map).
Proof.
  apply keeps_bind; [apply keeps_here|intros _]. apply keeps_bind; [apply keeps_write|intros _].
  intros e He. unfold mbind, steps_bind, the_state.
  assert (H : exists tl, tl <> [] /\ (match len with Some n => write_len n | None => write [0] end) e =
    (Ok (), set_out (out e ++ tl) e)).
  { destruct len as [n|]; [|by exists [0]]. destruct (put_len_tail (out e) n) as (tl & E & Ht).
    exists tl. split; [done|]. unfold write_len, update. by rewrite E. }
  destruct H as (tl & Ht & ->). split; [|done]. unfold update, set_open. cbn [snd out set_out open_ finished enc_seeds].
  apply intact_app; [done|]. constructor.
  - split; [|destruct map; cbn [map_keys]; [constructor|done]]. cbn [count_at]. rewrite length_app.
    destruct He as [[p Hp] _]. rewrite Hp, length_app. destruct tl; [done|]. simpl. lia.
  - eapply opened_all_grow; [|apply He]. rewrite length_app. lia.
Qed.

Lemma splice_count_keeps base b c at_ : base `prefix_of` b -> (length base <= at_ < length b)%nat -> c <> [] ->
  exists b', splice_count at_ c b = Ok b' /\ base `prefix_of` b' /\ (length b <= length b')%nat.
Proof.
  intros [p ->] Hat Hc. unfold splice_count. rewrite decide_True by lia.
  assert (H : base `prefix_of` take at_ (base ++ p)) by (rewrite take_app_ge by lia; by apply prefix_app_r).
  assert (Hl : forall c', c' <> [] -> (length (base ++ p) <= length (take at_ (base ++ p) ++ c' ++ drop (S at_) (base ++ p)))%nat).
  { intros c' Hc'. rewrite !length_app, length_take, length_drop, length_app in *. destruct c'; [done|]. simpl. lia. }
  destruct c as [|one [|two c]]; [done| |].
  - eexists. split; [done|]. rewrite length_insert. split; [|done].
    rewrite insert_take_drop by lia. by apply prefix_app_r.
  - eexists. split; [done|]. split; [by apply prefix_app_r|by apply Hl].
Qed.

Lemma keeps_end base map : keeps base (end_ map).
Proof.
  intros e He. unfold end_. destruct (open_ e) as [|o os] eqn:Eo; [done|].
  destruct (match map_keys o with None => _ | Some _ => _ end); [|done].
  destruct He as [Hp Ho]. rewrite Eo in Ho. apply Forall_cons_iff in Ho as [[H1 H2] Ho].
  assert (Hb : intact base (set_open os e)) by done.
  destruct (promised o) as [n|].
  - destruct (n =? written o); [by apply keeps_done|done].
  - destruct (put_len_tail [] (written o)) as (tl & E & Ht). rewrite E. cbn [app out set_open].
    destruct (splice_count_keeps base (out e) tl (count_at o) Hp H1 Ht) as (b & -> & Hb1 & Hb2).
    apply keeps_done. split; [done|]. by eapply opened_all_grow.
Qed.

Lemma any_same_in b k rs : Forall (range_in b) rs -> exists r, any_same b k rs = Ok r.
Proof.
  induction 1 as [|[a n] rs H _ IH]; [by eexists|]. cbn [any_same]. unfold range_in in H. simpl in H.
  rewrite decide_True by done. case_decide; [by eexists|done].
Qed.

Lemma keeps_key random base k : keeps base (enc_key random k).
Proof.
  intros e He. unfold enc_key. destruct (open_ e) as [|[at_ pr n [ks|]] os] eqn:Eo; [done| |done].
  destruct (keyed ks); [done|]. destruct He as [Hp Ho]. rewrite Eo in Ho.
  apply Forall_cons_iff in Ho as [[H1 H2] Ho]. cbn [count_at map_keys] in *.
  assert (Hr : exists rep hs, key_repeated (out e) k ks = Ok (rep, hs)).
  { unfold key_repeated. destruct (any_same_in (out e) k (ranges ks) H2) as [r ->].
    destruct (key_hashes ks) as [hs|]; [|by eexists _, _].
    destruct (keyset_insert hs k) as [[] hs']; by eexists _, _. }
  destruct Hr as (rep & hs & ->).
  destruct rep; [by split; [split; [done|constructor]|]|]. cbn [out set_open enc_seeds].
  destruct (put_len_tail (out e) (len_of k)) as (tl & -> & _).
  destruct (key_hashed _ _ _ _ _) as [hs' seeds']. split; [|done]. cbn [snd].
  rewrite <- app_assoc. apply intact_app; [by split; [|rewrite Eo; constructor]|].
  assert (Hl : (length (out e) <= length (out e ++ tl ++ k))%nat) by (rewrite length_app; lia).
  constructor; [|by eapply opened_all_grow]. split; [cbn [count_at]; lia|]. cbn [map_keys ranges].
  apply Forall_app. split; [eapply Forall_impl; [exact H2|]; unfold range_in; simpl; lia|].
  apply Forall_singleton. unfold range_in. cbn [fst snd]. rewrite !length_app. lia.
Qed.

Lemma keeps_event random base ev : keeps base (encoder_sink random ev).
Proof.
  destruct ev; cbn [encoder_sink]; auto using keeps_leaf, keeps_begin, keeps_end, keeps_key.
  - apply keeps_bind; [apply keeps_here|intros _]. apply keeps_bind; [apply keeps_write|intros _].
    apply keeps_bind; [apply keeps_write|intros _; apply keeps_done].
  - destruct (is_number t); [apply keeps_leaf|apply keeps_refuse].
Qed.

(** What any calls leave, the refused ones among them. *)
Inductive reached (random : Seeded) (base : bytes) : Encoder -> Prop :=
  | reached_new : reached random base (encoder_new base)
  | reached_event ev e : reached random base e -> reached random base (encoder_sink random ev e).2.

Lemma reached_intact random base e : reached random base e -> intact base e.
Proof.
  induction 1 as [|ev e _ IH]; [by split; [exists []; simpl; rewrite app_nil_r|constructor]|].
  by apply keeps_event.
Qed.

(** ** Properties *)

(** C8: the encoder accepts exactly the events that tell one whole tree, with
    every promised count kept, a key before each value of a map and none twice,
    and numbers in the grammar; and what it has then appended is that tree's
    encoding, byte for byte, with its counts in their shortest form although
    they come first and need not have been known. *)
Theorem encoder_accepts_trees (random : Seeded) (base b : bytes) (es : list Event)
    (Hes : Forall event_ok es) (Hn : Z.of_nat (length es) < 2 ^ 64) :
  (exists e, @emit _ (encoder_sink random) es (encoder_new base) = (Ok (), e) /\
     is_complete e = true /\ out e = b) <->
  (exists v, tells v es /\ b = base ++ wire v).
Proof.
  pose proof (emit_encodes random es base untold (encoder_new base) Hes (encoding_new base)) as H.
  supply H; [left; exists 0%nat; split; [constructor|done]|]. split.
  - intros (e & E & Hc & <-). rewrite E in H. destruct (tell_all es untold) as [s|f] eqn:Et.
    + destruct H as (e' & Ee & He). injection Ee as <-. rewrite (encoding_complete _ _ _ He) in Hc.
      destruct s as [[|? ?] [v|]]; try done. exists v. split; [by apply tell_exact|]. by destruct He as (_ & _ & ->).
    + by destruct H as (e' & Ee).
  - intros (v & Hv & ->). apply tell_exact in Hv. rewrite Hv in H. destruct H as (e & E & He).
    exists e. split; [done|]. rewrite (encoding_complete _ _ _ He). by destruct He as (_ & _ & ->).
Qed.

Lemma encoder_accepts_trees_witness :
  let es := EvListBegin None :: concat (replicate 130 [EvNull]) ++ [EvListEnd] in
  exists e, @emit _ (encoder_sink (MkSeeded 1 2)) es (encoder_new [9]) = (Ok (), e) /\
    is_complete e = true /\ out e = [9] ++ 6 :: 130 :: 1 :: replicate 130 1.
Proof.
  cbv zeta. apply (encoder_accepts_trees (MkSeeded 1 2) [9]
    ([9] ++ 6 :: 130 :: 1 :: replicate 130 1) (EvListBegin None :: concat (replicate 130 [EvNull]) ++ [EvListEnd])).
  - constructor; [done|]. apply Forall_app. split; [|by repeat constructor].
    apply Forall_concat. by repeat constructor.
  - vm_compute. reflexivity.
  - exists (VList (replicate 130 VNull)). split.
    + apply tells_list. exists None, (replicate 130 [EvNull]). split; [exact I|]. split; [reflexivity|].
      apply Forall2_replicate. reflexivity.
    + vm_compute. reflexivity.
Defined.

(** Encoding a tree by walking it is encoding the tree, up to the depth a
    walk follows, and past it is refused as too deep. *)
Theorem encode_of_is_encode (random : Seeded) (v : Value) (b : bytes) (Hv : value_wf v) :
  encode_of random v b =
    if decide (vdepth v <= MAX_DEPTH)%nat then map_err Refuse (encode v b) else Err (Refuse TooDeep).
Proof.
  rewrite encode_of_spec by done. case_decide; [|done].
  rewrite encode_enc by by apply wf_lengths_fit. unfold enc. by rewrite wf_not_refused.
Qed.

Lemma encode_of_is_encode_witness :
  encode_of (MkSeeded 1 2) (VList [VNull]) [] = Ok [6; 1; 1] /\
  encode_of (MkSeeded 1 2) (Nat.iter 129 (λ v, VList [v]) VNull) [] = Err (Refuse TooDeep).
Proof.
  split.
  - rewrite (encode_of_is_encode (MkSeeded 1 2) (VList [VNull]) []); [vm_compute; reflexivity|].
    apply value_wf_list. split; [vm_compute; discriminate|]. by repeat constructor.
  - rewrite (encode_of_is_encode (MkSeeded 1 2) (Nat.iter 129 (λ v, VList [v]) VNull) []); [vm_compute; reflexivity|].
    generalize 129%nat. induction n as [|n IH]; [exact I|]. apply value_wf_list.
    split; [vm_compute; discriminate|]. by constructor.
Defined.

(** Whatever the calls made of an encoder, in any order and also after one
    was refused, it never panics and what the buffer held before is left as it
    was. *)
Theorem encoder_never_panics (random : Seeded) (base : bytes) (e : Encoder) (ev : Event)
    (He : reached random base e) :
  base `prefix_of` out e /\ (encoder_sink random ev e).1 <> Err Panic.
Proof.
  pose proof (reached_intact random base e He) as H. split; [apply H|]. by apply (keeps_event random base ev e).
Qed.

Lemma encoder_never_panics_witness :
  let e := (encoder_sink (MkSeeded 1 2) (EvKey (bs "k")) (encoder_new [9])).2 in
  [9] `prefix_of` out e /\ (encoder_sink (MkSeeded 1 2) EvListEnd e).1 <> Err Panic.
Proof.
  cbv zeta. apply (encoder_never_panics (MkSeeded 1 2) [9] _ EvListEnd).
  apply reached_event, reached_new.
Defined.
