(* ===== verification/TreeSink.v ===== *)
(** * Events as a tree

    [TreeSink] of [value/visit/tree.rs]: the sink that builds a value from
    events over a stack of its own, with a map's keys hashed where it is wide.
    Its allocator does not refuse; the room it reserves is not modelled. *)

From S2P Require Import Prelude Errors Number Value Keys Maps Encode Decode Visit Encoder.

(** [Open]: a container being built, and for a map the key its next value goes
    under. *)
Inductive Growing : Type :=
  | GList (list : list Value)
  | GMap (map : Filling) (key : bytes) (key_given : bool).

(** [TreeSink], the innermost container first. *)
Record TreeSink := MkTreeSink { growing : list Growing; built : option Value; tree_seeds : option Seeded }.

(** [TreeSink::new] and [TreeSink::into_value]. *)
Definition tree_new : TreeSink := MkTreeSink [] None None.
Definition into_value_ (t : TreeSink) : result ValueError Value :=
  match growing t, built t with [], Some v => Ok v | _, _ => Err WrongKind end.

(** [TreeSink::ready]. *)
Definition ready : Steps TreeSink unit := λ t,
  (match growing t with
   | [] => match built t with Some _ => Err (Refuse WrongKind) | None => Ok () end
   | GMap _ _ false :: _ => Err (Refuse WrongKind)
   | _ => Ok ()
   end, t).

Section tree_sink.
(** What the standard library's random state gives when seeds are drawn. *)
Variable random : Seeded.

(** [TreeSink::place]. *)
Definition place (v : Value) : Steps TreeSink unit := λ t,
  match growing t with
  | [] => match built t with
      | Some _ => (Err (Refuse WrongKind), t)
      | None => (Ok (), MkTreeSink [] (Some v) (tree_seeds t))
      end
  | GList l :: below => (Ok (), MkTreeSink (GList (l ++ [v]) :: below) (built t) (tree_seeds t))
  | GMap map key key_given :: below =>
      if key_given then
        let '(map, seeds) := filling_set random map (tree_seeds t) key v in
        (Ok (), MkTreeSink (GMap map key false :: below) (built t) seeds)
      else (Err (Refuse WrongKind), t)
  end.

Definition grow (g : Growing) : Steps TreeSink unit :=
  update (λ t, MkTreeSink (g :: growing t) (built t) (tree_seeds t)).

(** [impl Sink for TreeSink]. *)
#[export] Instance tree_sink : Sink TreeSink := λ ev,
  match ev with
  | EvAbsent => ready;; place VAbsent
  | EvNull => ready;; place VNull
  | EvBool b => ready;; place (VBool b)
  | EvNumber t => ready;; (if is_number t then place (VNumber t) else refuse NotANumber)
  | EvString t => ready;; place (VString t)
  | EvBytes b => ready;; place (VBytes b)
  | EvListBegin _ => ready;; grow (GList [])
  | EvMapBegin len =>
      ready;; grow (GMap (with_room [] (Z.to_nat (match len with Some n => n | None => 0 end))) [] false)
  | EvKey k => λ t,
      match growing t with
      | GMap map _ false :: below => (Ok (), MkTreeSink (GMap map k true :: below) (built t) (tree_seeds t))
      | _ => (Err (Refuse WrongKind), t)
      end
  | EvListEnd => λ t,
      match growing t with
      | GList l :: below => place (VList l) (MkTreeSink below (built t) (tree_seeds t))
      | _ => (Err (Refuse WrongKind), t)
      end
  | EvMapEnd => λ t,
      match growing t with
      | GMap map _ false :: below => place (VMap (f_map map)) (MkTreeSink below (built t) (tree_seeds t))
      | _ => (Err (Refuse WrongKind), t)
      end
  end.

(** The value a walk builds. *)
Definition build_walk (walk : Steps TreeSink unit) : result (fault ValueError) Value :=
  match walk tree_new with
  | (Ok _, t) => map_err Refuse (into_value_ t)
  | (Err f, _) => Err f
  end.
End tree_sink.

(** ** What is built is what is told *)

Definition growing_rel (g : Growing) (f : Told) : Prop :=
  match g, f with
  | GList l, TList _ l' => l = l'
  | GMap map k given, TMap _ m key =>
      f_map map = m /\ filling_ok map /\
      match key with Some k' => given = true /\ k = k' /\ k ∉ keys m | None => given = false end
  | _, _ => False
  end.
Definition building (s : Telling) (t : TreeSink) : Prop :=
  built t = s.2 /\ Forall2 growing_rel (growing t) s.1 /\ (s.1 <> [] -> s.2 = None).

Lemma ready_due s t : building s t -> due s = true -> ready t = (Ok (), t).
Proof.
  intros (Hb & Hg & Hn) Hd. destruct s as [fs d], t as [gs b sd]. cbn [fst snd built growing] in *. subst b.
  unfold ready. cbn [growing built]. destruct Hg as [|g f gs fs Hg _]; [by destruct d|].
  destruct g as [l|mp k []], f as [p l'|p m key]; try done. simpl in Hd.
  destruct Hg as (_ & _ & Hk). destruct key as [k'|]; [by destruct Hk|].
  by rewrite bool_decide_eq_false_2 in Hd by by intros [].
Qed.

(** A value where one is due, or a container just closed over one that awaits
    it. *)
Lemma place_told random v fs t : building (fs, None) t ->
  match fs with TMap _ _ None :: _ => False | _ => True end ->
  exists t', place random v t = (Ok (), t') /\ building (told v (fs, None)) t'.
Proof.
  intros (Hb & Hg & _) Hd. destruct t as [gs b sd]. cbn [fst snd built growing] in *. subst b.
  unfold place. cbn [growing built tree_seeds].
  destruct Hg as [|g f gs fs Hg Hgs]; [eexists; split; [done|]; by split_and!|].
  destruct g as [l|mp k given], f as [p l'|p m [k'|]]; try done.
  - simpl in Hg. subst l'. eexists. split; [done|]. split_and!; try done. by constructor.
  - destruct Hg as (Hm & Hok & -> & -> & Hk).
    destruct (filling_set_ok random mp sd k' v Hok) as [E1 E2].
    destruct (filling_set random mp sd k' v) as [mp' sd']. cbn [fst] in *.
    eexists. split; [done|]. split_and!; try done. constructor; [|done]. split_and!; try done.
    rewrite E1, Hm. unfold set_. by rewrite (proj2 (position_None m k') Hk).
Qed.

(** Below the top, a map awaits a value. *)
Fixpoint all_await (fs : list Told) : Prop :=
  match fs with
  | [] => True
  | f :: fs => match f with TMap _ _ None => False | _ => True end /\ all_await fs
  end.
Definition below_await (s : Telling) : Prop := match s.1 with [] => True | _ :: fs => all_await fs end.

Lemma due_await s : due s = true -> below_await s -> all_await s.1.
Proof.
  destruct s as [[|[p l|p m [k|]] fs] d]; intros Hd Hb; done.
Qed.

Lemma all_await_head fs : all_await fs -> match fs with TMap _ _ None :: _ => False | _ => True end.
Proof. destruct fs as [|[|? ? []] ?]; simpl; tauto. Qed.

Lemma told_await v fs : all_await fs -> below_await (told v (fs, None)).
Proof. destruct fs as [|[p l|p m [k|]] fs]; simpl; tauto. Qed.

Lemma event_builds random ev s s' t : tell ev s = Ok s' -> building s t -> below_await s ->
  (exists t', tree_sink random ev t = (Ok (), t') /\ building s' t') /\ below_await s'.
Proof.
  intros Ht Hb Ha.
  assert (Hval : forall v, (if due s then Ok (told v s) else Err WrongKind) = Ok s' ->
    (exists t', (ready;; place random v) t = (Ok (), t') /\ building s' t') /\ below_await s').
  { intros v E. destruct (due s) eqn:Hd; [|done]. injection E as <-.
    rewrite (steps_Ok _ _ _ _ _ (ready_due _ _ Hb Hd)).
    pose proof (due_await _ Hd Ha) as Haw. destruct s as [fs d].
    assert (d = None) as ->.
    { destruct fs; [by destruct d|]. by apply (proj2 (proj2 Hb)). }
    split; [|by apply told_await]. apply place_told; [done|]. by apply all_await_head. }
  assert (Hbegin : forall g f, (if due s then Ok (f :: s.1, s.2) else Err WrongKind) = Ok s' -> growing_rel g f ->
    (exists t', (ready;; grow g) t = (Ok (), t') /\ building s' t') /\ below_await s').
  { intros g f E Hg. destruct (due s) eqn:Hd; [|done]. injection E as <-.
    rewrite (steps_Ok _ _ _ _ _ (ready_due _ _ Hb Hd)). split; [|by apply due_await].
    eexists. split; [done|]. destruct Hb as (E & Hgs & Hn). split_and!; [done|by constructor|].
    intros _. cbn [snd]. destruct s as [[|] [d|]]; try done. by discriminate (Hn ltac:(done)). }
  destruct ev as [| |b|x|x|x|p| |p|k|]; cbn [tell tree_sink] in *; auto.
  - destruct (is_number x); auto. done.
  - by apply (Hbegin _ _ Ht).
  - destruct s as [[|[p l|] fs] d]; try done. destruct (kept_all p l); [|done]. injection Ht as <-.
    destruct Hb as (E & Hgs & Hn). cbn [fst snd] in *. rewrite (Hn ltac:(done)) in *.
    destruct t as [gs b sd]. cbn [growing built tree_seeds] in *. inversion Hgs as [|g f gs' ? Hg Hgs']; subst.
    destruct g as [l'|]; [|done]. simpl in Hg. subst l'. split; [|by apply (told_await (VList l))].
    apply (place_told random (VList l) fs); [by split_and!|]. by apply all_await_head.
  - apply (Hbegin _ _ Ht). by split_and!.
  - destruct s as [[|[|p m [?|]] fs] d]; try done. destruct (contains_key m k) eqn:Ek; [done|]. injection Ht as <-.
    destruct Hb as (E & Hgs & Hn). cbn [fst snd] in *. rewrite (Hn ltac:(done)) in *.
    destruct t as [gs b sd]. cbn [growing built tree_seeds] in *. inversion Hgs as [|g f gs' ? Hg Hgs']; subst.
    destruct g as [|mp k0 given]; [done|]. destruct Hg as (Hm & Hok & ->). split; [|done]. eexists. split; [done|].
    split_and!; try done. constructor; [|done]. split_and!; try done. intros Hin.
    apply contains_key_spec in Hin. congruence.
  - destruct s as [[|[|p m [?|]] fs] d]; try done. destruct (kept_all p m) eqn:Ek; [|done]. injection Ht as <-.
    destruct Hb as (E & Hgs & Hn). cbn [fst snd] in *. rewrite (Hn ltac:(done)) in *.
    destruct t as [gs b sd]. cbn [growing built tree_seeds] in *. inversion Hgs as [|g f gs' ? Hg Hgs']; subst.
    destruct g as [|mp k0 given]; [done|]. destruct Hg as (Hm & Hok & ->). rewrite Hm.
    split; [|by apply (told_await (VMap m))].
    apply (place_told random (VMap m) fs); [by split_and!|]. by apply all_await_head.
Qed.

Lemma emit_builds random es : forall s s' t, tell_all es s = Ok s' -> building s t -> below_await s ->
  exists t', @emit _ (tree_sink random) es t = (Ok (), t') /\ building s' t'.
Proof.
  induction es as [|ev es IH]; intros s s' t H Hb Ha; simpl in H; [injection H as <-; by exists t|].
  apply bind_Ok in H as (s1 & E & H). destruct (event_builds random ev s s1 t E Hb Ha) as [(t1 & E1 & Hb1) Ha1].
  cbn [emit]. unfold event. rewrite (steps_Ok _ _ _ _ _ E1). by apply (IH s1 s').
Qed.

Lemma tells_built random v es : tells v es ->
  exists t, @emit _ (tree_sink random) es tree_new = (Ok (), t) /\ into_value_ t = Ok v.
Proof.
  intros Ht. apply tell_exact in Ht.
  destruct (emit_builds random es untold _ tree_new Ht) as (t & E & Hb & Hg & _); [by split_and!|done|].
  exists t. split; [done|]. unfold into_value_. cbn [fst snd] in *. inversion Hg. by rewrite Hb.
Qed.

(** ** Properties *)

(** The two sinks agree: events the encoder accepts are a tree to the tree
    builder, and what the encoder wrote is that tree's encoding, whatever each
    hashes its keys under; so writing events is building their tree and encoding
    it. *)
Theorem sinks_agree (random random' : Seeded) (base : bytes) (es : list Event) (e : Encoder)
    (Hes : Forall event_ok es) (Hn : Z.of_nat (length es) < 2 ^ 64)
    (He : @emit _ (encoder_sink random) es (encoder_new base) = (Ok (), e))
    (Hc : is_complete e = true) :
  exists v, build_walk (@emit _ (tree_sink random') es) = Ok v /\ out e = base ++ wire v.
Proof.
  pose proof (emit_encodes random es base untold (encoder_new base) Hes (encoding_new base)) as H.
  supply H; [left; exists 0%nat; split; [constructor|done]|]. rewrite He in H.
  destruct (tell_all es untold) as [s|f] eqn:Et; [|by destruct H as (e' & Ee)].
  destruct H as (e' & Ee & Hr). injection Ee as <-. rewrite (encoding_complete _ _ _ Hr) in Hc.
  destruct s as [[|? ?] [v|]]; try done. exists v. split; [|by destruct Hr as (_ & _ & ->)].
  apply tell_exact in Et. destruct (tells_built random' v es Et) as (t & E & Hv).
  unfold build_walk. by rewrite E, Hv.
Qed.

Lemma sinks_agree_witness :
  let es := [EvMapBegin None; EvKey (bs "a"); EvListBegin (Some 1); EvNull; EvListEnd; EvMapEnd] in
  exists v, build_walk (@emit _ (tree_sink (MkSeeded 3 4)) es) = Ok v /\
    [7; 1; 1; 97; 6; 1; 1] = [] ++ wire v.
Proof.
  cbv zeta. apply (sinks_agree (MkSeeded 1 2) (MkSeeded 3 4) []
    [EvMapBegin None; EvKey (bs "a"); EvListBegin (Some 1); EvNull; EvListEnd; EvMapEnd]
    (MkEncoder [7; 1; 1; 97; 6; 1; 1] [] true None)).
  - repeat (constructor; [first [exact I | by (vm_compute; discriminate) | split; [vm_compute; discriminate|reflexivity]]|]).
    constructor.
  - vm_compute. reflexivity.
  - vm_compute. reflexivity.
  - reflexivity.
Defined.

(** A tree walked into the tree builder is that tree again, up to the depth
    a walk follows; past it the walk is refused, and nothing is built. *)
Theorem walk_builds_the_tree (random : Seeded) (v : Value) (Hv : value_wf v) :
  build_walk (@walk _ (tree_sink random) v) =
    if decide (vdepth v <= MAX_DEPTH)%nat then Ok v else Err (Refuse TooDeep).
Proof.
  unfold build_walk, walk. rewrite walk_says. pose proof (wf_tells v Hv 0 ltac:(lia)) as Ht.
  unfold tells_within in Ht. rewrite Nat.add_0_l in Ht.
  destruct (decide (vdepth v <= MAX_DEPTH)%nat) as [Hd|Hd]; destruct Ht as (es & -> & Ht);
    unfold say, mbind, steps_bind; cbn [fst snd].
  - destruct (tells_built random v es Ht) as (t & -> & E). cbn. by rewrite E.
  - destruct (Ht untold eq_refl) as [s' Hs].
    destruct (emit_builds random es untold _ tree_new Hs) as (t & -> & _); [by split_and!|done|done].
Qed.

Lemma walk_builds_the_tree_witness :
  build_walk (@walk _ (tree_sink (MkSeeded 1 2)) (VMap [(bs "k", VList [VNull])])) =
    Ok (VMap [(bs "k", VList [VNull])]).
Proof.
  rewrite (walk_builds_the_tree (MkSeeded 1 2) (VMap [(bs "k", VList [VNull])])); [vm_compute; reflexivity|].
  apply value_wf_map. split; [vm_compute; discriminate|]. split; [apply NoDup_singleton|].
  apply Forall_singleton. split; [reflexivity|]. split; [vm_compute; discriminate|].
  apply value_wf_list. split; [vm_compute; discriminate|]. by repeat constructor.
Defined.
