(* ===== verification/Decoder.v ===== *)
(** * Bytes as events

    The reading half of [value/wire/stream.rs]: the keys of the maps open while
    reading, the decoder a builder pulls values from, which passes over what the
    builder leaves, and bytes that walk themselves into a sink. *)

From S2P Require Import Prelude Errors Number Value Keys Maps Encode Decode Visit Encoder.

(** ** The keys of open maps *)

(** [OpenKeys]: every open map's keys, the innermost's last, and the hashes of
    those that count more than [LINEAR], the innermost first. *)
Record OpenKeys := MkOpenKeys {
  key_list_ : list bytes;
  key_sets : list (nat * KeySet);
  key_seeds : option Seeded }.
Definition open_keys : OpenKeys := MkOpenKeys [] [] None.

(** [OpenKeys::len]. *)
Definition keys_len (ks : OpenKeys) : nat := length (key_list_ ks).

Section open_keys.
(** What the standard library's random state gives when seeds are drawn. *)
Variable random : Seeded.

(** [OpenKeys::insert]: [key] added to the map whose keys start at [start] and
    which holds [left_] more entries after it, unless that map has it. A slice
    from past the end panics. *)
Definition keys_insert (ks : OpenKeys) (start : nat) (key : bytes) (left_ : Z)
    : result (fault WireError) (bool * OpenKeys) :=
  if decide (start <= keys_len ks)%nat then
    let same := bool_decide (key ∈ drop start (key_list_ ks)) in
    let '(hashed, repeated, sets) :=
      match key_sets ks with
      | (s, set) :: sets =>
          if decide (s = start) then
            let '(fresh, set) := keyset_insert set key in
            (true, negb fresh && same, (s, set) :: sets)
          else (false, same, key_sets ks)
      | [] => (false, same, [])
      end in
    if repeated : bool then Ok (false, MkOpenKeys (key_list_ ks) sets (key_seeds ks))
    else
      let l := key_list_ ks ++ [key] in
      let held := Z.of_nat (length l - start) in
      if negb hashed && (Z.of_nat LINEAR <? held + left_) then
        let '(set, seeds) := keyset_new random (key_seeds ks) in
        let set := foldl (λ set k, snd (keyset_insert set k)) set (drop start l) in
        Ok (true, MkOpenKeys l ((start, set) :: sets) seeds)
      else Ok (true, MkOpenKeys l sets (key_seeds ks))
  else Err Panic.

(** [OpenKeys::truncate]: the sets of the maps from [start] on popped, up to
    the first that started before. *)
Fixpoint pop_sets (start : nat) (sets : list (nat * KeySet)) : list (nat * KeySet) :=
  match sets with
  | [] => []
  | (s, set) :: rest => if decide (start <= s)%nat then pop_sets start rest else sets
  end.
Definition keys_truncate (start : nat) (ks : OpenKeys) : OpenKeys :=
  MkOpenKeys (take start (key_list_ ks)) (pop_sets start (key_sets ks)) (key_seeds ks).

(** ** The decoder *)

(** [Token]. *)
Inductive WireToken : Type :=
  | TkAbsent
  | TkNull
  | TkBool (b : bool)
  | TkNumber (t : bytes)
  | TkString (t : bytes)
  | TkBytes (b : bytes)
  | TkList (count : Z)
  | TkMap (count : Z).

(** [Reader::token]. *)
Definition read_token (r : WireReader) : result (fault WireError) (WireToken * WireReader) :=
  let start := offset r in
  '(tag, r) ← byte_ r;
  match tag_try_from tag with
  | Ok GUATIAO_ABSENT => Ok (TkAbsent, r)
  | Ok GUATIAO_NULL => Ok (TkNull, r)
  | Ok GUATIAO_BOOL =>
      let start := offset r in
      '(b, r) ← byte_ r;
      if b =? 0 then Ok (TkBool false, r)
      else if b =? 1 then Ok (TkBool true, r)
      else Err (Refuse (NotABool start b))
  | Ok GUATIAO_NUMBER =>
      let body := offset r in
      '(t, r) ← read_text r;
      if is_number t then Ok (TkNumber t, r) else Err (Refuse (BadNumber body))
  | Ok GUATIAO_STRING => '(t, r) ← read_text r; Ok (TkString t, r)
  | Ok GUATIAO_BYTES => '(b, r) ← read_slice r; Ok (TkBytes b, r)
  | Ok GUATIAO_LIST => '(n, r) ← read_count r; Ok (TkList n, r)
  | Ok GUATIAO_MAP => '(n, r) ← read_count r; Ok (TkMap n, r)
  | Err _ => Err (Refuse (BadTag start tag))
  end.

(** [Decoder]. *)
Record Decoder := MkDecoder {
  reader : WireReader;
  ddepth : nat;
  dkeys : OpenKeys;
  failure : option WireError }.

(** [Decoder::new]. *)
Definition decoder_new (b : bytes) : Decoder := MkDecoder (MkWireReader b 0 0) 0 open_keys None.

(** [MapError], as far as a read of the wire makes one: stopped by the bytes,
    or refused by the builder. *)
Inductive MapError : Type :=
  | Stopped
  | Unwanted (what : string).

(** Steps of a read: as [Steps], over a decoder and its errors. *)
Definition Reads (A : Type) : Type := Decoder -> result (fault MapError) A * Decoder.
#[export] Instance reads_ret : MRet Reads := λ A a d, (Ok a, d).
#[export] Instance reads_bind : MBind Reads := λ A B f m d,
  match m d with (Ok a, d) => f a d | (Err e, d) => (Err e, d) end.

Definition the_decoder : Reads Decoder := λ d, (Ok d, d).

Definition put_reader (r : WireReader) (d : Decoder) : Decoder := MkDecoder r (ddepth d) (dkeys d) (failure d).
Definition put_keys (ks : OpenKeys) (d : Decoder) : Decoder := MkDecoder (reader d) (ddepth d) ks (failure d).
Definition put_depth (n : nat) (d : Decoder) : Decoder := MkDecoder (reader d) n (dkeys d) (failure d).

(** [Decoder::fail]. *)
Definition fail_with {A} (e : fault WireError) (d : Decoder) : result (fault MapError) A * Decoder :=
  match e with
  | Refuse e => (Err (Refuse Stopped),
      MkDecoder (reader d) (ddepth d) (dkeys d) (match failure d with None => Some e | f => f end))
  | Panic => (Err Panic, d)
  end.

(** Reading through the reader: what it refuses is kept. *)
Definition reading_ {A} (read : WireReader -> result (fault WireError) (A * WireReader)) : Reads A := λ d,
  match read (reader d) with
  | Ok (a, r) => (Ok a, put_reader r d)
  | Err e => fail_with e d
  end.

(** A key of the map whose keys start at [start], refused where it repeats one. *)
Definition keep_key (start : nat) (left_ : Z) (at_ : nat) (k : bytes) : Reads bytes := λ d,
  match keys_insert (dkeys d) start k left_ with
  | Err e => fail_with e d
  | Ok (true, ks) => (Ok k, put_keys ks d)
  | Ok (false, ks) => fail_with (Refuse (RepeatedKey at_)) (put_keys ks d)
  end.
Definition read_key (start : nat) (left_ : Z) : Reads bytes :=
  d ← the_decoder;
  k ← reading_ read_text;
  keep_key start left_ (offset (reader d)) k.

(** A round of [Decoder::skip]: the containers open, each with the values it
    still holds, and for a map where its keys start. *)
Definition SkipState : Type := list (Z * option nat) * Decoder.
Definition skip_token (open : list (Z * option nat)) (d : Decoder)
    : result (fault MapError * Decoder) (SkipState + Decoder) :=
  match reading_ read_token d with
  | (Err e, d) => Err (e, d)
  | (Ok (TkList c), d) => Ok (inl ((c, None) :: open, d))
  | (Ok (TkMap c), d) => Ok (inl ((c, Some (keys_len (dkeys d))) :: open, d))
  | (Ok _, d) => Ok (inl (open, d))
  end.
Definition skip_step (s : SkipState) : result (fault MapError * Decoder) (SkipState + Decoder) :=
  let '(open, d) := s in
  match open with
  | [] => Ok (inr d)
  | (n, start) :: below =>
      if n =? 0 then
        Ok (inl (below, match start with Some start => put_keys (keys_truncate start (dkeys d)) d | None => d end))
      else
        let open := (n - 1, start) :: below in
        match match start with Some start => read_key start (n - 1) d | None => (Ok [], d) end with
        | (Err e, d) => Err (e, d)
        | (Ok _, d) => skip_token open d
        end
  end.

(** [Decoder::skip]. *)
Definition skip : Reads unit := λ d,
  let base := keys_len (dkeys d) in
  let trunc d := put_keys (keys_truncate base (dkeys d)) d in
  match loop skip_step (4 + 2 * length (wrest (reader d))) (Panic, d) ([(1, None)], d) with
  | Ok d => (Ok (), trunc d)
  | Err (e, d) => (Err e, trunc d)
  end.

(** What a builder does with each value it is handed, whatever its kind: takes
    it or refuses it; of a list, reads items; of a map, reads keys, and under
    each reads the value, skips it, or leaves it. What is past the plan is left
    unread. *)
Inductive Plan : Type :=
  | MkPlan (items : list Plan) (entries : list PlanEntry) (takes : bool)
with PlanEntry : Type :=
  | ReadValue (p : Plan)
  | SkipValue
  | LeaveValue.

(** [Frame]: an open container's progress. *)
Record Progress := MkProgress { left_in : Z; pending : bool; keys_start : nat }.

(** [Entries::skip_value]. *)
Definition skip_value (f : Progress) : Reads Progress := λ d,
  if pending f then (skip;; mret (MkProgress (left_in f) false (keys_start f))) d
  else (Err (Refuse (Unwanted "a key read before its value")), d).

(** [Entries::next_key]: the value under the last key passed over if it was
    neither read nor skipped. *)
Definition next_key (f : Progress) : Reads (option bytes * Progress) :=
  f ← (if pending f then skip_value f else mret f);
  if left_in f =? 0 then mret (None, f)
  else
    let n := left_in f - 1 in
    k ← read_key (keys_start f) n;
    mret (Some k, MkProgress n true (keys_start f)).

(** [while rest.next_key()? { rest.skip_value()? }]. *)
Fixpoint rest_entries (fuel : nat) (f : Progress) : Reads unit :=
  match fuel with
  | O => λ d, (Err Panic, d)
  | S fuel =>
      '(k, f) ← next_key f;
      match k with
      | None => mret ()
      | Some _ => f ← skip_value f; rest_entries fuel f
      end
  end.

(** [for _ in 0..left { self.skip()? }]. *)
Fixpoint rest_items (n : nat) : Reads unit :=
  match n with O => mret () | S n => skip;; rest_items n end.

Definition builder (takes : bool) : Reads unit := λ d,
  (if takes then Ok () else Err (Refuse (Unwanted "a value of another kind")), d).

(** A container being read: deeper, its keys forgotten and the depth restored
    when it is left, refused or not. *)
Definition in_container (at_ : nat) (body : nat -> Reads unit) : Reads unit := λ d,
  if decide (MAX_DEPTH <= ddepth d)%nat then fail_with (Refuse (Nested at_)) d
  else
    let start := keys_len (dkeys d) in
    let '(x, d) := body start (put_depth (S (ddepth d)) d) in
    (x, put_depth (ddepth d - 1) (put_keys (keys_truncate start (dkeys d)) d)).

(** [Walker::build] for [&mut Decoder], with [Items::next_seed] and
    [Entries::value_seed] as the plan calls them. *)
Definition unless_failed (m : Reads unit) : Reads unit := λ d,
  match failure d with Some _ => (Err (Refuse Stopped), d) | None => m d end.

(** [Items::next_seed], and [Entries::next_key] with what the plan does of the
    value, until the plan or the container is at its end. *)
Definition read_items (build : Plan -> Reads unit) : list Plan -> Z -> Reads Z :=
  fix go l n :=
    match l with
    | [] => mret n
    | p :: l => if n =? 0 then mret n else build p;; go l (n - 1)
    end.
Definition read_entries (build : Plan -> Reads unit) : list PlanEntry -> Progress -> Reads Progress :=
  fix go l f :=
    match l with
    | [] => mret f
    | e :: l =>
        '(k, f) ← next_key f;
        match k with
        | None => mret f
        | Some _ =>
            match e with
            | ReadValue p => build p;; go l (MkProgress (left_in f) false (keys_start f))
            | SkipValue => f ← skip_value f; go l f
            | LeaveValue => go l f
            end
        end
    end.

Fixpoint build_ (p : Plan) : Reads unit :=
  let '(MkPlan items entries takes) := p in
  unless_failed (
    d ← the_decoder;
    token ← reading_ read_token;
    match token with
    | TkList c =>
        in_container (offset (reader d)) (λ _,
          n ← read_items build_ items c;
          builder takes;; rest_items (Z.to_nat n))
    | TkMap c =>
        in_container (offset (reader d)) (λ start,
          f ← read_entries build_ entries (MkProgress c false start);
          builder takes;; rest_entries (S (Z.to_nat (left_in f))) f)
    | _ => builder takes
    end).

(** [Decoder::finish] and [decode_as], of a type whose reads are the plan's. *)
Definition finish (d : Decoder) : result (fault WireError) unit :=
  match failure d with
  | Some e => Err (Refuse e)
  | None =>
      if decide (at_ (reader d) <> length (wbytes (reader d))) then Err (Refuse (Trailing (offset (reader d))))
      else Ok ()
  end.
Definition decode_as (p : Plan) (b : bytes) : result (fault WireError) unit :=
  let '(x, d) := build_ p (decoder_new b) in
  match failure d with
  | Some e => Err (Refuse e)
  | None => match x with Ok _ => finish d | Err (Refuse _) => Err (Refuse Refused) | Err Panic => Err Panic end
  end.
End open_keys.

Example decode_as_ex : decode_as (MkSeeded 1 2) (MkPlan [] [] true) [7; 2; 1; 97; 1; 1; 97; 1] =
  Err (Refuse (RepeatedKey 5)).
Proof. vm_compute. reflexivity. Qed.
