(* ===== verification/DecoderLaws.v ===== *)
(** * What a decoder passes over

    Every read of a node, taken by a builder or passed over, takes exactly the
    bytes of one well-formed value; and bytes that walk themselves say what
    their value says. *)

From S2P Require Import Prelude Errors Number Value Keys Maps Encode Decode Visit Encoder Decoder.

(** ** The keys of open maps *)

(** The sets are those of some of the maps whose keys start at [ss] (the
    innermost first), each with the hash of every key of its map. *)
Fixpoint sets_ok (ss : list nat) (l : list bytes) (sets : list (nat * KeySet)) : Prop :=
  match ss with
  | [] => sets = []
  | s :: ss =>
      (s <= length l)%nat /\ (match ss with s' :: _ => s' < s | [] => True end)%nat /\
      match sets with
      | (s', set) :: rest =>
          if decide (s' = s) then
            (forall k, k ∈ drop s l -> hash_one (ks_seeds set) k ∈ hashes set) /\ sets_ok ss (take s l) rest
          else sets_ok ss (take s l) sets
      | [] => sets_ok ss (take s l) []
      end
  end.
Definition keys_ok (ss : list nat) (l : list bytes) (ks : OpenKeys) : Prop :=
  key_list_ ks = l /\ sets_ok ss l (key_sets ks).

Lemma sets_below ss : forall l sets, sets_ok ss l sets ->
  Forall (λ x, match ss with s :: _ => (x.1 <= s)%nat | [] => False end) sets.
Proof.
  induction ss as [|s ss IH]; intros l sets; simpl; [by intros ->|]. intros (Hs & Hlt & H).
  assert (Hw : forall rest, sets_ok ss (take s l) rest -> Forall (λ x, (x.1 <= s)%nat) rest).
  { intros rest Hr. apply IH in Hr. eapply Forall_impl; [exact Hr|]. destruct ss; [done|]. simpl. lia. }
  destruct sets as [|[s' set] rest]; [constructor|]. case_decide as E.
  - subst. destruct H as [_ H]. constructor; [simpl; lia|]. by apply Hw.
  - by apply Hw.
Qed.

Lemma pop_ok s ss l sets : sets_ok (s :: ss) l sets -> sets_ok ss (take s l) (pop_sets s sets).
Proof.
  intros (Hs & Hlt & H).
  assert (Hrest : forall rest, sets_ok ss (take s l) rest -> pop_sets s rest = rest).
  { intros rest Hr. apply sets_below in Hr. destruct rest as [|[s' set] rest]; [done|].
    apply Forall_cons_iff in Hr as [Hr _]. simpl. destruct ss; [done|]. rewrite decide_False; [done|].
    simpl in *. lia. }
  destruct sets as [|[s' set] rest]; [done|]. case_decide as E.
  - subst. destruct H as [_ H]. cbn [pop_sets]. rewrite decide_True by lia. by rewrite Hrest.
  - by rewrite Hrest.
Qed.

Lemma truncate_ok s ss l ks : keys_ok (s :: ss) l ks -> keys_ok ss (take s l) (keys_truncate s ks).
Proof. intros [<- H]. split; [done|]. by apply pop_ok. Qed.

Lemma pop_none s ss l sets : sets_ok ss l sets -> (match ss with s' :: _ => s' < s | [] => True end)%nat ->
  pop_sets s sets = sets.
Proof.
  intros H Hs. apply sets_below in H. destruct sets as [|[s' set] rest]; [done|].
  apply Forall_cons_iff in H as [H _]. destruct ss; [done|]. simpl in *. by rewrite decide_False by lia.
Qed.

(** A map opened where its keys will start. *)
Lemma open_ok ss l ks : keys_ok ss l ks -> (match ss with s :: _ => s < length l | [] => True end)%nat ->
  keys_ok (length l :: ss) l ks.
Proof.
  intros [El H] Hs. split; [done|]. split; [done|]. split; [done|].
  rewrite take_ge by done. destruct (key_sets ks) as [|[s' set] rest]; [done|].
  rewrite decide_False; [done|]. intros ->. apply sets_below in H. apply Forall_cons_iff in H as [H _].
  destruct ss; [done|]. simpl in H. lia.
Qed.

Lemma set_insert set k : fst (keyset_insert set k) = bool_decide (hash_one (ks_seeds set) k ∉ hashes set) /\
  ks_seeds (snd (keyset_insert set k)) = ks_seeds set /\
  hashes (snd (keyset_insert set k)) = {[hash_one (ks_seeds set) k]} ∪ hashes set.
Proof. done. Qed.

Lemma set_insert_all l : forall set,
  ks_seeds (foldl (λ set k, snd (keyset_insert set k)) set l) = ks_seeds set /\
  (forall k, k ∈ l \/ hash_one (ks_seeds set) k ∈ hashes set ->
    hash_one (ks_seeds set) k ∈ hashes (foldl (λ set k, snd (keyset_insert set k)) set l)).
Proof.
  induction l as [|x l IH]; intros set; simpl; [split; [done|]; intros k [Hk|Hk]; [by apply elem_of_nil in Hk|done]|].
  destruct (IH (snd (keyset_insert set x))) as [E H]. split; [done|]. intros k Hk.
  apply (H k). destruct (set_insert set x) as (_ & E2 & E3). rewrite E2, E3, elem_of_union, elem_of_singleton.
  rewrite elem_of_cons in Hk. destruct Hk as [[->|Hk]|Hk]; auto.
Qed.

(** A key is refused exactly where its map has it, whatever the hashes. *)
Lemma insert_ok random s ss l ks k left_ : keys_ok (s :: ss) l ks ->
  exists ks', keys_insert random ks s k left_ = Ok (negb (bool_decide (k ∈ drop s l)), ks') /\
    keys_ok (s :: ss) (if bool_decide (k ∈ drop s l) then l else l ++ [k]) ks'.
Proof.
  intros [El (Hs & Hlt & H)]. unfold keys_insert, keys_len. rewrite El, decide_True by done.
  assert (Hd : drop s (l ++ [k]) = drop s l ++ [k]) by by rewrite drop_app_le.
  assert (Ht : take s (l ++ [k]) = take s l) by by rewrite take_app_le.
  assert (Hnew : forall sets, sets_ok ss (take s l) sets -> forall set,
    (forall k', k' ∈ drop s l ++ [k] -> hash_one (ks_seeds set) k' ∈ hashes set) ->
    sets_ok (s :: ss) (l ++ [k]) ((s, set) :: sets)).
  { intros sets Hsets set Hset. split; [rewrite length_app; lia|]. split; [done|].
    rewrite decide_True by done. rewrite Hd, Ht. by split. }
  assert (Hno : (match key_sets ks with (s', _) :: _ => s' <> s | [] => True end) ->
    sets_ok ss (take s l) (key_sets ks)).
  { destruct (key_sets ks) as [|[s' set] rest]; [done|]. intros Hne. by rewrite decide_False in H. }
  assert (Hold : forall sets, sets_ok ss (take s l) sets -> (match sets with (s', _) :: _ => s' <> s | [] => True end) ->
    forall l', (s <= length l')%nat -> take s l' = take s l -> sets_ok (s :: ss) l' sets).
  { intros sets Hsets Hne l' Hl' El'. split; [done|]. split; [done|]. rewrite El'.
    destruct sets as [|[s' set] rest]; [done|]. by rewrite decide_False. }
  destruct (key_sets ks) as [|[s' set] rest] eqn:Ek; [|destruct (decide (s' = s)) as [->|Hne]].
  2: { destruct H as [Hset Hrest]. destruct (set_insert set k) as (E1 & E2 & E3).
    destruct (keyset_insert set k) as [fresh set'] eqn:Ei. cbn [fst snd] in *. cbn [negb andb].
    assert (Hset' : forall k', k' ∈ drop s l ++ [k] -> hash_one (ks_seeds set') k' ∈ hashes set').
    { intros k'. rewrite elem_of_app, list_elem_of_singleton, E2, E3, elem_of_union, elem_of_singleton.
      intros [Hk'| ->]; auto. }
    destruct (bool_decide (k ∈ drop s l)) eqn:Em.
    - apply bool_decide_eq_true in Em. rewrite bool_decide_eq_false_2 in E1 by (by intros Hn; apply Hn, Hset).
      rewrite E1. cbn [negb andb]. eexists. split; [done|]. split; [done|]. cbn [key_sets].
      split; [done|]. split; [done|]. rewrite decide_True by done. split; [|done].
      intros k' Hk'. apply Hset'. apply elem_of_app. by left.
    - rewrite andb_false_r. eexists. split; [done|]. split; [done|]. cbn [key_sets]. by apply Hnew. }
  all: cbn [negb andb]; specialize (Hno ltac:(done)); destruct (bool_decide (k ∈ drop s l)) eqn:Em;
    [eexists; split; [done|]; split; [done|]; cbn [key_sets]; by apply Hold|].
  all: destruct (_ <? _); [|eexists; split; [done|]; split; [done|]; cbn [key_sets]; apply Hold;
    [done|done|rewrite length_app; lia|done]].
  all: unfold keyset_new; destruct (seeded_of random (key_seeds ks)) as [sd drawn];
    destruct (set_insert_all (drop s (l ++ [k])) (MkKeySet sd ∅)) as [E1 E2];
    eexists; (split; [done|]); (split; [done|]); cbn [key_sets]; apply Hnew; [done|];
    intros k' Hk'; rewrite E1; apply E2; left; by rewrite Hd.
Qed.

(** ** Reading through a decoder *)

Definition token_of (n : Node) : WireToken :=
  match n with
  | Leaf (VBool b) => TkBool b
  | Leaf (VNumber t) => TkNumber t
  | Leaf (VString t) => TkString t
  | Leaf (VBytes b) => TkBytes b
  | Leaf VNull => TkNull
  | Leaf _ => TkAbsent
  | NList n => TkList n
  | NMap n => TkMap n
  end.

(** The streaming reader and the tree's read one node's head alike. *)
Lemma read_token_node r : read_token r = ('(n, r') ← read_node r; Ok (token_of n, r')).
Proof.
  unfold read_token, read_node. destruct (byte_ r) as [[t r1]|f]; cbn [mbind result_bind]; [|done].
  destruct (tag_try_from t) as [[]|e]; cbn [mbind result_bind]; try done.
  - destruct (byte_ r1) as [[b r2]|f]; cbn [mbind result_bind]; [|done].
    destruct (b =? 0); [done|]. by destruct (b =? 1).
  - destruct (read_text r1) as [[b r2]|f]; cbn [mbind result_bind]; [|done]. by destruct (is_number b).
  - by destruct (read_text r1) as [[b r2]|f].
  - by destruct (read_slice r1) as [[b r2]|f].
  - by destruct (read_count r1) as [[b r2]|f].
  - by destruct (read_count r1) as [[b r2]|f].
Qed.

(** A decoder whose bytes have not been refused, with the keys of the maps open
    at [ss]. *)
Definition good (ss : list nat) (l : list bytes) (d : Decoder) : Prop :=
  keys_ok ss l (dkeys d) /\ reader_ok (reader d) /\ all_bytes (reader d) /\ failure d = None.

(** [d'] is [d] after reading [b], the keys apart. *)
Definition dtook (d : Decoder) (b : bytes) (d' : Decoder) : Prop :=
  wtook (reader d) b (reader d') /\ ddepth d' = ddepth d.

(** The bytes refused, and the refusal kept. *)
Definition stopped (e : fault MapError) (d : Decoder) : Prop := e = Refuse Stopped /\ is_Some (failure d).

(** A value may come next: a map has had a key. *)
Definition primed (ss : list nat) (l : list bytes) : Prop :=
  match ss with s :: _ => (s < length l)%nat | [] => True end.

Lemma wtook_all_bytes r b r' : wtook r b r' -> all_bytes r -> all_bytes r'.
Proof. by intros (-> & _). Qed.

Lemma dtook_app d b d1 b1 d2 : dtook d b d1 -> dtook d1 b1 d2 -> dtook d (b ++ b1) d2.
Proof. intros [H1 E1] [H2 E2]. split; [by eapply wtook_app|congruence]. Qed.

Lemma dtook_nil d : reader_ok (reader d) -> dtook d [] d.
Proof.
  intros Hr. split; [|done]. split; [|by split].
  unfold wadv. destruct (reader d). simpl. by rewrite Nat.add_0_r.
Qed.

Lemma good_reader ss l d b r : good ss l d -> wtook (reader d) b r -> good ss l (put_reader r d) /\ dtook d b (put_reader r d).
Proof.
  intros (Hk & Hr & Hb & Hf) Ht. split; [|by split]. split_and!; try done; [apply Ht|by eapply wtook_all_bytes].
Qed.

Lemma fail_stopped {A} e d : failure d = None ->
  exists d', fail_with (A := A) (Refuse e) d = (Err (Refuse Stopped), d') /\ failure d' = Some e.
Proof. intros Hf. unfold fail_with. rewrite Hf. by eexists. Qed.

Lemma bad_refuse r f : bad_at r f -> exists e, f = Refuse e.
Proof. intros (e & -> & _). by exists e. Qed.

(** A read that took something, or was refused. *)
Lemma reading_cases {A} (read : WireReader -> result (fault WireError) (A * WireReader)) ss l d (P : A -> WireReader -> Prop) :
  good ss l d ->
  (match read (reader d) with
   | Ok (a, r') => exists b, wtook (reader d) b r' /\ P a r'
   | Err f => bad_at (reader d) f
   end) ->
  match reading_ read d with
  | (Ok a, d') => P a (reader d') /\ d' = put_reader (reader d') d /\
      exists b, wtook (reader d) b (reader d') /\ good ss l d' /\ dtook d b d'
  | (Err e, d') => stopped e d'
  end.
Proof.
  intros Hd H. unfold reading_. destruct (read (reader d)) as [[a r']|f].
  - destruct H as (b & Ht & Hp). split; [done|]. split; [done|]. exists b. split; [done|].
    by apply (good_reader _ _ _ b).
  - destruct (bad_refuse _ _ H) as [e ->].
    destruct (fail_stopped (A := A) e d (proj2 (proj2 (proj2 Hd)))) as (d' & -> & Ef).
    split; [done|]. by rewrite Ef.
Qed.

Definition head_ok (n : Node) : Prop :=
  (0 < length (node_bytes n))%nat /\
  match n with
  | Leaf v => value_wf v
  | NList c | NMap c => 0 <= c < 2 ^ 64
  end.

Lemma token_cases ss l d : good ss l d ->
  match reading_ read_token d with
  | (Ok t, d') => exists n, t = token_of n /\ head_ok n /\ good ss l d' /\ dtook d (node_bytes n) d'
  | (Err e, d') => stopped e d'
  end.
Proof.
  intros Hd. pose proof Hd as (_ & Hr & Hb & Hf). unfold reading_. rewrite read_token_node.
  pose proof (node_spec (reader d) Hr Hb) as H. destruct (read_node (reader d)) as [[n r']|f]; cbn [mbind result_bind].
  - destruct H as (Ht & Hl & Hn). exists n. split; [done|]. split; [by split|]. by apply good_reader.
  - destruct (bad_refuse _ _ H) as [e ->]. destruct (fail_stopped (A := WireToken) e d Hf) as (d' & -> & Ef).
    split; [done|]. by rewrite Ef.
Qed.

Lemma token_takes ss l d v tl : good ss l d -> value_wf v -> wrest (reader d) = wire v ++ tl ->
  exists d', reading_ read_token d = (Ok (token_of (head_of v)), d') /\ good ss l d' /\
    dtook d (node_bytes (head_of v)) d' /\ wrest (reader d') = body_of v ++ tl.
Proof.
  intros Hd Hv E. pose proof Hd as (_ & Hr & Hb & Hf). unfold reading_.
  rewrite read_token_node, (head_takes v _ tl Hv Hr E). cbn [mbind result_bind].
  rewrite head_body, <- app_assoc in E. destruct (wtook_intro _ _ _ Hr E) as [Ht E'].
  eexists. split; [done|]. destruct (good_reader _ _ _ _ _ Hd Ht) as [H1 H2]. by split_and!.
Qed.

Section decoder.
Variable random : Seeded.

Lemma key_cases s ss l d left_ : good (s :: ss) l d ->
  match read_key random s left_ d with
  | (Ok k, d') => is_utf8 k = true /\ fits k /\ (k ∉ drop s l) /\ good (s :: ss) (l ++ [k]) d' /\
      dtook d (key_wire k) d'
  | (Err e, d') => stopped e d'
  end.
Proof.
  intros Hd. pose proof Hd as (Hk & Hr & Hb & Hf). unfold read_key, mbind, reads_bind, the_decoder.
  pose proof (reading_cases read_text (s :: ss) l d
    (λ k r', wtook (reader d) (key_wire k) r' /\ is_utf8 k = true /\ fits k) Hd) as H. supply H.
  { pose proof (text_spec (reader d) Hr Hb) as Ht. destruct (read_text (reader d)) as [[k r']|f]; [|done].
    destruct Ht as (Ht & Hu & Hl). exists (key_wire k). split_and!; try done. by apply fits_of. }
  destruct (reading_ read_text d) as [[k|e] d1]; [|done].
  destruct H as ((Ht & Hu & Hfit) & Ed1 & _). destruct (good_reader _ _ _ _ _ Hd Ht) as [Hd1 Ht1].
  rewrite <- Ed1 in Hd1, Ht1. unfold keep_key. destruct Hd1 as (Hk1 & Hr1 & Hb1 & Hf1).
  destruct (insert_ok random s ss l (dkeys d1) k left_ Hk1) as (ks' & -> & Hks).
  destruct (bool_decide (k ∈ drop s l)) eqn:Em; cbn [negb].
  - destruct (fail_stopped (A := bytes) (RepeatedKey (offset (reader d))) (put_keys ks' d1) Hf1) as (d' & -> & Ef).
    split; [done|]. by rewrite Ef.
  - apply bool_decide_eq_false in Em. split_and!; done.
Qed.

Lemma key_takes s ss l d left_ k tl : good (s :: ss) l d -> is_utf8 k = true -> fits k -> k ∉ drop s l ->
  wrest (reader d) = key_wire k ++ tl ->
  exists d', read_key random s left_ d = (Ok k, d') /\ good (s :: ss) (l ++ [k]) d' /\
    dtook d (key_wire k) d' /\ wrest (reader d') = tl.
Proof.
  intros Hd Hu Hfit Hm E. pose proof Hd as (Hk & Hr & Hb & Hf). unfold read_key, mbind, reads_bind, the_decoder, reading_.
  rewrite (text_takes _ k tl Hr Hfit Hu E). destruct (wtook_intro _ _ _ Hr E) as [Ht E'].
  destruct (good_reader _ _ _ _ _ Hd Ht) as [(Hk1 & Hr1 & Hb1 & Hf1) Ht1]. unfold keep_key.
  destruct (insert_ok random s ss l _ k left_ Hk1) as (ks' & -> & Hks).
  rewrite (bool_decide_eq_false_2 _ Hm) in Hks |- *. cbn [negb]. eexists. split; [done|]. by split_and!.
Qed.

(** ** Passing over *)

Definition starts_of (st : option nat) (ss : list nat) : list nat :=
  match st with Some s => s :: ss | None => ss end.

(** What passing over the [n] values left of a container reads, and leaves. *)
Definition passed (st : option nat) (ss : list nat) (l : list bytes) (n : Z) (d d' : Decoder) : Prop :=
  match st with
  | None => exists vs, len_of vs = n /\ Forall value_wf vs /\ dtook d (concat (map wire vs)) d' /\ good ss l d'
  | Some s => exists m, len_of m = n /\ Forall entry_wf m /\ NoDup (keys m) /\
      (forall k, k ∈ keys m -> k ∉ drop s l) /\ dtook d (concat (map entry_wire m)) d' /\ good ss (take s l) d'
  end.

(** What passing over one value reads. *)
Definition passed_one (ss : list nat) (l : list bytes) (v : Value) (d d' : Decoder) : Prop :=
  value_wf v /\ dtook d (wire v) d' /\ good ss l d'.

Abbreviation skip_loop := (loop (skip_step random)).

Lemma good_starts ss l d d' : dkeys d' = dkeys d -> reader d' = reader d -> failure d' = failure d ->
  good ss l d -> good ss l d'.
Proof. unfold good. by intros -> -> ->. Qed.

Lemma good_truncate s ss l d : good (s :: ss) l d ->
  good ss (take s l) (put_keys (keys_truncate s (dkeys d)) d).
Proof. intros (Hk & H). split; [by apply truncate_ok|done]. Qed.

Lemma good_open ss l d : good ss l d -> primed ss l -> good (length l :: ss) l d /\ keys_len (dkeys d) = length l.
Proof. intros (Hk & H) Hp. split; [split; [by apply open_ok|done]|]. unfold keys_len. by rewrite (proj1 Hk). Qed.

(** From where a value is due, to the loop where the value was due no more. *)
Definition value_passed (fuel : nat) (out_ : fault MapError * Decoder) (ss : list nat) (l : list bytes)
    (open : list (Z * option nat)) (d : Decoder) (r : result (fault MapError * Decoder) (SkipState + Decoder))
    (d' : Decoder) : Prop :=
  (match r with Ok (inl s) => skip_loop fuel out_ s | Ok (inr d) => Ok d | Err e => Err e end) = Ok d' ->
  exists v f d1, (f <= fuel)%nat /\ skip_loop f out_ (open, d1) = Ok d' /\ passed_one ss l v d d1.

Lemma skip_loop_passes out_ fuel : forall d n st below ss l d', 0 <= n -> good (starts_of st ss) l d ->
  (st = None -> primed ss l) -> skip_loop fuel out_ ((n, st) :: below, d) = Ok d' ->
  exists f d1, (f < fuel)%nat /\ skip_loop f out_ (below, d1) = Ok d' /\ passed st ss l n d d1.
Proof.
  induction fuel as [fuel IH] using lt_wf_ind. intros d n st below ss l d' Hn Hd Hp H.
  destruct fuel as [|fuel]; [done|]. cbn [loop skip_step] in H.
  destruct (Z.eqb_spec n 0) as [->|Hn0].
  { exists fuel. eexists. split; [lia|]. split; [exact H|]. destruct st as [s|]; simpl in Hd |- *.
    - exists []. split_and!; try done; [constructor|by intros k ?%elem_of_nil| |by apply good_truncate].
      apply (dtook_nil d). apply Hd.
    - exists []. split_and!; try done. apply dtook_nil, Hd. }
  (* One value, from where it is due. *)
  assert (Hval : forall ss' l' d0 open, good ss' l' d0 -> primed ss' l' ->
    value_passed fuel out_ ss' l' open d0 (skip_token open d0) d').
  { intros ss' l' d0 open Hd0 Hp0 Hv. unfold skip_token in Hv. pose proof (token_cases _ _ _ Hd0) as Ht.
    destruct (reading_ read_token d0) as [[t|e] d1]; [|done].
    destruct Ht as (nd & -> & [_ Hnd] & Hd1 & Ht). destruct nd as [v|c|c]; cbn [token_of node_bytes] in *.
    - exists v, fuel, d1. split; [done|]. split; [by destruct v|]. by split_and!.
    - destruct (IH fuel ltac:(lia) d1 c None open ss' l' d' ltac:(lia) Hd1 ltac:(done) Hv)
        as (f & d2 & Hf & H2 & vs & <- & Hvs & Ht2 & Hd2).
      exists (VList vs), f, d2. split; [lia|]. split; [done|]. split; [|split; [|done]].
      + apply value_wf_list. split; [by apply fits_of|done].
      + rewrite wire_list. by apply (dtook_app _ (6 :: _) d1).
    - destruct (good_open _ _ _ Hd1 Hp0) as [Hd1' El]. rewrite El in Hv.
      destruct (IH fuel ltac:(lia) d1 c (Some (length l')) open ss' l' d' ltac:(lia) Hd1' ltac:(done) Hv)
        as (f & d2 & Hf & H2 & m & <- & Hm & Hnd' & _ & Ht2 & Hd2).
      exists (VMap m), f, d2. split; [lia|]. split; [done|]. rewrite take_ge in Hd2 by done. split; [|split; [|done]].
      + apply value_wf_map. split; [by apply fits_of|]. split; [done|]. done.
      + rewrite wire_map. by apply (dtook_app _ (7 :: _) d1). }
  destruct st as [s|].
  - pose proof (key_cases s ss l d (n - 1) Hd) as Hk.
    destruct (read_key random s (n - 1) d) as [[k|e] d1]; [|done]. destruct Hk as (Hu & Hfit & Hnew & Hd1 & Ht1).
    assert (Hp1 : primed (s :: ss) (l ++ [k])).
    { simpl. rewrite length_app. simpl. destruct Hd as ((_ & Hs & _) & _). lia. }
    destruct (Hval (s :: ss) (l ++ [k]) d1 ((n - 1, Some s) :: below) Hd1 Hp1) as (v & f & d2 & Hf & H2 & Hv & Ht2 & Hd2).
    { destruct (skip_token _ d1) as [[?|?]|?]; exact H. }
    destruct (IH f ltac:(lia) d2 (n - 1) (Some s) below ss (l ++ [k]) d' ltac:(lia) Hd2 ltac:(done) H2)
      as (f' & d3 & Hf' & H3 & m & El & Hm & Hnd & Hdis & Ht3 & Hd3).
    assert (Hs : (s <= length l)%nat) by (destruct Hd as ((_ & Hs & _) & _); exact Hs).
    rewrite drop_app_le in Hdis by done. rewrite take_app_le in Hd3 by done.
    exists f', d3. split; [lia|]. split; [done|]. exists ((k, v) :: m). split_and!.
    + unfold len_of in *. simpl. lia.
    + by constructor.
    + unfold keys. cbn [map fst]. constructor; [|done]. intros Hin. apply (Hdis k Hin), elem_of_app. right. by left.
    + intros k' [->|Hk']%elem_of_cons; [done|]. intros Hin. apply (Hdis k' Hk'), elem_of_app. by left.
    + cbn [map concat]. eapply dtook_app; [|exact Ht3]. unfold entry_wire. by eapply dtook_app.
    + done.
  - destruct (Hval ss l d ((n - 1, None) :: below) Hd (Hp eq_refl)) as (v & f & d2 & Hf & H2 & Hv & Ht2 & Hd2).
    { destruct (skip_token _ d) as [[?|?]|?]; exact H. }
    destruct (IH f ltac:(lia) d2 (n - 1) None below ss l d' ltac:(lia) Hd2 Hp H2)
      as (f' & d3 & Hf' & H3 & vs & El & Hvs & Ht3 & Hd3).
    exists f', d3. split; [lia|]. split; [done|]. exists (v :: vs). split_and!; try done.
    + unfold len_of in *. simpl. lia.
    + by constructor.
    + cbn [map concat]. by eapply dtook_app.
Qed.
(** The loop's own invariant: the maps open are those whose keys are kept. *)
Definition open_starts (open : list (Z * option nat)) : list nat := omap snd open.
Definition skip_inv (ss : list nat) (s : SkipState) : Prop :=
  let '(open, d) := s in
  Forall (λ x, 0 <= x.1) open /\ exists l, good (open_starts open ++ ss) l d /\
    match open with (_, None) :: _ => primed (open_starts open ++ ss) l | _ => True end.
Definition skip_left (s : SkipState) : nat :=
  let '(open, d) := s in (2 * length (wrest (reader d)) + length open)%nat.

Lemma dtook_length d b d' : dtook d b d' ->
  length (wrest (reader d)) = (length b + length (wrest (reader d')))%nat.
Proof. intros [H _]. by apply wtook_length. Qed.

Lemma primed_below s ss l sets : sets_ok (s :: ss) l sets -> primed ss (take s l).
Proof.
  intros (Hs & Hlt & _). unfold primed. destruct ss; [done|]. rewrite length_take. lia.
Qed.

Lemma skip_token_inv ss open d l : Forall (λ x, 0 <= x.1) open -> good (open_starts open ++ ss) l d ->
  primed (open_starts open ++ ss) l ->
  match skip_token open d with
  | Ok (inl s) => skip_inv ss s /\ (skip_left s + 1 <= skip_left (open, d))%nat
  | Ok (inr _) => False
  | Err (e, d') => stopped e d'
  end.
Proof.
  intros Ho Hd Hp. unfold skip_token. pose proof (token_cases _ _ _ Hd) as Ht.
  destruct (reading_ read_token d) as [[t|e] d1]; [|done].
  destruct Ht as (nd & -> & [Hl Hnd] & Hd1 & Ht). apply dtook_length in Ht.
  destruct nd as [v|c|c]; cbn [token_of node_bytes] in *.
  - assert (H : skip_inv ss (open, d1) /\ (skip_left (open, d1) + 1 <= skip_left (open, d))%nat).
    { split; [|simpl; lia]. split; [done|]. exists l. split; [done|]. by destruct open as [|[? []] ?]. }
    by destruct v.
  - split; [|simpl in *; lia]. split; [constructor; [simpl; lia|done]|]. exists l. by split.
  - split; [|simpl in *; lia]. split; [constructor; [simpl; lia|done]|].
    destruct (good_open _ _ _ Hd1 Hp) as [H El]. rewrite El. exists l. by split.
Qed.

Lemma skip_step_inv ss s : skip_inv ss s ->
  match skip_step random s with
  | Ok (inl s') => skip_inv ss s' /\ (skip_left s' < skip_left s)%nat
  | Ok (inr d) => True
  | Err (e, d') => stopped e d'
  end.
Proof.
  destruct s as [open d]. intros (Ho & l & Hd & Hp). cbn [skip_step].
  destruct open as [|[n st] below]; [done|]. apply Forall_cons_iff in Ho as [Hn Ho]. cbn [fst] in Hn.
  destruct (Z.eqb_spec n 0) as [->|Hn0].
  - destruct st as [s|]; simpl in Hd, Hp |- *; (split; [|lia]); (split; [done|]).
    + exists (take s l). split; [by apply good_truncate|]. destruct below as [|[? []] ?]; try done.
      by eapply primed_below, Hd.
    + exists l. split; [done|]. by destruct below as [|[? []] ?].
  - assert (Ho' : Forall (λ x : Z * option nat, 0 <= x.1) ((n - 1, st) :: below)) by (constructor; [simpl; lia|done]).
    destruct st as [s|].
    + pose proof (key_cases s (open_starts below ++ ss) l d (n - 1) Hd) as Hk.
      destruct (read_key random s (n - 1) d) as [[k|e] d1]; [|done].
      destruct Hk as (_ & _ & _ & Hd1 & Ht). apply dtook_length in Ht.
      pose proof (skip_token_inv ss ((n - 1, Some s) :: below) d1 (l ++ [k]) Ho' Hd1) as H. supply H.
      { simpl. rewrite length_app. simpl. destruct Hd as ((_ & Hs & _) & _). lia. }
      destruct (skip_token _ d1) as [[s'|]|[e d']]; try done.
      split; [apply H|]. destruct H as [_ H]. simpl in *. lia.
    + pose proof (skip_token_inv ss ((n - 1, None) :: below) d l Ho' Hd Hp) as H.
      destruct (skip_token _ d) as [[s'|]|[e d']]; try done.
      split; [apply H|]. destruct H as [_ H]. simpl in *. lia.
Qed.

Lemma skip_goes_down ss s s' : skip_inv ss s -> skip_step random s = Ok (inl s') ->
  skip_inv ss s' /\ (skip_left s' < skip_left s)%nat.
Proof. intros Hs Es. pose proof (skip_step_inv ss s Hs) as H. by rewrite Es in H. Qed.

Lemma skip_restores ss l d : good ss l d -> primed ss l -> put_keys (keys_truncate (length l) (dkeys d)) d = d.
Proof.
  intros ([El Hs] & _) Hp. destruct d as [r n [kl sets sd] f]. cbn in *. subst kl. unfold put_keys, keys_truncate. cbn.
  rewrite take_ge by done. by rewrite (pop_none _ ss l).
Qed.

(** [skip] passes over one value, or the bytes are refused. *)
Lemma skip_cases ss l d : good ss l d -> primed ss l ->
  match skip random d with
  | (Ok _, d') => exists v, passed_one ss l v d d'
  | (Err e, d') => stopped e d'
  end.
Proof.
  intros Hd Hp. unfold skip.
  assert (Hinv : skip_inv ss ([(1, None)], d)) by (split; [by repeat constructor|exists l; by split]).
  destruct (loop _ _ _ _) as [d'|[e d']] eqn:E.
  - destruct (skip_loop_passes _ _ d 1 None [] ss l d' ltac:(lia) Hd ltac:(done) E)
      as (f & d1 & _ & H1 & vs & El & Hvs & Ht & Hd1).
    destruct f as [|f]; [done|]. injection H1 as ->.
    destruct vs as [|v [|]]; [done| |unfold len_of in El; cbn [length] in El; lia]. exists v. apply Forall_cons_iff in Hvs as [Hv _].
    cbn [map concat] in Ht. rewrite app_nil_r in Ht. unfold keys_len. rewrite (proj1 (proj1 Hd)).
    rewrite (skip_restores ss) by done. by split_and!.
  - destruct (loop_Err (skip_step random) (skip_inv ss) skip_left (skip_goes_down ss)
      (4 + 2 * length (wrest (reader d))) (Panic, d) ([(1, None)], d) (e, d') Hinv ltac:(simpl; lia) E)
      as (s' & Hs' & Es').
    pose proof (skip_step_inv ss s' Hs') as H. rewrite Es' in H. exact H.
Qed.

(** ** and passes over every value. *)

Definition skips (v : Value) : Prop := forall ss l d open tl, good ss l d -> primed ss l ->
  wrest (reader d) = wire v ++ tl ->
  exists s d', skip_token open d = Ok (inl s) /\ rounds (skip_step random) s (open, d') /\
    good ss l d' /\ dtook d (wire v) d' /\ wrest (reader d') = tl.

Lemma skips_items vs : Forall skips vs -> forall ss l d below tl, good ss l d -> primed ss l ->
  wrest (reader d) = concat (map wire vs) ++ tl ->
  exists d', rounds (skip_step random) ((len_of vs, None) :: below, d) (below, d') /\
    good ss l d' /\ dtook d (concat (map wire vs)) d' /\ wrest (reader d') = tl.
Proof.
  induction 1 as [|v vs Hv _ IH]; intros ss l d below tl Hd Hp E.
  - exists d. split_and!; try done; [|by apply dtook_nil, Hd]. eapply rounds_step; [done|apply rounds_refl].
  - cbn [map concat] in E. rewrite <- app_assoc in E.
    destruct (Hv ss l d ((len_of vs, None) :: below) _ Hd Hp E) as (s & d1 & Es & Hr & Hd1 & Ht1 & E1).
    destruct (IH ss l d1 below tl Hd1 Hp E1) as (d2 & Hr2 & Hd2 & Ht2 & E2). exists d2. split_and!; try done.
    + eapply rounds_step; [|eapply rounds_trans; [exact Hr|exact Hr2]]. cbn [skip_step].
      rewrite (proj2 (Z.eqb_neq _ 0)) by (unfold len_of; simpl; lia).
      replace (len_of (v :: vs) - 1) with (len_of vs) by (unfold len_of; simpl; lia). exact Es.
    + by eapply dtook_app.
Qed.

Lemma skips_entries m : Forall (λ e, skips e.2) m -> Forall entry_wf m -> NoDup (keys m) ->
  forall s ss l d below tl, good (s :: ss) l d -> (forall k, k ∈ keys m -> k ∉ drop s l) ->
  wrest (reader d) = concat (map entry_wire m) ++ tl ->
  exists d', rounds (skip_step random) ((len_of m, Some s) :: below, d) (below, d') /\
    good ss (take s l) d' /\ dtook d (concat (map entry_wire m)) d' /\ wrest (reader d') = tl.
Proof.
  induction 1 as [|[k v] m Hv _ IH]; intros Hw Hnd s ss l d below tl Hd Hdis E.
  - eexists. split; [eapply rounds_step; [done|apply rounds_refl]|]. split; [by apply good_truncate|].
    split; [apply (dtook_nil d), Hd|done].
  - apply Forall_cons_iff in Hw as [(Hu & Hf & _) Hw]. apply NoDup_cons in Hnd as [Hk Hnd]. cbn [fst snd] in *.
    cbn [map concat] in E. unfold entry_wire at 1 in E. cbn [fst snd] in E. rewrite <- !app_assoc in E.
    destruct (key_takes s ss l d (len_of m) k _ Hd Hu Hf (Hdis k ltac:(by left)) E) as (d1 & Ek & Hd1 & Ht1 & E1).
    assert (Hs : (s <= length l)%nat) by (destruct Hd as ((_ & Hs & _) & _); exact Hs).
    assert (Hp1 : primed (s :: ss) (l ++ [k])) by (simpl; rewrite length_app; simpl; lia).
    destruct (Hv (s :: ss) (l ++ [k]) d1 ((len_of m, Some s) :: below) _ Hd1 Hp1 E1) as (st & d2 & Es & Hr & Hd2 & Ht2 & E2).
    destruct (IH Hw Hnd s ss (l ++ [k]) d2 below tl Hd2) as (d3 & Hr3 & Hd3 & Ht3 & E3); [|done|].
    { intros k' Hk'. rewrite drop_app_le by done. rewrite elem_of_app, list_elem_of_singleton.
      intros [Hin| ->]; [|done]. apply (Hdis k'); [by right|done]. }
    rewrite take_app_le in Hd3 by done. exists d3. split_and!; try done.
    + eapply rounds_step; [|eapply rounds_trans; [exact Hr|exact Hr3]]. cbn [skip_step].
      rewrite (proj2 (Z.eqb_neq _ 0)) by (unfold len_of; simpl; lia).
      replace (len_of ((k, v) :: m) - 1) with (len_of m) by (unfold len_of; simpl; lia). by rewrite Ek.
    + cbn [map concat]. unfold entry_wire at 1. eapply dtook_app; [|exact Ht3]. by eapply dtook_app.
Qed.

Lemma wf_skips v : value_wf v -> skips v.
Proof.
  induction v as [| |b|t|t|t|l IH|m IH|n] using value_ind'; intros Hv ss kl d open tl Hd Hp E; [..|done];
    destruct (token_takes _ _ _ _ tl Hd Hv E) as (d1 & Et & Hd1 & Ht1 & E1);
    unfold skip_token; rewrite Et; cbn [head_of token_of node_bytes body_of] in *;
    try (eexists _, d1; split; [done|]; split; [apply rounds_refl|]; by split_and!).
  - apply value_wf_list in Hv as [_ Hl].
    assert (Hs : Forall skips l) by (eapply Forall_impl; [exact (proj2 (Forall_and _ l) (conj IH Hl))|]; naive_solver).
    destruct (skips_items l Hs ss kl d1 open tl Hd1 Hp E1) as (d2 & Hr & Hd2 & Ht2 & E2).
    eexists _, d2. split; [done|]. split; [exact Hr|]. split; [done|]. split; [|done].
    rewrite wire_list. by apply (dtook_app _ (6 :: _) d1).
  - apply value_wf_map in Hv as (_ & Hnd & Hl).
    assert (Hs : Forall (λ e, skips e.2) m).
    { eapply Forall_impl; [exact (proj2 (Forall_and _ m) (conj IH Hl))|]. intros e [He (_ & _ & Hw)]. auto. }
    destruct (good_open _ _ _ Hd1 Hp) as [Hd1' El]. rewrite El.
    destruct (skips_entries m Hs Hl Hnd (length kl) ss kl d1 open tl Hd1') as (d2 & Hr & Hd2 & Ht2 & E2); [|done|].
    { intros k _. rewrite drop_ge by done. by intros ?%elem_of_nil. }
    rewrite take_ge in Hd2 by done. eexists _, d2. split; [done|]. split; [exact Hr|]. split; [done|].
    split; [|done]. rewrite wire_map. by apply (dtook_app _ (7 :: _) d1).
Qed.

Lemma skip_takes v ss l d tl : value_wf v -> good ss l d -> primed ss l -> wrest (reader d) = wire v ++ tl ->
  exists d', skip random d = (Ok (), d') /\ good ss l d' /\ dtook d (wire v) d' /\ wrest (reader d') = tl.
Proof.
  intros Hv Hd Hp E. destruct (skips_items [v] ltac:(constructor; [by apply wf_skips|done]) ss l d [] tl Hd Hp)
    as (d' & Hr & Hd' & Ht & E'); [by rewrite E; simpl; rewrite app_nil_r|].
  destruct (rounds_loop _ _ _ Hr) as [n Hn].
  cbn [map concat] in Ht. rewrite app_nil_r in Ht. unfold skip.
  assert (Hinv : skip_inv ss ([(1, None)], d)) by (split; [by repeat constructor|exists l; by split]).
  change (len_of [v]) with 1 in *.
  assert (El : loop (skip_step random) (4 + 2 * length (wrest (reader d))) (Panic, d) ([(1, None)], d) = Ok d').
  { rewrite (loop_fuel (skip_step random) (skip_inv ss) skip_left (skip_goes_down ss) _
      (n + S (skip_left ([(1, None)], d))) (Panic, d) (Panic, d)); [|done|simpl; lia|lia]. by rewrite Hn. }
  rewrite El. unfold keys_len. rewrite (proj1 (proj1 Hd)), (skip_restores ss) by done. by exists d'.
Qed.

(** ** Taken by a builder *)

Definition on_value (P : Plan -> Prop) (e : PlanEntry) : Prop :=
  match e with ReadValue p => P p | _ => True end.

Section plan_ind.
Variable P : Plan -> Prop.
Hypothesis H : forall items entries takes, Forall P items ->
  Forall (on_value P) entries -> P (MkPlan items entries takes).
Fixpoint plan_ind' (p : Plan) : P p :=
  match p with
  | MkPlan items entries takes => H items entries takes
      ((fix go l : Forall P l := match l with [] => Forall_nil_2 P | x :: l => Forall_cons_2 P x l (plan_ind' x) (go l) end) items)
      ((fix go l : Forall (on_value P) l :=
        match l with
        | [] => Forall_nil_2 _
        | e :: l => Forall_cons_2 (on_value P) e l (match e return on_value P e with ReadValue p => plan_ind' p | SkipValue | LeaveValue => I end) (go l)
        end) entries)
  end.
End plan_ind.

(** A read that did not give: refused by the bytes, which is kept, or by the
    builder. *)
Definition unread (e : fault MapError) (d : Decoder) : Prop :=
  exists x, e = Refuse x /\ (x = Stopped -> is_Some (failure d)).

Lemma stopped_unread e d : stopped e d -> unread e d.
Proof. intros [-> H]. exists Stopped. by split. Qed.

Definition builds (m : Reads unit) : Prop := forall ss l d, good ss l d -> primed ss l ->
  match m d with
  | (Ok _, d') => exists v, passed_one ss l v d d'
  | (Err e, d') => unread e d'
  end.

Lemma reads_Ok {A B} (m : Reads A) (f : A -> Reads B) d a d' : m d = (Ok a, d') -> (m ≫= f) d = f a d'.
Proof. intros H. unfold mbind, reads_bind. by rewrite H. Qed.

Lemma skip_builds : builds (skip random).
Proof.
  intros ss l d Hd Hp. pose proof (skip_cases ss l d Hd Hp) as H.
  destruct (skip random d) as [[u|e] d']; [done|by apply stopped_unread].
Qed.

(** Items read, and those left passed over. *)
Lemma read_items_cases (build : Plan -> Reads unit) ps : Forall (λ p, builds (build p)) ps ->
  forall n ss l d, 0 <= n -> good ss l d -> primed ss l ->
  match read_items build ps n d with
  | (Ok n', d') => 0 <= n' /\ exists vs, len_of vs + n' = n /\ Forall value_wf vs /\
      dtook d (concat (map wire vs)) d' /\ good ss l d'
  | (Err e, d') => unread e d'
  end.
Proof.
  induction 1 as [|p ps Hb _ IH]; intros n ss l d Hn Hd Hp; cbn [read_items].
  - split; [done|]. exists []. split_and!; try done. by apply dtook_nil, Hd.
  - destruct (Z.eqb_spec n 0) as [->|Hn0].
    { split; [done|]. exists []. split_and!; try done. by apply dtook_nil, Hd. }
    unfold mbind, reads_bind. pose proof (Hb ss l d Hd Hp) as H. destruct (build p d) as [[[]|e] d1]; [|done].
    destruct H as (v & Hv & Ht & Hd1). specialize (IH (n - 1) ss l d1 ltac:(lia) Hd1 Hp).
    fold (read_items build) in IH. destruct (read_items build ps (n - 1) d1) as [[n'|e] d']; [|done].
    destruct IH as (Hn' & vs & El & Hvs & Ht' & Hd'). split; [done|]. exists (v :: vs). split_and!; try done.
    + unfold len_of in *. cbn [length]. lia.
    + by constructor.
    + cbn [map concat]. by eapply dtook_app.
Qed.

Lemma rest_items_cases n : forall ss l d, good ss l d -> primed ss l ->
  match rest_items random n d with
  | (Ok _, d') => exists vs, length vs = n /\ Forall value_wf vs /\ dtook d (concat (map wire vs)) d' /\ good ss l d'
  | (Err e, d') => unread e d'
  end.
Proof.
  induction n as [|n IH]; intros ss l d Hd Hp; cbn [rest_items].
  - exists []. split_and!; try done. by apply dtook_nil, Hd.
  - unfold mbind, reads_bind. pose proof (skip_builds ss l d Hd Hp) as H.
    destruct (skip random d) as [[u|e] d1]; [|done]. destruct H as (v & Hv & Ht & Hd1).
    specialize (IH ss l d1 Hd1 Hp). destruct (rest_items random n d1) as [[[]|e] d']; [|done].
    destruct IH as (vs & <- & Hvs & Ht' & Hd'). exists (v :: vs). split_and!; try done; [by constructor|].
    cbn [map concat]. by eapply dtook_app.
Qed.

(** How far into a map of [n0] entries, opened at [d0], a builder is. *)
Definition pend_keys (pk : option bytes) : list bytes := match pk with Some k => [k] | None => [] end.
Definition pend_wire (pk : option bytes) : bytes := match pk with Some k => key_wire k | None => [] end.
Definition got_with (ss : list nat) (l : list bytes) (n0 : Z) (d0 : Decoder) (m : list (bytes * Value))
    (pk : option bytes) (f : Progress) (d : Decoder) : Prop :=
  f = MkProgress (left_in f) (bool_decide (is_Some pk)) (length l) /\ 0 <= left_in f /\
  len_of m + len_of (pend_keys pk) + left_in f = n0 /\ Forall entry_wf m /\
  Forall (λ k, is_utf8 k = true /\ fits k) (pend_keys pk) /\ NoDup (keys m ++ pend_keys pk) /\
  dtook d0 (concat (map entry_wire m) ++ pend_wire pk) d /\
  good (length l :: ss) (l ++ keys m ++ pend_keys pk) d.
Definition got ss l n0 d0 (f : Progress) (d : Decoder) : Prop := exists m pk, got_with ss l n0 d0 m pk f d.

Lemma got_primed ss l n0 d0 m k f d : got_with ss l n0 d0 m (Some k) f d ->
  primed (length l :: ss) (l ++ keys m ++ [k]).
Proof. intros _. simpl. rewrite !length_app. simpl. lia. Qed.

(** The value under a key, read or passed over. *)
Lemma got_value ss l n0 d0 m k f d v d' : got_with ss l n0 d0 m (Some k) f d ->
  passed_one (length l :: ss) (l ++ keys m ++ [k]) v d d' ->
  got_with ss l n0 d0 (m ++ [(k, v)]) None (MkProgress (left_in f) false (length l)) d'.
Proof.
  intros (_ & Hl & Hn & Hm & Hk & Hnd & Ht & Hd) (Hv & Ht' & Hd').
  assert (Ek : keys (m ++ [(k, v)]) = keys m ++ [k]) by (unfold keys; by rewrite map_app).
  unfold got_with. cbn [left_in pend_keys pend_wire]. rewrite Ek, !app_nil_r. split_and!; try done.
  - unfold len_of in *. rewrite length_app. cbn [length pend_keys] in *. lia.
  - apply Forall_app. split; [done|]. apply Forall_singleton. apply Forall_cons_iff in Hk as [[Hu Hf] _]. by split_and!.
  - rewrite map_app, concat_app. cbn [map concat]. unfold entry_wire at 2. cbn [fst snd].
    rewrite app_nil_r, app_assoc. eapply dtook_app; [|exact Ht']. exact Ht.
Qed.

Lemma skip_value_cases ss l n0 d0 m k f d : got_with ss l n0 d0 m (Some k) f d ->
  match skip_value random f d with
  | (Ok f', d') => left_in f' = left_in f /\ exists v, got_with ss l n0 d0 (m ++ [(k, v)]) None f' d'
  | (Err e, d') => unread e d'
  end.
Proof.
  intros Hg. pose proof Hg as (Ef & _ & _ & _ & _ & _ & _ & Hd). unfold skip_value. rewrite Ef. cbn [pending].
  rewrite bool_decide_eq_true_2 by done. unfold mbind, reads_bind.
  pose proof (skip_builds _ _ d Hd (got_primed _ _ _ _ _ _ _ _ Hg)) as H.
  destruct (skip random d) as [[u|e] d1]; [|done]. destruct H as (v & Hv). cbn [mret reads_ret left_in keys_start].
  split; [done|]. exists v. by eapply got_value.
Qed.

Lemma next_key_plain ss l n0 d0 m f d : got_with ss l n0 d0 m None f d ->
  match (if left_in f =? 0 then mret (None, f)
    else k ← read_key random (keys_start f) (left_in f - 1);
      mret (Some k, MkProgress (left_in f - 1) true (keys_start f))) d with
  | (Ok (None, f'), d') => f' = f /\ d' = d /\ left_in f = 0
  | (Ok (Some k, f'), d') => left_in f' = left_in f - 1 /\ got_with ss l n0 d0 m (Some k) f' d'
  | (Err e, d') => unread e d'
  end.
Proof.
  intros (Ef & Hl & Hn & Hm & Hk & Hnd & Ht & Hd). destruct (Z.eqb_spec (left_in f) 0) as [E|E]; [done|].
  rewrite Ef. cbn [left_in keys_start]. unfold mbind, reads_bind. cbn [pend_keys pend_wire] in *.
  rewrite app_nil_r in Hd, Hnd, Ht. pose proof (key_cases (length l) ss (l ++ keys m) d (left_in f - 1) Hd) as H.
  destruct (read_key random (length l) (left_in f - 1) d) as [[k|e] d1]; [|by apply stopped_unread].
  destruct H as (Hu & Hfit & Hnew & Hd1 & Ht1). rewrite drop_app_length in Hnew. cbn [mret reads_ret left_in].
  split; [done|]. unfold got_with. cbn [left_in pend_keys pend_wire]. split_and!.
  - by rewrite bool_decide_eq_true_2.
  - lia.
  - unfold len_of in *. cbn [length] in *. lia.
  - done.
  - by apply Forall_singleton.
  - apply NoDup_app. split; [done|]. split; [|apply NoDup_singleton].
    intros x Hx Hx'. apply list_elem_of_singleton in Hx' as ->. done.
  - by eapply dtook_app.
  - by rewrite app_assoc.
Qed.

Lemma next_key_cases ss l n0 d0 f d : got ss l n0 d0 f d ->
  match next_key random f d with
  | (Ok (None, f'), d') => left_in f' = 0 /\ exists m, got_with ss l n0 d0 m None f' d'
  | (Ok (Some _, f'), d') => left_in f' = left_in f - 1 /\ exists m k, got_with ss l n0 d0 m (Some k) f' d'
  | (Err e, d') => unread e d'
  end.
Proof.
  intros (m & pk & Hg). unfold next_key. unfold mbind at 1. unfold reads_bind at 1.
  assert (Hplain : forall m f1 d1, left_in f1 = left_in f -> got_with ss l n0 d0 m None f1 d1 ->
    match (if left_in f1 =? 0 then mret (None, f1)
      else k ← read_key random (keys_start f1) (left_in f1 - 1);
        mret (Some k, MkProgress (left_in f1 - 1) true (keys_start f1))) d1 with
    | (Ok (None, f'), d') => left_in f' = 0 /\ exists m, got_with ss l n0 d0 m None f' d'
    | (Ok (Some _, f'), d') => left_in f' = left_in f - 1 /\ exists m k, got_with ss l n0 d0 m (Some k) f' d'
    | (Err e, d') => unread e d'
    end).
  { intros m1 f1 d1 El H1. pose proof (next_key_plain _ _ _ _ _ _ _ H1) as H.
    match goal with |- context [(if left_in f1 =? 0 then ?a else ?b) d1] =>
      destruct ((if left_in f1 =? 0 then a else b) d1) as [[[[k|] f2]|e] d2]; [| |done] end.
    - destruct H as [E H]. split; [lia|]. by exists m1, k.
    - destruct H as (-> & -> & E). split; [done|]. by exists m1. }
  destruct pk as [k|].
  - pose proof (skip_value_cases _ _ _ _ _ _ _ _ Hg) as H. pose proof Hg as (Ef & _).
    assert (pending f = true) as -> by (rewrite Ef; cbn [pending]; by rewrite bool_decide_eq_true_2).
    destruct (skip_value random f d) as [[f1|e] d1]; [|done]. destruct H as (El & v & H1). by eapply Hplain.
  - pose proof Hg as (Ef & _).
    assert (pending f = false) as -> by (rewrite Ef; cbn [pending]; by rewrite bool_decide_eq_false_2 by by intros []).
    by eapply Hplain.
Qed.

Lemma read_entries_cases (build : Plan -> Reads unit) es :
  Forall (on_value (λ p, builds (build p))) es ->
  forall ss l n0 d0 f d, got ss l n0 d0 f d ->
  match read_entries random build es f d with
  | (Ok f', d') => got ss l n0 d0 f' d'
  | (Err e, d') => unread e d'
  end.
Proof.
  induction 1 as [|e es He _ IH]; intros ss l n0 d0 f d Hg; cbn [read_entries]; [done|].
  unfold mbind at 1. unfold reads_bind at 1. pose proof (next_key_cases _ _ _ _ _ _ Hg) as H.
  destruct (next_key random f d) as [[[[k0|] f1]|x] d1]; [| |done].
  - destruct H as (_ & m & k & H1). destruct e as [p| |].
    + unfold mbind, reads_bind. pose proof H1 as (Ef & _ & _ & _ & _ & _ & _ & Hd1).
      pose proof (He _ _ d1 Hd1 (got_primed _ _ _ _ _ _ _ _ H1)) as Hb.
      destruct (build p d1) as [[[]|x] d2]; [|done]. destruct Hb as (v & Hv). apply IH.
      exists (m ++ [(k, v)]), None. rewrite Ef. cbn [left_in keys_start]. by eapply got_value.
    + unfold mbind, reads_bind. pose proof (skip_value_cases _ _ _ _ _ _ _ _ H1) as Hs.
      destruct (skip_value random f1 d1) as [[f2|x] d2]; [|done]. destruct Hs as (_ & v & Hs). apply IH.
      by exists (m ++ [(k, v)]), None.
    + apply IH. by exists m, (Some k).
  - destruct H as (_ & m & H1). by exists m, None.
Qed.

Lemma rest_entries_cases fuel : forall ss l n0 d0 f d, got ss l n0 d0 f d -> (Z.to_nat (left_in f) < fuel)%nat ->
  match rest_entries random fuel f d with
  | (Ok _, d') => exists m f', left_in f' = 0 /\ got_with ss l n0 d0 m None f' d'
  | (Err e, d') => unread e d'
  end.
Proof.
  induction fuel as [|fuel IH]; intros ss l n0 d0 f d Hg Hf; [lia|]. cbn [rest_entries].
  unfold mbind at 1. unfold reads_bind at 1. pose proof (next_key_cases _ _ _ _ _ _ Hg) as H.
  assert (Hl : 0 <= left_in f) by (destruct Hg as (m & pk & _ & Hl & _); exact Hl).
  destruct (next_key random f d) as [[[[k0|] f1]|x] d1]; [| |done].
  - destruct H as (El & m & k & H1). unfold mbind, reads_bind.
    pose proof (skip_value_cases _ _ _ _ _ _ _ _ H1) as Hs.
    destruct (skip_value random f1 d1) as [[f2|x] d2]; [|done]. destruct Hs as (El2 & v & Hs). apply IH.
    + by exists (m ++ [(k, v)]), None.
    + destruct H1 as (_ & Hl1 & _). lia.
  - destruct H as (E0 & m & H1). by exists m, f1.
Qed.

(** A container, read and closed. *)
Lemma in_container_cases at_ body ss l d n : good ss l d -> primed ss l -> 0 <= n ->
  forall (Q : bytes -> Prop),
  (forall d1, good ss l d1 -> reader d1 = reader d -> keys_len (dkeys d1) = length l ->
    match body (length l) d1 with
    | (Ok _, d') => exists b, Q b /\ dtook d1 b d' /\ (good ss l (put_keys (keys_truncate (length l) (dkeys d')) d'))
    | (Err e, d') => unread e d'
    end) ->
  match in_container at_ body d with
  | (Ok _, d') => exists b, Q b /\ dtook d b d' /\ good ss l d'
  | (Err e, d') => unread e d'
  end.
Proof.
  intros Hd Hp Hn Q H. unfold in_container.
  destruct (decide (MAX_DEPTH <= ddepth d)%nat).
  - destruct (fail_stopped (A := unit) (Nested at_) d (proj2 (proj2 (proj2 Hd)))) as (d' & -> & Ef).
    apply stopped_unread. split; [done|]. by rewrite Ef.
  - assert (El : keys_len (dkeys d) = length l) by (unfold keys_len; by rewrite (proj1 (proj1 Hd))).
    rewrite El. specialize (H (put_depth (S (ddepth d)) d)). supply H; [by eapply good_starts|].
    specialize (H eq_refl El). destruct (body (length l) (put_depth (S (ddepth d)) d)) as [[[]|e] d'].
    + destruct H as (b & Hb & [Ht Ed] & Hg). exists b. split; [done|]. split.
      * split; [done|]. cbn [ddepth put_depth put_keys] in *. rewrite Ed. simpl. lia.
      * by eapply good_starts; [..|exact Hg].
    + destruct H as (x & -> & Hx). by exists x.
Qed.

Lemma builder_cases takes d : builder takes d = ((if takes then Ok () else Err (Refuse (Unwanted "a value of another kind"))), d).
Proof. done. Qed.

(** Whatever the builder takes and leaves, a build that succeeds has taken the
    bytes of one value. *)
Lemma build_cases p : builds (build_ random p).
Proof.
  induction p as [items entries takes Hi He] using plan_ind'. intros ss l d Hd Hp. cbn [build_].
  unfold unless_failed. rewrite (proj2 (proj2 (proj2 Hd))). unfold mbind at 1 2. unfold reads_bind at 1 2, the_decoder.
  pose proof (token_cases ss l d Hd) as Ht. destruct (reading_ read_token d) as [[t|e] d1]; [|by apply stopped_unread].
  destruct Ht as (nd & -> & [_ Hnd] & Hd1 & Ht).
  assert (Hleaf : forall v, nd = Leaf v -> match builder takes d1 with
    | (Ok _, d') => exists v, passed_one ss l v d d' | (Err e, d') => unread e d' end).
  { intros v ->. rewrite builder_cases. destruct takes; [by exists v; split_and!|]. by eexists. }
  destruct nd as [v|c|c]; cbn [token_of]; [destruct v; by apply (Hleaf _ eq_refl)|..].
  - pose proof (in_container_cases (offset (reader d)) (λ _, n ← read_items (build_ random) items c;
      builder takes;; rest_items random (Z.to_nat n)) ss l d1 c Hd1 Hp ltac:(lia)
      (λ b, exists vs, len_of vs = c /\ Forall value_wf vs /\ b = concat (map wire vs))) as H.
    supply H.
    { intros d2 Hd2 Er El. unfold mbind, reads_bind.
      pose proof (read_items_cases (build_ random) items Hi c ss l d2 ltac:(lia) Hd2 Hp) as H1.
      destruct (read_items (build_ random) items c d2) as [[n|e] d3]; [|done].
      destruct H1 as (Hn & vs & Ec & Hvs & Ht3 & Hd3). rewrite builder_cases. destruct takes; [|by eexists].
      pose proof (rest_items_cases (Z.to_nat n) ss l d3 Hd3 Hp) as H2.
      destruct (rest_items random (Z.to_nat n) d3) as [[[]|e] d4]; [|done].
      destruct H2 as (vs' & El' & Hvs' & Ht4 & Hd4). exists (concat (map wire (vs ++ vs'))). split_and!.
      - exists (vs ++ vs'). split_and!; [unfold len_of in *; rewrite length_app; lia|by apply Forall_app|done].
      - rewrite map_app, concat_app. by eapply dtook_app.
      - by rewrite (skip_restores ss). }
    destruct (in_container _ _ d1) as [[[]|e] d']; [|done].
    destruct H as (b & (vs & <- & Hvs & ->) & Htb & Hd'). exists (VList vs). split; [|split; [|done]].
    + apply value_wf_list. split; [by apply fits_of|done].
    + rewrite wire_list. by apply (dtook_app _ (6 :: _) d1).
  - pose proof (in_container_cases (offset (reader d)) (λ start,
      f ← read_entries random (build_ random) entries (MkProgress c false start);
      builder takes;; rest_entries random (S (Z.to_nat (left_in f))) f) ss l d1 c Hd1 Hp ltac:(lia)
      (λ b, exists m, len_of m = c /\ Forall entry_wf m /\ NoDup (keys m) /\ b = concat (map entry_wire m))) as H.
    supply H.
    { intros d2 Hd2 Er El. unfold mbind, reads_bind.
      assert (Hg : got ss l c d2 (MkProgress c false (length l)) d2).
      { exists [], None. unfold got_with. cbn. rewrite !app_nil_r.
        destruct (good_open ss l d2 Hd2 Hp) as [Ho _]. split_and!; try done; [lia|constructor|].
        apply (dtook_nil d2), Hd2. }
      pose proof (read_entries_cases (build_ random) entries He ss l c d2 _ d2 Hg) as H1.
      destruct (read_entries _ _ entries _ d2) as [[f|e] d3]; [|done].
      rewrite builder_cases. destruct takes; [|by eexists].
      pose proof (rest_entries_cases (S (Z.to_nat (left_in f))) ss l c d2 f d3 H1 ltac:(lia)) as H2.
      destruct (rest_entries random _ f d3) as [[[]|e] d4]; [|done].
      destruct H2 as (m & f' & E0 & _ & _ & Hc & Hm & _ & Hnd' & Ht4 & Hd4). cbn [pend_keys pend_wire] in *.
      rewrite app_nil_r in Ht4, Hnd'. exists (concat (map entry_wire m)). split; [|split; [done|]].
      - exists m. split_and!; try done. unfold len_of in *. cbn [length] in *. lia.
      - apply good_truncate in Hd4. by rewrite take_app_length in Hd4. }
    destruct (in_container _ _ d1) as [[[]|e] d']; [|done].
    destruct H as (b & (m & <- & Hm & Hnd' & ->) & Htb & Hd'). exists (VMap m). split; [|split; [|done]].
    + apply value_wf_map. split; [by apply fits_of|]. by split.
    + rewrite wire_map. by apply (dtook_app _ (7 :: _) d1).
Qed.

(** ** A willing builder is given every value *)

Fixpoint willing (p : Plan) : Prop :=
  let '(MkPlan items entries takes) := p in
  (fix go (l : list Plan) : Prop := match l with [] => True | p :: l => willing p /\ go l end) items /\
  (fix go (l : list PlanEntry) : Prop :=
    match l with [] => True | e :: l => match e with ReadValue p => willing p | _ => True end /\ go l end) entries /\
  takes = true.

Lemma willing_spec items entries takes : willing (MkPlan items entries takes) <->
  Forall willing items /\ Forall (on_value willing) entries /\ takes = true.
Proof.
  cbn [willing].
  assert (H1 : forall l, (fix go (l : list Plan) : Prop := match l with [] => True | p :: l => willing p /\ go l end) l <->
    Forall willing l) by (induction l as [|p l IH]; [by split|]; by rewrite Forall_cons_iff, <- IH).
  assert (H2 : forall l, (fix go (l : list PlanEntry) : Prop :=
    match l with [] => True | e :: l => match e with ReadValue p => willing p | _ => True end /\ go l end) l <->
    Forall (on_value willing) l) by (induction l as [|p l IH]; [by split|]; by rewrite Forall_cons_iff, <- IH).
  by rewrite H1, H2.
Qed.

Definition gives (m : Reads unit) (v : Value) : Prop := forall ss l d tl, good ss l d -> primed ss l ->
  (ddepth d + vdepth v <= MAX_DEPTH)%nat -> wrest (reader d) = wire v ++ tl ->
  exists d', m d = (Ok (), d') /\ good ss l d' /\ dtook d (wire v) d' /\ wrest (reader d') = tl.

Lemma skip_gives v : value_wf v -> gives (skip random) v.
Proof. intros Hv ss l d tl Hd Hp _ E. by apply skip_takes. Qed.

Lemma vdepth_in v l : v ∈ l -> (vdepth v <= deepest l)%nat.
Proof. induction 1; simpl; lia. Qed.

Lemma read_items_gives (build : Plan -> Reads unit) ps :
  Forall (λ p, forall v, value_wf v -> gives (build p) v) ps -> forall vs ss l d tl,
  Forall value_wf vs -> good ss l d -> primed ss l -> (ddepth d + deepest vs <= MAX_DEPTH)%nat ->
  wrest (reader d) = concat (map wire vs) ++ tl ->
  exists vs1 vs2 d', vs = vs1 ++ vs2 /\ read_items build ps (len_of vs) d = (Ok (len_of vs2), d') /\
    good ss l d' /\ dtook d (concat (map wire vs1)) d' /\ wrest (reader d') = concat (map wire vs2) ++ tl.
Proof.
  induction 1 as [|p ps Hb _ IH]; intros vs ss l d tl Hvs Hd Hp Hdep E; cbn [read_items].
  { exists [], vs, d. split_and!; try done. apply dtook_nil, Hd. }
  destruct vs as [|v vs]; [exists [], [], d; split_and!; try done; apply dtook_nil, Hd|].
  apply Forall_cons_iff in Hvs as [Hv Hvs]. cbn [map concat] in E. rewrite <- app_assoc in E.
  rewrite (proj2 (Z.eqb_neq _ 0)) by (unfold len_of; simpl; lia). unfold mbind, reads_bind.
  cbn [deepest foldr] in Hdep. fold (deepest vs) in Hdep.
  destruct (Hb v Hv ss l d _ Hd Hp ltac:(lia) E) as (d1 & -> & Hd1 & Ht & E1).
  replace (len_of (v :: vs) - 1) with (len_of vs) by (unfold len_of; simpl; lia).
  destruct (IH vs ss l d1 tl Hvs Hd1 Hp ltac:(rewrite (proj2 Ht); lia) E1) as (vs1 & vs2 & d' & -> & E2 & Hd' & Ht' & E').
  exists (v :: vs1), vs2, d'. fold (read_items build). split_and!; try done. cbn [map concat]. by eapply dtook_app.
Qed.

Lemma rest_items_gives vs : Forall value_wf vs -> forall ss l d tl, good ss l d -> primed ss l ->
  wrest (reader d) = concat (map wire vs) ++ tl ->
  exists d', rest_items random (length vs) d = (Ok (), d') /\ good ss l d' /\
    dtook d (concat (map wire vs)) d' /\ wrest (reader d') = tl.
Proof.
  induction 1 as [|v vs Hv _ IH]; intros ss l d tl Hd Hp E; cbn [rest_items length].
  { exists d. split_and!; try done. apply dtook_nil, Hd. }
  cbn [map concat] in E. rewrite <- app_assoc in E. unfold mbind, reads_bind.
  destruct (skip_takes v ss l d _ Hv Hd Hp E) as (d1 & -> & Hd1 & Ht & E1).
  destruct (IH ss l d1 tl Hd1 Hp E1) as (d' & -> & Hd' & Ht' & E'). exists d'. split_and!; try done.
  cbn [map concat]. by eapply dtook_app.
Qed.

(** What a builder has before it in a map: a value under the key it read, and
    the entries after. *)
Definition value_wire (pv : option Value) : bytes := match pv with Some v => wire v | None => [] end.
Definition before_it (ss : list nat) (l : list bytes) (d0 : Decoder) (all tl : bytes) (pv : option Value)
    (m : list (bytes * Value)) (f : Progress) (d : Decoder) : Prop :=
  exists lc b, good (length l :: ss) lc d /\ take (length l) lc = l /\
    (match pv with Some v => value_wf v /\ primed (length l :: ss) lc | None => True end) /\
    f = MkProgress (len_of m) (bool_decide (is_Some pv)) (length l) /\ Forall entry_wf m /\ NoDup (keys m) /\
    (forall k, k ∈ keys m -> k ∉ drop (length l) lc) /\
    (ddepth d + Nat.max (match pv with Some v => vdepth v | None => 0 end) (deepest (map snd m)) <= MAX_DEPTH)%nat /\
    wrest (reader d) = value_wire pv ++ concat (map entry_wire m) ++ tl /\
    dtook d0 b d /\ b ++ value_wire pv ++ concat (map entry_wire m) = all.

Lemma value_given ss l d0 all tl v m f d (build : Reads unit) : before_it ss l d0 all tl (Some v) m f d -> gives build v ->
  exists d', build d = (Ok (), d') /\
    before_it ss l d0 all tl None m (MkProgress (left_in f) false (keys_start f)) d'.
Proof.
  intros (lc & b & Hd & El & [Hv Hp] & -> & Hm & Hnd & Hdis & Hdep & E & Ht & Eall) Hg. cbn [value_wire] in *.
  destruct (Hg _ _ d _ Hd Hp ltac:(lia) E) as (d' & Ed & Hd' & Ht' & E'). exists d'. split; [done|].
  exists lc, (b ++ wire v). cbn [left_in keys_start value_wire]. split_and!; try done.
  - rewrite (proj2 Ht'). lia.
  - by eapply dtook_app.
  - by rewrite <- app_assoc.
Qed.

Lemma skip_value_given ss l d0 all tl v m f d : before_it ss l d0 all tl (Some v) m f d ->
  exists f' d', skip_value random f d = (Ok f', d') /\ left_in f' = left_in f /\ before_it ss l d0 all tl None m f' d'.
Proof.
  intros Hb. pose proof Hb as (lc & b & _ & _ & [Hv _] & Ef & _).
  destruct (value_given _ _ _ _ _ _ _ _ _ (skip random) Hb (skip_gives v Hv)) as (d' & Ed & Hb').
  eexists _, d'. split; [|split; [|exact Hb']; done]. unfold skip_value.
  assert (pending f = true) as -> by (rewrite Ef; cbn [pending]; by rewrite bool_decide_eq_true_2).
  unfold mbind, reads_bind. by rewrite Ed.
Qed.

Lemma next_key_given ss l d0 all tl pv m f d : before_it ss l d0 all tl pv m f d ->
  match m with
  | [] => exists f' d', next_key random f d = (Ok (None, f'), d') /\ before_it ss l d0 all tl None [] f' d'
  | (k, v) :: m => exists f' d', next_key random f d = (Ok (Some k, f'), d') /\
      before_it ss l d0 all tl (Some v) m f' d'
  end.
Proof.
  intros Hb.
  assert (Hfirst : exists f' d', (if pending f then skip_value random f else mret f) d = (Ok f', d') /\
    before_it ss l d0 all tl None m f' d').
  { destruct pv as [v|].
    - assert (pending f = true) as -> by (destruct Hb as (? & ? & _ & _ & _ & -> & _); cbn [pending]; by rewrite bool_decide_eq_true_2).
      destruct (skip_value_given _ _ _ _ _ _ _ _ _ Hb) as (f' & d' & E & _ & H). by exists f', d'.
    - assert (pending f = false) as -> by (destruct Hb as (? & ? & _ & _ & _ & -> & _); cbn [pending]; by rewrite bool_decide_eq_false_2 by by intros []).
      by exists f, d. }
  destruct Hfirst as (f1 & d1 & Ef1 & Hb1). clear Hb.
  assert (En : next_key random f d = (if left_in f1 =? 0 then mret (None, f1)
    else k ← read_key random (keys_start f1) (left_in f1 - 1);
      mret (Some k, MkProgress (left_in f1 - 1) true (keys_start f1))) d1).
  { unfold next_key. by rewrite (reads_Ok _ _ _ _ _ Ef1). }
  pose proof Hb1 as (lc & b & Hd & El & _ & -> & Hm & Hnd & Hdis & Hdep & E & Ht & Eall). cbn [left_in keys_start] in En.
  destruct m as [|[k v] m]; rewrite En; [by eexists _, d1|].
  rewrite (proj2 (Z.eqb_neq _ 0)) by (unfold len_of; simpl; lia). unfold mbind, reads_bind.
  apply Forall_cons_iff in Hm as [(Hu & Hf & Hv) Hm]. apply NoDup_cons in Hnd as [Hk Hnd]. cbn [fst snd] in *.
  cbn [value_wire map concat app] in *. unfold entry_wire at 1 in E. unfold entry_wire at 1 in Eall. cbn [fst snd] in E, Eall. rewrite <- !app_assoc in E.
  replace (len_of ((k, v) :: m) - 1) with (len_of m) by (unfold len_of; simpl; lia).
  destruct (key_takes _ _ _ d1 (len_of m) k _ Hd Hu Hf (Hdis k ltac:(by left)) E) as (d2 & -> & Hd2 & Ht2 & E2).
  assert (Hs : (length l <= length lc)%nat) by (destruct Hd as ((_ & Hs & _) & _); exact Hs).
  eexists _, d2. split; [done|]. exists (lc ++ [k]), (b ++ key_wire k). cbn [deepest foldr map snd] in Hdep.
  fold (deepest (map snd m)) in Hdep. split_and!; try done.
  - by rewrite take_app_le.
  - simpl. rewrite length_app. simpl. lia.
  - intros k' Hk'. rewrite drop_app_le by done. rewrite elem_of_app, list_elem_of_singleton.
    intros [Hin| ->]; [|done]. apply (Hdis k'); [by right|done].
  - rewrite (proj2 Ht2). lia.
  - by eapply dtook_app.
  - rewrite <- Eall. cbn [value_wire]. by rewrite <- !app_assoc.
Qed.

Lemma read_entries_given (build : Plan -> Reads unit) es :
  Forall (on_value (λ p, forall v, value_wf v -> gives (build p) v)) es -> forall ss l d0 all tl pv m f d,
  before_it ss l d0 all tl pv m f d ->
  exists pv' m' f' d', read_entries random build es f d = (Ok f', d') /\ before_it ss l d0 all tl pv' m' f' d'.
Proof.
  induction 1 as [|e es He _ IH]; intros ss l d0 all tl pv m f d Hb; cbn [read_entries]; [by exists pv, m, f, d|].
  pose proof (next_key_given _ _ _ _ _ _ _ _ _ Hb) as H. fold (read_entries random build).
  unfold mbind at 1. unfold reads_bind at 1. destruct m as [|[k v] m].
  - destruct H as (f1 & d1 & -> & H1). by exists None, [], f1, d1.
  - destruct H as (f1 & d1 & -> & H1). destruct e as [p| |].
    + pose proof H1 as (lc & b & _ & _ & [Hv _] & _).
      destruct (value_given _ _ _ _ _ _ _ _ _ (build p) H1 (He v Hv)) as (d2 & E & H2).
      unfold mbind, reads_bind. rewrite E. by eapply IH.
    + destruct (skip_value_given _ _ _ _ _ _ _ _ _ H1) as (f2 & d2 & E & _ & H2).
      unfold mbind, reads_bind. rewrite E. by eapply IH.
    + by eapply IH.
Qed.

Lemma rest_entries_given m : forall fuel ss l d0 all tl pv f d, before_it ss l d0 all tl pv m f d ->
  (length m < fuel)%nat ->
  exists f' d', rest_entries random fuel f d = (Ok (), d') /\ before_it ss l d0 all tl None [] f' d'.
Proof.
  induction m as [|[k v] m IH]; intros fuel ss l d0 all tl pv f d Hb Hf; (destruct fuel as [|fuel]; [simpl in Hf; lia|]);
    cbn [rest_entries]; pose proof (next_key_given _ _ _ _ _ _ _ _ _ Hb) as (f1 & d1 & E & H1);
    unfold mbind at 1; unfold reads_bind at 1; rewrite E.
  - by exists f1, d1.
  - destruct (skip_value_given _ _ _ _ _ _ _ _ _ H1) as (f2 & d2 & E2 & _ & H2).
    unfold mbind, reads_bind. rewrite E2. apply (IH fuel _ _ _ _ _ None); [done|simpl in Hf; lia].
Qed.

Lemma container_given at_ body ss l d b tl : good ss l d -> primed ss l -> (ddepth d < MAX_DEPTH)%nat ->
  (forall d1, good ss l d1 -> ddepth d1 = S (ddepth d) -> reader d1 = reader d -> keys_len (dkeys d1) = length l ->
    exists d', body (length l) d1 = (Ok (), d') /\ dtook d1 b d' /\
      good ss l (put_keys (keys_truncate (length l) (dkeys d')) d') /\ wrest (reader d') = tl) ->
  exists d', in_container at_ body d = (Ok (), d') /\ good ss l d' /\ dtook d b d' /\ wrest (reader d') = tl.
Proof.
  intros Hd Hp Hdep H. unfold in_container. rewrite decide_False by lia.
  assert (El : keys_len (dkeys d) = length l) by (unfold keys_len; by rewrite (proj1 (proj1 Hd))). rewrite El.
  destruct (H (put_depth (S (ddepth d)) d)) as (d' & -> & [Ht Ed] & Hg & E); [by eapply good_starts|done..|].
  eexists. split; [done|]. split; [by eapply good_starts; [..|exact Hg]|]. split; [|done].
  split; [done|]. cbn [ddepth put_depth put_keys] in *. rewrite Ed. simpl. lia.
Qed.

Lemma build_gives p : willing p -> forall v, value_wf v -> gives (build_ random p) v.
Proof.
  induction p as [items entries takes Hi He] using plan_ind'. intros Hw v Hv ss l d tl Hd Hp Hdep E.
  apply willing_spec in Hw as (Hwi & Hwe & ->).
  assert (Hi' : Forall (λ p, forall v, value_wf v -> gives (build_ random p) v) items).
  { eapply Forall_impl; [exact (proj2 (Forall_and _ items) (conj Hi Hwi))|]. intros p [H1 H2]. by apply H1. }
  assert (He' : Forall (on_value (λ p, forall v, value_wf v -> gives (build_ random p) v)) entries).
  { eapply Forall_impl; [exact (proj2 (Forall_and _ entries) (conj He Hwe))|]. intros [] [H1 H2]; try done. exact (H1 H2). }
  cbn [build_]. unfold unless_failed. rewrite (proj2 (proj2 (proj2 Hd))).
  unfold mbind at 1 2. unfold reads_bind at 1 2, the_decoder.
  destruct (token_takes _ _ _ _ tl Hd Hv E) as (d1 & -> & Hd1 & Ht & E1).
  destruct v as [| |b|t|t|t|vs|m|n]; [..|done]; cbn [head_of token_of node_bytes body_of] in *;
    try (exists d1; split; [done|]; split; [done|]; split; [exact Ht|done]).
  - apply value_wf_list in Hv as [_ Hvs]. rewrite vdepth_list in Hdep. rewrite wire_list.
    destruct (container_given (offset (reader d)) (λ _, n ← read_items (build_ random) items (len_of vs);
      builder true;; rest_items random (Z.to_nat n)) ss l d1 (concat (map wire vs)) tl Hd1 Hp) as (d' & -> & Hd' & Ht' & E').
    + rewrite (proj2 Ht). lia.
    + intros d2 Hd2 Ed Er El. unfold mbind, reads_bind. rewrite <- Er in E1.
      destruct (read_items_gives (build_ random) items Hi' vs ss l d2 tl Hvs Hd2 Hp) as (vs1 & vs2 & d3 & -> & -> & Hd3 & Ht3 & E3).
      { rewrite Ed, (proj2 Ht). lia. }
      { done. }
      rewrite builder_cases. apply Forall_app in Hvs as [_ Hvs2].
      replace (Z.to_nat (len_of vs2)) with (length vs2) by (unfold len_of; lia).
      destruct (rest_items_gives vs2 Hvs2 ss l d3 tl Hd3 Hp E3) as (d4 & -> & Hd4 & Ht4 & E4).
      exists d4. split_and!; try done; [rewrite map_app, concat_app; by eapply dtook_app|by rewrite (skip_restores ss)].
    + exists d'. split_and!; try done. by apply (dtook_app _ (6 :: _) d1).
  - apply value_wf_map in Hv as (_ & Hnd & Hm). rewrite vdepth_map in Hdep. rewrite wire_map.
    destruct (container_given (offset (reader d)) (λ start,
      f ← read_entries random (build_ random) entries (MkProgress (len_of m) false start);
      builder true;; rest_entries random (S (Z.to_nat (left_in f))) f) ss l d1 (concat (map entry_wire m)) tl Hd1 Hp)
      as (d' & -> & Hd' & Ht' & E').
    + rewrite (proj2 Ht). lia.
    + intros d2 Hd2 Ed Er El. unfold mbind, reads_bind. rewrite <- Er in E1.
      assert (Hb : before_it ss l d2 (concat (map entry_wire m)) tl None m (MkProgress (len_of m) false (length l)) d2).
      { exists l, []. destruct (good_open ss l d2 Hd2 Hp) as [Ho _]. split_and!; try done.
        - by apply take_ge.
        - intros k _. rewrite drop_ge by done. by intros ?%elem_of_nil.
        - rewrite Ed, (proj2 Ht). lia.
        - apply dtook_nil, Hd2. }
      destruct (read_entries_given (build_ random) entries He' _ _ _ _ _ _ _ _ _ Hb) as (pv & m' & f & d3 & -> & H3).
      rewrite builder_cases.
      assert (Hlen : Z.to_nat (left_in f) = length m').
      { destruct H3 as (? & ? & _ & _ & _ & -> & _). cbn [left_in]. unfold len_of. lia. }
      destruct (rest_entries_given m' (S (Z.to_nat (left_in f))) _ _ _ _ _ _ _ _ H3) as (f4 & d4 & -> & H4); [lia|].
      destruct H4 as (lc & b & Hd4 & El4 & _ & _ & _ & _ & _ & _ & E4 & Ht4 & Eall). cbn in E4, Eall. rewrite app_nil_r in Eall.
      subst b. exists d4. split_and!; try done. apply good_truncate in Hd4. by rewrite El4 in Hd4.
    + exists d'. split_and!; try done. by apply (dtook_app _ (7 :: _) d1).
Qed.
End decoder.

Lemma good_new b : Forall is_byte b -> good [] [] (decoder_new b).
Proof. intros Hb. split_and!; try done. unfold reader_ok. simpl. lia. Qed.

(** ** Properties *)


