(* ===== verification/Encoded.v ===== *)
(** * Bytes that walk themselves

    [Encoded] of [value/wire/stream.rs]: wire bytes handed to a sink as they are
    read, with no tree built. The sink is reached through [Flat], which walks
    each element once, so where an element ends is where its walk stopped. *)

From S2P Require Import Prelude Errors Number Value Keys Maps Encode Decode Visit Encoder TreeSink Decoder DecoderLaws.

(** [unparsed]. *)
Definition unparsed (e : WireError) : ValueError :=
  match e with
  | Truncated at_ => Unparsed at_ "a node that is not cut short"
  | BadTag at_ _ => Unparsed at_ "a tag this build knows"
  | Overlong at_ => Unparsed at_ "a length in its shortest LEB128 form"
  | BadText at_ => Unparsed at_ "text that is UTF-8"
  | BadNumber at_ => Unparsed at_ "a number in the JSON number grammar"
  | NotABool at_ _ => Unparsed at_ "a bool byte of 0 or 1"
  | RepeatedKey at_ => Unparsed at_ "a key not repeated in its map"
  | Trailing at_ => Unparsed at_ "the end of the bytes"
  | Nested _ => TooDeep
  | _ => Unparsed 0 "the wire encoding"
  end.

Section encoded.
(** What the standard library's random state gives when seeds are drawn. *)
Variable random : Seeded.
Context {St : Type} `{HS : Sink St}.

(** The sink, and the keys of the maps above a node, which its walks share. *)
Definition Walking : Type := St * OpenKeys.
Definition to_sink (ev : Event) : Steps Walking unit := λ s,
  let '(x, st) := event ev s.1 in (x, (st, s.2)).
Definition of_bytes {A} (x : result (fault WireError) A) : Steps Walking A := λ s,
  (map_err (fault_map unparsed) x, s).

Definition keep_walk_key (start left_ from : nat) (k : bytes) : Steps Walking unit := λ s,
  match keys_insert random s.2 start k (Z.of_nat left_) with
  | Ok (true, ks) => (Ok (), (s.1, ks))
  | Ok (false, ks) => (Err (Refuse (unparsed (RepeatedKey from))), (s.1, ks))
  | Err e => (Err (fault_map unparsed e), s)
  end.

(** The keys of a map forgotten, whether or not its entries were all walked. *)
Definition forgetting {A} (start : nat) (m : Steps Walking A) : Steps Walking A := λ s,
  let '(x, s) := m s in (x, (s.1, keys_truncate start s.2)).

(** The elements of a list and the entries of a map that start at [from], each
    handed to the sink where the one before ended. *)
Definition walk_items (node : nat -> Steps Walking nat) : nat -> nat -> Steps Walking nat :=
  fix go n from :=
    match n with
    | O => mret from
    | S n => end_ ← node from; go n end_
    end.
Definition walk_entries (node : nat -> Steps Walking nat) (b : bytes) (start : nat) : nat -> nat -> Steps Walking nat :=
  fix go n from :=
    match n with
    | O => mret from
    | S left_ =>
        '(k, r) ← of_bytes (read_text (MkWireReader b from 0));
        keep_walk_key start left_ from k;;
        to_sink (EvKey k);;
        end_ ← node (at_ r);
        go left_ end_
    end.

(** [Node::walk]: the node that starts at [from], [depth] containers down; where
    it ends. [fuel] bounds the containers within containers. *)
Fixpoint walk_node (fuel : nat) (b : bytes) (depth from : nat) : Steps Walking nat :=
  match fuel with
  | O => λ s, (Err Panic, s)
  | S fuel =>
      '(token, r) ← of_bytes (read_token (MkWireReader b from 0));
      match token with
      | TkAbsent => to_sink EvAbsent;; mret (at_ r)
      | TkNull => to_sink EvNull;; mret (at_ r)
      | TkBool v => to_sink (EvBool v);; mret (at_ r)
      | TkNumber t => to_sink (EvNumber t);; mret (at_ r)
      | TkString t => to_sink (EvString t);; mret (at_ r)
      | TkBytes t => to_sink (EvBytes t);; mret (at_ r)
      | TkList count =>
          if decide (MAX_DEPTH <= depth)%nat then refuse (unparsed (Nested from))
          else
            to_sink (EvListBegin (Some count));;
            end_ ← walk_items (walk_node fuel b (S depth)) (Z.to_nat count) (at_ r);
            to_sink EvListEnd;; mret end_
      | TkMap count =>
          if decide (MAX_DEPTH <= depth)%nat then refuse (unparsed (Nested from))
          else
            s ← the_state;
            let start := keys_len s.2 in
            to_sink (EvMapBegin (Some count));;
            end_ ← forgetting start
              (walk_entries (walk_node fuel b (S depth)) b start (Z.to_nat count) (at_ r));
            to_sink EvMapEnd;; mret end_
      end
  end.

(** [Walk for Encoded]. *)
Definition walk_encoded (b : bytes) : Steps St unit := λ s,
  match walk_node (S MAX_DEPTH) b 0 0 (s, open_keys) with
  | (Ok end_, s) =>
      (if decide (end_ <> length b) then Err (Refuse (unparsed (Trailing end_))) else Ok (), s.1)
  | (Err e, s) => (Err e, s.1)
  end.

(** ** A value's bytes say what the value says *)

(** [m] does to the sink what [w] does, and answers [a], from keys that are [P]
    to keys that are [Q]. *)
Definition says {A} (P : OpenKeys -> Prop) (m : Steps Walking A) (w : Steps St unit) (a : A) (Q : OpenKeys -> Prop) : Prop :=
  forall s ks, P ks ->
    match w s with
    | (Ok _, s') => exists ks', m (s, ks) = (Ok a, (s', ks')) /\ Q ks'
    | (Err e, s') => exists ks', m (s, ks) = (Err e, (s', ks'))
    end.

Lemma says_bind {A B} P Q R (m : Steps Walking A) (f : A -> Steps Walking B) w w' a b :
  says P m w a Q -> says Q (f a) w' b R -> says P (m ≫= f) (w;; w') b R.
Proof.
  intros H1 H2 s ks Hk. specialize (H1 s ks Hk). unfold mbind, steps_bind.
  destruct (w s) as [[u|e] s1].
  - destruct H1 as (ks1 & -> & Hk1). apply (H2 s1 ks1 Hk1).
  - destruct H1 as (ks1 & ->). by exists ks1.
Qed.

Lemma says_quiet {A B} P Q R (m : Steps Walking A) (f : A -> Steps Walking B) w a b :
  says P m (mret ()) a Q -> says Q (f a) w b R -> says P (m ≫= f) w b R.
Proof.
  intros H1 H2 s ks Hk. destruct (H1 s ks Hk) as (ks1 & E & Hk1). specialize (H2 s ks1 Hk1).
  unfold mbind, steps_bind. by rewrite E.
Qed.

Lemma says_ext {A} P (m m' : Steps Walking A) w w' a Q : (forall s, m' s = m s) -> (forall s, w' s = w s) ->
  says P m w a Q -> says P m' w' a Q.
Proof. intros E1 E2 Hm s ks Hk. rewrite E2, E1. by apply Hm. Qed.

Lemma says_sink P ev : says P (to_sink ev) (event ev) () P.
Proof.
  intros s ks Hk. unfold to_sink. cbn [fst snd]. destruct (event ev s) as [[[]|e] s1]; [|by exists ks].
  by exists ks.
Qed.

Lemma says_ret {A} P (a : A) : says P (mret a) (mret ()) a P.
Proof. intros s ks Hk. by exists ks. Qed.

Lemma says_bytes {A} P (a : A) x : x = Ok a -> says P (of_bytes x) (mret ()) a P.
Proof. intros -> s ks Hk. by exists ks. Qed.

Lemma says_key ss l s k left_ from : k ∉ drop s l ->
  says (keys_ok (s :: ss) l) (keep_walk_key s left_ from k) (mret ()) () (keys_ok (s :: ss) (l ++ [k])).
Proof.
  intros Hk st ks Hks. destruct (insert_ok random s ss l ks k (Z.of_nat left_) Hks) as (ks' & E & Hks').
  rewrite (bool_decide_eq_false_2 _ Hk) in E, Hks'. exists ks'. split; [|done].
  unfold keep_walk_key. cbn [snd fst]. by rewrite E.
Qed.

Lemma says_forget {A} ss l lc s (m : Steps Walking A) w a : take s lc = l ->
  says (keys_ok (s :: ss) l) m w a (keys_ok (s :: ss) lc) ->
  says (keys_ok (s :: ss) l) (forgetting s m) w a (keys_ok ss l).
Proof.
  intros El Hm st ks Hk. specialize (Hm st ks Hk). unfold forgetting. destruct (w st) as [[u|e] s1].
  - destruct Hm as (ks1 & -> & Hk1). eexists. split; [done|]. apply truncate_ok in Hk1. by rewrite El in Hk1.
  - destruct Hm as (ks1 & ->). by eexists.
Qed.

(** A container's elements, without its begin and its end. *)
Fixpoint walk_all (l : list Value) (inside : nat) : Steps St unit :=
  match l with [] => mret () | x :: l => walk_deep x inside;; walk_all l inside end.
Fixpoint walk_pairs (m : list (bytes * Value)) (inside : nat) : Steps St unit :=
  match m with [] => mret () | x :: m => event (EvKey x.1);; (walk_deep x.2 inside;; walk_pairs m inside) end.

Lemma steps_assoc {S A B C} (m : Steps S A) (f : A -> Steps S B) (g : B -> Steps S C) s :
  ((m ≫= f) ≫= g) s = (m ≫= λ a, f a ≫= g) s.
Proof. unfold mbind, steps_bind. by destruct (m s) as [[a|e] s1]. Qed.

Lemma walk_deep_list l depth inside (s : St) : room depth = Ok inside ->
  walk_deep (VList l) depth s = (event (EvListBegin (Some (len_of l)));; (walk_all l inside;; event EvListEnd)) s.
Proof.
  intros Hr. unfold walk_deep. fold walk_deep. rewrite Hr. apply steps_ext; [done|]. intros _. clear Hr s.
  induction l as [|x l IH]; intros s; [done|]. cbn [walk_all]. rewrite steps_assoc. by apply steps_ext.
Qed.
Lemma walk_deep_map m depth inside (s : St) : room depth = Ok inside -> keys_are_text m = true ->
  walk_deep (VMap m) depth s = (event (EvMapBegin (Some (len_of m)));; (walk_pairs m inside;; event EvMapEnd)) s.
Proof.
  intros Hr Ht. unfold walk_deep. fold walk_deep. rewrite Hr, Ht. apply steps_ext; [done|]. intros _. clear Hr s Ht.
  induction m as [|x m IH]; intros s; [done|]. cbn [walk_pairs]. rewrite steps_assoc.
  apply steps_ext; [done|]. intros _ s1. rewrite steps_assoc. by apply steps_ext.
Qed.

Definition node_says (fuel : nat) (v : Value) (depth : nat) : Prop :=
  forall b from tl ss l, (from <= length b)%nat -> primed ss l -> drop from b = wire v ++ tl ->
  says (keys_ok ss l) (walk_node fuel b depth from) (walk_deep v depth) (from + length (wire v))%nat (keys_ok ss l).

Lemma rest_after (b p tl : bytes) from : (from <= length b)%nat -> drop from b = p ++ tl ->
  drop (from + length p) b = tl /\ (from + length p <= length b)%nat.
Proof.
  intros Hf E. split; [by rewrite <- drop_drop, E, drop_app_length|].
  apply (f_equal length) in E. rewrite length_drop, length_app in E. lia.
Qed.

Lemma items_say fuel inside vs : Forall (λ v, node_says fuel v inside) vs -> forall b from tl ss l,
  (from <= length b)%nat -> primed ss l -> drop from b = concat (map wire vs) ++ tl ->
  says (keys_ok ss l) (walk_items (walk_node fuel b inside) (length vs) from) (walk_all vs inside)
    (from + length (concat (map wire vs)))%nat (keys_ok ss l).
Proof.
  induction 1 as [|v vs Hv _ IH]; intros b from tl ss l Hf Hp E; cbn [length walk_items walk_all map concat].
  - rewrite Nat.add_0_r. apply says_ret.
  - cbn [map concat] in E. rewrite <- app_assoc in E. destruct (rest_after _ _ _ _ Hf E) as [E1 Hf1].
    eapply says_bind; [by apply (Hv b from _ ss l Hf Hp E)|]. rewrite length_app, Nat.add_assoc.
    by apply (IH b _ tl).
Qed.

Lemma wrest_at b from base0 : wrest (MkWireReader b from base0) = drop from b.
Proof. done. Qed.

Lemma entries_say fuel inside m : Forall (λ e, node_says fuel e.2 inside) m -> Forall entry_wf m -> NoDup (keys m) ->
  forall b from tl s ss l, (from <= length b)%nat -> (s <= length l)%nat -> (forall k, k ∈ keys m -> k ∉ drop s l) ->
  drop from b = concat (map entry_wire m) ++ tl ->
  says (keys_ok (s :: ss) l) (walk_entries (walk_node fuel b inside) b s (length m) from) (walk_pairs m inside)
    (from + length (concat (map entry_wire m)))%nat (keys_ok (s :: ss) (l ++ keys m)).
Proof.
  induction 1 as [|[k v] m Hv _ IH]; intros Hw Hnd b from tl s ss l Hf Hs Hdis E;
    cbn [length walk_entries walk_pairs].
  - cbn [map concat length]. rewrite Nat.add_0_r, app_nil_r. apply says_ret.
  - apply Forall_cons_iff in Hw as [(Hu & Hfit & _) Hw]. change (keys ((k, v) :: m)) with (k :: keys m) in *.
    apply NoDup_cons in Hnd as [Hk Hnd]. cbn [fst snd] in *.
    cbn [map concat] in E |- *. unfold entry_wire at 1 in E. cbn [fst snd] in E. rewrite <- !app_assoc in E.
    assert (Hr : reader_ok (MkWireReader b from 0)) by exact Hf.
    pose proof (text_takes (MkWireReader b from 0) k _ Hr Hfit Hu E) as Et.
    destruct (rest_after _ _ _ _ Hf E) as [E1 Hf1]. destruct (rest_after _ _ _ _ Hf1 E1) as [E2 Hf2].
    eapply says_quiet; [by apply says_bytes|]. cbn beta iota.
    eapply says_quiet; [apply says_key; apply Hdis; by left|].
    eapply says_bind; [apply says_sink|].
    eapply says_bind.
    { cbn [at_ wadv]. apply (Hv b _ (concat (map entry_wire m) ++ tl) (s :: ss) (l ++ [k]) Hf1); [|exact E1].
      simpl. rewrite length_app. simpl. lia. }
    replace (l ++ k :: keys m) with ((l ++ [k]) ++ keys m) by by rewrite <- app_assoc.
    unfold entry_wire at 1. cbn [fst snd]. rewrite !length_app, !Nat.add_assoc.
    apply (IH Hw Hnd b _ tl); [done|rewrite length_app; lia| |exact E2].
    intros k' Hk'. rewrite drop_app_le by done. rewrite elem_of_app, list_elem_of_singleton.
    intros [Hin| ->]; [|done]. apply (Hdis k'); [by right|done].
Qed.

Lemma says_refuse {A} P x (a : A) Q : says P (refuse x) (refuse x) a Q.
Proof. intros s ks Hk. by exists ks. Qed.

Lemma says_leaf P ev w (end_ end' : nat) : (forall s, w s = event ev s) -> end_ = end' ->
  says P (to_sink ev;; mret end_) w end' P.
Proof.
  intros Hw <-. apply (says_ext _ (to_sink ev;; mret end_) _ (event ev;; mret ())); [done| |].
  - intros s. rewrite Hw. unfold mbind, steps_bind. by destruct (event ev s) as [[[]|e] s1].
  - eapply says_bind; [apply says_sink|apply says_ret].
Qed.

Lemma says_end P Q ev (m : Steps Walking nat) w end_ : says P m w end_ Q ->
  says P (m ≫= λ e, to_sink ev;; mret e) (w;; event ev) end_ Q.
Proof. intros H1. eapply says_bind; [exact H1|]. by apply says_leaf. Qed.

Lemma says_state P (f : Walking -> Steps Walking nat) w end_ Q : (forall s ks, P ks -> says (λ k, k = ks) (f (s, ks)) w end_ Q) ->
  says P (the_state ≫= f) w end_ Q.
Proof. intros Hf s ks Hk. exact (Hf s ks Hk s ks eq_refl). Qed.

Lemma wf_says v : value_wf v -> forall fuel depth, (S MAX_DEPTH <= depth + fuel)%nat -> (0 < fuel)%nat -> node_says fuel v depth.
Proof.
  induction v as [| |b0|t|t|t|vs IH|m IH|n] using value_ind'; intros Hv fuel depth Hfuel Hpos b from tl ss l Hf Hp E; [..|done];
    (destruct fuel as [|fuel]; [lia|]); cbn [walk_node];
    assert (Hr : reader_ok (MkWireReader b from 0)) by exact Hf;
    pose proof (head_takes _ (MkWireReader b from 0) tl Hv Hr E) as Et;
    (eapply says_quiet; [apply says_bytes; rewrite read_token_node, Et; reflexivity|]);
    cbn [head_of token_of node_bytes at_ wadv].
  - by apply says_leaf.
  - by apply says_leaf.
  - by apply says_leaf.
  - destruct Hv as [Hn _]. apply says_leaf; [|done]. intros s. unfold walk_deep. by rewrite Hn.
  - destruct Hv as [Hn _]. apply says_leaf; [|done]. intros s. unfold walk_deep. by rewrite Hn.
  - by apply says_leaf.
  - apply value_wf_list in Hv as [Hfit Hvs]. pose proof (room_spec depth) as Hroom.
    destruct (decide (MAX_DEPTH <= depth)%nat) as [Hd|Hd].
    + rewrite decide_False in Hroom by lia. apply (says_ext _ (refuse TooDeep) _ (refuse TooDeep)); [done| |apply says_refuse].
      intros s. unfold walk_deep. by rewrite Hroom.
    + rewrite decide_True in Hroom by lia.
      apply (says_ext _ (to_sink (EvListBegin (Some (len_of vs)));;
        (walk_items (walk_node fuel b (S depth)) (Z.to_nat (len_of vs)) (from + length (6%Z :: leb (len_of vs)))%nat ≫=
          λ e, to_sink EvListEnd;; mret e)) _
        (event (EvListBegin (Some (len_of vs)));; (walk_all vs (S depth);; event EvListEnd))); [done| |].
      { intros s. by apply walk_deep_list. }
      eapply says_bind; [apply says_sink|]. apply says_end.
      rewrite wire_list in E |- *. change (6 :: leb (len_of vs) ++ concat (map wire vs)) with
        ((6 :: leb (len_of vs)) ++ concat (map wire vs)) in E |- *. rewrite <- app_assoc in E.
      destruct (rest_after _ _ _ _ Hf E) as [E1 Hf1]. rewrite length_app, Nat.add_assoc.
      replace (Z.to_nat (len_of vs)) with (length vs) by (unfold len_of; lia).
      apply (items_say fuel (S depth) vs) with (tl := tl); [|done..].
      eapply Forall_impl; [exact (proj2 (Forall_and _ vs) (conj IH Hvs))|]. intros x [Hx1 Hx2].
      apply Hx1; [done|lia|lia].
  - apply value_wf_map in Hv as (Hfit & Hnd & Hm). pose proof (room_spec depth) as Hroom.
    assert (Ht : keys_are_text m = true) by (apply keys_are_text_spec; eapply Forall_impl; [exact Hm|]; by intros ? []).
    destruct (decide (MAX_DEPTH <= depth)%nat) as [Hd|Hd].
    + rewrite decide_False in Hroom by lia. apply (says_ext _ (refuse TooDeep) _ (refuse TooDeep)); [done| |apply says_refuse].
      intros s. unfold walk_deep. by rewrite Ht, Hroom.
    + rewrite decide_True in Hroom by lia. apply says_state. intros s0 ks Hks. cbn [snd].
      assert (El : keys_len ks = length l) by (unfold keys_len; by rewrite (proj1 Hks)). rewrite El.
      assert (Hopen : keys_ok (length l :: ss) l ks) by by apply open_ok.
      apply (says_ext _ (to_sink (EvMapBegin (Some (len_of m)));;
        (forgetting (length l) (walk_entries (walk_node fuel b (S depth)) b (length l) (Z.to_nat (len_of m))
          (from + length (7%Z :: leb (len_of m)))%nat) ≫= λ e, to_sink EvMapEnd;; mret e)) _
        (event (EvMapBegin (Some (len_of m)));; (walk_pairs m (S depth);; event EvMapEnd))); [done| |].
      { intros s. by apply walk_deep_map. }
      eapply says_bind; [apply says_sink|]. apply says_end.
      rewrite wire_map in E |- *. change (7 :: leb (len_of m) ++ concat (map entry_wire m)) with
        ((7 :: leb (len_of m)) ++ concat (map entry_wire m)) in E |- *. rewrite <- app_assoc in E.
      destruct (rest_after _ _ _ _ Hf E) as [E1 Hf1]. rewrite length_app, Nat.add_assoc.
      replace (Z.to_nat (len_of m)) with (length m) by (unfold len_of; lia).
      pose proof (entries_say fuel (S depth) m) as He. supply He.
      { eapply Forall_impl; [exact (proj2 (Forall_and _ m) (conj IH Hm))|]. intros x [Hx1 (_ & _ & Hx2)].
        apply Hx1; [done|lia|lia]. }
      specialize (He Hm Hnd b _ tl (length l) ss l Hf1 ltac:(lia)). supply He.
      { intros k _. rewrite drop_ge by done. by intros ?%elem_of_nil. }
      specialize (He E1). intros s ks' ->. revert s ks Hks El Hopen.
      intros s ks _ _ Hopen. apply (says_forget ss l (l ++ keys m) (length l)); [by apply take_app_length|exact He|exact Hopen].
Qed.

(** ** and other bytes are refused. *)

Lemma steps_inv {S A B} (m : Steps S A) (f : A -> Steps S B) s b s' : (m ≫= f) s = (Ok b, s') ->
  exists a s1, m s = (Ok a, s1) /\ f a s1 = (Ok b, s').
Proof. unfold mbind, steps_bind. destruct (m s) as [[a|e] s1]; [eauto|done]. Qed.

Lemma of_bytes_inv {A} (x : result (fault WireError) A) s a s' : of_bytes x s = (Ok a, s') -> x = Ok a /\ s' = s.
Proof. unfold of_bytes. destruct x; intros H; [|done]. by injection H as -> ->. Qed.

Lemma to_sink_inv ev s s' : to_sink ev s = (Ok (), s') -> s'.2 = s.2.
Proof. unfold to_sink. destruct (event ev s.1) as [x st]. intros H. by injection H as _ <-. Qed.

(** Bytes read from [from] up to [end_]. *)
Definition spans_to (b : bytes) (from : nat) (p : bytes) (end_ : nat) : Prop :=
  end_ = (from + length p)%nat /\ (end_ <= length b)%nat /\ drop from b = p ++ drop end_ b.

Lemma spans_nil b from : (from <= length b)%nat -> spans_to b from [] from.
Proof. intros. split; [simpl; lia|]. by split. Qed.
Lemma spans_app b from p mid q end_ : spans_to b from p mid -> spans_to b mid q end_ -> spans_to b from (p ++ q) end_.
Proof.
  intros (-> & H1 & E1) (-> & H2 & E2). split; [rewrite length_app; lia|]. split; [done|].
  by rewrite E1, E2, <- app_assoc.
Qed.
Lemma spans_read b from p r : wtook (MkWireReader b from 0) p r -> spans_to b from p (at_ r) /\ wbytes r = b.
Proof.
  intros (-> & E & Hr). split; [|done]. split; [done|]. split; [exact Hr|]. exact E.
Qed.

Definition node_sound (b : bytes) (node : nat -> Steps Walking nat) : Prop := forall from ss l s ks end_ s' ks',
  (from <= length b)%nat -> primed ss l -> keys_ok ss l ks -> node from (s, ks) = (Ok end_, (s', ks')) ->
  keys_ok ss l ks' /\ exists v, value_wf v /\ spans_to b from (wire v) end_.

Lemma items_sound b node n : node_sound b node -> forall from ss l s ks end_ s' ks',
  (from <= length b)%nat -> primed ss l -> keys_ok ss l ks -> walk_items node n from (s, ks) = (Ok end_, (s', ks')) ->
  keys_ok ss l ks' /\ exists vs, length vs = n /\ Forall value_wf vs /\ spans_to b from (concat (map wire vs)) end_.
Proof.
  intros Hnode. induction n as [|n IH]; intros from ss l s ks end_ s' ks' Hf Hp Hk E; cbn [walk_items] in E.
  - injection E as <- <- <-. split; [done|]. exists []. split_and!; done || by apply spans_nil.
  - apply steps_inv in E as (mid & [s1 ks1] & E1 & E2).
    destruct (Hnode _ _ _ _ _ _ _ _ Hf Hp Hk E1) as (Hk1 & v & Hv & Hs1).
    destruct (IH _ _ _ _ _ _ _ _ (proj1 (proj2 Hs1)) Hp Hk1 E2) as (Hk2 & vs & <- & Hvs & Hs2).
    split; [done|]. exists (v :: vs). split_and!; try done; [by constructor|]. cbn [map concat]. by eapply spans_app.
Qed.

Lemma key_sound s ss l left_ from k st st' : keys_ok (s :: ss) l st.2 ->
  keep_walk_key s left_ from k st = (Ok (), st') -> (k ∉ drop s l) /\ keys_ok (s :: ss) (l ++ [k]) st'.2.
Proof.
  intros Hk E. destruct (insert_ok random s ss l st.2 k (Z.of_nat left_) Hk) as (ks' & Ei & Hks').
  unfold keep_walk_key in E. rewrite Ei in E. destruct (bool_decide (k ∈ drop s l)) eqn:Em; [done|].
  injection E as <-. by apply bool_decide_eq_false in Em.
Qed.

Lemma entries_sound b (Hb : Forall is_byte b) node n : node_sound b node -> forall from s ss l st ks end_ s' ks',
  (from <= length b)%nat -> (s <= length l)%nat -> keys_ok (s :: ss) l ks ->
  walk_entries node b s n from (st, ks) = (Ok end_, (s', ks')) ->
  exists m, length m = n /\ Forall entry_wf m /\ NoDup (keys m) /\ (forall k, k ∈ keys m -> (k ∉ drop s l)) /\
    keys_ok (s :: ss) (l ++ keys m) ks' /\ spans_to b from (concat (map entry_wire m)) end_.
Proof.
  intros Hnode. induction n as [|n IH]; intros from s ss l st ks end_ s' ks' Hf Hs Hk E; cbn [walk_entries] in E.
  - injection E as <- <- <-. exists []. unfold keys. cbn [map concat]. rewrite app_nil_r.
    split_and!; done || constructor || (by apply spans_nil) || by intros k ?%elem_of_nil.
  - apply steps_inv in E as ([k r] & s1 & E1 & E). apply of_bytes_inv in E1 as [E1 ->].
    apply steps_inv in E as ([] & s2 & E2 & E). apply steps_inv in E as ([] & s3 & E3 & E).
    apply steps_inv in E as (mid & [st4 ks4] & E4 & E).
    pose proof (text_spec (MkWireReader b from 0) Hf Hb) as Ht. rewrite E1 in Ht. destruct Ht as (Ht & Hu & Hl).
    destruct (spans_read _ _ _ _ Ht) as [Hspan _].
    apply (key_sound s ss l) in E2 as [Hnew Hk2]; [|done]. apply to_sink_inv in E3. rewrite <- E3 in Hk2.
    destruct s3 as [st3 ks3]. cbn [snd] in *.
    assert (Hs' : (s <= length (l ++ [k]))%nat) by (rewrite length_app; lia).
    assert (Hp' : primed (s :: ss) (l ++ [k])) by (simpl; rewrite length_app; simpl; lia).
    destruct (Hnode _ _ _ _ _ _ _ _ (proj1 (proj2 Hspan)) Hp' Hk2 E4)
      as (Hk4 & v & Hv & Hs4).
    destruct (IH _ _ _ _ _ _ _ _ _ (proj1 (proj2 Hs4)) Hs' Hk4 E)
      as (m & <- & Hm & Hnd & Hdis & Hk5 & Hs5).
    rewrite drop_app_le in Hdis by done. exists ((k, v) :: m).
    change (keys ((k, v) :: m)) with (k :: keys m). split_and!; try done.
    + constructor; [|done]. split_and!; try done. by apply fits_of.
    + constructor; [|done]. intros Hin. apply (Hdis k Hin), elem_of_app. right. by left.
    + intros k' [->|Hk']%elem_of_cons; [done|]. intros Hin. apply (Hdis k' Hk'), elem_of_app. by left.
    + by rewrite <- app_assoc in Hk5.
    + cbn [map concat]. unfold entry_wire at 1. eapply spans_app; [|exact Hs5]. by eapply spans_app.
Qed.

Lemma walk_node_sound b (Hb : Forall is_byte b) fuel : forall depth, node_sound b (walk_node fuel b depth).
Proof.
  induction fuel as [|fuel IH]; intros depth from ss l s ks end_ s' ks' Hf Hp Hk E; [done|]. cbn [walk_node] in E.
  apply steps_inv in E as ([t r] & s1 & E1 & E). apply of_bytes_inv in E1 as [E1 ->].
  rewrite read_token_node in E1. pose proof (node_spec (MkWireReader b from 0) Hf Hb) as Hn.
  destruct (read_node (MkWireReader b from 0)) as [[nd r']|]; [|done]. cbn [mbind result_bind] in E1.
  injection E1 as <- <-. destruct Hn as (Ht & _ & Hnd). destruct (spans_read _ _ _ _ Ht) as [Hspan _].
  assert (Hleaf : forall v ev, nd = Leaf v -> (to_sink ev;; mret (at_ r')) (s, ks) = (Ok end_, (s', ks')) ->
    keys_ok ss l ks' /\ exists v, value_wf v /\ spans_to b from (wire v) end_).
  { intros v ev -> E2. apply steps_inv in E2 as ([] & s2 & E2 & E3). apply to_sink_inv in E2.
    injection E3 as <- ->. cbn [snd] in E2. subst ks'. split; [done|]. by exists v. }
  destruct nd as [v|c|c]; cbn [token_of] in E; [destruct v; by eapply Hleaf|..]; clear Hleaf.
  - destruct (decide (MAX_DEPTH <= depth)%nat); [done|].
    apply steps_inv in E as ([] & [s2 ks2] & E2 & E). apply to_sink_inv in E2. cbn [snd] in E2. subst ks2.
    apply steps_inv in E as (mid & [s3 ks3] & E3 & E). apply steps_inv in E as ([] & s4 & E4 & E).
    apply to_sink_inv in E4. injection E as <- ->. cbn [snd] in E4. subst ks'.
    destruct (items_sound b _ _ (IH (S depth)) _ _ _ _ _ _ _ _ (proj1 (proj2 Hspan)) Hp Hk E3) as (Hk3 & vs & Hlen & Hvs & Hs3).
    assert (Hc : len_of vs = c) by (unfold len_of; lia). split; [done|]. exists (VList vs). split.
    + apply value_wf_list. split; [apply fits_of; by rewrite Hc|done].
    + rewrite wire_list, Hc. by apply (spans_app _ _ (6 :: leb c) (at_ r')).
  - destruct (decide (MAX_DEPTH <= depth)%nat); [done|].
    apply steps_inv in E as (s0 & s00 & E0 & E). injection E0 as <- <-. cbn [snd] in E.
    apply steps_inv in E as ([] & [s2 ks2] & E2 & E). apply to_sink_inv in E2. cbn [snd] in E2. subst ks2.
    apply steps_inv in E as (mid & [s3 ks3] & E3 & E). apply steps_inv in E as ([] & s4 & E4 & E).
    apply to_sink_inv in E4. injection E as <- ->. cbn [snd] in E4. subst ks'.
    unfold forgetting in E3. destruct (walk_entries _ b _ _ _ (s2, ks)) as [[e|] [s5 ks5]] eqn:E5; [|done].
    injection E3 as <- <- <-. assert (El : keys_len ks = length l) by (unfold keys_len; by rewrite (proj1 Hk)).
    rewrite El in E5 |- *. pose proof (open_ok ss l ks Hk Hp) as Hopen.
    destruct (entries_sound b Hb _ _ (IH (S depth)) _ _ _ _ _ _ _ _ _ (proj1 (proj2 Hspan)) ltac:(done) Hopen E5)
      as (m & Hlen & Hm & Hnd' & _ & Hk5 & Hs5).
    assert (Hc : len_of m = c) by (unfold len_of; lia). apply truncate_ok in Hk5. rewrite take_app_length in Hk5.
    split; [done|]. exists (VMap m). split.
    + apply value_wf_map. split; [apply fits_of; by rewrite Hc|by split].
    + rewrite wire_map, Hc. by apply (spans_app _ _ (7 :: leb c) (at_ r')).
Qed.

Lemma encoded_walks b v s : Forall is_byte b -> value_wf v -> wire v = b -> walk_encoded b s = walk v s.
Proof.
  intros Hb Hv <-. unfold walk_encoded, walk.
  pose proof (wf_says v Hv (S MAX_DEPTH) 0%nat ltac:(lia) ltac:(lia) (wire v) 0%nat [] [] [] ltac:(lia) I) as H.
  supply H; [by rewrite app_nil_r|]. specialize (H s open_keys ltac:(done)).
  destruct (walk_deep v 0 s) as [[[]|e] s'].
  - destruct H as (ks' & -> & _). cbn [fst]. by rewrite decide_False by (simpl; lia).
  - by destruct H as (ks' & ->).
Qed.

Lemma encoded_sound b s s' : Forall is_byte b -> walk_encoded b s = (Ok (), s') -> exists v, value_wf v /\ wire v = b.
Proof.
  intros Hb E. unfold walk_encoded in E.
  destruct (walk_node (S MAX_DEPTH) b 0 0 (s, open_keys)) as [[end_|e] [s1 ks1]] eqn:En; [|done].
  destruct (walk_node_sound b Hb (S MAX_DEPTH) 0%nat 0%nat [] [] s open_keys end_ s1 ks1 ltac:(lia) I ltac:(done) En)
    as (_ & v & Hv & (-> & _ & Eb)).
  destruct (decide (0 + length (wire v) <> length b)%nat) as [|Hend]; [done|]. exists v. split; [done|].
  rewrite drop_0 in Eb. rewrite drop_ge, app_nil_r in Eb by lia. done.
Qed.
End encoded.

(** ** Properties *)

(** Bytes walked into a sink, with no tree built, are the walk of the value
    they decode to: the same events in the same order, the same answer and the
    same state of the sink, where it refuses and where the value is too deep as
    well; and bytes that do not decode are never walked to an end. *)
Theorem encoded_is_the_value (random random' : Seeded) {St : Type} `{HS : Sink St} (b : bytes) (s : St)
    (Hb : Forall is_byte b) :
  match decode random' b with
  | Ok v => walk_encoded random b s = walk v s
  | Err _ => forall s', walk_encoded random b s <> (Ok (), s')
  end.
Proof.
  pose proof (decode_sound random' b 0 None Hb) as Hs. unfold decode, decode_at.
  destruct (decode_seeded random' b 0 None) as [v|e] eqn:Ed.
  - destruct Hs as [Hv Ew]. by apply encoded_walks.
  - intros s' E. apply encoded_sound in E as (v & Hv & Ew); [|done].
    pose proof (decode_wire random' v 0 None Hv) as Hd. rewrite Ew in Hd. specialize (Hd Hb). congruence.
Qed.

Lemma encoded_is_the_value_witness :
  build_walk (@walk_encoded (MkSeeded 1 2) _ (tree_sink (MkSeeded 5 6)) [6; 1; 1]) = Ok (VList [VNull]) /\
  forall s', @walk_encoded (MkSeeded 1 2) _ (tree_sink (MkSeeded 5 6)) [6; 1; 8] tree_new <> (Ok (), s').
Proof.
  split.
  - pose proof (encoded_is_the_value (MkSeeded 1 2) (MkSeeded 3 4) (HS := tree_sink (MkSeeded 5 6)) [6; 1; 1] tree_new
      ltac:(repeat constructor; discriminate)) as H. vm_compute in H. unfold build_walk.
    vm_compute. reflexivity.
  - pose proof (encoded_is_the_value (MkSeeded 1 2) (MkSeeded 3 4) (HS := tree_sink (MkSeeded 5 6)) [6; 1; 8] tree_new
      ltac:(repeat constructor; discriminate)) as H.
    replace (decode (MkSeeded 3 4) [6; 1; 8]) with (@Err (fault WireError) Value (Refuse (BadTag 2 8))) in H
      by (vm_compute; reflexivity). exact H.
Defined.

(** Bytes are their own re-encoding: walked into the encoder they are
    written back as they are where they decode and are no deeper than a walk
    follows, and refused everywhere else. *)
Theorem reencoding_is_identity (random random' random'' : Seeded) (b base : bytes) (Hb : Forall is_byte b) :
  match decode random'' b with
  | Ok v =>
      encode_walk (@walk_encoded random' _ (encoder_sink random) b) base =
        if decide (vdepth v <= MAX_DEPTH)%nat then Ok (base ++ b) else Err (Refuse TooDeep)
  | Err _ => forall out, encode_walk (@walk_encoded random' _ (encoder_sink random) b) base <> Ok out
  end.
Proof.
  pose proof (decode_sound random'' b 0 None Hb) as Hs. unfold decode, decode_at.
  destruct (decode_seeded random'' b 0 None) as [v|e] eqn:Ed.
  - destruct Hs as [Hv Ew]. pose proof (encode_of_spec random v base Hv) as He. unfold encode_of, encode_walk in *.
    rewrite (encoded_walks random' b v _ Hb Hv Ew). by rewrite He, Ew.
  - intros out' E. unfold encode_walk in E.
    destruct (walk_encoded random' b (encoder_new base)) as [[[]|x] e'] eqn:Ee; [|done].
    apply encoded_sound in Ee as (v & Hv & Ew); [|done].
    pose proof (decode_wire random'' v 0 None Hv) as Hd. rewrite Ew in Hd. specialize (Hd Hb). congruence.
Qed.

Lemma reencoding_is_identity_witness :
  encode_walk (@walk_encoded (MkSeeded 1 2) _ (encoder_sink (MkSeeded 3 4)) [7; 1; 1; 97; 6; 1; 1]) [9] =
    Ok [9; 7; 1; 1; 97; 6; 1; 1].
Proof.
  pose proof (reencoding_is_identity (MkSeeded 3 4) (MkSeeded 1 2) (MkSeeded 5 6) [7; 1; 1; 97; 6; 1; 1] [9]
    ltac:(repeat constructor; discriminate)) as H.
  replace (decode (MkSeeded 5 6) [7; 1; 1; 97; 6; 1; 1])
    with (@Ok (fault WireError) _ (VMap [(bs "a", VList [VNull])])) in H by (vm_compute; reflexivity).
  exact H.
Defined.
