(* ===== verification/JsonNumber.v ===== *)
(** * Numbers as they are written

    The exact reading of a number's text in [schema/validate.rs]: the parts it is
    written in, [Decimal], and the order and wholeness the bounds of a schema
    are decided by, against the number the text denotes. *)

From S2P Require Import Prelude Decimal Errors Reader Number.

(** ** Taking a text apart *)

(** [str::strip_prefix] of one byte, and [str::find] of the first byte of a
    class, with what is before and after it. *)
Definition strip_byte (b : byte) (l : bytes) : option bytes :=
  match l with c :: l => if c =? b then Some l else None | [] => None end.
Fixpoint split_first (p : byte -> bool) (l : bytes) : option (bytes * bytes) :=
  match l with
  | [] => None
  | c :: l =>
      if p c then Some ([], l)
      else match split_first p l with Some (a, b) => Some (c :: a, b) | None => None end
  end.

(** What [decimal] takes a number's text apart into. *)
Record Parts := MkParts {
  minus : bool; whole : bytes; fraction : bytes; exp_minus : bool; exp_digits : bytes }.

Definition is_exp_mark (b : byte) : bool := (b =? 101) || (b =? 69).
Definition parts_of (text : bytes) : Parts :=
  let '(negative, rest) :=
    match strip_byte 45 text with Some rest => (true, rest) | None => (false, text) end in
  let '(mantissa, written) :=
    match split_first is_exp_mark rest with Some (m, w) => (m, w) | None => (rest, []) end in
  let '(exponent_negative, exponent_digits) :=
    match written with
    | b :: w => if b =? 45 then (true, w) else if b =? 43 then (false, w) else (false, written)
    | [] => (false, written)
    end in
  let '(whole, fraction) :=
    match split_first (λ b, b =? 46) mantissa with Some (w, f) => (w, f) | None => (mantissa, []) end in
  MkParts negative whole fraction exponent_negative exponent_digits.

(** ** [Decimal] *)

Record Decimal := MkDecimal { negative : bool; digits_ : bytes; exponent : Z }.

Definition EXPONENT_CLAMP : Z := Z.shiftl 1 40.

(** [digits.iter().take_while(|d| **d == b'0').count()], and the zeros popped
    off the end. *)
Fixpoint leading_zeros (ds : bytes) : nat :=
  match ds with b :: ds => if b =? 48 then S (leading_zeros ds) else O | [] => O end.
Definition pop_zeros (ds : bytes) : bytes := rev (drop (leading_zeros (rev ds)) (rev ds)).

(** The exponent's digits, clamped as they are read. *)
Definition clamped (ds : bytes) : Z := foldl (λ e b, Z.min (e * 10 + (b - 48)) EXPONENT_CLAMP) 0 ds.

Definition decimal (text : bytes) : option Decimal :=
  if is_number text then
    let p := parts_of text in
    let e := clamped (exp_digits p) in
    let e := if exp_minus p then - e else e in
    let ds := whole p ++ fraction p in
    let leading := leading_zeros ds in
    let ds := pop_zeros (drop leading ds) in
    Some (MkDecimal (minus p && negb (bool_decide (ds = []))) ds
      (e + Z.of_nat (length (whole p)) - Z.of_nat leading))
  else None.

(** ** The order of two numbers *)

(** [Vec<u8>::cmp], [Ordering::then_with] and [Ordering::reverse]. *)
Fixpoint bytes_cmp (a b : bytes) : comparison :=
  match a, b with
  | [], [] => Eq
  | [], _ :: _ => Lt
  | _ :: _, [] => Gt
  | x :: a, y :: b => match x ?= y with Eq => bytes_cmp a b | c => c end
  end.
Definition sign_of (d : Decimal) : Z :=
  match digits_ d with [] => 0 | _ => if negative d then -1 else 1 end.

Definition compare (a b : bytes) : option comparison :=
  match decimal a, decimal b with
  | Some a, Some b =>
      let by_sign := sign_of a ?= sign_of b in
      if bool_decide (by_sign <> Eq) || (sign_of a =? 0) then Some by_sign
      else
        let magnitude :=
          match exponent a ?= exponent b with Eq => bytes_cmp (digits_ a) (digits_ b) | c => c end in
        Some (if negative a then CompOpp magnitude else magnitude)
  | _, _ => None
  end.

(** [is_whole]. *)
Definition is_whole (text : bytes) : bool :=
  match decimal text with
  | Some d => Z.of_nat (length (digits_ d)) <=? exponent d
  | None => false
  end.

(** ** What a text denotes

    [m * 10 ^ e], exactly. *)

Definition written (text : bytes) (p : Parts) : Prop :=
  exists f x, text = (if minus p then bs "-" else []) ++ whole p ++ f ++ x /\
    int_text (whole p) /\
    ((f = [] /\ fraction p = []) \/ (f = bs "." ++ fraction p /\ digits (fraction p) /\ fraction p <> [])) /\
    ((x = [] /\ exp_minus p = false /\ exp_digits p = []) \/
     (exists c s, x = c :: s ++ exp_digits p /\ (c = 101 \/ c = 69) /\
       (if exp_minus p then s = bs "-" else s = [] \/ s = bs "+") /\
       digits (exp_digits p) /\ exp_digits p <> [])).

Definition parts_value (p : Parts) : Z * Z :=
  let m := num (whole p ++ fraction p) in
  let e := num (exp_digits p) in
  (if minus p then - m else m, (if exp_minus p then - e else e) - Z.of_nat (length (fraction p))).
Definition number_value (text : bytes) : Z * Z := parts_value (parts_of text).

(** The order of [m * 10 ^ e] and [m' * 10 ^ e']. *)
Definition value_cmp (a b : Z * Z) : comparison :=
  let k := Z.min a.2 b.2 in a.1 * 10 ^ (a.2 - k) ?= b.1 * 10 ^ (b.2 - k).

(** The exponent is one the clamp leaves alone. *)
Definition exponent_in_range (text : bytes) : Prop := num (exp_digits (parts_of text)) <= EXPONENT_CLAMP.

Example compare_ex : compare (bs "1.0e2") (bs "100") = Some Eq /\ compare (bs "-2") (bs "-10.5") = Some Gt /\
  compare (bs "0.99") (bs "1") = Some Lt.
Proof. vm_compute. done. Qed.
Example whole_ex : map is_whole [bs "1.0"; bs "1.5"; bs "150e-1"; bs "0"] = [true; false; true; true].
Proof. vm_compute. done. Qed.

(** ** The parts are what the grammar reads *)

Lemma split_first_None p l : Forall (λ b, p b = false) l -> split_first p l = None.
Proof. induction 1 as [|b l Hb _ IH]; [done|]. simpl. by rewrite Hb, IH. Qed.

Lemma split_first_Some p a b l : Forall (λ b, p b = false) a -> p b = true ->
  split_first p (a ++ b :: l) = Some (a, l).
Proof. intros Ha Hb. induction Ha as [|x a Hx _ IH]; simpl; [by rewrite Hb|by rewrite Hx, IH]. Qed.

Lemma digits_not p l : (forall b, p b = true -> is_digit b = false) -> digits l -> Forall (λ b, p b = false) l.
Proof.
  intros H Hl. eapply Forall_impl; [exact Hl|]. intros b Hb. destruct (p b) eqn:E; [|done].
  apply H in E. cbv beta in Hb. congruence.
Qed.

Lemma exp_mark_not_digit b : is_exp_mark b = true -> is_digit b = false.
Proof. unfold is_exp_mark, is_digit. intros H. bprop H. rewrite andb_false_iff, !Z.leb_gt. lia. Qed.
Lemma point_not_digit b : (b =? 46) = true -> is_digit b = false.
Proof. intros H. bprop H. by subst. Qed.

Lemma int_text_digits l : int_text l -> digits l.
Proof.
  intros [->|(d & ds & -> & Hd & Hds)]; [by repeat constructor|].
  constructor; [apply is_digit_spec; lia|done].
Qed.

Lemma strip_minus (neg : bool) i l : int_text i ->
  match strip_byte 45 ((if neg then bs "-" else []) ++ i ++ l) with
  | Some rest => (true, rest)
  | None => (false, (if neg then bs "-" else []) ++ i ++ l)
  end = (neg, i ++ l).
Proof.
  intros Hi. destruct neg; [done|]. destruct Hi as [->|(d & ds & -> & Hd & _)]; [done|].
  simpl. destruct (Z.eqb_spec d 45); [lia|done].
Qed.

Lemma written_parts text p : written text p -> parts_of text = p.
Proof.
  intros (f & x & -> & Hi & Hf & Hx). unfold parts_of. rewrite (strip_minus _ _ _ Hi).
  pose proof (int_text_digits _ Hi) as Hd.
  assert (HM : Forall (λ b, is_exp_mark b = false) (whole p ++ f)).
  { apply Forall_app. split; [by apply (digits_not _ _ exp_mark_not_digit)|].
    destruct Hf as [[-> _]|(-> & Hfd & _)]; [done|]. constructor; [done|].
    by apply (digits_not _ _ exp_mark_not_digit). }
  assert (HF : match split_first (λ b, b =? 46) (whole p ++ f) with
    | Some (w, f0) => (w, f0) | None => (whole p ++ f, []) end = (whole p, fraction p)).
  { destruct Hf as [[-> ->]|(-> & _ & _)].
    - rewrite app_nil_r, split_first_None; [done|]. by apply (digits_not _ _ point_not_digit).
    - change (bs "." ++ fraction p) with (46 :: fraction p).
      by rewrite split_first_Some by (first [by apply (digits_not _ _ point_not_digit)|done]). }
  destruct Hx as [(-> & He & Hed)|(c & s & -> & Hc & Hs & Hed & Hne)].
  - rewrite app_nil_r, split_first_None, HF by done. destruct p; simpl in *. by subst.
  - rewrite app_assoc, split_first_Some by (first [done|by destruct Hc as [->| ->]]). rewrite HF.
    destruct p as [neg w fr en ed]; simpl in *. destruct en.
    + by subst s.
    + destruct Hs as [->| ->]; [|done]. destruct ed as [|d ed]; [done|]. simpl.
      inversion Hed as [|? ? Hd' _]; subst. apply is_digit_spec in Hd'.
      destruct (Z.eqb_spec d 45); [lia|]. by destruct (Z.eqb_spec d 43); [lia|].
Qed.

Lemma json_number_written text : json_number text -> exists p, written text p.
Proof.
  intros (m & i & f & x & -> & Hm & Hi & Hf & Hx).
  exists (MkParts (match m with [] => false | _ => true end) i (match f with _ :: ds => ds | [] => [] end)
    (match x with _ :: b :: _ => b =? 45 | _ => false end)
    (match x with _ :: b :: ds => if (b =? 45) || (b =? 43) then ds else b :: ds | _ => [] end)).
  exists f, x. split; [|split; [done|split]].
  - by destruct Hm as [->| ->].
  - destruct Hf as [->|(ds & -> & Hds & Hne)]; [by left|by right].
  - destruct Hx as [->|(c & s & ds & -> & Hc & Hs & Hds & Hne)]; [by left|right].
    exists c, s. destruct Hs as [->|[->| ->]]; [|by simpl; split_and!; auto..].
    destruct ds as [|d ds]; [done|]. inversion Hds as [|? ? Hd _]; subst. apply is_digit_spec in Hd.
    simpl. destruct (Z.eqb_spec d 45); [lia|]. destruct (Z.eqb_spec d 43); [lia|]. simpl. split_and!; auto.
Qed.

(** What [parts_of] answers for a number is how it is written, and nothing else
    is. *)
Lemma parts_of_written text : json_number text -> written text (parts_of text).
Proof. intros H. destruct (json_number_written _ H) as [p Hp]. by rewrite (written_parts _ _ Hp). Qed.

(** ** The order of scaled integers *)

Lemma value_cmp_at a b k : k <= a.2 -> k <= b.2 ->
  value_cmp a b = (a.1 * 10 ^ (a.2 - k) ?= b.1 * 10 ^ (b.2 - k)).
Proof.
  intros Ha Hb. unfold value_cmp. set (m := Z.min a.2 b.2).
  assert (Hm : k <= m) by (unfold m; lia).
  replace (a.2 - k) with ((a.2 - m) + (m - k)) by lia. replace (b.2 - k) with ((b.2 - m) + (m - k)) by lia.
  rewrite !Z.pow_add_r, !Z.mul_assoc by (unfold m; lia). apply Zmult_compare_compat_r.
  apply Z.lt_gt, Z.pow_pos_nonneg; lia.
Qed.

(** Scaling one side by a power of ten it gives up in its exponent. *)
Definition same_value (a b : Z * Z) : Prop :=
  exists t, 0 <= t /\ a.1 = b.1 * 10 ^ t /\ b.2 = a.2 + t.

Lemma same_value_cmp a a' b b' : same_value a a' -> same_value b b' -> value_cmp a b = value_cmp a' b'.
Proof.
  intros (t & Ht & Ea & Eat) (u & Hu & Eb & Ebu). set (k := Z.min a.2 b.2).
  rewrite (value_cmp_at a b k), (value_cmp_at a' b' k) by (unfold k; lia).
  rewrite Ea, Eb, Eat, Ebu, <- !Z.mul_assoc, <- !Z.pow_add_r by (unfold k; lia).
  f_equal; f_equal; f_equal; lia.
Qed.

Lemma value_cmp_opp m e n f : value_cmp (- m, e) (- n, f) = CompOpp (value_cmp (m, e) (n, f)).
Proof. unfold value_cmp. simpl. rewrite !Z.mul_opp_l, <- Z.compare_opp, !Z.opp_involutive. apply Z.compare_antisym. Qed.

Lemma pow10_pos k : 0 <= k -> 0 < 10 ^ k.
Proof. intros. by apply Z.pow_pos_nonneg. Qed.

Lemma value_cmp_sign a b : (a.1 < 0 <= b.1 \/ a.1 <= 0 < b.1) -> value_cmp a b = Lt.
Proof.
  intros H. unfold value_cmp. apply Z.compare_lt_iff.
  pose proof (pow10_pos (a.2 - Z.min a.2 b.2) ltac:(lia)). pose proof (pow10_pos (b.2 - Z.min a.2 b.2) ltac:(lia)).
  nia.
Qed.
Lemma value_cmp_antisym a b : value_cmp b a = CompOpp (value_cmp a b).
Proof. unfold value_cmp. rewrite (Z.min_comm b.2). apply Z.compare_antisym. Qed.

(** ** Digits without a leading or a trailing zero *)

Record trimmed (ds : bytes) : Prop := {
  trimmed_digits : digits ds;
  trimmed_head : head ds <> Some 48;
  trimmed_last : last ds <> Some 48 }.

Lemma num_pos_last ds : digits ds -> last ds <> Some 48 -> ds <> [] -> 0 < num ds.
Proof.
  intros Hd Hl Hne. destruct ds as [|b ds _] using rev_ind; [done|]. rewrite last_snoc in Hl.
  apply digits_app in Hd as [Hd Hb]. inversion Hb as [|? ? Hb' _]; subst. apply is_digit_spec in Hb'.
  rewrite num_app. pose proof (num_bound _ Hd). unfold num, num_from in *. simpl in *.
  assert (b <> 48) by congruence. lia.
Qed.

Lemma num_head_bound d ds : digits (d :: ds) -> d <> 48 -> 10 ^ Z.of_nat (length ds) <= num (d :: ds).
Proof.
  intros H Hd. inversion H as [|? ? Hb Hds]; subst. apply is_digit_spec in Hb. rewrite num_cons.
  pose proof (num_bound _ Hds). nia.
Qed.

(** Compared byte by byte, digits after the point are compared as numbers. *)
Lemma bytes_cmp_num a : forall b n, digits a -> digits b -> last a <> Some 48 -> last b <> Some 48 ->
  (length a <= n)%nat -> (length b <= n)%nat ->
  (num a * 10 ^ Z.of_nat (n - length a) ?= num b * 10 ^ Z.of_nat (n - length b)) = bytes_cmp a b.
Proof.
  induction a as [|x a IH]; intros [|y b] n Ha Hb La Lb Na Nb; [done|..].
  - pose proof (num_pos_last _ Hb Lb ltac:(done)). pose proof (pow10_pos (Z.of_nat (n - length (y :: b))) ltac:(lia)).
    change (num []) with 0. change (bytes_cmp [] (y :: b)) with Lt. apply Z.compare_lt_iff. nia.
  - pose proof (num_pos_last _ Ha La ltac:(done)). pose proof (pow10_pos (Z.of_nat (n - length (x :: a))) ltac:(lia)).
    change (num []) with 0. change (bytes_cmp (x :: a) []) with Gt. apply Z.compare_gt_iff. nia.
  - destruct n as [|n]; [simpl in Na; lia|]. cbn [length Nat.sub] in *.
    inversion Ha as [|? ? Hx Ha']; inversion Hb as [|? ? Hy Hb']; subst.
    apply is_digit_spec in Hx, Hy. rewrite !num_cons, !Z.mul_add_distr_r, <- !Z.mul_assoc, <- !Z.pow_add_r by lia.
    replace (Z.of_nat (length a) + Z.of_nat (n - length a)) with (Z.of_nat n) by lia.
    replace (Z.of_nat (length b) + Z.of_nat (n - length b)) with (Z.of_nat n) by lia.
    assert (forall l, digits l -> (length l <= n)%nat ->
      0 <= num l * 10 ^ Z.of_nat (n - length l) < 10 ^ Z.of_nat n) as Hlt.
    { intros l Hl Hn. pose proof (num_bound _ Hl). pose proof (pow10_pos (Z.of_nat (n - length l)) ltac:(lia)).
      replace (Z.of_nat n) with (Z.of_nat (length l) + Z.of_nat (n - length l)) by lia.
      rewrite Z.pow_add_r by lia. nia. }
    pose proof (Hlt a Ha' ltac:(lia)). pose proof (Hlt b Hb' ltac:(lia)). pose proof (pow10_pos (Z.of_nat n) ltac:(lia)).
    cbn [bytes_cmp]. destruct (Z.compare_spec x y) as [->|Hlt'|Hgt'].
    + rewrite Zcompare_plus_compat. apply IH; auto; [destruct a|destruct b|lia|lia]; done.
    + apply Z.compare_lt_iff. nia.
    + apply Z.compare_gt_iff. nia.
Qed.

(** The order of two magnitudes [0.ds * 10 ^ e]. *)
Lemma magnitude_cmp a b e f : trimmed a -> trimmed b -> a <> [] -> b <> [] ->
  value_cmp (num a, e - Z.of_nat (length a)) (num b, f - Z.of_nat (length b)) =
  match e ?= f with Eq => bytes_cmp a b | c => c end.
Proof.
  intros Ta Tb Hna Hnb.
  assert (Hlt : forall a b e f, trimmed a -> trimmed b -> a <> [] -> b <> [] -> e < f ->
    value_cmp (num a, e - Z.of_nat (length a)) (num b, f - Z.of_nat (length b)) = Lt).
  { clear. intros a b e f [Da _ _] [Db Hb _] _ Hnb He.
    set (k := Z.min (e - Z.of_nat (length a)) (f - Z.of_nat (length b))).
    rewrite (value_cmp_at _ _ k) by (simpl; unfold k; lia). simpl. apply Z.compare_lt_iff.
    destruct b as [|d b]; [done|]. pose proof (num_head_bound d b Db ltac:(by intros ->)) as H1.
    pose proof (num_bound _ Da) as H2. cbn [length] in *.
    assert (10 ^ Z.of_nat (length a) * 10 ^ (e - Z.of_nat (length a) - k) = 10 ^ (e - k)) as E1
      by (rewrite <- Z.pow_add_r by (unfold k; lia); f_equal; lia).
    assert (10 ^ Z.of_nat (length b) * 10 ^ (f - Z.of_nat (S (length b)) - k) = 10 ^ (f - 1 - k)) as E2
      by (rewrite <- Z.pow_add_r by (unfold k; lia); f_equal; lia).
    assert (10 ^ (e - k) <= 10 ^ (f - 1 - k)) by (apply Z.pow_le_mono_r; lia).
    pose proof (pow10_pos (e - Z.of_nat (length a) - k) ltac:(unfold k; lia)).
    pose proof (pow10_pos (f - Z.of_nat (S (length b)) - k) ltac:(unfold k; lia)). nia. }
  destruct (Z.compare_spec e f) as [->|H|H].
  - set (n := Nat.max (length a) (length b)).
    rewrite (value_cmp_at _ _ (f - Z.of_nat n)) by (simpl; unfold n; lia).
    rewrite <- (bytes_cmp_num a b n) by (first [apply Ta|apply Tb|unfold n; lia]). simpl.
    f_equal; f_equal; f_equal; unfold n; lia.
  - by apply Hlt.
  - rewrite value_cmp_antisym, Hlt by done. done.
Qed.

(** ** What [decimal] reads *)

Lemma leading_zeros_split ds :
  ds = replicate (leading_zeros ds) 48 ++ drop (leading_zeros ds) ds /\
  head (drop (leading_zeros ds) ds) <> Some 48.
Proof.
  induction ds as [|b ds [E H]]; [done|]. simpl. destruct (Z.eqb_spec b 48) as [->|]; simpl.
  - split; [by f_equal|done].
  - split; [done|congruence].
Qed.

Lemma rev_zeros n : rev (replicate n 48) = replicate n 48.
Proof.
  induction n as [|n IH]; [done|]. simpl. rewrite IH. change [48] with (replicate 1 48).
  rewrite <- replicate_add, Nat.add_comm. done.
Qed.

Lemma pop_zeros_split ds : exists t, ds = pop_zeros ds ++ replicate t 48 /\ last (pop_zeros ds) <> Some 48.
Proof.
  destruct (leading_zeros_split (rev ds)) as [E H]. exists (leading_zeros (rev ds)). unfold pop_zeros. split.
  - rewrite <- (rev_involutive ds) at 1. rewrite E at 1. rewrite rev_app_distr, rev_zeros. done.
  - intros H'. apply H. rewrite <- (rev_involutive (drop _ _)). destruct (rev (drop _ _)) as [|b l _] using rev_ind; [done|].
    rewrite last_snoc in H'. rewrite rev_app_distr. by injection H' as ->.
Qed.

Lemma clamped_num ds : digits ds -> clamped ds = Z.min (num ds) EXPONENT_CLAMP.
Proof.
  assert (HC : 0 <= EXPONENT_CLAMP) by done.
  assert (H : forall v, 0 <= v -> digits ds ->
    foldl (λ e b, Z.min (e * 10 + (b - 48)) EXPONENT_CLAMP) (Z.min v EXPONENT_CLAMP) ds =
    Z.min (num_from v ds) EXPONENT_CLAMP).
  { induction ds as [|b ds IH]; intros v Hv Hd; [done|]. inversion Hd as [|? ? Hb Hd']; subst.
    apply is_digit_spec in Hb. cbn [foldl]. change (num_from v (b :: ds)) with (num_from (v * 10 + (b - 48)) ds).
    rewrite <- IH by (lia || done). f_equal. lia. }
  intros Hd. apply (H 0); done.
Qed.

(** The number a [Decimal] is: its digits are after the point. *)
Definition decimal_value (d : Decimal) : Z * Z :=
  (if negative d then - num (digits_ d) else num (digits_ d), exponent d - Z.of_nat (length (digits_ d))).

Lemma decimal_spec text : json_number text ->
  exists d, decimal text = Some d /\ trimmed (digits_ d) /\ (digits_ d = [] -> negative d = false) /\
    (exponent_in_range text -> same_value (number_value text) (decimal_value d) /\
      (digits_ d = [] -> exponent d = (number_value text).2)).
Proof.
  intros Hn. pose proof (parts_of_written _ Hn) as (f & x & _ & Hi & Hf & Hx). unfold decimal.
  rewrite (proj2 (is_number_spec _) Hn). cbv zeta. unfold exponent_in_range, number_value. set (p := parts_of text) in *.
  clearbody p. set (ds := whole p ++ fraction p).
  assert (Hds : digits ds).
  { apply digits_app. split; [by apply int_text_digits|]. destruct Hf as [[_ ->]|(_ & Hf & _)]; [constructor|done]. }
  assert (Hed : digits (exp_digits p)) by (destruct Hx as [(_ & _ & ->)|(? & ? & _ & _ & _ & ? & _)]; [constructor|done]).
  destruct (leading_zeros_split ds) as [E Hh]. set (n := leading_zeros ds) in *.
  destruct (pop_zeros_split (drop n ds)) as (t & E' & Hl). set (dg := pop_zeros (drop n ds)) in *.
  assert (Hdg : digits dg).
  { rewrite E, E' in Hds. by apply digits_app in Hds as [_ [? _]%digits_app]. }
  eexists. split; [done|]. cbn [digits_ negative exponent]. split; [|split].
  - constructor; [done| |done]. intros Hd. apply Hh. rewrite E'. destruct dg; [done|by simpl in *].
  - intros ->. by rewrite andb_false_r.
  - intros Hr. assert (Hm : num ds = num dg * 10 ^ Z.of_nat t).
    { rewrite E, E', num_zeros, num_app, num_replicate0, length_replicate. lia. }
    assert (Hlen : Z.of_nat (length (whole p)) + Z.of_nat (length (fraction p)) =
      Z.of_nat n + (Z.of_nat (length dg) + Z.of_nat t)).
    { rewrite <- !Nat2Z.inj_add. f_equal. transitivity (length ds); [by symmetry; apply length_app|].
      rewrite (f_equal length E), length_app, length_replicate. f_equal.
      by rewrite (f_equal length E'), length_app, length_replicate. }
    unfold parts_value, decimal_value. cbn [fst snd digits_ negative exponent]. fold ds.
    rewrite Hm, (clamped_num _ Hed), Z.min_l by done.
    destruct (decide (dg = [])) as [Hdn|Hdn].
    + assert (t = 0%nat) as -> by (destruct t; [done|exfalso; apply Hh; rewrite E', Hdn; done]).
      rewrite Hdn in *. rewrite bool_decide_eq_true_2, andb_false_r by done. change (num []) with 0.
      cbn [length] in *. split; [|lia]. exists 0. cbn [fst snd]. split_and!; [done| |lia]. by destruct (minus p).
    + rewrite bool_decide_eq_false_2, andb_true_r by done. split; [|done]. exists (Z.of_nat t).
      unfold same_value. cbn [fst snd]. split_and!; [lia| |lia]. destruct (minus p); lia.
Qed.

Lemma decimal_None text : ~ json_number text -> decimal text = None.
Proof.
  intros H. unfold decimal. destruct (is_number text) eqn:E; [|done]. by apply is_number_spec in E.
Qed.

Lemma sign_of_spec d : trimmed (digits_ d) -> (digits_ d = [] -> negative d = false) ->
  sign_of d = Z.sgn (decimal_value d).1.
Proof.
  intros [Hd _ Hl] Hz. unfold sign_of, decimal_value. destruct (digits_ d) as [|b ds] eqn:E; [by rewrite Hz|].
  pose proof (num_pos_last _ Hd Hl ltac:(done)). simpl. destruct (negative d); lia.
Qed.

Lemma compare_decimals a b : trimmed (digits_ a) -> (digits_ a = [] -> negative a = false) ->
  trimmed (digits_ b) -> (digits_ b = [] -> negative b = false) ->
  let by_sign := sign_of a ?= sign_of b in
  (if bool_decide (by_sign <> Eq) || (sign_of a =? 0) then by_sign
   else
     let magnitude :=
       match exponent a ?= exponent b with Eq => bytes_cmp (digits_ a) (digits_ b) | c => c end in
     if negative a then CompOpp magnitude else magnitude) = value_cmp (decimal_value a) (decimal_value b).
Proof.
  intros Ta Za Tb Zb. cbv zeta. rewrite (sign_of_spec _ Ta Za), (sign_of_spec _ Tb Zb).
  destruct (Z.compare_spec (Z.sgn (decimal_value a).1) (Z.sgn (decimal_value b).1)) as [E|H|H].
  - rewrite bool_decide_eq_false_2 by (by intros []). cbn [orb]. destruct (Z.eqb_spec (Z.sgn (decimal_value a).1) 0) as [E0|E0].
    + unfold value_cmp. assert ((decimal_value a).1 = 0) as -> by lia. assert ((decimal_value b).1 = 0) as -> by lia. by rewrite !Z.mul_0_l.
    + pose proof (magnitude_cmp (digits_ a) (digits_ b) (exponent a) (exponent b) Ta Tb) as Hm.
      unfold decimal_value in *. simpl in *.
      assert (digits_ a <> []) as Ha. { intros Hd. rewrite Hd, (Za Hd) in E0. done. }
      assert (digits_ b <> []) as Hb. { intros Hd. rewrite Hd, (Zb Hd) in E. change (num []) with 0 in E. lia. }
      destruct Ta as [Da _ La], Tb as [Db _ Lb].
      pose proof (num_pos_last _ Da La Ha). pose proof (num_pos_last _ Db Lb Hb).
      destruct (negative a), (negative b); try lia; [rewrite value_cmp_opp|]; by rewrite Hm.
  - rewrite bool_decide_eq_true_2 by done. cbn [orb]. symmetry. apply value_cmp_sign. lia.
  - rewrite bool_decide_eq_true_2 by done. cbn [orb]. rewrite value_cmp_antisym, value_cmp_sign by lia. done.
Qed.

(** ** Properties *)

(** Numbers are compared exactly, whatever their width: for texts whose
    exponents are at most [2^40] the order is that of the numbers they denote,
    and a text that is not a number has no order. *)
Theorem compare_exact (a b : bytes) (Ha : exponent_in_range a) (Hb : exponent_in_range b) :
  compare a b =
  (if is_number a && is_number b then Some (value_cmp (number_value a) (number_value b)) else None).
Proof.
  unfold compare. destruct (is_number a) eqn:Ea; simpl.
  - apply is_number_spec in Ea. destruct (decimal_spec _ Ea) as (da & -> & Ta & Za & Va).
    destruct (is_number b) eqn:Eb; simpl.
    + apply is_number_spec in Eb. destruct (decimal_spec _ Eb) as (db & -> & Tb & Zb & Vb).
      rewrite (same_value_cmp _ _ _ _ (proj1 (Va Ha)) (proj1 (Vb Hb))), <- compare_decimals by done. cbv zeta.
      by destruct (_ || _).
    + rewrite (decimal_None b); [done|]. intros Hn. apply is_number_spec in Hn. congruence.
  - rewrite (decimal_None a); [done|]. intros Hn. apply is_number_spec in Hn. congruence.
Qed.

Lemma compare_exact_witness :
  compare (bs "18446744073709551616") (bs "18446744073709551615") = Some Gt.
Proof.
  rewrite (compare_exact (bs "18446744073709551616") (bs "18446744073709551615")).
  - vm_compute. reflexivity.
  - vm_compute. discriminate.
  - vm_compute. discriminate.
Defined.

Lemma num_last_10 ds : digits ds -> last ds <> Some 48 -> ds <> [] -> ~ (10 | num ds).
Proof.
  intros Hd Hl Hne. destruct ds as [|b ds _] using rev_ind; [done|]. rewrite last_snoc in Hl.
  apply digits_app in Hd as [Hd Hb]. inversion Hb as [|? ? Hb' _]; subst. apply is_digit_spec in Hb'.
  rewrite num_app. change (num [b]) with (0 * 10 + (b - 48)). simpl. intros [q Hq].
  assert (b <> 48) by congruence. lia.
Qed.

(** A text is taken for a whole number exactly when what it denotes is an
    integer, except that a zero written with decimals ([0.0]) or a negative
    exponent is not. *)
Theorem is_whole_exact (a : bytes) (Ha : exponent_in_range a) :
  let '(m, e) := number_value a in
  is_whole a = true <-> is_number a = true /\ (0 <= e \/ (m <> 0 /\ (10 ^ (- e) | m))).
Proof.
  destruct (number_value a) as [m e] eqn:Ev. unfold is_whole. destruct (is_number a) eqn:Ea.
  2:{ rewrite (decimal_None a); [naive_solver|]. intros Hn. apply is_number_spec in Hn. congruence. }
  apply is_number_spec in Ea. destruct (decimal_spec _ Ea) as (d & -> & T & Z0 & V).
  specialize (V Ha) as ((t & Ht & Em & Ee) & Ez). rewrite Ev in Em, Ee, Ez.
  unfold decimal_value in *. cbn [fst snd] in *. destruct T as [Dd _ Ld]. rewrite Z.leb_le.
  assert (Hm : (10 ^ (- e) | m) <-> (10 ^ (- e) | num (digits_ d) * 10 ^ t)).
  { rewrite Em. destruct (negative d); [|done]. rewrite Z.mul_opp_l. apply Z.divide_opp_r. }
  destruct (decide (digits_ d = [])) as [E|E].
  - rewrite E in *. rewrite (Z0 eq_refl) in Em. change (num []) with 0 in Em. cbn [length] in *.
    specialize (Ez eq_refl). cbn [snd] in Ez. split.
    + intros. split; [done|left; lia].
    + intros (_ & [?|[Hm0 _]]); [lia|]. exfalso. lia.
  - pose proof (num_pos_last _ Dd Ld E) as Hp. pose proof (num_last_10 _ Dd Ld E) as H10.
    pose proof (pow10_pos t Ht). assert (Hm0 : m <> 0) by (destruct (negative d); nia). split.
    + intros Hw. split; [done|]. destruct (Z.le_gt_cases 0 e) as [|He]; [by left|right]. split; [done|].
      apply Hm. replace t with ((t + e) + - e) by lia. rewrite Z.pow_add_r, Z.mul_assoc by lia. apply Z.divide_factor_r.
    + intros (_ & [He|[_ Hdv]]); [lia|]. apply Hm in Hdv.
      destruct (Z.le_gt_cases 0 (e + t)) as [|Hlt]; [lia|]. exfalso. apply H10.
      replace (- e) with (t + (1 + (- e - t - 1))) in Hdv by lia. rewrite Z.pow_add_r, (Z.mul_comm _ (10 ^ t)) in Hdv by lia.
      apply Z.mul_divide_cancel_l in Hdv; [|lia]. rewrite Z.pow_add_r in Hdv by lia.
      apply (Z.divide_trans _ (10 ^ 1 * 10 ^ (- e - t - 1))); [apply Z.divide_factor_l|done].
Qed.

Lemma is_whole_exact_witness : is_whole (bs "2.50e1") = true /\ ~ is_whole (bs "0.0") = true.
Proof.
  pose proof (is_whole_exact (bs "2.50e1") ltac:(vm_compute; discriminate)) as H.
  pose proof (is_whole_exact (bs "0.0") ltac:(vm_compute; discriminate)) as H'.
  cbn in H, H'. split.
  - apply H. split; [vm_compute; reflexivity|]. right. split; [discriminate|]. by exists 25.
  - intros Hw. apply H' in Hw as (_ & [Hw|[Hw _]]); [by apply Hw|by apply Hw].
Defined.
