(* ===== verification/Float64.v ===== *)
(** * Floating point, as the schema uses it

    What [schema/read.rs] and [schema/validate.rs] ask of [f64]: reading one from
    a number's text, the roundings and comparisons, and the casts to integers.
    Arithmetic is the standard's specification of IEEE 754 binary64 (52 bits
    after the point, rounding to the nearest, ties to even). *)

From Stdlib Require Import SpecFloat.
From S2P Require Import Prelude Decimal Errors SchemaErrors Reader Number JsonNumber.

Abbreviation f64 := spec_float (only parsing).

(** The binary64 format. *)
Definition f64_prec : Z := 53.
Definition f64_emax : Z := 1024.

Definition f64_div : f64 -> f64 -> f64 := SFdiv f64_prec f64_emax.
Definition f64_mul : f64 -> f64 -> f64 := SFmul f64_prec f64_emax.
Definition f64_sub : f64 -> f64 -> f64 := SFsub f64_prec f64_emax.
(** The nearest float to [m * 2 ^ e], and to an integer; [neg] is the sign of
    zero. *)
Definition f64_of (neg : bool) (m : Z) : f64 := binary_normalize f64_prec f64_emax m 0 neg.

(** [f64::is_finite] and [f64::max]. *)
Definition is_finite (x : f64) : bool :=
  match x with S754_zero _ | S754_finite _ _ _ => true | _ => false end.
Definition f64_max (x y : f64) : f64 :=
  match x, y with
  | S754_nan, y => y
  | x, S754_nan => x
  | x, y => if SFltb x y then y else x
  end.

(** ** Whole numbers

    Of a finite [±m * 2 ^ e], the integer on either side and the nearest; a
    float holds each exactly. *)
Definition sf_neg (x : f64) : bool :=
  match x with S754_zero s | S754_infinity s | S754_finite s _ _ => s | S754_nan => false end.
Definition floor_abs (m : positive) (e : Z) : Z := Z.shiftl (Z.pos m) e.
Definition floor_z (x : f64) : Z :=
  match x with
  | S754_finite false m e => floor_abs m e
  | S754_finite true m e => - (if e <? 0 then Z.shiftr (Z.pos m + (Z.shiftl 1 (- e) - 1)) (- e) else floor_abs m e)
  | _ => 0
  end.
Definition ceil_z (x : f64) : Z := - floor_z (SFopp x).
(** Half away from zero. *)
Definition round_z (x : f64) : Z :=
  match x with
  | S754_finite s m e =>
      let n := if e <? 0 then Z.shiftr (Z.pos m + Z.shiftl 1 (- e - 1)) (- e) else floor_abs m e in
      if s then - n else n
  | _ => 0
  end.
Definition trunc_z (x : f64) : Z := if sf_neg x then ceil_z x else floor_z x.

Definition whole_with (z : f64 -> Z) (x : f64) : f64 :=
  match x with S754_finite s _ _ => f64_of s (z x) | _ => x end.
(** [f64::floor], [f64::ceil], [f64::round] and [f64::fract] ([self - self.trunc()]). *)
Definition f64_floor : f64 -> f64 := whole_with floor_z.
Definition f64_ceil : f64 -> f64 := whole_with ceil_z.
Definition f64_round : f64 -> f64 := whole_with round_z.
Definition f64_fract (x : f64) : f64 := f64_sub x (whole_with trunc_z x).

(** [x as i64] and [x as i128]: toward zero, saturating; NaN is zero. *)
Definition f64_as (lo hi : Z) (x : f64) : Z :=
  match x with
  | S754_nan => 0
  | S754_infinity s => if s then lo else hi
  | _ => Z.max lo (Z.min hi (trunc_z x))
  end.

(** ** Reading a float *)

(** [str::parse::<f64>] of a number's text: the float nearest to what it denotes,
    an infinity past the largest. Every text the source parses is a number's. *)
Definition parse_f64 (text : bytes) : option f64 :=
  if is_number text then
    let p := parts_of text in
    let '(m, e) := number_value text in
    Some (match Z.abs m with
      | Z.pos m =>
          if 0 <=? e then f64_of (minus p) (if minus p then - (Z.pos m * 10 ^ e) else Z.pos m * 10 ^ e)
          else f64_div (S754_finite (minus p) m 0) (S754_finite false (Z.to_pos (10 ^ (- e))) 0)
      | _ => S754_zero (minus p)
      end)
  else None.

(** [str::parse] of an integer no wider than the type: an optional sign, and a
    minus only where the type has one, then at least one digit. *)
Definition parse_int (lo hi : Z) (text : bytes) : option Z :=
  let '(sign, ds) :=
    match text with
    | b :: l => if b =? 43 then (1, l) else if (b =? 45) && (lo <? 0) then (-1, l) else (1, text)
    | [] => (1, text)
    end in
  if negb (bool_decide (ds = [])) && forallb is_digit ds then
    let n := sign * num ds in
    if (lo <=? n) && (n <=? hi) then Some n else None
  else None.

(** [f64::EPSILON]. *)
Definition EPSILON : f64 := S754_finite false (2 ^ 52) (-104).

Example parse_f64_ex : parse_f64 (bs "0.1") = Some (S754_finite false 7205759403792794 (-56)) /\
  parse_f64 (bs "1e999") = Some (S754_infinity false) /\ parse_f64 (bs "-0.0") = Some (S754_zero true) /\
  parse_f64 (bs "4.9e-324") = Some (S754_finite false 1 (-1074)) /\
  parse_f64 (bs "9007199254740993") = parse_f64 (bs "9007199254740992").
Proof. vm_compute. done. Qed.
Example round_ex : map (λ t, (floor_z <$> parse_f64 (bs t), ceil_z <$> parse_f64 (bs t), round_z <$> parse_f64 (bs t)))
  ["2.5"; "-2.5"; "0.49"; "-7"; "1e18"] =
  [(Some 2, Some 3, Some 3); (Some (-3), Some (-2), Some (-3)); (Some 0, Some 1, Some 0); (Some (-7), Some (-7), Some (-7));
   (Some (10 ^ 18), Some (10 ^ 18), Some (10 ^ 18))].
Proof. vm_compute. done. Qed.
