(* ===== verification/Vocab.v ===== *)
(** * The keys of a schema

    [schema/vocab.rs]: JSON Schema's keywords, the ones added beside them, and
    the names of types. Anything outside [KEYWORDS] and [EXTENSIONS] is an
    annotation, carried and never interpreted. *)

From S2P Require Import Prelude.

Definition SCHEMA : bytes := Eval vm_compute in bs "$schema".
Definition DIALECT : bytes := Eval vm_compute in bs "https://json-schema.org/draft/2020-12/schema".
Definition REF : bytes := Eval vm_compute in bs "$ref".
Definition DEFS : bytes := Eval vm_compute in bs "$defs".
Definition TYPE : bytes := Eval vm_compute in bs "type".
Definition TITLE : bytes := Eval vm_compute in bs "title".
Definition DESCRIPTION : bytes := Eval vm_compute in bs "description".
Definition DEFAULT : bytes := Eval vm_compute in bs "default".
Definition PROPERTIES : bytes := Eval vm_compute in bs "properties".
Definition REQUIRED : bytes := Eval vm_compute in bs "required".
Definition ADDITIONAL_PROPERTIES : bytes := Eval vm_compute in bs "additionalProperties".
Definition ITEMS : bytes := Eval vm_compute in bs "items".
Definition PREFIX_ITEMS : bytes := Eval vm_compute in bs "prefixItems".
Definition UNIQUE_ITEMS : bytes := Eval vm_compute in bs "uniqueItems".
Definition PROPERTY_NAMES : bytes := Eval vm_compute in bs "propertyNames".
Definition MINIMUM : bytes := Eval vm_compute in bs "minimum".
Definition MAXIMUM : bytes := Eval vm_compute in bs "maximum".
Definition EXCLUSIVE_MINIMUM : bytes := Eval vm_compute in bs "exclusiveMinimum".
Definition EXCLUSIVE_MAXIMUM : bytes := Eval vm_compute in bs "exclusiveMaximum".
Definition MULTIPLE_OF : bytes := Eval vm_compute in bs "multipleOf".
Definition MIN_LENGTH : bytes := Eval vm_compute in bs "minLength".
Definition MAX_LENGTH : bytes := Eval vm_compute in bs "maxLength".
Definition PATTERN : bytes := Eval vm_compute in bs "pattern".
Definition FORMAT : bytes := Eval vm_compute in bs "format".
Definition MIN_ITEMS : bytes := Eval vm_compute in bs "minItems".
Definition MAX_ITEMS : bytes := Eval vm_compute in bs "maxItems".
Definition READ_ONLY : bytes := Eval vm_compute in bs "readOnly".
Definition WRITE_ONLY : bytes := Eval vm_compute in bs "writeOnly".
Definition DEPRECATED : bytes := Eval vm_compute in bs "deprecated".
Definition EXAMPLES : bytes := Eval vm_compute in bs "examples".
Definition ENUM : bytes := Eval vm_compute in bs "enum".
Definition CONST : bytes := Eval vm_compute in bs "const".
Definition ANY_OF : bytes := Eval vm_compute in bs "anyOf".
Definition ONE_OF : bytes := Eval vm_compute in bs "oneOf".
Definition NOT : bytes := Eval vm_compute in bs "not".
Definition ALL_OF : bytes := Eval vm_compute in bs "allOf".
Definition X_SENSITIVE : bytes := Eval vm_compute in bs "x-sensitive".
Definition X_ENUM_LABELS : bytes := Eval vm_compute in bs "x-enum-labels".
Definition X_VARIANT_TAG : bytes := Eval vm_compute in bs "x-variant-tag".
Definition TYPE_BOOLEAN : bytes := Eval vm_compute in bs "boolean".
Definition TYPE_NULL : bytes := Eval vm_compute in bs "null".
Definition TYPE_INTEGER : bytes := Eval vm_compute in bs "integer".
Definition TYPE_NUMBER : bytes := Eval vm_compute in bs "number".
Definition TYPE_STRING : bytes := Eval vm_compute in bs "string".
Definition TYPE_ARRAY : bytes := Eval vm_compute in bs "array".
Definition TYPE_OBJECT : bytes := Eval vm_compute in bs "object".
Definition TYPE_BYTES : bytes := Eval vm_compute in bs "bytes".

Definition KEYWORDS : list bytes :=
  [SCHEMA; REF; DEFS; TYPE; TITLE; DESCRIPTION; DEFAULT; PROPERTIES; REQUIRED; ITEMS;
   PREFIX_ITEMS; UNIQUE_ITEMS; PROPERTY_NAMES; MINIMUM; MAXIMUM; EXCLUSIVE_MINIMUM;
   EXCLUSIVE_MAXIMUM; MULTIPLE_OF; MIN_LENGTH; MAX_LENGTH; PATTERN; FORMAT; MIN_ITEMS;
   MAX_ITEMS; READ_ONLY; WRITE_ONLY; DEPRECATED; EXAMPLES; ENUM; CONST; ANY_OF; ONE_OF; ALL_OF;
   NOT; ADDITIONAL_PROPERTIES].

Definition EXTENSIONS : list bytes :=
  [X_SENSITIVE; X_ENUM_LABELS; X_VARIANT_TAG].

Definition TYPES : list bytes :=
  [TYPE_NULL; TYPE_BOOLEAN; TYPE_INTEGER; TYPE_NUMBER; TYPE_STRING; TYPE_ARRAY; TYPE_OBJECT;
   TYPE_BYTES].

(** [known]. *)
Definition known (key : bytes) : bool := bool_decide (key ∈ KEYWORDS) || bool_decide (key ∈ EXTENSIONS).

(** A key means one thing, and the prefix is the line between the
    specification's keys and the ones added. *)
Definition starts_x (key : bytes) : bool := bool_decide (take 2 key = bs "x-").
Lemma vocabulary_distinct : NoDup (KEYWORDS ++ EXTENSIONS) /\ NoDup TYPES.
Proof. split; apply (bool_decide_unpack _); vm_compute; exact I. Qed.
Lemma vocabulary_prefix :
  Forall (λ k, starts_x k = true) EXTENSIONS /\ Forall (λ k, starts_x k = false) KEYWORDS.
Proof. split; apply (bool_decide_unpack _); vm_compute; exact I. Qed.
