(* ===== verification/SchemaRead.v ===== *)
(** * Reading a schema

    [schema/read.rs]: a schema is a value, and these are the views over one: its
    fields, the kind it declares, and the wrappers that only say a value is
    optional. What is not understood is skipped, one thing at a time. *)

From Stdlib Require Import SpecFloat.
From S2P Require Import Prelude Errors Number Value Maps JsonNumber Float64 Vocab.

(** ** Looking things up *)

(** [TryAsRef::<Map>::try_as_ref(v).and_then(|m| m.get(key))]. *)
Definition under (v : Value) (key : bytes) : option Value := m ← as_map v; get m key.
(** [.map(|list| &list[..]).unwrap_or(&[])], and the entries of a map. *)
Definition list_items (v : option Value) : list Value := default [] (v ≫= as_list).
Definition map_entries (v : option Value) : list (bytes * Value) := default [] (v ≫= as_map).
Definition bool_or (v : option Value) (fallback : bool) : bool := default fallback (v ≫= as_bool).
Definition str_or (v : option Value) (fallback : bytes) : bytes := default fallback (v ≫= as_text).
(** [v.tag() == Ok(t)]. *)
Definition has_tag (t : Tag) (v : Value) : bool :=
  match tag v with Ok t' => bool_decide (t' = t) | Err _ => false end.

(** [text], [is_map], [is_true_schema] and [is_schema]. *)
Definition text_ (v : Value) (key : bytes) : bytes := default [] (under v key ≫= as_text).
Definition is_map_ (v : Value) : bool := bool_decide (is_Some (as_map v)).
Definition is_true_schema (v : Value) : bool := has_tag GUATIAO_BOOL v && bool_or (Some v) false.
Definition is_schema (v : Value) : bool := is_map_ v || is_true_schema v.

(** ** Fields *)

(** [FieldRef]. *)
Record FieldRef := MkField { fkey : bytes; fschema : Value; frequired : bool }.

(** [is_required_in]. *)
Definition is_required_in (owner : Value) (key : bytes) : bool :=
  existsb (λ n, bool_decide (n = key)) (omap as_text (list_items (under owner REQUIRED))).

(** [fields_of]. *)
Definition field_at (owner : Value) (e : bytes * Value) : option FieldRef :=
  if is_schema e.2 then Some (MkField e.1 e.2 (is_required_in owner e.1)) else None.
Definition fields_of (owner : Value) : list FieldRef :=
  omap (field_at owner) (map_entries (under owner PROPERTIES)).

(** [SchemaRef::new] and [SchemaRef::find]; a schema is the value it views. *)
Definition schema_new (v : Value) : option Value := if is_map_ v then Some v else None.
Definition schema_find (s : Value) (key : bytes) : option FieldRef :=
  '(_, e) ← list_find (λ e, e.1 = key) (map_entries (under s PROPERTIES)); field_at s e.
(** [SchemaRef::extra], [FieldRef::extra] and [extras_of]: annotations. *)
Definition extra (s : Value) (key : bytes) : option Value :=
  v ← under s key; if known key then None else Some v.
Definition extras_of (s : Value) : list (bytes * Value) :=
  List.filter (λ e, negb (known e.1)) (map_entries (Some s)).

(** [FieldRef::new]. *)
Definition field_new (key : bytes) (s : Value) : option FieldRef :=
  if is_schema s then Some (MkField key s false) else None.
(** [FieldRef::default], [FieldRef::flag] and what is read through it. *)
Definition field_default (f : FieldRef) : option Value := under (fschema f) DEFAULT.
Definition field_flag (f : FieldRef) (key : bytes) : bool := bool_or (under (fschema f) key) false.
Definition is_sensitive (f : FieldRef) : bool := field_flag f X_SENSITIVE.
Definition is_read_only (f : FieldRef) : bool := field_flag f READ_ONLY.
Definition is_deprecated (f : FieldRef) : bool := field_flag f DEPRECATED.
(** [FieldRef::examples]. *)
Definition examples (f : FieldRef) : list Value := list_items (under (fschema f) EXAMPLES).

(** [ChoiceRef], and its label, which falls back to the value. *)
Record ChoiceRef := MkChoice { choice_value : bytes; choice_label_ : bytes }.
Definition choice_label (c : ChoiceRef) : bytes :=
  match choice_label_ c with [] => choice_value c | l => l end.

(** [FieldRef::suggestions]. *)
Definition suggestions (f : FieldRef) : list ChoiceRef :=
  let labels := under (fschema f) X_ENUM_LABELS ≫= as_map in
  (λ value, MkChoice value (default [] (m ← labels; v ← get m value; as_text v))) <$>
    omap as_text (examples f).

(** ** The type a schema declares *)

(** [Declared] and [declared_type], whose loop stops at a second type and at
    anything that is not text. *)
Inductive Declared : Type := Named (ty : bytes) | Several | Absent.
Fixpoint only_type (l : list Value) (only : option bytes) : option (option bytes) :=
  match l with
  | [] => Some only
  | e :: l =>
      name ← as_text e;
      if decide (name = TYPE_NULL) then only_type l only
      else match only with Some _ => None | None => only_type l (Some name) end
  end.
Definition declared_type (k : Value) : Declared :=
  match under k TYPE with
  | None => Absent
  | Some v =>
      match as_text v with
      | Some name => Named name
      | None =>
          match as_list v with
          | None => Several
          | Some l =>
              match only_type l None with
              | None => Several
              | Some (Some name) => Named name
              | Some None => match l with [] => Several | _ => Named TYPE_NULL end
              end
          end
      end
  end.

(** ** Wrappers *)

(** [is_null_schema]. *)
Definition is_null_schema (v : Value) : bool :=
  match as_map v with
  | None => false
  | Some m =>
      bool_decide ((get m TYPE ≫= as_text) = Some TYPE_NULL) ||
      match get m CONST with Some c => has_tag GUATIAO_NULL c | None => false end
  end.

(** [nullable_pair]. *)
Definition nullable_pair (any_of : Value) : option Value :=
  match as_list any_of with
  | Some [a; b] =>
      match is_null_schema a, is_null_schema b with
      | true, false => if is_map_ b then Some b else None
      | false, true => if is_map_ a then Some a else None
      | _, _ => None
      end
  | _ => None
  end.

(** [lone_all_of]. *)
Definition lone_all_of (m : list (bytes * Value)) : option Value :=
  if existsb (λ key, contains_key m key) [TYPE; ENUM; CONST; ANY_OF; ONE_OF] then None
  else match get m ALL_OF ≫= as_list with
       | Some [only] => if is_schema only then Some only else None
       | _ => None
       end.

(** [peel_once], and [peel], whose loop [fuel] bounds: what is inside a value is
    smaller than it. *)
Definition peel_once (k : Value) : option Value :=
  m ← as_map k;
  let inner := match get m TYPE with None => get m ANY_OF ≫= nullable_pair | Some _ => None end in
  match inner with Some i => Some i | None => lone_all_of m end.
Fixpoint peel_loop (fuel : nat) (k : Value) : Value :=
  match fuel with
  | O => k
  | S fuel => match peel_once k with Some inner => peel_loop fuel inner | None => k end
  end.
Definition peel (k : Value) : Value := peel_loop (vsize k) k.

(** ** Enumerations *)

(** [is_enumeration]. *)
Definition is_enumeration (k : Value) : bool :=
  match as_map k with
  | None => false
  | Some m =>
      match get m ENUM with Some e => bool_decide (is_Some (as_list e)) | None => false end
      || contains_key m CONST
      || (negb (contains_key m X_VARIANT_TAG) &&
          match get m ONE_OF ≫= as_list with
          | Some (arm :: arms) =>
              forallb (λ arm, match as_map arm with Some a => contains_key a CONST | None => false end) (arm :: arms)
          | _ => false
          end)
  end.

(** [members]: each with the title its arm gave it. *)
Definition members (k : Value) : list (Value * bytes) :=
  match as_map k with
  | None => []
  | Some m =>
      match get m ENUM ≫= as_list with
      | Some l => (λ v, (v, [])) <$> l
      | None =>
          match get m CONST with
          | Some v => [(v, [])]
          | None =>
              omap (λ arm, a ← as_map arm; c ← get a CONST; Some (c, text_ arm TITLE))
                (list_items (get m ONE_OF))
          end
      end
  end.

(** [member_text]. *)
Definition member_text (v : Value) : option bytes :=
  match as_text v with Some t => Some t | None => as_number v end.

(** [is_nullable], its loop bounded as [peel]'s. *)
Fixpoint nullable_loop (fuel : nat) (k : Value) : bool :=
  match fuel with
  | O => false
  | S fuel =>
      match as_map k with
      | None => false
      | Some m =>
          match get m TYPE with
          | Some ty =>
              match as_list ty with
              | None => false
              | Some l =>
                  existsb (λ t, bool_decide (t = TYPE_NULL)) (omap as_text l) &&
                  (negb (is_enumeration k) || existsb (λ x, has_tag GUATIAO_NULL x.1) (members k))
              end
          | None =>
              match get m ANY_OF ≫= nullable_pair with
              | Some _ => true
              | None => match lone_all_of m with Some inner => nullable_loop fuel inner | None => false end
              end
          end
      end
  end.
Definition is_nullable (k : Value) : bool := nullable_loop (vsize k) k.

(** ** What a field accepts *)

(** [Kind]. *)
Inductive Kind : Type :=
  | KNull
  | KBool
  | KInt (min max : option Z) (multiple_of : option f64)
  | KFloat (min max multiple_of : option f64)
  | KStr (min_length max_length : option Z) (pattern format : option bytes)
  | KBytes
  | KList (items : Value) (min max : option Z)
  | KTuple (k : Value)
  | KMap (k : Value)
  | KMapOf (k : Value)
  | KEnum (k : Value)
  | KUnion (any_of : Value)
  | KVariant (tag : bytes) (arms : Value)
  | KUnknown (name : bytes)
  | KMissing.

(** [Round] and [opt_bound]: exact for an [i64], rounded inward through [f64]
    otherwise. *)
Inductive Round : Type := Up | Down.
Definition opt_bound (k : Value) (key : bytes) (round : Round) : option Z :=
  text ← under k key ≫= as_number;
  match parse_int i64_min i64_max text with
  | Some n => Some n
  | None =>
      x ← parse_f64 text;
      if is_finite x then
        let x := match round with Up => f64_ceil x | Down => f64_floor x end in
        if SFleb (f64_of false i64_min) x && SFltb x (f64_of false i64_max)
        then Some (f64_as i64_min i64_max x) else None
      else None
  end.

(** [opt_count], [opt_float], [opt_step] and [opt_str]. *)
Definition opt_count (k : Value) (key : bytes) : option Z :=
  text ← under k key ≫= as_number; parse_int 0 u64_max text.
Definition opt_float (k : Value) (key : bytes) : option f64 :=
  text ← under k key ≫= as_number;
  x ← parse_f64 text;
  if is_finite x then Some x else None.
Definition opt_step (k : Value) : option f64 :=
  s ← opt_float k MULTIPLE_OF; if SFltb (S754_zero false) s then Some s else None.
Definition opt_str (k : Value) (key : bytes) : option bytes := under k key ≫= as_text.

(** [prefix_items] and [TRUE_SCHEMA]. *)
Definition prefix_items (k : Value) : list Value := list_items (under k PREFIX_ITEMS).
Definition TRUE_SCHEMA : bytes := Eval vm_compute in bs "true".

(** The kind of an object: a variant under its tag, an object whose keys are
    data, or one that declares its keys. *)
Definition read_object (k : Value) (m : list (bytes * Value)) : Kind :=
  match get m X_VARIANT_TAG ≫= as_text with
  | Some tag => match get m ONE_OF with Some arms => KVariant tag arms | None => KUnknown TYPE_OBJECT end
  | None =>
      let values_declared := match get m ADDITIONAL_PROPERTIES with Some v => is_map_ v | None => false end in
      if negb (contains_key m PROPERTIES) && values_declared then KMapOf k else KMap k
  end.
(** The kind of an array. *)
Definition read_array (k : Value) (m : list (bytes * Value)) : Kind :=
  match get m PREFIX_ITEMS ≫= as_list with
  | Some _ => KTuple k
  | None =>
      match get m ITEMS with
      | Some items => KList items (opt_count k MIN_ITEMS) (opt_count k MAX_ITEMS)
      | None => KUnknown TYPE_ARRAY
      end
  end.
(** The kind a type's name declares. *)
Definition read_type (ty : bytes) (k : Value) (m : list (bytes * Value)) : Kind :=
  if decide (ty = TYPE_NULL) then KNull
  else if decide (ty = TYPE_BOOLEAN) then KBool
  else if decide (ty = TYPE_STRING) then
    KStr (opt_count k MIN_LENGTH) (opt_count k MAX_LENGTH) (opt_str k PATTERN) (opt_str k FORMAT)
  else if decide (ty = TYPE_BYTES) then KBytes
  else if decide (ty = TYPE_ARRAY) then read_array k m
  else if decide (ty = TYPE_OBJECT) then read_object k m
  else if decide (ty = TYPE_INTEGER) then
    KInt (opt_bound k MINIMUM Up) (opt_bound k MAXIMUM Down) (opt_step k)
  else if decide (ty = TYPE_NUMBER) then KFloat (opt_float k MINIMUM) (opt_float k MAXIMUM) (opt_step k)
  else KUnknown ty.
(** The kind of a schema that names no type. *)
Definition read_untyped (m : list (bytes * Value)) : Kind :=
  match get m ANY_OF with
  | Some any_of => KUnion any_of
  | None =>
      if contains_key m ONE_OF then KUnknown ONE_OF
      else if contains_key m ALL_OF then KUnknown ALL_OF
      else KUnknown TYPE
  end.

(** [Kind::read]. *)
Definition kind_read (schema : option Value) : Kind :=
  match schema with
  | None => KMissing
  | Some k =>
      let k := peel k in
      if is_true_schema k then KUnknown TRUE_SCHEMA
      else match as_map k with
        | None => KMissing
        | Some m =>
            if contains_key m REF then KUnknown REF
            else if is_enumeration k then KEnum k
            else match declared_type k with
              | Named ty => read_type ty k m
              | Several => KUnknown TYPE
              | Absent => read_untyped m
              end
        end
  end.

(** [FieldRef::kind] and [FieldRef::is_nullable]. *)
Definition field_kind (f : FieldRef) : Kind := kind_read (Some (fschema f)).
Definition field_is_nullable (f : FieldRef) : bool := is_nullable (fschema f).

(** [Kind::choices]. *)
Definition choices (kd : Kind) : list ChoiceRef :=
  match kd with
  | KEnum k =>
      let labels := under k X_ENUM_LABELS ≫= as_map in
      omap (λ '(member, title),
        value ← member_text member;
        Some (MkChoice value (default title (m ← labels; v ← get m value; as_text v)))) (members k)
  | _ => []
  end.

(** [ArmRef] and [Kind::arms]. *)
Record ArmRef := MkArm { arm_tag : bytes; arm_schema : Value }.
Definition arms (kd : Kind) : list ArmRef :=
  match kd with
  | KVariant tag a => (λ s, MkArm tag s) <$> List.filter is_map_ (list_items (Some a))
  | _ => []
  end.
(** [ArmRef::value], [ArmRef::title] and [ArmRef::fields]. *)
Definition arm_value (a : ArmRef) : bytes :=
  default [] (p ← under (arm_schema a) PROPERTIES ≫= as_map;
              t ← get p (arm_tag a); c ← under t CONST; as_text c).
Definition arm_title (a : ArmRef) : bytes :=
  match text_ (arm_schema a) TITLE with [] => arm_value a | l => l end.
Definition arm_fields (a : ArmRef) : list FieldRef :=
  List.filter (λ f, negb (bool_decide (fkey f = arm_tag a))) (fields_of (arm_schema a)).

(** [Kind::alternatives], [Kind::items], [Kind::positions], [Kind::values] and
    [Kind::fields]. *)
Definition alternatives (kd : Kind) : list Kind :=
  match kd with KUnion a => (λ v, kind_read (Some v)) <$> list_items (Some a) | _ => [] end.
Definition kind_items (kd : Kind) : Kind :=
  match kd with KList items _ _ => kind_read (Some items) | _ => KMissing end.
Definition positions (kd : Kind) : list Kind :=
  match kd with KTuple k => (λ v, kind_read (Some v)) <$> prefix_items k | _ => [] end.
Definition kind_values (kd : Kind) : Kind :=
  match kd with KMapOf k => kind_read (under k ADDITIONAL_PROPERTIES) | _ => KMissing end.
Definition kind_fields (kd : Kind) : list FieldRef :=
  match kd with KMap k => fields_of k | _ => [] end.

(** [Kind::name]. *)
Definition kind_name (kd : Kind) : bytes :=
  match kd with
  | KNull => TYPE_NULL | KBool => TYPE_BOOLEAN | KInt _ _ _ => TYPE_INTEGER | KFloat _ _ _ => TYPE_NUMBER
  | KStr _ _ _ _ => TYPE_STRING
  | KEnum k => match declared_type k with Named ty => ty | _ => TYPE_STRING end
  | KBytes => TYPE_BYTES
  | KList _ _ _ | KTuple _ => TYPE_ARRAY
  | KMap _ | KMapOf _ | KVariant _ _ => TYPE_OBJECT
  | KUnion _ => ANY_OF
  | KUnknown name => name
  | KMissing => []
  end.

(** ** What is inside a value is smaller *)

Lemma get_elem m k v : get m k = Some v -> (k, v) ∈ m.
Proof.
  unfold get. destruct (position m k) as [i|] eqn:E; simpl; [|done].
  apply position_entry in E as [v' E]. rewrite E. simpl. intros [= ->]. by eapply list_elem_of_lookup_2.
Qed.

Lemma get_unique m k v : NoDup (keys m) -> (k, v) ∈ m -> get m k = Some v.
Proof.
  intros Hn Hin. rewrite get_contents. unfold contents. by apply elem_of_list_to_map_1.
Qed.

Lemma items_size_elem x l : x ∈ l -> (vsize x <= items_size l)%nat.
Proof. induction 1 as [x l|x y l _ IH]; unfold items_size in *; simpl; lia. Qed.
Lemma as_map_Some v m : as_map v = Some m -> v = VMap m /\ keys_are_text m = true.
Proof. destruct v; simpl; try done. destruct (keys_are_text entries) eqn:E; [|done]. by intros [= ->]. Qed.
Lemma as_list_Some v l : as_list v = Some l -> v = VList l.
Proof. destruct v; simpl; try done. by intros [= ->]. Qed.
Lemma as_text_Some v t : as_text v = Some t -> v = VString t /\ is_utf8 t = true.
Proof. destruct v; simpl; try done. destruct (is_utf8 text) eqn:E; [|done]. by intros [= ->]. Qed.
Lemma as_number_Some v t : as_number v = Some t -> v = VNumber t /\ is_number t = true.
Proof. destruct v; simpl; try done. destruct (is_number text) eqn:E; [|done]. by intros [= ->]. Qed.

Lemma map_smaller v m k x : as_map v = Some m -> get m k = Some x -> (vsize x < vsize v)%nat.
Proof.
  intros [-> _]%as_map_Some H%get_elem. rewrite vsize_map.
  assert (x ∈ map snd m) as Hx by (apply (list_elem_of_fmap_2 snd) in H; done).
  apply items_size_elem in Hx. lia.
Qed.
Lemma list_smaller v l x : as_list v = Some l -> x ∈ l -> (vsize x < vsize v)%nat.
Proof. intros ->%as_list_Some H. rewrite vsize_list. apply items_size_elem in H. lia. Qed.

Lemma nullable_pair_inv v x : nullable_pair v = Some x -> is_map_ x = true /\ (vsize x < vsize v)%nat.
Proof.
  unfold nullable_pair. destruct (as_list v) as [[|a [|b [|c l]]]|] eqn:E; try done.
  destruct (is_null_schema a), (is_null_schema b); try done.
  - destruct (is_map_ b) eqn:Eb; [|done]. intros [= <-]. split; [done|].
    apply (list_smaller _ _ _ E). by right; left.
  - destruct (is_map_ a) eqn:Ea; [|done]. intros [= <-]. split; [done|].
    apply (list_smaller _ _ _ E). by left.
Qed.

Lemma lone_all_of_inv m x : lone_all_of m = Some x ->
  is_schema x = true /\ exists v l, get m ALL_OF = Some v /\ as_list v = Some l /\ x ∈ l.
Proof.
  unfold lone_all_of. destruct (existsb _ _); [done|]. destruct (get m ALL_OF) as [v|]; simpl; [|done].
  destruct (as_list v) as [[|only [|]]|] eqn:E; simpl; try done. destruct (is_schema only) eqn:Es; [|done].
  intros [= <-]. split; [done|]. exists v, [only]. split_and!; [done..|]. by left.
Qed.

Lemma lone_all_of_smaller v m x : as_map v = Some m -> lone_all_of m = Some x -> (vsize x < vsize v)%nat.
Proof.
  intros Hm (_ & a & l & Ha & Hl & Hx)%lone_all_of_inv.
  pose proof (map_smaller _ _ _ _ Hm Ha). pose proof (list_smaller _ _ _ Hl Hx). lia.
Qed.

Lemma peel_once_inv k x : peel_once k = Some x -> is_schema x = true /\ (vsize x < vsize k)%nat.
Proof.
  unfold peel_once. destruct (as_map k) as [m|] eqn:Em; simpl; [|done].
  set (inner := match get m TYPE with None => _ | Some _ => _ end).
  assert (Hi : forall y, inner = Some y -> is_schema y = true /\ (vsize y < vsize k)%nat).
  { intros y. unfold inner. destruct (get m TYPE); [done|]. destruct (get m ANY_OF) as [a|] eqn:Ea; simpl; [|done].
    intros [H1 H2]%nullable_pair_inv. unfold is_schema. rewrite H1. split; [done|].
    pose proof (map_smaller _ _ _ _ Em Ea). lia. }
  destruct inner as [y|]; [intros [= <-]; by apply Hi|]. intros H. split.
  - by apply lone_all_of_inv in H as [? _].
  - by apply (lone_all_of_smaller _ _ _ Em).
Qed.

(** Whatever fuel is at least the size gives one answer, which nothing wraps. *)
Lemma peel_loop_spec fuel : forall k, (vsize k <= fuel)%nat ->
  peel_loop fuel k = match peel_once k with Some x => peel x | None => k end /\
  peel_once (peel_loop fuel k) = None.
Proof.
  induction fuel as [fuel IH] using lt_wf_ind. intros k Hk. destruct fuel as [|fuel].
  { pose proof (vsize_pos k). lia. }
  cbn [peel_loop]. destruct (peel_once k) as [x|] eqn:E; [|done].
  apply peel_once_inv in E as [_ Hx]. unfold peel. destruct (decide (vsize x = fuel)) as [->|].
  - split; [done|]. apply IH; lia.
  - destruct (IH fuel ltac:(lia) x ltac:(lia)) as [H1 H2]. split; [|done].
    destruct (IH (vsize x) ltac:(lia) x ltac:(lia)) as [H3 _]. congruence.
Qed.

Lemma peel_unfold k : peel k = match peel_once k with Some x => peel x | None => k end.
Proof. by apply peel_loop_spec. Qed.
Lemma peel_bare k : peel_once (peel k) = None.
Proof. by apply peel_loop_spec. Qed.
Lemma peel_id k : peel_once k = None -> peel k = k.
Proof. intros H. by rewrite peel_unfold, H. Qed.
Lemma peel_peel k : peel (peel k) = peel k.
Proof. apply peel_id, peel_bare. Qed.

(** Induction along the wrappers. *)
Lemma peel_ind (P : Value -> Prop) :
  (forall k, peel_once k = None -> P k) -> (forall k x, peel_once k = Some x -> P x -> P k) -> forall k, P k.
Proof.
  intros H0 H1 k. induction k as [k IH] using (induction_ltof1 _ vsize). destruct (peel_once k) as [x|] eqn:E; [|by apply H0].
  apply (H1 k x E), IH. by apply peel_once_inv in E as [_ ?].
Qed.

Lemma peel_schema k : is_schema k = true -> is_schema (peel k) = true.
Proof.
  induction k as [k E|k x E IH] using peel_ind; intros Hk; [by rewrite peel_id|].
  rewrite peel_unfold, E. apply IH. by apply peel_once_inv in E as [? _].
Qed.
Lemma peel_other k : is_schema k = false -> peel k = k.
Proof.
  intros H. apply peel_id. unfold peel_once. destruct (as_map k) eqn:E; [|done].
  unfold is_schema, is_map_ in H. rewrite E in H. done.
Qed.

(** The loop of [is_nullable], without its fuel. *)
Lemma nullable_unfold k : is_nullable k =
  match as_map k with
  | None => false
  | Some m =>
      match get m TYPE with
      | Some ty =>
          match as_list ty with
          | None => false
          | Some l =>
              existsb (λ t, bool_decide (t = TYPE_NULL)) (omap as_text l) &&
              (negb (is_enumeration k) || existsb (λ x, has_tag GUATIAO_NULL x.1) (members k))
          end
      | None =>
          match get m ANY_OF ≫= nullable_pair with
          | Some _ => true
          | None => match lone_all_of m with Some inner => is_nullable inner | None => false end
          end
      end
  end.
Proof.
  assert (H : forall n f f' k, (vsize k <= n)%nat -> (vsize k <= f)%nat -> (vsize k <= f')%nat ->
    nullable_loop f k = nullable_loop f' k).
  { induction n as [|n IH]; intros f f' j Hn Hf Hf'; [pose proof (vsize_pos j); lia|].
    destruct f as [|f], f' as [|f']; [pose proof (vsize_pos j); lia..|]. cbn [nullable_loop].
    destruct (as_map j) as [m|] eqn:Em; [|done]. destruct (get m TYPE); [done|].
    destruct (get m ANY_OF ≫= nullable_pair); [done|]. destruct (lone_all_of m) as [x|] eqn:El; [|done].
    pose proof (lone_all_of_smaller _ _ _ Em El). apply IH; lia. }
  unfold is_nullable at 1. destruct (vsize k) as [|n] eqn:En; [pose proof (vsize_pos k); lia|]. cbn [nullable_loop].
  destruct (as_map k) as [m|] eqn:Em; [|done]. destruct (get m TYPE); [done|].
  destruct (get m ANY_OF ≫= nullable_pair); [done|]. destruct (lone_all_of m) as [x|] eqn:El; [|done].
  pose proof (lone_all_of_smaller _ _ _ Em El). apply (H n); lia.
Qed.

(** ** The kind *)

Lemma kind_read_peel k : kind_read (Some (peel k)) = kind_read (Some k).
Proof. unfold kind_read. by rewrite peel_peel. Qed.

Lemma kind_read_missing k : kind_read (Some k) = KMissing <-> is_schema k = false.
Proof.
  split.
  - intros H. destruct (is_schema k) eqn:E; [|done]. apply peel_schema in E. exfalso.
    unfold kind_read in H. cbv zeta in H. destruct (is_true_schema (peel k)) eqn:Et; [done|].
    unfold is_schema, is_map_ in E. rewrite Et, orb_false_r in E. apply bool_decide_eq_true in E as [m Em].
    rewrite Em in H. unfold read_type, read_untyped, read_array, read_object in H.
    repeat case_match; congruence.
  - intros H. unfold kind_read. rewrite (peel_other k H). unfold is_schema, is_map_ in H.
    apply orb_false_iff in H as [H1 ->]. apply bool_decide_eq_false in H1.
    destruct (as_map k); [|done]. exfalso. eauto.
Qed.

Lemma field_at_key s e f : field_at s e = Some f -> fkey f = e.1.
Proof. unfold field_at. destruct (is_schema e.2); [|done]. by intros [= <-]. Qed.

Lemma nodup_entry (l : list (bytes * Value)) k x y : NoDup (map fst l) -> (k, x) ∈ l -> (k, y) ∈ l -> x = y.
Proof. intros Hn Hx%get_unique Hy%get_unique; [congruence|done..]. Qed.

Lemma schema_find_spec s key f : NoDup (map fst (map_entries (under s PROPERTIES))) ->
  schema_find s key = Some f <-> f ∈ fields_of s /\ fkey f = key.
Proof.
  unfold schema_find, fields_of. set (l := map_entries (under s PROPERTIES)). intros Hn. rewrite list_elem_of_omap. split.
  - destruct (list_find _ l) as [[i e]|] eqn:E; simpl; [|done]. apply list_find_Some in E as (Hi & <- & _).
    intros Hf. split; [|by apply (field_at_key s)]. exists e. split; [by eapply list_elem_of_lookup_2|done].
  - intros [(e & He & Hf) Hk]. pose proof (field_at_key _ _ _ Hf) as Hk'.
    destruct (list_find_elem_of (λ e, e.1 = key) l e He ltac:(congruence)) as [[i e'] E].
    rewrite E. simpl. apply list_find_Some in E as (Hi & He' & _). apply list_elem_of_lookup_2 in Hi.
    destruct e as [k v], e' as [k' v']. simpl in *. subst.
    by rewrite (nodup_entry l _ v' v Hn Hi He).
Qed.

(** ** Properties *)

(** Reading a schema ends, whatever it nests: its wrappers come off down to
    a schema nothing wraps, which has the same kind, and only what is neither a
    map nor [true] has none. *)
Theorem reading_ends_at_a_kind (k : Value) :
  peel_once (peel k) = None /\ kind_read (Some (peel k)) = kind_read (Some k) /\
  (kind_read (Some k) = KMissing <-> is_schema k = false).
Proof. split; [apply peel_bare|]. split; [apply kind_read_peel|apply kind_read_missing]. Qed.

(** Where no property is declared twice, a field is found under a key exactly
    when it is one of the fields declared, and then with what its owner requires. *)
Theorem fields_are_found (s : Value) (key : bytes) (f : FieldRef)
    (H : NoDup (map fst (map_entries (under s PROPERTIES)))) :
  schema_find s key = Some f <->
  exists v, (key, v) ∈ map_entries (under s PROPERTIES) /\ is_schema v = true /\
    f = MkField key v (is_required_in s key).
Proof.
  rewrite schema_find_spec by done. unfold fields_of. rewrite list_elem_of_omap. split.
  - intros [([k v] & He & Hf) Hk]. unfold field_at in Hf. simpl in Hf. destruct (is_schema v) eqn:Ev; [|done].
    injection Hf as <-. simpl in Hk. subst. eauto.
  - intros (v & He & Hv & ->). split; [|done]. exists (key, v). split; [done|]. unfold field_at. cbn [fst snd]. by rewrite Hv.
Qed.

Lemma fields_are_found_witness :
  schema_find (VMap [(PROPERTIES, VMap [(bs "a", VMap []); (bs "b", VBool true)]); (REQUIRED, VList [VString (bs "b")])])
    (bs "b") = Some (MkField (bs "b") (VBool true) true).
Proof.
  apply fields_are_found; [by_eval|]. exists (VBool true). split; [by_eval|]. split; reflexivity.
Defined.
