(* ===== verification/Validate.v ===== *)
(** * Validation

    [schema/validate.rs] and [schema/pattern.rs]: whether a schema accepts a text,
    a value, a map of values. The two recursions run over two trees a caller did
    not write, and stop [MAX_DEPTH] levels down: [room] is how many are left. *)

From Stdlib Require Import SpecFloat.
From S2P Require Import Prelude Decimal Errors SchemaErrors Number Value Maps JsonNumber Float64 Vocab SchemaRead.

(** ** Refusing *)

(** [bad]. *)
Definition bad {A} (key : bytes) (e : Expected) : result ValidationError A := Err (BadValue key e).

(** [BOOL_WORDS], [bool_is_true] and [text_of]. The lossy reading of bytes is the
    standard library's. *)
Definition BOOL_WORDS : list bytes :=
  Eval vm_compute in map bs ["1"; "0"; "true"; "false"; "yes"; "no"; ""].
Definition bool_is_true (value : bytes) : bool :=
  match value with
  | [] => true
  | _ => bool_decide (value ∈ map bs ["1"; "true"; "yes"])
  end.
Definition text_of (lossy : bytes -> bytes) (v : Value) : bytes :=
  match tag v with
  | Ok GUATIAO_BOOL => if bool_or (Some v) false then bs "true" else bs "false"
  | Ok GUATIAO_NUMBER => default [] (as_number v)
  | Ok GUATIAO_STRING => default [] (as_text v)
  | Ok GUATIAO_BYTES => lossy (default [] (as_buffer v))
  | _ => []
  end.

(** ** Numbers *)

(** [is_integer_text] and [number_of]. *)
Definition is_integer_text (text : bytes) : bool :=
  is_number text && negb (existsb (λ b, (b =? 46) || (b =? 101) || (b =? 69)) text).
Definition number_of (text : bytes) : option f64 :=
  if is_number text then x ← parse_f64 text; if is_finite x then Some x else None else None.

(** [Bounds::read] and [Bounds::admit]: a bound that is no number is no bound. *)
Definition bounds_read (s : Value) : Bounds :=
  let at_ key := under s key ≫= as_number in
  MkBounds (at_ MINIMUM) (at_ MAXIMUM) (at_ EXCLUSIVE_MINIMUM) (at_ EXCLUSIVE_MAXIMUM).
Definition is_ge (c : comparison) : bool := match c with Lt => false | _ => true end.
Definition is_le (c : comparison) : bool := match c with Gt => false | _ => true end.
Definition is_gt (c : comparison) : bool := match c with Gt => true | _ => false end.
Definition is_lt (c : comparison) : bool := match c with Lt => true | _ => false end.
Definition bounded_by (text : bytes) (bound : option bytes) (ok : comparison -> bool) : bool :=
  match bound with
  | None => true
  | Some b => match compare text b with None => true | Some c => ok c end
  end.
Definition admit_ (b : Bounds) (text : bytes) : bool :=
  bounded_by text (bmin b) is_ge && bounded_by text (bmax b) is_le &&
  bounded_by text (exclusive_min b) is_gt && bounded_by text (exclusive_max b) is_lt.

(** [float_is_multiple] and [int_is_multiple]. *)
Definition float_is_multiple (x step : f64) : bool :=
  let nearest := f64_mul (f64_round (f64_div x step)) step in
  SFleb (SFabs (f64_sub nearest x))
    (f64_mul (f64_mul EPSILON (f64_max (SFabs x) (f64_of false 1))) (f64_of false 4)).
Definition int_is_multiple (text : bytes) (step : f64) : bool :=
  if SFeqb (f64_fract step) (S754_zero false) && SFltb step (f64_of false (9 * 10 ^ 18)) then
    let step := f64_as (- i128_max - 1) i128_max step in
    match parse_int (- i128_max - 1) i128_max text with Some n => Z.rem n step =? 0 | None => true end
  else
    match parse_f64 text with Some x => float_is_multiple x step | None => true end.

(** A minus sign where the minimum is at least zero: an unsigned type refuses
    the spelling [-0]. *)
Definition unsigned_minus (b : Bounds) (text : bytes) : bool :=
  bool_decide (head text = Some 45) &&
  match bmin b with Some m => match compare m (bs "0") with Some c => is_ge c | None => false end | None => false end.

(** ** Patterns *)

(** What [\d], [\D], [\w] and [\W] become; inside a class there is no spelling of
    the last two. *)
Definition class_of (classes : nat) (c : byte) : bytes :=
  match classes with
  | O =>
      if c =? 100 then bs "[0-9]" else if c =? 68 then bs "[^0-9]"
      else if c =? 119 then bs "[A-Za-z0-9_]" else if c =? 87 then bs "[^A-Za-z0-9_]"
      else [92; c]
  | S _ => if c =? 100 then bs "0-9" else if c =? 119 then bs "A-Za-z0-9_" else [92; c]
  end.
(** [ecma_classes]: how many character classes deep the scan is, and whether the
    last character opened one. The characters it looks at are one byte each. *)
Fixpoint ecma_from (l : bytes) (classes : nat) (start : bool) : bytes :=
  match l with
  | [] => []
  | c :: l =>
      if c =? 92 then
        match l with
        | [] => [92]
        | d :: l => class_of classes d ++ ecma_from l classes false
        end
      else if c =? 91 then
        match l with
        | d :: l' => if d =? 94 then 91 :: 94 :: ecma_from l' (S classes) true
                     else 91 :: ecma_from l (S classes) true
        | [] => [91]
        end
      else if (c =? 93) && negb (classes =? 0)%nat && negb start then 93 :: ecma_from l (classes - 1) false
      else c :: ecma_from l classes false
  end.
Definition ecma_classes (pattern : bytes) : bytes :=
  if existsb (λ b, bool_decide (b ∈ [100; 68; 119; 87])) pattern then ecma_from pattern 0 false else pattern.

Example ecma_ex : ecma_classes (bs "^\d[]\d\w-\D]\\d") = bs "^[0-9][]0-9A-Za-z0-9_-\D]\\d".
Proof. vm_compute. done. Qed.

(** ** Shapes *)

(** [at_index] and [nested], the keys an error reports. *)
Definition at_index (key : bytes) (i : nat) : bytes := key ++ bs "[" ++ dec (Z.of_nat i) ++ bs "]".
Definition nested (key name : bytes) : bytes := match key with [] => name | _ => key ++ bs "." ++ name end.
Definition bracket_key (key name : bytes) : bytes := key ++ bs "[" ++ name ++ bs "]".

(** [excluded] and [other_than]. *)
Definition excluded (s : Value) : option Value := under (peel s) NOT.
Definition other_than (x : Value) : Expected := OtherThan (omap (λ m, member_text m.1) (members x)).
(** [arm_names] and [one_of_members]. *)
Definition arm_names (k : Kind) : list bytes := arm_value <$> arms k.
Definition one_of_members (k : Kind) : Expected := OneOfMembers (choice_value <$> choices k).

(** [flag] and [count]. *)
Definition flag (s : Value) (key : bytes) : bool := bool_or (under (peel s) key) false.
Definition count (s : Value) (key : bytes) : option Z :=
  text ← under s key ≫= as_number; parse_int 0 u64_max text.

(** [Undeclared] and [undeclared_rule]. *)
Inductive Undeclared : Type := Refused_ | Accepted_ | Checked (s : Value).
Definition undeclared_rule (owner : Value) : Undeclared :=
  match under owner ADDITIONAL_PROPERTIES with
  | Some v =>
      if has_tag GUATIAO_BOOL v && negb (bool_or (Some v) true) then Refused_
      else if is_map_ v then Checked v else Accepted_
  | None => Accepted_
  end.

(** [admits] and [type_admits]. *)
Definition admits (name : bytes) (v : Value) : bool :=
  if decide (name = TYPE_NULL) then has_tag GUATIAO_NULL v
  else if decide (name = TYPE_BOOLEAN) then has_tag GUATIAO_BOOL v
  else if decide (name = TYPE_STRING) then has_tag GUATIAO_STRING v
  else if decide (name = TYPE_BYTES) then has_tag GUATIAO_BYTES v
  else if decide (name = TYPE_ARRAY) then has_tag GUATIAO_LIST v
  else if decide (name = TYPE_OBJECT) then has_tag GUATIAO_MAP v
  else if decide (name = TYPE_NUMBER) then has_tag GUATIAO_NUMBER v
  else if decide (name = TYPE_INTEGER) then match as_number v with Some n => is_whole n | None => false end
  else true.
Definition type_admits (s v : Value) : bool :=
  match under s TYPE with
  | None => true
  | Some ty =>
      match as_text ty with
      | Some name => admits name v
      | None =>
          match omap as_text (list_items (Some ty)) with
          | [] => true
          | names => existsb (λ name, admits name v) names
          end
      end
  end.

(** [same_json]. *)
Definition same_json (a b : Value) : bool :=
  match as_number a, as_number b with
  | Some x, Some y =>
      bool_decide (x = y) ||
      ((length x <=? 15)%nat && (length y <=? 15)%nat &&
       match parse_f64 x, parse_f64 y with Some p, Some q => SFeqb p q | _, _ => false end)
  | _, _ => value_eqb a b
  end.

(** [first_repeat]. *)
Definition repeats_at (l : list Value) (i : nat) : bool :=
  match l !! i with Some x => existsb (λ e, same_json e x) (take i l) | None => false end.
Definition first_repeat (l : list Value) : option nat :=
  head (List.filter (repeats_at l) (seq 1 (length l - 1))).

(** The number of characters of a text: the bytes that start one. *)
Definition chars_count (text : bytes) : Z := Z.of_nat (length (List.filter (λ b, negb (is_cont b)) text)).
(** [min.is_some_and(|m| n < m) || max.is_some_and(|m| n > m)]. *)
Definition outside (n : Z) (min max : option Z) : bool :=
  match min with Some m => n <? m | None => false end || match max with Some m => m <? n | None => false end.

(** A [for] loop whose body refuses or goes on, and one over [enumerate]. *)
Definition for_each {E A : Type} (f : A -> result E unit) (l : list A) : result E unit :=
  try_fold (λ _ x, f x) () l.
Definition enumerate {A : Type} (l : list A) : list (nat * A) := imap (λ i x, (i, x)) l.

Section validate.
(** The [regex] crate, where the build has it: what compiling a pattern answers,
    and then whether a text matches. *)
Variable regex : option (bytes -> option (bytes -> bool)).

(** [pattern::matches]. *)
Definition matches (pattern text : bytes) : bool :=
  match regex with
  | None => true
  | Some new => match new (ecma_classes pattern) with None => true | Some is_match => is_match text end
  end.

(** ** The check of a text *)

(** The scalars' rules of [against]: the text's own, with the schema's bounds. *)
Definition against_str (key value : bytes) (min max : option Z) (pattern : option bytes)
    : result ValidationError unit :=
  if outside (chars_count value) min max then bad key (Lengths min max)
  else match pattern with
       | Some p => if matches p value then Ok () else bad key (TextMatching p)
       | None => Ok ()
       end.
Definition against_int (own : Value) (key value : bytes) (multiple_of : option f64)
    : result ValidationError unit :=
  if negb (is_integer_text value) then bad key WholeNumber
  else
    let bounds := bounds_read own in
    if negb (admit_ bounds value) then bad key (Within bounds)
    else if unsigned_minus bounds value then bad key (WithinNoMinus bounds)
    else match multiple_of with
         | Some step => if int_is_multiple value step then Ok () else bad key (MultipleOf step)
         | None => Ok ()
         end.
Definition against_float (own : Value) (key value : bytes) (multiple_of : option f64)
    : result ValidationError unit :=
  match number_of value with
  | None => bad key ANumber
  | Some x =>
      let bounds := bounds_read own in
      if negb (admit_ bounds value) then bad key (Within bounds)
      else match multiple_of with
           | Some step => if float_is_multiple x step then Ok () else bad key (MultipleOf step)
           | None => Ok ()
           end
  end.

(** [against]. *)
Fixpoint against (room : nat) (s : Value) (key value : bytes) : result ValidationError unit :=
  match room with
  | O => bad key NoDeeper
  | S room =>
      match x ← excluded s; if is_ok (against room x key value) then Some (other_than x) else None with
      | Some e => bad key e
      | None =>
        let kind := kind_read (Some s) in
        let own := peel s in
        match kind with
        | KStr min max pattern _ => against_str key value min max pattern
        | KBool => if bool_decide (value ∈ BOOL_WORDS) then Ok () else bad key BooleanText
        | KInt _ _ step => against_int own key value step
        | KFloat _ _ step => against_float own key value step
        | KEnum _ =>
            if existsb (λ c, bool_decide (choice_value c = value)) (choices kind) then Ok ()
            else bad key (one_of_members kind)
        | KNull => bad key ExpectNull
        | KVariant _ _ =>
            if existsb (λ a, bool_decide (arm_value a = value)) (arms kind) then Ok ()
            else bad key (OneOfArms (arm_names kind))
        | KUnion any_of =>
            if existsb (λ arm, is_ok (against room arm key value)) (list_items (Some any_of)) then Ok ()
            else bad key AcceptedForm
        | KBytes | KList _ _ _ | KTuple _ | KMap _ | KMapOf _ => Ok ()
        | KUnknown _ => Ok ()
        | KMissing => bad key DeclaredKind
        end
      end
  end.

(** [names_against]: every key against [propertyNames], as text. *)
Definition names_against (room : nat) (owner : Value) (key : bytes) (m : list (bytes * Value))
    : result ValidationError unit :=
  match under owner PROPERTY_NAMES with
  | None => Ok ()
  | Some names =>
      for_each (λ e, let at_ := bracket_key key e.1 in
        map_err (λ _, BadValue at_ ReadableKey) (against room names at_ e.1)) m
  end.

(** ** The check of a value

    Each shape's rules over [check], the recursion one level down. *)
Section shapes.
Variable check : Value -> bytes -> Value -> result ValidationError unit.

(** [undeclared]. *)
Definition undeclared (owner : Value) (path : bytes) (v : Value) (refusal : Expected)
    : result ValidationError unit :=
  match undeclared_rule owner with
  | Refused_ => bad path refusal
  | Accepted_ => Ok ()
  | Checked s => check s path v
  end.

(** A list's count, its elements, and that none repeats. *)
Definition unrepeated (s : Value) (key : bytes) (l : list Value) : result ValidationError unit :=
  if flag s UNIQUE_ITEMS then
    match first_repeat l with Some i => bad (at_index key i) Unrepeated | None => Ok () end
  else Ok ().
Definition check_list (s items : Value) (min max : option Z) (key : bytes) (v : Value)
    : result ValidationError unit :=
  match as_list v with
  | None => bad key AList
  | Some l =>
      if outside (Z.of_nat (length l)) min max then bad key (ListOf min max)
      else for_each (λ '(i, x), check items (at_index key i) x) (enumerate l);; unrepeated s key l
  end.
(** A tuple's element at [i]: its position's schema, then [items]. *)
Definition check_position (owner : Value) (key : bytes) (i : nat) (x : Value) : result ValidationError unit :=
  let at_ := at_index key i in
  match prefix_items owner !! i, under owner ITEMS with
  | Some position, _ => check position at_ x
  | None, Some v =>
      if has_tag GUATIAO_BOOL v && negb (bool_or (Some v) true) then
        bad key (AtMost (length (prefix_items owner)))
      else if is_map_ v then check v at_ x else Ok ()
  | None, None => Ok ()
  end.
Definition check_tuple (s owner : Value) (key : bytes) (v : Value) : result ValidationError unit :=
  match as_list v with
  | None => bad key AList
  | Some l =>
      let min := count owner MIN_ITEMS in
      let max := count owner MAX_ITEMS in
      if outside (Z.of_nat (length l)) min max then bad key (TupleOf min max)
      else for_each (λ '(i, x), check_position owner key i x) (enumerate l);; unrepeated s key l
  end.

(** A value as a map, whose keys are text. *)
Definition expect_map (key : bytes) (v : Value) (what : Expected) : result ValidationError (list (bytes * Value)) :=
  if has_tag GUATIAO_MAP v then ok_or (as_map v) (BadValue key TextKeys) else bad key what.

(** An object's entries: each answers to its field, or is undeclared; and every
    field required is there. *)
Definition check_entry (fields : list FieldRef) (owner : Value) (key : bytes) (refusal : bytes -> Expected)
    (e : bytes * Value) : result ValidationError unit :=
  let path := nested key e.1 in
  match snd <$> list_find (λ f, fkey f = e.1) fields with
  | Some f => check (fschema f) path e.2
  | None => undeclared owner path e.2 (refusal e.1)
  end.
Definition check_required (fields : list FieldRef) (key : bytes) (m : list (bytes * Value)) (what : Expected)
    : result ValidationError unit :=
  for_each (λ f, if frequired f && negb (contains_key m (fkey f)) then bad (nested key (fkey f)) what else Ok ())
    fields.
Definition check_variant (kind : Kind) (discriminant key : bytes) (v : Value) : result ValidationError unit :=
  m ← expect_map key v (Discriminated discriminant);
  let chosen := str_or (get m discriminant) [] in
  match snd <$> list_find (λ a, arm_value a = chosen) (arms kind) with
  | None => bad key (NamingOneOf discriminant (arm_names kind))
  | Some arm =>
      for_each (λ e, if decide (e.1 = discriminant) then Ok ()
        else check_entry (arm_fields arm) (arm_schema arm) key (λ name, NotOfTheArm name chosen) e) m;;
      check_required (arm_fields arm) key m (RequiredByArm chosen)
  end.
End shapes.

(** [value_against]. *)
Fixpoint value_against (room : nat) (s : Value) (key : bytes) (v : Value) : result ValidationError unit :=
  match room with
  | O => bad key NoDeeper
  | S below =>
      let kind := kind_read (Some s) in
      if has_tag GUATIAO_NULL v && is_nullable s then Ok ()
      else
        match x ← excluded s; if is_ok (value_against below x key v) then Some (other_than x) else None with
        | Some e => bad key e
        | None =>
          match kind with
          | KNull => if has_tag GUATIAO_NULL v then Ok () else bad key ExpectNull
          | KBytes => if has_tag GUATIAO_BYTES v then Ok () else bad key SomeBytes
          | KBool => if has_tag GUATIAO_BOOL v then Ok () else bad key Boolean
          | KInt _ _ _ =>
              match as_number v with Some n => against (S below) s key n | None => bad key WholeNumber end
          | KFloat _ _ _ =>
              match as_number v with Some n => against (S below) s key n | None => bad key ANumber end
          | KStr _ _ _ _ =>
              match as_text v with Some t => against (S below) s key t | None => bad key SomeText end
          | KEnum owner =>
              if type_admits owner v && existsb (λ m, same_json m.1 v) (members owner) then Ok ()
              else bad key (one_of_members kind)
          | KUnion any_of =>
              if existsb (λ arm, is_ok (value_against below arm key v)) (list_items (Some any_of)) then Ok ()
              else bad key AcceptedForm
          | KList items min max => check_list (value_against below) s items min max key v
          | KTuple owner => check_tuple (value_against below) s owner key v
          | KMapOf owner =>
              m ← expect_map key v AnObject;
              names_against below owner key m;;
              match under owner ADDITIONAL_PROPERTIES with
              | None => Ok ()
              | Some element => for_each (λ e, value_against below element (bracket_key key e.1) e.2) m
              end
          | KMap owner =>
              m ← expect_map key v AnObject;
              names_against below owner key m;;
              for_each (check_entry (value_against below) (kind_fields kind) owner key NotAField) m;;
              check_required (kind_fields kind) key m RequiredValue
          | KUnknown _ => Ok ()
          | KMissing => bad key DeclaredKind
          | KVariant discriminant _ => check_variant (value_against below) kind discriminant key v
          end
        end
  end.

(** [validate_text], [validate_value] and [accepts]. *)
Definition validate_text (f : FieldRef) (text : bytes) : result ValidationError unit :=
  against MAX_DEPTH (fschema f) (fkey f) text.
Definition validate_value (f : FieldRef) (v : Value) : result ValidationError unit :=
  value_against MAX_DEPTH (fschema f) (fkey f) v.
Definition accepts (s v : Value) : bool := is_ok (value_against MAX_DEPTH s [] v).

(** [validate_map]. *)
Definition map_entry (s : Value) (e : bytes * Value) : result ValidationError unit :=
  match schema_find s e.1 with
  | Some f => validate_value f e.2
  | None =>
      match undeclared_rule s with
      | Refused_ => Err (UnknownOption e.1 (fkey <$> fields_of s))
      | Accepted_ => Ok ()
      | Checked element => value_against (MAX_DEPTH - 1) element e.1 e.2
      end
  end.
Definition validate_map (s values : Value) : result ValidationError unit :=
  match kind_read (Some s) with
  | KMap _ | KUnknown _ | KMissing =>
      m ← expect_map [] values MapOfValues;
      for_each (map_entry s) m;;
      for_each (λ f, if frequired f && negb (match as_map values with Some m => contains_key m (fkey f) | None => false end)
                     then bad (fkey f) RequiredValue else Ok ()) (fields_of s)
  | _ => value_against MAX_DEPTH s [] values
  end.
End validate.
