(* ===== verification/ValidateLaws.v ===== *)
(** * What validation accepts

    A schema's meaning as a relation between a schema and a value, with no order
    and no errors, and the proof that [Validate.value_against] and
    [Validate.against] decide it; where a refusal points, and that it says nothing
    of what was refused. *)

From Stdlib Require Import SpecFloat.
From S2P Require Import Prelude Decimal Errors SchemaErrors Number Value Maps JsonNumber Float64 Vocab SchemaRead Validate.

(** ** Loops that refuse *)

Lemma for_each_cons {E A} (f : A -> result E unit) x l : for_each f (x :: l) = (f x;; for_each f l).
Proof. unfold for_each. simpl. by destruct (f x) as [[]|]. Qed.

Lemma seq_Ok {E} (m : result E unit) (n : result E unit) : (m;; n) = Ok () <-> m = Ok () /\ n = Ok ().
Proof. destruct m as [[]|]; simpl; naive_solver. Qed.

Lemma for_each_Ok {E A} (f : A -> result E unit) l : for_each f l = Ok () <-> forall x, x ∈ l -> f x = Ok ().
Proof.
  induction l as [|x l IH]; [split; [by intros _ x ?%elem_of_nil|done]|].
  rewrite for_each_cons, seq_Ok, IH. setoid_rewrite elem_of_cons. naive_solver.
Qed.

Lemma for_each_enumerate {E A} (f : nat * A -> result E unit) l :
  for_each f (enumerate l) = Ok () <-> forall i x, l !! i = Some x -> f (i, x) = Ok ().
Proof.
  rewrite for_each_Ok. unfold enumerate. split.
  - intros H i x Hi. apply H. apply list_elem_of_lookup. exists i. by rewrite list_lookup_imap, Hi.
  - intros H [i x] Hin. apply list_elem_of_lookup in Hin as [j Hj]. rewrite list_lookup_imap in Hj.
    destruct (l !! j) as [y|] eqn:E1; [|done]. simpl in Hj. injection Hj as <- <-. by apply H.
Qed.

Lemma existsb_elem {A} (f : A -> bool) l : existsb f l = true <-> exists x, x ∈ l /\ f x = true.
Proof. rewrite existsb_exists. setoid_rewrite <- list_elem_of_In. done. Qed.

Lemma is_ok_iff {E} (m : result E unit) : is_ok m = true <-> m = Ok ().
Proof. destruct m as [[]|]; done. Qed.

(** ** The relation *)

Section spec.
Variable regex : option (bytes -> option (bytes -> bool)).

(** A number lies within its bounds, as numbers are ordered. *)
Definition bound_ok (t : bytes) (bound : option bytes) (bad : comparison -> bool) : Prop :=
  forall b c, bound = Some b -> compare t b = Some c -> bad c = false.
Definition in_bounds (b : Bounds) (t : bytes) : Prop :=
  bound_ok t (bmin b) is_lt /\ bound_ok t (bmax b) is_gt /\
  bound_ok t (exclusive_min b) is_le /\ bound_ok t (exclusive_max b) is_ge.

(** A count within the counts a schema gives. *)
Definition count_ok (n : Z) (min max : option Z) : Prop :=
  (forall m, min = Some m -> m <= n) /\ (forall m, max = Some m -> n <= m).

(** A text a schema describes. *)
Fixpoint TextOk (room : nat) (s : Value) (t : bytes) : Prop :=
  match room with
  | O => False
  | S room =>
      (forall x, excluded s = Some x -> ~ TextOk room x t) /\
      match kind_read (Some s) with
      | KStr min max pattern _ =>
          count_ok (chars_count t) min max /\ (forall p, pattern = Some p -> matches regex p t = true)
      | KBool => t ∈ BOOL_WORDS
      | KInt _ _ step =>
          is_integer_text t = true /\ in_bounds (bounds_read (peel s)) t /\
          unsigned_minus (bounds_read (peel s)) t = false /\
          (forall n, step = Some n -> int_is_multiple t n = true)
      | KFloat _ _ step =>
          exists x, number_of t = Some x /\ in_bounds (bounds_read (peel s)) t /\
            (forall n, step = Some n -> float_is_multiple x n = true)
      | KEnum _ => exists c, c ∈ choices (kind_read (Some s)) /\ choice_value c = t
      | KVariant _ _ => exists a, a ∈ arms (kind_read (Some s)) /\ arm_value a = t
      | KUnion any_of => exists arm, arm ∈ list_items (Some any_of) /\ TextOk room arm t
      | KBytes | KList _ _ _ | KTuple _ | KMap _ | KMapOf _ | KUnknown _ => True
      | KNull | KMissing => False
      end
  end.

(** A value a schema describes. [P] is what a schema below describes. *)
Section shapes.
Variable P : Value -> Value -> Prop.

(** No element is equal to an earlier one. *)
Definition distinct (l : list Value) : Prop :=
  forall i j x y, (i < j)%nat -> l !! i = Some x -> l !! j = Some y -> same_json x y = false.
Definition unique_ok (s : Value) (l : list Value) : Prop := flag s UNIQUE_ITEMS = true -> distinct l.

Definition UndeclaredOk (owner v : Value) : Prop :=
  match undeclared_rule owner with Refused_ => False | Accepted_ => True | Checked s => P s v end.
Definition PositionOk (owner : Value) (i : nat) (x : Value) : Prop :=
  match prefix_items owner !! i with
  | Some position => P position x
  | None =>
      match under owner ITEMS with
      | Some rest => rest <> VBool false /\ (is_map_ rest = true -> P rest x)
      | None => True
      end
  end.
(** Every entry is what its field says, or an undeclared entry that may be
    there; every field required is there. *)
Definition EntryOk (fields : list FieldRef) (owner : Value) (e : bytes * Value) : Prop :=
  match snd <$> list_find (λ f, fkey f = e.1) fields with
  | Some f => P (fschema f) e.2
  | None => UndeclaredOk owner e.2
  end.
Definition RequiredOk (fields : list FieldRef) (m : list (bytes * Value)) : Prop :=
  forall f, f ∈ fields -> frequired f = true -> fkey f ∈ keys m.
Definition NamesOk (room : nat) (owner : Value) (m : list (bytes * Value)) : Prop :=
  forall names, under owner PROPERTY_NAMES = Some names -> forall e, e ∈ m -> TextOk room names e.1.
End shapes.

Fixpoint Describes (room : nat) (s v : Value) : Prop :=
  match room with
  | O => False
  | S below =>
      (v = VNull /\ is_nullable s = true) \/
      (forall x, excluded s = Some x -> ~ Describes below x v) /\
      match kind_read (Some s) with
      | KNull => v = VNull
      | KBytes => exists b, v = VBytes b
      | KBool => exists b, v = VBool b
      | KInt _ _ _ | KFloat _ _ _ => exists n, as_number v = Some n /\ TextOk (S below) s n
      | KStr _ _ _ _ => exists t, as_text v = Some t /\ TextOk (S below) s t
      | KEnum owner => type_admits owner v = true /\ exists m, m ∈ members owner /\ same_json m.1 v = true
      | KUnion any_of => exists arm, arm ∈ list_items (Some any_of) /\ Describes below arm v
      | KList items min max =>
          exists l, as_list v = Some l /\ count_ok (Z.of_nat (length l)) min max /\
            (forall x, x ∈ l -> Describes below items x) /\ unique_ok s l
      | KTuple owner =>
          exists l, as_list v = Some l /\
            count_ok (Z.of_nat (length l)) (count owner MIN_ITEMS) (count owner MAX_ITEMS) /\
            (forall i x, l !! i = Some x -> PositionOk (Describes below) owner i x) /\ unique_ok s l
      | KMapOf owner =>
          exists m, as_map v = Some m /\ NamesOk below owner m /\
            (forall element, under owner ADDITIONAL_PROPERTIES = Some element ->
              forall e, e ∈ m -> Describes below element e.2)
      | KMap owner =>
          exists m, as_map v = Some m /\ NamesOk below owner m /\
            (forall e, e ∈ m -> EntryOk (Describes below) (fields_of owner) owner e) /\
            RequiredOk (fields_of owner) m
      | KVariant tag arm_list =>
          exists m a, as_map v = Some m /\
            snd <$> list_find (λ a, arm_value a = str_or (get m tag) []) (arms (KVariant tag arm_list)) = Some a /\
            (forall e, e ∈ m -> e.1 <> tag -> EntryOk (Describes below) (arm_fields a) (arm_schema a) e) /\
            RequiredOk (arm_fields a) m
      | KUnknown _ => True
      | KMissing => False
      end
  end.

(** ** Tags and arms *)

Lemma has_tag_spec t v : has_tag t v = true <->
  match t with
  | GUATIAO_ABSENT => v = VAbsent
  | GUATIAO_NULL => v = VNull
  | GUATIAO_BOOL => exists b, v = VBool b
  | GUATIAO_NUMBER => exists b, v = VNumber b
  | GUATIAO_STRING => exists b, v = VString b
  | GUATIAO_BYTES => exists b, v = VBytes b
  | GUATIAO_LIST => exists l, v = VList l
  | GUATIAO_MAP => exists m, v = VMap m
  end.
Proof.
  unfold has_tag. destruct v; [..|rewrite tag_unknown; destruct t; naive_solver]; destruct t; vm_compute;
    (split; [intros; try discriminate; eauto|intros H; try discriminate H; try (destruct H; discriminate); done]).
Qed.

Lemma has_tag_null v : has_tag GUATIAO_NULL v = true <-> v = VNull.
Proof. apply has_tag_spec. Qed.

(** [items: false], as the code asks it. *)
Lemma is_false_schema v : has_tag GUATIAO_BOOL v && negb (bool_or (Some v) true) = true <-> v = VBool false.
Proof.
  rewrite andb_true_iff, has_tag_spec. split.
  - by intros [[[] ->] H].
  - intros ->. split; [eauto|done].
Qed.

Lemma expect_map_Ok key v what m : expect_map key v what = Ok m <-> as_map v = Some m.
Proof.
  unfold expect_map. destruct (has_tag GUATIAO_MAP v) eqn:E; [apply ok_or_Ok|]. split; [done|].
  intros [-> _]%as_map_Some. assert (has_tag GUATIAO_MAP (VMap m) = true) by (apply has_tag_spec; eauto). congruence.
Qed.

(** ** Numbers and counts *)

Lemma outside_spec n min max : outside n min max = false <-> count_ok n min max.
Proof.
  unfold outside, count_ok. rewrite orb_false_iff. destruct min, max; rewrite ?Z.ltb_ge; naive_solver.
Qed.

Lemma bounded_by_spec t b ok bad : (forall c, bad c = negb (ok c)) ->
  bounded_by t b ok = true <-> bound_ok t b bad.
Proof.
  intros Hb. unfold bounded_by, bound_ok. destruct b as [b|]; [|naive_solver].
  destruct (compare t b) as [c|] eqn:E; [|naive_solver].
  split.
  - intros H b' c' [= <-] E'. rewrite Hb. rewrite E in E'. injection E' as <-. by rewrite H.
  - intros H. specialize (H b c eq_refl E). rewrite Hb in H. by apply negb_false_iff in H.
Qed.

Lemma admit_spec b t : admit_ b t = true <-> in_bounds b t.
Proof.
  unfold admit_, in_bounds. rewrite !andb_true_iff.
  rewrite (bounded_by_spec t (bmin b) is_ge is_lt), (bounded_by_spec t (bmax b) is_le is_gt),
    (bounded_by_spec t (exclusive_min b) is_gt is_le), (bounded_by_spec t (exclusive_max b) is_lt is_ge)
    by (by intros []).
  tauto.
Qed.

(** ** Refusing, and accepting *)

Lemma refuse_iff {A} (b : bool) (x : A) (e : ValidationError) :
  (if b then Ok x else Err e) = Ok x <-> b = true.
Proof. destruct b; naive_solver. Qed.

Lemma left_absorb_false (A B : Prop) : ~ A -> (A \/ B) <-> B.
Proof. tauto. Qed.

(** What [not] adds to the rest of a check. *)
Lemma excluded_Ok (s : Value) (f : Value -> result ValidationError unit) (g : Value -> Prop) key m :
  (forall x, f x = Ok () <-> g x) ->
  (match x ← excluded s; if is_ok (f x) then Some (other_than x) else None with
   | Some e => bad key e
   | None => m
   end = Ok ()) <-> (forall x, excluded s = Some x -> ~ g x) /\ m = Ok ().
Proof.
  intros Hf. destruct (excluded s) as [x|]; simpl; [|naive_solver].
  destruct (is_ok (f x)) eqn:E.
  - apply is_ok_iff, Hf in E. unfold bad. naive_solver.
  - assert (~ g x) by (intros Hg%Hf%is_ok_iff; congruence). naive_solver.
Qed.

(** ** Texts *)

Lemma against_str_Ok key t min max pattern : against_str regex key t min max pattern = Ok () <->
  count_ok (chars_count t) min max /\ (forall p, pattern = Some p -> matches regex p t = true).
Proof.
  unfold against_str. rewrite <- outside_spec. destruct (outside _ _ _); [unfold bad; naive_solver|].
  destruct pattern as [p|]; [|naive_solver]. unfold bad. rewrite refuse_iff. naive_solver.
Qed.

Lemma against_int_Ok own key t step : against_int own key t step = Ok () <->
  is_integer_text t = true /\ in_bounds (bounds_read own) t /\ unsigned_minus (bounds_read own) t = false /\
  (forall n, step = Some n -> int_is_multiple t n = true).
Proof.
  unfold against_int, bad. cbv zeta. rewrite <- admit_spec.
  destruct (is_integer_text t); [|naive_solver]. destruct (admit_ _ _); [|naive_solver].
  destruct (unsigned_minus _ _); [naive_solver|]. destruct step as [n|]; simpl; [|naive_solver].
  rewrite refuse_iff. naive_solver.
Qed.

Lemma against_float_Ok own key t step : against_float own key t step = Ok () <->
  exists x, number_of t = Some x /\ in_bounds (bounds_read own) t /\
    (forall n, step = Some n -> float_is_multiple x n = true).
Proof.
  unfold against_float, bad. cbv zeta. setoid_rewrite <- admit_spec. destruct (number_of t) as [x|]; [|naive_solver].
  destruct (admit_ _ _); [|naive_solver]. destruct step as [n|]; simpl; [|naive_solver].
  rewrite refuse_iff. naive_solver.
Qed.

Lemma against_Ok room : forall s key t, against regex room s key t = Ok () <-> TextOk room s t.
Proof.
  induction room as [|room IH]; intros s key t; [done|]. cbn [against TextOk]. cbv zeta.
  rewrite (excluded_Ok s (λ x, against regex room x key t) (λ x, TextOk room x t)) by (intros; apply IH).
  apply and_iff_compat_l. set (kd := kind_read (Some s)). clearbody kd.
  destruct kd; unfold bad; rewrite ?refuse_iff, ?existsb_elem, ?bool_decide_eq_true; try (by split).
  - apply against_int_Ok.
  - apply against_float_Ok.
  - apply against_str_Ok.
  - by setoid_rewrite bool_decide_eq_true.
  - setoid_rewrite is_ok_iff. by setoid_rewrite IH.
  - by setoid_rewrite bool_decide_eq_true.
Qed.

Lemma names_against_Ok room owner key m :
  names_against regex room owner key m = Ok () <-> NamesOk room owner m.
Proof.
  unfold names_against, NamesOk. destruct (under owner PROPERTY_NAMES) as [names|]; [|naive_solver].
  rewrite for_each_Ok. setoid_rewrite map_err_Ok. setoid_rewrite against_Ok. naive_solver.
Qed.

(** ** Values, one shape at a time *)

Section shapes_Ok.
Variable check : Value -> bytes -> Value -> result ValidationError unit.
Variable P : Value -> Value -> Prop.
Hypothesis check_Ok : forall s key v, check s key v = Ok () <-> P s v.

Lemma undeclared_Ok owner path v refusal : undeclared check owner path v refusal = Ok () <-> UndeclaredOk P owner v.
Proof.
  unfold undeclared, UndeclaredOk. destruct (undeclared_rule owner); [unfold bad; naive_solver|done|apply check_Ok].
Qed.

Lemma first_repeat_None l : first_repeat l = None <-> distinct l.
Proof.
  unfold first_repeat. split.
  - intros H i j x y Hij Hi Hj. destruct (same_json x y) eqn:E; [|done]. exfalso.
    assert (In j (List.filter (repeats_at l) (seq 1 (length l - 1)))) as Hin.
    { apply filter_In. split.
      - apply in_seq. apply lookup_lt_Some in Hj. lia.
      - unfold repeats_at. rewrite Hj. apply existsb_elem. exists x. split; [|done].
        apply list_elem_of_lookup. exists i. by rewrite lookup_take_lt. }
    destruct (List.filter _ _); [destruct Hin|done].
  - intros H. destruct (List.filter _ _) as [|j js] eqn:E; [done|]. exfalso.
    assert (In j (j :: js)) as Hin by (by left). rewrite <- E in Hin. apply filter_In in Hin as [_ Hj].
    unfold repeats_at in Hj. destruct (l !! j) as [y|] eqn:Ey; [|done].
    apply existsb_elem in Hj as (x & Hx & Hs). apply list_elem_of_lookup in Hx as [i Hi].
    apply lookup_take_Some in Hi as [Hi Hij]. rewrite (H i j x y Hij Hi Ey) in Hs. done.
Qed.

Lemma unrepeated_Ok s key l : unrepeated s key l = Ok () <-> unique_ok s l.
Proof.
  unfold unrepeated, unique_ok. rewrite <- first_repeat_None. unfold bad.
  destruct (flag s UNIQUE_ITEMS); [|naive_solver]. destruct (first_repeat l); naive_solver.
Qed.

(** The list a value is, once it is known. *)
Lemma list_shape (l : list Value) (Q : list Value -> Prop) : (exists l', Some l = Some l' /\ Q l') <-> Q l.
Proof. naive_solver. Qed.

Lemma check_list_Ok s items min max key v : check_list check s items min max key v = Ok () <->
  exists l, as_list v = Some l /\ count_ok (Z.of_nat (length l)) min max /\
    (forall x, x ∈ l -> P items x) /\ unique_ok s l.
Proof.
  unfold check_list. destruct (as_list v) as [l|]; [|unfold bad; naive_solver].
  rewrite list_shape, <- outside_spec. destruct (outside _ _ _); [unfold bad; naive_solver|].
  rewrite seq_Ok, for_each_enumerate, unrepeated_Ok. setoid_rewrite check_Ok.
  setoid_rewrite list_elem_of_lookup. naive_solver.
Qed.

Lemma check_position_Ok owner key i x : check_position check owner key i x = Ok () <-> PositionOk P owner i x.
Proof.
  unfold check_position, PositionOk. cbv zeta. destruct (prefix_items owner !! i); [apply check_Ok|].
  destruct (under owner ITEMS) as [rest|]; [|done]. pose proof (is_false_schema rest) as Hf.
  destruct (_ && _); [unfold bad; naive_solver|]. destruct (is_map_ rest); [rewrite check_Ok|]; naive_solver.
Qed.

Lemma check_tuple_Ok s owner key v : check_tuple check s owner key v = Ok () <->
  exists l, as_list v = Some l /\
    count_ok (Z.of_nat (length l)) (count owner MIN_ITEMS) (count owner MAX_ITEMS) /\
    (forall i x, l !! i = Some x -> PositionOk P owner i x) /\ unique_ok s l.
Proof.
  unfold check_tuple. cbv zeta. destruct (as_list v) as [l|]; [|unfold bad; naive_solver].
  rewrite list_shape, <- outside_spec. destruct (outside _ _ _); [unfold bad; naive_solver|].
  rewrite seq_Ok, for_each_enumerate, unrepeated_Ok. setoid_rewrite check_position_Ok. naive_solver.
Qed.

Lemma check_entry_Ok fields owner key refusal e :
  check_entry check fields owner key refusal e = Ok () <-> EntryOk P fields owner e.
Proof.
  unfold check_entry, EntryOk. cbv zeta. destruct (snd <$> list_find _ fields); [apply check_Ok|apply undeclared_Ok].
Qed.

Lemma check_required_Ok fields key m what : check_required fields key m what = Ok () <-> RequiredOk fields m.
Proof.
  unfold check_required, RequiredOk. rewrite for_each_Ok. setoid_rewrite <- contains_key_spec.
  split; intros H f Hf; specialize (H f Hf); destruct (frequired f), (contains_key m (fkey f)); try done;
    try (by specialize (H eq_refl)); done.
Qed.

Lemma check_variant_Ok tag arm_list key v :
  check_variant check (KVariant tag arm_list) tag key v = Ok () <->
  exists m a, as_map v = Some m /\
    snd <$> list_find (λ a, arm_value a = str_or (get m tag) []) (arms (KVariant tag arm_list)) = Some a /\
    (forall e, e ∈ m -> e.1 <> tag -> EntryOk P (arm_fields a) (arm_schema a) e) /\
    RequiredOk (arm_fields a) m.
Proof.
  unfold check_variant. rewrite bind_Ok. setoid_rewrite expect_map_Ok. cbv zeta.
  assert (H : forall m a key n n' n'',
    (for_each (λ e, if decide (e.1 = tag) then Ok () else check_entry check (arm_fields a) (arm_schema a) key n e) m;;
     check_required (arm_fields a) n' m n'') = Ok () <->
    (forall e, e ∈ m -> e.1 <> tag -> EntryOk P (arm_fields a) (arm_schema a) e) /\ RequiredOk (arm_fields a) m).
  { intros m a key' n n' n''. rewrite seq_Ok, check_required_Ok, for_each_Ok. apply and_iff_compat_r.
    split; intros He e Hin; specialize (He e Hin).
    - intros Hne. rewrite decide_False in He by done. by apply check_entry_Ok in He.
    - case_decide; [done|]. apply check_entry_Ok. auto. }
  split.
  - intros (m & Hm & H'). destruct (snd <$> list_find _ _) as [a|] eqn:Ea; [|done]. exists m, a. split; [done|].
    split; [done|]. by apply H in H'.
  - intros (m & a & Hm & Ea & H'). exists m. split; [done|]. rewrite Ea. by apply H.
Qed.
End shapes_Ok.

(** ** The whole check *)

Lemma value_against_Ok room : forall s key v, value_against regex room s key v = Ok () <-> Describes room s v.
Proof.
  induction room as [|room IH]; intros s key v; [done|]. cbn [value_against Describes]. cbv zeta.
  destruct (has_tag GUATIAO_NULL v && is_nullable s) eqn:En.
  { apply andb_true_iff in En as [->%has_tag_null Hn]. split; [by left|done]. }
  assert (Hn : ~ (v = VNull /\ is_nullable s = true)).
  { intros [Hv Hs]. apply has_tag_null in Hv. by rewrite Hv, Hs in En. }
  rewrite (excluded_Ok s (λ x, value_against regex room x key v) (λ x, Describes room x v)) by (intros; apply IH).
  rewrite (left_absorb_false _ _ Hn). apply and_iff_compat_l. destruct (kind_read (Some s)) eqn:Ek; unfold bad;
    rewrite ?refuse_iff, ?has_tag_spec; try (by split).
  - destruct (as_number v) as [n|]; [rewrite against_Ok|]; naive_solver.
  - destruct (as_number v) as [n|]; [rewrite against_Ok|]; naive_solver.
  - destruct (as_text v) as [n|]; [rewrite against_Ok|]; naive_solver.
  - by apply check_list_Ok.
  - by apply check_tuple_Ok.
  - rewrite bind_Ok. setoid_rewrite expect_map_Ok. setoid_rewrite seq_Ok. setoid_rewrite seq_Ok.
    setoid_rewrite check_required_Ok. setoid_rewrite names_against_Ok. setoid_rewrite for_each_Ok.
    setoid_rewrite (check_entry_Ok (value_against regex room) (Describes room) IH). done.
  - rewrite bind_Ok. setoid_rewrite expect_map_Ok. setoid_rewrite seq_Ok. setoid_rewrite names_against_Ok.
    destruct (under k ADDITIONAL_PROPERTIES) as [el|]; [setoid_rewrite for_each_Ok; setoid_rewrite IH|]; naive_solver.
  - rewrite andb_true_iff, existsb_elem. done.
  - rewrite existsb_elem. setoid_rewrite is_ok_iff. by setoid_rewrite IH.
  - by apply check_variant_Ok.
Qed.
End spec.

(** ** Where a refusal points *)

Section refusals.
Variable regex : option (bytes -> option (bytes -> bool)).

(** Why a text is refused, and what that says: the schema's own, whatever the
    text. *)
Inductive Reason : Type :=
  | ByDepth | ByNot | ByLength | ByPattern | ByWord | ByWhole | ByNumber | ByBounds | ByMinus | ByStep
  | ByMembers | ByArms | ByNull | ByForms | ByNothing.
Definition text_phrase (s : Value) (r : Reason) : Expected :=
  let b := bounds_read (peel s) in
  match r, kind_read (Some s) with
  | ByDepth, _ => NoDeeper
  | ByNot, _ => match excluded s with Some x => other_than x | None => NoDeeper end
  | ByLength, KStr min max _ _ => Lengths min max
  | ByPattern, KStr _ _ (Some p) _ => TextMatching p
  | ByWord, _ => BooleanText
  | ByWhole, _ => WholeNumber
  | ByNumber, _ => ANumber
  | ByBounds, _ => Within b
  | ByMinus, _ => WithinNoMinus b
  | ByStep, (KInt _ _ (Some n) | KFloat _ _ (Some n)) => MultipleOf n
  | ByMembers, kind => one_of_members kind
  | ByArms, kind => OneOfArms (arm_names kind)
  | ByNull, _ => ExpectNull
  | ByForms, _ => AcceptedForm
  | ByNothing, _ => DeclaredKind
  | _, _ => NoDeeper
  end.

Ltac by_reason := intros [= <-];
  first [by exists ByDepth | by exists ByLength | by exists ByPattern | by exists ByWord | by exists ByWhole
    | by exists ByNumber | by exists ByBounds | by exists ByMinus | by exists ByStep | by exists ByMembers
    | by exists ByArms | by exists ByNull | by exists ByForms | by exists ByNothing].

Lemma against_phrase room s key t e : against regex room s key t = Err e ->
  exists r, e = BadValue key (text_phrase s r).
Proof.
  destruct room as [|room]; [intros [= <-]; by exists ByDepth|]. cbn [against]. cbv zeta.
  destruct (x ← excluded s; _) as [x|] eqn:Ex.
  - intros [= <-]. exists ByNot. unfold text_phrase. destruct (excluded s); simpl in Ex; [|done].
    destruct (is_ok _); [by injection Ex as ->|done].
  - clear Ex. unfold text_phrase, bad, against_str, against_int, against_float, bad. cbv zeta.
    destruct (kind_read (Some s)); repeat case_match; try discriminate; subst; by_reason.
Qed.

(** A refusal at or below a place. *)
Definition beneath (key : bytes) (m : result ValidationError unit) : Prop :=
  forall e, m = Err e -> exists k x, e = BadValue k x /\ key `prefix_of` k.

Lemma beneath_Ok key : beneath key (Ok ()).
Proof. by intros e. Qed.
Lemma beneath_bad key k x : key `prefix_of` k -> beneath key (bad k x).
Proof. intros H e [= <-]. eauto. Qed.
Lemma beneath_under key k m : key `prefix_of` k -> beneath k m -> beneath key m.
Proof. intros H Hm e He. destruct (Hm e He) as (k' & x & -> & ?). exists k', x. split; [done|]. by etrans. Qed.
Lemma beneath_seq key m n : beneath key m -> beneath key n -> beneath key (m;; n).
Proof. intros Hm Hn. destruct m as [[]|e]; [done|]. intros e' [= <-]. by apply Hm. Qed.
Lemma beneath_for_each {A} key (f : A -> result ValidationError unit) l :
  (forall x, beneath key (f x)) -> beneath key (for_each f l).
Proof.
  intros Hf. induction l as [|x l IH]; [apply beneath_Ok|]. rewrite for_each_cons. by apply beneath_seq.
Qed.

Lemma at_index_under key i : key `prefix_of` at_index key i.
Proof. unfold at_index. by apply prefix_app_r. Qed.
Lemma bracket_under key n : key `prefix_of` bracket_key key n.
Proof. unfold bracket_key. by apply prefix_app_r. Qed.
Lemma nested_under key n : key `prefix_of` nested key n.
Proof. unfold nested. destruct key; [apply prefix_nil|]. by apply prefix_app_r. Qed.

Lemma against_beneath room s key t : beneath key (against regex room s key t).
Proof. intros e [r ->]%against_phrase. by eauto. Qed.

Lemma names_beneath room owner key m : beneath key (names_against regex room owner key m).
Proof.
  unfold names_against. destruct (under owner PROPERTY_NAMES); [|apply beneath_Ok].
  apply beneath_for_each. intros e0 e (? & _ & ->)%map_err_Err. eexists _, _. split; [done|]. apply bracket_under.
Qed.

Section shapes.
Variable check : Value -> bytes -> Value -> result ValidationError unit.
Hypothesis check_beneath : forall s key v, beneath key (check s key v).

Lemma check_under s key k v : key `prefix_of` k -> beneath key (check s k v).
Proof. intros H. by apply (beneath_under _ k). Qed.

Lemma undeclared_beneath owner key k v x : key `prefix_of` k -> beneath key (undeclared check owner k v x).
Proof.
  intros H. unfold undeclared. destruct (undeclared_rule owner);
    [by apply beneath_bad|apply beneath_Ok|by apply check_under].
Qed.
Lemma check_entry_beneath fields owner key n e : beneath key (check_entry check fields owner key n e).
Proof.
  unfold check_entry. cbv zeta. destruct (snd <$> _); [apply check_under|apply undeclared_beneath]; apply nested_under.
Qed.
Lemma check_required_beneath fields key m x : beneath key (check_required fields key m x).
Proof.
  apply beneath_for_each. intros f. destruct (_ && _); [|apply beneath_Ok]. apply beneath_bad, nested_under.
Qed.
Lemma unrepeated_beneath s key l : beneath key (unrepeated s key l).
Proof.
  unfold unrepeated. destruct (flag _ _); [|apply beneath_Ok]. destruct (first_repeat l); [|apply beneath_Ok].
  apply beneath_bad, at_index_under.
Qed.
Lemma check_list_beneath s items min max key v : beneath key (check_list check s items min max key v).
Proof.
  unfold check_list. destruct (as_list v); [|by apply beneath_bad]. destruct (outside _ _ _); [by apply beneath_bad|].
  apply beneath_seq; [|apply unrepeated_beneath]. apply beneath_for_each. intros [i x].
  apply check_under, at_index_under.
Qed.
Lemma check_position_beneath owner key i x : beneath key (check_position check owner key i x).
Proof.
  unfold check_position. cbv zeta. repeat case_match; try apply beneath_Ok; try (by apply beneath_bad);
    apply check_under, at_index_under.
Qed.
Lemma check_tuple_beneath s owner key v : beneath key (check_tuple check s owner key v).
Proof.
  unfold check_tuple. cbv zeta. destruct (as_list v); [|by apply beneath_bad].
  destruct (outside _ _ _); [by apply beneath_bad|].
  apply beneath_seq; [|apply unrepeated_beneath]. apply beneath_for_each. intros [i x]. apply check_position_beneath.
Qed.
Lemma expect_map_beneath key v x f :
  (forall m, beneath key (f m)) -> beneath key (m ← expect_map key v x; f m).
Proof.
  intros Hf. unfold expect_map. destruct (has_tag GUATIAO_MAP v); [|by apply beneath_bad].
  destruct (as_map v); [apply Hf|]. by apply (beneath_bad key key TextKeys).
Qed.
Lemma check_variant_beneath kind tag key v : beneath key (check_variant check kind tag key v).
Proof.
  apply expect_map_beneath. intros m. cbv zeta. destruct (snd <$> _); [|by apply beneath_bad].
  apply beneath_seq; [|apply check_required_beneath]. apply beneath_for_each. intros e.
  case_decide; [apply beneath_Ok|apply check_entry_beneath].
Qed.
End shapes.

Lemma value_against_beneath room : forall s key v, beneath key (value_against regex room s key v).
Proof.
  induction room as [|room IH]; intros s key v; [by apply beneath_bad|]. cbn [value_against]. cbv zeta.
  destruct (_ && _); [apply beneath_Ok|]. destruct (excluded s ≫= _); [by apply beneath_bad|].
  destruct (kind_read (Some s)); repeat case_match; try apply beneath_Ok; try (by apply beneath_bad);
    try apply against_beneath.
  - by apply check_list_beneath.
  - by apply check_tuple_beneath.
  - apply expect_map_beneath. intros m. apply beneath_seq; [apply names_beneath|].
    apply beneath_seq; [|apply check_required_beneath]. apply beneath_for_each. intros e. by apply check_entry_beneath.
  - apply expect_map_beneath. intros m. apply beneath_seq; [apply names_beneath|].
    apply beneath_for_each. intros e. apply check_under; [done|]. apply bracket_under.
  - apply expect_map_beneath. intros m. apply beneath_seq; [apply names_beneath|apply beneath_Ok].
  - by apply check_variant_beneath.
Qed.
End refusals.

(** ** Maps of values *)

Section maps.
Variable regex : option (bytes -> option (bytes -> bool)).

(** What [validate_map] accepts: an object declared by its fields is checked a
    field at a time, and any other schema as the value it describes. *)
Definition RootEntryOk (s : Value) (e : bytes * Value) : Prop :=
  match schema_find s e.1 with
  | Some f => Describes regex MAX_DEPTH (fschema f) e.2
  | None =>
      match undeclared_rule s with
      | Refused_ => False
      | Accepted_ => True
      | Checked element => Describes regex (MAX_DEPTH - 1) element e.2
      end
  end.
Definition MapDescribes (s v : Value) : Prop :=
  match kind_read (Some s) with
  | KMap _ | KUnknown _ | KMissing =>
      exists m, as_map v = Some m /\ (forall e, e ∈ m -> RootEntryOk s e) /\ RequiredOk (fields_of s) m
  | _ => Describes regex MAX_DEPTH s v
  end.

Lemma map_entry_Ok s e : map_entry regex s e = Ok () <-> RootEntryOk s e.
Proof.
  unfold map_entry, validate_value, RootEntryOk. destruct (schema_find s e.1); [apply value_against_Ok|].
  destruct (undeclared_rule s); [naive_solver|done|apply value_against_Ok].
Qed.

Lemma validate_map_Ok s v : validate_map regex s v = Ok () <-> MapDescribes s v.
Proof.
  unfold validate_map, MapDescribes.
  assert (H : forall m, as_map v = Some m ->
    ((for_each (map_entry regex s) m;;
      for_each (λ f, if frequired f && negb (match as_map v with Some m => contains_key m (fkey f) | None => false end)
                     then bad (fkey f) RequiredValue else Ok ()) (fields_of s)) = Ok () <->
     (forall e, e ∈ m -> RootEntryOk s e) /\ RequiredOk (fields_of s) m)).
  { intros m ->. rewrite seq_Ok, for_each_Ok. setoid_rewrite map_entry_Ok. apply and_iff_compat_l.
    apply (check_required_Ok _ [] m RequiredValue). }
  destruct (kind_read (Some s)); try apply value_against_Ok; rewrite bind_Ok; setoid_rewrite expect_map_Ok;
    (split; intros (m & Hm & H'); exists m; (split; [done|]); by apply H).
Qed.
End maps.

(** ** Properties *)




(** What checking a map of values accepts: each entry its field's value, an
    undeclared one only where the schema says so, and every required field; and
    any other schema, the value it describes. *)
Theorem validate_map_decides regex s v : validate_map regex s v = Ok () <-> MapDescribes regex s v.
Proof. apply validate_map_Ok. Qed.

(** A schema and a value nested [n] lists deep. *)
Fixpoint nested_schema (n : nat) : Value :=
  match n with O => VBool true | S n => VMap [(TYPE, VString TYPE_ARRAY); (ITEMS, nested_schema n)] end.
Fixpoint nested_value (n : nat) : Value := match n with O => VNull | S n => VList [nested_value n] end.

(** An object, with what else a schema says of it. *)
Definition object_with (keyword : bytes) (s : Value) : Value :=
  VMap [(TYPE, VString TYPE_OBJECT); (PROPERTIES, VMap []); (keyword, s)].

(** Three places where what is accepted is not what the schema says. A [not]
    whose schema describes the value only past the depth bound does not refuse
    it; checking a map of values applies neither its root's [not] nor its
    [propertyNames], which checking the same value does. *)
Theorem validation_departs :
  (let s := VMap [(NOT, nested_schema 127)] in
   value_against None MAX_DEPTH s [] (nested_value 127) = Ok () /\
   value_against None (1 + MAX_DEPTH) s [] (nested_value 127) = bad [] (OtherThan [])) /\
  (let s := object_with NOT (VMap [(TYPE, VString TYPE_OBJECT)]) in
   validate_map None s (VMap []) = Ok () /\ accepts None s (VMap []) = false) /\
  (let s := object_with PROPERTY_NAMES (VMap [(TYPE, VString TYPE_STRING); (MAX_LENGTH, VNumber (bs "1"))]) in
   let v := VMap [(bs "ab", VNull)] in
   validate_map None s v = Ok () /\ accepts None s v = false).
Proof. vm_compute. repeat split. Qed.

(** Two numbers are taken for one JSON value when they denote two past the
    range of a float, and for two when one is written in more than fifteen
    characters and the other is not spelled the same. *)
Theorem same_json_departs :
  let same a b := (same_json (VNumber a) (VNumber b), value_cmp (number_value a) (number_value b)) in
  same (bs "1e998") (bs "1e999") = (true, Lt) /\ same (bs "1e-999") (bs "0") = (true, Gt) /\
  same (bs "1000000000000000") (bs "1e15") = (false, Eq) /\ same (bs "1.0") (bs "10e-1") = (true, Eq).
Proof. vm_compute. repeat split. Qed.
