(* ===== verification/SchemaMerge.v ===== *)
(** * How a schema says its fields merge

    [schema/merge.rs]: the [x-merge] annotation, read off the fields of a schema
    and of the objects nested in it, and given to the merge. *)

From S2P Require Import Prelude Errors Number Value Keys Maps Walk MergePath Merge JsonNumber Float64 Vocab SchemaRead.

Definition X_MERGE : bytes := Eval vm_compute in bs "x-merge".
Definition MERGELISTS_SUFFIX : bytes := Eval vm_compute in bs "+mergelists".

(** [DeclaredMerge]. *)
Record DeclaredMerge := MkDeclared { dmode : MergeMode; doptions : MergeOptions }.

(** ** Text *)

(** The characters of Unicode's White_Space, in UTF-8, and [str::trim]. *)
Definition white_space : list bytes :=
  map (λ b, [b]) [9; 10; 11; 12; 13; 32] ++ [[194; 133]; [194; 160]; [225; 154; 128]] ++
  map (λ b, [226; 128; b]) [128; 129; 130; 131; 132; 133; 134; 135; 136; 137; 138; 168; 169; 175] ++
  [[226; 129; 159]; [227; 128; 128]].
Definition is_prefix (p l : bytes) : bool := bool_decide (take (length p) l = p).
Fixpoint trim_start (spaces : list bytes) (fuel : nat) (l : bytes) : bytes :=
  match fuel with
  | O => l
  | S fuel =>
      match List.find (λ w, is_prefix w l) spaces with
      | Some w => trim_start spaces fuel (drop (length w) l)
      | None => l
      end
  end.
Definition trim (l : bytes) : bytes :=
  let l := trim_start white_space (length l) l in
  rev (trim_start (map (@rev Z) white_space) (length l) (rev l)).

(** [str::to_ascii_lowercase] and [str::strip_suffix]. *)
Definition to_lower (b : byte) : byte := if is_upper b then b + 32 else b.
Definition strip_suffix (suffix l : bytes) : option bytes :=
  let n := (length l - length suffix)%nat in
  if bool_decide (drop n l = suffix) then Some (take n l) else None.

(** ** [parse_mode] *)

Definition parse_mode (text : bytes) : option DeclaredMerge :=
  let text := map to_lower (trim text) in
  let '(name, mergelists) :=
    match strip_suffix MERGELISTS_SUFFIX text with Some name => (name, true) | None => (text, false) end in
  mode ← (if decide (name = bs "simple") then Some Simple
          else if decide (name = bs "substitute") then Some Substitute
          else if decide (name = bs "deep") then Some Deep
          else None);
  Some (MkDeclared mode (with_mergelists no_options mergelists)).

(** [annotation]. *)
Definition annotation (d : DeclaredMerge) : Value :=
  let name := match dmode d with Simple => bs "simple" | Deep => bs "deep" | Substitute => bs "substitute" end in
  VString (if mergelists (doptions d) then name ++ MERGELISTS_SUFFIX else name).

(** [declared_for]. *)
Definition declared_for (f : FieldRef) : option DeclaredMerge :=
  parse_mode (str_or (extra (fschema f) X_MERGE) []).

Example parse_mode_ex : parse_mode (bs " Deep+MergeLists" ++ [194; 160]) = Some (MkDeclared Deep (MkMergeOptions true)) /\
  parse_mode (bs "deeper") = None.
Proof. vm_compute. done. Qed.

(** ** The fields of a schema, and of the objects in it

    [room] is how many more objects may be entered. *)

(** [collect_overrides]. *)
Fixpoint collect_overrides (room : nat) (fields : list FieldRef) (p : path) (o : MergeOverrides) : merged MergeOverrides :=
  match room with
  | O => Err (build TooDeep)
  | S room =>
      try_fold (λ o f,
        let p := child p (fkey f) in
        let o := match declared_for f with Some d => overrides_set o p (dmode d) | None => o end in
        match field_kind f with
        | KMap _ => collect_overrides room (kind_fields (field_kind f)) p o
        | _ => Ok o
        end) o fields
  end.

(** [merge_overrides]. *)
Definition merge_overrides (s : Value) : merged MergeOverrides :=
  collect_overrides MAX_DEPTH (fields_of s) [] overrides_new.

(** [any_mergelists] and [merge_options]. *)
Fixpoint any_mergelists (room : nat) (fields : list FieldRef) : merged bool :=
  match room with
  | O => Err (build TooDeep)
  | S room =>
      (fix go l :=
        match l with
        | [] => Ok false
        | f :: l =>
            if match declared_for f with Some d => mergelists (doptions d) | None => false end then Ok true
            else
              below ← match field_kind f with
                      | KMap _ => any_mergelists room (kind_fields (field_kind f))
                      | _ => Ok false
                      end;
              if below : bool then Ok true else go l
        end) fields
  end.
Definition merge_options (s : Value) : merged MergeOptions :=
  any ← any_mergelists MAX_DEPTH (fields_of s); Ok (with_mergelists no_options any).

(** [merge_with_schema]. *)
Definition merge_with_schema (random : Seeded) (finish : list Token -> Z) (s : Value) (mode : MergeMode)
    (earlier later : Value) : merged Value :=
  overrides ← merge_overrides s;
  options ← merge_options s;
  merge_with random finish mode earlier later options (Some overrides).

(** ** The field a path names *)

Fixpoint field_at_path (fields : list FieldRef) (p : path) : option FieldRef :=
  match p with
  | [] => None
  | k :: q =>
      f ← snd <$> list_find (λ f, fkey f = k) fields;
      match q with
      | [] => Some f
      | _ => match field_kind f with KMap _ => field_at_path (kind_fields (field_kind f)) q | _ => None end
      end
  end.
Definition declared_mode (fields : list FieldRef) (p : path) : option MergeMode :=
  dmode <$> (f ← field_at_path fields p; declared_for f).

(** ** Well-formed schemas declare a field once *)

Lemma wf_get v m k x : value_wf v -> as_map v = Some m -> get m k = Some x -> value_wf x.
Proof.
  intros Hv [-> _]%as_map_Some H%get_elem. apply value_wf_map in Hv as (_ & _ & Hv).
  rewrite Forall_forall in Hv. by apply (Hv (k, x)).
Qed.
Lemma wf_under v k x : value_wf v -> under v k = Some x -> value_wf x.
Proof.
  unfold under. destruct (as_map v) as [m|] eqn:E; simpl; [|done]. intros Hv. by eapply wf_get.
Qed.
Lemma wf_item v l x : value_wf v -> as_list v = Some l -> x ∈ l -> value_wf x.
Proof. intros Hv ->%as_list_Some Hx. apply value_wf_list in Hv as [_ Hv]. rewrite Forall_forall in Hv. auto. Qed.

Lemma wf_peel_once k x : value_wf k -> peel_once k = Some x -> value_wf x.
Proof.
  intros Hk. unfold peel_once. destruct (as_map k) as [m|] eqn:Em; simpl; [|done].
  assert (Hl : forall y, lone_all_of m = Some y -> value_wf y).
  { intros y (_ & a & l & Ha & Hl & Hy)%lone_all_of_inv. eapply wf_item; [|done..]. by eapply wf_get. }
  destruct (get m TYPE); [apply Hl|]. destruct (get m ANY_OF) as [a|] eqn:Ea; simpl; [|apply Hl].
  destruct (nullable_pair a) as [y|] eqn:En; [|apply Hl]. intros [= <-].
  pose proof (wf_get _ _ _ _ Hk Em Ea) as Ha. unfold nullable_pair in En.
  destruct (as_list a) as [[|u [|w [|z l]]]|] eqn:El; try done.
  repeat case_match; simplify_eq; (eapply wf_item; [exact Ha|exact El|]); set_solver.
Qed.
Lemma wf_peel k : value_wf k -> value_wf (peel k).
Proof.
  induction k as [k E|k x E IH] using peel_ind; intros Hk; [by rewrite peel_id|].
  rewrite peel_unfold, E. apply IH. by apply (wf_peel_once k).
Qed.

Lemma fields_wf s : value_wf s ->
  NoDup (fkey <$> fields_of s) /\ forall f, f ∈ fields_of s -> value_wf (fschema f).
Proof.
  intros Hs. unfold fields_of. set (l := map_entries (under s PROPERTIES)).
  assert (Hl : NoDup (map fst l) /\ Forall entry_wf l).
  { unfold l, map_entries. destruct (under s PROPERTIES) as [v|] eqn:Ev; simpl; [|by split; constructor].
    pose proof (wf_under _ _ _ Hs Ev) as Hv. destruct (as_map v) as [m|] eqn:Em; simpl; [|by split; constructor].
    apply as_map_Some in Em as [-> _]. by apply value_wf_map in Hv as (_ & ? & ?). }
  destruct Hl as [Hn Hw]. split.
  - assert (Hsub : (fkey <$> omap (field_at s) l) `sublist_of` (map fst l)).
    { clear. induction l as [|e l IH]; [constructor|]. simpl. destruct (field_at s e) as [f|] eqn:E; simpl.
      - rewrite (field_at_key _ _ _ E). by constructor.
      - by constructor. }
    by eapply sublist_NoDup.
  - intros f (e & He & Hf)%list_elem_of_omap. rewrite Forall_forall in Hw. specialize (Hw e He) as (_ & _ & Hw).
    unfold field_at in Hf. destruct (is_schema e.2); [|done]. by injection Hf as <-.
Qed.

Lemma kind_map_peel k k' : kind_read (Some k) = KMap k' -> k' = peel k.
Proof.
  unfold kind_read. cbv zeta. unfold read_type, read_array, read_object, read_untyped.
  repeat case_match; congruence.
Qed.

Lemma nested_wf f k : value_wf (fschema f) -> field_kind f = KMap k ->
  NoDup (fkey <$> kind_fields (field_kind f)) /\ forall g, g ∈ kind_fields (field_kind f) -> value_wf (fschema g).
Proof.
  intros Hf Hk. rewrite Hk. unfold field_kind in Hk. apply kind_map_peel in Hk as ->.
  by apply fields_wf, wf_peel.
Qed.

(** ** What collecting adds

    At and beneath [p], the modes its fields declare; elsewhere, nothing. *)

Definition adds (fields : list FieldRef) (p : path) (o o' : MergeOverrides) : Prop :=
  (forall r, o' !! (p ++ r) = match declared_mode fields r with Some m => Some m | None => o !! (p ++ r) end) /\
  (forall q, ~ p `prefix_of` q -> o' !! q = o !! q).

(** The fields below a field: those of an object it is. *)
Definition below_field (f : FieldRef) : list FieldRef := kind_fields (field_kind f).

Lemma overrides_set_eq o p m : overrides_set o p m !! p = Some m.
Proof. apply (lookup_insert_eq (M := gmap (list (list Z)))). Qed.
Lemma overrides_set_ne o p q m : q <> p -> overrides_set o p m !! q = o !! q.
Proof. intros H. apply (lookup_insert_ne (M := gmap (list (list Z)))). congruence. Qed.

Lemma adds_nil p o : adds [] p o o.
Proof. split; [|done]. intros r. by destruct r. Qed.

Lemma mode_here f fs : declared_mode (f :: fs) [fkey f] = dmode <$> declared_for f.
Proof. unfold declared_mode. simpl. by rewrite decide_True. Qed.
Lemma mode_beneath f fs k r : declared_mode (f :: fs) (fkey f :: k :: r) = declared_mode (below_field f) (k :: r).
Proof.
  unfold declared_mode, below_field. cbn [field_at_path list_find]. rewrite decide_True by done. simpl.
  by destruct (field_kind f).
Qed.
Lemma mode_aside f fs k r : k <> fkey f -> declared_mode (f :: fs) (k :: r) = declared_mode fs (k :: r).
Proof.
  intros Hk. unfold declared_mode. cbn [field_at_path list_find]. rewrite decide_False by congruence.
  by destruct (list_find _ fs) as [[]|].
Qed.
Lemma mode_absent fs k r : k ∉ fkey <$> fs -> declared_mode fs (k :: r) = None.
Proof.
  intros Hk. unfold declared_mode. cbn [field_at_path]. destruct (list_find _ fs) as [[i g]|] eqn:E; [|done].
  apply list_find_Some in E as (E & <- & _). destruct Hk. apply list_elem_of_fmap. exists g.
  split; [done|]. by eapply list_elem_of_lookup_2.
Qed.

Lemma adds_cons f fs p o o1 o2 : fkey f ∉ fkey <$> fs ->
  adds (below_field f) (child p (fkey f))
    (match declared_for f with Some d => overrides_set o (child p (fkey f)) (dmode d) | None => o end) o1 ->
  adds fs p o1 o2 -> adds (f :: fs) p o o2.
Proof.
  intros Hf [H1 N1] [H2 N2]. unfold child in *.
  assert (Hset : forall q, q <> p ++ [fkey f] ->
    match declared_for f with Some d => overrides_set o (p ++ [fkey f]) (dmode d) | None => o end !! q = o !! q).
  { intros q Hq. destruct (declared_for f); [|done]. by apply overrides_set_ne. }
  split.
  - intros r. rewrite H2. destruct r as [|k r].
    { change (declared_mode fs []) with (@None MergeMode). change (declared_mode (f :: fs) []) with (@None MergeMode). rewrite N1, Hset; [done|..].
      - intros E%(f_equal length). rewrite !length_app in E. simpl in E. lia.
      - intros [z E]. apply (f_equal length) in E. rewrite !length_app in E. simpl in E. lia. }
    destruct (decide (k = fkey f)) as [->|Hk].
    + rewrite (mode_absent fs) by done. change (fkey f :: r) with ([fkey f] ++ r) at 1. rewrite app_assoc, H1.
      destruct r as [|k r].
      * rewrite mode_here. change (declared_mode (below_field f) []) with (@None MergeMode). rewrite app_nil_r.
        destruct (declared_for f) as [d|]; simpl; [|done]. apply overrides_set_eq.
      * rewrite mode_beneath. destruct (declared_mode (below_field f) (k :: r)); [done|].
        rewrite Hset, <- app_assoc; [done|]. intros E%(f_equal length). rewrite !length_app in E. simpl in E. lia.
    + rewrite (mode_aside _ _ _ _ Hk). destruct (declared_mode fs (k :: r)); [done|]. rewrite N1, Hset; [done|..].
      * intros E. apply app_inv_head in E. congruence.
      * intros [z E]. rewrite <- app_assoc in E. apply app_inv_head in E. injection E as E _. congruence.
  - intros q Hq. rewrite N2 by done. rewrite N1, Hset; [done|..].
    + intros ->. apply Hq. by apply prefix_app_r.
    + intros [z ->]. apply Hq. rewrite <- app_assoc. by apply prefix_app_r.
Qed.

(** An object nested [n] fields down. *)
Definition object_at (fields : list FieldRef) (n : nat) : Prop :=
  exists p f k, length p = n /\ field_at_path fields p = Some f /\ field_kind f = KMap k.

Lemma object_below f fs n : object_at (below_field f) (S n) -> object_at (f :: fs) (S (S n)).
Proof.
  intros (p & g & k & Hp & Hg & Hk). exists (fkey f :: p), g, k. split; [by f_equal/=|]. split; [|done].
  destruct p as [|k' p]; [done|]. unfold below_field in Hg. cbn [field_at_path list_find] in *.
  rewrite decide_True by done. simpl. destruct (field_kind f); try done.
Qed.
Lemma object_aside f fs n : fkey f ∉ fkey <$> fs -> object_at fs (S n) -> object_at (f :: fs) (S n).
Proof.
  intros Hf (p & g & k & Hp & Hg & Hk). exists p, g, k. split; [done|]. split; [|done].
  destruct p as [|k' p]; [done|]. cbn [field_at_path list_find] in *. case_decide as Hk'.
  - destruct (list_find _ fs) as [[i h]|] eqn:E; [|done]. apply list_find_Some in E as (E & Eh & _). destruct Hf.
    apply list_elem_of_fmap. exists h. split; [congruence|]. by eapply list_elem_of_lookup_2.
  - by destruct (list_find _ fs) as [[]|].
Qed.

Definition collects (room : nat) (fields : list FieldRef) (p : path) (o : MergeOverrides) (r : merged MergeOverrides) : Prop :=
  match r with
  | Ok o' => adds fields p o o'
  | Err e => e = build TooDeep /\ (room = 0%nat \/ object_at fields room)
  end.

Lemma collect_spec room : forall fields p o, NoDup (fkey <$> fields) -> (forall f, f ∈ fields -> value_wf (fschema f)) ->
  collects room fields p o (collect_overrides room fields p o).
Proof.
  induction room as [|room IH]; [intros; split; [done|by left]|].
  intros fields p. induction fields as [|f fs IHfs]; intros o Hn Hw; [apply adds_nil|].
  rewrite fmap_cons in Hn. apply NoDup_cons in Hn as [Hf Hn].
  cbn [collect_overrides try_fold]. cbv zeta. set (o0 := match declared_for f with Some d => _ | None => o end).
  set (r := match field_kind f with KMap _ => _ | _ => _ end).
  assert (Hr : match r with
    | Ok o1 => adds (below_field f) (child p (fkey f)) o0 o1
    | Err e => e = build TooDeep /\ object_at (f :: fs) (S room)
    end).
  { unfold r, below_field. destruct (field_kind f) eqn:Ek; try apply adds_nil. rewrite <- Ek.
    destruct (nested_wf f k (Hw f ltac:(by left)) Ek) as [Hn' Hw'].
    specialize (IH _ (child p (fkey f)) o0 Hn' Hw'). unfold collects in IH. destruct (collect_overrides _ _ _ _); [done|].
    destruct IH as [-> [->|H]]; (split; [done|]).
    - exists [fkey f], f, k. simpl. by rewrite decide_True.
    - destruct room as [|room]; [|by apply object_below].
      destruct H as (q & g & k' & Hq & Hg & _). by destruct q. }
  clearbody r. destruct r as [o1|e]; cbn [mbind result_bind]; [|destruct Hr as [-> Hr]; split; [done|by right]].
  specialize (IHfs o1 Hn ltac:(intros; apply Hw; by right)). unfold collects in IHfs. cbn [collect_overrides] in IHfs.
  destruct (try_fold _ _ fs) as [o2|e]; simpl; [by eapply adds_cons|].
  destruct IHfs as [-> [?|H]]; [done|]. split; [done|right]. by apply object_aside.
Qed.

(** ** Properties *)

(** The overrides read from a schema are exactly the modes its fields
    declare, each under the path of keys its field is reached by; the only
    refusal is of objects nested as deep as the bound. *)
Theorem merge_overrides_exact (s : Value) (H : value_wf s) :
  match merge_overrides s with
  | Ok o => forall p, overrides_get o p = declared_mode (fields_of s) p
  | Err e => e = build TooDeep /\ object_at (fields_of s) MAX_DEPTH
  end.
Proof.
  destruct (fields_wf s H) as [Hn Hw]. pose proof (collect_spec MAX_DEPTH (fields_of s) [] overrides_new Hn Hw) as Hc.
  unfold merge_overrides. destruct (collect_overrides _ _ _ _) as [o|e]; simpl in Hc.
  - intros p. destruct Hc as [Hc _]. unfold overrides_get. specialize (Hc p). simpl in Hc. rewrite Hc.
    unfold overrides_new. destruct (declared_mode _ p); [done|apply lookup_empty].
  - by destruct Hc as [-> [?|?]].
Qed.

Lemma merge_overrides_exact_witness :
  let leaf mode := VMap [(X_MERGE, VString mode)] in
  let s := VMap [(PROPERTIES, VMap [(bs "a.b", leaf (bs "simple")); (bs "tls",
    VMap [(TYPE, VString TYPE_OBJECT); (PROPERTIES, VMap [(bs "ciphers", leaf (bs "deep+mergelists"))])])])] in
  exists o, merge_overrides s = Ok o /\ overrides_get o [bs "tls"; bs "ciphers"] = Some Deep /\
    overrides_get o [bs "a.b"] = Some Simple /\ overrides_get o [bs "tls"] = None.
Proof.
  intros leaf s. assert (Hs : value_wf s) by (apply wf_ok_wf; vm_compute; reflexivity).
  pose proof (merge_overrides_exact s Hs) as H. destruct (merge_overrides s) as [o|e] eqn:E.
  - exists o. split; [reflexivity|]. rewrite !H. split_and!; vm_compute; reflexivity.
  - assert (E' : is_ok (merge_overrides s) = true) by (vm_compute; reflexivity). rewrite E in E'. discriminate E'.
Defined.

(** What a declaration site writes is read back as the mode and the option it
    declared. *)
Theorem annotation_roundtrip (d : DeclaredMerge) :
  exists t, as_text (annotation d) = Some t /\ parse_mode t = Some d.
Proof.
  exists (default [] (as_text (annotation d))). destruct d as [m [b]]. destruct m, b; vm_compute; split; reflexivity.
Qed.
