(* ===== verification/Channel.v ===== *)
(** * Channels

    [value/wire/channel.rs]: frames that announce a schema on a channel, carry a
    value, or close it, and the receiver that keeps each channel's schema and
    checks every value against it. The receiver refines an abstract machine over
    messages; a session is any sequence of frames it is given. *)

From S2P Require Import Prelude Errors SchemaErrors Number Value Keys Maps Encode Decode.
From S2P Require Import JsonNumber Float64 Vocab SchemaRead Validate ValidateLaws.

(** ** Frames *)

(** [SCHEMA], [VALUE] and [CLOSE]. *)
Definition SCHEMA_FRAME : Z := 0.
Definition VALUE_FRAME : Z := 1.
Definition CLOSE_FRAME : Z := 2.

(** [frame], [announce], [send] and [close], whose [expect] is never reached. *)
Definition frame (kind channel : Z) (value : option Value) : result ValueError bytes :=
  let out := put_len [kind] channel in
  match value with Some v => encode v out | None => Ok out end.
Definition announce (channel : Z) (s : Value) : result ValueError bytes := frame SCHEMA_FRAME channel (Some s).
Definition send (channel : Z) (v : Value) : result ValueError bytes := frame VALUE_FRAME channel (Some v).
Definition close (channel : Z) : result (fault ValueError) bytes :=
  match frame CLOSE_FRAME channel None with Ok b => Ok b | Err _ => Err Panic end.

(** [send_exact], with the length it allocates. *)
Definition send_exact (channel : Z) (v : Value) : result ValueError (Z * bytes) :=
  n ← encoded_len v;
  out ← encode v (put_len [VALUE_FRAME] channel);
  Ok (1 + len_size channel + n, out).

(** ** The receiver *)

(** [Received]. *)
Inductive Received : Type :=
  | ReceivedSchema (channel : Z)
  | ReceivedValue (channel : Z) (v : Value)
  | ReceivedClosed (channel : Z).

(** [Receiver], without its allocator. *)
Record Receiver := MkReceiver { schemas : gmap Z Value }.
Definition receiver_new : Receiver := MkReceiver ∅.
Definition receiver_schema (r : Receiver) (channel : Z) : option Value := schemas r !! channel.

(** [channel_of] and [head]. *)
Definition channel_of (frame : bytes) : result (fault WireError) (Z * nat) :=
  '(channel, r) ← read_leb (MkWireReader frame 1 0); Ok (channel, at_ r).
Definition frame_head (frame : bytes) : option Z * option Z :=
  match frame with
  | [] => (None, None)
  | kind :: _ => (Some kind, match channel_of frame with Ok (c, _) => Some c | Err _ => None end)
  end.

Section receiver.
Variable random : Seeded.
Variable regex : option (bytes -> option (bytes -> bool)).

(** [Receiver::accept]; the receiver is what it leaves. *)
Definition accept (r : Receiver) (frame : bytes) : result (fault WireError) Received * Receiver :=
  match
    kind ← ok_or (head frame) (Refuse (Truncated 0));
    '(channel, body) ← channel_of frame;
    let payload := drop body frame in
    if kind =? SCHEMA_FRAME then
      s ← decode_at random payload body;
      match schema_new s with
      | None => Err (Refuse (NotASchema channel))
      | Some _ => Ok (ReceivedSchema channel, MkReceiver (<[channel := s]> (schemas r)))
      end
    else if kind =? VALUE_FRAME then
      s ← ok_or (schemas r !! channel) (Refuse (NoSchema channel));
      v ← decode_at random payload body;
      s ← ok_or (schema_new s) Panic;
      map_err (λ e, Refuse (Invalid channel e)) (validate_map regex s v);;
      Ok (ReceivedValue channel v, r)
    else if kind =? CLOSE_FRAME then
      match payload with
      | [] => Ok (ReceivedClosed channel, MkReceiver (delete channel (schemas r)))
      | _ => Err (Refuse (Trailing body))
      end
    else Err (Refuse (UnknownFrame 0 kind))
  with
  | Ok (x, r') => (Ok x, r')
  | Err e => (Err e, r)
  end.

(** ** The machine it refines *)

Inductive Message : Type :=
  | MSchema (channel : Z) (s : Value)
  | MValue (channel : Z) (v : Value)
  | MClose (channel : Z).

Definition message_bytes (m : Message) : bytes :=
  match m with
  | MSchema c s => SCHEMA_FRAME :: leb c ++ wire s
  | MValue c v => VALUE_FRAME :: leb c ++ wire v
  | MClose c => CLOSE_FRAME :: leb c
  end.
Definition message_received (m : Message) : Received :=
  match m with MSchema c _ => ReceivedSchema c | MValue c v => ReceivedValue c v | MClose c => ReceivedClosed c end.
(** A channel is a [u64], and what a frame carries was built. *)
Definition message_wf (m : Message) : Prop :=
  match m with
  | MSchema c x | MValue c x => 0 <= c < 2 ^ 64 /\ value_wf x
  | MClose c => 0 <= c < 2 ^ 64
  end.

(** Each channel's schema, and what may happen to them. *)
Inductive step : gmap Z Value -> Message -> gmap Z Value -> Prop :=
  | step_schema m c s : is_map_ s = true -> step m (MSchema c s) (<[c := s]> m)
  | step_value m c s v : m !! c = Some s -> MapDescribes regex s v -> step m (MValue c v) m
  | step_close m c : step m (MClose c) (delete c m).

(** What a receiver holds are schemas. *)
Definition schemas_ok (r : Receiver) : Prop := forall c s, schemas r !! c = Some s -> is_map_ s = true.

(** ** Reading a frame *)

Lemma schema_new_Some s s' : schema_new s = Some s' <-> is_map_ s = true /\ s' = s.
Proof. unfold schema_new. destruct (is_map_ s); naive_solver. Qed.

Lemma channel_of_spec (kind : Z) l : Forall is_byte l ->
  match channel_of (kind :: l) with
  | Ok (c, body) => 0 <= c < 2 ^ 64 /\ l = leb c ++ drop body (kind :: l)
  | Err e => exists e', e = Refuse e'
  end.
Proof.
  intros Hl. unfold channel_of.
  destruct (leb_loop (wrest (MkWireReader (kind :: l) 1 0)) (offset (MkWireReader (kind :: l) 1 0)) 0 0 0)
    as [[n k]|f] eqn:E; unfold read_leb; rewrite E; cbn [mbind result_bind].
  - unfold wrest in E. cbn [drop at_ wbytes] in E. rewrite drop_0 in E.
    apply (leb_loop_sound _ _ _ 0) in E as (m & Hm & _ & -> & Hlt & _ & El & ->); [|done..].
    change (2 ^ (7 * Z.of_nat 0)) with 1 in *. rewrite Z.mul_1_r, Z.add_0_l in *. split; [done|].
    cbn [at_ wadv Nat.add drop]. rewrite El at 1. by rewrite El at 2; rewrite drop_app_length.
  - apply leb_loop_Err in E as [->| ->]; eauto.
Qed.

Lemma channel_of_takes (kind c : Z) l : 0 <= c < 2 ^ 64 ->
  channel_of (kind :: leb c ++ l) = Ok (c, S (length (leb c))).
Proof.
  intros Hc. unfold channel_of. rewrite (leb_takes _ c l Hc); [done|]. unfold wrest. cbn [wbytes at_ drop]. by rewrite drop_0.
Qed.

Lemma decode_at_Ok b base0 v : Forall is_byte b -> decode_at random b base0 = Ok v <-> value_wf v /\ b = wire v.
Proof.
  intros Hb. unfold decode_at. split.
  - intros E. pose proof (decode_sound random b base0 None Hb) as H. rewrite E in H. naive_solver.
  - intros [Hv ->]. by apply decode_wire.
Qed.
Lemma decode_at_Err b base0 e : Forall is_byte b -> decode_at random b base0 = Err e -> exists e', e = Refuse e'.
Proof.
  intros Hb E. unfold decode_at in E. pose proof (decode_sound random b base0 None Hb) as H. rewrite E in H.
  destruct H as (e' & -> & _). eauto.
Qed.

(** The three kinds, told apart by the first byte. *)
Inductive kinds (kind : Z) : Prop :=
  | kind_schema : kind = SCHEMA_FRAME -> kinds kind
  | kind_value : kind = VALUE_FRAME -> kinds kind
  | kind_close : kind = CLOSE_FRAME -> kinds kind
  | kind_other : kind <> SCHEMA_FRAME -> kind <> VALUE_FRAME -> kind <> CLOSE_FRAME -> kinds kind.
Lemma kind_cases kind : kinds kind.
Proof.
  destruct (decide (kind = SCHEMA_FRAME)); [by constructor 1|]. destruct (decide (kind = VALUE_FRAME)); [by constructor 2|].
  destruct (decide (kind = CLOSE_FRAME)); [by constructor 3|by constructor 4].
Qed.

Lemma accept_sound r b x r' : Forall is_byte b -> schemas_ok r -> accept r b = (Ok x, r') ->
  exists m, message_wf m /\ b = message_bytes m /\ x = message_received m /\ step (schemas r) m (schemas r').
Proof.
  intros Hb Hr H. unfold accept in H. destruct b as [|kind l]; [done|]. cbn [head ok_or mbind result_bind] in H.
  inversion Hb as [|? ? _ Hl]; subst. pose proof (channel_of_spec kind l Hl) as Hc.
  destruct (channel_of (kind :: l)) as [[c body]|e]; cbn [mbind result_bind] in H; [|done]. destruct Hc as [Hc El].
  assert (Hd : Forall is_byte (drop body (kind :: l))) by by apply Forall_drop.
  set (payload := drop body (kind :: l)) in *. clearbody payload. cbv zeta in H.
  destruct (kind_cases kind) as [->| ->| ->|H1 H2 H3].
  - cbn [Z.eqb SCHEMA_FRAME] in H. destruct (decode_at random payload body) as [s|e] eqn:E; cbn [mbind result_bind] in H; [|done].
    apply decode_at_Ok in E as [Hs ->]; [|done]. destruct (schema_new s) as [s'|] eqn:Es; [|done].
    apply schema_new_Some in Es as [Hm _]. injection H as <- <-. exists (MSchema c s). simpl.
    split; [by split|]. split; [by rewrite El|]. split; [done|by constructor].
  - cbn [Z.eqb SCHEMA_FRAME VALUE_FRAME] in H. destruct (schemas r !! c) as [s|] eqn:Es; cbn [mbind result_bind ok_or] in H; [|done].
    destruct (decode_at random payload body) as [v|e] eqn:E; cbn [mbind result_bind] in H; [|done].
    apply decode_at_Ok in E as [Hv ->]; [|done]. unfold schema_new in H. rewrite (Hr c s Es) in H. cbn [mbind result_bind ok_or] in H.
    destruct (validate_map regex s v) as [[]|e] eqn:Ev; cbn [mbind result_bind map_err] in H; [|done].
    apply validate_map_Ok in Ev. injection H as <- <-. exists (MValue c v). simpl.
    split; [by split|]. split; [by rewrite El|]. split; [done|by econstructor].
  - cbn [Z.eqb SCHEMA_FRAME VALUE_FRAME CLOSE_FRAME] in H. destruct payload; [|done]. injection H as <- <-. exists (MClose c). simpl.
    split; [done|]. split; [by rewrite El, app_nil_r|]. split; [done|by constructor].
  - rewrite !(proj2 (Z.eqb_neq _ _)) in H by done. done.
Qed.

Lemma accept_complete r m s' : schemas_ok r -> message_wf m -> step (schemas r) m s' ->
  accept r (message_bytes m) = (Ok (message_received m), MkReceiver s').
Proof.
  intros Hr Hm H. unfold accept. inversion H as [? c s Hs|? c s v Es Hv|? c]; subst; simpl in Hm; cbn [message_bytes head ok_or mbind result_bind].
  - destruct Hm as [Hc Hw]. rewrite channel_of_takes by done. cbn [mbind result_bind]. cbv zeta. cbn [Z.eqb SCHEMA_FRAME].
    cbn [drop]. rewrite drop_app_length, (proj2 (decode_at_Ok (wire s) _ s (wire_bytes s Hw))) by done. cbn [mbind result_bind].
    unfold schema_new. by rewrite Hs.
  - destruct Hm as [Hc Hw]. rewrite channel_of_takes by done. cbn [mbind result_bind]. cbv zeta. cbn [Z.eqb SCHEMA_FRAME VALUE_FRAME].
    rewrite Es. cbn [ok_or mbind result_bind].
    cbn [drop]. rewrite drop_app_length, (proj2 (decode_at_Ok (wire v) _ v (wire_bytes v Hw))) by done. cbn [mbind result_bind].
    unfold schema_new. rewrite (Hr c s Es). cbn [ok_or mbind result_bind].
    rewrite (proj2 (validate_map_Ok regex s v) Hv). cbn [map_err mbind result_bind]. by destruct r.
  - rewrite <- (app_nil_r (leb c)). rewrite channel_of_takes by done. cbn [mbind result_bind]. cbv zeta. cbn [Z.eqb SCHEMA_FRAME VALUE_FRAME CLOSE_FRAME].
    rewrite app_nil_r. cbn [drop]. by rewrite drop_all.
Qed.

Lemma accept_refused r b e r' : Forall is_byte b -> schemas_ok r -> accept r b = (Err e, r') ->
  r' = r /\ exists e', e = Refuse e'.
Proof.
  intros Hb Hr H. assert (r' = r) as -> by (unfold accept in H; repeat case_match; naive_solver). split; [done|].
  unfold accept in H. destruct b as [|kind l]; [simpl in H; injection H as <-; eauto|]. cbn [head ok_or mbind result_bind] in H.
  inversion Hb as [|? ? _ Hl]; subst. pose proof (channel_of_spec kind l Hl) as Hc.
  destruct (channel_of (kind :: l)) as [[c body]|f]; cbn [mbind result_bind] in H; [|injection H as <-; done].
  assert (Hd : Forall is_byte (drop body (kind :: l))) by by apply Forall_drop.
  set (payload := drop body (kind :: l)) in *. clearbody payload. cbv zeta in H.
  destruct (kind =? SCHEMA_FRAME); [|destruct (kind =? VALUE_FRAME); [|destruct (kind =? CLOSE_FRAME)]].
  - destruct (decode_at random payload body) as [s|f] eqn:E; cbn [mbind result_bind] in H.
    + destruct (schema_new s); [done|]. injection H as <-. eauto.
    + injection H as <-. by apply decode_at_Err in E.
  - destruct (schemas r !! c) as [s|] eqn:Es; cbn [mbind result_bind ok_or] in H; [|injection H as <-; eauto].
    destruct (decode_at random payload body) as [v|f] eqn:E; cbn [mbind result_bind] in H.
    + unfold schema_new in H. rewrite (Hr c s Es) in H. cbn [mbind result_bind ok_or] in H.
      destruct (validate_map regex s v) as [[]|ve]; cbn [mbind result_bind map_err] in H; [done|]. injection H as <-. eauto.
    + injection H as <-. by apply decode_at_Err in E.
  - destruct payload; [done|]. injection H as <-. eauto.
  - injection H as <-. eauto.
Qed.

(** ** Sessions

    Whatever frames a receiver is given, in order: [log] is the messages it took,
    the last first; a frame it refuses leaves it as it was. *)

Inductive session : list Message -> Receiver -> Prop :=
  | session_new : session [] receiver_new
  | session_took log r m r' : session log r -> message_wf m ->
      accept r (message_bytes m) = (Ok (message_received m), r') -> session (m :: log) r'
  | session_refused log r b e r' : session log r -> Forall is_byte b ->
      accept r b = (Err e, r') -> session log r'.

(** The schema a channel has after a log: its last, unless it was closed. *)
Fixpoint last_schema (log : list Message) (c : Z) : option Value :=
  match log with
  | [] => None
  | MSchema c' s :: log => if decide (c' = c) then Some s else last_schema log c
  | MClose c' :: log => if decide (c' = c) then None else last_schema log c
  | MValue _ _ :: log => last_schema log c
  end.

(** A message is its channel, its first byte and what it carries. *)
Definition message_channel (m : Message) : Z := match m with MSchema c _ | MValue c _ | MClose c => c end.
Definition message_kind (m : Message) : Z :=
  match m with MSchema _ _ => SCHEMA_FRAME | MValue _ _ => VALUE_FRAME | MClose _ => CLOSE_FRAME end.
Definition message_payload (m : Message) : bytes := match m with MSchema _ x | MValue _ x => wire x | MClose _ => [] end.
Lemma message_bytes_split m : message_bytes m = message_kind m :: leb (message_channel m) ++ message_payload m.
Proof. destruct m; simpl; by rewrite ?app_nil_r. Qed.
Lemma message_wf_channel m : message_wf m -> 0 <= message_channel m < 2 ^ 64.
Proof. destruct m; simpl; tauto. Qed.

Lemma wire_inj x y : value_wf x -> value_wf y -> wire x = wire y -> x = y.
Proof.
  intros Hx Hy E. pose proof (decode_wire random x 0 None Hx (wire_bytes x Hx)) as H.
  rewrite E, decode_wire in H by (try done; by apply wire_bytes). congruence.
Qed.

Lemma message_bytes_inj m m' : message_wf m -> message_wf m' -> message_bytes m = message_bytes m' -> m = m'.
Proof.
  intros Hm Hm' E. rewrite !message_bytes_split in E.
  pose proof (message_wf_channel m Hm) as Hc. pose proof (message_wf_channel m' Hm') as Hc'. injection E as Ek E.
  pose proof (channel_of_takes 0 _ (message_payload m) Hc) as H. rewrite E, channel_of_takes in H by done.
  injection H as Ec _. rewrite Ec in E. apply app_inv_head in E.
  destruct m as [c x|c x|c], m' as [c' x'|c' x'|c']; simpl in *; try discriminate Ek; subst; f_equal;
    apply wire_inj; tauto.
Qed.

Lemma message_is_bytes m : message_wf m -> Forall is_byte (message_bytes m).
Proof.
  intros Hm. rewrite message_bytes_split. constructor; [destruct m; unfold is_byte, message_kind, SCHEMA_FRAME, VALUE_FRAME, CLOSE_FRAME; lia|].
  apply Forall_app. split; [by apply leb_bytes, message_wf_channel|].
  destruct m; simpl in *; [apply wire_bytes, Hm..|constructor].
Qed.

Lemma step_schemas_ok m c m' : (forall c s, m !! c = Some s -> is_map_ s = true) -> step m c m' ->
  forall c s, m' !! c = Some s -> is_map_ s = true.
Proof.
  intros Hm H c0 s0. destruct H as [m c s Hs| |]; [|by apply Hm|].
  - destruct (decide (c = c0)) as [->|]; [rewrite lookup_insert_eq; by intros [= <-]|].
    rewrite lookup_insert_ne by done. apply Hm.
  - intros [_ H]%lookup_delete_Some. by apply (Hm c0).
Qed.

(** What a session keeps: schemas, each its channel's last. *)
Definition session_inv (log : list Message) (r : Receiver) : Prop :=
  schemas_ok r /\ forall c, schemas r !! c = last_schema log c.

Lemma session_keeps log r : session log r -> session_inv log r.
Proof.
  induction 1 as [|log r m r' _ [Hr Hl] Hm Ha|log r b e r' _ [Hr Hl] Hb Ha].
  - split; [intros c s; cbn [schemas receiver_new]; by rewrite lookup_empty|]. intros c. apply lookup_empty.
  - apply accept_sound in Ha as (m' & Hm' & E & _ & Hs); [|by apply message_is_bytes|done].
    apply message_bytes_inj in E as <-; [|done..]. split; [exact (step_schemas_ok _ _ _ Hr Hs)|].
    intros c. inversion Hs; subst; simpl.
    + case_decide as Hc; [subst; by rewrite lookup_insert_eq|by rewrite lookup_insert_ne].
    + apply Hl.
    + case_decide as Hc; [subst; by rewrite lookup_delete_eq|by rewrite lookup_delete_ne].
  - by apply accept_refused in Ha as [-> _].
Qed.

Lemma last_schema_split log c s : last_schema log c = Some s ->
  exists newer older, log = newer ++ MSchema c s :: older /\
    Forall (λ m, message_channel m = c -> exists v, m = MValue c v) newer.
Proof.
  induction log as [|m log IH]; [done|]. destruct m as [c' s'|c' v|c']; simpl.
  - case_decide as Hc.
    + intros [= ->]. subst. exists [], log. split; [done|constructor].
    + intros (n & o & -> & Hn)%IH. exists (MSchema c' s' :: n), o. split; [done|]. by constructor.
  - intros (n & o & -> & Hn)%IH. exists (MValue c' v :: n), o. split; [done|]. constructor; [|done].
    simpl. intros ->. eauto.
  - case_decide as Hc; [done|]. intros (n & o & -> & Hn)%IH. exists (MClose c' :: n), o. split; [done|]. by constructor.
Qed.

Lemma session_before log r : session log r -> forall newer m older, log = newer ++ m :: older ->
  exists r1, session older r1 /\ message_wf m /\ exists r2, step (schemas r1) m (schemas r2).
Proof.
  induction 1 as [|log r m r' Hs IH Hm Ha|log r b e r' Hs IH Hb Ha]; intros newer m0 older E.
  - by destruct newer.
  - destruct newer as [|m1 newer]; simpl in E; injection E as -> ->.
    + exists r. split; [done|]. split; [done|]. exists r'. apply session_keeps in Hs as [Hr _].
      apply accept_sound in Ha as (m' & Hm' & E & _ & Hst); [|by apply message_is_bytes|done].
      by apply message_bytes_inj in E as <-.
    + by eapply IH.
  - by eapply IH.
Qed.
End receiver.

(** ** Properties *)

(** C13: the receiver takes a frame exactly when it is a message that the state
    of its channels allows, and then does to them what the message says; any
    other bytes it refuses, unchanged and without a panic. *)
Theorem accept_refines random regex (r : Receiver) (b : bytes) (Hb : Forall is_byte b) (Hr : schemas_ok r) :
  (forall x r', accept random regex r b = (Ok x, r') <->
    exists m, message_wf m /\ b = message_bytes m /\ x = message_received m /\
      step regex (schemas r) m (schemas r')) /\
  (forall e r', accept random regex r b = (Err e, r') -> r' = r /\ exists e', e = Refuse e').
Proof.
  split; [|intros; by eapply accept_refused]. intros x r'. split; [by apply accept_sound|].
  intros (m & Hm & -> & -> & Hs). rewrite (accept_complete random regex r m _ Hr Hm Hs). by destruct r'.
Qed.

Lemma accept_refines_witness :
  let s := VMap [(TYPE, VString TYPE_OBJECT)] in
  accept (MkSeeded 1 2) None receiver_new (message_bytes (MSchema 300 s)) =
    (Ok (ReceivedSchema 300), MkReceiver {[ 300 := s ]}).
Proof.
  intros s. assert (Hs : value_wf s) by (apply wf_ok_wf; vm_compute; reflexivity).
  apply (accept_refines (MkSeeded 1 2) None receiver_new); [by_eval|by intros c x|].
  exists (MSchema 300 s). split; [split; [lia|exact Hs]|]. split; [reflexivity|]. split; [reflexivity|].
  apply step_schema. reflexivity.
Defined.

(** C19: whatever frames arrive, a value is received on a channel only after a
    schema was announced there, not closed or replaced since, and only a value
    that schema describes. *)
Theorem values_follow_their_schema random regex log r newer c v older
    (H : session random regex log r) (E : log = newer ++ MValue c v :: older) :
  exists between s before, older = between ++ MSchema c s :: before /\
    Forall (λ m, message_channel m = c -> exists v, m = MValue c v) between /\
    is_map_ s = true /\ MapDescribes regex s v.
Proof.
  destruct (session_before _ _ _ _ H newer _ older E) as (r1 & Hs & Hm & r2 & Hst).
  apply session_keeps in Hs as [Hr Hl]. inversion Hst as [|? ? s ? Es Hv|]; subst.
  pose proof Es as Ei. rewrite Hl in Es. apply last_schema_split in Es as (between & before & -> & Hb).
  exists between, s, before. split_and!; try done. by apply (Hr c).
Qed.

Lemma values_follow_their_schema_witness :
  let s := VMap [(TYPE, VString TYPE_OBJECT)] in
  exists between s0 before, [MSchema 1 s] = between ++ MSchema 1 s0 :: before /\ is_map_ s0 = true /\
    MapDescribes None s0 (VMap []).
Proof.
  intros s. set (random := MkSeeded 1 2). set (r := MkReceiver {[ 1 := s ]}).
  assert (Hs : value_wf s) by (apply wf_ok_wf; vm_compute; reflexivity).
  assert (Hv : value_wf (VMap [])) by (apply wf_ok_wf; vm_compute; reflexivity).
  assert (H : session random None [MValue 1 (VMap []); MSchema 1 s] r).
  { apply (session_took _ _ _ r); [|split; [lia|exact Hv]|vm_compute; reflexivity].
    apply (session_took _ _ _ receiver_new); [constructor|split; [lia|exact Hs]|vm_compute; reflexivity]. }
  destruct (values_follow_their_schema random None _ r [] 1 (VMap []) [MSchema 1 s] H eq_refl)
    as (between & s0 & before & E & _ & Hm & Hd).
  exists between, s0, before. split; [exact E|]. split; [exact Hm|exact Hd].
Defined.

(** The frames written are the messages read: announcing, sending and closing
    write a message's bytes, and the length allocated for a value's frame is the
    length it takes. *)
Theorem frames_are_messages (c : Z) (v : Value) (Hc : 0 <= c < 2 ^ 64) (Hv : value_wf v) :
  announce c v = Ok (message_bytes (MSchema c v)) /\ send c v = Ok (message_bytes (MValue c v)) /\
  close c = Ok (message_bytes (MClose c)) /\
  send_exact c v = Ok (len_of (message_bytes (MValue c v)), message_bytes (MValue c v)).
Proof.
  pose proof (wf_lengths_fit v Hv) as Hf. pose proof (wf_not_refused v Hv) as Hn.
  assert (He : forall out, encode v out = Ok (out ++ wire v)).
  { intros out. rewrite encode_enc by done. unfold enc. by rewrite Hn. }
  unfold announce, send, close, send_exact, frame. rewrite !put_len_leb by done. rewrite !He.
  split_and!; [by rewrite <- app_assoc..|done|].
  pose proof (encoded_len_spec v Hf) as Hl. rewrite Hn in Hl. rewrite Hl. cbn [mbind result_bind].
  rewrite len_size_leb by done. do 2 f_equal.
  cbn [message_bytes]. unfold len_of. cbn [length]. rewrite length_app. lia.
Qed.

Lemma frames_are_messages_witness :
  send_exact 300 (VList [VNull]) = Ok (6, [1; 172; 2; 6; 1; 1]).
Proof.
  apply (frames_are_messages 300 (VList [VNull])); [lia|]. apply wf_ok_wf. vm_compute. reflexivity.
Defined.
