(* ===== verification/Redact.v ===== *)
(** * Hiding secrets

    [schema/redact.rs]: a copy of a value with everything its schema marks as a
    secret, and everything no part of the schema describes, replaced by a
    placeholder. [room] is how many levels are left, as in validation. *)

From S2P Require Import Prelude Errors SchemaErrors Number Value Keys Maps Walk Encode Decode.
From S2P Require Import JsonNumber Float64 Vocab SchemaRead Validate.

(** ** What is marked *)

(** [is_secret]. *)
Definition is_secret (s : Value) : bool :=
  bool_or (under s X_SENSITIVE) false || bool_or (under s WRITE_ONLY) false.

(** [marks_secret]: at each wrapper [peel] removes, the schema itself and every
    member of its [allOf]. *)
Fixpoint marks_loop (member : Value -> bool) (fuel : nat) (k : Value) : bool :=
  match fuel with
  | O => false
  | S fuel =>
      if is_secret k then true
      else if existsb member (list_items (under k ALL_OF)) then true
      else match peel_once k with Some inner => marks_loop member fuel inner | None => false end
  end.
Fixpoint marks_secret (room : nat) (s : Value) : bool :=
  match room with
  | O => true
  | S room => marks_loop (marks_secret room) (vsize s) s
  end.

(** [is_container], and [undeclared]: the schema of a key an object does not
    declare. *)
Definition is_container (v : Value) : bool := has_tag GUATIAO_MAP v || has_tag GUATIAO_LIST v.
Definition extra_schema (owner : Value) : option Value :=
  v ← under owner ADDITIONAL_PROPERTIES; if is_map_ v then Some v else None.

(** [Part]. *)
Inductive Part : Type := Keep | Described (s : Value) | Hide.

(** ** The copy *)

Section redact.
Variable regex : option (bytes -> option (bytes -> bool)).
Variable placeholder : bytes.

Abbreviation redacted := (result (fault ValueError) Value) (only parsing).

(** [mask], [keep] and [fallback]. *)
Definition mask : redacted := Ok (VString placeholder).
Definition keep (v : Value) : redacted := copy_value v.
Definition fallback (v : Value) : redacted := if is_container v then mask else keep v.

Section parts.
Variable node : Value -> Value -> redacted.

(** [entries]. *)
Definition redact_part (p : Part) (v : Value) : redacted :=
  match p with Keep => keep v | Described s => node s v | Hide => mask end.
Definition redact_entries (m : list (bytes * Value)) (part : bytes -> Value -> Part) : redacted :=
  out ← try_fold (λ out e, child ← redact_part (part e.1 e.2) e.2; Ok (set_ out e.1 child)) [] m;
  Ok (VMap out).

(** A list's elements, each by the schema of its position, if it has one. *)
Definition redact_elements (l : list Value) (schema_at : nat -> option Value) : redacted :=
  out ← try_fold (λ out '(i, x),
          x ← match schema_at i with Some s => node s x | None => fallback x end;
          Ok (out ++ [x])) [] (enumerate l);
  Ok (VList out).

(** What each entry of an object and of a variant is. *)
Definition object_part (kind : Kind) (owner : Value) (key : bytes) (v : Value) : Part :=
  match snd <$> list_find (λ f, fkey f = key) (kind_fields kind) with
  | Some f => Described (fschema f)
  | None => match extra_schema owner with Some s => Described s | None => Hide end
  end.
Definition variant_part (kind : Kind) (tag : bytes) (m : list (bytes * Value)) (key : bytes) (v : Value) : Part :=
  let arm := chosen ← get m tag ≫= as_text; snd <$> list_find (λ a, arm_value a = chosen) (arms kind) in
  if decide (key = tag) then match as_text v with Some _ => Keep | None => Hide end
  else match a ← arm; snd <$> list_find (λ f, fkey f = key) (arm_fields a) with
       | Some f => Described (fschema f)
       | None => Hide
       end.

(** A union's accepting arms must agree. *)
Fixpoint agree_on (arms : list Value) (v first : Value) : redacted :=
  match arms with
  | [] => Ok first
  | arm :: arms => w ← node arm v; if value_eqb w first then agree_on arms v first else mask
  end.
End parts.

(** [Redactor::node]. *)
Fixpoint redact_node (room : nat) (s v : Value) : redacted :=
  match room with
  | O => Err (Refuse TooDeep)
  | S below =>
      if marks_secret room s then mask
      else
        let kind := kind_read (Some s) in
        match kind with
        | KList items _ _ =>
            match as_list v with
            | None => fallback v
            | Some l => redact_elements (redact_node below) l (λ _, Some items)
            end
        | KTuple owner =>
            match as_list v with
            | None => fallback v
            | Some l => redact_elements (redact_node below) l (λ i, prefix_items owner !! i)
            end
        | KMapOf owner =>
            match as_map v with
            | None => fallback v
            | Some m => redact_entries (redact_node below) m
                (λ _ _, match extra_schema owner with Some s => Described s | None => Hide end)
            end
        | KMap owner =>
            match as_map v with
            | None => fallback v
            | Some m => redact_entries (redact_node below) m (object_part kind owner)
            end
        | KVariant tag _ =>
            match as_map v with
            | None => fallback v
            | Some m => redact_entries (redact_node below) m (variant_part kind tag m)
            end
        | KUnion any_of =>
            match List.filter (λ arm, accepts regex arm v) (list_items (Some any_of)) with
            | [] => fallback v
            | first :: rest =>
                if existsb (marks_secret below) (first :: rest) then mask
                else w ← redact_node below first v; agree_on (redact_node below) rest v w
            end
        | KUnknown name => if decide (name = REF) then mask else fallback v
        | KNull | KBool | KInt _ _ _ | KFloat _ _ _ | KStr _ _ _ _ | KBytes | KEnum _ | KMissing => fallback v
        end
  end.

(** [redact]. *)
Definition redact (s v : Value) : redacted := redact_node MAX_DEPTH s v.
End redact.

(** ** What a mark is *)

(** A schema marks its value as a secret: by itself, on a member of an [allOf],
    or on what it wraps, however deep. *)
Inductive Marked : Value -> Prop :=
  | marked_self s : is_secret s = true -> Marked s
  | marked_member s m : m ∈ list_items (under s ALL_OF) -> Marked m -> Marked s
  | marked_inner s inner : peel_once s = Some inner -> Marked inner -> Marked s.

Lemma marks_loop_stable member n : forall fuel k, (vsize k <= fuel)%nat -> (fuel <= n)%nat ->
  marks_loop member n k = marks_loop member fuel k.
Proof.
  induction n as [|n IH]; intros fuel k Hf Hn; [by replace fuel with O by lia|].
  destruct fuel as [|fuel]; [pose proof (vsize_pos k); lia|]. cbn [marks_loop].
  destruct (is_secret k); [done|]. destruct (existsb _ _); [done|].
  destruct (peel_once k) as [x|] eqn:E; [|done]. apply peel_once_inv in E as [_ ?]. apply IH; lia.
Qed.

Lemma marks_secret_unfold room s : marks_secret (S room) s =
  is_secret s || existsb (marks_secret room) (list_items (under s ALL_OF)) ||
  match peel_once s with Some inner => marks_secret (S room) inner | None => false end.
Proof.
  cbn [marks_secret]. pose proof (vsize_pos s). destruct (vsize s) as [|n] eqn:En; [lia|]. cbn [marks_loop].
  destruct (is_secret s); [done|]. destruct (existsb _ _); [done|].
  destruct (peel_once s) as [x|] eqn:E; [|done]. apply peel_once_inv in E as [_ ?].
  apply marks_loop_stable; lia.
Qed.

Lemma marked_is_secret s : Marked s -> forall room, marks_secret room s = true.
Proof.
  induction 1 as [s H|s m Hm _ IH|s x Hx _ IH]; intros [|room]; [done| |done| |done|];
    rewrite marks_secret_unfold; [by rewrite H| |].
  - assert (existsb (marks_secret room) (list_items (under s ALL_OF)) = true) as ->.
    { apply existsb_exists. exists m. by rewrite <- list_elem_of_In. }
    by rewrite orb_true_r.
  - rewrite Hx, IH. by rewrite orb_true_r.
Qed.

(** ** What a copy does not tell *)

(** The schema of the value under an object's key, if anything describes it. *)
Definition describes_key (kind : Kind) (owner : Value) (key : bytes) : option Value :=
  match object_part kind owner key VNull with Described d => Some d | _ => None end.

(** The schema of the value beside a variant's discriminant. *)
Definition describes_beside (kind : Kind) (tag : bytes) (m : list (bytes * Value)) (key : bytes) : option Value :=
  match variant_part kind tag m key VNull with Described d => Some d | _ => None end.

Section secrecy.
Variable regex : option (bytes -> option (bytes -> bool)).
Variable placeholder : bytes.
#[local] Abbreviation node := (redact_node regex placeholder).
#[local] Abbreviation arm_accepts := (accepts regex).

(** A kind that does not look inside a value. *)
Definition unread (kind : Kind) (v : Value) : Prop :=
  match kind with
  | KList _ _ _ | KTuple _ => as_list v = None
  | KMap _ | KMapOf _ | KVariant _ _ => as_map v = None
  | KUnion any_of => List.filter (λ arm, arm_accepts arm v) (list_items (Some any_of)) = []
  | _ => True
  end.

(** Two values that nobody may tell apart: they differ only inside what is
    marked, and inside what nothing describes. *)
Inductive alike : nat -> Value -> Value -> Value -> Prop :=
  | alike_same room s v : alike room s v v
  | alike_marked room s v w : Marked s -> alike room s v w
  | alike_reference room s v w : kind_read (Some s) = KUnknown REF -> alike room s v w
  | alike_unread room s v w : unread (kind_read (Some s)) v -> unread (kind_read (Some s)) w ->
      is_container v = true -> is_container w = true -> alike room s v w
  | alike_list room s items a b l l' : kind_read (Some s) = KList items a b -> length l = length l' ->
      (forall i x y, l !! i = Some x -> l' !! i = Some y -> alike room items x y) ->
      alike (S room) s (VList l) (VList l')
  | alike_tuple room s owner l l' : kind_read (Some s) = KTuple owner -> length l = length l' ->
      (forall i x y p, l !! i = Some x -> l' !! i = Some y -> prefix_items owner !! i = Some p -> alike room p x y) ->
      (forall i x y, l !! i = Some x -> l' !! i = Some y -> prefix_items owner !! i = None ->
         x = y \/ is_container x = true /\ is_container y = true) ->
      alike (S room) s (VList l) (VList l')
  | alike_object room s owner m m' : kind_read (Some s) ∈ [KMap owner; KMapOf owner] -> map fst m = map fst m' ->
      (forall i k x y d, m !! i = Some (k, x) -> m' !! i = Some (k, y) ->
         describes_key (kind_read (Some s)) owner k = Some d -> alike room d x y) ->
      alike (S room) s (VMap m) (VMap m')
  | alike_variant room s tag arms m m' : kind_read (Some s) = KVariant tag arms -> map fst m = map fst m' ->
      get m tag = get m' tag ->
      (forall i x y, m !! i = Some (tag, x) -> m' !! i = Some (tag, y) -> x = y) ->
      (forall i k x y d, m !! i = Some (k, x) -> m' !! i = Some (k, y) -> k <> tag ->
         describes_beside (KVariant tag arms) tag m k = Some d -> alike room d x y) ->
      alike (S room) s (VMap m) (VMap m')
  | alike_union room s any_of v w : kind_read (Some s) = KUnion any_of ->
      (forall arm, arm ∈ list_items (Some any_of) -> arm_accepts arm v = arm_accepts arm w) ->
      (forall arm, arm ∈ list_items (Some any_of) -> arm_accepts arm v = true -> alike room arm v w) ->
      (exists arm, arm ∈ list_items (Some any_of) /\ arm_accepts arm v = true) ->
      alike (S room) s v w
  | alike_union_marked room s any_of arm arm' v w : kind_read (Some s) = KUnion any_of ->
      arm ∈ list_items (Some any_of) -> arm_accepts arm v = true -> Marked arm ->
      arm' ∈ list_items (Some any_of) -> arm_accepts arm' w = true -> Marked arm' ->
      alike (S room) s v w.


Lemma redact_marked room s v : marks_secret (S room) s = true -> node (S room) s v = mask placeholder.
Proof. intros H. cbn [redact_node]. by rewrite H. Qed.

Lemma redact_unread room s v : unread (kind_read (Some s)) v -> is_container v = true ->
  node (S room) s v = mask placeholder.
Proof.
  intros Hu Hc. cbn [redact_node]. destruct (marks_secret (S room) s); [done|].
  assert (Hf : fallback placeholder v = mask placeholder) by (unfold fallback; by rewrite Hc).
  destruct (kind_read (Some s)); cbn [unread] in Hu; rewrite ?Hu, ?Hf; by try case_decide.
Qed.

Lemma enumerate_lookup {A} (l : list A) i : enumerate l !! i = (i,.) <$> l !! i.
Proof. unfold enumerate. by rewrite list_lookup_imap. Qed.

Lemma enumerate_length {A} (l : list A) : length (enumerate l) = length l.
Proof. apply length_imap. Qed.

Lemma elements_alike n l l' schema_at : length l = length l' ->
  (forall i x y, l !! i = Some x -> l' !! i = Some y ->
     match schema_at i with Some p => n p x | None => fallback placeholder x end =
     match schema_at i with Some p => n p y | None => fallback placeholder y end) ->
  redact_elements placeholder n l schema_at = redact_elements placeholder n l' schema_at.
Proof.
  intros Hl H. unfold redact_elements.
  rewrite (try_fold_places _ (λ out '(i, x),
    x ← match schema_at i with Some s => n s x | None => fallback placeholder x end; Ok (out ++ [x]))
    (enumerate l) (enumerate l')); [done|by rewrite !enumerate_length|].
  intros i x y. rewrite !enumerate_lookup, !fmap_Some. intros (x' & Hx & ->) (y' & Hy & ->) b.
  by rewrite (H i x' y').
Qed.

Lemma map_fst_lookup (m m' : list (bytes * Value)) i e e' : map fst m = map fst m' ->
  m !! i = Some e -> m' !! i = Some e' -> e.1 = e'.1.
Proof.
  intros H He He'. assert (map fst m !! i = map fst m' !! i) as Hi by by rewrite H.
  rewrite !list_lookup_fmap, He, He' in Hi. by injection Hi.
Qed.

Lemma entries_alike n m m' part part' : map fst m = map fst m' ->
  (forall i k x y, m !! i = Some (k, x) -> m' !! i = Some (k, y) ->
     redact_part placeholder n (part k x) x = redact_part placeholder n (part' k y) y) ->
  redact_entries placeholder n m part = redact_entries placeholder n m' part'.
Proof.
  intros Hk H. unfold redact_entries.
  rewrite (try_fold_places _ (λ out e,
    child ← redact_part placeholder n (part' e.1 e.2) e.2; Ok (set_ out e.1 child)) m m'); [done| |].
  - apply (f_equal length) in Hk. by rewrite !length_map in Hk.
  - intros i [k x] [k' y] Hx Hy b. pose proof (map_fst_lookup _ _ _ _ _ Hk Hx Hy) as Heq. cbn in *. subst k'.
    by rewrite (H i k x y).
Qed.

Lemma keys_are_text_keys (m m' : list (bytes * Value)) :
  map fst m = map fst m' -> keys_are_text m = keys_are_text m'.
Proof.
  assert (forall l : list (bytes * Value), keys_are_text l = forallb is_utf8 (map fst l)) as E.
  { intros l. unfold keys_are_text. induction l as [|e l IH]; [done|]. simpl. by rewrite IH. }
  intros H. by rewrite !E, H.
Qed.

Lemma agree_on_same n arms v w first : (forall arm, arm ∈ arms -> n arm v = n arm w) ->
  agree_on placeholder n arms v first = agree_on placeholder n arms w first.
Proof.
  induction arms as [|arm arms IH]; intros H; [done|]. simpl. rewrite (H arm) by (by left).
  destruct (n arm w); [|done]. simpl. case_match; [|done]. apply IH. intros a' Ha. apply H. by right.
Qed.

(** An entry an object or a variant describes, and one it does not. *)
Lemma object_part_alike n kind owner k x y :
  (forall d, describes_key kind owner k = Some d -> n d x = n d y) ->
  redact_part placeholder n (object_part kind owner k x) x = redact_part placeholder n (object_part kind owner k y) y.
Proof.
  unfold describes_key, object_part. destruct (snd <$> list_find _ _) as [f|]; [by intros H; apply H|].
  destruct (extra_schema owner) as [d|]; [by intros H; apply H|done].
Qed.

Lemma variant_part_alike n kind tag m m' k x y : get m tag = get m' tag -> (k = tag -> x = y) ->
  (forall d, k <> tag -> describes_beside kind tag m k = Some d -> n d x = n d y) ->
  redact_part placeholder n (variant_part kind tag m k x) x = redact_part placeholder n (variant_part kind tag m' k y) y.
Proof.
  unfold describes_beside, variant_part. intros <- Hx H. destruct (decide (k = tag)) as [E|E]; [by rewrite Hx|].
  destruct (_ ≫= _); [by apply H|done].
Qed.

Lemma filter_alike (f g : Value -> bool) l : (forall a, a ∈ l -> f a = g a) -> List.filter f l = List.filter g l.
Proof.
  induction l as [|a l IH]; intros H; [done|]. simpl. rewrite (H a) by (by left).
  rewrite IH; [done|]. intros b Hb. apply H. by right.
Qed.

Lemma union_marked room s any_of arm v : kind_read (Some s) = KUnion any_of ->
  arm ∈ list_items (Some any_of) -> arm_accepts arm v = true -> Marked arm ->
  node (S room) s v = mask placeholder.
Proof.
  intros Hk Hin Ha Hm. cbn [redact_node]. destruct (marks_secret (S room) s); [done|]. rewrite Hk.
  assert (arm ∈ List.filter (λ arm, arm_accepts arm v) (list_items (Some any_of))) as Hf.
  { apply list_elem_of_In, filter_In. by rewrite <- list_elem_of_In. }
  destruct (List.filter _ _) as [|first rest]; [by apply elem_of_nil in Hf|].
  assert (existsb (marks_secret room) (first :: rest) = true) as ->; [|done].
  apply existsb_exists. exists arm. split; [by apply list_elem_of_In|by apply marked_is_secret].
Qed.

Lemma union_alike room s any_of v w : kind_read (Some s) = KUnion any_of ->
  (forall arm, arm ∈ list_items (Some any_of) -> arm_accepts arm v = arm_accepts arm w) ->
  (forall arm, arm ∈ list_items (Some any_of) -> arm_accepts arm v = true -> node room arm v = node room arm w) ->
  (exists arm, arm ∈ list_items (Some any_of) /\ arm_accepts arm v = true) ->
  node (S room) s v = node (S room) s w.
Proof.
  intros Hk Hs Hn (arm & Hin & Ha). cbn [redact_node]. destruct (marks_secret (S room) s); [done|]. rewrite Hk.
  rewrite (filter_alike (λ arm, arm_accepts arm w) (λ arm, arm_accepts arm v))
    by (intros a Ha'; symmetry; by apply Hs).
  assert (forall a, a ∈ List.filter (λ arm, arm_accepts arm v) (list_items (Some any_of)) ->
    node room a v = node room a w) as Hall.
  { intros a [Hi Hx]%list_elem_of_In%filter_In. apply Hn; [by apply list_elem_of_In|done]. }
  assert (arm ∈ List.filter (λ arm, arm_accepts arm v) (list_items (Some any_of))) as Hf.
  { apply list_elem_of_In, filter_In. by rewrite <- list_elem_of_In. }
  destruct (List.filter _ _) as [|first rest]; [by apply elem_of_nil in Hf|].
  destruct (existsb _ _); [done|]. rewrite Hall by (by left). destruct (node room first w); [|done].
  apply agree_on_same. intros c Ha'. apply Hall. by right.
Qed.

Lemma alike_redacts room s v w : alike room s v w -> node room s v = node room s w.
Proof.
  induction 1 as [|[|room] s v w H|[|room] s v w H|[|room] s v w Hv Hw Cv Cw
    |room s items a b l l' Hk Hl _ IH|room s owner l l' Hk Hl _ IH Hr|room s owner m m' Hk Hm _ IH
    |room s tag arms m m' Hk Hm Ht Hg _ IH|room s any_of v w Hk Hs _ IH He|]; try done.
  - pose proof (marked_is_secret s H (S room)). by rewrite !redact_marked.
  - cbn [redact_node]. destruct (marks_secret (S room) s); [done|]. by rewrite H, decide_True.
  - by rewrite !redact_unread.
  - cbn [redact_node]. destruct (marks_secret (S room) s); [done|]. rewrite Hk. cbn [as_list].
    apply elements_alike; [done|]. intros i x y Hx Hy. by apply (IH i).
  - cbn [redact_node]. destruct (marks_secret (S room) s); [done|]. rewrite Hk. cbn [as_list].
    apply elements_alike; [done|]. intros i x y Hx Hy.
    destruct (prefix_items owner !! i) as [p|] eqn:E; [by apply (IH i)|].
    destruct (Hr i x y Hx Hy E) as [->|[Cx Cy]]; [done|]. unfold fallback. by rewrite Cx, Cy.
  - cbn [redact_node]. destruct (marks_secret (S room) s); [done|]. cbn [as_map].
    rewrite (keys_are_text_keys _ _ Hm).
    repeat (apply elem_of_cons in Hk as [Hk|Hk]); [..|by apply elem_of_nil in Hk];
      rewrite Hk in IH |- *; destruct (keys_are_text m'); try done; apply entries_alike; try done;
      intros i k x y Hx Hy.
    + apply object_part_alike. intros d. by apply (IH i).
    + specialize (IH i k x y). unfold describes_key, object_part in IH. cbn [kind_fields list_find fmap] in IH.
      destruct (extra_schema owner) as [d|]; [by apply IH|done].
  - cbn [redact_node]. destruct (marks_secret (S room) s); [done|]. cbn [as_map].
    rewrite (keys_are_text_keys _ _ Hm), Hk. destruct (keys_are_text m'); [|done].
    apply entries_alike; [done|]. intros i k x y Hx Hy. apply variant_part_alike; [done| |].
    + intros ->. by apply (Hg i).
    + intros d. by apply (IH i).
  - by apply (union_alike _ _ any_of).
  - by rewrite (union_marked _ _ any_of arm), (union_marked _ _ any_of arm').
Qed.

(** ** What a copy is *)

(** A value with some of what it holds replaced by the placeholder. *)
Inductive covers : Value -> Value -> Prop :=
  | covers_same v : covers v v
  | covers_mask v : covers v (VString placeholder)
  | covers_list l l' : Forall2 covers l l' -> covers (VList l) (VList l')
  | covers_map m m' : Forall2 (λ e e', e.1 = e'.1 /\ covers e.2 e'.2) m m' -> covers (VMap m) (VMap m').

(** How a copy ends: with such a value, or refused as too deep. *)
Definition covered (v : Value) (r : result (fault ValueError) Value) : Prop :=
  match r with Ok w => covers v w | Err e => e = Refuse TooDeep end.

Lemma keep_covered v : value_wf v -> covered v (keep v).
Proof.
  intros H. unfold keep. rewrite copy_value_spec. unfold copied.
  apply wf_not_refused, uncopiable_refused in H. rewrite H. constructor.
Qed.

Lemma mask_covered v : covered v (mask placeholder).
Proof. constructor. Qed.

Lemma fallback_covered v : value_wf v -> covered v (fallback placeholder v).
Proof. intros H. unfold fallback. destruct (is_container v); [apply mask_covered|by apply keep_covered]. Qed.

#[local] Hint Resolve keep_covered mask_covered fallback_covered : core.

Lemma enumerate_elements {A} (l : list A) : map snd (enumerate l) = l.
Proof.
  apply list_eq. intros i. rewrite (list_lookup_fmap snd), enumerate_lookup. by destruct (l !! i).
Qed.

Lemma elements_covered n l schema_at : Forall value_wf l ->
  (forall s v, value_wf v -> covered v (n s v)) ->
  covered (VList l) (redact_elements placeholder n l schema_at).
Proof.
  intros Hl Hn. unfold redact_elements. set (body := λ out '(i, x), _).
  assert (forall ixs out, Forall (λ ix : nat * Value, value_wf ix.2) ixs ->
    match try_fold body out ixs with
    | Ok out' => exists l', out' = out ++ l' /\ Forall2 covers (map snd ixs) l'
    | Err e => e = Refuse TooDeep end) as H.
  { induction ixs as [|[i x] ixs IH]; intros out Hw; [by exists []; rewrite app_nil_r|].
    inversion_clear Hw as [|? ? Hx Hw']. cbn [try_fold]. cbn in Hx.
    assert (covered x (match schema_at i with Some s => n s x | None => fallback placeholder x end)) as Hc.
    { destruct (schema_at i); auto. }
    change (body out (i, x)) with (y ← match schema_at i with Some s => n s x | None => fallback placeholder x end;
      Ok (out ++ [y])).
    destruct (match schema_at i with Some s => n s x | None => _ end) as [y|e]; [|done].
    cbn [mbind result_bind]. specialize (IH (out ++ [y]) Hw'). destruct (try_fold _ _ ixs) as [o|e]; [|done].
    destruct IH as (l' & -> & Hf). exists (y :: l'). rewrite <- app_assoc. split; [done|by constructor]. }
  assert (Forall (λ ix : nat * Value, value_wf ix.2) (enumerate l)) as Hw.
  { rewrite <- (enumerate_elements l) in Hl. exact (proj1 (List.Forall_map _ _ _) Hl). }
  specialize (H (enumerate l) [] Hw). destruct (try_fold _ _ _) as [o|e]; [|done].
  destruct H as (l' & -> & Hf). rewrite enumerate_elements in Hf. by constructor.
Qed.

Lemma part_covered n p v : value_wf v -> (forall s v, value_wf v -> covered v (n s v)) ->
  covered v (redact_part placeholder n p v).
Proof. intros Hv Hn. destruct p; [by apply keep_covered|by apply Hn|apply mask_covered]. Qed.

Lemma set_absent m k v : k ∉ keys m -> set_ m k v = m ++ [(k, v)].
Proof. intros H. apply position_None in H. unfold set_. by rewrite H. Qed.

Lemma entries_covered n m part : value_wf (VMap m) -> (forall s v, value_wf v -> covered v (n s v)) ->
  covered (VMap m) (redact_entries placeholder n m part).
Proof.
  intros (_ & Hd & Hw)%value_wf_map Hn. unfold redact_entries. set (body := λ out e, _).
  assert (forall m out, Forall entry_wf m -> NoDup (keys out ++ map fst m) ->
    match try_fold body out m with
    | Ok out' => exists m', out' = out ++ m' /\ Forall2 (λ e e', e.1 = e'.1 /\ covers e.2 e'.2) m m'
    | Err e => e = Refuse TooDeep end) as H.
  { clear -Hn. induction m as [|[k x] m IH]; intros out Hw Hd; [by exists []; rewrite app_nil_r|].
    inversion_clear Hw as [|? ? (_ & _ & Hx) Hw']. cbn [try_fold].
    change (body out (k, x)) with (child ← redact_part placeholder n (part k x) x; Ok (set_ out k child)).
    cbn in Hx, Hd.
    pose proof (part_covered n (part k x) x Hx Hn) as Hc.
    destruct (redact_part placeholder n (part k x) x) as [y|e]; [|done]. cbn [mbind result_bind].
    apply NoDup_app in Hd as (Ho & Hk & Hm). apply NoDup_cons in Hm as [Hkm Hm].
    rewrite set_absent by (intros Hin; by apply (Hk _ Hin), elem_of_cons; left).
    specialize (IH (out ++ [(k, y)]) Hw'). destruct (try_fold _ _ m) as [o|e].
    - destruct IH as (l' & -> & Hf).
      + unfold keys in *. rewrite map_app, <- app_assoc. cbn. apply NoDup_app. split_and!; [done..|].
        by apply NoDup_cons.
      + exists ((k, y) :: l'). rewrite <- app_assoc. split; [done|by constructor].
    - apply IH. unfold keys in *. rewrite map_app, <- app_assoc. cbn. apply NoDup_app. split_and!; [done..|].
      by apply NoDup_cons. }
  specialize (H m [] Hw Hd). destruct (try_fold _ _ _) as [o|e]; [|done].
  destruct H as (m' & -> & Hf). by constructor.
Qed.

Lemma agree_covered n arms v first : (forall s, covered v (n s v)) -> covers v first ->
  covered v (agree_on placeholder n arms v first).
Proof.
  intros Hn Hf. induction arms as [|arm arms IH]; [done|]. cbn. specialize (Hn arm).
  destruct (n arm v) as [w|e]; [|done]. cbn. case_match; auto.
Qed.

Lemma node_covered room : forall s v, value_wf v -> covered v (node room s v).
Proof.
  induction room as [|room IH]; intros s v Hv; [done|]. cbn [redact_node].
  destruct (marks_secret (S room) s); [auto|].
  destruct (kind_read (Some s)) as [| | | | | |items ? ?|owner|owner|owner| |any_of|tag arms|name|];
    try by apply fallback_covered.
  1,2: destruct (as_list v) as [l|] eqn:E; [|auto]; apply as_list_Some in E as ->;
    apply elements_covered; [by apply value_wf_list in Hv as [_ ?]|done].
  1,2,4: destruct (as_map v) as [m|] eqn:E; [|auto]; apply as_map_Some in E as [-> _]; by apply entries_covered.
  - destruct (List.filter _ _) as [|first rest]; [auto|]. destruct (existsb _ _); [auto|].
    pose proof (IH first v Hv) as Hf. destruct (node room first v) as [w|e]; [|done].
    apply agree_covered; [by intros a; apply IH|done].
  - case_decide; auto.
Qed.
End secrecy.

(** ** What redacting promises *)


(** An account: a name, a password behind an optional, and a list of tokens. *)
Definition account_schema : Value :=
  VMap [(TYPE, VString TYPE_OBJECT);
        (PROPERTIES, VMap [
          (bs "name", VMap [(TYPE, VString TYPE_STRING)]);
          (bs "password", VMap [(ANY_OF, VList [VMap [(TYPE, VString TYPE_STRING); (X_SENSITIVE, VBool true)];
                                                VMap [(TYPE, VString TYPE_NULL)]])]);
          (bs "tokens", VMap [(TYPE, VString TYPE_ARRAY);
                              (ITEMS, VMap [(TYPE, VString TYPE_STRING); (WRITE_ONLY, VBool true)])])])].
Definition account (password : Value) (token : bytes) (extra : Value) : Value :=
  VMap [(bs "name", VString (bs "ana")); (bs "password", password); (bs "tokens", VList [VString token]);
        (bs "note", extra)].

Lemma account_alike p q t u x y : alike None MAX_DEPTH account_schema (account p t x) (account q u y).
Proof.
  eapply (alike_object _ 127 _ account_schema).
  - assert (kind_read (Some account_schema) = KMap account_schema) as -> by (vm_compute; reflexivity). by left.
  - done.
  - intros [|[|[|[|i]]]] k a b d Ha Hb Hd; simplify_eq/=; [apply alike_same| | |vm_compute in Hd; discriminate..].
    + apply alike_marked. vm_compute in Hd. injection Hd as <-.
      eapply marked_inner; [vm_compute; reflexivity|]. by apply marked_self.
    + vm_compute in Hd. injection Hd as <-. eapply alike_list; [vm_compute; reflexivity|done|].
      intros i a b _ _. by apply alike_marked, marked_self.
Qed.


(** A copy is its value with some of what it holds replaced by the placeholder:
    the same elements in the same places and the same keys in the same order down
    to what was replaced. Only a walk past the depth bound is refused, and nothing
    panics. *)
Theorem redaction_covers regex placeholder s v :
  value_wf v -> covered placeholder v (redact regex placeholder s v).
Proof. intros H. unfold redact. by apply node_covered. Qed.

Lemma redaction_covers_witness :
  let v := account (VString (bs "hunter2")) (bs "t") VNull in
  covered (bs "***") v (redact None (bs "***") account_schema v).
Proof. apply redaction_covers, wf_ok_wf. vm_compute. reflexivity. Defined.

(** A tuple whose elements past the first are secrets. *)
Definition tuple_schema : Value :=
  VMap [(TYPE, VString TYPE_ARRAY); (PREFIX_ITEMS, VList [VMap [(TYPE, VString TYPE_INTEGER)]]);
        (ITEMS, VMap [(TYPE, VString TYPE_STRING); (X_SENSITIVE, VBool true)])].

(** An element past a tuple's positions is taken for one nothing describes, and
    kept when it is a scalar, though [items] describes it when the tuple is
    validated: a secret of that place is shown. *)
Theorem tuple_rest_is_shown :
  let v := VList [VNumber (bs "1"); VString (bs "hunter2")] in
  redact None (bs "***") tuple_schema v = Ok v /\
  accepts None tuple_schema v = true /\
  accepts None tuple_schema (VList [VNumber (bs "1"); VNumber (bs "2")]) = false.
Proof. vm_compute. repeat split. Qed.
