(* ===== verification/Stream.v ===== *)
(** * Frames over a byte stream

    [transport/mod.rs] and [transport/stream.rs] of the remote source: what a
    writer of frames promises the link, as an interface; the writer and the reader
    over a byte stream, which the operating system cuts anywhere, interrupts and
    breaks. *)

From S2P Require Import Prelude Errors Keys.

(** ** Errors *)

(** The kinds of [io::Error] the code makes or tells apart. *)
Inductive IoError : Type :=
  | Interrupted
  | UnexpectedEof
  | WriteZero
  | OverMax (n max : Z)
  | OtherIo (code : Z).

#[export] Instance IoError_eq_dec : EqDecision IoError.
Proof. solve_decision. Defined.

Abbreviation io := (result (fault IoError)) (only parsing).

(** [u32::to_le_bytes]. *)
Definition le32 (n : Z) : bytes := [n mod 256; n / 256 mod 256; n / 65536 mod 256; n / 16777216 mod 256].
(** [u64::to_le_bytes]. *)
Definition le64 (n : Z) : bytes := le32 n ++ le32 (n / 2 ^ 32).

(** ** What a writer promises *)

(** What a call that should deliver [b] did: all of it, or, refused, a prefix. *)
Definition delivers {W} (delivered : W -> bytes) (b : bytes) (w : W) (r : io unit * W) : Prop :=
  match r.1 with
  | Ok _ => delivered r.2 = delivered w ++ b
  | Err _ => exists p, p `prefix_of` b /\ delivered r.2 = delivered w ++ p
  end.

(** [FrameWrite]. [delivered] is every byte the transport has taken. *)
Class FrameWrite (W : Type) := {
  write_frame : W -> bytes -> io unit * W;
  write_frame_parts : W -> bytes -> bytes -> io unit * W;
  write_frames : W -> list bytes -> io unit * W;
  shutdown : W -> W;
  delivered : W -> bytes;
  write_frame_delivers w f : delivers delivered f w (write_frame w f);
  write_frame_parts_delivers w head tail : delivers delivered (head ++ tail) w (write_frame_parts w head tail);
  write_frames_delivers w fs : delivers delivered (concat fs) w (write_frames w fs);
  shutdown_delivers w : delivered (shutdown w) = delivered w
}.

(** ** A sink of bytes *)

(** What the operating system does with one call: takes at most so many bytes,
    interrupts it, or fails. *)
Inductive Took : Type := Takes (n : nat) | Interrupts | Fails (code : Z).

(** [impl Write]: the bytes taken so far, and what the next calls will do; after
    those, every call takes all. *)
Record Sink := MkSink { taken : bytes; script : list Took }.

Definition sink_write (s : Sink) (b : bytes) : result IoError nat * Sink :=
  match script s with
  | [] => (Ok (length b), MkSink (taken s ++ b) [])
  | Takes n :: script => let n := Nat.min n (length b) in (Ok n, MkSink (taken s ++ take n b) script)
  | Interrupts :: script => (Err Interrupted, MkSink (taken s) script)
  | Fails code :: script => (Err (OtherIo code), MkSink (taken s) script)
  end.
Definition sink_flush (s : Sink) : result IoError unit * Sink :=
  match script s with
  | [] | Takes _ :: _ => (Ok (), MkSink (taken s) (tail (script s)))
  | Interrupts :: script => (Err Interrupted, MkSink (taken s) script)
  | Fails code :: script => (Err (OtherIo code), MkSink (taken s) script)
  end.

(** ** The stream writer *)

(** [IoSlice::advance_slices]. *)
Fixpoint advance_slices (n : nat) (bufs : list bytes) : result (fault IoError) (list bytes) :=
  match bufs with
  | [] => if decide (n = O) then Ok [] else Err Panic
  | b :: rest => if decide (length b <= n)%nat then advance_slices (n - length b) rest else Ok (drop n b :: rest)
  end.

(** One round of the loops of [Write::write_all] and of
    [StreamWriter::write_frames]; what is left of a loop that failed is what the
    sink is. *)
Definition WriteState : Type := Sink * list bytes.
Definition write_round (st : WriteState) : result (fault IoError * Sink) (WriteState + Sink) :=
  let '(s, todo) := st in
  match todo with
  | [] => Ok (inr s)
  | _ =>
      match sink_write s (concat todo) with
      | (Ok 0%nat, s) => Err (Refuse WriteZero, s)
      | (Ok n, s) =>
          match advance_slices n todo with Ok todo => Ok (inl (s, todo)) | Err e => Err (e, s) end
      | (Err Interrupted, s) => Ok (inl (s, todo))
      | (Err e, s) => Err (Refuse e, s)
      end
  end.
Definition write_fuel (st : WriteState) : nat := S (length (concat st.2) + length (script st.1)).
Definition write_left (s : Sink) (todo : list bytes) : io unit * Sink :=
  match loop write_round (write_fuel (s, todo)) (Panic, s) (s, todo) with
  | Ok s => let '(r, s) := sink_flush s in (match r with Ok _ => Ok () | Err e => Err (Refuse e) end, s)
  | Err (e, s) => (Err e, s)
  end.

(** [StreamWriter::write_frame], [write_frames] and [write_frame_parts]. *)
Definition stream_write_frame (s : Sink) (f : bytes) : io unit * Sink :=
  write_left s (match f with [] => [] | _ => [f] end).
Definition stream_write_frames (s : Sink) (frames : list bytes) : io unit * Sink :=
  match frames with
  | [frame] => stream_write_frame s frame
  | _ => match advance_slices 0 frames with Ok todo => write_left s todo | Err e => (Err e, s) end
  end.
Definition stream_write_frame_parts (s : Sink) (head tail : bytes) : io unit * Sink :=
  stream_write_frames s [head; tail].

(** [StreamWriter::shutdown]: a failing flush is ignored. *)
Definition stream_shutdown (s : Sink) : Sink := (sink_flush s).2.

(** ** The stream reader *)

(** What the peer's bytes arrive as: cut anywhere, interrupted, then the end of
    the stream or an error. *)
Inductive Arrival : Type := Chunk (b : bytes) | Interrupt | Broken (code : Z).
Abbreviation Source := (list Arrival) (only parsing).

(** [Read::read] into [k] bytes of room. *)
Fixpoint source_read (k : nat) (s : Source) : result IoError bytes * Source :=
  match s with
  | [] => (Ok [], [])
  | Interrupt :: s => (Err Interrupted, s)
  | Broken code :: _ => (Err (OtherIo code), s)
  | Chunk b :: s =>
      match b with
      | [] => source_read k s
      | _ => (Ok (take k b), match drop k b with [] => s | b => Chunk b :: s end)
      end
  end.

(** The loop that fills [k] bytes, of the length and of [Read::read_exact]: what
    it has, or how much it had when the stream ended. *)
Definition ReadState : Type := bytes * Source.
Definition read_round (k : nat) (st : ReadState) : result (fault IoError * Source) (ReadState + (bool * bytes * Source)) :=
  let '(got, s) := st in
  if decide (k <= length got)%nat then Ok (inr (true, got, s))
  else
    match source_read (k - length got) s with
    | (Ok [], s) => Ok (inr (false, got, s))
    | (Ok b, s) => Ok (inl (got ++ b, s))
    | (Err Interrupted, s) => Ok (inl (got, s))
    | (Err e, s) => Err (Refuse e, s)
    end.
Definition read_full (k : nat) (s : Source) : result (fault IoError * Source) (bool * bytes * Source) :=
  loop (read_round k) (S (k + length s)) (Panic, s) ([], s).

(** [StreamReader::read_frame_in]: the next frame's body, or nothing at a clean
    end. *)
Definition read_frame (max : Z) (s : Source) : result (fault IoError * Source) (option bytes * Source) :=
  '(full, len, s) ← read_full 4 s;
  if negb full then
    match len with [] => Ok (None, s) | _ => Err (Refuse UnexpectedEof, s) end
  else
    let n := from_le_bytes len in
    if max <? n then Err (Refuse (OverMax n max), s)
    else
      '(full, body, s) ← read_full (Z.to_nat n) s;
      if full : bool then Ok (Some body, s) else Err (Refuse UnexpectedEof, s).

(** ** What the writer does *)

(** Nothing is left, or its first slice holds something. *)
Definition headed (todo : list bytes) : Prop := concat todo = [] -> todo = [].

Lemma advance_slices_spec : forall bufs n, (n <= length (concat bufs))%nat ->
  exists todo, advance_slices n bufs = Ok todo /\ concat todo = drop n (concat bufs) /\ headed todo.
Proof.
  induction bufs as [|b bufs IH]; intros n Hn; cbn [advance_slices concat] in *.
  - rewrite decide_True by (simpl in Hn; lia). exists []. by rewrite drop_nil.
  - rewrite length_app in Hn. case_decide as Hb.
    + destruct (IH (n - length b)%nat ltac:(lia)) as (todo & -> & Hc & Hh).
      exists todo. split_and!; [done| |done]. rewrite Hc, drop_app_ge by lia. done.
    + exists (drop n b :: bufs). split_and!; [done|cbn; by rewrite drop_app_le by lia|].
      intros H. cbn in H. apply app_eq_nil in H as [H _]. apply (f_equal length) in H.
      rewrite length_drop in H. simpl in H. lia.
Qed.

(** What a refused write left: a prefix, and no panic. *)
Definition part_taken (b : bytes) (s : Sink) (r : fault IoError * Sink) : Prop :=
  r.1 <> Panic /\ exists p, p `prefix_of` b /\ taken r.2 = taken s ++ p.

Lemma prefix_nothing (b : bytes) : [] `prefix_of` b.
Proof. apply prefix_nil. Qed.

Lemma part_taken_none b s e s' : e <> Panic -> taken s' = taken s -> part_taken b s (e, s').
Proof. intros He Hs. split; [done|]. exists []. rewrite app_nil_r. split; [apply prefix_nil|done]. Qed.

Lemma part_taken_more n b s s1 r : taken s1 = taken s ++ take n b ->
  part_taken (drop n b) s1 r -> part_taken b s r.
Proof.
  intros H1 (He & p & [q Hp] & H2). split; [done|]. exists (take n b ++ p). split.
  - exists q. rewrite <- app_assoc, <- Hp. by rewrite take_drop.
  - by rewrite H2, H1, app_assoc.
Qed.

Lemma write_loop_spec out fuel : forall s todo, headed todo ->
  (length (concat todo) + length (script s) < fuel)%nat ->
  match loop write_round fuel out (s, todo) with
  | Ok s' => taken s' = taken s ++ concat todo
  | Err r => part_taken (concat todo) s r
  end.
Proof.
  induction fuel as [|fuel IH]; intros s todo Hh Hf; [lia|]. cbn [loop write_round].
  destruct todo as [|b todo]; [by rewrite app_nil_r|]. set (bufs := b :: todo) in *.
  assert (length (concat bufs) <> O) as Hpos by (intros H%nil_length_inv; by apply Hh in H).
  unfold sink_write. destruct s as [tk [|[n| |code] sc]]; cbn [script taken] in *.
  - destruct (length (concat bufs)) as [|m] eqn:El; [done|]. rewrite <- El.
    destruct (advance_slices_spec bufs (length (concat bufs)) ltac:(lia)) as (todo' & -> & Hc & Hh').
    rewrite drop_all in Hc. rewrite (Hh' Hc). destruct fuel; [lia|]. done.
  - destruct (Nat.min n (length (concat bufs))) as [|m] eqn:El; [by apply part_taken_none; cbn; rewrite ?app_nil_r|].
    rewrite <- El. set (k := Nat.min n (length (concat bufs))) in *.
    destruct (advance_slices_spec bufs k ltac:(lia)) as (todo' & -> & Hc & Hh').
    specialize (IH (MkSink (tk ++ take k (concat bufs)) sc) todo' Hh').
    rewrite Hc, length_drop in IH. cbn [script taken] in IH. specialize (IH ltac:(simpl in *; lia)).
    destruct (loop _ _ _ _) as [s'|r].
    + rewrite IH, <- app_assoc. by rewrite take_drop.
    + eapply part_taken_more; [|done]. done.
  - specialize (IH (MkSink tk sc) bufs Hh ltac:(simpl in *; lia)). done.
  - by apply part_taken_none.
Qed.

Lemma sink_flush_taken s : taken (sink_flush s).2 = taken s.
Proof. unfold sink_flush. by destruct s as [tk [|[n| |code] sc]]. Qed.

(** A write of the slices left delivers them, and never panics. *)
Definition sound_write (b : bytes) (s : Sink) (r : io unit * Sink) : Prop :=
  delivers taken b s r /\ r.1 <> Err Panic.

Lemma write_left_spec s todo : headed todo -> sound_write (concat todo) s (write_left s todo).
Proof.
  intros Hh. unfold write_left. pose proof (write_loop_spec (Panic, s) (write_fuel (s, todo)) s todo Hh) as H.
  specialize (H ltac:(unfold write_fuel; cbn; lia)). destruct (loop _ _ _ _) as [s'|[e s']].
  - pose proof (sink_flush_taken s') as Hs. destruct (sink_flush s') as [[[]|e] s2]; cbn in Hs.
    + split; [|done]. unfold delivers. cbn. by rewrite Hs.
    + split; [|done]. exists (concat todo). cbn. by rewrite Hs.
  - destruct H as [He Hp]. split; [done|]. cbn in *. by intros [= ->].
Qed.

Lemma stream_write_frame_spec s f : sound_write f s (stream_write_frame s f).
Proof.
  unfold stream_write_frame. destruct f as [|x f]; [by apply (write_left_spec s [])|].
  pose proof (write_left_spec s [x :: f]) as H. cbn [concat] in H. rewrite app_nil_r in H. by apply H.
Qed.

Lemma stream_write_frames_spec s frames : sound_write (concat frames) s (stream_write_frames s frames).
Proof.
  assert (sound_write (concat frames) s
    match advance_slices 0 frames with Ok todo => write_left s todo | Err e => (Err e, s) end) as Hg.
  { destruct (advance_slices_spec frames 0 ltac:(lia)) as (todo & -> & Hc & Hh).
    rewrite drop_0 in Hc. rewrite <- Hc. by apply write_left_spec. }
  destruct frames as [|f [|g fs]]; [done| |done].
  cbn [concat]. rewrite app_nil_r. apply stream_write_frame_spec.
Qed.

(** [StreamWriter] keeps what [FrameWrite] promises. *)
#[export] Program Instance StreamWriter : FrameWrite Sink := {
  write_frame := stream_write_frame;
  write_frame_parts := stream_write_frame_parts;
  write_frames := stream_write_frames;
  shutdown := stream_shutdown;
  delivered := taken
}.
Next Obligation. apply stream_write_frame_spec. Qed.
Next Obligation.
  intros w head tail. pose proof (stream_write_frames_spec w [head; tail]) as [H _].
  cbn [concat] in H. by rewrite app_nil_r in H.
Qed.
Next Obligation. apply stream_write_frames_spec. Qed.
Next Obligation. apply sink_flush_taken. Qed.

(** ** What the reader does *)

(** The bytes that arrive before the end or an error, and which of them it is. *)
Fixpoint arrived (s : list Arrival) : bytes :=
  match s with
  | Chunk b :: s => b ++ arrived s
  | Interrupt :: s => arrived s
  | Broken _ :: _ | [] => []
  end.
Fixpoint broken (s : list Arrival) : option Z :=
  match s with
  | Chunk _ :: s | Interrupt :: s => broken s
  | Broken code :: _ => Some code
  | [] => None
  end.

Lemma source_read_spec k s : (0 < k)%nat ->
  match source_read k s with
  | (Ok [], s') => arrived s = [] /\ broken s = None /\ s' = []
  | (Ok b, s') => arrived s = b ++ arrived s' /\ (length b <= k)%nat /\ broken s' = broken s /\ (length s' <= length s)%nat
  | (Err Interrupted, s') => arrived s' = arrived s /\ broken s' = broken s /\ (length s' < length s)%nat
  | (Err e, s') => exists code, e = OtherIo code /\ arrived s = [] /\ broken s = Some code
  end.
Proof.
  intros Hk. induction s as [|[[|x b]| |code] s IH]; cbn [source_read arrived broken length app]; try naive_solver lia.
  - destruct (source_read k s) as [[[|y b']|[]] s']; naive_solver lia.
  - destruct k as [|k]; [lia|]. cbn [take]. pose proof (take_drop k b) as Hb.
    cbn [drop]. destruct (drop k b) as [|y b'] eqn:Ed; split_and!; try done; try (simpl; lia).
    + by rewrite <- Hb at 1; rewrite app_nil_r.
    + cbn. rewrite length_take. lia.
    + cbn [arrived]. rewrite <- Hb at 1. by rewrite <- app_assoc.
    + cbn. rewrite length_take. lia.
Qed.

(** What filling [k] bytes comes to: it depends on what arrives, not on how it is
    cut. *)
Definition filled (k : nat) (got : bytes) (s : list Arrival)
    (r : result (fault IoError * list Arrival) (bool * bytes * list Arrival)) : Prop :=
  let all := got ++ arrived s in
  match r with
  | Ok (true, b, s') => (k <= length all)%nat /\ b = take k all /\ arrived s' = drop k all /\ broken s' = broken s
  | Ok (false, b, s') => (length all < k)%nat /\ b = all /\ broken s = None /\ s' = []
  | Err (e, _) => exists code, (length all < k)%nat /\ broken s = Some code /\ e = Refuse (OtherIo code)
  end.

Lemma read_loop_spec k out fuel : forall got s, (length got <= k)%nat -> (k - length got + length s < fuel)%nat ->
  filled k got s (loop (read_round k) fuel out (got, s)).
Proof.
  induction fuel as [|fuel IH]; intros got s Hg Hf; [lia|]. cbn [loop read_round].
  case_decide as Hk.
  - cbn. assert (length got = k) as Hl by lia. rewrite length_app. split_and!; [lia| | |done].
    + by rewrite take_app_length'.
    + by rewrite drop_app_length'.
  - pose proof (source_read_spec (k - length got) s ltac:(lia)) as Hs.
    destruct (source_read (k - length got) s) as [[[|x b]|e] s'].
    + destruct Hs as (Ha & Hb & ->). cbn. rewrite Ha, app_nil_r. split_and!; [lia|done..].
    + destruct Hs as (Ha & Hb & Hc & Hl). specialize (IH (got ++ x :: b) s').
      rewrite length_app in IH. specialize (IH ltac:(lia) ltac:(simpl in *; lia)).
      unfold filled in *. by rewrite <- app_assoc, <- Ha, Hc in IH.
    + assert (e = Interrupted \/ exists code, e = OtherIo code /\ arrived s = [] /\ broken s = Some code) as [->|(code & -> & Ha & Hb)].
      { destruct e; auto. }
      * destruct Hs as (Ha & Hb & Hl). specialize (IH got s' ltac:(lia) ltac:(lia)).
        unfold filled in *. by rewrite Ha, Hb in IH.
      * cbn. exists code. rewrite Ha, app_nil_r. split_and!; [lia|done..].
Qed.

Lemma read_full_spec k s : filled k [] s (read_full k s).
Proof. apply read_loop_spec; simpl; lia. Qed.

(** The next frame of bytes that arrive whole. *)
Inductive Next : Type := NoMore | Whole (body rest : bytes) | Over (n : Z) | Short.
Definition next_frame (max : Z) (all : bytes) : Next :=
  if decide (all = []) then NoMore
  else if decide (length all < 4)%nat then Short
  else
    let n := from_le_bytes (take 4 all) in
    let rest := drop 4 all in
    if max <? n then Over n
    else if decide (length rest < Z.to_nat n)%nat then Short
    else Whole (take (Z.to_nat n) rest) (drop (Z.to_nat n) rest).

(** A frame as the link builds it: its length, then its body. *)
Definition framed (body : bytes) : bytes := le32 (Z.of_nat (length body)) ++ body.

Lemma from_le32 n : 0 <= n < 2 ^ 32 -> from_le_bytes (le32 n) = n.
Proof. intros Hn. unfold from_le_bytes, le32. cbn [foldr]. dlia. Qed.

Lemma from_le64 n : 0 <= n < 2 ^ 64 -> from_le_bytes (le64 n) = n.
Proof.
  intros H. unfold le64, le32, from_le_bytes. cbn [app foldr].
  change (2 ^ 32) with 4294967296. change (2 ^ 64) with 18446744073709551616 in H.
  Z.to_euclidean_division_equations. lia.
Qed.

Lemma from_le_bound w : Forall is_byte w -> 0 <= from_le_bytes w < 256 ^ Z.of_nat (length w).
Proof.
  unfold from_le_bytes. induction 1 as [|b w Hb _ IH]; [done|]. cbn [foldr length]. unfold is_byte in Hb. rewrite Nat2Z.inj_succ, Z.pow_succ_r by lia. nia.
Qed.
Lemma le32_length n : length (le32 n) = 4%nat.
Proof. done. Qed.

Lemma next_frame_framed max body rest : Z.of_nat (length body) <= max -> max <= u32_max ->
  next_frame max (framed body ++ rest) = Whole body rest.
Proof.
  intros Hb Hm. unfold next_frame, framed. rewrite decide_False by done.
  rewrite <- app_assoc, decide_False by (rewrite length_app, le32_length; lia).
  rewrite take_app_length', drop_app_length' by done. unfold u32_max in Hm. rewrite from_le32 by lia.
  destruct (Z.ltb_spec max (Z.of_nat (length body))); [lia|]. rewrite Nat2Z.id.
  rewrite decide_False by (rewrite length_app; lia). by rewrite take_app_length, drop_app_length.
Qed.

(** Where the bytes end short of what is read: the stream's end, or its error. *)
Definition cut_short (s : list Arrival) : IoError :=
  match broken s with Some code => OtherIo code | None => UnexpectedEof end.

Lemma read_frame_spec max s :
  match next_frame max (arrived s) with
  | Whole body rest => exists s', read_frame max s = Ok (Some body, s') /\ arrived s' = rest /\ broken s' = broken s
  | NoMore =>
      match broken s with
      | None => read_frame max s = Ok (None, [])
      | Some code => exists s', read_frame max s = Err (Refuse (OtherIo code), s')
      end
  | Over n => exists s', read_frame max s = Err (Refuse (OverMax n max), s')
  | Short => exists s', read_frame max s = Err (Refuse (cut_short s), s')
  end.
Proof.
  pose proof (read_full_spec 4 s) as H4. unfold read_frame, next_frame, cut_short.
  destruct (read_full 4 s) as [[[[] len] s1]|[e s1]]; cbn [filled app] in H4.
  - destruct H4 as (Hl & -> & Ha & Hb). cbn [mbind result_bind negb].
    rewrite decide_False by (intros E; rewrite E in Hl; simpl in Hl; lia). rewrite decide_False by lia.
    destruct (max <? from_le_bytes (take 4 (arrived s))); [by eexists|].
    set (n := Z.to_nat _). pose proof (read_full_spec n s1) as Hn. rewrite <- Ha, <- Hb.
    destruct (read_full n s1) as [[[[] body] s2]|[e s2]]; cbn [filled app] in Hn.
    + destruct Hn as (Hl' & -> & Ha' & Hb'). rewrite decide_False by lia. cbn. eexists. by split_and!.
    + destruct Hn as (Hl' & -> & Hb' & ->). rewrite decide_True by lia. cbn. rewrite Hb'. by eexists.
    + destruct Hn as (code & Hl' & Hb' & ->). rewrite decide_True by lia. cbn. rewrite Hb'. by eexists.
  - destruct H4 as (Hl & -> & Hb & ->). cbn [mbind result_bind negb].
    destruct (arrived s) as [|x l]; [rewrite decide_True by done; by rewrite Hb|].
    rewrite decide_False by done. rewrite decide_True by lia. rewrite Hb. by eexists.
  - destruct H4 as (code & Hl & Hb & ->). cbn [mbind result_bind].
    destruct (arrived s) as [|x l]; [rewrite decide_True by done; rewrite Hb; by eexists|].
    rewrite decide_False by done. rewrite decide_True by lia. rewrite Hb. by eexists.
Qed.

(** Frames read until the end of the stream. *)
Fixpoint read_frames (fuel : nat) (max : Z) (s : list Arrival) : io (list bytes) :=
  match fuel with
  | O => Err Panic
  | S fuel =>
      match read_frame max s with
      | Ok (None, _) => Ok []
      | Ok (Some body, s) => rest ← read_frames fuel max s; Ok (body :: rest)
      | Err (e, _) => Err e
      end
  end.

Lemma read_frames_spec max bodies : max <= u32_max -> forall s,
  Forall (λ b, Z.of_nat (length b) <= max) bodies -> arrived s = concat (map framed bodies) -> broken s = None ->
  read_frames (S (length bodies)) max s = Ok bodies.
Proof.
  intros Hm. induction bodies as [|b bodies IH]; intros s Hb Ha He.
  - pose proof (read_frame_spec max s) as H. rewrite Ha, He in H. cbn in H. cbn. by rewrite H.
  - inversion_clear Hb as [|? ? Hb1 Hb2]. pose proof (read_frame_spec max s) as H.
    rewrite Ha in H. cbn [map concat] in H. rewrite next_frame_framed in H by done.
    destruct H as (s' & E & Ha' & He'). specialize (IH s' Hb2 ltac:(done) ltac:(congruence)).
    cbn [length]. remember (S (length bodies)) as fuel. cbn [read_frames]. by rewrite E, IH.
Qed.

(** ** What the link is promised *)

(** A stream's writer keeps its promise on any stream. However the system takes
    the bytes (a few at a time, interrupted, or failing), a write that succeeds has
    delivered exactly its frames, in order; one that fails, a prefix of them; it
    ends, and never panics. *)
Theorem stream_writer_delivers (s : Sink) (f head tail : bytes) (frames : list bytes) :
  sound_write f s (stream_write_frame s f) /\
  sound_write (head ++ tail) s (stream_write_frame_parts s head tail) /\
  sound_write (concat frames) s (stream_write_frames s frames).
Proof.
  split_and!; [apply stream_write_frame_spec| |apply stream_write_frames_spec].
  pose proof (stream_write_frames_spec s [head; tail]) as H. cbn [concat] in H. by rewrite app_nil_r in H.
Qed.

(** Frames written on one end of a stream are read on the other, one by one,
    however the bytes are taken and however they arrive, and then its end. *)
Theorem stream_roundtrip (s s' : Sink) (source : list Arrival) (bodies : list bytes) (max : Z) :
  max <= u32_max -> Forall (λ b, Z.of_nat (length b) <= max) bodies ->
  stream_write_frames s (map framed bodies) = (Ok (), s') ->
  taken s' = taken s ++ arrived source -> broken source = None ->
  read_frames (S (length bodies)) max source = Ok bodies.
Proof.
  intros Hm Hb Hw Ha He. apply read_frames_spec; [done|done| |done].
  pose proof (stream_write_frames_spec s (map framed bodies)) as [H _]. rewrite Hw in H.
  unfold delivers in H. cbn in H. rewrite H in Ha. by apply app_inv_head in Ha.
Qed.

Lemma stream_roundtrip_witness :
  read_frames 3 64 [Chunk (bs "x"); Interrupt; Chunk []; Interrupt] = Err (Refuse UnexpectedEof) /\
  read_frames 3 64
    [Chunk [2; 0]; Interrupt; Chunk [0; 0; 104]; Chunk [105; 0; 0; 0]; Chunk [0]] = Ok [bs "hi"; []].
Proof.
  split; [vm_compute; reflexivity|].
  apply (stream_roundtrip (MkSink [9] [Takes 3; Interrupts; Takes 1])
    (MkSink ([9; 2; 0; 0; 0; 104; 105; 0; 0; 0; 0]) []) _ [bs "hi"; []]);
    [vm_compute; discriminate|repeat constructor; vm_compute; discriminate|vm_compute; reflexivity..].
Defined.

(** C17: reading a frame depends on what arrives and on how the stream ends, not on
    how the bytes are cut: the next frame and what is left; nothing at an end
    between frames; a refusal where the frame is over the bound, or the stream ends
    or breaks inside it. *)
Theorem read_frame_exact max s :
  match next_frame max (arrived s) with
  | Whole body rest => exists s', read_frame max s = Ok (Some body, s') /\ arrived s' = rest /\ broken s' = broken s
  | NoMore =>
      match broken s with
      | None => read_frame max s = Ok (None, [])
      | Some code => exists s', read_frame max s = Err (Refuse (OtherIo code), s')
      end
  | Over n => exists s', read_frame max s = Err (Refuse (OverMax n max), s')
  | Short => exists s', read_frame max s = Err (Refuse (cut_short s), s')
  end.
Proof. apply read_frame_spec. Qed.
