(* ===== verification/Codec.v ===== *)
(** * The pieces of a frame

    [protocol/codec.rs] of the remote source: integers, text, bytes and values
    behind their lengths, and the reader of a frame's fields. Each piece's reader
    takes exactly what its writer writes ([reads]). *)

From S2P Require Import Prelude Errors SchemaErrors Number Value Keys Maps Encode Decode.

(** ** Errors *)

(** What a field should have held: the phrases of [ProtocolError::Field]. *)
Inductive Expectation : Type :=
  | ATrustLevel
  | AStatus
  | ABool
  | AScalar
  | ABufferLength
  | AnArgument
  | AMap
  | AList
  | AnAnswer
  | ALentMap
  | ALentList.

(** [ProtocolError]. A value's error is carried as itself, where the source keeps
    its words. *)
Inductive ProtocolError : Type :=
  | Truncated (at_ : nat)
  | Overlong (at_ : nat)
  | NotUtf8 (at_ : nat)
  | UnknownFrame (kind : Z)
  | NotThisProtocol
  | Version (theirs : Z)
  | Field (at_ : nat) (why : Expectation)
  | Wire (at_ : nat) (why : WireError)
  | Unsendable (why : ValueError)
  | Mismatch (argument : nat) (what : bytes)
  | Arity (given takes : nat)
  | Answered (what : bytes)
  | Trailing (at_ : nat)
  | TooLarge (len max : Z).

#[export] Instance Expectation_eq_dec : EqDecision Expectation.
Proof. solve_decision. Defined.
#[export] Instance ProtocolError_eq_dec : EqDecision ProtocolError.
Proof. solve_decision. Defined.

(** ** Writing *)

(** [put_uint], whose loop is [put_len]'s; [put_int], zigzagged. *)
Definition put_uint (out : bytes) (n : Z) : bytes := put_len out n.
Definition zigzag (n : Z) : Z := wrap64 (Z.lxor (Z.shiftl n 1) (Z.shiftr n 63)).
Definition put_int (out : bytes) (n : Z) : bytes := put_uint out (zigzag n).

(** [put_bytes] and [put_text]. *)
Definition put_bytes (out b : bytes) : bytes := put_uint out (len_of b) ++ b.
Definition put_text (out t : bytes) : bytes := put_bytes out t.

(** [behind_length]: what was written from [at_] on moved behind its length. *)
Definition behind_length (out : bytes) (at_ : nat) : bytes :=
  take at_ out ++ put_uint [] (len_of (drop at_ out)) ++ drop at_ out.

(** [put_value] and [put_value_bare]. *)
Definition put_value_bare (out : bytes) (v : Value) : result ProtocolError bytes := map_err Unsendable (encode v out).
Definition put_value (out : bytes) (v : Value) : result ProtocolError bytes :=
  out' ← put_value_bare out v; Ok (behind_length out' (length out)).

(** ** Reading *)

(** [Reader]: what is left, and where it starts. *)
Record FieldReader := MkFieldReader { unread_ : bytes; field_at_ : nat }.
Definition field_reader (b : bytes) : FieldReader := MkFieldReader b 0.
Definition skip_ (n : nat) (r : FieldReader) : FieldReader := MkFieldReader (drop n (unread_ r)) (field_at_ r + n).

Abbreviation read A := (FieldReader -> result (fault ProtocolError) (A * FieldReader)) (only parsing).

(** [Reader::end], [Reader::byte] and [Reader::fixed]. *)
Definition end_of (r : FieldReader) : result (fault ProtocolError) unit :=
  match unread_ r with [] => Ok () | _ => Err (Refuse (Trailing (field_at_ r))) end.
Definition get_byte : read Z := λ r,
  match unread_ r with b :: _ => Ok (b, skip_ 1 r) | [] => Err (Refuse (Truncated (field_at_ r))) end.
Definition get_fixed (n : nat) : read bytes := λ r,
  if decide (n <= length (unread_ r))%nat then Ok (take n (unread_ r), skip_ n r)
  else Err (Refuse (Truncated (field_at_ r))).

(** [Reader::uint]: at most ten bytes, in [u64] arithmetic. *)
Fixpoint uint_loop (l : bytes) (start : nat) (n shift : Z) (k : nat) : result (fault ProtocolError) (Z * nat) :=
  if 63 <? shift then Err (Refuse (Overlong start))
  else
    match l with
    | [] => Err (Refuse (Truncated (start + k)))
    | byte :: l =>
        let bits := Z.land byte 0x7f in
        if (shift =? 63) && (1 <? bits) then Err (Refuse (Overlong start))
        else
          let n := Z.lor n (wrap64 (Z.shiftl bits shift)) in
          if Z.land byte 0x80 =? 0 then
            if (byte =? 0) && (0 <? shift) then Err (Refuse (Overlong start)) else Ok (n, S k)
          else uint_loop l start n (shift + 7) (S k)
    end.
Definition get_uint : read Z := λ r,
  '(n, k) ← uint_loop (unread_ r) (field_at_ r) 0 0 0; Ok (n, skip_ k r).

(** [Reader::int]. *)
Definition unzigzag (z : Z) : Z := Z.lxor (Z.shiftr z 1) (- Z.land z 1).
Definition get_int : read Z := λ r, '(z, r) ← get_uint r; Ok (unzigzag z, r).

(** [Reader::len], [Reader::bytes] and [Reader::text]. *)
Definition get_len : read nat := λ r,
  '(n, r') ← get_uint r;
  if n <=? len_of (unread_ r') then Ok (Z.to_nat n, r') else Err (Refuse (Truncated (field_at_ r))).
Definition get_bytes : read bytes := λ r,
  '(n, r) ← get_len r; Ok (take n (unread_ r), skip_ n r).
Definition get_text : read bytes := λ r,
  '(b, r') ← get_bytes r;
  if is_utf8 b then Ok (b, r') else Err (Refuse (NotUtf8 (field_at_ r))).

Section values.
Variable random : Seeded.

(** [Reader::value]. *)
Definition get_value : read Value := λ r,
  '(b, r') ← get_bytes r;
  match decode random b with
  | Ok v => Ok (v, r')
  | Err (Refuse e) => Err (Refuse (Wire (field_at_ r) e))
  | Err Panic => Err Panic
  end.
End values.

(** ** Exact pieces *)

(** A reader's bytes are bytes. *)
Definition bytes_left (r : FieldReader) : Prop := Forall is_byte (unread_ r).

(** A refusal within the bytes read. *)
Definition error_at (e : ProtocolError) : option nat :=
  match e with
  | Truncated n | Overlong n | NotUtf8 n | Field n _ | Wire n _ | Trailing n => Some n
  | _ => None
  end.
Definition located (r : FieldReader) (f : fault ProtocolError) : Prop :=
  exists e, f = Refuse e /\ forall n, error_at e = Some n -> (field_at_ r <= n <= field_at_ r + length (unread_ r))%nat.

(** [get] reads exactly what [put] writes of what [ok] allows, and refuses the
    rest where it is. *)
Definition reads {A} (get : read A) (put : A -> bytes) (ok : A -> Prop) : Prop :=
  forall r, bytes_left r ->
  match get r with
  | Ok (a, r') => ok a /\ unread_ r = put a ++ unread_ r' /\ r' = skip_ (length (put a)) r
  | Err f => located r f
  end /\
  (forall a tl, ok a -> unread_ r = put a ++ tl -> get r = Ok (a, skip_ (length (put a)) r)).

(** *** Integers *)

Lemma uint_leb l : forall start n shift k r,
  uint_loop l start n shift k = Ok r <-> leb_loop l start n shift k = Ok r.
Proof.
  induction l as [|b l IH]; intros start n shift k r; cbn [uint_loop leb_loop].
  - by destruct (63 <? shift).
  - destruct (63 <? shift) eqn:E; [by rewrite orb_true_r|]. rewrite orb_false_r.
    destruct (_ && _); [done|]. destruct (Z.land b 128 =? 0); [|apply IH]. destruct (_ && _); [done|]. split; intros [= <-]; done.
Qed.

Lemma uint_loop_Err l : forall start n shift k f, uint_loop l start n shift k = Err f ->
  f = Refuse (Overlong start) \/ exists j, f = Refuse (Truncated (start + j)) /\ (k <= j <= k + length l)%nat.
Proof.
  induction l as [|b l IH]; intros start n shift k f; cbn [uint_loop length].
  - destruct (63 <? shift); intros [= <-]; [by left|right; exists k; split; [done|lia]].
  - destruct (63 <? shift); [intros [= <-]; by left|]. destruct (_ && _); [intros [= <-]; by left|].
    destruct (Z.land b 128 =? 0).
    + destruct (_ && _); [intros [= <-]; by left|done].
    + intros [->|(j & -> & Hj)]%IH; [by left|right; exists j; split; [done|lia]].
Qed.

Definition is_u64 (n : Z) : Prop := 0 <= n < 2 ^ 64.

Lemma skip_skip m n r : skip_ n (skip_ m r) = skip_ (m + n) r.
Proof. unfold skip_. cbn. by rewrite drop_drop, Nat.add_assoc. Qed.

Lemma skip_bytes n r : bytes_left r -> bytes_left (skip_ n r).
Proof. apply Forall_drop. Qed.

Lemma skip_app r l tl : unread_ r = l ++ tl -> unread_ (skip_ (length l) r) = tl.
Proof. intros H. cbn. by rewrite H, drop_app_length. Qed.

Lemma located_skip n r f : (n <= length (unread_ r))%nat -> located (skip_ n r) f -> located r f.
Proof.
  intros Hn (e & -> & H). exists e. split; [done|]. intros m Hm. specialize (H m Hm).
  cbn in H. rewrite length_drop in H. lia.
Qed.

Lemma located_here r e : error_at e = Some (field_at_ r) -> located r (Refuse e).
Proof. intros H. exists e. split; [done|]. intros n. rewrite H. intros [= <-]. lia. Qed.

Lemma get_uint_reads : reads get_uint leb is_u64.
Proof.
  intros r Hr. unfold get_uint. split.
  - destruct (uint_loop _ _ _ _ _) as [[n k]|f] eqn:E; cbn [mbind result_bind].
    + apply uint_leb, (leb_loop_sound (unread_ r) (field_at_ r) 0 0%nat 0%nat n k) in E
        as (m & Hm & _ & -> & Hlt & Hm64 & El & ->); [|done|simpl; lia].
      rewrite Z.mul_1_r, Z.add_0_l. split_and!; [split; lia|exact El|done].
    + apply uint_loop_Err in E as [->|(j & -> & Hj)]; [by apply located_here|].
      eexists. split; [done|]. intros n [= <-]. lia.
  - intros n tl Hn El. pose proof (leb_loop_accepts n Hn (field_at_ r) 0 0%nat 0%nat tl) as H.
    specialize (H ltac:(simpl; lia) ltac:(lia) ltac:(unfold is_u64 in Hn; simpl; lia) ltac:(lia)).
    rewrite <- El in H. apply uint_leb in H. change (7 * Z.of_nat 0) with 0 in H. rewrite H. cbn. by rewrite Z.mul_1_r.
Qed.

(** A reader that turns what another reads into something one to one. *)
Lemma reads_map {A B} (get : read A) put ok (f : A -> B) (g : B -> A) ok' :
  reads get put ok -> (forall a, ok a -> ok' (f a) /\ g (f a) = a) -> (forall b, ok' b -> ok (g b) /\ f (g b) = b) ->
  reads (λ r, '(a, r) ← get r; Ok (f a, r)) (λ b, put (g b)) ok'.
Proof.
  intros Hg Hf Hb r Hr. destruct (Hg r Hr) as [H1 H2]. split.
  - destruct (get r) as [[a r']|e]; [|done]. cbn. destruct H1 as (Ha & Hu & ->).
    destruct (Hf a Ha) as [Ho E]. by rewrite E.
  - intros b tl Ho Hu. destruct (Hb b Ho) as [Ha E]. rewrite (H2 _ _ Ha Hu). cbn. by rewrite E.
Qed.

Definition is_i64 (n : Z) : Prop := i64_min <= n <= i64_max.

Lemma shiftr_63 n : is_i64 n -> Z.shiftr n 63 = if n <? 0 then -1 else 0.
Proof.
  unfold is_i64, i64_min, i64_max. intros Hn. rewrite Z.shiftr_div_pow2 by lia.
  destruct (Z.ltb_spec n 0); [symmetry; apply (Z.div_unique _ _ _ (n + 2^63)); lia|apply Z.div_small; lia].
Qed.

Lemma zigzag_cases n : is_i64 n -> zigzag n = if n <? 0 then - 2 * n - 1 else 2 * n.
Proof.
  intros Hn. unfold zigzag, wrap64. rewrite shiftr_63, Z.shiftl_mul_pow2 by (done || lia).
  unfold is_i64, i64_min, i64_max in Hn. destruct (Z.ltb_spec n 0).
  - rewrite Z.lxor_m1_r. unfold Z.lnot. rewrite Z.mod_small; lia.
  - rewrite Z.lxor_0_r, Z.mod_small; lia.
Qed.

Lemma unzigzag_cases z : is_u64 z -> unzigzag z = if Z.odd z then - (z / 2) - 1 else z / 2.
Proof.
  intros Hz. unfold unzigzag. rewrite Z.shiftr_div_pow2 by lia. change (2 ^ 1) with 2.
  change 1 with (Z.ones 1) at 1. rewrite Z.land_ones, Zodd_mod by lia. change (2 ^ 1) with 2.
  pose proof (Z.mod_pos_bound z 2 ltac:(lia)). destruct (Z.eqb_spec (z mod 2) 1) as [->|].
  - change (- (1)) with (-1). rewrite Z.lxor_m1_r. unfold Z.lnot. lia.
  - assert (z mod 2 = 0) as -> by lia. by rewrite Z.lxor_0_r.
Qed.

Lemma unzigzag_zigzag n : is_i64 n -> is_u64 (zigzag n) /\ unzigzag (zigzag n) = n.
Proof.
  intros Hn. assert (is_u64 (zigzag n)) as Hz.
  { rewrite zigzag_cases by done. unfold is_i64, is_u64, i64_min, i64_max in *. destruct (Z.ltb_spec n 0); lia. }
  split; [done|]. rewrite unzigzag_cases, zigzag_cases, Zodd_mod by done.
  destruct (Z.ltb_spec n 0), (Z.eqb_spec ((if n <? 0 then - 2 * n - 1 else 2 * n) mod 2) 1); zbool; dlia.
Qed.

Lemma zigzag_unzigzag z : is_u64 z -> is_i64 (unzigzag z) /\ zigzag (unzigzag z) = z.
Proof.
  intros Hz. assert (is_i64 (unzigzag z)) as Hn.
  { rewrite unzigzag_cases by done. unfold is_i64, is_u64, i64_min, i64_max in *. destruct (Z.odd z); dlia. }
  split; [done|]. rewrite zigzag_cases, unzigzag_cases, Zodd_mod by done.
  unfold is_u64 in Hz. destruct (Z.eqb_spec (z mod 2) 1); zbool; dlia.
Qed.

Lemma get_int_reads : reads get_int (λ n, leb (zigzag n)) is_i64.
Proof. apply (reads_map get_uint leb is_u64 unzigzag zigzag is_i64); [apply get_uint_reads|apply zigzag_unzigzag|apply unzigzag_zigzag]. Qed.

(** *** Text, bytes and values *)

Lemma get_byte_reads : reads get_byte (λ b, [b]) is_byte.
Proof.
  intros r Hr. unfold get_byte. split.
  - destruct (unread_ r) as [|b l] eqn:E; [by apply located_here|].
    split_and!; [unfold bytes_left in Hr; rewrite E in Hr; by inversion Hr| |done]. cbn. by rewrite E.
  - intros a tl _ E. by rewrite E.
Qed.

Lemma get_fixed_reads n : reads (get_fixed n) (λ b, b) (λ b, length b = n /\ Forall is_byte b).
Proof.
  intros r Hr. unfold get_fixed. split.
  - case_decide as H; [|by apply located_here]. rewrite length_take_le by done.
    split_and!; [done|by apply Forall_take|cbn; by rewrite take_drop|done].
  - intros a tl [<- _] E. rewrite E, length_app, decide_True by lia. by rewrite take_app_length.
Qed.

Lemma get_bytes_reads : reads get_bytes key_wire (λ b, fits b /\ Forall is_byte b).
Proof.
  intros r Hr. unfold get_bytes, get_len. destruct (get_uint_reads r Hr) as [H1 H2]. split.
  - destruct (get_uint r) as [[n r']|f]; [|done]. destruct H1 as (Hn & Hu & ->). cbn [mbind result_bind].
    set (r1 := skip_ _ r) in *. destruct (Z.leb_spec n (len_of (unread_ r1))); [|by apply located_here].
    cbn [mbind result_bind].
    assert (length (take (Z.to_nat n) (unread_ r1)) = Z.to_nat n) as Hl.
    { apply length_take_le. unfold len_of in *. lia. }
    assert (len_of (take (Z.to_nat n) (unread_ r1)) = n) as Hln by (unfold len_of; rewrite Hl; unfold is_u64 in Hn; lia).
    unfold key_wire. rewrite Hln, length_app, Hl. split_and!.
    + unfold fits. unfold len_of in Hln. rewrite Hln. unfold is_u64, usize_max, u64_max in *. lia.
    + apply Forall_take. by apply skip_bytes.
    + rewrite <- app_assoc, Hu. f_equal. cbn. by rewrite take_drop.
    + unfold r1. by rewrite skip_skip.
  - intros b tl [Hf Hb] E. unfold key_wire in *. rewrite <- app_assoc in E.
    assert (is_u64 (len_of b)) as Hn by by apply fits_len.
    rewrite (H2 _ _ Hn E). cbn [mbind result_bind]. pose proof (skip_app _ _ _ E) as Eu. rewrite Eu.
    assert ((len_of b <=? len_of (b ++ tl)) = true) as -> by (apply Z.leb_le; unfold len_of; rewrite length_app; lia).
    cbn [mbind result_bind]. rewrite Eu. assert (Z.to_nat (len_of b) = length b) as -> by apply Nat2Z.id.
    by rewrite take_app_length, skip_skip, length_app.
Qed.

Lemma get_text_reads : reads get_text key_wire (λ t, is_utf8 t = true /\ fits t).
Proof.
  intros r Hr. unfold get_text. destruct (get_bytes_reads r Hr) as [H1 H2]. split.
  - destruct (get_bytes r) as [[b r']|f]; [|done]. destruct H1 as ((Hf & Hb) & Hu & ->). cbn [mbind result_bind].
    destruct (is_utf8 b) eqn:E; [done|by apply located_here].
  - intros b tl [Hb Hf] E. rewrite (H2 _ _ (conj Hf (utf8_bytes _ Hb)) E). cbn. by rewrite Hb.
Qed.

Lemma get_value_reads random : reads (get_value random) (λ v, key_wire (wire v)) (λ v, value_wf v /\ fits (wire v)).
Proof.
  intros r Hr. unfold get_value. destruct (get_bytes_reads r Hr) as [H1 H2]. split.
  - destruct (get_bytes r) as [[b r']|f]; [|done]. destruct H1 as ((Hf & Hb) & Hu & ->). cbn [mbind result_bind].
    pose proof (decode_sound random b 0 None Hb) as H. unfold decode, decode_at.
    destruct (decode_seeded random b 0 None) as [v|f].
    + by destruct H as [Hv ->].
    + destruct H as (e & -> & H). by apply located_here.
  - intros v tl [Hv Hf] E. pose proof (wire_bytes v Hv) as Hb. rewrite (H2 _ _ (conj Hf Hb) E). cbn [mbind result_bind].
    unfold decode, decode_at. by rewrite decode_wire.
Qed.

(** What writing appends. *)
Lemma put_uint_leb out n : is_u64 n -> put_uint out n = out ++ leb n.
Proof. apply put_len_leb. Qed.

Lemma put_bytes_key out b : fits b -> put_bytes out b = out ++ key_wire b.
Proof. intros H. unfold put_bytes, key_wire. rewrite put_uint_leb by by apply fits_len. by rewrite app_assoc. Qed.

Lemma put_value_key out v : value_wf v -> fits (wire v) -> put_value out v = Ok (out ++ key_wire (wire v)).
Proof.
  intros Hv Hf. unfold put_value, put_value_bare. rewrite encode_enc by by apply wf_lengths_fit.
  unfold enc. rewrite wf_not_refused by done. cbn. f_equal. unfold behind_length.
  rewrite take_app_length, drop_app_length. unfold key_wire. by rewrite put_uint_leb by by apply fits_len.
Qed.

(** *** Using a piece *)

Section pieces.
Context {A : Type} (get : read A) (put : A -> bytes) (ok : A -> Prop) (Hget : reads get put ok).

Lemma reads_sound r a r' : bytes_left r -> get r = Ok (a, r') ->
  ok a /\ unread_ r = put a ++ unread_ r' /\ r' = skip_ (length (put a)) r /\ bytes_left r'.
Proof.
  intros Hr E. destruct (Hget r Hr) as [H _]. rewrite E in H. destruct H as (Ha & Hu & ->).
  split_and!; [done|done|done|by apply skip_bytes].
Qed.

Lemma reads_takes a tl at_ : ok a -> Forall is_byte (put a ++ tl) ->
  get (MkFieldReader (put a ++ tl) at_) = Ok (a, MkFieldReader tl (at_ + length (put a))).
Proof.
  intros Ha Hb. destruct (Hget (MkFieldReader (put a ++ tl) at_) Hb) as [_ H].
  rewrite (H a tl Ha eq_refl). unfold skip_. cbn. by rewrite drop_app_length.
Qed.

Lemma reads_refuses r f : bytes_left r -> get r = Err f -> located r f.
Proof. intros Hr E. destruct (Hget r Hr) as [H _]. by rewrite E in H. Qed.
End pieces.
