(* ===== verification/Frames.v ===== *)
(** * Frames of the remote protocol

    [protocol/mod.rs] of the remote source: every frame, what it is as bytes, and
    how it is read back. A frame and its bytes are one to one. *)

From S2P Require Import Prelude Errors SchemaErrors Number Value Keys Maps Encode Decode Stream Codec.

(** ** Frames *)

(** [MAGIC], [VERSION] and [HANDSHAKE_MAX_FRAME]. *)
Definition MAGIC : bytes := bs "GTRM".
Definition VERSION : Z := 1.
Definition HANDSHAKE_MAX_FRAME : Z := 64 * 1024.

(** [kind]. *)
Definition HELLO : Z := 0x01.
Definition WELCOME : Z := 0x02.
Definition PROOF : Z := 0x03.
Definition LIST : Z := 0x04.
Definition OPEN : Z := 0x05.
Definition CLOSE : Z := 0x06.
Definition CALL : Z := 0x10.
Definition REPLY : Z := 0x11.
Definition CANCEL : Z := 0x12.
Definition RELEASE : Z := 0x13.
Definition PING : Z := 0x14.
Definition PONG : Z := 0x15.
Definition GOODBYE : Z := 0x16.

(** [Trust], [Trust::byte] and [Trust::from_byte]. *)
Inductive Trust : Type := Local | Trusted | Secure | ServerTls.
Definition trust_byte (t : Trust) : Z :=
  match t with Local => 0 | Trusted => 1 | Secure => 2 | ServerTls => 3 end.
Definition trust_from_byte (b : Z) (at_ : nat) : result (fault ProtocolError) Trust :=
  if b =? 0 then Ok Local else if b =? 1 then Ok Trusted
  else if b =? 2 then Ok Secure else if b =? 3 then Ok ServerTls
  else Err (Refuse (Field at_ ATrustLevel)).

(** [Target], [Target::code], in [u64] arithmetic, and [Target::from_code]. *)
Inductive Target : Type := Table (id : Z) | Object (id : Z).
Definition target_code (t : Target) : Z :=
  match t with Table id => wrap64 (Z.shiftl id 1) | Object id => Z.lor (wrap64 (Z.shiftl id 1)) 1 end.
Definition target_from_code (code : Z) : Target :=
  if Z.land code 1 =? 0 then Table (Z.shiftr code 1) else Object (Z.shiftr code 1).

(** [Frame]. *)
Inductive Frame : Type :=
  | Hello (trust : Trust) (nonce : bytes) (options : Value)
  | Welcome (nonce proof : bytes) (options : Value)
  | Proof_ (proof : bytes)
  | List_ (call : Z)
  | Open (call : Z) (library stamp : bytes)
  | Close (library stamp : bytes)
  | Call (call parent : Z) (target : Target) (slot : Z) (args : bytes)
  | Reply (call status : Z) (body : bytes)
  | Cancel (call : Z)
  | Release (object : Z)
  | Ping (n : Z)
  | Pong (n : Z)
  | Goodbye (status : Z) (message : bytes).

(** ** Writing *)

(** [start], [finish_with] and [finish]: where a frame starts is how long the
    output was. *)
Definition start (out : bytes) (kind : Z) : bytes := out ++ [0; 0; 0; 0; kind].
Definition finish_with (out : bytes) (at_ : nat) (more max : Z) : result ProtocolError bytes :=
  let len := len_of out - Z.of_nat at_ - 4 + more in
  if (max <? len) || (u32_max <? len) then Err (TooLarge len max)
  else Ok (take at_ out ++ le32 len ++ drop (at_ + 4) out).
Definition finish (out : bytes) (at_ : nat) (max : Z) : result ProtocolError bytes := finish_with out at_ 0 max.

(** [start_call] and [start_reply]. *)
Definition start_call (out : bytes) (call parent : Z) (target : Target) (slot : Z) : bytes :=
  put_uint (put_uint (put_uint (put_uint (start out CALL) call) parent) (target_code target)) slot.
Definition start_reply (out : bytes) (call status : Z) : bytes :=
  put_uint (put_uint (start out REPLY) call) status.

(** [Frame::encode]: the fields, and then the length. *)
Definition put_fields (f : Frame) (out : bytes) : result ProtocolError bytes :=
  match f with
  | Hello trust nonce options => put_value (start out HELLO ++ MAGIC ++ [VERSION] ++ [trust_byte trust] ++ nonce) options
  | Welcome nonce proof options => put_value (put_bytes (start out WELCOME ++ MAGIC ++ [VERSION] ++ nonce) proof) options
  | Proof_ proof => Ok (put_bytes (start out PROOF) proof)
  | List_ call => Ok (put_uint (start out LIST) call)
  | Open call library stamp => Ok (put_text (put_text (put_uint (start out OPEN) call) library) stamp)
  | Close library stamp => Ok (put_text (put_text (start out CLOSE) library) stamp)
  | Call call parent target slot args => Ok (start_call out call parent target slot ++ args)
  | Reply call status body => Ok (start_reply out call status ++ body)
  | Cancel call => Ok (put_uint (start out CANCEL) call)
  | Release object => Ok (put_uint (start out RELEASE) object)
  | Ping n => Ok (put_uint (start out PING) n)
  | Pong n => Ok (put_uint (start out PONG) n)
  | Goodbye status message => Ok (put_text (put_uint (start out GOODBYE) status) message)
  end.
Definition encode_frame (f : Frame) (out : bytes) (max : Z) : result ProtocolError bytes :=
  out' ← put_fields f out; finish out' (length out) max.

(** [refusal], whose [expect] is for a message past four gigabytes. *)
Definition refusal (out : bytes) (call status : Z) (message : bytes) : result (fault ProtocolError) bytes :=
  match finish (put_text (start_reply out call status) message) (length out) usize_max with
  | Ok out => Ok out
  | Err _ => Err Panic
  end.

(** ** Reading *)

(** [status_of]. *)
Definition status_of (n : Z) (at_ : nat) : result (fault ProtocolError) Z :=
  if n <=? u32_max then Ok n else Err (Refuse (Field at_ AStatus)).

(** What is left after the last field is refused. *)
Definition ended {A} (x : result (fault ProtocolError) (A * FieldReader)) : result (fault ProtocolError) A :=
  '(a, r) ← x; end_of r;; Ok a.

Section decode.
Variable random : Seeded.

(** [Frame::decode]. *)
Definition decode_hello (r : FieldReader) : result (fault ProtocolError) (Frame * FieldReader) :=
  let at_ := field_at_ r in
  '(t, r) ← get_byte r;
  trust ← trust_from_byte t at_;
  '(nonce, r) ← get_fixed 16 r;
  '(options, r) ← get_value random r;
  Ok (Hello trust nonce options, r).
Definition decode_welcome (r : FieldReader) : result (fault ProtocolError) (Frame * FieldReader) :=
  '(nonce, r) ← get_fixed 16 r;
  '(proof, r) ← get_bytes r;
  '(options, r) ← get_value random r;
  Ok (Welcome nonce proof options, r).
Definition decode_call (r : FieldReader) : result (fault ProtocolError) Frame :=
  '(call, r) ← get_uint r;
  '(parent, r) ← get_uint r;
  '(target, r) ← get_uint r;
  '(slot, r) ← get_uint r;
  Ok (Call call parent (target_from_code target) slot (unread_ r)).
Definition decode_reply (r : FieldReader) : result (fault ProtocolError) Frame :=
  '(call, r) ← get_uint r;
  let at_ := field_at_ r in
  '(n, r) ← get_uint r;
  status ← status_of n at_;
  Ok (Reply call status (unread_ r)).
Definition decode_fields (kind : Z) (r : FieldReader) : result (fault ProtocolError) Frame :=
  if (kind =? HELLO) || (kind =? WELCOME) then
    '(magic, r) ← get_fixed 4 r;
    if negb (bool_decide (magic = MAGIC)) then Err (Refuse NotThisProtocol)
    else
      '(version, r) ← get_byte r;
      if negb (version =? VERSION) then Err (Refuse (Version version))
      else ended (if kind =? HELLO then decode_hello r else decode_welcome r)
  else if kind =? PROOF then ended ('(proof, r) ← get_bytes r; Ok (Proof_ proof, r))
  else if kind =? LIST then ended ('(call, r) ← get_uint r; Ok (List_ call, r))
  else if kind =? OPEN then
    ended ('(call, r) ← get_uint r; '(library, r) ← get_text r; '(stamp, r) ← get_text r; Ok (Open call library stamp, r))
  else if kind =? CLOSE then
    ended ('(library, r) ← get_text r; '(stamp, r) ← get_text r; Ok (Close library stamp, r))
  else if kind =? CALL then decode_call r
  else if kind =? REPLY then decode_reply r
  else if kind =? CANCEL then ended ('(call, r) ← get_uint r; Ok (Cancel call, r))
  else if kind =? RELEASE then ended ('(object, r) ← get_uint r; Ok (Release object, r))
  else if kind =? PING then ended ('(n, r) ← get_uint r; Ok (Ping n, r))
  else if kind =? PONG then ended ('(n, r) ← get_uint r; Ok (Pong n, r))
  else if kind =? GOODBYE then
    ended (let at_ := field_at_ r in
           '(n, r) ← get_uint r; status ← status_of n at_; '(message, r) ← get_text r; Ok (Goodbye status message, r))
  else Err (Refuse (UnknownFrame kind)).
Definition decode_frame (body : bytes) : result (fault ProtocolError) Frame :=
  '(kind, r) ← get_byte (field_reader body); decode_fields kind r.

(** [refusal_words] and [catalog_of]. *)
Definition refusal_words (body : bytes) : result (fault ProtocolError) bytes := ended (get_text (field_reader body)).
Definition catalog_of (body : bytes) : result (fault ProtocolError) Value := ended (get_value random (field_reader body)).
End decode.

(** [put_catalog]. *)
Definition put_catalog (out : bytes) (catalog : Value) : result ProtocolError bytes := put_value out catalog.

(** ** What a frame is as bytes *)

(** A frame's type, and its fields. *)
Definition kind_of (f : Frame) : Z :=
  match f with
  | Hello _ _ _ => HELLO | Welcome _ _ _ => WELCOME | Proof_ _ => PROOF | List_ _ => LIST | Open _ _ _ => OPEN
  | Close _ _ => CLOSE | Call _ _ _ _ _ => CALL | Reply _ _ _ => REPLY | Cancel _ => CANCEL | Release _ => RELEASE
  | Ping _ => PING | Pong _ => PONG | Goodbye _ _ => GOODBYE
  end.
Definition fields_of_frame (f : Frame) : bytes :=
  match f with
  | Hello trust nonce options => MAGIC ++ [VERSION] ++ [trust_byte trust] ++ nonce ++ key_wire (wire options)
  | Welcome nonce proof options => MAGIC ++ [VERSION] ++ nonce ++ key_wire proof ++ key_wire (wire options)
  | Proof_ proof => key_wire proof
  | List_ n | Cancel n | Release n | Ping n | Pong n => leb n
  | Open call library stamp => leb call ++ key_wire library ++ key_wire stamp
  | Close library stamp => key_wire library ++ key_wire stamp
  | Call call parent target slot args => leb call ++ leb parent ++ leb (target_code target) ++ leb slot ++ args
  | Reply call status body => leb call ++ leb status ++ body
  | Goodbye status message => leb status ++ key_wire message
  end.
Definition frame_body (f : Frame) : bytes := kind_of f :: fields_of_frame f.

(** A frame the types of the source can hold: integers at their width (a target's
    id one bit less, as it is sent with a flag), text that is UTF-8, bytes that are
    bytes, values that are well formed, and lengths of a machine. *)
Definition text_ok (t : bytes) : Prop := is_utf8 t = true /\ fits t.
Definition bytes_ok (b : bytes) : Prop := fits b /\ Forall is_byte b.
Definition nonce_ok (b : bytes) : Prop := length b = 16%nat /\ Forall is_byte b.
Definition options_ok (v : Value) : Prop := value_wf v /\ fits (wire v).
Definition target_ok (t : Target) : Prop := match t with Table id | Object id => 0 <= id < 2 ^ 63 end.
Definition status_ok (n : Z) : Prop := 0 <= n <= u32_max.
Definition frame_wf (f : Frame) : Prop :=
  match f with
  | Hello _ nonce options => nonce_ok nonce /\ options_ok options
  | Welcome nonce proof options => nonce_ok nonce /\ bytes_ok proof /\ options_ok options
  | Proof_ proof => bytes_ok proof
  | List_ n | Cancel n | Release n | Ping n | Pong n => is_u64 n
  | Open call library stamp => is_u64 call /\ text_ok library /\ text_ok stamp
  | Close library stamp => text_ok library /\ text_ok stamp
  | Call call parent target slot args =>
      is_u64 call /\ is_u64 parent /\ target_ok target /\ is_u64 slot /\ Forall is_byte args
  | Reply call status body => is_u64 call /\ status_ok status /\ Forall is_byte body
  | Goodbye status message => status_ok status /\ text_ok message
  end.

(** *** Small pieces *)

Lemma trust_both t at_ : trust_from_byte (trust_byte t) at_ = Ok t.
Proof. by destruct t. Qed.

Lemma trust_from_byte_Ok b at_ t : trust_from_byte b at_ = Ok t -> b = trust_byte t.
Proof. unfold trust_from_byte. repeat case_match; intros [= <-]; by apply Z.eqb_eq. Qed.

Lemma wrap_shift id : 0 <= id < 2 ^ 63 -> wrap64 (Z.shiftl id 1) = 2 * id.
Proof. intros H. unfold wrap64. rewrite Z.shiftl_mul_pow2 by lia. rewrite Z.mod_small; lia. Qed.

Lemma land_1 n : 0 <= n -> Z.land n 1 = n mod 2.
Proof. intros. change 1 with (Z.ones 1). by rewrite Z.land_ones by lia. Qed.

Lemma lor_1 n : 0 <= n -> Z.lor (2 * n) 1 = 2 * n + 1.
Proof.
  intros H. assert (Z.land (2 * n) 1 = 0) as E by (rewrite land_1 by lia; dlia).
  by rewrite <- Z.lxor_lor, <- Z.add_nocarry_lxor.
Qed.

Lemma target_code_cases t : target_ok t ->
  target_code t = match t with Table id => 2 * id | Object id => 2 * id + 1 end.
Proof. destruct t as [id|id]; cbn; intros H; rewrite wrap_shift by done; [done|]. apply lor_1. lia. Qed.

Lemma target_code_u64 t : target_ok t -> is_u64 (target_code t).
Proof. intros H. rewrite target_code_cases by done. unfold is_u64. destruct t; cbn in H; lia. Qed.

Lemma target_both t : target_ok t -> target_from_code (target_code t) = t.
Proof.
  intros H. rewrite target_code_cases by done. unfold target_from_code.
  destruct t as [id|id]; cbn in H; rewrite land_1, Z.shiftr_div_pow2 by lia; change (2 ^ 1) with 2.
  - replace ((2 * id) mod 2) with 0 by dlia. simpl. f_equal. dlia.
  - replace ((2 * id + 1) mod 2) with 1 by dlia. simpl. f_equal. dlia.
Qed.

Lemma target_code_from n : is_u64 n -> target_ok (target_from_code n) /\ target_code (target_from_code n) = n.
Proof.
  unfold is_u64. intros H. assert (target_ok (target_from_code n)) as Ho.
  { unfold target_from_code. rewrite land_1, Z.shiftr_div_pow2 by lia. change (2 ^ 1) with 2.
    destruct (_ =? 0); cbn; dlia. }
  split; [done|]. rewrite target_code_cases by done. unfold target_from_code.
  rewrite land_1, Z.shiftr_div_pow2 by lia. change (2 ^ 1) with 2.
  destruct (Z.eqb_spec (n mod 2) 0); dlia.
Qed.

Lemma target_code_back n : is_u64 n -> target_code (target_from_code n) = n.
Proof. apply target_code_from. Qed.

Lemma status_of_both n at_ : status_ok n -> status_of n at_ = Ok n.
Proof. unfold status_ok, status_of. intros H. by rewrite (proj2 (Z.leb_le _ _)) by lia. Qed.

Lemma status_of_Ok n at_ m : is_u64 n -> status_of n at_ = Ok m -> m = n /\ status_ok n.
Proof.
  unfold is_u64, status_of, status_ok. intros H. destruct (Z.leb_spec n u32_max); [|done]. intros [= <-]. split; [done|lia].
Qed.

Lemma status_u64 n : status_ok n -> is_u64 n.
Proof. unfold status_ok, is_u64, u32_max. lia. Qed.

(** *** Writing is the fields behind their length *)

Lemma finish_start out kind fields max :
  finish (out ++ [0; 0; 0; 0; kind] ++ fields) (length out) max =
    let len := len_of (kind :: fields) in
    if (max <? len) || (u32_max <? len) then Err (TooLarge len max) else Ok (out ++ framed (kind :: fields)).
Proof.
  unfold finish, finish_with. cbv zeta.
  assert (len_of (out ++ [0; 0; 0; 0; kind] ++ fields) - Z.of_nat (length out) - 4 + 0 = len_of (kind :: fields)) as ->
    by (unfold len_of; rewrite !length_app; cbn [length]; lia).
  destruct (_ || _); [done|]. rewrite take_app_length. unfold framed. f_equal.
  replace (length out + 4)%nat with (length (out ++ [0; 0; 0; 0])) by (rewrite length_app; done).
  replace (out ++ [0; 0; 0; 0; kind] ++ fields) with ((out ++ [0; 0; 0; 0]) ++ kind :: fields) by (by rewrite <- app_assoc).
  by rewrite drop_app_length.
Qed.

Lemma put_fields_spec f out : frame_wf f ->
  put_fields f out = Ok (out ++ [0; 0; 0; 0; kind_of f] ++ fields_of_frame f).
Proof.
  destruct f; cbn [frame_wf put_fields kind_of fields_of_frame]; intros Hwf;
    unfold start_call, start_reply, start, text_ok, bytes_ok, options_ok, put_text in *; destruct_and?.
  all: rewrite ?put_uint_leb by (done || by (apply target_code_u64 || apply status_u64)).
  all: rewrite ?put_bytes_key by done.
  all: rewrite ?put_value_key by done; f_equal; rewrite <- ?app_assoc; try done.
  all: by rewrite ?put_uint_leb by (done || by (apply target_code_u64 || apply status_u64)); rewrite <- ?app_assoc.
Qed.

Lemma encode_frame_spec f out max : frame_wf f ->
  encode_frame f out max =
    let len := len_of (frame_body f) in
    if (max <? len) || (u32_max <? len) then Err (TooLarge len max) else Ok (out ++ framed (frame_body f)).
Proof.
  intros Hf. unfold encode_frame. rewrite put_fields_spec by done. cbn [mbind result_bind]. apply finish_start.
Qed.

(** *** Reading is exact *)

Section exact.
Variable random : Seeded.

(** Takes one field of each reader in the context apart. *)
Ltac sound_field lem H :=
  eapply (reads_sound _ _ _ lem) in H; [|eassumption]; destruct H as (? & ? & ? & ?).
Ltac sound_fields :=
  repeat match goal with
  | Hb : bytes_left ?r, H : get_uint ?r = Ok _ |- _ => sound_field get_uint_reads H
  | Hb : bytes_left ?r, H : get_byte ?r = Ok _ |- _ => sound_field get_byte_reads H
  | Hb : bytes_left ?r, H : get_bytes ?r = Ok _ |- _ => sound_field get_bytes_reads H
  | Hb : bytes_left ?r, H : get_text ?r = Ok _ |- _ => sound_field get_text_reads H
  | Hb : bytes_left ?r, H : get_fixed ?n ?r = Ok _ |- _ => sound_field (get_fixed_reads n) H
  | Hb : bytes_left ?r, H : get_value random ?r = Ok _ |- _ => sound_field (get_value_reads random) H
  end.

Lemma end_of_Ok r : end_of r = Ok () -> unread_ r = [].
Proof. unfold end_of. by destruct (unread_ r). Qed.

Lemma ended_Ok {A} (x : result (fault ProtocolError) (A * FieldReader)) a :
  ended x = Ok a -> exists r, x = Ok (a, r) /\ unread_ r = [].
Proof.
  unfold ended. destruct x as [[b r]|]; [|done]. cbn. destruct (end_of r) as [[]|] eqn:E; [|done].
  intros [= <-]. exists r. split; [done|]. by apply end_of_Ok.
Qed.

(** What reading the fields of a type tells. *)
Definition read_exactly (kind : Z) (r : FieldReader) (f : Frame) : Prop :=
  kind_of f = kind /\ frame_wf f /\ unread_ r = fields_of_frame f.

Ltac chain := repeat match goal with H : unread_ ?r = _ |- context [unread_ ?r] => rewrite H end.

Lemma decode_handshake_sound r f (hello : bool) magic version r1 r2 : bytes_left r ->
  get_fixed 4 r = Ok (magic, r1) -> magic = MAGIC -> get_byte r1 = Ok (version, r2) -> version = VERSION ->
  ended (if hello then decode_hello random r2 else decode_welcome random r2) = Ok f ->
  read_exactly (if hello then HELLO else WELCOME) r f.
Proof.
  intros Hr H1 -> H2 -> (r' & H & He)%ended_Ok. sound_fields.
  destruct hello; unfold decode_hello, decode_welcome in H; inv_result.
  - match goal with H : trust_from_byte _ _ = Ok _ |- _ => apply trust_from_byte_Ok in H end. subst.
    sound_fields. split_and!; [done|repeat split; naive_solver|]. chain. by rewrite ?app_nil_r.
  - sound_fields. split_and!; [done|repeat split; naive_solver|]. chain. by rewrite ?app_nil_r.
Qed.

Ltac sound_arm H :=
  first [apply ended_Ok in H as (? & H & ?)|idtac]; inv_result; sound_fields;
  repeat match goal with
  | Hn : is_u64 ?n, E : status_of ?n _ = Ok _ |- _ => apply (status_of_Ok _ _ _ Hn) in E as [-> ?]
  end; sound_fields.

Lemma decode_fields_sound kind r f : bytes_left r -> decode_fields random kind r = Ok f -> read_exactly kind r f.
Proof.
  intros Hr H. unfold decode_fields in H.
  destruct ((kind =? HELLO) || (kind =? WELCOME)) eqn:Ek.
  { apply bind_Ok in H as ([magic r1] & E1 & H).
    destruct (negb (bool_decide (magic = MAGIC))) eqn:Em; [done|]. apply negb_false_iff, bool_decide_eq_true in Em.
    apply bind_Ok in H as ([version r2] & E2 & H).
    destruct (negb (version =? VERSION)) eqn:Ev; [done|]. apply negb_false_iff, Z.eqb_eq in Ev.
    pose proof (decode_handshake_sound r f (kind =? HELLO) magic version r1 r2 Hr E1 Em E2 Ev H) as Hx.
    destruct (Z.eqb_spec kind HELLO) as [->|]; [done|]. bprop Ek.
    destruct Ek as [|Ek]; [congruence|]. by subst kind. }
  unfold decode_call, decode_reply in H.
  repeat (match type of H with (if ?c then _ else _) = _ => destruct c eqn:?E end;
    [match goal with E : (kind =? _) = true |- _ => apply Z.eqb_eq in E; subst kind end;
     sound_arm H; split_and!; [done|cbn; destruct_and?; split_and?; try done; by apply target_code_from|
       chain; cbn [fields_of_frame]; rewrite ?app_nil_r; try done]|]); [..|done].
  by rewrite target_code_back by done.
Qed.

Lemma decode_frame_sound body f : Forall is_byte body -> decode_frame random body = Ok f ->
  frame_wf f /\ body = frame_body f.
Proof.
  intros Hb H. unfold decode_frame in H. apply bind_Ok in H as ([kind r] & E & H).
  assert (bytes_left (field_reader body)) as Hr by done. sound_field get_byte_reads E.
  apply decode_fields_sound in H as (Hk & Hw & Hu); [|done]. split; [done|].
  unfold frame_body. rewrite Hk, <- Hu. done.
Qed.

(** The fields of a frame are read from its bytes. *)
Lemma fixed_takes n b tl at_ : length b = n -> get_fixed n (MkFieldReader (b ++ tl) at_) = Ok (b, MkFieldReader tl (at_ + n)).
Proof.
  intros <-. unfold get_fixed. cbn. rewrite decide_True by (rewrite length_app; lia).
  rewrite take_app_length. unfold skip_. cbn. by rewrite drop_app_length.
Qed.

Lemma get_byte_takes b tl at_ : get_byte (MkFieldReader (b :: tl) at_) = Ok (b, MkFieldReader tl (at_ + 1)).
Proof. done. Qed.

Lemma end_takes {A} (a : A) at_ : ended (Ok (a, MkFieldReader [] at_)) = Ok a.
Proof. done. Qed.

Ltac solve_bytes := rewrite ?Forall_app; split_and?; first [assumption|by apply Forall_nil].
Ltac solve_field := first [done | by split | by apply target_code_u64 | by apply status_u64].
Ltac take_fields :=
  repeat first
    [ rewrite (reads_takes _ _ _ get_uint_reads) by (solve_field || solve_bytes)
    | rewrite (reads_takes _ _ _ get_bytes_reads) by (solve_field || solve_bytes)
    | rewrite (reads_takes _ _ _ get_text_reads) by (solve_field || solve_bytes)
    | rewrite (reads_takes _ _ _ (get_value_reads random)) by (solve_field || solve_bytes)
    | rewrite fixed_takes by done
    | rewrite get_byte_takes
    | rewrite trust_both
    | rewrite status_of_both by done
    | rewrite target_both by done
    | progress cbn [mbind result_bind unread_ field_at_] ].

Lemma decode_frame_takes f : frame_wf f -> Forall is_byte (frame_body f) ->
  decode_frame random (frame_body f) = Ok f.
Proof.
  intros Hf Hb. unfold decode_frame, frame_body, field_reader. rewrite get_byte_takes. cbn [mbind result_bind].
  apply Forall_cons in Hb as [_ Hb]. rewrite <- (app_nil_r (fields_of_frame f)). unfold decode_fields.
  destruct f as [trust nonce options|nonce proof options| | | | | | | | | | |];
    cbn [kind_of]; cbn [Z.eqb Pos.eqb orb HELLO WELCOME PROOF LIST OPEN CLOSE CALL REPLY CANCEL RELEASE PING PONG GOODBYE];
    cbn [fields_of_frame frame_wf] in *; unfold nonce_ok, options_ok, bytes_ok, text_ok in *; destruct_and?;
    rewrite ?Forall_app in Hb; destruct_and?.
  all: rewrite <- ?app_assoc; unfold decode_call, decode_reply, decode_hello, decode_welcome; take_fields.
  all: try (by rewrite ?app_nil_r).
  all: rewrite bool_decide_eq_true_2 by done; cbn [negb app]; take_fields; cbn [negb Z.eqb Pos.eqb VERSION].
  all: take_fields; done.
Qed.

(** *** Refusals *)

(** A reader further on in the same bytes. *)
Definition beyond (r0 r : FieldReader) : Prop :=
  exists n, (n <= length (unread_ r0))%nat /\ r = skip_ n r0.

Lemma beyond_here r : beyond r r.
Proof. exists 0%nat. split; [lia|]. unfold skip_. destruct r. cbn. by rewrite drop_0, Nat.add_0_r. Qed.

Lemma beyond_took r0 r l r' : beyond r0 r -> unread_ r = l ++ unread_ r' -> r' = skip_ (length l) r -> beyond r0 r'.
Proof.
  intros (n & Hn & ->) H ->. exists (n + length l)%nat. rewrite skip_skip. split; [|done].
  apply (f_equal length) in H. cbn in H. rewrite length_app, !length_drop in H. lia.
Qed.

Lemma beyond_located r0 r f : beyond r0 r -> located r f -> located r0 f.
Proof. intros (n & Hn & ->). by apply located_skip. Qed.

Lemma beyond_at r0 r e : beyond r0 r -> error_at e = Some (field_at_ r) -> located r0 (Refuse e).
Proof. intros H He. by eapply beyond_located, located_here. Qed.

(** A reader of fields refuses within what it was given. *)
Definition refuses_within {A} (r0 : FieldReader) (x : result (fault ProtocolError) A) : Prop :=
  forall f, x = Err f -> located r0 f.

Lemma within_field {A B} get put ok (k : A * FieldReader -> result (fault ProtocolError) B) r0 r :
  reads get put ok -> bytes_left r -> beyond r0 r ->
  (forall a r', bytes_left r' -> beyond r0 r' -> refuses_within r0 (k (a, r'))) ->
  refuses_within r0 (get r ≫= k).
Proof.
  intros Hg Hr Hb Hk f [E|([a r'] & E & H)]%bind_Err.
  - by eapply beyond_located, reads_refuses.
  - eapply (reads_sound _ _ _ Hg) in E as (_ & Hu & Hs & Hr'); [|done].
    eapply Hk; [done|by eapply beyond_took|done].
Qed.

Lemma within_Ok {A} r0 (a : A) : refuses_within r0 (Ok a).
Proof. by intros f [=]. Qed.

Lemma within_here {A} r0 e : error_at e = None -> refuses_within (A:=A) r0 (Err (Refuse e)).
Proof. intros He f [= <-]. exists e. split; [done|]. intros n. by rewrite He. Qed.

Lemma within_check {A B} r0 r (x : result (fault ProtocolError) A) (k : A -> result (fault ProtocolError) B) :
  beyond r0 r -> (forall f, x = Err f -> exists e, f = Refuse e /\ error_at e = Some (field_at_ r)) ->
  (forall a, refuses_within r0 (k a)) -> refuses_within r0 (x ≫= k).
Proof.
  intros Hb Hx Hk f [E|(a & E & H)]%bind_Err; [|by eapply Hk].
  destruct (Hx f E) as (e & -> & He). by eapply beyond_at.
Qed.

Lemma within_end {B} r0 r (b : B) : beyond r0 r -> refuses_within r0 (ended (Ok (b, r))).
Proof.
  intros Hb f. unfold ended, end_of. cbn. destruct (unread_ r); [done|]. intros [= <-].
  by eapply beyond_at.
Qed.

Lemma trust_refuses b at_ f : trust_from_byte b at_ = Err f -> exists e, f = Refuse e /\ error_at e = Some at_.
Proof. unfold trust_from_byte. repeat case_match; try done. intros [= <-]. by eexists. Qed.

Lemma status_refuses n at_ f : status_of n at_ = Err f -> exists e, f = Refuse e /\ error_at e = Some at_.
Proof. unfold status_of. case_match; [done|]. intros [= <-]. by eexists. Qed.

Lemma ended_bind {A B} (x : result (fault ProtocolError) A) (k : A -> result (fault ProtocolError) (B * FieldReader)) :
  ended (x ≫= k) = x ≫= λ a, ended (k a).
Proof. by destruct x. Qed.

Ltac within_fields :=
  repeat match goal with
  | |- refuses_within _ (ended (_ ≫= _)) => rewrite ended_bind
  | |- refuses_within _ (get_uint _ ≫= _) => eapply within_field; [apply get_uint_reads|done|done|intros ? ? ? ?]
  | |- refuses_within _ (get_byte _ ≫= _) => eapply within_field; [apply get_byte_reads|done|done|intros ? ? ? ?]
  | |- refuses_within _ (get_bytes _ ≫= _) => eapply within_field; [apply get_bytes_reads|done|done|intros ? ? ? ?]
  | |- refuses_within _ (get_text _ ≫= _) => eapply within_field; [apply get_text_reads|done|done|intros ? ? ? ?]
  | |- refuses_within _ (get_fixed _ _ ≫= _) => eapply within_field; [apply get_fixed_reads|done|done|intros ? ? ? ?]
  | |- refuses_within _ (get_value _ _ ≫= _) => eapply within_field; [apply get_value_reads|done|done|intros ? ? ? ?]
  | |- refuses_within _ (trust_from_byte _ (field_at_ ?r) ≫= _) => apply (within_check _ r); [done|apply trust_refuses|intros ?]
  | |- refuses_within _ (status_of _ (field_at_ ?r) ≫= _) => apply (within_check _ r); [done|apply status_refuses|intros ?]
  | |- refuses_within _ (ended (Ok _)) => by apply within_end
  | |- refuses_within _ (Ok _) => apply within_Ok
  | |- refuses_within _ (if ?c then _ else _) => destruct c
  | |- refuses_within _ (ended (if ?c then _ else _)) => destruct c
  | |- refuses_within _ (Err (Refuse _)) => by apply within_here
  end.

Lemma decode_frame_refuses body : Forall is_byte body -> refuses_within (field_reader body) (decode_frame random body).
Proof.
  intros Hb. unfold decode_frame, decode_fields, decode_hello, decode_welcome, decode_call, decode_reply.
  assert (bytes_left (field_reader body)) as Hr by done. pose proof (beyond_here (field_reader body)) as Hh.
  within_fields.
Qed.

Lemma frame_body_bytes f : frame_wf f -> Forall is_byte (frame_body f).
Proof.
  intros Hf. constructor; [by destruct f|]. 
  destruct f as [[]| | | | | | | | | | | |]; cbn [fields_of_frame frame_wf] in *;
    unfold nonce_ok, options_ok, bytes_ok, text_ok in *; destruct_and?;
    rewrite ?Forall_app; split_and?; try done;
    first [by apply leb_bytes | by apply leb_bytes, status_u64 | by apply leb_bytes, target_code_u64
          | by apply key_wire_bytes | by apply key_wire_bytes; [apply wire_bytes|] | by apply key_wire_bytes; [apply utf8_bytes|]
          | by repeat constructor].
Qed.
End exact.

(** ** Frames and bytes, one to one *)

(** C10: a body is read as a frame exactly when it is that frame's bytes: every
    frame a peer can send is read as it was sent, nothing else is read as a frame,
    and no frame has two encodings. *)
Theorem frames_exactly random (body : bytes) (f : Frame) : Forall is_byte body ->
  decode_frame random body = Ok f <-> frame_wf f /\ frame_body f = body.
Proof.
  intros Hb. split.
  - intros E. by destruct (decode_frame_sound random body f Hb E).
  - intros [Hf <-]. by apply decode_frame_takes.
Qed.

Lemma frames_exactly_witness :
  decode_frame (MkSeeded 1 2) [0x10; 7; 0; 9; 0xac; 2; 1] = Ok (Call 7 0 (Object 4) 300 [1]).
Proof.
  apply (frames_exactly (MkSeeded 1 2) [0x10; 7; 0; 9; 0xac; 2; 1] (Call 7 0 (Object 4) 300 [1])).
  - repeat constructor; vm_compute; discriminate.
  - split; [|vm_compute; reflexivity]. cbn. unfold is_u64.
    split_and!; try lia. repeat constructor; discriminate.
Defined.

(** Reading a body that is no frame ends in a refusal, never a panic, and where
    the refusal names an offset it lies in the body. *)
Theorem frame_refusals random (body : bytes) : Forall is_byte body ->
  match decode_frame random body with
  | Ok f => frame_wf f
  | Err f => exists e, f = Refuse e /\ forall n, error_at e = Some n -> (n <= length body)%nat
  end.
Proof.
  intros Hb. pose proof (decode_frame_refuses random body Hb) as H.
  destruct (decode_frame random body) as [f|f] eqn:E.
  - by destruct (decode_frame_sound random body f Hb E).
  - destruct (H f eq_refl) as (e & -> & He). exists e. split; [done|]. intros n Hn. by apply He in Hn as [_ ?].
Qed.

Lemma frame_refusals_witness :
  decode_frame (MkSeeded 1 2) [0x11; 0x80; 0] = Err (Refuse (Overlong 1)).
Proof.
  pose proof (frame_refusals (MkSeeded 1 2) [0x11; 0x80; 0]) as H.
  assert (Forall is_byte [0x11; 0x80; 0]) as Hb by (repeat constructor; vm_compute; discriminate).
  specialize (H Hb). vm_compute. vm_compute in H. destruct H as (e & [= <-] & _). reflexivity.
Defined.

(** Writing a frame appends its length and its body, and refuses exactly the
    bodies over the bound or over four gigabytes. *)
Theorem encode_frame_exact (f : Frame) (out : bytes) (max : Z) : frame_wf f ->
  encode_frame f out max =
    if (max <? len_of (frame_body f)) || (u32_max <? len_of (frame_body f))
    then Err (TooLarge (len_of (frame_body f)) max)
    else Ok (out ++ framed (frame_body f)).
Proof. apply encode_frame_spec. Qed.

Lemma encode_frame_exact_witness :
  encode_frame (Ping 5) [1] 2 = Ok [1; 2; 0; 0; 0; 0x14; 5] /\ encode_frame (Ping 300) [1] 2 = Err (TooLarge 3 2).
Proof.
  split; [rewrite (encode_frame_exact (Ping 5) [1] 2)|rewrite (encode_frame_exact (Ping 300) [1] 2)];
    try (vm_compute; reflexivity); cbn; unfold is_u64; lia.
Defined.

(** Frames written one after another. *)
Fixpoint encode_frames (fs : list Frame) (out : bytes) (max : Z) : result ProtocolError bytes :=
  match fs with [] => Ok out | f :: fs => out ← encode_frame f out max; encode_frames fs out max end.

Lemma encode_frames_spec fs max : max <= u32_max -> Forall frame_wf fs -> forall out out',
  encode_frames fs out max = Ok out' ->
  out' = out ++ concat (map (λ f, framed (frame_body f)) fs) /\ Forall (λ f, len_of (frame_body f) <= max) fs.
Proof.
  intros Hm. induction 1 as [|f fs Hf _ IH]; intros out out' H; [injection H as <-; by rewrite app_nil_r|].
  cbn [encode_frames] in H. apply bind_Ok in H as (o & E & H). rewrite encode_frame_spec in E by done.
  cbv zeta in E. destruct (_ || _) eqn:Eb in E; [done|]. injection E as <-. bprop Eb.
  apply IH in H as [-> Hall]. cbn [map concat]. rewrite <- app_assoc. split; [done|]. constructor; [lia|done].
Qed.

(** A link delivers its frames. What one side encodes and writes to a stream,
    the other reads and decodes as the same frames, in order, however the stream
    takes and cuts the bytes, and then sees its end. *)
Theorem link_roundtrip random (fs : list Frame) (max : Z) (out : bytes) (s s' : Sink) (source : list Arrival) :
  max <= u32_max -> Forall frame_wf fs -> encode_frames fs [] max = Ok out ->
  stream_write_frame s out = (Ok (), s') -> taken s' = taken s ++ arrived source -> broken source = None ->
  exists bodies, read_frames (S (length fs)) max source = Ok bodies /\
    map (decode_frame random) bodies = map Ok fs.
Proof.
  intros Hm Hf He Hw Ha Hb. apply encode_frames_spec in He as [-> Hl]; [|done..]. cbn [app] in Hw.
  exists (map frame_body fs). split.
  - rewrite <- (length_map frame_body). apply read_frames_spec; [done|by apply Forall_map| |done].
    pose proof (stream_write_frame_spec s (concat (map (λ f, framed (frame_body f)) fs))) as [H _].
    rewrite Hw in H. unfold delivers in H. cbn in H. rewrite H in Ha. apply app_inv_head in Ha.
    by rewrite map_map.
  - rewrite map_map. apply map_ext_in. intros f Hin. rewrite List.Forall_forall in Hf.
    apply decode_frame_takes; [|apply frame_body_bytes]; by apply Hf.
Qed.

Lemma link_roundtrip_witness :
  exists bodies,
    read_frames 3 64 [Chunk [2; 0; 0]; Interrupt; Chunk [0; 20; 5; 3; 0; 0; 0; 18]; Chunk [172; 2]] = Ok bodies /\
    map (decode_frame (MkSeeded 1 2)) bodies = [Ok (Ping 5); Ok (Cancel 300)].
Proof.
  set (b := [2; 0; 0; 0; 20; 5; 3; 0; 0; 0; 18; 172; 2]).
  apply (link_roundtrip (MkSeeded 1 2) [Ping 5; Cancel 300] 64 b (MkSink [] [Interrupts; Takes 4; Takes 1]) (MkSink b []));
    [vm_compute; discriminate| |vm_compute; reflexivity..].
  repeat constructor; cbn; unfold is_u64; lia.
Defined.
