(* ===== verification/Gate.v ===== *)
(** * The link's writer

    [link/gate.rs] of the remote source. Threads hand frames to one writer without
    waiting for each other: a frame is queued under the lock, and the thread that
    finds the writer free takes it and writes what is queued until nothing is. Each
    critical section, and each write outside the lock, is one step; threads
    interleave between steps in any way. What a writer does is an interface
    ([FrameWrite]); panics in it are caught and are failures. *)

From S2P Require Import Prelude Errors Stream.

(** ** The gate *)

(** [Queued]: [tail] is a vector and where in it the frame's last bytes start. *)
Record Queued := MkQueued { q_call : Z; q_head : bytes; q_tail : option (bytes * nat) }.

#[export] Instance Queued_eq_dec : EqDecision Queued.
Proof. solve_decision. Defined.

(** [Unsent]. *)
Inductive Unsent : Type := Closed | Failed (e : IoError).

(** The words a caught panic is told in. *)
Definition the_writer_panicked : IoError := OtherIo 0.

Section gate.
Context {W : Type} `{HW : FrameWrite W}.

(** [State], behind its lock; [spare] only saves an allocation. *)
Record Gate := MkGate { writer : option W; queued : list Queued; closed : bool }.

(** [Gate::new]. *)
Definition gate_new (w : W) : Gate := MkGate (Some w) [] false.

(** *** Writing a batch *)

(** [guarded]: a panic in a write is the transport failing. *)
Definition guarded (r : result (fault IoError) unit * W) : result IoError unit * W :=
  (match r.1 with Ok u => Ok u | Err (Refuse e) => Err e | Err Panic => Err the_writer_panicked end, r.2).

(** [write_batch]: runs of whole frames together, a frame with a tail as its two
    parts; a tail that starts past its end panics. *)
Fixpoint write_batch (w : W) (whole : list bytes) (batch : list Queued) : result (fault IoError) unit * W :=
  match batch with
  | [] => match whole with [] => (Ok (), w) | _ => write_frames w whole end
  | q :: batch =>
      match q_tail q with
      | None => write_batch w (whole ++ [q_head q]) batch
      | Some (tail, from) =>
          let '(r, w) := match whole with [] => (Ok (), w) | _ => write_frames w whole end in
          match r with
          | Err e => (Err e, w)
          | Ok _ =>
              if decide (from <= length tail)%nat then
                let '(r, w) := write_frame_parts w (q_head q) (drop from tail) in
                match r with Err e => (Err e, w) | Ok _ => write_batch w [] batch end
              else (Err Panic, w)
          end
      end
  end.

(** *** What each critical section does *)

(** The first half of [Gate::queue]: the frame queued, and the writer, if it was
    free. *)
Definition queue_ (g : Gate) (q : Queued) : result Unsent (Gate * option W) :=
  if closed g then Err Closed
  else Ok (MkGate None (queued g ++ [q]) (closed g), writer g).

(** The first half of [Gate::send_parts]: the writer, if it was free. *)
Definition take_writer (g : Gate) : result Unsent (Gate * option W) :=
  if closed g then Err Closed else Ok (MkGate None (queued g) (closed g), writer g).

(** [Gate::failed]. *)
Definition failed (g : Gate) (w : W) : Gate := MkGate (Some w) [] true.

(** A round of [Gate::drain]: the batch to write, or the writer given back. *)
Definition drain_round (g : Gate) (w : W) : Gate * option (list Queued) :=
  match queued g with
  | [] => (MkGate (Some w) [] (closed g), None)
  | batch => (MkGate (writer g) [] (closed g), Some batch)
  end.

(** [Gate::retract]. *)
Definition retract (g : Gate) (call : Z) : bool * Gate :=
  match list_find (λ q, q_call q = call) (queued g) with
  | Some (at_, _) => (true, MkGate (writer g) (delete at_ (queued g)) (closed g))
  | None => (false, g)
  end.

(** [Gate::close]. *)
Definition close_gate (g : Gate) : Gate :=
  MkGate (writer g) (match writer g with Some _ => [] | None => queued g end) true.

(** ** Threads *)

(** Where a thread is, outside the lock: away; about to queue a frame it copied;
    or holding the writer, to write a frame's parts, to run [try_with]'s closure,
    to take the next batch, or to write one. *)
Inductive Place : Type :=
  | Copied (call : Z) (frame : bytes)
  | InParts (w : W) (call : Z) (head tail : bytes)
  | InWith (w : W)
  | Draining (w : W)
  | Writing (w : W) (batch : list Queued).

(** What a thread's step answers its caller. *)
Inductive Answer : Type :=
  | Goes
  | Sent
  | NotSent (u : Unsent)
  | Retracted (b : bool)
  | Tried (b : bool).

(** A link's threads around its gate. [owed] records, in order, the frames taken
    and not taken back; it is what the gate owes the peer, not state of the code. *)
Record Link := MkLink { gate : Gate; threads : gmap nat Place; owed : list Queued; broke : bool }.

Definition link_new (w : W) : Link := MkLink (gate_new w) ∅ [] false.

(** What starts: a call a thread makes on the gate, or the next step of a thread
    inside it. *)
Inductive Event : Type :=
  | Send (t : nat) (q : Queued)
  | SendParts (t : nat) (call : Z) (head tail : bytes)
  | Retract (call : Z)
  | TryShutdown (t : nat)
  | CloseGate
  | Step (t : nat).

Definition put_thread (x : Link) (g : Gate) (t : nat) (p : option Place) : Link :=
  MkLink g (partial_alter (λ _, p) t (threads x)) (owed x) (broke x).
Definition owing (x : Link) (q : Queued) : Link := MkLink (gate x) (threads x) (owed x ++ [q]) (broke x).
Definition broken_ (x : Link) : Link := MkLink (gate x) (threads x) (owed x) true.

(** The frame queued by [send], [send_with_tail], or [send_parts] once it has
    copied: the thread drains if the writer was free. *)
Definition enqueue (x : Link) (t : nat) (q : Queued) : Link * Answer :=
  match queue_ (gate x) q with
  | Err u => (put_thread x (gate x) t None, NotSent u)
  | Ok (g, Some w) => (put_thread (owing x q) g t (Some (Draining w)), Goes)
  | Ok (g, None) => (put_thread (owing x q) g t None, Sent)
  end.

(** A write that ended: the thread drains on, or the link breaks. *)
Definition wrote (x : Link) (t : nat) (r : result IoError unit * W) : Link * Answer :=
  match r with
  | (Ok _, w) => (put_thread x (gate x) t (Some (Draining w)), Goes)
  | (Err e, w) => (put_thread (broken_ x) (failed (gate x) w) t None, NotSent (Failed e))
  end.

(** The next step of a thread inside. *)
Definition thread_step (x : Link) (t : nat) (p : Place) : Link * Answer :=
  match p with
  | Copied call frame => enqueue x t (MkQueued call frame None)
  | InParts w call head tail => wrote x t (guarded (write_frame_parts w head tail))
  | InWith w => (put_thread x (gate x) t (Some (Draining (shutdown w))), Goes)
  | Draining w =>
      match drain_round (gate x) w with
      | (g, None) => (put_thread x g t None, Sent)
      | (g, Some batch) => (put_thread x g t (Some (Writing w batch)), Goes)
      end
  | Writing w batch => wrote x t (guarded (write_batch w [] batch))
  end.

(** One event; nothing when it cannot happen. *)
Definition link_step (x : Link) (e : Event) : option (Link * Answer) :=
  match e with
  | Send t q => match threads x !! t with None => Some (enqueue x t q) | Some _ => None end
  | SendParts t call head tail =>
      match threads x !! t with
      | Some _ => None
      | None =>
          match take_writer (gate x) with
          | Err u => Some (x, NotSent u)
          | Ok (g, Some w) =>
              Some (put_thread (owing x (MkQueued call head (Some (tail, O)))) g t (Some (InParts w call head tail)), Goes)
          | Ok (_, None) => Some (put_thread x (gate x) t (Some (Copied call (head ++ tail))), Goes)
          end
      end
  | Retract call =>
      let '(b, g) := retract (gate x) call in
      let n := (length (owed x) - length (queued (gate x)))%nat in
      let owed' := match list_find (λ q, q_call q = call) (queued (gate x)) with
                   | Some (at_, _) => delete (n + at_)%nat (owed x)
                   | None => owed x
                   end in
      Some (MkLink g (threads x) owed' (broke x), Retracted b)
  | TryShutdown t =>
      match threads x !! t with
      | Some _ => None
      | None =>
          match writer (gate x) with
          | None => Some (x, Tried false)
          | Some w => Some (put_thread x (MkGate None (queued (gate x)) (closed (gate x))) t (Some (InWith w)), Tried true)
          end
      end
  | CloseGate => Some (MkLink (close_gate (gate x)) (threads x) (owed x) (broke x), Goes)
  | Step t => p ← threads x !! t; Some (thread_step x t p)
  end.

(** Events one after another. *)
Inductive reached : Link -> Link -> Prop :=
  | reached_here x : reached x x
  | reached_step x y z e a : reached x y -> link_step y e = Some (z, a) -> reached x z.

(** ** What a batch delivers *)

(** A queued frame's bytes. *)
Definition q_bytes (q : Queued) : bytes :=
  q_head q ++ match q_tail q with Some (tail, from) => drop from tail | None => [] end.
Definition all_bytes_of (l : list Queued) : bytes := concat (map q_bytes l).
#[local] Arguments all_bytes_of : simpl never.

Lemma delivers_more (b b' : bytes) (w w1 : W) (r : result (fault IoError) unit * W) :
  delivered w1 = delivered w ++ b -> delivers delivered b' w1 r -> delivers delivered (b ++ b') w r.
Proof.
  unfold delivers. intros H1. destruct r as [[u|e] w2]; cbn; rewrite H1.
  - intros ->. by rewrite app_assoc.
  - intros (p & [s ->] & ->). exists (b ++ p). split; [|by rewrite app_assoc].
    exists s. by rewrite app_assoc.
Qed.

Lemma delivers_cut (b b' : bytes) (w w1 : W) e :
  delivers delivered b w (Err e, w1) -> delivers delivered (b ++ b') w (Err e, w1).
Proof. intros (p & [s ->] & H1). exists p. split; [|done]. exists (s ++ b'). by rewrite app_assoc. Qed.

Lemma write_whole_delivers w whole :
  delivers delivered (concat whole) w (match whole with [] => (Ok (), w) | _ => write_frames w whole end).
Proof. destruct whole as [|f fs]; [by unfold delivers; cbn; rewrite app_nil_r|]. apply write_frames_delivers. Qed.

Lemma all_bytes_cons q l : all_bytes_of (q :: l) = q_bytes q ++ all_bytes_of l.
Proof. done. Qed.

Lemma all_bytes_app l l' : all_bytes_of (l ++ l') = all_bytes_of l ++ all_bytes_of l'.
Proof. unfold all_bytes_of. by rewrite map_app, concat_app. Qed.

Lemma write_batch_delivers batch : forall w whole,
  delivers delivered (concat whole ++ all_bytes_of batch) w (write_batch w whole batch).
Proof.
  induction batch as [|q batch IH]; intros w whole; cbn [write_batch].
  - unfold all_bytes_of. cbn. rewrite app_nil_r. apply write_whole_delivers.
  - rewrite all_bytes_cons. unfold q_bytes. destruct (q_tail q) as [[tl from]|].
    + pose proof (write_whole_delivers w whole) as H1.
      destruct (match whole with [] => _ | _ => _ end) as [[[]|e] w1]; [|by apply delivers_cut].
      case_decide as Hf; [|exists (concat whole); split; [by apply prefix_app_r|done]].
      pose proof (write_frame_parts_delivers w1 (q_head q) (drop from tl)) as H2.
      apply (delivers_more (concat whole) _ w w1); [done|].
      destruct (write_frame_parts w1 (q_head q) (drop from tl)) as [[[]|e] w2]; [|by apply delivers_cut].
      apply (delivers_more _ _ w1 w2); [done|]. by apply (IH w2 []).
    + rewrite app_nil_r. specialize (IH w (whole ++ [q_head q])).
      rewrite concat_app in IH. cbn [concat] in IH. by rewrite app_nil_r, <- app_assoc in IH.
Qed.

(** What the transport holds after a guarded write. *)
Definition hands (b : bytes) (w : W) (r : result IoError unit * W) : Prop :=
  match r with
  | (Ok _, w') => delivered w' = delivered w ++ b
  | (Err _, w') => exists p, p `prefix_of` b /\ delivered w' = delivered w ++ p
  end.

Lemma guarded_hands b w r : delivers delivered b w r -> hands b w (guarded r).
Proof. unfold delivers, guarded. by destruct r as [[[]|[e|]] w']. Qed.

(** ** Who holds the writer, and what is owed *)

(** The writer a thread holds, with the frames it is writing. *)
Definition holds (p : Place) : option (W * list Queued) :=
  match p with
  | Copied _ _ => None
  | InParts w call head tail => Some (w, [MkQueued call head (Some (tail, O))])
  | InWith w | Draining w => Some (w, [])
  | Writing w batch => Some (w, batch)
  end.
Definition holding (x : Link) (t : nat) : option (W * list Queued) := threads x !! t ≫= holds.

(** The writer is free, and nothing is queued; or exactly one thread holds it. *)
Definition custody (x : Link) (w : W) (flight : list Queued) : Prop :=
  match writer (gate x) with
  | Some w' => w' = w /\ flight = [] /\ queued (gate x) = [] /\ forall t, holding x t = None
  | None => exists t, holding x t = Some (w, flight) /\ forall t', t' <> t -> holding x t' = None
  end.

(** What the transport holds of what is owed: in order, all but what is being
    written and what is queued; after a failure, a prefix. *)
Definition link_ok (start : bytes) (x : Link) : Prop :=
  exists w done flight, custody x w flight /\
    if broke x then
      closed (gate x) = true /\ queued (gate x) = [] /\ flight = [] /\
      exists p, p `prefix_of` all_bytes_of (owed x) /\ delivered w = start ++ p
    else owed x = done ++ flight ++ queued (gate x) /\ delivered w = start ++ all_bytes_of done.

Lemma holding_put x g t p t' :
  holding (put_thread x g t p) t' = if decide (t' = t) then p ≫= holds else holding x t'.
Proof.
  unfold holding, put_thread. cbn. case_decide as E; [subst|].
  - by rewrite lookup_partial_alter_eq.
  - by rewrite lookup_partial_alter_ne.
Qed.

Lemma link_new_ok w : link_ok (delivered w) (link_new w).
Proof.
  exists w, [], []. split; [|cbn; by rewrite app_nil_r]. unfold custody. cbn. split_and!; [done..|].
  intros t. unfold holding. cbn. by rewrite lookup_empty.
Qed.

(** *** Custody, step by step *)

Lemma custody_held x w flight t w' flight' : custody x w flight -> holding x t = Some (w', flight') ->
  writer (gate x) = None /\ w' = w /\ flight' = flight /\ forall t', t' <> t -> holding x t' = None.
Proof.
  unfold custody. destruct (writer (gate x)); [intros (_ & _ & _ & Hn) Hh; by rewrite Hn in Hh|].
  intros (t0 & H0 & Hn) Hh. destruct (decide (t = t0)) as [->|Ht]; [|by rewrite Hn in Hh].
  rewrite H0 in Hh. by injection Hh as <- <-.
Qed.

Lemma custody_taken x w flight w' : custody x w flight -> writer (gate x) = Some w' ->
  w' = w /\ flight = [] /\ queued (gate x) = [] /\ forall t, holding x t = None.
Proof. unfold custody. intros Hc Ew. by rewrite Ew in Hc. Qed.

Lemma custody_hold x g t p w flight : writer g = None -> p ≫= holds = Some (w, flight) ->
  (forall t', t' <> t -> holding x t' = None) -> custody (put_thread x g t p) w flight.
Proof.
  intros Hg Hp Hn. unfold custody. cbn. rewrite Hg. exists t.
  split; [by rewrite holding_put, decide_True|]. intros t' Ht. rewrite holding_put, decide_False by done. by apply Hn.
Qed.

Lemma custody_free x g t p w : writer g = Some w -> queued g = [] -> p ≫= holds = None ->
  (forall t', t' <> t -> holding x t' = None) -> custody (put_thread x g t p) w [].
Proof.
  intros Hg Hq Hp Hn. unfold custody. cbn. rewrite Hg. split_and!; [done..|].
  intros t'. rewrite holding_put. case_decide; [done|by apply Hn].
Qed.

Lemma custody_aside x g t p w flight : custody x w flight -> holding x t = None -> p ≫= holds = None ->
  writer g = writer (gate x) -> (writer g <> None -> queued g = []) -> custody (put_thread x g t p) w flight.
Proof.
  unfold custody. cbn. intros Hc Ht Hp Hw Hq. rewrite Hw. rewrite Hw in Hq. destruct (writer (gate x)).
  - destruct Hc as (-> & -> & Hqx & Hn). split_and!; [done|done|by apply Hq|].
    intros t'. rewrite holding_put. by case_decide.
  - destruct Hc as (t0 & H0 & Hn). exists t0. split.
    + rewrite holding_put. case_decide as E; [subst; congruence|done].
    + intros t' Ht'. rewrite holding_put. case_decide; [done|by apply Hn].
Qed.

(** *** Every step keeps it *)

Lemma enqueue_ok start x t q : link_ok start x -> holding x t = None -> link_ok start (enqueue x t q).1.
Proof.
  intros (w & wr & fl & Hc & Hb) Ht. unfold enqueue, queue_. destruct (closed (gate x)) eqn:Ec; cbn.
  - exists w, wr, fl. split; [|cbn; by rewrite Ec]. apply custody_aside; [done..|].
    intros Hw. destruct (writer (gate x)) eqn:Ew; [|done]. by apply (custody_taken _ _ _ _ Hc) in Ew as (_ & _ & ? & _).
  - destruct (broke x) eqn:Eb; [destruct Hb; congruence|]. destruct Hb as [Ho Hd].
    destruct (writer (gate x)) as [w'|] eqn:Ew; cbn.
    + destruct (custody_taken _ _ _ _ Hc Ew) as (-> & -> & Hq & Hn). exists w, wr, []. split.
      * apply custody_hold; [done..|]. intros t' _. apply Hn.
      * cbn. rewrite Eb. split; [|done]. rewrite Ho, Hq. by rewrite !app_nil_r.
    + exists w, wr, fl. split.
      * apply (custody_aside (owing x q)); [done|done|done|by cbn; rewrite Ew|done].
      * cbn. rewrite Eb. split; [|done]. by rewrite Ho, <- !app_assoc.
Qed.

Lemma wrote_ok start x t w flight r : link_ok start x -> holding x t = Some (w, flight) ->
  hands (all_bytes_of flight) w r -> link_ok start (wrote x t r).1.
Proof.
  intros (w0 & wr & fl & Hc & Hb) Ht Hr. destruct (custody_held _ _ _ _ _ _ Hc Ht) as (Ew & <- & <- & Hn).
  unfold wrote. destruct r as [[u|e] w']; cbn in Hr |- *.
  - exists w', (wr ++ flight), []. split; [by apply custody_hold|]. cbn. destruct (broke x).
    + destruct Hb as (Hcl & Hq & -> & p & Hp & Hd). change (all_bytes_of []) with ([] : bytes) in Hr. rewrite app_nil_r in Hr.
      split_and!; [done..|]. exists p. split; [done|congruence].
    + destruct Hb as [Ho Hd]. rewrite all_bytes_app, app_assoc. split; [by rewrite <- app_assoc|].
      by rewrite Hr, Hd.
  - exists w', wr, []. split; [by apply custody_free|]. cbn. split_and!; [done..|].
    destruct Hr as (p & Hp & Hd'). destruct (broke x).
    + destruct Hb as (_ & _ & -> & p' & Hp' & Hd). apply prefix_nil_inv in Hp as ->. rewrite app_nil_r in Hd'.
      exists p'. split; [done|congruence].
    + destruct Hb as [Ho Hd]. exists (all_bytes_of wr ++ p). split; [|by rewrite Hd', Hd, app_assoc].
      rewrite Ho, !all_bytes_app. apply prefix_app. by apply prefix_app_r.
Qed.

Lemma guarded_batch w batch : hands (all_bytes_of batch) w (guarded (write_batch w [] batch)).
Proof. apply guarded_hands, (write_batch_delivers batch w []). Qed.

Lemma guarded_parts w call head tail :
  hands (all_bytes_of [MkQueued call head (Some (tail, O))]) w (guarded (write_frame_parts w head tail)).
Proof.
  apply guarded_hands. rewrite all_bytes_cons. unfold all_bytes_of, q_bytes. cbn. rewrite app_nil_r.
  apply write_frame_parts_delivers.
Qed.

Lemma thread_step_ok start x t p : link_ok start x -> threads x !! t = Some p -> link_ok start (thread_step x t p).1.
Proof.
  intros Hx Ht. assert (holding x t = holds p) as Hh by (unfold holding; by rewrite Ht).
  destruct p as [call frame|w call head tail|w|w|w batch]; cbn [thread_step].
  - by apply enqueue_ok.
  - eapply wrote_ok; [done|exact Hh|apply guarded_parts].
  - destruct Hx as (w0 & wr & fl & Hc & Hb). destruct (custody_held _ _ _ _ _ _ Hc Hh) as (Ew & <- & <- & Hn).
    exists (shutdown w), wr, []. cbn. rewrite shutdown_delivers. split; [|done]. by apply custody_hold.
  - destruct Hx as (w0 & wr & fl & Hc & Hb). destruct (custody_held _ _ _ _ _ _ Hc Hh) as (Ew & <- & <- & Hn).
    unfold drain_round. destruct (queued (gate x)) as [|q l] eqn:Eq; cbn.
    + exists w, wr, []. split; [by apply custody_free|]. cbn. done.
    + exists w, wr, (q :: l). split; [by apply custody_hold|]. cbn.
      destruct (broke x); [by destruct Hb as (_ & ? & _)|]. by rewrite app_nil_r.
  - eapply wrote_ok; [done|exact Hh|apply guarded_batch].
Qed.

(** A frame at a place of the queue is at its place in what is owed. *)
Lemma delete_suffix {A} (l l' : list A) i : delete (length l + i)%nat (l ++ l') = l ++ delete i l'.
Proof. induction l as [|x l IH]; [done|]. cbn. f_equal. exact IH. Qed.

Lemma delete_owed {A} (done flight queued : list A) i :
  delete (length (done ++ flight ++ queued) - length queued + i)%nat (done ++ flight ++ queued) =
    done ++ flight ++ delete i queued.
Proof.
  rewrite !app_assoc, <- delete_suffix. do 2 f_equal. rewrite !length_app. lia.
Qed.

Lemma link_step_ok start x e y a : link_ok start x -> link_step x e = Some (y, a) -> link_ok start y.
Proof.
  intros Hx He. destruct e as [t q|t call head tail|call|t| |t]; cbn [link_step] in He.
  - destruct (threads x !! t) eqn:Et; [done|]. pose proof (enqueue_ok start x t q Hx) as H.
    injection He as He. rewrite He in H. apply H. unfold holding. by rewrite Et.
  - destruct (threads x !! t) eqn:Et; [done|].
    assert (holding x t = None) as Ht by (unfold holding; by rewrite Et).
    destruct Hx as (w & wr & fl & Hc & Hb). unfold take_writer in He. destruct (closed (gate x)) eqn:Ec.
    { injection He as <- _. exists w, wr, fl. by rewrite Ec. }
    destruct (broke x) eqn:Eb; [by destruct Hb|]. destruct Hb as [Ho Hd].
    destruct (writer (gate x)) as [w'|] eqn:Ew; injection He as <- _.
    + destruct (custody_taken _ _ _ _ Hc Ew) as (-> & -> & Hq & Hn). exists w, wr, [MkQueued call head (Some (tail, O))].
      split; [apply custody_hold; [done..|intros t' _; apply Hn]|]. cbn. rewrite Eb, Ho, Hq. by rewrite !app_nil_r.
    + exists w, wr, fl. split; [by apply custody_aside|]. cbn. by rewrite Eb.
  - destruct Hx as (w & wr & fl & Hc & Hb). unfold retract in He.
    destruct (list_find _ (queued (gate x))) as [[i q]|] eqn:Ef; injection He as <- _.
    + pose proof Ef as (Hi & _)%list_find_Some. exists w, wr, fl. split.
      * unfold custody in *. cbn. destruct (writer (gate x)); [|done]. destruct Hc as (-> & -> & Hq & Hn).
        by rewrite Hq in Hi.
      * cbn. destruct (broke x); [destruct Hb as (_ & Hq & _); by rewrite Hq in Hi|].
        destruct Hb as [Ho Hd]. split; [|done]. rewrite Ho. apply lookup_lt_Some in Hi.
        apply delete_owed.
    + exists w, wr, fl. split; [exact Hc|]. destruct (broke x); [done|]. exact Hb.
  - destruct (threads x !! t) eqn:Et; [done|]. destruct Hx as (w & wr & fl & Hc & Hb).
    destruct (writer (gate x)) as [w'|] eqn:Ew; injection He as <- _.
    + destruct (custody_taken _ _ _ _ Hc Ew) as (-> & -> & Hq & Hn). exists w, wr, [].
      split; [apply custody_hold; [done..|intros t' _; apply Hn]|]. cbn. by rewrite Hq in *.
    + by exists w, wr, fl.
  - destruct Hx as (w & wr & fl & Hc & Hb). injection He as <- _. exists w, wr, fl. unfold custody in *. cbn.
    destruct (writer (gate x)) as [w'|].
    + destruct Hc as (-> & -> & Hq & Hn). rewrite Hq in *. split; [done|].
      destruct (broke x); [|done]. by destruct Hb as (_ & _ & ?).
    + split; [done|]. destruct (broke x); [|done]. by destruct Hb as (_ & ?).
  - destruct (threads x !! t) as [p|] eqn:Et; [|done]. cbn in He. injection He as He.
    pose proof (thread_step_ok start x t p Hx Et) as Hy. by rewrite He in Hy.
Qed.

Lemma reached_ok w x : reached (link_new w) x -> link_ok (delivered w) x.
Proof.
  intros Hr. remember (link_new w) as x0 eqn:E. induction Hr as [x|x y z e a _ IH Hs]; subst; [apply link_new_ok|].
  eapply link_step_ok; [by apply IH|done].
Qed.

(** ** Every thread leaves *)

(** How much a thread inside has to do, and how much there is to do in all. *)
Definition weight (p : Place) : nat :=
  match p with Copied _ _ => 7 | InParts _ _ _ _ | InWith _ | Writing _ _ => 2 | Draining _ => 1 end.
Definition inside (th : gmap nat Place) : nat := map_fold (λ _ p n, (weight p + n)%nat) O th.
Definition work (x : Link) : nat := (3 * length (queued (gate x)) + inside (threads x))%nat.

Lemma inside_delete th t p : th !! t = Some p -> inside th = (weight p + inside (delete t th))%nat.
Proof. intros Ht. apply (map_fold_delete_L (λ _ p n, (weight p + n)%nat) O t p th); [|done]. intros. lia. Qed.

Lemma inside_put th t p q : th !! t = Some p ->
  (inside (partial_alter (λ _, q) t th) + weight p = inside th + match q with Some q => weight q | None => 0 end)%nat.
Proof.
  intros Ht. rewrite (inside_delete th t p) by done. destruct q as [q|].
  - change (partial_alter (λ _, Some q) t th) with (<[t := q]> th).
    rewrite (inside_delete (<[t := q]> th) t q) by apply lookup_insert_eq. rewrite delete_insert_eq. lia.
  - change (partial_alter (λ _, None) t th) with (delete t th). lia.
Qed.

Lemma thread_step_work x t p : threads x !! t = Some p -> (work (thread_step x t p).1 < work x)%nat.
Proof.
  intros Ht. pose proof (λ q, inside_put (threads x) t p q Ht) as Hi. unfold work.
  assert (Hw : forall r, (1 < weight p)%nat -> (work (wrote x t r).1 < work x)%nat).
  { intros [[u|e] w] Hp; unfold work; cbn; [specialize (Hi (Some (Draining w)))|specialize (Hi None)]; cbn in Hi; lia. }
  destruct p as [call frame|w call head tail|w|w|w batch]; cbn [thread_step].
  - unfold enqueue, queue_. destruct (closed (gate x)); [specialize (Hi None); cbn in *; lia|].
    destruct (writer (gate x)) as [w|]; [specialize (Hi (Some (Draining w)))|specialize (Hi None)];
      cbn in *; rewrite length_app; cbn; lia.
  - apply Hw. cbn. lia.
  - specialize (Hi (Some (Draining (shutdown w)))). cbn in *. lia.
  - unfold drain_round. destruct (queued (gate x)) as [|q l]; cbn.
    + specialize (Hi None). cbn in *. lia.
    + specialize (Hi (Some (Writing w (q :: l)))). cbn in *. lia.
  - apply Hw. cbn. lia.
Qed.

(** Threads inside, stepping in some order. *)
Fixpoint run_threads (x : Link) (ts : list nat) : option Link :=
  match ts with
  | [] => Some x
  | t :: ts => y ← link_step x (Step t); run_threads y.1 ts
  end.

Lemma run_threads_work ts : forall x y, run_threads x ts = Some y -> (length ts + work y <= work x)%nat.
Proof.
  induction ts as [|t ts IH]; intros x y H; cbn [run_threads length] in *; [by injection H as <-|].
  cbn [link_step] in H. destruct (threads x !! t) as [p|] eqn:Et; [|done]. cbn in H.
  apply IH in H. pose proof (thread_step_work x t p Et). lia.
Qed.

Lemma run_threads_quiet n : forall x, (work x <= n)%nat ->
  exists ts y, run_threads x ts = Some y /\ threads y = ∅.
Proof.
  induction n as [|n IH]; intros x Hn; destruct (decide (threads x = ∅)) as [E|E]; try by exists [], x.
  all: apply map_choose in E as (t & p & Et); pose proof (thread_step_work x t p Et) as Hlt.
  - lia.
  - destruct (IH (thread_step x t p).1 ltac:(lia)) as (ts & y & Hr & Hy). exists (t :: ts), y.
    split; [|done]. cbn [run_threads link_step]. by rewrite Et.
Qed.

Lemma run_threads_reached ts : forall x0 x y, reached x0 x -> run_threads x ts = Some y -> reached x0 y.
Proof.
  induction ts as [|t ts IH]; intros x0 x y Hr H; cbn [run_threads] in H; [by injection H as <-|].
  destruct (link_step x (Step t)) as [[z a]|] eqn:Es; [|done]. cbn in H. eapply IH; [|done]. by eapply reached_step.
Qed.

(** ** What the gate promises *)

(** C12: no two threads ever hold the writer, whatever they do and however they
    interleave; when none does, the writer is in its place and nothing is left
    queued, so no frame waits for a thread that never comes. *)
Theorem one_thread_writes w x : reached (link_new w) x ->
  (forall t t' h h', holding x t = Some h -> holding x t' = Some h' -> t = t' /\ writer (gate x) = None) /\
  ((forall t, holding x t = None) -> is_Some (writer (gate x)) /\ queued (gate x) = []).
Proof.
  intros (w1 & wr & fl & Hc & _)%reached_ok. split.
  - intros t t' h [w' fl'] Ht Ht'. destruct (custody_held _ _ _ _ _ _ Hc Ht') as (Hw & _ & _ & Hn). split; [|done].
    destruct (decide (t = t')); [done|]. by rewrite Hn in Ht.
  - intros Hn. unfold custody in Hc. destruct (writer (gate x)); [by destruct Hc as (_ & _ & ? & _)|].
    destruct Hc as (t & Ht & _). by rewrite Hn in Ht.
Qed.

(** The transport holds what the gate took, in the order it took it, and
    nothing else. While the link works it holds all but what is being written and
    what is queued; once a write has failed, a prefix of it, and the gate is
    closed. *)
Theorem gate_keeps_order w x : reached (link_new w) x -> link_ok (delivered w) x.
Proof. apply reached_ok. Qed.

(** C11: no thread waits for another inside the gate, and all of them leave. Any
    thread inside can take its next step; however they are scheduled, they take at
    most [work x] steps between them; and when the last has left, the transport
    holds every frame taken, unless a write failed. *)
Theorem every_frame_is_delivered w x : reached (link_new w) x ->
  (forall t, is_Some (threads x !! t) -> is_Some (link_step x (Step t))) /\
  (forall ts y, run_threads x ts = Some y -> (length ts <= work x)%nat) /\
  exists ts y, run_threads x ts = Some y /\ threads y = ∅ /\
    (broke y = true \/ exists w', writer (gate y) = Some w' /\ delivered w' = delivered w ++ all_bytes_of (owed y)).
Proof.
  intros Hx. split_and!.
  - intros t [p Ht]. cbn. rewrite Ht. by eexists.
  - intros ts y Hr. apply run_threads_work in Hr. lia.
  - destruct (run_threads_quiet (work x) x ltac:(done)) as (ts & y & Hr & Hy). exists ts, y. split_and!; [done..|].
    pose proof (run_threads_reached ts _ _ _ Hx Hr) as Hry. destruct (reached_ok _ _ Hry) as (w1 & wr & fl & Hc & Hb).
    destruct (broke y); [by left|right]. unfold custody in Hc. destruct (writer (gate y)) as [w'|].
    + destruct Hc as (-> & -> & Hq & _). exists w1. split; [done|]. destruct Hb as [Ho Hd].
      rewrite Hd, Ho, Hq. by rewrite !app_nil_r.
    + destruct Hc as (t & Ht & _). unfold holding in Ht. by rewrite Hy, lookup_empty in Ht.
Qed.

(** A frame taken back never reaches the peer: it leaves what is owed, from
    among the frames not yet handed to the writer. A frame that is not taken back
    is not queued: it went out, is going out, or was dropped with the link. *)
Theorem retracted_is_not_sent w x call y b : reached (link_new w) x ->
  link_step x (Retract call) = Some (y, Retracted b) ->
  exists wr fl w', custody x w' fl /\
    if b then
      broke x = false /\ delivered w' = delivered w ++ all_bytes_of wr /\
      exists l1 q l2, q_call q = call /\ queued (gate x) = l1 ++ q :: l2 /\
        owed x = wr ++ fl ++ l1 ++ q :: l2 /\ owed y = wr ++ fl ++ l1 ++ l2 /\ queued (gate y) = l1 ++ l2
    else y = x /\ forall q, q ∈ queued (gate x) -> q_call q <> call.
Proof.
  intros (w1 & wr & fl & Hc & Hb)%reached_ok Hs. exists wr, fl, w1. split; [done|].
  cbn [link_step] in Hs. unfold retract in Hs.
  destruct (list_find (λ q, q_call q = call) (queued (gate x))) as [[i q]|] eqn:Ef; injection Hs as <- <-.
  - apply list_find_Some in Ef as (Hi & Hq & _). destruct (broke x).
    { destruct Hb as (_ & Hq' & _). by rewrite Hq' in Hi. }
    destruct Hb as [Ho Hd]. split_and!; [done..|]. pose proof (list_elem_of_split_length _ _ _ Hi) as (l1 & l2 & El & ->).
    exists l1, q, l2. split_and!; [done|done|by rewrite Ho, El| |].
    + cbn. rewrite Ho, delete_owed, El. by rewrite delete_middle.
    + cbn. by rewrite El, delete_middle.
  - split; [by destruct x as [[] ? ? ?]|]. intros q Hin. by eapply list_find_None, Forall_forall in Ef.
Qed.

(** Events, each of which can happen. *)
Fixpoint run_events (x : Link) (es : list Event) : option Link :=
  match es with
  | [] => Some x
  | e :: es => y ← link_step x e; run_events y.1 es
  end.

Lemma run_events_reached es : forall x0 x y, reached x0 x -> run_events x es = Some y -> reached x0 y.
Proof.
  induction es as [|e es IH]; intros x0 x y Hr H; cbn [run_events] in H; [by injection H as <-|].
  destruct (link_step x e) as [[z a]|] eqn:Es; [|done]. cbn in H. eapply IH; [|done]. by eapply reached_step.
Qed.
End gate.

(** Three threads on a stream that is interrupted, takes a byte, and flushes, twice,
    and then takes all: the first drains; the second queues a frame that is taken back, and copies
    another; the third has its parts queued. *)
Definition a_sink : Sink := MkSink [] [Interrupts; Takes 1; Takes 0; Interrupts; Takes 5].
Definition busy_events : list Event :=
  [Send 1 (MkQueued 1 (bs "a") None); Step 1; Send 2 (MkQueued 2 (bs "b") None);
   SendParts 2 4 (bs "d") (bs "D"); Send 3 (MkQueued 3 (bs "c") (Some (bs "..C", 2%nat)))].
Definition busy_link : option (Link (W:=Sink)) := run_events (link_new a_sink) busy_events.

Lemma busy_reached x : busy_link = Some x -> reached (link_new a_sink) x.
Proof. intros H. eapply run_events_reached; [apply reached_here|exact H]. Qed.

Lemma one_thread_writes_witness : exists x, busy_link = Some x /\ holding x 1 <> None /\ holding x 2 = None /\
  forall t t' h h', holding x t = Some h -> holding x t' = Some h' -> t = t' /\ writer (gate x) = None.
Proof.
  assert (is_Some busy_link) as [x Hx] by (vm_compute; by eexists). exists x. split; [done|].
  destruct (one_thread_writes a_sink x (busy_reached x Hx)) as [H _].
  vm_compute in Hx. injection Hx as <-. split; [vm_compute; discriminate|]. split; [vm_compute; reflexivity|exact H].
Defined.

Lemma gate_keeps_order_witness : exists x, busy_link = Some x /\ link_ok [] x.
Proof.
  assert (is_Some busy_link) as [x Hx] by (vm_compute; by eexists). exists x. split; [done|].
  exact (gate_keeps_order a_sink x (busy_reached x Hx)).
Defined.

Lemma every_frame_is_delivered_witness : exists x y, busy_link = Some x /\
  (forall ts y, run_threads x ts = Some y -> (length ts <= work x)%nat) /\
  run_threads x [1; 2; 1; 1; 1]%nat = Some y /\
  (taken <$> writer (gate y)) = Some (bs "abcCdD").
Proof.
  assert (is_Some busy_link) as [x Hx] by (vm_compute; by eexists).
  destruct (every_frame_is_delivered a_sink x (busy_reached x Hx)) as (_ & H & _).
  assert (exists y, run_threads x [1; 2; 1; 1; 1]%nat = Some y /\ taken <$> writer (gate y) = Some (bs "abcCdD"))
    as (y & Hy & Ht).
  { clear H. vm_compute in Hx. injection Hx as <-. vm_compute. eexists. split; reflexivity. }
  by exists x, y.
Defined.

Lemma retracted_is_not_sent_witness : exists x y, busy_link = Some x /\
  link_step x (Retract 2) = Some (y, Retracted true) /\ map q_call (owed x) = [1; 2; 3] /\ map q_call (owed y) = [1; 3].
Proof.
  assert (is_Some busy_link) as [x Hx] by (vm_compute; by eexists).
  assert (exists y, link_step x (Retract 2) = Some (y, Retracted true)) as [y Hy].
  { vm_compute in Hx. injection Hx as <-. vm_compute. by eexists. }
  destruct (retracted_is_not_sent a_sink x 2 y true (busy_reached x Hx) Hy) as (wr & fl & w & _ & _ & _ & H).
  exists x, y. split; [done|]. split; [done|]. clear H. vm_compute in Hx. injection Hx as <-.
  vm_compute in Hy. injection Hy as <-. split; vm_compute; reflexivity.
Defined.
