(* ===== verification/KeyTemplate.v ===== *)
(** * Names for what is loaded

    [library/key.rs]: the template a host names libraries and providers by, how it
    is parsed and what it renders. *)

From S2P Require Import Prelude Errors.

(** ** Templates *)

(** [Subject] and [Field], and [Field::parse]. *)
Inductive Subject : Type := OfLibrary | OfProvider.
Inductive KeyField : Type := Id | Name | Library | Version | Source.

#[export] Instance KeyField_eq_dec : EqDecision KeyField.
Proof. solve_decision. Defined.
#[export] Instance Subject_eq_dec : EqDecision Subject.
Proof. solve_decision. Defined.

Definition field_name (f : KeyField) : bytes :=
  match f with
  | Id => bs "id" | Name => bs "name" | Library => bs "library" | Version => bs "version" | Source => bs "source"
  end.
Definition key_field_allowed (subject : Subject) (f : KeyField) : bool :=
  match subject, f with
  | OfProvider, _ | OfLibrary, Id | OfLibrary, Version | OfLibrary, Source => true
  | OfLibrary, _ => false
  end.
Definition key_field_parse (name : bytes) (subject : Subject) : option KeyField :=
  f ← (if decide (name = bs "id") then Some Id
       else if decide (name = bs "name") then Some Name
       else if decide (name = bs "library") then Some Library
       else if decide (name = bs "version") then Some Version
       else if decide (name = bs "source") then Some Source
       else None);
  if key_field_allowed subject f then Some f else None.

(** [Part]. *)
Inductive KeyPart : Type := Text (t : bytes) | OfField (f : KeyField).

(** [KeyFields], [KeyFields::library] and [KeyFields::with_source]. *)
Record KeyFields := MkKeyFields { kf_id : bytes; kf_name : bytes; kf_library : bytes; kf_version : bytes; kf_source : bytes }.
Definition library_fields (id version : bytes) : KeyFields := MkKeyFields id [] id version [].
Definition with_source (k : KeyFields) (source : bytes) : KeyFields :=
  MkKeyFields (kf_id k) (kf_name k) (kf_library k) (kf_version k) source.

(** [KeyError]. *)
Inductive KeyError : Type :=
  | UnknownField (name : bytes) (subject : Subject)
  | DanglingPercent
  | NoFields
  | Collides (key : bytes).

(** [KeyTemplate]. *)
Record KeyTemplate := MkKeyTemplate { kt_subject : Subject; kt_source : bytes; kt_parts : list KeyPart }.

(** ** Parsing *)

Definition PERCENT : Z := 37.

(** [str::find] of a byte, as the text before it and the text after. *)
Fixpoint cut_at (c : Z) (l : bytes) : option (bytes * bytes) :=
  match l with
  | [] => None
  | x :: l => if x =? c then Some ([], l) else '(a, b) ← cut_at c l; Some (x :: a, b)
  end.

(** [str::strip_prefix] of a percent sign. *)
Definition strip_percent (l : bytes) : option bytes :=
  match l with c :: l => if c =? PERCENT then Some l else None | [] => None end.

(** A field's name is its lower-case letters and underscores. *)
Definition names (c : Z) : bool := is_lower c || (c =? 95).
Fixpoint name_of (l : bytes) : bytes * bytes :=
  match l with
  | [] => ([], [])
  | c :: l => if names c then let '(a, b) := name_of l in (c :: a, b) else ([], c :: l)
  end.

(** The text before a field, if there is any, is a part of its own. *)
Definition flush (text : bytes) (parts : list KeyPart) : list KeyPart :=
  match text with [] => parts | _ => parts ++ [Text text] end.

(** One round of [KeyTemplate::parse]: the parts, the text so far, the rest, and
    whether a field was named. *)
Definition ParseState : Type := list KeyPart * bytes * bytes * bool.
Definition parse_round (subject : Subject) (st : ParseState) : result (fault KeyError) (ParseState + list KeyPart) :=
  let '(parts, text, rest, named) := st in
  match cut_at PERCENT rest with
  | None =>
      let parts := flush (text ++ rest) parts in
      if named then Ok (inr parts) else Err (Refuse NoFields)
  | Some (before, rest) =>
      let text := text ++ before in
      match strip_percent rest with
      | Some after => Ok (inl (parts, text ++ [PERCENT], after, named))
      | None =>
          let '(name, rest) := name_of rest in
          match name with
          | [] => Err (Refuse DanglingPercent)
          | _ =>
              match key_field_parse name subject with
              | None => Err (Refuse (UnknownField name subject))
              | Some f => Ok (inl (flush text parts ++ [OfField f], [], rest, true))
              end
          end
      end
  end.
Definition template_parse (subject : Subject) (source : bytes) : result (fault KeyError) KeyTemplate :=
  parts ← loop (parse_round subject) (S (length source)) Panic ([], [], source, false);
  Ok (MkKeyTemplate subject source parts).

(** [KeyTemplate::default]; its [expect] is never reached. *)
Definition template_default : result (fault KeyError) KeyTemplate :=
  match template_parse OfProvider (bs "%id") with Ok t => Ok t | Err _ => Err Panic end.

(** ** Rendering *)

(** [KeyTemplate::render]. *)
Definition key_field_of (k : KeyFields) (f : KeyField) : bytes :=
  match f with
  | Id => kf_id k | Name => kf_name k | Library => kf_library k | Version => kf_version k | Source => kf_source k
  end.
Definition template_render (t : KeyTemplate) (k : KeyFields) : bytes :=
  foldl (λ out p, out ++ match p with Text s => s | OfField f => key_field_of k f end) [] (kt_parts t).

(** ** What a template is *)

(** A part as it is written. *)
Definition spell_byte (c : Z) : bytes := if c =? PERCENT then [PERCENT; PERCENT] else [c].
Definition spell_text (t : bytes) : bytes := concat (map spell_byte t).
Definition spell_part (p : KeyPart) : bytes :=
  match p with Text t => spell_text t | OfField f => PERCENT :: field_name f end.
Definition spell (parts : list KeyPart) : bytes := concat (map spell_part parts).

(** Parts that are told apart when written: no empty text, no two texts in a row,
    and no text that would run on a field's name. *)
Definition starts_apart (parts : list KeyPart) : bool :=
  match parts with Text (c :: _) :: _ => negb (names c) | _ => true end.
Fixpoint parts_ok (subject : Subject) (parts : list KeyPart) : bool :=
  match parts with
  | [] => true
  | Text t :: rest =>
      negb (bool_decide (t = [])) && match rest with Text _ :: _ => false | _ => true end && parts_ok subject rest
  | OfField f :: rest => key_field_allowed subject f && starts_apart rest && parts_ok subject rest
  end.
Definition names_a_field (parts : list KeyPart) : bool :=
  existsb (λ p, match p with OfField _ => true | Text _ => false end) parts.

(** ** The parser, a byte at a time *)

Section scan.
Variable subject : Subject.

Definition scan_end (parts : list KeyPart) (text : bytes) (named : bool) : result (fault KeyError) (list KeyPart) :=
  if named then Ok (flush text parts) else Err (Refuse NoFields).

Fixpoint scan (n : nat) (parts : list KeyPart) (text rest : bytes) (named : bool) : result (fault KeyError) (list KeyPart) :=
  match n with
  | O => Err Panic
  | S n =>
      match rest with
      | [] => scan_end parts text named
      | c :: rest =>
          if c =? PERCENT then
            match strip_percent rest with
            | Some after => scan n parts (text ++ [PERCENT]) after named
            | None =>
                match (name_of rest).1 with
                | [] => Err (Refuse DanglingPercent)
                | name =>
                    match key_field_parse name subject with
                    | None => Err (Refuse (UnknownField name subject))
                    | Some f => scan n (flush text parts ++ [OfField f]) [] (name_of rest).2 true
                    end
                end
            end
          else scan n parts (text ++ [c]) rest named
      end
  end.

Lemma name_of_app l : (name_of l).1 ++ (name_of l).2 = l.
Proof.
  induction l as [|c l IH]; [done|]. cbn. destruct (names c); [|done].
  destruct (name_of l) as [a b]. cbn in *. by rewrite IH.
Qed.

Lemma name_of_length l : (length (name_of l).2 <= length l)%nat.
Proof. rewrite <- (name_of_app l) at 2. rewrite length_app. lia. Qed.

Lemma name_of_rest l : match (name_of l).2 with c :: _ => names c = false | [] => True end.
Proof.
  induction l as [|c l IH]; [done|]. cbn. destruct (names c) eqn:E; [|done].
  destruct (name_of l) as [a b]. done.
Qed.

Lemma name_of_names l : Forall (λ c, names c = true) (name_of l).1.
Proof.
  induction l as [|c l IH]; [constructor|]. cbn. destruct (names c) eqn:E; [|constructor].
  destruct (name_of l) as [a b]. by constructor.
Qed.

Lemma strip_percent_Some l l' : strip_percent l = Some l' -> l = PERCENT :: l'.
Proof. destruct l as [|c l]; [done|]. cbn. destruct (Z.eqb_spec c PERCENT) as [->|]; [|done]. by intros [= <-]. Qed.

Lemma scan_fuel n : forall m parts text rest named, (length rest < n)%nat -> (length rest < m)%nat ->
  scan n parts text rest named = scan m parts text rest named.
Proof.
  induction n as [|n IH]; intros m parts text rest named Hn Hm; [lia|]. destruct m as [|m]; [lia|]. cbn [scan].
  destruct rest as [|c rest]; [done|]. cbn [length] in *. destruct (c =? PERCENT); [|apply IH; lia].
  pose proof (name_of_length rest) as Hl. destruct (strip_percent rest) as [after|] eqn:Es.
  - apply strip_percent_Some in Es as ->. cbn [length] in *. apply IH; lia.
  - destruct ((name_of rest).1) as [|x a]; [done|]. destruct (key_field_parse _ _); [|done]. apply IH; lia.
Qed.

Definition scan_all (parts : list KeyPart) (text rest : bytes) (named : bool) : result (fault KeyError) (list KeyPart) :=
  scan (S (length rest)) parts text rest named.

Lemma scan_plain parts text c rest named : c <> PERCENT ->
  scan_all parts text (c :: rest) named = scan_all parts (text ++ [c]) rest named.
Proof.
  intros Hc. unfold scan_all. cbn [length]. remember (S (length rest)) as n. cbn [scan].
  rewrite (proj2 (Z.eqb_neq _ _)) by done. done.
Qed.

Lemma scan_percent parts text after named :
  scan_all parts text (PERCENT :: PERCENT :: after) named = scan_all parts (text ++ [PERCENT]) after named.
Proof. unfold scan_all. etransitivity; [|apply (scan_fuel (S (S (length after)))); lia]. done. Qed.

Lemma scan_field parts text rest named : strip_percent rest = None ->
  scan_all parts text (PERCENT :: rest) named =
    match (name_of rest).1 with
    | [] => Err (Refuse DanglingPercent)
    | name =>
        match key_field_parse name subject with
        | None => Err (Refuse (UnknownField name subject))
        | Some f => scan_all (flush text parts ++ [OfField f]) [] (name_of rest).2 true
        end
    end.
Proof.
  intros Hr. unfold scan_all. pose proof (name_of_length rest) as Hl. cbn [length]. remember (S (length rest)) as n.
  cbn [scan]. rewrite Z.eqb_refl, Hr. destruct ((name_of rest).1); [done|].
  destruct (key_field_parse _ _); [|done]. apply (scan_fuel n (S (length (name_of rest).2))); lia.
Qed.

(** The parser's loop is the scan. *)
Lemma cut_at_scan rest : forall parts text named,
  match cut_at PERCENT rest with
  | None => scan_all parts text rest named = scan_end parts (text ++ rest) named
  | Some (before, after) =>
      scan_all parts text rest named = scan_all parts (text ++ before) (PERCENT :: after) named /\
      (length after < length rest)%nat
  end.
Proof.
  induction rest as [|c rest IH]; intros parts text named; cbn [cut_at]; [by rewrite app_nil_r|].
  destruct (Z.eqb_spec c PERCENT) as [->|Hc]; [rewrite app_nil_r; split; [done|simpl; lia]|].
  specialize (IH parts (text ++ [c]) named). rewrite scan_plain by done.
  destruct (cut_at PERCENT rest) as [[a b]|]; cbn; rewrite <- app_assoc in IH; [|done].
  split; [apply IH|]. destruct IH. simpl. lia.
Qed.

Lemma parse_loop_scan source : template_parse subject source =
  (parts ← scan_all [] [] source false; Ok (MkKeyTemplate subject source parts)).
Proof.
  unfold template_parse.
  assert (loop (parse_round subject) (S (length source)) Panic ([], [], source, false) = scan_all [] [] source false) as ->; [|done].
  refine (loop_den _ (λ _, True) (λ st, length st.1.2) (λ st, scan_all st.1.1.1 st.1.1.2 st.1.2 st.2) _ _ _ _ _ _);
    [|done|cbn; lia].
  intros [[[parts text] rest] named] _. cbn [fst snd parse_round].
  pose proof (cut_at_scan rest parts text named) as Hc. destruct (cut_at PERCENT rest) as [[before after]|].
  - destruct Hc as [-> Hl]. destruct (strip_percent after) as [after'|] eqn:Es.
    + apply strip_percent_Some in Es as ->. rewrite scan_percent. cbn in *. split_and!; [done|lia|done].
    + rewrite scan_field by done. pose proof (name_of_length after) as Hn.
      destruct (name_of after) as [name rest']. cbn [fst snd] in *.
      destruct name as [|x name]; [done|]. destruct (key_field_parse _ _); [|done]. cbn. split_and!; [done|lia|done].
  - rewrite Hc. unfold scan_end. by destruct named.
Qed.

(** *** What is written is read *)

Lemma key_field_parse_name f : key_field_allowed subject f = true -> key_field_parse (field_name f) subject = Some f.
Proof. intros H. destruct f, subject; try done; vm_compute; done. Qed.

Lemma key_field_parse_Some name f : key_field_parse name subject = Some f ->
  name = field_name f /\ key_field_allowed subject f = true.
Proof.
  unfold key_field_parse. intros (g & Hg & H)%bind_Some. destruct (key_field_allowed subject g) eqn:E; [|done].
  injection H as <-. split; [|done]. by repeat case_decide; simplify_eq.
Qed.

Lemma name_of_field f rest : match rest with c :: _ => names c = false | [] => True end ->
  name_of (field_name f ++ rest) = (field_name f, rest).
Proof.
  intros Hr. assert (name_of rest = ([], rest)) as E by (destruct rest as [|c rest]; [done|cbn; by rewrite Hr]).
  assert (forall l, forallb names l = true -> name_of (l ++ rest) = (l, rest)) as H.
  { induction l as [|c l IH]; [done|]. cbn. intros [Hc Hl]%andb_true_iff. by rewrite Hc, IH. }
  apply H. by destruct f.
Qed.

Lemma scan_spelled t : forall parts text rest named,
  scan_all parts text (spell_text t ++ rest) named = scan_all parts (text ++ t) rest named.
Proof.
  unfold spell_text. induction t as [|c t IH]; intros parts text rest named; cbn [map concat]; [by rewrite app_nil_r|].
  rewrite <- app_assoc. unfold spell_byte. destruct (Z.eqb_spec c PERCENT) as [->|Hc]; cbn [app].
  - by rewrite scan_percent, IH, <- app_assoc.
  - by rewrite scan_plain, IH, <- app_assoc.
Qed.

Lemma spelled_apart parts : parts_ok subject parts = true -> starts_apart parts = true ->
  match spell parts with c :: _ => names c = false | [] => True end.
Proof.
  destruct parts as [|[[|c t]|f] parts]; [done|done| |done]. intros _ Hc%negb_true_iff.
  cbn. unfold spell_byte. by destruct (Z.eqb_spec c PERCENT) as [->|].
Qed.

(** Parts read back, after the parts and the text before them. *)
Lemma scan_parts l : parts_ok subject l = true -> forall parts text named,
  (text = [] \/ match l with Text _ :: _ => False | _ => True end) ->
  scan_all parts text (spell l) named =
    if named || names_a_field l then Ok (flush text parts ++ l) else Err (Refuse NoFields).
Proof.
  induction l as [|[t|f] l IH]; intros Hl parts text named Ht.
  - rewrite app_nil_r, orb_false_r. done.
  - destruct Ht as [->|[]]. cbn [parts_ok] in Hl. apply andb_true_iff in Hl as [[Hne Hn]%andb_true_iff Hl].
    apply negb_true_iff, bool_decide_eq_false in Hne. change (spell (Text t :: l)) with (spell_text t ++ spell l).
    rewrite scan_spelled. cbn [app]. rewrite IH; [|done|right; by destruct l as [|[]]].
    cbn [names_a_field existsb orb]. fold (names_a_field l). destruct (named || names_a_field l); [|done].
    destruct t as [|c t]; [done|]. cbn. by rewrite <- app_assoc.
  - cbn [parts_ok] in Hl. apply andb_true_iff in Hl as [[Hf Ha]%andb_true_iff Hl].
    change (spell (OfField f :: l)) with (PERCENT :: field_name f ++ spell l).
    rewrite scan_field by by destruct f. rewrite name_of_field by by apply spelled_apart. cbn [fst snd].
    pose proof (key_field_parse_name f Hf) as Hk.
    destruct (field_name f) as [|z name] eqn:En; [by destruct f|]. rewrite Hk.
    rewrite IH by (done || by left). rewrite orb_true_r. cbn. by rewrite <- app_assoc.
Qed.

(** *** What is read is what was written *)

Lemma spell_app l l' : spell (l ++ l') = spell l ++ spell l'.
Proof. unfold spell. by rewrite map_app, concat_app. Qed.

Lemma spell_text_app t t' : spell_text (t ++ t') = spell_text t ++ spell_text t'.
Proof. unfold spell_text. by rewrite map_app, concat_app. Qed.

Lemma spell_flush text parts : spell (flush text parts) = spell parts ++ spell_text text.
Proof. destruct text as [|c t]; cbn [flush]; [by rewrite app_nil_r|]. rewrite spell_app. unfold spell at 2. cbn. by rewrite app_nil_r. Qed.

(** Parts that end in a field, or are none. *)
Definition ends_field (parts : list KeyPart) : Prop := match last parts with Some (Text _) => False | _ => True end.

Lemma parts_ok_field parts f : parts_ok subject (parts ++ [OfField f]) = parts_ok subject parts && key_field_allowed subject f.
Proof.
  induction parts as [|[t|g] parts IH]; cbn [app parts_ok]; [by rewrite !andb_true_r| |].
  - rewrite IH. by destruct parts as [|[] parts]; cbn; destruct (negb _), (parts_ok _ _), (key_field_allowed _ _).
  - rewrite IH. assert (starts_apart (parts ++ [OfField f]) = starts_apart parts) as -> by by destruct parts.
    by destruct (key_field_allowed subject g), (starts_apart parts).
Qed.

Lemma parts_ok_text parts c t : ends_field parts -> parts_ok subject parts = true ->
  (parts <> [] -> names c = false) -> parts_ok subject (parts ++ [Text (c :: t)]) = true.
Proof.
  induction parts as [|p parts IH]; [done|]. intros He Hp Hc. specialize (Hc ltac:(done)).
  assert (ends_field parts) as He' by (destruct parts; [done|exact He]).
  cbn [app parts_ok] in *. destruct p as [t0|f].
  - apply andb_true_iff in Hp as [[-> Hn]%andb_true_iff Hp]. destruct parts as [|[] parts]; [done|done|].
    cbn [app]. apply (IH He' Hp). done.
  - apply andb_true_iff in Hp as [[-> Ha]%andb_true_iff Hp]. destruct parts as [|q parts]; [cbn; by rewrite Hc|].
    rewrite (IH He' Hp) by done. destruct q as [[|c1 t1]|g]; [done| |done]. cbn in Ha |- *. by rewrite Ha.
Qed.

Lemma names_snoc parts f : names_a_field (parts ++ [OfField f]) = true.
Proof. unfold names_a_field. rewrite existsb_app. cbn. by rewrite orb_true_r. Qed.

Lemma names_text parts t : names_a_field (parts ++ [Text t]) = names_a_field parts.
Proof. unfold names_a_field. rewrite existsb_app. cbn. by rewrite orb_false_r. Qed.

(** What the scan has read so far. *)
Definition scanned (parts : list KeyPart) (text rest : bytes) (named : bool) : Prop :=
  ends_field parts /\ parts_ok subject parts = true /\ named = names_a_field parts /\
  (parts <> [] -> match text ++ rest with c :: _ => names c = false | [] => True end).

Lemma scan_sound n : forall parts text rest named l, (length rest <= n)%nat -> scanned parts text rest named ->
  scan_all parts text rest named = Ok l ->
  spell l = spell parts ++ spell_text text ++ rest /\ parts_ok subject l = true /\ names_a_field l = true.
Proof.
  induction n as [|n IH]; intros parts text rest named l Hn (He & Hp & Hnm & Ha) H.
  all: destruct rest as [|c rest]; [|cbn [length] in Hn; try lia].
  1, 2: unfold scan_all, scan_end in H; cbn in H; unfold scan_end in H; destruct named; [|done]; injection H as <-;
    rewrite spell_flush, !app_nil_r in *; split; [done|];
    destruct text as [|c t]; [done|]; cbn [flush]; rewrite names_text; split; [|done];
    apply parts_ok_text; [done..|]; intros Hne; by specialize (Ha Hne).
  destruct (decide (c = PERCENT)) as [->|Hc].
  - destruct (strip_percent rest) as [after|] eqn:Es.
    + apply strip_percent_Some in Es as ->. rewrite scan_percent in H. cbn [length] in Hn.
      apply IH in H as (Hs & H2); [|lia|].
      * split; [|done]. by rewrite Hs, spell_text_app, <- app_assoc.
      * split_and!; [done..|]. intros Hne. specialize (Ha Hne). by destruct text.
    + rewrite scan_field in H by done. pose proof (name_of_length rest). pose proof (name_of_app rest) as En.
      pose proof (name_of_rest rest) as Hr. destruct (name_of rest) as [name rest']. cbn [fst snd] in *.
      destruct name as [|x name]; [done|]. destruct (key_field_parse _ _) as [f|] eqn:Ef; [|done].
      apply key_field_parse_Some in Ef as [Ef Hf].
      assert (parts_ok subject (flush text parts) = true) as Hpf.
      { destruct text as [|c t]; [done|]. apply parts_ok_text; [done..|]. intros Hne. by specialize (Ha Hne). }
      apply IH in H as (Hs & H2); [|lia|].
      * split; [|done]. rewrite Hs, spell_app, spell_flush, <- En, Ef. cbn. by rewrite app_nil_r, <- !app_assoc.
      * split_and!; [unfold ends_field; by rewrite last_snoc|by rewrite parts_ok_field, Hpf|by rewrite names_snoc|done].
  - rewrite scan_plain in H by done. apply IH in H as (Hs & H2); [|lia|].
    + split; [|done]. rewrite Hs, spell_text_app, <- app_assoc. unfold spell_text at 2. cbn.
      unfold spell_byte. by rewrite (proj2 (Z.eqb_neq _ _)).
    + split_and!; [done..|]. intros Hne. specialize (Ha Hne). by rewrite <- app_assoc.
Qed.

Lemma scan_total rest : forall parts text named, match scan_all parts text rest named with
  | Ok _ => True | Err f => exists e, f = Refuse e end.
Proof.
  remember (length rest) as n eqn:En. assert (length rest <= n)%nat as Hn by lia. clear En. revert rest Hn.
  induction n as [|n IH]; intros rest Hn parts text named; (destruct rest as [|c rest]; [|cbn [length] in Hn; try lia]).
  1, 2: unfold scan_all, scan_end; cbn; unfold scan_end; destruct named; [done|by eexists].
  destruct (decide (c = PERCENT)) as [->|Hc]; [|rewrite scan_plain by done; apply IH; lia].
  destruct (strip_percent rest) as [after|] eqn:Es.
  - apply strip_percent_Some in Es as ->. rewrite scan_percent. apply IH. cbn in Hn. lia.
  - rewrite scan_field by done. pose proof (name_of_length rest). destruct ((name_of rest).1) as [|z l]; [by eexists|].
    cbv zeta. destruct (key_field_parse (z :: l) subject); [exact (IH (name_of rest).2 ltac:(lia) _ _ _)|by eexists].
Qed.
End scan.

(** ** Templates and their text, one to one *)

(** A template is read from its text exactly as it is spelled: the text of
    parts that stand apart and name a field is read back as those parts, and a text
    is read only as parts that spell it. Reading always ends, with a template or a
    refusal. *)
Theorem template_text_exact (subject : Subject) (source : bytes) (parts : list KeyPart) :
  (template_parse subject source = Ok (MkKeyTemplate subject source parts) <->
     spell parts = source /\ parts_ok subject parts = true /\ names_a_field parts = true) /\
  match template_parse subject source with
  | Ok t => kt_subject t = subject /\ kt_source t = source
  | Err f => exists e, f = Refuse e
  end.
Proof.
  rewrite parse_loop_scan. split.
  - split.
    + destruct (scan_all subject [] [] source false) as [l|] eqn:E; [|done]. intros [= ->].
      apply (scan_sound subject (length source)) in E as (Hs & Hp & Hn); [|lia|done].
      by rewrite Hs.
    + intros (<- & Hp & Hn). rewrite scan_parts by (done || by left). by rewrite Hn.
  - pose proof (scan_total subject source [] [] false) as H.
    destruct (scan_all subject [] [] source false); [done|exact H].
Qed.

(** The key a template gives is its texts and the fields it names, in order;
    the default gives a provider's id, and two libraries with one id have one key
    under it, whatever their versions, while [%id@%version] tells them apart
    wherever the id holds no [@]. *)
Theorem keys_of_templates :
  (exists t, template_default = Ok t /\ forall k, template_render t k = kf_id k) /\
  exists t, template_parse OfLibrary (bs "%id@%version") = Ok t /\
    forall i v i' v', (64 ∉ i) -> (64 ∉ i') ->
      template_render t (library_fields i v) = template_render t (library_fields i' v') -> i = i' /\ v = v'.
Proof.
  split; [eexists; split; [vm_compute; reflexivity|done]|]. eexists. split; [vm_compute; reflexivity|].
  intros i v i' v' Hi Hi'. unfold template_render. cbn. rewrite <- !app_assoc. cbn.
  revert i' Hi'. induction i as [|c i IH]; intros [|c' i'] Hi' H; cbn in H; simplify_eq/=.
  - done.
  - by destruct Hi'; left.
  - by destruct Hi; left.
  - destruct (IH ltac:(set_solver) i' ltac:(set_solver)) as [-> ->]; done.
Qed.
