(* ===== verification/InlineRefs.v ===== *)
(** * References inlined

    [schema/refs.rs]: a copy of a schema with its local references replaced by the
    schemas they name, within a budget. [room] is how many levels are left, as in
    validation. *)

From S2P Require Import Prelude Errors SchemaErrors Number Value Keys Maps Encode Decode Walk.
From S2P Require Import JsonNumber Float64 Vocab SchemaRead.

(** ** References *)

(** [DEFINITIONS], [POINTER_PREFIXES], [DATA_KEYWORDS] and [NAME_MAPS]. *)
Definition DEFINITIONS : bytes := bs "definitions".
Definition POINTER_PREFIXES : list (bytes * bytes) := [(bs "#/$defs/", DEFS); (bs "#/definitions/", DEFINITIONS)].
Definition DATA_KEYWORDS : list bytes := [DEFAULT; CONST; EXAMPLES; ENUM].
Definition NAME_MAPS : list bytes := [PROPERTIES; DEFS; DEFINITIONS; bs "patternProperties"; bs "dependentSchemas"].

(** [BUDGET_FACTOR] and [BUDGET_FLOOR]. *)
Definition BUDGET_FACTOR : Z := 32.
Definition BUDGET_FLOOR : Z := 256 * 1024.

(** [usize::saturating_add] and [usize::saturating_mul]. *)
Definition sat_add (a b : Z) : Z := Z.min (a + b) usize_max.
Definition sat_mul (a b : Z) : Z := Z.min (a * b) usize_max.

(** [str::replace] of two bytes by one. *)
Fixpoint replace_pair (a b c : Z) (l : bytes) : bytes :=
  match l with
  | x :: (y :: l) as tail => if (x =? a) && (y =? b) then c :: replace_pair a b c l else x :: replace_pair a b c tail
  | l => l
  end.

(** JSON Pointer's two escapes, [~1] before [~0]. *)
Definition unescape (l : bytes) : bytes := replace_pair 126 48 126 (replace_pair 126 49 47 l).

(** [is_definitions]. *)
Definition is_definitions (key : bytes) : bool := bool_decide (key = DEFS) || bool_decide (key = DEFINITIONS).

(** ** What copying costs *)

(** One round of [size]: the total, and the stack, whose end is in front. *)
Definition size_round (st : Z * list Value) : result (fault ValueError) ((Z * list Value) + Z) :=
  match st with
  | (total, []) => Ok (inr total)
  | (total, v :: stack) =>
      let total := sat_add total 1 in
      match as_map v, as_list v, as_text v, as_number v, v with
      | Some m, _, _, _, _ =>
          Ok (inl (foldl (λ '(total, stack) e, (sat_add total (len_of e.1), e.2 :: stack)) (total, stack) m))
      | _, Some l, _, _, _ => Ok (inl (total, rev l ++ stack))
      | _, _, Some t, _, _ | _, _, _, Some t, _ => Ok (inl (sat_add total (len_of t), stack))
      | _, _, _, _, VBytes b => Ok (inl (sat_add total (len_of b), stack))
      | _, _, _, _, _ => Ok (inl (total, stack))
      end
  end.
Definition size (v : Value) : result (fault ValueError) Z := loop size_round (S (vsize v)) Panic (0, [v]).

(** ** The inliner *)

(** [Inliner], less the document and the budget, which it never changes. *)
Record Inliner := MkInliner { active : gset bytes; sizes : gmap bytes Z; spent : Z }.

Abbreviation inlining A := (Inliner -> result (fault ValueError) (A * Inliner)) (only parsing).

Section inliner.
Variable root : option Map.
Variable fuel : nat.
Variable budget : Z.

(** [Inliner::target]. *)
Fixpoint target_in (prefixes : list (bytes * bytes)) (active : gset bytes) (reference : bytes) : option (bytes * Value) :=
  match prefixes with
  | [] => None
  | (prefix, key) :: prefixes =>
      match strip_of prefix reference with
      | None => target_in prefixes active reference
      | Some escaped =>
          let name := unescape escaped in
          if bool_decide (name ∈ active) then None
          else
            r ← root; definitions ← (get r key ≫= as_map); found ← get definitions name; Some (name, found)
      end
  end.
Definition target (active : gset bytes) (m : Map) : option (bytes * Value) :=
  reference ← (get m REF ≫= as_text); target_in POINTER_PREFIXES active reference.

(** [Inliner::affords] and [Inliner::charge]. *)
Definition affords (name : bytes) (definition : Value) : inlining bool := λ s,
  cost ← match sizes s !! name with Some n => Ok n | None => size definition end;
  Ok (sat_add (spent s) cost <=? budget, MkInliner (active s) (<[name := cost]> (sizes s)) (spent s)).
Definition charge (units : Z) (s : Inliner) : Inliner := MkInliner (active s) (sizes s) (sat_add (spent s) units).

(** [Inliner::data]. *)
Definition data (v : Value) : inlining Value := λ s,
  n ← size v; w ← copy_value v; Ok (w, charge n s).

(** One hop of the chain of references [Inliner::schema] follows: where it stands,
    the maps that referred and the names followed, the first in front. *)
Definition Chain : Type := Value * list Map * list bytes * Inliner.
Definition hop (c : Chain) : result (fault ValueError) (Chain + Chain) :=
  let '(current, referrers, followed, s) := c in
  match as_map current with
  | None => Ok (inr c)
  | Some m =>
      match target (active s) m with
      | None => Ok (inr c)
      | Some (name, definition) =>
          '(ok, s) ← affords name definition s;
          if ok : bool then
            Ok (inl (definition, referrers ++ [m], followed ++ [name],
                     MkInliner ({[name]} ∪ active s) (sizes s) (spent s)))
          else Ok (inr (current, referrers, followed, s))
      end
  end.

Section entries.
(** [Inliner::schema] one and two levels down, when there are that many. *)
Variable deeper : option ((Value -> inlining Value) * (Value -> inlining Value)).

(** The values of a map of names, and of a list, each as a schema. *)
Definition named_schemas (schema : Value -> inlining Value) (m : Map) : inlining Map := λ s,
  try_fold (λ '(out, s) e, '(child, s) ← schema e.2 (charge (len_of e.1) s); Ok (set_ out e.1 child, s)) ([], s) m.
Definition listed_schemas (schema : Value -> inlining Value) (l : list Value) : inlining (list Value) := λ s,
  try_fold (λ '(out, s) x, '(child, s) ← schema x s; Ok (out ++ [child], s)) ([], s) l.

(** [Inliner::entry]. *)
Definition entry (key : bytes) (v : Value) : inlining Value := λ s,
  if bool_decide (key ∈ DATA_KEYWORDS) then data v s
  else
    match deeper with
    | None => Err (Refuse TooDeep)
    | Some (one, two) =>
        match (if bool_decide (key ∈ NAME_MAPS) then as_map v else None), as_list v with
        | Some m, _ => '(out, s) ← named_schemas two m (charge 1 s); Ok (VMap out, s)
        | None, Some l => '(out, s) ← listed_schemas two l (charge 1 s); Ok (VList out, s)
        | None, None => one v s
        end
    end.

(** [Inliner::object]. *)
Definition object (m : Map) (is_root : bool) : inlining Value := λ s,
  '(out, s) ← try_fold (λ '(out, s) e,
      if is_root && is_definitions e.1 then Ok (out, s)
      else '(child, s) ← entry e.1 e.2 (charge (len_of e.1) s); Ok (set_ out e.1 child, s)) ([], charge 1 s) m;
  Ok (VMap out, s).

(** What sits beside one reference, laid over what it named, if that is a map. *)
Definition laid (out : Value) (key : bytes) (child : Value) : Value :=
  match as_map out with Some m => VMap (set_ m key child) | None => out end.
Definition lay_over (skip_definitions : bool) (referrer : Map) (out : Value) : inlining Value := λ s,
  try_fold (λ '(out, s) e,
      if bool_decide (e.1 = REF) || (skip_definitions && is_definitions e.1) then Ok (out, s)
      else
        '(child, s) ← entry e.1 e.2 s;
        Ok (laid out e.1 child, s)) (out, s) referrer.

(** [Inliner::expand]: the last referrer first. *)
Fixpoint lay_all (is_root : bool) (referrers : list Map) (out : Value) : inlining Value := λ s,
  match referrers with
  | [] => Ok (out, s)
  | m :: referrers => '(out, s) ← lay_all false referrers out s; lay_over is_root m out s
  end.
Definition expand (current : Value) (referrers : list Map) (is_root : bool) : inlining Value := λ s,
  '(out, s) ← match as_map current with
             | Some m => object m (is_root && match referrers with [] => true | _ => false end) s
             | None => data current s
             end;
  match as_map out with
  | None => Ok (out, s)
  | Some _ => lay_all is_root referrers out s
  end.
End entries.

(** [Inliner::schema]. *)
Fixpoint inline_schema (room : nat) (v : Value) (is_root : bool) (s : Inliner) : result (fault ValueError) (Value * Inliner) :=
  match room with
  | O => Err (Refuse TooDeep)
  | S below =>
      '(current, referrers, followed, s) ← loop hop fuel Panic (v, [], [], s);
      let deeper := match below with
                    | O => None
                    | S below' => Some (λ v, inline_schema below v false, λ v, inline_schema below' v false)
                    end in
      '(out, s) ← expand deeper current referrers is_root s;
      Ok (out, MkInliner (active s ∖ list_to_set followed) (sizes s) (spent s))
  end.
End inliner.

(** How much may be copied, from the document's own size. *)
Definition budget_of (n : Z) : Z := sat_add (sat_mul n BUDGET_FACTOR) BUDGET_FLOOR.

(** [inline_refs_in], the levels a document may nest an argument, and
    [inline_refs]. *)
Definition inline_refs_in (room : nat) (schema : Value) : result (fault ValueError) Value :=
  n ← size schema;
  '(out, _) ← inline_schema (as_map schema) (2 + 2 * vsize schema) (budget_of n) room schema true (MkInliner ∅ ∅ 0);
  Ok out.
Definition inline_refs (schema : Value) : result (fault ValueError) Value := inline_refs_in MAX_DEPTH schema.

(** ** What inlining may do *)

Section spec.
Variable root : option Map.
Variable budget : Z.

(** The document defines a name, under either spelling. *)
Definition Defines (name : bytes) (d : Value) : Prop :=
  exists r key m, root = Some r /\ key ∈ [DEFS; DEFINITIONS] /\ get r key = Some (VMap m) /\ get m name = Some d.

(** A chain of references, each to a definition that is not being expanded: the
    maps that refer, and at its end what is being expanded and the schema it came
    to. *)
Inductive Chained : gset bytes -> Value -> list Map -> gset bytes -> Value -> Prop :=
  | chain_end act v : Chained act v [] act v
  | chain_ref act v m name d ms act' w : as_map v = Some m -> target root act m = Some (name, d) ->
      Chained ({[name]} ∪ act) d ms act' w -> Chained act v (m :: ms) act' w.

(** With [total] copied, a chain may stop: its end refers to nothing that can be
    expanded, or to a name a definition of which is past the budget. *)
Definition Stops (total : Z) (act : gset bytes) (w : Value) : Prop :=
  forall m name d, as_map w = Some m -> target root act m = Some (name, d) ->
  exists d' n, Defines name d' /\ size d' = Ok n /\ budget < sat_add total n.

Variable total : Z.

(** A schema with its references replaced, and no other change: every chain is
    followed to where it may stop, what it comes to is copied entry by entry (what
    is under a keyword that holds data as it was, a map of names and a list with the
    same names and places), and what sits beside each reference is laid over that,
    the first referrer last. *)
Inductive Expands : gset bytes -> Value -> Value -> Prop :=
  | expands_chain act v ms act' w out0 out : Chained act v ms act' w -> Stops total act' w -> Body act' w out0 ->
      Overlays act' ms out0 out -> Expands act v out
with Body : gset bytes -> Value -> Value -> Prop :=
  | body_leaf act v : as_map v = None -> Body act v v
  | body_map act m m' : Forall2 (λ e e', e.1 = e'.1 /\ EntryExpands act e.1 e.2 e'.2) m m' -> Body act (VMap m) (VMap m')
with EntryExpands : gset bytes -> bytes -> Value -> Value -> Prop :=
  | entry_data act key v : key ∈ DATA_KEYWORDS -> EntryExpands act key v v
  | entry_names act key m m' : key ∉ DATA_KEYWORDS -> key ∈ NAME_MAPS ->
      Forall2 (λ e e', e.1 = e'.1 /\ Expands act e.2 e'.2) m m' -> EntryExpands act key (VMap m) (VMap m')
  | entry_list act key l l' : key ∉ DATA_KEYWORDS -> Forall2 (Expands act) l l' -> EntryExpands act key (VList l) (VList l')
  | entry_schema act key v w : key ∉ DATA_KEYWORDS -> (key ∈ NAME_MAPS -> as_map v = None) -> as_list v = None ->
      Expands act v w -> EntryExpands act key v w
with Overlays : gset bytes -> list Map -> Value -> Value -> Prop :=
  | overlays_leaf act ms out : as_map out = None -> Overlays act ms out out
  | overlays_end act out : Overlays act [] out out
  | overlays_one act m ms out0 out1 out : Overlays act ms out0 out1 -> Overlay act m out1 out ->
      Overlays act (m :: ms) out0 out
with Overlay : gset bytes -> Map -> Value -> Value -> Prop :=
  | overlay_end act out : Overlay act [] out out
  | overlay_ref act e m out out' : e.1 = REF -> Overlay act m out out' -> Overlay act (e :: m) out out'
  | overlay_lay act e m child out out' : e.1 <> REF -> EntryExpands act e.1 e.2 child ->
      Overlay act m (laid out e.1 child) out' -> Overlay act (e :: m) out out'.
End spec.

(** A document without its definitions. *)
Definition undefined (m : Map) : Map := filter (λ e, is_definitions e.1 = false) m.
Definition without_definitions (v : Value) : Value :=
  match as_map v with Some m => VMap (undefined m) | None => v end.

(** ** Every size is found *)

Lemma pushed_size (m : Map) : forall total stack,
  items_size (foldl (λ '(total, stack) (e : bytes * Value), (sat_add total (len_of e.1), e.2 :: stack)) (total, stack) m).2 =
    (items_size (map snd m) + items_size stack)%nat.
Proof.
  induction m as [|e m IH]; intros total stack; [done|]. cbn [foldl map]. rewrite IH. unfold items_size. cbn. lia.
Qed.

Lemma pushed_total (m : Map) : forall total stack, 0 <= total ->
  0 <= (foldl (λ '(total, stack) (e : bytes * Value), (sat_add total (len_of e.1), e.2 :: stack)) (total, stack) m).1.
Proof.
  induction m as [|e m IH]; intros total stack H; [done|]. cbn [foldl]. apply IH. unfold sat_add, len_of, usize_max, u64_max. lia.
Qed.

Lemma size_loop f : forall st, (items_size st.2 < f)%nat -> 0 <= st.1 ->
  exists n, loop size_round f Panic st = Ok n /\ 0 <= n.
Proof.
  induction f as [|f IH]; intros [total stack] Hf Ht; [lia|]. destruct stack as [|v stack]; [by eexists|].
  cbn [fst snd] in Hf, Ht. assert (items_size (v :: stack) = vsize v + items_size stack)%nat as E by done. rewrite E in Hf.
  pose proof (vsize_pos v) as Hv. cbn [loop size_round].
  assert (forall n, 0 <= n -> 0 <= sat_add total n) as Hs by (intros; unfold sat_add, usize_max, u64_max; lia).
  assert (forall n (t : bytes), 0 <= n -> 0 <= sat_add n (len_of t)) as Hs' by (intros; unfold sat_add, len_of, usize_max, u64_max; lia).
  specialize (Hs 1 ltac:(lia)). destruct (as_map v) as [m|] eqn:Em.
  - apply as_map_Some in Em as [-> _]. rewrite vsize_map in Hf. apply IH; [rewrite pushed_size; lia|by apply pushed_total].
  - destruct (as_list v) as [l|] eqn:El.
    + apply as_list_Some in El as ->. rewrite vsize_list in Hf.
      apply IH; cbn [fst snd]; [rewrite items_size_app, items_size_rev; lia|done].
    + destruct (as_text v); [|destruct (as_number v); [|destruct v]]; (apply IH; cbn [fst snd]; [lia|auto]).
Qed.

Lemma size_Ok v : exists n, size v = Ok n /\ 0 <= n.
Proof. apply size_loop; [unfold items_size; cbn; lia|done]. Qed.

(** ** References are followed to an end *)

Section follow.
Variable root : option Map.
Variable budget : Z.

(** The names a reference can have. *)
Definition names_under (key : bytes) : list bytes :=
  match root ≫= (λ r, get r key ≫= as_map) with Some d => keys d | None => [] end.
Definition defined_names : list bytes := names_under DEFS ++ names_under DEFINITIONS.

Lemma target_in_inv prefixes act ref name d : target_in root prefixes act ref = Some (name, d) ->
  (name ∉ act) /\ exists key m, key ∈ map snd prefixes /\ root ≫= (λ r, get r key ≫= as_map) = Some m /\ get m name = Some d.
Proof.
  induction prefixes as [|[prefix key] prefixes IH]; [done|]. cbn [target_in].
  destruct (strip_of prefix ref) as [escaped|].
  - case_bool_decide as Ha; [done|]. intros H.
    apply bind_Some in H as (r & Hr & H). apply bind_Some in H as (m & Hm & H). apply bind_Some in H as (x & Hx & H).
    injection H as <- <-. split; [done|]. exists key, m. split_and!; [by left| |done].
    rewrite Hr. exact Hm.
  - intros H. destruct (IH H) as (Hn & k & m & Hk & H2). split; [done|]. exists k, m. split; [by right|done].
Qed.

Lemma target_inv act m name d : target root act m = Some (name, d) ->
  (name ∉ act) /\ name ∈ defined_names /\ Defines root name d.
Proof.
  unfold target. intros H. apply bind_Some in H as (ref & Hr & H).
  destruct (target_in_inv _ _ _ _ _ H) as (Hn & key & dm & Hk & Hd & Hg). split; [done|]. split.
  - unfold defined_names, names_under. change (key ∈ [DEFS; DEFINITIONS]) in Hk. pose proof Hg as Hg'. apply get_elem, (list_elem_of_fmap_2 fst) in Hg'.
    apply elem_of_cons in Hk as [->|[->|[]%elem_of_nil]%elem_of_cons]; rewrite Hd; apply elem_of_app; [left|right]; exact Hg'.
  - apply bind_Some in Hd as (r & -> & Hd). apply bind_Some in Hd as (x & Hx & [-> _]%as_map_Some).
    by exists r, key, dm.
Qed.

(** One more hop at a chain's end. *)
Lemma chain_snoc act v ms act' w m name d : Chained root act v ms act' w -> as_map w = Some m ->
  target root act' m = Some (name, d) -> Chained root act v (ms ++ [m]) ({[name]} ∪ act') d.
Proof.
  intros H Hw Hd. induction H as [act v|act v m0 n0 d0 ms act' w Hv Hr _ IH].
  - eapply chain_ref; [done|done|constructor].
  - eapply chain_ref; [done|done|]. by apply IH.
Qed.

(** Every definition is well formed, and so is what a chain comes to. *)
Definition root_wf : Prop := match root with Some r => value_wf (VMap r) | None => True end.

Lemma wf_entry m k x : value_wf (VMap m) -> get m k = Some x -> value_wf x.
Proof.
  intros (_ & _ & Hm)%value_wf_map H%get_elem. rewrite List.Forall_forall in Hm.
  apply list_elem_of_In in H. by apply Hm in H as (_ & _ & ?).
Qed.

Lemma defined_wf name d : root_wf -> Defines root name d -> value_wf d.
Proof.
  intros Hr (r & key & dm & E & _ & Hk & Hd). unfold root_wf in Hr. rewrite E in Hr.
  exact (wf_entry dm name d (wf_entry r key (VMap dm) Hr Hk) Hd).
Qed.

Lemma chain_wf act v ms act' w : root_wf -> Chained root act v ms act' w -> value_wf v ->
  value_wf w /\ Forall (λ m, value_wf (VMap m)) ms.
Proof.
  intros Hr. induction 1 as [act v|act v m name d ms act' w Em Hd _ IH]; intros Hv; [by split; [|constructor]|].
  apply target_inv in Hd as (_ & _ & Hd). apply as_map_Some in Em as [-> _].
  destruct (IH (defined_wf name d Hr Hd)) as [Hw Hm]. split; [done|by constructor].
Qed.

(** How many names can still be followed. *)
Definition names_left (act : gset bytes) : nat := length (filter (λ n, n ∉ act) defined_names).

Lemma names_left_less act name : name ∈ defined_names -> name ∉ act -> (names_left ({[name]} ∪ act) < names_left act)%nat.
Proof.
  unfold names_left. induction defined_names as [|n l IH]; [by intros ?%elem_of_nil|].
  intros Hin Hn. rewrite !filter_cons.
  assert (length (filter (λ n, n ∉ {[name]} ∪ act) l) <= length (filter (λ n, n ∉ act) l))%nat as Hle.
  { clear. induction l as [|x l IH]; [done|]. rewrite !filter_cons. repeat case_decide; cbn; try lia; set_solver. }
  apply elem_of_cons in Hin as [->|Hin].
  - rewrite decide_False, (decide_True (P := n ∉ act)) by set_solver. cbn. lia.
  - specialize (IH Hin Hn). repeat case_decide; cbn; try lia; set_solver.
Qed.

(** ** Steps of the inliner *)

(** What holds of the inliner between calls: the sizes it keeps are of definitions,
    and what it has spent is a [usize]. *)
Definition inliner_ok (s : Inliner) : Prop :=
  0 <= spent s <= usize_max /\ map_Forall (λ name n, exists d, Defines root name d /\ size d = Ok n) (sizes s).

(** A call refuses a nesting, or gives what [P] says of any total from what it has
    spent, with the same definitions being expanded. *)
Definition does {A} (P : Z -> A -> Prop) (r : result (fault ValueError) (A * Inliner)) (s : Inliner) : Prop :=
  match r with
  | Err e => e = Refuse TooDeep
  | Ok (a, s') => inliner_ok s' /\ active s' = active s /\ spent s <= spent s' /\ forall total, spent s' <= total -> P total a
  end.

Lemma does_bind {A B} (P : Z -> A -> Prop) (Q : Z -> B -> Prop) (r : result (fault ValueError) (A * Inliner)) k s :
  does P r s ->
  (forall a s', inliner_ok s' -> active s' = active s -> does (λ t b, P t a -> Q t b) (k (a, s')) s') ->
  does Q (x ← r; k x) s.
Proof.
  unfold does. destruct r as [[a s']|e]; [|done]. intros (Hs & Ha & Hl & HP) H. cbn [mbind result_bind].
  specialize (H a s' Hs Ha). destruct (k (a, s')) as [[b s'']|e]; [|done]. destruct H as (Hs' & Ha' & Hl' & HQ).
  split; [done|]. split; [congruence|]. split; [lia|]. intros t Ht. apply HQ; [done|]. apply HP. lia.
Qed.

Lemma does_mono {A} (P Q : Z -> A -> Prop) r s : (forall t a, P t a -> Q t a) -> does P r s -> does Q r s.
Proof. unfold does. destruct r as [[a s']|e]; [|done]. intros H (? & ? & ? & HP). split_and!; auto. Qed.

Lemma does_Ok {A} (P : Z -> A -> Prop) a s : inliner_ok s -> (forall t, P t a) -> does P (Ok (a, s)) s.
Proof. intros Hs HP. unfold does. split_and!; [done|done|lia|auto]. Qed.

Lemma charge_ok n s : 0 <= n -> inliner_ok s -> inliner_ok (charge n s) /\ spent s <= spent (charge n s).
Proof. unfold charge, sat_add. intros Hn [Hs Hm]. split; [split; [cbn; lia|done]|cbn; lia]. Qed.

(** Charging first changes nothing of what a call does. *)
Lemma does_charged {A} (P : Z -> A -> Prop) n r s : 0 <= n -> inliner_ok s -> does P r (charge n s) -> does P r s.
Proof.
  intros Hn Hs. pose proof (charge_ok n s Hn Hs) as [_ Hc]. unfold does. destruct r as [[a s']|e]; [|done].
  intros (? & Ha & ? & HP). split_and!; [done|done|lia|done].
Qed.

(** Every step of a loop, in order. *)
Fixpoint Steps {A B} (R : B -> A -> B -> Prop) (b : B) (l : list A) (b' : B) : Prop :=
  match l with [] => b' = b | x :: l => exists b1, R b x b1 /\ Steps R b1 l b' end.

Lemma does_fold {A B} (f : B -> A -> inlining B) (R : Z -> B -> A -> B -> Prop) act l :
  (forall x b s, x ∈ l -> inliner_ok s -> active s = act -> does (λ t, R t b x) (f b x s) s) ->
  forall b s, inliner_ok s -> active s = act ->
  does (λ t, Steps (R t) b l) (try_fold (λ '(b, s) x, f b x s) (b, s) l) s.
Proof.
  induction l as [|x l IH]; intros H b s Hs Ha; [by apply does_Ok|].
  cbn [try_fold]. eapply does_bind; [apply (H x b s); [by left|done|done]|]. intros b1 s1 Hs1 Ha1.
  eapply does_mono; [|apply IH; [intros; apply H; [by right|done|done]|done|congruence]].
  cbn beta. intros t b' Hb' Hb1. by exists b1.
Qed.

Lemma data_does v s : inliner_ok s -> value_wf v -> does (λ _ w, w = v) (data v s) s.
Proof.
  intros Hs Hv. unfold data. destruct (size_Ok v) as (n & -> & Hn). cbn [mbind result_bind].
  rewrite copy_value_spec. unfold copied. rewrite (proj2 (uncopiable_refused v) (wf_not_refused v Hv)).
  cbn [mbind result_bind]. apply (does_charged _ n); [done|done|]. apply does_Ok; [by apply charge_ok|done].
Qed.

Lemma affords_ok name d s : inliner_ok s -> Defines root name d ->
  exists b s', affords budget name d s = Ok (b, s') /\ inliner_ok s' /\ active s' = active s /\ spent s' = spent s /\
  (b = false -> exists d' n, Defines root name d' /\ size d' = Ok n /\ budget < sat_add (spent s) n).
Proof.
  intros [Hs Hm] Hd. unfold affords. destruct (sizes s !! name) as [n|] eqn:En; cbn [mbind result_bind].
  - eexists _, _. split; [done|]. split; [split; [done|]|split_and!; [done..|]].
    + cbn. by rewrite insert_id.
    + intros Hb%Z.leb_gt. apply Hm in En as (d' & ? & ?). by exists d', n.
  - destruct (size_Ok d) as (n & En' & _). rewrite En'. eexists _, _. split; [done|]. split; [split; [done|]|split_and!; [done..|]].
    + cbn. apply map_Forall_insert_2; [by exists d|done].
    + intros Hb%Z.leb_gt. by exists d, n.
Qed.

(** A chain's loop ends, at a place where it may. *)
Lemma hop_loop f : forall v current ms followed s act,
  (names_left (active s) < f)%nat -> inliner_ok s -> Chained root act v ms (active s) current ->
  active s ∖ list_to_set followed = act ->
  exists current' ms' followed' s',
    loop (hop root budget) f Panic (current, ms, followed, s) = Ok (current', ms', followed', s') /\
    Chained root act v ms' (active s') current' /\ inliner_ok s' /\ spent s' = spent s /\
    active s' ∖ list_to_set followed' = act /\
    forall total, spent s <= total -> Stops root budget total (active s') current'.
Proof.
  induction f as [|f IH]; intros v current ms followed s act Hf Hs Hw Ha; [lia|]. cbn [loop hop].
  destruct (as_map current) as [m|] eqn:Em.
  2:{ eexists _, _, _, _. split_and!; [done..|]. intros total Ht m name d H. congruence. }
  destruct (target root (active s) m) as [[name d]|] eqn:Et.
  2:{ eexists _, _, _, _. split_and!; [done..|]. intros total Ht m' name d H. congruence. }
  destruct (target_inv _ _ _ _ Et) as (Hn & Hd & Hdef).
  destruct (affords_ok name d s Hs Hdef) as ([] & s' & -> & Hs' & Ha' & Hsp & Hb); cbn [mbind result_bind].
  - rewrite <- Hsp.
    apply (IH v d (ms ++ [m]) (followed ++ [name]) (MkInliner ({[name]} ∪ active s') (sizes s') (spent s')) act); cbn [active].
    + pose proof (names_left_less _ _ Hd Hn). rewrite Ha'. lia.
    + exact Hs'.
    + rewrite Ha'. by eapply chain_snoc.
    + rewrite Ha', <- Ha. rewrite list_to_set_app_L. set_solver.
  - eexists _, _, _, _. split_and!; [done|by rewrite Ha'|done|done|by rewrite Ha'|].
    intros total Ht m' name' d' H Ht'. destruct (Hb eq_refl) as (d2 & n & Hdn & Hsz & H2). exists d2, n.
    assert (name' = name) as -> by congruence.
    split_and!; [done|done|]. clear -H2 Ht. unfold sat_add in *. lia.
Qed.

(** ** Maps and lists, entry by entry *)

(** What is copied of a map. *)
Definition kept (is_root : bool) (m : Map) : Map := if is_root then undefined m else m.

Lemma kept_cons is_root e m :
  kept is_root (e :: m) = if is_root && is_definitions e.1 then kept is_root m else e :: kept is_root m.
Proof. unfold kept, undefined. destruct is_root; [|done]. rewrite filter_cons. by destruct (is_definitions e.1). Qed.

Lemma steps_set (Q : bytes * Value -> Value -> Prop) is_root m : forall out out', NoDup (keys out ++ keys m) ->
  Steps (λ out e out', if is_root && is_definitions e.1 then out' = out
                       else exists child, out' = set_ out e.1 child /\ Q e child) out m out' ->
  exists m', out' = out ++ m' /\ Forall2 (λ e e', e.1 = e'.1 /\ Q e e'.2) (kept is_root m) m'.
Proof.
  induction m as [|e m IH]; intros out out' Hn H.
  - cbn in H. subst. exists []. split; [by rewrite app_nil_r|]. unfold kept, undefined. by destruct is_root.
  - destruct H as (b1 & H1 & H). rewrite kept_cons. cbn [keys map] in Hn.
    destruct (is_root && is_definitions e.1).
    + subst b1. apply IH; [|done]. apply NoDup_app in Hn as (? & Hx & [? ?]%NoDup_cons).
      apply NoDup_app. split_and!; [done| |done]. intros k Hk Hk'. apply (Hx k Hk). by right.
    + destruct H1 as (child & -> & HQ). rewrite set_fresh in H.
      2:{ intros Hin. apply NoDup_app in Hn as (_ & Hx & _). apply (Hx _ Hin). by left. }
      apply IH in H as (m' & -> & Hm).
      * exists ((e.1, child) :: m'). split; [by rewrite <- app_assoc|]. by constructor.
      * unfold keys in *. rewrite map_app, <- app_assoc. exact Hn.
Qed.

Lemma steps_push {A} (Q : A -> Value -> Prop) l : forall out out',
  Steps (λ out x out', exists child, out' = out ++ [child] /\ Q x child) out l out' ->
  exists l', out' = out ++ l' /\ Forall2 Q l l'.
Proof.
  induction l as [|x l IH]; intros out out' H.
  - cbn in H. subst. exists []. split; [by rewrite app_nil_r|constructor].
  - destruct H as (b1 & (child & -> & HQ) & H). apply IH in H as (l' & -> & Hl).
    exists (child :: l'). split; [by rewrite <- app_assoc|by constructor].
Qed.

(** ** Schemas, level by level *)

(** What [Inliner::schema] promises at one level. *)
Definition schema_ok (schema : Value -> inlining Value) : Prop :=
  forall v s, value_wf v -> inliner_ok s -> does (λ t w, Expands root budget t (active s) v w) (schema v s) s.

Section level.
Variable deeper : option ((Value -> inlining Value) * (Value -> inlining Value)).
Hypothesis deeper_ok : match deeper with Some (one, two) => schema_ok one /\ schema_ok two | None => True end.

Lemma wf_in_map m e : value_wf (VMap m) -> e ∈ m -> value_wf e.2.
Proof.
  intros (_ & _ & Hm)%value_wf_map He. rewrite List.Forall_forall in Hm.
  apply list_elem_of_In, Hm in He as (_ & _ & ?). done.
Qed.

Lemma wf_in_list l x : value_wf (VList l) -> x ∈ l -> value_wf x.
Proof.
  intros (_ & Hl)%value_wf_list Hx. rewrite List.Forall_forall in Hl. by apply Hl, list_elem_of_In.
Qed.

Lemma named_schemas_does schema m s : schema_ok schema -> value_wf (VMap m) -> inliner_ok s ->
  does (λ t m', Forall2 (λ e e', e.1 = e'.1 /\ Expands root budget t (active s) e.2 e'.2) m m') (named_schemas schema m s) s.
Proof.
  intros Hsc Hm Hs.
  eapply does_mono; [|apply (does_fold (λ out e s,
    '(child, s) ← schema e.2 (charge (len_of e.1) s); Ok (set_ out e.1 child, s))
    (λ t out e out', exists child, out' = set_ out e.1 child /\ Expands root budget t (active s) e.2 child) (active s)); [|done|done]].
  - cbn beta. intros t m' H. apply (steps_set (λ e c, Expands root budget t (active s) e.2 c) false) in H as (m1 & -> & H1); [exact H1|].
    by apply value_wf_map in Hm as (_ & ? & _).
  - intros e out s1 He Hs1 Ha. assert (0 <= len_of e.1) as Hl by (unfold len_of; lia).
    apply (does_charged _ (len_of e.1)); [done|done|]. destruct (charge_ok (len_of e.1) s1 Hl Hs1) as [Hs1' _].
    eapply does_bind; [apply Hsc; [by eapply wf_in_map|done]|]. intros child s2 Hs2 Ha2.
    apply does_Ok; [done|]. intros t Ht. exists child. split; [done|]. by rewrite <- Ha.
Qed.

Lemma listed_schemas_does schema l s : schema_ok schema -> value_wf (VList l) -> inliner_ok s ->
  does (λ t l', Forall2 (Expands root budget t (active s)) l l') (listed_schemas schema l s) s.
Proof.
  intros Hsc Hl Hs.
  eapply does_mono; [|apply (does_fold (λ out x s, '(child, s) ← schema x s; Ok (out ++ [child], s))
    (λ t out x out', exists child, out' = out ++ [child] /\ Expands root budget t (active s) x child) (active s)); [|done|done]].
  - cbn beta. intros t l' H. by apply steps_push in H as (l1 & -> & H1).
  - intros x out s1 Hx Hs1 Ha. eapply does_bind; [apply Hsc; [by eapply wf_in_list|done]|]. intros child s2 Hs2 Ha2.
    apply does_Ok; [done|]. intros t Ht. exists child. split; [done|]. by rewrite <- Ha.
Qed.

Lemma entry_does key v s : value_wf v -> inliner_ok s ->
  does (λ t w, EntryExpands root budget t (active s) key v w) (entry deeper key v s) s.
Proof using deeper_ok.
  intros Hv Hs. unfold entry. case_bool_decide as Hk.
  { eapply does_mono; [|by apply data_does]. intros t w ->. by apply entry_data. }
  destruct deeper as [[one two]|]; [|done]. destruct deeper_ok as [H1 H2].
  destruct (charge_ok 1 s ltac:(lia) Hs) as [Hs' _].
  destruct (if bool_decide (key ∈ NAME_MAPS) then as_map v else None) as [m|] eqn:Em.
  - case_bool_decide as Hn; [|done]. apply as_map_Some in Em as [-> _].
    apply (does_charged _ 1); [lia|done|]. eapply does_bind; [by apply named_schemas_does|].
    intros m' s' Hs1 _. apply does_Ok; [done|]. intros t Hm. by apply entry_names.
  - assert (key ∈ NAME_MAPS -> as_map v = None) as Hn by (intros Hn; by rewrite bool_decide_eq_true_2 in Em).
    destruct (as_list v) as [l|] eqn:El.
    + apply as_list_Some in El as ->. apply (does_charged _ 1); [lia|done|].
      eapply does_bind; [by apply listed_schemas_does|]. intros l' s' Hs1 _. apply does_Ok; [done|].
      intros t Hl. by apply entry_list.
    + eapply does_mono; [|by apply H1]. intros t w Hw. by apply entry_schema.
Qed.

Lemma object_does m is_root s : value_wf (VMap m) -> inliner_ok s ->
  does (λ t out, Body root budget t (active s) (VMap (kept is_root m)) out) (object deeper m is_root s) s.
Proof using deeper_ok.
  intros Hm Hs. unfold object. destruct (charge_ok 1 s ltac:(lia) Hs) as [Hs' _]. apply (does_charged _ 1); [lia|done|].
  eapply does_bind.
  - apply (does_fold (λ out e s, if is_root && is_definitions e.1 then Ok (out, s)
        else '(child, s) ← entry deeper e.1 e.2 (charge (len_of e.1) s); Ok (set_ out e.1 child, s))
      (λ t out e out', if is_root && is_definitions e.1 then out' = out
        else exists child, out' = set_ out e.1 child /\ EntryExpands root budget t (active s) e.1 e.2 child) (active s)); [|done|done].
    intros e out s1 He Hs1 Ha. destruct (is_root && is_definitions e.1); [by apply does_Ok|].
    assert (0 <= len_of e.1) as Hl by (unfold len_of; lia). apply (does_charged _ (len_of e.1)); [done|done|].
    destruct (charge_ok (len_of e.1) s1 Hl Hs1) as [Hs1' _].
    eapply does_bind; [apply entry_does; [by eapply wf_in_map|done]|]. intros child s2 Hs2 _.
    apply does_Ok; [done|]. intros t Ht. exists child. split; [done|]. by rewrite <- Ha.
  - intros out s1 Hs1 _. apply does_Ok; [done|]. intros t H.
    apply (steps_set (λ e c, EntryExpands root budget t (active s) e.1 e.2 c)) in H as (m1 & -> & H1); [by apply body_map|].
    by apply value_wf_map in Hm as (_ & ? & _).
Qed.

Lemma steps_overlay t act is_root m : forall out out',
  Steps (λ out e out', if bool_decide (e.1 = REF) || (is_root && is_definitions e.1) then out' = out
                       else exists child, out' = laid out e.1 child /\ EntryExpands root budget t act e.1 e.2 child) out m out' ->
  Overlay root budget t act (kept is_root m) out out'.
Proof.
  induction m as [|e m IH]; intros out out' H.
  - cbn in H. subst. replace (kept is_root []) with ([] : Map) by (by destruct is_root). constructor.
  - destruct H as (b1 & H1 & H). apply IH in H. rewrite kept_cons. case_bool_decide as Hr; cbn [orb] in H1.
    + subst b1. destruct (is_root && _); [done|]. by apply overlay_ref.
    + destruct (is_root && _); [by subst|]. destruct H1 as (child & -> & H1). by apply overlay_lay with child.
Qed.

Lemma lay_over_does is_root m out s : value_wf (VMap m) -> inliner_ok s ->
  does (λ t out', Overlay root budget t (active s) (kept is_root m) out out') (lay_over deeper is_root m out s) s.
Proof using deeper_ok.
  intros Hm Hs. unfold lay_over.
  eapply does_mono; [intros t out'; apply steps_overlay|].
  apply (does_fold (λ out e s, if bool_decide (e.1 = REF) || (is_root && is_definitions e.1) then Ok (out, s)
      else '(child, s) ← entry deeper e.1 e.2 s; Ok (laid out e.1 child, s))
    (λ t out e out', if bool_decide (e.1 = REF) || (is_root && is_definitions e.1) then out' = out
      else exists child, out' = laid out e.1 child /\ EntryExpands root budget t (active s) e.1 e.2 child) (active s)); [|done|done].
  intros e b s1 He Hs1 Ha. destruct (_ || _); [by apply does_Ok|].
  eapply does_bind; [apply entry_does; [by eapply wf_in_map|done]|]. intros child s2 Hs2 _.
  apply does_Ok; [done|]. intros t Ht. exists child. split; [done|]. by rewrite <- Ha.
Qed.

(** The referrers, the root's without its definitions. *)
Definition kept_first (is_root : bool) (ms : list Map) : list Map :=
  match ms with m :: ms => kept is_root m :: ms | [] => [] end.

Lemma lay_all_does ms : forall is_root out s, Forall (λ m, value_wf (VMap m)) ms -> inliner_ok s ->
  does (λ t out', Overlays root budget t (active s) (kept_first is_root ms) out out') (lay_all deeper is_root ms out s) s.
Proof using deeper_ok.
  induction ms as [|m ms IH]; intros is_root out s Hms Hs.
  - apply does_Ok; [done|]. intros t. apply overlays_end.
  - inversion_clear Hms as [|? ? Hm Hms']. cbn [lay_all]. eapply does_bind; [by apply IH|].
    intros out1 s1 Hs1 Ha. eapply does_mono; [|by apply lay_over_does]. intros t out' Ho Hs2.
    rewrite Ha in Ho. eapply overlays_one; [|exact Ho]. by destruct ms.
Qed.

(** What is copied where a chain ended: the document itself without its definitions. *)
Definition kept_end (is_root : bool) (ms : list Map) (w : Value) : Value :=
  match ms with [] => if is_root then without_definitions w else w | _ :: _ => w end.

Lemma expand_does w ms is_root s : value_wf w -> Forall (λ m, value_wf (VMap m)) ms -> inliner_ok s ->
  does (λ t out, exists out0,
    Body root budget t (active s) (kept_end is_root ms w) out0 /\
    Overlays root budget t (active s) (kept_first is_root ms) out0 out) (expand deeper w ms is_root s) s.
Proof using deeper_ok.
  intros Hw Hms Hs. unfold expand.
  eapply (does_bind (λ t out0, Body root budget t (active s)
    (kept_end is_root ms w) out0)).
  - unfold kept_end, without_definitions. destruct (as_map w) as [m|] eqn:Em.
    + apply as_map_Some in Em as [-> _]. eapply does_mono; [|by apply object_does].
      intros t out. by destruct ms, is_root.
    + eapply does_mono; [|by apply data_does]. intros t out ->. destruct ms, is_root; by apply body_leaf.
  - intros out0 s1 Hs1 Ha. destruct (as_map out0) as [m|] eqn:Em.
    + eapply does_mono; [|by apply lay_all_does]. intros t out Ho Hb. rewrite Ha in Ho. by exists out0.
    + apply does_Ok; [done|]. intros t Hb. exists out0. split; [done|]. by apply overlays_leaf.
Qed.
End level.

(** The definitions of a document are not what it refers with. *)
Lemma get_undefined m k : is_definitions k = false -> get (undefined m) k = get m k.
Proof.
  intros Hk. rewrite !get_contents. unfold contents, undefined. induction m as [|e m IH]; [done|].
  rewrite filter_cons. destruct e as [k' v]. cbn [list_to_map foldr fst]. case_decide as He; cbn in He |- *.
  - destruct (decide (k' = k)) as [->|Hn]; [by rewrite !lookup_insert_eq|by rewrite !lookup_insert_ne].
  - rewrite lookup_insert_ne; [done|]. by intros ->.
Qed.

Lemma target_undefined act m : target root act (undefined m) = target root act m.
Proof. unfold target. by rewrite get_undefined. Qed.

Lemma as_map_undefined v m : as_map v = Some m -> as_map (VMap (undefined m)) = Some (undefined m).
Proof.
  intros [_ Ht]%as_map_Some. cbn. assert (keys_are_text (undefined m) = true) as ->; [|done].
  apply keys_are_text_spec in Ht. apply keys_are_text_spec. rewrite Forall_forall in *.
  intros e [_ He]%list_elem_of_filter. by apply Ht.
Qed.

Lemma chain_kept (is_root : bool) act v ms act' w : Chained root act v ms act' w ->
  Chained root act (if is_root then without_definitions v else v) (kept_first is_root ms) act' (kept_end is_root ms w).
Proof.
  intros H. destruct is_root; [|by destruct H; [constructor|eapply chain_ref]].
  destruct H as [act v|act v m name d ms act' w Em Ht H]; [constructor|].
  refine (chain_ref root act _ (undefined m) name d ms act' w _ _ H); [|by rewrite target_undefined].
  unfold without_definitions. rewrite Em. by eapply as_map_undefined.
Qed.

Lemma stops_kept (is_root : bool) ms total act w : Stops root budget total act w ->
  Stops root budget total act (kept_end is_root ms w).
Proof.
  unfold kept_end, without_definitions. destruct ms, is_root; try done. destruct (as_map w) as [m|] eqn:Em; [|done].
  intros H m' name d E Ht. rewrite (as_map_undefined w m Em) in E. injection E as <-. rewrite target_undefined in Ht.
  by eapply H.
Qed.

(** Inlining one schema, at every depth. *)
Lemma inline_schema_does fuel room : (length defined_names < fuel)%nat -> root_wf -> forall (is_root : bool) v s,
  value_wf v -> inliner_ok s ->
  does (λ t w, Expands root budget t (active s) (if is_root then without_definitions v else v) w)
    (inline_schema root fuel budget room v is_root s) s.
Proof.
  intros Hf Hr. induction (lt_wf room) as [room _ IH]. intros is_root v s Hv Hs. destruct room as [|below]; [done|].
  cbn [inline_schema].
  destruct (hop_loop fuel v v [] [] s (active s)) as (w & ms & followed & s1 & -> & Hc & Hs1 & Hsp & Ha & Hst).
  { pose proof (length_filter (λ n, n ∉ active s) defined_names) as Hl. unfold names_left. lia. }
  { done. } { constructor. } { set_solver. }
  cbn [mbind result_bind]. destruct (chain_wf _ _ _ _ _ Hr Hc Hv) as [Hw Hms].
  pose proof (expand_does (match below with
    | O => None
    | S below' => Some (λ v, inline_schema root fuel budget below v false, λ v, inline_schema root fuel budget below' v false)
    end)) as He.
  specialize (He ltac:(destruct below as [|below']; [done|];
    split; intros v' s' Hv' Hs'; [apply (IH (S below') ltac:(lia) false)|apply (IH below' ltac:(lia) false)]; done) w ms is_root s1 Hw Hms Hs1).
  unfold does in He |- *. destruct (expand _ w ms is_root s1) as [[out s2]|e]; [|exact He].
  destruct He as (Hs2 & Ha2 & Hsp2 & He). cbn [mbind result_bind active sizes spent].
  split; [exact Hs2|]. split; [by rewrite Ha2|]. split; [lia|]. intros t Ht.
  destruct (He t Ht) as (out0 & Hb & Ho). eapply expands_chain.
  - by apply chain_kept.
  - apply stops_kept. apply Hst. lia.
  - exact Hb.
  - exact Ho.
Qed.
End follow.

Lemma names_under_le schema key m : as_map schema = Some m -> (length (names_under (Some m) key) <= vsize schema)%nat.
Proof.
  intros Em. unfold names_under. cbn [mbind option_bind].
  destruct (get m key) as [v|] eqn:Eg; cbn [mbind option_bind]; [|cbn; lia].
  destruct (as_map v) as [d|] eqn:Ed; [|cbn; lia].
  pose proof (map_smaller schema m key v Em Eg) as H.
  apply as_map_Some in Ed as [-> _]. rewrite vsize_map in H. unfold keys. rewrite length_map.
  assert (length d <= items_size (map snd d))%nat; [|lia]. clear. induction d as [|e d IH]; [done|].
  unfold items_size in *. cbn. pose proof (vsize_pos e.2). lia.
Qed.

Lemma names_fit schema : value_wf schema -> (length (defined_names (as_map schema)) < 2 + 2 * vsize schema)%nat.
Proof.
  intros _. unfold defined_names. rewrite length_app. destruct (as_map schema) as [m|] eqn:Em; [|cbn; lia].
  pose proof (names_under_le schema DEFS m Em). pose proof (names_under_le schema DEFINITIONS m Em). lia.
Qed.

(** ** What a reader of the result can rely on *)

(** What inlining a document with [room] levels left gives. *)
Definition inlined (room : nat) (schema : Value) (r : result (fault ValueError) Value) : Prop :=
  exists n, size schema = Ok n /\
  match r with
  | Err e => e = Refuse TooDeep
  | Ok out => exists s,
      inline_schema (as_map schema) (2 + 2 * vsize schema) (budget_of n) room schema true (MkInliner ∅ ∅ 0) = Ok (out, s) /\
      Expands (as_map schema) (budget_of n) (spent s) ∅ (without_definitions schema) out
  end.

Lemma inline_refs_in_spec room schema : value_wf schema -> inlined room schema (inline_refs_in room schema).
Proof.
  intros Hv. destruct (size_Ok schema) as (n & En & Hn). exists n. split; [done|]. unfold inline_refs_in. rewrite En.
  cbn [mbind result_bind].
  assert (root_wf (as_map schema)) as Hr.
  { unfold root_wf. destruct (as_map schema) as [m|] eqn:Em; [|done]. by apply as_map_Some in Em as [-> _]. }
  pose proof (inline_schema_does (as_map schema) (budget_of n) _ room (names_fit schema Hv) Hr true schema
    (MkInliner ∅ ∅ 0) Hv) as H.
  assert (inliner_ok (as_map schema) (MkInliner ∅ ∅ 0)) as Hs.
  { split; [cbn; unfold usize_max, u64_max; lia|apply map_Forall_empty]. }
  specialize (H Hs). revert H. generalize (2 + 2 * vsize schema)%nat. intros fuel H.
  unfold does in H. destruct (inline_schema _ _ _ _ _ _ _) as [[out s]|e]; [|exact H].
  destruct H as (_ & _ & _ & H). exists s. split; [done|]. apply H. lia.
Qed.


Definition reference_to (text : bytes) : Value := VMap [(REF, VString text)].
Definition sample_refs : Value :=
  VMap [(DEFS, VMap [(bs "A", VMap [(TYPE, VString (bs "string"))])]);
        (PROPERTIES, VMap [(bs "a", VMap [(REF, VString (bs "#/$defs/A")); (TITLE, VString (bs "first"))])])].


(** A document that defines one name twice, once under each spelling, each
    definition naming the other. *)
Definition two_spellings : Value :=
  VMap [(DEFS, VMap [(bs "A", VMap [(bs "items", reference_to (bs "#/definitions/A"))])]);
        (DEFINITIONS, VMap [(bs "A", VMap [(TYPE, VString (bs "string"))])]);
        (bs "items", reference_to (bs "#/$defs/A"))].

(** What is being expanded is known by its name alone, and data is copied whatever
    its depth. *)
Definition deep_data (n : nat) : Value := VMap [(DEFAULT, Nat.iter n (λ v, VList [v]) VNull)].

(** Where inlining departs from what it promises: a definition is known by its
    name alone, so a reference from a definition of one spelling to the definition
    of the same name under the other is left, as if it were recursive; and a value
    that holds data is copied whole however deep it is, so the result may nest past
    [MAX_DEPTH] where the documentation promises a refusal. *)
Theorem inlining_departs :
  inline_refs two_spellings =
    Ok (VMap [(bs "items", VMap [(bs "items", reference_to (bs "#/definitions/A"))])]) /\
  inline_refs (deep_data (2 * MAX_DEPTH)) = Ok (deep_data (2 * MAX_DEPTH)) /\
  inline_refs (Nat.iter (2 * MAX_DEPTH) (λ v, VMap [(bs "not", v)]) (VMap [])) = Err (Refuse TooDeep).
Proof. split_and!; vm_compute; reflexivity. Qed.
