(* ===== verification/FieldPath.v ===== *)
(** * Paths into a value

    [path/mod.rs] and [path/walk.rs] of [guatiao-intake]: the text that names one
    place inside a value, [agent[1].name], which a flat store, a command line and a
    form's hints all carry. Text is its UTF-8 bytes, as in [MergePath]. *)

From S2P Require Import Prelude Decimal Value Keys Maps MergePath SchemaRead.

(** ** Segments *)

(** [Segment]. *)
Inductive Segment : Type :=
  | Field_ (name : bytes)
  | Index_ (at_ : Z)
  | Key_ (key : bytes).

#[export] Instance Segment_eq_dec : EqDecision Segment.
Proof. solve_decision. Defined.

(** [is_bare_name], [index_of_text] and [needs_quoting]. *)
Definition is_bare_name (name : bytes) : bool := negb (bool_decide (name = [])) && negb (existsb stops name).
Definition index_of_text (text : bytes) : option Z :=
  if bool_decide (text = []) || negb (forallb is_digit text) then None
  else if (1 <? length text)%nat && bool_decide (head text = Some 48) then None
  else if num text <=? usize_max then Some (num text) else None.
Definition needs_quoting (key : bytes) : bool :=
  bool_decide (key = []) || bool_decide (head key = Some QUOTE) ||
  existsb (λ c, (c =? OPEN) || (c =? CLOSE)) key || bool_decide (is_Some (index_of_text key)).

(** The spelling a segment parses back from. *)
Definition show_segment (s : Segment) : bytes :=
  match s with
  | Field_ name => name
  | Index_ at_ => OPEN :: dec at_ ++ [CLOSE]
  | Key_ key =>
      if needs_quoting key then OPEN :: QUOTE :: escape key ++ [QUOTE; CLOSE] else OPEN :: key ++ [CLOSE]
  end.

(** ** Why a text is not a path *)

(** [PathError], [offset] and [offset_by]. *)
Inductive PathError : Type :=
  | EmptyPath
  | EmptyField (at_ : nat)
  | EmptyIndex (at_ : nat)
  | UnclosedIndex (at_ : nat)
  | UnclosedQuote (at_ : nat)
  | BadEscape (at_ : nat)
  | UnexpectedClose (at_ : nat)
  | TrailingQuote (at_ : nat)
  | MissingSeparator (at_ : nat).

#[export] Instance PathError_eq_dec : EqDecision PathError.
Proof. solve_decision. Defined.

Definition path_offset (e : PathError) : nat :=
  match e with
  | EmptyPath => 0
  | EmptyField n | EmptyIndex n | UnclosedIndex n | UnclosedQuote n | BadEscape n | UnexpectedClose n
  | TrailingQuote n | MissingSeparator n => n
  end.
Definition offset_by (e : PathError) (by_ : nat) : PathError :=
  match e with
  | EmptyPath => EmptyPath
  | EmptyField n => EmptyField (n + by_)
  | EmptyIndex n => EmptyIndex (n + by_)
  | UnclosedIndex n => UnclosedIndex (n + by_)
  | UnclosedQuote n => UnclosedQuote (n + by_)
  | BadEscape n => BadEscape (n + by_)
  | UnexpectedClose n => UnexpectedClose (n + by_)
  | TrailingQuote n => TrailingQuote (n + by_)
  | MissingSeparator n => MissingSeparator (n + by_)
  end.

(** ** Reading *)

(** [quoted_key]: the key while nothing is escaped, which is a slice; and with
    escapes, which is a copy. [l] is the text from [i] on. *)
Fixpoint plain_key (l : bytes) (i : nat) (key : bytes) : result PathError (option (bytes * nat)) :=
  match l with
  | [] => Err (UnclosedQuote 0)
  | c :: l =>
      if c =? BACKSLASH then Ok None
      else if c =? QUOTE then Ok (Some (key, S i))
      else plain_key l (S i) (key ++ [c])
  end.
Fixpoint escaped_key (l : bytes) (i : nat) (out : bytes) : result PathError (bytes * nat) :=
  match l with
  | [] => Err (UnclosedQuote 0)
  | c :: l =>
      if c =? QUOTE then Ok (out, S i)
      else if c =? BACKSLASH then
        match l with
        | next :: l => if (next =? QUOTE) || (next =? BACKSLASH) then escaped_key l (i + 2) (out ++ [next])
                       else Err (BadEscape (i + 1))
        | [] => Err (BadEscape (i + 1))
        end
      else escaped_key l (S i) (out ++ [c])
  end.
Definition quoted_key (l : bytes) : result PathError (bytes * nat) :=
  plain ← plain_key l 0 [];
  match plain with Some r => Ok r | None => escaped_key l 0 [] end.

(** Where a byte [f] picks first is. *)
Fixpoint find_byte (f : byte -> bool) (l : bytes) : option nat :=
  match l with [] => None | c :: l => if f c then Some O else S <$> find_byte f l end.

(** [bracket], its text from the bracket on. *)
Definition bracket (body : bytes) : result PathError (Segment * nat) :=
  let inside := drop 1 body in
  match inside with
  | c :: quoted =>
      if c =? QUOTE then
        '(key, read) ← map_err (λ e, offset_by e 1) (quoted_key quoted);
        match drop (1 + read) inside with
        | c :: _ => if c =? CLOSE then Ok (Key_ key, (1 + 1 + read + 1)%nat) else Err (TrailingQuote (1 + 1 + read))
        | [] => Err (TrailingQuote (1 + 1 + read))
        end
      else
        match find_byte (λ c, c =? CLOSE) inside with
        | None => Err (UnclosedIndex 0)
        | Some O => Err (EmptyIndex 0)
        | Some end_ =>
            let text := take end_ inside in
            if existsb (λ c, c =? OPEN) text then Err (UnclosedIndex 0)
            else Ok (match index_of_text text with Some at_ => Index_ at_ | None => Key_ text end, (1 + end_ + 1)%nat)
        end
  | [] => Err (UnclosedIndex 0)
  end.

(** [step]: one segment off the front. *)
Definition step_ (rest : bytes) (first : bool) : result PathError (option (Segment * nat)) :=
  match rest with
  | [] => Ok None
  | c :: tail =>
      let '(body, skipped) := if c =? DOT then (tail, 1%nat) else (rest, 0%nat) in
      if (skipped =? 0)%nat && negb first && negb (c =? OPEN) then Err (MissingSeparator 0)
      else if bool_decide (head body = Some OPEN) then
        if (skipped =? 1)%nat then Err (EmptyField 1)
        else '(segment, read) ← bracket body; Ok (Some (segment, (skipped + read)%nat))
      else
        let end_ := default (length body) (find_byte stops body) in
        if bool_decide (head (drop end_ body) = Some CLOSE) then Err (UnexpectedClose (skipped + end_))
        else if (end_ =? 0)%nat then Err (EmptyField skipped)
        else Ok (Some (Field_ (take end_ body), (skipped + end_)%nat))
  end.

(** The loops over a text: each segment and where it ends. A step reads a byte or
    more, so the length bounds them; running out is [None], as the end is. *)
Definition ok_path {A} (r : result PathError A) : option A := match r with Ok a => Some a | Err _ => None end.
Fixpoint spelled_from (fuel : nat) (rest : bytes) (at_ : nat) (first : bool) : option (list (Segment * nat)) :=
  match fuel with
  | O => None
  | S fuel =>
      match rest with
      | [] => Some []
      | _ =>
          r ← ok_path (step_ rest first); '(segment, read) ← r;
          let at_ := (at_ + read)%nat in
          l ← spelled_from fuel (drop read rest) at_ false; Some ((segment, at_) :: l)
      end
  end.
(** [spelled]. *)
Definition spelled (text : bytes) (continued : bool) : option (list (Segment * nat)) :=
  if negb continued && bool_decide (head text = Some DOT) then None
  else
    l ← spelled_from (S (length text)) text 0 (negb continued);
    match l with [] => None | _ => Some l end.

(** [parse], its loop likewise. *)
Fixpoint parse_from (fuel : nat) (rest : bytes) (at_ : nat) : result PathError unit :=
  match fuel, rest with
  | _, [] => Ok ()
  | O, _ => Err (EmptyField at_)
  | S fuel, _ =>
      match step_ rest (at_ =? 0)%nat with
      | Ok (Some (_, read)) => parse_from fuel (drop read rest) (at_ + read)
      | Ok None => Err (EmptyField at_)
      | Err e => Err (offset_by e at_)
      end
  end.
Definition path_parse (text : bytes) : result PathError bytes :=
  match text with
  | [] => Err EmptyPath
  | c :: _ => if c =? DOT then Err (EmptyField 0) else parse_from (length text) text 0;; Ok text
  end.

(** [Segments]: the segments of a parsed path, in order. *)
Fixpoint segments_from (fuel : nat) (rest : bytes) (at_ : nat) : list Segment :=
  match fuel with
  | O => []
  | S fuel =>
      match ok_path (step_ rest (at_ =? 0)%nat) with
      | Some (Some (segment, read)) => segment :: segments_from fuel (drop read rest) (at_ + read)
      | _ => []
      end
  end.
Definition segments (path : bytes) : list Segment := segments_from (S (length path)) path 0.

(** [split_last], its loop over the segments with where the last one starts. *)
Fixpoint last_from (fuel : nat) (rest : bytes) (at_ : nat) (last : option (nat * Segment)) : option (nat * Segment) :=
  match fuel, rest with
  | _, [] => last
  | O, _ => None
  | S fuel, _ =>
      r ← ok_path (step_ rest (at_ =? 0)%nat); '(segment, read) ← r;
      last_from fuel (drop read rest) (at_ + read) (Some (at_, segment))
  end.
Definition split_last (text : bytes) : option (bytes * Segment) :=
  _ ← ok_path (path_parse text);
  '(start, segment) ← last_from (length text) text 0 None;
  if (0 <? start)%nat then Some (take start text, segment) else None.

(** [get]: a number is a position in a list and a key in a map. *)
Definition get_step (v : Value) (s : Segment) : option Value :=
  match s with
  | Field_ name => under v name
  | Key_ key => under v key
  | Index_ at_ =>
      match as_list v with Some l => l !! Z.to_nat at_ | None => under v (dec at_) end
  end.
Definition get_path (v : Value) (path : bytes) : option Value :=
  foldl (λ at_ s, v ← at_; get_step v s) (Some v) (segments path).

Example field_path_examples :
  spelled (bs "agent[1].name") false = Some [(Field_ (bs "agent"), 5%nat); (Index_ 1, 8%nat); (Field_ (bs "name"), 13%nat)] /\
  path_parse (bs "a[0]b") = Err (MissingSeparator 4) /\
  path_parse (bs "a.[0]") = Err (EmptyField 2) /\
  path_parse (bs "[a[b]") = Err (UnclosedIndex 0) /\
  segments (bs "[01]") = [Key_ (bs "01")] /\
  split_last (bs "agent[0].name") = Some (bs "agent[0]", Field_ (bs "name")).
Proof. split_and!; reflexivity. Qed.

(** ** The grammar *)

(** What stands between the quotes of a quoted key: only a quote and a backslash
    are escaped. *)
Inductive key_text : bytes -> bytes -> Prop :=
  | key_nil : key_text [] []
  | key_plain c b k : c <> QUOTE -> c <> BACKSLASH -> key_text b k -> key_text (c :: b) (c :: k)
  | key_escape c b k : c = QUOTE \/ c = BACKSLASH -> key_text b k -> key_text (BACKSLASH :: c :: b) (c :: k).

(** A bracket, and the segment it spells. *)
Inductive bracket_spells : Segment -> bytes -> Prop :=
  | spells_index n : 0 <= n <= usize_max -> bracket_spells (Index_ n) (OPEN :: dec n ++ [CLOSE])
  | spells_key k : needs_quoting k = false -> bracket_spells (Key_ k) (OPEN :: k ++ [CLOSE])
  | spells_quoted b k : key_text b k -> bracket_spells (Key_ k) (OPEN :: QUOTE :: b ++ [QUOTE; CLOSE]).

(** A text from [a] on, read segment by segment, each with where it ends; [f] at
    the start of a path, where a name has no dot. *)
Inductive reads_path : bool -> nat -> bytes -> list (Segment * nat) -> Prop :=
  | reads_end f a : reads_path f a [] []
  | reads_name a name t l : bare name -> reads_path false (a + length name) t l ->
      reads_path true a (name ++ t) ((Field_ name, (a + length name)%nat) :: l)
  | reads_dot f a name t l : bare name -> reads_path false (a + S (length name)) t l ->
      reads_path f a (DOT :: name ++ t) ((Field_ name, (a + S (length name))%nat) :: l)
  | reads_bracket f a s b t l : bracket_spells s b -> reads_path false (a + length b) t l ->
      reads_path f a (b ++ t) ((s, (a + length b)%nat) :: l).

(** ** Positions *)

(** Digits with no zero in front. *)
Definition shortest (t : bytes) : Prop := digits t /\ t <> [] /\ ((1 < length t)%nat -> head t <> Some 48).

Lemma shortest_range t : shortest t -> (2 <= length t)%nat -> 10 ^ (Z.of_nat (length t) - 1) <= num t.
Proof.
  intros (Hd & Hn & Hz) Hl. destruct t as [|d t]; [done|]. cbn [length] in *. specialize (Hz ltac:(lia)).
  inversion_clear Hd as [|? ? Hd1 Hd2]. apply is_digit_spec in Hd1. rewrite num_cons.
  replace (Z.of_nat (S (length t)) - 1) with (Z.of_nat (length t)) by lia.
  pose proof (num_bound t Hd2). assert (d <> 48) by (intros ->; by apply Hz). nia.
Qed.

Lemma shortest_length t t' : shortest t -> shortest t' -> num t = num t' -> (length t <= length t')%nat.
Proof.
  intros Ht Ht' E. destruct (Nat.le_gt_cases (length t) (length t')) as [|Hlt]; [done|exfalso].
  destruct (Ht') as (Hd' & Hn' & _). destruct t' as [|d' t']; [done|]. cbn [length] in Hlt.
  pose proof (shortest_range t Ht ltac:(lia)) as Hr. pose proof (num_bound _ Hd') as Hb. cbn [length] in Hb.
  assert (10 ^ Z.of_nat (S (length t')) <= 10 ^ (Z.of_nat (length t) - 1)) by (apply Z.pow_le_mono_r; lia). lia.
Qed.

Lemma shortest_inj t t' : shortest t -> shortest t' -> num t = num t' -> t = t'.
Proof.
  intros Ht Ht' E. apply num_inj; [apply Ht|apply Ht'| |done].
  pose proof (shortest_length t t' Ht Ht' E). pose proof (shortest_length t' t Ht' Ht (eq_sym E)). lia.
Qed.

Lemma dec_shortest n : 0 <= n -> shortest (dec n).
Proof.
  intros Hn. destruct (dec_spec n Hn) as (Hd & _ & H). split; [done|]. split; [by apply dec_nonempty|].
  destruct H as [[_ ->]|(_ & d & ds & -> & Hd')]; cbn; [lia|]. intros _ [= ->]. lia.
Qed.

Lemma index_of_text_spec t n : index_of_text t = Some n <-> 0 <= n <= usize_max /\ t = dec n.
Proof.
  unfold index_of_text. split.
  - case_bool_decide as Hn; [done|]. cbn [orb]. destruct (forallb is_digit t) eqn:Hd; [|done]. cbn [negb].
    apply digits_forallb in Hd. pose proof (num_bound t Hd) as Hb.
    destruct (_ && _) eqn:Hz; [done|]. destruct (Z.leb_spec (num t) usize_max); [|done]. intros [= <-].
    split; [lia|]. apply shortest_inj; [|apply dec_shortest; lia|by rewrite num_dec by lia].
    split; [done|]. split; [done|]. intros Hl. apply andb_false_iff in Hz as [Hz|Hz]; [apply Nat.ltb_ge in Hz; lia|].
    by apply bool_decide_eq_false in Hz.
  - intros [Hn ->]. destruct (dec_shortest n ltac:(lia)) as (Hd & Hne & Hz).
    rewrite bool_decide_eq_false_2, (proj2 (digits_forallb _) Hd), num_dec by (done || lia). cbn [orb negb].
    replace ((1 <? length (dec n))%nat && bool_decide (head (dec n) = Some 48)) with false.
    + by rewrite (proj2 (Z.leb_le _ _)) by lia.
    + symmetry. destruct (Nat.ltb_spec 1 (length (dec n))); [|done]. apply bool_decide_eq_false_2. auto.
Qed.

Lemma needs_quoting_false k : needs_quoting k = false <->
  k <> [] /\ head k <> Some QUOTE /\ Forall (λ c, c <> OPEN /\ c <> CLOSE) k /\ index_of_text k = None.
Proof.
  unfold needs_quoting. rewrite !orb_false_iff, !bool_decide_eq_false. split.
  - intros [[[H1 H2] H3] H4]. split_and!; [done|done| |by destruct (index_of_text k); [destruct H4|]].
    apply Forall_forall. intros c Hc. destruct (existsb _ k) eqn:E in H3; [done|].
    apply not_true_iff_false in E. rewrite existsb_exists in E.
    split; intros ->; apply E; eexists; (split; [by apply list_elem_of_In|done]).
  - intros (H1 & H2 & H3 & H4). split_and!; [done|done| |by rewrite H4; intros [? ?]].
    apply not_true_iff_false. rewrite existsb_exists. intros (c & Hc & E). rewrite Forall_forall in H3.
    apply list_elem_of_In, H3 in Hc. apply orb_true_iff in E as [E%Z.eqb_eq|E%Z.eqb_eq]; subst; naive_solver.
Qed.

Lemma escape_key k : key_text (escape k) k.
Proof.
  induction k as [|c k IH]; [constructor|]. rewrite escape_cons.
  destruct ((c =? QUOTE) || (c =? BACKSLASH)) eqn:E.
  - apply key_escape; [|done]. apply orb_true_iff in E as [E%Z.eqb_eq|E%Z.eqb_eq]; auto.
  - apply orb_false_iff in E as [E1%Z.eqb_neq E2%Z.eqb_neq]. by apply key_plain.
Qed.

(** What a segment writes reads as that segment. *)
Definition segment_ok (s : Segment) : Prop :=
  match s with Field_ name => bare name | Index_ n => 0 <= n <= usize_max | Key_ _ => True end.

Lemma show_bracket s : segment_ok s -> match s with Field_ _ => True | _ => bracket_spells s (show_segment s) end.
Proof.
  destruct s as [name|n|k]; cbn; [done|by constructor|]. intros _.
  destruct (needs_quoting k) eqn:E; [|by constructor]. apply spells_quoted, escape_key.
Qed.

(** ** One step takes one segment *)

Lemma find_byte_Some f l n : find_byte f l = Some n <->
  exists a c t, l = a ++ c :: t /\ length a = n /\ Forall (λ x, f x = false) a /\ f c = true.
Proof.
  revert n. induction l as [|x l IH]; intros n; cbn [find_byte].
  { split; [done|]. intros ([|] & ? & ? & ? & _); done. }
  destruct (f x) eqn:E.
  - split; [intros [= <-]; by exists [], x, l|]. intros ([|y a] & c & t & [= -> ->] & <- & Ha & Hc); [done|].
    inversion_clear Ha. congruence.
  - split.
    + intros (m & (a & c & t & -> & <- & Ha & Hc)%IH & ->)%fmap_Some. exists (x :: a), c, t. by repeat constructor.
    + intros ([|y a] & c & t & [= -> ->] & <- & Ha & Hc); [congruence|]. inversion_clear Ha.
      apply fmap_Some. exists (length a). split; [|done]. apply IH. by exists a, c, t.
Qed.

Lemma find_byte_None f l : find_byte f l = None <-> Forall (λ x, f x = false) l.
Proof.
  induction l as [|x l IH]; cbn [find_byte]; [split; [constructor|done]|]. rewrite Forall_cons.
  destruct (f x); [naive_solver|]. rewrite fmap_None, IH. naive_solver.
Qed.

Lemma plain_key_spec l : forall i acc,
  match plain_key l i acc with
  | Ok (Some (k, n)) => exists b t, l = b ++ QUOTE :: t /\ k = acc ++ b /\ n = (i + length b + 1)%nat /\
                        Forall (λ c, c <> QUOTE /\ c <> BACKSLASH) b
  | Ok None => exists b t, l = b ++ BACKSLASH :: t /\ Forall (λ c, c <> QUOTE /\ c <> BACKSLASH) b
  | Err e => e = UnclosedQuote 0 /\ Forall (λ c, c <> QUOTE) l
  end.
Proof.
  induction l as [|c l IH]; intros i acc; cbn [plain_key]; [by split; [|constructor]|].
  destruct (Z.eqb_spec c BACKSLASH) as [->|Hb]; [exists [], l; by split; [|constructor]|].
  destruct (Z.eqb_spec c QUOTE) as [->|Hq].
  - exists [], l. rewrite app_nil_r. split_and!; [done|done|cbn; lia|constructor].
  - specialize (IH (S i) (acc ++ [c])). destruct (plain_key l (S i) _) as [[[k n]|]|e].
    + destruct IH as (b & t & -> & -> & -> & Hf). exists (c :: b), t. rewrite <- app_assoc.
      split_and!; [done|done|cbn [length]; lia|by constructor].
    + destruct IH as (b & t & -> & Hf). exists (c :: b), t. split; [done|by constructor].
    + destruct IH as [-> Hf]. split; [done|by constructor].
Qed.

Lemma escaped_key_takes b k : key_text b k -> forall i acc t,
  escaped_key (b ++ QUOTE :: t) i acc = Ok (acc ++ k, (i + length b + 1)%nat).
Proof.
  induction 1 as [|c b k Hq Hb _ IH|c b k Hc _ IH]; intros i acc t; cbn [app escaped_key].
  - rewrite app_nil_r. cbn [length]. do 2 f_equal. lia.
  - rewrite (proj2 (Z.eqb_neq _ _) Hq), (proj2 (Z.eqb_neq _ _) Hb), IH, <- app_assoc. cbn [length]. do 2 f_equal. lia.
  - change (BACKSLASH =? QUOTE) with false. change (BACKSLASH =? BACKSLASH) with true. cbn iota.
    replace ((c =? QUOTE) || (c =? BACKSLASH)) with true by (destruct Hc as [-> | ->]; done).
    rewrite IH, <- app_assoc. cbn [length]. do 2 f_equal. lia.
Qed.

Lemma escaped_key_Ok f : forall l i acc k n, (length l <= f)%nat -> escaped_key l i acc = Ok (k, n) ->
  exists b k' t, l = b ++ QUOTE :: t /\ key_text b k' /\ k = acc ++ k' /\ n = (i + length b + 1)%nat.
Proof.
  induction f as [|f IH]; intros [|c l] i acc k n Hl H; cbn [length] in Hl; try lia; try done.
  cbn [escaped_key] in H. destruct (Z.eqb_spec c QUOTE) as [->|Hq].
  { injection H as <- <-. exists [], [], l. rewrite app_nil_r. split_and!; [done|constructor|done|cbn [length]; lia]. }
  destruct (Z.eqb_spec c BACKSLASH) as [->|Hb].
  - destruct l as [|x l]; [done|]. destruct (_ || _) eqn:Ex; [|done].
    apply IH in H as (b & k' & t & -> & Hk & -> & ->); [|cbn [length] in Hl; lia].
    exists (BACKSLASH :: x :: b), (x :: k'), t. rewrite <- app_assoc. split_and!; [done| |done|cbn; lia].
    constructor; [|done]. apply orb_true_iff in Ex as [Ex%Z.eqb_eq|Ex%Z.eqb_eq]; auto.
  - apply IH in H as (b & k' & t & -> & Hk & -> & ->); [|lia].
    exists (c :: b), (c :: k'), t. rewrite <- app_assoc. split_and!; [done|by constructor|done|cbn; lia].
Qed.

Lemma plain_key_text b : Forall (λ c, c <> QUOTE /\ c <> BACKSLASH) b -> key_text b b.
Proof. induction 1 as [|c b [Hq Hb] _ IH]; [constructor|by constructor]. Qed.

Lemma key_text_inj b k b' k' t t' : key_text b k -> key_text b' k' -> b ++ QUOTE :: t = b' ++ QUOTE :: t' ->
  b = b' /\ k = k' /\ t = t'.
Proof.
  intros H. revert b' k'. induction H as [|c b k Hq Hb _ IH|c b k Hc _ IH]; intros b' k' H' E;
    inversion H' as [|c' b1 k1 Hq' Hb' H1|c' b1 k1 Hc' H1]; subst; injection E; intros; subst; try done.
  - destruct (IH _ _ H1 H) as (-> & -> & ->). done.
  - destruct (IH _ _ H1 H) as (-> & -> & ->). done.
Qed.

(** A quoted key takes exactly its text. *)
Lemma quoted_key_Ok l k n : quoted_key l = Ok (k, n) <->
  exists b t, l = b ++ QUOTE :: t /\ key_text b k /\ n = (length b + 1)%nat.
Proof.
  unfold quoted_key. pose proof (plain_key_spec l 0 []) as Hp. split.
  - destruct (plain_key l 0 []) as [[[k' n']|]|e]; cbn [mbind result_bind]; [|clear Hp|done].
    + intros [= <- <-]. destruct Hp as (b & t & -> & -> & -> & Hf). exists b, t. split_and!; [done|by apply plain_key_text|lia].
    + intros H. destruct (escaped_key_Ok (length l) l 0 [] k n ltac:(lia) H) as (b & k' & t & -> & Hk & -> & ->).
      by exists b, t.
  - intros (b & t & -> & Hk & ->).
    destruct (plain_key (b ++ QUOTE :: t) 0 []) as [[[k' n']|]|e]; cbn [mbind result_bind].
    + destruct Hp as (b' & t' & E & -> & -> & Hf).
      destruct (key_text_inj _ _ _ _ _ _ Hk (plain_key_text b' Hf) E) as (-> & -> & ->). done.
    + by rewrite (escaped_key_takes b k Hk 0 [] t).
    + destruct Hp as [_ Hf]. apply Forall_app in Hf as [_ Hf]. by inversion_clear Hf.
Qed.

Lemma bracket_bare a t : a <> [] -> head a <> Some QUOTE -> Forall (λ c, c <> OPEN /\ c <> CLOSE) a ->
  bracket (OPEN :: a ++ CLOSE :: t) =
    Ok (match index_of_text a with Some n => Index_ n | None => Key_ a end, length (OPEN :: a ++ [CLOSE])).
Proof.
  intros Hn Hq Ha.
  assert (find_byte (λ c, c =? CLOSE) (a ++ CLOSE :: t) = Some (length a)) as Ef.
  { apply find_byte_Some. exists a, CLOSE, t. split_and!; [done|done| |done]. eapply Forall_impl; [exact Ha|].
    intros x [_ Hx]. by apply Z.eqb_neq. }
  assert (existsb (λ c, c =? OPEN) a = false) as Eo.
  { apply not_true_iff_false. rewrite existsb_exists. intros (x & Hx & E%Z.eqb_eq).
    rewrite Forall_forall in Ha. apply list_elem_of_In, Ha in Hx. naive_solver. }
  unfold bracket. change (drop 1 (OPEN :: a ++ CLOSE :: t)) with (a ++ CLOSE :: t). cbv zeta. rewrite Ef.
  destruct a as [|c a]; [done|]. cbn [app]. destruct (Z.eqb_spec c QUOTE) as [->|_]; [by destruct Hq|].
  cbn [length]. change (take (S (length a)) (c :: a ++ CLOSE :: t)) with (c :: take (length a) (a ++ CLOSE :: t)).
  rewrite take_app_length, Eo. do 2 f_equal. rewrite length_app. cbn. lia.
Qed.

Lemma bracket_quoted_key b k t : key_text b k ->
  bracket (OPEN :: QUOTE :: b ++ QUOTE :: CLOSE :: t) = Ok (Key_ k, length (OPEN :: QUOTE :: b ++ [QUOTE; CLOSE])).
Proof.
  intros Hk. unfold bracket. cbn [drop]. change (QUOTE =? QUOTE) with true. cbn iota.
  rewrite (proj2 (quoted_key_Ok _ k (length b + 1))) by by exists b, (CLOSE :: t).
  cbn [map_err mbind result_bind]. replace (1 + (length b + 1))%nat with (S (length (b ++ [QUOTE]))) by (rewrite length_app; cbn; lia).
  cbn [drop]. replace (b ++ QUOTE :: CLOSE :: t) with ((b ++ [QUOTE]) ++ CLOSE :: t) by by rewrite <- app_assoc.
  rewrite drop_app_length. change (CLOSE =? CLOSE) with true. cbn iota. do 2 f_equal. cbn [length]. rewrite length_app. cbn. lia.
Qed.

Lemma dec_no_bracket n : 0 <= n -> head (dec n) <> Some QUOTE /\ Forall (λ c, c <> OPEN /\ c <> CLOSE) (dec n).
Proof.
  intros Hn. pose proof (dec_digits n Hn) as Hd. split.
  - destruct Hd as [|c l Hc _]; [done|]. intros [= ->]. done.
  - eapply Forall_impl; [exact Hd|]. intros c Hc. by split; intros ->.
Qed.

(** A bracket takes exactly what it spells. *)
Lemma bracket_takes s b t : bracket_spells s b -> bracket (b ++ t) = Ok (s, length b).
Proof.
  destruct 1 as [n Hn|k Hk|b k Hk].
  - cbn [app]. rewrite <- app_assoc. cbn [app]. destruct (dec_no_bracket n ltac:(lia)) as [H1 H2].
    rewrite bracket_bare by (try done; apply dec_nonempty; lia).
    by rewrite (proj2 (index_of_text_spec (dec n) n)).
  - apply needs_quoting_false in Hk as (H1 & H2 & H3 & H4). cbn [app]. rewrite <- app_assoc. cbn [app].
    rewrite bracket_bare by done. by rewrite H4.
  - cbn [app]. rewrite <- app_assoc. cbn [app]. by apply bracket_quoted_key.
Qed.

Lemma bracket_Ok inside s n : bracket (OPEN :: inside) = Ok (s, n) ->
  exists b t, OPEN :: inside = b ++ t /\ bracket_spells s b /\ n = length b.
Proof.
  unfold bracket. change (drop 1 (OPEN :: inside)) with inside. cbv zeta. destruct inside as [|c quoted]; [done|]. destruct (Z.eqb_spec c QUOTE) as [->|Hq].
  - destruct (quoted_key quoted) as [[k r]|e] eqn:E; [|done]. cbn [map_err mbind result_bind].
    apply quoted_key_Ok in E as (b & t & -> & Hk & ->).
    replace (1 + (length b + 1))%nat with (S (length (b ++ [QUOTE]))) by (rewrite length_app; cbn; lia).
    cbn [drop]. replace (b ++ QUOTE :: t) with ((b ++ [QUOTE]) ++ t) by by rewrite <- app_assoc.
    rewrite drop_app_length. destruct t as [|c t]; [done|]. destruct (Z.eqb_spec c CLOSE) as [->|]; [|done].
    intros [= <- <-]. exists (OPEN :: QUOTE :: b ++ [QUOTE; CLOSE]), t. split_and!.
    + cbn [app]. by rewrite <- !app_assoc.
    + by constructor.
    + cbn [length]. rewrite length_app. cbn. lia.
  - destruct (find_byte _ (c :: quoted)) as [[|e]|] eqn:E; [done| |done].
    apply find_byte_Some in E as (a & x & t & E & Hl & Ha & Hx%Z.eqb_eq). subst x. rewrite E, <- Hl, take_app_length.
    destruct (existsb _ a) eqn:Ho; [done|]. intros [= <- <-].
    assert (a <> []) as Hn by by intros ->. assert (head a <> Some QUOTE) as Hh.
    { destruct a as [|y a]; [done|]. injection E as -> _. by intros [= ->]. }
    exists (OPEN :: a ++ [CLOSE]), t. split_and!; [cbn [app]; by rewrite <- app_assoc| |].
    + destruct (index_of_text a) as [m|] eqn:Ei; [apply index_of_text_spec in Ei as [Hm ->]; by constructor|].
      constructor. apply needs_quoting_false. split_and!; [done|done| |done].
      apply Forall_forall. intros y Hy. rewrite Forall_forall in Ha. split.
      * intros ->. apply not_true_iff_false in Ho. apply Ho. apply existsb_exists. exists OPEN. split; [by apply list_elem_of_In|done].
      * intros ->. by apply Ha in Hy.
    + cbn [length]. rewrite length_app. cbn. lia.
Qed.

(** What can follow a name. *)
Definition continues (t : bytes) : Prop := match t with [] => True | c :: _ => c = DOT \/ c = OPEN end.

Lemma name_find name t : bare name -> continues t -> default (length (name ++ t)) (find_byte stops (name ++ t)) = length name.
Proof.
  intros [Hn Hb] Ht. destruct t as [|c t].
  - rewrite app_nil_r. by rewrite (proj2 (find_byte_None _ _)).
  - rewrite (proj2 (find_byte_Some _ _ (length name))); [done|]. exists name, c, t. split_and!; [done|done|done|].
    apply stops_spec. cbn in Ht. naive_solver.
Qed.

Lemma continues_head t : continues t -> head t <> Some CLOSE.
Proof. destruct t as [|c t]; [done|]. by intros [-> | ->] [=]. Qed.

(** The part of [step_] after the dot, on a name. *)
Lemma name_step name t skipped : bare name -> continues t ->
  (let body := name ++ t in
   let end_ := default (length body) (find_byte stops body) in
   if bool_decide (head (drop end_ body) = Some CLOSE) then Err (UnexpectedClose (skipped + end_))
   else if (end_ =? 0)%nat then Err (EmptyField skipped)
   else Ok (Some (Field_ (take end_ body), (skipped + end_)%nat))) = Ok (Some (Field_ name, (skipped + length name)%nat)).
Proof.
  intros Hb Ht. cbv zeta. rewrite name_find, drop_app_length, take_app_length by done.
  rewrite bool_decide_eq_false_2 by by apply continues_head.
  destruct Hb as [Hn _]. by destruct name.
Qed.

Lemma bare_head name t : bare name -> exists c, head (name ++ t) = Some c /\ stops c = false.
Proof. intros [Hn Hb]. destruct Hb as [|c name Hc _]; [done|]. by exists c. Qed.

Lemma step_name name t : bare name -> continues t -> step_ (name ++ t) true = Ok (Some (Field_ name, length name)).
Proof.
  intros Hb Ht. pose proof (name_step name t 0 Hb Ht) as H. destruct (bare_head name t Hb) as (c & Hc & Hs).
  destruct (name ++ t) as [|c' l] eqn:E; [done|]. injection Hc as ->. unfold step_.
  destruct (Z.eqb_spec c DOT) as [->|_]; [done|]. cbn [Nat.eqb andb negb].
  rewrite bool_decide_eq_false_2 by by intros [= ->]. exact H.
Qed.

Lemma step_dot name t first : bare name -> continues t -> step_ (DOT :: name ++ t) first = Ok (Some (Field_ name, S (length name))).
Proof.
  intros Hb Ht. pose proof (name_step name t 1 Hb Ht) as H. destruct (bare_head name t Hb) as (c & Hc & Hs).
  unfold step_. change (DOT =? DOT) with true. cbn iota. cbn [Nat.eqb andb].
  rewrite bool_decide_eq_false_2; [exact H|]. rewrite Hc. by intros [= ->].
Qed.

Lemma step_bracket s b t first : bracket_spells s b -> step_ (b ++ t) first = Ok (Some (s, length b)).
Proof.
  intros Hb. pose proof (bracket_takes s b t Hb) as H.
  assert (exists b', b = OPEN :: b') as [b' ->] by by destruct Hb; eexists.
  cbn [app] in *. unfold step_. change (OPEN =? DOT) with false. cbn iota.
  replace ((0 =? 0)%nat && negb first && negb (OPEN =? OPEN)) with false by by rewrite andb_false_r.
  cbn iota. rewrite bool_decide_eq_true_2 by done. cbn [Nat.eqb]. by rewrite H.
Qed.

Lemma find_stops body : forall n, default (length body) (find_byte stops body) = n ->
  head (drop n body) <> Some CLOSE ->
  exists name t, body = name ++ t /\ n = length name /\ Forall (λ b, stops b = false) name /\ continues t.
Proof.
  intros n <- Hh. destruct (find_byte stops body) as [n|] eqn:E; cbn in *.
  - apply find_byte_Some in E as (a & c & t & -> & <- & Ha & Hc). rewrite drop_app_length in Hh.
    exists a, (c :: t). split_and!; [done|done|done|]. cbn. apply stops_spec in Hc as [-> |[-> | ->]]; [auto|auto|].
    by destruct Hh.
  - apply find_byte_None in E. exists body, []. by rewrite app_nil_r.
Qed.

Lemma step_sound rest f s n : step_ rest f = Ok (Some (s, n)) ->
  (exists name t, f = true /\ rest = name ++ t /\ bare name /\ s = Field_ name /\ n = length name /\ continues t) \/
  (exists name t, rest = DOT :: name ++ t /\ bare name /\ s = Field_ name /\ n = S (length name) /\ continues t) \/
  (exists b t, rest = b ++ t /\ bracket_spells s b /\ n = length b).
Proof.
  unfold step_. destruct rest as [|c tail]; [done|]. destruct (Z.eqb_spec c DOT) as [->|Hd].
  - cbn [Nat.eqb andb]. destruct (bool_decide (head tail = Some OPEN)); [done|].
    case_bool_decide as Hc; [done|]. destruct (find_stops tail _ eq_refl Hc) as (name & t & -> & El & Hb & Ht).
    rewrite El, take_app_length. destruct (Nat.eqb_spec (length name) 0) as [|Hl]; [done|]. intros [= <- <-].
    right; left. exists name, t. split_and!; [done| |done|done|done]. split; [by intros ->|done].
  - cbn [Nat.eqb andb]. destruct (negb f && negb (c =? OPEN)) eqn:Ef; [done|]. case_bool_decide as Ho.
    + injection Ho as ->. destruct (bracket (OPEN :: tail)) as [[s' n']|e] eqn:Eb; [|done]. intros [= <- <-].
      apply bracket_Ok in Eb as (b & t & E & Hb & ->). right; right. by exists b, t.
    + case_bool_decide as Hc; [done|]. destruct (find_stops (c :: tail) _ eq_refl Hc) as (name & t & E & El & Hb & Ht).
      rewrite El, E, take_app_length. destruct (Nat.eqb_spec (length name) 0) as [|Hl]; [done|]. intros [= <- <-].
      left. exists name, t. split_and!; [|done| |done|done|done].
      * destruct f; [done|]. destruct (Z.eqb_spec c OPEN) as [->|]; [done|]. done.
      * split; [by intros ->|done].
Qed.

Lemma step_None rest f : step_ rest f = Ok None -> rest = [].
Proof.
  unfold step_. destruct rest as [|c tail]; [done|]. destruct (if c =? DOT then _ else _) as [body skipped].
  destruct (_ && _ && _); [done|]. case_bool_decide; [destruct (skipped =? 1)%nat; [done|]; by destruct (bracket body) as [[]|]|].
  cbv zeta. case_bool_decide; [done|]. by destruct (_ =? 0)%nat.
Qed.

Lemma reads_continues a t l : reads_path false a t l -> continues t.
Proof. inversion 1; subst; [done|by left|]. destruct H0; by right. Qed.

Lemma bracket_length s b : bracket_spells s b -> (0 < length b)%nat.
Proof. destruct 1; cbn; lia. Qed.

(** What is left of a text is read to its end: every loop of the module is this
    reading. *)
Lemma spelled_from_iff fuel : forall rest at_ first l, (length rest < fuel)%nat ->
  spelled_from fuel rest at_ first = Some l <-> reads_path first at_ rest l.
Proof.
  induction fuel as [|fuel IH]; intros rest at_ first l Hf; [lia|]. cbn [spelled_from]. split.
  - destruct rest as [|c rest0] eqn:Er; [intros [= <-]; constructor|]. rewrite <- Er in *. clear Er c rest0.
    intros H. apply bind_Some in H as (r & Hr & H). apply bind_Some in H as ([s n] & -> & H).
    apply bind_Some in H as (l' & Hl & [= <-]). destruct (step_ rest first) as [r'|] eqn:Es; [|done].
    injection Hr as ->. apply step_sound in Es as [H|[H|H]].
    + destruct H as (name & t & -> & -> & Hb & -> & -> & Ht). rewrite drop_app_length in Hl.
      rewrite length_app in Hf. destruct Hb as [Hn Hb].
      apply IH in Hl; [|destruct name; [done|cbn [length] in Hf; lia]]. by constructor.
    + destruct H as (name & t & -> & Hb & -> & -> & Ht). cbn [drop] in Hl. rewrite drop_app_length in Hl.
      cbn [length] in Hf. rewrite length_app in Hf. apply IH in Hl; [|lia]. by constructor.
    + destruct H as (b & t & -> & Hb & ->). rewrite drop_app_length in Hl. rewrite length_app in Hf.
      pose proof (bracket_length _ _ Hb). apply IH in Hl; [|lia]. by constructor.
  - intros H. destruct H as [f a|a name t l Hb Hl|f a name t l Hb Hl|f a s b t l Hb Hl]; [done| | |].
    + pose proof (reads_continues _ _ _ Hl) as Ht. rewrite (step_name name t Hb Ht). cbn [ok_path mbind option_bind].
      rewrite drop_app_length. rewrite length_app in Hf. destruct Hb as [Hn Hb].
      rewrite (proj2 (IH t _ false l ltac:(destruct name; [done|cbn [length] in Hf; lia])) Hl).
      by destruct name.
    + pose proof (reads_continues _ _ _ Hl) as Ht. rewrite (step_dot name t f Hb Ht). cbn [ok_path mbind option_bind drop].
      rewrite drop_app_length. cbn [length] in Hf. rewrite length_app in Hf.
      by rewrite (proj2 (IH t _ false l ltac:(lia)) Hl).
    + rewrite (step_bracket s b t f Hb). cbn [ok_path mbind option_bind]. rewrite drop_app_length. rewrite length_app in Hf.
      pose proof (bracket_length _ _ Hb). rewrite (proj2 (IH t _ false l ltac:(lia)) Hl). destruct b; [by inversion Hb|done].
Qed.

Lemma spelled_iff text continued l : spelled text continued = Some l <->
  l <> [] /\ (continued = false -> head text <> Some DOT) /\ reads_path (negb continued) 0 text l.
Proof.
  unfold spelled. destruct (negb continued && bool_decide (head text = Some DOT)) eqn:E.
  - apply andb_true_iff in E as [->%negb_true_iff Hd%bool_decide_eq_true]. split; [done|naive_solver].
  - assert (continued = false -> head text <> Some DOT) as Hd.
    { intros ->. cbn in E. by apply bool_decide_eq_false in E. }
    split.
    + intros (l' & Hl & H)%bind_Some. destruct l' as [|x l']; [done|]. injection H as <-.
      apply spelled_from_iff in Hl; [done|lia].
    + intros (Hn & _ & H). rewrite (proj2 (spelled_from_iff _ text _ _ l ltac:(apply Nat.lt_succ_diag_r)) H). by destruct l.
Qed.

(** Both loops over a path agree with reading it. *)
Lemma parse_from_iff fuel : forall rest at_, (length rest <= fuel)%nat ->
  (exists l, reads_path (at_ =? 0)%nat at_ rest l) <-> parse_from fuel rest at_ = Ok ().
Proof.
  induction fuel as [|fuel IH]; intros rest at_ Hf.
  { destruct rest; [|cbn in Hf; lia]. split; [done|]. exists []. constructor. }
  destruct rest as [|c rest0] eqn:Er; [split; [done|exists []; constructor]|]. rewrite <- Er in *. cbn [parse_from].
  replace (match rest with [] => Ok () | _ => _ end) with
    (match step_ rest (at_ =? 0)%nat with
     | Ok (Some (_, read)) => parse_from fuel (drop read rest) (at_ + read)
     | Ok None => Err (EmptyField at_)
     | Err e => Err (offset_by e at_)
     end) by by rewrite Er.
  assert (forall n, (0 < n)%nat -> (at_ + n =? 0)%nat = false) as Hz by (intros; apply Nat.eqb_neq; lia).
  split.
  - intros [l H]. remember (at_ =? 0)%nat as first eqn:Ef. destruct H as [f a|a name t l Hb Hl|f a name t l Hb Hl|f a s b t l Hb Hl]; [done| | |].
    + pose proof (reads_continues _ _ _ Hl) as Ht. rewrite (step_name name t Hb Ht), drop_app_length.
      rewrite length_app in Hf. assert (0 < length name)%nat by (destruct Hb as [? _]; destruct name; [done|cbn; lia]).
      apply IH; [lia|]. rewrite Hz by done. by exists l.
    + pose proof (reads_continues _ _ _ Hl) as Ht. rewrite (step_dot name t f Hb Ht). cbn [drop]. rewrite drop_app_length.
      cbn [length] in Hf. rewrite length_app in Hf. apply IH; [lia|]. rewrite Hz by lia. by exists l.
    + rewrite (step_bracket s b t f Hb), drop_app_length. rewrite length_app in Hf. pose proof (bracket_length _ _ Hb).
      apply IH; [lia|]. rewrite Hz by done. by exists l.
  - destruct (step_ rest (at_ =? 0)%nat) as [[[s n]|]|e] eqn:Es; [|done|done]. clear Er c rest0.
    apply step_sound in Es as [H|[H|H]].
    + destruct H as (name & t & Ef & -> & Hb & -> & -> & Ht). rewrite drop_app_length, Ef. rewrite length_app in Hf.
      assert (0 < length name)%nat by (destruct Hb as [? _]; destruct name; [done|cbn; lia]).
      intros [l Hl]%IH; [|lia]. rewrite Hz in Hl by done. eexists. by constructor.
    + destruct H as (name & t & -> & Hb & -> & -> & Ht). cbn [drop]. rewrite drop_app_length.
      cbn [length] in Hf. rewrite length_app in Hf. intros [l Hl]%IH; [|lia]. rewrite Hz in Hl by lia. eexists. by constructor.
    + destruct H as (b & t & -> & Hb & ->). rewrite drop_app_length. rewrite length_app in Hf. pose proof (bracket_length _ _ Hb).
      intros [l Hl]%IH; [|lia]. rewrite Hz in Hl by done. eexists. by constructor.
Qed.

Lemma segments_from_reads first at_ rest l : reads_path first at_ rest l -> first = (at_ =? 0)%nat ->
  forall fuel, (length rest < fuel)%nat -> segments_from fuel rest at_ = map fst l.
Proof.
  assert (forall a n, (0 < n)%nat -> false = (a + n =? 0)%nat) as Hz by (intros; symmetry; apply Nat.eqb_neq; lia).
  induction 1 as [f a|a name t l Hb Hl IH|f a name t l Hb Hl IH|f a s b t l Hb Hl IH]; intros Ef [|fuel] Hf;
    try lia; cbn [segments_from map fst]; [done|..]; rewrite <- Ef.
  - assert (0 < length name)%nat by (destruct Hb as [? _]; destruct name; [done|cbn; lia]). rewrite length_app in Hf.
    rewrite (step_name name t Hb (reads_continues _ _ _ Hl)). cbn [ok_path]. rewrite drop_app_length, IH; [done|auto|lia].
  - cbn [length] in Hf. rewrite length_app in Hf.
    rewrite (step_dot name t f Hb (reads_continues _ _ _ Hl)). cbn [ok_path drop].
    rewrite drop_app_length, IH; [done|apply Hz; lia|lia].
  - rewrite length_app in Hf. pose proof (bracket_length _ _ Hb). rewrite (step_bracket s b t f Hb). cbn [ok_path].
    rewrite drop_app_length, IH; [done|auto|lia].
Qed.

Lemma reads_empty f a t l : reads_path f a t l -> t = [] <-> l = [].
Proof.
  destruct 1 as [f a|a name t l [Hn _] _|f a name t l _ _|f a s b t l Hb _]; [done|..]; split; try done.
  - by destruct name.
  - by destruct Hb.
Qed.

Lemma parse_spelled text : path_parse text = Ok text <-> exists l, spelled text false = Some l.
Proof.
  setoid_rewrite spelled_iff. unfold path_parse. destruct text as [|c text].
  - split; [done|]. intros (l & Hl & _ & H). destruct Hl. by apply (reads_empty _ _ _ _ H).
  - destruct (Z.eqb_spec c DOT) as [->|Hd].
    { split; [done|]. intros (l & _ & Hh & _). by destruct Hh. }
    pose proof (parse_from_iff (length (c :: text)) (c :: text) 0 ltac:(lia)) as H. split.
    + intros Hp. destruct (proj2 H) as [l Hl]; [by destruct (parse_from _ _ _) as [[]|e]|]. exists l.
      split; [|split; [intros _ [= ->]; done|done]]. intros ->. inversion Hl.
    + intros (l & _ & _ & Hl). by rewrite (proj1 H (ex_intro _ l Hl)).
Qed.

(** ** Writing *)

(** A path as its segments are written: a name behind a dot, except the first. *)
Definition write_next (s : Segment) : bytes :=
  match s with Field_ name => DOT :: name | s => show_segment s end.
Definition write_tail (l : list Segment) : bytes := concat (map write_next l).
Definition write_path (l : list Segment) : bytes :=
  match l with s :: l => show_segment s ++ write_tail l | [] => [] end.

(** Each segment with where it ends, from [a] on. *)
Fixpoint ends_from (a : nat) (l : list Segment) : list (Segment * nat) :=
  match l with [] => [] | s :: l => let a := (a + length (write_next s))%nat in (s, a) :: ends_from a l end.

Lemma reads_tail l : Forall segment_ok l -> forall f a, reads_path f a (write_tail l) (ends_from a l).
Proof.
  induction 1 as [|s l Hs _ IH]; intros f a; [constructor|]. pose proof (show_bracket s Hs) as Hb.
  destruct s as [name|n|k]; cbn [write_tail map concat write_next ends_from]; [apply reads_dot; [done|]|..];
    try apply reads_bracket; try done; apply IH.
Qed.

Lemma reads_segments s l : Forall segment_ok (s :: l) ->
  reads_path true 0 (write_path (s :: l)) ((s, length (show_segment s)) :: ends_from (length (show_segment s)) l).
Proof.
  intros H. inversion_clear H as [|? ? Hs Hl]. pose proof (show_bracket s Hs) as Hb.
  cbn [write_path]. pose proof (reads_tail l Hl false (length (show_segment s))) as Ht.
  destruct s as [name|n|k]; [apply (reads_name 0); [done|exact Ht]|..]; by apply (reads_bracket true 0).
Qed.

Lemma ends_from_segments l a : map fst (ends_from a l) = l.
Proof. revert a. induction l as [|s l IH]; intros a; [done|]. cbn [ends_from map fst]. by rewrite IH. Qed.

Lemma reads_write l : Forall segment_ok l -> exists r, reads_path true 0 (write_path l) r /\ map fst r = l.
Proof.
  destruct l as [|s l]; [exists []; split; [constructor|done]|]. intros H. eexists. split; [by apply reads_segments|].
  cbn [map fst]. by rewrite ends_from_segments.
Qed.

(** ** Properties *)

(** A text is a path exactly when the grammar reads it, and then every way of
    walking it sees the same segments, each where it ends; a path written from its
    segments is read back as them, whatever keys it holds; and a text that is no
    path is refused. *)
Theorem field_path_exact (text : bytes) (l : list Segment) :
  (path_parse text = Ok text <-> exists r, text <> [] /\ head text <> Some DOT /\ reads_path true 0 text r) /\
  (forall r, spelled text false = Some r <-> path_parse text = Ok text /\ reads_path true 0 text r) /\
  (forall r, spelled text false = Some r -> segments text = map fst r) /\
  (Forall segment_ok l -> l <> [] -> path_parse (write_path l) = Ok (write_path l) /\ segments (write_path l) = l).
Proof.
  assert (forall t r, reads_path true 0 t r -> r = [] <-> t = []) as Hnil.
  { intros t r H. symmetry. by apply (reads_empty _ _ _ _ H). }
  assert (forall t r, spelled t false = Some r <-> t <> [] /\ head t <> Some DOT /\ reads_path true 0 t r) as Hsp.
  { intros t r. rewrite spelled_iff. cbn. split.
    - intros (Hr & Hd & H). split_and!; [|auto|done]. by rewrite <- (Hnil _ _ H).
    - intros (Ht & Hd & H). split_and!; [by rewrite (Hnil _ _ H)|done|done]. }
  assert (forall t r, spelled t false = Some r -> segments t = map fst r) as Hseg.
  { intros t r (_ & _ & H)%Hsp. apply (segments_from_reads true 0 t r H); [done|lia]. }
  split; [rewrite parse_spelled; by setoid_rewrite Hsp|].
  split; [|split; [apply Hseg|]].
  - intros r. rewrite parse_spelled, Hsp. split; [|naive_solver]. intros (Ht & Hd & H). split; [|done].
    exists r. by apply Hsp.
  - intros Hl Hn. destruct (reads_write l Hl) as (r & Hr & <-).
    assert (spelled (write_path (map fst r)) false = Some r) as E; [|split; [apply parse_spelled; by exists r|by apply Hseg]].
    apply Hsp. split_and!; [|destruct r as [|[s n] r]; [done|]|done].
    + rewrite <- (Hnil _ _ Hr). by intros ->.
    + inversion_clear Hl as [|? ? Hs _]. cbn. destruct s as [name|i|k]; cbn in Hs |- *; [|done|].
      * destruct (bare_head name (write_tail (map fst r)) Hs) as (c & -> & Hc). by intros [= ->].
      * by destruct (needs_quoting k).
Qed.
