(* ===== verification/Flat.v ===== *)
(** * Flat storage

    [flat.rs] of [guatiao-intake]: a value as entries of a flat store, [key -> text],
    one for each scalar leaf under the path that reaches it, and read back as the
    schema declares. A store is a finite map; its keys in order are those of the
    [BTreeMap]. *)

From stdpp Require Import sorting.
From S2P Require Import Prelude Order Decimal Errors Value Keys Maps Merge MergePath Vocab SchemaRead Validate FieldPath.

Abbreviation Store := (gmap bytes bytes) (only parsing).

(** ** Keys of a store *)

(** The keys in [BTreeMap]'s order. *)
Definition sorted_keys (s : Store) : list bytes := merge_sort text_order (map fst (map_to_list s)).

(** [at_or_under] and [clear_under]. *)
Definition at_or_under (key path : bytes) : bool :=
  bool_decide (key = path) ||
  match strip_of path key with
  | Some (c :: _) => (c =? DOT) || (c =? OPEN)
  | _ => false
  end.
Definition clear_under (s : Store) (path : bytes) : Store := filter (λ e, at_or_under e.1 path = false) s.

(** [keyed], [named], [root_path] and [indexed]. *)
Definition keyed (path key : bytes) : bytes := path ++ show_segment (Key_ key).
Definition named (path name : bytes) : bytes := if is_bare_name name then path ++ [DOT] ++ name else keyed path name.
Definition root_path (name : bytes) : bytes := if is_bare_name name then name else keyed [] name.
Definition indexed (path : bytes) (at_ : nat) : bytes := path ++ show_segment (Index_ (Z.of_nat at_)).

Section flat.
Variable lossy : bytes -> bytes.

(** [scalar_text]. *)
Definition scalar_text (v : Value) : option bytes :=
  match tag v with
  | Ok GUATIAO_BOOL | Ok GUATIAO_NUMBER | Ok GUATIAO_STRING | Ok GUATIAO_BYTES => Some (text_of lossy v)
  | _ => None
  end.

(** ** Writing *)

(** [Frame]: where, what kind, what value, and how deep. *)
Definition Frame : Type := bytes * Kind * Value * nat.

(** The members a value has, as frames under a path. *)
Definition member_frames (path : bytes) (m : Map) (below : nat) (fields : list FieldRef) : list Frame :=
  omap (λ f, v ← get m (fkey f); Some (named path (fkey f), field_kind f, v, below)) fields.

(** [visit]: whether the value fits its kind, the store, and the frames it pushes,
    in order. *)
Definition visit (s : Store) (path : bytes) (kind : Kind) (v : Value) (depth : nat) : bool * Store * list Frame :=
  let below := S depth in
  match kind with
  | KVariant tag _ =>
      match as_map v with
      | None => (false, s, [])
      | Some m =>
          let chosen := str_or (get m tag) [] in
          match list_find (λ a, arm_value a = chosen) (arms kind) with
          | None => (false, s, [])
          | Some (_, arm) => (true, <[path := chosen]> s, member_frames path m below (arm_fields arm))
          end
      end
  | KMap _ =>
      match as_map v with
      | None => (false, s, [])
      | Some m => (true, s, member_frames path m below (kind_fields kind))
      end
  | KMapOf _ =>
      match as_map v with
      | None => (false, s, [])
      | Some m => (true, s, map (λ e, (keyed path e.1, kind_values kind, e.2, below)) m)
      end
  | KList _ _ _ =>
      match as_list v with
      | None => (false, s, [])
      | Some l => (true, s, imap (λ at_ v, (indexed path at_, kind_items kind, v, below)) l)
      end
  | KTuple _ =>
      match as_list v with
      | None => (false, s, [])
      | Some l => (true, s, imap (λ at_ e, (indexed path at_, e.2, e.1, below)) (zip l (positions kind)))
      end
  | _ =>
      match scalar_text v with
      | Some text => (true, <[path := text]> s, [])
      | None => (false, s, [])
      end
  end.

(** How many frames come of one, itself counted: what bounds the loop. *)
Fixpoint frames_of (room : nat) (f : Frame) : nat :=
  let '(path, kind, v, depth) := f in
  match room with
  | O => 1
  | S room => S (sum_list_with (frames_of room) (visit ∅ path kind v depth).2)
  end.

(** One round of [flatten]'s loop: the answer, the store, and the stack, whose end
    is in front. *)
Definition FlatState : Type := bool * Store * list Frame.
Definition flat_round (st : FlatState) : result (fault ValueError) (FlatState + bool * Store) :=
  match st with
  | (fits, s, []) => Ok (inr (fits, s))
  | (fits, s, (path, kind, v, depth) :: stack) =>
      if too_deep depth then Ok (inl (false, s, stack))
      else let '(_, s, pushed) := visit s path kind v depth in Ok (inl (fits, s, rev pushed ++ stack))
  end.

(** [flatten]. *)
Definition flatten (f : FieldRef) (v : Value) (s : Store) : result (fault ValueError) (bool * Store) :=
  let root := root_path (fkey f) in
  let '(fits, s, pushed) := visit (clear_under s root) root (field_kind f) v 0 in
  loop flat_round (2 + sum_list_with (frames_of MAX_DEPTH) pushed) Panic (fits, s, rev pushed).

(** ** Reading *)

(** [BTreeMap::range] from a prefix on, while it is one. *)
Definition starts_text (prefix key : bytes) : bool := bool_decide (is_Some (strip_of prefix key)).
Fixpoint while_ {A} (f : A -> bool) (l : list A) : list A :=
  match l with x :: l => if f x then x :: while_ f l else [] | [] => [] end.
Definition range_of (s : Store) (prefix : bytes) : list bytes :=
  while_ (starts_text prefix) (filter (text_order prefix) (sorted_keys s)).

(** [holds]. *)
Definition holds (s : Store) (path : bytes) : bool :=
  bool_decide (is_Some (s !! path)) ||
  existsb (λ opener, match head (range_of s (path ++ [opener])) with Some _ => true | None => false end) [DOT; OPEN].

(** [Step] and [first_step]. *)
Inductive Step_ : Type := Named_ (name : bytes) | At_ (at_ : Z).
Definition step_of (s : Segment) : Step_ :=
  match s with Field_ name => Named_ name | Key_ key => Named_ key | Index_ at_ => At_ at_ end.
Definition first_step (rest : bytes) : option (Step_ * nat) :=
  l ← spelled rest true; '(segment, read) ← head l; Some (step_of segment, read).

(** [children]: the distinct next steps, each with the prefix that spells it. *)
Definition child_round (path : bytes) (st : list (Step_ * bytes) * list bytes) (key : bytes)
    : list (Step_ * bytes) * list bytes :=
  let '(out, seen) := st in
  match first_step (drop (length path) key) with
  | None => (out, seen)
  | Some (step, read) =>
      let spelled := take (length path + read) key in
      if bool_decide (spelled ∈ seen) then (out, seen) else (out ++ [(step, spelled)], spelled :: seen)
  end.
Definition children (s : Store) (path : bytes) : list (Step_ * bytes) :=
  (foldl (λ st opener, foldl (child_round path) st (range_of s (path ++ [opener]))) ([], []) [DOT; OPEN]).1.

(** The keys of an open map, each with its spellings, in the order they come. *)
Definition step_key (step : Step_) : bytes := match step with Named_ key => key | At_ index => dec index end.
Fixpoint file_spelling (key spelled : bytes) (keys : list (bytes * list bytes)) : list (bytes * list bytes) :=
  match keys with
  | [] => [(key, [spelled])]
  | (k, spellings) :: keys => if bool_decide (k = key) then (k, spellings ++ [spelled]) :: keys
                              else (k, spellings) :: file_spelling key spelled keys
  end.
Definition open_keys (s : Store) (path : bytes) : list (bytes * list bytes) :=
  foldl (λ keys '(step, spelled), file_spelling (step_key step) spelled keys) [] (children s path).
Definition spellings_of (path key : bytes) (spellings : list bytes) : list bytes :=
  let written := keyed path key in written :: List.filter (λ s, negb (bool_decide (s = written))) spellings.

(** The positions of a list, in order and once each. *)
Fixpoint dedup (l : list Z) : list Z :=
  match l with
  | x :: (y :: _) as tail => if x =? y then dedup tail else x :: dedup tail
  | l => l
  end.
Definition list_positions (s : Store) (path : bytes) : list Z :=
  dedup (merge_sort Z.le (omap (λ c, match c.1 with At_ at_ => Some at_ | Named_ _ => None end) (children s path))).

Section rebuild.
Variable s : Store.
Variable again : bytes -> Kind -> option Value.

(** The members of a declared object or of an arm, over what is there. *)
Definition rebuild_fields (path : bytes) (fields : list FieldRef) (m : Map) : Map :=
  foldl (λ m f, match again (named path (fkey f)) (field_kind f) with Some v => set_ m (fkey f) v | None => m end) m fields.

(** An open map's entries. *)
Definition rebuild_open (path : bytes) (values : Kind) : Map :=
  foldl (λ m '(key, spellings),
    match head (omap (λ at_, again at_ values) (List.filter (holds s) (spellings_of path key spellings))) with
    | Some v => set_ m key v
    | None => m
    end) [] (open_keys s path).

(** A tuple's positions, up to the first with nothing stored. *)
Fixpoint rebuild_tuple (path : bytes) (index : nat) (kinds : list Kind) : option (list Value) :=
  match kinds with
  | [] => Some []
  | position :: kinds =>
      let at_ := indexed path index in
      if holds s at_ then v ← again at_ position; l ← rebuild_tuple path (S index) kinds; Some (v :: l)
      else Some []
  end.
End rebuild.

Definition map_if_any (m : Map) : option Value := match m with [] => None | _ => Some (VMap m) end.
Definition list_if_any (l : list Value) : option Value := match l with [] => None | _ => Some (VList l) end.

(** [rebuild], [room] levels left. *)
Fixpoint rebuild (s : Store) (room : nat) (path : bytes) (kind : Kind) : option Value :=
  match room with
  | O => None
  | S room =>
      let again := rebuild s room in
      match kind with
      | KVariant tag _ =>
          chosen ← s !! path;
          '(_, arm) ← list_find (λ a, arm_value a = chosen) (arms kind);
          Some (VMap (rebuild_fields again path (arm_fields arm) (set_ [] tag (VString chosen))))
      | KMap _ => map_if_any (rebuild_fields again path (kind_fields kind) [])
      | KMapOf _ => map_if_any (rebuild_open s again path (kind_values kind))
      | KList _ _ _ =>
          list_if_any (omap (λ index, again (path ++ show_segment (Index_ index)) (kind_items kind)) (list_positions s path))
      | KTuple _ => l ← rebuild_tuple s again path 0 (positions kind); list_if_any l
      | _ => VString <$> s !! path
      end
  end.

(** [unflatten]. *)
Definition unflatten (f : FieldRef) (s : Store) : option Value :=
  let root := root_path (fkey f) in
  if holds s root then rebuild s MAX_DEPTH root (field_kind f) else None.

(** ** What a store's keys belong to *)

(** [keys] and [split]. *)
Definition flat_keys (f : FieldRef) : list bytes :=
  let own := root_path (fkey f) in
  foldl (λ out key, if bool_decide (key ∈ out) then out else out ++ [key]) [own]
    (arm ← arms (field_kind f); member ← arm_fields arm; [named own (fkey member)]).
Definition name_of_segment (s : Segment) : bytes := match s with Field_ name => name | Key_ key => key | Index_ at_ => dec at_ end.
Definition split_key (key : bytes) : option (bytes * bytes) := '(owner, last) ← split_last key; Some (owner, name_of_segment last).
End flat.
