(* ===== verification/FlatLaws.v ===== *)
(** * What flat storage keeps

    The store after [flatten], and what [unflatten] reads of it: the leaves of a
    value under the segments that reach them, each value its text. *)

From stdpp Require Import sorting.
From S2P Require Import Prelude Order Decimal Errors Number Value Keys Maps Merge MergePath Vocab SchemaRead SchemaMerge Validate FieldPath Flat.

(** ** Segments stand apart *)

Lemma step_next s r : segment_ok s -> continues r ->
  step_ (write_next s ++ r) false = Ok (Some (s, length (write_next s))).
Proof.
  intros Hs Hr. pose proof (show_bracket s Hs) as Hb. destruct s as [name|n|k]; cbn [write_next].
  - cbn [app length]. by apply step_dot.
  - by apply step_bracket.
  - by apply step_bracket.
Qed.

Lemma write_next_split s r s' r' : segment_ok s -> segment_ok s' -> continues r -> continues r' ->
  write_next s ++ r = write_next s' ++ r' -> s = s' /\ r = r'.
Proof.
  intros Hs Hs' Hr Hr' E. pose proof (step_next s r Hs Hr) as H. rewrite E, (step_next s' r' Hs' Hr') in H.
  injection H as -> _. split; [done|]. by apply app_inv_head in E.
Qed.

Lemma write_next_head s : exists c t, write_next s = c :: t /\ (c = DOT \/ c = OPEN).
Proof.
  destruct s as [name|n|k]; cbn [write_next show_segment]; [by eexists _, _; split; [|left]|by eexists _, _; split; [|right]|].
  destruct (needs_quoting k); by eexists _, _; split; [|right].
Qed.

Lemma write_next_continues s r : continues (write_next s ++ r).
Proof. destruct (write_next_head s) as (c & t & -> & Hc). exact Hc. Qed.

Lemma write_tail_cons s p : write_tail (s :: p) = write_next s ++ write_tail p.
Proof. done. Qed.

Lemma write_tail_continues p : continues (write_tail p).
Proof. destruct p as [|s p]; [done|]. rewrite write_tail_cons. apply write_next_continues. Qed.

Lemma write_tail_inj p : forall p', Forall segment_ok p -> Forall segment_ok p' -> write_tail p = write_tail p' -> p = p'.
Proof.
  induction p as [|s p IH]; intros [|s' p'] Hp Hp' E; [done|..].
  - rewrite write_tail_cons in E. destruct (write_next_head s') as (c & t & E' & _). by rewrite E' in E.
  - rewrite write_tail_cons in E. destruct (write_next_head s) as (c & t & E' & _). by rewrite E' in E.
  - rewrite !write_tail_cons in E. inversion_clear Hp. inversion_clear Hp'.
    apply write_next_split in E as [-> E]; [|done|done|apply write_tail_continues..]. f_equal. by apply IH.
Qed.

(** The segment a member's name is written as. *)
Definition member_segment (name : bytes) : Segment := if is_bare_name name then Field_ name else Key_ name.

Lemma is_bare_spec name : is_bare_name name = true <-> bare name.
Proof.
  unfold is_bare_name, bare. rewrite andb_true_iff, negb_true_iff, bool_decide_eq_false, negb_true_iff.
  apply and_iff_compat_l. rewrite Forall_forall. split.
  - intros H x Hx. apply not_true_iff_false. intros Hs. apply not_true_iff_false in H. apply H, existsb_exists.
    exists x. split; [by apply list_elem_of_In|done].
  - intros H. apply not_true_iff_false. rewrite existsb_exists. intros (x & Hx & Hs).
    apply list_elem_of_In, H in Hx. congruence.
Qed.

Lemma member_segment_ok name : segment_ok (member_segment name).
Proof. unfold member_segment. destruct (is_bare_name name) eqn:E; [by apply is_bare_spec|done]. Qed.

Lemma member_segment_inj a b : member_segment a = member_segment b -> a = b.
Proof. unfold member_segment. destruct (is_bare_name a), (is_bare_name b); congruence. Qed.

Lemma named_next path name : named path name = path ++ write_next (member_segment name).
Proof. unfold named, member_segment. by destruct (is_bare_name name). Qed.

Lemma keyed_next path key : keyed path key = path ++ write_next (Key_ key).
Proof. done. Qed.

Lemma indexed_next path n : indexed path n = path ++ write_next (Index_ (Z.of_nat n)).
Proof. done. Qed.

Lemma at_or_under_spec key path : at_or_under key path = true <-> exists r, key = path ++ r /\ continues r.
Proof.
  unfold at_or_under. rewrite orb_true_iff, bool_decide_eq_true. split.
  - intros [-> |H]; [exists []; by rewrite app_nil_r|]. destruct (strip_of path key) as [[|c r]|] eqn:E; [done| |done].
    apply strip_of_Some in E as ->. exists (c :: r). split; [done|]. apply orb_true_iff in H as [H%Z.eqb_eq|H%Z.eqb_eq]; [by left|by right].
  - intros (r & -> & Hr). destruct r as [|c r]; [left; apply app_nil_r|right].
    rewrite (proj2 (strip_of_Some _ _ _) eq_refl). by destruct Hr as [-> | ->].
Qed.

Lemma under_tail path p : at_or_under (path ++ write_tail p) path = true.
Proof. apply at_or_under_spec. exists (write_tail p). split; [done|apply write_tail_continues]. Qed.

(** ** The order of a store's keys *)

Lemma starts_text_spec prefix k : starts_text prefix k = true <-> exists t, k = prefix ++ t.
Proof.
  unfold starts_text. rewrite bool_decide_eq_true. split; [intros [t H%strip_of_Some]; by exists t|].
  intros [t H]. exists t. by apply strip_of_Some.
Qed.

Lemma past_prefix prefix a b : text_order prefix a -> text_order a b -> starts_text prefix a = false -> starts_text prefix b = false.
Proof.
  intros H1 H2 H3. apply not_true_iff_false in H3. apply not_true_iff_false. rewrite starts_text_spec in *.
  intros [t ->]. apply H3. clear H3. revert a H1 H2. unfold text_order. induction prefix as [|x prefix IH]; intros a H1 H2; [by exists a|].
  destruct a as [|y a]; [done|]. cbn in H1, H2. apply orb_true_iff in H1, H2. rewrite !andb_true_iff, !Z.ltb_lt, !Z.eqb_eq in *.
  destruct H1 as [H1|[-> H1]], H2 as [H2|[E H2]]; try lia. destruct (IH a H1 H2) as [u ->]. by exists u.
Qed.

Lemma while_sorted prefix l : StronglySorted text_order l -> Forall (text_order prefix) l ->
  while_ (starts_text prefix) l = List.filter (starts_text prefix) l.
Proof.
  induction 1 as [|x l Hs IH Hx]; intros Hp; [done|]. inversion_clear Hp as [|? ? H1 H2]. cbn [while_ List.filter].
  destruct (starts_text prefix x) eqn:E; [f_equal; by apply IH|].
  clear IH Hs. induction Hx as [|y l Hy _ IHl]; [done|]. cbn [List.filter]. inversion_clear H2.
  rewrite (past_prefix prefix x y H1 Hy E). by apply IHl.
Qed.

Lemma sorted_keys_sorted s : StronglySorted text_order (sorted_keys s).
Proof. apply Sorted_StronglySorted; [apply _|]. apply Sorted_merge_sort. apply _. Qed.

Lemma sorted_keys_elem s k : k ∈ sorted_keys s <-> is_Some (s !! k).
Proof.
  unfold sorted_keys. rewrite merge_sort_Permutation. split.
  - intros ([k' t] & -> & H)%list_elem_of_fmap. apply elem_of_map_to_list in H. by exists t.
  - intros [t H]. apply (list_elem_of_fmap_2 fst _ (k, t)). by apply elem_of_map_to_list.
Qed.

Lemma sorted_keys_nodup s : NoDup (sorted_keys s).
Proof. unfold sorted_keys. rewrite merge_sort_Permutation. apply NoDup_fst_map_to_list. Qed.

Lemma filter_sorted (P : bytes -> bool) l : StronglySorted text_order l -> StronglySorted text_order (List.filter P l).
Proof.
  induction 1 as [|x l Hs IH Hx]; [constructor|]. cbn [List.filter]. destruct (P x); [|done]. constructor; [done|].
  apply Forall_forall. intros y [Hy _]%list_elem_of_In%filter_In. rewrite Forall_forall in Hx. apply Hx. by apply list_elem_of_In.
Qed.

(** What a range over a prefix gives: the keys that begin with it, in order. *)
Lemma range_of_spec s prefix : range_of s prefix = List.filter (starts_text prefix) (sorted_keys s).
Proof.
  unfold range_of. assert (filter (text_order prefix) (sorted_keys s) = List.filter (λ k, bool_decide (text_order prefix k)) (sorted_keys s)) as ->.
  { induction (sorted_keys s) as [|x l IH]; [done|]. rewrite filter_cons. cbn [List.filter]. rewrite IH.
    destruct (decide (text_order prefix x)) as [H|H]; [by rewrite bool_decide_eq_true_2|by rewrite bool_decide_eq_false_2]. }
  rewrite while_sorted.
  - induction (sorted_keys s) as [|x l IH]; [done|]. cbn [List.filter]. case_bool_decide as H; cbn [List.filter].
    + by rewrite IH.
    + rewrite IH. destruct (starts_text prefix x) eqn:E; [|done]. apply starts_text_spec in E as [t ->]. destruct H. apply text_le_app.
  - apply filter_sorted, sorted_keys_sorted.
  - apply Forall_forall. intros x [_ H]%list_elem_of_In%filter_In. by apply bool_decide_eq_true in H.
Qed.

Lemma range_of_elem s prefix k : k ∈ range_of s prefix <-> is_Some (s !! k) /\ exists t, k = prefix ++ t.
Proof.
  rewrite range_of_spec, <- starts_text_spec, <- sorted_keys_elem. rewrite !list_elem_of_In. apply filter_In.
Qed.

(** Anything at or under a path. *)
Lemma holds_spec s path : holds s path = true <-> exists key, is_Some (s !! key) /\ at_or_under key path = true.
Proof.
  unfold holds. rewrite orb_true_iff, bool_decide_eq_true, existsb_exists. split.
  - intros [H|(c & Hc & H)].
    + exists path. split; [done|]. apply at_or_under_spec. exists []. by rewrite app_nil_r.
    + destruct (range_of s (path ++ [c])) as [|k l] eqn:E; [done|].
      assert (k ∈ range_of s (path ++ [c])) as [Hk [t ->]]%range_of_elem by (rewrite E; by left).
      exists ((path ++ [c]) ++ t). split; [done|]. apply at_or_under_spec. exists (c :: t). rewrite <- app_assoc. split; [done|].
      apply list_elem_of_In in Hc. set_solver.
  - intros (key & Hk & (r & -> & Hr)%at_or_under_spec). destruct r as [|c r]; [left; by rewrite app_nil_r in Hk|right].
    exists c. split; [cbn; destruct Hr as [-> | ->]; auto|].
    assert (path ++ c :: r ∈ range_of s (path ++ [c])) as H.
    { apply range_of_elem. split; [done|]. exists r. by rewrite <- app_assoc. }
    destruct (range_of s (path ++ [c])); [by apply elem_of_nil in H|done].
Qed.

(** ** What a value stores *)

Section laws.
Variable lossy : bytes -> bytes.

(** One node, without the path it is at: its own text and its children, each behind
    its segment; nothing when the value does not fit. *)
Definition members_of (m : Map) (fields : list FieldRef) : list (Segment * Kind * Value) :=
  omap (λ f, v ← get m (fkey f); Some (member_segment (fkey f), field_kind f, v)) fields.
Definition node_of (kind : Kind) (v : Value) : option (option bytes * list (Segment * Kind * Value)) :=
  match kind with
  | KVariant tag _ =>
      m ← as_map v;
      let chosen := str_or (get m tag) [] in
      '(_, arm) ← list_find (λ a, arm_value a = chosen) (arms kind);
      Some (Some chosen, members_of m (arm_fields arm))
  | KMap _ => m ← as_map v; Some (None, members_of m (kind_fields kind))
  | KMapOf _ => m ← as_map v; Some (None, map (λ e, (Key_ e.1, kind_values kind, e.2)) m)
  | KList _ _ _ => l ← as_list v; Some (None, imap (λ n v, (Index_ (Z.of_nat n), kind_items kind, v)) l)
  | KTuple _ =>
      l ← as_list v; Some (None, imap (λ n e, (Index_ (Z.of_nat n), e.2, e.1)) (zip l (positions kind)))
  | _ => text ← scalar_text lossy v; Some (Some text, [])
  end.

Definition put_own (path : bytes) (text : option bytes) (s : Store) : Store :=
  match text with Some t => <[path := t]> s | None => s end.
Definition frame_at (path : bytes) (below : nat) (c : Segment * Kind * Value) : Frame :=
  let '(seg, kind, v) := c in (path ++ write_next seg, kind, v, below).

Lemma visit_node s path kind v depth : visit lossy s path kind v depth =
  match node_of kind v with
  | None => (false, s, [])
  | Some (text, children) => (true, put_own path text s, map (frame_at path (S depth)) children)
  end.
Proof.
  assert (forall m fields, member_frames path m (S depth) fields = map (frame_at path (S depth)) (members_of m fields)) as Hm.
  { intros m fields. unfold member_frames, members_of. induction fields as [|f fields IH]; [done|]. cbn [omap list_omap].
    destruct (get m (fkey f)) as [x|]; cbn [mbind option_bind]; [|exact IH]. cbn [map frame_at]. by rewrite <- named_next, IH. }
  destruct kind; cbn [visit node_of]; try (destruct (scalar_text lossy v); done).
  - destruct (as_list v) as [l|]; [|done]. cbn [mbind option_bind]. f_equal. change map with (@fmap list _). rewrite fmap_imap. by apply imap_ext.
  - destruct (as_list v) as [l|]; [|done]. cbn [mbind option_bind]. f_equal. rewrite fmap_imap. by apply imap_ext.
  - destruct (as_map v) as [m|]; [|done]. cbn [mbind option_bind put_own]. by rewrite <- Hm.
  - destruct (as_map v) as [m|]; [|done]. cbn [mbind option_bind put_own]. f_equal. rewrite map_map. by apply map_ext.
  - destruct (as_map v) as [m|]; [|done]. cbn [mbind option_bind].
    destruct (list_find _ _) as [[n arm]|]; [|done]. cbn [mbind option_bind put_own]. by rewrite <- Hm.
Qed.

(** The leaves of a value, in the order they are stored: each the segments that
    reach it, and its text. And whether none was cut off by the depth bound. *)
Definition own_leaf (text : option bytes) : list (list Segment * bytes) :=
  match text with Some t => [([], t)] | None => [] end.
Definition behind (seg : Segment) (w : list Segment * bytes) : list Segment * bytes := (seg :: w.1, w.2).
Fixpoint flat_leaves (room : nat) (kind : Kind) (v : Value) : list (list Segment * bytes) :=
  match room with
  | O => []
  | S room =>
      match node_of kind v with
      | None => []
      | Some (text, children) =>
          own_leaf text ++ concat (map (λ c, map (behind c.1.1) (flat_leaves room c.1.2 c.2)) (rev children))
      end
  end.
Fixpoint shallow (room : nat) (kind : Kind) (v : Value) : bool :=
  match room with
  | O => false
  | S room => match node_of kind v with None => true | Some (_, children) => forallb (λ c, shallow room c.1.2 c.2) children end
  end.

(** Leaves stored under a path. *)
Definition put_all (path : bytes) (ws : list (list Segment * bytes)) (s : Store) : Store :=
  foldl (λ s w, <[path ++ write_tail w.1 := w.2]> s) s ws.

Lemma put_all_app path ws ws' s : put_all path (ws ++ ws') s = put_all path ws' (put_all path ws s).
Proof. apply foldl_app. Qed.

Lemma put_all_behind path seg ws : forall s, put_all path (map (behind seg) ws) s = put_all (path ++ write_next seg) ws s.
Proof.
  unfold put_all. induction ws as [|w ws IH]; intros s; [done|]. cbn [map foldl behind fst snd].
  by rewrite IH, write_tail_cons, app_assoc.
Qed.

(** ** The loop stores them *)

Definition room_of (depth : nat) : nat := MAX_DEPTH - depth.
Definition put_frame (s : Store) (f : Frame) : Store :=
  let '(path, kind, v, depth) := f in put_all path (flat_leaves (room_of depth) kind v) s.
Definition frame_shallow (f : Frame) : bool := let '(path, kind, v, depth) := f in shallow (room_of depth) kind v.
Definition frame_cost (f : Frame) : nat := frames_of lossy (room_of f.2) f.

Lemma room_of_step depth : too_deep depth = false -> room_of depth = S (room_of (S depth)).
Proof. unfold too_deep, room_of. intros H%Nat.leb_gt. lia. Qed.

Lemma frames_of_node room path kind v depth : frames_of lossy (S room) (path, kind, v, depth) =
  S (match node_of kind v with None => 0 | Some (_, ch) => sum_list_with (frames_of lossy room) (map (frame_at path (S depth)) ch) end).
Proof. cbn [frames_of]. rewrite visit_node. by destruct (node_of kind v) as [[text ch]|]. Qed.

Lemma put_children path below children : forall s,
  foldl put_frame s (map (frame_at path below) children) =
  put_all path (concat (map (λ c, map (behind c.1.1) (flat_leaves (room_of below) c.1.2 c.2)) children)) s.
Proof.
  induction children as [|[[seg kind] v] children IH]; intros s; [done|].
  cbn [map foldl concat frame_at put_frame fst snd]. by rewrite IH, put_all_app, put_all_behind.
Qed.

Lemma put_frame_node s path kind v depth : too_deep depth = false ->
  put_frame s (path, kind, v, depth) =
  match node_of kind v with
  | None => s
  | Some (text, ch) => foldl put_frame (put_own path text s) (rev (map (frame_at path (S depth)) ch))
  end.
Proof.
  intros Hd. cbn [put_frame]. rewrite (room_of_step depth Hd). cbn [flat_leaves].
  destruct (node_of kind v) as [[text ch]|]; [|done]. rewrite put_all_app, <- map_rev, put_children. f_equal.
  destruct text as [t|]; [|done]. cbn. by rewrite app_nil_r.
Qed.

Lemma frame_shallow_node path kind v depth : too_deep depth = false ->
  frame_shallow (path, kind, v, depth) =
  match node_of kind v with None => true | Some (_, ch) => forallb frame_shallow (map (frame_at path (S depth)) ch) end.
Proof.
  intros Hd. cbn [frame_shallow]. rewrite (room_of_step depth Hd). cbn [shallow].
  destruct (node_of kind v) as [[text ch]|]; [|done]. induction ch as [|[[seg k] x] ch IH]; [done|].
  cbn [map forallb frame_at frame_shallow fst snd]. by rewrite IH.
Qed.

Lemma sum_rev {A} (g : A -> nat) l : sum_list_with g (rev l) = sum_list_with g l.
Proof. induction l as [|x l IH]; [done|]. cbn [rev]. rewrite sum_list_with_app, IH. cbn. lia. Qed.

Lemma forallb_rev {A} (g : A -> bool) l : forallb g (rev l) = forallb g l.
Proof. induction l as [|x l IH]; [done|]. cbn [rev]. rewrite forallb_app, IH. cbn. rewrite andb_true_r. apply andb_comm. Qed.

Lemma flat_loop fuel : forall fits s stack, (sum_list_with frame_cost stack < fuel)%nat ->
  loop (flat_round lossy) fuel Panic (fits, s, stack) = Ok (fits && forallb frame_shallow stack, foldl put_frame s stack).
Proof.
  induction fuel as [|fuel IH]; intros fits s stack Hf; [lia|].
  destruct stack as [|[[[path kind] v] depth] stack]; [cbn; by rewrite andb_true_r|].
  cbn [loop flat_round]. cbn [sum_list_with] in Hf. unfold frame_cost at 1 in Hf. cbn [snd] in Hf.
  cbn [foldl forallb]. destruct (too_deep depth) eqn:Hd.
  - assert (room_of depth = 0%nat) as Er by (unfold room_of; apply Nat.leb_le in Hd; lia).
    rewrite Er in Hf. cbn [frames_of] in Hf. rewrite IH by lia. cbn [put_frame frame_shallow]. rewrite Er. cbn.
    by rewrite andb_false_r.
  - rewrite visit_node, put_frame_node, frame_shallow_node by done. rewrite (room_of_step depth Hd), frames_of_node in Hf.
    destruct (node_of kind v) as [[text ch]|]; cbn [rev app]; [|by rewrite IH by lia].
    rewrite IH, foldl_app, forallb_app, forallb_rev; [by rewrite !andb_assoc|].
    rewrite sum_list_with_app, sum_rev.
    assert (sum_list_with frame_cost (map (frame_at path (S depth)) ch) =
            sum_list_with (frames_of lossy (room_of (S depth))) (map (frame_at path (S depth)) ch)) as ->; [|lia].
    clear. induction ch as [|[[seg k] x] ch IH]; [done|]. cbn [map sum_list_with]. by rewrite IH.
Qed.

Lemma frames_of_mono room room' f : (room <= room')%nat -> (frames_of lossy room f <= frames_of lossy room' f)%nat.
Proof.
  revert room' f. induction room as [|room IH]; intros [|room'] [[[path kind] v] depth] H; try lia.
  - cbn [frames_of]. lia.
  - rewrite !frames_of_node. destruct (node_of kind v) as [[text ch]|]; [|lia]. apply le_n_S.
    induction ch as [|c ch IHc]; [done|]. cbn [map sum_list_with]. pose proof (IH room' (frame_at path (S depth) c) ltac:(lia)). lia.
Qed.

(** [flatten]: what was at or under the field's path goes, and its leaves are
    stored. *)
Lemma flatten_puts f v s : flatten lossy f v s =
  let root := root_path (fkey f) in
  let kind := field_kind f in
  Ok (match node_of kind v with None => false | Some _ => true end && shallow MAX_DEPTH kind v,
      put_all root (flat_leaves MAX_DEPTH kind v) (clear_under s root)).
Proof.
  unfold flatten. cbv zeta. set (root := root_path (fkey f)). rewrite visit_node.
  assert (too_deep 0 = false) as Hd by (vm_compute; reflexivity).
  pose proof (put_frame_node (clear_under s root) root (field_kind f) v 0 Hd) as Hp.
  pose proof (frame_shallow_node root (field_kind f) v 0 Hd) as Hs.
  cbn [put_frame frame_shallow] in Hp, Hs. change (room_of 0) with (MAX_DEPTH - 0)%nat in Hp, Hs.
  rewrite Nat.sub_0_r in Hp, Hs. rewrite Hp, Hs.
  destruct (node_of (field_kind f) v) as [[text ch]|]; [|done]. rewrite flat_loop; [by rewrite forallb_rev|].
  rewrite sum_rev.
  assert (forall l, (sum_list_with frame_cost l <= sum_list_with (frames_of lossy MAX_DEPTH) l)%nat) as Hc; [|pose proof (Hc (map (frame_at root 1) ch)); lia].
  induction l as [|x l IH]; [done|]. cbn [sum_list_with].
  assert (frame_cost x <= frames_of lossy MAX_DEPTH x)%nat; [|lia].
  apply frames_of_mono. unfold room_of. lia.
Qed.

(** ** Leaves are told apart by their paths *)

(** The schemas inside a kind are well formed. *)
Definition kind_ok (kind : Kind) : Prop :=
  match kind with
  | KMap k | KMapOf k | KTuple k => value_wf k
  | KVariant _ a => value_wf a
  | KList items _ _ => value_wf items
  | _ => True
  end.

Lemma kind_read_ok k : value_wf k -> kind_ok (kind_read (Some k)).
Proof.
  intros Hk%wf_peel. unfold kind_read. cbv zeta. destruct (is_true_schema (peel k)); [done|].
  destruct (as_map (peel k)) as [m|] eqn:Em; [|done].
  assert (forall key x, get m key = Some x -> value_wf x) as Hg by (intros key x; by apply (wf_get (peel k))).
  unfold read_type, read_untyped, read_array, read_object. repeat case_match; cbn; eauto.
Qed.

Lemma kind_under_ok v key : value_wf v -> kind_ok (kind_read (under v key)).
Proof. intros Hv. destruct (under v key) as [x|] eqn:E; [|done]. apply kind_read_ok. by eapply wf_under. Qed.

Definition child_ok (c : Segment * Kind * Value) : Prop := segment_ok c.1.1 /\ kind_ok c.1.2 /\ value_wf c.2.
Definition children_ok (ch : list (Segment * Kind * Value)) : Prop := NoDup (map (λ c, c.1.1) ch) /\ Forall child_ok ch.

(** The fields of a schema: no key twice, and every schema well formed. *)
Definition fields_ok (fields : list FieldRef) : Prop :=
  NoDup (fkey <$> fields) /\ forall f, f ∈ fields -> value_wf (fschema f).

Lemma members_ok m fields : value_wf (VMap m) -> fields_ok fields -> children_ok (members_of m fields).
Proof.
  intros Hm [Hn Hf]. unfold members_of.
  assert (forall c, c ∈ omap (λ f, v ← get m (fkey f); Some (member_segment (fkey f), field_kind f, v)) fields ->
    exists f, f ∈ fields /\ c.1.1 = member_segment (fkey f)) as Hin.
  { intros c (f & Hin & H)%list_elem_of_omap. exists f. split; [done|]. destruct (get m (fkey f)); [|done]. by injection H as <-. }
  split.
  - induction fields as [|f fields IH]; [constructor|]. cbn [fmap list_fmap] in Hn. apply NoDup_cons in Hn as [Hx Hn].
    cbn [omap list_omap]. destruct (get m (fkey f)) as [x|] eqn:E; cbn [mbind option_bind].
    + cbn [map]. constructor.
      * intros (c & Ec & Hc)%list_elem_of_fmap. cbn in Ec. apply list_elem_of_omap in Hc as (g & Hg & H).
        destruct (get m (fkey g)); [|done]. injection H as <-. cbn in Ec. apply member_segment_inj in Ec.
        apply Hx. rewrite Ec. by apply list_elem_of_fmap_2.
      * apply IH; [done|intros g Hg; apply Hf; by right|]. intros c Hc. cbn [omap list_omap] in Hin. rewrite E in Hin.
        apply list_elem_of_omap in Hc as (g & Hg & H). exists g. split; [done|]. destruct (get m (fkey g)); [|done]. by injection H as <-.
    + apply IH; [done|intros g Hg; apply Hf; by right|]. intros c Hc. apply list_elem_of_omap in Hc as (g & Hg & H).
      exists g. split; [done|]. destruct (get m (fkey g)); [|done]. by injection H as <-.
  - apply Forall_forall. intros c (f & Hin' & H)%list_elem_of_omap. destruct (get m (fkey f)) as [x|] eqn:E; [|done].
    injection H as <-. split_and!; cbn; [apply member_segment_ok|apply kind_read_ok; by apply Hf|].
    apply get_elem in E. apply value_wf_map in Hm as (_ & _ & Hm). rewrite Forall_forall in Hm. by apply Hm in E as (_ & _ & ?).
Qed.

Lemma fields_of_ok k : value_wf k -> fields_ok (fields_of k).
Proof. intros Hk. by apply fields_wf in Hk. Qed.

Lemma arm_fields_ok kind arm : kind_ok kind -> arm ∈ arms kind -> fields_ok (arm_fields arm).
Proof.
  intros Hk Ha. destruct kind as [| | | | | | | | | | | |tag a| |]; try by apply elem_of_nil in Ha.
  cbn in Hk, Ha. apply list_elem_of_fmap in Ha as (x & -> & Hx). apply list_elem_of_In, filter_In in Hx as [Hx _].
  assert (value_wf x) as Hw.
  { apply list_elem_of_In in Hx. unfold list_items in Hx. cbn in Hx.
    destruct (as_list a) as [l|] eqn:El; [|by apply elem_of_nil in Hx]. by apply (wf_item a l). }
  destruct (fields_of_ok x Hw) as [Hn Hf]. unfold arm_fields. cbn [arm_schema arm_tag]. split.
  - revert Hn. generalize (fields_of x). clear. intros l. induction l as [|f l IH]; intros Hn; [constructor|].
    cbn [fmap list_fmap] in Hn. apply NoDup_cons in Hn as [Hx Hn]. cbn [List.filter]. destruct (negb _); [|by apply IH].
    cbn [fmap list_fmap]. apply NoDup_cons. split; [|by apply IH]. intros (g & E & Hg)%list_elem_of_fmap. apply Hx. rewrite E.
    apply list_elem_of_In, filter_In in Hg as [Hg _]. apply list_elem_of_fmap_2. by apply list_elem_of_In.
  - intros f Hin. apply list_elem_of_In, filter_In in Hin as [Hin _]. apply Hf. by apply list_elem_of_In.
Qed.

Lemma nth_segments {A} (g : nat -> A -> Segment * Kind * Value) l :
  (forall n x, (g n x).1.1 = Index_ (Z.of_nat n)) -> NoDup (map (λ c, c.1.1) (imap g l)).
Proof.
  intros Hg. change map with (@fmap list _). rewrite fmap_imap.
  rewrite (imap_ext _ (λ n _, Index_ (Z.of_nat n))) by (intros; apply Hg). rewrite imap_seq_0.
  apply NoDup_fmap_2; [intros a b [= E]; lia|apply NoDup_seq].
Qed.

Lemma positions_ok k kd : value_wf k -> kd ∈ positions (KTuple k) -> kind_ok kd.
Proof.
  intros Hk (x & -> & Hx)%list_elem_of_fmap. apply kind_read_ok. unfold prefix_items, list_items in Hx.
  destruct (under k PREFIX_ITEMS) as [y|] eqn:E; cbn in Hx; [|by apply elem_of_nil in Hx].
  destruct (as_list y) as [l|] eqn:El; cbn in Hx; [|by apply elem_of_nil in Hx].
  apply (wf_item y l x); [by eapply wf_under|done|done].
Qed.

Lemma node_ok kind v text ch : kind_ok kind -> value_wf v -> node_of kind v = Some (text, ch) -> children_ok ch.
Proof.
  intros Hk Hv.
  assert (forall m, as_map v = Some m -> value_wf (VMap m)) as Hm by (by intros m [-> _]%as_map_Some).
  assert (forall l, as_list v = Some l -> fits l /\ Forall value_wf l) as Hl.
  { intros l ->%as_list_Some. by apply value_wf_list in Hv. }
  destruct kind as [| | | | | |items min max|k|k|k| | |tag a| |]; cbn [node_of];
    try (by destruct (scalar_text lossy v) as [t|]; [intros [= <- <-]; split; constructor|]).
  - destruct (as_list v) as [l|]; [|done]. intros [= <- <-]. destruct (Hl l eq_refl) as [Hf Hw]. split; [by apply nth_segments|].
    apply Forall_lookup. intros i c. rewrite list_lookup_imap. destruct (l !! i) as [x|] eqn:E; [|done]. intros [= <-].
    split_and!; cbn; [|by apply kind_read_ok|by eapply Forall_lookup_1].
    apply lookup_lt_Some in E. unfold fits in Hf. lia.
  - destruct (as_list v) as [l|]; [|done]. intros [= <- <-]. destruct (Hl l eq_refl) as [Hf Hw]. split; [by apply nth_segments|].
    apply Forall_lookup. intros i c. rewrite list_lookup_imap. destruct (zip l _ !! i) as [[x kd]|] eqn:E; [|done].
    intros [= <-]. apply lookup_zip_Some in E as [E1 E2].
    split_and!; cbn [fst snd]; [|eapply positions_ok; [exact Hk|by eapply list_elem_of_lookup_2]|by eapply Forall_lookup_1].
    apply lookup_lt_Some in E1. unfold fits in Hf. cbn. lia.
  - destruct (as_map v) as [m|]; [|done]. intros [= <- <-]. apply members_ok; [by apply Hm|by apply fields_of_ok].
  - destruct (as_map v) as [m|]; [|done]. intros [= <- <-]. specialize (Hm m eq_refl). pose proof Hm as Hm'.
    apply value_wf_map in Hm as (_ & Hn & Hw). split.
    + rewrite map_map. cbn [fst]. change map with (@fmap list _) in *.
      replace ((λ e : bytes * Value, Key_ e.1) <$> m) with (Key_ <$> (fst <$> m)) by by rewrite <- list_fmap_compose.
      apply NoDup_fmap_2; [by intros ? ? [=]|done].
    + apply Forall_forall. intros c (e & -> & He)%list_elem_of_fmap. split_and!; cbn [fst snd]; [done|by apply kind_under_ok|].
      rewrite Forall_forall in Hw. by apply Hw in He as (_ & _ & ?).
  - destruct (as_map v) as [m|]; [|done]. cbn [mbind option_bind].
    destruct (list_find _ _) as [[i arm]|] eqn:Ef; [|done]. intros [= <- <-].
    apply list_find_Some in Ef as (Hi & _). apply list_elem_of_lookup_2 in Hi.
    apply members_ok; [by apply Hm|]. by apply (arm_fields_ok (KVariant tag a)).
Qed.

Lemma leaves_ok room : forall kind v, kind_ok kind -> value_wf v ->
  NoDup (map fst (flat_leaves room kind v)) /\ Forall (λ w, Forall segment_ok w.1) (flat_leaves room kind v).
Proof.
  induction room as [|room IH]; intros kind v Hk Hv; [split; constructor|]. cbn [flat_leaves].
  destruct (node_of kind v) as [[text ch]|] eqn:En; [|split; constructor].
  destruct (node_ok _ _ _ _ Hk Hv En) as [Hn Hc]. clear En.
  assert (NoDup (map (λ c, c.1.1) (rev ch))) as Hn'.
  { rewrite map_rev. apply NoDup_ListNoDup, NoDup_rev. by apply NoDup_ListNoDup. }
  assert (Forall child_ok (rev ch)) as Hc' by (by apply Forall_rev). clear Hn Hc. revert Hn' Hc'.
  generalize (rev ch). clear ch. intros ch Hn Hc.
  assert (forall w, w ∈ concat (map (λ c, map (behind c.1.1) (flat_leaves room c.1.2 c.2)) ch) ->
    exists c w', c ∈ ch /\ w' ∈ flat_leaves room c.1.2 c.2 /\ w = behind c.1.1 w') as Hin.
  { intros w Hw. apply list_elem_of_In, in_concat in Hw as (l & Hl & Hw). apply list_elem_of_In in Hl, Hw.
    apply list_elem_of_fmap in Hl as (c & -> & Hc'). apply list_elem_of_fmap in Hw as (w' & -> & Hw). by exists c, w'. }
  split.
  - rewrite map_app. apply NoDup_app. split; [destruct text; [apply NoDup_singleton|constructor]|]. split.
    + intros p Hp (w & -> & Hw)%list_elem_of_fmap. apply Hin in Hw as (c & w' & _ & _ & ->).
      destruct text; cbn in Hp; [|by apply elem_of_nil in Hp]. by apply list_elem_of_singleton in Hp.
    + clear Hin. induction ch as [|c ch IHc]; [constructor|]. cbn [map concat] in *. rewrite map_app.
      apply NoDup_cons in Hn as [Hx Hn]. inversion_clear Hc as [|? ? H1 H2]. apply NoDup_app. split; [|split; [|by apply IHc]].
      * rewrite map_map. cbn [behind fst]. destruct (IH c.1.2 c.2 (proj1 (proj2 H1)) (proj2 (proj2 H1))) as [Hd _].
        change map with (@fmap list _) in *.
        replace ((λ w : list Segment * bytes, c.1.1 :: w.1) <$> flat_leaves room c.1.2 c.2) with
          ((λ p, c.1.1 :: p) <$> (fst <$> flat_leaves room c.1.2 c.2)) by by rewrite <- list_fmap_compose.
        apply NoDup_fmap_2; [by intros ? ? [=]|done].
      * intros p (w & -> & (w' & -> & _)%list_elem_of_fmap)%list_elem_of_fmap (u & E & Hu)%list_elem_of_fmap.
        cbn in E. apply list_elem_of_In, in_concat in Hu as (l & Hl & Hu). apply list_elem_of_In in Hl, Hu.
        apply list_elem_of_fmap in Hl as (c' & -> & Hc'). apply list_elem_of_fmap in Hu as (u' & -> & _).
        cbn in E. injection E as E _. apply Hx. rewrite E. by apply (list_elem_of_fmap_2 (λ c, c.1.1)).
  - apply Forall_app. split; [destruct text; repeat constructor|]. apply Forall_forall. intros w Hw.
    apply Hin in Hw as (c & w' & Hcin & Hw' & ->). rewrite Forall_forall in Hc. destruct (Hc c Hcin) as (H1 & H2 & H3).
    constructor; [done|]. destruct (IH c.1.2 c.2 H2 H3) as [_ Hf]. rewrite Forall_forall in Hf. by apply Hf.
Qed.

(** ** The store under a path *)

(** At and under a path, a store holds exactly these leaves. *)
Definition stores (s : Store) (path : bytes) (ws : list (list Segment * bytes)) : Prop :=
  forall key t, at_or_under key path = true ->
  s !! key = Some t <-> exists p, (p, t) ∈ ws /\ key = path ++ write_tail p.

Definition paths_ok (ws : list (list Segment * bytes)) : Prop := Forall (λ w, Forall segment_ok w.1) ws.

Lemma put_all_out path ws : forall s key, (forall w, w ∈ ws -> key <> path ++ write_tail w.1) -> put_all path ws s !! key = s !! key.
Proof.
  unfold put_all. induction ws as [|w ws IH]; intros s key H; [done|]. cbn [foldl].
  rewrite IH by (intros u Hu; apply H; by right). apply lookup_insert_ne. intros E. apply (H w); [by left|done].
Qed.

Lemma put_all_in path ws : paths_ok ws -> NoDup (map fst ws) -> forall s p t, (p, t) ∈ ws ->
  put_all path ws s !! (path ++ write_tail p) = Some t.
Proof.
  induction ws as [|w ws IH]; intros Hok Hn s p t Hin; [by apply elem_of_nil in Hin|].
  inversion_clear Hok as [|? ? H1 H2]. cbn [map] in Hn. apply NoDup_cons in Hn as [Hx Hn].
  apply elem_of_cons in Hin as [<-|Hin]; [|by apply IH]. change (put_all path ws (<[path ++ write_tail p := t]> s) !! (path ++ write_tail p) = Some t).
  rewrite put_all_out; [apply lookup_insert_eq|]. intros u Hu E. apply app_inv_head in E.
  apply write_tail_inj in E; [|done|]; [|unfold paths_ok in H2; rewrite Forall_forall in H2; by apply H2]. apply Hx. cbn. rewrite E.
  by apply (list_elem_of_fmap_2 fst).
Qed.

Lemma put_all_stores path ws s : paths_ok ws -> NoDup (map fst ws) -> stores (put_all path ws (clear_under s path)) path ws.
Proof.
  intros Hok Hn key t Hk. split.
  - intros H. destruct (decide (Exists (λ w, key = path ++ write_tail w.1) ws)) as [(w & Hw & ->)%Exists_exists|Hno].
    + destruct w as [p t']. rewrite (put_all_in path ws Hok Hn _ p t' Hw) in H. injection H as ->. by exists p.
    + rewrite put_all_out in H; [|intros w Hw E; apply Hno, Exists_exists; by exists w].
      apply map_lookup_filter_Some in H as [_ H]. cbn in H. congruence.
  - intros (p & Hp & ->). by apply put_all_in.
Qed.

Lemma stores_ext s path ws ws' : (forall w, w ∈ ws <-> w ∈ ws') -> stores s path ws -> stores s path ws'.
Proof. intros E H key t Hk. rewrite (H key t Hk). by setoid_rewrite E. Qed.

(** The leaves behind one segment. *)
Definition below_seg (seg : Segment) (ws : list (list Segment * bytes)) : list (list Segment * bytes) :=
  omap (λ w, match w.1 with sg :: p => if decide (sg = seg) then Some (p, w.2) else None | [] => None end) ws.

Lemma below_elem seg ws w : w ∈ below_seg seg ws <-> behind seg w ∈ ws.
Proof.
  unfold below_seg. rewrite list_elem_of_omap. split.
  - intros ([[|sg p] t] & Hin & H); cbn in H; [done|]. destruct (decide (sg = seg)) as [->|]; [|done]. by injection H as <-.
  - intros H. exists (behind seg w). split; [done|]. cbn. rewrite decide_True by done. by destruct w.
Qed.

Lemma stores_below s path ws seg : paths_ok ws -> segment_ok seg -> stores s path ws ->
  stores s (path ++ write_next seg) (below_seg seg ws).
Proof.
  intros Hok Hseg H key t (r & -> & Hr)%at_or_under_spec. rewrite <- app_assoc.
  rewrite (H (path ++ write_next seg ++ r) t) by (apply at_or_under_spec; eexists; split; [done|apply write_next_continues]).
  setoid_rewrite below_elem. split.
  - intros (p & Hp & E). apply app_inv_head in E. destruct p as [|sg p].
    + destruct (write_next_head seg) as (c & u & E' & _). by rewrite E' in E.
    + unfold paths_ok in Hok. rewrite Forall_forall in Hok. specialize (Hok _ Hp). inversion_clear Hok.
      rewrite write_tail_cons in E. apply write_next_split in E as [-> ->]; [|done..|apply write_tail_continues].
      exists p. split; [done|]. by rewrite <- app_assoc.
  - intros (p & Hp & E). rewrite <- app_assoc in E. apply app_inv_head, app_inv_head in E. subst r.
    exists (seg :: p). by rewrite write_tail_cons.
Qed.

Lemma below_ok seg ws : paths_ok ws -> paths_ok (below_seg seg ws).
Proof.
  unfold paths_ok. rewrite !Forall_forall. intros H w Hw%below_elem. apply H in Hw. by inversion_clear Hw.
Qed.

Lemma stores_holds s path ws : stores s path ws -> holds s path = true <-> ws <> [].
Proof.
  intros H. rewrite holds_spec. split.
  - intros (key & [t Ht] & Hk). apply H in Ht as (p & Hp & _); [|done]. intros ->. by apply elem_of_nil in Hp.
  - intros Hn. destruct ws as [|[p t] ws]; [done|]. exists (path ++ write_tail p). pose proof (under_tail path p) as Hu. split; [|done].
    exists t. apply H; [done|]. exists p. split; [by left|done].
Qed.

Lemma stores_own s path ws t : paths_ok ws -> stores s path ws -> s !! path = Some t <-> ([], t) ∈ ws.
Proof.
  intros Hok H. rewrite (H path t) by (apply at_or_under_spec; exists []; by rewrite app_nil_r). split.
  - intros (p & Hp & E). destruct p as [|sg p]; [done|]. rewrite write_tail_cons in E.
    destruct (write_next_head sg) as (c & u & E' & _). rewrite E' in E. apply (f_equal length) in E. rewrite length_app in E. cbn in E. lia.
  - intros Hp. exists []. split; [done|]. cbn. by rewrite app_nil_r.
Qed.

(** ** The steps under a path *)

Lemma Forall_choose {A B} (P : A -> B -> Prop) l : Forall (λ x, exists y, P x y) l -> exists l', Forall2 P l l'.
Proof.
  induction 1 as [|x l [y Hy] _ [l' IH]]; [by exists []; constructor|]. exists (y :: l'). by constructor.
Qed.

(** Each segment once, where it comes first. *)
Definition nub_round (acc : list Segment) (seg : Segment) : list Segment :=
  if bool_decide (seg ∈ acc) then acc else acc ++ [seg].
Definition nub (l : list Segment) : list Segment := foldl nub_round [] l.

Lemma nub_from l : forall acc, NoDup acc ->
  NoDup (foldl nub_round acc l) /\ (forall x, x ∈ foldl nub_round acc l <-> x ∈ acc \/ x ∈ l).
Proof.
  induction l as [|y l IH]; intros acc Hn; [split; [done|set_solver]|]. cbn [foldl]. unfold nub_round at 2 4. case_bool_decide as Hy.
  - destruct (IH acc Hn) as [H1 H2]. split; [done|]. intros x. rewrite H2. set_solver.
  - destruct (IH (acc ++ [y])) as [H1 H2].
    { apply NoDup_app. split; [done|]. split; [set_solver|apply NoDup_singleton]. }
    split; [done|]. intros x. rewrite H2. set_solver.
Qed.

Lemma nub_sorted (R : Segment -> Segment -> Prop) l : forall acc, StronglySorted R (acc ++ l) -> StronglySorted R (foldl nub_round acc l).
Proof.
  induction l as [|y l IH]; intros acc H; [by rewrite app_nil_r in H|]. cbn [foldl]. unfold nub_round at 2. case_bool_decide as Hy.
  - apply IH. apply StronglySorted_app in H as (H1 & H2 & H3). apply StronglySorted_cons in H3 as [_ H3].
    apply StronglySorted_app. split_and!; [|done|done]. intros a b Ha Hb. apply H1; [done|by right].
  - apply IH. by rewrite <- app_assoc.
Qed.

(** A key under a path, read as its first segment. *)
Definition first_is (path key : bytes) (seg : Segment) : Prop :=
  exists p, Forall segment_ok (seg :: p) /\ key = path ++ write_tail (seg :: p).

Lemma first_step_tail seg p : Forall segment_ok (seg :: p) ->
  first_step (write_tail (seg :: p)) = Some (step_of seg, length (write_next seg)).
Proof.
  intros H. unfold first_step. pose proof (reads_tail (seg :: p) H false 0) as Hr.
  rewrite (proj2 (spelled_iff (write_tail (seg :: p)) true (ends_from 0 (seg :: p)))); [done|]. by split_and!.
Qed.

Definition child_of (path : bytes) (seg : Segment) : Step_ * bytes := (step_of seg, path ++ write_next seg).

Lemma child_fold path keys segs : Forall2 (first_is path) keys segs -> forall acc, Forall segment_ok acc ->
  exists seen, foldl (child_round path) (map (child_of path) acc, map (λ g, path ++ write_next g) (rev acc)) keys =
    (map (child_of path) (foldl nub_round acc segs), seen) /\ seen = map (λ g, path ++ write_next g) (rev (foldl nub_round acc segs)).
Proof.
  induction 1 as [|key seg keys segs Hk _ IH]; intros acc Hacc; [by eexists|]. destruct Hk as (p & Hp & ->).
  assert (segment_ok seg) as Hseg by by inversion Hp.
  cbn [foldl]. unfold child_round at 2. rewrite drop_app_length, first_step_tail by done.
  replace (take (length path + length (write_next seg)) (path ++ write_tail (seg :: p))) with (path ++ write_next seg).
  2:{ rewrite write_tail_cons, app_assoc, <- length_app. by rewrite take_app_length. }
  assert ((path ++ write_next seg ∈ map (λ g, path ++ write_next g) (rev acc)) <-> seg ∈ acc) as Hin.
  { split.
    - intros (g & E & Hg)%list_elem_of_fmap. apply app_inv_head in E. rewrite list_elem_of_In, <- in_rev, <- list_elem_of_In in Hg.
      rewrite Forall_forall in Hacc. specialize (Hacc g Hg).
      destruct (write_next_split seg [] g [] Hseg Hacc I I) as [-> _]; [by rewrite !app_nil_r|done].
    - intros Hg. apply (list_elem_of_fmap_2 (λ g, path ++ write_next g)). by rewrite list_elem_of_In, <- in_rev, <- list_elem_of_In. }
  unfold nub_round at 2 4. destruct (decide (seg ∈ acc)) as [Hs|Hs].
  - rewrite !bool_decide_eq_true_2 by (done || by apply Hin). by apply IH.
  - rewrite !bool_decide_eq_false_2 by (done || by rewrite Hin).
    specialize (IH (acc ++ [seg])). rewrite map_app, rev_app_distr in IH. apply IH.
    apply Forall_app. split; [done|by constructor].
Qed.

Definition is_bracket (seg : Segment) : Prop := match seg with Field_ _ => False | _ => True end.
Definition next_order (a b : Segment) : Prop := text_order (write_next a) (write_next b).

Lemma text_le_parts a : forall b r r', text_order (a ++ r) (b ++ r') -> text_order a b \/ exists u, a = b ++ u.
Proof.
  unfold text_order. induction a as [|x a IH]; intros [|y b] r r' H; cbn in *; [auto|auto|right; by exists (x :: a)|].
  apply orb_true_iff in H. rewrite andb_true_iff, Z.ltb_lt, Z.eqb_eq in H. rewrite orb_true_iff, andb_true_iff, Z.ltb_lt, Z.eqb_eq.
  destruct H as [H|[-> H]]; [auto|]. destruct (IH _ _ _ H) as [H'|[u ->]]; [auto|right; by exists u].
Qed.

Lemma next_order_of a b r r' : segment_ok a -> segment_ok b -> is_bracket a -> is_bracket b ->
  text_order (write_next a ++ r) (write_next b ++ r') -> next_order a b.
Proof.
  intros Ha Hb Ba Bb H. pose proof (show_bracket a Ha) as Sa. pose proof (show_bracket b Hb) as Sb.
  destruct (text_le_parts _ _ _ _ H) as [H'|[u E]]; [done|].
  assert (bracket (write_next a) = Ok (a, length (write_next a))) as H2.
  { destruct a as [|n|k]; [done|..]; cbn [write_next]; rewrite <- (app_nil_r (show_segment _)) at 1; by apply bracket_takes. }
  assert (bracket (write_next b ++ u) = Ok (b, length (write_next b))) as H1.
  { destruct b as [|n|k]; [done|..]; cbn [write_next]; by apply bracket_takes. }
  rewrite <- E, H2 in H1. assert (a = b) as -> by congruence. apply text_le_refl.
Qed.

Lemma next_order_antisymm a b : segment_ok a -> segment_ok b -> next_order a b -> next_order b a -> a = b.
Proof.
  intros Ha Hb H1 H2. pose proof (anti_symm text_order _ _ H1 H2) as E.
  destruct (write_next_split a [] b [] Ha Hb I I) as [-> _]; [by rewrite !app_nil_r|done].
Qed.

(** The steps under a path: one for each segment that leads somewhere, in the order
    of their spelling when they are brackets. *)
Lemma children_spec s path ws : paths_ok ws -> stores s path ws ->
  exists segs, children s path = map (child_of path) segs /\ NoDup segs /\
    (forall seg, seg ∈ segs <-> segment_ok seg /\ below_seg seg ws <> []) /\
    (Forall is_bracket segs -> StronglySorted next_order segs).
Proof.
  intros Hok Hst.
  assert (forall c k, c = DOT \/ c = OPEN -> k ∈ range_of s (path ++ [c]) ->
    exists seg p t, (seg :: p, t) ∈ ws /\ k = path ++ write_tail (seg :: p)) as Hin.
  { intros c k Hc [[t Ht] [u ->]]%range_of_elem. rewrite <- app_assoc in Ht |- *.
    apply Hst in Ht as (p & Hp & E); [|apply at_or_under_spec; by exists (c :: u)].
    destruct p as [|seg p]; [|by exists seg, p, t]. apply app_inv_head in E. done. }
  assert (forall seg p t, (seg :: p, t) ∈ ws -> path ++ write_tail (seg :: p) ∈ range_of s (path ++ [DOT]) \/
    path ++ write_tail (seg :: p) ∈ range_of s (path ++ [OPEN])) as Hout.
  { intros seg p t Hp. rewrite !range_of_elem.
    assert (is_Some (s !! (path ++ write_tail (seg :: p)))) as Hs by (exists t; apply Hst; [apply under_tail|eauto]).
    rewrite write_tail_cons in *. destruct (write_next_head seg) as (c & u & E & [-> | ->]); rewrite E in *; [left|right];
      (split; [done|]; exists (u ++ write_tail p); by rewrite <- app_assoc). }
  set (K := range_of s (path ++ [DOT]) ++ range_of s (path ++ [OPEN])).
  assert (exists fs, Forall2 (λ k seg, first_is path k seg /\ exists p t, (seg :: p, t) ∈ ws /\ k = path ++ write_tail (seg :: p)) K fs) as (fs & Hfs).
  { apply Forall_choose, Forall_forall. intros k Hk.
    assert (exists seg p t, (seg :: p, t) ∈ ws /\ k = path ++ write_tail (seg :: p)) as (seg & p & t & Hp & ->).
    { unfold K in Hk. apply elem_of_app in Hk as [Hk|Hk]; [apply (Hin DOT)|apply (Hin OPEN)]; auto. }
    exists seg. split; [|eauto]. exists p. split; [|done]. unfold paths_ok in Hok. rewrite Forall_forall in Hok. exact (Hok _ Hp). }
  assert (forall seg, seg ∈ fs <-> exists p t, (seg :: p, t) ∈ ws) as Hmem.
  { intros seg. split.
    - intros [i Hi]%list_elem_of_lookup. destruct (Forall2_lookup_r _ _ _ _ _ Hfs Hi) as (k & _ & _ & p & t & Hp & _). eauto.
    - intros (p & t & Hp). assert (path ++ write_tail (seg :: p) ∈ K) as [i Hi]%list_elem_of_lookup.
      { unfold K. apply elem_of_app. by eapply Hout. }
      destruct (Forall2_lookup_l _ _ _ _ _ Hfs Hi) as (seg' & Hi' & _ & p' & t' & Hp' & E).
      apply app_inv_head, write_tail_inj in E; [injection E as -> _; by eapply list_elem_of_lookup_2|..];
        unfold paths_ok in Hok; rewrite Forall_forall in Hok; [exact (Hok _ Hp)|exact (Hok _ Hp')]. }
  assert (Forall2 (first_is path) K fs) as Hf1 by (eapply Forall2_impl; [exact Hfs|]; by intros ? ? [? _]).
  destruct (nub_from fs [] (NoDup_nil_2)) as [Hnd Helem].
  exists (nub fs). split_and!.
  - unfold children. cbn [foldl]. rewrite <- foldl_app.
    destruct (child_fold path K fs Hf1 [] (Forall_nil_2 _)) as (seen & E & _). cbn [map rev] in E. fold K. by rewrite E.
  - exact Hnd.
  - intros seg. unfold nub. rewrite Helem. rewrite Hmem. split.
    + intros [Hn|(p & t & Hp)]; [by apply elem_of_nil in Hn|]. split.
      * unfold paths_ok in Hok. rewrite Forall_forall in Hok. specialize (Hok _ Hp). by inversion Hok.
      * intros E. assert ((p, t) ∈ below_seg seg ws) as Hb by by apply below_elem. rewrite E in Hb. by apply elem_of_nil in Hb.
    + intros [_ Hn]. right. destruct (below_seg seg ws) as [|[p t] l] eqn:E; [done|].
      exists p, t. apply (below_elem seg ws (p, t)). rewrite E. by left.
  - intros Hb. apply nub_sorted. cbn [app].
    assert (Forall is_bracket fs) as Hbf.
    { rewrite Forall_forall in Hb |- *. intros x Hx. apply Hb. apply Helem. by right. }
    assert (StronglySorted text_order K) as HK.
    { unfold K. rewrite !range_of_spec. apply StronglySorted_app. split_and!; [|apply filter_sorted, sorted_keys_sorted..].
      intros x y [_ Hx]%list_elem_of_In%filter_In [_ Hy]%list_elem_of_In%filter_In.
      apply starts_text_spec in Hx as [u ->], Hy as [u' ->]. rewrite <- !app_assoc. cbn [app]. unfold text_order. clear.
      induction path as [|c path IH]; [done|]. cbn [app text_le]. rewrite Z.eqb_refl. cbn [andb]. rewrite IH. apply orb_true_r. }
    clear -Hf1 HK Hbf. induction Hf1 as [|k seg K fs Hk Hf1 IH]; [constructor|].
    apply StronglySorted_cons in HK as [Hle HK]. inversion_clear Hbf as [|? ? B1 B2]. apply StronglySorted_cons. split; [|by apply IH].
    destruct Hk as (p & Hp & ->). clear IH HK. induction Hf1 as [|k' seg' K fs Hk' _ IH]; [constructor|].
    inversion_clear Hle as [|? ? L1 L2]. inversion_clear B2 as [|? ? B3 B4]. constructor; [|by apply IH].
    destruct Hk' as (p' & Hp' & ->). rewrite !write_tail_cons in L1. apply text_order_cancel in L1.
    inversion Hp; inversion Hp'; subst. by eapply next_order_of.
Qed.

(** ** What is read back *)

(** A value as its leaves give it back: scalars as their text; a declared object, or
    an arm, with the members that came back, in the order they are declared; an open
    map in the order its keys are spelled; a list without the elements that stored
    nothing, a tuple up to the first that did; and nothing where nothing came back. *)
Definition project_fields (again : Kind -> Value -> option Value) (m : Map) (fields : list FieldRef) (out : Map) : Map :=
  foldl (λ out f, match get m (fkey f) ≫= again (field_kind f) with Some v => set_ out (fkey f) v | None => out end) out fields.
Fixpoint project_tuple (again : Kind -> Value -> option Value) (kept : Kind -> Value -> bool) (kinds : list Kind) (l : list Value)
    : option (list Value) :=
  match kinds, l with
  | position :: kinds, x :: l =>
      if kept position x then v ← again position x; l ← project_tuple again kept kinds l; Some (v :: l) else Some []
  | _, _ => Some []
  end.
Definition spelled_order (a b : bytes * Value) : Prop := next_order (Key_ a.1) (Key_ b.1).
#[export] Instance spelled_order_dec : RelDecision spelled_order := λ a b, decide (text_order (write_next (Key_ a.1)) (write_next (Key_ b.1))).
Definition kept_leaves (room : nat) (kind : Kind) (v : Value) : bool := negb (bool_decide (flat_leaves room kind v = [])).
Fixpoint project (room : nat) (kind : Kind) (v : Value) : option Value :=
  match room with
  | O => None
  | S room =>
      match kind with
      | KVariant tag _ =>
          m ← as_map v;
          let chosen := str_or (get m tag) [] in
          '(_, arm) ← list_find (λ a, arm_value a = chosen) (arms kind);
          Some (VMap (project_fields (project room) m (arm_fields arm) (set_ [] tag (VString chosen))))
      | KMap _ => m ← as_map v; map_if_any (project_fields (project room) m (kind_fields kind) [])
      | KMapOf _ =>
          m ← as_map v;
          map_if_any (merge_sort spelled_order (omap (λ e, x ← project room (kind_values kind) e.2; Some (e.1, x)) m))
      | KList _ _ _ => l ← as_list v; list_if_any (omap (project room (kind_items kind)) l)
      | KTuple _ => l ← as_list v; l ← project_tuple (project room) (kept_leaves room) (positions kind) l; list_if_any l
      | _ => VString <$> scalar_text lossy v
      end
  end.

(** ** Reading nothing *)

Lemma children_nothing s path : stores s path [] -> children s path = [].
Proof.
  intros H. destruct (children_spec s path [] (Forall_nil_2 _) H) as (segs & -> & _ & He & _).
  destruct segs as [|g segs]; [done|]. exfalso. destruct (proj1 (He g) ltac:(by left)) as [_ Hb]. by apply Hb.
Qed.

Lemma stores_nothing_below s path seg : segment_ok seg -> stores s path [] -> stores s (path ++ write_next seg) [].
Proof. intros Hs H. apply (stores_below s path [] seg); [constructor|done|done]. Qed.

Lemma fields_nothing again path fields m : (forall f, again (named path (fkey f)) (field_kind f) = None) ->
  rebuild_fields again path fields m = m.
Proof. intros H. unfold rebuild_fields. induction fields as [|f fields IH]; [done|]. cbn [foldl]. by rewrite H. Qed.

Lemma rebuild_nothing room : forall s path kind, stores s path [] -> rebuild s room path kind = None.
Proof.
  induction room as [|room IH]; intros s path kind H; [done|].
  assert (s !! path = None) as Hp.
  { apply eq_None_not_Some. intros [t Ht]. apply (stores_own s path [] t (Forall_nil_2 _) H) in Ht. by apply elem_of_nil in Ht. }
  assert (forall f, rebuild s room (named path (fkey f)) (field_kind f) = None) as Hf.
  { intros f. rewrite named_next. apply IH. apply stores_nothing_below; [apply member_segment_ok|done]. }
  pose proof (children_nothing s path H) as Hc.
  destruct kind as [| | | | | |items min max|k|k|k| | |tag a| |]; cbn [rebuild]; rewrite ?Hp; try done.
  - unfold list_positions. by rewrite Hc.
  - destruct (positions (KTuple k)) as [|kd kinds]; [done|]. cbn [rebuild_tuple].
    destruct (holds s (indexed path 0)) eqn:E; [|done]. rewrite indexed_next in E.
    apply (stores_holds s _ []) in E; [done|]. by apply stores_nothing_below.
  - by rewrite fields_nothing.
  - unfold rebuild_open, open_keys. by rewrite Hc.
Qed.

(** ** Reading what one node stored *)

Definition node_leaves (room : nat) (text : option bytes) (ch : list (Segment * Kind * Value)) : list (list Segment * bytes) :=
  own_leaf text ++ concat (map (λ c, map (behind c.1.1) (flat_leaves room c.1.2 c.2)) (rev ch)).

Lemma node_leaves_elem room text ch seg w : behind seg w ∈ node_leaves room text ch <->
  exists k x, (seg, k, x) ∈ ch /\ w ∈ flat_leaves room k x.
Proof.
  unfold node_leaves. rewrite elem_of_app. split.
  - intros [H|H]; [destruct text; cbn in H; [by apply list_elem_of_singleton in H|by apply elem_of_nil in H]|].
    apply list_elem_of_In, in_concat in H as (l & Hl & H). apply list_elem_of_In in Hl, H.
    apply list_elem_of_fmap in Hl as ([[g k] x] & -> & Hc). apply list_elem_of_fmap in H as (w' & E & H).
    destruct w, w'. injection E as -> -> ->. exists k, x. split; [|done]. by rewrite list_elem_of_In, <- in_rev, <- list_elem_of_In in Hc.
  - intros (k & x & Hc & H). right. apply list_elem_of_In, in_concat. exists (map (behind seg) (flat_leaves room k x)).
    split; apply list_elem_of_In; [|by apply list_elem_of_fmap_2].
    apply (list_elem_of_fmap_2 (λ c, map (behind c.1.1) (flat_leaves room c.1.2 c.2)) _ (seg, k, x)).
    by rewrite list_elem_of_In, <- in_rev, <- list_elem_of_In.
Qed.

Lemma child_unique ch seg k x k' x' : children_ok ch -> (seg, k, x) ∈ ch -> (seg, k', x') ∈ ch -> k = k' /\ x = x'.
Proof.
  intros [Hn _] [i Hi]%list_elem_of_lookup [j Hj]%list_elem_of_lookup.
  assert (i = j) as ->.
  { eapply (NoDup_lookup (map (λ c, c.1.1) ch)); [exact Hn|..]; rewrite list_lookup_fmap; [by rewrite Hi|by rewrite Hj]. }
  rewrite Hi in Hj. by injection Hj.
Qed.

Section node_of.
Variables (s : Store) (path : bytes) (room : nat) (text : option bytes) (ch : list (Segment * Kind * Value)).
Hypothesis Hch : children_ok ch.
Hypothesis Hst : stores s path (node_leaves room text ch).

Lemma node_leaves_ok : paths_ok (node_leaves room text ch).
Proof using Hch Hst.
  unfold paths_ok, node_leaves. apply Forall_app. split; [destruct text; repeat constructor|].
  apply Forall_forall. intros w H. apply list_elem_of_In, in_concat in H as (l & Hl & H). apply list_elem_of_In in Hl, H.
  apply list_elem_of_fmap in Hl as ([[g k] x] & -> & Hc). apply list_elem_of_fmap in H as (w' & -> & H).
  rewrite list_elem_of_In, <- in_rev, <- list_elem_of_In in Hc. destruct Hch as [_ Ho]. rewrite Forall_forall in Ho.
  destruct (Ho _ Hc) as (H1 & H2 & H3). constructor; [done|]. destruct (leaves_ok room k x H2 H3) as [_ Hl].
  rewrite Forall_forall in Hl. by apply Hl.
Qed.

Lemma child_stores seg k x : (seg, k, x) ∈ ch -> stores s (path ++ write_next seg) (flat_leaves room k x).
Proof using Hch Hst.
  intros Hc. assert (segment_ok seg) as Hs by (destruct Hch as [_ Ho]; rewrite Forall_forall in Ho; by apply Ho in Hc as (? & _)).
  eapply stores_ext; [|apply (stores_below s path _ seg node_leaves_ok Hs Hst)].
  intros w. rewrite below_elem, node_leaves_elem. split; [|eauto]. intros (k' & x' & Hc' & H).
  by destruct (child_unique ch seg k x k' x' Hch Hc Hc') as [-> ->].
Qed.

Lemma no_child_stores seg : segment_ok seg -> (forall k x, (seg, k, x) ∉ ch) -> stores s (path ++ write_next seg) [].
Proof using Hch Hst.
  intros Hs Hno. eapply stores_ext; [|apply (stores_below s path _ seg node_leaves_ok Hs Hst)].
  intros w. rewrite below_elem, node_leaves_elem. split; [|by intros ?%elem_of_nil].
  intros (k & x & Hc & _). by apply Hno in Hc.
Qed.

(** The steps under a node are its children that stored something. *)
Lemma node_children : exists segs, children s path = map (child_of path) segs /\ NoDup segs /\
  (forall seg, seg ∈ segs <-> exists k x, (seg, k, x) ∈ ch /\ flat_leaves room k x <> []) /\
  (Forall is_bracket segs -> StronglySorted next_order segs).
Proof using Hch Hst.
  destruct (children_spec s path _ node_leaves_ok Hst) as (segs & E & Hn & He & Hs). exists segs. split_and!; [done|done| |done].
  intros seg. rewrite He. split.
  - intros [_ Hb]. destruct (below_seg seg _) as [|w l] eqn:Eb; [done|].
    assert (w ∈ below_seg seg (node_leaves room text ch)) as Hw by (rewrite Eb; by left).
    apply below_elem, node_leaves_elem in Hw as (k & x & Hc & H). exists k, x. split; [done|]. by intros E'; rewrite E' in H; apply elem_of_nil in H.
  - intros (k & x & Hc & H). split; [destruct Hch as [_ Ho]; rewrite Forall_forall in Ho; by apply Ho in Hc as (? & _)|].
    destruct (flat_leaves room k x) as [|w l] eqn:El; [done|].
    assert (w ∈ below_seg seg (node_leaves room text ch)) as Hw by (apply below_elem, node_leaves_elem; exists k, x; split; [done|rewrite El; by left]).
    intros Eb. rewrite Eb in Hw. by apply elem_of_nil in Hw.
Qed.
End node_of.

Section level.
Variable room : nat.
Hypothesis IH : forall s path kind v, kind_ok kind -> value_wf v -> stores s path (flat_leaves room kind v) ->
  rebuild s room path kind = project room kind v.

Lemma project_nothing kind v : kind_ok kind -> value_wf v -> flat_leaves room kind v = [] -> project room kind v = None.
Proof using IH.
  intros Hk Hv E. assert (stores ∅ [] []) as H0.
  { intros key t _. split; [by rewrite lookup_empty|]. intros (p & Hp & _). by apply elem_of_nil in Hp. }
  rewrite <- (IH ∅ [] kind v Hk Hv) by by rewrite E. by apply rebuild_nothing.
Qed.

Lemma fields_project s path text m fields : fields_ok fields -> value_wf (VMap m) ->
  stores s path (node_leaves room text (members_of m fields)) ->
  forall out, rebuild_fields (rebuild s room) path fields out = project_fields (project room) m fields out.
Proof using IH.
  intros Hf Hm Hst. pose proof (members_ok m fields Hm Hf) as Hch.
  assert (forall f, f ∈ fields -> rebuild s room (named path (fkey f)) (field_kind f) = get m (fkey f) ≫= project room (field_kind f)) as Hg.
  { intros f Hin. rewrite named_next. destruct (get m (fkey f)) as [x|] eqn:Eg; cbn [mbind option_bind].
    - assert ((member_segment (fkey f), field_kind f, x) ∈ members_of m fields) as Hc.
      { apply list_elem_of_omap. exists f. by rewrite Eg. }
      destruct Hch as [Hn Ho]. pose proof Ho as Ho'. rewrite Forall_forall in Ho'. destruct (Ho' _ Hc) as (_ & Hk & Hx).
      apply IH; [done|done|]. by apply (child_stores s path room text (members_of m fields)).
    - apply rebuild_nothing. apply (no_child_stores s path room text (members_of m fields)); [done|done|apply member_segment_ok|].
      intros k x (g & Hgin & H)%list_elem_of_omap. destruct (get m (fkey g)) eqn:E; [|done]. injection H as H _ _.
      apply member_segment_inj in H. congruence. }
  unfold rebuild_fields, project_fields. clear Hf Hst Hch. induction fields as [|f fields IHf]; intros out; [done|].
  cbn [foldl]. rewrite (Hg f) by (by left). apply IHf. intros g Hgin. apply Hg. by right.
Qed.

(** An open map's keys come back one by one. *)
Lemma file_new keys key spelled : key ∉ map fst keys -> file_spelling key spelled keys = keys ++ [(key, [spelled])].
Proof.
  induction keys as [|[k sp] keys IHk]; intros Hn; [done|]. cbn [file_spelling map fst] in *. apply not_elem_of_cons in Hn as [H1 H2].
  rewrite bool_decide_eq_false_2 by done. cbn [app]. by rewrite IHk.
Qed.

Lemma open_keys_of s path ks : NoDup ks -> children s path = map (child_of path) (map Key_ ks) ->
  open_keys s path = map (λ k, (k, [keyed path k])) ks.
Proof.
  intros Hn E. unfold open_keys. rewrite E. clear E.
  assert (forall done_, NoDup (done_ ++ ks) ->
    foldl (λ keys '(step, spelled), file_spelling (step_key step) spelled keys) (map (λ k, (k, [keyed path k])) done_) (map (child_of path) (map Key_ ks)) =
    map (λ k, (k, [keyed path k])) (done_ ++ ks)) as H; [|exact (H [] Hn)].
  clear Hn. induction ks as [|k ks IHk]; intros done_ Hn; [by rewrite app_nil_r|]. cbn [map foldl child_of step_of step_key].
  rewrite file_new.
  - specialize (IHk (done_ ++ [k])). rewrite map_app, <- app_assoc in IHk. by apply IHk.
  - rewrite map_map. intros (x & E & Hx)%list_elem_of_fmap. cbn in E. subst x.
    apply NoDup_app in Hn as (_ & Hd & _). apply (Hd k Hx). by left.
Qed.

Lemma set_all_fresh {A} (g : A -> option Value) (key : A -> bytes) l : NoDup (map key l) -> forall out, (forall x, x ∈ l -> key x ∉ keys out) ->
  foldl (λ m x, match g x with Some v => set_ m (key x) v | None => m end) out l =
  out ++ omap (λ x, v ← g x; Some (key x, v)) l.
Proof.
  induction l as [|x l IHl]; intros Hn out Ho; [by rewrite app_nil_r|]. cbn [map foldl omap list_omap] in *. apply NoDup_cons in Hn as [Hx Hn].
  destruct (g x) as [v|] eqn:Eg; cbn [mbind option_bind].
  - rewrite set_fresh by (apply Ho; by left). rewrite IHl; [by rewrite <- app_assoc|done|].
    intros y Hy. unfold keys. rewrite map_app. intros [H|H]%elem_of_app; [apply (Ho y); [by right|exact H]|].
    cbn in H. apply list_elem_of_singleton in H. apply Hx. rewrite <- H. by apply list_elem_of_fmap_2.
  - apply IHl; [done|]. intros y Hy. apply Ho. by right.
Qed.

Lemma spelled_sorted_unique l l' : StronglySorted spelled_order l -> StronglySorted spelled_order l' ->
  NoDup (map fst l) -> Permutation l l' -> l = l'.
Proof.
  intros H1 H2 Hn Hp. apply (StronglySorted_unique_strong spelled_order); [|done|done|done].
  intros x y Hx Hy Hxy Hyx. apply next_order_antisymm in Hxy; [|done|done|done]. injection Hxy as E.
  rewrite <- Hp in Hy. apply list_elem_of_lookup in Hx as [i Hi], Hy as [j Hj].
  assert (i = j) as ->; [|congruence].
  eapply (NoDup_lookup (map fst l)); [exact Hn|..]; rewrite list_lookup_fmap; [by rewrite Hi|rewrite Hj; cbn; by rewrite E].
Qed.

Definition entry_children (values : Kind) (m : Map) : list (Segment * Kind * Value) := map (λ e, (Key_ e.1, values, e.2)) m.

Lemma entry_child values m g k x : (g, k, x) ∈ entry_children values m <-> k = values /\ exists key, g = Key_ key /\ (key, x) ∈ m.
Proof.
  unfold entry_children. split.
  - intros ([key y] & E & H)%list_elem_of_fmap. injection E as -> -> ->. eauto.
  - intros (-> & key & -> & H). by apply (list_elem_of_fmap_2 (λ e : bytes * Value, (Key_ e.1, values, e.2)) _ (key, x)).
Qed.

Lemma keys_of_segments values m segs : (forall g, g ∈ segs -> exists k x, (g, k, x) ∈ entry_children values m) ->
  exists ks, segs = map Key_ ks.
Proof.
  induction segs as [|g segs IHs]; intros H; [by exists []|]. destruct IHs as [ks ->]; [intros g' Hg'; apply H; by right|].
  destruct (H g ltac:(by left)) as (k & x & (_ & key & -> & _)%entry_child). by exists (key :: ks).
Qed.

(** The entries of an open map come back sorted by how their keys are spelled. *)
Lemma open_project s path values m : kind_ok values -> value_wf (VMap m) ->
  stores s path (node_leaves room None (entry_children values m)) ->
  children_ok (entry_children values m) ->
  rebuild_open s (rebuild s room) path values =
    merge_sort spelled_order (omap (λ e, x ← project room values e.2; Some (e.1, x)) m).
Proof using IH.
  intros Hk Hm Hst Hch. pose proof Hm as Hm'. apply value_wf_map in Hm' as (_ & Hn & Hw). rewrite Forall_forall in Hw.
  destruct (node_children s path room None _ Hch Hst) as (segs & Ec & Hnd & He & Hs).
  destruct (keys_of_segments values m segs) as [ks ->]; [intros g Hg; apply He in Hg as (k & x & Hc & _); eauto|].
  assert (forall k, k ∈ ks <-> exists x, (k, x) ∈ m /\ flat_leaves room values x <> []) as Hks.
  { intros k. transitivity (Key_ k ∈ map Key_ ks).
    - split; [apply list_elem_of_fmap_2|]. by intros (k' & [= <-] & H)%list_elem_of_fmap.
    - rewrite He. setoid_rewrite entry_child. split.
      + intros (kd & x & (-> & key & [= <-] & H) & Hl). eauto.
      + intros (x & H & Hl). exists values, x. split; [|done]. split; [done|]. eauto. }
  assert (NoDup ks) as Hnk by (eapply NoDup_fmap_1; exact Hnd).
  assert (forall k x, (k, x) ∈ m -> rebuild s room (keyed path k) values = project room values x) as Hg.
  { intros k x H. rewrite keyed_next. pose proof (Hw _ H) as (_ & _ & Hx). apply IH; [done|done|].
    apply (child_stores s path room None (entry_children values m)); [done|done|]. apply entry_child. eauto. }
  unfold rebuild_open. rewrite (open_keys_of s path ks Hnk Ec).
  assert (forall k, k ∈ ks -> head (omap (λ at_, rebuild s room at_ values) (List.filter (holds s) (spellings_of path k [keyed path k]))) =
    rebuild s room (keyed path k) values) as Hh.
  { intros k (x & H & Hl)%Hks. unfold spellings_of. cbn [List.filter]. rewrite bool_decide_eq_true_2 by done. cbn [negb List.filter].
    assert (holds s (keyed path k) = true) as ->.
    { rewrite keyed_next. apply (stores_holds s _ (flat_leaves room values x)); [|done].
      apply (child_stores s path room None (entry_children values m)); [done|done|]. apply entry_child. eauto. }
    cbn [omap list_omap]. by destruct (rebuild s room (keyed path k) values). }
  assert (forall out, foldl (λ m0 '(key, spellings),
      match head (omap (λ at_, rebuild s room at_ values) (List.filter (holds s) (spellings_of path key spellings))) with
      | Some v => set_ m0 key v | None => m0 end) out (map (λ k, (k, [keyed path k])) ks) =
    foldl (λ m0 k, match rebuild s room (keyed path k) values with Some v => set_ m0 k v | None => m0 end) out ks) as ->.
  { clear -Hh. induction ks as [|k ks IHk]; intros out; [done|]. cbn [map foldl]. rewrite Hh by by left.
    apply IHk. intros k' Hk'. apply Hh. by right. }
  rewrite (set_all_fresh (λ k, rebuild s room (keyed path k) values) (λ k, k)); [|by rewrite map_id|by intros ? _ ?%elem_of_nil].
  cbn [app]. set (L := omap _ ks).
  assert (NoDup (map fst L)) as HnL.
  { unfold L. clear -Hnk. induction ks as [|k ks IHk]; [constructor|]. apply NoDup_cons in Hnk as [Hx Hnk]. cbn [omap list_omap].
    destruct (rebuild s room (keyed path k) values); cbn [mbind option_bind]; [|by apply IHk]. cbn [map fst]. apply NoDup_cons. split; [|by apply IHk].
    intros (y & E & (k' & Hk' & H)%list_elem_of_omap)%list_elem_of_fmap. destruct (rebuild s room (keyed path k') values); [|done].
    injection H as <-. cbn in E. by subst. }
  apply spelled_sorted_unique; [|apply Sorted_StronglySorted; [intros a b c; apply text_order_trans|apply Sorted_merge_sort; intros a b; apply text_order_total]|done|].
  - specialize (Hs ltac:(apply Forall_forall; by intros g (k & -> & _)%list_elem_of_fmap)). unfold L. clear -Hs.
    induction ks as [|k ks IHk]; [constructor|]. cbn [map] in Hs. apply StronglySorted_cons in Hs as [H1 H2]. cbn [omap list_omap].
    destruct (rebuild s room (keyed path k) values) as [v|]; cbn [mbind option_bind]; [|by apply IHk]. apply StronglySorted_cons. split; [|by apply IHk].
    apply Forall_forall. intros y (k' & Hk' & H)%list_elem_of_omap. destruct (rebuild s room (keyed path k') values); [|done]. injection H as <-.
    rewrite Forall_forall in H1. apply H1. by apply list_elem_of_fmap_2.
  - rewrite merge_sort_Permutation. apply NoDup_Permutation; [by eapply NoDup_fmap_1|..].
    { clear -Hn. induction m as [|[k x] m IHm]; [constructor|]. cbn [map] in Hn. apply NoDup_cons in Hn as [Hx Hn]. cbn [omap list_omap fst snd].
      destruct (project room values x); cbn [mbind option_bind]; [|by apply IHm]. apply NoDup_cons. split; [|by apply IHm].
      intros ([k' x'] & Hk' & H)%list_elem_of_omap. cbn in H. destruct (project room values x'); [|done]. injection H as -> _.
      apply Hx. by apply (list_elem_of_fmap_2 fst _ (k, x')). }
    intros [k y]. unfold L. rewrite !list_elem_of_omap. split.
    + intros (k' & Hk' & H). apply Hks in Hk' as (x & Hx & _). rewrite (Hg k' x Hx) in H.
      exists (k', x). split; [done|]. cbn. destruct (project room values x); [|done]. by injection H as <- <-.
    + intros ([k' x] & Hx & H). cbn in H. destruct (project room values x) as [y'|] eqn:Ep; [|done]. injection H as <- <-.
      exists k'. split; [|by rewrite (Hg k' x Hx), Ep]. apply Hks. exists x. split; [done|]. intros E.
      pose proof (Hw _ Hx) as (_ & _ & Hwx). rewrite (project_nothing values x Hk Hwx E) in Ep. done.
Qed.

(** ** The positions of a list, and of a tuple *)

Lemma dedup_nodup l : NoDup l -> dedup l = l.
Proof.
  induction l as [|x [|y l] IHl]; intros Hn; [done|done|]. apply NoDup_cons in Hn as [Hx Hn]. cbn [dedup].
  destruct (x =? y) eqn:E; [apply Z.eqb_eq in E as ->; destruct Hx; by left|]. f_equal. by apply IHl.
Qed.

Lemma list_positions_of s path ns L : children s path = map (child_of path) (map Index_ ns) -> Permutation ns L ->
  NoDup L -> StronglySorted Z.le L -> list_positions s path = L.
Proof.
  intros E Hp Hn Hs. unfold list_positions. rewrite E.
  replace (omap _ _) with ns by (clear; induction ns as [|n ns IHn]; [done|]; cbn; by f_equal).
  assert (merge_sort Z.le ns = L) as ->; [|by apply dedup_nodup].
  apply (StronglySorted_unique Z.le); [apply Sorted_StronglySorted, Sorted_merge_sort; apply _|done|].
  by rewrite merge_sort_Permutation.
Qed.

(** The positions of a list's elements that store something, from one on. *)
Fixpoint kept_at (items : Kind) (n : nat) (l : list Value) : list Z :=
  match l with
  | [] => []
  | x :: l => if kept_leaves room items x then Z.of_nat n :: kept_at items (S n) l else kept_at items (S n) l
  end.

Lemma kept_at_elem items l : forall n z, z ∈ kept_at items n l <->
  exists i x, l !! i = Some x /\ kept_leaves room items x = true /\ z = Z.of_nat (n + i).
Proof.
  induction l as [|y l IHl]; intros n z; cbn [kept_at]; [split; [by intros ?%elem_of_nil|by intros (i & x & H & _)]|].
  assert (z ∈ kept_at items (S n) l <-> exists i x, (y :: l) !! S i = Some x /\ kept_leaves room items x = true /\ z = Z.of_nat (n + S i)) as H.
  { rewrite IHl. cbn. by setoid_rewrite Nat.add_succ_r. }
  transitivity ((kept_leaves room items y = true /\ z = Z.of_nat n) \/ z ∈ kept_at items (S n) l).
  { destruct (kept_leaves room items y); [rewrite elem_of_cons|]; naive_solver. }
  rewrite H. split.
  - intros [[Hk ->]|(i & x & Hi)]; [exists 0%nat, y; by rewrite Nat.add_0_r|eauto].
  - intros ([|i] & x & Hi & Hk & ->); [left|right; by eauto]. injection Hi as <-. by rewrite Nat.add_0_r.
Qed.

Lemma kept_at_sorted items l : forall n, StronglySorted Z.lt (kept_at items n l).
Proof.
  induction l as [|y l IHl]; intros n; cbn [kept_at]; [constructor|]. destruct (kept_leaves room items y); [|done].
  constructor; [done|]. apply Forall_forall. intros z (i & x & _ & _ & ->)%kept_at_elem. lia.
Qed.

Lemma kept_at_positions items n l : NoDup (kept_at items n l) /\ StronglySorted Z.le (kept_at items n l).
Proof.
  generalize (kept_at_sorted items l n). generalize (kept_at items n l). clear. induction 1 as [|z L _ [H1 H2] Hz]; [split; constructor|].
  rewrite Forall_forall in Hz. split; constructor; [by intros H%Hz%Z.lt_irrefl|done|done|].
  apply Forall_forall. intros y Hy%Hz. lia.
Qed.

Definition nth_children (items : Kind) (l : list Value) : list (Segment * Kind * Value) :=
  imap (λ n v, (Index_ (Z.of_nat n), items, v)) l.

Lemma nth_child items l g k x : (g, k, x) ∈ nth_children items l <-> k = items /\ exists i, g = Index_ (Z.of_nat i) /\ l !! i = Some x.
Proof.
  unfold nth_children. rewrite list_elem_of_lookup. setoid_rewrite list_lookup_imap_Some. split.
  - intros (i & y & H & [= -> -> ->]). eauto.
  - intros (-> & i & -> & H). eauto.
Qed.

Lemma list_project s path items l : kind_ok items -> Forall value_wf l ->
  stores s path (node_leaves room None (nth_children items l)) -> children_ok (nth_children items l) ->
  omap (λ index, rebuild s room (path ++ show_segment (Index_ index)) items) (list_positions s path) =
  omap (project room items) l.
Proof using IH.
  intros Hk Hl Hst Hch. rewrite Forall_lookup in Hl.
  destruct (node_children s path room None _ Hch Hst) as (segs & Ec & Hnd & He & _).
  assert (exists ns, segs = map Index_ ns) as [ns ->].
  { clear -He. assert (forall g, g ∈ segs -> exists n, g = Index_ n) as H.
    { intros g (k & x & (_ & i & -> & _)%nth_child & _)%He. eauto. }
    clear He. induction segs as [|g segs IHs]; [by exists []|]. destruct IHs as [ns ->]; [intros; apply H; by right|].
    destruct (H g ltac:(by left)) as [n ->]. by exists (n :: ns). }
  rewrite (list_positions_of s path ns (kept_at items 0 l) Ec); [|apply NoDup_Permutation|apply kept_at_positions..].
  - assert (forall i x, l !! i = Some x -> rebuild s room (path ++ show_segment (Index_ (Z.of_nat i))) items = project room items x) as Hg.
    { intros i x Hi. apply IH; [done|by eapply Hl|]. apply (child_stores s path room None _ Hch Hst (Index_ (Z.of_nat i))).
      apply nth_child. eauto. }
    clear -IH Hk Hl Hg. assert (forall n rest, (forall i x, rest !! i = Some x -> l !! (n + i)%nat = Some x) ->
      omap (λ index, rebuild s room (path ++ show_segment (Index_ index)) items) (kept_at items n rest) = omap (project room items) rest) as H;
      [|by apply (H 0%nat l)].
    intros n rest. revert n. induction rest as [|x rest IHr]; intros n Hr; [done|]. cbn [kept_at].
    pose proof (Hr 0%nat x eq_refl) as Hx. rewrite Nat.add_0_r in Hx.
    assert (omap (λ index, rebuild s room (path ++ show_segment (Index_ index)) items) (kept_at items (S n) rest) = omap (project room items) rest) as E.
    { apply IHr. intros i y Hi. replace (S n + i)%nat with (n + S i)%nat by lia. by apply Hr. }
    unfold kept_leaves. case_bool_decide as Hw; cbn [negb omap list_omap].
    + rewrite (project_nothing items x Hk (Hl _ _ Hx) Hw). exact E.
    + rewrite (Hg n x Hx). destruct (project room items x); [f_equal|]; exact E.
  - by eapply NoDup_fmap_1.
  - apply kept_at_positions.
  - intros z. transitivity (Index_ z ∈ map Index_ ns).
    { split; [apply list_elem_of_fmap_2|]. by intros (z' & [= <-] & H)%list_elem_of_fmap. }
    rewrite He, kept_at_elem. unfold kept_leaves. setoid_rewrite nth_child. setoid_rewrite negb_true_iff. setoid_rewrite bool_decide_eq_false. split.
    + intros (k & x & (-> & i & [= ->] & Hi) & Hw). by exists i, x.
    + intros (i & x & Hi & Hw & ->). exists items, x. split; [|done]. split; [done|]. by exists i.
Qed.

Definition placed_children (l : list Value) (kinds : list Kind) : list (Segment * Kind * Value) :=
  imap (λ n e, (Index_ (Z.of_nat n), e.2, e.1)) (zip l kinds).

Lemma placed_child l kinds g k x : (g, k, x) ∈ placed_children l kinds <->
  exists i, g = Index_ (Z.of_nat i) /\ l !! i = Some x /\ kinds !! i = Some k.
Proof.
  unfold placed_children. rewrite list_elem_of_lookup. setoid_rewrite list_lookup_imap_Some. setoid_rewrite lookup_zip_with_Some. split.
  - intros (i & y & (a & b & -> & H1 & H2) & [= -> -> ->]). eauto.
  - intros (i & -> & H1 & H2). exists i, (x, k). split; [|done]. by exists x, k.
Qed.

Lemma tuple_project s path l kinds : Forall kind_ok kinds -> Forall value_wf l -> fits kinds ->
  stores s path (node_leaves room None (placed_children l kinds)) -> children_ok (placed_children l kinds) ->
  rebuild_tuple s (rebuild s room) path 0 kinds = project_tuple (project room) (kept_leaves room) kinds l.
Proof using IH.
  intros Hk Hl Hlen Hst Hch. rewrite Forall_lookup in Hk. rewrite Forall_lookup in Hl.
  assert (forall i k, kinds !! i = Some k ->
    match l !! i with
    | Some x => holds s (indexed path i) = kept_leaves room k x /\ rebuild s room (indexed path i) k = project room k x
    | None => holds s (indexed path i) = false
    end) as Hg.
  { intros i k Hi. rewrite indexed_next. destruct (l !! i) as [x|] eqn:Ex.
    - assert (stores s (path ++ write_next (Index_ (Z.of_nat i))) (flat_leaves room k x)) as H.
      { apply (child_stores s path room None _ Hch Hst). apply placed_child. eauto. }
      split; [|apply IH; [by eapply Hk|by eapply Hl|done]]. unfold kept_leaves. pose proof (stores_holds s _ _ H) as Hh.
      case_bool_decide as Hw; cbn [negb]; [|by apply Hh]. apply not_true_iff_false. by intros ?%Hh.
    - apply not_true_iff_false. rewrite (stores_holds s _ []); [congruence|].
      apply (no_child_stores s path room None _ Hch Hst).
      + apply lookup_lt_Some in Hi. unfold fits in Hlen. cbn. lia.
      + intros k' x (j & E & Hj & _)%placed_child. injection E as E. apply Nat2Z.inj in E. congruence. }
  clear -Hg. assert (forall kinds' n, (forall i k, kinds' !! i = Some k -> kinds !! (n + i)%nat = Some k) ->
    rebuild_tuple s (rebuild s room) path n kinds' = project_tuple (project room) (kept_leaves room) kinds' (drop n l)) as H;
    [|by apply (H kinds 0%nat)].
  induction kinds' as [|k kinds' IHk]; intros n Hn; [by destruct (drop n l)|]. cbn [rebuild_tuple].
  pose proof (Hn 0%nat k eq_refl) as Hx. rewrite Nat.add_0_r in Hx. apply Hg in Hx.
  assert (forall i k', kinds' !! i = Some k' -> kinds !! (S n + i)%nat = Some k') as Hn'.
  { intros i k' Hi. replace (S n + i)%nat with (n + S i)%nat by lia. by apply Hn. }
  destruct (l !! n) as [x|] eqn:Ex.
  - rewrite (drop_S l x n Ex). cbn [project_tuple]. destruct Hx as [-> ->]. destruct (kept_leaves room k x); [|done].
    by rewrite (IHk (S n) Hn').
  - rewrite Hx. rewrite drop_ge; [done|]. by apply lookup_ge_None.
Qed.
End level.

Lemma positions_wf k : value_wf k -> Forall kind_ok (positions (KTuple k)) /\ fits (positions (KTuple k)).
Proof.
  intros Hk. split; [apply Forall_forall; intros kd Hkd; by eapply positions_ok|].
  unfold positions, fits. rewrite length_map. unfold prefix_items, list_items.
  destruct (under k PREFIX_ITEMS) as [y|] eqn:E; cbn; [|done].
  destruct (as_list y) as [l|] eqn:El; cbn; [|done]. apply as_list_Some in El as ->. apply wf_under in E; [|done].
  by apply value_wf_list in E as [? _].
Qed.

Lemma leaves_node room kind v text ch : node_of kind v = Some (text, ch) -> flat_leaves (S room) kind v = node_leaves room text ch.
Proof. intros E. cbn [flat_leaves]. by rewrite E. Qed.

(** A store that holds a value's leaves under a path reads back as what they keep. *)
Lemma rebuild_project room : forall s path kind v, kind_ok kind -> value_wf v -> stores s path (flat_leaves room kind v) ->
  rebuild s room path kind = project room kind v.
Proof.
  induction room as [|room IH]; intros s path kind v Hk Hv Hst; [done|].
  destruct (node_of kind v) as [[text ch]|] eqn:En.
  2:{ cbn [flat_leaves] in Hst. rewrite En in Hst. rewrite (rebuild_nothing (S room) s path kind Hst).
      destruct kind; cbn [node_of project] in *; try (by destruct (scalar_text lossy v)); try (by destruct (as_list v)); try (by destruct (as_map v)).
      destruct (as_map v); [|done]. cbn [mbind option_bind] in *. by destruct (list_find _ _) as [[? ?]|]. }
  rewrite (leaves_node _ _ _ _ _ En) in Hst. pose proof (node_ok _ _ _ _ Hk Hv En) as Hch.
  pose proof (node_leaves_ok s path room text ch Hch Hst) as Hok.
  assert (s !! path = text) as Hown.
  { pose proof (stores_own s path (node_leaves room text ch)) as Ho. destruct text as [t|].
    - apply (Ho t Hok Hst). by left.
    - apply eq_None_not_Some. intros [t Ht]. apply (Ho t Hok Hst) in Ht. unfold node_leaves in Ht. cbn [own_leaf app] in Ht.
      apply list_elem_of_In, in_concat in Ht as (l & Hl & Ht). apply list_elem_of_In in Hl, Ht.
      apply list_elem_of_fmap in Hl as (c & -> & _). by apply list_elem_of_fmap in Ht as (w & ? & _). }
  destruct kind as [| | | | | |items min max|k|k|k| | |tag a| |]; cbn [node_of rebuild project] in *;
    try (destruct (scalar_text lossy v) as [t|]; [|done]; injection En as <- <-; by rewrite Hown).
  - destruct (as_list v) as [l|] eqn:El; [|done]. injection En as <- <-. apply as_list_Some in El as ->.
    apply value_wf_list in Hv as [_ Hv]. cbn [mbind option_bind]. f_equal. apply (list_project room IH); [by apply kind_read_ok|done..].
  - destruct (as_list v) as [l|] eqn:El; [|done]. injection En as <- <-. apply as_list_Some in El as ->.
    apply value_wf_list in Hv as [_ Hv]. cbn [mbind option_bind]. destruct (positions_wf k Hk) as [H1 H2].
    by rewrite (tuple_project room IH s path l).
  - destruct (as_map v) as [m|] eqn:El; [|done]. injection En as <- <-. apply as_map_Some in El as [-> _].
    cbn [mbind option_bind]. f_equal. apply (fields_project room IH s path None); [by apply fields_of_ok|done|done].
  - destruct (as_map v) as [m|] eqn:El; [|done]. injection En as <- <-. apply as_map_Some in El as [-> _].
    cbn [mbind option_bind]. f_equal. apply (open_project room IH); [by apply kind_under_ok|done|done|done].
  - destruct (as_map v) as [m|] eqn:El; [|done]. apply as_map_Some in El as [-> _]. cbn [mbind option_bind] in *.
    destruct (list_find _ _) as [[i arm]|] eqn:Ef; [|done]. injection En as <- <-. rewrite Hown. cbn [mbind option_bind].
    rewrite Ef. cbn [mbind option_bind]. do 2 f_equal.
    apply list_find_Some in Ef as (Hi & _). apply list_elem_of_lookup_2 in Hi.
    apply (fields_project room IH s path (Some (str_or (get m tag) []))); [by apply (arm_fields_ok (KVariant tag a))|done|done].
Qed.
End laws.

Lemma field_kind_ok f : value_wf (fschema f) -> kind_ok (field_kind f).
Proof. apply kind_read_ok. Qed.

Lemma put_all_elsewhere path ws s key : at_or_under key path = false -> put_all path ws (clear_under s path) !! key = s !! key.
Proof.
  intros Hk. rewrite put_all_out; [|intros w _ ->; by rewrite under_tail in Hk]. unfold clear_under.
  apply option_eq. intros t. rewrite map_lookup_filter_Some. cbn. naive_solver.
Qed.

(** [flatten] always ends. What was at or under the field's key is gone, whatever it
    was; there, the store holds exactly the value's leaves, each under the path of
    its segments; anything else is as it was. The answer is whether the value fits
    the field's kind and nothing in it was past the depth bound. *)
Theorem flatten_replaces lossy f v s : value_wf (fschema f) -> value_wf v ->
  exists s', flatten lossy f v s =
    Ok (bool_decide (is_Some (node_of lossy (field_kind f) v)) && shallow lossy MAX_DEPTH (field_kind f) v, s') /\
  (forall key, at_or_under key (root_path (fkey f)) = false -> s' !! key = s !! key) /\
  (forall key t, at_or_under key (root_path (fkey f)) = true ->
    s' !! key = Some t <-> exists p, (p, t) ∈ flat_leaves lossy MAX_DEPTH (field_kind f) v /\ key = root_path (fkey f) ++ write_tail p).
Proof.
  intros Hf Hv. rewrite flatten_puts. cbv zeta. pose proof (leaves_ok lossy MAX_DEPTH _ v (field_kind_ok f Hf) Hv) as [Hn Hok].
  eexists. split_and!; [do 3 f_equal; by destruct (node_of lossy (field_kind f) v)|intros key; by apply put_all_elsewhere|].
  exact (put_all_stores _ _ s Hok Hn).
Qed.

(** C20: what [unflatten] reads after [flatten], whatever the store held before: what the
    value's leaves keep. *)
Theorem flat_roundtrip lossy f v s : value_wf (fschema f) -> value_wf v ->
  exists fits s', flatten lossy f v s = Ok (fits, s') /\ unflatten f s' = project lossy MAX_DEPTH (field_kind f) v.
Proof.
  intros Hf Hv. rewrite flatten_puts. cbv zeta. do 2 eexists. split; [done|].
  pose proof (field_kind_ok f Hf) as Hk. revert Hk. unfold unflatten. cbv zeta. set (root := root_path (fkey f)). clearbody root.
  generalize (field_kind f). intros kind Hk. generalize MAX_DEPTH. intros room.
  destruct (leaves_ok lossy room kind v Hk Hv) as [Hn Hok]. pose proof (put_all_stores root _ s Hok Hn) as Hst.
  rewrite (rebuild_project lossy room _ root kind v Hk Hv Hst). destruct (holds _ root) eqn:E; [done|].
  assert (flat_leaves lossy room kind v = []) as El.
  { destruct (flat_leaves lossy room kind v) as [|w l] eqn:El; [done|]. apply not_true_iff_false in E. destruct E.
    by apply (stores_holds _ _ _ Hst). }
  symmetry. apply (project_nothing lossy room (rebuild_project lossy room) kind v Hk Hv El).
Qed.

(** ** An agent, its environment, and how it signs in *)

Module Profile.
Definition text (t : string) : Value := VString (bs t).
Definition string_schema : Value := VMap [(TYPE, text "string")].
Definition object_schema (members : Map) : Value := VMap [(TYPE, text "object"); (PROPERTIES, VMap members)].
Definition arm_schema (name : string) (members : Map) : Value := object_schema ((bs "kind", VMap [(CONST, text name)]) :: members).
Definition agent_field : FieldRef := MkField (bs "a.b") (object_schema [
  (bs "agent", VMap [(TYPE, text "array"); (ITEMS, object_schema [(bs "na.me", string_schema)])]);
  (bs "env", VMap [(TYPE, text "object"); (ADDITIONAL_PROPERTIES, string_schema)]);
  (bs "auth", VMap [(TYPE, text "object"); (X_VARIANT_TAG, text "kind");
    (ONE_OF, VList [arm_schema "none" []; arm_schema "user" [(bs "name", string_schema)]])])]) false.
Definition value : Value := VMap [
  (bs "agent", VList [VMap [(bs "na.me", text "one")]; VMap []; VMap [(bs "na.me", text "two")]]);
  (bs "env", VMap [(bs "b", text "x"); (bs "0", text "y")]);
  (bs "auth", VMap [(bs "kind", text "user"); (bs "name", text "me")])].
(** What comes back: the empty agent is gone, the environment is in order. *)
Definition read_back : Value := VMap [
  (bs "agent", VList [VMap [(bs "na.me", text "one")]; VMap [(bs "na.me", text "two")]]);
  (bs "env", VMap [(bs "0", text "y"); (bs "b", text "x")]);
  (bs "auth", VMap [(bs "kind", text "user"); (bs "name", text "me")])].
Definition before : Store := {[bs "[a.b].old" := bs "1"; bs "a.b" := bs "2"]}.

Lemma field_wf : value_wf (fschema agent_field).
Proof. by apply wf_ok_wf. Qed.
Lemma profile_wf : value_wf value.
Proof. by apply wf_ok_wf. Qed.

Example stored : option_map (λ p, (p.1, sorted_keys p.2)) (match flatten id agent_field value before with Ok p => Some p | _ => None end) =
  Some (true, map bs ["[a.b].agent[0][na.me]"; "[a.b].agent[2][na.me]"; "[a.b].auth"; "[a.b].auth.name"]%string ++
    [bs "[a.b].env[" ++ [QUOTE] ++ bs "0" ++ [QUOTE] ++ bs "]"; bs "[a.b].env[b]"; bs "a.b"]).
Proof. vm_compute. reflexivity. Qed.
End Profile.

Lemma flatten_replaces_witness : exists s', flatten id Profile.agent_field Profile.value Profile.before = Ok (true, s') /\
  s' !! bs "a.b" = Some (bs "2") /\ s' !! bs "[a.b].auth" = Some (bs "user").
Proof.
  destruct (flatten_replaces id Profile.agent_field Profile.value Profile.before Profile.field_wf Profile.profile_wf) as (s' & E & Hout & Hin).
  exists s'. split_and!.
  - rewrite E. do 2 f_equal.
  - rewrite Hout by reflexivity. reflexivity.
  - apply Hin; [reflexivity|]. exists [Field_ (bs "auth")]. split; [|reflexivity]. apply list_elem_of_In. vm_compute. auto 10.
Defined.

Lemma flat_roundtrip_witness : exists fits s', flatten id Profile.agent_field Profile.value Profile.before = Ok (fits, s') /\
  unflatten Profile.agent_field s' = Some Profile.read_back.
Proof.
  destruct (flat_roundtrip id Profile.agent_field Profile.value Profile.before Profile.field_wf Profile.profile_wf) as (fits & s' & E & H).
  exists fits, s'. split; [exact E|]. rewrite H. vm_compute. reflexivity.
Defined.
