(* ===== verification/Resolve.v ===== *)
(** * The field a path reaches

    [resolve] and [resolve_in] of [guatiao-intake]'s [flat.rs]: the field of a schema
    a key reaches, by the schema alone, and in a store that has spoken which arms are
    chosen. *)

From S2P Require Import Prelude Decimal Errors Number Value Keys Maps Merge MergePath Vocab SchemaErrors SchemaRead SchemaMerge Validate FieldPath Flat FlatLaws.

Section resolve.
Variable lossy : bytes -> bytes.

(** [positions_of] and [values_of]. *)
Definition positions_of (owner : Value) : option (list Value) := v ← under owner PREFIX_ITEMS; as_list v.
Definition values_of (f : FieldRef) : option Value := under (fschema f) ADDITIONAL_PROPERTIES.

(** The field of a key, where fields are looked through in order. *)
Definition field_named (key : bytes) (fields : list FieldRef) : option FieldRef :=
  '(_, f) ← list_find (λ f, fkey f = key) fields; Some f.

(** [into]: one step into a field, by one segment. *)
Definition into (f : FieldRef) (segment : Segment) : option FieldRef :=
  match field_kind f with
  | KMap _ => field_named (name_of_segment segment) (kind_fields (field_kind f))
  | KVariant _ _ => head (omap (λ arm, field_named (name_of_segment segment) (arm_fields arm)) (arms (field_kind f)))
  | KList items _ _ => match segment with Index_ _ => field_new [] items | _ => None end
  | KMapOf _ => v ← values_of f; field_new [] v
  | KTuple owner =>
      match segment with Index_ at_ => l ← positions_of owner; v ← l !! Z.to_nat at_; field_new [] v | _ => None end
  | _ => None
  end.

(** [walk_from], [root] and [resolve]. *)
Definition walk_from (f : FieldRef) (segments : list (Segment * nat)) : option FieldRef :=
  foldl (λ at_ s, f ← at_; into f s.1) (Some f) segments.
Definition root_field (schema : Value) (first : Segment) : option FieldRef := schema_find schema (name_of_segment first).
Definition resolve (schema : Value) (key : bytes) : option FieldRef :=
  match schema_find schema key with
  | Some direct => Some direct
  | None =>
      l ← spelled key false; '(first, _) ← head l;
      f ← root_field schema first; walk_from f (tail l)
  end.
(** [is_sensitive]. *)
Definition key_is_sensitive (schema : Value) (key : bytes) : bool :=
  match resolve schema key with Some f => is_sensitive f | None => false end.

Section in_store.
Variable selected : bytes -> option bytes.

(** Text that says something. *)
Definition spoken (t : option bytes) : option bytes := match t with Some [] => None | t => t end.

(** [step_in]. *)
Definition chosen_arm (f : FieldRef) (walked spelled : bytes) : bytes :=
  match spoken (selected walked) with
  | Some t => t
  | None => match spoken (selected spelled) with
            | Some t => t
            | None => default [] (text_of lossy <$> field_default f)
            end
  end.
Definition step_in (f : FieldRef) (segment : Segment) (walked spelled whole : bytes) : result ValidationError FieldRef :=
  match field_kind f with
  | KVariant _ _ =>
      let chosen := chosen_arm f walked spelled in
      match list_find (λ a, arm_value a = chosen) (arms (field_kind f)) with
      | None => Err (BadValue walked (NamingAnArm (arm_value <$> arms (field_kind f)) whole))
      | Some (_, arm) =>
          ok_or (field_named (name_of_segment segment) (arm_fields arm))
            (BadValue whole
              match fkey <$> arm_fields arm with
              | [] => NothingInArm chosen walked
              | accepted => OnlyInArm chosen walked accepted
              end)
      end
  | kind =>
      ok_or (into f segment)
        match fkey <$> kind_fields kind with
        | [] => BadValue walked (WithMembers whole)
        | known => UnknownOption whole known
        end
  end.

(** [walk_in]: [walked] is the path as [flatten] spells it, [spelled] how much of the
    key it is. *)
Fixpoint walk_in (f : FieldRef) (walked : bytes) (spelled : nat) (segments : list (Segment * nat)) (key : bytes)
    : result ValidationError FieldRef :=
  match segments with
  | [] => Ok f
  | (segment, end_) :: segments =>
      f ← step_in f segment walked (take spelled key) key;
      walk_in f (walked ++ write_next segment) end_ segments key
  end.

(** [resolve_in]. *)
Definition resolve_in (schema : Value) (key : bytes) : result ValidationError FieldRef :=
  let unknown := UnknownOption key (fkey <$> fields_of schema) in
  match (if is_bare_name key then schema_find schema key else None) with
  | Some direct => Ok direct
  | None =>
      match spelled key false with
      | Some ((first, end_) :: segments) =>
          match root_field schema first with
          | Some f => walk_in f (root_path (name_of_segment first)) end_ segments key
          | None => Err unknown
          end
      | _ => Err unknown
      end
  end.
End in_store.

(** ** Every key that is stored reaches its field *)

(** A schema under which every step can be taken: its members are schemas, an open
    map is not behind a wrapper, and no arm is named by no text. *)
Definition next_schemas (s : Value) : list Value :=
  match kind_read (Some s) with
  | KMap k => fschema <$> fields_of k
  | KVariant _ _ as kind => arm ← arms kind; fschema <$> arm_fields arm
  | KList items _ _ => [items]
  | KMapOf k => default [] (v ← under k ADDITIONAL_PROPERTIES; Some [v])
  | KTuple k => prefix_items k
  | _ => []
  end.
Definition steps_plainly (s : Value) : bool :=
  match kind_read (Some s) with
  | KMapOf k => bool_decide (under s ADDITIONAL_PROPERTIES = under k ADDITIONAL_PROPERTIES) &&
                match under k ADDITIONAL_PROPERTIES with Some v => is_schema v | None => false end
  | KVariant _ _ as kind => forallb (λ arm, negb (bool_decide (arm_value arm = []))) (arms kind)
  | KList items _ _ => is_schema items
  | KTuple k => forallb is_schema (prefix_items k)
  | _ => true
  end.
Fixpoint plain_schema (room : nat) (s : Value) : bool :=
  match room with
  | O => true
  | S room => steps_plainly s && forallb (plain_schema room) (next_schemas s)
  end.

(** What a store says of a key. *)
Definition lookup_store (s : Store) (key : bytes) : option bytes := s !! key.

(** What a value holds behind segments. *)
Definition value_at (v : Value) (p : list Segment) : option Value :=
  foldl (λ at_ s, v ← at_; get_step v s) (Some v) p.

Lemma field_named_in fields f : NoDup (fkey <$> fields) -> f ∈ fields -> field_named (fkey f) fields = Some f.
Proof.
  intros Hn Hf. unfold field_named. apply list_elem_of_lookup in Hf as [i Hi].
  rewrite (proj2 (list_find_Some (λ g, fkey g = fkey f) fields i f)); [done|]. split_and!; [done|done|].
  intros j g Hj Hlt E. assert (j = i) as ->; [|lia].
  eapply (NoDup_lookup (fkey <$> fields)); [exact Hn|..]; rewrite list_lookup_fmap; [by rewrite Hj; cbn; rewrite E|by rewrite Hi].
Qed.

Lemma member_segment_name name : name_of_segment (member_segment name) = name.
Proof. unfold member_segment. by destruct (is_bare_name name). Qed.

Lemma member_segment_step m name : get_step (VMap m) (member_segment name) = under (VMap m) name.
Proof. unfold member_segment. by destruct (is_bare_name name). Qed.

Lemma member_elem m fields g k x : (g, k, x) ∈ members_of m fields <->
  exists f, f ∈ fields /\ get m (fkey f) = Some x /\ g = member_segment (fkey f) /\ k = field_kind f.
Proof.
  unfold members_of. rewrite list_elem_of_omap. split.
  - intros (f & Hf & H). destruct (get m (fkey f)) as [y|] eqn:E; [|done]. injection H as <- <- <-. by exists f.
  - intros (f & Hf & E & -> & ->). exists f. by rewrite E.
Qed.

Lemma map_under m v : as_map v = Some m -> forall key, under v key = get m key.
Proof. intros E key. unfold under. by rewrite E. Qed.

(** ** One step *)

Section step.
Variable selected : bytes -> option bytes.

(** A field steps to a child: the field found has the child's kind, and the child is
    what the value holds there. *)
Definition steps_to (f : FieldRef) (v : Value) (walked whole : bytes) (room : nat) (c : Segment * Kind * Value) : Prop :=
  exists f', step_in selected f c.1.1 walked walked whole = Ok f' /\ field_kind f' = c.1.2 /\ get_step v c.1.1 = Some c.2 /\
    plain_schema room (fschema f') = true /\ value_wf (fschema f') /\ value_wf c.2.

Lemma step_field f k walked whole seg f' : field_kind f = k -> (forall tag a, k <> KVariant tag a) -> into f seg = Some f' ->
  step_in selected f seg walked walked whole = Ok f'.
Proof. intros Hk Hn E. unfold step_in. rewrite Hk, E. destruct k; try done. by destruct (Hn tag arms). Qed.

Lemma plain_next room s x : plain_schema (S room) s = true -> x ∈ next_schemas s -> plain_schema room x = true.
Proof. cbn [plain_schema]. intros [_ H]%andb_true_iff Hx. rewrite forallb_forall in H. apply H. by apply list_elem_of_In. Qed.

Lemma plain_step room s : plain_schema (S room) s = true -> steps_plainly s = true.
Proof. cbn [plain_schema]. by intros [H _]%andb_true_iff. Qed.

Lemma field_new_schema s : is_schema s = true -> field_new [] s = Some (MkField [] s false).
Proof. unfold field_new. by intros ->. Qed.

Lemma step_child room f v text ch walked whole : plain_schema (S room) (fschema f) = true -> value_wf (fschema f) -> value_wf v ->
  node_of lossy (field_kind f) v = Some (text, ch) -> (forall t, text = Some t -> selected walked = Some t) ->
  Forall (steps_to f v walked whole room) ch.
Proof.
  intros Hp Hf Hv En Hsel. pose proof (plain_step _ _ Hp) as Hs. pose proof (λ x, plain_next _ _ x Hp) as Hnext. clear Hp.
  pose proof (field_kind_ok f Hf) as Hk. destruct (node_ok lossy _ _ _ _ Hk Hv En) as [_ Hok]. rewrite Forall_forall in Hok |- *.
  intros [[seg k] x] Hc. destruct (Hok _ Hc) as (_ & _ & Hx). cbn [fst snd] in Hx. unfold steps_to. cbn [fst snd].
  unfold steps_plainly, next_schemas in Hs, Hnext. change (kind_read (Some (fschema f))) with (field_kind f) in Hs, Hnext.
  destruct (field_kind f) as [| | | | | |items min max|kd|kd|kd| | |tag a| |] eqn:Ek; cbn [node_of] in En;
    try (destruct (scalar_text lossy v); [|done]; injection En as <- <-; by apply elem_of_nil in Hc).
  - destruct (as_list v) as [l|] eqn:El; [|done]. injection En as <- <-. apply nth_child in Hc as (-> & i & -> & Hi).
    exists (MkField [] items false). split_and!; try done; [|cbn; by rewrite El, Nat2Z.id|apply Hnext; by left].
    apply (step_field f _ _ _ _ _ Ek); [done|]. unfold into. rewrite Ek. by apply field_new_schema.
  - destruct (as_list v) as [l|] eqn:El; [|done]. injection En as <- <-. apply placed_child in Hc as (i & -> & Hi & Hki).
    unfold positions in Hki. rewrite list_lookup_fmap in Hki. destruct (prefix_items kd !! i) as [s|] eqn:Es; [|done].
    injection Hki as <-. pose proof (list_elem_of_lookup_2 _ _ _ Es) as Hin. rewrite forallb_forall in Hs.
    exists (MkField [] s false). split_and!; try done; [|cbn; by rewrite El, Nat2Z.id|by apply Hnext|].
    + apply (step_field f _ _ _ _ _ Ek); [done|]. unfold into. rewrite Ek. unfold positions_of.
      unfold prefix_items, list_items in Es. destruct (under kd PREFIX_ITEMS) as [y|]; cbn in Es |- *; [|done].
      destruct (as_list y) as [ps|]; cbn in Es |- *; [|done]. rewrite Nat2Z.id, Es. cbn. apply field_new_schema.
      apply Hs. by apply list_elem_of_In.
    + cbn in Hk. unfold prefix_items, list_items in Hin. destruct (under kd PREFIX_ITEMS) as [y|] eqn:Ey; cbn in Hin; [|by apply elem_of_nil in Hin].
      destruct (as_list y) as [ps|] eqn:Eps; cbn in Hin; [|by apply elem_of_nil in Hin]. apply (wf_item y ps); [by apply (wf_under kd PREFIX_ITEMS)|done|done].
  - destruct (as_map v) as [m|] eqn:Em; [|done]. injection En as <- <-. apply member_elem in Hc as (g & Hg & Eg & -> & ->).
    destruct (fields_of_ok kd Hk) as [Hn Hfs]. exists g. apply as_map_Some in Em as Em'. destruct Em' as [-> _].
    split_and!; try done; [|by rewrite member_segment_step, (map_under m)|apply Hnext; by apply list_elem_of_fmap_2|by apply Hfs].
    apply (step_field f _ _ _ _ _ Ek); [done|]. unfold into. rewrite Ek, member_segment_name. by apply field_named_in.
  - destruct (as_map v) as [m|] eqn:Em; [|done]. injection En as <- <-. apply entry_child in Hc as (-> & key & -> & Hin).
    apply andb_true_iff in Hs as [Hu%bool_decide_eq_true Hsch]. destruct (under kd ADDITIONAL_PROPERTIES) as [s|] eqn:Es; [|done].
    exists (MkField [] s false). split_and!; try done; [| |apply Hnext; by left|by apply (wf_under kd ADDITIONAL_PROPERTIES)].
    + apply (step_field f _ _ _ _ _ Ek); [done|]. unfold into, values_of. rewrite Ek, Hu. cbn. by apply field_new_schema.
    + cbn [get_step]. rewrite (map_under m v Em). apply get_unique; [|done]. apply as_map_Some in Em as [-> _].
      by apply value_wf_map in Hv as (_ & ? & _).
  - destruct (as_map v) as [m|] eqn:Em; [|done]. cbn [mbind option_bind] in En.
    destruct (list_find _ _) as [[i arm]|] eqn:Ef; [|done]. injection En as <- <-. apply member_elem in Hc as (g & Hg & Eg & -> & ->).
    apply list_find_Some in Ef as Ef'. destruct Ef' as (Hi & Hchosen & _). apply list_elem_of_lookup_2 in Hi.
    destruct (arm_fields_ok (KVariant tag a) arm Hk Hi) as [Hn Hfs]. apply as_map_Some in Em as Em'. destruct Em' as [-> _].
    exists g. split_and!; try done; [|by rewrite member_segment_step, (map_under m)| |by apply Hfs].
    + unfold step_in. rewrite Ek. rewrite forallb_forall in Hs. specialize (Hs arm ltac:(by apply list_elem_of_In)).
      unfold chosen_arm. rewrite (Hsel _ eq_refl). rewrite <- Hchosen in *.
      destruct (arm_value arm) as [|c t]; [done|]. cbn [spoken]. rewrite Ef, member_segment_name, field_named_in by done. done.
    + apply Hnext. apply list_elem_of_bind. exists arm. split; [by apply list_elem_of_fmap_2|done].
Qed.

Lemma leaf_cases room kind v p t : (p, t) ∈ flat_leaves lossy (S room) kind v ->
  exists text ch, node_of lossy kind v = Some (text, ch) /\
    match p with
    | [] => text = Some t
    | seg :: p => exists k x, (seg, k, x) ∈ ch /\ (p, t) ∈ flat_leaves lossy room k x
    end.
Proof.
  cbn [flat_leaves]. destruct (node_of lossy kind v) as [[text ch]|]; [|by intros ?%elem_of_nil]. intros H.
  exists text, ch. split; [done|]. destruct p as [|seg p].
  - apply elem_of_app in H as [H|H]; [destruct text; cbn in H; [apply list_elem_of_singleton in H; by injection H as ->|by apply elem_of_nil in H]|].
    apply list_elem_of_In, in_concat in H as (l & Hl & H). apply list_elem_of_In in Hl, H.
    apply list_elem_of_fmap in Hl as (c & -> & _). by apply list_elem_of_fmap in H as (w & ? & _).
  - by apply (node_leaves_elem lossy room text ch seg (p, t)) in H.
Qed.

Lemma own_leaf_in room kind v text ch t : node_of lossy kind v = Some (text, ch) -> text = Some t -> ([], t) ∈ flat_leaves lossy (S room) kind v.
Proof. intros E ->. cbn [flat_leaves]. rewrite E. by left. Qed.

Lemma child_leaf_in room kind v text ch seg k x p t : node_of lossy kind v = Some (text, ch) -> (seg, k, x) ∈ ch ->
  (p, t) ∈ flat_leaves lossy room k x -> (seg :: p, t) ∈ flat_leaves lossy (S room) kind v.
Proof. intros E Hc H. rewrite (leaves_node _ _ _ _ _ _ E). apply (node_leaves_elem lossy room text ch seg (p, t)). eauto. Qed.

(** The walk along a leaf's segments, where the store holds the leaves. *)
Lemma walk_leaf room : forall f v p t walked, plain_schema room (fschema f) = true -> value_wf (fschema f) -> value_wf v ->
  (p, t) ∈ flat_leaves lossy room (field_kind f) v ->
  (forall q u, (q, u) ∈ flat_leaves lossy room (field_kind f) v -> selected (walked ++ write_tail q) = Some u) ->
  exists f' x ch, walk_in selected f walked (length walked) (ends_from (length walked) p) (walked ++ write_tail p) = Ok f' /\
    value_at v p = Some x /\ node_of lossy (field_kind f') x = Some (Some t, ch).
Proof.
  induction room as [|room IH]; intros f v p t walked Hp Hf Hv Hin Hsel; [by apply elem_of_nil in Hin|].
  destruct (leaf_cases _ _ _ _ _ Hin) as (text & ch & En & Hcase). destruct p as [|seg p]; [subst text; by exists f, v, ch|].
  destruct Hcase as (k & x & Hc & Hq).
  assert (forall u, text = Some u -> selected walked = Some u) as Hown.
  { intros u Hu. rewrite <- (app_nil_r walked). apply (Hsel [] u). by eapply own_leaf_in. }
  pose proof (step_child room f v text ch walked (walked ++ write_tail (seg :: p)) Hp Hf Hv En Hown) as Hstep.
  rewrite Forall_forall in Hstep. specialize (Hstep _ Hc). unfold steps_to in Hstep. cbn [fst snd] in Hstep.
  destruct Hstep as (f' & E & <- & Hget & Hp' & Hf' & Hx).
  destruct (IH f' x p t (walked ++ write_next seg) Hp' Hf' Hx Hq) as (g & y & ch' & Ew & Ey & Eg).
  { intros q u Hqu. rewrite <- app_assoc, <- write_tail_cons. apply Hsel. by eapply child_leaf_in. }
  exists g, y, ch'. split_and!; [|by unfold value_at; cbn [foldl]; cbn; rewrite Hget|done].
  cbn [ends_from walk_in]. rewrite take_app_length, E. cbn [mbind result_bind]. rewrite write_tail_cons, app_assoc.
  rewrite <- length_app. exact Ew.
Qed.
End step.
End resolve.

Lemma root_path_text name : root_path name = show_segment (member_segment name).
Proof. unfold root_path, member_segment. by destruct (is_bare_name name). Qed.

Lemma stored_key name p : root_path name ++ write_tail p = write_path (member_segment name :: p).
Proof. by rewrite root_path_text. Qed.

Lemma bare_no_stop name c t : is_bare_name (name ++ c :: t) = true -> stops c = false.
Proof. intros [_ H]%is_bare_spec. apply Forall_app in H as [_ H]. by inversion_clear H. Qed.

(** A stored key that is a bare name is the name of its field. *)
Lemma bare_stored_key name p : is_bare_name (root_path name ++ write_tail p) = true -> p = [] /\ root_path name = name.
Proof.
  intros H. destruct p as [|seg p].
  - rewrite app_nil_r in H. split; [done|]. unfold root_path in *. destruct (is_bare_name name); [done|].
    destruct (write_next_head (Key_ name)) as (c & t & E & [-> | ->]); unfold keyed in H; cbn [write_next] in E; rewrite E in H;
      by apply (bare_no_stop []) in H.
  - rewrite write_tail_cons in H. destruct (write_next_head seg) as (c & t & E & [-> | ->]); rewrite E in H; by apply bare_no_stop in H.
Qed.

Lemma path_head seg p : segment_ok seg -> head (write_path (seg :: p)) <> Some DOT.
Proof.
  intros Hs. cbn [write_path]. destruct seg as [name|n|k].
  - destruct (bare_head name (write_tail p) Hs) as (c & E & Hc). cbn [show_segment]. rewrite E. by intros [= ->].
  - done.
  - destruct (write_next_head (Key_ k)) as (c & t & E & Hc). cbn [write_next show_segment] in *. by destruct (needs_quoting k).
Qed.

Lemma stored_key_spelled name p : Forall segment_ok p ->
  spelled (root_path name ++ write_tail p) false =
  Some ((member_segment name, length (root_path name)) :: ends_from (length (root_path name)) p).
Proof.
  intros Hp. assert (Forall segment_ok (member_segment name :: p)) as Hall by (constructor; [apply member_segment_ok|done]).
  rewrite stored_key. apply spelled_iff. split_and!; [done|intros _; apply path_head, member_segment_ok|].
  rewrite root_path_text. by apply reads_segments.
Qed.


(** ** Reaching what was stored *)

Module Account.
Definition schema : Value := Profile.object_schema [(bs "a.b", fschema Profile.agent_field)].
Definition stored_as : Store := match flatten id Profile.agent_field Profile.value Profile.before with Ok (_, s) => s | _ => ∅ end.

Lemma schema_plain : plain_schema MAX_DEPTH (fschema Profile.agent_field) = true.
Proof. vm_compute. reflexivity. Qed.
Lemma stored_by : flatten id Profile.agent_field Profile.value Profile.before = Ok (true, stored_as).
Proof.
  assert (match flatten id Profile.agent_field Profile.value Profile.before with Ok (b, _) => b | _ => false end = true) as H by (vm_compute; reflexivity).
  unfold stored_as. destruct (flatten _ _ _ _) as [[b s]|]; by subst.
Qed.
Lemma name_stored : stored_as !! bs "[a.b].auth.name" = Some (bs "me").
Proof. vm_compute. reflexivity. Qed.

(** An environment that may be null, of values to keep to oneself. *)
Definition secrets : Value := VMap [(ANY_OF, VList [
  VMap [(TYPE, Profile.text "object"); (ADDITIONAL_PROPERTIES, VMap [(TYPE, Profile.text "string"); (X_SENSITIVE, VBool true)])];
  VMap [(TYPE, Profile.text "null")]])].
Definition secrets_schema : Value := Profile.object_schema [(bs "env", secrets)].
Definition secrets_field : FieldRef := MkField (bs "env") secrets false.
Definition secret : Value := VMap [(bs "TOKEN", Profile.text "x")].
End Account.


(** An open map that may also be null is stored and read back, but no key of it is
    reached: its values' schema is looked for on the wrapper, so a secret in it is not
    known for one. *)
Theorem nullable_map_unreached :
  flatten id Account.secrets_field Account.secret ∅ = Ok (true, {[bs "env[TOKEN]" := bs "x"]}) /\
  unflatten Account.secrets_field {[bs "env[TOKEN]" := bs "x"]} = Some Account.secret /\
  resolve Account.secrets_schema (bs "env[TOKEN]") = None /\
  resolve_in id (lookup_store {[bs "env[TOKEN]" := bs "x"]}) Account.secrets_schema (bs "env[TOKEN]") =
    Err (BadValue (bs "env") (WithMembers (bs "env[TOKEN]"))) /\
  key_is_sensitive Account.secrets_schema (bs "env[TOKEN]") = false.
Proof. split_and!; vm_compute; reflexivity. Qed.
