(* ===== verification/Forms.v ===== *)
(** * Forms

    [read.rs] and [judge.rs] of [guatiao-intake]: a form beside a schema says how its
    fields are shown. Whether it fits the schema, in which sections and in what order
    the fields come, and which are shown for the values given so far. *)

From Stdlib Require Import String.
From S2P Require Import Prelude Order Errors SchemaErrors Number Value Keys Maps Merge MergePath Vocab Float64 SchemaRead SchemaMerge Validate FieldPath Flat Resolve.

(** ** The keys of a form *)

Definition SECTIONS : bytes := Eval vm_compute in bs "sections".
Definition FIELDS : bytes := Eval vm_compute in bs "fields".
Definition ID : bytes := Eval vm_compute in bs "id".
Definition DEFAULT_SECTION : bytes := [].
Definition WIDGET : bytes := Eval vm_compute in bs "widget".
Definition PLACEHOLDER : bytes := Eval vm_compute in bs "placeholder".
Definition UNIT : bytes := Eval vm_compute in bs "unit".
Definition VISIBLE_WHEN : bytes := Eval vm_compute in bs "visibleWhen".
Definition X_SECTION : bytes := Eval vm_compute in bs "x-section".
Definition X_ORDER : bytes := Eval vm_compute in bs "x-order".
Definition FIELD : bytes := Eval vm_compute in bs "field".
Definition EQUALS : bytes := Eval vm_compute in bs "equals".
Definition IN_ : bytes := Eval vm_compute in bs "in".
Definition FORM : bytes := Eval vm_compute in bs "form".

(** ** Reading a form *)

(** [FormRef], [SectionRef] and [HintsRef] view a value, hints perhaps none. *)
Definition is_form_map (v : Value) : bool := has_tag GUATIAO_MAP v.
Definition form_new (v : Value) : option Value := if is_form_map v then Some v else None.
Definition form_sections (form : Value) : list Value :=
  List.filter (λ s, bool_decide (is_Some (under s ID ≫= as_text))) (list_items (under form SECTIONS)).
Definition section_id (s : Value) : bytes := text_ s ID.
Definition form_section (form : Value) (id : bytes) : option Value :=
  '(_, s) ← list_find (λ s, section_id s = id) (form_sections form); Some s.

Definition hints_of (v : Value) : option Value := if is_form_map v then Some v else None.
Definition form_hints (form : Value) (path : bytes) : option Value :=
  fields ← under form FIELDS; h ← under fields path; hints_of h.
Definition form_fields (form : Value) : list (bytes * option Value) :=
  map (λ e, (e.1, hints_of e.2)) (map_entries (under form FIELDS)).

(** [Condition], and [visible_when]: what is malformed is no condition. *)
Record Condition := MkCondition { cfield : bytes; cvalues : list Value; csingle : bool }.
Definition visible_when (hints : option Value) : option Condition :=
  h ← hints; condition ← under h VISIBLE_WHEN; m ← as_map condition;
  field ← get m FIELD; field ← as_text field;
  match get m EQUALS, get m IN_ with
  | Some equals, None => Some (MkCondition field [equals] true)
  | None, Some any =>
      match as_list any with
      | Some (_ :: _ as l) => Some (MkCondition field l false)
      | _ => None
      end
  | _, _ => None
  end.

(** What a form shows of a field: [widget] and its like, and the form inside. *)
Definition hint_text (hints : option Value) (key : bytes) : bytes := match hints with Some h => text_ h key | None => [] end.
Definition hints_form (hints : option Value) : option Value := h ← hints; held ← under h FORM; form_new held.

(** [FormField]: what a schema's field says of its place. *)
Definition int_or (v : option Value) (fallback : Z) : Z :=
  match v ≫= as_number with
  | None => fallback
  | Some text =>
      if existsb (λ b, (b =? 46) || (b =? 101) || (b =? 69)) text then fallback
      else default fallback (parse_int i64_min i64_max text)
  end.
Definition field_section (f : FieldRef) : bytes := str_or (under (fschema f) X_SECTION) [].
Definition field_order (f : FieldRef) : Z := int_or (under (fschema f) X_ORDER) 0.

(** ** The field a form's path names *)

(** [top_level] and [form_key]. *)
Definition top_level (schema : Value) (path : bytes) : option FieldRef :=
  match schema_find schema path with
  | Some f => Some f
  | None =>
      _ ← ok_path (path_parse path);
      match segments path with [only] => schema_find schema (name_of_segment only) | _ => None end
  end.
Definition form_key (schema : Value) (path : bytes) : bytes :=
  match top_level schema path with Some f => fkey f | None => path end.

(** ** Whether a form fits *)

(** [FormError]; what a condition's field accepts is an arm's name, or what the
    schema's refusal says. *)
Inductive Accepted : Type := NameOfAnArm | Phrase (e : Expected) | Told (e : ValidationError).
Inductive FormError : Type :=
  | Malformed (at_ : bytes) (expected : string)
  | UnknownField (at_ path : bytes)
  | DuplicateSection (id : bytes)
  | ConditionRefused (at_ field : bytes) (expected : Accepted)
  | CyclicCondition (path : bytes).

(** [under], the errors of a form inside a field. *)
Definition prefixed (error : FormError) (prefix : bytes) : FormError :=
  match error with
  | Malformed at_ expected => Malformed (prefix ++ [DOT] ++ at_) expected
  | UnknownField at_ path => UnknownField (prefix ++ [DOT] ++ at_) path
  | ConditionRefused at_ field expected => ConditionRefused (prefix ++ [DOT] ++ at_) field expected
  | other => other
  end.

(** [counted_in_a_unit], [text_if_present], [field_at] and [expected_of]. *)
Definition numeric (k : Kind) : bool := match k with KInt _ _ _ | KFloat _ _ _ => true | _ => false end.
Definition counted_in_a_unit (k : Kind) : bool :=
  match k with KUnion _ => (length (List.filter numeric (alternatives k)) =? 1)%nat | other => numeric other end.
Definition text_if_present (v : Value) (key at_ : bytes) : result FormError unit :=
  match under v key with
  | Some x => match as_text x with None => Err (Malformed (at_ ++ [DOT] ++ key) "text") | Some _ => Ok () end
  | None => Ok ()
  end.
Definition fields_at (path : bytes) : bytes := FIELDS ++ [OPEN; QUOTE] ++ path ++ [QUOTE; CLOSE].
Definition expected_of (e : ValidationError) : Accepted := match e with BadValue _ expected => Phrase expected | other => Told other end.

(** [member_schema]. *)
Definition member_schema (f : FieldRef) : option Value :=
  match field_kind f with
  | KMap object => Some object
  | KList items _ _ => if is_form_map items then Some items else None
  | KMapOf _ => v ← under (fschema f) ADDITIONAL_PROPERTIES; if is_form_map v then Some v else None
  | _ => None
  end.

(** The sections of [check_at]: each a map, named, and once. *)
Definition check_section (seen : list bytes) (e : nat * Value) : result FormError (list bytes) :=
  let at_ := SECTIONS ++ show_segment (Index_ (Z.of_nat e.1)) in
  if negb (is_form_map e.2) then Err (Malformed at_ "a map")
  else
    match under e.2 ID ≫= as_text with
    | None => Err (Malformed (at_ ++ [DOT] ++ ID) "text")
    | Some id =>
        text_if_present e.2 TITLE at_;; text_if_present e.2 DESCRIPTION at_;;
        if bool_decide (id ∈ seen) then Err (DuplicateSection id) else Ok (seen ++ [id])
    end.
Definition check_sections (form : Value) : result FormError unit :=
  match under form SECTIONS with
  | None => Ok ()
  | Some sections =>
      items ← ok_or (as_list sections) (Malformed SECTIONS "a list");
      try_fold check_section [] (enumerate items);; Ok ()
  end.

Section judge.
Variable regex : option (bytes -> option (bytes -> bool)).

(** [check_condition]. *)
Definition condition_values (m : Map) (at_ : bytes) : result FormError (list Value * bytes) :=
  match get m EQUALS, get m IN_ with
  | Some equals, None => Ok ([equals], EQUALS)
  | None, Some any =>
      match as_list any with
      | Some (_ :: _ as l) => Ok (l, IN_)
      | Some [] => Err (Malformed (at_ ++ [DOT] ++ IN_) "at least one value -- an empty list is a condition nothing meets")
      | None => Err (Malformed (at_ ++ [DOT] ++ IN_) "a list")
      end
  | None, None => Err (Malformed (at_ ++ [DOT] ++ EQUALS) "a value to compare with, or a list under `in`")
  | Some _, Some _ => Err (Malformed at_ "`equals` or `in`, not both")
  end.
Definition could_hold (schema : Value) (field : bytes) (referenced : FieldRef) (at_ here : bytes) (v : Value) : result FormError unit :=
  let plain := bool_decide (is_Some (schema_find schema field)) || bool_decide (split_key field = None) in
  let refuse_form e := ConditionRefused (at_ ++ [DOT] ++ here) field e in
  match field_kind referenced, plain with
  | KVariant _ _, true =>
      match as_text v with
      | Some arm => map_err (λ e, refuse_form (expected_of e)) (validate_text regex referenced arm)
      | None => Err (refuse_form NameOfAnArm)
      end
  | _, _ => map_err (λ e, refuse_form (expected_of e)) (validate_value regex referenced v)
  end.
Definition check_condition (schema condition : Value) (at_ : bytes) : result FormError unit :=
  match as_map condition with
  | None => Err (Malformed at_ "a map holding `field` and `equals` or `in`")
  | Some m =>
      match get m FIELD ≫= as_text with
      | None => Err (Malformed (at_ ++ [DOT] ++ FIELD) "text")
      | Some field =>
          '(values, here) ← condition_values m at_;
          match resolve schema field with
          | None => Err (UnknownField at_ field)
          | Some referenced => for_each (could_hold schema field referenced at_ here) values
          end
      end
  end.

(** ** Conditions that wait on each other *)

(** [find_cycle]: the field each waits for; then each chain, until it ends, is one
    already walked, or meets itself. [trail] has its last in front. *)
Definition waits_for (schema form : Value) : gmap bytes bytes :=
  foldl (λ next '(key, hints),
    match visible_when hints with
    | Some c => match next !! key with Some _ => next | None => <[key := form_key schema (cfield c)]> next end
    | None => next
    end) ∅ (form_fields form).
Record Trail := MkTrail { on_trail : gset bytes; trail : list bytes; trail_at : bytes }.
Definition trail_round (next : gmap bytes bytes) (cleared : gset bytes) (t : Trail)
    : result (fault FormError) (Trail + (bytes + list bytes)) :=
  let 'MkTrail on trail at_ := t in
  if bool_decide (at_ ∈ cleared) then Ok (inr (inr trail))
  else if bool_decide (at_ ∈ on) then Ok (inr (inl at_))
  else
    match next !! at_ with
    | Some successor => Ok (inl (MkTrail ({[at_]} ∪ on) (at_ :: trail) successor))
    | None => Ok (inr (inr (at_ :: trail)))
    end.
Definition walk_chain (next : gmap bytes bytes) (cleared : gset bytes) (start : bytes) : result (fault FormError) (bytes + list bytes) :=
  loop (trail_round next cleared) (2 + size next) Panic (MkTrail ∅ [] start).
Fixpoint find_cycle_from (next : gmap bytes bytes) (cleared : gset bytes) (starts : list bytes) : result (fault FormError) (option bytes) :=
  match starts with
  | [] => Ok None
  | start :: starts =>
      walked ← walk_chain next cleared start;
      match walked with
      | inl at_ => Ok (Some at_)
      | inr trail => find_cycle_from next (list_to_set trail ∪ cleared) starts
      end
  end.
Definition find_cycle (schema form : Value) : result (fault FormError) (option bytes) :=
  find_cycle_from (waits_for schema form) ∅ (map fst (form_fields form)).

(** ** The whole check *)

(** [check_at], [room] levels left, with [check_sub_form]. *)
Definition refuse_form {A} (r : result FormError A) : result (fault FormError) A := map_err Refuse r.
Definition check_sub_form (again : Value -> Value -> result (fault FormError) unit) (schema : Value) (path : bytes) (nested : Value)
    (at_ : bytes) : result (fault FormError) unit :=
  let here := at_ ++ [DOT] ++ FORM in
  match resolve schema path with
  | None => Err (Refuse (UnknownField here path))
  | Some f =>
      members ← refuse_form (ok_or (member_schema f) (Malformed here
        "a form on a field whose kind is an object, a list of objects, or a map of them -- there is nothing else for its paths to name"));
      members ← refuse_form (ok_or (schema_new members) (Malformed here "a member schema that is a map"));
      nested ← refuse_form (ok_or (form_new nested) (Malformed here "a form"));
      map_err (fault_map (λ e, prefixed e here)) (again members nested)
  end.
Definition check_hints (again : Value -> Value -> result (fault FormError) unit) (schema : Value) (e : bytes * Value)
    : result (fault FormError) unit :=
  let '(path, hints) := e in
  match resolve schema path with
  | None => Err (Refuse (UnknownField FIELDS path))
  | Some f =>
      let at_ := fields_at path in
      if negb (is_form_map hints) then Err (Refuse (Malformed at_ "a map"))
      else
        refuse_form (text_if_present hints WIDGET at_);;
        refuse_form (text_if_present hints PLACEHOLDER at_);;
        refuse_form (text_if_present hints UNIT at_);;
        (if bool_decide (is_Some (under hints UNIT)) && negb (counted_in_a_unit (field_kind f)) then
           Err (Refuse (Malformed (at_ ++ [DOT] ++ UNIT)
             "a unit on a number field -- an integer, a real number, or a union with exactly one numeric arm"))
         else Ok ());;
        match under hints VISIBLE_WHEN with
        | Some condition => refuse_form (check_condition schema condition (at_ ++ [DOT] ++ VISIBLE_WHEN))
        | None => Ok ()
        end;;
        match under hints FORM with
        | Some nested => check_sub_form again schema path nested at_
        | None => Ok ()
        end
  end.
Fixpoint check_at (room : nat) (schema form : Value) : result (fault FormError) unit :=
  match room with
  | O => Err (Refuse (Malformed FIELDS "a form nested no deeper than the bound"))
  | S room =>
      refuse_form (check_sections form);;
      match under form FIELDS with
      | None => Ok ()
      | Some fields =>
          entries ← refuse_form (ok_or (as_map fields) (Malformed FIELDS "a map"));
          for_each (check_hints (check_at room) schema) entries;;
          on_cycle ← find_cycle schema form;
          match on_cycle with Some path => Err (Refuse (CyclicCondition path)) | None => Ok () end
      end
  end.
(** [check]. *)
Definition check_form (schema form : Value) : result (fault FormError) unit := check_at MAX_DEPTH schema form.

(** ** What is shown *)

(** [declares] and [current]. *)
Definition declares (schema values : Value) (owner member : bytes) : bool :=
  match schema_find schema owner with
  | None => false
  | Some f =>
      match field_kind f with
      | KVariant tag _ =>
          match v ← under values owner; t ← under v tag; as_text t with
          | None => false
          | Some picked =>
              existsb (λ arm, bool_decide (arm_value arm = picked) && existsb (λ f, bool_decide (fkey f = member)) (arm_fields arm))
                (arms (field_kind f))
          end
      | _ => false
      end
  end.
Definition or_else {A} (a b : option A) : option A := match a with Some _ => a | None => b end.
Definition current (schema values : Value) (path : bytes) : option Value :=
  match top_level schema path with
  | Some f =>
      held ← or_else (under values (fkey f)) (field_default f);
      match field_kind f with
      | KVariant tag _ => if is_form_map held then under held tag else Some held
      | _ => Some held
      end
  | None =>
      '(owner, member) ← split_key path;
      let owner := form_key schema owner in
      or_else (v ← under values owner; if declares schema values owner member then under v member else None)
        (f ← resolve schema path; field_default f)
  end.

(** [is_visible]: the chain of conditions a field waits on, each held to the values
    once it ends. *)
Definition met (schema values : Value) (c : Condition) : bool :=
  match current schema values (cfield c) with Some held => existsb (λ v, value_eqb held v) (cvalues c) | None => false end.
Record Waiting := MkWaiting { chain_seen : gset bytes; conditions : list Condition; chain_at : bytes }.
Definition chain_round (schema form : Value) (t : Waiting) : result (fault FormError) (Waiting + (bool * list Condition)) :=
  let 'MkWaiting seen conditions at_ := t in
  match resolve schema at_ with
  | None => Err (Refuse (UnknownField FIELDS at_))
  | Some _ =>
      if bool_decide (at_ ∈ seen) then Ok (inr (false, conditions))
      else
        match visible_when (form_hints form at_) with
        | None => Ok (inr (true, conditions))
        | Some c => Ok (inl (MkWaiting ({[at_]} ∪ seen) (conditions ++ [c]) (form_key schema (cfield c))))
        end
  end.
Definition is_visible (schema form : Value) (path : bytes) (values : Value) : result (fault FormError) bool :=
  '(end_, conditions) ← loop (chain_round schema form) (2 + length (form_fields form)) Panic (MkWaiting ∅ [] (form_key schema path));
  Ok (end_ && forallb (met schema values) conditions).
End judge.

(** ** Sections, and their order *)

(** [Group] and [Placed]. *)
Record Placed := MkPlaced { pfield : FieldRef; phints : option Value }.
Record Group := MkGroup { gsection : option Value; gfields : list Placed }.

(** [order_key], and its order. *)
Definition order_key (f : FieldRef) : bool * Z :=
  match under (fschema f) X_ORDER with Some _ => (false, field_order f) | None => (true, 0) end.
Definition key_le (a b : bool * Z) : bool := (negb a.1 && b.1) || (Bool.eqb a.1 b.1 && (a.2 <=? b.2)).
(** [layout]. *)
Definition section_order (form : Value) : list (bytes * option Value) :=
  foldl (λ order s, if existsb (λ o, bool_decide (o.1 = section_id s)) order then order else order ++ [(section_id s, Some s)])
    match form_section form DEFAULT_SECTION with None => [(DEFAULT_SECTION, None)] | Some _ => [] end
    (form_sections form).
Definition position_of (P : bytes -> bool) (order : list (bytes * option Value)) : option nat :=
  fst <$> list_find (λ o, P o.1 = true) order.
Definition group_of (order : list (bytes * option Value)) (f : FieldRef) : nat :=
  default (default 0%nat (position_of (λ id, bool_decide (id = [])) order))
    (position_of (λ id, bool_decide (id = field_section f)) order).
Definition place_field (form : Value) (order : list (bytes * option Value)) (groups : list Group) (f : FieldRef) : list Group :=
  alter (λ g, MkGroup (gsection g) (gfields g ++ [MkPlaced f (form_hints form (fkey f))])) (group_of order f) groups.
Definition layout (schema form : Value) : list Group :=
  let order := section_order form in
  let groups := foldl (place_field form order) (map (λ o, MkGroup o.2 []) order) (fields_of schema) in
  let groups := map (λ g, MkGroup (gsection g) (sort_by (on (λ p, order_key (pfield p)) key_le) (gfields g))) groups in
  List.filter (λ g, match gfields g with [] => false | _ => true end) groups.
