(* ===== verification/FormLaws.v ===== *)
(** * What a form promises

    The search for a cycle of conditions finds one exactly when there is one; a form
    that was checked shows a field exactly when its conditions, down the chain, are
    met; and a layout places every field once, in order. *)

From Stdlib Require Import String.
From stdpp Require Import sorting.
From S2P Require Import Prelude Order Errors SchemaErrors Number Value Keys Maps Merge MergePath Vocab Float64 SchemaRead SchemaMerge Validate ValidateLaws FieldPath Flat Resolve Forms.

(** ** Chains that end *)

Lemma tc_first {A} (R : A -> A -> Prop) a c : tc R a c -> exists b, R a b /\ rtc R b c.
Proof. destruct 1 as [x y H|x y z H1 H2]; [by exists y|]. exists y. split; [done|]. by apply tc_rtc. Qed.

Section chains.
Variable next : gmap bytes bytes.

Definition succ_of (a b : bytes) : Prop := next !! a = Some b.
Inductive ends : bytes -> Prop :=
  | ends_here a : next !! a = None -> ends a
  | ends_later a b : next !! a = Some b -> ends b -> ends a.

Lemma ends_forward a b : ends a -> succ_of a b -> ends b.
Proof. unfold succ_of. destruct 1; congruence. Qed.

Lemma ends_acyclic a : ends a -> ~ tc succ_of a a.
Proof.
  induction 1 as [a E|a b E H IH]; intros (c & Hs & Hr)%tc_first; unfold succ_of in Hs; [congruence|].
  assert (b = c) as <- by congruence. apply IH. eapply tc_rtc_l; [exact Hr|]. by constructor.
Qed.

(** A trail: what was walked, the last in front, up to where it is now. *)
Inductive trailing (start : bytes) : list bytes -> bytes -> Prop :=
  | trail_start : trailing start [] start
  | trail_next tr a b : trailing start tr a -> succ_of a b -> trailing start (a :: tr) b.

Lemma trailing_reach start tr at_ : trailing start tr at_ -> rtc succ_of start at_.
Proof. induction 1 as [|tr a b _ IH H]; [done|]. by eapply rtc_r. Qed.

Lemma trailing_tc start tr at_ x : trailing start tr at_ -> x ∈ tr -> tc succ_of x at_.
Proof.
  induction 1 as [|tr a b _ IH H]; [by intros ?%elem_of_nil|]. intros [->|Hx]%elem_of_cons; [by constructor|].
  eapply tc_r; [by apply IH|exact H].
Qed.

Lemma trailing_ends start tr at_ : trailing start tr at_ -> ends at_ -> forall x, x ∈ tr -> ends x.
Proof.
  induction 1 as [|tr a b _ IH H]; intros He x; [by intros ?%elem_of_nil|].
  assert (ends a) as Ha by (by eapply ends_later). intros [->|Hx]%elem_of_cons; [done|by apply IH].
Qed.

Lemma trailing_first start tr at_ : trailing start tr at_ -> start ∈ at_ :: tr.
Proof. induction 1 as [|tr a b _ IH _]; set_solver. Qed.

Lemma trailing_dom start tr at_ : trailing start tr at_ -> NoDup tr -> (length tr <= size next)%nat.
Proof.
  intros Ht Hn. rewrite <- size_dom, <- (size_list_to_set (C := gset bytes) tr) by done. apply subseteq_size.
  intros x Hx%elem_of_list_to_set. clear Hn. induction Ht as [|tr a b _ IH H]; [by apply elem_of_nil in Hx|].
  apply elem_of_cons in Hx as [->|Hx]; [|by apply IH]. apply elem_of_dom. by exists b.
Qed.

Lemma walk_from_trail cleared start : (forall x, x ∈ cleared -> ends x) -> forall fuel tr at_,
  trailing start tr at_ -> NoDup tr -> (1 + size next < fuel + length tr)%nat ->
  match loop (trail_round next cleared) fuel Panic (MkTrail (list_to_set tr) tr at_) with
  | Ok (inl p) => tc succ_of p p /\ rtc succ_of start p
  | Ok (inr trail) => (forall x, x ∈ trail -> ends x) /\ (start ∈ cleared \/ start ∈ trail)
  | Err _ => False
  end.
Proof.
  intros Hc. induction fuel as [|fuel IH]; intros tr at_ Ht Hn Hf; [apply trailing_dom in Ht; [lia|done]|].
  cbn [loop trail_round]. destruct (decide (at_ ∈ cleared)) as [Hi|Hi].
  { rewrite bool_decide_eq_true_2 by done. pose proof (trailing_ends _ _ _ Ht (Hc _ Hi)) as He. split; [done|].
    apply trailing_first, elem_of_cons in Ht as [->|Hs]; auto. }
  rewrite bool_decide_eq_false_2 by done. destruct (decide (at_ ∈ tr)) as [Ho|Ho].
  { rewrite bool_decide_eq_true_2 by (by apply elem_of_list_to_set). split; [by eapply trailing_tc|by eapply trailing_reach]. }
  rewrite bool_decide_eq_false_2 by (by rewrite elem_of_list_to_set). destruct (next !! at_) as [b|] eqn:E.
  - specialize (IH (at_ :: tr) b). cbn [list_to_set length] in IH. apply IH; [by apply trail_next|by constructor|lia].
  - assert (ends at_) as He by (by constructor). pose proof (trailing_ends _ _ _ Ht He) as Hs.
    apply trailing_first in Ht. split; [|by right]. intros x [->|Hx]%elem_of_cons; [done|by apply Hs].
Qed.

Lemma cycle_search starts : forall cleared, (forall x, x ∈ cleared -> ends x) ->
  match find_cycle_from next cleared starts with
  | Ok (Some p) => tc succ_of p p /\ exists pre start post, starts = pre ++ start :: post /\ Forall ends pre /\ rtc succ_of start p
  | Ok None => Forall ends starts
  | Err _ => False
  end.
Proof.
  induction starts as [|start starts IH]; intros cleared Hc; [constructor|]. cbn [find_cycle_from]. unfold walk_chain.
  pose proof (walk_from_trail cleared start Hc (2 + size next) [] start (trail_start start) (NoDup_nil_2)) as Hw.
  cbn [list_to_set length] in Hw. specialize (Hw ltac:(lia)). destruct (loop _ _ _ _) as [[p|tr]|e]; [| |done].
  - destruct Hw as [Hp Hr]. cbn. split; [done|]. by exists [], start, starts.
  - destruct Hw as [Ht Hs]. cbn [mbind result_bind]. specialize (IH (list_to_set tr ∪ cleared)).
    supply IH; [intros x [Hx%elem_of_list_to_set|Hx]%elem_of_union; auto|].
    assert (ends start) as He by (destruct Hs; auto). destruct (find_cycle_from _ _ _) as [[p|]|e]; [|by constructor|done].
    destruct IH as (Hp & pre & st & post & -> & Hpre & Hr). split; [done|]. exists (start :: pre), st, post. split_and!; [done|by constructor|done].
Qed.
End chains.

(** ** What a form's fields wait for *)

(** One field waits for another: its hints have a condition, which reads it. *)
Definition waits (schema form : Value) (a b : bytes) : Prop :=
  exists c, visible_when (form_hints form a) = Some c /\ b = form_key schema (cfield c).

Lemma waits_fold schema (l : list (bytes * option Value)) : NoDup (map fst l) -> forall (m : gmap bytes bytes) a,
  foldl (λ next '(key, hints),
    match visible_when hints with
    | Some c => match next !! key with Some _ => next | None => <[key := form_key schema (cfield c)]> next end
    | None => next
    end) m l !! a =
  or_else (m !! a) (h ← (list_to_map l : gmap bytes (option Value)) !! a; c ← visible_when h; Some (form_key schema (cfield c))).
Proof.
  induction l as [|[k h] l IH]; intros Hn m a; [cbn; rewrite lookup_empty; by destruct (m !! a)|].
  cbn [map fst] in Hn. apply NoDup_cons in Hn as [Hk Hn]. cbn [foldl]. rewrite IH by done. rewrite list_to_map_cons.
  destruct (decide (a = k)) as [->|Ha].
  - rewrite (not_elem_of_list_to_map_1 l k) by done. rewrite lookup_insert_eq. cbn.
    destruct (visible_when h) as [c|]; [|by destruct (m !! k)]. destruct (m !! k) as [b|] eqn:Em; [by rewrite Em|by rewrite lookup_insert_eq].
  - rewrite (lookup_insert_ne _ k a) by done. f_equal. destruct (visible_when h) as [c|]; [|done].
    destruct (m !! k) as [b|] eqn:Em; [done|]. by rewrite lookup_insert_ne.
Qed.

Section form.
Variables (schema form : Value).
Hypothesis Hwf : value_wf form.

Lemma form_entries : NoDup (map fst (map_entries (under form FIELDS))) /\
  forall a, form_hints form a = (v ← (list_to_map (map_entries (under form FIELDS)) : gmap bytes Value) !! a; hints_of v).
Proof using Hwf.
  unfold form_hints, map_entries. destruct (under form FIELDS) as [fields|] eqn:E; cbn [mbind option_bind default];
    [|split; [apply NoDup_nil_2|intros a; cbn; by rewrite lookup_empty]].
  apply wf_under in E; [|done]. destruct (as_map fields) as [m|] eqn:Em; cbn [default].
  - split; [|intros a; by rewrite (map_under m _ Em), get_contents].
    apply as_map_Some in Em as [-> _]. by apply value_wf_map in E as (_ & Hn & _).
  - split; [apply NoDup_nil_2|]. intros a. unfold under. rewrite Em. cbn. by rewrite lookup_empty.
Qed.

Lemma waits_for_spec a : waits_for schema form !! a = (λ c, form_key schema (cfield c)) <$> visible_when (form_hints form a).
Proof using Hwf.
  destruct form_entries as [Hn Hh]. unfold waits_for. rewrite waits_fold; [|unfold form_fields; by rewrite map_map].
  rewrite lookup_empty, Hh. cbn [or_else]. unfold form_fields. revert Hn. generalize (map_entries (under form FIELDS)). clear.
  intros l. induction l as [|[k v] l IH]; intros Hn; [by cbn; rewrite !lookup_empty|]. cbn [map fst snd]. rewrite !list_to_map_cons. cbn [map fst] in Hn.
  apply NoDup_cons in Hn as [Hk Hn]. destruct (decide (a = k)) as [->|Ha].
  - rewrite !lookup_insert_eq. cbn [mbind option_bind fmap option_fmap option_map]. by destruct (visible_when (hints_of v)).
  - rewrite !lookup_insert_ne by done. by apply IH.
Qed.

Lemma waits_succ a b : succ_of (waits_for schema form) a b <-> waits schema form a b.
Proof using Hwf.
  unfold succ_of, waits. rewrite waits_for_spec. destruct (visible_when (form_hints form a)) as [c|]; cbn; naive_solver.
Qed.

Lemma waits_listed a b : waits schema form a b -> a ∈ map fst (form_fields form).
Proof using Hwf.
  intros (c & E & _). destruct form_entries as [_ Hh]. rewrite Hh in E. unfold form_fields. rewrite map_map. cbn [fst].
  destruct (list_to_map _ !! a) as [v|] eqn:El; [|done]. apply elem_of_list_to_map_2 in El. by apply (list_elem_of_fmap_2 fst) in El.
Qed.

Lemma tc_waits a b : tc (succ_of (waits_for schema form)) a b <-> tc (waits schema form) a b.
Proof using Hwf.
  split; (induction 1 as [x y H|x y z H _ IH]; [constructor; by apply waits_succ|eapply tc_l; [by apply waits_succ|done]]).
Qed.

Lemma ends_of_listed a : Forall (ends (waits_for schema form)) (map fst (form_fields form)) -> ends (waits_for schema form) a.
Proof using Hwf.
  intros H. destruct (waits_for schema form !! a) as [b|] eqn:E; [|by constructor]. rewrite Forall_forall in H.
  apply H. apply (waits_listed a b). by apply waits_succ.
Qed.

(** ** Down the chain of conditions *)

Inductive Shown (values : Value) : bytes -> Prop :=
  | shown_always at_ : visible_when (form_hints form at_) = None -> Shown values at_
  | shown_when at_ c : visible_when (form_hints form at_) = Some c -> met schema values c = true ->
      Shown values (form_key schema (cfield c)) -> Shown values at_.

Lemma Shown_step values at_ c : visible_when (form_hints form at_) = Some c ->
  Shown values at_ <-> met schema values c = true /\ Shown values (form_key schema (cfield c)).
Proof.
  intros E. split; [inversion 1 as [a H0|a c' H0 H1 H2]; subst; [congruence|]; assert (c' = c) as -> by congruence; done|].
  intros [H1 H2]. by eapply shown_when.
Qed.

Lemma Shown_ends values at_ : Shown values at_ -> ends (waits_for schema form) at_.
Proof using Hwf.
  induction 1 as [at_ E|at_ c E _ _ IH]; [apply ends_here; rewrite waits_for_spec; by rewrite E|].
  eapply ends_later; [|exact IH]. rewrite waits_for_spec, E. done.
Qed.

Lemma chain_length (seen : gset bytes) : (forall a, a ∈ seen -> is_Some (visible_when (form_hints form a))) ->
  (size seen <= length (form_fields form))%nat.
Proof using Hwf schema.
  intros H. rewrite <- (length_map fst (form_fields form)).
  assert (NoDup (map fst (form_fields form))) as Hn by (unfold form_fields; rewrite map_map; apply (proj1 form_entries)).
  rewrite <- (size_list_to_set (C := gset bytes) (map fst (form_fields form))) by done. apply subseteq_size. intros a Ha.
  apply elem_of_list_to_set. destruct (H a Ha) as [c E]. apply (waits_listed a (form_key schema (cfield c))). by exists c.
Qed.

(** The loop of [is_visible]: what it answers from where it is, and why it refuses. *)
Lemma chain_loop values : forall fuel seen cs at_,
  (forall a, a ∈ seen -> is_Some (visible_when (form_hints form a)) /\ tc (waits schema form) a at_) ->
  (1 + length (form_fields form) < fuel + size seen)%nat ->
  match loop (chain_round schema form) fuel Panic (MkWaiting seen cs at_) with
  | Ok (end_, cs') => (end_ && forallb (met schema values) cs' = true <-> forallb (met schema values) cs = true /\ Shown values at_)
  | Err e => exists a, e = Refuse (UnknownField FIELDS a) /\ rtc (waits schema form) at_ a /\ resolve schema a = None
  end.
Proof using Hwf.
  induction fuel as [|fuel IH]; intros seen cs at_ Hseen Hf.
  { assert (size seen <= length (form_fields form))%nat; [|lia]. apply (chain_length seen). intros a Ha. by apply Hseen. }
  cbn [loop chain_round]. destruct (resolve schema at_) as [f|] eqn:Er; [|by exists at_].
  destruct (decide (at_ ∈ seen)) as [Hi|Hi].
  { rewrite bool_decide_eq_true_2 by done. cbn [andb]. split; [done|]. intros [_ Hs].
    destruct (Hseen _ Hi) as [_ Hc]. apply tc_waits in Hc. by apply Shown_ends, ends_acyclic in Hs. }
  rewrite bool_decide_eq_false_2 by done. destruct (visible_when (form_hints form at_)) as [c|] eqn:E.
  - specialize (IH ({[at_]} ∪ seen) (cs ++ [c]) (form_key schema (cfield c))). rewrite size_union, size_singleton in IH by set_solver.
    assert (waits schema form at_ (form_key schema (cfield c))) as Hw by (by exists c).
    supply IH.
    { intros a [->%elem_of_singleton|Ha]%elem_of_union; [split; [by rewrite E|by constructor]|].
      destruct (Hseen a Ha) as [H1 H2]. split; [done|]. by eapply tc_r. }
    specialize (IH ltac:(lia)). destruct (loop _ _ _ _) as [[end_ cs']|e].
    + rewrite IH, forallb_app, andb_true_iff, (Shown_step values at_ c E). cbn [forallb]. rewrite andb_true_r. tauto.
    + destruct IH as (a & -> & Hr & Hn). exists a. split_and!; [done|by eapply rtc_l|done].
  - cbn [andb]. split; [intros H; split; [done|by constructor]|by intros [? _]].
Qed.
End form.

(** ** What a check leaves *)

Lemma schema_find_key s key f : schema_find s key = Some f -> fkey f = key.
Proof.
  unfold schema_find. destruct (list_find _ _) as [[i e]|] eqn:E; cbn; [|done]. apply list_find_Some in E as (_ & E & _).
  unfold field_at. destruct (is_schema e.2); [|done]. by intros [= <-].
Qed.

Lemma resolve_key schema path f : top_level schema path = Some f -> resolve schema (fkey f) = Some f.
Proof.
  unfold top_level. destruct (schema_find schema path) as [g|] eqn:E; [intros [= ->]; unfold resolve; by rewrite (schema_find_key _ _ _ E), E|].
  destruct (ok_path (path_parse path)); cbn [mbind option_bind]; [|done]. destruct (segments path) as [|only [|]]; try done.
  intros E'. unfold resolve. by rewrite (schema_find_key _ _ _ E'), E'.
Qed.

Lemma resolve_form_key schema path : is_Some (resolve schema path) -> is_Some (resolve schema (form_key schema path)).
Proof. unfold form_key. destruct (top_level schema path) as [f|] eqn:E; [|done]. rewrite (resolve_key _ _ _ E). eauto. Qed.

Section checked.
Variable regex : option (bytes -> option (bytes -> bool)).
Variables (schema form : Value).
Hypothesis Hwf : value_wf form.

Lemma checked_condition condition at_ h c : check_condition regex schema condition at_ = Ok () ->
  under h VISIBLE_WHEN = Some condition -> visible_when (Some h) = Some c -> is_Some (resolve schema (cfield c)).
Proof.
  intros H Hu. unfold visible_when. cbn [mbind option_bind]. rewrite Hu. cbn [mbind option_bind]. unfold check_condition in H.
  destruct (as_map condition) as [m|]; [|done]. cbn [mbind option_bind]. destruct (get m FIELD) as [x|]; [|done].
  cbn [mbind option_bind] in *. destruct (as_text x) as [field|]; [|done]. cbn [mbind option_bind]. intros E.
  assert (cfield c = field) as -> by (repeat case_match; by simplify_eq).
  inv_result. by destruct (resolve schema field).
Qed.

(** In a form that was checked, every field waited for is declared, and none waits
    for itself. *)
Lemma checked_entry room a v : check_at regex (S room) schema form = Ok () ->
  (list_to_map (map_entries (under form FIELDS)) : gmap bytes Value) !! a = Some v ->
  check_hints regex (check_at regex room) schema (a, v) = Ok () /\ find_cycle schema form = Ok None.
Proof using Hwf.
  cbn [check_at]. intros H El. apply elem_of_list_to_map_2 in El. unfold map_entries in El. apply bind_Ok in H as (_ & _ & H).
  destruct (under form FIELDS) as [fields|]; cbn in El; [|by apply elem_of_nil in El].
  destruct (as_map fields) as [m|]; cbn in El; [|by apply elem_of_nil in El]. cbn [ok_or refuse_form map_err mbind result_bind] in H.
  apply seq_Ok in H as [He Hc]. rewrite for_each_Ok in He. split; [by apply He|].
  apply bind_Ok in Hc as ([p|] & -> & Hc); [|done]. done.
Qed.

Lemma checked_waits room : check_at regex room schema form = Ok () -> forall a b, waits schema form a b ->
  is_Some (resolve schema b) /\ find_cycle schema form = Ok None.
Proof using Hwf.
  destruct room as [|room]; [done|]. intros H a b (c & E & ->).
  destruct (form_entries form Hwf) as [_ Hh]. rewrite Hh in E. destruct (list_to_map _ !! a) as [v|] eqn:El; [|done].
  destruct (checked_entry room a v H El) as [He Hc]. split; [|done]. apply resolve_form_key. clear H Hc Hh El.
  cbn [mbind option_bind] in E. unfold hints_of in E. unfold check_hints in He. destruct (resolve schema a); [|done].
  destruct (is_form_map v); cbn [negb] in He; [|done]. do 4 apply seq_Ok in He as [_ He]. apply seq_Ok in He as [He _].
  destruct (under v VISIBLE_WHEN) as [condition|] eqn:Eu; [|unfold visible_when in E; cbn [mbind option_bind] in E; by rewrite Eu in E].
  unfold refuse_form in He. rewrite map_err_Ok in He. by apply (checked_condition condition _ v c He).
Qed.
End checked.

(** ** Sections in order *)

Lemma key_le_total a b : key_le a b = false -> key_le b a = true.
Proof.
  destruct a as [[] x], b as [[] y]; unfold key_le; cbn; try done; intros H%Z.leb_gt; apply Z.leb_le; lia.
Qed.
Lemma key_le_trans a b c : key_le a b = true -> key_le b c = true -> key_le a c = true.
Proof.
  destruct a as [[] x], b as [[] y], c as [[] z]; unfold key_le; cbn; try done; rewrite !Z.leb_le; lia.
Qed.
#[export] Instance key_le_orders : TotalLe key_le.
Proof. split; [exact key_le_total|exact key_le_trans]. Qed.

(** In the order of their keys; and with one key. *)
Definition by_key {A} (key : A -> bool * Z) : A -> A -> Prop := in_order (on key key_le).
Definition with_key {A} (key : A -> bool * Z) (k : bool * Z) (x : A) : bool := bool_decide (key x = k).

Lemma one_key {A} (key : A -> bool * Z) k a b : with_key key k a = true -> with_key key k b = true -> on key key_le a b = true.
Proof. unfold with_key, on. rewrite !bool_decide_eq_true. intros -> ->. apply le_refl, _. Qed.

(** The sections of a layout: those declared, once each, and the default. *)
Lemma section_order_from l : forall acc, NoDup (map fst acc) ->
  let r := foldl (λ order s, if existsb (λ o, bool_decide (o.1 = section_id s)) order then order else order ++ [(section_id s, Some s)]) acc l in
  NoDup (map fst r) /\ (forall id, id ∈ map fst r <-> id ∈ map fst acc \/ exists s, s ∈ l /\ section_id s = id).
Proof.
  induction l as [|s l IH]; intros acc Hn; cbv zeta; cbn [foldl].
  { split; [done|]. intros id. split; [auto|]. by intros [H|(s & Hs%elem_of_nil & _)]. }
  assert (existsb (λ o : bytes * option Value, bool_decide (o.1 = section_id s)) acc = true <-> section_id s ∈ map fst acc) as He.
  { rewrite existsb_exists. setoid_rewrite bool_decide_eq_true. split.
    - intros (o & Ho & <-). apply list_elem_of_fmap_2. by apply list_elem_of_In.
    - intros (o & -> & Ho)%list_elem_of_fmap. exists o. split; [by apply list_elem_of_In|done]. }
  destruct (existsb _ acc).
  - destruct (IH acc Hn) as [H1 H2]. split; [done|]. intros id. rewrite H2. setoid_rewrite elem_of_cons.
    assert (section_id s ∈ map fst acc) as Hs by by apply He. split; [naive_solver|]. intros [H|(s' & [->|Hs'] & <-)]; [auto|auto|eauto].
  - assert (section_id s ∉ map fst acc) as Hs by (intros H; by apply He in H).
    destruct (IH (acc ++ [(section_id s, Some s)])) as [H1 H2].
    { rewrite map_app. apply NoDup_app. split_and!; [done|intros x Hx Hx'|apply NoDup_singleton]. cbn in Hx'. apply list_elem_of_singleton in Hx'. by subst. }
    split; [done|]. intros id. rewrite H2, map_app, elem_of_app. cbn [map fst]. rewrite list_elem_of_singleton. setoid_rewrite elem_of_cons.
    split; [naive_solver|]. intros [H|(s' & [->|Hs'] & <-)]; [auto|auto|eauto].
Qed.

Lemma section_order_spec form : NoDup (map fst (section_order form)) /\
  (forall id, id ∈ map fst (section_order form) <-> id = [] \/ exists s, s ∈ form_sections form /\ section_id s = id).
Proof.
  unfold section_order, form_section. destruct (list_find _ _) as [[i s]|] eqn:E; cbn [mbind option_bind].
  - destruct (section_order_from (form_sections form) []) as [H1 H2]; [apply NoDup_nil_2|]. split; [done|]. intros id. rewrite H2.
    apply list_find_Some in E as (Hi & Hs & _). apply list_elem_of_lookup_2 in Hi. cbn [map]. rewrite elem_of_nil. split; [naive_solver|].
    intros [->|H]; [right; by exists s|by right].
  - destruct (section_order_from (form_sections form) [(DEFAULT_SECTION, None)]) as [H1 H2]; [apply NoDup_singleton|]. split; [done|].
    intros id. rewrite H2. cbn [map fst]. by rewrite list_elem_of_singleton.
Qed.

(** The section a field is shown in: its own when the form declares it, else the
    default. *)
Definition shown_in (form : Value) (f : FieldRef) : bytes :=
  if bool_decide (field_section f ∈ map fst (section_order form)) then field_section f else [].

Section positions.
Variables (P : bytes -> bool) (id : bytes).
Hypothesis HP : forall x, P x = true <-> x = id.

Lemma position_of_spec (order : list (bytes * option Value)) : NoDup (map fst order) -> forall i,
  position_of P order = Some i <-> map fst order !! i = Some id.
Proof using HP.
  intros Hn i. unfold position_of. split.
  - destruct (list_find _ _) as [[j o]|] eqn:E; [|done]. apply list_find_Some in E as (Hj & Ho & _). intros [= <-].
    change map with (@fmap list _). rewrite list_lookup_fmap, Hj. apply HP in Ho. cbn. by rewrite Ho.
  - intros Hi. pose proof Hi as Hi'. change map with (@fmap list _) in Hi. rewrite list_lookup_fmap in Hi.
    destruct (order !! i) as [o|] eqn:Eo; [|done]. injection Hi as Ho.
    rewrite (proj2 (list_find_Some (λ o, P o.1 = true) order i o)); [done|]. split_and!; [done|by apply HP|].
    intros j y Hj Hlt Hy%HP. assert (j = i) as ->; [|lia].
    eapply (NoDup_lookup (map fst order)); [exact Hn| |exact Hi']. change map with (@fmap list _). rewrite list_lookup_fmap, Hj. cbn. by rewrite Hy.
Qed.

Lemma position_of_None (order : list (bytes * option Value)) : NoDup (map fst order) ->
  position_of P order = None <-> id ∉ map fst order.
Proof using HP.
  intros Hn. destruct (position_of _ order) as [i|] eqn:E.
  - apply position_of_spec in E; [|done]. apply list_elem_of_lookup_2 in E. naive_solver.
  - split; [|done]. intros _ [i Hi]%list_elem_of_lookup. apply position_of_spec in Hi; [|done]. congruence.
Qed.
End positions.

Lemma is_empty_spec (x : bytes) : bool_decide (x = []) = true <-> x = [].
Proof. by rewrite bool_decide_eq_true. Qed.
Lemma is_text_spec (id x : bytes) : bool_decide (x = id) = true <-> x = id.
Proof. by rewrite bool_decide_eq_true. Qed.

Lemma group_of_spec form f i : group_of (section_order form) f = i <-> map fst (section_order form) !! i = Some (shown_in form f).
Proof.
  destruct (section_order_spec form) as [Hn He]. unfold group_of, shown_in.
  destruct (position_of (λ x, bool_decide (x = [])) (section_order form)) as [d|] eqn:Hd.
  2:{ apply (position_of_None _ _ is_empty_spec) in Hd; [|done]. destruct Hd. apply He. by left. }
  cbn [default]. case_bool_decide as Hs.
  - destruct (position_of (λ x, bool_decide (x = field_section f)) (section_order form)) as [j|] eqn:E; cbn [default from_option].
    + rewrite <- (position_of_spec _ _ (is_text_spec (field_section f))), E by done. unfold id. split; [by intros ->|by intros [= ->]].
    + by apply (position_of_None _ _ (is_text_spec (field_section f))) in E.
  - apply (position_of_None _ _ (is_text_spec (field_section f))) in Hs; [|done]. rewrite Hs. cbn [default].
    rewrite <- (position_of_spec _ _ is_empty_spec), Hd by done. unfold id. split; [by intros ->|by intros [= ->]].
Qed.

(** What each group holds before it is sorted. *)
Definition placed (form : Value) (f : FieldRef) : Placed := MkPlaced f (form_hints form (fkey f)).
Definition fields_in (form : Value) (i : nat) (l : list FieldRef) : list FieldRef :=
  List.filter (λ f, bool_decide (group_of (section_order form) f = i)) l.

Lemma place_all form l : forall groups, foldl (place_field form (section_order form)) groups l =
  imap (λ i g, MkGroup (gsection g) (gfields g ++ map (placed form) (fields_in form i l))) groups.
Proof.
  induction l as [|f l IH]; intros groups.
  - apply list_eq. intros i. rewrite list_lookup_imap. cbn. destruct (groups !! i) as [[sec fs]|]; cbn; [by rewrite app_nil_r|done].
  - cbn [foldl]. rewrite IH. apply list_eq. intros i. rewrite !list_lookup_imap. unfold place_field. cbn [fields_in List.filter].
    destruct (decide (group_of (section_order form) f = i)) as [E|E].
    + rewrite E, list_lookup_alter_eq, bool_decide_eq_true_2 by done. destruct (groups !! i) as [g|]; [|done]. cbn. by rewrite <- app_assoc.
    + rewrite list_lookup_alter_ne, bool_decide_eq_false_2 by done. done.
Qed.

(** Fields told apart by a number come back together. *)
Section parts.
Context {A : Type} (g : A -> nat).
Definition part (l : list A) (i : nat) : list A := List.filter (λ x, bool_decide (g x = i)) l.

Lemma parts_below l n : concat (map (part l) (seq 0 n)) ≡ₚ List.filter (λ x, (g x <? n)%nat) l.
Proof.
  induction n as [|n IH]; [by induction l|]. rewrite seq_S, map_app, concat_app, IH. cbn [map concat Nat.add]. rewrite app_nil_r. clear IH.
  induction l as [|x l IH]; [done|]. cbn [part List.filter]. destruct (Nat.ltb_spec (g x) n), (Nat.ltb_spec (g x) (S n)); try lia.
  - rewrite bool_decide_eq_false_2 by lia. cbn [app]. by rewrite IH.
  - rewrite bool_decide_eq_true_2 by lia. rewrite <- Permutation_middle. by constructor.
  - rewrite bool_decide_eq_false_2 by lia. done.
Qed.

Lemma parts_perm l n : (forall x, x ∈ l -> (g x < n)%nat) -> concat (map (part l) (seq 0 n)) ≡ₚ l.
Proof.
  intros H. rewrite parts_below. assert (List.filter (λ x, (g x <? n)%nat) l = l) as ->; [|done].
  induction l as [|x l IH]; [done|]. cbn [List.filter]. rewrite (proj2 (Nat.ltb_lt _ _)) by (apply H; by left). f_equal.
  apply IH. intros y Hy. apply H. by right.
Qed.
End parts.

Definition placed_key (p : Placed) : bool * Z := order_key (pfield p).

(** The groups of a layout, the empty ones included. *)
Lemma layout_groups schema form : layout schema form =
  List.filter (λ g, match gfields g with [] => false | _ => true end)
    (imap (λ i o, MkGroup o.2 (sort_by (on placed_key key_le) (map (placed form) (fields_in form i (fields_of schema))))) (section_order form)).
Proof.
  unfold layout. cbv zeta. rewrite place_all. f_equal. apply list_eq. intros i. change map with (@fmap list _) at 1.
  rewrite list_lookup_fmap, !list_lookup_imap. change map with (@fmap list _). rewrite list_lookup_fmap. by destruct (section_order form !! i).
Qed.

Lemma filled_concat (groups : list Group) :
  concat (map (λ g, map pfield (gfields g)) (List.filter (λ g, match gfields g with [] => false | _ => true end) groups)) =
  concat (map (λ g, map pfield (gfields g)) groups).
Proof.
  induction groups as [|[sec [|p ps]] groups IH]; [done| |]; cbn [List.filter gfields map concat]; [done|]. by rewrite IH.
Qed.

Lemma concat_perm {A} (l l' : list (list A)) : Forall2 (≡ₚ) l l' -> concat l ≡ₚ concat l'.
Proof. induction 1 as [|x y l l' H _ IH]; [done|]. cbn [concat]. by rewrite H, IH. Qed.

Lemma sorted_pfields l : StronglySorted (by_key placed_key) l -> StronglySorted (by_key order_key) (map pfield l).
Proof.
  induction 1 as [|p l _ IH Hp]; [constructor|]. cbn [map]. constructor; [done|]. apply Forall_forall. intros f (q & -> & Hq)%list_elem_of_fmap.
  rewrite Forall_forall in Hp. by apply Hp in Hq.
Qed.

Lemma kept_pfields k l : List.filter (with_key order_key k) (map pfield l) = map pfield (List.filter (with_key placed_key k) l).
Proof.
  induction l as [|p l IH]; [done|]. cbn [map List.filter]. rewrite IH. unfold with_key, placed_key. by destruct (bool_decide _).
Qed.

Lemma placed_fields form l : map pfield (map (placed form) l) = l.
Proof. rewrite map_map. cbn. apply map_id. Qed.

(** ** Properties *)

(** The search for a cycle always ends. It answers a field that waits for itself down
    the chain of conditions, when one does; and nothing only when none does. In a form
    that was checked, none does. *)
Theorem find_cycle_exact regex schema form : value_wf form ->
  exists found, find_cycle schema form = Ok found /\
  match found with
  | Some p => tc (waits schema form) p p
  | None => forall p, ~ tc (waits schema form) p p
  end /\
  (check_form regex schema form = Ok () -> found = None).
Proof.
  intros Hwf. assert (forall p, tc (waits schema form) p p -> check_form regex schema form = Ok () -> find_cycle schema form = Ok None) as Hchk.
  { intros p Hp Hc. assert (exists b, waits schema form p b) as [b Hb] by (apply tc_first in Hp as (b & ? & _); by exists b).
    by apply (checked_waits regex schema form Hwf MAX_DEPTH Hc) in Hb as [_ ?]. }
  pose proof (cycle_search (waits_for schema form) (map fst (form_fields form)) ∅) as H.
  supply H; [by intros x ?%elem_of_empty|]. unfold find_cycle in *. destruct (find_cycle_from _ _ _) as [[p|]|e]; [| |done].
  - destruct H as [H%tc_waits _]; [|done]. exists (Some p). split_and!; [done|done|]. intros Hc. by specialize (Hchk p H Hc).
  - exists None. split_and!; [done| |done]. intros p Hp%tc_waits; [|done]. revert Hp. by apply ends_acyclic, ends_of_listed.
Qed.


(** A layout places every field of the schema once. Its groups are those of the
    sections, in the order the form declares them, none empty; each holds the fields
    of its section, lowest order first, and those of one order as the schema has
    them. *)
Theorem layout_exact schema form :
  concat (map (λ g, map pfield (gfields g)) (layout schema form)) ≡ₚ fields_of schema /\
  map gsection (layout schema form) `sublist_of` map snd (section_order form) /\
  Forall (λ g, gfields g <> [] /\ exists id, (id, gsection g) ∈ section_order form /\
    StronglySorted (by_key order_key) (map pfield (gfields g)) /\
    (forall k, List.filter (with_key order_key k) (map pfield (gfields g)) =
      List.filter (with_key order_key k) (List.filter (λ f, bool_decide (shown_in form f = id)) (fields_of schema))) /\
    Forall (λ p, phints p = form_hints form (fkey (pfield p))) (gfields g)) (layout schema form).
Proof.
  rewrite layout_groups. set (G := imap _ (section_order form)). split_and!.
  - rewrite filled_concat. transitivity (concat (map (part (group_of (section_order form)) (fields_of schema)) (seq 0 (length (section_order form))))).
    + apply concat_perm. unfold G. change map with (@fmap list _). rewrite fmap_imap. rewrite Forall2_fmap_r.
      apply Forall2_same_length_lookup. rewrite length_imap, length_seq. split; [done|]. intros i x y Hx [-> Hy]%lookup_seq.
      rewrite list_lookup_imap in Hx. destruct (section_order form !! i) as [o|]; [|done]. injection Hx as <-. cbn [compose gfields Nat.add].
      rewrite sort_perm. by rewrite placed_fields.
    + apply parts_perm. intros f _. pose proof (proj1 (group_of_spec form f _) eq_refl) as H. apply lookup_lt_Some in H. by rewrite length_map in H.
  - assert (map gsection G = map snd (section_order form)) as <-.
    { unfold G. change map with (@fmap list _). rewrite fmap_imap. apply list_eq. intros i. rewrite list_lookup_imap, list_lookup_fmap. done. }
    clearbody G. induction G as [|g G IH]; [done|]. cbn [List.filter]. destruct (gfields g); cbn [map]; by constructor.
  - apply Forall_forall. intros g [Hg Hne]%list_elem_of_In%filter_In. split; [by intros E; rewrite E in Hne|].
    apply list_elem_of_In, list_elem_of_lookup in Hg as [i Hi]. unfold G in Hi. rewrite list_lookup_imap in Hi.
    destruct (section_order form !! i) as [[id sec]|] eqn:Eo; [|done]. injection Hi as <-. cbn [gsection gfields snd]. clear Hne.
    exists id. split_and!; [by eapply list_elem_of_lookup_2|apply sorted_pfields; apply sort_sorted, _| |].
    + intros k. rewrite kept_pfields. rewrite (sort_keeps (on placed_key key_le)) by (intros a b; apply one_key). rewrite <- kept_pfields, placed_fields. f_equal. unfold fields_in. apply filter_ext. intros f.
      apply bool_decide_ext. rewrite group_of_spec. change map with (@fmap list _). rewrite list_lookup_fmap, Eo. cbn. naive_solver.
    + rewrite sort_perm. apply Forall_forall. by intros p (f & -> & _)%list_elem_of_fmap.
Qed.

(** ** A mode, and what it uncovers *)

Module Screen.
Definition text (t : string) : Value := VString (bs t).
Definition string_schema : Value := VMap [(TYPE, text "string")].
Definition schema : Value := VMap [(TYPE, text "object"); (PROPERTIES, VMap [
  (bs "mode", VMap [(TYPE, text "string"); (DEFAULT, text "on")]); (bs "host", string_schema); (bs "a.b", string_schema)])].
Definition when (field : string) (held : string) : Value := VMap [(VISIBLE_WHEN, VMap [(FIELD, text field); (EQUALS, text held)])].
Definition form_of (entries : Map) : Value := VMap [(FIELDS, VMap entries)].
Definition form : Value := form_of [(bs "host", when "mode" "on"); (bs "a.b", when "host" "here")].
Definition circular : Value := form_of [(bs "host", when "a.b" "x"); (bs "a.b", when "host" "here")].
(** The same circle, one field under the key a store has it under. *)
Definition disguised : Value := form_of [(bs "host", when "[a.b]" "x"); (bs "[a.b]", when "host" "here")].
Definition held_values : Value := VMap [(bs "host", text "here")].

Lemma form_wf : value_wf form.
Proof. by apply wf_ok_wf. Qed.
Lemma circular_wf : value_wf circular.
Proof. by apply wf_ok_wf. Qed.
End Screen.

Lemma find_cycle_exact_witness : exists p, find_cycle Screen.schema Screen.circular = Ok (Some p) /\
  tc (waits Screen.schema Screen.circular) p p /\ check_form None Screen.schema Screen.circular <> Ok ().
Proof.
  destruct (find_cycle_exact None Screen.schema Screen.circular Screen.circular_wf) as (found & E & H & Hc).
  assert (match find_cycle Screen.schema Screen.circular with Ok None => false | _ => true end = true) as Hf by (vm_compute; reflexivity).
  destruct found as [p|]; [|by rewrite E in Hf]. exists p. split_and!; [exact E|exact H|]. intros Hk; discriminate (Hc Hk).
Defined.


(** Hints under a top-level field's store spelling are checked, and never looked at:
    the field is shown whatever its condition says, and a circle through it is not
    found. *)
Theorem spelled_hints_ignored :
  check_form None Screen.schema Screen.circular = Err (Refuse (CyclicCondition (bs "host"))) /\
  check_form None Screen.schema Screen.disguised = Ok () /\
  is_visible Screen.schema Screen.disguised (bs "[a.b]") (VMap []) = Ok true /\
  current Screen.schema (VMap []) (bs "host") = None.
Proof. split_and!; vm_compute; reflexivity. Qed.
