(* ===== verification/Registry.v ===== *)
(** * The registry

    [library/registry.rs], with the part of [raw/image.rs] that unloads and of
    [raw/host.rs] that answers a library: which libraries a host has loaded, what
    providers they offer under which keys, and who still holds them. Files, images and
    the functions a library exports are arguments here: what opening one came to, what
    its slots answer.

    A lease is the [Arc] a library's tables live in; it is a number here, and who
    holds it is counted where the code keeps a clone: by the registry, its providers,
    the snapshot services read, and handles outside. *)

From S2P Require Import Prelude Order KeyTemplate.

(** ** What a library says of itself *)

(** [Skipped], [Rejected] and [LoadError], whose text is not kept. *)
Inductive Skipped : Type :=
  | NoEntrySymbol | DeclinedThisHost
  | AlreadyLoaded (from : bytes)
  | ProviderAlreadyLoaded (id from : bytes)
  | NotExaminable
  | UnsupportedAbi (declared : Z)
  | Filtered (by_ : bytes)
  | SourceLibrary (serves : bytes).
Inductive Rejected : Type := RejectedAbi (declared : Z) | RejectedMalformed (why : bytes).
Inductive LoadError : Type :=
  | LoadOpen (path reason : bytes)
  | LoadMalformed (path reason : bytes)
  | LoadDuplicate (key first second : bytes).

(** [ProviderView], as far as the registry reads it. *)
Record ProviderView := MkView { v_id : bytes; v_name : bytes; v_version : option bytes; v_kinds : list bytes; v_hold : option nat }.
Definition view_supports (v : ProviderView) (kind : bytes) : bool := existsb (λ k, bool_decide (k = kind)) (v_kinds v).
(** [LibraryView]; whether it has an [unload] slot. *)
Record LibraryView := MkLibrary { l_id : bytes; l_version : bytes; l_unload : bool; l_views : list ProviderView }.

(** [Origin] and [Opened]. *)
Inductive Origin : Type := Mapped (image : nat) | Linked | ServedBy (source id : bytes).
Definition is_served (o : Origin) : bool := match o with ServedBy _ _ => true | _ => false end.
Definition is_mapped (o : Origin) : bool := match o with Mapped _ => true | _ => false end.
Definition closes (o : Origin) : bool := is_mapped o || is_served o.
Definition same_image (a b : Origin) : bool := match a, b with Mapped i, Mapped j => (i =? j)%nat | _, _ => false end.
Inductive Opened : Type :=
  | OpenedNoEntry | OpenedDeclined | OpenedRejected (why : Rejected) | OpenedLoaded (library : LibraryView) (origin : Origin).

(** ** The state *)

(** [Provider], [Loaded] and [Leaving]. *)
Record Provider := MkProvider {
  p_view : ProviderView; p_from : bytes; p_library : bytes; p_version : bytes; p_source : bytes;
  p_key : bytes; p_priority : Z; p_at : nat }.
Record Loaded := MkLoaded {
  d_path : bytes; d_key : bytes; d_id : bytes; d_version : bytes; d_source : bytes; d_providers : nat;
  d_skipped : list Skipped; d_canonical : bytes; d_origin : Origin; d_lease : nat; d_unload : bool }.
Record Leaving := MkLeaving { g_key : bytes; g_lease : nat; g_origin : Origin; g_unload : bool }.

(** [Snapshot] and its entries. *)
Record SnapshotEntry := MkEntry { e_kinds : list bytes; e_lease : nat; e_at : nat }.
Record Snapshot := MkSnapshot { s_entries : list SnapshotEntry; s_by_key : gmap bytes nat; s_leases : list nat }.
Definition snapshot_default : Snapshot := MkSnapshot [] ∅ [].

(** What became of an origin given up: closed for a library that was loaded, closed
    for one passed over, or left open. *)
Inductive Gone : Type := ClosedLease (lease : nat) | ClosedUnused (o : Origin) | KeptOpen (o : Origin).

(** [Registry]: its providers, and around it the leases given out so far, who outside
    holds one, and what became of origins. *)
Record Registry := MkRegistry {
  r_key : KeyTemplate; r_library_key : KeyTemplate;
  r_loaded : list Loaded; r_providers : list Provider; r_by_key : gmap bytes nat;
  r_priorities : gmap bytes Z; r_leaving : list Leaving; r_snapshot : Snapshot;
  r_next : nat; r_outside : gmap nat nat; r_gone : list Gone }.

Definition set_r_snapshot (r : Registry) (s : Snapshot) : Registry :=
  MkRegistry (r_key r) (r_library_key r) (r_loaded r) (r_providers r) (r_by_key r) (r_priorities r) (r_leaving r) s (r_next r) (r_outside r) (r_gone r).
Definition set_r_leaving (r : Registry) (l : list Leaving) : Registry :=
  MkRegistry (r_key r) (r_library_key r) (r_loaded r) (r_providers r) (r_by_key r) (r_priorities r) l (r_snapshot r) (r_next r) (r_outside r) (r_gone r).
Definition set_r_outside (r : Registry) (o : gmap nat nat) : Registry :=
  MkRegistry (r_key r) (r_library_key r) (r_loaded r) (r_providers r) (r_by_key r) (r_priorities r) (r_leaving r) (r_snapshot r) (r_next r) o (r_gone r).
Definition add_gone (r : Registry) (g : Gone) : Registry :=
  MkRegistry (r_key r) (r_library_key r) (r_loaded r) (r_providers r) (r_by_key r) (r_priorities r) (r_leaving r) (r_snapshot r) (r_next r) (r_outside r) (r_gone r ++ [g]).

(** [Registry::new], over the default templates. *)
Definition registry_new (key library_key : KeyTemplate) : Registry :=
  MkRegistry key library_key [] [] ∅ ∅ [] snapshot_default 0 ∅ [].

(** ** Who holds a lease *)

Definition holds_lease (lease : nat) (p : Provider) : bool := bool_decide (v_hold (p_view p) = Some lease).
Definition held_by_providers (r : Registry) (lease : nat) : nat := length (List.filter (holds_lease lease) (r_providers r)).
Definition held_by_snapshot (r : Registry) (lease : nat) : nat := length (List.filter (λ l, bool_decide (l = lease)) (s_leases (r_snapshot r))).
Definition held_outside (r : Registry) (lease : nat) : nat := default 0%nat (r_outside r !! lease).
(** [Arc::strong_count] of a lease whose own hold the registry has, loaded or leaving. *)
Definition strong_count (r : Registry) (lease : nat) : nat :=
  (1 + held_by_providers r lease + held_by_snapshot r lease + held_outside r lease)%nat.

(** ** Ranking and publishing *)

(** [ranked]: highest priority first, then by key. *)
Definition rank_le : Provider -> Provider -> bool :=
  then_by (on p_priority (λ a b, b <=? a)) (on p_key text_le).
Definition ranked (l : list Provider) : list Provider := sort_by rank_le l.

(** [publish_without] and [publish]. *)
Definition publish_entry (without : option nat) (s : Snapshot) (p : Provider) : Snapshot :=
  match v_hold (p_view p) with
  | None => s
  | Some lease =>
      if bool_decide (without = Some lease) then s
      else
        let '(held, leases) :=
          match list_find (λ l, l = lease) (s_leases s) with
          | Some (at_, _) => (at_, s_leases s)
          | None => (length (s_leases s), s_leases s ++ [lease])
          end in
        MkSnapshot (s_entries s ++ [MkEntry (v_kinds (p_view p)) held (p_at p)])
          (<[p_key p := length (s_entries s)]> (s_by_key s)) leases
  end.
Definition snapshot_of (without : option nat) (providers : list Provider) : Snapshot :=
  foldl (publish_entry without) snapshot_default (ranked providers).
Definition publish_without (r : Registry) (without : option nat) : Registry :=
  set_r_snapshot r (snapshot_of without (r_providers r)).
Definition publish (r : Registry) : Registry := publish_without r None.

(** [set_priority] and [priority]. *)
Definition priority (r : Registry) (id : bytes) : Z := default 0 (r_priorities r !! id).
Definition with_priority (p : Provider) (n : Z) : Provider :=
  MkProvider (p_view p) (p_from p) (p_library p) (p_version p) (p_source p) (p_key p) n (p_at p).
Definition set_priority (r : Registry) (id : bytes) (n : Z) : Registry :=
  publish (MkRegistry (r_key r) (r_library_key r) (r_loaded r)
    (map (λ p, if bool_decide (v_id (p_view p) = id) then with_priority p n else p) (r_providers r))
    (r_by_key r) (<[id := n]> (r_priorities r)) (r_leaving r) (r_snapshot r) (r_next r) (r_outside r) (r_gone r)).

(** ** Keys *)

(** [Provider::fields] and [Loaded::fields]. *)
Definition provider_fields (p : Provider) : KeyFields :=
  MkKeyFields (v_id (p_view p)) (v_name (p_view p)) (p_library p) (p_version p) (p_source p).
Definition loaded_fields (d : Loaded) : KeyFields := with_source (library_fields (d_id d) (d_version d)) (d_source d).

(** Keys, each once, with where it is: the loop that refuses a second. *)
Fixpoint keys_from {A} (value : nat -> A) (at_ : nat) (m : gmap bytes A) (l : list bytes) : result KeyError (gmap bytes A) :=
  match l with
  | [] => Ok m
  | key :: l => match m !! key with
                | Some _ => Err (Collides key)
                | None => keys_from value (S at_) (<[key := value at_]> m) l
                end
  end.

(** [keyed_by] and [libraries_keyed_by], of a template already parsed. *)
Definition with_key_ (p : Provider) (key : bytes) : Provider :=
  MkProvider (p_view p) (p_from p) (p_library p) (p_version p) (p_source p) key (p_priority p) (p_at p).
Definition rekey (r : Registry) (key : KeyTemplate) : result KeyError Registry :=
  let rendered := map (λ p, template_render key (provider_fields p)) (r_providers r) in
  by_key ← keys_from (λ at_, at_) 0 ∅ rendered;
  Ok (publish (MkRegistry key (r_library_key r) (r_loaded r) (zip_with with_key_ (r_providers r) rendered) by_key
    (r_priorities r) (r_leaving r) (r_snapshot r) (r_next r) (r_outside r) (r_gone r))).
Definition with_library_key (d : Loaded) (key : bytes) : Loaded :=
  MkLoaded (d_path d) key (d_id d) (d_version d) (d_source d) (d_providers d) (d_skipped d) (d_canonical d) (d_origin d) (d_lease d) (d_unload d).
Definition rekey_libraries (r : Registry) (key : KeyTemplate) : result KeyError Registry :=
  _ ← keys_from (λ at_, at_) 0 ∅ (map (λ d, template_render key (loaded_fields d)) (r_loaded r));
  Ok (MkRegistry (r_key r) key (map (λ d, with_library_key d (template_render key (loaded_fields d))) (r_loaded r))
    (r_providers r) (r_by_key r) (r_priorities r) (r_leaving r) (r_snapshot r) (r_next r) (r_outside r) (r_gone r)).

(** ** Loading *)

(** [Loading]. *)
Inductive Loading : Type := LoadedNow (d : Loaded) | SkippedIt (why : Skipped).

(** [pass_over]. *)
Definition pass_over (r : Registry) (o : Origin) : Registry :=
  if is_served o then add_gone r (ClosedUnused o)
  else if existsb (λ d, same_image (d_origin d) o) (r_loaded r) then add_gone r (ClosedUnused o)
  else add_gone r (KeptOpen o).

(** The views of a library, each taken under its key or skipped: a key held by a
    provider of another id is a refusal. *)
Definition Taken : Type := ProviderView * bytes * bytes.
Definition holder_of (r : Registry) (path key : bytes) (taken : list Taken) : option (bytes * bytes) :=
  match (i ← r_by_key r !! key; r_providers r !! i) with
  | Some p => Some (v_id (p_view p), p_from p)
  | None => '(_, t) ← list_find (λ t, t.2 = key) taken; Some (v_id t.1.1, path)
  end.
Definition take_view (r : Registry) (path source : bytes) (library : LibraryView)
    (st : list Skipped * list Taken) (view : ProviderView) : result LoadError (list Skipped * list Taken) :=
  let '(skipped, taken) := st in
  let at_ := default (l_version library) (v_version view) in
  let key := template_render (r_key r) (MkKeyFields (v_id view) (v_name view) (l_id library) at_ source) in
  match holder_of r path key taken with
  | Some (held_by, from) =>
      if bool_decide (held_by = v_id view) then Ok (skipped ++ [ProviderAlreadyLoaded (v_id view) from], taken)
      else Err (LoadDuplicate key from path)
  | None => Ok (skipped, taken ++ [(view, at_, key)])
  end.

(** [Lease::adopt]: the views hold a lease that is new. *)
Definition adopted (lease : nat) (v : ProviderView) : ProviderView := MkView (v_id v) (v_name v) (v_version v) (v_kinds v) (Some lease).
Definition new_provider (r : Registry) (path source : bytes) (library : LibraryView) (built : nat) (t : Taken) : Provider :=
  let '(view, at_, key) := t in
  MkProvider (adopted (r_next r) view) path (l_id library) at_ source key (priority r (v_id view)) built.

(** [absorb_file]. *)
Definition absorb_file (canonical : bytes -> bytes) (r : Registry) (path source : bytes) (opened : Opened)
    : Registry * result LoadError Loading :=
  match opened with
  | OpenedNoEntry => (r, Ok (SkippedIt NoEntrySymbol))
  | OpenedDeclined => (r, Ok (SkippedIt DeclinedThisHost))
  | OpenedRejected (RejectedAbi declared) => (r, Ok (SkippedIt (UnsupportedAbi declared)))
  | OpenedRejected (RejectedMalformed why) => (r, Err (LoadMalformed path why))
  | OpenedLoaded library origin =>
      let library_key := template_render (r_library_key r) (with_source (library_fields (l_id library) (l_version library)) source) in
      match list_find (λ d, d_key d = library_key) (r_loaded r) with
      | Some (_, already) => (pass_over r origin, Ok (SkippedIt (AlreadyLoaded (d_path already))))
      | None =>
          match try_fold (take_view r path source library) ([], []) (l_views library) with
          | Err e => (pass_over r origin, Err e)
          | Ok (skipped, taken) =>
              let providers := imap (new_provider r path source library) taken in
              let d := MkLoaded path library_key (l_id library) (l_version library) source (length taken) skipped
                         (canonical path) origin (r_next r) (l_unload library) in
              (publish (MkRegistry (r_key r) (r_library_key r) (r_loaded r ++ [d]) (r_providers r ++ providers)
                 (foldl (λ m '(i, t), <[t.2 := (length (r_providers r) + i)%nat]> m) (r_by_key r) (imap pair taken))
                 (r_priorities r) (r_leaving r) (r_snapshot r) (S (r_next r)) (r_outside r) (r_gone r)),
               Ok (LoadedNow d))
          end
      end
  end.

(** ** Letting go *)

(** [collect]: what nobody else holds, and agrees, is closed. [ask] is what an
    [unload] slot answers. *)
Definition collect_one (ask : nat -> bool) (st : Registry * list bytes * list Leaving) (g : Leaving) : Registry * list bytes * list Leaving :=
  let '(r, closed, kept) := st in
  if (1 <? strong_count r (g_lease g))%nat then (r, closed, kept ++ [g])
  else
    let agrees := if g_unload g then ask (g_lease g) else is_served (g_origin g) in
    if negb agrees then (r, closed, kept ++ [g])
    else (add_gone r (ClosedLease (g_lease g)), closed ++ [g_key g], kept).
Definition collect (ask : nat -> bool) (r : Registry) : Registry * list bytes :=
  let '(r, closed, kept) := foldl (collect_one ask) (set_r_leaving r [], [], []) (r_leaving r) in
  (set_r_leaving r kept, closed).

(** [loaded_from_path], [load_from], and [register_local] and [register_entry]. *)
Definition loaded_from_path (canonical : bytes -> bytes) (r : Registry) (path : bytes) : option Loaded :=
  '(_, d) ← list_find (λ d, d_canonical d = canonical path) (r_loaded r); Some d.
Definition load_from (canonical : bytes -> bytes) (ask : nat -> bool) (r : Registry) (path source : bytes) (opened : bytes + Opened)
    : Registry * result LoadError Loading :=
  let '(r, _) := collect ask r in
  match loaded_from_path canonical r path with
  | Some already => (r, Ok (SkippedIt (AlreadyLoaded (d_path already))))
  | None =>
      match opened with
      | inl reason => (r, Err (LoadOpen path reason))
      | inr opened => absorb_file canonical r path source opened
      end
  end.
Definition named_path (name : bytes) : bytes := bs "<" ++ name ++ bs ">".
Definition register (canonical : bytes -> bytes) (ask : nat -> bool) (r : Registry) (name : bytes) (opened : Opened)
    : Registry * result LoadError Loading :=
  load_from canonical ask r (named_path name) [] (inr opened).

(** [UnloadError] and [Retired]. *)
Inductive UnloadError : Type :=
  | NotFound (key : bytes) | LinkedIn (key : bytes) | NotSupported (key : bytes)
  | Busy (key : bytes) (leases : nat) | RefusedBy (key : bytes)
  | NotClosed (key reason : bytes).
Record Retired := MkRetired { t_key : bytes; t_id : bytes; t_version : bytes; t_providers : nat }.

(** [library] and [take_library]: the library, and every provider from its path, are
    taken out. *)
Definition library (r : Registry) (key : bytes) : option Loaded :=
  '(_, d) ← list_find (λ d, d_key d = key) (r_loaded r); Some d.
Definition take_library (r : Registry) (key : bytes) : result UnloadError (Registry * Retired * Loaded) :=
  match list_find (λ d, d_key d = key) (r_loaded r) with
  | None => Err (NotFound key)
  | Some (at_, one) =>
      let providers := List.filter (λ p, negb (bool_decide (p_from p = d_path one))) (r_providers r) in
      let r' := publish (MkRegistry (r_key r) (r_library_key r) (delete at_ (r_loaded r)) providers
        (list_to_map (reverse (imap (λ i p, (p_key p, i)) providers)))
        (r_priorities r) (r_leaving r) (r_snapshot r) (r_next r) (r_outside r) (r_gone r)) in
      Ok (r', MkRetired key (d_id one) (d_version one) (length (r_providers r) - length providers), one)
  end.

(** [retire]. *)
Definition retire (ask : nat -> bool) (r : Registry) (key : bytes) : Registry * result UnloadError Retired :=
  let '(r, _) := collect ask r in
  match take_library r key with
  | Err e => (r, Err e)
  | Ok (r, retired, one) =>
      if closes (d_origin one)
      then (set_r_leaving r (r_leaving r ++ [MkLeaving (t_key retired) (d_lease one) (d_origin one) (d_unload one)]), Ok retired)
      else (add_gone r (KeptOpen (d_origin one)), Ok retired)
  end.

(** [holds_besides_own] and [unload_with], in three parts, since other threads take
    and drop handles between them: the library is withdrawn from what services
    answer; its holds are counted and it is asked; it is taken out and closed. [close]
    is the loader's message, where it could not close a mapping it gave up. *)
Definition holds_besides_own (r : Registry) (one : Loaded) : nat :=
  (strong_count r (d_lease one) - (1 + held_by_providers r (d_lease one)))%nat.
Definition unload_begin (r : Registry) (key : bytes) : result UnloadError (Registry * Loaded) :=
  match library r key with
  | None => Err (NotFound key)
  | Some one => if negb (closes (d_origin one)) then Err (LinkedIn key) else Ok (publish_without r (Some (d_lease one)), one)
  end.
Definition unload_refusal (ask : nat -> bool) (insist : bool) (r : Registry) (key : bytes) (one : Loaded) : option UnloadError :=
  let leases := holds_besides_own r one in
  if (0 <? leases)%nat && negb insist then Some (Busy key leases)
  else if d_unload one then (if ask (d_lease one) then None else Some (RefusedBy key))
  else if insist || is_served (d_origin one) then None
  else Some (NotSupported key).
Definition unload_end (close : Origin -> option bytes) (refusal : option UnloadError) (r : Registry) (key : bytes) : Registry * result UnloadError unit :=
  match refusal with
  | Some why => (publish_without r None, Err why)
  | None =>
      match take_library r key with
      | Err e => (r, Err e)
      | Ok (r, _, one) => (add_gone r (ClosedLease (d_lease one)),
          match close (d_origin one) with None => Ok () | Some reason => Err (NotClosed key reason) end)
      end
  end.
Definition unload_with (ask : nat -> bool) (close : Origin -> option bytes) (insist : bool) (r : Registry) (key : bytes) : Registry * result UnloadError unit :=
  match unload_begin r key with
  | Err e => (r, Err e)
  | Ok (r, one) => unload_end close (unload_refusal ask insist r key one) r key
  end.
(** [unload], and [unload_unchecked]. *)
Definition unload (ask : nat -> bool) (close : Origin -> option bytes) (r : Registry) (key : bytes) : Registry * result UnloadError unit :=
  let '(r, _) := collect ask r in unload_with ask close false r key.
Definition unload_unchecked (ask : nat -> bool) (close : Origin -> option bytes) (r : Registry) (key : bytes) : Registry * result UnloadError unit :=
  let '(r, _) := collect ask r in unload_with ask close true r key.

(** ** Asking *)

(** [providers], [all_ranked], [provider] and [providers_of]. *)
Definition providers (r : Registry) (kind : bytes) : list Provider :=
  ranked (List.filter (λ p, view_supports (p_view p) kind) (r_providers r)).
Definition all_ranked (r : Registry) : list Provider := ranked (r_providers r).
Definition provider (r : Registry) (key : bytes) : option Provider := at_ ← r_by_key r !! key; r_providers r !! at_.
Definition providers_of (r : Registry) (id : bytes) : list Provider :=
  ranked (List.filter (λ p, bool_decide (v_id (p_view p) = id)) (r_providers r)).

(** [available], [best] and [why_not]; what a provider's slot answers is outside. *)
Inductive WhyNot : Type := NothingClaimsIt | NoneAvailable (refused : list (Provider * bytes)).
Section available.
Variable answers : Provider -> option bytes.
Definition is_available (p : Provider) : bool := match answers p with None => true | Some _ => false end.
Definition available (r : Registry) (kind : bytes) : list Provider := List.filter is_available (providers r kind).
Definition best (r : Registry) (kind : bytes) : option Provider := head (available r kind).
Fixpoint why_not_from (refused : list (Provider * bytes)) (l : list Provider) : option WhyNot :=
  match l with
  | [] => match refused with [] => Some NothingClaimsIt | _ => Some (NoneAvailable refused) end
  | p :: l => match answers p with None => None | Some reason => why_not_from (refused ++ [(p, reason)]) l end
  end.
Definition why_not (r : Registry) (kind : bytes) : option WhyNot := why_not_from [] (providers r kind).
End available.

(** [library_of]. *)
Definition library_of (r : Registry) (p : Provider) : option Loaded :=
  '(_, d) ← list_find (λ d, v_hold (p_view p) = Some (d_lease d)) (r_loaded r); Some d.

(** ** What a library is answered *)

(** [pin] and [unpin]: one more hold outside, or one fewer. *)
Definition pin (r : Registry) (lease : nat) : Registry := set_r_outside r (<[lease := S (held_outside r lease)]> (r_outside r)).
Definition unpin (r : Registry) (lease : nat) : Registry := set_r_outside r (<[lease := pred (held_outside r lease)]> (r_outside r)).

(** [get_one] and [list_all], pinned: a descriptor is its lease and its place there. *)
Definition descriptor_of (s : Snapshot) (e : SnapshotEntry) : option (nat * nat) := lease ← s_leases s !! e_lease e; Some (lease, e_at e).
Definition services_get (r : Registry) (key : bytes) : Registry * option (nat * nat) :=
  match (i ← s_by_key (r_snapshot r) !! key; e ← s_entries (r_snapshot r) !! i; descriptor_of (r_snapshot r) e) with
  | Some desc => (pin r desc.1, Some desc)
  | None => (r, None)
  end.
Definition entries_of_kind (s : Snapshot) (kind : bytes) : list SnapshotEntry :=
  List.filter (λ e, bool_decide (kind = []) || existsb (λ k, bool_decide (k = kind)) (e_kinds e)) (s_entries s).
Definition services_list (r : Registry) (kind : bytes) (cap : nat) : Registry * list (nat * nat) * nat :=
  let found := entries_of_kind (r_snapshot r) kind in
  let written := omap (descriptor_of (r_snapshot r)) (take cap found) in
  (foldl (λ r desc, pin r desc.1) r written, written, length found).
