(* ===== verification/RegistryLaws.v ===== *)
(** * What the registry keeps

    Every key finds its provider and every provider its library; what services are
    answered is what the registry has, ranked; and no library is closed while anybody
    holds it, however threads that take and drop handles interleave with the registry. *)

From stdpp Require Import sorting.
From S2P Require Import Prelude Order KeyTemplate Registry.

(** ** A snapshot is the providers it was made of *)

Definition offered (without : option nat) (p : Provider) : bool :=
  match v_hold (p_view p) with Some lease => negb (bool_decide (without = Some lease)) | None => false end.

Record snapshot_holds (ps : list Provider) (s : Snapshot) : Prop := {
  sh_length : length (s_entries s) = length ps;
  sh_entries i p : ps !! i = Some p -> exists e lease, s_entries s !! i = Some e /\ e_kinds e = v_kinds (p_view p) /\
    e_at e = p_at p /\ v_hold (p_view p) = Some lease /\ s_leases s !! e_lease e = Some lease;
  sh_nodup : NoDup (s_leases s);
  sh_leases l : l ∈ s_leases s <-> exists p, p ∈ ps /\ v_hold (p_view p) = Some l;
  sh_by_key : NoDup (map p_key ps) -> forall k i, s_by_key s !! k = Some i <-> exists p, ps !! i = Some p /\ p_key p = k;
}.

Lemma list_find_eq (l : nat) ls : match list_find (λ x, x = l) ls with
  | Some (i, x) => x = l /\ ls !! i = Some l
  | None => l ∉ ls
  end.
Proof.
  destruct (list_find _ ls) as [[i x]|] eqn:E; [apply list_find_Some in E as (H & -> & _); done|].
  apply list_find_None in E. rewrite Forall_forall in E. intros H. by apply (E l H).
Qed.

Lemma publish_entry_holds without ps s p : snapshot_holds ps s ->
  snapshot_holds (if offered without p then ps ++ [p] else ps) (publish_entry without s p).
Proof.
  intros [Hl He Hn Hls Hk]. unfold offered, publish_entry. destruct (v_hold (p_view p)) as [lease|] eqn:Eh; [|by split].
  destruct (bool_decide (without = Some lease)); cbn [negb]; [by split|].
  pose proof (list_find_eq lease (s_leases s)) as Hf.
  set (found := match list_find _ _ with Some (at_, _) => (at_, s_leases s) | None => _ end).
  assert (exists extra, found.2 = s_leases s ++ extra /\ found.2 !! found.1 = Some lease /\ NoDup found.2 /\
    forall l, l ∈ found.2 <-> l ∈ s_leases s \/ l = lease) as (extra & E2 & E1 & En & Em).
  { unfold found. destruct (list_find _ _) as [[i x]|].
    - destruct Hf as [-> Hf]. exists []. rewrite app_nil_r. split_and!; [done|done|done|]. intros l. split; [auto|]. intros [H| ->]; [done|by eapply list_elem_of_lookup_2].
    - exists [lease]. split_and!; [done|by apply list_lookup_middle|apply NoDup_app; split_and!; [done|intros x Hx ->%list_elem_of_singleton; done|apply NoDup_singleton]|].
      intros l. cbn [snd]. by rewrite elem_of_app, list_elem_of_singleton. }
  clearbody found. destruct found as [held leases]. cbn [fst snd] in *. split; cbn [s_entries s_leases s_by_key].
  - rewrite !length_app. cbn. lia.
  - intros i q [[Hi H]|[-> <-]]%lookup_snoc_Some.
    + destruct (He i q H) as (e & l & H1 & H2 & H3 & H4 & H5). exists e, l. split_and!; try done; [by apply lookup_app_l_Some|].
      rewrite E2. by apply lookup_app_l_Some.
    + rewrite <- Hl. eexists _, lease. split_and!; [by apply list_lookup_middle|done..|exact E1].
  - exact En.
  - intros l. rewrite Em, Hls. setoid_rewrite elem_of_app. setoid_rewrite list_elem_of_singleton. split.
    + intros [(q & Hq & H)| ->]; [by exists q; auto|]. exists p. auto.
    + intros (q & [Hq| ->] & H); [left; by exists q|right; congruence].
  - rewrite map_app. intros [Hnd [Hnew _]]%NoDup_app k i. specialize (Hk Hnd). rewrite Hl.
    setoid_rewrite lookup_snoc_Some. destruct (decide (k = p_key p)) as [->|Hne].
    + rewrite lookup_insert_eq. split; [intros [= <-]; exists p; auto|]. intros (q & [[Hi Hq]|[-> <-]] & Eq); [|done].
      exfalso. apply (Hnew (p_key p)); [|by left]. rewrite <- Eq. apply list_elem_of_fmap_2. by eapply list_elem_of_lookup_2.
    + rewrite lookup_insert_ne by done. rewrite Hk. split; [intros (q & Hq & Eq); exists q; split; [left; split; [by eapply lookup_lt_Some|done]|done]|].
      intros (q & [[_ Hq]|[_ <-]] & Eq); [by exists q|congruence].
Qed.

Lemma publish_all without l : forall ps s, snapshot_holds ps s ->
  snapshot_holds (ps ++ List.filter (offered without) l) (foldl (publish_entry without) s l).
Proof.
  induction l as [|p l IH]; intros ps s H; [by rewrite app_nil_r|]. cbn [foldl List.filter].
  pose proof (publish_entry_holds without ps s p H) as Hp. destruct (offered without p); apply IH in Hp; [by rewrite <- app_assoc in Hp|done].
Qed.

Lemma snapshot_of_holds without l : snapshot_holds (List.filter (offered without) (ranked l)) (snapshot_of without l).
Proof.
  apply (publish_all without (ranked l) []). split; cbn; try done; [constructor|by intros l'; split; [intros ?%elem_of_nil|intros (p & ?%elem_of_nil & _)]|].
  intros _ k i. rewrite lookup_empty. split; [done|]. by intros (p & ? & _).
Qed.

Lemma filter_elem {A} (f : A -> bool) l x : x ∈ List.filter f l <-> x ∈ l /\ f x = true.
Proof. rewrite !list_elem_of_In. apply filter_In. Qed.

Lemma snapshot_leases without l lease : lease ∈ s_leases (snapshot_of without l) <->
  without <> Some lease /\ exists p, p ∈ l /\ v_hold (p_view p) = Some lease.
Proof.
  rewrite (sh_leases _ _ (snapshot_of_holds without l)). setoid_rewrite filter_elem. unfold ranked. setoid_rewrite sort_perm.
  unfold offered. split.
  - intros (p & [Hp Ho] & Hl). rewrite Hl in Ho. apply negb_true_iff, bool_decide_eq_false in Ho. eauto.
  - intros (Hw & p & Hp & Hl). exists p. rewrite Hl. split_and!; [done|by apply negb_true_iff, bool_decide_eq_false|done].
Qed.

(** ** Keys, each where its provider is *)

Definition indexes (m : gmap bytes nat) (l : list bytes) : Prop := forall k i, m !! k = Some i <-> l !! i = Some k.

Lemma indexes_nil : indexes ∅ [].
Proof. intros k i. by rewrite lookup_empty. Qed.

Lemma indexes_nodup m l : indexes m l -> NoDup l.
Proof. intros H. apply NoDup_alt. intros i j k Hi Hj. apply (H k i) in Hi. apply (H k j) in Hj. congruence. Qed.

Lemma indexes_elem m l k : indexes m l -> m !! k = None <-> k ∉ l.
Proof.
  intros H. split.
  - intros E [i Hi]%list_elem_of_lookup. apply H in Hi. congruence.
  - intros Hk. apply eq_None_not_Some. intros [i Hi]. apply (H k i) in Hi. by apply Hk, (list_elem_of_lookup_2 _ i).
Qed.

Lemma indexes_snoc m l k : indexes m l -> k ∉ l -> indexes (<[k := length l]> m) (l ++ [k]).
Proof.
  intros H Hk k' i. rewrite lookup_snoc_Some. destruct (decide (k' = k)) as [->|Hne].
  - rewrite lookup_insert_eq. split; [intros [= <-]; auto|]. intros [[_ Hi]|[-> _]]; [|done].
    by apply list_elem_of_lookup_2 in Hi.
  - rewrite lookup_insert_ne by done. rewrite (H k' i). split; [intros Hi; left; split; [by eapply lookup_lt_Some|done]|].
    intros [[_ Hi]|[_ E]]; [done|congruence].
Qed.

Lemma keys_from_indexes l : forall pre m, indexes m pre ->
  match keys_from (λ at_, at_) (length pre) m l with
  | Ok m' => indexes m' (pre ++ l)
  | Err e => (exists k, e = Collides k) /\ ~ NoDup (pre ++ l)
  end.
Proof.
  induction l as [|k l IH]; intros pre m H; [by rewrite app_nil_r|]. cbn [keys_from]. destruct (m !! k) as [i|] eqn:E.
  - split; [by exists k|]. intros Hn. apply NoDup_app in Hn as (_ & Hd & _). apply (Hd k); [|by left].
    apply H in E. by eapply list_elem_of_lookup_2.
  - specialize (IH (pre ++ [k]) (<[k := length pre]> m)). rewrite length_app, Nat.add_1_r, <- app_assoc in IH. apply IH.
    apply indexes_snoc; [done|]. by apply (indexes_elem m pre k H).
Qed.

Lemma keys_from_Ok l : NoDup l <-> exists m, keys_from (λ at_, at_) 0 ∅ l = Ok m /\ indexes m l.
Proof.
  pose proof (keys_from_indexes l [] ∅ indexes_nil) as H. cbn [length app] in H. destruct (keys_from _ 0 ∅ l) as [m|e].
  - split; [intros _; by exists m|]. intros _. by eapply indexes_nodup.
  - destruct H as [_ H]. split; [done|]. by intros (m & ? & _).
Qed.

(** The index rebuilt after some are gone. *)
Lemma indexes_rebuilt (ps : list Provider) : NoDup (map p_key ps) ->
  indexes (list_to_map (reverse (imap (λ i p, (p_key p, i)) ps))) (map p_key ps).
Proof.
  intros Hn k i. assert ((imap (λ i p, (p_key p, i)) ps).*1 = map p_key ps) as Ek.
  { rewrite fmap_imap. rewrite (imap_ext _ (λ _ p, p_key p)) by done. clear. change map with (@fmap list _).
    apply list_eq. intros j. by rewrite list_lookup_imap, list_lookup_fmap. }
  rewrite <- elem_of_list_to_map; [|rewrite fmap_reverse, Ek; by rewrite reverse_Permutation].
  rewrite elem_of_reverse, list_elem_of_lookup. setoid_rewrite list_lookup_imap_Some. change map with (@fmap list _).
  setoid_rewrite list_lookup_fmap_Some. naive_solver.
Qed.

Lemma indexes_app (ts : list Taken) : forall m l, indexes m l -> NoDup (map snd ts) -> (forall k, k ∈ map snd ts -> k ∉ l) ->
  forall n, n = length l -> indexes (foldl (λ m '(i, t), <[t.2 := (n + i)%nat]> m) m (imap pair ts)) (l ++ map snd ts).
Proof.
  induction ts as [|t ts IH] using rev_ind; intros m l H Hn Hd n ->; [by rewrite app_nil_r|].
  rewrite map_app in *. cbn [map] in *. apply NoDup_app in Hn as (Hn & Hnew & _).
  rewrite imap_app, foldl_app. cbn [imap foldl]. rewrite Nat.add_0_r, app_assoc.
  specialize (IH m l H Hn). supply IH; [intros k Hk; apply Hd, elem_of_app; by left|]. specialize (IH _ eq_refl).
  assert (length l + length ts = length (l ++ map snd ts))%nat as E by by rewrite length_app, length_map.
  rewrite E. apply indexes_snoc; [exact IH|]. intros [Hk|Hk]%elem_of_app; [apply (Hd t.2); [apply elem_of_app; right; by left|done]|].
  apply (Hnew t.2 Hk). by left.
Qed.

(** ** The invariant *)

Definition closed_of (l : list Gone) : list nat := omap (λ g, match g with ClosedLease lease => Some lease | _ => None end) l.
Definition leases_of (r : Registry) : list nat := map d_lease (r_loaded r) ++ map g_lease (r_leaving r) ++ closed_of (r_gone r).

(** A provider and the library that offers it. *)
Definition offered_by (d : Loaded) (p : Provider) : Prop :=
  v_hold (p_view p) = Some (d_lease d) /\ p_from p = d_path d /\ p_library p = d_id d /\ p_source p = d_source d.

Section registry.
Variable canonical : bytes -> bytes.

Record catalog_ok (r : Registry) : Prop := {
  ok_index : indexes (r_by_key r) (map p_key (r_providers r));
  ok_key p : p ∈ r_providers r -> p_key p = template_render (r_key r) (provider_fields p);
  ok_priority p : p ∈ r_providers r -> p_priority p = priority r (v_id (p_view p));
  ok_libraries : NoDup (map d_key (r_loaded r));
  ok_library_key d : d ∈ r_loaded r -> d_key d = template_render (r_library_key r) (loaded_fields d);
  ok_canonical d : d ∈ r_loaded r -> d_canonical d = canonical (d_path d);
  ok_paths : NoDup (map d_canonical (r_loaded r));
  ok_home p : p ∈ r_providers r -> exists d, d ∈ r_loaded r /\ offered_by d p;
  ok_places d : d ∈ r_loaded r -> map p_at (List.filter (holds_lease (d_lease d)) (r_providers r)) = seq 0 (d_providers d);
}.

Record leases_ok (r : Registry) : Prop := {
  ok_leases : NoDup (leases_of r);
  ok_next l : l ∈ leases_of r -> (l < r_next r)%nat;
  ok_outside l : held_outside r l <> 0%nat -> (l < r_next r)%nat /\ l ∉ closed_of (r_gone r);
}.

Definition snapshot_ok (without : option nat) (r : Registry) : Prop := r_snapshot r = snapshot_of without (r_providers r).

Definition registry_ok (without : option nat) (r : Registry) : Prop := catalog_ok r /\ leases_ok r /\ snapshot_ok without r.

Lemma new_ok key library_key : registry_ok None (registry_new key library_key).
Proof.
  split_and!; [split; cbn; try (by intros ? ?%elem_of_nil); [apply indexes_nil|constructor..]|split; cbn|reflexivity].
  - constructor.
  - by intros l ?%elem_of_nil.
  - intros l. unfold held_outside. cbn. by rewrite lookup_empty.
Qed.

Lemma publish_without_ok w r : catalog_ok r -> leases_ok r -> registry_ok w (publish_without r w).
Proof. intros [] []. split_and!; [by split..|done]. Qed.

(** ** Priorities and keys *)

Lemma set_priority_ok w r id n : registry_ok w r -> registry_ok None (set_priority r id n).
Proof.
  intros ([H1 H2 H3 H4 H5 H6 H7 H8 H9] & [] & _).
  set (f := λ p, if bool_decide (v_id (p_view p) = id) then with_priority p n else p).
  assert (forall p, p_view (f p) = p_view p /\ p_key (f p) = p_key p /\ provider_fields (f p) = provider_fields p /\ p_at (f p) = p_at p /\
    p_from (f p) = p_from p /\ p_library (f p) = p_library p /\ p_source (f p) = p_source p) as Hf.
  { intros p. unfold f. by destruct (bool_decide _). }
  split_and!; [split; cbn; fold f; try done| |done].
  - rewrite map_map. rewrite (map_ext _ p_key) by (intros p; apply Hf). exact H1.
  - intros q (p & -> & Hp)%list_elem_of_fmap. destruct (Hf p) as (_ & -> & -> & _). by apply H2.
  - intros q (p & -> & Hp)%list_elem_of_fmap. destruct (Hf p) as (-> & _). unfold priority. cbn. unfold f.
    case_bool_decide as E; [subst; by rewrite lookup_insert_eq|]. rewrite lookup_insert_ne by congruence. by apply H3.
  - intros q (p & -> & Hp)%list_elem_of_fmap. destruct (H8 p Hp) as (d & Hd & Ho). exists d. split; [done|].
    destruct (Hf p) as (E1 & _ & _ & _ & E2 & E3 & E4). unfold offered_by. by rewrite E1, E2, E3, E4.
  - intros d Hd. rewrite <- (H9 d Hd). clear -Hf. induction (r_providers r) as [|p l IH]; [done|]. cbn [map List.filter].
    assert (holds_lease (d_lease d) (f p) = holds_lease (d_lease d) p) as -> by (unfold holds_lease; by destruct (Hf p) as (-> & _)).
    destruct (holds_lease (d_lease d) p); cbn [map]; [|done]. f_equal; [apply Hf|done].
  - by split.
Qed.

Lemma rekeyed (ps : list Provider) key : let rendered := map (λ p, template_render key (provider_fields p)) ps in
  zip_with with_key_ ps rendered = map (λ p, with_key_ p (template_render key (provider_fields p))) ps.
Proof. cbv zeta. induction ps as [|p ps IH]; [done|]. cbn. by f_equal. Qed.

Lemma rekey_ok w r key r' : registry_ok w r -> rekey r key = Ok r' -> registry_ok None r'.
Proof.
  intros ([H1 H2 H3 H4 H5 H6 H7 H8 H9] & [] & _) E. unfold rekey in E. cbv zeta in E. apply bind_Ok in E as (m & Em & [= <-]).
  set (f := λ p, with_key_ p (template_render key (provider_fields p))).
  assert (indexes m (map p_key (map f (r_providers r)))) as Hm.
  { pose proof (keys_from_indexes (map (λ p, template_render key (provider_fields p)) (r_providers r)) [] ∅ indexes_nil) as H.
    cbn [length] in H. rewrite Em in H. by rewrite map_map. }
  split_and!; [split; cbn; rewrite ?rekeyed; fold f; try done|by split|done].
  - by intros q (p & -> & Hp)%list_elem_of_fmap.
  - intros q (p & -> & Hp)%list_elem_of_fmap. cbn. by apply H3.
  - intros q (p & -> & Hp)%list_elem_of_fmap. by apply (H8 p).
  - intros d Hd. rewrite <- (H9 d Hd). clear. induction (r_providers r) as [|p l IH]; [done|]. cbn [map List.filter].
    change (holds_lease (d_lease d) (f p)) with (holds_lease (d_lease d) p). destruct (holds_lease (d_lease d) p); cbn [map]; [|done]. by f_equal.
Qed.

Lemma rekey_libraries_ok w r key r' : registry_ok w r -> rekey_libraries r key = Ok r' -> registry_ok w r'.
Proof.
  intros ([H1 H2 H3 H4 H5 H6 H7 H8 H9] & [L1 L2 L3] & Hs) E. unfold rekey_libraries in E. apply bind_Ok in E as (m & Em & [= <-]).
  set (f := λ d, with_library_key d (template_render key (loaded_fields d))).
  assert (map d_lease (map f (r_loaded r)) = map d_lease (r_loaded r)) as El by by rewrite map_map.
  split_and!; [split; cbn; fold f; try done|split; unfold leases_of; cbn; fold f; by rewrite ?El|done].
  - rewrite map_map. cbn. apply keys_from_Ok. exists m. split; [done|].
    pose proof (keys_from_indexes (map (λ d, template_render key (loaded_fields d)) (r_loaded r)) [] ∅ indexes_nil) as H.
    cbn [length] in H. by rewrite Em in H.
  - by intros q (d & -> & Hd)%list_elem_of_fmap.
  - intros q (d & -> & Hd)%list_elem_of_fmap. cbn. by apply H6.
  - by rewrite map_map.
  - intros p Hp. destruct (H8 p Hp) as (d & Hd & Ho). exists (f d). split; [by apply list_elem_of_fmap_2|done].
  - intros q (d & -> & Hd)%list_elem_of_fmap. cbn. by apply H9.
Qed.

(** ** Loading *)

Lemma closed_snoc l g : closed_of (l ++ [g]) = closed_of l ++ match g with ClosedLease lease => [lease] | _ => [] end.
Proof. unfold closed_of. rewrite omap_app. by destruct g. Qed.

Lemma add_gone_ok w r g : registry_ok w r -> match g with ClosedLease _ => False | _ => True end -> registry_ok w (add_gone r g).
Proof.
  intros ([] & [L1 L2 L3] & Hs) Hg. assert (closed_of (r_gone r ++ [g]) = closed_of (r_gone r)) as E.
  { rewrite closed_snoc. destruct g; [done|by rewrite app_nil_r..]. }
  split_and!; [by split|split; unfold leases_of; cbn [add_gone r_loaded r_leaving r_gone r_next]; by rewrite E|done].
Qed.

Lemma pass_over_ok w r o : registry_ok w r -> registry_ok w (pass_over r o).
Proof. intros H. unfold pass_over. destruct (is_served o); [by apply add_gone_ok|]. destruct (existsb _ _); by apply add_gone_ok. Qed.

Definition taken_ok (r : Registry) (source : bytes) (library : LibraryView) (taken : list Taken) : Prop :=
  NoDup (map snd taken) /\ forall t, t ∈ taken -> (t.2 ∉ map p_key (r_providers r)) /\
    t.2 = template_render (r_key r) (MkKeyFields (v_id t.1.1) (v_name t.1.1) (l_id library) t.1.2 source).

Lemma take_views_ok w r path source library views skipped taken : registry_ok w r ->
  try_fold (take_view r path source library) ([], []) views = Ok (skipped, taken) -> taken_ok r source library taken.
Proof.
  intros (Hc & _ & _) E. apply (try_fold_inv (take_view r path source library) (λ st, taken_ok r source library st.2) views) in E; [done| |].
  2:{ split; [constructor|]. by intros t ?%elem_of_nil. }
  clear E. intros [sk ta] v st' _ [Hn Ht]. cbn [snd] in *. unfold take_view. cbv zeta.
  set (key := template_render _ _). destruct (holder_of r path key ta) as [[held_by from]|] eqn:Eh.
  - destruct (bool_decide _); [|done]. by intros [= <-].
  - intros [= <-]. cbn [snd]. unfold holder_of in Eh. destruct (r_by_key r !! key ≫= _) as [p|] eqn:Ep; [done|].
    assert (key ∉ map p_key (r_providers r)) as Hk.
    { apply (indexes_elem _ _ _ (ok_index r Hc)). destruct (r_by_key r !! key) as [i|] eqn:Ei; [|done]. cbn in Ep.
      apply (ok_index r Hc key i) in Ei. change map with (@fmap list _) in Ei. rewrite list_lookup_fmap, Ep in Ei. done. }
    assert (key ∉ map snd ta) as Hk'.
    { destruct (list_find (λ t : ProviderView * bytes * bytes, t.2 = key) ta) as [[j t]|] eqn:Ef; [done|]. apply list_find_None in Ef. rewrite Forall_forall in Ef.
      intros (t & E & Hin)%list_elem_of_fmap. by apply (Ef t Hin). }
    split.
    + rewrite map_app. apply NoDup_app. split_and!; [done|by intros x Hx ->%list_elem_of_singleton|apply NoDup_singleton].
    + intros t [Hin|Et%list_elem_of_singleton]%elem_of_app; [by apply Ht|by subst t].
Qed.

Lemma new_keys r path source library n taken : map p_key (imap (λ i, new_provider r path source library (n + i)) taken) = map snd taken.
Proof.
  revert n. induction taken as [|[[v a] k] taken IH]; intros n; [done|]. cbn [imap map]. f_equal.
  rewrite <- (IH (S n)). f_equal. apply imap_ext. intros i x _. cbn. f_equal. lia.
Qed.

Lemma new_elem r path source library taken p : p ∈ imap (new_provider r path source library) taken ->
  exists i t, taken !! i = Some t /\ p = new_provider r path source library i t.
Proof. intros [i Hi]%list_elem_of_lookup. apply list_lookup_imap_Some in Hi as (t & Ht & ->). eauto. Qed.

Lemma new_lease_free w r : registry_ok w r ->
  (forall p, p ∈ r_providers r -> holds_lease (r_next r) p = false) /\ (forall d, d ∈ r_loaded r -> d_lease d <> r_next r).
Proof.
  intros (Hc & Hl & _). assert (forall d, d ∈ r_loaded r -> d_lease d <> r_next r) as H.
  { intros d Hd. assert (d_lease d < r_next r)%nat; [|lia]. apply (ok_next r Hl). unfold leases_of. apply elem_of_app. left.
    by apply list_elem_of_fmap_2. }
  split; [|done]. intros p Hp. destruct (ok_home r Hc p Hp) as (d & Hd & Eh & _). unfold holds_lease. rewrite Eh.
  apply bool_decide_eq_false_2. intros [= E]. by apply (H d Hd).
Qed.

Lemma filter_none {A} (f : A -> bool) l : (forall x, x ∈ l -> f x = false) -> List.filter f l = [].
Proof. induction l as [|x l IH]; intros H; [done|]. cbn [List.filter]. rewrite H by by left. apply IH. intros y Hy. apply H. by right. Qed.
Lemma filter_all {A} (f : A -> bool) l : (forall x, x ∈ l -> f x = true) -> List.filter f l = l.
Proof. induction l as [|x l IH]; intros H; [done|]. cbn [List.filter]. rewrite H by by left. f_equal. apply IH. intros y Hy. apply H. by right. Qed.

Lemma new_places r path source library taken : map p_at (imap (new_provider r path source library) taken) = seq 0 (length taken).
Proof.
  apply list_eq. intros i. change map with (@fmap list _). rewrite list_lookup_fmap, list_lookup_imap. destruct (taken !! i) as [[[v a] k]|] eqn:E.
  - cbn. apply lookup_lt_Some in E. by rewrite lookup_seq_lt.
  - cbn. symmetry. apply lookup_seq_ge. by apply lookup_ge_None.
Qed.

Lemma absorb_ok r path source opened : registry_ok None r -> canonical path ∉ map d_canonical (r_loaded r) ->
  registry_ok None (absorb_file canonical r path source opened).1.
Proof.
  intros Hr Hpath. destruct opened as [| |[]|library origin]; cbn [absorb_file fst]; try done.
  destruct (list_find _ (r_loaded r)) as [[i already]|] eqn:Ef; [by apply pass_over_ok|].
  destruct (try_fold _ _ _) as [[skipped taken]|e] eqn:Et; [|by apply pass_over_ok]. cbn [fst].
  pose proof (take_views_ok None r path source library _ _ _ Hr Et) as [Hn Ht]. destruct (new_lease_free None r Hr) as [Hfp Hfd].
  destruct Hr as ([H1 H2 H3 H4 H5 H6 H7 H8 H9] & [L1 L2 L3] & Hs).
  set (ps := imap _ taken). set (d := MkLoaded _ _ _ _ _ _ _ _ _ _ _).
  assert (forall p, p ∈ ps -> exists i t, taken !! i = Some t /\ p = new_provider r path source library i t) as Hps by (intros p; apply new_elem).
  assert (map p_key ps = map snd taken) as Ek by exact (new_keys r path source library 0 taken).
  assert (forall l, l <> r_next r -> List.filter (holds_lease l) ps = []) as Hold.
  { intros l Hl. apply filter_none. intros p Hp. destruct (Hps p Hp) as (i & [[v a] k] & _ & ->). unfold holds_lease. cbn.
    apply bool_decide_eq_false_2. congruence. }
  assert (List.filter (holds_lease (r_next r)) ps = ps) as Hnew.
  { apply filter_all. intros p Hp. destruct (Hps p Hp) as (i & [[v a] k] & _ & ->). unfold holds_lease. cbn. by apply bool_decide_eq_true_2. }
  apply publish_without_ok; [split; cbn [r_loaded r_providers r_by_key r_key r_library_key r_priorities]|
    split; unfold leases_of; cbn [r_loaded r_leaving r_gone r_next]].
  - rewrite map_app, Ek. apply indexes_app; [done|done| |by rewrite length_map].
    intros k (t & -> & Hin)%list_elem_of_fmap. by apply Ht.
  - intros p [Hp|Hp]%elem_of_app; [by apply H2|]. destruct (Hps p Hp) as (i & [[v a] k] & Hin & ->).
    apply list_elem_of_lookup_2 in Hin. by apply Ht in Hin as [_ E].
  - intros p [Hp|Hp]%elem_of_app; [by apply H3|]. by destruct (Hps p Hp) as (i & [[v a] k] & _ & ->).
  - rewrite map_app. apply NoDup_app. split_and!; [done| |apply NoDup_singleton]. intros k (d' & -> & Hd')%list_elem_of_fmap E.
    apply list_elem_of_singleton in E. apply list_find_None in Ef. rewrite Forall_forall in Ef. by apply (Ef d' Hd').
  - intros d' [Hd'|E%list_elem_of_singleton]%elem_of_app; [by apply H5|by subst d'].
  - intros d' [Hd'|E%list_elem_of_singleton]%elem_of_app; [by apply H6|by subst d'].
  - rewrite map_app. apply NoDup_app. split_and!; [done| |apply NoDup_singleton]. intros k Hk E.
    apply list_elem_of_singleton in E. by subst k.
  - intros p [Hp|Hp]%elem_of_app.
    + destruct (H8 p Hp) as (d' & Hd' & Ho). exists d'. split; [apply elem_of_app; by left|done].
    + destruct (Hps p Hp) as (i & [[v a] k] & _ & ->). exists d. split; [apply elem_of_app; right; by left|done].
  - intros d' Hd'. rewrite List.filter_app, map_app. apply elem_of_app in Hd' as [Hd'|E%list_elem_of_singleton].
    + rewrite Hold by by apply Hfd. cbn [map]. rewrite app_nil_r. by apply H9.
    + subst d'. change (d_lease d) with (r_next r). change (d_providers d) with (length taken). rewrite filter_none by done. rewrite Hnew. apply new_places.
  - unfold leases_of in L1, L2. rewrite map_app, <- app_assoc. change (map d_lease [d]) with [r_next r]. cbn [app]. rewrite <- Permutation_middle. constructor; [|done].
    intros H%L2. lia.
  - intros l. rewrite map_app, <- app_assoc. change (map d_lease [d]) with [r_next r]. cbn [app]. rewrite <- Permutation_middle. unfold leases_of in L2. intros [->|H]%elem_of_cons; [cbn; lia|]. apply L2 in H. lia.
  - intros l H. apply L3 in H as [? ?]. split; [lia|done].
Qed.

(** ** Letting go *)

Lemma leases_kept r r' : leases_ok r -> leases_of r' ≡ₚ leases_of r -> r_next r' = r_next r -> r_outside r' = r_outside r ->
  (forall l, l ∈ closed_of (r_gone r') -> l ∈ closed_of (r_gone r) \/ held_outside r l = 0%nat) -> leases_ok r'.
Proof.
  intros [L1 L2 L3] Hp En Eo Hc. split; [by rewrite Hp|intros l; rewrite Hp, En; apply L2|].
  intros l. unfold held_outside. rewrite Eo, En. intros Hl. destruct (L3 l Hl) as [? Hn]. split; [done|].
  intros Hx. apply Hc in Hx as [Hx|Hx]; [done|]. unfold held_outside in Hx. congruence.
Qed.

Lemma unheld_count r lease : (1 <? strong_count r lease)%nat = false -> held_outside r lease = 0%nat.
Proof. unfold strong_count. intros H%Nat.ltb_ge. lia. Qed.

Lemma collect_loop w ask l : forall r closed kept, registry_ok w (set_r_leaving r (kept ++ l)) ->
  let '(r', _, kept') := foldl (collect_one ask) (r, closed, kept) l in registry_ok w (set_r_leaving r' kept').
Proof.
  induction l as [|g l IH]; intros r closed kept H; [by rewrite app_nil_r in H|]. cbn [foldl]. unfold collect_one at 2.
  destruct (1 <? strong_count r (g_lease g))%nat eqn:Es; [apply IH; by rewrite <- app_assoc|].
  destruct (negb _); [apply IH; by rewrite <- app_assoc|]. apply IH. destruct H as ([] & Hl & Hs). split_and!; [by split| |done].
  eapply leases_kept; [exact Hl| |done..|].
  - unfold leases_of. cbn [set_r_leaving add_gone r_loaded r_leaving r_gone]. rewrite closed_snoc, !map_app. cbn [map].
    apply Permutation_app_head. rewrite <- !app_assoc. apply Permutation_app_head. cbn [app].
    rewrite (Permutation_app_comm (closed_of _) [_]). cbn [app]. by rewrite <- Permutation_middle.
  - intros k. cbn [set_r_leaving add_gone r_gone]. rewrite closed_snoc, elem_of_app, list_elem_of_singleton. intros [Hk| ->]; [by left|right].
    by apply unheld_count in Es.
Qed.

Lemma collect_ok w ask r : registry_ok w r -> registry_ok w (collect ask r).1.
Proof.
  intros H. unfold collect. pose proof (collect_loop w ask (r_leaving r) (set_r_leaving r []) [] []) as Hc.
  cbn [app] in Hc. supply Hc; [by destruct r|]. by destruct (foldl _ _ _) as [[r' closed] kept].
Qed.

Lemma collect_keeps ask r : let r' := (collect ask r).1 in
  r_loaded r' = r_loaded r /\ r_providers r' = r_providers r /\ r_by_key r' = r_by_key r /\ r_key r' = r_key r /\ r_snapshot r' = r_snapshot r /\ r_outside r' = r_outside r.
Proof.
  cbv zeta. unfold collect. assert (forall l r0 closed kept, r_loaded r0 = r_loaded r /\ r_providers r0 = r_providers r /\ r_by_key r0 = r_by_key r /\ r_key r0 = r_key r /\ r_snapshot r0 = r_snapshot r /\ r_outside r0 = r_outside r ->
    let '(r', _, _) := foldl (collect_one ask) (r0, closed, kept) l in
    r_loaded r' = r_loaded r /\ r_providers r' = r_providers r /\ r_by_key r' = r_by_key r /\ r_key r' = r_key r /\ r_snapshot r' = r_snapshot r /\ r_outside r' = r_outside r) as H.
  { induction l as [|g l IH]; intros r0 closed kept H; [done|]. cbn [foldl]. unfold collect_one at 2.
    destruct (1 <? _)%nat; [by apply IH|]. destruct (negb _); by apply IH. }
  specialize (H (r_leaving r) (set_r_leaving r []) [] []). destruct (foldl _ _ _) as [[r' closed] kept]. by apply H.
Qed.

Lemma nodup_inj {A B} (f : A -> B) l x y : NoDup (map f l) -> x ∈ l -> y ∈ l -> f x = f y -> x = y.
Proof.
  intros Hn [i Hi]%list_elem_of_lookup [j Hj]%list_elem_of_lookup E. assert (i = j) as ->; [|congruence].
  eapply (NoDup_lookup (map f l)); [exact Hn|..]; change map with (@fmap list _); rewrite list_lookup_fmap; [by rewrite Hi|by rewrite Hj, E].
Qed.

Lemma nodup_filter {A B} (f : A -> B) (P : A -> bool) l : NoDup (map f l) -> NoDup (map f (List.filter P l)).
Proof.
  induction l as [|x l IH]; [done|]. cbn [map List.filter]. intros [Hx Hn]%NoDup_cons. destruct (P x); [|by apply IH].
  cbn [map]. constructor; [|by apply IH]. intros (y & E & Hy)%list_elem_of_fmap. apply filter_elem in Hy as [Hy _].
  apply Hx. rewrite E. by apply list_elem_of_fmap_2.
Qed.

Lemma filter_filter_all {A} (P Q : A -> bool) l : (forall x, x ∈ l -> P x = true -> Q x = true) -> List.filter P (List.filter Q l) = List.filter P l.
Proof.
  induction l as [|x l IH]; intros H; [done|]. cbn [List.filter]. specialize (IH (λ y Hy, H y (list_elem_of_further _ _ _ Hy))).
  destruct (Q x) eqn:Eq; cbn [List.filter]; [by rewrite IH|]. destruct (P x) eqn:Ep; [|done]. rewrite (H x) in Eq; [done|by left|done].
Qed.

(** A library taken out takes its own providers with it, and no other. *)
Lemma take_library_ok w r key r' retired one : registry_ok w r -> take_library r key = Ok (r', retired, one) ->
  catalog_ok r' /\ snapshot_ok None r' /\ one ∈ r_loaded r /\ leases_of r ≡ₚ d_lease one :: leases_of r' /\
  r_leaving r' = r_leaving r /\ r_gone r' = r_gone r /\ r_next r' = r_next r /\ r_outside r' = r_outside r /\
  r_providers r' = List.filter (λ p, negb (holds_lease (d_lease one) p)) (r_providers r) /\ d_key one = key /\
  t_providers retired = d_providers one.
Proof.
  intros ([H1 H2 H3 H4 H5 H6 H7 H8 H9] & [L1 L2 L3] & _). unfold take_library.
  destruct (list_find _ (r_loaded r)) as [[at_ d]|] eqn:Ef; [|done]. cbv zeta. intros [= <- <- <-].
  apply list_find_Some in Ef as (Hat & Hkey & _). pose proof (list_elem_of_lookup_2 _ _ _ Hat) as Hd.
  pose proof (delete_Permutation _ _ _ Hat) as Hperm.
  assert (NoDup (map d_lease (r_loaded r))) as Hnl by (unfold leases_of in L1; by apply NoDup_app in L1 as (? & _)).
  assert (forall p, p ∈ r_providers r -> bool_decide (p_from p = d_path d) = holds_lease (d_lease d) p) as Hsame.
  { intros p Hp. destruct (H8 p Hp) as (d' & Hd' & Eh & Efr & _). unfold holds_lease. apply bool_decide_ext. rewrite Eh, Efr. split.
    - intros E. assert (d' = d) as ->; [|done]. apply (nodup_inj d_canonical (r_loaded r)); [done..|]. rewrite !H6 by done. by rewrite E.
    - intros [= E]. assert (d' = d) as ->; [|done]. by apply (nodup_inj d_lease (r_loaded r)). }
  assert (List.filter (λ p, negb (bool_decide (p_from p = d_path d))) (r_providers r) =
    List.filter (λ p, negb (holds_lease (d_lease d) p)) (r_providers r)) as ->.
  { apply filter_ext_in. intros p Hp. rewrite Hsame; [done|by apply list_elem_of_In]. }
  set (ps := List.filter _ (r_providers r)).
  assert (forall d', d' ∈ delete at_ (r_loaded r) -> d' ∈ r_loaded r /\ d' <> d) as Hdel.
  { intros d' Hd'. split; [rewrite Hperm; by right|]. intros ->. rewrite Hperm in Hnl. cbn [map] in Hnl. apply NoDup_cons in Hnl as [Hx _].
    apply Hx. by apply list_elem_of_fmap_2. }
  assert (forall d', d' ∈ r_loaded r -> d' <> d -> d' ∈ delete at_ (r_loaded r)) as Hkeep.
  { intros d' Hd' Hne. rewrite Hperm in Hd'. by apply elem_of_cons in Hd' as [?|?]. }
  split_and!; try done; [split; cbn [publish publish_without set_r_snapshot r_loaded r_providers r_by_key r_key r_library_key r_priorities]| |].
  - apply indexes_rebuilt. apply nodup_filter. by eapply indexes_nodup.
  - intros p [Hp _]%filter_elem. by apply H2.
  - intros p [Hp _]%filter_elem. by apply H3.
  - rewrite Hperm in H4. cbn [map] in H4. by apply NoDup_cons in H4 as [_ ?].
  - intros d' [Hd' _]%Hdel. by apply H5.
  - intros d' [Hd' _]%Hdel. by apply H6.
  - rewrite Hperm in H7. cbn [map] in H7. by apply NoDup_cons in H7 as [_ ?].
  - intros p [Hp Hn]%filter_elem. destruct (H8 p Hp) as (d' & Hd' & Ho). exists d'. split; [|done]. apply Hkeep; [done|]. intros ->.
    unfold holds_lease in Hn. destruct Ho as [Eh _]. rewrite Eh, bool_decide_eq_true_2 in Hn by done. done.
  - intros d' Hd'. apply Hdel in Hd' as [Hd' Hne]. rewrite <- (H9 d' Hd'). f_equal. apply filter_filter_all. intros p Hp Hh.
    apply negb_true_iff. unfold holds_lease in *. apply bool_decide_eq_true in Hh. rewrite Hh. apply bool_decide_eq_false_2. intros [= E].
    apply Hne. by apply (nodup_inj d_lease (r_loaded r)).
  - unfold leases_of. cbn [publish publish_without set_r_snapshot r_loaded r_leaving r_gone]. rewrite Hperm at 1. done.
  - cbn [t_providers]. pose proof (f_equal length (H9 d Hd)) as E. rewrite length_map, length_seq in E. rewrite <- E. unfold ps.
    clear. induction (r_providers r) as [|p l IH]; [done|]. cbn [List.filter]. destruct (holds_lease (d_lease d) p); cbn [negb length]; [|done].
    assert (length (List.filter (λ p, negb (holds_lease (d_lease d) p)) l) <= length l)%nat by apply List.filter_length_le. lia.
Qed.

Lemma closed_in r lease : ClosedLease lease ∈ r_gone r <-> lease ∈ closed_of (r_gone r).
Proof.
  unfold closed_of. rewrite list_elem_of_omap. split; [intros H; by exists (ClosedLease lease)|].
  intros ([l| |] & Hin & E); try done. by injection E as ->.
Qed.

Lemma load_from_ok ask r path source opened : registry_ok None r -> registry_ok None (load_from canonical ask r path source opened).1.
Proof.
  intros H. unfold load_from. apply (collect_ok None ask) in H. destruct (collect ask r) as [r1 closed]. cbn [fst] in H.
  unfold loaded_from_path. destruct (list_find _ _) as [[i d]|] eqn:Ef; [done|]. cbn [mbind option_bind].
  destruct opened as [reason|opened]; [done|]. apply absorb_ok; [done|]. intros (d & E & Hd)%list_elem_of_fmap.
  apply list_find_None in Ef. rewrite Forall_forall in Ef. by apply (Ef d Hd).
Qed.

Lemma taken_leases r r' one extra : leases_ok r -> leases_of r ≡ₚ d_lease one :: leases_of r' -> leases_of extra ≡ₚ leases_of r' ->
  closed_of (r_gone extra) = closed_of (r_gone r) -> r_next extra = r_next r -> r_outside extra = r_outside r -> leases_ok extra.
Proof.
  intros [L1 L2 L3] Hp He Eg En Eo. rewrite Hp in L1. apply NoDup_cons in L1 as [_ L1]. split.
  - by rewrite He.
  - intros l. rewrite He, En. intros Hl. apply L2. rewrite Hp. by right.
  - intros l. unfold held_outside. rewrite Eo, En, Eg. apply L3.
Qed.

Lemma retire_ok ask r key : registry_ok None r -> registry_ok None (retire ask r key).1.
Proof.
  intros H. unfold retire. apply (collect_ok None ask) in H. destruct (collect ask r) as [r1 closed]. cbn [fst] in H.
  destruct (take_library r1 key) as [[[r' retired] one]|e] eqn:E; [|done]. pose proof H as (_ & Hl & _).
  apply (take_library_ok None) in E as (Hc & Hs & _ & Hp & E1 & E2 & E3 & E4 & _); [|done].
  destruct (closes (d_origin one)); cbn [fst].
  - split_and!; [by destruct Hc; split| |done]. eapply leases_kept; [exact Hl| |done..|cbn; rewrite E2; auto].
    rewrite Hp. unfold leases_of. cbn [set_r_leaving r_loaded r_leaving r_gone]. rewrite map_app. cbn [map g_lease].
    rewrite <- app_assoc. cbn [app]. rewrite !app_assoc. by rewrite <- Permutation_middle.
  - split_and!; [by destruct Hc; split| |done]. apply (taken_leases r1 r' one); [done|done| |cbn [add_gone r_gone]; by rewrite closed_snoc, app_nil_r, E2|done|done].
    unfold leases_of. cbn [add_gone r_loaded r_leaving r_gone]. by rewrite closed_snoc, app_nil_r.
Qed.

(** ** Threads that take and drop handles, between the parts of an unload *)

Inductive Phase : Type :=
  | Idle
  | Withdrawn (key : bytes) (one : Loaded)
  | Judged (key : bytes) (one : Loaded) (refusal : option UnloadError).

Inductive step : Registry * Phase -> Registry * Phase -> Prop :=
  | step_load ask r path source opened : step (r, Idle) ((load_from canonical ask r path source opened).1, Idle)
  | step_absorb r path source opened : canonical path ∉ map d_canonical (r_loaded r) ->
      step (r, Idle) ((absorb_file canonical r path source opened).1, Idle)
  | step_retire ask r key : step (r, Idle) ((retire ask r key).1, Idle)
  | step_collect ask r : step (r, Idle) ((collect ask r).1, Idle)
  | step_priority r id n : step (r, Idle) (set_priority r id n, Idle)
  | step_rekey r key r' : rekey r key = Ok r' -> step (r, Idle) (r', Idle)
  | step_rekey_libraries r key r' : rekey_libraries r key = Ok r' -> step (r, Idle) (r', Idle)
  | step_unload r key r' one : unload_begin r key = Ok (r', one) -> step (r, Idle) (r', Withdrawn key one)
  | step_judge ask r key one : step (r, Withdrawn key one) (r, Judged key one (unload_refusal ask false r key one))
  | step_end close r key one refusal : step (r, Judged key one refusal) ((unload_end close refusal r key).1, Idle)
  | step_borrow r p lease : p ∈ r_providers r -> v_hold (p_view p) = Some lease -> step (r, Idle) (pin r lease, Idle)
  | step_get r ph key : step (r, ph) ((services_get r key).1, ph)
  | step_list r ph kind cap : step (r, ph) ((services_list r kind cap).1.1, ph)
  | step_clone r ph lease : held_outside r lease <> 0%nat -> step (r, ph) (pin r lease, ph)
  | step_drop r ph lease : held_outside r lease <> 0%nat -> step (r, ph) (unpin r lease, ph).

Definition phase_ok (st : Registry * Phase) : Prop :=
  let '(r, ph) := st in
  match ph with
  | Idle => registry_ok None r
  | Withdrawn key one => registry_ok (Some (d_lease one)) r /\ library r key = Some one
  | Judged key one refusal =>
      registry_ok (Some (d_lease one)) r /\ library r key = Some one /\ (refusal = None -> held_outside r (d_lease one) = 0%nat)
  end.

Lemma held_pin r lease l : held_outside (pin r lease) l = (if decide (l = lease) then S (held_outside r lease) else held_outside r l).
Proof.
  unfold pin, held_outside. cbn. destruct (decide (l = lease)) as [->|Hne]; [by rewrite lookup_insert_eq|by rewrite lookup_insert_ne].
Qed.
Lemma held_unpin r lease l : held_outside (unpin r lease) l = (if decide (l = lease) then pred (held_outside r lease) else held_outside r l).
Proof.
  unfold unpin, held_outside. cbn. destruct (decide (l = lease)) as [->|Hne]; [by rewrite lookup_insert_eq|by rewrite lookup_insert_ne].
Qed.

(** What may be pinned: a lease some provider still offered has, or that is held. *)
Definition pinnable (w : option nat) (r : Registry) (lease : nat) : Prop :=
  held_outside r lease <> 0%nat \/ (w <> Some lease /\ exists p, p ∈ r_providers r /\ v_hold (p_view p) = Some lease).

Lemma pin_ok w r lease : registry_ok w r -> pinnable w r lease -> registry_ok w (pin r lease).
Proof.
  intros ([] & [L1 L2 L3] & Hs) Hp. split_and!; [by split|split; [done|done|]|done].
  intros l. rewrite held_pin. destruct (decide (l = lease)) as [->|]; [|apply L3]. intros _.
  destruct Hp as [Hp|(_ & p & Hp & Eh)]; [by apply L3|]. destruct (ok_home0 p Hp) as (d & Hd & Eh' & _).
  assert (lease = d_lease d) as -> by congruence. split.
  - apply L2. unfold leases_of. apply elem_of_app. left. by apply list_elem_of_fmap_2.
  - unfold leases_of in L1. intros Hc. apply NoDup_app in L1 as (_ & Hd' & _). apply (Hd' (d_lease d)); [by apply list_elem_of_fmap_2|].
    apply elem_of_app. by right.
Qed.

Lemma pin_phase r ph lease : phase_ok (r, ph) -> pinnable (match ph with Idle => None | Withdrawn _ one | Judged _ one _ => Some (d_lease one) end) r lease ->
  phase_ok (pin r lease, ph).
Proof.
  destruct ph as [|key one|key one refusal]; cbn.
  - apply pin_ok.
  - intros [H1 H2] Hp. split; [by apply pin_ok|done].
  - intros (H1 & H2 & H3) Hp. split_and!; [by apply pin_ok|done|]. intros Hr. specialize (H3 Hr). rewrite held_pin.
    destruct (decide (d_lease one = lease)) as [<-|]; [|done]. destruct Hp as [Hp|[Hp _]]; congruence.
Qed.

Lemma unpin_phase r ph lease : phase_ok (r, ph) -> phase_ok (unpin r lease, ph).
Proof.
  assert (forall w, registry_ok w r -> registry_ok w (unpin r lease)) as Hu.
  { intros w ([] & [L1 L2 L3] & Hs). split_and!; [by split|split; [done|done|]|done]. intros l. rewrite held_unpin.
    destruct (decide (l = lease)) as [->|]; [|apply L3]. intros H. apply L3. lia. }
  destruct ph as [|key one|key one refusal]; cbn; [apply Hu|by intros [H1 H2]; split; [apply Hu|]|].
  intros (H1 & H2 & H3). split_and!; [by apply Hu|done|]. intros Hr. specialize (H3 Hr). rewrite held_unpin.
  destruct (decide (d_lease one = lease)) as [<-|]; [lia|done].
Qed.

Definition withheld (ph : Phase) : option nat := match ph with Idle => None | Withdrawn _ one | Judged _ one _ => Some (d_lease one) end.
Lemma phase_registry r ph : phase_ok (r, ph) -> registry_ok (withheld ph) r.
Proof. destruct ph; cbn; naive_solver. Qed.

(** What services hand out is in the snapshot, so may be pinned. *)
Lemma descriptor_pinnable w r e desc : registry_ok w r -> descriptor_of (r_snapshot r) e = Some desc -> pinnable w r desc.1.
Proof.
  intros (_ & _ & Hs) E. unfold descriptor_of in E. destruct (s_leases (r_snapshot r) !! e_lease e) as [lease|] eqn:El; [|done].
  injection E as <-. cbn [fst]. right. rewrite Hs in El. apply list_elem_of_lookup_2, snapshot_leases in El. exact El.
Qed.

Lemma pinnable_pin w r lease l : pinnable w r l -> pinnable w (pin r lease) l.
Proof. intros [H|H]; [left; rewrite held_pin; destruct (decide (l = lease)); lia|by right]. Qed.

Lemma pins_phase ph (ds : list (nat * nat)) : forall r, phase_ok (r, ph) -> Forall (λ desc, pinnable (withheld ph) r desc.1) ds ->
  phase_ok (foldl (λ r desc, pin r desc.1) r ds, ph).
Proof.
  induction ds as [|d ds IH]; intros r H Hp; [done|]. inversion_clear Hp as [|? ? H1 H2]. cbn [foldl]. apply IH; [by apply pin_phase|].
  eapply Forall_impl; [exact H2|]. intros k. apply pinnable_pin.
Qed.

Lemma unload_end_ok close r key one refusal : phase_ok (r, Judged key one refusal) -> registry_ok None (unload_end close refusal r key).1.
Proof.
  intros (H & Hlib & Hr). destruct refusal as [why|]; cbn [unload_end fst].
  - destruct H as (? & ? & _). by apply publish_without_ok.
  - specialize (Hr eq_refl). destruct (take_library r key) as [[[r' retired] one']|e] eqn:E.
    + pose proof H as (_ & Hl & _).
      assert (one' = one) as ->.
      { unfold library in Hlib. unfold take_library in E. destruct (list_find _ (r_loaded r)) as [[i d]|]; [|done].
        cbn in Hlib. injection Hlib as ->. by injection E as _ _ ->. }
      apply (take_library_ok (Some (d_lease one))) in E as (Hc & Hs & _ & Hp & E1 & E2 & E3 & E4 & _); [|done]. cbn [fst].
      split_and!; [by destruct Hc; split| |done]. eapply leases_kept; [exact Hl| |done..|].
      * rewrite Hp. unfold leases_of. cbn [add_gone r_loaded r_leaving r_gone]. rewrite closed_snoc, !app_assoc.
        by rewrite (Permutation_app_comm _ [d_lease one]).
      * intros l. cbn [add_gone r_gone]. rewrite closed_snoc, E2, elem_of_app, list_elem_of_singleton. intros [?| ->]; auto.
    + unfold library in Hlib. unfold take_library in E. by destruct (list_find _ (r_loaded r)) as [[i d]|].
Qed.

Lemma step_ok st st' : step st st' -> phase_ok st -> phase_ok st'.
Proof.
  destruct 1 as [ask r path source opened|r path source opened Hp|ask r key|ask r|r id n|r key r' E|r key r' E|r key r' one E|ask r key one|
    close r key one refusal|r p lease Hp Eh|r ph key|r ph kind cap|r ph lease Hh|r ph lease Hh]; intros H.
  - by apply load_from_ok.
  - by apply absorb_ok.
  - by apply retire_ok.
  - by apply collect_ok.
  - by eapply set_priority_ok.
  - by eapply rekey_ok.
  - by eapply rekey_libraries_ok.
  - unfold unload_begin in E. destruct (library r key) as [one'|] eqn:El; [|done]. destruct (negb _); [done|]. injection E as <- <-.
    destruct H as (Hc & Hl & _). split; [by apply publish_without_ok|done].
  - destruct H as [H El]. split_and!; [done|done|]. unfold unload_refusal. cbv zeta. intros Hn.
    assert (holds_besides_own r one = 0%nat) as Hz; [|unfold holds_besides_own, strong_count in Hz; lia].
    destruct (0 <? holds_besides_own r one)%nat eqn:E; [done|]. apply Nat.ltb_ge in E. lia.
  - by apply (unload_end_ok close r key one).
  - apply pin_phase; [done|]. right. split; [done|]. by exists p.
  - unfold services_get. destruct (_ ≫= _) as [desc|] eqn:E; [|done]. cbn [fst]. apply pin_phase; [done|].
    apply bind_Some in E as (i & _ & E). apply bind_Some in E as (e & _ & E). apply phase_registry in H. by eapply descriptor_pinnable.
  - unfold services_list. cbv zeta. cbn [fst]. apply pins_phase; [done|].
    apply Forall_forall. intros desc (e & _ & E)%list_elem_of_omap.
    apply phase_registry in H. by eapply descriptor_pinnable.
  - apply pin_phase; [done|]. by left.
  - by apply unpin_phase.
Qed.

(** Reached from a new registry. *)
Definition reached (st : Registry * Phase) : Prop := exists key library_key, rtc step (registry_new key library_key, Idle) st.

Lemma reachable_ok st : reached st -> phase_ok st.
Proof.
  intros (key & library_key & H). assert (phase_ok (registry_new key library_key, Idle)) as H0 by apply new_ok. revert H0.
  induction H as [st|st1 st2 st3 Hs _ IH]; [done|]. intros H. apply IH. by eapply step_ok.
Qed.
End registry.
