(* ===== verification/RegistryAnswers.v ===== *)
(** * What a registry answers

    Keys find the providers that render to them and services are told the same;
    the best of a kind is the highest ranked of those that say they are available;
    a load takes a library whole or leaves the registry as it was; a library let go is
    closed by the first collection that finds it unheld and agreeing. *)

From stdpp Require Import sorting.
From S2P Require Import Prelude Order KeyTemplate Registry RegistryLaws.

Lemma idle_ok canonical r : reached canonical (r, Idle) -> registry_ok canonical None r.
Proof. apply reachable_ok. Qed.

(** ** Keys *)

Lemma provider_Some canonical r key p : catalog_ok canonical r ->
  provider r key = Some p <-> p ∈ r_providers r /\ p_key p = key.
Proof.
  intros H. unfold provider. rewrite bind_Some. setoid_rewrite (ok_index _ _ H key). change map with (@fmap list _).
  setoid_rewrite list_lookup_fmap_Some. rewrite list_elem_of_lookup. split.
  - intros (i & (q & Ek & Hq) & Hp). assert (q = p) as -> by congruence. eauto.
  - intros [[i Hi] Ek]. exists i. eauto.
Qed.

Lemma ranked_keys canonical r : catalog_ok canonical r -> NoDup (map p_key (ranked (r_providers r))).
Proof.
  intros H. change map with (@fmap list _). unfold ranked. rewrite (sort_perm rank_le). exact (indexes_nodup _ _ (ok_index _ _ H)).
Qed.

Lemma offered_all canonical r p : catalog_ok canonical r -> p ∈ ranked (r_providers r) -> offered None p = true.
Proof.
  intros H. unfold ranked. rewrite sort_perm. intros Hp. destruct (ok_home _ _ H p Hp) as (d & _ & E & _). unfold offered. by rewrite E.
Qed.

Definition place_of (p : Provider) : option (nat * nat) := lease ← v_hold (p_view p); Some (lease, p_at p).

Lemma services_get_provider canonical r key : registry_ok canonical None r -> (services_get r key).2 = provider r key ≫= place_of.
Proof.
  intros (Hc & _ & Hs). unfold services_get. red in Hs. rewrite !Hs. pose proof (snapshot_of_holds None (r_providers r)) as H.
  rewrite (filter_all (offered None)) in H by (intros p; by apply (offered_all canonical)).
  pose proof (sh_by_key _ _ H (ranked_keys canonical r Hc)) as Hk. set (s := snapshot_of _ _) in *.
  destruct (s_by_key s !! key) as [i|] eqn:Ei.
  - apply (Hk key i) in Ei as (p & Hp & Ek). assert (provider r key = Some p) as ->.
    { apply (provider_Some canonical); [done|]. split; [|done]. apply list_elem_of_lookup_2 in Hp. unfold ranked in Hp. by rewrite sort_perm in Hp. }
    destruct (sh_entries _ _ H i p Hp) as (e & lease & E1 & _ & E3 & E4 & E5). cbn [mbind option_bind]. rewrite E1. cbn [mbind option_bind].
    unfold descriptor_of, place_of. rewrite E5, E4. cbn. by rewrite E3.
  - cbn. destruct (provider r key) as [p|] eqn:Ep; [|done]. apply (provider_Some canonical) in Ep as [Hp Ek]; [|done].
    unfold ranked in Hk. rewrite <- (sort_perm rank_le) in Hp. apply list_elem_of_lookup in Hp as [i Hi].
    assert (s_by_key s !! key = Some i); [apply Hk; by exists p|congruence].
Qed.

Lemma library_of_Some canonical w r p d : registry_ok canonical w r -> d ∈ r_loaded r -> v_hold (p_view p) = Some (d_lease d) -> library_of r p = Some d.
Proof.
  intros (_ & [L1 _ _] & _) Hd Eh. unfold library_of. destruct (list_find _ _) as [[i d']|] eqn:Ef.
  - apply list_find_Some in Ef as (Hi & E & _). cbn. f_equal. apply (nodup_inj d_lease (r_loaded r)); [|by eapply list_elem_of_lookup_2|done|congruence].
    unfold leases_of in L1. by apply NoDup_app in L1 as (? & _).
  - apply list_find_None in Ef. rewrite Forall_forall in Ef. by destruct (Ef d Hd).
Qed.

Lemma place_bound canonical r p d : catalog_ok canonical r -> p ∈ r_providers r -> d ∈ r_loaded r -> v_hold (p_view p) = Some (d_lease d) -> (p_at p < d_providers d)%nat.
Proof.
  intros H Hp Hd Eh. assert (p_at p ∈ seq 0 (d_providers d)) as Hs; [|apply elem_of_seq in Hs; lia].
  rewrite <- (ok_places _ _ H d Hd). apply list_elem_of_fmap_2, filter_elem. split; [done|]. unfold holds_lease. by apply bool_decide_eq_true_2.
Qed.

(** ** The best of a kind *)

Definition outranks (p q : Provider) : Prop :=
  p_priority q < p_priority p \/ p_priority q = p_priority p /\ text_order (p_key p) (p_key q).

Lemma rank_le_outranks p q : rank_le p q = true <-> outranks p q.
Proof.
  unfold rank_le, then_by, on, outranks, text_order. rewrite andb_true_iff, orb_true_iff, negb_true_iff, Z.leb_le, Z.leb_gt.
  destruct (Z.lt_trichotomy (p_priority q) (p_priority p)) as [H|[H|H]]; intuition lia.
Qed.

Lemma head_filter {A} (f : A -> bool) (R : A -> A -> Prop) l p : StronglySorted R l -> head (List.filter f l) = Some p ->
  p ∈ l /\ f p = true /\ forall q, q ∈ l -> f q = true -> q = p \/ R p q.
Proof.
  induction 1 as [|x l Hs IH Hx]; [done|]. cbn [List.filter]. destruct (f x) eqn:E.
  - intros [= <-]. split_and!; [by left|done|]. intros q [->|Hq]%elem_of_cons _; [by left|right]. rewrite Forall_forall in Hx. by apply Hx.
  - intros H. apply IH in H as (H1 & H2 & H3). split_and!; [by right|done|]. intros q [->|Hq]%elem_of_cons Hf; [congruence|by apply H3].
Qed.

Lemma claims_elem r kind p : p ∈ providers r kind <-> p ∈ r_providers r /\ view_supports (p_view p) kind = true.
Proof. unfold providers, ranked. rewrite sort_perm. exact (filter_elem (λ p, view_supports (p_view p) kind) _ _). Qed.

(** Available and of the kind. *)
Definition candidate (answers : Provider -> option bytes) (r : Registry) (kind : bytes) (p : Provider) : Prop :=
  p ∈ r_providers r /\ view_supports (p_view p) kind = true /\ answers p = None.

Lemma best_head answers r kind p : best answers r kind = Some p ->
  candidate answers r kind p /\ forall q, candidate answers r kind q -> q = p \/ outranks p q.
Proof.
  unfold best, available. intros H. apply (head_filter _ (in_order rank_le)) in H as (H1 & H2 & H3); [|apply sort_sorted, _].
  apply claims_elem in H1 as [H1 H1']. unfold is_available in H2. destruct (answers p) eqn:E; [done|]. split; [done|].
  intros q (Hq & Hk & Ha). destruct (H3 q) as [->|H]; [by apply claims_elem|unfold is_available; by rewrite Ha|by left|right].
  by apply rank_le_outranks.
Qed.

Lemma best_none answers r kind : best answers r kind = None <-> forall p, ~ candidate answers r kind p.
Proof.
  unfold best, available. split.
  - intros H p (Hp & Hk & Ha). assert (p ∈ List.filter (is_available answers) (providers r kind)) as Hin.
    { apply filter_elem. split; [by apply claims_elem|]. unfold is_available. by rewrite Ha. }
    by destruct (List.filter _ _); [apply elem_of_nil in Hin|].
  - intros H. rewrite filter_none; [done|]. intros p [Hp Hk]%claims_elem. unfold is_available. destruct (answers p) eqn:E; [done|].
    by destruct (H p).
Qed.

Lemma outranks_antisym p q : outranks p q -> outranks q p -> p_key p = p_key q.
Proof. intros [H|[H1 H2]] [H3|[H3 H4]]; [lia..|]. by apply (anti_symm text_order). Qed.

Lemma why_not_loop answers l : forall refused, (refused = [] -> l <> []) ->
  why_not_from answers refused l = match head (List.filter (is_available answers) l) with
    | Some _ => None
    | None => Some (NoneAvailable (refused ++ omap (λ p, reason ← answers p; Some (p, reason)) l))
    end.
Proof.
  induction l as [|p l IH]; intros refused H; cbn [why_not_from List.filter].
  - destruct refused; [by destruct (H eq_refl)|]. by rewrite app_nil_r.
  - unfold is_available at 1. cbn [omap list_omap]. destruct (answers p) as [reason|] eqn:E; [|done]. cbn [mbind option_bind].
    rewrite IH by by destruct refused. by rewrite <- app_assoc.
Qed.

(** ** Loading, whole or not at all *)

Lemma take_view_counts r path source library st v st' : take_view r path source library st v = Ok st' ->
  (length st'.1 + length st'.2 = S (length st.1 + length st.2))%nat.
Proof.
  destruct st as [skipped taken]. unfold take_view. cbv zeta. destruct (holder_of _ _ _ _) as [[held_by from]|].
  - destruct (bool_decide _); [|done]. intros [= <-]. cbn. rewrite length_app. cbn. lia.
  - intros [= <-]. cbn. rewrite length_app. cbn. lia.
Qed.

Lemma take_views_count r path source library l : forall st st', try_fold (take_view r path source library) st l = Ok st' ->
  (length st'.1 + length st'.2 = length l + (length st.1 + length st.2))%nat.
Proof.
  induction l as [|v l IH]; intros st st'; [by intros [= <-]|]. cbn [try_fold]. intros H. apply bind_Ok in H as (st1 & H1 & H2).
  apply IH in H2. apply take_view_counts in H1. cbn [length]. lia.
Qed.

(** What a registry has, that a refused or skipped load leaves alone. *)
Definition same_catalog (r r' : Registry) : Prop :=
  r_loaded r' = r_loaded r /\ r_providers r' = r_providers r /\ r_by_key r' = r_by_key r /\ r_snapshot r' = r_snapshot r /\ r_outside r' = r_outside r.

Lemma collect_same ask r : same_catalog r (collect ask r).1.
Proof. destruct (collect_keeps ask r) as (H1 & H2 & H3 & _ & H5 & H6). done. Qed.

Lemma same_trans r1 r2 r3 : same_catalog r1 r2 -> same_catalog r2 r3 -> same_catalog r1 r3.
Proof. unfold same_catalog. naive_solver congruence. Qed.

Lemma pass_over_same r o : same_catalog r (pass_over r o).
Proof. unfold pass_over. destruct (is_served o); [done|]. by destruct (existsb _ _). Qed.

(** Loaded: the library is last, with every view it has taken or skipped, its
    providers are the ones after those there were. *)
Definition loads (r r' : Registry) (path : bytes) (opened : Opened) (d : Loaded) : Prop :=
  exists library origin new, opened = OpenedLoaded library origin /\ r_loaded r' = r_loaded r ++ [d] /\ r_providers r' = r_providers r ++ new /\
    d_path d = path /\ d_id d = l_id library /\ length new = d_providers d /\
    (d_providers d + length (d_skipped d) = length (l_views library))%nat /\ Forall (offered_by d) new.

Lemma absorb_whole canonical r path source opened :
  match absorb_file canonical r path source opened with
  | (r', Ok (LoadedNow d)) => loads r r' path opened d
  | (r', _) => same_catalog r r'
  end.
Proof.
  destruct opened as [| |[]|library origin]; cbn [absorb_file]; try done.
  destruct (list_find _ (r_loaded r)) as [[i already]|] eqn:Ef; [apply pass_over_same|].
  destruct (try_fold _ _ _) as [[skipped taken]|e] eqn:Et; [|apply pass_over_same].
  apply take_views_count in Et. cbn [fst snd length] in Et. rewrite !Nat.add_0_r in Et.
  unfold loads. do 3 eexists. split_and!; try done; cbn; [by rewrite length_imap|lia|].
  apply Forall_forall. intros p Hp. apply new_elem in Hp as (j & [[v a] k] & _ & ->). done.
Qed.

(** ** Letting go *)

Definition agrees (ask : nat -> bool) (g : Leaving) : bool := if g_unload g then ask (g_lease g) else is_served (g_origin g).
Definition goes (ask : nat -> bool) (r : Registry) (g : Leaving) : bool := negb (1 <? strong_count r (g_lease g))%nat && agrees ask g.

Lemma collect_one_goes ask r closed kept g : collect_one ask (r, closed, kept) g =
  if goes ask r g then (add_gone r (ClosedLease (g_lease g)), closed ++ [g_key g], kept) else (r, closed, kept ++ [g]).
Proof.
  unfold collect_one, goes, agrees. destruct (1 <? _)%nat; [done|]. cbn [negb andb]. by destruct (if g_unload g then _ else _).
Qed.

(** Closing one does not change what another is held by. *)
Lemma collect_each ask l : forall r closed kept, foldl (collect_one ask) (r, closed, kept) l =
  let going := List.filter (goes ask r) l in
  (foldl add_gone r (map (λ g, ClosedLease (g_lease g)) going), closed ++ map g_key going, kept ++ List.filter (λ g, negb (goes ask r g)) l).
Proof.
  induction l as [|g l IH]; intros r closed kept; [by cbn; rewrite !app_nil_r|]. cbn [foldl List.filter]. rewrite collect_one_goes.
  destruct (goes ask r g) eqn:E; rewrite IH; cbn [negb map foldl]; cbv zeta; by rewrite <- ?app_assoc.
Qed.

Lemma gone_all l : forall r, r_gone (foldl add_gone r l) = r_gone r ++ l.
Proof. induction l as [|g l IH]; intros r; cbn; [by rewrite app_nil_r|]. rewrite IH. cbn. by rewrite <- app_assoc. Qed.

Lemma leaving_count canonical r g : registry_ok canonical None r -> g ∈ r_leaving r -> strong_count r (g_lease g) = S (held_outside r (g_lease g)).
Proof.
  intros (Hc & [L1 _ _] & Hs) Hg. unfold leases_of in L1. apply NoDup_app in L1 as (_ & Hd & _).
  assert (forall p, p ∈ r_providers r -> v_hold (p_view p) <> Some (g_lease g)) as Hp.
  { intros p Hp E. destruct (ok_home canonical r Hc p Hp) as (d & Hin & Eh & _). apply (Hd (g_lease g)).
    - rewrite E in Eh. injection Eh as ->. by apply list_elem_of_fmap_2.
    - apply elem_of_app. left. by apply list_elem_of_fmap_2. }
  unfold strong_count. assert (held_by_providers r (g_lease g) = 0%nat) as ->.
  { unfold held_by_providers. rewrite filter_none; [done|]. intros p Hin. unfold holds_lease. by apply bool_decide_eq_false_2, Hp. }
  assert (held_by_snapshot r (g_lease g) = 0%nat) as ->; [|lia].
  unfold held_by_snapshot. rewrite filter_none; [done|]. intros l Hl. apply bool_decide_eq_false_2. intros ->.
  rewrite Hs in Hl. apply snapshot_leases in Hl as (_ & p & Hin & E). by apply (Hp p Hin).
Qed.

(** An unload goes through exactly when nothing holds the library but the registry
    itself and it, or its source, agrees. *)
Definition unload_verdict (ask : nat -> bool) (r : Registry) (key : bytes) : UnloadError + Loaded :=
  match library r key with
  | None => inl (NotFound key)
  | Some one =>
      if negb (closes (d_origin one)) then inl (LinkedIn key)
      else if (0 <? held_outside r (d_lease one))%nat then inl (Busy key (held_outside r (d_lease one)))
      else if d_unload one then (if ask (d_lease one) then inr one else inl (RefusedBy key))
      else if is_served (d_origin one) then inr one else inl (NotSupported key)
  end.

Lemma take_loaded r key r' retired one : take_library r key = Ok (r', retired, one) -> r_loaded r ≡ₚ one :: r_loaded r'.
Proof.
  unfold take_library. destruct (list_find _ (r_loaded r)) as [[at_ d]|] eqn:Ef; [|done]. intros [= <- <- <-].
  apply list_find_Some in Ef as (Hat & _ & _). by apply delete_Permutation.
Qed.

Lemma publish_same r w : snapshot_ok None r -> publish_without (publish_without r w) None = r.
Proof. intros H. red in H. destruct r as [? ? ? ps ? ? ? s]. cbn in H. unfold publish_without, set_r_snapshot. cbn. by rewrite H. Qed.

Lemma holds_withdrawn r one : holds_besides_own (publish_without r (Some (d_lease one))) one = held_outside r (d_lease one).
Proof.
  unfold holds_besides_own, strong_count. change (held_by_providers (publish_without ?r _)) with (held_by_providers r).
  change (held_outside (publish_without ?r _)) with (held_outside r). assert (held_by_snapshot (publish_without r (Some (d_lease one))) (d_lease one) = 0%nat); [|lia].
  unfold held_by_snapshot. rewrite filter_none; [done|]. intros l Hl. apply bool_decide_eq_false_2. intros ->.
  by apply snapshot_leases in Hl as [Hn _].
Qed.

Lemma unload_refusal_verdict ask r key one : library r key = Some one -> closes (d_origin one) = true ->
  unload_refusal ask false (publish_without r (Some (d_lease one))) key one = match unload_verdict ask r key with inl e => Some e | inr _ => None end.
Proof.
  intros E Ec. unfold unload_refusal, unload_verdict. cbv zeta. rewrite holds_withdrawn, E, Ec. cbn [negb andb orb]. rewrite andb_true_r.
  destruct (0 <? _)%nat; [done|]. destruct (d_unload one); [by destruct (ask _)|by destruct (is_served _)].
Qed.

(** ** A registry, in numbers *)

Definition demo_key : KeyTemplate := MkKeyTemplate OfProvider (bs "%id") [OfField Id].
Definition demo_view (id : bytes) : ProviderView := MkView id [] None [bs "text"] None.
Definition demo_library (id : bytes) (views : list ProviderView) : LibraryView := MkLibrary id (bs "1.0") true views.
Definition demo_load (canonical : bytes -> bytes) (r : Registry) (path : bytes) (image : nat) (library : LibraryView) : Registry :=
  (load_from canonical (λ _, true) r path [] (inr (OpenedLoaded library (Mapped image)))).1.
Definition demo_two : Registry :=
  demo_load (λ p, p) (demo_load (λ p, p) (registry_new demo_key demo_key) (bs "/a") 0 (demo_library (bs "one") [demo_view (bs "x"); demo_view (bs "y")]))
    (bs "/b") 1 (demo_library (bs "two") [demo_view (bs "z")]).
Definition demo_retired : Registry := (retire (λ _, true) demo_two (bs "one")).1.
Definition demo_closed : Registry := (collect (λ _, true) demo_retired).1.

Lemma demo_two_reached : reached (λ p, p) (demo_two, Idle).
Proof. exists demo_key, demo_key. eapply rtc_l; [apply step_load|]. eapply rtc_l; [apply step_load|]. apply rtc_refl. Defined.
Lemma demo_retired_reached : reached (λ p, p) (demo_retired, Idle).
Proof. destruct demo_two_reached as (k & l & H). exists k, l. eapply rtc_r; [exact H|]. apply step_retire. Defined.
Lemma demo_closed_reached : reached (λ p, p) (demo_closed, Idle).
Proof. destruct demo_retired_reached as (k & l & H). exists k, l. eapply rtc_r; [exact H|]. apply step_collect. Defined.

(** ** Properties *)

(** C23: a key answers exactly the provider that renders to it, its library is loaded and
    offers it, and what services are told under that key is that library's lease and
    the provider's place in its table. *)
Theorem key_answers canonical r key p : reached canonical (r, Idle) -> provider r key = Some p <->
  p ∈ r_providers r /\ template_render (r_key r) (provider_fields p) = key /\
  (services_get r key).2 = place_of p /\
  exists d, library_of r p = Some d /\ offered_by d p /\ place_of p = Some (d_lease d, p_at p) /\ (p_at p < d_providers d)%nat.
Proof.
  intros H%idle_ok. pose proof H as (Hc & _). rewrite (services_get_provider canonical r key H), (provider_Some canonical r key p Hc). split.
  - intros [Hp Ek]. pose proof (ok_key _ _ Hc p Hp) as E. destruct (ok_home _ _ Hc p Hp) as (d & Hd & Eh & Ho).
    assert (provider r key = Some p) as -> by by apply (provider_Some canonical).
    split_and!; [done|by rewrite <- E|done|]. exists d. split_and!; [by eapply library_of_Some|done|unfold place_of; by rewrite Eh|by eapply place_bound].
  - intros (Hp & Ek & _). split; [done|]. by rewrite (ok_key _ _ Hc p Hp).
Qed.

Lemma key_answers_witness : exists p, provider demo_two (bs "y") = Some p /\ (services_get demo_two (bs "y")).2 = place_of p /\ place_of p = Some (0, 1)%nat.
Proof.
  destruct (provider demo_two (bs "y")) as [p|] eqn:E; [|by vm_compute in E]. exists p. split; [done|].
  split; [by apply (key_answers _ demo_two (bs "y") p demo_two_reached) in E as (_ & _ & E & _)|]. vm_compute in E. by injection E as <-.
Defined.

(** The best of a kind is the one, of those that speak it and say they are available,
    that outranks every other: of higher priority, or of the same and the lesser key. *)
Theorem best_outranks canonical answers r kind p : reached canonical (r, Idle) -> best answers r kind = Some p <->
  candidate answers r kind p /\ forall q, candidate answers r kind q -> q = p \/ outranks p q.
Proof.
  intros H%idle_ok. destruct H as (Hc & _). split; [apply best_head|]. intros [Hp Hq].
  destruct (best answers r kind) as [b|] eqn:E; [|by destruct (proj1 (best_none _ _ _) E p)].
  apply best_head in E as [Hb Hall]. f_equal. destruct (Hq b Hb) as [?|H1]; [done|]. destruct (Hall p Hp) as [?|H2]; [done|].
  apply (nodup_inj p_key (r_providers r)); [exact (indexes_nodup _ _ (ok_index _ _ Hc))|apply Hb|apply Hp|by apply outranks_antisym].
Qed.

Lemma best_outranks_witness : exists p, p_key p = bs "y" /\
  forall q, candidate (λ p, if bool_decide (p_key p = bs "x") then Some (bs "out") else None) demo_two (bs "text") q -> q = p \/ outranks p q.
Proof.
  set (answers := λ p, if bool_decide (p_key p = bs "x") then Some (bs "out") else None).
  destruct (best answers demo_two (bs "text")) as [p|] eqn:E; [|by vm_compute in E]. exists p.
  pose proof (proj1 (best_outranks _ answers demo_two (bs "text") p demo_two_reached) E) as [_ H]. split; [|exact H].
  vm_compute in E. by injection E as <-.
Defined.

(** Why there is none: nothing speaks the kind, or everything that does refuses, each
    with its own reason, in rank order; and there is no reason when there is a best. *)
Theorem why_not_exact answers r kind : why_not answers r kind =
  match best answers r kind with
  | Some _ => None
  | None => Some (match providers r kind with
                  | [] => NothingClaimsIt
                  | ps => NoneAvailable (omap (λ p, reason ← answers p; Some (p, reason)) ps)
                  end)
  end.
Proof.
  unfold why_not, best, available. destruct (providers r kind) as [|p l]; [done|]. rewrite why_not_loop by done.
  by destruct (head _).
Qed.

(** A load takes the library whole, its providers after those there were, every view
    taken or skipped; refused or skipped, what is loaded and answered is as it was. *)
Theorem load_whole_or_nothing canonical ask r path source opened :
  match load_from canonical ask r path source opened with
  | (r', Ok (LoadedNow d)) => exists opened', opened = inr opened' /\ loads r r' path opened' d
  | (r', _) => same_catalog r r'
  end.
Proof.
  unfold load_from. pose proof (collect_same ask r) as Hs. destruct (collect ask r) as [r1 closed]. cbn [fst] in Hs.
  destruct (loaded_from_path canonical r1 path); [done|]. destruct opened as [reason|opened]; [done|].
  pose proof (absorb_whole canonical r1 path source opened) as H. destruct (absorb_file _ _ _ _ _) as [r' [[d|why]|e]]; [|by eapply same_trans..].
  exists opened. split; [done|]. destruct Hs as (E1 & E2 & _). unfold loads in *. by rewrite <- E1, <- E2.
Qed.

(** C24: a library let go is closed by a collection exactly when no handle to it is left
    and it agrees, and otherwise is still leaving. *)
Theorem collect_closes canonical ask r g : reached canonical (r, Idle) -> g ∈ r_leaving r ->
  let '(r', closed) := collect ask r in
  let free := bool_decide (held_outside r (g_lease g) = 0%nat) && agrees ask g in
  (ClosedLease (g_lease g) ∈ r_gone r' <-> free = true) /\ (g ∈ r_leaving r' <-> free = false) /\ (free = true -> g_key g ∈ closed).
Proof.
  intros H%idle_ok Hg. unfold collect. rewrite collect_each. cbv zeta. cbn [app]. set (r0 := set_r_leaving r []).
  assert (goes ask r0 g = bool_decide (held_outside r (g_lease g) = 0%nat) && agrees ask g) as <-.
  { unfold goes. f_equal. change (strong_count r0) with (strong_count r). rewrite (leaving_count canonical r g H Hg). by destruct (held_outside r _). }
  destruct H as (_ & [L1 _ _] & _). unfold leases_of in L1. apply NoDup_app in L1 as (_ & _ & L1). apply NoDup_app in L1 as (L1 & Hd & _).
  change (r_gone (set_r_leaving ?x _)) with (r_gone x). cbn [r_leaving set_r_leaving]. rewrite gone_all. change (r_gone r0) with (r_gone r).
  assert (ClosedLease (g_lease g) ∈ r_gone r -> False) as Hnot.
  { intros Hin%closed_in. apply (Hd (g_lease g)); [by apply list_elem_of_fmap_2|done]. }
  split_and!.
  - rewrite elem_of_app. split; [intros [?|(g' & E & Hg')%list_elem_of_fmap]; [by destruct Hnot|]|intros Hgo; right].
    + apply filter_elem in Hg' as [Hg' Hgo]. injection E as E. by rewrite (nodup_inj g_lease (r_leaving r) g g').
    + apply list_elem_of_In, in_map_iff. exists g. split; [done|]. by apply list_elem_of_In, filter_elem.
  - rewrite filter_elem, negb_true_iff. tauto.
  - intros Hgo. apply list_elem_of_fmap_2, filter_elem. done.
Qed.

Lemma collect_closes_witness : exists g, g ∈ r_leaving demo_retired /\ ClosedLease (g_lease g) ∈ r_gone (collect (λ _, true) demo_retired).1.
Proof.
  destruct (r_leaving demo_retired) as [|g l] eqn:E; [by vm_compute in E|]. exists g. split; [by left|].
  assert (g ∈ r_leaving demo_retired) as Hg by (rewrite E; by left).
  pose proof (collect_closes _ (λ _, true) demo_retired g demo_retired_reached Hg) as H.
  destruct (collect (λ _, true) demo_retired) as [r' closed]. apply H. vm_compute in E. by injection E as <- _.
Defined.

(** Providers go by path when their library does: once a path resolves to another
    file than before, two libraries may have been loaded from it, and letting the
    first go takes the second's providers with it, its key left answering nothing. *)
Theorem one_path_two_libraries : exists before after,
  let r := demo_load after (demo_load before (registry_new demo_key demo_key) (bs "/link") 0 (demo_library (bs "one") [demo_view (bs "x")]))
             (bs "/link") 1 (demo_library (bs "two") [demo_view (bs "z")]) in
  map d_id (r_loaded r) = [bs "one"; bs "two"] /\ is_Some (provider r (bs "z")) /\
  let r' := (retire (λ _, true) r (bs "one")).1 in
  map d_id (r_loaded r') = [bs "two"] /\ r_providers r' = [] /\ provider r' (bs "z") = None.
Proof.
  exists (λ _, bs "/first"), (λ _, bs "/second"). vm_compute. split_and!; try reflexivity. by eexists.
Qed.

(** C1: however loading, retiring and unloading interleave with threads that take
    handles from services, clone and drop them: a library that was closed is held by
    no handle, no provider and no snapshot, and is neither loaded nor leaving. *)
Theorem closed_is_unheld canonical r ph lease : reached canonical (r, ph) -> ClosedLease lease ∈ r_gone r ->
  held_outside r lease = 0%nat /\ held_by_providers r lease = 0%nat /\ held_by_snapshot r lease = 0%nat /\
  (forall d, d ∈ r_loaded r -> d_lease d <> lease) /\ (forall g, g ∈ r_leaving r -> g_lease g <> lease).
Proof.
  intros H%reachable_ok Hc%closed_in. apply phase_registry in H as (Hcat & [L1 L2 L3] & Hs). unfold leases_of in L1.
  apply NoDup_app in L1 as (_ & Hd & L1). apply NoDup_app in L1 as (_ & Hg & _).
  assert (forall d, d ∈ r_loaded r -> d_lease d <> lease) as Hload.
  { intros d Hin <-. apply (Hd (d_lease d)); [by apply list_elem_of_fmap_2|apply elem_of_app; by right]. }
  assert (forall p, p ∈ r_providers r -> v_hold (p_view p) <> Some lease) as Hprov.
  { intros p Hp E. destruct (ok_home canonical r Hcat p Hp) as (d & Hin & Eh & _). apply (Hload d Hin). congruence. }
  split_and!; [| | |done|].
  - destruct (decide (held_outside r lease = 0%nat)) as [?|Hn]; [done|]. by apply L3 in Hn as [_ ?].
  - unfold held_by_providers. rewrite filter_none; [done|]. intros p Hp. unfold holds_lease. apply bool_decide_eq_false_2. by apply Hprov.
  - unfold held_by_snapshot. rewrite filter_none; [done|]. intros l Hl. apply bool_decide_eq_false_2. intros ->.
    rewrite Hs in Hl. apply snapshot_leases in Hl as (_ & p & Hp & E). by apply (Hprov p Hp).
  - intros g Hin <-. apply (Hg (g_lease g)); [by apply list_elem_of_fmap_2|done].
Qed.

Lemma closed_is_unheld_witness : ClosedLease 0 ∈ r_gone demo_closed /\ held_by_snapshot demo_closed 0 = 0%nat.
Proof.
  assert (ClosedLease 0 ∈ r_gone demo_closed) as H by (apply list_elem_of_In; vm_compute; left; reflexivity).
  split; [exact H|]. exact (proj1 (proj2 (proj2 (closed_is_unheld _ demo_closed Idle 0 demo_closed_reached H)))).
Defined.

(** A refused unload leaves the registry exactly as it was, and says how many hold the
    library when that is why; one that goes through takes the library out with its own
    providers and no other's, and gives its origin up. *)
Theorem unload_exact canonical ask close r key : reached canonical (r, Idle) ->
  match unload_verdict ask r key with
  | inl e => unload_with ask close false r key = (r, Err e)
  | inr one => exists r', unload_with ask close false r key =
        (r', match close (d_origin one) with None => Ok () | Some reason => Err (NotClosed key reason) end) /\
      r_loaded r ≡ₚ one :: r_loaded r' /\ r_gone r' = r_gone r ++ [ClosedLease (d_lease one)] /\
      r_providers r' = List.filter (λ p, negb (holds_lease (d_lease one) p)) (r_providers r)
  end.
Proof.
  intros H%idle_ok. pose proof H as (Hc & Hl & Hs). unfold unload_with, unload_begin.
  destruct (library r key) as [one|] eqn:El; [|unfold unload_verdict; by rewrite El].
  destruct (closes (d_origin one)) eqn:Ec; cbn [negb]; [|unfold unload_verdict; by rewrite El, Ec].
  rewrite (unload_refusal_verdict ask r key one El Ec). destruct (unload_verdict ask r key) as [e|one'] eqn:Ev.
  - cbn [unload_end]. by rewrite publish_same.
  - assert (one' = one) as ->.
    { unfold unload_verdict in Ev. rewrite El, Ec in Ev. cbn [negb] in Ev. repeat case_match; naive_solver. }
    set (rw := publish_without r _). assert (registry_ok canonical (Some (d_lease one)) rw) as Hw by by apply publish_without_ok.
    cbn [unload_end]. destruct (take_library rw key) as [[[r' retired] one']|e] eqn:Et.
    + assert (one' = one) as ->.
      { unfold library in El. unfold take_library in Et. subst rw. cbn [publish_without set_r_snapshot r_loaded] in Et.
        destruct (list_find _ (r_loaded r)) as [[i d]|]; [|done]. cbn in El. injection El as ->. by injection Et as _ _ ->. }
      pose proof (take_loaded _ _ _ _ _ Et) as Hp. apply (take_library_ok canonical _ _ _ _ _ _ Hw) in Et as (_ & _ & _ & _ & _ & Eg & _ & _ & Ep & _).
      eexists. split; [reflexivity|]. cbn [add_gone r_loaded r_gone r_providers]. by rewrite Eg.
    + unfold library in El. unfold take_library in Et. subst rw. cbn [publish_without set_r_snapshot r_loaded] in Et. by destruct (list_find _ (r_loaded r)) as [[i d]|].
Qed.

Lemma unload_exact_witness : exists r', unload_with (λ _, true) (λ _, None) false demo_two (bs "one") = (r', Ok ()) /\ r_gone r' = [ClosedLease 0].
Proof.
  pose proof (unload_exact _ (λ _, true) (λ _, None) demo_two (bs "one") demo_two_reached) as H.
  destruct (unload_verdict (λ _, true) demo_two (bs "one")) as [e|one] eqn:E; [by vm_compute in E|].
  destruct H as (r' & H & _ & Eg & _). exists r'. split; [exact H|]. rewrite Eg. vm_compute in E. by injection E as <-.
Defined.
