(* ===== verification/ByteRing.v ===== *)
(** * Bytes in a ring

    The memory of the rings two sides of a link share: spans of it copied in and out
    at positions that only ever grow, wherever they wrap. A position is the count of
    bytes before it; a counter keeps it at its width. *)

From S2P Require Import Prelude.

(** [RING] of [transport/shm.rs] and of [transport/rdma/mod.rs]. *)
Definition RING : Z := Z.shiftl 4 20.

(** Memory from the ring's first byte on; fresh memory is zero. *)
Abbreviation Memory := (gmap Z Z) (only parsing).
Definition peek (m : Memory) (at_ : Z) : Z := default 0 (m !! at_).

(** [ptr::copy_nonoverlapping], out of the memory and into it. *)
Fixpoint peeks (m : Memory) (at_ : Z) (n : nat) : list Z :=
  match n with O => [] | S n => peek m at_ :: peeks m (at_ + 1) n end.
Fixpoint poke (m : Memory) (at_ : Z) (l : list Z) : Memory :=
  match l with [] => m | b :: l => poke (<[at_ := b]> m) (at_ + 1) l end.

(** ** By position *)

Definition byte_at (m : Memory) (p : Z) : Z := peek m (p mod RING).
Fixpoint bytes_at (m : Memory) (p : Z) (n : nat) : list Z :=
  match n with O => [] | S n => byte_at m p :: bytes_at m (p + 1) n end.
Fixpoint put (m : Memory) (p : Z) (l : list Z) : Memory :=
  match l with [] => m | b :: l => put (<[p mod RING := b]> m) (p + 1) l end.

Lemma RING_pos : 0 < RING.
Proof. done. Qed.
Lemma RING_value : RING = 4194304.
Proof. done. Qed.
#[global] Opaque RING.

Lemma ring_at p : 0 <= p mod RING < RING.
Proof. apply Z.mod_pos_bound, RING_pos. Qed.

(** Positions a multiple of the ring's size apart are one place. *)
Lemma byte_at_mod m p q : p mod RING = q mod RING -> byte_at m p = byte_at m q.
Proof. unfold byte_at. by intros ->. Qed.

Lemma mod_add1 p q : p mod RING = q mod RING -> (p + 1) mod RING = (q + 1) mod RING.
Proof. intros E. rewrite <- (Z.add_mod_idemp_l p), <- (Z.add_mod_idemp_l q) by (pose proof RING_pos; lia). by rewrite E. Qed.

Lemma bytes_at_mod m n : forall p q, p mod RING = q mod RING -> bytes_at m p n = bytes_at m q n.
Proof.
  induction n as [|n IH]; intros p q E; [done|]. cbn [bytes_at]. f_equal; [by apply byte_at_mod|]. by apply IH, mod_add1.
Qed.

Lemma put_mod l : forall m p q, p mod RING = q mod RING -> put m p l = put m q l.
Proof.
  induction l as [|b l IH]; intros m p q E; [done|]. cbn [put]. rewrite E. by apply IH, mod_add1.
Qed.

(** A counter of a width the ring's size divides keeps the place. *)
Lemma counter_mod p w : (RING | w) -> 0 < w -> (p mod w) mod RING = p mod RING.
Proof.
  intros [k ->] H. pose proof RING_pos. rewrite (Z.mul_comm k), Z.rem_mul_r by nia.
  rewrite Z.mul_comm, Z_mod_plus_full, Z.mod_mod; lia.
Qed.

Lemma bytes_at_length m n : forall p, length (bytes_at m p n) = n.
Proof. induction n as [|n IH]; intros p; cbn; [done|]. by rewrite IH. Qed.

Lemma bytes_at_app m a b : forall p, bytes_at m p (a + b) = bytes_at m p a ++ bytes_at m (p + Z.of_nat a) b.
Proof.
  induction a as [|a IH]; intros p; cbn [plus bytes_at app]; [by rewrite Z.add_0_r|]. rewrite IH.
  do 2 f_equal. replace (p + 1 + Z.of_nat a) with (p + Z.of_nat (S a)) by lia. done.
Qed.

Lemma take_bytes_at m n k p : (k <= n)%nat -> take k (bytes_at m p n) = bytes_at m p k.
Proof.
  intros H. replace n with (k + (n - k))%nat by lia. rewrite bytes_at_app, take_app_le by by rewrite bytes_at_length.
  apply take_ge. by rewrite bytes_at_length.
Qed.
Lemma drop_bytes_at m n k p : (k <= n)%nat -> drop k (bytes_at m p n) = bytes_at m (p + Z.of_nat k) (n - k).
Proof.
  intros H. replace n with (k + (n - k))%nat at 1 by lia. rewrite bytes_at_app, drop_app_length' by by rewrite bytes_at_length. done.
Qed.

Lemma put_app a : forall m p b, put m p (a ++ b) = put (put m p a) (p + Z.of_nat (length a)) b.
Proof.
  induction a as [|x a IH]; intros m p b; cbn [app put length]; [by rewrite Z.add_0_r|]. rewrite IH.
  f_equal. lia.
Qed.

(** What is put does not reach a place the span does not. *)
Lemma byte_at_put_other l : forall m p q, q < p -> p + Z.of_nat (length l) <= q + RING -> byte_at (put m p l) q = byte_at m q.
Proof.
  induction l as [|b l IH]; intros m p q Hq Hr; [done|]. cbn [put length] in *. rewrite IH by lia.
  unfold byte_at, peek. rewrite lookup_insert_ne; [done|]. intros E.
  assert ((p - q) mod RING = 0) as Hz by (rewrite Zminus_mod, E, Z.sub_diag; apply Z.mod_0_l; pose proof RING_pos; lia).
  rewrite Z.mod_small in Hz by lia. lia.
Qed.

Lemma bytes_at_put_before l m p n : forall q, q + Z.of_nat n <= p -> p + Z.of_nat (length l) <= q + RING -> bytes_at (put m p l) q n = bytes_at m q n.
Proof.
  induction n as [|n IH]; intros q Hq Hr; [done|]. cbn [bytes_at]. f_equal; [apply byte_at_put_other; lia|apply IH; lia].
Qed.

Lemma bytes_at_put_same l : forall m p, Z.of_nat (length l) <= RING -> bytes_at (put m p l) p (length l) = l.
Proof.
  induction l as [|b l IH]; intros m p Hr; [done|]. cbn [length bytes_at put] in *. f_equal.
  - rewrite byte_at_put_other by lia. unfold byte_at, peek. by rewrite lookup_insert_eq.
  - apply IH. lia.
Qed.

(** ** A span that does not wrap, and one that may *)

Lemma peeks_span m n : forall p, p mod RING + Z.of_nat n <= RING -> peeks m (p mod RING) n = bytes_at m p n.
Proof.
  induction n as [|n IH]; intros p H; [done|]. cbn [peeks bytes_at]. f_equal. pose proof (ring_at p).
  destruct n as [|n]; [done|]. rewrite <- (IH (p + 1)).
  - f_equal. rewrite <- Z.add_mod_idemp_l by (pose proof RING_pos; lia). symmetry. apply Z.mod_small. lia.
  - rewrite <- Z.add_mod_idemp_l by (pose proof RING_pos; lia). rewrite Z.mod_small; lia.
Qed.

Lemma poke_span l : forall m p, p mod RING + Z.of_nat (length l) <= RING -> poke m (p mod RING) l = put m p l.
Proof.
  induction l as [|b l IH]; intros m p H; [done|]. cbn [poke put length] in *. pose proof (ring_at p).
  destruct l as [|c l]; [done|]. rewrite <- (IH _ (p + 1)).
  - f_equal. rewrite <- Z.add_mod_idemp_l by (pose proof RING_pos; lia). symmetry. apply Z.mod_small. cbn in *. lia.
  - rewrite <- Z.add_mod_idemp_l by (pose proof RING_pos; lia). rewrite Z.mod_small; cbn in *; lia.
Qed.

(** Where a span goes on at the ring's first byte. *)
Lemma ring_end p : (p + (RING - p mod RING)) mod RING = 0.
Proof.
  pose proof RING_pos. rewrite (Z.div_mod p RING) at 1 by lia.
  replace (RING * (p / RING) + p mod RING + (RING - p mod RING)) with (0 + (p / RING + 1) * RING) by ring.
  rewrite Z_mod_plus_full. by apply Z.mod_0_l; lia.
Qed.
