(* ===== verification/Shm.v ===== *)
(** * A link through shared memory

    [transport/shm.rs]: one direction's ring, which a writer on one side and a reader
    on the other share with nothing but its counters, and the bell that wakes a reader
    that went to sleep. Each side is a program of atomic steps, and a link interleaves
    them as it likes. The accesses the code orders with fences happen in the order
    written. *)

From S2P Require Import Prelude ByteRing.

(** What a read or a write fails with. *)
Inductive RingError : Type := NotARing | BrokenPipe | TimedOut | BellOver.
#[export] Instance RingError_eq_dec : EqDecision RingError.
Proof. solve_decision. Defined.

Definition COUNTER : Z := 2 ^ 64.
Definition wrapping (n : Z) : Z := n mod COUNTER.

(** ** The ring's bytes *)

(** [Ring::held]: what a reader may take. *)
Definition held (head tail : Z) : result RingError Z :=
  let n := wrapping (head - tail) in if RING <? n then Err NotARing else Ok n.

(** [Ring::copy_out] and [Ring::copy_in]: two spans, the second where the first met
    the ring's end. *)
Definition spans (p : Z) (n : nat) : (Z * nat) * (Z * nat) :=
  let at_ := p mod RING in
  let first := Nat.min n (Z.to_nat (RING - at_)) in
  ((at_, first), (0, (n - first)%nat)).
Definition copy_out (m : Memory) (tail : Z) (n : nat) : list Z :=
  let '((at_, first), (at_', rest)) := spans tail n in peeks m at_ first ++ peeks m at_' rest.
Definition copy_in (m : Memory) (head : Z) (l : list Z) : Memory :=
  let '((at_, first), (at_', _)) := spans head (length l) in poke (poke m at_ (take first l)) at_' (drop first l).

(** The loop of [write_vectored] that copies [n] bytes of its parts, after [done]. *)
Fixpoint copy_parts (m : Memory) (head : Z) (n done_ : nat) (parts : list (list Z)) : Memory * nat :=
  match parts with
  | [] => (m, done_)
  | part :: parts =>
      if (done_ =? n)%nat then (m, done_)
      else
        let take_ := Nat.min (length part) (n - done_) in
        copy_parts (copy_in m (wrapping (head + Z.of_nat done_)) (take take_ part)) head n (done_ + take_) parts
  end.

(** ** The two sides *)

(** Where [write_vectored] is: waiting for room; copying so much; with so much copied
    and not published; looking whether the reader sleeps; taking the flag; ringing. *)
Inductive WriterAt : Type :=
  | WIdle (last : option (result RingError nat))
  | WRoom (parts : list (list Z))
  | WCopy (parts : list (list Z)) (n : nat)
  | WPublish (l : list Z)
  | WLook (n : nat) | WSwap (n : nat) | WRing (n : nat).

(** Where [read] is, with room for [cap]: looking at the head; falling asleep; having
    a last look; taking its flag back, bytes being there; waiting for the byte of a
    writer that took it; waiting on the bell; looking after the bell ended; copying
    out; freeing what it copied. *)
Inductive ReaderAt : Type :=
  | RIdle (last : option (result RingError (list Z)))
  | RLook (cap : nat) | RSleep (cap : nat) | RLast (cap : nat)
  | RBack (head : Z) (cap : nat) | RDrain (head : Z) (cap : nat)
  | RWait (cap : nat) | REnded (cap : nat)
  | RTake (head : Z) (cap : nat) | RFree (l : list Z).

(** A direction: the ring's memory and counters; wake-ups on their way and whether the
    bell is over; whether the writer's side ended; where both sides are; and every byte
    published and every byte given to a reader. *)
Record Shm := MkShm {
  memory : Memory; head_ : Z; tail_ : Z; sleeping : Z;
  bell : nat; over : bool; gone : bool;
  writer_at : WriterAt; reader_at : ReaderAt;
  sent : list Z; got : list Z }.
Definition shm_new : Shm := MkShm ∅ 0 0 0 0 false false (WIdle None) (RIdle None) [] [].

Definition writer_to (s : Shm) (w : WriterAt) : Shm :=
  MkShm (memory s) (head_ s) (tail_ s) (sleeping s) (bell s) (over s) (gone s) w (reader_at s) (sent s) (got s).
Definition reader_to (s : Shm) (r : ReaderAt) : Shm :=
  MkShm (memory s) (head_ s) (tail_ s) (sleeping s) (bell s) (over s) (gone s) (writer_at s) r (sent s) (got s).
Definition set_memory (s : Shm) (m : Memory) : Shm :=
  MkShm m (head_ s) (tail_ s) (sleeping s) (bell s) (over s) (gone s) (writer_at s) (reader_at s) (sent s) (got s).
Definition set_sleeping (s : Shm) (n : Z) : Shm :=
  MkShm (memory s) (head_ s) (tail_ s) n (bell s) (over s) (gone s) (writer_at s) (reader_at s) (sent s) (got s).
Definition set_bell (s : Shm) (n : nat) : Shm :=
  MkShm (memory s) (head_ s) (tail_ s) (sleeping s) n (over s) (gone s) (writer_at s) (reader_at s) (sent s) (got s).
Definition set_over (s : Shm) : Shm :=
  MkShm (memory s) (head_ s) (tail_ s) (sleeping s) (bell s) true (gone s) (writer_at s) (reader_at s) (sent s) (got s).
Definition set_gone (s : Shm) : Shm :=
  MkShm (memory s) (head_ s) (tail_ s) (sleeping s) (bell s) (over s) true (writer_at s) (reader_at s) (sent s) (got s).
Definition publish_head (s : Shm) (l : list Z) : Shm :=
  MkShm (memory s) (wrapping (head_ s + Z.of_nat (length l))) (tail_ s) (sleeping s) (bell s) (over s) (gone s) (writer_at s) (reader_at s) (sent s ++ l) (got s).
Definition publish_tail (s : Shm) (l : list Z) : Shm :=
  MkShm (memory s) (head_ s) (wrapping (tail_ s + Z.of_nat (length l))) (sleeping s) (bell s) (over s) (gone s) (writer_at s) (reader_at s) (sent s) (got s ++ l).

(** [RingWriter::write_vectored]. [fails]: what it waits for fails, a stall or a bell
    that is not there. *)
Definition write_begin (s : Shm) (parts : list (list Z)) : Shm :=
  writer_to s (if (length (concat parts) =? 0)%nat then WIdle (Some (Ok 0%nat)) else WRoom parts).
Definition write_step (fails : bool) (s : Shm) : Shm :=
  match writer_at s with
  | WIdle _ => s
  | WRoom parts =>
      match held (head_ s) (tail_ s) with
      | Err e => writer_to s (WIdle (Some (Err e)))
      | Ok n =>
          let room := RING - n in
          if 0 <? room then writer_to s (WCopy parts (Nat.min (Z.to_nat room) (length (concat parts))))
          else if gone s then writer_to s (WIdle (Some (Err BrokenPipe)))
          else if fails then writer_to s (WIdle (Some (Err TimedOut)))
          else s
      end
  | WCopy parts n => writer_to (set_memory s (copy_parts (memory s) (head_ s) n 0 parts).1) (WPublish (take n (concat parts)))
  | WPublish l => writer_to (publish_head s l) (WLook (length l))
  | WLook n => writer_to s (if sleeping s =? 1 then WSwap n else WIdle (Some (Ok n)))
  | WSwap n => writer_to (set_sleeping s 0) (if sleeping s =? 1 then WRing n else WIdle (Some (Ok n)))
  | WRing n =>
      if over s then writer_to s (WIdle (Some (if fails then Err BellOver else Ok n)))
      else writer_to (set_bell s (S (bell s))) (WIdle (Some (Ok n)))
  end.

(** [RingReader::read]. [fails]: it polls no longer, or its bell is waited on for too
    long. *)
Definition read_begin (s : Shm) (cap : nat) : Shm :=
  reader_to s (if (cap =? 0)%nat then RIdle (Some (Ok [])) else RLook cap).
Definition wait_bell (fails : bool) (s : Shm) : option (Shm * bool) :=
  if fails then Some (s, false)
  else match bell s with
       | S n => Some (set_bell s n, true)
       | O => if over s then Some (s, false) else None
       end.
Definition read_step (fails : bool) (s : Shm) : Shm :=
  match reader_at s with
  | RIdle _ => s
  | RLook cap =>
      if negb (head_ s =? tail_ s) then reader_to s (RTake (head_ s) cap)
      else if fails then reader_to s (RSleep cap) else s
  | RSleep cap => reader_to (set_sleeping s 1) (RLast cap)
  | RLast cap => reader_to s (if negb (head_ s =? tail_ s) then RBack (head_ s) cap else RWait cap)
  | RBack head cap => reader_to (set_sleeping s 0) (if sleeping s =? 0 then RDrain head cap else RTake head cap)
  | RDrain head cap =>
      match wait_bell fails s with Some (s, _) => reader_to s (RTake head cap) | None => s end
  | RWait cap =>
      match wait_bell fails s with
      | Some (s, rung) => reader_to s (if rung then RLook cap else REnded cap)
      | None => s
      end
  | REnded cap => reader_to s (if head_ s =? tail_ s then RIdle (Some (Err BellOver)) else RTake (head_ s) cap)
  | RTake head cap =>
      match held head (tail_ s) with
      | Err e => reader_to s (RIdle (Some (Err e)))
      | Ok n => reader_to s (RFree (copy_out (memory s) (tail_ s) (Nat.min (Z.to_nat n) cap)))
      end
  | RFree l => reader_to (publish_tail s l) (RIdle (Some (Ok l)))
  end.

(** ** A link *)

Inductive shm_step : Shm -> Shm -> Prop :=
  | writes_begin s parts last : writer_at s = WIdle last -> shm_step s (write_begin s parts)
  | writes_go s fails : shm_step s (write_step fails s)
  | reads_begin s cap last : reader_at s = RIdle last -> shm_step s (read_begin s cap)
  | reads_go s fails : shm_step s (read_step fails s)
  | bell_ends s : shm_step s (set_over s)
  | side_ends s : shm_step s (set_gone s).

Definition shm_reached (s : Shm) : Prop := rtc shm_step shm_new s.
