(* ===== verification/ShmLaws.v ===== *)
(** * What the shared ring keeps

    Whatever the two sides' steps interleave to, a reader is given the bytes written,
    in order, neither side touches a byte the other may be touching, and a reader that
    sleeps while there is something to read is about to be woken. *)

From S2P Require Import Prelude ByteRing Shm.

(** ** Copies, by position *)

Lemma ring_divides : (RING | COUNTER).
Proof. exists (2 ^ 42). by rewrite RING_value. Qed.
Lemma wrapping_mod p : wrapping p mod RING = p mod RING.
Proof. apply counter_mod; [apply ring_divides|done]. Qed.

Lemma copy_out_bytes m p n : Z.of_nat n <= RING -> copy_out m p n = bytes_at m p n.
Proof.
  intros H. unfold copy_out, spans. pose proof (ring_at p). set (first := Nat.min n _). assert (first <= n)%nat by lia.
  rewrite peeks_span by lia. destruct (decide (first = n)) as [E|Hne].
  - rewrite E, Nat.sub_diag. by rewrite app_nil_r.
  - assert (Z.of_nat first = RING - p mod RING) as Ef by lia. rewrite <- (ring_end p), <- Ef, peeks_span by (rewrite Ef, ring_end; lia).
    rewrite <- bytes_at_app. f_equal. lia.
Qed.

Lemma copy_in_put m p l : Z.of_nat (length l) <= RING -> copy_in m p l = put m p l.
Proof.
  intros H. unfold copy_in, spans. pose proof (ring_at p). set (first := Nat.min _ _). assert (first <= length l)%nat by lia.
  rewrite poke_span by (rewrite length_take; lia). destruct (decide (first = length l)) as [E|Hne].
  - rewrite E, drop_all, firstn_all. done.
  - assert (Z.of_nat first = RING - p mod RING) as Ef by lia.
    rewrite <- (ring_end p), <- Ef, poke_span by (rewrite length_drop, Ef, ring_end; lia).
    rewrite <- (take_drop first l) at 3. rewrite put_app, length_take_le by done. done.
Qed.

Lemma copy_parts_put n head parts : Z.of_nat n <= RING -> forall m d, (d <= n)%nat ->
  (copy_parts m head n d parts).1 = put m (head + Z.of_nat d) (take (n - d) (concat parts)).
Proof.
  intros Hn. induction parts as [|part parts IH]; intros m d Hd; cbn [copy_parts concat]; [by rewrite take_nil|].
  destruct (Nat.eqb_spec d n) as [->|Hne]; [by rewrite Nat.sub_diag|]. set (k := Nat.min _ _).
  rewrite IH by lia. rewrite copy_in_put by (rewrite length_take; lia).
  rewrite (put_mod _ _ (wrapping _) (head + Z.of_nat d)) by apply wrapping_mod.
  replace (take (n - d) (part ++ concat parts)) with (take k part ++ take (n - (d + k)) (concat parts)).
  - rewrite put_app, length_take_le by lia. f_equal. lia.
  - rewrite take_app. f_equal; [|f_equal; lia]. destruct (decide (length part <= n - d)%nat).
    + rewrite !take_ge by lia. done.
    + f_equal. lia.
Qed.

Lemma held_exact (h t : Z) : t <= h <= t + RING -> held (wrapping h) (wrapping t) = Ok (h - t).
Proof.
  intros H. unfold held, wrapping. rewrite <- Zminus_mod, Z.mod_small by (pose proof RING_value; unfold COUNTER; lia).
  destruct (Z.ltb_spec RING (h - t)); [lia|done].
Qed.

Lemma wrapping_eq (h t : Z) : t <= h <= t + RING -> (wrapping h =? wrapping t) = (h =? t).
Proof.
  intros H. destruct (Z.eqb_spec h t) as [->|Hne]; [apply Z.eqb_refl|]. apply Z.eqb_neq. unfold wrapping. intros E.
  assert ((h - t) mod COUNTER = 0) as Hz by (rewrite Zminus_mod, E, Z.sub_diag; done).
  rewrite Z.mod_small in Hz by (pose proof RING_value; unfold COUNTER; lia). lia.
Qed.

Lemma wrapping_add h n : wrapping (wrapping h + n) = wrapping (h + n).
Proof. unfold wrapping. by rewrite Z.add_mod_idemp_l. Qed.

(** ** The invariant *)

Definition taken (s : Shm) : Z := Z.of_nat (length (got s)).
Definition written (s : Shm) : Z := Z.of_nat (length (sent s)).

(** The bytes published and not given out are in the ring. *)
Record bytes_ok (s : Shm) : Prop := {
  ok_head : head_ s = wrapping (written s);
  ok_tail : tail_ s = wrapping (taken s);
  ok_room : taken s <= written s <= taken s + RING;
  ok_bytes : sent s = got s ++ bytes_at (memory s) (taken s) (Z.to_nat (written s - taken s));
}.

Definition writer_ok (s : Shm) : Prop :=
  match writer_at s with
  | WIdle last => last <> Some (Err NotARing)
  | WRoom parts => (0 < length (concat parts))%nat
  | WCopy parts n => (0 < n <= length (concat parts))%nat /\ written s + Z.of_nat n <= taken s + RING
  | WPublish l => (0 < length l)%nat /\ written s + Z.of_nat (length l) <= taken s + RING /\ bytes_at (memory s) (written s) (length l) = l
  | WLook n | WSwap n | WRing n => (0 < n)%nat
  end.

(** A head the reader saw: past what it took, not past what is published. *)
Definition seen_ok (s : Shm) (head : Z) : Prop := exists h, head = wrapping h /\ taken s < h <= written s.
Definition reader_ok (s : Shm) : Prop :=
  match reader_at s with
  | RIdle last => last <> Some (Err NotARing)
  | RLook cap | RSleep cap | RLast cap | RWait cap | REnded cap => (0 < cap)%nat
  | RBack head cap | RDrain head cap | RTake head cap => (0 < cap)%nat /\ seen_ok s head
  | RFree l => (0 < length l)%nat /\ taken s + Z.of_nat (length l) <= written s /\ l = bytes_at (memory s) (taken s) (length l)
  end.

(** A wake-up is on its way, about to be sent, or the bell is over. *)
Definition rung (s : Shm) : Prop := (0 < bell s)%nat \/ (exists n, writer_at s = WRing n) \/ over s = true.
Definition looking (w : WriterAt) : Prop := exists n, w = WLook n \/ w = WSwap n.
Definition wake_ok (s : Shm) : Prop :=
  match reader_at s with
  | RLast _ | RBack _ _ => sleeping s = 1 \/ rung s
  | RWait _ => rung s \/ (sleeping s = 1 /\ (written s = taken s \/ looking (writer_at s)))
  | RDrain _ _ => rung s
  | _ => True
  end.

Record shm_ok (s : Shm) : Prop := {
  ok_of_bytes : bytes_ok s;
  ok_sleeping : sleeping s = 0 \/ sleeping s = 1;
  ok_writer : writer_ok s;
  ok_reader : reader_ok s;
  ok_wake : wake_ok s;
}.

Lemma shm_new_ok : shm_ok shm_new.
Proof. split; cbn; try done. by left. Qed.

(** Steps of one side leave alone what the other's place says. *)
Definition same_shared (s s' : Shm) : Prop :=
  memory s' = memory s /\ head_ s' = head_ s /\ tail_ s' = tail_ s /\ sent s' = sent s /\ got s' = got s.

Lemma bytes_same s s' : same_shared s s' -> bytes_ok s -> bytes_ok s'.
Proof. intros (E1 & E2 & E3 & E4 & E5) []. unfold taken, written in *. split; unfold taken, written; rewrite ?E1, ?E2, ?E3, ?E4, ?E5; done. Qed.
Lemma writer_same s s' : same_shared s s' -> writer_at s' = writer_at s -> writer_ok s -> writer_ok s'.
Proof. intros (E1 & E2 & E3 & E4 & E5) E. unfold writer_ok, taken, written. by rewrite E, E1, E4, E5. Qed.
Lemma reader_same s s' : same_shared s s' -> reader_at s' = reader_at s -> reader_ok s -> reader_ok s'.
Proof. intros (E1 & E2 & E3 & E4 & E5) E. unfold reader_ok, seen_ok, taken, written. by rewrite E, E1, E4, E5. Qed.

(** Publishing leaves what the reader saw behind the head. *)
Lemma reader_more s l w : reader_ok s -> reader_ok (writer_to (publish_head s l) w).
Proof.
  unfold reader_ok, seen_ok, taken, written. cbn. rewrite length_app. destruct (reader_at s); try done.
  1-3: intros [H (h & E & Hh)]; split; [done|exists h; split; [done|lia]].
  intros (H1 & H2 & H3). split_and!; [done|lia|done].
Qed.

(** ** The writer's steps *)

Ltac side := first [done | by left | by right | split_and!; done].

Lemma write_room_ok parts fails s : writer_at s = WRoom parts -> shm_ok s -> shm_ok (write_step fails s).
Proof.
  intros E [[B1 B2 B3 B4] Hs Hw Hr Hk]. unfold write_step. rewrite E. unfold writer_ok in Hw. rewrite E in Hw.
  rewrite B1, B2, held_exact by lia. cbv zeta.
  assert (forall w, (forall n, w <> WRing n) -> writer_ok (writer_to s w) -> shm_ok (writer_to s w)) as Hgo.
  { intros w _ Hw'. split; [by split|done|done|by eapply reader_same; [..|exact Hr]|].
    unfold wake_ok, rung, looking in *. cbn. rewrite E in Hk. destruct (reader_at s); naive_solver. }
  destruct (Z.ltb_spec 0 (RING - (written s - taken s))).
  - apply Hgo; [done|]. unfold writer_ok, written, taken in *. cbn. lia.
  - destruct (gone s); [by apply Hgo|]. destruct fails; [by apply Hgo|]. split; [by split|done|by unfold writer_ok; rewrite E|done|done].
Qed.

Lemma write_copy_ok parts n fails s : writer_at s = WCopy parts n -> shm_ok s -> shm_ok (write_step fails s).
Proof.
  intros E [[B1 B2 B3 B4] Hs Hw Hr Hk]. unfold write_step. rewrite E. unfold writer_ok in Hw. rewrite E in Hw. destruct Hw as [Hn Hroom].
  rewrite copy_parts_put, B1, Nat.sub_0_r by lia. rewrite (put_mod _ _ _ (written s)) by (rewrite Z.add_0_r; apply wrapping_mod).
  set (l := take n (concat parts)). assert (length l = n) as El by (unfold l; rewrite length_take; lia).
  assert (forall p k, taken s <= p -> p + Z.of_nat k <= written s -> bytes_at (put (memory s) (written s) l) p k = bytes_at (memory s) p k) as Hold.
  { intros p k Hp Hk'. apply bytes_at_put_before; lia. }
  split.
  - split; cbn; [done|done|done|]. unfold taken, written in *. cbn. rewrite Hold by lia. done.
  - done.
  - unfold writer_ok, taken, written in *. cbn. split_and!; [lia|lia|]. apply bytes_at_put_same. lia.
  - unfold reader_ok, seen_ok, taken, written in *. cbn. destruct (reader_at s); try done. rewrite Hold by lia. done.
  - unfold wake_ok, rung, looking, taken, written in *. cbn. rewrite E in Hk. destruct (reader_at s); naive_solver.
Qed.

Lemma write_publish_ok l fails s : writer_at s = WPublish l -> shm_ok s -> shm_ok (write_step fails s).
Proof.
  intros E [[B1 B2 B3 B4] Hs Hw Hr Hk]. unfold write_step. rewrite E. unfold writer_ok in Hw. rewrite E in Hw. destruct Hw as (Hl & Hroom & Hb).
  split.
  - split; unfold taken, written in *; cbn; rewrite ?length_app.
    + rewrite B1, wrapping_add. f_equal. lia.
    + done.
    + lia.
    + replace (Z.to_nat _) with (Z.to_nat (Z.of_nat (length (sent s)) - Z.of_nat (length (got s))) + length l)%nat by lia.
      rewrite bytes_at_app, app_assoc, <- B4. f_equal. replace (_ + _) with (Z.of_nat (length (sent s))) by lia. done.
  - done.
  - done.
  - by apply reader_more.
  - unfold wake_ok, rung, looking, taken, written in *. cbn. rewrite E in Hk.
    destruct (reader_at s); [done..| | | | | |done|done|done]; try naive_solver.
Qed.

Lemma write_look_ok n fails s : writer_at s = WLook n -> shm_ok s -> shm_ok (write_step fails s).
Proof.
  intros E [[B1 B2 B3 B4] Hs Hw Hr Hk]. unfold write_step. rewrite E. unfold writer_ok in Hw. rewrite E in Hw.
  split; [by split|done|by destruct (_ =? _)|by eapply reader_same; [..|exact Hr]|].
  unfold wake_ok, rung, looking in *. cbn. rewrite E in Hk. destruct (Z.eqb_spec (sleeping s) 1) as [E1|E1].
  - destruct (reader_at s); naive_solver.
  - destruct (reader_at s); naive_solver.
Qed.

Lemma write_swap_ok n fails s : writer_at s = WSwap n -> shm_ok s -> shm_ok (write_step fails s).
Proof.
  intros E [[B1 B2 B3 B4] Hs Hw Hr Hk]. unfold write_step. rewrite E. unfold writer_ok in Hw. rewrite E in Hw.
  split; [by split|by left|by destruct (_ =? _)|by eapply reader_same; [..|exact Hr]|].
  unfold wake_ok, rung, looking in *. cbn. rewrite E in Hk. destruct (Z.eqb_spec (sleeping s) 1) as [E1|E1].
  - destruct (reader_at s); naive_solver.
  - destruct (reader_at s); naive_solver.
Qed.

Lemma write_ring_ok n fails s : writer_at s = WRing n -> shm_ok s -> shm_ok (write_step fails s).
Proof.
  intros E [[B1 B2 B3 B4] Hs Hw Hr Hk]. unfold write_step. rewrite E. destruct (over s) eqn:Eo.
  - split; [by split|done|by destruct fails|by eapply reader_same; [..|exact Hr]|].
    unfold wake_ok, rung, looking in *. cbn. destruct (reader_at s); naive_solver.
  - split; [by split|done|done|by eapply reader_same; [..|exact Hr]|].
    unfold wake_ok, rung, looking in *. cbn. assert (0 < S (bell s))%nat by lia. destruct (reader_at s); naive_solver.
Qed.

Lemma write_step_ok fails s : shm_ok s -> shm_ok (write_step fails s).
Proof.
  intros H. destruct (writer_at s) as [last|parts|parts n|l|n|n|n] eqn:E.
  - unfold write_step. by rewrite E.
  - by eapply write_room_ok.
  - by eapply write_copy_ok.
  - by eapply write_publish_ok.
  - by eapply write_look_ok.
  - by eapply write_swap_ok.
  - by eapply write_ring_ok.
Qed.

(** ** The reader's steps *)

(** A step that moves the reader alone. *)
Lemma reader_to_ok s s' r : same_shared s s' -> writer_at s' = writer_at s -> (sleeping s' = 0 \/ sleeping s' = 1) ->
  shm_ok s -> reader_ok (reader_to s' r) -> wake_ok (reader_to s' r) -> shm_ok (reader_to s' r).
Proof. intros Hs Ew He [Hb Hs' Hw Hr Hk] Hr' Hk'. split; [by eapply bytes_same; [..|exact Hb]|done|by eapply writer_same; [..|exact Hw]|done|done]. Qed.

Lemma seen_head s : bytes_ok s -> (head_ s =? tail_ s) = false -> seen_ok s (head_ s).
Proof.
  intros [B1 B2 B3 B4] E. rewrite B1, B2, wrapping_eq in E by lia. apply Z.eqb_neq in E. exists (written s). split; [done|lia].
Qed.
Lemma head_tail s : bytes_ok s -> (head_ s =? tail_ s) = true -> written s = taken s.
Proof. intros [B1 B2 B3 B4] E. rewrite B1, B2, wrapping_eq in E by lia. by apply Z.eqb_eq in E. Qed.

Lemma read_wait_ok head cap fails s : reader_at s = RDrain head cap -> shm_ok s -> shm_ok (read_step fails s).
Proof.
  intros E H. pose proof H as [Hb Hs Hw Hr Hk]. unfold read_step, wait_bell. rewrite E. unfold reader_ok in Hr. rewrite E in Hr.
  destruct fails; [by apply (reader_to_ok s s)|]. destruct (bell s) as [|n]; [destruct (over s); [by apply (reader_to_ok s s)|done]|].
  by apply (reader_to_ok s (set_bell s n)).
Qed.

Lemma read_woken_ok cap fails s : reader_at s = RWait cap -> shm_ok s -> shm_ok (read_step fails s).
Proof.
  intros E H. pose proof H as [Hb Hs Hw Hr Hk]. unfold read_step, wait_bell. rewrite E. unfold reader_ok in Hr. rewrite E in Hr.
  destruct fails; [by apply (reader_to_ok s s)|]. destruct (bell s) as [|n]; [destruct (over s); [by apply (reader_to_ok s s)|done]|].
  by apply (reader_to_ok s (set_bell s n)).
Qed.

Lemma read_take_ok head cap fails s : reader_at s = RTake head cap -> shm_ok s -> shm_ok (read_step fails s).
Proof.
  intros E H. pose proof H as [Hb Hs Hw Hr Hk]. unfold read_step. rewrite E. unfold reader_ok in Hr. rewrite E in Hr.
  destruct Hr as (Hc & h & -> & Hh). destruct Hb as [B1 B2 B3 B4]. rewrite B2, held_exact by lia.
  rewrite copy_out_bytes by lia. rewrite (bytes_at_mod _ _ _ (taken s)) by apply wrapping_mod.
  apply (reader_to_ok s s); [done..| |done]. unfold reader_ok. cbn [reader_at reader_to memory].
  rewrite bytes_at_length. unfold taken, written in *. cbn [got sent reader_to]. split_and!; [lia|lia|done].
Qed.

Lemma read_free_ok l fails s : reader_at s = RFree l -> shm_ok s -> shm_ok (read_step fails s).
Proof.
  intros E H. pose proof H as [[B1 B2 B3 B4] Hs Hw Hr Hk]. unfold read_step. rewrite E. unfold reader_ok in Hr. rewrite E in Hr.
  destruct Hr as (Hl & Hle & El). split; [|done| |done|done].
  - split; unfold taken, written in *; cbn; rewrite ?length_app.
    + done.
    + rewrite B2, wrapping_add. f_equal. lia.
    + lia.
    + rewrite B4 at 1. rewrite <- app_assoc. f_equal.
      replace (Z.to_nat (_ - Z.of_nat (length (got s)))) with (length l + Z.to_nat (Z.of_nat (length (sent s)) - Z.of_nat (length (got s) + length l)))%nat by lia.
      rewrite bytes_at_app, <- El. do 2 f_equal. lia.
  - unfold writer_ok, taken, written in *. cbn. rewrite length_app. destruct (writer_at s); try done; [lia|].
    destruct Hw as (H1 & H2 & H3). split_and!; [done|lia|done].
Qed.

Lemma read_step_ok fails s : shm_ok s -> shm_ok (read_step fails s).
Proof.
  intros H. pose proof H as [Hb Hs Hw Hr Hk]. unfold reader_ok, wake_ok in Hr, Hk. destruct (reader_at s) as [last|cap|cap|cap|head cap|head cap|cap|cap|head cap|l] eqn:E.
  - unfold read_step. by rewrite E.
  - unfold read_step. rewrite E. destruct (head_ s =? tail_ s) eqn:Eh; cbn [negb].
    + destruct fails; [|done]. by apply (reader_to_ok s s).
    + apply (reader_to_ok s s); [done..| |done]. split; [done|exact (seen_head s Hb Eh)].
  - unfold read_step. rewrite E. apply (reader_to_ok s (set_sleeping s 1)); [done|done|by right|done|done|by left].
  - unfold read_step. rewrite E. destruct (head_ s =? tail_ s) eqn:Eh; cbn [negb].
    + apply (reader_to_ok s s); [done..|]. unfold wake_ok, rung in *. cbn. apply head_tail in Eh; [|done]. destruct Hk as [Hk|Hk]; [right; split; [done|by left]|by left].
    + apply (reader_to_ok s s); [done..| |done]. split; [done|exact (seen_head s Hb Eh)].
  - unfold read_step. rewrite E. apply (reader_to_ok s (set_sleeping s 0)); [done|done|by left|done|by destruct (_ =? _)|].
    destruct (Z.eqb_spec (sleeping s) 0) as [E0|E0]; [|done]. unfold wake_ok, rung in *. cbn. destruct Hk as [Hk|Hk]; [lia|done].
  - by eapply read_wait_ok.
  - by eapply read_woken_ok.
  - unfold read_step. rewrite E. destruct (head_ s =? tail_ s) eqn:Eh.
    + by apply (reader_to_ok s s).
    + apply (reader_to_ok s s); [done..| |done]. split; [done|exact (seen_head s Hb Eh)].
  - by eapply read_take_ok.
  - by eapply read_free_ok.
Qed.

Lemma shm_begins_ok s : shm_ok s ->
  (forall parts last, writer_at s = WIdle last -> shm_ok (write_begin s parts)) /\ (forall cap last, reader_at s = RIdle last -> shm_ok (read_begin s cap)).
Proof.
  intros H. split.
  - intros parts last E. destruct H as [[B1 B2 B3 B4] Hs Hw Hr Hk]. unfold write_begin.
    split; [by split|done| |by eapply reader_same; [..|exact Hr]|].
    + unfold writer_ok. cbn. destruct (Nat.eqb_spec (length (concat parts)) 0); [done|lia].
    + unfold wake_ok, rung, looking in *. cbn. rewrite E in Hk. destruct (reader_at s); naive_solver.
  - intros cap last E. unfold read_begin. pose proof H as [? Hs ? ? ?]. apply (reader_to_ok s s); [done|done|exact Hs|done|..].
    + unfold reader_ok. cbn. destruct (Nat.eqb_spec cap 0); [done|lia].
    + unfold wake_ok. cbn. by destruct (cap =? 0)%nat.
Qed.

Lemma shm_step_ok s s' : shm_step s s' -> shm_ok s -> shm_ok s'.
Proof.
  destruct 1 as [s parts last E|s fails|s cap last E|s fails|s|s]; intros H.
  - by eapply (proj1 (shm_begins_ok s H)).
  - by apply write_step_ok.
  - by eapply (proj2 (shm_begins_ok s H)).
  - by apply read_step_ok.
  - destruct H as [Hb Hs Hw Hr Hk]. split; [by eapply bytes_same; [..|exact Hb]|done|by eapply writer_same; [..|exact Hw]|by eapply reader_same; [..|exact Hr]|].
    unfold wake_ok, rung in *. cbn. destruct (reader_at s); naive_solver.
  - destruct H as [Hb Hs Hw Hr Hk]. split; [by eapply bytes_same; [..|exact Hb]|done|by eapply writer_same; [..|exact Hw]|by eapply reader_same; [..|exact Hr]|done].
Qed.

Lemma shm_reached_ok s : shm_reached s -> shm_ok s.
Proof.
  unfold shm_reached. intros H. pose proof shm_new_ok as H0. revert H0. induction H as [s|s1 s2 s3 Hs _ IH]; [done|].
  intros H. apply IH. by eapply shm_step_ok.
Qed.

Lemma iter3 {A} (f : A -> A) x : Nat.iter 3 f x = f (f (f x)).
Proof. done. Qed.
Lemma reached_writes n fails s : shm_reached s -> shm_reached (Nat.iter n (write_step fails) s).
Proof. intros H. induction n as [|n IH]; [done|]. eapply rtc_r; [exact IH|apply writes_go]. Defined.
Lemma reached_reads n fails s : shm_reached s -> shm_reached (Nat.iter n (read_step fails) s).
Proof. intros H. induction n as [|n IH]; [done|]. eapply rtc_r; [exact IH|apply reads_go]. Defined.
Lemma reached_write parts s last : writer_at s = WIdle last -> shm_reached s -> shm_reached (write_begin s parts).
Proof. intros E H. eapply rtc_r; [exact H|by eapply writes_begin]. Defined.
Lemma reached_read cap s last : reader_at s = RIdle last -> shm_reached s -> shm_reached (read_begin s cap).
Proof. intros E H. eapply rtc_r; [exact H|by eapply reads_begin]. Defined.

(** A link in numbers: the reader falls asleep, three bytes are published, the writer
    rings, and writes another while the reader takes them. *)
Definition demo_asleep : Shm := Nat.iter 3 (read_step true) (read_begin shm_new 2).
Definition demo_published : Shm := Nat.iter 3 (write_step false) (write_begin demo_asleep [[1; 2]; [3]]).
Definition demo_both : Shm :=
  Nat.iter 2 (read_step false) (Nat.iter 1 (write_step false) (write_begin (Nat.iter 3 (write_step false) demo_published) [[4]])).
Lemma demo_published_reached : shm_reached demo_published.
Proof. apply reached_writes. eapply reached_write; [vm_compute; reflexivity|]. apply reached_reads. eapply reached_read; [reflexivity|]. apply rtc_refl. Defined.
Lemma demo_both_reached : shm_reached demo_both.
Proof. apply reached_reads, reached_writes. eapply reached_write; [vm_compute; reflexivity|]. apply reached_writes, demo_published_reached. Defined.

(** ** Properties *)

(** C26: what a reader is given is, in order, what the writer published, never more than a
    ring behind, and neither side ever takes the other's counters for another thing. *)
Theorem shm_in_order s : shm_reached s ->
  got s `prefix_of` sent s /\ Z.of_nat (length (sent s)) <= Z.of_nat (length (got s)) + RING /\
  writer_at s <> WIdle (Some (Err NotARing)) /\ reader_at s <> RIdle (Some (Err NotARing)).
Proof.
  intros [[B1 B2 B3 B4] Hs Hw Hr Hk]%shm_reached_ok. split_and!.
  - rewrite B4. by apply prefix_app_r.
  - unfold taken, written in B3. lia.
  - intros E. unfold writer_ok in Hw. by rewrite E in Hw.
  - intros E. unfold reader_ok in Hr. by rewrite E in Hr.
Qed.

Lemma shm_in_order_witness : got demo_published `prefix_of` [1; 2; 3] /\ sent demo_published = [1; 2; 3].
Proof. assert (sent demo_published = [1; 2; 3]) as E by (vm_compute; reflexivity). split; [|exact E]. rewrite <- E. exact (proj1 (shm_in_order demo_published demo_published_reached)). Defined.

(** While one side copies in and the other copies out, no place is in both spans. *)
Theorem copies_are_apart s parts n head cap k : shm_reached s -> writer_at s = WCopy parts n -> reader_at s = RTake head cap ->
  held head (tail_ s) = Ok k -> forall i j, 0 <= i < Z.of_nat n -> 0 <= j < Z.min k (Z.of_nat cap) -> (head_ s + i) mod RING <> (tail_ s + j) mod RING.
Proof.
  intros [[B1 B2 B3 B4] Hs Hw Hr Hk]%shm_reached_ok Ew Er Eh i j Hi Hj E. unfold writer_ok in Hw. unfold reader_ok in Hr. rewrite Ew in Hw. rewrite Er in Hr.
  destruct Hw as [Hn Hroom]. destruct Hr as (Hc & h & -> & Hh). rewrite B2, held_exact in Eh by lia. injection Eh as <-.
  rewrite B1, B2, <- (wrapping_mod (wrapping (written s) + i)), <- (wrapping_mod (wrapping (taken s) + j)), !wrapping_add, !wrapping_mod in E.
  assert ((written s + i - (taken s + j)) mod RING = 0) as Hz by (rewrite Zminus_mod, E, Z.sub_diag; apply Z.mod_0_l; pose proof RING_pos; lia).
  rewrite Z.mod_small in Hz by lia. lia.
Qed.

Lemma copies_are_apart_witness : writer_at demo_both = WCopy [[4]] 1 /\ reader_at demo_both = RTake 3 2 /\
  head_ demo_both mod RING <> tail_ demo_both mod RING.
Proof.
  split; [vm_compute; reflexivity|]. split; [vm_compute; reflexivity|].
  pose proof (copies_are_apart demo_both [[4]] 1 3 2 3 demo_both_reached) as Ha. rewrite <- (Z.add_0_r (head_ demo_both)), <- (Z.add_0_r (tail_ demo_both)).
  apply Ha; [vm_compute; reflexivity|vm_compute; reflexivity|vm_compute; reflexivity|lia|lia].
Defined.

(** C25: no wake-up is lost: a reader waiting on a bell with nothing on its way has nothing
    to read, or the writer, which published it, rings within three of its own steps;
    and the two sides are never both waiting for the other. *)
Theorem no_wake_up_is_lost s : shm_reached s -> read_step false s = s -> (exists cap, reader_at s = RWait cap) \/ (exists head cap, reader_at s = RDrain head cap) ->
  ((exists cap, reader_at s = RWait cap) /\ sent s = got s \/ bell (Nat.iter 3 (write_step false) s) = 1%nat) /\
  (forall parts, writer_at s = WRoom parts -> write_step false s <> s).
Proof.
  intros [[B1 B2 B3 B4] Hs Hw Hr Hk]%shm_reached_ok Est Er.
  assert (bell s = 0%nat /\ over s = false) as [Eb Eo].
  { unfold read_step, wait_bell in Est. destruct Er as [[cap Er]|(head & cap & Er)]; rewrite Er in Est;
      (destruct (bell s); [destruct (over s)|]); try done; apply (f_equal reader_at) in Est; cbn in Est; congruence. }
  assert (forall n, writer_at s = WRing n -> bell (Nat.iter 3 (write_step false) s) = 1%nat) as Hring.
  { intros n Ew. rewrite !iter3. unfold write_step at 3. rewrite Ew, Eo, Eb. done. }
  split.
  - unfold wake_ok, rung, looking in Hk. rewrite Eb, Eo in Hk. destruct Er as [[cap Er]|(head & cap & Er)]; rewrite Er in Hk.
    + destruct Hk as [[Hk|[[n Ew]|Hk]]|(E1 & [E|[n [Ew|Ew]]])]; [lia|right; by eapply Hring|done| | |].
      * left. split; [by exists cap|]. rewrite B4, E, Z.sub_diag. by rewrite app_nil_r.
      * right. rewrite !iter3. unfold write_step at 3. rewrite Ew, E1. unfold write_step at 2. cbn. rewrite E1. unfold write_step. cbn. by rewrite Eo, Eb.
      * right. rewrite !iter3. unfold write_step at 3. rewrite Ew, E1. unfold write_step at 2. cbn. rewrite Eo, Eb. done.
    + destruct Hk as [Hk|[[n Ew]|Hk]]; [lia|right; by eapply Hring|done].
  - intros parts Ew Ewst. unfold wake_ok, rung, looking in Hk. rewrite Eb, Eo, Ew in Hk.
    assert (written s = taken s) as E by (destruct Er as [[cap Er]|(head & cap & Er)]; rewrite Er in Hk; naive_solver lia).
    unfold write_step in Ewst. rewrite Ew, B1, B2, held_exact, E, Z.sub_diag in Ewst by lia. cbv zeta in Ewst.
    rewrite Z.sub_0_r in Ewst. destruct (Z.ltb_spec 0 RING) as [_|?]; [|pose proof RING_pos; lia].
    apply (f_equal writer_at) in Ewst. cbn in Ewst. congruence.
Qed.

Lemma no_wake_up_is_lost_witness : reader_at demo_published = RWait 2 /\ sent demo_published <> got demo_published /\
  bell (Nat.iter 3 (write_step false) demo_published) = 1%nat.
Proof.
  assert (reader_at demo_published = RWait 2) as Er by (vm_compute; reflexivity).
  assert (sent demo_published <> got demo_published) as Hne by (vm_compute; discriminate).
  split; [exact Er|]. split; [exact Hne|].
  destruct (no_wake_up_is_lost demo_published demo_published_reached) as [[[_ H]|H] _]; [vm_compute; reflexivity|left; by exists 2%nat|by destruct Hne|exact H].
Defined.

(** A read that finds bytes gives as many as are published and fit, never none; a
    write that finds room takes as many as there is room for, of all its parts. *)
Theorem reads_and_writes_give s fails : shm_reached s ->
  (forall cap, reader_at s = RLook cap -> sent s <> got s -> let l := take cap (drop (length (got s)) (sent s)) in
    l <> [] /\ reader_at (Nat.iter 3 (read_step fails) s) = RIdle (Some (Ok l)) /\ got (Nat.iter 3 (read_step fails) s) = got s ++ l) /\
  (forall parts, writer_at s = WRoom parts -> Z.of_nat (length (sent s)) < Z.of_nat (length (got s)) + RING ->
    let n := Nat.min (Z.to_nat (Z.of_nat (length (got s)) + RING - Z.of_nat (length (sent s)))) (length (concat parts)) in
    n <> 0%nat /\ writer_at (Nat.iter 3 (write_step fails) s) = WLook n /\ sent (Nat.iter 3 (write_step fails) s) = sent s ++ take n (concat parts)).
Proof.
  intros H%shm_reached_ok. pose proof H as [[B1 B2 B3 B4] Hs Hw Hr Hk]. split.
  - intros cap Er Hne l. unfold reader_ok in Hr. rewrite Er in Hr. unfold taken, written in *.
    assert (Z.of_nat (length (got s)) < Z.of_nat (length (sent s))) as Hlt.
    { destruct (decide (Z.of_nat (length (sent s)) = Z.of_nat (length (got s)))) as [E|]; [|lia]. destruct Hne. rewrite B4, E, Z.sub_diag. by rewrite app_nil_r. }
    rewrite !iter3. unfold read_step at 3 6. rewrite Er, B1, B2, wrapping_eq by (unfold taken, written; lia). unfold taken, written.
    destruct (Z.eqb_spec (Z.of_nat (length (sent s))) (Z.of_nat (length (got s)))) as [?|_]; [lia|]. cbn [negb].
    unfold read_step at 2 4. cbn [reader_at reader_to tail_ memory]. rewrite B2. unfold taken. rewrite held_exact by lia.
    rewrite copy_out_bytes by lia. rewrite (bytes_at_mod _ _ _ (taken s)) by apply wrapping_mod. unfold taken.
    assert (bytes_at (memory s) (Z.of_nat (length (got s))) (Nat.min (Z.to_nat (Z.of_nat (length (sent s)) - Z.of_nat (length (got s)))) cap) = l) as ->.
    { unfold l. assert (drop (length (got s)) (sent s) = bytes_at (memory s) (Z.of_nat (length (got s))) (Z.to_nat (Z.of_nat (length (sent s)) - Z.of_nat (length (got s))))) as ->.
      { rewrite B4 at 1. by rewrite drop_app_length. }
      rewrite <- (take_bytes_at _ (Z.to_nat (Z.of_nat (length (sent s)) - Z.of_nat (length (got s))))) by lia.
      set (bs := bytes_at _ _ _). rewrite Nat.min_comm. rewrite <- take_take. f_equal. apply take_ge. unfold bs. by rewrite bytes_at_length. }
    split_and!; [|done|done]. unfold l. intros E. apply (f_equal length) in E. rewrite length_take, length_drop in E. cbn in E. lia.
  - intros parts Ew Hroom n. unfold writer_ok in Hw. rewrite Ew in Hw. unfold taken, written in *.
    rewrite !iter3. unfold write_step at 3 6. rewrite Ew, B1, B2, held_exact by lia. cbv zeta. unfold taken, written.
    destruct (Z.ltb_spec 0 (RING - (Z.of_nat (length (sent s)) - Z.of_nat (length (got s))))) as [_|?]; [|lia].
    replace (Nat.min (Z.to_nat (RING - _)) _) with n by (unfold n; f_equal; f_equal; lia).
    unfold write_step. cbn. split_and!; [lia| |done]. rewrite length_take. f_equal. lia.
Qed.

Lemma reads_and_writes_give_witness : got (Nat.iter 3 (read_step false) (Nat.iter 1 (read_step false) (Nat.iter 3 (write_step false) demo_published))) = [1; 2].
Proof.
  set (s := Nat.iter 1 (read_step false) (Nat.iter 3 (write_step false) demo_published)).
  assert (shm_reached s) as H by apply reached_reads, reached_writes, demo_published_reached.
  destruct (reads_and_writes_give s false H) as [Hr _]. specialize (Hr 2%nat).
  destruct Hr as (_ & _ & E); [vm_compute; reflexivity|vm_compute; discriminate|]. rewrite E. vm_compute. reflexivity.
Defined.

(** C27: whatever the other side writes into the counters, what is read or written is at
    most a ring, in two spans inside it that do not meet; or the counters are refused. *)
Theorem hostile_counters_stay_inside head tail cap :
  match held head tail with
  | Err e => e = NotARing
  | Ok n => 0 <= n <= RING /\ forall p k, (k = Nat.min (Z.to_nat n) cap \/ k = Nat.min (Z.to_nat (RING - n)) cap) ->
      let '((a, f), (b, r)) := spans p k in 0 <= a /\ a + Z.of_nat f <= RING /\ 0 <= b /\ b + Z.of_nat r <= a /\ (f + r = k)%nat
  end.
Proof.
  unfold held. destruct (Z.ltb_spec RING (wrapping (head - tail))) as [?|Hn]; [done|].
  assert (0 <= wrapping (head - tail)) as H0 by (apply Z.mod_pos_bound; done). split; [done|]. intros p k Hk. cbn [spans].
  unfold spans. pose proof (ring_at p). assert (Z.of_nat k <= RING) by lia. lia.
Qed.
