(* ===== verification/Rdma.v ===== *)
(** * Frames over RDMA

    [transport/rdma/ring.rs]: what two sides tell each other to set a link up, and one
    direction of it: a writer that copies bytes to its staging area and posts writes
    of them into the peer's inbox, a reader that learns of them by their completions
    and tells the writer how far it has read. The device between them lands requests
    in the order posted, reading the staged bytes as it does, completes them in that
    order afterwards, and may fail one and then all that follow. *)

From S2P Require Import Prelude Keys Stream ByteRing.

(** ** Setting a link up *)

Definition MAGIC : bytes := bs "GTRD".
Definition VERSION : Z := 1.

(** [Record], and how it is written and read. *)
Record SetUp := MkSetUp { qpn : Z; psn : Z; gid : bytes; mtu : Z; addr : Z; rkey : Z }.
Inductive SetUpError : Type := NotAnEndpoint | OtherVersion | OtherRing | NoMtu.

Definition setup_encode (r : SetUp) : bytes :=
  MAGIC ++ [VERSION; mtu r; 0; 0] ++ le32 (qpn r) ++ le32 (psn r) ++ gid r ++ le64 (addr r) ++ le32 (rkey r) ++ le32 RING ++ replicate 16 0.
Definition part (b : bytes) (at_ n : nat) : bytes := take n (drop at_ b).
Definition setup_decode (b : bytes) : result SetUpError SetUp :=
  let u32_at i := from_le_bytes (part b i 4) in
  if negb (bool_decide (part b 0 4 = MAGIC)) then Err NotAnEndpoint
  else if negb (nth 4 b 0 =? VERSION) then Err OtherVersion
  else if negb (u32_at 44%nat =? RING) then Err OtherRing
  else
    let mtu := nth 5 b 0 in
    if negb ((1 <=? mtu) && (mtu <=? 5)) then Err NoMtu
    else Ok (MkSetUp (u32_at 8%nat) (Z.land (u32_at 12%nat) 16777215) (part b 16 16) mtu (from_le_bytes (part b 32 8)) (u32_at 40%nat)).

(** ** The writer *)

Definition CHUNK : Z := Z.shiftl 256 10.
Definition SENDS : Z := 256.
Definition CREDIT_EVERY : Z := RING / 4.
(** A request id marking a position update. *)
Definition CREDIT : Z := Z.shiftl 1 63.
Definition WORD : Z := 2 ^ 32.
Definition wrap32 (n : Z) : Z := n mod WORD.

Inductive LinkError : Type := WroteTooMuch | NotWritten | NotAWrite | PipeBroken | WaitedTooLong | Status (status : Z).
#[export] Instance LinkError_eq_dec : EqDecision LinkError.
Proof. solve_decision. Defined.

(** [Completion], of the send queue, and [Sends]. *)
Record Completion := MkCompletion { c_status : Z; c_id : Z }.
Record Sends := MkSends { outstanding : Z; completed : Z; failed : option Z }.

(** [Shared::reap]: what the send queue finished. *)
Definition reap_one (s : Sends) (c : Completion) : Sends :=
  let left := Z.max 0 (outstanding s - 1) in
  if negb (c_status c =? 0) then MkSends left (completed s) (Some (default (c_status c) (failed s)))
  else if Z.land (c_id c) CREDIT =? 0 then MkSends left (wrap32 (c_id c)) (failed s)
  else MkSends left (completed s) (failed s).
Definition reap (done_ : list Completion) (s : Sends) : Sends := foldl reap_one s done_.

(** A request posted and not finished: a write of [n] bytes at one offset of staging
    and inbox alike, its id the position after it, or one that is not this
    direction's. *)
Inductive Request : Type := WriteOf (at_ : Z) (n : nat) (id : Z) | Update.
Definition id_of (q : Request) : Z := match q with WriteOf _ _ id => id | Update => CREDIT end.

(** Where [write_some] is: waiting for room; copying, with so much room; posting what
    it copied. *)
Inductive SomeAt : Type :=
  | SIdle (last : option (result LinkError nat)) | SLook (l : bytes) | SCopy (l : bytes) (room : Z) | SPost (l : bytes).
Record Writer := MkWriter { w_head : Z; sends : Sends; staging : Memory; counter : Z; w_gone : bool; some_at : SomeAt }.

(** [Shared::post], once around: whether the queue has room. *)
Definition post_ready (s : Sends) (gone : bool) : result LinkError bool :=
  match failed s with
  | Some status => Err (Status status)
  | None => if outstanding s <? SENDS then Ok true else if gone then Err PipeBroken else Ok false
  end.

(** [Writer::room], once around. *)
Definition room (head counter_ : Z) (s : Sends) : result LinkError Z :=
  match failed s with
  | Some status => Err (Status status)
  | None =>
      let read := wrap32 (head - counter_) in
      if RING <? read then Err NotWritten
      else Ok (Z.max 0 (RING - Z.max read (wrap32 (head - completed s))))
  end.

(** [Writer::write_some], from place to place: the writer, what it posts, and whether
    it took what the send queue finished. [fails]: the wait is too long. *)
Definition some_begin (w : Writer) (l : bytes) : Writer :=
  MkWriter (w_head w) (sends w) (staging w) (counter w) (w_gone w) (if w_gone w then SIdle (Some (Err PipeBroken)) else SLook l).
Definition some_step (fails : bool) (done_ : list Completion) (w : Writer) : Writer * option (Request * bytes) :=
  let 'MkWriter head s stage count gone at_ := w in
  match at_ with
  | SIdle _ => (w, None)
  | SLook l =>
      let s := reap done_ s in
      (MkWriter head s stage count gone
        match room head count s with
        | Err e => SIdle (Some (Err e))
        | Ok n => if 0 <? n then SCopy l n
                  else if gone then SIdle (Some (Err PipeBroken))
                  else if fails then SIdle (Some (Err WaitedTooLong)) else SLook l
        end, None)
  | SCopy l n =>
      let at_ := head mod RING in
      let n := Nat.min (Nat.min (Nat.min (Z.to_nat n) (length l)) (Z.to_nat (RING - at_))) (Z.to_nat CHUNK) in
      (MkWriter head s (poke stage at_ (take n l)) count gone (SPost (take n l)), None)
  | SPost l =>
      let s := reap done_ s in
      match post_ready s gone with
      | Err e => (MkWriter head s stage count gone (SIdle (Some (Err e))), None)
      | Ok false => (MkWriter head s stage count gone (SPost l), None)
      | Ok true =>
          let end_ := wrap32 (head + Z.of_nat (length l)) in
          (MkWriter end_ (MkSends (outstanding s + 1) (completed s) (failed s)) stage count gone (SIdle (Some (Ok (length l)))),
           Some (WriteOf (head mod RING) (length l) end_, l))
      end
  end.

(** ** The reader *)

(** A completion of the receive queue. *)
Inductive Received : Type := Landed (n : Z) | Flushed | Broken (status : Z) | NotOurs.

(** Where [fill] is: looking; arming; armed, before the last look; waiting for an
    event. *)
Inductive FillAt : Type := FIdle (last : option (result LinkError bool)) | FLook | FArm | FArmed | FWait.
Record Reader := MkReader {
  r_head : Z; r_tail : Z; told : Z; inbox : Memory;
  received : list Received; armed : bool; events : nat; side : bool; ended : bool; fill_at : FillAt }.

(** [Reader::held]. *)
Definition inbox_held (head tail : Z) : result LinkError Z :=
  let n := wrap32 (head - tail) in if RING <? n then Err WroteTooMuch else Ok n.

(** [Reader::drain]: batches of at most 16, each checked. *)
Definition drain_one (st : Z * bool * bool) (c : Received) : result LinkError (Z * bool * bool) :=
  let '(head, ended, landed) := st in
  match c with
  | Landed n => Ok (wrap32 (head + n), ended, true)
  | Flushed => Ok (head, true, landed)
  | Broken status => Err (Status status)
  | NotOurs => Err NotAWrite
  end.
Fixpoint drain_from (fuel : nat) (tail : Z) (st : Z * bool * bool) (l : list Received) : result LinkError (Z * bool * bool) :=
  match fuel, l with
  | O, _ | _, [] => Ok st
  | S fuel, _ =>
      st ← try_fold drain_one st (take 16 l);
      _ ← inbox_held st.1.1 tail;
      drain_from fuel tail st (drop 16 l)
  end.
Definition drain (r : Reader) : result LinkError (Z * bool * bool) :=
  drain_from (length (received r)) (r_tail r) (r_head r, ended r, false) (received r).

(** [Reader::fill], from place to place. [fails]: it polls no longer, or its wait is
    too long. *)
Definition fill_begin (r : Reader) : Reader :=
  MkReader (r_head r) (r_tail r) (told r) (inbox r) (received r) (armed r) (events r) (side r) (ended r) FLook.
Definition drained (r : Reader) (at_ : Reader -> FillAt) : Reader :=
  match drain r with
  | Err e => MkReader (r_head r) (r_tail r) (told r) (inbox r) [] (armed r) (events r) (side r) (ended r) (FIdle (Some (Err e)))
  | Ok (head, ended, landed) =>
      let r at_ := MkReader head (r_tail r) (told r) (inbox r) [] (armed r) (events r) (side r) ended at_ in
      r (if landed then FIdle (Some (Ok true)) else at_ (r FLook))
  end.
Definition fill_step (fails : bool) (r : Reader) : Reader :=
  let to at_ := MkReader (r_head r) (r_tail r) (told r) (inbox r) (received r) (armed r) (events r) (side r) (ended r) at_ in
  match fill_at r with
  | FIdle _ => r
  | FLook =>
      match inbox_held (r_head r) (r_tail r) with
      | Err e => to (FIdle (Some (Err e)))
      | Ok n =>
          if 0 <? n then to (FIdle (Some (Ok true)))
          else drained r (λ r, if ended r then FIdle (Some (Ok false)) else if fails then FArm else FLook)
      end
  | FArm => MkReader (r_head r) (r_tail r) (told r) (inbox r) (received r) true (events r) (side r) (ended r) FArmed
  | FArmed => drained r (λ _, if fails then FIdle (Some (Err WaitedTooLong)) else FWait)
  | FWait =>
      if fails then to (FIdle (Some (Err WaitedTooLong)))
      else if (events r =? 0)%nat && negb (side r) then r
      else MkReader (r_head r) (r_tail r) (told r) (inbox r) (received r) (armed r) (pred (events r)) (side r) (ended r || side r) FLook
  end.

(** [Reader::take]: the bytes, and the position to tell. *)
Definition take_ (r : Reader) (room_ : nat) : result LinkError (Reader * bytes * option Z) :=
  let at_ := r_tail r mod RING in
  held ← inbox_held (r_head r) (r_tail r);
  let n := Nat.min (Nat.min (Z.to_nat held) room_) (Z.to_nat (RING - at_)) in
  let tail := wrap32 (r_tail r + Z.of_nat n) in
  let tells := CREDIT_EVERY <=? wrap32 (tail - told r) in
  Ok (MkReader (r_head r) tail (if tells then tail else told r) (inbox r) (received r) (armed r) (events r) (side r) (ended r) (fill_at r),
      peeks (inbox r) at_ n, if tells then Some tail else None).

(** ** The link *)

(** Requests landed and not completed, completions not taken, positions told and not
    landed; whether a request failed, whether a position could not be told; every byte posted and every byte read. *)
Record Rdma := MkRdma {
  writer : Writer; reader : Reader;
  posted : list Request; landed : list Request; done_ : list Completion; credits : list Z; broken : bool; untold : bool;
  posted_bytes : bytes; read_bytes : bytes }.
Definition rdma_new : Rdma :=
  MkRdma (MkWriter 0 (MkSends 0 0 None) ∅ 0 false (SIdle None)) (MkReader 0 0 0 ∅ [] false 0 false false (FIdle None))
    [] [] [] [] false false [] [].

(** Something arrives in the receive queue: an event, if it is armed. *)
Definition arrives (r : Reader) (inbox_ : Memory) (c : Received) : Reader :=
  MkReader (r_head r) (r_tail r) (told r) inbox_ (received r ++ [c]) false (if armed r then S (events r) else events r) (side r) (ended r) (fill_at r).

(** The device lands the first request. *)
Definition land (s : Rdma) : Rdma :=
  match posted s with
  | [] => s
  | q :: rest =>
      let r := reader s in
      let r := match q with
               | WriteOf at_ n _ => arrives r (poke (inbox r) at_ (peeks (staging (writer s)) at_ n)) (Landed (Z.of_nat n))
               | Update => r
               end in
      MkRdma (writer s) r rest (landed s ++ [q]) (done_ s) (credits s) (broken s) (untold s) (posted_bytes s) (read_bytes s)
  end.
Definition set_writer (s : Rdma) (w : Writer) (takes : bool) : Rdma :=
  MkRdma w (reader s) (posted s) (landed s) (if takes then [] else done_ s) (credits s) (broken s) (untold s) (posted_bytes s) (read_bytes s).
Definition set_reader (s : Rdma) (r : Reader) : Rdma :=
  MkRdma (writer s) r (posted s) (landed s) (done_ s) (credits s) (broken s) (untold s) (posted_bytes s) (read_bytes s).

(** Whether a place of [write_some] takes what the send queue finished. *)
Definition reaps (at_ : SomeAt) : bool := match at_ with SLook _ | SPost _ => true | _ => false end.
Definition writer_steps (fails : bool) (s : Rdma) : Rdma :=
  let '(w, post) := some_step fails (done_ s) (writer s) in
  let s := set_writer s w (reaps (some_at (writer s))) in
  match post with
  | Some (q, l) => MkRdma w (reader s) (posted s ++ [q]) (landed s) (done_ s) (credits s) (broken s) (untold s) (posted_bytes s ++ l) (read_bytes s)
  | None => s
  end.
(** The other direction's reader, on the writer's side, tells its position. *)
Definition tells_other (s : Rdma) : Rdma :=
  let w := writer s in
  let sends_ := reap (done_ s) (sends w) in
  let ready := match post_ready sends_ (w_gone w) with Ok true => true | _ => false end in
  MkRdma (MkWriter (w_head w) (if ready then MkSends (outstanding sends_ + 1) (completed sends_) (failed sends_) else sends_)
            (staging w) (counter w) (w_gone w) (some_at w))
    (reader s) (if ready then posted s ++ [Update] else posted s) (landed s) [] (credits s) (broken s) (untold s) (posted_bytes s) (read_bytes s).
(** The reader takes up to so many bytes; [tells]: its position was posted. *)
Definition reader_takes (tells : bool) (room_ : nat) (s : Rdma) : Rdma :=
  match take_ (reader s) room_ with
  | Err _ => s
  | Ok (r, l, told) =>
      MkRdma (writer s) r (posted s) (landed s) (done_ s) (credits s ++ match told with Some p => if tells then [p] else [] | None => [] end)
        (broken s) (untold s || match told with Some _ => negb tells | None => false end) (posted_bytes s) (read_bytes s ++ l)
  end.

Inductive rdma_step : Rdma -> Rdma -> Prop :=
  | rdma_begins s l last : some_at (writer s) = SIdle last -> l <> [] -> rdma_step s (set_writer s (some_begin (writer s) l) false)
  | rdma_writes s fails : rdma_step s (writer_steps fails s)
  | rdma_tells s : rdma_step s (tells_other s)
  | rdma_lands s : broken s = false -> rdma_step s (land s)
  | rdma_completes s q rest : landed s = q :: rest ->
      rdma_step s (MkRdma (writer s) (reader s) (posted s) rest (done_ s ++ [MkCompletion 0 (id_of q)]) (credits s) (broken s) (untold s) (posted_bytes s) (read_bytes s))
  | rdma_fails s status : status <> 0 ->
      rdma_step s (MkRdma (writer s) (reader s) [] [] (done_ s ++ map (λ q, MkCompletion status (id_of q)) (landed s ++ posted s)) (credits s) true (untold s) (posted_bytes s) (read_bytes s))
  | rdma_told s p rest : credits s = p :: rest ->
      rdma_step s (MkRdma (MkWriter (w_head (writer s)) (sends (writer s)) (staging (writer s)) p (w_gone (writer s)) (some_at (writer s)))
        (reader s) (posted s) (landed s) (done_ s) rest (broken s) (untold s) (posted_bytes s) (read_bytes s))
  | rdma_gone s : rdma_step s (set_writer s (MkWriter (w_head (writer s)) (sends (writer s)) (staging (writer s)) (counter (writer s)) true (some_at (writer s))) false)
  | rdma_fills s last : fill_at (reader s) = FIdle last -> rdma_step s (set_reader s (fill_begin (reader s)))
  | rdma_waits s fails : rdma_step s (set_reader s (fill_step fails (reader s)))
  | rdma_takes s tells room_ last : fill_at (reader s) = FIdle last -> rdma_step s (reader_takes tells room_ s)
  | rdma_ends s : let r := reader s in
      rdma_step s (set_reader s (MkReader (r_head r) (r_tail r) (told r) (inbox r) (received r) (armed r) (events r) true (ended r) (fill_at r)))
  | rdma_flushes s : rdma_step s (set_reader s (arrives (reader s) (inbox (reader s)) Flushed)).
Definition rdma_reached (s : Rdma) : Prop := rtc rdma_step rdma_new s.
