(* ===== verification/RdmaLaws.v ===== *)
(** * What an RDMA link keeps

    What a side sets up with is read back as written. Whatever order the device lands,
    completes and tells in, the reader is given the bytes posted, in order; the writer
    stages over nothing a posted request will still read, and a request lands on
    nothing unread; the send queue is never overrun; and neither side waits for ever
    on the other. *)

From S2P Require Import Prelude Keys Stream ByteRing Rdma.

(** ** Setting up *)

Definition setup_valid (r : SetUp) : Prop :=
  0 <= qpn r < 2 ^ 32 /\ 0 <= psn r < 2 ^ 24 /\ length (gid r) = 16%nat /\ 1 <= mtu r <= 5 /\ 0 <= addr r < 2 ^ 64 /\ 0 <= rkey r < 2 ^ 32.

Lemma setup_decode_encode r : setup_valid r -> setup_decode (setup_encode r) = Ok r.
Proof.
  destruct r as [qpn psn gid mtu addr rkey]. unfold setup_valid. cbn [Rdma.qpn Rdma.psn Rdma.gid Rdma.mtu Rdma.addr Rdma.rkey].
  intros (H1 & H2 & H3 & H4 & H5 & H6). do 16 (destruct gid as [|? gid]; [done|]). destruct gid; [|done].
  unfold setup_decode. set (b := setup_encode _). cbv zeta.
  change (from_le_bytes (part b 44 4)) with (from_le_bytes (le32 RING)). change (from_le_bytes (part b 8 4)) with (from_le_bytes (le32 qpn)).
  change (from_le_bytes (part b 12 4)) with (from_le_bytes (le32 psn)). change (from_le_bytes (part b 40 4)) with (from_le_bytes (le32 rkey)).
  change (from_le_bytes (part b 32 8)) with (from_le_bytes (le64 addr)). change (nth 5 b 0) with mtu. change (nth 4 b 0) with VERSION.
  rewrite !from_le32, from_le64 by (first [done | lia]). change (part b 0 4) with MAGIC. rewrite bool_decide_eq_true_2, Z.eqb_refl by done. cbn [negb].
  rewrite (proj2 (Z.eqb_eq RING RING) eq_refl). cbn [negb]. destruct ((1 <=? mtu) && (mtu <=? 5)) eqn:Em; [|lia]. cbn [negb]. do 2 f_equal.
  change 16777215 with (Z.ones 24). rewrite Z.land_ones by lia. apply Z.mod_small. lia.
Qed.

Lemma part_bound b at_ n : Forall is_byte b -> (at_ + n <= length b)%nat -> 0 <= from_le_bytes (part b at_ n) < 256 ^ Z.of_nat n.
Proof.
  intros Hb Hn. assert (length (part b at_ n) = n) as El by (unfold part; rewrite length_take, length_drop; lia).
  pose proof (from_le_bound (part b at_ n)) as H. rewrite El in H. apply H. unfold part. by apply Forall_take, Forall_drop.
Qed.

Lemma setup_decode_valid b r : Forall is_byte b -> length b = 64%nat -> setup_decode b = Ok r -> setup_valid r.
Proof.
  intros Hb Hl. unfold setup_decode. cbv zeta. destruct (negb _); [done|]. destruct (negb _); [done|]. destruct (negb _); [done|].
  destruct ((1 <=? nth 5 b 0) && (nth 5 b 0 <=? 5)) eqn:Em; [|done]. cbn [negb]. intros [= <-].
  unfold setup_valid. cbn [Rdma.qpn Rdma.psn Rdma.gid Rdma.mtu Rdma.addr Rdma.rkey].
  pose proof (part_bound b 8 4 Hb). pose proof (part_bound b 32 8 Hb). pose proof (part_bound b 40 4 Hb).
  change 16777215 with (Z.ones 24). rewrite Z.land_ones by lia.
  pose proof (Z.mod_pos_bound (from_le_bytes (part b 12 4)) (2 ^ 24)).
  split_and!; try lia. unfold part. rewrite length_take, length_drop. lia.
Qed.

(** ** Numbers *)

Lemma ring_word : (RING | WORD).
Proof. exists 1024. by rewrite RING_value. Qed.
Lemma wrap32_mod p : wrap32 p mod RING = p mod RING.
Proof. apply counter_mod; [apply ring_word|done]. Qed.
Lemma wrap32_add p n : wrap32 (wrap32 p + n) = wrap32 (p + n).
Proof. unfold wrap32. by rewrite Z.add_mod_idemp_l. Qed.
Lemma wrap32_wrap32 p : wrap32 (wrap32 p) = wrap32 p.
Proof. unfold wrap32. by rewrite Z.mod_mod. Qed.
Lemma wrap32_sub h t : 0 <= h - t < WORD -> wrap32 (wrap32 h - wrap32 t) = h - t.
Proof. intros H. unfold wrap32. rewrite <- Zminus_mod. by apply Z.mod_small. Qed.
Lemma wrap32_bound p : 0 <= wrap32 p < WORD.
Proof. by apply Z.mod_pos_bound. Qed.
Lemma word_value : WORD = 4294967296.
Proof. done. Qed.
Lemma credit_every_value : CREDIT_EVERY = 1048576.
Proof. unfold CREDIT_EVERY. by rewrite RING_value. Qed.
#[global] Opaque WORD CREDIT CREDIT_EVERY.

Lemma id_of_write p : Z.land (wrap32 p) CREDIT = 0.
Proof.
  pose proof (wrap32_bound p). rewrite word_value in *. Local Transparent CREDIT. unfold CREDIT.
  apply Z.bits_inj'. intros i Hi. rewrite Z.land_spec, Z.bits_0, Z.shiftl_spec by done.
  destruct (decide (i = 63)) as [->|Hne].
  - rewrite (Z.bits_above_log2 (wrap32 p)); [done|lia|]. destruct (decide (wrap32 p = 0)) as [->|]; [done|].
    apply Z.log2_lt_pow2; lia.
  - destruct (Z.testbit (wrap32 p) i); [cbn|done]. destruct (decide (i < 63)); [apply Z.testbit_neg_r; lia|].
    apply Z.bits_above_log2; cbn; lia.
Qed.

(** ** Requests in the order posted *)

(** Writes that go on from one position to another. *)
Fixpoint covers (a : Z) (qs : list Request) (b : Z) : Prop :=
  match qs with
  | [] => a = b
  | Update :: qs => covers a qs b
  | WriteOf at_ n id :: qs => at_ = a mod RING /\ a mod RING + Z.of_nat n <= RING /\ (0 < n)%nat /\ id = wrap32 (a + Z.of_nat n) /\ covers (a + Z.of_nat n) qs b
  end.
(** Completions of such, all good. *)
Fixpoint finishes (a : Z) (cs : list Completion) (b : Z) : Prop :=
  match cs with
  | [] => a = b
  | c :: cs => c_status c = 0 /\ ((c_id c = CREDIT /\ finishes a cs b) \/ exists a', a <= a' /\ c_id c = wrap32 a' /\ finishes a' cs b)
  end.

Lemma covers_le a qs : forall b, covers a qs b -> a <= b.
Proof. revert a. induction qs as [|[at_ n id|] qs IH]; intros a b; cbn; [lia| |apply IH]. intros (_ & _ & Hn & _ & H). apply IH in H. lia. Qed.
Lemma finishes_le a cs : forall b, finishes a cs b -> a <= b.
Proof. revert a. induction cs as [|c cs IH]; intros a b; cbn; [lia|]. intros [_ [[_ H]|(a' & Ha & _ & H)]]; apply IH in H; lia. Qed.

Lemma covers_app a qs qs' : forall b, covers a (qs ++ qs') b <-> exists m, covers a qs m /\ covers m qs' b.
Proof.
  revert a. induction qs as [|[at_ n id|] qs IH]; intros a b; cbn [app covers].
  - split; [by exists a|by intros (m & -> & H)].
  - rewrite IH. naive_solver.
  - apply IH.
Qed.
Lemma finishes_app a cs cs' : forall b, finishes a (cs ++ cs') b <-> exists m, finishes a cs m /\ finishes m cs' b.
Proof.
  revert a. induction cs as [|c cs IH]; intros a b; cbn [app finishes].
  - split; [by exists a|by intros (m & -> & H)].
  - setoid_rewrite IH. naive_solver.
Qed.

Lemma reap_good cs : forall s c d, failed s = None -> completed s = wrap32 c -> finishes c cs d -> outstanding s >= Z.of_nat (length cs) ->
  reap cs s = MkSends (outstanding s - Z.of_nat (length cs)) (wrap32 d) None.
Proof.
  unfold reap. induction cs as [|x cs IH]; intros s c d Hf Hc Hd Ho; cbn [foldl length finishes] in *.
  - rewrite <- Hd, <- Hc, <- Hf, Z.sub_0_r. by destruct s.
  - destruct Hd as [Hst Hd]. destruct Hd as [[Hid Hd]|(a' & Ha & Hid & Hd)].
    + assert (reap_one s x = MkSends (outstanding s - 1) (wrap32 c) None) as ->.
      { unfold reap_one. rewrite Hst, Hid, Hf, Hc, Z.land_diag. cbn. f_equal. lia. }
      rewrite (IH _ c d); cbn; [f_equal; lia|done|done|done|lia].
    + assert (reap_one s x = MkSends (outstanding s - 1) (wrap32 a') None) as ->.
      { unfold reap_one. rewrite Hst, Hid, Hf, id_of_write, wrap32_wrap32. cbn. f_equal. lia. }
      rewrite (IH _ a' d); cbn; [f_equal; lia|done|done|done|lia].
Qed.

(** A failed request is not forgotten. *)
Definition dead (s : Sends) (cs : list Completion) : Prop := failed s <> None \/ Exists (λ c, c_status c <> 0) cs.
Lemma reap_dead cs : forall s, dead s cs -> failed (reap cs s) <> None.
Proof.
  unfold reap. induction cs as [|c cs IH]; intros s [H|H]; cbn [foldl]; try done; [by apply Exists_nil in H|..].
  - apply IH. left. unfold reap_one. destruct (negb _); [done|]. by destruct (_ =? 0).
  - apply IH. apply Exists_cons in H as [H|H]; [left|by right]. unfold reap_one. apply Z.eqb_neq in H. by rewrite H.
Qed.
Lemma reap_outstanding cs : forall s, outstanding s >= Z.of_nat (length cs) -> outstanding (reap cs s) = outstanding s - Z.of_nat (length cs).
Proof.
  unfold reap. induction cs as [|c cs IH]; intros s H; cbn [foldl length] in *; [lia|].
  assert (outstanding (reap_one s c) = outstanding s - 1) as E by (unfold reap_one; destruct (negb _); [cbn; lia|]; destruct (_ =? 0); cbn; lia).
  rewrite IH, E by lia. lia.
Qed.

(** ** What is landed and not drained *)

Definition landed_one (c : Received) : Z := match c with Landed n => n | _ => 0 end.
Definition arrived (l : list Received) : Z := foldr (λ c n, landed_one c + n) 0 l.
Definition received_one (c : Received) : Prop := match c with Landed n => 0 < n | Flushed => True | _ => False end.

Lemma arrived_app a b : arrived (a ++ b) = arrived a + arrived b.
Proof. unfold arrived. induction a as [|c a IH]; cbn; [lia|]. rewrite IH. lia. Qed.
Lemma arrived_pos l : Forall received_one l -> 0 <= arrived l.
Proof. unfold arrived. induction 1 as [|c l Hc _ IH]; [done|]. cbn. destruct c; cbn in *; try done; lia. Qed.

Lemma drain_batch l : forall h e b, Forall received_one l -> exists e' b',
  try_fold drain_one (wrap32 h, e, b) l = Ok (wrap32 (h + arrived l), e', b') /\ (b' = false -> b = false /\ arrived l = 0) /\ (b = true -> b' = true).
Proof.
  induction l as [|c l IH]; intros h e b H; [exists e, b; cbn; rewrite Z.add_0_r; auto|].
  apply Forall_cons in H as [Hc H]. destruct c as [n| | |]; try done; cbn [try_fold drain_one mbind result_bind].
  - rewrite wrap32_add. destruct (IH (h + n) e true H) as (e' & b' & E & H1 & H2). exists e', b'. rewrite <- Z.add_assoc in E. change (arrived (Landed n :: l)) with (n + arrived l).
    split; [exact E|]. split; [|auto]. intros Hb. specialize (H2 eq_refl). congruence.
  - destruct (IH h true b H) as (e' & b' & E & H1 & H2). exists e', b'. change (arrived (Flushed :: l)) with (0 + arrived l). rewrite Z.add_0_l. done.
Qed.

Lemma inbox_held_exact (h g : Z) : g <= h <= g + RING -> inbox_held (wrap32 h) (wrap32 g) = Ok (h - g).
Proof.
  intros H. unfold inbox_held. pose proof RING_value. pose proof word_value. rewrite wrap32_sub by lia. by destruct (Z.ltb_spec RING (h - g)); [lia|].
Qed.

Lemma drain_good fuel : forall l h g e b, (length l <= fuel)%nat -> Forall received_one l -> g <= h -> h + arrived l <= g + RING -> exists e' b',
  drain_from fuel (wrap32 g) (wrap32 h, e, b) l = Ok (wrap32 (h + arrived l), e', b') /\ (b' = false -> b = false /\ arrived l = 0) /\ (b = true -> b' = true).
Proof.
  induction fuel as [|fuel IH]; intros l h g e b Hf Hl Hg Hr.
  - destruct l; [|cbn in Hf; lia]. exists e, b. cbn. rewrite Z.add_0_r. auto.
  - destruct l as [|c l]; [exists e, b; cbn; rewrite Z.add_0_r; auto|]. cbn [drain_from].
    set (l' := c :: l) in *. pose proof (take_drop 16 l') as E. assert (arrived l' = arrived (take 16 l') + arrived (drop 16 l')) as Ea by by rewrite <- arrived_app, E.
    rewrite <- E in Hl. apply Forall_app in Hl as [H1 H2]. rewrite Ea in *. clear E Ea. pose proof (arrived_pos _ H1). pose proof (arrived_pos _ H2).
    destruct (drain_batch (take 16 l') h e b H1) as (e1 & b1 & E1 & A1 & B1). rewrite E1. cbn [mbind result_bind fst].
    rewrite inbox_held_exact by lia. cbn [mbind result_bind].
    destruct (IH (drop 16 l') (h + arrived (take 16 l')) g e1 b1) as (e2 & b2 & E2 & A2 & B2); [rewrite length_drop; cbn [length] in *; lia|done|lia|lia|].
    exists e2, b2. rewrite E2, Z.add_assoc. split; [done|]. split; [|auto]. intros Hb. destruct (A2 Hb) as [Hb1 ?]. destruct (A1 Hb1). split; [done|lia].
Qed.

(** ** The invariant *)

Definition posted_to (s : Rdma) : Z := Z.of_nat (length (posted_bytes s)).
Definition read_to (s : Rdma) : Z := Z.of_nat (length (read_bytes s)).

(** Positions on their way to the writer, up to the last one told. *)
Fixpoint chain (k : Z) (ks : list Z) (t : Z) (all : Prop) : Prop :=
  match ks with [] => k <= t /\ (all -> k = t) | x :: ks => k <= x /\ chain x ks t all end.

(** The writer's side: [k] the position it was told, [c] up to where its writes
    finished, [l] up to where they landed. *)
Definition live (s : Rdma) (c l : Z) : Prop :=
  failed (sends (writer s)) = None /\ completed (sends (writer s)) = wrap32 c /\
  (exists m, finishes c (done_ s) m /\ covers m (landed s) l) /\ covers l (posted s) (posted_to s) /\
  0 <= c /\ posted_to s <= c + RING /\ bytes_at (staging (writer s)) c (Z.to_nat (posted_to s - c)) = drop (Z.to_nat c) (posted_bytes s).
Definition some_ok (s : Rdma) (k c : Z) : Prop :=
  match some_at (writer s) with
  | SIdle last => last <> Some (Err NotWritten)
  | SLook l => l <> []
  | SCopy l n => l <> [] /\ 0 < n /\ posted_to s + n <= k + RING /\ posted_to s + n <= c + RING
  | SPost l => l <> [] /\ posted_to s mod RING + Z.of_nat (length l) <= RING /\ posted_to s + Z.of_nat (length l) <= k + RING /\
      posted_to s + Z.of_nat (length l) <= c + RING /\ bytes_at (staging (writer s)) (posted_to s) (length l) = l
  end.
Record writer_inv (s : Rdma) (k c l : Z) : Prop := {
  w_counter : counter (writer s) = wrap32 k;
  w_room : posted_to s <= k + RING;
  w_posted : w_head (writer s) = wrap32 (posted_to s);
  w_sends : outstanding (sends (writer s)) = Z.of_nat (length (posted s) + length (landed s) + length (done_ s));
  w_queue : outstanding (sends (writer s)) <= SENDS;
  w_live : live s c l \/ (dead (sends (writer s)) (done_ s) /\ posted s = [] /\ landed s = []);
  w_some : some_ok s k c;
}.

(** The reader's side. *)
Definition woken (r : Reader) : Prop := (0 < events r)%nat.
Definition fill_ok (s : Rdma) (l : Z) : Prop :=
  let r := reader s in
  match fill_at r with
  | FIdle last => forall e, last = Some (Err e) -> e = WaitedTooLong
  | FLook => True
  | FArm => l - arrived (received r) = read_to s
  | FArmed => l - arrived (received r) = read_to s /\ (armed r = true \/ woken r)
  | FWait => l - arrived (received r) = read_to s /\ ((received r = [] /\ armed r = true) \/ woken r)
  end.
Record reader_inv (s : Rdma) (t l : Z) : Prop := {
  r_told : told (reader s) = wrap32 t;
  r_telling : t <= read_to s < t + CREDIT_EVERY;
  r_read : r_tail (reader s) = wrap32 (read_to s);
  r_drained : r_head (reader s) = wrap32 (l - arrived (received (reader s)));
  r_range : read_to s <= l - arrived (received (reader s)) /\ l <= posted_to s;
  r_received : Forall received_one (received (reader s));
  r_bytes : take (Z.to_nat l) (posted_bytes s) = read_bytes s ++ bytes_at (inbox (reader s)) (read_to s) (Z.to_nat (l - read_to s));
  r_fill : fill_ok s l;
}.

Record rdma_inv (s : Rdma) (k t c l : Z) (ks : list Z) : Prop := {
  inv_writer : writer_inv s k c l;
  inv_reader : reader_inv s t l;
  inv_credits : credits s = map wrap32 ks;
  inv_chain : chain k ks t (untold s = false);
}.
Definition rdma_ok (s : Rdma) : Prop := exists k t c l ks, rdma_inv s k t c l ks.

Lemma chain_le k ks t all : chain k ks t all -> k <= t.
Proof. revert k. induction ks as [|x ks IH]; intros k; cbn; [lia|]. intros [H1 H2%IH]. lia. Qed.
Lemma credits_snoc k ks t t' (all all' : Prop) : chain k ks t all -> t <= t' -> (all' -> all) -> chain k (ks ++ [t']) t' all'.
Proof.
  revert k. induction ks as [|x ks IH]; intros k; cbn; [intros [H _] ? _; split; [lia|split; [lia|done]]|]. intros [H1 H2] ? Ha. split; [done|by apply IH].
Qed.
Lemma chain_later k ks t t' (all all' : Prop) : chain k ks t all -> t <= t' -> (all' -> all /\ t = t') -> chain k ks t' all'.
Proof.
  revert k. induction ks as [|x ks IH]; intros k; cbn; [intros [H1 H2] ? Ha; split; [lia|intros Hu; destruct (Ha Hu) as [Hx ?]; specialize (H2 Hx); lia]|].
  intros [H1 H2] ? Ha. split; [done|by apply IH].
Qed.

Lemma rdma_new_ok : rdma_ok rdma_new.
Proof.
  exists 0, 0, 0, 0, []. split; [split|split| |]; cbn; try done; try lia; try (pose proof RING_pos; lia).
  left. split_and!; try done. by exists 0.
Qed.

(** The reader's side says nothing of the writer's, and the other way round. *)
Lemma reader_inv_same s s' t l : reader s' = reader s -> posted_bytes s' = posted_bytes s -> read_bytes s' = read_bytes s ->
  reader_inv s t l -> reader_inv s' t l.
Proof.
  intros E1 E2 E3 []. unfold posted_to, read_to in *. split; unfold fill_ok, posted_to, read_to in *; rewrite ?E1, ?E2, ?E3; done.
Qed.
Lemma writer_inv_same s s' k c l : writer s' = writer s -> posted s' = posted s -> landed s' = landed s -> done_ s' = done_ s -> posted_bytes s' = posted_bytes s ->
  writer_inv s k c l -> writer_inv s' k c l.
Proof.
  intros E1 E2 E3 E4 E5 []. split; unfold live, some_ok, posted_to in *; rewrite ?E1, ?E2, ?E3, ?E4, ?E5; done.
Qed.

(** ** The writer's steps *)

(** The send queue's completions taken: the writer knows of them, or that one failed. *)
Lemma reap_live s k c l : writer_inv s k c l -> let sends_ := reap (done_ s) (sends (writer s)) in
  outstanding sends_ = Z.of_nat (length (posted s) + length (landed s)) /\
  ((exists m, c <= m /\ completed sends_ = wrap32 m /\ failed sends_ = None /\ covers m (landed s) l /\ covers l (posted s) (posted_to s) /\ 0 <= m /\
     bytes_at (staging (writer s)) m (Z.to_nat (posted_to s - m)) = drop (Z.to_nat m) (posted_bytes s)) \/
   (failed sends_ <> None /\ posted s = [] /\ landed s = [])).
Proof.
  intros [H1 H2 H3 H4 H5 H6 H7] sends_. split; [unfold sends_; rewrite reap_outstanding; lia|].
  destruct H6 as [(Hf & Hc & (m & Hfin & Hcov) & Hpost & H0 & Hroom & Hst)|(Hd & Hp & Hl)]; [left|right; split; [by apply reap_dead|done]].
  exists m. pose proof (finishes_le _ _ _ Hfin). pose proof (covers_le _ _ _ Hcov). pose proof (covers_le _ _ _ Hpost).
  unfold sends_. rewrite (reap_good _ _ c m) by (done || lia). split_and!; try done; [lia|].
  replace (Z.to_nat m) with (Z.to_nat c + Z.to_nat (m - c))%nat by lia. rewrite <- drop_drop, <- Hst.
  rewrite drop_bytes_at by lia. f_equal; lia.
Qed.

Lemma room_exact s k m : posted_to s <= k + RING -> k <= posted_to s -> m <= posted_to s <= m + RING -> w_head (writer s) = wrap32 (posted_to s) -> counter (writer s) = wrap32 k ->
  forall sends_, completed sends_ = wrap32 m -> failed sends_ = None ->
  room (w_head (writer s)) (counter (writer s)) sends_ = Ok (RING - Z.max (posted_to s - k) (posted_to s - m)).
Proof.
  intros H1 H2 H3 E1 E2 sends_ E3 E4. unfold room. rewrite E1, E2, E3, E4. pose proof RING_value. pose proof word_value.
  rewrite !wrap32_sub by lia. destruct (Z.ltb_spec RING (posted_to s - k)); [lia|]. f_equal. lia.
Qed.

Definition reaped (s : Rdma) (at_ : SomeAt) : Writer :=
  MkWriter (w_head (writer s)) (reap (done_ s) (sends (writer s))) (staging (writer s)) (counter (writer s)) (w_gone (writer s)) at_.

Lemma after_reap s k c l : writer_inv s k c l -> exists m, c <= m /\
  (forall at_, some_ok (set_writer s (reaped s at_) true) k m -> writer_inv (set_writer s (reaped s at_) true) k m l) /\
  (failed (reap (done_ s) (sends (writer s))) = None -> completed (reap (done_ s) (sends (writer s))) = wrap32 m /\
     m <= posted_to s <= m + RING /\ live (set_writer s (reaped s (SIdle None)) true) m l).
Proof.
  intros H. destruct (reap_live s k c l H) as [Ho Hl]. destruct H as [H1 H2 H3 H4 H5 H6 H7].
  assert (posted_to s <= c + RING \/ failed (reap (done_ s) (sends (writer s))) <> None) as Hroom.
  { destruct H6 as [(_ & _ & _ & _ & _ & H & _)|[Hd _]]; [by left|right; by apply reap_dead]. }
  destruct Hl as [(m & Hm & Ec & Ef & Hcov & Hpost & H0 & Hst)|(Hf & Hp & Hld)].
  - exists m. split; [done|]. destruct Hroom as [Hroom|]; [|done]. pose proof (covers_le _ _ _ Hcov). pose proof (covers_le _ _ _ Hpost).
    assert (forall at_, live (set_writer s (reaped s at_) true) m l) as Hlive.
    { intros at_. unfold live, set_writer, reaped, posted_to in *. cbn. split_and!; try done; [by exists m|lia]. }
    split; [|intros _; split_and!; [done|lia|lia|apply Hlive]]. intros at_ Hs.
    split; unfold posted_to in *; cbn; try done; [rewrite Ho; lia|lia|]. left. apply Hlive.
  - exists c. split; [done|]. split; [|done]. intros at_ Hs. split; unfold posted_to in *; cbn; try done; [rewrite Ho; lia|lia|].
    right. split_and!; [by left|done|done].
Qed.

Lemma told_behind s k t l ks c : rdma_inv s k t c l ks -> 0 <= read_to s /\ k <= t /\ t <= read_to s /\ read_to s <= l /\ l <= posted_to s.
Proof.
  intros [_ [] _ Hc]. apply chain_le in Hc. pose proof (arrived_pos _ r_received0).
  assert (0 <= read_to s) by (unfold read_to; lia). lia.
Qed.

Lemma write_looks_ok fails lst s : some_at (writer s) = SLook lst -> rdma_ok s -> rdma_ok (writer_steps fails s).
Proof.
  intros E (k & t & c & l & ks & H). pose proof (told_behind _ _ _ _ _ _ H) as Hb. destruct H as [Hw Hr Hcr Hch].
  destruct (after_reap s k c l Hw) as (m & Hm & Hgo & Hlive). exists k, t, m, l, ks.
  pose proof Hw as [H1 H2 H3 _ _ _ H7]. unfold some_ok in H7. rewrite E in H7.
  assert (forall at_, some_ok (set_writer s (reaped s at_) true) k m -> rdma_inv (set_writer s (reaped s at_) true) k t m l ks) as Hdone.
  { intros at_ Ha. split; [by apply Hgo|by eapply reader_inv_same; [..|exact Hr]|done|done]. }
  unfold writer_steps, some_step. destruct (writer s) as [head sends_ stage count gone at_] eqn:Ew. cbn in E, H1, H3 |- *. subst at_.
  cbn [reaps]. set (rs := reap (done_ s) sends_) in *.
  assert (forall at_, set_writer s (MkWriter head rs stage count gone at_) true = set_writer s (reaped s at_) true) as Heq by (intros at_; unfold reaped, rs; by rewrite Ew).
  destruct (failed rs) as [status|] eqn:Ef.
  - unfold room. rewrite Ef, Heq. by apply Hdone.
  - destruct (Hlive Ef) as (Ec & Hmr & _). pose proof (room_exact s k m H2) as Hx. rewrite Ew in Hx. cbn in Hx.
    rewrite Hx; [|lia|lia|done|done|done|done]. destruct (Z.ltb_spec 0 (RING - Z.max (posted_to s - k) (posted_to s - m))) as [Hpos|_].
    + rewrite Heq. apply Hdone. unfold some_ok. cbn. unfold posted_to in *. cbn. split_and!; [done|lia|lia|lia].
    + destruct gone; [rewrite Heq; by apply Hdone|]. destruct fails; rewrite Heq; by apply Hdone.
Qed.

Lemma write_copies_ok fails lst n s : some_at (writer s) = SCopy lst n -> rdma_ok s -> rdma_ok (writer_steps fails s).
Proof.
  intros E (k & t & c & l & ks & H). destruct H as [Hw Hr Hcr Hch]. exists k, t, c, l, ks.
  destruct Hw as [H1 H2 H3 H4 H5 H6 H7]. unfold some_ok in H7. rewrite E in H7. destruct H7 as (Hne & Hn & Hk & Hc).
  unfold writer_steps, some_step. destruct (writer s) as [head sends_ stage count gone at_] eqn:Ew. cbn in *. subst at_. cbn [reaps].
  set (j := Nat.min (Nat.min _ _) _). pose proof (ring_at (posted_to s)) as Hat. assert (head mod RING = posted_to s mod RING) as Eh by (rewrite H3; apply wrap32_mod).
  assert (0 < length lst)%nat as Hlen by (destruct lst; [done|cbn; lia]). assert (0 < CHUNK) as Hchunk by done. rewrite Eh in *.
  assert (0 < j)%nat as Hj by (unfold j; lia). assert (length (take j lst) = j) as El by (rewrite length_take; unfold j; lia).
  rewrite poke_span by (rewrite El; unfold j; lia).
  split; [|by eapply reader_inv_same; [..|exact Hr]|done|done]. split; try done.
  - destruct H6 as [(Hf & Hcm & Hfin & Hpost & H0 & Hroom & Hst)|Hd]; [left|by right]. unfold live in *. rewrite Ew in *. unfold posted_to in *. cbn in *. split_and!; try done.
    destruct Hfin as (m & Hfi & Hco). apply finishes_le in Hfi. apply covers_le in Hco, Hpost.
    rewrite bytes_at_put_before; [done|lia|rewrite El; unfold j; lia].
  - unfold some_ok, posted_to in *. cbn. rewrite El. split_and!; [intros Hx; rewrite Hx in El; cbn in El; lia|unfold j; lia|unfold j; lia|unfold j; lia|].
    rewrite <- El at 2. apply bytes_at_put_same. rewrite El. unfold j. lia.
Qed.

Lemma post_ready_true sends_ gone : post_ready sends_ gone = Ok true -> failed sends_ = None /\ outstanding sends_ < SENDS.
Proof. unfold post_ready. destruct (failed sends_); [done|]. destruct (Z.ltb_spec (outstanding sends_) SENDS); [done|by destruct gone]. Qed.

(** Posting more leaves what landed as it was. *)
Lemma reader_inv_posts s s' t l x : reader s' = reader s -> posted_bytes s' = posted_bytes s ++ x -> read_bytes s' = read_bytes s ->
  reader_inv s t l -> 0 <= l -> reader_inv s' t l.
Proof.
  intros E1 E2 E3 [] Hl. unfold posted_to, read_to in *. split; unfold fill_ok, posted_to, read_to in *; rewrite ?E1, ?E2, ?E3; try done.
  - rewrite length_app. lia.
  - rewrite take_app_le by lia. done.
Qed.

Lemma write_posts_ok fails lst s : some_at (writer s) = SPost lst -> rdma_ok s -> rdma_ok (writer_steps fails s).
Proof.
  intros E (k & t & c & l & ks & H). pose proof (told_behind _ _ _ _ _ _ H) as Hb. destruct H as [Hw Hr Hcr Hch].
  destruct (after_reap s k c l Hw) as (m & Hm & Hgo & Hlive). exists k, t, m, l, ks.
  destruct (reap_live s k c l Hw) as [Ho _].
  pose proof Hw as [H1 H2 H3 _ _ _ H7]. unfold some_ok in H7. rewrite E in H7. destruct H7 as (Hne & Hat & Hk & Hc & Hst).
  assert (forall at_, some_ok (set_writer s (reaped s at_) true) k m -> rdma_inv (set_writer s (reaped s at_) true) k t m l ks) as Hdone.
  { intros at_ Ha. split; [by apply Hgo|by eapply reader_inv_same; [..|exact Hr]|done|done]. }
  unfold writer_steps, some_step. destruct (writer s) as [head sends_ stage count gone at_] eqn:Ew. cbn in E, H1, H3, Hst |- *. subst at_.
  cbn [reaps]. set (rs := reap (done_ s) sends_) in *.
  assert (forall at_, set_writer s (MkWriter head rs stage count gone at_) true = set_writer s (reaped s at_) true) as Heq by (intros at_; unfold reaped, rs; by rewrite Ew).
  destruct (post_ready rs gone) as [[]|e] eqn:Ep.
  - apply post_ready_true in Ep as [Ef Eo]. destruct (Hlive Ef) as (Ec & Hmr & (_ & _ & (m' & Hfin & Hcov) & Hpost & H0 & Hroom & Hs')). cbn in Hfin. subst m'.
    cbn in Hpost, Hcov, Hs'. unfold reaped in Hs'. rewrite Ew in Hs'. cbn in Hs'. unfold posted_to in *. cbn in Hpost, Hs', Hroom.
    assert (0 < length lst)%nat as Hlen by (destruct lst; [done|cbn; lia]).
    split; [|by eapply reader_inv_posts; [..|exact Hr|lia]|done|done].
    split; unfold posted_to; cbn; rewrite ?length_app; try done; try (cbn; lia).
    + rewrite H3, wrap32_add. f_equal. lia.
    + cbn in Ho. fold rs in Ho. rewrite Ho. cbn. lia.
    + left. unfold live, posted_to. cbn. rewrite length_app. split_and!; [done|done|by exists m| |done|lia|].
      * apply covers_app. exists (Z.of_nat (length (posted_bytes s))). split; [done|]. cbn. rewrite H3, wrap32_mod, wrap32_add. split_and!; [done|done|done|done|lia].
      * rewrite drop_app_le by lia. rewrite <- Hs'.
        replace (Z.to_nat (_ - m)) with (Z.to_nat (Z.of_nat (length (posted_bytes s)) - m) + length lst)%nat by lia.
        rewrite bytes_at_app. f_equal. replace (m + _) with (Z.of_nat (length (posted_bytes s))) by lia. done.
  - rewrite Heq. apply Hdone. unfold some_ok, reaped. cbn. rewrite Ew. unfold posted_to in *. cbn. split_and!; try done. lia.
  - rewrite Heq. apply Hdone. unfold some_ok. cbn. unfold post_ready in Ep. destruct (failed rs); [naive_solver|]. destruct (_ <? _); [done|]. destruct gone; naive_solver.
Qed.

Lemma writer_steps_ok fails s : rdma_ok s -> rdma_ok (writer_steps fails s).
Proof.
  intros H. destruct (some_at (writer s)) as [last|l|l n|l] eqn:E.
  - unfold writer_steps, some_step. destruct (writer s) as [head sends_ stage count gone at_] eqn:Ew. cbn in E. subst at_. cbn [some_at reaps].
    destruct H as (k & t & c & l & ks & [Hw Hr Hcr Hch]). exists k, t, c, l, ks.
    split; [eapply writer_inv_same; [..|exact Hw]; done|by eapply reader_inv_same; [..|exact Hr]|done|done].
  - by eapply write_looks_ok.
  - by eapply write_copies_ok.
  - by eapply write_posts_ok.
Qed.

Lemma tells_other_ok s : rdma_ok s -> rdma_ok (tells_other s).
Proof.
  intros (k & t & c & l & ks & [Hw Hr Hcr Hch]). destruct (after_reap s k c l Hw) as (m & Hm & Hgo & Hlive). exists k, t, m, l, ks.
  destruct (reap_live s k c l Hw) as [Ho _]. specialize (Hgo (some_at (writer s))). supply Hgo.
  { destruct Hw as [_ _ _ _ _ _ H7]. unfold some_ok in *. cbn. destruct (some_at (writer s)); unfold posted_to in *; cbn; try done; destruct_and!; split_and!; try done; lia. }
  unfold tells_other. set (rs := reap _ _) in *.
  split; [|by eapply reader_inv_same; [..|exact Hr]|done|done].
  destruct (post_ready rs (w_gone (writer s))) as [[]|e] eqn:Ep; [|by eapply writer_inv_same; [..|exact Hgo]..].
  apply post_ready_true in Ep as [Ef Eo]. destruct Hgo as [G1 G2 G3 G4 G5 G6 G7]. split; try done; cbn.
  - rewrite length_app. cbn in *. fold rs in G4. cbn. lia.
  - fold rs. lia.
  - left. destruct G6 as [(L1 & L2 & L3 & L4 & L5 & L6 & L7)|[[Hx|Hx] _]]; [|by destruct Hx|by apply Exists_nil in Hx].
    unfold live. split_and!; try done. cbn. apply covers_app. exists (posted_to s). done.
Qed.

(** ** What the device does *)

Lemma some_ok_later s s' k c k' : some_at (writer s') = some_at (writer s) -> staging (writer s') = staging (writer s) -> posted_bytes s' = posted_bytes s ->
  k <= k' -> some_ok s k c -> some_ok s' k' c.
Proof. unfold some_ok, posted_to. intros -> -> -> Hk. destruct (some_at (writer s)); try done; intros H; destruct_and!; split_and!; try done; lia. Qed.

Lemma land_ok s : rdma_ok s -> rdma_ok (land s).
Proof.
  intros (k & t & c & l & ks & H). pose proof (told_behind _ _ _ _ _ _ H) as Hb. destruct H as [Hw Hr Hcr Hch]. unfold land. destruct (posted s) as [|q rest] eqn:Ep; [by exists k, t, c, l, ks|].
  destruct Hw as [H1 H2 H3 H4 H5 [(Hf & Hc & (m & Hfin & Hcov) & Hpost & H0 & Hroom & Hst)|(_ & H6 & _)] H7]; [|congruence].
  rewrite Ep in H4, Hpost. destruct q as [at_ n id|].
  - cbn in Hpost. destruct Hpost as (-> & Hat & Hn & -> & Hpost). pose proof (covers_le _ _ _ Hpost) as Hle. apply finishes_le in Hfin as Hcm. apply covers_le in Hcov as Hml.
    assert (bytes_at (staging (writer s)) l n = take n (drop (Z.to_nat l) (posted_bytes s))) as Ebytes.
    { replace (Z.to_nat l) with (Z.to_nat c + Z.to_nat (l - c))%nat by lia. rewrite <- drop_drop, <- Hst, drop_bytes_at by lia.
      rewrite take_bytes_at by lia. f_equal. lia. }
    exists k, t, c, (l + Z.of_nat n), ks. rewrite peeks_span by done. rewrite poke_span by by rewrite bytes_at_length.
    split; [|destruct Hr as [R1 R2 R3 R4 R5 R6 R7 R8]|done|done].
    + split; try done; [cbn in *; rewrite length_app; cbn; lia|]. left. split_and!; try done. exists m. split; [done|]. apply covers_app. exists l. split; [done|]. cbn. done.
    + split; unfold posted_to, read_to in *; cbn; try done.
      * rewrite arrived_app. cbn. rewrite R4. f_equal. lia.
      * rewrite arrived_app. cbn. lia.
      * apply Forall_app. split; [done|]. constructor; [cbn; lia|constructor].
      * replace (Z.to_nat (l + Z.of_nat n)) with (Z.to_nat l + n)%nat by lia.
        replace (Z.to_nat (l + Z.of_nat n - _)) with (Z.to_nat (l - Z.of_nat (length (read_bytes s))) + n)%nat by lia.
        rewrite bytes_at_app, bytes_at_put_before by (rewrite ?bytes_at_length; lia). rewrite app_assoc, <- R7.
        replace (_ + Z.of_nat (Z.to_nat _)) with l by lia. rewrite <- (bytes_at_length (staging (writer s)) n l) at 3.
        rewrite bytes_at_put_same by (rewrite bytes_at_length; lia). rewrite Ebytes, <- take_take_drop. done.
      * unfold fill_ok, woken, read_to in *. cbn. rewrite arrived_app. cbn. destruct (fill_at (reader s)); try done; [lia|..].
        -- destruct R8 as [? R8]. split; [lia|]. right. destruct (armed (reader s)); [lia|]. destruct R8; [done|lia].
        -- destruct R8 as [? R8]. split; [lia|]. right. destruct (armed (reader s)); [lia|]. destruct R8 as [[_ ?]|]; [done|lia].
  - exists k, t, c, l, ks. cbn in Hpost. split; [|by eapply reader_inv_same; [..|exact Hr]|done|done].
    split; try done; [cbn in *; rewrite length_app; cbn; lia|]. left. split_and!; try done. exists m. split; [done|]. apply covers_app. by exists l.
Qed.

Lemma completes_ok s q rest : landed s = q :: rest -> rdma_ok s ->
  rdma_ok (MkRdma (writer s) (reader s) (posted s) rest (done_ s ++ [MkCompletion 0 (id_of q)]) (credits s) (broken s) (untold s) (posted_bytes s) (read_bytes s)).
Proof.
  intros E (k & t & c & l & ks & [Hw Hr Hcr Hch]). exists k, t, c, l, ks.
  destruct Hw as [H1 H2 H3 H4 H5 [(Hf & Hc & (m & Hfin & Hcov) & L4 & L5 & L6 & L7)|(_ & _ & H6)] H7]; [|congruence].
  split; [|by eapply reader_inv_same; [..|exact Hr]|done|done]. split; try done; [cbn; rewrite length_app, E in *; cbn in *; lia|].
  left. split_and!; try done. rewrite E in Hcov. cbn. destruct q as [at_ n id|]; cbn in Hcov.
  - destruct Hcov as (_ & _ & Hn & -> & Hcov). exists (m + Z.of_nat n). split; [|done]. apply finishes_app. exists m. split; [done|]. cbn.
    split; [done|]. right. exists (m + Z.of_nat n). split_and!; [lia|done|done].
  - exists m. split; [|done]. apply finishes_app. exists m. split; [done|]. cbn. split; [done|]. by left.
Qed.

Lemma fails_ok s status : status <> 0 -> rdma_ok s ->
  rdma_ok (MkRdma (writer s) (reader s) [] [] (done_ s ++ map (λ q, MkCompletion status (id_of q)) (landed s ++ posted s)) (credits s) true (untold s) (posted_bytes s) (read_bytes s)).
Proof.
  intros Hst (k & t & c & l & ks & [Hw Hr Hcr Hch]). exists k, t, c, l, ks.
  destruct Hw as [H1 H2 H3 H4 H5 H6 H7]. split; [|by eapply reader_inv_same; [..|exact Hr]|done|done].
  split; try done; [cbn; rewrite length_app, length_map, length_app, H4; lia|]. destruct (landed s ++ posted s) as [|q qs] eqn:E.
  - apply app_eq_nil in E as [E1 E2]. cbn. destruct H6 as [(L1 & L2 & (m & L3 & L4) & L5 & L6 & L7 & L8)|(Hd & _ & _)].
    + left. rewrite E1 in L4. rewrite E2 in L5. split_and!; try done. exists m. cbn. by rewrite app_nil_r.
    + right. cbn. rewrite app_nil_r. done.
  - right. split_and!; try done. right. apply Exists_app. right. cbn. by left.
Qed.

Lemma told_ok s p rest : credits s = p :: rest -> rdma_ok s ->
  rdma_ok (MkRdma (MkWriter (w_head (writer s)) (sends (writer s)) (staging (writer s)) p (w_gone (writer s)) (some_at (writer s)))
    (reader s) (posted s) (landed s) (done_ s) rest (broken s) (untold s) (posted_bytes s) (read_bytes s)).
Proof.
  intros E (k & t & c & l & ks & [Hw Hr Hcr Hch]). rewrite E in Hcr. destruct ks as [|x ks]; [done|]. cbn in Hcr. injection Hcr as -> ->.
  destruct Hch as [Hk Hch]. exists x, t, c, l, ks. destruct Hw as [H1 H2 H3 H4 H5 H6 H7].
  split; [|by eapply reader_inv_same; [..|exact Hr]|done|done]. split; try done; [unfold posted_to in *; cbn; lia|]. by eapply some_ok_later; [..|exact H7].
Qed.

(** ** The reader's steps *)

Lemma set_reader_ok s r : rdma_ok s -> (forall t l, l <= read_to s + RING -> reader_inv s t l -> reader_inv (set_reader s r) t l) -> rdma_ok (set_reader s r).
Proof.
  intros (k & t & c & l & ks & H0) H. pose proof (told_behind _ _ _ _ _ _ H0) as Hb. destruct H0 as [Hw Hr Hcr Hch].
  exists k, t, c, l, ks. split; [by eapply writer_inv_same; [..|exact Hw]|apply H; [|done]|done|done]. pose proof (w_room _ _ _ _ Hw). lia.
Qed.

(** Only the place of [fill], and what wakes it, changed. *)
Lemma reader_inv_at s r t l : reader_inv s t l ->
  told r = told (reader s) -> r_tail r = r_tail (reader s) -> r_head r = r_head (reader s) -> received r = received (reader s) -> inbox r = inbox (reader s) ->
  fill_ok (set_reader s r) l -> reader_inv (set_reader s r) t l.
Proof. intros [] E1 E2 E3 E4 E5 Hf. unfold posted_to, read_to in *. split; unfold posted_to, read_to; cbn; rewrite ?E1, ?E2, ?E3, ?E4, ?E5; done. Qed.

Lemma drained_shape s t l (at_ : Reader -> FillAt) : reader_inv s t l -> l <= read_to s + RING -> exists e (b : bool),
  let r at_ := MkReader (wrap32 l) (r_tail (reader s)) (told (reader s)) (inbox (reader s)) [] (armed (reader s)) (events (reader s)) (side (reader s)) e at_ in
  drained (reader s) at_ = r (if b then FIdle (Some (Ok true)) else at_ (r FLook)) /\ (b = false -> arrived (received (reader s)) = 0) /\
  (forall x, fill_ok (set_reader s (r x)) l -> reader_inv (set_reader s (r x)) t l).
Proof.
  intros [R1 R2 R3 R4 R5 R6 R7 R8] Hl. unfold drained, drain. rewrite R3, R4. pose proof (arrived_pos _ R6).
  destruct (drain_good (length (received (reader s))) (received (reader s)) (l - arrived (received (reader s))) (read_to s) (ended (reader s)) false) as (e & b & E & Hb & _); [done|done|lia|lia|].
  rewrite E. replace (l - arrived (received (reader s)) + arrived (received (reader s))) with l by lia.
  exists e, b. split; [done|]. split; [intros ->; by apply Hb|]. intros x Hx. unfold posted_to, read_to in *.
  split; unfold posted_to, read_to; cbn; try done; [f_equal; lia|lia].
Qed.

Lemma fill_step_ok fails s : rdma_ok s -> rdma_ok (set_reader s (fill_step fails (reader s))).
Proof.
  intros H. apply set_reader_ok; [done|]. intros t l Hl Hr. pose proof Hr as [R1 R2 R3 R4 R5 R6 R7 R8]. unfold fill_ok in R8.
  unfold fill_step. destruct (fill_at (reader s)) as [last| | | |] eqn:Ef.
  - apply reader_inv_at; try done. unfold fill_ok. cbn. by rewrite Ef.
  - rewrite R3, R4, inbox_held_exact by (pose proof (arrived_pos _ R6); lia).
    destruct (Z.ltb_spec 0 (l - arrived (received (reader s)) - read_to s)) as [?|Hz]; [by apply reader_inv_at|].
    destruct (drained_shape s t l (λ r, if ended r then FIdle (Some (Ok false)) else if fails then FArm else FLook) Hr Hl) as (e & b & -> & Hb & Hgo).
    apply Hgo. unfold fill_ok. cbn. destruct b; [done|]. destruct e; [done|]. destruct fails; [|done]. rewrite (Hb eq_refl) in *. unfold read_to in *. cbn. lia.
  - apply reader_inv_at; try done. unfold fill_ok. cbn. split; [done|by left].
  - destruct (drained_shape s t l (λ _, if fails then FIdle (Some (Err WaitedTooLong)) else FWait) Hr Hl) as (e & b & -> & Hb & Hgo).
    apply Hgo. unfold fill_ok. cbn. destruct b; [done|]. destruct fails; [naive_solver|]. rewrite (Hb eq_refl) in *. unfold read_to, woken in *. cbn.
    destruct R8 as [? [?|?]]; split; try lia; auto.
  - destruct fails; [apply reader_inv_at; try done; unfold fill_ok; cbn; naive_solver|]. destruct (_ && _).
    + apply reader_inv_at; try done. unfold fill_ok. cbn. by rewrite Ef.
    + by apply reader_inv_at.
Qed.

#[local] Arguments arrived : simpl never.
Lemma takes_ok s tells room_ last : fill_at (reader s) = FIdle last -> rdma_ok s -> rdma_ok (reader_takes tells room_ s).
Proof.
  intros Ef (k & t & c & l & ks & H0). pose proof (told_behind _ _ _ _ _ _ H0) as Hb. destruct H0 as [Hw Hr Hcr Hch].
  pose proof (w_room _ _ _ _ Hw) as Hroom. pose proof Hr as [R1 R2 R3 R4 R5 R6 R7 R8]. pose proof (arrived_pos _ R6) as Ha.
  unfold reader_takes, take_. rewrite R3, R4, inbox_held_exact by lia. cbn [mbind result_bind]. rewrite wrap32_mod.
  set (n := Nat.min (Nat.min _ _) _). pose proof (ring_at (read_to s)) as Hat. rewrite peeks_span by (unfold n; lia).
  assert (Z.of_nat n <= l - arrived (received (reader s)) - read_to s) as Hn by (unfold n; lia).
  pose proof RING_value. pose proof word_value. pose proof credit_every_value.
  rewrite wrap32_add, R1, wrap32_sub by lia.
  assert (forall tt, read_to s + Z.of_nat n - CREDIT_EVERY < tt <= read_to s + Z.of_nat n -> forall u cs,
    reader_inv (MkRdma (writer s) (MkReader (wrap32 (l - arrived (received (reader s)))) (wrap32 (read_to s + Z.of_nat n)) (wrap32 tt) (inbox (reader s)) (received (reader s))
      (armed (reader s)) (events (reader s)) (side (reader s)) (ended (reader s)) (fill_at (reader s))) (posted s) (landed s) (done_ s) cs (broken s) u (posted_bytes s) (read_bytes s ++ bytes_at (inbox (reader s)) (read_to s) n)) tt l) as Hread.
  { intros tt Htt u cs. unfold posted_to, read_to in *. split; unfold posted_to, read_to; cbn; rewrite ?length_app, ?bytes_at_length; try done; [lia|f_equal; lia|lia|..].
    - rewrite R7, <- app_assoc. f_equal.
      replace (Z.to_nat (l - Z.of_nat (length (read_bytes s)))) with (n + Z.to_nat (l - Z.of_nat (length (read_bytes s) + n)))%nat by lia.
      rewrite bytes_at_app. do 2 f_equal. lia.
    - unfold fill_ok in *. cbn. by rewrite Ef in *. }
  destruct (Z.leb_spec CREDIT_EVERY (read_to s + Z.of_nat n - t)) as [Htell|Hno].
  - exists k, (read_to s + Z.of_nat n), c, l. destruct tells; [exists (ks ++ [read_to s + Z.of_nat n])|exists ks].
    + split; [by eapply writer_inv_same; [..|exact Hw]|apply Hread; lia|cbn; rewrite Hcr, map_app; done|].
      cbn. eapply credits_snoc; [exact Hch|lia|]. by rewrite orb_false_r.
    + split; [by eapply writer_inv_same; [..|exact Hw]|apply Hread; lia|cbn; by rewrite app_nil_r|].
      cbn. eapply chain_later; [exact Hch|lia|]. by rewrite orb_true_r.
  - exists k, t, c, l, ks. split; [by eapply writer_inv_same; [..|exact Hw]|apply Hread; lia|cbn; by rewrite app_nil_r|]. cbn. by rewrite orb_false_r.
Qed.

Lemma rdma_begins_ok s l last : some_at (writer s) = SIdle last -> l <> [] -> rdma_ok s -> rdma_ok (set_writer s (some_begin (writer s) l) false).
Proof.
  intros E Hl (k & t & c & l' & ks & [[H1 H2 H3 H4 H5 H6 H7] Hr Hcr Hch]). exists k, t, c, l', ks.
  split; [|by eapply reader_inv_same; [..|exact Hr]|done|done]. split; try done. unfold some_ok. cbn. by destruct (w_gone (writer s)).
Qed.
Lemma gone_ok s : rdma_ok s -> rdma_ok (set_writer s (MkWriter (w_head (writer s)) (sends (writer s)) (staging (writer s)) (counter (writer s)) true (some_at (writer s))) false).
Proof.
  intros (k & t & c & l' & ks & [[H1 H2 H3 H4 H5 H6 H7] Hr Hcr Hch]). exists k, t, c, l', ks.
  split; [|by eapply reader_inv_same; [..|exact Hr]|done|done]. by split.
Qed.
Lemma flushes_ok s : rdma_ok s -> rdma_ok (set_reader s (arrives (reader s) (inbox (reader s)) Flushed)).
Proof.
  intros H. apply set_reader_ok; [done|]. intros t l Hl [R1 R2 R3 R4 R5 R6 R7 R8].
  assert (arrived (received (reader s) ++ [Flushed]) = arrived (received (reader s))) as Ea by (rewrite arrived_app; unfold arrived; cbn; lia).
  unfold posted_to, read_to in *. split; unfold posted_to, read_to; cbn; rewrite ?Ea; try done; [apply Forall_app; split; [done|by constructor]|].
  unfold fill_ok, woken, read_to in *. cbn. rewrite Ea. destruct (fill_at (reader s)); try done.
  - destruct R8 as [? R8]. split; [done|]. right. destruct (armed (reader s)); [lia|]. destruct R8; [done|lia].
  - destruct R8 as [? R8]. split; [done|]. right. destruct (armed (reader s)); [lia|]. destruct R8 as [[_ ?]|]; [done|lia].
Qed.

Lemma rdma_step_ok s s' : rdma_step s s' -> rdma_ok s -> rdma_ok s'.
Proof.
  destruct 1 as [s l last E Hl|s fails|s|s Hb|s q rest E|s status E|s p rest E|s|s last E|s fails|s tells n last E|s r|s]; intros H.
  - by eapply rdma_begins_ok.
  - by apply writer_steps_ok.
  - by apply tells_other_ok.
  - by apply land_ok.
  - by eapply completes_ok.
  - by apply fails_ok.
  - by eapply told_ok.
  - by apply gone_ok.
  - apply set_reader_ok; [done|]. intros t l Hl Hr. by apply reader_inv_at.
  - by apply fill_step_ok.
  - by eapply takes_ok.
  - apply set_reader_ok; [done|]. intros t l Hl Hr. apply reader_inv_at; try done. apply (r_fill _ _ _ Hr).
  - by apply flushes_ok.
Qed.

Lemma rdma_reached_ok s : rdma_reached s -> rdma_ok s.
Proof.
  unfold rdma_reached. intros H. pose proof rdma_new_ok as H0. revert H0. induction H as [s|s1 s2 s3 Hs _ IH]; [done|].
  intros H. apply IH. by eapply rdma_step_ok.
Qed.

Lemma covers_elem qs : forall a b at_ n id, covers a qs b -> WriteOf at_ n id ∈ qs -> exists p, a <= p /\ p + Z.of_nat n <= b /\ at_ = p mod RING /\ p mod RING + Z.of_nat n <= RING.
Proof.
  induction qs as [|[at' n' id'|] qs IH]; intros a b at_ n id H Hin; [by apply elem_of_nil in Hin|..]; cbn in H.
  - destruct H as (-> & Hat & Hn & -> & H). pose proof (covers_le _ _ _ H). apply elem_of_cons in Hin as [[= -> -> ->]|Hin]; [by exists a|].
    destruct (IH _ _ _ _ _ H Hin) as (p & ? & ? & ? & ?). exists p. split_and!; [lia|done|done|done].
  - apply elem_of_cons in Hin as [?|Hin]; [done|]. by eapply IH.
Qed.

(** Two positions less than a ring apart are one place only if they are one. *)
Lemma apart p q : q < p < q + RING -> p mod RING <> q mod RING.
Proof.
  intros H E. assert ((p - q) mod RING = 0) as Hz by (rewrite Zminus_mod, E, Z.sub_diag; apply Z.mod_0_l; pose proof RING_pos; lia).
  rewrite Z.mod_small in Hz by lia. lia.
Qed.
Lemma place p i : 0 <= i -> p mod RING + i < RING -> p mod RING + i = (p + i) mod RING.
Proof. intros H1 H2. pose proof (ring_at p). rewrite <- Z.add_mod_idemp_l by (pose proof RING_pos; lia). symmetry. apply Z.mod_small. lia. Qed.

(** ** A link in numbers *)

(** Three bytes are posted, land and are read while the reader waits for them. *)
Definition demo_waiting : Rdma :=
  let fills s := set_reader s (fill_step true (reader s)) in
  let s := set_reader rdma_new (fill_begin (reader rdma_new)) in
  let s := fills (fills s) in set_reader s (fill_step false (reader s)).
Definition demo_posted : Rdma := Nat.iter 3 (writer_steps false) (set_writer demo_waiting (some_begin (writer demo_waiting) [7; 8; 9]) false).
Definition demo_copying : Rdma :=
  Nat.iter 1 (writer_steps false) (set_writer demo_posted (some_begin (writer demo_posted) [5]) false).
Lemma demo_waiting_reached : rdma_reached demo_waiting.
Proof.
  unfold rdma_reached, demo_waiting. cbv zeta. eapply rtc_r; [|apply rdma_waits]. eapply rtc_r; [|apply rdma_waits]. eapply rtc_r; [|apply rdma_waits].
  eapply rtc_r; [apply rtc_refl|]. by eapply rdma_fills.
Defined.
Lemma writes_reached n s : rdma_reached s -> rdma_reached (Nat.iter n (writer_steps false) s).
Proof. intros H. induction n as [|n IH]; [done|]. eapply rtc_r; [exact IH|apply rdma_writes]. Defined.
Lemma begin_reached s l last : some_at (writer s) = SIdle last -> l <> [] -> rdma_reached s -> rdma_reached (set_writer s (some_begin (writer s) l) false).
Proof. intros E Hl H. eapply rtc_r; [exact H|by eapply rdma_begins]. Defined.
Lemma demo_posted_reached : rdma_reached demo_posted.
Proof. apply writes_reached. eapply begin_reached; [vm_compute; reflexivity|done|apply demo_waiting_reached]. Defined.
Lemma demo_copying_reached : rdma_reached demo_copying.
Proof. apply writes_reached. eapply begin_reached; [vm_compute; reflexivity|done|apply demo_posted_reached]. Defined.

(** ** Properties *)

(** A side's record is read back as written, and whatever is read is one a side could
    have written. *)
Theorem setup_roundtrip r b : (setup_valid r -> setup_decode (setup_encode r) = Ok r) /\
  (Forall is_byte b -> length b = 64%nat -> setup_decode b = Ok r -> setup_valid r).
Proof. split; [apply setup_decode_encode|apply setup_decode_valid]. Qed.

(** C28: what is read is, in order, what was posted, never more than a ring behind; neither
    side is told a position the other could not have; and the send queue never holds
    more requests than it has room for. *)
Theorem rdma_in_order s : rdma_reached s ->
  read_bytes s `prefix_of` posted_bytes s /\ Z.of_nat (length (posted_bytes s)) <= Z.of_nat (length (read_bytes s)) + RING /\
  some_at (writer s) <> SIdle (Some (Err NotWritten)) /\ (forall e, fill_at (reader s) = FIdle (Some (Err e)) -> e = WaitedTooLong) /\
  Z.of_nat (length (posted s) + length (landed s) + length (done_ s)) <= SENDS.
Proof.
  intros (k & t & c & l & ks & H)%rdma_reached_ok. pose proof (told_behind _ _ _ _ _ _ H) as Hb. destruct H as [[H1 H2 H3 H4 H5 H6 H7] [R1 R2 R3 R4 R5 R6 R7 R8] _ _].
  unfold posted_to, read_to in *. split_and!.
  - exists (bytes_at (inbox (reader s)) (Z.of_nat (length (read_bytes s))) (Z.to_nat (l - Z.of_nat (length (read_bytes s)))) ++ drop (Z.to_nat l) (posted_bytes s)).
    by rewrite app_assoc, <- R7, take_drop.
  - lia.
  - intros E. unfold some_ok in H7. by rewrite E in H7.
  - intros e E. unfold fill_ok in R8. rewrite E in R8. by apply R8.
  - lia.
Qed.

Lemma rdma_in_order_witness : read_bytes (reader_takes true 8 (set_reader (land demo_posted) (fill_step false (fill_step false (reader (land demo_posted)))))) `prefix_of` [7; 8; 9].
Proof.
  set (s := reader_takes true 8 _). assert (rdma_reached s) as H.
  { assert (rdma_reached (land demo_posted)) as H1 by (eapply rtc_r; [apply demo_posted_reached|]; apply rdma_lands; vm_compute; reflexivity).
    assert (rdma_reached (set_reader (land demo_posted) (fill_step false (reader (land demo_posted))))) as H2 by (eapply rtc_r; [exact H1|apply rdma_waits]).
    eapply rtc_r; [eapply rtc_r; [exact H2|apply (rdma_waits _ false)]|]. eapply (rdma_takes _ true 8). vm_compute. reflexivity. }
  assert (posted_bytes s = [7; 8; 9]) as <- by (vm_compute; reflexivity). exact (proj1 (rdma_in_order s H)).
Defined.

(** A request not landed reads staged bytes no copy goes over, and will land on bytes
    the reader has taken. *)
Theorem nothing_is_overwritten s at_ n id : rdma_reached s -> WriteOf at_ n id ∈ posted s ->
  (forall l room_ i j, some_at (writer s) = SCopy l room_ -> 0 <= i < Z.of_nat n -> 0 <= j < room_ -> at_ + i <> (w_head (writer s) + j) mod RING) /\
  (forall i j, 0 <= i < Z.of_nat n -> 0 <= j < wrap32 (r_head (reader s) - r_tail (reader s)) + arrived (received (reader s)) -> at_ + i <> (r_tail (reader s) + j) mod RING).
Proof.
  intros (k & t & c & l & ks & H)%rdma_reached_ok Hin. pose proof (told_behind _ _ _ _ _ _ H) as Hb. destruct H as [[H1 H2 H3 H4 H5 H6 H7] [R1 R2 R3 R4 R5 R6 R7 R8] _ _].
  pose proof (arrived_pos _ R6). destruct H6 as [(Hf & Hc & (m & Hfin & Hcov) & Hpost & H0 & Hroom & Hst)|(_ & Hn & _)]; [|rewrite Hn in Hin; by apply elem_of_nil in Hin].
  destruct (covers_elem _ _ _ _ _ _ Hpost Hin) as (p & Hp1 & Hp2 & -> & Hp3). apply finishes_le in Hfin. apply covers_le in Hcov. pose proof RING_value. pose proof word_value.
  split.
  - intros lst room_ i j E Hi Hj Heq. unfold some_ok in H7. rewrite E in H7. destruct H7 as (_ & Hn & Hk & Hc').
    rewrite place in Heq by lia. rewrite H3, <- (wrap32_mod (wrap32 _ + j)), wrap32_add, wrap32_mod in Heq. by apply (apart (posted_to s + j) (p + i)); [lia|].
  - intros i j Hi Hj Heq. rewrite R3, R4, wrap32_sub in Hj by lia.
    rewrite place in Heq by lia. rewrite R3, <- (wrap32_mod (wrap32 _ + j)), wrap32_add, wrap32_mod in Heq. by apply (apart (p + i) (read_to s + j)); [lia|].
Qed.

Lemma nothing_is_overwritten_witness : posted demo_copying = [WriteOf 0 3 3] /\ 2 <> (w_head (writer demo_copying) + 0) mod RING.
Proof.
  assert (posted demo_copying = [WriteOf 0 3 3]) as E by (vm_compute; reflexivity). split; [exact E|].
  assert (WriteOf 0 3 3 ∈ posted demo_copying) as Hin by (rewrite E; by left).
  refine (proj1 (nothing_is_overwritten demo_copying 0 3 3 demo_copying_reached Hin) [5] 4194301 2 0 _ _ _); [vm_compute; reflexivity|lia|lia].
Defined.

(** C29: a reader that waits has missed no completion; and once what is between the two
    sides has arrived, a reader waiting for bytes has told enough that the writer,
    waiting for room, has it. *)
Theorem neither_side_waits_for_ever s : rdma_reached s -> fill_at (reader s) = FWait -> fill_step false (reader s) = reader s ->
  received (reader s) = [] /\
  (posted s = [] -> landed s = [] -> credits s = [] -> untold s = false -> forall l, some_at (writer s) = SLook l ->
   some_at (writer (writer_steps false s)) <> SLook l).
Proof.
  intros (k & t & c & l & ks & H)%rdma_reached_ok Ef Est. pose proof (told_behind _ _ _ _ _ _ H) as Hb.
  destruct H as [Hw [R1 R2 R3 R4 R5 R6 R7 R8] Hcr Hch]. unfold fill_ok in R8. rewrite Ef in R8. destruct R8 as [Hl Hwake].
  assert (events (reader s) = 0%nat) as Ee.
  { unfold fill_step in Est. rewrite Ef in Est. destruct (events (reader s)); [done|]. cbn in Est. apply (f_equal fill_at) in Est. cbn in Est. congruence. }
  destruct Hwake as [[Hrec _]|Hwake]; [|unfold woken in Hwake; lia]. split; [done|].
  intros Hp Hld Hcs Hun lst Es. rewrite Hcs in Hcr. destruct ks as [|? ?]; [|done]. cbn in Hch. destruct Hch as [_ Hch]. specialize (Hch Hun). subst t.
  rewrite Hrec in Hl. unfold arrived in Hl. cbn in Hl. destruct (after_reap s k c l Hw) as (m & Hm & _ & Hlive). destruct Hw as [H1 H2 H3 _ _ _ _].
  unfold writer_steps, some_step. destruct (writer s) as [head sends_ stage count gone at_] eqn:Ew. cbn in Es, H1, H3, Hlive |- *. subst at_. cbn [reaps].
  set (rs := reap (done_ s) sends_) in *. destruct (failed rs) as [status|] eqn:Ex; [unfold room; by rewrite Ex|].
  destruct (Hlive eq_refl) as (Ec & Hmr & (_ & _ & (m' & Hfin & Hcov) & Hpost & _)). cbn in Hfin, Hcov, Hpost. subst m'. rewrite Hld in Hcov. rewrite Hp in Hpost. cbn in Hcov, Hpost.
  pose proof (room_exact s k m H2) as Hx. rewrite Ew in Hx. cbn in Hx. unfold posted_to in *. cbn in *.
  rewrite Hx; [|lia|lia|done|done|done|done]. pose proof RING_value. pose proof credit_every_value.
  destruct (Z.ltb_spec 0 (RING - Z.max (Z.of_nat (length (posted_bytes s)) - k) (Z.of_nat (length (posted_bytes s)) - m))); [done|lia].
Qed.

Lemma neither_side_waits_for_ever_witness : received (reader demo_waiting) = [] /\ fill_at (reader demo_waiting) = FWait.
Proof.
  assert (fill_at (reader demo_waiting) = FWait) as E by (vm_compute; reflexivity). split; [|exact E].
  refine (proj1 (neither_side_waits_for_ever demo_waiting demo_waiting_reached E _)). vm_compute. reflexivity.
Defined.
