(* ===== verification/KindDescription.v ===== *)
(** * A kind as data

    [library/kind/description.rs]: what a kind's table holds and how each of its slots
    is called, read from a value and written back as one; and, from
    [description/floor_hash.rs], the hash a table carries so that two declarations of a
    kind are told apart. Allocation does not fail, so writing does not. *)

From S2P Require Import Prelude Decimal Number Value Maps Float64.

(** ** Types of arguments and answers *)

Inductive Scalar : Type :=
  | SBool | SI8 | SI16 | SI32 | SI64 | SI128 | SIsize
  | SU8 | SU16 | SU32 | SU64 | SU128 | SUsize | SF32 | SF64.
#[export] Instance Scalar_eq_dec : EqDecision Scalar.
Proof. solve_decision. Defined.

Definition all_scalars : list Scalar :=
  [SBool; SI8; SI16; SI32; SI64; SI128; SIsize; SU8; SU16; SU32; SU64; SU128; SUsize; SF32; SF64].

(** [Scalar::name], and [Scalar::from_name] in the order of its arms. *)
Definition scalar_name (s : Scalar) : bytes :=
  bs match s with
     | SBool => "bool"
     | SI8 => "i8" | SI16 => "i16" | SI32 => "i32" | SI64 => "i64" | SI128 => "i128" | SIsize => "isize"
     | SU8 => "u8" | SU16 => "u16" | SU32 => "u32" | SU64 => "u64" | SU128 => "u128" | SUsize => "usize"
     | SF32 => "f32" | SF64 => "f64"
     end.
Definition scalar_from_name (name : bytes) : option Scalar :=
  snd <$> list_find (λ s, name = scalar_name s) all_scalars.

Inductive Tree : Type := TreeValue | TreeMap | TreeList.
Inductive Pass : Type := Borrowed | Taken | Lent.
#[export] Instance Tree_eq_dec : EqDecision Tree.
Proof. solve_decision. Defined.
#[export] Instance Pass_eq_dec : EqDecision Pass.
Proof. solve_decision. Defined.

Inductive ArgType : Type :=
  | ArgScalar (s : Scalar)
  | ArgStr | ArgBytes | ArgBytesMut
  | ArgTree (tree : Tree) (pass : Pass) (nullable : bool)
  | ArgObject (kind : bytes) (pass : Pass).
Inductive AnswerType : Type :=
  | AnswerScalar (s : Scalar) | AnswerText | AnswerTree (tree : Tree) | AnswerObject (kind : bytes).
#[export] Instance ArgType_eq_dec : EqDecision ArgType.
Proof. solve_decision. Defined.
#[export] Instance AnswerType_eq_dec : EqDecision AnswerType.
Proof. solve_decision. Defined.

Record ArgDescription := MkArgDescription { arg_name : bytes; arg_ty : ArgType }.
Record SlotDescription := MkSlotDescription {
  slot_name : bytes; slot_required : bool; slot_fallible : bool; slot_args : list ArgDescription;
  slot_answer : option AnswerType; slot_sensitive : bool; slot_doc : option bytes }.
Record KindDescription := MkKindDescription {
  kd_name : bytes; kd_floor_hash : Z; kd_object : bool; kd_doc : option bytes; kd_slots : list SlotDescription }.
#[export] Instance ArgDescription_eq_dec : EqDecision ArgDescription.
Proof. solve_decision. Defined.
#[export] Instance SlotDescription_eq_dec : EqDecision SlotDescription.
Proof. solve_decision. Defined.
#[export] Instance KindDescription_eq_dec : EqDecision KindDescription.
Proof. solve_decision. Defined.

(** ** Refusals *)

(** What was wrong; a refusal says it of a place in the description. *)
Inductive Wrong : Type :=
  | NotAMap | NotAList | NotText | NotABool | NotAU32 | IsMissing | IsEmpty | NoSlots
  | NotAPass (other : bytes) | NotAnArg (other : bytes) | NotAnAnswer (other : bytes)
  | NullableElsewhere | ObjectBorrowed | BytesMutElsewhere | ObjectNotFallible
  | NamesHeader | NamesDestroy | NamedTwice (name : bytes).
Record DescriptionError := MkDescriptionError { err_at : bytes; err_why : Wrong }.
#[export] Instance Wrong_eq_dec : EqDecision Wrong.
Proof. solve_decision. Defined.
#[export] Instance DescriptionError_eq_dec : EqDecision DescriptionError.
Proof. solve_decision. Defined.

(** [under], and the place of an item of the list at a place. *)
Definition under_key (at_ key : bytes) : bytes := if decide (at_ = []) then key else at_ ++ bs "." ++ key.
Definition item_of (at_ : bytes) (i : nat) : bytes := at_ ++ bs "[" ++ dec (Z.of_nat i) ++ bs "]".
Definition wrong {A} (at_ : bytes) (why : Wrong) : result DescriptionError A := Err (MkDescriptionError at_ why).

(** ** Reading *)

(** [map_at], [text], [flag], [doc] and [list_at]. *)
Definition map_at (v : Value) (at_ : bytes) : result DescriptionError Map :=
  match as_map v with Some m => Ok m | None => wrong at_ NotAMap end.
Definition text_at (m : Map) (at_ key : bytes) : result DescriptionError bytes :=
  let at_ := under_key at_ key in
  match get m key with
  | None => wrong at_ IsMissing
  | Some v =>
      match as_text v with
      | None => wrong at_ NotText
      | Some t => if decide (t = []) then wrong at_ IsEmpty else Ok t
      end
  end.
Definition flag (m : Map) (at_ key : bytes) (default : option bool) : result DescriptionError bool :=
  let at_ := under_key at_ key in
  match get m key, default with
  | None, Some b => Ok b
  | None, None => wrong at_ IsMissing
  | Some v, _ => match as_bool v with Some b => Ok b | None => wrong at_ NotABool end
  end.
Definition doc (m : Map) (at_ : bytes) : result DescriptionError (option bytes) :=
  match get m (bs "doc") with
  | None => Ok None
  | Some v => match as_text v with Some t => Ok (Some t) | None => wrong (under_key at_ (bs "doc")) NotText end
  end.
Definition list_at (m : Map) (at_ key : bytes) : result DescriptionError (list Value) :=
  let at_ := under_key at_ key in
  match get m key with
  | None => wrong at_ IsMissing
  | Some v => match as_list v with Some l => Ok l | None => wrong at_ NotAList end
  end.

(** [u32::from_value] and its kin of [value/convert.rs]: an integer written plainly. *)
Definition int_from_value (lo hi : Z) (v : Value) : option Z :=
  text ← as_number v;
  if existsb (λ b, (b =? 46) || (b =? 101) || (b =? 69)) text then None else parse_int lo hi text.

(** [tree_of], [tree_name], [pass_of] and [pass_name]. *)
Definition tree_name (t : Tree) : bytes :=
  bs match t with TreeValue => "value" | TreeMap => "map" | TreeList => "list" end.
Definition tree_of (name : bytes) : option Tree :=
  if decide (name = bs "value") then Some TreeValue
  else if decide (name = bs "map") then Some TreeMap
  else if decide (name = bs "list") then Some TreeList else None.
Definition pass_name (p : Pass) : bytes :=
  bs match p with Borrowed => "borrowed" | Taken => "taken" | Lent => "lent" end.
Definition pass_of (m : Map) (at_ : bytes) : result DescriptionError Pass :=
  name ← text_at m at_ (bs "pass");
  if decide (name = bs "borrowed") then Ok Borrowed
  else if decide (name = bs "taken") then Ok Taken
  else if decide (name = bs "lent") then Ok Lent
  else wrong (under_key at_ (bs "pass")) (NotAPass name).

(** [arg]. *)
Definition arg_type (m : Map) (at_ ty : bytes) (nullable : bool) : result DescriptionError ArgType :=
  match scalar_from_name ty with
  | Some s => Ok (ArgScalar s)
  | None =>
      match tree_of ty with
      | Some tree =>
          pass ← pass_of m at_;
          if nullable && (negb (bool_decide (tree = TreeValue)) || negb (bool_decide (pass = Borrowed)))
          then wrong (under_key at_ (bs "nullable")) NullableElsewhere
          else Ok (ArgTree tree pass nullable)
      | None =>
          if decide (ty = bs "str") then Ok ArgStr
          else if decide (ty = bs "bytes") then Ok ArgBytes
          else if decide (ty = bs "bytes_mut") then Ok ArgBytesMut
          else if decide (ty = bs "object") then
            kind ← text_at m at_ (bs "kind");
            pass ← pass_of m at_;
            if decide (pass = Borrowed) then wrong (under_key at_ (bs "pass")) ObjectBorrowed
            else Ok (ArgObject kind pass)
          else wrong (under_key at_ (bs "type")) (NotAnArg ty)
      end
  end.
Definition is_tree (ty : ArgType) : bool := match ty with ArgTree _ _ _ => true | _ => false end.
Definition arg (v : Value) (at_ : bytes) : result DescriptionError ArgDescription :=
  m ← map_at v at_;
  name ← text_at m at_ (bs "name");
  ty ← text_at m at_ (bs "type");
  nullable ← flag m at_ (bs "nullable") (Some false);
  ty ← arg_type m at_ ty nullable;
  if nullable && negb (is_tree ty) then wrong (under_key at_ (bs "nullable")) NullableElsewhere
  else Ok (MkArgDescription name ty).

(** [answer]. *)
Definition answer (v : Value) (at_ : bytes) : result DescriptionError AnswerType :=
  m ← map_at v at_;
  ty ← text_at m at_ (bs "type");
  match scalar_from_name ty with
  | Some s => Ok (AnswerScalar s)
  | None =>
      match tree_of ty with
      | Some tree => Ok (AnswerTree tree)
      | None =>
          if decide (ty = bs "text") then Ok AnswerText
          else if decide (ty = bs "object") then kind ← text_at m at_ (bs "kind"); Ok (AnswerObject kind)
          else wrong (under_key at_ (bs "type")) (NotAnAnswer ty)
      end
  end.

(** Each item of a list read at its place. *)
Fixpoint each {A} (read : Value -> bytes -> result DescriptionError A) (at_ : bytes) (i : nat) (l : list Value)
    : result DescriptionError (list A) :=
  match l with
  | [] => Ok []
  | v :: l => a ← read v (item_of at_ i); rest ← each read at_ (S i) l; Ok (a :: rest)
  end.

(** [slot]. *)
Definition slot (v : Value) (at_ : bytes) : result DescriptionError SlotDescription :=
  m ← map_at v at_;
  name ← text_at m at_ (bs "name");
  required ← flag m at_ (bs "required") None;
  fallible ← flag m at_ (bs "fallible") None;
  listed ← list_at m at_ (bs "args");
  args ← each arg (under_key at_ (bs "args")) 0 listed;
  answer ← match get m (bs "answer") with
           | None => Ok None
           | Some v => a ← answer v (under_key at_ (bs "answer")); Ok (Some a)
           end;
  sensitive ← flag m at_ (bs "sensitive") (Some false);
  doc ← doc m at_;
  Ok (MkSlotDescription name required fallible args answer sensitive doc).

(** The first name that was there before, and where. *)
Fixpoint first_again (before : list bytes) (i : nat) (l : list bytes) : option (nat * bytes) :=
  match l with
  | [] => None
  | n :: l => if decide (n ∈ before) then Some (i, n) else first_again (n :: before) (S i) l
  end.
Definition is_object (ty : ArgType) : bool := match ty with ArgObject _ _ => true | _ => false end.
Definition answers_object (a : option AnswerType) : bool :=
  match a with Some (AnswerObject _) => true | _ => false end.
Definition arg_place (here : bytes) (j : nat) : bytes := item_of (here ++ bs ".args") j.

(** The checks of [slots_of] on one slot, the slots before it being [known]. *)
Definition check_slot (object : bool) (known : list SlotDescription) (here : bytes) (s : SlotDescription)
    : result DescriptionError unit :=
  match first_again [] 0 (map arg_name (slot_args s)) with
  | Some (j, n) => wrong (arg_place here j) (NamedTwice n)
  | None =>
      match list_find (λ a, arg_ty a = ArgBytesMut) (slot_args s), object with
      | Some (j, _), false => wrong (arg_place here j ++ bs ".type") BytesMutElsewhere
      | _, _ =>
          match list_find (λ a, is_object (arg_ty a) = true) (slot_args s), slot_fallible s with
          | Some (j, _), false => wrong (arg_place here j ++ bs ".type") ObjectNotFallible
          | _, _ =>
              if negb (slot_fallible s) && answers_object (slot_answer s)
              then wrong (here ++ bs ".answer.type") ObjectNotFallible
              else if decide (slot_name s = bs "header") then wrong here NamesHeader
              else if decide (slot_name s ∈ map slot_name known) then wrong here (NamedTwice (slot_name s))
              else if object && bool_decide (slot_name s = bs "destroy") then wrong here NamesDestroy
              else Ok ()
          end
      end
  end.
Fixpoint slots_from (object : bool) (at_ : bytes) (i : nat) (known : list SlotDescription) (l : list Value)
    : result DescriptionError (list SlotDescription) :=
  match l with
  | [] => Ok known
  | v :: l =>
      let here := item_of at_ i in
      s ← slot v here;
      _ ← check_slot object known here s;
      slots_from object at_ (S i) (known ++ [s]) l
  end.
(** [slots_of]. *)
Definition slots_of (m : Map) (at_ : bytes) (object : bool) : result DescriptionError (list SlotDescription) :=
  listed ← list_at m at_ (bs "slots");
  if decide (listed = []) then wrong (under_key at_ (bs "slots")) NoSlots
  else slots_from object (under_key at_ (bs "slots")) 0 [] listed.

(** [KindDescription::read], [from_value] and [document]. *)
Definition read (v : Value) (at_ : bytes) : result DescriptionError KindDescription :=
  m ← map_at v at_;
  name ← text_at m at_ (bs "name");
  floor_hash ← match get m (bs "floor_hash") with
               | None => wrong (under_key at_ (bs "floor_hash")) IsMissing
               | Some v => match int_from_value 0 u32_max v with
                           | Some n => Ok n | None => wrong (under_key at_ (bs "floor_hash")) NotAU32 end
               end;
  object ← flag m at_ (bs "object") None;
  slots ← slots_of m at_ object;
  doc ← doc m at_;
  Ok (MkKindDescription name floor_hash object doc slots).
Definition from_value (v : Value) : result DescriptionError KindDescription := read v [].
Definition document (v : Value) : result DescriptionError (list KindDescription) :=
  m ← map_at v [];
  listed ← list_at m [] (bs "kinds");
  each read (bs "kinds") 0 listed.

(** ** Writing *)

(** [put], of a text, a flag and a number. *)
Definition put_text_ (m : Map) (key : bytes) (t : bytes) : Map := set_ m key (VString t).
Definition put_flag (m : Map) (key : bytes) (b : bool) : Map := set_ m key (VBool b).
Definition put_number (m : Map) (key : bytes) (n : Z) : Map := set_ m key (VNumber (dec n)).
Definition put_doc (m : Map) (d : option bytes) : Map :=
  match d with Some d => put_text_ m (bs "doc") d | None => m end.

(** [arg_value], [answer_value], [slot_value] and [KindDescription::to_value_in]. *)
Definition arg_value (a : ArgDescription) : Value :=
  let m := put_text_ [] (bs "name") (arg_name a) in
  let type_ := put_text_ m (bs "type") in
  VMap match arg_ty a with
       | ArgScalar s => type_ (scalar_name s)
       | ArgStr => type_ (bs "str")
       | ArgBytes => type_ (bs "bytes")
       | ArgBytesMut => type_ (bs "bytes_mut")
       | ArgTree tree pass nullable =>
           let m := put_text_ (type_ (tree_name tree)) (bs "pass") (pass_name pass) in
           if nullable then put_flag m (bs "nullable") true else m
       | ArgObject kind pass =>
           put_text_ (put_text_ (type_ (bs "object")) (bs "kind") kind) (bs "pass") (pass_name pass)
       end.
Definition answer_value (a : AnswerType) : Value :=
  let type_ := put_text_ [] (bs "type") in
  VMap match a with
       | AnswerScalar s => type_ (scalar_name s)
       | AnswerText => type_ (bs "text")
       | AnswerTree tree => type_ (tree_name tree)
       | AnswerObject kind => put_text_ (type_ (bs "object")) (bs "kind") kind
       end.
Definition slot_value (s : SlotDescription) : Value :=
  let m := put_text_ [] (bs "name") (slot_name s) in
  let m := put_flag m (bs "required") (slot_required s) in
  let m := put_flag m (bs "fallible") (slot_fallible s) in
  let m := set_ m (bs "args") (VList (map arg_value (slot_args s))) in
  let m := match slot_answer s with Some a => set_ m (bs "answer") (answer_value a) | None => m end in
  let m := if slot_sensitive s then put_flag m (bs "sensitive") true else m in
  VMap (put_doc m (slot_doc s)).
Definition to_value (k : KindDescription) : Value :=
  let m := put_text_ [] (bs "name") (kd_name k) in
  let m := put_number m (bs "floor_hash") (kd_floor_hash k) in
  let m := put_flag m (bs "object") (kd_object k) in
  let m := put_doc m (kd_doc k) in
  VMap (set_ m (bs "slots") (VList (map slot_value (kd_slots k)))).

(** ** The table *)

(** [slot], [word_of], [size] and [floor]; the header is two [u32]s. *)
Definition kd_slot (k : KindDescription) (name : bytes) : option (nat * SlotDescription) :=
  list_find (λ s, slot_name s = name) (kd_slots k).
Definition HEADER : Z := 8.
Definition word_of (k : KindDescription) (index : Z) : Z := index + Z.b2z (kd_object k).
Definition size (k : KindDescription) (word : Z) : Z :=
  HEADER + (Z.of_nat (length (kd_slots k)) + Z.b2z (kd_object k)) * word.
Definition floor (k : KindDescription) (word : Z) : Z := size k word.

(** ** The floor hash *)

(** [fnv1a] of [kind/parts.rs]. *)
Definition fnv1a (s : bytes) : Z :=
  foldl (λ hash b, (Z.lxor hash b * 0x01000193) mod 2 ^ 32) 0x811c9dc5 s.

(** [pascal]: split where a character is no ASCII letter or digit, each part's first
    letter raised. A byte of a character past ASCII splits as its character does. *)
Fixpoint pascal_from (first : bool) (kind : bytes) : bytes :=
  match kind with
  | [] => []
  | b :: kind =>
      if is_digit b || is_alpha b then (if first then to_upper b else b) :: pascal_from false kind
      else pascal_from true kind
  end.
Definition pascal (kind : bytes) : bytes := pascal_from true kind.

(** [tree], [arg], [answer] and [signature]. *)
Definition tree_spelled (t : Tree) : bytes := bs match t with TreeValue => "Value" | TreeMap => "Map" | TreeList => "List" end.
Definition arg_spelled (ty : ArgType) : bytes :=
  match ty with
  | ArgScalar s => scalar_name s
  | ArgStr => bs "&str"
  | ArgBytes => bs "&[u8]"
  | ArgBytesMut => bs "&mut[u8]"
  | ArgTree t Taken _ => tree_spelled t
  | ArgTree t Lent _ => bs "&mut" ++ tree_spelled t
  | ArgTree t Borrowed true => bs "Option<&" ++ tree_spelled t ++ bs ">"
  | ArgTree t Borrowed false => bs "&" ++ tree_spelled t
  | ArgObject kind Taken => bs "Object<dyn" ++ pascal kind ++ bs ">"
  | ArgObject kind _ => bs "&mutdyn" ++ pascal kind
  end.
Definition answer_spelled (a : AnswerType) : bytes :=
  match a with
  | AnswerScalar s => scalar_name s
  | AnswerText => bs "String"
  | AnswerTree t => tree_spelled t
  | AnswerObject kind => bs "Object<dyn" ++ pascal kind ++ bs ">"
  end.
Fixpoint joined (sep : bytes) (l : list bytes) : bytes :=
  match l with [] => [] | [x] => x | x :: l => x ++ sep ++ joined sep l end.
Definition signature (s : SlotDescription) : bytes :=
  let answer := match slot_answer s with Some a => answer_spelled a | None => bs "()" end in
  let answer := if slot_fallible s then bs "Result<" ++ answer ++ bs ",ProviderError>" else answer in
  slot_name s ++ bs "(" ++ joined (bs ",") (map (λ a, arg_spelled (arg_ty a)) (slot_args s)) ++ bs ")->" ++ answer.

(** [floor_hash_of], of the text it hashes, and [floor_hash_json] past the JSON. *)
Definition hashed (object : bool) (slots : list SlotDescription) : bytes :=
  foldl (λ input s, input ++ bs ";" ++ signature s) (bs (if object then "object" else "provider")) slots.
Definition floor_hash_of (object : bool) (slots : list SlotDescription) : Z := fnv1a (hashed object slots).
Definition floor_hash_value (v : Value) : result DescriptionError Z :=
  m ← map_at v [];
  object ← flag m [] (bs "object") None;
  slots ← slots_of m [] object;
  Ok (floor_hash_of object slots).

Example pascal_ex : pascal (bs "codec.v2") = bs "CodecV2" /\ pascal (bs "__a__b") = bs "AB".
Proof. done. Qed.
