(* ===== verification/KindLaws.v ===== *)
(** * What a kind's description is

    The laws of [KindDescription]: which descriptions there are, that one written is
    read back, where a refusal points, that a table has room for every slot, and what
    two declarations of one floor hash share. *)

From S2P Require Import Prelude Decimal Number Value Maps Float64 SchemaRead KindDescription.

#[local] Arguments bs _ : simpl never.

(** ** Maps written key by key *)

Create HintDb kinds.

Lemma get_set m k v k' : get (set_ m k v) k' = if decide (k = k') then Some v else get m k'.
Proof.
  rewrite !get_contents, set_contents. destruct (decide (k = k')) as [->|Hn]; [apply lookup_insert_eq|by apply lookup_insert_ne].
Qed.

Lemma get_nil k : get [] k = None.
Proof. done. Qed.

Lemma text_keys m k v : keys_are_text m = true -> is_utf8 k = true -> keys_are_text (set_ m k v) = true.
Proof.
  assert (forall m : Map, keys_are_text m = forallb is_utf8 (keys m)) as E by (intros m'; unfold keys_are_text, keys; induction m' as [|e m' IH]; [done|]; cbn; by rewrite IH).
  rewrite !E, set_keys. intros H Hk. destruct (contains_key m k); [done|]. rewrite forallb_app, H. cbn. by rewrite Hk.
Qed.
#[export] Hint Resolve text_keys : kinds.

(** The lookups of a map written with the keys of a description. *)
Ltac look := unfold put_doc, put_text_, put_flag, put_number;
  rewrite ?get_set; repeat ((rewrite decide_True by reflexivity) || (rewrite decide_False by (vm_compute; discriminate))); rewrite ?get_nil.

(** ** Valid descriptions *)

Definition name_ok (t : bytes) : Prop := t <> [] /\ is_utf8 t = true.
Definition doc_ok (d : option bytes) : Prop := match d with Some t => is_utf8 t = true | None => True end.
Definition type_ok (ty : ArgType) : Prop :=
  match ty with
  | ArgTree t p true => t = TreeValue /\ p = Borrowed
  | ArgObject k p => name_ok k /\ p <> Borrowed
  | _ => True
  end.
Definition arg_ok (a : ArgDescription) : Prop := name_ok (arg_name a) /\ type_ok (arg_ty a).
Definition answer_ok (a : option AnswerType) : Prop := match a with Some (AnswerObject k) => name_ok k | _ => True end.

(** A slot, of a kind that is an object kind or not. *)
Record slot_ok (object : bool) (s : SlotDescription) : Prop := SlotOk {
  so_name : name_ok (slot_name s); so_args : Forall arg_ok (slot_args s); so_answer : answer_ok (slot_answer s); so_doc : doc_ok (slot_doc s);
  so_once : NoDup (map arg_name (slot_args s));
  so_mut : object = false -> Forall (λ a, arg_ty a <> ArgBytesMut) (slot_args s);
  so_objects : slot_fallible s = false -> Forall (λ a, is_object (arg_ty a) = false) (slot_args s) /\ answers_object (slot_answer s) = false;
  so_header : slot_name s <> bs "header"; so_destroy : object = true -> slot_name s <> bs "destroy" }.

Record kind_ok (k : KindDescription) : Prop := KindOk {
  ko_name : name_ok (kd_name k); ko_hash : 0 <= kd_floor_hash k <= u32_max; ko_doc : doc_ok (kd_doc k);
  ko_some : kd_slots k <> []; ko_slots : Forall (slot_ok (kd_object k)) (kd_slots k); ko_once : NoDup (map slot_name (kd_slots k)) }.

(** ** The readers' answers *)

Lemma text_at_Ok m at_ key t : text_at m at_ key = Ok t <-> exists v, get m key = Some v /\ as_text v = Some t /\ t <> [].
Proof.
  unfold text_at. destruct (get m key) as [v|]; [|split; [done|naive_solver]].
  destruct (as_text v) as [t'|] eqn:E; [|split; [done|naive_solver]].
  destruct (decide (t' = [])); split; naive_solver.
Qed.
Lemma text_at_name m at_ key t : text_at m at_ key = Ok t -> name_ok t.
Proof. intros (v & _ & E & H)%text_at_Ok. split; [done|]. by apply as_text_Some in E as [_ ?]. Qed.
Lemma text_at_is m at_ key t : get m key = Some (VString t) -> name_ok t -> text_at m at_ key = Ok t.
Proof. intros E [H1 H2]. apply text_at_Ok. exists (VString t). split_and!; [done| |done]. cbn. by rewrite H2. Qed.

Lemma flag_Ok m at_ key d b : flag m at_ key d = Ok b <-> (exists v, get m key = Some v /\ as_bool v = Some b) \/ (get m key = None /\ d = Some b).
Proof.
  unfold flag. destruct (get m key) as [v|]; [|destruct d; naive_solver]. destruct (as_bool v) eqn:E; split; naive_solver.
Qed.

Lemma doc_Ok m at_ d : doc m at_ = Ok d -> doc_ok d.
Proof.
  unfold doc. destruct (get m _) as [v|]; [|by intros [= <-]]. destruct (as_text v) eqn:E; [|done]. intros [= <-].
  by apply as_text_Some in E as [_ ?].
Qed.
Lemma doc_is m at_ d : get m (bs "doc") = option_map VString d -> doc_ok d -> doc m at_ = Ok d.
Proof. unfold doc. intros ->. destruct d as [t|]; [|done]. cbn. by intros ->. Qed.

Lemma list_at_Ok m at_ key l : list_at m at_ key = Ok l <-> exists v, get m key = Some v /\ as_list v = Some l.
Proof.
  unfold list_at. destruct (get m key) as [v|]; [|split; [done|naive_solver]]. destruct (as_list v) eqn:E; split; naive_solver.
Qed.

Lemma scalar_named s : scalar_from_name (scalar_name s) = Some s.
Proof. by destruct s. Qed.
Lemma scalar_from_name_Some n s : scalar_from_name n = Some s -> n = scalar_name s.
Proof.
  unfold scalar_from_name. destruct (list_find _ _) as [[i s']|] eqn:E; [|done]. cbn. intros [= <-].
  apply list_find_Some in E. naive_solver.
Qed.
Lemma tree_named t : scalar_from_name (tree_name t) = None /\ tree_of (tree_name t) = Some t.
Proof. by destruct t. Qed.
Lemma tree_of_Some n t : tree_of n = Some t -> n = tree_name t.
Proof. unfold tree_of. repeat (destruct (decide _); [naive_solver|]). done. Qed.
Lemma pass_of_Ok m at_ p : pass_of m at_ = Ok p <-> text_at m at_ (bs "pass") = Ok (pass_name p).
Proof.
  unfold pass_of. destruct (text_at m at_ (bs "pass")) as [t|]; [|done]. cbn.
  repeat (destruct (decide _) as [->|]; [destruct p; naive_solver|]). split; [done|]. destruct p; naive_solver.
Qed.

Lemma name_const t : negb (bool_decide (t = [])) && is_utf8 t = true -> name_ok t.
Proof. intros [H ?]%andb_prop. split; [|done]. by apply negb_true_iff, bool_decide_eq_false in H. Qed.
Lemma scalar_name_ok s : name_ok (scalar_name s).
Proof. apply name_const. by destruct s. Qed.
Lemma tree_name_ok t : name_ok (tree_name t).
Proof. apply name_const. by destruct t. Qed.
Lemma pass_name_ok p : name_ok (pass_name p).
Proof. apply name_const. by destruct p. Qed.
#[export] Hint Resolve scalar_name_ok tree_name_ok pass_name_ok : kinds.
#[export] Hint Extern 1 (name_ok (bs _)) => (apply name_const; reflexivity) : kinds.
#[export] Hint Extern 1 (is_utf8 _ = true) => reflexivity : kinds.
#[export] Hint Extern 1 (keys_are_text [] = true) => reflexivity : kinds.

(** ** Written, and read back *)

Lemma map_at_is m at_ : keys_are_text m = true -> map_at (VMap m) at_ = Ok m.
Proof. intros H. unfold map_at. cbn. by rewrite H. Qed.

(** A text read back, a flag left at its default, and a map written. *)
Ltac back key t := rewrite (text_at_is _ _ key t) by (look; auto with kinds); cbn [mbind result_bind].
Ltac opened := rewrite map_at_is by (unfold put_doc, put_text_, put_flag, put_number; auto 20 with kinds); cbn [mbind result_bind].
Ltac flagged := unfold flag; look; cbn [as_bool mbind result_bind].

Lemma arg_type_object m at_ nl : arg_type m at_ (bs "object") nl =
  (kind ← text_at m at_ (bs "kind"); pass ← pass_of m at_;
   if decide (pass = Borrowed) then wrong (under_key at_ (bs "pass")) ObjectBorrowed else Ok (ArgObject kind pass)).
Proof. done. Qed.

Lemma arg_back a at_ : arg_ok a -> arg (arg_value a) at_ = Ok a.
Proof.
  intros [Hn Ht]. destruct a as [n ty]. unfold arg, arg_value. cbn [arg_name arg_ty] in *.
  destruct ty as [s| | | |t p nl|k p]; cbn [type_ok] in Ht.
  - opened. back (bs "name") n. back (bs "type") (scalar_name s). flagged. unfold arg_type. by rewrite scalar_named.
  - opened. back (bs "name") n. back (bs "type") (bs "str"). by flagged.
  - opened. back (bs "name") n. back (bs "type") (bs "bytes"). by flagged.
  - opened. back (bs "name") n. back (bs "type") (bs "bytes_mut"). by flagged.
  - destruct (tree_named t) as [E1 E2]. destruct nl.
    + opened. back (bs "name") n. back (bs "type") (tree_name t). flagged. unfold arg_type. rewrite E1, E2, (proj2 (pass_of_Ok _ at_ p)) by (apply text_at_is; [by look|auto with kinds]).
      by destruct Ht as [-> ->].
    + opened. back (bs "name") n. back (bs "type") (tree_name t). flagged. unfold arg_type. rewrite E1, E2, (proj2 (pass_of_Ok _ at_ p)) by (apply text_at_is; [by look|auto with kinds]).
      done.
  - destruct Ht as [Hk Hp]. opened. back (bs "name") n. back (bs "type") (bs "object"). flagged. rewrite arg_type_object.
    rewrite (text_at_is _ _ (bs "kind") k) by (look; auto with kinds). rewrite (proj2 (pass_of_Ok _ at_ p)) by (apply text_at_is; [by look|auto with kinds]).
    cbn. by rewrite decide_False.
Qed.

Lemma answer_back a at_ : answer_ok (Some a) -> answer (answer_value a) at_ = Ok a.
Proof.
  intros H. unfold answer, answer_value. destruct a as [s| |t|k].
  - opened. back (bs "type") (scalar_name s). by rewrite scalar_named.
  - opened. by back (bs "type") (bs "text").
  - destruct (tree_named t) as [E1 E2]. opened. back (bs "type") (tree_name t). by rewrite E1, E2.
  - opened. back (bs "type") (bs "object"). change (scalar_from_name (bs "object")) with (@None Scalar). cbn.
    by rewrite (text_at_is _ _ (bs "kind") k) by (look; auto with kinds).
Qed.

Lemma each_back {A} (read : Value -> bytes -> result DescriptionError A) (write : A -> Value) at_ l :
  (forall a at_, a ∈ l -> read (write a) at_ = Ok a) -> forall i, each read at_ i (map write l) = Ok l.
Proof.
  induction l as [|a l IH]; intros H i; [done|]. cbn. rewrite H by (by left). cbn. rewrite IH; [done|]. intros b at' Hb. apply H. by right.
Qed.

Lemma slot_back object s at_ : slot_ok object s -> slot (slot_value s) at_ = Ok s.
Proof.
  intros [Hn Ha Hr Hd _ _ _ _ _]. destruct s as [n rq fl args an se d]. cbn [slot_name slot_args slot_answer slot_doc] in *.
  unfold slot, slot_value. cbn [slot_name slot_required slot_fallible slot_args slot_answer slot_sensitive slot_doc].
  assert (forall at_, each arg at_ 0 (map arg_value args) = Ok args) as Eargs.
  { intros at'. apply each_back. intros a at'' Hin. apply arg_back. rewrite Forall_forall in Ha. by apply Ha. }
  destruct an as [an|], se, d as [d|]; opened; back (bs "name") n; do 2 flagged; unfold list_at; look; cbn [as_list mbind result_bind]; rewrite Eargs; cbn [mbind result_bind];
    rewrite ?answer_back by done; cbn [mbind result_bind]; flagged; ((rewrite (doc_is _ _ None) by (by look)) || (erewrite (doc_is _ _ (Some _)) by (look; done))); done.
Qed.

(** ** The checks of a slot *)

Lemma first_again_None before i l : first_again before i l = None <-> NoDup l /\ forall n, n ∈ l -> n ∉ before.
Proof.
  revert before i. induction l as [|n l IH]; intros before i; cbn; [split; [split; [constructor|by intros ? ?%elem_of_nil]|done]|].
  destruct (decide (n ∈ before)) as [Hin|Hn].
  - split; [done|]. intros [_ H]. destruct (H n); [by left|done].
  - rewrite IH, NoDup_cons. split.
    + intros [Hd Ho]. split_and!; [|done|].
      * intros Hin. destruct (Ho n Hin). by left.
      * intros m [->|Hm]%elem_of_cons; [done|]. specialize (Ho m Hm). set_solver.
    + intros [[Hnl Hd] Ho]. split; [done|]. intros m Hm. apply not_elem_of_cons. split; [by intros ->|]. apply Ho. by right.
Qed.

Lemma first_again_Some before i l j n : first_again before i l = Some (j, n) -> exists k, l !! k = Some n /\ j = (i + k)%nat.
Proof.
  revert before i. induction l as [|m l IH]; intros before i; cbn; [done|]. destruct (decide (m ∈ before)).
  - intros [= <- <-]. exists O. split; [done|lia].
  - intros (k & E & ->)%IH. exists (S k). split; [done|lia].
Qed.

Lemma list_find_None_Forall {A} (P : A -> Prop) `{!forall x, Decision (P x)} l : list_find P l = None <-> Forall (λ x, ~ P x) l.
Proof. apply list_find_None. Qed.

Lemma check_slot_Ok object known here s : check_slot object known here s = Ok () <->
  NoDup (map arg_name (slot_args s)) /\
  (object = false -> Forall (λ a, arg_ty a <> ArgBytesMut) (slot_args s)) /\
  (slot_fallible s = false -> Forall (λ a, is_object (arg_ty a) = false) (slot_args s) /\ answers_object (slot_answer s) = false) /\
  slot_name s <> bs "header" /\ (object = true -> slot_name s <> bs "destroy") /\ slot_name s ∉ map slot_name known.
Proof.
  unfold check_slot. destruct (first_again _ _ _) as [[j n]|] eqn:E1.
  { split; [done|]. intros [Hd _]. assert (first_again [] 0 (map arg_name (slot_args s)) = None) as E; [|by rewrite E in E1].
    apply first_again_None. split; [done|]. intros ? _ ?%elem_of_nil. done. }
  apply first_again_None in E1 as [Hd _].
  destruct (list_find (λ a, arg_ty a = ArgBytesMut) (slot_args s)) as [[j a]|] eqn:E2, object eqn:Eo.
  2: { apply list_find_Some in E2 as (El & Ea & _). split; [done|]. intros (_ & H & _). specialize (H eq_refl).
       rewrite Forall_lookup in H. by destruct (H j a El). }
  all: destruct (list_find (λ a, is_object (arg_ty a) = true) (slot_args s)) as [[j' a']|] eqn:E3, (slot_fallible s) eqn:Ef; cbn [negb andb];
    try (apply list_find_Some in E3 as (El' & Ea' & _); split; [done|]; intros (_ & _ & H & _); destruct (H eq_refl) as [H' _]; rewrite Forall_lookup in H';
      rewrite (H' j' a' El') in Ea'; done).
  all: try (apply list_find_None in E2).
  all: try (apply list_find_None in E3; assert (Forall (λ a, is_object (arg_ty a) = false) (slot_args s)) as Ho by (eapply Forall_impl; [exact E3|]; intros b Hb; by apply not_true_is_false)).
  all: try (destruct (answers_object (slot_answer s)) eqn:Ean; [split; [done|]; intros (_ & _ & H & _); by destruct (H eq_refl)|]).
  all: destruct (decide (slot_name s = bs "header")) as [Eh|Eh]; [split; [done|]; naive_solver|].
  all: destruct (decide (slot_name s ∈ map slot_name known)) as [Ek|Ek]; [split; [done|]; naive_solver|].
  all: destruct (bool_decide (slot_name s = bs "destroy")) eqn:Eb; cbn [andb]; [apply bool_decide_eq_true in Eb|apply bool_decide_eq_false in Eb].
  all: first [split; [done|]; intros (_ & _ & _ & _ & H & _); by destruct (H eq_refl)|split; [|done]; intros _; split_and!; try done; intros _; by split_and!].
Qed.

(** ** Every description read is valid, and every valid one is read back *)

Lemma check_known object known here s : slot_ok object s -> slot_name s ∉ map slot_name known -> check_slot object known here s = Ok ().
Proof. intros [] Hn. apply check_slot_Ok. by split_and!. Qed.

Lemma slots_back object at_ l : forall i known, Forall (slot_ok object) l -> NoDup (map slot_name (known ++ l)) ->
  slots_from object at_ i known (map slot_value l) = Ok (known ++ l).
Proof.
  induction l as [|s l IH]; intros i known Hf Hd; [by rewrite app_nil_r|]. apply Forall_cons in Hf as [Hs Hf]. cbn [map slots_from].
  rewrite (slot_back object) by done. cbn [mbind result_bind].
  assert (slot_name s ∉ map slot_name known) as Hn.
  { rewrite map_app in Hd. apply NoDup_app in Hd as (_ & Hd & _). intros Hin. by destruct (Hd _ Hin); left. }
  rewrite check_known by done. cbn [mbind result_bind]. rewrite IH; [by rewrite <- app_assoc|done|by rewrite <- app_assoc].
Qed.

Lemma dec_number n : 0 <= n -> json_number (dec n).
Proof.
  intros Hn. destruct (dec_spec n Hn) as (Hd & _ & H). exists [], (dec n), [], []. rewrite !app_nil_r.
  split_and!; try done; [by left| |by left|by left].
  destruct H as [[H ->]|(H & d & ds & E & Hl)].
  - destruct (decide (n = 0)) as [->|]; [by left|]. right. exists (48 + n), []. split_and!; [done|lia|lia|constructor].
  - right. exists d, ds. rewrite E in *. apply Forall_cons in Hd as [Hd ?]. apply is_digit_spec in Hd. split_and!; [done|lia|lia|done].
Qed.

Lemma int_back n hi : 0 <= n <= hi -> int_from_value 0 hi (VNumber (dec n)) = Some n.
Proof.
  intros H. pose proof (dec_digits n ltac:(lia)) as Hd. destruct (dec_cons n ltac:(lia)) as (d & ds & E & Hdig). apply is_digit_spec in Hdig.
  unfold int_from_value. cbn [as_number]. rewrite (proj2 (is_number_spec _) (dec_number n ltac:(lia))). cbn [mbind option_bind].
  assert (existsb (λ b, (b =? 46) || (b =? 101) || (b =? 69)) (dec n) = false) as ->.
  { apply not_true_is_false. intros (b & Hin & Hb)%existsb_exists. rewrite <- list_elem_of_In in Hin. unfold digits in Hd. rewrite Forall_forall in Hd.
    apply Hd, is_digit_spec in Hin. lia. }
  unfold parse_int. rewrite E. destruct (Z.eqb_spec d 43); [lia|]. destruct (Z.eqb_spec d 45); [lia|]. cbn [andb]. rewrite <- E.
  rewrite bool_decide_false by (by rewrite E). cbn [negb andb]. rewrite (proj2 (digits_forallb _) Hd), num_dec by lia.
  destruct (Z.leb_spec 0 (1 * n)); [|lia]. destruct (Z.leb_spec (1 * n) hi); [|lia]. cbn. f_equal. lia.
Qed.

Lemma int_bounds lo hi v n : int_from_value lo hi v = Some n -> lo <= n <= hi.
Proof.
  unfold int_from_value. destruct (as_number v) as [t|]; [|done]. cbn. destruct (existsb _ t); [done|]. unfold parse_int.
  destruct (match t with [] => _ | _ => _ end) as [sign ds]. destruct (negb _ && _); [|done].
  destruct (Z.leb_spec lo (sign * num ds)), (Z.leb_spec (sign * num ds) hi); cbn; try done. intros [= <-]. done.
Qed.

Lemma read_back k at_ : kind_ok k -> read (to_value k) at_ = Ok k.
Proof.
  intros [Hn Hh Hd Hs Hf Ho]. destruct k as [n h o d slots]. cbn [kd_name kd_floor_hash kd_object kd_doc kd_slots] in *.
  unfold read, to_value. cbn [kd_name kd_floor_hash kd_object kd_doc kd_slots].
  assert (forall at_ i, slots_from o at_ i [] (map slot_value slots) = Ok slots) as Es by (intros; by apply slots_back).
  destruct d as [d|]; opened; back (bs "name") n; look; rewrite int_back by done; cbn [mbind result_bind]; flagged; unfold slots_of, list_at; look; cbn [as_list mbind result_bind];
    (rewrite decide_False by (by destruct slots)); rewrite Es; cbn [mbind result_bind]; ((rewrite (doc_is _ _ None) by (by look)) || (erewrite (doc_is _ _ (Some _)) by (look; done))); done.
Qed.

Lemma arg_type_Ok m at_ ty nl t : arg_type m at_ ty nl = Ok t -> type_ok t /\ (is_tree t = true -> forall t' p n, t = ArgTree t' p n -> n = nl).
Proof.
  unfold arg_type. destruct (scalar_from_name ty); [by intros [= <-]|]. destruct (tree_of ty) as [tr|].
  - intros (p & Hp & H)%bind_Ok. destruct (nl && _) eqn:E; [done|]. injection H as <-. split; [|by intros _ ? ? ? [= <- <- <-]].
    destruct nl; [|done]. cbn [andb] in E. apply orb_false_iff in E as [E1 E2]. apply negb_false_iff, bool_decide_eq_true in E1, E2. done.
  - repeat (destruct (decide _); [first [intros [= <-]; done|idtac]|]); try done. intros (k & Hk & H)%bind_Ok. apply bind_Ok in H as (p & Hp & H).
    destruct (decide (p = Borrowed)); [done|]. injection H as <-. split; [|done]. split; [by eapply text_at_name|done].
Qed.

Lemma arg_ok_read v at_ a : arg v at_ = Ok a -> arg_ok a.
Proof.
  unfold arg. intros (m & _ & H)%bind_Ok. apply bind_Ok in H as (n & Hn & H). apply bind_Ok in H as (ty & _ & H). apply bind_Ok in H as (nl & _ & H).
  apply bind_Ok in H as (t & Ht & H). destruct (nl && negb (is_tree t)); [done|]. injection H as <-. split; [by eapply text_at_name|]. by apply arg_type_Ok in Ht as [Ht _].
Qed.

Lemma answer_ok_read v at_ a : answer v at_ = Ok a -> answer_ok (Some a).
Proof.
  unfold answer. intros (m & _ & H)%bind_Ok. apply bind_Ok in H as (ty & _ & H).
  destruct (scalar_from_name ty); [by injection H as <-|]. destruct (tree_of ty); [by injection H as <-|].
  repeat (destruct (decide _); [first [by injection H as <-|idtac]|]); try done.
  apply bind_Ok in H as (k & Hk & H). injection H as <-. by eapply text_at_name.
Qed.

Lemma each_ok {A} (read : Value -> bytes -> result DescriptionError A) (P : A -> Prop) at_ :
  (forall v at_ a, read v at_ = Ok a -> P a) -> forall l i out, each read at_ i l = Ok out -> Forall P out.
Proof.
  intros H. induction l as [|v l IH]; intros i out; cbn; [intros [= <-]; constructor|].
  intros (a & Ha & H')%bind_Ok. apply bind_Ok in H' as (r & Hr & H'). injection H' as <-. constructor; [by eapply H|by eapply IH].
Qed.

Lemma slot_shape_read v at_ s : slot v at_ = Ok s -> name_ok (slot_name s) /\ Forall arg_ok (slot_args s) /\ answer_ok (slot_answer s) /\ doc_ok (slot_doc s).
Proof.
  unfold slot. intros (m & _ & H)%bind_Ok. apply bind_Ok in H as (n & Hn & H). do 2 apply bind_Ok in H as (? & _ & H). apply bind_Ok in H as (l & _ & H).
  apply bind_Ok in H as (args & Ha & H). apply bind_Ok in H as (an & Han & H). apply bind_Ok in H as (se & _ & H). apply bind_Ok in H as (d & Hd & H).
  injection H as <-. cbn. split_and!; [by eapply text_at_name| | |by eapply doc_Ok].
  - eapply each_ok; [|exact Ha]. apply arg_ok_read.
  - destruct (get m (bs "answer")); [|by injection Han as <-]. apply bind_Ok in Han as (a & Ea & Han). injection Han as <-. by eapply answer_ok_read.
Qed.

Lemma slots_ok_read object at_ l : forall i known out, slots_from object at_ i known l = Ok out ->
  Forall (slot_ok object) known -> NoDup (map slot_name known) -> Forall (slot_ok object) out /\ NoDup (map slot_name out) /\ (length out = length known + length l)%nat.
Proof.
  induction l as [|v l IH]; intros i known out; cbn [slots_from]; [intros [= <-] ? ?; split_and!; [done|done|cbn; lia]|].
  intros (s & Hs & H)%bind_Ok Hk Hd. apply bind_Ok in H as ([] & Hc & H). apply check_slot_Ok in Hc as (C1 & C2 & C3 & C4 & C5 & C6).
  apply slot_shape_read in Hs as (S1 & S2 & S3 & S4). apply IH in H as (H1 & H2 & H3).
  - rewrite length_app in H3. cbn in H3 |- *. split_and!; [done|done|lia].
  - apply Forall_app. split; [done|]. by constructor.
  - rewrite map_app. apply NoDup_app. split_and!; [done| |apply NoDup_singleton]. intros x Hx ->%list_elem_of_singleton. done.
Qed.

Lemma read_kind_ok v at_ k : read v at_ = Ok k -> kind_ok k.
Proof.
  unfold read. intros (m & _ & H)%bind_Ok. apply bind_Ok in H as (n & Hn & H). apply bind_Ok in H as (h & Hh & H). apply bind_Ok in H as (o & _ & H).
  apply bind_Ok in H as (l & Hl & H). apply bind_Ok in H as (d & Hd & H). injection H as <-.
  unfold slots_of in Hl. apply bind_Ok in Hl as (vs & _ & Hl). destruct (decide (vs = [])); [done|].
  apply slots_ok_read in Hl as (H1 & H2 & H3); [|constructor|constructor].
  constructor; cbn; [by eapply text_at_name| |by eapply doc_Ok| |done|done].
  - destruct (get m _) as [x|]; [|done]. destruct (int_from_value 0 u32_max x) as [y|] eqn:E; [|done]. injection Hh as <-. by eapply int_bounds.
  - intros ->. cbn in H3. destruct vs; [done|]. cbn in H3. lia.
Qed.

(** ** Where a refusal points *)

(** The places of a value, and what is there: what a map holds under a key, if
    anything, and the items of lists. *)
Inductive place (root : Value) : bytes -> option Value -> Prop :=
  | place_root : place root [] (Some root)
  | place_key at_ v m key : place root at_ (Some v) -> as_map v = Some m -> place root (under_key at_ key) (get m key)
  | place_item at_ v l i x : place root at_ (Some v) -> as_list v = Some l -> l !! i = Some x -> place root (item_of at_ i) (Some x).

(** What a map says its name is. *)
Definition named (x : Value) : option bytes := m ← as_map x; v ← get m (bs "name"); as_text v.

(** What each refusal says of what is there. *)
Definition said (o : option Value) (why : Wrong) : Prop :=
  match why with
  | IsMissing => o = None
  | NotAMap => exists x, o = Some x /\ as_map x = None
  | NotAList => exists x, o = Some x /\ as_list x = None
  | NotText => exists x, o = Some x /\ as_text x = None
  | NotABool => exists x, o = Some x /\ as_bool x = None
  | NotAU32 => exists x, o = Some x /\ int_from_value 0 u32_max x = None
  | IsEmpty => exists x, o = Some x /\ as_text x = Some []
  | NoSlots => exists x, o = Some x /\ as_list x = Some []
  | NotAPass t => exists x, o = Some x /\ as_text x = Some t /\ forall p, t <> pass_name p
  | NotAnArg t => exists x, o = Some x /\ as_text x = Some t /\ (forall s, t <> scalar_name s) /\ (forall tr, t <> tree_name tr) /\ t ∉ map bs ["str"; "bytes"; "bytes_mut"; "object"]
  | NotAnAnswer t => exists x, o = Some x /\ as_text x = Some t /\ (forall s, t <> scalar_name s) /\ (forall tr, t <> tree_name tr) /\ t ∉ map bs ["text"; "object"]
  | NullableElsewhere => exists x, o = Some x /\ as_bool x = Some true
  | ObjectBorrowed => exists x, o = Some x /\ as_text x = Some (bs "borrowed")
  | BytesMutElsewhere => exists x, o = Some x /\ as_text x = Some (bs "bytes_mut")
  | ObjectNotFallible => exists x, o = Some x /\ as_text x = Some (bs "object")
  | NamesHeader => exists x, o = Some x /\ named x = Some (bs "header")
  | NamesDestroy => exists x, o = Some x /\ named x = Some (bs "destroy")
  | NamedTwice n => exists x, o = Some x /\ named x = Some n
  end.

Definition placed {A} (root : Value) (r : result DescriptionError A) : Prop :=
  match r with Ok _ => True | Err e => exists o, place root (err_at e) o /\ said o (err_why e) end.

Lemma placed_bind {A B} root (r : result DescriptionError A) (f : A -> result DescriptionError B) :
  placed root r -> (forall a, r = Ok a -> placed root (f a)) -> placed root (r ≫= f).
Proof. destruct r as [a|e]; cbn; auto. Qed.
Lemma placed_wrong {A} root at_ why o : place root at_ o -> said o why -> placed (A := A) root (wrong at_ why).
Proof. intros. by exists o. Qed.

Section placing.
Context (root : Value).

Lemma map_placed v at_ : place root at_ (Some v) -> placed root (map_at v at_).
Proof. intros H. unfold map_at. destruct (as_map v) eqn:E; [done|]. eapply placed_wrong; [exact H|by exists v]. Qed.
Lemma map_at_Ok v at_ m : map_at v at_ = Ok m <-> as_map v = Some m.
Proof. unfold map_at. destruct (as_map v); naive_solver. Qed.

Section within.
Context (v : Value) (at_ : bytes) (m : Map) (Hp : place root at_ (Some v)) (Hm : as_map v = Some m).

Lemma place_under key : place root (under_key at_ key) (get m key).
Proof. by eapply place_key. Qed.
Lemma text_placed key : placed root (text_at m at_ key).
Proof.
  pose proof (place_under key) as H. unfold text_at. destruct (get m key) as [x|]; [|by eapply placed_wrong].
  destruct (as_text x) as [t|] eqn:E; [|by eapply placed_wrong; [exact H|exists x]].
  destruct (decide (t = [])) as [->|]; [|done]. eapply placed_wrong; [exact H|by exists x].
Qed.
Lemma flag_placed key d : placed root (flag m at_ key d).
Proof.
  pose proof (place_under key) as H. unfold flag. destruct (get m key) as [x|]; [|destruct d; [done|by eapply placed_wrong]].
  destruct (as_bool x) as [t|] eqn:E; [done|]. eapply placed_wrong; [exact H|by exists x].
Qed.
Lemma doc_placed : placed root (doc m at_).
Proof.
  pose proof (place_under (bs "doc")) as H. unfold doc. destruct (get m (bs "doc")) as [x|]; [|done].
  destruct (as_text x) as [t|] eqn:E; [done|]. eapply placed_wrong; [exact H|by exists x].
Qed.
Lemma list_placed key : placed root (list_at m at_ key).
Proof.
  pose proof (place_under key) as H. unfold list_at. destruct (get m key) as [x|]; [|by eapply placed_wrong].
  destruct (as_list x) as [t|] eqn:E; [done|]. eapply placed_wrong; [exact H|by exists x].
Qed.
Lemma pass_placed : placed root (pass_of m at_).
Proof.
  unfold pass_of. apply placed_bind; [apply text_placed|]. intros t (x & Ex & Et & _)%text_at_Ok.
  repeat (destruct (decide _); [done|]). eapply placed_wrong; [apply (place_under (bs "pass"))|]. exists x. split_and!; [done|done|by intros []].
Qed.

(** A text read, and what it was read from. *)
Lemma said_text key t (P : Value -> Prop) : text_at m at_ key = Ok t -> (forall x, as_text x = Some t -> P x) -> exists x, get m key = Some x /\ P x.
Proof. intros (x & Ex & Et & _)%text_at_Ok H. exists x. split; [done|by apply H]. Qed.

Lemma nullable_said : flag m at_ (bs "nullable") (Some false) = Ok true -> said (get m (bs "nullable")) NullableElsewhere.
Proof. intros [(x & Ex & Eb)|[_ ?]]%flag_Ok; [|done]. by exists x. Qed.

Lemma arg_type_placed ty nl : text_at m at_ (bs "type") = Ok ty -> flag m at_ (bs "nullable") (Some false) = Ok nl -> placed root (arg_type m at_ ty nl).
Proof.
  intros Ht Hn. unfold arg_type. destruct (scalar_from_name ty) as [|] eqn:Es; [done|]. destruct (tree_of ty) as [tr|] eqn:Etr.
  - apply placed_bind; [apply pass_placed|]. intros p _. destruct (nl && _) eqn:E; [|done]. destruct nl; [|done].
    eapply placed_wrong; [apply place_under|by apply nullable_said].
  - destruct (decide (ty = bs "str")); [done|]. destruct (decide (ty = bs "bytes")); [done|]. destruct (decide (ty = bs "bytes_mut")); [done|].
    destruct (decide (ty = bs "object")).
    + apply placed_bind; [apply text_placed|]. intros k _. apply placed_bind; [apply pass_placed|]. intros p Hpp%pass_of_Ok.
      destruct (decide (p = Borrowed)) as [->|]; [|done]. eapply placed_wrong; [apply place_under|]. by apply (said_text _ _ _ Hpp).
    + eapply placed_wrong; [apply place_under|]. apply (said_text _ _ _ Ht). intros x Ex. split_and!; [done| | |].
      * intros s ->. by rewrite scalar_named in Es.
      * intros tr ->. by rewrite (proj2 (tree_named tr)) in Etr.
      * intros Hin. cbn [map] in Hin. set_solver.
Qed.
End within.

Lemma arg_placed v at_ : place root at_ (Some v) -> placed root (arg v at_).
Proof.
  intros Hp. unfold arg. apply placed_bind; [by apply map_placed|]. intros m Hm%map_at_Ok.
  apply placed_bind; [by eapply text_placed|]. intros n _. apply placed_bind; [by eapply text_placed|]. intros ty Ht.
  apply placed_bind; [by eapply flag_placed|]. intros nl Hn. apply placed_bind; [by eapply arg_type_placed|]. intros t _.
  destruct (nl && _) eqn:E; [|done]. destruct nl; [|done]. eapply placed_wrong; [by eapply place_under|by eapply nullable_said].
Qed.

Lemma answer_placed v at_ : place root at_ (Some v) -> placed root (answer v at_).
Proof.
  intros Hp. unfold answer. apply placed_bind; [by apply map_placed|]. intros m Hm%map_at_Ok.
  apply placed_bind; [by eapply text_placed|]. intros ty Ht. destruct (scalar_from_name ty) eqn:Es; [done|]. destruct (tree_of ty) eqn:Et; [done|].
  destruct (decide (ty = bs "text")); [done|]. destruct (decide (ty = bs "object")).
  - apply placed_bind; [by eapply text_placed|]. done.
  - eapply placed_wrong; [by eapply place_under|]. apply (said_text _ _ _ _ _ Ht). intros x Ex. split_and!; [done| | |].
    + intros s ->. by rewrite scalar_named in Es.
    + intros tr ->. by rewrite (proj2 (tree_named tr)) in Et.
    + intros Hin. cbn [map] in Hin. set_solver.
Qed.

Lemma each_placed {A} (read : Value -> bytes -> result DescriptionError A) v at_ l :
  (forall v at_, place root at_ (Some v) -> placed root (read v at_)) -> place root at_ (Some v) -> as_list v = Some l ->
  forall k i, drop i l = k -> placed root (each read at_ i k).
Proof.
  intros Hr Hp Hl. induction k as [|x k IH]; intros i Hk; [done|]. cbn.
  assert (l !! i = Some x) as Hi.
  { assert (drop i l !! 0%nat = Some x) as E by (by rewrite Hk). by rewrite lookup_drop, Nat.add_0_r in E. }
  apply placed_bind; [apply Hr; by eapply place_item|]. intros a _. apply placed_bind; [apply IH|done].
  by rewrite <- Nat.add_1_r, <- drop_drop, Hk.
Qed.
End placing.

(** ** What a slot was read from *)

Lemma arg_from v at_ a : arg v at_ = Ok a -> named v = Some (arg_name a) /\
  exists m x, as_map v = Some m /\ get m (bs "type") = Some x /\ (arg_ty a = ArgBytesMut -> as_text x = Some (bs "bytes_mut")) /\ (is_object (arg_ty a) = true -> as_text x = Some (bs "object")).
Proof.
  unfold arg. intros (m & Hm & H)%bind_Ok. apply map_at_Ok in Hm. apply bind_Ok in H as (n & Hn & H). apply bind_Ok in H as (ty & Ht & H). apply bind_Ok in H as (nl & _ & H).
  apply bind_Ok in H as (t & Hty & H). destruct (nl && negb (is_tree t)); [done|]. injection H as <-. cbn [arg_name arg_ty].
  apply text_at_Ok in Hn as (x & Ex & Et & _). apply text_at_Ok in Ht as (y & Ey & Eyt & _). split; [unfold named; rewrite Hm; cbn [mbind option_bind]; by rewrite Ex|].
  exists m, y. split_and!; [done|done| |]; intros Ha; rewrite Eyt; f_equal; unfold arg_type in Hty; destruct (scalar_from_name ty); try (injection Hty as <-; done);
    (destruct (tree_of ty); [apply bind_Ok in Hty as (? & _ & Hty); destruct (nl && _); [done|]; by injection Hty as <-|]);
    repeat (destruct (decide _); [first [by injection Hty as <-|done|subst; by injection Hty as <-|idtac]|]); try done.
  apply bind_Ok in Hty as (? & _ & Hty). apply bind_Ok in Hty as (? & _ & Hty). destruct (decide _); [done|]. by injection Hty as <-.
Qed.

Lemma answer_from v at_ a : answer v at_ = Ok a -> answers_object (Some a) = true -> exists m x, as_map v = Some m /\ get m (bs "type") = Some x /\ as_text x = Some (bs "object").
Proof.
  unfold answer. intros (m & Hm & H)%bind_Ok. apply map_at_Ok in Hm. apply bind_Ok in H as (ty & Ht & H). apply text_at_Ok in Ht as (y & Ey & Eyt & _).
  intros Ha. exists m, y. split_and!; [done|done|]. rewrite Eyt. f_equal.
  destruct (scalar_from_name ty); [by injection H as <-|]. destruct (tree_of ty); [by injection H as <-|].
  destruct (decide _); [by injection H as <-|]. by destruct (decide _).
Qed.

Lemma each_from {A} (read : Value -> bytes -> result DescriptionError A) at_ l : forall i out, each read at_ i l = Ok out ->
  forall j a, out !! j = Some a -> exists x, l !! j = Some x /\ read x (item_of at_ (i + j)) = Ok a.
Proof.
  induction l as [|v l IH]; intros i out; cbn [each]; [by intros [= <-]|]. intros (b & Hb & H)%bind_Ok. apply bind_Ok in H as (r & Hr & H). injection H as <-.
  intros [|j] a Hj; cbn in Hj.
  - injection Hj as <-. exists v. split; [done|]. by rewrite Nat.add_0_r.
  - destruct (IH (S i) r Hr j a Hj) as (x & Ex & E). exists x. split; [done|]. by replace (i + S j)%nat with (S i + j)%nat by lia.
Qed.

Lemma slot_from v at_ s : slot v at_ = Ok s -> named v = Some (slot_name s) /\
  exists m, as_map v = Some m /\
    (exists x l, get m (bs "args") = Some x /\ as_list x = Some l /\
      forall j a, slot_args s !! j = Some a -> exists y, l !! j = Some y /\ arg y (item_of (under_key at_ (bs "args")) j) = Ok a) /\
    (forall a, slot_answer s = Some a -> exists x, get m (bs "answer") = Some x /\ answer x (under_key at_ (bs "answer")) = Ok a).
Proof.
  unfold slot. intros (m & Hm & H)%bind_Ok. apply map_at_Ok in Hm. apply bind_Ok in H as (n & Hn & H). do 2 apply bind_Ok in H as (? & _ & H). apply bind_Ok in H as (l & Hl & H).
  apply bind_Ok in H as (args & Ha & H). apply bind_Ok in H as (an & Han & H). apply bind_Ok in H as (se & _ & H). apply bind_Ok in H as (d & Hd & H).
  injection H as <-. cbn. apply text_at_Ok in Hn as (w & Ew & Et & _). split; [unfold named; rewrite Hm; cbn [mbind option_bind]; by rewrite Ew|].
  apply list_at_Ok in Hl as (y & Ey & El). exists m. split_and!; [done| |].
  - exists y, l. split_and!; [done|done|]. intros j a Hj. by apply (each_from _ _ _ _ _ Ha).
  - intros a ->. destruct (get m (bs "answer")) as [z|]; [|done]. apply bind_Ok in Han as (a' & Ea & [= <-]). by exists z.
Qed.

Section slots.
Context (root : Value).

Lemma slot_placed v at_ : place root at_ (Some v) -> placed root (slot v at_).
Proof.
  intros Hp. unfold slot. apply placed_bind; [by apply map_placed|]. intros m Hm%map_at_Ok.
  apply placed_bind; [by eapply text_placed|]. intros n _. do 2 (apply placed_bind; [by eapply flag_placed|]; intros ? _).
  apply placed_bind; [by eapply list_placed|]. intros l (y & Ey & El)%list_at_Ok.
  apply placed_bind.
  { eapply (each_placed root arg y); [by apply arg_placed| |exact El|apply drop_0]. rewrite <- Ey. by eapply place_under. }
  intros args _. apply placed_bind.
  { destruct (get m (bs "answer")) as [z|] eqn:Ez; [|done]. apply placed_bind; [|done]. apply answer_placed. rewrite <- Ez. by eapply place_under. }
  intros an _. apply placed_bind; [by eapply flag_placed|]. intros se _. apply placed_bind; [by eapply doc_placed|]. done.
Qed.

Lemma under_full at_ key : at_ <> [] -> under_key at_ key = at_ ++ bs "." ++ key.
Proof. intros H. unfold under_key. by rewrite decide_False. Qed.
Lemma item_full at_ i : item_of at_ i <> [].
Proof. unfold item_of. by destruct at_. Qed.

Lemma arg_place_is at_ i j : arg_place (item_of at_ i) j = item_of (under_key (item_of at_ i) (bs "args")) j.
Proof. unfold arg_place. by rewrite under_full by apply item_full. Qed.
Lemma arg_type_place_is at_ j : item_of at_ j ++ bs ".type" = under_key (item_of at_ j) (bs "type").
Proof. by rewrite under_full by apply item_full. Qed.
Lemma answer_type_place_is at_ i : item_of at_ i ++ bs ".answer.type" = under_key (under_key (item_of at_ i) (bs "answer")) (bs "type").
Proof. rewrite !under_full; [by rewrite <- !app_assoc|by apply item_full|]. rewrite under_full by apply item_full. by destruct (item_of at_ i). Qed.

Lemma check_placed object known at_ i v s : place root (item_of at_ i) (Some v) -> slot v (item_of at_ i) = Ok s ->
  placed root (check_slot object known (item_of at_ i) s).
Proof.
  intros Hp Hs. apply slot_from in Hs as (Hn & m & Hm & (x & l & Hx & Hl & Hargs) & Han).
  assert (Hname : forall why n, slot_name s = n -> (forall o, (exists x, o = Some x /\ named x = Some n) -> said o why) -> placed (A := unit) root (wrong (item_of at_ i) why)).
  { intros why n <- H. eapply placed_wrong; [exact Hp|]. apply H. by exists v. }
  assert (Harg : forall j a, slot_args s !! j = Some a -> exists y, place root (arg_place (item_of at_ i) j) (Some y) /\ named y = Some (arg_name a) /\
    exists z, place root (arg_place (item_of at_ i) j ++ bs ".type") (Some z) /\ (arg_ty a = ArgBytesMut -> as_text z = Some (bs "bytes_mut")) /\ (is_object (arg_ty a) = true -> as_text z = Some (bs "object"))).
  { intros j a Hj. destruct (Hargs j a Hj) as (y & Hy & Ea). apply arg_from in Ea as (En & m' & z & Em & Ez & E1 & E2).
    assert (place root (arg_place (item_of at_ i) j) (Some y)) as Hpy.
    { rewrite arg_place_is. eapply place_item; [|exact Hl|exact Hy]. rewrite <- Hx. by eapply place_key. }
    exists y. split_and!; [done|done|]. exists z. split_and!; [|done|done]. unfold arg_place in *. rewrite arg_type_place_is, <- Ez. by eapply place_key. }
  unfold check_slot. destruct (first_again _ _ _) as [[j n]|] eqn:E1.
  { apply first_again_Some in E1 as (k & Ek & ->). apply (list_lookup_fmap_Some arg_name) in Ek as (a & -> & Ea).
    destruct (Harg k a Ea) as (y & Hy & En & _). eapply placed_wrong; [exact Hy|]. by exists y. }
  destruct (list_find (λ a, arg_ty a = ArgBytesMut) (slot_args s)) as [[j a]|] eqn:E2, object.
  2: { apply list_find_Some in E2 as (El & Ea & _). destruct (Harg j a El) as (_ & _ & _ & z & Hz & E & _). eapply placed_wrong; [exact Hz|]. exists z. auto. }
  all: destruct (list_find (λ a, is_object (arg_ty a) = true) (slot_args s)) as [[j' a']|] eqn:E3, (slot_fallible s); cbn [negb andb];
    try (apply list_find_Some in E3 as (El' & Ea' & _); destruct (Harg j' a' El') as (_ & _ & _ & z & Hz & _ & E); eapply placed_wrong; [exact Hz|]; exists z; by auto).
  all: try (destruct (answers_object (slot_answer s)) eqn:Ea;
    [destruct (slot_answer s) as [an|]; [|done]; destruct (Han an eq_refl) as (y & Ey & Eay); apply answer_from in Eay as (m' & z & Em & Ez & Et); [|done];
     eapply placed_wrong; [rewrite answer_type_place_is; eapply place_key; [|exact Em]; rewrite <- Ey; by eapply place_key|]; by exists z|]).
  all: destruct (decide (slot_name s = bs "header")) as [Eh|]; [by apply (Hname _ (bs "header"))|].
  all: destruct (decide (slot_name s ∈ map slot_name known)) as [Ek|]; [by apply (Hname _ (slot_name s))|].
  all: destruct (bool_decide (slot_name s = bs "destroy")) eqn:Eb; cbn [andb]; try done.
  all: apply bool_decide_eq_true in Eb; by apply (Hname _ (bs "destroy")).
Qed.

Lemma slots_placed object v at_ l : place root at_ (Some v) -> as_list v = Some l -> forall k i known, drop i l = k -> placed root (slots_from object at_ i known k).
Proof.
  intros Hp Hl. induction k as [|x k IH]; intros i known Hk; [done|]. cbn [slots_from].
  assert (l !! i = Some x) as Hi.
  { assert (drop i l !! 0%nat = Some x) as E by (by rewrite Hk). by rewrite lookup_drop, Nat.add_0_r in E. }
  assert (place root (item_of at_ i) (Some x)) as Hpx by (by eapply place_item).
  apply placed_bind; [by apply slot_placed|]. intros s Hs. apply placed_bind; [by eapply check_placed|]. intros _ _. apply IH.
  by rewrite <- Nat.add_1_r, <- drop_drop, Hk.
Qed.

Lemma read_placed v at_ : place root at_ (Some v) -> placed root (read v at_).
Proof.
  intros Hp. unfold read. apply placed_bind; [by apply map_placed|]. intros m Hm%map_at_Ok.
  apply placed_bind; [by eapply text_placed|]. intros n _. apply placed_bind.
  { pose proof (place_under root v at_ m Hp Hm (bs "floor_hash")) as H. destruct (get m _) as [x|]; [|by eapply placed_wrong].
    destruct (int_from_value 0 u32_max x) eqn:E; [done|]. eapply placed_wrong; [exact H|by exists x]. }
  intros h _. apply placed_bind; [by eapply flag_placed|]. intros o _. apply placed_bind.
  { unfold slots_of. apply placed_bind; [by eapply list_placed|]. intros l (y & Ey & El)%list_at_Ok.
    assert (place root (under_key at_ (bs "slots")) (Some y)) as Hy by (rewrite <- Ey; by eapply place_under).
    destruct (decide (l = [])) as [->|]; [eapply placed_wrong; [exact Hy|by exists y]|]. eapply slots_placed; [exact Hy|exact El|apply drop_0]. }
  intros l _. apply placed_bind; [by eapply doc_placed|]. done.
Qed.
End slots.

Lemma document_placed v : placed v (document v).
Proof.
  unfold document. apply placed_bind; [by apply map_placed, place_root|]. intros m Hm%map_at_Ok. pose proof (place_root v) as Hr.
  apply placed_bind; [by eapply list_placed|]. intros l (y & Ey & El)%list_at_Ok. eapply each_placed; [by apply read_placed| |exact El|apply drop_0].
  rewrite <- Ey. by apply (place_key v [] v).
Qed.
Lemma document_kinds v ks : document v = Ok ks -> Forall kind_ok ks.
Proof.
  unfold document. intros (m & _ & H)%bind_Ok. apply bind_Ok in H as (l & _ & H). eapply each_ok; [|exact H]. apply read_kind_ok.
Qed.

(** ** Properties *)

(** C31: a description is one that some value reads as exactly when it is valid, and then it
    reads back from the value it is written to. *)
Theorem descriptions_exact k : (kind_ok k <-> from_value (to_value k) = Ok k) /\
  (forall v, from_value v = Ok k -> from_value (to_value k) = Ok k).
Proof.
  split; [split|].
  - apply read_back.
  - apply read_kind_ok.
  - intros v H%read_kind_ok. by apply read_back.
Qed.

Definition demo_arg (name ty : string) : Value := VMap [(bs "name", VString (bs name)); (bs "type", VString (bs ty))].
Definition demo_kind (args : list Value) : Value :=
  VMap [(bs "object", VBool false); (bs "x-note", VNull); (bs "name", VString (bs "k")); (bs "floor_hash", VNumber (bs "7"));
    (bs "slots", VList [VMap [(bs "name", VString (bs "f")); (bs "required", VBool true); (bs "fallible", VBool false); (bs "args", VList args)]])].
Definition demo_read : KindDescription :=
  MkKindDescription (bs "k") 7 false None [MkSlotDescription (bs "f") true false [MkArgDescription (bs "x") (ArgScalar SU8)] None false None].

Lemma descriptions_exact_witness : from_value (to_value demo_read) = Ok demo_read.
Proof. apply (proj2 (descriptions_exact demo_read) (demo_kind [demo_arg "x" "u8"])). vm_compute. reflexivity. Defined.

(** A refusal, of a kind or of a document of kinds, names a place there is, or one a map
    there lacks, and says of it what holds there. *)
Theorem refusals_are_placed v e : from_value v = Err e \/ document v = Err e ->
  exists o, place v (err_at e) o /\ said o (err_why e).
Proof.
  assert (placed v (from_value v)) as H1 by apply read_placed, place_root.
  pose proof (document_placed v) as H2.
  intros [E|E]; [by rewrite E in H1|by rewrite E in H2].
Qed.

Lemma refusals_are_placed_witness :
  from_value (demo_kind [demo_arg "x" "u7"]) = Err (MkDescriptionError (bs "slots[0].args[0].type") (NotAnArg (bs "u7"))) /\
  exists o, place (demo_kind [demo_arg "x" "u7"]) (bs "slots[0].args[0].type") o /\ said o (NotAnArg (bs "u7")).
Proof.
  assert (from_value (demo_kind [demo_arg "x" "u7"]) = Err (MkDescriptionError (bs "slots[0].args[0].type") (NotAnArg (bs "u7")))) as E by (vm_compute; reflexivity).
  split; [exact E|]. exact (refusals_are_placed _ _ (or_introl E)).
Defined.

(** Each slot of a valid kind is found by its name and has a word of the table to
    itself, after the header and an object's [destroy] and inside what the table's size
    says. *)
Theorem slots_have_room k word i s : kind_ok k -> 0 < word -> kd_slots k !! i = Some s ->
  kd_slot k (slot_name s) = Some (i, s) /\
  HEADER + Z.b2z (kd_object k) * word <= HEADER + word_of k (Z.of_nat i) * word /\
  HEADER + (word_of k (Z.of_nat i) + 1) * word <= size k word /\
  (forall j, word_of k (Z.of_nat j) = word_of k (Z.of_nat i) -> j = i).
Proof.
  intros [_ _ _ _ _ Hd] Hw Hi. pose proof (lookup_lt_Some _ _ _ Hi) as Hl. unfold word_of, size. split_and!; [|nia|nia|lia].
  unfold kd_slot. apply list_find_Some. split_and!; [done|done|]. intros j y Hj Hlt Ey.
  assert (map slot_name (kd_slots k) !! j = Some (slot_name s)) as E1 by (rewrite list_lookup_fmap, Hj; cbn; by rewrite Ey).
  assert (map slot_name (kd_slots k) !! i = Some (slot_name s)) as E2 by (by rewrite list_lookup_fmap, Hi).
  pose proof (NoDup_lookup _ _ _ _ Hd E1 E2). lia.
Qed.

Lemma slots_have_room_witness : kd_slot demo_read (bs "f") = Some (0%nat, MkSlotDescription (bs "f") true false [MkArgDescription (bs "x") (ArgScalar SU8)] None false None).
Proof.
  assert (kind_ok demo_read) as H by (apply (read_kind_ok (to_value demo_read) []); vm_compute; reflexivity).
  exact (proj1 (slots_have_room demo_read 8 0 _ H eq_refl eq_refl)).
Defined.
