(* ===== verification/KindHash.v ===== *)
(** * What a floor hash tells apart

    The text a kind's floor hash is taken of, of [KindDescription], says its shape and
    how every slot is called, and nothing else. *)

From S2P Require Import Prelude Decimal KindDescription.

#[local] Arguments bs _ : simpl never.

(** ** Text cut at a separator *)

Lemma cut_eq (c : Z) x y r r' : c ∉ x -> c ∉ y -> x ++ c :: r = y ++ c :: r' -> x = y /\ r = r'.
Proof.
  revert y. induction x as [|b x IH]; intros [|b' y] Hx Hy H; cbn in H.
  - by injection H.
  - injection H as -> _. by destruct Hy; left.
  - injection H as -> _. by destruct Hx; left.
  - injection H as -> H. apply not_elem_of_cons in Hx as [_ Hx], Hy as [_ Hy]. by destruct (IH y Hx Hy H) as [-> ->].
Qed.

(** Pieces each after a separator none of them has. *)
Fixpoint after_each (c : Z) (l : list bytes) : bytes := match l with [] => [] | x :: l => c :: x ++ after_each c l end.

Lemma after_each_eq c l l' : Forall (λ x, c ∉ x) l -> Forall (λ x, c ∉ x) l' -> after_each c l = after_each c l' -> l = l'.
Proof.
  assert (forall m, exists h, after_each c m = h /\ (m = [] /\ h = [] \/ exists x m', m = x :: m' /\ h = c :: x ++ after_each c m')) as _ by (intros [|x m]; eauto 10).
  revert l'. induction l as [|x l IH]; intros [|y l'] Hl Hl' H; try done. apply Forall_cons in Hl as [Hx Hl], Hl' as [Hy Hl']. cbn in H. injection H as H.
  destruct l as [|x' l], l' as [|y' l']; cbn [after_each] in H; rewrite ?app_nil_r in H.
  - by subst.
  - subst x. destruct Hx. apply elem_of_app. right. by left.
  - subst y. destruct Hy. apply elem_of_app. right. by left.
  - apply cut_eq in H as [-> H]; [|done|done]. f_equal. apply IH; [done|done|]. cbn. by rewrite H.
Qed.

Lemma joined_after c x l : joined [c] (x :: l) = x ++ after_each c l.
Proof. revert x. induction l as [|y l IH]; intros x; [by rewrite app_nil_r|]. change (joined [c] (x :: y :: l)) with (x ++ [c] ++ joined [c] (y :: l)). by rewrite IH. Qed.

Lemma joined_eq c l l' : Forall (λ x, x <> [] /\ c ∉ x) l -> Forall (λ x, x <> [] /\ c ∉ x) l' -> joined [c] l = joined [c] l' -> l = l'.
Proof.
  assert (forall x l, x <> [] -> joined [c] (x :: l) <> []) as Hne by (intros x m Hx; rewrite joined_after; by destruct x).
  destruct l as [|x l], l' as [|y l']; intros Hl Hl' H.
  - done.
  - apply Forall_cons in Hl' as [[Hy _] _]. by destruct (Hne y l' Hy).
  - apply Forall_cons in Hl as [[Hx _] _]. by destruct (Hne x l Hx).
  - apply after_each_eq with c; [by eapply Forall_impl; [exact Hl|intros ? []]|by eapply Forall_impl; [exact Hl'|intros ? []]|].
    cbn. rewrite <- !joined_after. by rewrite H.
Qed.

(** ** What is spelled *)

(** How an argument or an answer crosses, kinds by the names of their traits. *)
Definition arg_call (ty : ArgType) : ArgType :=
  match ty with
  | ArgTree t Borrowed n => ArgTree t Borrowed n
  | ArgTree t p _ => ArgTree t p false
  | ArgObject k Taken => ArgObject (pascal k) Taken
  | ArgObject k _ => ArgObject (pascal k) Lent
  | _ => ty
  end.
Definition answer_call (a : AnswerType) : AnswerType := match a with AnswerObject k => AnswerObject (pascal k) | _ => a end.
Definition slot_call (s : SlotDescription) : bytes * bool * list ArgType * option AnswerType :=
  (slot_name s, slot_fallible s, map (λ a, arg_call (arg_ty a)) (slot_args s), answer_call <$> slot_answer s).

Definition alnum (b : Z) : bool := is_digit b || is_alpha b.
Definition ident (t : bytes) : Prop := Forall (λ b, alnum b = true \/ b = 95) t.

Lemma pascal_alnum k : Forall (λ b, alnum b = true) (pascal k).
Proof.
  unfold pascal. assert (forall f, Forall (λ b, alnum b = true) (pascal_from f k)) as H; [|apply H].
  induction k as [|b k IH]; intros f; [constructor|]. cbn. destruct (is_digit b || is_alpha b) eqn:E; [|apply IH].
  constructor; [|apply IH]. destruct f; [|exact E]. unfold to_upper. destruct (is_lower b) eqn:El; [|exact E].
  unfold alnum, is_alpha, is_lower, is_upper in *. lia.
Qed.

(** A text of the spelling's own, none of whose bytes separates. *)
Definition separates (b : Z) : bool := (b =? 40) || (b =? 41) || (b =? 44) || (b =? 59).
Definition solid (t : bytes) : Prop := Forall (λ b, separates b = false) t.
Lemma solid_const t : forallb (λ b, negb (separates b)) t = true -> solid t.
Proof. intros H. apply Forall_forall. intros b Hb%list_elem_of_In. rewrite forallb_forall in H. by apply negb_true_iff, H. Qed.
Lemma alnum_solid t : Forall (λ b, alnum b = true) t -> solid t.
Proof. intros H. eapply Forall_impl; [exact H|]. intros b Hb. unfold alnum, is_alpha, is_digit, is_upper, is_lower, separates in *. lia. Qed.
Lemma ident_solid t : ident t -> solid t.
Proof.
  intros H. eapply Forall_impl; [exact H|]. intros b Hb. unfold alnum, is_alpha, is_digit, is_upper, is_lower, separates in *. lia.
Qed.
Lemma solid_app a b : solid (a ++ b) <-> solid a /\ solid b.
Proof. apply Forall_app. Qed.
Lemma solid_not t c : solid t -> separates c = true -> c ∉ t.
Proof. intros H Hc Hin. unfold solid in H. rewrite Forall_forall in H. by rewrite (H c Hin) in Hc. Qed.

Lemma arg_solid ty : solid (arg_spelled ty).
Proof.
  destruct ty as [s| | | |t p n|k p]; try by (apply solid_const; vm_compute).
  - apply solid_const. by destruct s.
  - apply solid_const. by destruct t, p, n.
  - destruct p; cbn [arg_spelled]; rewrite !solid_app; split_and!; try by (apply solid_const; vm_compute). all: by apply alnum_solid, pascal_alnum.
Qed.
Lemma arg_nonempty ty : arg_spelled ty <> [].
Proof. destruct ty as [s| | | |t p n|k p]; [by destruct s|done|done|done|by destruct t, p, n|by destruct p]. Qed.

Lemma scalar_name_inj s s' : scalar_name s = scalar_name s' -> s = s'.
Proof. destruct s, s'; vm_compute; congruence. Qed.

(** The spelling of a call; it tells the call. *)
Definition spell (ty : ArgType) : bytes :=
  match ty with
  | ArgObject kind Taken => bs "Object<dyn" ++ kind ++ bs ">"
  | ArgObject kind _ => bs "&mutdyn" ++ kind
  | _ => arg_spelled ty
  end.
Lemma arg_spelled_call ty : arg_spelled ty = spell (arg_call ty).
Proof. by destruct ty as [s| | | |t [] n|k []]. Qed.
Definition a_call (ty : ArgType) : Prop :=
  match ty with ArgTree _ (Taken | Lent) n => n = false | ArgObject _ p => p <> Borrowed | _ => True end.
Lemma call_a_call ty : a_call (arg_call ty).
Proof. by destruct ty as [s| | | |t [] n|k []]. Qed.

(** The first byte of a scalar's name is a small letter; of any other spelling, none. *)
Lemma scalar_small s : exists b l, scalar_name s = b :: l /\ is_lower b = true.
Proof. destruct s; do 2 eexists; by split. Qed.
Lemma spell_scalar s ty : scalar_name s = spell ty -> ty = ArgScalar s.
Proof.
  destruct ty as [s'| | | |t p n|k p]; intros H; [by apply scalar_name_inj in H as ->|..]; exfalso; destruct (scalar_small s) as (b & l & E & Hb); rewrite E in H.
  5: destruct p. 4: destruct t, p, n. all: vm_compute in H; injection H as H _; by subst b.
Qed.

Lemma spell_eq ty ty' : a_call ty -> a_call ty' -> spell ty = spell ty' -> ty = ty'.
Proof.
  intros Hc Hc' H. destruct ty as [s| | | |t p n|k p]; [by apply spell_scalar in H as ->|..];
    (destruct ty' as [s'| | | |t' p' n'|k' p']; [symmetry in H; by apply spell_scalar in H as ->|..]).
  all: try destruct t, p, n; try done.
  all: try destruct t', p', n'; try done.
  all: try (destruct p; try done); try (destruct p'; try done).
  all: try (exfalso; vm_compute in H; discriminate).
  - unfold spell in H. apply app_inv_head, app_inv_tail in H. by subst.
  - unfold spell in H. apply app_inv_head in H. by subst.
Qed.

Lemma arg_spelled_eq ty ty' : arg_spelled ty = arg_spelled ty' <-> arg_call ty = arg_call ty'.
Proof. rewrite !arg_spelled_call. split; [|by intros ->]. apply spell_eq; apply call_a_call. Qed.

(** ** Signatures *)

Definition answer_said (a : option AnswerType) (fallible : bool) : bytes :=
  let a := match a with Some a => answer_spelled a | None => bs "()" end in
  if fallible then bs "Result<" ++ a ++ bs ",ProviderError>" else a.

Definition answer_text (a : option AnswerType) : bytes := match a with Some a => answer_spelled a | None => bs "()" end.

Lemma answer_text_call a : answer_text a = match answer_call <$> a with Some (AnswerObject k) => bs "Object<dyn" ++ k ++ bs ">" | a => answer_text a end.
Proof. by destruct a as [[]|]. Qed.
Lemma answer_text_eq a a' : answer_text a = answer_text a' <-> answer_call <$> a = answer_call <$> a'.
Proof.
  split; [|intros E; by rewrite (answer_text_call a), (answer_text_call a'), E].
  assert (Hs : forall s a, scalar_name s = answer_text a -> a = Some (AnswerScalar s)).
  { intros s [[s'| |t|k]|] H; [by apply scalar_name_inj in H as ->|..]; exfalso; destruct (scalar_small s) as (b & l & E & Hb); rewrite E in H.
    2: destruct t. all: vm_compute in H; injection H as H _; by subst b. }
  intros H. destruct a as [[s| |t|k]|]; [by apply Hs in H as ->|..]; (destruct a' as [[s'| |t'|k']|]; [symmetry in H; by apply Hs in H as ->|..]).
  all: try destruct t; try destruct t'; try done.
  all: try (exfalso; vm_compute in H; discriminate).
  cbn [answer_text answer_spelled] in H. apply app_inv_head, app_inv_tail in H. cbn. by rewrite H.
Qed.

(** The first byte tells whether a slot can fail. *)
Lemma answer_text_head a r : answer_text a <> bs "Result<" ++ r.
Proof.
  destruct a as [[s| |t|k]|]; try by vm_compute.
  - cbn [answer_text answer_spelled]. destruct (scalar_small s) as (b & l & -> & Hb). intros H. vm_compute in H. injection H as H _. by subst b.
  - by destruct t.
Qed.

Lemma answer_said_eq a f a' f' : answer_said a f = answer_said a' f' <-> f = f' /\ answer_call <$> a = answer_call <$> a'.
Proof.
  rewrite <- answer_text_eq. change (answer_said a f) with (if f then bs "Result<" ++ answer_text a ++ bs ",ProviderError>" else answer_text a).
  change (answer_said a' f') with (if f' then bs "Result<" ++ answer_text a' ++ bs ",ProviderError>" else answer_text a').
  destruct f, f'; split; try (intros [? ?]; done).
  - intros H. split; [done|]. by apply app_inv_head, app_inv_tail in H.
  - by intros [_ ->].
  - intros H. symmetry in H. by apply answer_text_head in H.
  - intros H. by apply answer_text_head in H.
  - done.
Qed.

Lemma signature_eq s s' : ident (slot_name s) -> ident (slot_name s') ->
  signature s = signature s' <-> slot_call s = slot_call s'.
Proof.
  intros Hn Hn'.
  assert (Hsig : forall s, signature s = slot_name s ++ 40 :: joined [44] (map (λ a, arg_spelled (arg_ty a)) (slot_args s)) ++ 41 :: bs "->" ++ answer_said (slot_answer s) (slot_fallible s)) by done.
  assert (Hargs : forall l l', map (λ a, arg_spelled (arg_ty a)) l = map (λ a, arg_spelled (arg_ty a)) l' <-> map (λ a, arg_call (arg_ty a)) l = map (λ a, arg_call (arg_ty a)) l').
  { induction l as [|a l IH]; intros [|a' l']; cbn; try done. split; intros [= E1 E2].
    - apply arg_spelled_eq in E1. apply IH in E2. by rewrite E1, E2.
    - apply arg_spelled_eq in E1. apply IH in E2. by rewrite E1, E2. }
  assert (Hpieces : forall l (P : bytes -> Prop), (forall t, solid t -> t <> [] -> P t) -> Forall P (map (λ a, arg_spelled (arg_ty a)) l)).
  { intros l P HP. apply Forall_forall. intros t. rewrite list_elem_of_In, in_map_iff. intros (a & <- & _). apply HP; [apply arg_solid|apply arg_nonempty]. }
  assert (Hj : forall l, 41 ∉ joined [44] (map (λ a, arg_spelled (arg_ty a)) l)).
  { intros l. specialize (Hpieces l (λ t, 41 ∉ t) ltac:(intros t Ht _; by apply (solid_not t))). induction (map _ l) as [|x m IH]; [apply not_elem_of_nil|].
    apply Forall_cons in Hpieces as [Hx Hm]. specialize (IH Hm). destruct m as [|y m]; [done|]. change (joined [44] (x :: y :: m)) with (x ++ 44 :: joined [44] (y :: m)).
    rewrite not_elem_of_app, not_elem_of_cons. by split_and!. }
  rewrite !Hsig. unfold slot_call. split.
  - intros H. apply cut_eq in H as [E1 H]; [|apply solid_not; [by apply ident_solid|done]..]. apply cut_eq in H as [E2 H]; [|apply Hj..].
    apply app_inv_head, answer_said_eq in H as [E3 E4]. apply joined_eq in E2; [|apply Hpieces; intros t Ht Hne; split; [done|by apply solid_not]..].
    apply Hargs in E2. by rewrite E1, E2, E3, E4.
  - intros [= E1 E2 E3 E4]. apply Hargs in E3. rewrite E1, E3, (proj2 (answer_said_eq (slot_answer s) (slot_fallible s) (slot_answer s') (slot_fallible s'))) by done. done.
Qed.

(** ** What is hashed *)

Lemma hashed_after object slots : hashed object slots = bs (if object then "object" else "provider") ++ after_each 59 (map signature slots).
Proof.
  unfold hashed. generalize (bs (if object then "object" else "provider")). induction slots as [|s slots IH]; intros t; [by rewrite app_nil_r|].
  cbn [foldl map after_each]. rewrite IH, <- app_assoc. done.
Qed.

Lemma solid_whole t : solid t -> 59 ∉ t.
Proof. intros H. by apply solid_not. Qed.
Lemma const_whole t : forallb (λ b, negb (b =? 59)) t = true -> 59 ∉ t.
Proof. intros H Hin. rewrite forallb_forall in H. apply list_elem_of_In, H in Hin. done. Qed.

Lemma signature_whole s : ident (slot_name s) -> 59 ∉ signature s.
Proof.
  intros Hn. unfold signature. rewrite !not_elem_of_app. split_and!; try by apply const_whole.
  - by apply solid_whole, ident_solid.
  - induction (slot_args s) as [|a l IH]; [apply not_elem_of_nil|]. cbn [map]. destruct l as [|b l]; [by apply solid_whole, arg_solid|].
    change (joined (bs ",") (map ?f (a :: b :: l))) with (f a ++ 44 :: joined (bs ",") (map f (b :: l))).
    cbn [map] in IH |- *. change (joined (bs ",") (?x :: ?y :: ?m)) with (x ++ [44] ++ joined (bs ",") (y :: m)).
    rewrite !not_elem_of_app. split_and!; [by apply solid_whole, arg_solid|by apply const_whole|exact IH].
  - assert (59 ∉ answer_text (slot_answer s)) as Ha.
    { destruct (slot_answer s) as [[sc| |t|k]|]; cbn [answer_text answer_spelled]; try by apply const_whole.
      - apply const_whole. by destruct sc.
      - apply const_whole. by destruct t.
      - rewrite !not_elem_of_app. split_and!; try by apply const_whole. apply solid_whole, alnum_solid, pascal_alnum. }
    unfold answer_text in Ha. destruct (slot_fallible s); [|exact Ha]. rewrite !not_elem_of_app. split_and!; try by apply const_whole. exact Ha.
Qed.

(** ** Properties *)

(** C32: two declarations whose slots have identifiers for names hash one text exactly when
    they are of one shape and their slots are called alike, in order: the names of
    arguments, what is required, nullable where it says nothing, and documentation are
    not told apart, nor a lent object from one lent shared. *)
Theorem floor_hash_tells o o' l l' : Forall (λ s, ident (slot_name s)) l -> Forall (λ s, ident (slot_name s)) l' ->
  hashed o l = hashed o' l' <-> o = o' /\ map slot_call l = map slot_call l'.
Proof.
  intros Hl Hl'. rewrite !hashed_after.
  assert (Hw : forall l, Forall (λ s, ident (slot_name s)) l -> Forall (λ t, 59 ∉ t) (map signature l)).
  { intros m Hm. apply Forall_map. eapply Forall_impl; [exact Hm|]. apply signature_whole. }
  assert (Hcalls : map signature l = map signature l' <-> map slot_call l = map slot_call l').
  { clear Hw. revert l' Hl'. induction Hl as [|s l Hs Hl IH]; intros l' Hl'; destruct Hl' as [|s' l' Hs' Hl']; try done.
    specialize (IH l' Hl'). cbn [map].
    assert (forall A (x y : A) m m', x :: m = y :: m' <-> x = y /\ m = m') as Hcons by (intros; split; [by intros [= -> ->]|by intros [-> ->]]).
    by rewrite !Hcons, signature_eq, IH. }
  split.
  - intros H. assert (o = o') as <-.
    { destruct o, o'; [done| | |done]; exfalso; vm_compute in H; discriminate. }
    split; [done|]. apply app_inv_head in H. apply Hcalls. apply after_each_eq with 59; auto.
  - intros [-> H]. apply Hcalls in H. by rewrite H.
Qed.

Definition demo_slots (doc : option bytes) (name : bytes) : list SlotDescription :=
  [MkSlotDescription (bs "greet") true true [MkArgDescription name ArgStr; MkArgDescription (bs "to") (ArgObject (bs "sink_x") Lent)] (Some (AnswerTree TreeMap)) false doc].
Lemma floor_hash_tells_witness : hashed false (demo_slots None (bs "who")) = hashed false (demo_slots (Some (bs "Greets.")) (bs "name")).
Proof.
  assert (forall d n, Forall (λ s, ident (slot_name s)) (demo_slots d n)) as H.
  { intros d n. unfold demo_slots. apply Forall_singleton. cbn [slot_name]. unfold ident. vm_compute bs. repeat constructor. }
  apply (floor_hash_tells false false _ _ (H None (bs "who")) (H (Some (bs "Greets.")) (bs "name"))). split; reflexivity.
Defined.
