(* ===== verification/Json.v ===== *)
(** * JSON text as a value

    [library/kind/description/json.rs]: how a provider's kind descriptions arrive. The
    reader walks the text once, over a stack of the containers open, and gives what it
    reads to the builder of trees. Its position is what is left of the text. *)

From S2P Require Import Prelude Errors Number Value Keys Maps Visit TreeSink KindDescription.

(** Where the text stopped being JSON, as what is left there, and why. *)
Inductive JsonWhy : Type :=
  | IncompleteValue | RefusedValue | TextAfter | CommaOrEnd | KeyInQuotes | ColonAfterKey | ANumber | AValue | AWord
  | AnEscape | ClosingQuote | ControlEscaped | SecondHalf | ACharacter | FourHex.
#[export] Instance JsonWhy_eq_dec : EqDecision JsonWhy.
Proof. solve_decision. Defined.
Abbreviation Stop := (bytes * JsonWhy)%type (only parsing).

(** ** Strings *)

(** [Reader::space]. *)
Definition is_space (b : byte) : bool := (b =? 32) || (b =? 9) || (b =? 10) || (b =? 13).
Fixpoint space (l : bytes) : bytes := match l with b :: l' => if is_space b then space l' else l | [] => [] end.

Definition is_hexdigit (b : byte) : bool := is_digit b || ((65 <=? b) && (b <=? 70)) || ((97 <=? b) && (b <=? 102)).
Definition hex_digit (b : byte) : Z := if is_digit b then b - 48 else if b <=? 70 then b - 55 else b - 87.
(** [Reader::hex4]. *)
Definition hex4 (l : bytes) : result Stop (Z * bytes) :=
  match l with
  | a :: b :: c :: d :: l' =>
      if is_hexdigit a && is_hexdigit b && is_hexdigit c && is_hexdigit d
      then Ok (hex_digit a * 4096 + hex_digit b * 256 + hex_digit c * 16 + hex_digit d, l')
      else Err (l, FourHex)
  | _ => Err (l, FourHex)
  end.

(** [Reader::unicode], past the [u]. *)
Definition unicode (l : bytes) : result Stop (Z * bytes) :=
  '(high, l) ← hex4 l;
  '(code, l) ←
    if (0xd800 <=? high) && (high <? 0xdc00) then
      match strip_of (bs "\u") l with
      | None => Err (l, SecondHalf)
      | Some l =>
          '(low, l) ← hex4 l;
          if (0xdc00 <=? low) && (low <? 0xe000)
          then Ok (0x10000 + Z.shiftl (high - 0xd800) 10 + (low - 0xdc00), l)
          else Err (l, SecondHalf)
      end
    else Ok (high, l);
  match char_from_u32 code with Some c => Ok (c, l) | None => Err (l, ACharacter) end.

(** The run of a string up to what stops it. *)
Definition stops_run (b : byte) : bool := (b =? 34) || (b =? 92) || (b <=? 31).
Fixpoint plain_run (l : bytes) : bytes * bytes :=
  match l with
  | b :: l' => if stops_run b then ([], l) else let '(run, rest) := plain_run l' in (b :: run, rest)
  | [] => ([], [])
  end.
Definition escaped (b : byte) : option byte :=
  snd <$> list_find (λ p, p.1 = b) [(34, 34); (92, 92); (47, 47); (98, 8); (102, 12); (110, 10); (114, 13); (116, 9)] ≫= λ p, Some p.2.
(** [Reader::string], past the quote: one round of its loop, and the loop. *)
Definition string_round (st : bytes * bytes) : result Stop ((bytes * bytes) + (bytes * bytes)) :=
  let '(out, l) := st in
  let '(run, l) := plain_run l in
  let out := out ++ (if is_utf8 run then run else []) in
  match l with
  | [] => Err ([], ClosingQuote)
  | b :: l' =>
      if b =? 34 then Ok (inr (out, l'))
      else if b =? 92 then
        match l' with
        | e :: l'' =>
            if e =? 117 then '(c, l) ← unicode l''; Ok (inl (out ++ char_utf8 c, l))
            else match escaped e with Some c => Ok (inl (out ++ [c], l'')) | None => Err (l', AnEscape) end
        | [] => Err (l', AnEscape)
        end
      else Err (l, ControlEscaped)
  end.
Definition string_ (l : bytes) : result (fault Stop) (bytes * bytes) :=
  loop (λ st, map_err Refuse (string_round st)) (S (length l)) Panic ([], l).

(** [Reader::word]. *)
Definition word (w : bytes) (l : bytes) : result Stop bytes :=
  match strip_of w l with Some l => Ok l | None => Err (l, AWord) end.

Definition is_number_byte (b : byte) : bool := (b =? 45) || (b =? 43) || (b =? 46) || (b =? 101) || (b =? 69) || is_digit b.
Fixpoint number_run (l : bytes) : bytes * bytes :=
  match l with
  | b :: l' => if is_number_byte b then let '(run, rest) := number_run l' in (b :: run, rest) else ([], l)
  | [] => ([], [])
  end.

(** Past one byte, where it is next. *)
Definition eat (c : byte) (l : bytes) : option bytes := match l with b :: l' => if b =? c then Some l' else None | [] => None end.

(** ** The document *)

Inductive JOpen : Type := JMap | JList.
#[export] Instance JOpen_eq_dec : EqDecision JOpen.
Proof. solve_decision. Defined.

(** [document]'s loops: a value is due, or one was read. *)
Inductive Phase : Type := IsDue | WasRead.
Record JState := MkJState { phase : Phase; left : bytes; open_ : list JOpen; jsink : TreeSink }.

Section reading.
Context (random : Seeded).

(** [sunk]: an event given to the builder, refused at the position. *)
Definition give (ev : Event) (l : bytes) (t : TreeSink) : result (fault Stop) TreeSink :=
  match tree_sink random ev t with (Ok _, t) => Ok t | (Err _, _) => Err (Refuse (l, RefusedValue)) end.

(** [Reader::key]. *)
Definition json_key (l : bytes) (t : TreeSink) : result (fault Stop) (bytes * TreeSink) :=
  let l := space l in
  match eat 34 l with
  | None => Err (Refuse (l, KeyInQuotes))
  | Some l =>
      '(key, l) ← string_ l;
      t ← give (EvKey key) l t;
      let l := space l in
      match eat 58 l with Some l => Ok (l, t) | None => Err (Refuse (l, ColonAfterKey)) end
  end.

(** [Reader::scalar]. *)
Definition json_scalar (l : bytes) (t : TreeSink) : result (fault Stop) (bytes * TreeSink) :=
  let said w ev := l ← map_err Refuse (word w l); t ← give ev l t; Ok (l, t) in
  match l with
  | [] => Err (Refuse (l, AValue))
  | b :: l' =>
      if b =? 34 then '(text, l) ← string_ l'; t ← give (EvString text) l t; Ok (l, t)
      else if b =? 116 then said (bs "true") (EvBool true)
      else if b =? 102 then said (bs "false") (EvBool false)
      else if b =? 110 then said (bs "null") EvNull
      else if (b =? 45) || is_digit b then
        let '(run, rest) := number_run l in
        match tree_sink random (EvNumber run) t with
        | (Ok _, t) => Ok (rest, t)
        | (Err _, _) => Err (Refuse (l, ANumber))
        end
      else Err (Refuse (l, AValue))
  end.

(** A round of [document] where a value is due: to the next one due, or to what follows
    one read; *)
Definition due_round (l : bytes) (open : list JOpen) (t : TreeSink) : result (fault Stop) JState :=
  match eat 123 l, eat 91 l with
  | Some l, _ =>
      t ← give (EvMapBegin None) l t;
      let l := space l in
      match eat 125 l with
      | Some l => t ← give EvMapEnd l t; Ok (MkJState WasRead l open t)
      | None => '(l, t) ← json_key l t; Ok (MkJState IsDue l (JMap :: open) t)
      end
  | _, Some l =>
      t ← give (EvListBegin None) l t;
      let l := space l in
      match eat 93 l with
      | Some l => t ← give EvListEnd l t; Ok (MkJState WasRead l open t)
      | None => Ok (MkJState IsDue l (JList :: open) t)
      end
  | None, None => '(l, t) ← json_scalar l t; Ok (MkJState WasRead l open t)
  end.
(** and of its inner loop, in a container. *)
Definition between_round (l : bytes) (top : JOpen) (below : list JOpen) (t : TreeSink) : result (fault Stop) JState :=
  match eat 44 l with
  | Some l =>
      '(l, t) ← match top with JMap => json_key l t | JList => Ok (l, t) end;
      Ok (MkJState IsDue l (top :: below) t)
  | None =>
      match top, eat 125 l, eat 93 l with
      | JMap, Some l, _ => t ← give EvMapEnd l t; Ok (MkJState WasRead l below t)
      | JList, _, Some l => t ← give EvListEnd l t; Ok (MkJState WasRead l below t)
      | _, _, _ => Err (Refuse (l, CommaOrEnd))
      end
  end.
Definition json_round (s : JState) : result (fault Stop) (JState + (bytes * TreeSink)) :=
  let '(MkJState phase l open t) := s in
  let l := space l in
  match phase, open with
  | IsDue, _ => s ← due_round l open t; Ok (inl s)
  | WasRead, top :: below => s ← between_round l top below t; Ok (inl s)
  | WasRead, [] => if decide (l = []) then Ok (inr (l, t)) else Err (Refuse (l, TextAfter))
  end.

(** [read]. *)
Definition json_read (text : bytes) : result (fault Stop) Value :=
  '(l, t) ← loop json_round (S (S (length text))) Panic (MkJState IsDue text [] tree_new);
  match into_value_ t with Ok v => Ok v | Err _ => Err (Refuse (l, IncompleteValue)) end.

(** The offset at which it stopped. *)
Definition json_at (text : bytes) (s : Stop) : nat * JsonWhy := ((length text - length s.1)%nat, s.2).

(** ** Documents *)

Inductive DocumentError : Type := NotJson (at_ : nat) (why : JsonWhy) | NotADocument (e : DescriptionError).
Definition in_text (text : bytes) (r : result (fault Stop) Value) : result (fault DocumentError) Value :=
  map_err (λ f, match f with Refuse s => let '(at_, why) := json_at text s in Refuse (NotJson at_ why) | Panic => Panic end) r.

(** [KindDescription::document_value], [document_json] and [floor_hash_json]. *)
Definition document_value (text : bytes) : result (fault DocumentError) Value :=
  v ← in_text text (json_read text);
  _ ← map_err (λ e, Refuse (NotADocument e)) (document v);
  Ok v.
Definition document_json (text : bytes) : result (fault DocumentError) (list KindDescription) :=
  v ← document_value text; map_err (λ e, Refuse (NotADocument e)) (document v).
Definition floor_hash_json (text : bytes) : result (fault DocumentError) Z :=
  v ← in_text text (json_read text); map_err (λ e, Refuse (NotADocument e)) (floor_hash_value v).
End reading.

(** A text written with single quotes for double ones. *)
Definition quoted (s : string) : bytes := map (λ b, if b =? 39 then 34 else b) (bs s).

Example json_ex : json_read (MkSeeded 1 2) (quoted " {'a': [1, -2.5e3, true, null, {}, []], 'a' : '\u00e9\ud83d\ude00\n'} ") =
  Ok (VMap [(bs "a", VString [195; 169; 240; 159; 152; 128; 10])]).
Proof. vm_compute. reflexivity. Qed.
Example json_stops : map (λ t, match json_read (MkSeeded 1 2) (quoted t) with Err (Refuse s) => Some (json_at (quoted t) s).1 | _ => None end)
  ["{"; "{'a' 1}"; "{'a':1,}"; "[1 2]"; "[1,]"; "tru"; "01"; "'\x'"; "'\ud800'"; "{} {}"; "{1:2}"]%string =
  map Some [1; 5; 7; 3; 3; 0; 0; 2; 7; 3; 1]%nat.
Proof. vm_compute. reflexivity. Qed.
