(* ===== verification/JsonLaws.v ===== *)
(** * What JSON text says

    The grammar of RFC 8259 as a relation between values and texts, and that the reader
    of [Json] reads exactly the texts of the grammar, as the values they say. *)

From S2P Require Import Prelude Decimal Errors Number Value Keys Maps Decode Visit Encoder TreeSink KindDescription Json.

#[local] Arguments escaped _ : simpl never.
#[local] Arguments unicode _ : simpl never.
#[local] Arguments string_ _ : simpl never.
#[local] Arguments bs _ : simpl never.

(** ** UTF-8 cut at an ASCII byte *)

Lemma utf8_ascii b l : 0 <= b <= 127 -> is_utf8 (b :: l) = is_utf8 l.
Proof. intros H. cbn [is_utf8]. by replace ((0 <=? b) && (b <=? 127)) with true by lia. Qed.

Lemma utf8_cut c r : 0 <= c <= 127 -> forall a, is_utf8 (a ++ c :: r) = is_utf8 a && is_utf8 r.
Proof.
  intros Hc a. remember (length a) as n eqn:En. assert (length a <= n)%nat as Hn by lia. clear En. revert a Hn.
  assert (is_cont c = false) as Ec by (unfold is_cont; lia).
  induction n as [|n IH]; intros a Hn; (destruct a as [|b a]; [cbn [app]; by rewrite utf8_ascii|]); [cbn in Hn; lia|]. cbn in Hn.
  cbn [app is_utf8]. destruct ((0 <=? b) && (b <=? 127)); [apply IH; lia|].
  destruct ((194 <=? b) && (b <=? 223)).
  { destruct a as [|x a]; cbn [app]; [by rewrite Ec|]. rewrite IH by (cbn in Hn; lia). by rewrite andb_assoc. }
  destruct ((224 <=? b) && (b <=? 239)).
  { destruct a as [|x [|y a]]; cbn [app]; [destruct r; [done|]|by rewrite Ec, andb_false_r|].
    - replace (if b =? 224 then _ else _) with false; [done|]. destruct (b =? 224), (b =? 237); unfold is_cont; lia.
    - rewrite IH by (cbn in Hn; lia). by rewrite !andb_assoc. }
  destruct ((240 <=? b) && (b <=? 244)); [|done].
  destruct a as [|x [|y [|z a]]]; cbn [app].
  - destruct r as [|? [|? r]]; try done. replace (if b =? 240 then _ else _) with false; [done|]. destruct (b =? 240), (b =? 244); unfold is_cont; lia.
  - destruct r; [done|]. by rewrite Ec, andb_false_r.
  - by rewrite Ec, !andb_false_r.
  - rewrite IH by (cbn in Hn; lia). by rewrite !andb_assoc.
Qed.

Lemma utf8_cut_two c r a : 0 <= c <= 127 -> is_utf8 (a ++ c :: r) = true <-> is_utf8 a = true /\ is_utf8 (c :: r) = true.
Proof. intros Hc. rewrite utf8_cut, utf8_ascii by done. apply andb_true_iff. Qed.

(** ** The grammar *)

Definition spaces (w : bytes) : Prop := Forall (λ b, is_space b = true) w.

(** Four hexadecimal digits, and a character by its escapes. *)
Definition hexes (u : bytes) (n : Z) : Prop := exists a b c d, u = [a; b; c; d] /\ Forall (λ b, is_hexdigit b = true) u /\
  n = hex_digit a * 4096 + hex_digit b * 256 + hex_digit c * 16 + hex_digit d.
Definition code_text (u : bytes) (c : Z) : Prop :=
  (hexes u c /\ ~ (0xd800 <= c < 0xe000)) \/
  (exists h h' high low, u = h ++ bs "\u" ++ h' /\ hexes h high /\ hexes h' low /\ 0xd800 <= high < 0xdc00 /\ 0xdc00 <= low < 0xe000 /\
     c = 0x10000 + (high - 0xd800) * 1024 + (low - 0xdc00)).

(** A string's characters, and what spells them between its quotes. *)
Inductive spells : bytes -> bytes -> Prop :=
  | spells_end : spells [] []
  | spells_plain b t l : stops_run b = false -> spells t l -> spells (b :: t) (b :: l)
  | spells_escape e c t l : escaped e = Some c -> spells t l -> spells (c :: t) (92 :: e :: l)
  | spells_code u c t l : code_text u c -> spells t l -> spells (char_utf8 c ++ t) (92 :: 117 :: u ++ l).

Inductive name_text : bytes -> bytes -> Prop :=
  | name_is k w l w' : spaces w -> spells k l -> spaces w' -> name_text k (w ++ 34 :: l ++ 34 :: w' ++ [58]).

Inductive says : Value -> bytes -> Prop :=
  | says_null : says VNull (bs "null")
  | says_true : says (VBool true) (bs "true")
  | says_false : says (VBool false) (bs "false")
  | says_number t : json_number t -> says (VNumber t) t
  | says_string t l : spells t l -> says (VString t) (34 :: l ++ [34])
  | says_no_items w : spaces w -> says (VList []) (91 :: w ++ [93])
  | says_items vs l : items vs l -> says (VList vs) (91 :: l ++ [93])
  | says_no_members w : spaces w -> says (VMap []) (123 :: w ++ [125])
  | says_members es l : members es l -> says (VMap (set_all [] es)) (123 :: l ++ [125])
with items : list Value -> bytes -> Prop :=
  | items_one v w l w' : spaces w -> says v l -> spaces w' -> items [v] (w ++ l ++ w')
  | items_more v w l w' vs l' : spaces w -> says v l -> spaces w' -> items vs l' -> items (v :: vs) (w ++ l ++ w' ++ 44 :: l')
with members : list (bytes * Value) -> bytes -> Prop :=
  | members_one k v lk w l w' : name_text k lk -> spaces w -> says v l -> spaces w' -> members [(k, v)] (lk ++ w ++ l ++ w')
  | members_more k v lk w l w' es l' : name_text k lk -> spaces w -> says v l -> spaces w' -> members es l' ->
      members ((k, v) :: es) (lk ++ w ++ l ++ w' ++ 44 :: l').

Scheme says_ind' := Induction for says Sort Prop
with items_ind' := Induction for items Sort Prop
with members_ind' := Induction for members Sort Prop.
Combined Scheme says_items_ind from says_ind', items_ind', members_ind'.

(** A document: a value with space around it. *)
Definition json_text (v : Value) (text : bytes) : Prop := exists w l w', text = w ++ l ++ w' /\ spaces w /\ says v l /\ spaces w'.

(** ** The scanners *)

Lemma space_skips w l : spaces w -> space (w ++ l) = space l.
Proof. induction 1 as [|b w Hb Hw IH]; [done|]. cbn. by rewrite Hb. Qed.
Lemma space_stops l : match l with b :: _ => is_space b = false | [] => True end -> space l = l.
Proof. destruct l as [|b l]; [done|]. cbn. by intros ->. Qed.
Lemma space_split l : exists w, l = w ++ space l /\ spaces w /\ match space l with b :: _ => is_space b = false | [] => True end.
Proof.
  induction l as [|b l (w & E & Hw & Hs)]; [exists []; split_and!; [done|constructor|done]|]. cbn. destruct (is_space b) eqn:Eb.
  - exists (b :: w). split_and!; [by rewrite E at 1|by constructor|done].
  - exists []. split_and!; [done|constructor|done].
Qed.
Lemma space_ascii b : is_space b = true -> 0 <= b <= 127.
Proof. unfold is_space. lia. Qed.
Lemma utf8_spaces w l : spaces w -> is_utf8 (w ++ l) = is_utf8 l.
Proof. induction 1 as [|b w Hb Hw IH]; [done|]. cbn [app]. by rewrite utf8_ascii by by apply space_ascii. Qed.
Lemma utf8_space l : is_utf8 l = true -> is_utf8 (space l) = true.
Proof. destruct (space_split l) as (w & E & Hw & _). rewrite E at 1. by rewrite utf8_spaces. Qed.

Lemma hex4_Ok l n l' : hex4 l = Ok (n, l') <-> exists u, hexes u n /\ l = u ++ l'.
Proof.
  split.
  - unfold hex4. destruct l as [|a [|b [|c [|d r]]]]; try done. destruct (_ && _) eqn:E; [|done]. intros [= <- <-].
    rewrite !andb_true_iff in E. exists [a; b; c; d]. split; [|done]. exists a, b, c, d. split_and!; [done| |done]. repeat constructor; tauto.
  - intros (u & (a & b & c & d & -> & Hf & ->) & ->). rewrite !Forall_cons in Hf. destruct Hf as (H1 & H2 & H3 & H4 & _). cbn. by rewrite H1, H2, H3, H4.
Qed.
Lemma hexes_bound u n : hexes u n -> 0 <= n < 65536 /\ length u = 4%nat.
Proof.
  intros (a & b & c & d & -> & Hf & ->). rewrite !Forall_cons in Hf. destruct Hf as (H1 & H2 & H3 & H4 & _).
  assert (forall x, is_hexdigit x = true -> 0 <= hex_digit x < 16) as Hx.
  { intros x. unfold is_hexdigit, hex_digit, is_digit. destruct ((48 <=? x) && (x <=? 57)) eqn:E; [lia|]. destruct (x <=? 70) eqn:E'; lia. }
  apply Hx in H1, H2, H3, H4. split; [lia|done].
Qed.

Lemma char_from_u32_Some n : char_from_u32 n = Some n <-> 0 <= n < 0xd800 \/ 0xe000 <= n <= 0x10ffff.
Proof. unfold char_from_u32. destruct (_ || _) eqn:E; split; try done; lia. Qed.

Lemma unicode_Ok l c l' : unicode l = Ok (c, l') <-> exists u, code_text u c /\ l = u ++ l'.
Proof.
  split.
  - unfold unicode. intros ([n r] & (u & Hu & ->)%hex4_Ok & H)%bind_Ok. apply hexes_bound in Hu as Hb.
    destruct ((55296 <=? n) && (n <? 56320)) eqn:E.
    + destruct (strip_of (bs "\u") r) as [r'|] eqn:Es; [|done]. apply strip_of_Some in Es as ->.
      apply bind_Ok in H as ([c' r''] & H1 & H2). apply bind_Ok in H1 as ([n' r3] & (u' & Hu' & ->)%hex4_Ok & H1). destruct ((56320 <=? n') && (n' <? 57344)) eqn:E'; [|done].
      injection H1 as <- <-. unfold char_from_u32 in H2. destruct (_ || _); [|done]. injection H2 as <- <-.
      exists (u ++ bs "\u" ++ u'). rewrite <- !app_assoc. split; [|done]. right. exists u, u', n, n'. split_and!; try done; try lia.
      rewrite Z.shiftl_mul_pow2 by lia. lia.
    + cbn [mbind result_bind] in H. unfold char_from_u32 in H. destruct (_ || _) eqn:E'; [|done]. injection H as <- <-. exists u. split; [|done]. left. split; [done|lia].
  - intros (u & [(Hu & Hn)|(h & h' & n & n' & -> & Hu & Hu' & Hn & Hn' & ->)] & ->).
    + unfold unicode. rewrite (proj2 (hex4_Ok (u ++ l') c l')) by eauto. apply hexes_bound in Hu as Hb. cbn [mbind result_bind].
      replace ((55296 <=? c) && (c <? 56320)) with false by lia. cbn [mbind result_bind]. unfold char_from_u32. by replace (_ || _) with true by lia.
    + unfold unicode. rewrite <- !app_assoc, (proj2 (hex4_Ok _ n (bs "\u" ++ h' ++ l'))) by eauto. cbn [mbind result_bind].
      replace ((55296 <=? n) && (n <? 56320)) with true by lia. rewrite (proj2 (strip_of_Some (bs "\u") _ (h' ++ l'))) by done.
      rewrite (proj2 (hex4_Ok _ n' l')) by eauto. cbn [mbind result_bind]. replace ((56320 <=? n') && (n' <? 57344)) with true by lia.
      rewrite Z.shiftl_mul_pow2 by lia. unfold char_from_u32. replace (65536 + (n - 55296) * 2 ^ 10 + (n' - 56320)) with (65536 + (n - 55296) * 1024 + (n' - 56320)) by lia.
      cbn [mbind result_bind]. by replace (_ || _) with true by lia.
Qed.

Lemma code_text_ascii u c l : code_text u c -> is_utf8 (u ++ l) = is_utf8 l.
Proof.
  assert (forall u n l, hexes u n -> is_utf8 (u ++ l) = is_utf8 l) as Hx.
  { intros v n r (a & b & c' & d & -> & Hf & _). rewrite !Forall_cons in Hf. destruct Hf as (H1 & H2 & H3 & H4 & _). unfold is_hexdigit, is_digit in *. cbn [app].
    by rewrite !utf8_ascii by lia. }
  intros [[H _]|(h & h' & n & n' & -> & H & H' & _)]; [by eapply Hx|]. rewrite <- !app_assoc, (Hx h n) by done. change (bs "\u") with [92; 117]. cbn [app].
  rewrite !utf8_ascii by lia. by eapply Hx.
Qed.

(** ** Strings *)

(** The round, its runs taken as they are. *)
Definition run_round (st : bytes * bytes) : result Stop ((bytes * bytes) + (bytes * bytes)) :=
  let '(out, l) := st in
  let '(run, l) := plain_run l in
  let out := out ++ run in
  match l with
  | [] => Err ([], ClosingQuote)
  | b :: l' =>
      if b =? 34 then Ok (inr (out, l'))
      else if b =? 92 then
        match l' with
        | e :: l'' =>
            if e =? 117 then '(c, l) ← unicode l''; Ok (inl (out ++ char_utf8 c, l))
            else match escaped e with Some c => Ok (inl (out ++ [c], l'')) | None => Err (l', AnEscape) end
        | [] => Err (l', AnEscape)
        end
      else Err (l, ControlEscaped)
  end.

Lemma plain_run_split l : let '(run, r) := plain_run l in l = run ++ r /\ Forall (λ b, stops_run b = false) run /\
  match r with b :: _ => stops_run b = true | [] => True end.
Proof.
  induction l as [|b l IH]; cbn; [by split_and!|]. destruct (stops_run b) eqn:E; [by split_and!|].
  destruct (plain_run l) as [run r]. destruct IH as (-> & H1 & H2). split_and!; [done|by constructor|done].
Qed.

Lemma escaped_Some e c : escaped e = Some c -> 0 <= e <= 127 /\ e <> 117.
Proof.
  unfold escaped. destruct (list_find _ _) as [[i [x y]]|] eqn:E; [|done]. apply list_find_Some in E as (E & <- & _). cbn.
  repeat (destruct i as [|i]; [injection E as <- <-; intros _; lia|]). done.
Qed.

Lemma utf8_bytes_at l a b r : is_utf8 l = true -> l = a ++ b :: r -> 0 <= b < 256.
Proof. intros H ->. apply utf8_bytes in H. apply Forall_app in H as [_ H]. by apply Forall_cons in H as [? _]. Qed.

(** What stops a run cuts a text into texts. *)
Lemma utf8_run l : is_utf8 l = true -> let '(run, r) := plain_run l in is_utf8 run = true /\ is_utf8 r = true.
Proof.
  intros H. pose proof (plain_run_split l) as Hs. destruct (plain_run l) as [run r]. destruct Hs as (-> & Hf & Hr).
  destruct r as [|b r]; [by rewrite app_nil_r in H|]. pose proof (utf8_bytes_at _ _ _ _ H eq_refl). apply utf8_cut_two; [|done]. unfold stops_run in Hr. lia.
Qed.

Lemma string_round_run st : is_utf8 st.2 = true -> string_round st = run_round st.
Proof.
  destruct st as [out l]. cbn [snd]. intros H. apply utf8_run in H. unfold string_round, run_round. destruct (plain_run l) as [run r]. by destruct H as [-> _].
Qed.

Lemma run_round_next st st' : is_utf8 st.2 = true -> run_round st = Ok (inl st') -> is_utf8 st'.2 = true /\ (length st'.2 < length st.2)%nat.
Proof.
  destruct st as [out l]. cbn [snd]. intros H. pose proof (plain_run_split l) as Hs. apply utf8_run in H. unfold run_round. destruct (plain_run l) as [run r].
  destruct H as [_ H], Hs as (-> & _ & Hr). rewrite length_app. destruct r as [|b r]; [done|]. destruct (Z.eqb_spec b 34); [done|]. destruct (Z.eqb_spec b 92) as [->|]; [|done].
  rewrite utf8_ascii in H by lia. destruct r as [|e r]; [done|]. destruct (Z.eqb_spec e 117) as [->|].
  - rewrite utf8_ascii in H by lia. intros ([c l'] & (u & Hu & ->)%unicode_Ok & H')%bind_Ok. injection H' as <-. cbn [snd].
    rewrite (code_text_ascii _ _ _ Hu) in H. split; [done|]. cbn. rewrite length_app. lia.
  - destruct (escaped e) as [c|] eqn:E; [|done]. apply escaped_Some in E as [E _]. rewrite utf8_ascii in H by done. intros [= <-]. cbn. split; [done|lia].
Qed.

Lemma string_is_run l : is_utf8 l = true -> string_ l = loop (λ st, map_err Refuse (run_round st)) (S (length l)) Panic ([], l).
Proof.
  intros H. unfold string_. apply (loop_ext _ (λ st, is_utf8 st.2 = true)); [|exact (λ s s' Hs E, proj1 (run_round_next s s' Hs (proj1 (map_err_Ok _ _ _) E)))|done].
  intros st Hs. by rewrite string_round_run.
Qed.

Lemma spells_run run t l : Forall (λ b, stops_run b = false) run -> spells t l -> spells (run ++ t) (run ++ l).
Proof. intros Hf Hs. induction Hf as [|b run Hb Hf IH]; [done|]. by apply spells_plain. Qed.

Lemma run_round_plain out b l : stops_run b = false -> run_round (out, b :: l) = run_round (out ++ [b], l).
Proof. intros H. unfold run_round. cbn [plain_run]. rewrite H. destruct (plain_run l) as [run r]. by rewrite <- app_assoc. Qed.

Lemma run_reads t raw : spells t raw -> forall rest f out, (length raw < f)%nat ->
  loop (λ st, map_err Refuse (run_round st)) f Panic (out, raw ++ 34 :: rest) = Ok (out ++ t, rest).
Proof.
  induction 1 as [|b t l Hb Hs IH|e c t l He Hs IH|u c t l Hu Hs IH]; intros rest f out Hf; (destruct f as [|f]; [cbn in Hf; lia|]).
  - cbn. by rewrite app_nil_r.
  - transitivity (loop (λ st, map_err Refuse (run_round st)) (S f) Panic (out ++ [b], l ++ 34 :: rest)).
    + cbn [loop app]. by rewrite run_round_plain.
    + rewrite IH by (cbn in Hf; lia). by rewrite <- app_assoc.
  - apply escaped_Some in He as Hn. rewrite (loop_continue _ _ _ _ (out ++ [c], l ++ 34 :: rest)).
    + rewrite IH by (cbn in Hf; lia). by rewrite <- app_assoc.
    + cbn. rewrite app_nil_r. destruct (Z.eqb_spec e 117); [lia|]. by rewrite He.
  - rewrite (loop_continue _ _ _ _ (out ++ char_utf8 c, l ++ 34 :: rest)).
    + rewrite IH by (cbn in Hf; rewrite length_app in Hf; lia). by rewrite <- app_assoc.
    + cbn. rewrite app_nil_r, <- app_assoc, (proj2 (unicode_Ok (u ++ l ++ 34 :: rest) c (l ++ 34 :: rest))) by eauto. done.
Qed.

Lemma run_sound f : forall out l t rest, loop (λ st, map_err Refuse (run_round st)) f Panic (out, l) = Ok (t, rest) ->
  exists t' raw, t = out ++ t' /\ spells t' raw /\ l = raw ++ 34 :: rest.
Proof.
  induction f as [|f IH]; intros out l t rest; [done|]. cbn [loop]. pose proof (plain_run_split l) as Hs. unfold run_round at 1. destruct (plain_run l) as [run r].
  destruct Hs as (-> & Hf & Hr). destruct r as [|b r]; [done|]. destruct (Z.eqb_spec b 34) as [->|].
  { cbn. intros [= <- <-]. exists run, run. split_and!; [done| |done]. rewrite <- (app_nil_r run). apply spells_run; [done|constructor]. }
  destruct (Z.eqb_spec b 92) as [->|]; [|done]. destruct r as [|e r]; [done|]. destruct (Z.eqb_spec e 117) as [->|].
  - destruct (unicode r) as [[c l']|] eqn:E; [|done]. apply unicode_Ok in E as (u & Hu & ->). cbn.
    intros (t' & raw & -> & Hsp & ->)%IH. exists (run ++ char_utf8 c ++ t'), (run ++ 92 :: 117 :: u ++ raw).
    rewrite <- !app_assoc. cbn [app]. rewrite <- !app_assoc. split_and!; [done| |done]. apply spells_run; [done|]. by apply spells_code.
  - destruct (escaped e) as [c|] eqn:E; [|done]. cbn. intros (t' & raw & -> & Hsp & ->)%IH. exists (run ++ c :: t'), (run ++ 92 :: e :: raw).
    rewrite <- !app_assoc. cbn [app]. split_and!; [done| |done]. apply spells_run; [done|]. by apply spells_escape.
Qed.

Lemma string_reads t raw rest : spells t raw -> is_utf8 (raw ++ 34 :: rest) = true -> string_ (raw ++ 34 :: rest) = Ok (t, rest).
Proof. intros Hs Hu. rewrite string_is_run, (run_reads t raw Hs rest) by (rewrite ?length_app; done || (cbn; lia)). done. Qed.
Lemma string_sound l t rest : is_utf8 l = true -> string_ l = Ok (t, rest) -> exists raw, spells t raw /\ l = raw ++ 34 :: rest.
Proof. intros Hu H. rewrite string_is_run in H by done. apply run_sound in H as (t' & raw & -> & Hs & ->). by exists raw. Qed.

(** ** Numbers *)

Definition ends_number (r : bytes) : Prop := match r with b :: _ => is_number_byte b = false | [] => True end.

Lemma number_run_reads t r : Forall (λ b, is_number_byte b = true) t -> ends_number r -> number_run (t ++ r) = (t, r).
Proof.
  intros Hf Hr. induction Hf as [|b t Hb Hf IH]; cbn.
  - destruct r as [|b r]; [done|]. cbn. by rewrite Hr.
  - by rewrite Hb, IH.
Qed.
Lemma number_run_split l : let '(run, r) := number_run l in l = run ++ r /\ Forall (λ b, is_number_byte b = true) run.
Proof.
  induction l as [|b l IH]; cbn; [done|]. destruct (is_number_byte b) eqn:E; [|done]. destruct (number_run l) as [run r]. destruct IH as [-> IH]. split; [done|by constructor].
Qed.

Lemma digits_number ds : digits ds -> Forall (λ b, is_number_byte b = true) ds.
Proof. intros H. eapply Forall_impl; [exact H|]. intros b Hb. unfold is_number_byte. rewrite Hb. by rewrite !orb_true_r. Qed.
Lemma json_number_bytes t : json_number t -> Forall (λ b, is_number_byte b = true) t /\ exists b l, t = b :: l /\ (b = 45 \/ is_digit b = true).
Proof.
  intros (m & i & f & e & -> & Hm & Hi & Hf & He).
  assert (Forall (λ b, is_number_byte b = true) m) as Bm by (destruct Hm as [-> | ->]; repeat constructor).
  assert (Forall (λ b, is_number_byte b = true) i /\ exists b l, i = b :: l /\ is_digit b = true) as [Bi (b & l & Ei & Hb)].
  { destruct Hi as [->|(d & ds & -> & Hd & Hds)]; [split; [repeat constructor|by exists 48, []]|].
    assert (is_digit d = true) as Hd' by (apply is_digit_spec; lia). split; [|by exists d, ds]. apply digits_number. by constructor. }
  assert (Forall (λ b, is_number_byte b = true) f) as Bf.
  { destruct Hf as [->|(ds & -> & Hd & _)]; [constructor|]. constructor; [done|]. by apply digits_number. }
  assert (Forall (λ b, is_number_byte b = true) e) as Be.
  { destruct He as [->|(e' & s & ds & -> & Hee & Hs & Hd & _)]; [constructor|]. constructor; [destruct Hee as [-> | ->]; done|]. apply Forall_app.
    split; [destruct Hs as [->|[->| ->]]; repeat constructor|by apply digits_number]. }
  split; [by rewrite !Forall_app|]. destruct Hm as [-> | ->].
  - exists b, (l ++ f ++ e). rewrite Ei. split; [done|by right].
  - exists 45, (i ++ f ++ e). split; [done|by left].
Qed.

(** ** The builder, as the containers open and what they hold *)

Inductive Held : Type := HList (l : list Value) | HMap (m : Map) (key : option bytes).
Definition Holding : Type := list Held * option Value.

Definition held_rel (g : Growing) (h : Held) : Prop :=
  match g, h with
  | GList l, HList l' => l = l'
  | GMap map k given, HMap m key => f_map map = m /\ filling_ok map /\ match key with Some k' => given = true /\ k = k' | None => given = false end
  | _, _ => False
  end.
Definition holds (t : TreeSink) (s : Holding) : Prop := built t = s.2 /\ Forall2 held_rel (growing t) s.1.

(** A value may come next, and comes. *)
Definition awaits (s : Holding) : Prop :=
  match s with ([], d) => d = None | (HList _ :: _, _) => True | (HMap _ key :: _, _) => is_Some key end.
Definition placed_in (v : Value) (s : Holding) : Holding :=
  match s with
  | ([], _) => ([], Some v)
  | (HList l :: below, d) => (HList (l ++ [v]) :: below, d)
  | (HMap m (Some k) :: below, d) => (HMap (set_ m k v) None :: below, d)
  | (HMap m None :: below, d) => s
  end.

Section builder.
Context (random : Seeded).

Lemma ready_awaits t s : holds t s -> awaits s -> ready t = (Ok (), t).
Proof.
  intros [Hb Hg] Ha. destruct s as [hs d], t as [gs b sd]. cbn [fst snd built growing] in *. subst b. unfold ready. cbn [growing built].
  destruct Hg as [|g h gs hs Hg _]; [cbn in Ha; by subst d|]. destruct g as [l|mp k []], h as [l'|m key]; try done. destruct Hg as (_ & _ & Hk). destruct key; [by destruct Hk|by destruct Ha].
Qed.

Lemma place_holds v t s : holds t s -> awaits s -> exists t', TreeSink.place random v t = (Ok (), t') /\ holds t' (placed_in v s).
Proof.
  intros [Hb Hg] Ha. destruct s as [hs d], t as [gs b sd]. cbn [fst snd built growing] in *. subst b. unfold TreeSink.place. cbn [growing built tree_seeds].
  destruct Hg as [|g h gs hs Hg Hgs]; [cbn in Ha; subst d; by eexists|].
  destruct g as [l|mp k given], h as [l'|m [k'|]]; try done; try (by destruct Ha).
  - cbn in Hg. subst l'. eexists. split; [done|]. split; [done|]. by constructor.
  - destruct Hg as (Hm & Hok & -> & ->). destruct (filling_set_ok random mp sd k' v Hok) as [E1 E2]. destruct (filling_set random mp sd k' v) as [mp' sd']. cbn [fst] in *.
    eexists. split; [done|]. split; [done|]. constructor; [|done]. split_and!; [by rewrite E1, Hm|done|done].
Qed.

(** Each event given where it may come. *)
Definition leaf_of (ev : Event) : option Value :=
  match ev with EvNull => Some VNull | EvBool b => Some (VBool b) | EvString t => Some (VString t) | _ => None end.

Lemma give_leaf ev v l t s : leaf_of ev = Some v -> holds t s -> awaits s -> exists t', give random ev l t = Ok t' /\ holds t' (placed_in v s).
Proof.
  intros Hv Ht Ha. destruct (place_holds v t s Ht Ha) as (t' & E & Ht'). exists t'. split; [|done].
  unfold give. destruct ev; try done; injection Hv as <-; cbn [tree_sink]; rewrite (steps_Ok _ _ _ _ _ (ready_awaits _ _ Ht Ha)), E; done.
Qed.
Lemma sink_number x t s : holds t s -> awaits s -> 
  if is_number x then exists t', tree_sink random (EvNumber x) t = (Ok (), t') /\ holds t' (placed_in (VNumber x) s)
  else exists e t', tree_sink random (EvNumber x) t = (Err e, t').
Proof.
  intros Ht Ha. cbn [tree_sink]. rewrite (steps_Ok _ _ _ _ _ (ready_awaits _ _ Ht Ha)). destruct (is_number x); [by apply place_holds|by do 2 eexists].
Qed.

Lemma give_list_begin l t s : holds t s -> awaits s -> exists t', give random (EvListBegin None) l t = Ok t' /\ holds t' (HList [] :: s.1, s.2).
Proof.
  intros Ht Ha. unfold give. cbn [tree_sink]. rewrite (steps_Ok _ _ _ _ _ (ready_awaits _ _ Ht Ha)). eexists. split; [done|]. destruct Ht. split; [done|]. by constructor.
Qed.
Lemma give_map_begin l t s : holds t s -> awaits s -> exists t', give random (EvMapBegin None) l t = Ok t' /\ holds t' (HMap [] None :: s.1, s.2).
Proof.
  intros Ht Ha. unfold give. cbn [tree_sink]. rewrite (steps_Ok _ _ _ _ _ (ready_awaits _ _ Ht Ha)). eexists. split; [done|]. destruct Ht. split; [done|]. by constructor.
Qed.
Lemma give_key k l t m below d : holds t (HMap m None :: below, d) -> exists t', give random (EvKey k) l t = Ok t' /\ holds t' (HMap m (Some k) :: below, d).
Proof.
  intros [Hb Hg]. unfold give. cbn [tree_sink]. destruct t as [gs b sd]. cbn [fst snd built growing] in *. inversion Hg as [|g h gs' hs' H1 H2]; subst.
  destruct g as [|mp k0 given]; [done|]. destruct H1 as (H11 & H12 & ->). eexists. split; [done|]. split; [done|]. by constructor.
Qed.
Lemma give_list_end l t vs below d : holds t (HList vs :: below, d) -> awaits (below, d) -> exists t', give random EvListEnd l t = Ok t' /\ holds t' (placed_in (VList vs) (below, d)).
Proof.
  intros [Hb Hg] Ha. unfold give. cbn [tree_sink]. destruct t as [gs b sd]. cbn [fst snd built growing tree_seeds] in *. inversion Hg as [|g h gs' hs' H1 H2]; subst.
  destruct g as [vs'|]; [|done]. cbn in H1. subst vs'. destruct (place_holds (VList vs) (MkTreeSink gs' d sd) (below, d) ltac:(by split) Ha) as (t' & E & Ht').
  rewrite E. by exists t'.
Qed.
Lemma give_map_end l t m below d : holds t (HMap m None :: below, d) -> awaits (below, d) -> exists t', give random EvMapEnd l t = Ok t' /\ holds t' (placed_in (VMap m) (below, d)).
Proof.
  intros [Hb Hg] Ha. unfold give. cbn [tree_sink]. destruct t as [gs b sd]. cbn [fst snd built growing tree_seeds] in *. inversion Hg as [|g h gs' hs' H1 H2]; subst.
  destruct g as [|mp k0 given]; [done|]. destruct H1 as (H11 & H12 & ->). destruct (place_holds (VMap m) (MkTreeSink gs' d sd) (below, d) ltac:(by split) Ha) as (t' & E & Ht').
  rewrite H11, E. by exists t'.
Qed.
End builder.

(** ** Every text of the grammar is read *)

Lemma eat_Some c l l' : eat c l = Some l' <-> l = c :: l'.
Proof. destruct l as [|b l]; cbn; [done|]. destruct (Z.eqb_spec b c) as [->|]; naive_solver. Qed.
Lemma eat_here c l : eat c (c :: l) = Some l.
Proof. by apply eat_Some. Qed.
Lemma eat_other c b l : b <> c -> eat c (b :: l) = None.
Proof. intros H. cbn. by destruct (Z.eqb_spec b c). Qed.

Lemma space_here b l : is_space b = false -> space (b :: l) = b :: l.
Proof. intros H. by apply space_stops. Qed.
Lemma space_idem l : space (space l) = space l.
Proof. destruct (space_split l) as (w & _ & _ & H). by apply space_stops. Qed.

#[local] Arguments json_key : simpl never.
#[local] Arguments give : simpl never.

Section completeness.
Context (random : Seeded).
Local Abbreviation step := (json_round random).

Lemma key_space l t : json_key random (space l) t = json_key random l t.
Proof. unfold json_key. by rewrite space_idem. Qed.

Lemma key_reads k lk rest t m below d : name_text k lk -> is_utf8 (lk ++ rest) = true -> holds t (HMap m None :: below, d) ->
  exists t', json_key random (lk ++ rest) t = Ok (rest, t') /\ holds t' (HMap m (Some k) :: below, d) /\ is_utf8 rest = true.
Proof.
  destruct 1 as [k w raw w' Hw Hs Hw']. intros Hu Ht.
  assert (Hl : (w ++ 34 :: raw ++ 34 :: w' ++ [58]) ++ rest = w ++ 34 :: raw ++ 34 :: w' ++ 58 :: rest) by (by rewrite <- app_assoc; cbn; rewrite <- app_assoc; cbn; rewrite <- app_assoc).
  rewrite Hl in *. rewrite utf8_spaces, utf8_ascii in Hu by (done || lia). apply utf8_cut_two in Hu as Hu'; [|lia]. destruct Hu' as [_ Hu'].
  rewrite utf8_ascii, utf8_spaces, utf8_ascii in Hu' by (done || lia).
  unfold json_key. rewrite space_skips, space_here, eat_here by done. cbv zeta. rewrite (string_reads k raw) by done. cbn [mbind result_bind].
  destruct (give_key random k (w' ++ 58 :: rest) t m below d Ht) as (t' & -> & Ht'). cbn [mbind result_bind].
  rewrite space_skips, space_here, eat_here by done. by exists t'.
Qed.

(** A round where a value is due, and one where a container goes on, space before it or
    not. *)
Lemma due_step w l open t s : spaces w -> space l = l -> due_round random l open t = Ok s -> step (MkJState IsDue (w ++ l) open t) = Ok (inl s).
Proof. intros Hw Hl E. cbn [json_round]. by rewrite space_skips, Hl, E. Qed.
Lemma between_step w l top below t s : spaces w -> space l = l -> between_round random l top below t = Ok s -> step (MkJState WasRead (w ++ l) (top :: below) t) = Ok (inl s).
Proof. intros Hw Hl E. cbn [json_round]. by rewrite space_skips, Hl, E. Qed.

(** From a value due to the value read. *)
Definition value_reads (v : Value) (l : bytes) : Prop := forall w rest open t s,
  spaces w -> is_utf8 (l ++ rest) = true -> ends_number rest -> holds t s -> awaits s ->
  exists t', rounds step (MkJState IsDue (w ++ l ++ rest) open t) (MkJState WasRead rest open t') /\ holds t' (placed_in v s).
(** From the items of a list, or the members of a map, to the container read. *)
Definition items_read (vs : list Value) (l : bytes) : Prop := forall vs0 rest open t below d,
  is_utf8 (l ++ 93 :: rest) = true -> holds t (HList vs0 :: below, d) -> awaits (below, d) ->
  exists t', rounds step (MkJState IsDue (l ++ 93 :: rest) (JList :: open) t) (MkJState WasRead rest open t') /\ holds t' (placed_in (VList (vs0 ++ vs)) (below, d)).
Definition members_read (es : list (bytes * Value)) (l : bytes) : Prop := forall (m : list (bytes * Value)) (rest : bytes) (open : list JOpen) (t : TreeSink) below d,
  is_utf8 (l ++ 125 :: rest) = true -> holds t (HMap m None :: below, d) -> awaits (below, d) ->
  exists (l1 : bytes) (t1 t' : TreeSink), json_key random (l ++ 125 :: rest) t = Ok (l1, t1) /\
    rounds step (MkJState IsDue l1 (JMap :: open) t1) (MkJState WasRead rest open t') /\ holds t' (placed_in (VMap (set_all m es)) (below, d)).

Lemma ends_space w c r : spaces w -> is_number_byte c = false -> ends_number (w ++ c :: r).
Proof. intros Hw Hc. destruct Hw as [|b w Hb]; [done|]. cbn. unfold is_space in Hb. unfold is_number_byte, is_digit. lia. Qed.

Lemma scalar_step w l rest open t t' : spaces w -> space (l ++ rest) = l ++ rest -> eat 123 (l ++ rest) = None -> eat 91 (l ++ rest) = None ->
  json_scalar random (l ++ rest) t = Ok (rest, t') -> rounds step (MkJState IsDue (w ++ l ++ rest) open t) (MkJState WasRead rest open t').
Proof.
  intros Hw Hl E1 E2 E. eapply rounds_step; [|apply rounds_refl]. apply due_step; [done|done|]. unfold due_round. rewrite E1, E2, E. done.
Qed.

Lemma value_null : value_reads VNull (bs "null").
Proof.
  intros w rest open t s Hw Hu Hr Ht Ha. destruct (give_leaf random EvNull VNull rest t s eq_refl Ht Ha) as (t' & E & Ht'). exists t'. split; [|done].
  apply scalar_step; try done. change (json_scalar random (bs "null" ++ rest) t) with (t ← give random EvNull rest t; Ok (E := fault Stop) (rest, t)). by rewrite E.
Qed.
Lemma value_bool b : value_reads (VBool b) (bs (if b then "true" else "false")).
Proof.
  intros w rest open t s Hw Hu Hr Ht Ha. destruct (give_leaf random (EvBool b) (VBool b) rest t s eq_refl Ht Ha) as (t' & E & Ht'). exists t'. split; [|done].
  destruct b; apply scalar_step; try done.
  - change (json_scalar random (bs "true" ++ rest) t) with (t ← give random (EvBool true) rest t; Ok (E := fault Stop) (rest, t)). by rewrite E.
  - change (json_scalar random (bs "false" ++ rest) t) with (t ← give random (EvBool false) rest t; Ok (E := fault Stop) (rest, t)). by rewrite E.
Qed.

Lemma value_string x l : spells x l -> value_reads (VString x) (34 :: l ++ [34]).
Proof.
  intros Hs w rest open t s Hw Hu Hr Ht Ha. destruct (give_leaf random (EvString x) (VString x) rest t s eq_refl Ht Ha) as (t' & E & Ht'). exists t'. split; [|done].
  assert ((34 :: l ++ [34]) ++ rest = 34 :: l ++ 34 :: rest) as El by (cbn; by rewrite <- app_assoc). rewrite El in Hu. rewrite utf8_ascii in Hu by lia.
  apply scalar_step; try done. rewrite El. change (json_scalar random (34 :: l ++ 34 :: rest) t) with ('(text, l) ← string_ (l ++ 34 :: rest); t ← give random (EvString text) l t; Ok (E := fault Stop) (l, t)).
  rewrite (string_reads x l rest Hs Hu). cbn [mbind result_bind]. by rewrite E.
Qed.

Lemma value_number x : json_number x -> value_reads (VNumber x) x.
Proof.
  intros Hx w rest open t s Hw Hu Hr Ht Ha. pose proof (sink_number random x t s Ht Ha) as H. rewrite (proj2 (is_number_spec x) Hx) in H.
  destruct H as (t' & E & Ht'). exists t'. split; [|done]. destruct (json_number_bytes x Hx) as (Hf & b & l & -> & Hb).
  assert (48 <= b <= 57 \/ b = 45) as Hb' by (destruct Hb as [->|?%is_digit_spec]; lia).
  assert (is_space b = false) as Hsp by (unfold is_space; lia).
  apply scalar_step; [done|by apply space_here|by apply eat_other; lia|by apply eat_other; lia|].
  cbn [json_scalar app]. destruct (Z.eqb_spec b 34); [lia|]. destruct (Z.eqb_spec b 116); [lia|]. destruct (Z.eqb_spec b 102); [lia|]. destruct (Z.eqb_spec b 110); [lia|].
  replace ((b =? 45) || is_digit b) with true by (unfold is_digit; lia).
  rewrite (number_run_reads (b :: l) rest Hf Hr : number_run (b :: l ++ rest) = _). by rewrite E.
Qed.

Lemma items_split (vs : list Value) l : items vs l -> exists w c r, spaces w /\ is_space c = false /\ c <> 93 /\ l = w ++ c :: r.
Proof.
  assert (forall v l, says v l -> exists c r, l = c :: r /\ is_space c = false /\ c <> 93) as Hv.
  { intros v x Hs. destruct Hs as [| | |t Ht|t x Hs|w Hw|vs' x Hi|w Hw|es x Hm]; try (do 2 eexists; by split_and!).
    destruct (json_number_bytes t Ht) as (_ & b & x & -> & Hb). exists b, x. unfold is_digit, is_space in *. split_and!; [done|lia|lia]. }
  intros [v w x w' Hw Hs Hw'|v w x w' vs' x' Hw Hs Hw' Hi]; destruct (Hv v x Hs) as (c & r & -> & Hc & Hn); exists w, c; eexists; split_and!; try done.
Qed.

Lemma name_split k l : name_text k l -> exists w r, spaces w /\ l = w ++ 34 :: r.
Proof. intros [k' w raw w' Hw Hs Hw']. by exists w, (raw ++ 34 :: w' ++ [58]). Qed.
Lemma members_split es l : members es l -> exists w r, spaces w /\ l = w ++ 34 :: r.
Proof.
  intros [k v lk w x w' Hk Hw Hs Hw'|k v lk w x w' es' x' Hk Hw Hs Hw' Hm]; destruct (name_split _ _ Hk) as (w0 & r & Hw0 & ->); exists w0; rewrite <- app_assoc; by eexists.
Qed.

Lemma value_no_items w0 : spaces w0 -> value_reads (VList []) (91 :: w0 ++ [93]).
Proof.
  intros Hw0 w rest open t s Hw Hu Hr Ht Ha. assert ((91 :: w0 ++ [93]) ++ rest = 91 :: w0 ++ 93 :: rest) as -> by (cbn; by rewrite <- app_assoc).
  destruct (give_list_begin random (w0 ++ 93 :: rest) t s Ht Ha) as (t1 & E1 & Ht1).
  assert (awaits (s.1, s.2)) as Ha' by (by destruct s).
  destruct (give_list_end random rest t1 [] s.1 s.2 Ht1 Ha') as (t2 & E2 & Ht2). exists t2. split; [|by destruct s].
  eapply rounds_step; [|apply rounds_refl]. apply due_step; [done|done|]. unfold due_round. rewrite eat_other, eat_here by done. rewrite E1. cbn [mbind result_bind].
  cbv zeta. rewrite space_skips, space_here, eat_here by done. by rewrite E2.
Qed.
Lemma value_no_members w0 : spaces w0 -> value_reads (VMap []) (123 :: w0 ++ [125]).
Proof.
  intros Hw0 w rest open t s Hw Hu Hr Ht Ha. assert ((123 :: w0 ++ [125]) ++ rest = 123 :: w0 ++ 125 :: rest) as -> by (cbn; by rewrite <- app_assoc).
  destruct (give_map_begin random (w0 ++ 125 :: rest) t s Ht Ha) as (t1 & E1 & Ht1).
  assert (awaits (s.1, s.2)) as Ha' by (by destruct s).
  destruct (give_map_end random rest t1 [] s.1 s.2 Ht1 Ha') as (t2 & E2 & Ht2). exists t2. split; [|by destruct s].
  eapply rounds_step; [|apply rounds_refl]. apply due_step; [done|done|]. unfold due_round. rewrite eat_here. rewrite E1. cbn [mbind result_bind].
  cbv zeta. rewrite space_skips, space_here, eat_here by done. by rewrite E2.
Qed.

Lemma value_items vs l : items vs l -> items_read vs l -> value_reads (VList vs) (91 :: l ++ [93]).
Proof.
  intros Hi IH w rest open t s Hw Hu Hr Ht Ha. assert ((91 :: l ++ [93]) ++ rest = 91 :: l ++ 93 :: rest) as El by (cbn; by rewrite <- app_assoc).
  rewrite El in *. rewrite utf8_ascii in Hu by lia. destruct (give_list_begin random (l ++ 93 :: rest) t s Ht Ha) as (t1 & E1 & Ht1).
  assert (awaits (s.1, s.2)) as Ha' by (by destruct s). destruct (items_split vs l Hi) as (w0 & c & r & Hw0 & Hc & Hc' & ->).
  rewrite <- app_assoc in Hu. cbn [app] in Hu. rewrite utf8_spaces in Hu by done.
  destruct (IH [] rest open t1 s.1 s.2) as (t2 & H2 & Ht2); [|done|done|].
  { rewrite <- app_assoc. cbn [app]. by rewrite utf8_spaces. }
  exists t2. split; [|by destruct s]. rewrite <- app_assoc in *. cbn [app] in *.
  eapply rounds_step; [apply due_step; [done|done|]; unfold due_round; rewrite eat_other, eat_here, E1 by done; cbn [mbind result_bind]; cbv zeta;
    rewrite space_skips, space_here, eat_other by done; done|].
  inversion H2 as [|s1 s2 s3 E2 H2']; subst.
  eapply rounds_step; [|exact H2']. rewrite <- E2. cbn [json_round]. by rewrite space_skips, !space_here.
Qed.

Lemma value_members es l : members es l -> members_read es l -> value_reads (VMap (set_all [] es)) (123 :: l ++ [125]).
Proof.
  intros Hi IH w rest open t s Hw Hu Hr Ht Ha. assert ((123 :: l ++ [125]) ++ rest = 123 :: l ++ 125 :: rest) as El by (cbn; by rewrite <- app_assoc).
  rewrite El in *. rewrite utf8_ascii in Hu by lia. destruct (give_map_begin random (l ++ 125 :: rest) t s Ht Ha) as (t1 & E1 & Ht1).
  assert (awaits (s.1, s.2)) as Ha' by (by destruct s). destruct (members_split es l Hi) as (w0 & r & Hw0 & ->).
  destruct (IH [] rest open t1 s.1 s.2 Hu Ht1 Ha') as (l1 & t2 & t3 & Ek & H2 & Ht3). exists t3. split; [|by destruct s].
  rewrite <- app_assoc in *. cbn [app] in *. rewrite <- key_space, space_skips, space_here in Ek by done.
  eapply rounds_step; [apply due_step; [done|done|]; unfold due_round; rewrite eat_here, E1 by done; cbn [mbind result_bind]; cbv zeta;
    rewrite space_skips, space_here, eat_other by done; rewrite Ek; done|]. exact H2.
Qed.

Lemma items_one_read v w l w' : spaces w -> value_reads v l -> spaces w' -> items_read [v] (w ++ l ++ w').
Proof.
  intros Hw Hv Hw' vs0 rest open t below d Hu Ht Ha. rewrite <- !app_assoc in *. rewrite utf8_spaces in Hu by done.
  destruct (Hv w (w' ++ 93 :: rest) (JList :: open) t (HList vs0 :: below, d) Hw Hu) as (t1 & H1 & Ht1); [by apply ends_space|done|done|].
  destruct (give_list_end random rest t1 (vs0 ++ [v]) below d Ht1 Ha) as (t2 & E2 & Ht2). exists t2. split; [|done].
  eapply rounds_trans; [exact H1|]. eapply rounds_step; [|apply rounds_refl]. apply between_step; [done|done|]. unfold between_round.
  rewrite !eat_other, eat_here by done. by rewrite E2.
Qed.
Lemma items_more_read v w l w' vs l' : spaces w -> value_reads v l -> spaces w' -> items_read vs l' -> items_read (v :: vs) (w ++ l ++ w' ++ 44 :: l').
Proof.
  intros Hw Hv Hw' IH vs0 rest open t below d Hu Ht Ha. rewrite <- !app_assoc in *. cbn [app] in *. rewrite utf8_spaces in Hu by done.
  destruct (Hv w (w' ++ 44 :: l' ++ 93 :: rest) (JList :: open) t (HList vs0 :: below, d) Hw) as (t1 & H1 & Ht1); [exact Hu|by apply ends_space|done|done|].
  rewrite app_assoc in Hu. apply utf8_cut_two in Hu as [_ Hu]; [|lia]. rewrite utf8_ascii in Hu by lia.
  destruct (IH (vs0 ++ [v]) rest open t1 below d Hu Ht1 Ha) as (t2 & H2 & Ht2). exists t2. split; [|by rewrite <- app_assoc in Ht2].
  eapply rounds_trans; [exact H1|]. eapply rounds_step; [|exact H2]. apply between_step; [done|done|]. unfold between_round. by rewrite eat_here.
Qed.

Lemma members_one_read k v lk w l w' : name_text k lk -> spaces w -> value_reads v l -> spaces w' -> members_read [(k, v)] (lk ++ w ++ l ++ w').
Proof.
  intros Hk Hw Hv Hw' m rest open t below d Hu Ht Ha. rewrite <- !app_assoc in *.
  destruct (key_reads k lk (w ++ l ++ w' ++ 125 :: rest) t m below d Hk Hu Ht) as (t1 & E1 & Ht1 & Hu1).
  rewrite utf8_spaces in Hu1 by done. destruct (Hv w (w' ++ 125 :: rest) (JMap :: open) t1 (HMap m (Some k) :: below, d) Hw Hu1) as (t2 & H2 & Ht2); [by apply ends_space|done|by exists k|].
  destruct (give_map_end random rest t2 (set_ m k v) below d Ht2 Ha) as (t3 & E3 & Ht3). exists (w ++ l ++ w' ++ 125 :: rest), t1, t3. split_and!; [done| |done].
  eapply rounds_trans; [exact H2|]. eapply rounds_step; [|apply rounds_refl]. apply between_step; [done|done|]. unfold between_round.
  rewrite eat_other, eat_here by done. by rewrite E3.
Qed.
Lemma members_more_read k v lk w l w' es l' : name_text k lk -> spaces w -> value_reads v l -> spaces w' -> members_read es l' ->
  members_read ((k, v) :: es) (lk ++ w ++ l ++ w' ++ 44 :: l').
Proof.
  intros Hk Hw Hv Hw' IH m rest open t below d Hu Ht Ha. rewrite <- !app_assoc in *. cbn [app] in *. rewrite <- ?app_assoc in *.
  destruct (key_reads k lk (w ++ l ++ w' ++ 44 :: l' ++ 125 :: rest) t m below d Hk Hu Ht) as (t1 & E1 & Ht1 & Hu1).
  rewrite utf8_spaces in Hu1 by done. destruct (Hv w (w' ++ 44 :: l' ++ 125 :: rest) (JMap :: open) t1 (HMap m (Some k) :: below, d) Hw Hu1) as (t2 & H2 & Ht2); [by apply ends_space|done|by exists k|].
  rewrite app_assoc in Hu1. apply utf8_cut_two in Hu1 as [_ Hu1]; [|lia]. rewrite utf8_ascii in Hu1 by lia.
  destruct (IH (set_ m k v) rest open t2 below d Hu1 Ht2 Ha) as (l1 & t3 & t4 & E3 & H4 & Ht4). exists (w ++ l ++ w' ++ 44 :: l' ++ 125 :: rest), t1, t4. split_and!; [done| |done].
  eapply rounds_trans; [exact H2|]. eapply rounds_step; [|exact H4]. apply between_step; [done|done|]. unfold between_round. by rewrite eat_here, E3.
Qed.

Lemma grammar_reads : (forall v l, says v l -> value_reads v l) /\ (forall vs l, items vs l -> items_read vs l) /\ (forall es l, members es l -> members_read es l).
Proof.
  apply says_items_ind.
  - apply value_null.
  - apply (value_bool true).
  - apply (value_bool false).
  - apply value_number.
  - apply value_string.
  - apply value_no_items.
  - apply value_items.
  - apply value_no_members.
  - apply value_members.
  - intros. by apply items_one_read.
  - intros. by apply items_more_read.
  - intros. by apply members_one_read.
  - intros. by apply members_more_read.
Qed.
End completeness.

(** ** What is read is of the grammar *)

Lemma spaces_app w w' : spaces w -> spaces w' -> spaces (w ++ w').
Proof. intros. by apply Forall_app. Qed.

Lemma items_snoc vs l0 w v l : items vs l0 -> spaces w -> says v l -> items (vs ++ [v]) (l0 ++ 44 :: w ++ l).
Proof.
  intros Hi Hw Hs. induction Hi as [v0 w0 x w1 H1 H2 H3|v0 w0 x w1 vs l' H1 H2 H3 Hi IH]; rewrite <- !app_assoc; cbn [app].
  - apply items_more; try done. rewrite <- (app_nil_r l). apply items_one; [done|done|constructor].
  - rewrite <- ?app_assoc. by apply items_more.
Qed.
Lemma items_trail vs l0 w : items vs l0 -> spaces w -> items vs (l0 ++ w).
Proof.
  intros Hi Hw. induction Hi as [v0 w0 x w1 H1 H2 H3|v0 w0 x w1 vs l' H1 H2 H3 Hi IH]; rewrite <- !app_assoc; cbn [app].
  - apply items_one; [done|done|by apply spaces_app].
  - rewrite <- ?app_assoc. by apply items_more.
Qed.
Lemma members_snoc es l0 k lk w v l : members es l0 -> name_text k lk -> spaces w -> says v l -> members (es ++ [(k, v)]) (l0 ++ 44 :: lk ++ w ++ l).
Proof.
  intros Hi Hk Hw Hs. induction Hi as [k0 v0 lk0 w0 x w1 H0 H1 H2 H3|k0 v0 lk0 w0 x w1 es l' H0 H1 H2 H3 Hi IH]; rewrite <- !app_assoc; cbn [app].
  - apply members_more; try done. rewrite <- (app_nil_r l). apply members_one; [done|done|done|constructor].
  - rewrite <- ?app_assoc. by apply members_more.
Qed.
Lemma members_trail es l0 w : members es l0 -> spaces w -> members es (l0 ++ w).
Proof.
  intros Hi Hw. induction Hi as [k0 v0 lk0 w0 x w1 H0 H1 H2 H3|k0 v0 lk0 w0 x w1 es l' H0 H1 H2 H3 Hi IH]; rewrite <- !app_assoc; cbn [app].
  - apply members_one; [done|done|done|by apply spaces_app].
  - rewrite <- ?app_assoc. by apply members_more.
Qed.

(** What was read where a value is due, and where one was just read. *)
Inductive due_at : list Held -> list JOpen -> bytes -> Prop :=
  | due_top : due_at [] [] []
  | due_first hs os p w w' : due_at hs os p -> spaces w -> spaces w' -> due_at (HList [] :: hs) (JList :: os) (p ++ w ++ 91 :: w')
  | due_item hs os p w vs l : due_at hs os p -> spaces w -> items vs l -> due_at (HList vs :: hs) (JList :: os) (p ++ w ++ 91 :: l ++ [44])
  | due_named hs os p w k lk : due_at hs os p -> spaces w -> name_text k lk -> due_at (HMap [] (Some k) :: hs) (JMap :: os) (p ++ w ++ 123 :: lk)
  | due_member hs os p w es l k lk : due_at hs os p -> spaces w -> members es l -> name_text k lk ->
      due_at (HMap (set_all [] es) (Some k) :: hs) (JMap :: os) (p ++ w ++ 123 :: l ++ 44 :: lk).
Inductive read_at : Holding -> list JOpen -> bytes -> Prop :=
  | read_top v w l : spaces w -> says v l -> read_at ([], Some v) [] (w ++ l)
  | read_item hs os p w vs l : due_at hs os p -> spaces w -> items vs l -> read_at (HList vs :: hs, None) (JList :: os) (p ++ w ++ 91 :: l)
  | read_member hs os p w es l : due_at hs os p -> spaces w -> members es l -> read_at (HMap (set_all [] es) None :: hs, None) (JMap :: os) (p ++ w ++ 123 :: l).

Lemma due_awaits hs os p : due_at hs os p -> awaits (hs, None).
Proof. destruct 1; cbn; try done; by eexists. Qed.

Lemma set_all_snoc m es k v : set_all m (es ++ [(k, v)]) = set_ (set_all m es) k v.
Proof. unfold set_all. by rewrite foldl_app. Qed.

Lemma value_at hs os p w v l : due_at hs os p -> spaces w -> says v l -> read_at (placed_in v (hs, None)) os (p ++ w ++ l).
Proof.
  intros Hd Hw Hs. destruct Hd as [|hs os p w0 w' Hd Hw0 Hw'|hs os p w0 vs x Hd Hw0 Hi|hs os p w0 k lk Hd Hw0 Hk|hs os p w0 es x k lk Hd Hw0 Hm Hk]; cbn [placed_in].
  - by apply (read_top v w l).
  - rewrite <- !app_assoc. cbn [app]. rewrite <- (app_nil_r l). replace (w' ++ w ++ l ++ []) with ((w' ++ w) ++ l ++ []) by (by rewrite <- app_assoc).
    apply read_item; [done|done|]. apply items_one; [by apply spaces_app|done|constructor].
  - rewrite <- !app_assoc. cbn [app]. rewrite <- app_assoc. cbn [app]. apply read_item; [done|done|]. by apply items_snoc.
  - rewrite <- !app_assoc. cbn [app]. apply (read_member hs os p w0 [(k, v)]); [done|done|]. rewrite <- (app_nil_r l). apply members_one; [done|done|done|constructor].
  - rewrite <- !app_assoc. cbn [app]. rewrite <- app_assoc. cbn [app]. rewrite <- set_all_snoc. apply read_member; [done|done|]. by apply members_snoc.
Qed.

Section soundness.
Context (random : Seeded).

Lemma json_key_sound l t l' t' m below d : json_key random l t = Ok (l', t') -> is_utf8 l = true -> holds t (HMap m None :: below, d) ->
  exists k lk, name_text k lk /\ l = lk ++ l' /\ holds t' (HMap m (Some k) :: below, d) /\ is_utf8 l' = true.
Proof.
  unfold json_key. intros H Hu Ht. destruct (space_split l) as (w & El & Hw & _). destruct (eat 34 (space l)) as [l1|] eqn:E1; [|done]. apply eat_Some in E1.
  rewrite E1 in El. subst l. rewrite utf8_spaces, utf8_ascii in Hu by (done || lia).
  apply bind_Ok in H as ([k l2] & Es & H). apply string_sound in Es as (raw & Hs & ->); [|done].
  apply utf8_cut_two in Hu as [_ Hu]; [|lia]. rewrite utf8_ascii in Hu by lia.
  apply bind_Ok in H as (t1 & Eg & H). destruct (give_key random k l2 t m below d Ht) as (t2 & Eg' & Ht2). rewrite Eg in Eg'. injection Eg' as <-.
  destruct (space_split l2) as (w' & El & Hw' & _). destruct (eat 58 (space l2)) as [l3|] eqn:E2; [|done]. apply eat_Some in E2. rewrite E2 in El. subst l2.
  injection H as <- <-. rewrite utf8_spaces, utf8_ascii in Hu by (done || lia). exists k, (w ++ 34 :: raw ++ 34 :: w' ++ [58]). split_and!; [done| |done|done].
  rewrite <- app_assoc. cbn. rewrite <- app_assoc. cbn. by rewrite <- app_assoc.
Qed.

Lemma scalar_sound l t l' t' s : json_scalar random l t = Ok (l', t') -> is_utf8 l = true -> holds t s -> awaits s ->
  exists v x, says v x /\ l = x ++ l' /\ holds t' (placed_in v s) /\ is_utf8 l' = true.
Proof.
  intros H Hu Ht Ha.
  assert (Hleaf : forall x ev v, (l1 ← map_err Refuse (word x l); t1 ← give random ev l1 t; Ok (l1, t1)) = Ok (l', t') ->
    leaf_of ev = Some v -> says v x -> Forall (λ b, 0 <= b <= 127) x -> exists v x, says v x /\ l = x ++ l' /\ holds t' (placed_in v s) /\ is_utf8 l' = true).
  { intros x ev v E Hev Hs Hx. apply bind_Ok in E as (l1 & E1 & E). apply map_err_Ok in E1. unfold word in E1. destruct (strip_of x l) as [l2|] eqn:E2; [|done].
    injection E1 as ->. apply strip_of_Some in E2 as ->. apply bind_Ok in E as (t1 & Eg & E). destruct (give_leaf random ev v l1 t s Hev Ht Ha) as (t2 & Eg' & Ht2).
    rewrite Eg in Eg'. injection Eg' as <-. injection E as <- <-. exists v, x. split_and!; [done|done|done|].
    clear -Hu Hx. induction Hx as [|b x Hb Hx IH]; [done|]. cbn [app] in Hu. rewrite utf8_ascii in Hu by done. auto. }
  unfold json_scalar in H. destruct l as [|b l]; [done|]. destruct (Z.eqb_spec b 34) as [->|].
  { rewrite utf8_ascii in Hu by lia. apply bind_Ok in H as ([x l1] & Es & H). apply string_sound in Es as (raw & Hs & ->); [|done]. apply utf8_cut_two in Hu as [_ Hu]; [|lia].
    rewrite utf8_ascii in Hu by lia. apply bind_Ok in H as (t1 & Eg & H). destruct (give_leaf random (EvString x) (VString x) l1 t s eq_refl Ht Ha) as (t2 & Eg' & Ht2).
    rewrite Eg in Eg'. injection Eg' as <-. injection H as <- <-. exists (VString x), (34 :: raw ++ [34]). split_and!; [by constructor|cbn; by rewrite <- app_assoc|done|done]. }
  destruct (Z.eqb_spec b 116); [eapply Hleaf; [exact H|done|constructor|by repeat constructor]|].
  destruct (Z.eqb_spec b 102); [eapply Hleaf; [exact H|done|constructor|by repeat constructor]|].
  destruct (Z.eqb_spec b 110); [eapply Hleaf; [exact H|done|constructor|by repeat constructor]|].
  destruct ((b =? 45) || is_digit b); [|done]. pose proof (number_run_split (b :: l)) as Hn. destruct (number_run (b :: l)) as [run r]. destruct Hn as [El Hf].
  pose proof (sink_number random run t s Ht Ha) as Hs. destruct (is_number run) eqn:En; [|destruct Hs as (e & t1 & Es); by rewrite Es in H].
  destruct Hs as (t1 & Es & Ht1). rewrite Es in H. injection H as <- <-. exists (VNumber run), run. split_and!; [constructor; by apply is_number_spec|done|done|].
  rewrite El in Hu. clear -Hu Hf. induction Hf as [|c x Hb Hx IH]; [done|]. cbn [app] in Hu. rewrite utf8_ascii in Hu by (unfold is_number_byte, is_digit in Hb; lia). auto.
Qed.

(** What a round keeps: what was consumed is of the grammar as far as it goes, and the
    builder holds what it says. *)
Definition going (text : bytes) (s : JState) : Prop := exists pre hs d,
  text = pre ++ left s /\ is_utf8 (left s) = true /\ holds (jsink s) (hs, d) /\
  match phase s with IsDue => d = None /\ due_at hs (open_ s) pre | WasRead => read_at (hs, d) (open_ s) pre end.

Lemma due_holds hs os p v : due_at hs os p -> (exists hs' d', placed_in v (hs, None) = (hs', d')).
Proof. destruct (placed_in v (hs, None)) as [hs' d']. by exists hs', d'. Qed.

Lemma going_value pre w x v l os hs t : due_at hs os pre -> spaces w -> says v x -> is_utf8 l = true -> holds t (placed_in v (hs, None)) ->
  going (pre ++ w ++ x ++ l) (MkJState WasRead l os t).
Proof.
  intros Hd Hw Hs Hu Ht. exists (pre ++ w ++ x), (placed_in v (hs, None)).1, (placed_in v (hs, None)).2. cbn [left jsink phase open_].
  rewrite <- surjective_pairing. split_and!; [by rewrite <- !app_assoc|done|done|]. by apply value_at.
Qed.

Lemma due_sound text w l os pre hs t s' : text = pre ++ w ++ l -> is_utf8 l = true -> spaces w -> due_at hs os pre -> holds t (hs, None) ->
  due_round random l os t = Ok s' -> going text s' /\ (length (left s') < length l)%nat.
Proof.
  intros -> Hu Hw Hd Ht H. pose proof (due_awaits _ _ _ Hd) as Ha. unfold due_round in H.
  destruct (eat 123 l) as [l1|] eqn:E1; [|destruct (eat 91 l) as [l1|] eqn:E2].
  - apply eat_Some in E1 as ->. rewrite utf8_ascii in Hu by lia. apply bind_Ok in H as (t1 & Eg & H).
    destruct (give_map_begin random l1 t _ Ht Ha) as (t2 & Eg' & Ht2). rewrite Eg in Eg'. injection Eg' as <-. cbn [fst snd] in Ht2.
    destruct (space_split l1) as (w' & El & Hw' & _). pose proof (f_equal length El) as Hlen. rewrite length_app in Hlen. destruct (eat 125 (space l1)) as [l2|] eqn:E2.
    + apply eat_Some in E2. rewrite E2 in El, Hlen. subst l1. rewrite utf8_spaces, utf8_ascii in Hu by (done || lia).
      apply bind_Ok in H as (t3 & Eg3 & H). destruct (give_map_end random l2 t1 [] hs None Ht2 Ha) as (t4 & Eg4 & Ht4). rewrite Eg3 in Eg4. injection Eg4 as <-.
      injection H as <-. split; [|cbn in *; lia]. replace (123 :: w' ++ 125 :: l2) with ((123 :: w' ++ [125]) ++ l2) by (cbn; by rewrite <- app_assoc).
      eapply going_value; [done|done|by constructor|done|done].
    + apply bind_Ok in H as ([l2 t3] & Ek & H). rewrite key_space in Ek. destruct (json_key_sound l1 t1 l2 t3 [] hs None Ek Hu Ht2) as (k & lk & Hk & -> & Ht3 & Hu3).
      injection H as <-. split; [|cbn; rewrite length_app; lia]. exists (pre ++ w ++ 123 :: lk), (HMap [] (Some k) :: hs), None. cbn [left jsink phase open_].
      split_and!; [rewrite <- !app_assoc; cbn; done|done|done|done|]. by apply due_named.
  - apply eat_Some in E2 as ->. rewrite utf8_ascii in Hu by lia. apply bind_Ok in H as (t1 & Eg & H).
    destruct (give_list_begin random l1 t _ Ht Ha) as (t2 & Eg' & Ht2). rewrite Eg in Eg'. injection Eg' as <-. cbn [fst snd] in Ht2.
    destruct (space_split l1) as (w' & El & Hw' & _). pose proof (f_equal length El) as Hlen. rewrite length_app in Hlen. destruct (eat 93 (space l1)) as [l2|] eqn:E2.
    + apply eat_Some in E2. rewrite E2 in El, Hlen. subst l1. rewrite utf8_spaces, utf8_ascii in Hu by (done || lia).
      apply bind_Ok in H as (t3 & Eg3 & H). destruct (give_list_end random l2 t1 [] hs None Ht2 Ha) as (t4 & Eg4 & Ht4). rewrite Eg3 in Eg4. injection Eg4 as <-.
      injection H as <-. split; [|cbn in *; lia]. replace (91 :: w' ++ 93 :: l2) with ((91 :: w' ++ [93]) ++ l2) by (cbn; by rewrite <- app_assoc).
      eapply going_value; [done|done|by constructor|done|done].
    + injection H as <-. split; [|cbn; lia]. exists (pre ++ w ++ 91 :: w'), (HList [] :: hs), None. cbn [left jsink phase open_].
      split_and!; [rewrite <- !app_assoc; cbn; by rewrite El at 1|by apply utf8_space|done|done|]. by apply due_first.
  - apply bind_Ok in H as ([l2 t2] & Es & H). destruct (scalar_sound l t l2 t2 _ Es Hu Ht Ha) as (v & x & Hs & -> & Ht2 & Hu2). injection H as <-.
    split; [by eapply going_value|]. cbn. rewrite length_app. destruct x; [|cbn; lia]. exfalso. inversion Hs as [| | |? Hj| | | | |]. subst.
    destruct (json_number_bytes _ Hj) as (_ & ? & ? & ? & _). done.
Qed.

Lemma between_sound text w l top below pre hs d t s' : text = pre ++ w ++ l -> is_utf8 l = true -> spaces w -> read_at (hs, d) (top :: below) pre -> holds t (hs, d) ->
  between_round random l top below t = Ok s' -> going text s' /\ (length (left s') < length l)%nat.
Proof.
  intros -> Hu Hw Hr Ht H. unfold between_round in H. inversion Hr as [|hs0 os0 p w0 vs x Hd Hw0 Hi|hs0 os0 p w0 es x Hd Hw0 Hm]; subst;
    pose proof (due_awaits _ _ _ Hd) as Ha; (destruct (eat 44 l) as [l1|] eqn:E1; [apply eat_Some in E1 as ->; rewrite utf8_ascii in Hu by lia|]).
  - cbn [mbind result_bind] in H. injection H as <-. split; [|cbn; lia]. exists (p ++ w0 ++ 91 :: (x ++ w) ++ [44]), (HList vs :: hs0), None. cbn [left jsink phase open_].
    split_and!; [rewrite <- !app_assoc; cbn; by rewrite <- !app_assoc|done|done|done|]. apply due_item; [done|done|by apply items_trail].
  - destruct (eat 125 l); destruct (eat 93 l) as [l1|] eqn:E2; try done.
    all: apply eat_Some in E2 as ->; rewrite utf8_ascii in Hu by lia; apply bind_Ok in H as (t1 & Eg & H); destruct (give_list_end random l1 t vs hs0 None Ht Ha) as (t2 & Eg' & Ht2);
      rewrite Eg in Eg'; injection Eg' as <-; injection H as <-; split; [|cbn; lia].
    all: replace ((p ++ w0 ++ 91 :: x) ++ w ++ 93 :: l1) with (p ++ w0 ++ (91 :: (x ++ w) ++ [93]) ++ l1) by (rewrite <- !app_assoc; cbn; by rewrite <- !app_assoc).
    all: eapply going_value; [done|done|constructor; by apply items_trail|done|done].
  - apply bind_Ok in H as ([l2 t3] & Ek & H). destruct (json_key_sound l1 t l2 t3 _ hs0 None Ek Hu Ht) as (k & lk & Hk & -> & Ht3 & Hu3).
    injection H as <-. split; [|cbn; rewrite length_app; lia]. exists (p ++ w0 ++ 123 :: (x ++ w) ++ 44 :: lk), (HMap (set_all [] es) (Some k) :: hs0), None. cbn [left jsink phase open_].
    split_and!; [rewrite <- !app_assoc; cbn; by rewrite <- !app_assoc|done|done|done|]. apply due_member; [done|done|by apply members_trail|done].
  - destruct (eat 125 l) as [l1|] eqn:E2; [|by destruct (eat 93 l)].
    apply eat_Some in E2 as ->; rewrite utf8_ascii in Hu by lia; apply bind_Ok in H as (t1 & Eg & H); destruct (give_map_end random l1 t _ hs0 None Ht Ha) as (t2 & Eg' & Ht2);
      rewrite Eg in Eg'; injection Eg' as <-; injection H as <-; split; [|cbn; lia].
    replace ((p ++ w0 ++ 123 :: x) ++ w ++ 125 :: l1) with (p ++ w0 ++ (123 :: (x ++ w) ++ [125]) ++ l1) by (rewrite <- !app_assoc; cbn; by rewrite <- !app_assoc).
    eapply going_value; [done|done|constructor; by apply members_trail|done|done].
Qed.

Lemma round_sound text s s' : going text s -> json_round random s = Ok (inl s') -> going text s' /\ (length (left s') < length (left s))%nat.
Proof.
  intros (pre & hs & d & El & Hu & Ht & Hp) H. destruct s as [ph l os t]. cbn [left jsink phase open_] in *. cbn [json_round] in H.
  destruct (space_split l) as (w & Ew & Hw & _). pose proof (utf8_space l Hu) as Hu'.
  assert (text = pre ++ w ++ space l) as Etext by (by rewrite <- Ew). assert (length (space l) <= length l)%nat as Hle by (rewrite Ew at 2; rewrite length_app; lia).
  destruct ph.
  - destruct Hp as [-> Hd]. apply bind_Ok in H as (s1 & H & E). injection E as <-.
    destruct (due_sound text w (space l) os pre hs t s1 Etext Hu' Hw Hd Ht H) as [? ?]. split; [done|lia].
  - destruct os as [|top below]; [by destruct (decide (space l = []))|]. apply bind_Ok in H as (s1 & H & E). injection E as <-.
    destruct (between_sound text w (space l) top below pre hs d t s1 Etext Hu' Hw Hp Ht H) as [? ?]. split; [done|lia].
Qed.

Lemma holds_new : holds tree_new ([], None).
Proof. by split. Qed.
Lemma going_new text : is_utf8 text = true -> going text (MkJState IsDue text [] tree_new).
Proof. intros Hu. exists [], [], None. split; [done|]. split; [done|]. split; [apply holds_new|]. split; [done|constructor]. Qed.

Lemma read_of_grammar text v : is_utf8 text = true -> json_read random text = Ok v -> json_text v text.
Proof.
  intros Hu H. unfold json_read in H. apply bind_Ok in H as ([l t] & Hl & H). destruct (into_value_ t) as [v'|] eqn:Ev; [|done]. injection H as ->.
  apply (loop_Ok _ (going text)) in Hl as (s & (pre & hs & d & El & Hus & Ht & Hp) & Hs); [|intros s s' Hs E; by apply (round_sound text s s')|by apply going_new].
  destruct s as [ph l0 os t0]. cbn [left jsink phase open_] in *. cbn [json_round] in Hs. destruct ph; [apply bind_Ok in Hs as (? & _ & ?); done|].
  destruct os as [|top below]; [|apply bind_Ok in Hs as (? & _ & ?); done]. destruct (decide (space l0 = [])) as [E0|]; [|done]. injection Hs as <- <-.
  inversion Hp as [v0 w x Hw Hsay| |]; subst. destruct (space_split l0) as (w' & Ew & Hw' & _). rewrite E0, app_nil_r in Ew. subst w'.
  exists w, x, l0. split_and!; [by rewrite <- app_assoc|done| |done]. destruct Ht as [Hb Hg]. cbn [fst snd] in *. unfold into_value_ in Ev. inversion Hg as [E|]. rewrite <- E, Hb in Ev.
  injection Ev as ->. done.
Qed.

Lemma grammar_is_read text v : is_utf8 text = true -> json_text v text -> json_read random text = Ok v.
Proof.
  intros Hu (w & l & w' & -> & Hw & Hs & Hw'). rewrite utf8_spaces in Hu by done. destruct (proj1 (grammar_reads random) v l Hs w w' [] tree_new ([], None) Hw Hu) as (t & Hr & Hb & Hg).
  { destruct Hw' as [|b r Hb]; [done|]. cbn. unfold is_space in Hb. unfold is_number_byte, is_digit. lia. }
  { apply holds_new. }
  { done. }
  unfold json_read. assert (going (w ++ l ++ w') (MkJState IsDue (w ++ l ++ w') [] tree_new)) as Hgo by (apply going_new; by rewrite utf8_spaces).
  destruct (rounds_loop _ _ _ Hr) as [n Hn].
  rewrite (loop_fuel (json_round random) (going (w ++ l ++ w')) (λ s, length (left s)) (round_sound _) _ (n + S (length (w ++ l ++ w'))) Panic Panic _ Hgo) by (cbn; lia).
  rewrite Hn. rewrite (loop_break _ _ _ _ ([], t)).
  - cbn [mbind result_bind]. unfold into_value_. cbn [fst snd placed_in] in *. inversion Hg. by rewrite Hb.
  - cbn [json_round]. rewrite <- (app_nil_r w'), space_skips by done. done.
Qed.
End soundness.

(** ** Reading ends *)

Lemma map_err_not_panic {F A} (r : result F A) : map_err Refuse r <> Err Panic.
Proof. by destruct r. Qed.

Lemma string_ends l : is_utf8 l = true -> string_ l <> Err Panic.
Proof.
  intros Hu H. rewrite string_is_run in H by done. apply (loop_Err _ (λ st, is_utf8 st.2 = true) (λ st, length st.2)) in H as (st & _ & H); [|..|done|cbn; lia].
  - by apply map_err_not_panic in H.
  - intros s s' Hs E. apply map_err_Ok in E. by apply run_round_next.
Qed.

Lemma give_not_panic random ev l t : give random ev l t <> Err Panic.
Proof. unfold give. by destruct (tree_sink random ev t) as [[] ?]. Qed.

Lemma bind_not_panic {A B F} (r : result (fault F) A) (f : A -> result (fault F) B) : r <> Err Panic -> (forall a, r = Ok a -> f a <> Err Panic) -> (r ≫= f) <> Err Panic.
Proof. destruct r; cbn; naive_solver. Qed.

Lemma key_ends random l t : is_utf8 l = true -> json_key random l t <> Err Panic.
Proof.
  intros Hu. unfold json_key. apply utf8_space in Hu. destruct (eat 34 (space l)) as [l1|] eqn:E; [|done]. apply eat_Some in E. rewrite E, utf8_ascii in Hu by lia.
  apply bind_not_panic; [by apply string_ends|]. intros [k l2] _. apply bind_not_panic; [apply give_not_panic|]. intros t1 _. by destruct (eat 58 _).
Qed.
Lemma scalar_ends random l t : is_utf8 l = true -> json_scalar random l t <> Err Panic.
Proof.
  intros Hu. unfold json_scalar.
  assert (forall x ev, (l1 ← map_err Refuse (word x l); t1 ← give random ev l1 t; Ok (l1, t1)) <> Err Panic) as Hw.
  { intros x ev. apply bind_not_panic; [apply map_err_not_panic|]. intros l1 _. apply bind_not_panic; [apply give_not_panic|done]. }
  destruct l as [|b l]; [done|]. destruct (Z.eqb_spec b 34) as [->|].
  { rewrite utf8_ascii in Hu by lia. apply bind_not_panic; [by apply string_ends|]. intros [k l2] _. apply bind_not_panic; [apply give_not_panic|done]. }
  destruct (b =? 116); [apply Hw|]. destruct (b =? 102); [apply Hw|]. destruct (b =? 110); [apply Hw|]. destruct (_ || _); [|done].
  destruct (number_run (b :: l)) as [run r]. by destruct (tree_sink random (EvNumber run) t) as [[] ?].
Qed.

Lemma round_ends random text s : going text s -> json_round random s <> Err Panic.
Proof.
  intros (pre & hs & d & El & Hu & Ht & Hp). destruct s as [ph l os t]. cbn [left jsink phase open_] in *. apply utf8_space in Hu. cbn [json_round].
  destruct ph; [|destruct os as [|top below]; [by destruct (decide _)|]]; (apply bind_not_panic; [|done]).
  - unfold due_round. destruct (eat 123 _) as [l1|] eqn:E1; [|destruct (eat 91 _) as [l1|] eqn:E2].
    + apply eat_Some in E1. rewrite E1, utf8_ascii in Hu by lia. apply bind_not_panic; [apply give_not_panic|]. intros t1 _. cbv zeta.
      destruct (eat 125 _); (apply bind_not_panic; [|by try intros []]); [apply give_not_panic|]. rewrite key_space. by apply key_ends.
    + apply bind_not_panic; [apply give_not_panic|]. intros t1 _. cbv zeta. destruct (eat 93 _); [|done]. apply bind_not_panic; [apply give_not_panic|done].
    + apply bind_not_panic; [by apply scalar_ends|by intros []].
  - unfold between_round. destruct (eat 44 _) as [l1|] eqn:E1.
    + apply eat_Some in E1. rewrite E1, utf8_ascii in Hu by lia. apply bind_not_panic; [|by intros []]. destruct top; [by apply key_ends|done].
    + destruct top, (eat 125 (space l)), (eat 93 (space l)); try done; (apply bind_not_panic; [apply give_not_panic|done]).
Qed.

Lemma read_ends random text : is_utf8 text = true -> json_read random text <> Err Panic.
Proof.
  intros Hu. unfold json_read. apply bind_not_panic; [|by intros [l t] _; destruct (into_value_ t)]. intros H.
  apply (loop_Err _ (going text) (λ s, length (left s)) (round_sound random text)) in H as (s & Hs & H); [|by apply going_new|cbn; lia]. by apply (round_ends random text) in H.
Qed.

(** ** Properties *)



(** Nesting is not bounded: lists as deep as one likes are read, past [MAX_DEPTH]. *)
Fixpoint nested (n : nat) : Value := match n with O => VList [] | S n => VList [nested n] end.
Fixpoint nested_text (n : nat) : bytes := match n with O => [91; 93] | S n => 91 :: nested_text n ++ [93] end.

Theorem nesting_is_read random n : json_read random (nested_text n) = Ok (nested n) /\ vdepth (nested n) = S n.
Proof.
  split.
  - apply grammar_is_read.
    + assert (forall r, is_utf8 (nested_text n ++ r) = is_utf8 r) as H; [|rewrite <- (app_nil_r (nested_text n)); by rewrite H].
      induction n as [|n IH]; intros r; [done|]. cbn [nested_text app]. by rewrite utf8_ascii, <- app_assoc, IH by lia.
    + exists [], (nested_text n), []. rewrite app_nil_r. split_and!; [done|constructor| |constructor].
      induction n as [|n IH]; [apply (says_no_items []); constructor|]. cbn [nested nested_text]. apply says_items.
      rewrite <- (app_nil_r (nested_text n)). apply (items_one _ []); [constructor|done|constructor].
  - induction n as [|n IH]; [done|]. cbn [nested]. rewrite vdepth_list. cbn. by rewrite IH, Nat.max_0_r.
Qed.
