(* ===== verification/KindJson.v ===== *)
(** * Kinds read from JSON

    What a provider carries as its kinds' descriptions: text read by [Json] and then as
    [KindDescription] says. *)

From S2P Require Import Prelude Errors Number Value Keys Maps KindDescription KindLaws Json JsonLaws.

(** A document read is text of the grammar that says a map of valid kinds; and any text
    that is read as no document is refused, at a place of the text or of what it says. *)
Theorem document_json_exact random text : is_utf8 text = true ->
  match document_json random text with
  | Ok ks => Forall kind_ok ks /\ exists v, json_text v text /\ document v = Ok ks
  | Err (Refuse (NotJson at_ why)) => (forall v, ~ json_text v text) /\ (at_ <= length text)%nat
  | Err (Refuse (NotADocument e)) => exists v o, json_text v text /\ place v (err_at e) o /\ said o (err_why e)
  | Err Panic => False
  end.
Proof.
  intros Hu. unfold document_json, document_value, in_text. pose proof (read_ends random text Hu) as Hp.
  destruct (json_read random text) as [v|[s|]] eqn:E; [|cbn|done].
  - assert (json_text v text) as Hv by (by apply (read_of_grammar random)). cbn [map_err mbind result_bind].
    destruct (document v) as [ks|e] eqn:Ed; cbn [map_err mbind result_bind].
    + rewrite Ed. cbn [map_err]. split; [|by exists v]. by eapply document_kinds.
    + pose proof (document_placed v) as Hpl.
      rewrite Ed in Hpl. destruct Hpl as (o & H1 & H2). by exists v, o.
  - split; [|lia]. intros v Hv. apply (grammar_is_read random) in Hv; [|done]. by rewrite Hv in E.
Qed.

Lemma document_json_exact_witness : (3 <= length (quoted "[1 2]"))%nat /\ forall v, ~ json_text v (quoted "[1 2]").
Proof.
  assert (document_json (MkSeeded 1 2) (quoted "[1 2]") = Err (Refuse (NotJson 3 CommaOrEnd))) as E by (vm_compute; reflexivity).
  pose proof (document_json_exact (MkSeeded 1 2) (quoted "[1 2]") eq_refl) as H. rewrite E in H. exact (conj (proj2 H) (proj1 H)).
Defined.
