(* ===== verification/Args.v ===== *)
(** * A call's arguments and a reply's answer

    [protocol/args.rs] of the remote source: what a slot is called with and answers,
    written and read as the slot's description types it. Floats are their IEEE 754
    bits; what a cast between widths makes of a NaN is left open, as the language leaves
    it. An object is whatever the link makes of it ([Obj]); the calls that register one
    or make a handle of one thread the link's state ([W]). What is written into an
    output that is then refused is not kept. *)

From Stdlib Require Import SpecFloat.
From S2P Require Import Prelude Errors SchemaErrors Number Value Keys Maps Encode Decode Walk Encoder Stream KindDescription Codec.

(** ** Floats of either width *)

(** The float a pattern of [w] bits holds, [mbits] of them its fraction, and the
    pattern of a float that is not a NaN. *)
Definition ones (n : Z) : Z := Z.shiftl 1 n - 1.
Definition ebits (w mbits : Z) : Z := w - 1 - mbits.
Definition bias (w mbits : Z) : Z := ones (ebits w mbits - 1) + mbits.
Definition unpack (w mbits x : Z) : spec_float :=
  let s := Z.testbit x (w - 1) in
  let e := Z.land (Z.shiftr x mbits) (ones (ebits w mbits)) in
  let m := Z.land x (ones mbits) in
  if e =? ones (ebits w mbits) then if m =? 0 then S754_infinity s else S754_nan
  else
    let m' := if e =? 0 then m else m + Z.shiftl 1 mbits in
    match m' with Z.pos p => S754_finite s p (Z.max e 1 - bias w mbits) | _ => S754_zero s end.
Definition ieee_joined (w mbits : Z) (s : bool) (e m : Z) : Z :=
  Z.lor (Z.shiftl (Z.b2z s) (w - 1)) (Z.lor (Z.shiftl (Z.land e (ones (ebits w mbits))) mbits) (Z.land m (ones mbits))).
Definition pack (w mbits nan : Z) (x : spec_float) : Z :=
  match x with
  | S754_zero s => ieee_joined w mbits s 0 0
  | S754_infinity s => ieee_joined w mbits s (ones (ebits w mbits)) 0
  | S754_nan => ieee_joined w mbits (Z.testbit nan (w - 1)) (ones (ebits w mbits)) (Z.lor nan (Z.shiftl 1 (mbits - 1)))
  | S754_finite s m e => ieee_joined w mbits s (if Z.pos m <? Z.shiftl 1 mbits then 0 else e + bias w mbits) (Z.pos m)
  end.
Definition rounded (prec emax : Z) (x : spec_float) : spec_float :=
  match x with S754_finite s m e => binary_normalize prec emax (cond_Zopp s (Z.pos m)) e s | _ => x end.

(** [f as f32] and [f64::from], given the bits a NaN is cast to. *)
Definition narrow (nan : Z -> Z) (x : Z) : Z := pack 32 23 (nan x) (rounded 24 128 (unpack 64 52 x)).
Definition widen (nan : Z -> Z) (x : Z) : Z := pack 64 52 (nan x) (rounded 53 1024 (unpack 32 23 x)).

Example narrow_ex : map (narrow id) [0x3ff0000000000000; 0x3fb999999999999a; 0x8000000000000000; 0x7ff0000000000000; 0x47f0000000000000; 0x36a0000000000000; 0x3690000000000000]
  = [0x3f800000; 0x3dcccccd; 0x80000000; 0x7f800000; 0x7f800000; 1; 0].
Proof. reflexivity. Qed.
Example widen_ex : map (widen id) [0x3f800000; 0x3dcccccd; 0x80000000; 0xff800000; 1; 0xc2f6e979]
  = [0x3ff0000000000000; 0x3fb99999a0000000; 0x8000000000000000; 0xfff0000000000000; 0x36a0000000000000; 0xc05edd2f20000000].
Proof. reflexivity. Qed.

(** ** Data *)

(** [ObjectRef], [ObjectRef::code] and [ObjectRef::from_code]. *)
Inductive ObjectRef : Type := Senders (id : Z) | Receivers (id : Z).
#[export] Instance ObjectRef_eq_dec : EqDecision ObjectRef.
Proof. solve_decision. Defined.
Definition code (r : ObjectRef) : Z :=
  match r with
  | Senders id => wrap64 (Z.shiftl id 1)
  | Receivers id => Z.lor (wrap64 (Z.shiftl id 1)) 1
  end.
Definition from_code (code : Z) : ObjectRef :=
  if Z.land code 1 =? 0 then Senders (Z.shiftr code 1) else Receivers (Z.shiftr code 1).

(** [Arg] and [Answer], of [library/kind/runtime.rs]. *)
Inductive Arg {Obj : Type} : Type :=
  | PassBool (b : bool) | PassInt (n : Z) | PassUint (n : Z) | PassFloat (f : Z)
  | PassStr (s : bytes) | PassBytes (b : bytes) | PassBuffer (b : bytes)
  | PassValue (v : option Value) | PassMap (m : Map) | PassList (l : list Value)
  | TakenValue (v : Value) | TakenMap (m : Map) | TakenList (l : list Value)
  | LentValue (v : Value) | LentMap (m : Map) | LentList (l : list Value)
  | PassObject (o : Obj) | LentObject (o : Obj).
#[global] Arguments Arg : clear implicits.
Inductive Answer {Obj : Type} : Type :=
  | AnsNothing
  | AnsBool (b : bool) | AnsInt (n : Z) | AnsUint (n : Z) | AnsFloat (f : Z) | AnsText (t : bytes)
  | AnsValue (v : Value) | AnsMap (m : Map) | AnsList (l : list Value)
  | AnsObject (o : Obj).
#[global] Arguments Answer : clear implicits.

(** [Decoded]. *)
Inductive Decoded : Type :=
  | DecBool (b : bool) | DecInt (n : Z) | DecUint (n : Z) | DecFloat (f : Z)
  | DecStr (s : bytes) | DecBytes (b : bytes) | DecBuffer (b : bytes)
  | DecValue (v : option Value) | DecMap (m : Map) | DecList (l : list Value)
  | DecObject (r : ObjectRef).

(** ** Pieces *)

Definition type_name (ty : ArgType) : bytes :=
  bs match ty with
     | ArgScalar _ => "a scalar of the slot's type" | ArgStr => "text" | ArgBytes => "bytes" | ArgBytesMut => "a buffer"
     | ArgTree _ _ _ => "a tree" | ArgObject _ _ => "an object"
     end.
Definition mismatch {A} (i : nat) (what : bytes) : result (fault ProtocolError) A := Err (Refuse (Mismatch i what)).

Definition put_scalar_int (out : bytes) (s : Scalar) (n : Z) : option bytes :=
  match s with
  | SI8 | SI16 | SI32 | SI64 | SIsize => if (i64_min <=? n) && (n <=? i64_max) then Some (put_int out n) else None
  | SU8 | SU16 | SU32 | SU64 | SUsize => if (0 <=? n) && (n <=? u64_max) then Some (put_uint out n) else None
  | _ => None
  end.

Section calls.
Context {Obj W : Type} (random : Seeded) (nan : Z -> Z).

Definition put_scalar_float (out : bytes) (s : Scalar) (f : Z) : option bytes :=
  match s with
  | SF32 => Some (out ++ le32 (narrow nan f))
  | SF64 => Some (out ++ le64 f)
  | _ => None
  end.

Definition get_scalar (s : Scalar) : read Decoded := λ r,
  match s with
  | SBool =>
      '(b, r') ← get_byte r;
      if b =? 0 then Ok (DecBool false, r') else if b =? 1 then Ok (DecBool true, r') else Err (Refuse (Field (field_at_ r) ABool))
  | SI8 | SI16 | SI32 | SI64 | SIsize => '(n, r) ← get_int r; Ok (DecInt n, r)
  | SU8 | SU16 | SU32 | SU64 | SUsize => '(n, r) ← get_uint r; Ok (DecUint n, r)
  | SF32 => '(b, r) ← get_fixed 4 r; Ok (DecFloat (widen nan (from_le_bytes b)), r)
  | SF64 => '(b, r) ← get_fixed 8 r; Ok (DecFloat (from_le_bytes b), r)
  | SI128 | SU128 => Err (Refuse (Field (field_at_ r) AScalar))
  end.

(** [put_walk] and [put_walk_bare], of the codec, of a map or a list. *)
Definition put_walk_bare (out : bytes) (v : Value) : result (fault ProtocolError) bytes :=
  match encode_of random v out with
  | Ok out => Ok out
  | Err (Refuse e) => Err (Refuse (Unsendable e))
  | Err Panic => Err Panic
  end.
Definition put_walk (out : bytes) (v : Value) : result (fault ProtocolError) bytes :=
  out' ← put_walk_bare out v; Ok (behind_length out' (length out)).
Definition put_tree_value (out : bytes) (v : Value) : result (fault ProtocolError) bytes := map_err Refuse (put_value out v).

(** ** A call's arguments *)

(** One turn of [put_args]: what is put for an argument of type [ty]. *)
Definition put_arg (i : nat) (ty : ArgType) (arg : Arg Obj) (ref : option ObjectRef) (out : bytes) : result (fault ProtocolError) bytes :=
  let or_mismatch o := match o with Some out => Ok out | None => mismatch i (type_name ty) end in
  match ty, arg with
  | ArgScalar SBool, PassBool b => Ok (out ++ [Z.b2z b])
  | ArgScalar s, PassInt n => or_mismatch (put_scalar_int out s n)
  | ArgScalar s, PassUint n => or_mismatch (put_scalar_int out s n)
  | ArgScalar s, PassFloat f => or_mismatch (put_scalar_float out s f)
  | ArgStr, PassStr s => Ok (put_text out s)
  | ArgBytes, PassBytes b => Ok (put_bytes out b)
  | ArgBytesMut, PassBuffer b => Ok (put_uint out (len_of b))
  | ArgTree _ _ _, PassValue None => put_tree_value out VAbsent
  | ArgTree _ _ _, PassValue (Some v) => put_tree_value out v
  | ArgTree _ _ _, TakenValue v => put_tree_value out v
  | ArgTree _ _ _, LentValue v => put_tree_value out v
  | ArgTree _ _ _, PassMap m => put_walk out (VMap m)
  | ArgTree _ _ _, TakenMap m => put_walk out (VMap m)
  | ArgTree _ _ _, LentMap m => put_walk out (VMap m)
  | ArgTree _ _ _, PassList l => put_walk out (VList l)
  | ArgTree _ _ _, TakenList l => put_walk out (VList l)
  | ArgTree _ _ _, LentList l => put_walk out (VList l)
  | ArgObject _ _, _ =>
      match ref with Some r => Ok (put_uint out (code r)) | None => mismatch i (bs "an object") end
  | _, _ => mismatch i (type_name ty)
  end.
Fixpoint put_args (i : nat) (descs : list ArgDescription) (args : list (Arg Obj)) (refs : list (option ObjectRef)) (out : bytes)
  : result (fault ProtocolError) bytes :=
  match args, descs with
  | arg :: args, desc :: descs =>
      out ← put_arg i (arg_ty desc) arg (mjoin (refs !! i)) out; put_args (S i) descs args refs out
  | _, _ => Ok out
  end.

Definition same_count (slot : SlotDescription) (args : list (Arg Obj)) : result (fault ProtocolError) unit :=
  if decide (length args = length (slot_args slot)) then Ok ()
  else Err (Refuse (Arity (length args) (length (slot_args slot)))).

Definition encode_args (slot : SlotDescription) (args : list (Arg Obj)) (refs : list (option ObjectRef)) (out : bytes)
  : result (fault ProtocolError) bytes :=
  same_count slot args;; put_args 0 (slot_args slot) args refs out.

Definition TAIL : Z := Z.shiftl 64 10.
Definition encode_args_tail (slot : SlotDescription) (args : list (Arg Obj)) (refs : list (option ObjectRef)) (out : bytes)
  : result (fault ProtocolError) (bytes * option bytes) :=
  same_count slot args;;
  let whole := out ← put_args 0 (slot_args slot) args refs out; Ok (out, None) in
  let behind tail :=
    out ← put_args 0 (slot_args slot) (take (length args - 1) args) refs out;
    Ok (put_uint out (len_of tail), Some tail) in
  match arg_ty <$> last (slot_args slot), last args with
  | Some ArgStr, Some (PassStr s) => if TAIL <=? len_of s then behind s else whole
  | Some ArgBytes, Some (PassBytes b) => if TAIL <=? len_of b then behind b else whole
  | _, _ => whole
  end.

Definition MAX_BUFFER : Z := Z.shiftl 64 20.

Definition tree_of (tree : Tree) (nullable : bool) (v : Value) (at_ : nat) : result (fault ProtocolError) Decoded :=
  match tree with
  | TreeMap => match v with VMap m => Ok (DecMap m) | _ => Err (Refuse (Field at_ AMap)) end
  | TreeList => match v with VList l => Ok (DecList l) | _ => Err (Refuse (Field at_ AList)) end
  | TreeValue => Ok (DecValue (if nullable && bool_decide (v = VAbsent) then None else Some v))
  end.

(** One turn of [decode_args], and the loop. *)
Definition get_arg (ty : ArgType) : read Decoded := λ r,
  match ty with
  | ArgScalar s => get_scalar s r
  | ArgStr => '(s, r) ← get_text r; Ok (DecStr s, r)
  | ArgBytes => '(b, r) ← get_bytes r; Ok (DecBytes b, r)
  | ArgBytesMut =>
      '(n, r') ← get_uint r;
      if n <=? MAX_BUFFER then Ok (DecBuffer (replicate (Z.to_nat n) 0), r') else Err (Refuse (Field (field_at_ r) ABufferLength))
  | ArgTree tree _ nullable =>
      '(v, r') ← get_value random r; d ← tree_of tree nullable v (field_at_ r); Ok (d, r')
  | ArgObject _ _ => '(n, r) ← get_uint r; Ok (DecObject (from_code n), r)
  end.
Fixpoint get_args (descs : list ArgDescription) : read (list Decoded) := λ r,
  match descs with
  | [] => Ok ([], r)
  | desc :: descs => '(d, r) ← get_arg (arg_ty desc) r; '(ds, r) ← get_args descs r; Ok (d :: ds, r)
  end.
Definition decode_args (slot : SlotDescription) (b : bytes) : result (fault ProtocolError) (list Decoded) :=
  '(out, r) ← get_args (slot_args slot) (field_reader b); end_of r;; Ok out.

(** ** A reply's body *)

Definition written_back (ty : ArgType) : bool := match ty with ArgBytesMut | ArgTree _ Lent _ => true | _ => false end.
Definition writes_back (slot : SlotDescription) : bool := existsb (λ d, written_back (arg_ty d)) (slot_args slot).

Definition put_back (i : nat) (arg : Decoded) (out : bytes) : result (fault ProtocolError) bytes :=
  match arg with
  | DecValue (Some v) => put_tree_value out v
  | DecMap m => put_walk out (VMap m)
  | DecList l => put_walk out (VList l)
  | DecBuffer b => Ok (put_bytes out b)
  | _ => mismatch i (bs "a tree or buffer to write back")
  end.
Fixpoint put_backs (i : nat) (descs : list ArgDescription) (args : list Decoded) (out : bytes) : result (fault ProtocolError) bytes :=
  match descs, args with
  | desc :: descs, arg :: args =>
      out ← (if written_back (arg_ty desc) then put_back i arg out else Ok out);
      put_backs (S i) descs args out
  | _, _ => Ok out
  end.
Definition encode_writebacks (slot : SlotDescription) (args : list Decoded) (out : bytes) : result (fault ProtocolError) bytes :=
  put_backs 0 (slot_args slot) args out.

Definition wrong_answer {A} (what : string) : result (fault ProtocolError) A := Err (Refuse (Answered (bs what))).

Definition encode_answer (slot : SlotDescription) (answer : Answer Obj) (out : bytes) (export : Obj -> W -> ObjectRef * W) (w : W)
  : result (fault ProtocolError) bytes * W :=
  let other := wrong_answer "something its slot does not" in
  let or_other o := match o with Some out => Ok out | None => other end in
  match slot_answer slot, answer with
  | None, AnsNothing => (Ok out, w)
  | None, _ => (wrong_answer "something for a slot that answers nothing", w)
  | Some (AnswerScalar SBool), AnsBool b => (Ok (out ++ [Z.b2z b]), w)
  | Some (AnswerScalar s), AnsInt n => (or_other (put_scalar_int out s n), w)
  | Some (AnswerScalar s), AnsUint n => (or_other (put_scalar_int out s n), w)
  | Some (AnswerScalar s), AnsFloat f => (or_other (put_scalar_float out s f), w)
  | Some AnswerText, AnsText t => (Ok (put_text out t), w)
  | Some (AnswerTree _), AnsValue v => (put_tree_value out v, w)
  | Some (AnswerTree _), AnsMap m => (put_walk out (VMap m), w)
  | Some (AnswerTree _), AnsList l => (put_walk out (VList l), w)
  | Some (AnswerObject _), AnsObject o => let '(r, w) := export o w in (Ok (put_uint out (code r)), w)
  | Some _, _ => (other, w)
  end.

Definition encode_answer_tail (slot : SlotDescription) (answer : Answer Obj) (out : bytes) (export : Obj -> W -> ObjectRef * W) (w : W)
  : result (fault ProtocolError) (bytes * option nat) * W :=
  let whole :=
    let '(x, w) := encode_answer slot answer out export w in (out ← x; Ok (out, None), w) in
  let laid (x : result (fault ProtocolError) bytes) :=
    (out' ← x;
     if TAIL <=? len_of out' - len_of out then Ok (out', Some (length out))
     else Ok (behind_length out' (length out), None), w) in
  match slot_answer slot with
  | Some (AnswerTree _) =>
      if writes_back slot then whole
      else
        match answer with
        | AnsValue v => laid (map_err Refuse (put_value_bare out v))
        | AnsMap m => laid (put_walk_bare out (VMap m))
        | AnsList l => laid (put_walk_bare out (VList l))
        | _ => whole
        end
  | _ => whole
  end.

(** What [decode_answer] reads of the answer; [object] makes a handle. *)
Definition get_answer (slot : SlotDescription) (object : bytes -> ObjectRef -> W -> result (fault ProtocolError) Obj * W) (r : FieldReader) (w : W)
  : result (fault ProtocolError) (Answer Obj * FieldReader) * W :=
  match slot_answer slot with
  | None => (Ok (AnsNothing, r), w)
  | Some (AnswerScalar s) =>
      ('(d, r) ← get_scalar s r;
       match d with
       | DecBool b => Ok (AnsBool b, r) | DecInt n => Ok (AnsInt n, r) | DecUint n => Ok (AnsUint n, r) | DecFloat f => Ok (AnsFloat f, r)
       | _ => Err Panic
       end, w)
  | Some AnswerText => ('(t, r) ← get_text r; Ok (AnsText t, r), w)
  | Some (AnswerTree tree) =>
      ('(v, r') ← get_value random r; d ← tree_of tree false v (field_at_ r);
       match d with
       | DecMap m => Ok (AnsMap m, r') | DecList l => Ok (AnsList l, r')
       | DecValue v => Ok (AnsValue (default VAbsent v), r')
       | _ => Err Panic
       end, w)
  | Some (AnswerObject kind) =>
      match get_uint r with
      | Ok (n, r) => let '(x, w) := object kind (from_code n) w in (o ← x; Ok (AnsObject o, r), w)
      | Err f => (Err f, w)
      end
  end.

(** One turn of [decode_answer]'s loop: what is read into a lent tree or buffer. *)
Definition take_back (ty : ArgType) (arg : Arg Obj) : read (Arg Obj) := λ r,
  match ty, arg with
  | ArgTree _ Lent _, LentValue _ => '(v, r) ← get_value random r; Ok (LentValue v, r)
  | ArgTree _ Lent _, LentMap _ =>
      '(v, r') ← get_value random r;
      match v with VMap m => Ok (LentMap m, r') | _ => Err (Refuse (Field (field_at_ r) ALentMap)) end
  | ArgTree _ Lent _, LentList _ =>
      '(v, r') ← get_value random r;
      match v with VList l => Ok (LentList l, r') | _ => Err (Refuse (Field (field_at_ r) ALentList)) end
  | ArgBytesMut, PassBuffer b =>
      '(written, r) ← get_bytes r;
      let n := Nat.min (length written) (length b) in
      Ok (PassBuffer (take n written ++ drop n b), r)
  | _, _ => Ok (arg, r)
  end.
(** The loop: the caller's arguments, as far as they were written. *)
Fixpoint take_backs (descs : list ArgDescription) (args : list (Arg Obj)) (r : FieldReader)
  : list (Arg Obj) * result (fault ProtocolError) FieldReader :=
  match descs, args with
  | desc :: descs, arg :: args =>
      match take_back (arg_ty desc) arg r with
      | Ok (arg, r) => let '(args, x) := take_backs descs args r in (arg :: args, x)
      | Err f => (arg :: args, Err f)
      end
  | _, _ => (args, Ok r)
  end.
Definition decode_answer (slot : SlotDescription) (body : bytes) (args : list (Arg Obj))
    (object : bytes -> ObjectRef -> W -> result (fault ProtocolError) Obj * W) (w : W)
  : result (fault ProtocolError) (Answer Obj) * list (Arg Obj) * W :=
  match get_answer slot object (field_reader body) w with
  | (Ok (answer, r), w) =>
      let '(args, x) := take_backs (slot_args slot) args r in
      (r ← x; end_of r;; Ok answer, args, w)
  | (Err f, w) => (Err f, args, w)
  end.
End calls.
