(* ===== verification/ArgsLaws.v ===== *)
(** * Calls arrive as they were made

    A slot's arguments are read exactly as written, whatever else is refused where it
    stands; the forms that leave a large piece where it lies write the same bytes; and a
    reply gives the caller the answer and what was written into the trees and buffers
    it lent. *)

From S2P Require Import Prelude Errors SchemaErrors Number Value Keys Maps Encode Decode Walk Visit Encoder Stream KindDescription Codec Args.

(** ** The pieces *)

Lemma le32_bytes n : length (le32 n) = 4%nat /\ Forall is_byte (le32 n).
Proof. split; [done|]. unfold le32. repeat constructor; apply Z.mod_pos_bound; lia. Qed.
Lemma le64_bytes n : length (le64 n) = 8%nat /\ Forall is_byte (le64 n).
Proof. split; [done|]. unfold le64. apply Forall_app. split; apply le32_bytes. Qed.
Lemma from_le_app v w : from_le_bytes (v ++ w) = from_le_bytes v + 256 ^ Z.of_nat (length v) * from_le_bytes w.
Proof.
  unfold from_le_bytes. induction v as [|b v IH]; [cbn [app length foldr]; change (256 ^ Z.of_nat 0) with 1; lia|].
  cbn [app foldr length]. rewrite IH, Nat2Z.inj_succ, Z.pow_succ_r by lia. lia.
Qed.
Lemma le32_from w : length w = 4%nat -> Forall is_byte w -> le32 (from_le_bytes w) = w.
Proof.
  intros Hl Hw. destruct w as [|a [|b [|c [|d []]]]]; try done. repeat (apply Forall_cons in Hw as [? Hw]). unfold is_byte in *.
  unfold le32, from_le_bytes. cbn [foldr]. repeat f_equal; dlia.
Qed.
Lemma le64_from w : length w = 8%nat -> Forall is_byte w -> le64 (from_le_bytes w) = w.
Proof.
  intros Hl Hw. rewrite <- (take_drop 4 w) in Hw |- *. apply Forall_app in Hw as [H1 H2].
  set (u := take 4 w) in *. set (v := drop 4 w) in *. assert (length u = 4%nat) as Hu by (apply length_take_le; lia).
  assert (length v = 4%nat) as Hv by (unfold v; rewrite length_drop; lia).
  rewrite from_le_app, Hu. change (256 ^ Z.of_nat 4) with (2 ^ 32).
  pose proof (from_le_bound u H1) as Bu. pose proof (from_le_bound v H2) as Bv. rewrite Hu in Bu. rewrite Hv in Bv.
  change (256 ^ Z.of_nat 4) with 4294967296 in *. change (2 ^ 32) with 4294967296. unfold le64. f_equal.
  - rewrite <- (le32_from u) at 2 by done. revert Bu. generalize (from_le_bytes u) (from_le_bytes v).
    intros x y Bx. unfold le32. do 3 (f_equal; [dlia|]). f_equal. dlia.
  - rewrite <- (le32_from v) at 2 by done. f_equal. change (2 ^ 32) with 4294967296. dlia.
Qed.

Definition signed (s : Scalar) : bool := match s with SI8 | SI16 | SI32 | SI64 | SIsize => true | _ => false end.
Definition unsigned (s : Scalar) : bool := match s with SU8 | SU16 | SU32 | SU64 | SUsize => true | _ => false end.

Definition ref_wf (r : ObjectRef) : Prop := match r with Senders id | Receivers id => 0 <= id < 2 ^ 63 end.
Definition walks (v : Value) : Prop := value_wf v /\ fits (wire v) /\ (vdepth v <= MAX_DEPTH)%nat.
Definition lies (v : Value) : Prop := value_wf v /\ fits (wire v).

Lemma lor_bit n : Z.lor (2 * n) 1 = 2 * n + 1.
Proof. destruct n as [|p|p]; [done|by destruct p|]. destruct p; [done..|]. reflexivity. Qed.

Lemma code_leb r : ref_wf r -> is_u64 (code r) /\ from_code (code r) = r.
Proof.
  unfold ref_wf, code, from_code, is_u64, wrap64. intros H.
  assert (forall id, 0 <= id < 2 ^ 63 -> Z.shiftl id 1 mod 2 ^ 64 = 2 * id) as Hs.
  { intros id Hid. rewrite Z.shiftl_mul_pow2, Z.mod_small by lia. lia. }
  assert (forall z, Z.land z 1 = z mod 2) as Hl by (intros z; change 1 with (Z.ones 1) at 1; by rewrite Z.land_ones by lia).
  destruct r as [id|id]; rewrite Hs, Hl, Z.shiftr_div_pow2 by (done || lia); change (2 ^ 1) with 2.
  - split; [lia|]. destruct (Z.eqb_spec (2 * id mod 2) 0); [|dlia]. f_equal. dlia.
  - rewrite lor_bit.
    split; [lia|]. destruct (Z.eqb_spec ((2 * id + 1) mod 2) 0); [dlia|]. f_equal. dlia.
Qed.

Lemma from_code_leb n : is_u64 n -> ref_wf (from_code n) /\ code (from_code n) = n.
Proof.
  intros H. unfold from_code, is_u64 in *. assert (Z.land n 1 = n mod 2) as -> by (change 1 with (Z.ones 1) at 1; by rewrite Z.land_ones by lia).
  rewrite Z.shiftr_div_pow2 by lia. change (2 ^ 1) with 2.
  destruct (Z.eqb_spec (n mod 2) 0) as [E|E]; cbn [ref_wf code]; unfold wrap64; rewrite Z.shiftl_mul_pow2, Z.mod_small by dlia;
    (split; [dlia|]); change (2 ^ 1) with 2; [dlia|].
  rewrite Z.mul_comm, lor_bit. dlia.
Qed.

Lemma skip_0 r : skip_ 0 r = r.
Proof. destruct r. unfold skip_. cbn. by rewrite Nat.add_0_r. Qed.

Section wire.
Context (nan : Z -> Z).

(** What an argument of a type is read as, and its bytes. *)
Inductive carries : ArgType -> Decoded -> bytes -> Prop :=
  | carries_bool b : carries (ArgScalar SBool) (DecBool b) [Z.b2z b]
  | carries_int s n : signed s = true -> is_i64 n -> carries (ArgScalar s) (DecInt n) (leb (zigzag n))
  | carries_uint s n : unsigned s = true -> is_u64 n -> carries (ArgScalar s) (DecUint n) (leb n)
  | carries_f32 x : 0 <= x < 2 ^ 32 -> carries (ArgScalar SF32) (DecFloat (widen nan x)) (le32 x)
  | carries_f64 x : is_u64 x -> carries (ArgScalar SF64) (DecFloat x) (le64 x)
  | carries_str s : is_utf8 s = true -> fits s -> carries ArgStr (DecStr s) (key_wire s)
  | carries_bytes b : fits b -> Forall is_byte b -> carries ArgBytes (DecBytes b) (key_wire b)
  | carries_buffer n : 0 <= n <= MAX_BUFFER -> carries ArgBytesMut (DecBuffer (replicate (Z.to_nat n) 0)) (leb n)
  | carries_tree t p nullable v d : lies v -> tree_of t nullable v 0 = Ok d -> carries (ArgTree t p nullable) d (key_wire (wire v))
  | carries_object k p r : ref_wf r -> carries (ArgObject k p) (DecObject r) (leb (code r)).

(** [get] reads exactly the pieces that carry something. *)
Definition reads_as {A} (get : read A) (R : A -> bytes -> Prop) : Prop :=
  forall r, bytes_left r ->
  match get r with
  | Ok (a, r') => exists p, R a p /\ unread_ r = p ++ unread_ r' /\ r' = skip_ (length p) r
  | Err f => located r f
  end /\
  (forall a p tl, R a p -> unread_ r = p ++ tl -> get r = Ok (a, skip_ (length p) r)).

Lemma reads_reads_as {A} (get : read A) put ok : reads get put ok -> reads_as get (λ a p, ok a /\ p = put a).
Proof.
  intros H r Hr. destruct (H r Hr) as [H1 H2]. split.
  - destruct (get r) as [[a r']|f]; [|done]. destruct H1 as (Ha & Hu & ->). by exists (put a).
  - intros a p tl [Ha ->]. by apply H2.
Qed.

(** A reader that goes on with what another read. *)
Lemma reads_as_then {A B} (get : read A) (R : A -> bytes -> Prop) (f : A -> nat -> result (fault ProtocolError) B) (S : B -> bytes -> Prop) :
  reads_as get R ->
  (forall a p n b, R a p -> f a n = Ok b -> S b p) ->
  (forall a p n e, R a p -> f a n = Err e -> exists x, e = Refuse x /\ error_at x = Some n) ->
  (forall b p n, S b p -> exists a, R a p /\ f a n = Ok b) ->
  reads_as (λ r, '(a, r') ← get r; b ← f a (field_at_ r); Ok (b, r')) S.
Proof.
  intros Hg H1 H2 H3 r Hr. destruct (Hg r Hr) as [Hs Ht]. split.
  - destruct (get r) as [[a r']|e]; [|done]. destruct Hs as (p & Ha & Hu & ->). cbn.
    destruct (f a (field_at_ r)) as [b|e] eqn:E; cbn.
    + exists p. split_and!; [by eapply H1|done|done].
    + destruct (H2 _ _ _ _ Ha E) as (x & -> & Hx). by apply located_here.
  - intros b p tl Hb Hu. destruct (H3 b p (field_at_ r) Hb) as (a & Ha & E). rewrite (Ht a p tl Ha Hu). cbn. by rewrite E.
Qed.

Lemma reads_as_map {A B} (get : read A) (R : A -> bytes -> Prop) (f : A -> B) (S : B -> bytes -> Prop) :
  reads_as get R -> (forall a p, R a p -> S (f a) p) -> (forall b p, S b p -> exists a, R a p /\ f a = b) ->
  reads_as (λ r, '(a, r') ← get r; Ok (f a, r')) S.
Proof.
  intros Hg H1 H2. pose proof (reads_as_then get R (λ a _, Ok (f a)) S Hg) as H. cbn in H. apply H.
  - intros a p _ b Ha [= <-]. auto.
  - done.
  - intros b p _ Hb. destruct (H2 b p Hb) as (a & Ha & <-). eauto.
Qed.

Lemma reads_as_ext {A} (get get' : read A) R : (forall r, get r = get' r) -> reads_as get R -> reads_as get' R.
Proof. intros E H r Hr. rewrite <- E. by apply H. Qed.

Lemma get_scalar_reads s : reads_as (get_scalar nan s) (carries (ArgScalar s)).
Proof.
  assert (forall s, signed s = true -> reads_as (λ r, '(n, r) ← get_int r; Ok (DecInt n, r)) (carries (ArgScalar s))) as Hi.
  { intros t Ht. eapply reads_as_map; [apply reads_reads_as, get_int_reads|intros a p [H ->]; by constructor|].
    intros b p H. inversion H; subst; try done; [by eexists|by destruct t]. }
  assert (forall s, unsigned s = true -> reads_as (λ r, '(n, r) ← get_uint r; Ok (DecUint n, r)) (carries (ArgScalar s))) as Hu.
  { intros t Ht. eapply reads_as_map; [apply reads_reads_as, get_uint_reads|intros a p [H ->]; by constructor|].
    intros b p H. inversion H; subst; try done; [by destruct t|by eexists]. }
  assert (forall n, Z.of_nat n < 2 ^ 4 -> forall w : bytes, length w = n -> Forall is_byte w -> 0 <= from_le_bytes w < 256 ^ Z.of_nat n) as Hl.
  { intros n _ w <- Hw. by apply from_le_bound. }
  destruct s; try by apply Hi. all: try by apply Hu.
  - eapply (reads_as_ext (λ r, '(b, r') ← get_byte r; d ← (λ b n, if b =? 0 then Ok (DecBool false) else if b =? 1 then Ok (DecBool true) else Err (Refuse (Field n ABool))) b (field_at_ r); Ok (d, r'))).
    { intros r. unfold get_scalar. destruct (get_byte r) as [[b r']|]; [|done]. cbn. by destruct (b =? 0), (b =? 1). }
    eapply (reads_as_then get_byte _ (λ b n, if b =? 0 then Ok (DecBool false) else if b =? 1 then Ok (DecBool true) else Err (Refuse (Field n ABool))));
      [apply reads_reads_as, get_byte_reads|..].
    + intros b p n d [_ ->]. destruct (Z.eqb_spec b 0) as [->|]; [intros [= <-]; apply (carries_bool false)|].
      destruct (Z.eqb_spec b 1) as [->|]; intros [= <-]. apply (carries_bool true).
    + intros b p n e _. destruct (b =? 0); [done|]. destruct (b =? 1); intros [= <-]. by eexists.
    + intros d p n H. inversion H; subst; try done. exists (Z.b2z b). split; [|by destruct b].
      split; [by destruct b|done].
  - intros r Hr. split; [by apply located_here|]. intros a p tl H. inversion H; subst; done.
  - intros r Hr. split; [by apply located_here|]. intros a p tl H. inversion H; subst; done.
  - eapply reads_as_map; [apply reads_reads_as, get_fixed_reads|..].
    + intros w p [[Hw Hb] ->]. pose proof (Hl 4%nat ltac:(done) w Hw Hb) as Hx.
      replace w with (le32 (from_le_bytes w)) at 2 by by apply le32_from. by constructor.
    + intros d p H. inversion H; subst; try done. exists (le32 x). rewrite from_le32 by done.
      split; [split; [split; [done|apply le32_bytes]|done]|done].
  - eapply reads_as_map; [apply reads_reads_as, get_fixed_reads|..].
    + intros w p [[Hw Hb] ->]. pose proof (Hl 8%nat ltac:(done) w Hw Hb) as Hx.
      replace w with (le64 (from_le_bytes w)) at 2 by by apply le64_from. by constructor.
    + intros d p H. inversion H; subst; try done. exists (le64 x). rewrite from_le64 by done.
      split; [split; [split; [done|apply le64_bytes]|done]|done].
Qed.

Lemma tree_of_where t nullable v n d : tree_of t nullable v n = Ok d -> tree_of t nullable v 0 = Ok d.
Proof. destruct t; [done|..]; by destruct v. Qed.

Lemma get_arg_reads random ty : reads_as (get_arg random nan ty) (carries ty).
Proof.
  destruct ty as [s| | | |t p nullable|k p]; [apply get_scalar_reads|..].
  - eapply reads_as_map; [apply reads_reads_as, get_text_reads|intros a q [[H1 H2] ->]; by constructor|].
    intros d q H. inversion H; subst. by eexists.
  - eapply reads_as_map; [apply reads_reads_as, get_bytes_reads|intros a q [[H1 H2] ->]; by constructor|].
    intros d q H. inversion H; subst. by eexists.
  - eapply (reads_as_ext (λ r, '(n, r') ← get_uint r; d ← (λ n at_, if n <=? MAX_BUFFER then Ok (DecBuffer (replicate (Z.to_nat n) 0)) else Err (Refuse (Field at_ ABufferLength))) n (field_at_ r); Ok (d, r'))).
    { intros r. unfold get_arg. destruct (get_uint r) as [[n r']|]; [|done]. cbn [mbind result_bind]. by destruct (n <=? MAX_BUFFER). }
    eapply (reads_as_then get_uint _ (λ n at_, if n <=? MAX_BUFFER then Ok (DecBuffer (replicate (Z.to_nat n) 0)) else Err (Refuse (Field at_ ABufferLength))));
      [apply reads_reads_as, get_uint_reads|..].
    + intros n q at_ d [Hn ->]. destruct (Z.leb_spec n MAX_BUFFER); intros [= <-]. constructor. unfold is_u64 in Hn. lia.
    + intros n q at_ e _. destruct (n <=? MAX_BUFFER); intros [= <-]. by eexists.
    + intros d q at_ H. inversion H; subst. exists n. destruct (Z.leb_spec n MAX_BUFFER); [|lia].
      split; [split; [|done]|done]. unfold is_u64. assert (MAX_BUFFER = 67108864) by done. lia.
  - eapply (reads_as_ext (λ r, '(v, r') ← get_value random r; d ← tree_of t nullable v (field_at_ r); Ok (d, r'))); [done|].
    eapply (reads_as_then (get_value random) _ (tree_of t nullable)); [apply reads_reads_as, get_value_reads|..].
    + intros v q n d [Hv ->] E%tree_of_where. by apply carries_tree.
    + intros v q n e _ E. unfold tree_of in E. destruct t; [done|..]; destruct v; (done || (injection E as <-; by eexists)).
    + intros d q n H. inversion H as [| | | | | | | |t' p' n' v d' Hv E|]; subst. exists v. split; [done|].
      unfold tree_of in *. destruct t; [done|..]; by destruct v.
  - eapply reads_as_map; [apply reads_reads_as, get_uint_reads|..].
    + intros n q [Hn ->]. destruct (from_code_leb n Hn) as [Hw E]. rewrite <- E at 2. by constructor.
    + intros d q H. inversion H; subst. exists (code r). destruct (code_leb r ltac:(done)) as [? ->]. by split.
Qed.

(** *** All of them *)

Inductive all_carry : list ArgDescription -> list Decoded -> bytes -> Prop :=
  | all_carry_nil : all_carry [] [] []
  | all_carry_cons desc descs d ds p b : carries (arg_ty desc) d p -> all_carry descs ds b -> all_carry (desc :: descs) (d :: ds) (p ++ b).

Lemma get_args_reads random descs : reads_as (get_args random nan descs) (all_carry descs).
Proof.
  induction descs as [|desc descs IH]; intros r Hr; cbn [get_args].
  - split; [exists []; split_and!; [constructor|done|by rewrite skip_0]|]. intros ds p tl H _. inversion H; subst. by rewrite skip_0.
  - destruct (get_arg_reads random (arg_ty desc) r Hr) as [H1 H2]. split.
    + destruct (get_arg random nan (arg_ty desc) r) as [[d r']|f]; [|done]. destruct H1 as (p & Hp & Hu & ->). cbn [mbind result_bind].
      destruct (IH (skip_ (length p) r) ltac:(by apply skip_bytes)) as [H3 _].
      destruct (get_args random nan descs _) as [[ds r']|f]; cbn [mbind result_bind].
      * destruct H3 as (q & Hq & Hu' & ->). exists (p ++ q). split; [by constructor|].
        rewrite <- app_assoc, <- Hu', skip_skip, length_app. by split.
      * eapply located_skip, H3. rewrite Hu, length_app. lia.
    + intros ds q tl H Hu. inversion H as [|? ? d ds' p b Hp Hb]; subst. rewrite <- app_assoc in Hu.
      rewrite (H2 _ _ _ Hp Hu). cbn [mbind result_bind].
      destruct (IH (skip_ (length p) r) ltac:(by apply skip_bytes)) as [_ H4].
      rewrite (H4 _ _ tl Hb) by by apply skip_app. cbn [mbind result_bind]. by rewrite skip_skip, length_app.
Qed.
End wire.

(** ** What is sent *)

Lemma lor_bound k a b : 0 <= k -> 0 <= a < 2 ^ k -> 0 <= b < 2 ^ k -> 0 <= Z.lor a b < 2 ^ k.
Proof.
  intros Hk Ha Hb. assert (Z.lor a b = Z.land (Z.lor a b) (Z.ones k)) as ->.
  { rewrite Z.land_lor_distr_l, !Z.land_ones, !Z.mod_small by lia. done. }
  rewrite Z.land_ones by done. apply Z.mod_pos_bound. lia.
Qed.

Lemma land_ones_bound x n : 0 <= n -> 0 <= Z.land x (ones n) < 2 ^ n.
Proof. intros Hn. change (ones n) with (Z.ones n). rewrite Z.land_ones by done. apply Z.mod_pos_bound. lia. Qed.

Lemma ieee_joined_bound w mbits s e m : 0 <= mbits -> mbits < w - 1 -> 0 <= ieee_joined w mbits s e m < 2 ^ w.
Proof.
  intros Hm Hw. unfold ieee_joined.
  pose proof (land_ones_bound e (ebits w mbits) ltac:(unfold ebits; lia)) as He. pose proof (land_ones_bound m mbits Hm) as Hf.
  assert (2 ^ ebits w mbits * 2 ^ mbits = 2 ^ (w - 1)) as Ee by (rewrite <- Z.pow_add_r by (unfold ebits; lia); f_equal; unfold ebits; lia).
  assert (2 ^ w = 2 * 2 ^ (w - 1)) as E2 by (rewrite <- Z.pow_succ_r by lia; f_equal; lia).
  assert (2 ^ mbits <= 2 ^ (w - 1)) as Hl by (apply Z.pow_le_mono_r; lia).
  apply lor_bound; [lia|rewrite Z.shiftl_mul_pow2 by lia; destruct s; cbn [Z.b2z]; lia|].
  apply lor_bound; [lia|rewrite Z.shiftl_mul_pow2 by lia; nia|lia].
Qed.

Lemma narrow_bound nan x : 0 <= narrow nan x < 2 ^ 32.
Proof. unfold narrow, pack. destruct (rounded _ _ _); by apply ieee_joined_bound. Qed.

Section sending.
Context {Obj W : Type} (nan : Z -> Z).

(** An argument that is one: a number of its width, text that is text, a tree that can
    be walked. *)
Definition arg_wf (a : Arg Obj) : Prop :=
  match a with
  | PassBool _ | PassObject _ | LentObject _ | PassValue None => True
  | PassInt n => is_i64 n
  | PassUint n | PassFloat n => is_u64 n
  | PassStr s => is_utf8 s = true /\ fits s
  | PassBytes b | PassBuffer b => fits b /\ Forall is_byte b
  | PassValue (Some v) | TakenValue v | LentValue v => lies v
  | PassMap m | TakenMap m | LentMap m => walks (VMap m)
  | PassList l | TakenList l | LentList l => walks (VList l)
  end.

(** What a slot's integer or tree is received as, if it is one of the slot's. *)
Definition int_as {A} (s : Scalar) (n : Z) (int uint : Z -> A) : option A :=
  if signed s && (i64_min <=? n) && (n <=? i64_max) then Some (int n)
  else if unsigned s && (0 <=? n) && (n <=? u64_max) then Some (uint n) else None.
Definition float_as {A} (s : Scalar) (f : Z) (float : Z -> A) : option A :=
  match s with SF32 => Some (float (widen nan (narrow nan f))) | SF64 => Some (float f) | _ => None end.
Definition tree_as (t : Tree) (nullable : bool) (v : Value) : option Decoded :=
  match tree_of t nullable v 0 with Ok d => Some d | Err _ => None end.
Definition received (ty : ArgType) (a : Arg Obj) (ref : option ObjectRef) : option Decoded :=
  match ty, a with
  | ArgScalar SBool, PassBool b => Some (DecBool b)
  | ArgScalar s, PassInt n => int_as s n DecInt DecUint
  | ArgScalar s, PassUint n => int_as s n DecInt DecUint
  | ArgScalar s, PassFloat f => float_as s f DecFloat
  | ArgStr, PassStr s => Some (DecStr s)
  | ArgBytes, PassBytes b => Some (DecBytes b)
  | ArgBytesMut, PassBuffer b => if len_of b <=? MAX_BUFFER then Some (DecBuffer (replicate (length b) 0)) else None
  | ArgTree t _ nullable, PassValue v => tree_as t nullable (default VAbsent v)
  | ArgTree t _ nullable, TakenValue v => tree_as t nullable v
  | ArgTree t _ nullable, LentValue v => tree_as t nullable v
  | ArgTree t _ nullable, PassMap m => tree_as t nullable (VMap m)
  | ArgTree t _ nullable, TakenMap m => tree_as t nullable (VMap m)
  | ArgTree t _ nullable, LentMap m => tree_as t nullable (VMap m)
  | ArgTree t _ nullable, PassList l => tree_as t nullable (VList l)
  | ArgTree t _ nullable, TakenList l => tree_as t nullable (VList l)
  | ArgTree t _ nullable, LentList l => tree_as t nullable (VList l)
  | ArgObject _ _, _ => DecObject <$> ref
  | _, _ => None
  end.
Fixpoint all_received (i : nat) (descs : list ArgDescription) (args : list (Arg Obj)) (refs : list (option ObjectRef)) : option (list Decoded) :=
  match descs, args with
  | [], [] => Some []
  | desc :: descs, arg :: args =>
      d ← received (arg_ty desc) arg (mjoin (refs !! i)); ds ← all_received (S i) descs args refs; Some (d :: ds)
  | _, _ => None
  end.

Lemma put_scalar_int_as s n out {A} (int uint : Z -> A) d : int_as s n int uint = Some d ->
  (signed s = true /\ is_i64 n /\ d = int n /\ put_scalar_int out s n = Some (out ++ leb (zigzag n))) \/
  (unsigned s = true /\ is_u64 n /\ d = uint n /\ put_scalar_int out s n = Some (out ++ leb n)).
Proof.
  unfold int_as. destruct (signed s && _ && _) eqn:E1; [|destruct (unsigned s && _ && _) eqn:E2; [|done]]; intros [= <-].
  - left. apply andb_prop in E1 as [[Es H1]%andb_prop H2]. assert (is_i64 n) as Hn by (unfold is_i64; lia). split_and!; [done..|].
    assert (put_int out n = out ++ leb (zigzag n)) as <- by (apply put_uint_leb, unzigzag_zigzag, Hn).
    unfold put_scalar_int. rewrite H1, H2. by destruct s.
  - right. apply andb_prop in E2 as [[Es H1]%andb_prop H2]. assert (is_u64 n) as Hn by (unfold is_u64, u64_max in *; lia). split_and!; [done..|].
    rewrite <- put_uint_leb by done. unfold put_scalar_int. rewrite H1, H2. by destruct s.
Qed.

Lemma put_scalar_float_as s f out {A} (float : Z -> A) d : is_u64 f -> float_as s f float = Some d ->
  exists x p, d = float x /\ carries nan (ArgScalar s) (DecFloat x) p /\ put_scalar_float nan out s f = Some (out ++ p).
Proof.
  intros Hf. destruct s; intros [= <-]; (do 2 eexists; split_and!; [done| |done]); constructor; [apply narrow_bound|done].
Qed.

Lemma put_tree_as random v out : lies v -> put_tree_value out v = Ok (out ++ key_wire (wire v)) /\
  ((vdepth v <= MAX_DEPTH)%nat -> put_walk random out v = Ok (out ++ key_wire (wire v))).
Proof.
  intros [Hv Hf]. unfold put_tree_value, put_walk, put_walk_bare. rewrite put_value_key by done. split; [done|]. intros Hd.
  rewrite encode_of_spec, decide_True by done. cbn [mbind result_bind]. unfold behind_length.
  rewrite take_app_length, drop_app_length. unfold key_wire. by rewrite put_uint_leb by by apply fits_len.
Qed.

Lemma absent_lies : lies VAbsent.
Proof. split; [done|]. vm_compute. discriminate. Qed.

Lemma put_arg_received random i ty a ref out d : arg_wf a -> (forall r, ref = Some r -> ref_wf r) -> received ty a ref = Some d ->
  exists p, put_arg random nan i ty a ref out = Ok (out ++ p) /\ carries nan ty d p.
Proof.
  intros Ha Hr Hd.
  assert (forall t p nullable v, lies v -> tree_as t nullable v = Some d -> ty = ArgTree t p nullable ->
    carries nan ty d (key_wire (wire v))) as Ht.
  { intros t p nullable v Hv E ->. unfold tree_as in E. destruct (tree_of _ _ _ _) eqn:E'; [|done]. injection E as <-. by constructor. }
  assert (forall s n, int_as s n DecInt DecUint = Some d -> ty = ArgScalar s -> exists o p, put_scalar_int out s n = Some o /\ o = out ++ p /\ carries nan ty d p) as Hi.
  { intros s n E ->. destruct (put_scalar_int_as s n out _ _ _ E) as [(? & ? & -> & ->)|(? & ? & -> & ->)]; (do 2 eexists; split_and!; [done..|by constructor]). }
  assert (forall s f, is_u64 f -> float_as s f DecFloat = Some d -> ty = ArgScalar s -> exists o p, put_scalar_float nan out s f = Some o /\ o = out ++ p /\ carries nan ty d p) as Hf.
  { intros s f Hf E ->. destruct (put_scalar_float_as s f out _ _ Hf E) as (x & p & -> & Hc & ->). eauto. }
  destruct ty as [s| | | |t p nullable|k p]; cbn [received] in Hd.
  - destruct a as [b|n|n|f| | | | | | | | | | | | | |]; try (by destruct s).
    + destruct s; try done. injection Hd as <-. eexists. split; [done|constructor].
    + destruct (Hi s n ltac:(by destruct s) eq_refl) as (o & p & E & -> & Hc). exists p. split; [|done].
      unfold put_arg. by destruct s; rewrite ?E.
    + destruct (Hi s n ltac:(by destruct s) eq_refl) as (o & p & E & -> & Hc). exists p. split; [|done].
      unfold put_arg. by destruct s; rewrite ?E.
    + destruct (Hf s f Ha ltac:(by destruct s) eq_refl) as (o & p & E & -> & Hc). exists p. split; [|done].
      unfold put_arg. by destruct s; rewrite ?E.
  - destruct a; try done. injection Hd as <-. destruct Ha. eexists. split; [unfold put_arg, put_text; by rewrite put_bytes_key|by constructor].
  - destruct a; try done. injection Hd as <-. destruct Ha. eexists. split; [unfold put_arg; by rewrite put_bytes_key|by constructor].
  - destruct a; try done. destruct (Z.leb_spec (len_of b) MAX_BUFFER); [|done]. injection Hd as <-. destruct Ha.
    exists (leb (len_of b)). split; [unfold put_arg; by rewrite put_uint_leb by by apply fits_len|].
    assert (length b = Z.to_nat (len_of b)) as -> by (unfold len_of; by rewrite Nat2Z.id). constructor. unfold len_of in *. lia.
  - assert (forall v, lies v -> tree_as t nullable v = Some d ->
      exists q, put_tree_value out v = Ok (out ++ q) /\ carries nan (ArgTree t p nullable) d q) as H1.
    { intros v Hv E. eexists. split; [by apply put_tree_as|by eapply Ht]. }
    assert (forall v, walks v -> tree_as t nullable v = Some d ->
      exists q, put_walk random out v = Ok (out ++ q) /\ carries nan (ArgTree t p nullable) d q) as H2.
    { intros v (Hv & Hw & Hd') E. eexists. split; [by apply put_tree_as|by eapply Ht]. }
    destruct a as [| | | | | | |[v|]| | | | | | | | | |]; try done; cbn [put_arg]; auto using absent_lies.
  - destruct ref as [r|]; [|done]. injection Hd as <-. specialize (Hr r eq_refl). exists (leb (code r)).
    split; [|by constructor]. unfold put_arg. by rewrite put_uint_leb by by apply code_leb.
Qed.
End sending.

(** ** Calls *)

Section calls.
Context {Obj W : Type} (nan : Z -> Z).

Lemma all_carry_bytes descs ds b : all_carry nan descs ds b -> Forall is_byte b.
Proof.
  induction 1 as [|desc descs d ds p b Hp _ IH]; [done|]. apply Forall_app. split; [|done].
  destruct Hp as [b0|s n _ Hn|s n _ Hn|x _|x _|s Hs Hf|b0 Hf Hb|n Hn|t q nullable v d [Hv Hf] _|k q r Hr].
  - by destruct b0; repeat constructor.
  - apply leb_bytes, unzigzag_zigzag, Hn.
  - by apply leb_bytes.
  - apply le32_bytes.
  - apply le64_bytes.
  - apply key_wire_bytes; [by apply utf8_bytes|done].
  - by apply key_wire_bytes.
  - apply leb_bytes. assert (MAX_BUFFER = 67108864) by done. lia.
  - apply key_wire_bytes; [by apply wire_bytes|done].
  - apply leb_bytes, code_leb, Hr.
Qed.

Lemma put_args_received random descs : forall i (args : list (Arg Obj)) refs out ds,
  Forall arg_wf args -> (forall i r, refs !! i = Some (Some r) -> ref_wf r) -> all_received nan i descs args refs = Some ds ->
  exists b, put_args random nan i descs args refs out = Ok (out ++ b) /\ all_carry nan descs ds b.
Proof.
  induction descs as [|desc descs IH]; intros i args refs out ds Ha Hr Hd; destruct args as [|a args]; try done.
  - injection Hd as <-. exists []. split; [by rewrite app_nil_r|constructor].
  - inversion Ha as [|? ? Ha1 Ha2]; subst. cbn [all_received] in Hd.
    destruct (received nan (arg_ty desc) a (mjoin (refs !! i))) as [d|] eqn:E; [|done]. cbn in Hd.
    destruct (all_received nan (S i) descs args refs) as [ds'|] eqn:E'; [|done]. injection Hd as <-.
    destruct (put_arg_received nan random i (arg_ty desc) a (mjoin (refs !! i)) out d Ha1) as (p & Hp & Hc); [|done|].
    { intros r Er. apply (Hr i). destruct (refs !! i) as [o|]; [|done]. cbn in Er. by rewrite Er. }
    destruct (IH (S i) args refs (out ++ p) ds' Ha2 Hr E') as (b & Hb & Hcs).
    exists (p ++ b). cbn [put_args]. rewrite Hp. cbn [mbind result_bind]. rewrite Hb, app_assoc. split; [done|by constructor].
Qed.

Lemma all_received_count descs : forall i (args : list (Arg Obj)) refs ds,
  all_received nan i descs args refs = Some ds -> length args = length descs.
Proof.
  induction descs as [|desc descs IH]; intros i args refs ds H; destruct args as [|a args]; try done. cbn in H.
  destruct (received _ _ _ _); [|done]. cbn in H. destruct (all_received nan (S i) descs args refs) eqn:E; [|done].
  cbn. f_equal. by eapply IH.
Qed.

Lemma decode_args_carry random slot ds b : all_carry nan (slot_args slot) ds b -> decode_args random nan slot b = Ok ds.
Proof.
  intros Hb. unfold decode_args. pose proof (all_carry_bytes _ _ _ Hb) as Hbytes.
  destruct (get_args_reads nan random (slot_args slot) (field_reader b) Hbytes) as [_ H].
  rewrite (H ds b [] Hb) by by rewrite app_nil_r. cbn [mbind result_bind]. unfold end_of. by rewrite (skip_app _ b []) by by rewrite app_nil_r.
Qed.

(** C: A slot's arguments, encoded as its description types them, are decoded on the
    other side as what the description makes of each: the same numbers, text, bytes and
    trees, a float through its width, a buffer as long as the caller's, and an object as
    the reference it was given. *)
Theorem arguments_arrive (random random' : Seeded) (slot : SlotDescription) (args : list (Arg Obj)) (refs : list (option ObjectRef))
    (ds : list Decoded) (out : bytes)
    (Ha : Forall arg_wf args) (Hr : forall i r, refs !! i = Some (Some r) -> ref_wf r)
    (Hd : all_received nan 0 (slot_args slot) args refs = Some ds) :
  exists b, encode_args random nan slot args refs out = Ok (out ++ b) /\ decode_args random' nan slot b = Ok ds.
Proof.
  destruct (put_args_received random _ _ _ _ out _ Ha Hr Hd) as (b & Hb & Hc). exists b. split; [|by apply decode_args_carry].
  unfold encode_args, same_count. rewrite decide_True by by eapply all_received_count. done.
Qed.

(** C: What is read as a slot's arguments is one argument after another, each the bytes
    its type gives it and nothing left over; anything else is refused at a place within
    the bytes, and nothing panics. *)
Theorem arguments_exact (random : Seeded) (slot : SlotDescription) (b : bytes) (Hb : Forall is_byte b) :
  match decode_args random nan slot b with
  | Ok ds => all_carry nan (slot_args slot) ds b
  | Err f => located (field_reader b) f
  end.
Proof.
  unfold decode_args. destruct (get_args_reads nan random (slot_args slot) (field_reader b) Hb) as [H _].
  destruct (get_args _ _ _ _) as [[ds r']|f]; [|done]. destruct H as (p & Hp & Hu & ->). cbn [mbind result_bind]. unfold end_of.
  destruct (unread_ (skip_ (length p) (field_reader b))) as [|x l] eqn:E; cbn [mbind result_bind].
  - cbn in Hu. by rewrite Hu, app_nil_r.
  - eexists. split; [done|]. intros n [= <-]. cbn in Hu |- *. rewrite Hu, length_app. lia.
Qed.

(** *** Tails *)

Lemma put_args_snoc random descs desc : forall i (args : list (Arg Obj)) arg refs out, length args = length descs ->
  put_args random nan i (descs ++ [desc]) (args ++ [arg]) refs out =
    (out ← put_args random nan i (descs ++ [desc]) args refs out; put_arg random nan (i + length args) (arg_ty desc) arg (mjoin (refs !! (i + length args)%nat)) out).
Proof.
  induction descs as [|d descs IH]; intros i args arg refs out Hl; destruct args as [|a args]; try done; cbn [app put_args length].
  - rewrite Nat.add_0_r. cbn [mbind result_bind]. by destruct (put_arg _ _ _ _ _ _ _).
  - destruct (put_arg _ _ _ _ a _ _) as [o|]; [|done]. cbn [mbind result_bind]. rewrite IH by (cbn in Hl; lia).
    by rewrite Nat.add_succ_r.
Qed.

(** C: Leaving a large last text or bytes argument where it lies sends the bytes that
    copying it into the frame would, and refuses what that would refuse. *)
Theorem tail_is_the_same_bytes (random : Seeded) (slot : SlotDescription) (args : list (Arg Obj)) (refs : list (option ObjectRef)) (out : bytes) :
  encode_args random nan slot args refs out =
    ('(out, tail) ← encode_args_tail random nan slot args refs out; Ok (out ++ default [] tail)).
Proof.
  unfold encode_args, encode_args_tail, same_count. case_decide as Hl; [|done]. cbn [mbind result_bind].
  set (whole := mbind _ (put_args _ _ _ _ _ _ _)).
  assert (put_args random nan 0 (slot_args slot) args refs out = ('(out, tail) ← whole; Ok (out ++ default [] tail))) as Hw.
  { unfold whole. destruct (put_args _ _ _ _ _ _ _); cbn; [by rewrite app_nil_r|done]. }
  assert (forall desc tail put, last (slot_args slot) = Some desc -> (exists arg, last args = Some arg /\
      (forall i ref out, put_arg random nan i (arg_ty desc) arg ref out = Ok (put out)) /\ (forall out, put out = put_uint out (len_of tail) ++ tail)) ->
    put_args random nan 0 (slot_args slot) args refs out =
      ('(out, tail) ← (out ← put_args random nan 0 (slot_args slot) (take (length args - 1) args) refs out; Ok (put_uint out (len_of tail), Some tail));
       Ok (out ++ default [] tail))) as Hb.
  { intros desc tail put [descs Ed]%last_Some (arg & [args' ->]%last_Some & Hp & Ht). rewrite Ed in *.
    rewrite !length_app in *. cbn [length] in Hl |- *. rewrite Nat.add_sub, take_app_length, put_args_snoc by lia.
    destruct (put_args _ _ _ _ args' _ _); [|done]. cbn [mbind result_bind]. by rewrite Hp, Ht. }
  destruct (last (slot_args slot)) as [[name ty]|] eqn:Ed; [|done]. cbn [fmap option_fmap option_map arg_ty].
  destruct (last args) as [a|] eqn:Ea; [|by destruct ty].
  destruct ty; try done; destruct a; try done; (destruct (TAIL <=? _); [|done]); eapply Hb; (done || (eexists; split_and!; [done|done|done])).
Qed.
End calls.

(** ** Replies *)

Section replies.
Context {Obj W : Type} (nan : Z -> Z).

(** C: Leaving a large tree answered where it lies, for its length to be written into
    the frame's head, sends the bytes that encoding the answer would, and refuses what
    that would refuse; only an answer of [TAIL] bytes or more to a call that writes
    nothing back is left. *)
Theorem answer_tail_is_the_same_bytes (random : Seeded) (slot : SlotDescription) (answer : Answer Obj) (out : bytes)
    (export : Obj -> W -> ObjectRef * W) (w : W) :
  let '(x, w') := encode_answer_tail random nan slot answer out export w in
  encode_answer random nan slot answer out export w =
    ('(out, at_) ← x; Ok (match at_ with Some at_ => behind_length out at_ | None => out end), w') /\
  (forall out' at_, x = Ok (out', Some at_) ->
    at_ = length out /\ TAIL <= len_of out' - len_of out /\ writes_back slot = false).
Proof.
  assert (forall x : result (fault ProtocolError) bytes, (x ≫= λ o, Ok o) = x) as Hret by by intros [].
  assert (forall x : result (fault ProtocolError) bytes,
    (x ≫= λ o, Ok (o, None) : result _ (bytes * option nat)) ≫= (λ '(o, at_), Ok (match at_ with Some at_ => behind_length o at_ | None => o end)) = x) as Hn
    by by intros [].
  assert (let '(x, w') := (let '(x, w) := encode_answer random nan slot answer out export w in (out ← x; Ok (out, None), w)) in
    encode_answer random nan slot answer out export w =
      ('(out, at_) ← x; Ok (match at_ with Some at_ => behind_length out at_ | None => out end), w') /\
    (forall out' at_, x = Ok (out', Some at_) -> at_ = length out /\ TAIL <= len_of out' - len_of out /\ writes_back slot = false)) as Hw.
  { destruct (encode_answer random nan slot answer out export w) as [x w']. split; [by rewrite Hn|]. by destruct x. }
  unfold encode_answer_tail. destruct (slot_answer slot) as [[| |tree|]|] eqn:Es; try exact Hw.
  destruct (writes_back slot); [exact Hw|].
  assert (forall put : bytes -> result (fault ProtocolError) bytes,
    let x := out' ← put out; if TAIL <=? len_of out' - len_of out then Ok (out', Some (length out)) else Ok (behind_length out' (length out), None) in
    (out' ← put out; Ok (behind_length out' (length out))) = ('(out, at_) ← x; Ok (match at_ with Some at_ => behind_length out at_ | None => out end)) /\
    (forall out' at_, x = Ok (out', Some at_) -> at_ = length out /\ TAIL <= len_of out' - len_of out /\ false = false)) as Hl.
  { intros put x. unfold x. destruct (put out) as [o|]; [|done]. cbn [mbind result_bind].
    destruct (Z.leb_spec TAIL (len_of o - len_of out)); (split; [done|]); intros o' a; intros [= <- <-]. done. }
  destruct answer as [| | | | | |v|m|l|]; try exact Hw; unfold encode_answer; rewrite Es.
  - destruct (Hl (λ o, map_err Refuse (put_value_bare o v))) as [H1 H2]. split; [|exact H2]. f_equal. rewrite <- H1.
    unfold put_tree_value, put_value. by destruct (put_value_bare out v).
  - destruct (Hl (λ o, put_walk_bare random o (VMap m))) as [H1 H2]. split; [|exact H2]. f_equal. exact H1.
  - destruct (Hl (λ o, put_walk_bare random o (VList l))) as [H1 H2]. split; [|exact H2]. f_equal. exact H1.
Qed.

(** An answer that is one, and what the caller is given for it, through the callee's
    registering of an object and the caller's making of a handle. *)
Definition answer_wf (a : Answer Obj) : Prop :=
  match a with
  | AnsNothing | AnsBool _ | AnsObject _ => True
  | AnsInt n => is_i64 n
  | AnsUint n | AnsFloat n => is_u64 n
  | AnsText t => is_utf8 t = true /\ fits t
  | AnsValue v => lies v
  | AnsMap m => walks (VMap m)
  | AnsList l => walks (VList l)
  end.
Definition tree_answered (t : Tree) (v : Value) : option (Answer Obj) :=
  match t, v with
  | TreeValue, v => Some (AnsValue v)
  | TreeMap, VMap m => Some (AnsMap m)
  | TreeList, VList l => Some (AnsList l)
  | _, _ => None
  end.
Definition answered (slot : SlotDescription) (a : Answer Obj) : option (Answer Obj) :=
  match slot_answer slot, a with
  | None, AnsNothing => Some AnsNothing
  | Some (AnswerScalar SBool), AnsBool b => Some (AnsBool b)
  | Some (AnswerScalar s), AnsInt n => int_as s n AnsInt AnsUint
  | Some (AnswerScalar s), AnsUint n => int_as s n AnsInt AnsUint
  | Some (AnswerScalar s), AnsFloat f => float_as nan s f AnsFloat
  | Some AnswerText, AnsText t => Some (AnsText t)
  | Some (AnswerTree t), AnsValue v => tree_answered t v
  | Some (AnswerTree t), AnsMap m => tree_answered t (VMap m)
  | Some (AnswerTree t), AnsList l => tree_answered t (VList l)
  | _, _ => None
  end.

(** What a caller's argument is after the call, given what the callee's was. *)
Definition comes_back (ty : ArgType) (a : Arg Obj) (d : Decoded) : option (Arg Obj) :=
  if written_back ty then
    match ty, a, d with
    | ArgTree TreeValue _ _, LentValue _, DecValue (Some v) => Some (LentValue v)
    | ArgTree TreeMap _ _, LentMap _, DecMap m => Some (LentMap m)
    | ArgTree TreeList _ _, LentList _, DecList l => Some (LentList l)
    | ArgBytesMut, PassBuffer b, DecBuffer w => Some (PassBuffer (take (length b) w ++ drop (length w) b))
    | _, _, _ => None
    end
  else Some a.
Fixpoint all_come_back (descs : list ArgDescription) (args : list (Arg Obj)) (ds : list Decoded) : option (list (Arg Obj)) :=
  match descs, args, ds with
  | [], [], [] => Some []
  | desc :: descs, a :: args, d :: ds =>
      a ← comes_back (arg_ty desc) a d; args ← all_come_back descs args ds; Some (a :: args)
  | _, _, _ => None
  end.
Definition decoded_wf (d : Decoded) : Prop :=
  match d with
  | DecValue (Some v) => lies v
  | DecMap m => walks (VMap m)
  | DecList l => walks (VList l)
  | DecBuffer b => fits b /\ Forall is_byte b
  | _ => True
  end.

(** *** Written back *)

Lemma get_bytes_takes b tl at_ : fits b -> Forall is_byte b -> Forall is_byte tl ->
  get_bytes (MkFieldReader (key_wire b ++ tl) at_) = Ok (b, MkFieldReader tl (at_ + length (key_wire b))).
Proof.
  intros Hf Hb Ht. apply (reads_takes get_bytes key_wire _ get_bytes_reads); [done|]. apply Forall_app. split; [by apply key_wire_bytes|done].
Qed.
Lemma get_value_takes random v tl at_ : lies v -> Forall is_byte tl ->
  get_value random (MkFieldReader (key_wire (wire v) ++ tl) at_) = Ok (v, MkFieldReader tl (at_ + length (key_wire (wire v)))).
Proof.
  intros [Hv Hf] Ht. apply (reads_takes _ (λ v, key_wire (wire v)) _ (get_value_reads random)); [done|]. apply Forall_app.
  split; [apply key_wire_bytes; [by apply wire_bytes|done]|done].
Qed.

Lemma take_min {A} (w b : list A) : take (length w `min` length b) w ++ drop (length w `min` length b) b = take (length b) w ++ drop (length w) b.
Proof.
  destruct (Nat.le_ge_cases (length w) (length b)).
  - rewrite Nat.min_l by done. by rewrite !take_ge by lia.
  - rewrite Nat.min_r by done. by rewrite !drop_ge by lia.
Qed.

Lemma one_comes_back random random' i ty a d a' out : decoded_wf d -> comes_back ty a d = Some a' ->
  exists p, (if written_back ty then put_back random i d out else Ok out) = Ok (out ++ p) /\ Forall is_byte p /\
    forall tl at_, Forall is_byte tl -> take_back random' ty a (MkFieldReader (p ++ tl) at_) = Ok (a', MkFieldReader tl (at_ + length p)).
Proof.
  intros Hd Hc. unfold comes_back in Hc. destruct (written_back ty) eqn:Ew.
  2: { injection Hc as <-. exists []. rewrite app_nil_r. split_and!; [done..|]. intros tl at_ _. cbn [app length]. rewrite Nat.add_0_r.
       destruct ty as [| | | |t [] nullable|]; try done; by destruct a. }
  assert (forall v, lies v -> Forall is_byte (key_wire (wire v))) as Hkb by (intros v [Hv Hf]; apply key_wire_bytes; [by apply wire_bytes|done]).
  destruct ty as [| | | |t p nullable|]; try done.
  - destruct a as [| | | | | |b| | | | | | | | | | |]; try done. destruct d as [| | | | | |w| | | |]; try done. injection Hc as <-. destruct Hd as [Hf Hb].
    exists (key_wire w). cbn [put_back]. rewrite put_bytes_key by done. split_and!; [done|by apply key_wire_bytes|]. intros tl at_ Ht. cbn [take_back].
    rewrite get_bytes_takes by done. cbn [mbind result_bind]. by rewrite take_min.
  - destruct p; try done. destruct t, a; try done; destruct d as [| | | | | | |[x|]|y|z|]; try done; injection Hc as <-.
    + exists (key_wire (wire x)). destruct (put_tree_as random x out Hd) as [H _]. split_and!; [done|by apply Hkb|].
      intros tl at_ Ht. cbn [take_back]. by rewrite get_value_takes.
    + destruct Hd as (Hv & Hf & Hm). exists (key_wire (wire (VMap y))). destruct (put_tree_as random (VMap y) out (conj Hv Hf)) as [_ H].
      split_and!; [by apply H|by apply Hkb|]. intros tl at_ Ht. cbn [take_back]. by rewrite get_value_takes.
    + destruct Hd as (Hv & Hf & Hm). exists (key_wire (wire (VList z))). destruct (put_tree_as random (VList z) out (conj Hv Hf)) as [_ H].
      split_and!; [by apply H|by apply Hkb|]. intros tl at_ Ht. cbn [take_back]. by rewrite get_value_takes.
Qed.

Lemma all_come_back_taken random random' descs : forall i (args : list (Arg Obj)) ds args' out, Forall decoded_wf ds -> all_come_back descs args ds = Some args' ->
  exists b, put_backs random i descs ds out = Ok (out ++ b) /\ Forall is_byte b /\
    forall tl at_, Forall is_byte tl -> take_backs random' descs args (MkFieldReader (b ++ tl) at_) = (args', Ok (MkFieldReader tl (at_ + length b))).
Proof.
  induction descs as [|desc descs IH]; intros i args ds args' out Hw Hc; destruct args as [|a args], ds as [|d ds]; try done.
  - injection Hc as <-. exists []. rewrite app_nil_r. split_and!; [done..|]. intros tl at_ _. cbn. by rewrite Nat.add_0_r.
  - cbn [all_come_back] in Hc. destruct (comes_back (arg_ty desc) a d) as [a1|] eqn:E1; [|done]. cbn in Hc.
    destruct (all_come_back descs args ds) as [args1|] eqn:E2; [|done]. injection Hc as <-. inversion Hw as [|? ? Hw1 Hw2]; subst.
    destruct (one_comes_back random random' i (arg_ty desc) a d a1 out Hw1 E1) as (p & Hp & Hpb & Ht).
    destruct (IH (S i) args ds args1 (out ++ p) Hw2 E2) as (b & Hb & Hbb & Hts).
    exists (p ++ b). cbn [put_backs]. rewrite Hp. cbn [mbind result_bind]. rewrite Hb, app_assoc. split_and!; [done|by apply Forall_app|].
    intros tl at_ Htl. cbn [take_backs]. rewrite <- app_assoc, Ht by by apply Forall_app. rewrite Hts by done.
    by rewrite length_app, Nat.add_assoc.
Qed.

(** *** The answer *)

Section exchange.
Context (export : Obj -> W -> ObjectRef * W) (object : bytes -> ObjectRef -> W -> result (fault ProtocolError) Obj * W).

Definition answered_with (slot : SlotDescription) (a : Answer Obj) (w w2 : W) : option (Answer Obj * W * W) :=
  match slot_answer slot, a with
  | Some (AnswerObject kind), AnsObject o =>
      let '(r, w) := export o w in
      match object kind r w2 with (Ok o, w2) => Some (AnsObject o, w, w2) | (Err _, _) => None end
  | _, _ => a ← answered slot a; Some (a, w, w2)
  end.

(** An answer of one piece that is read back. *)
Definition answers (random' : Seeded) (slot : SlotDescription) (x : result (fault ProtocolError) bytes * W) (out : bytes) (a' : Answer Obj) (w1 w2 w2' : W) : Prop :=
  exists p, x = (Ok (out ++ p), w1) /\ Forall is_byte p /\
    forall tl at_, Forall is_byte tl -> get_answer random' nan slot object (MkFieldReader (p ++ tl) at_) w2 = (Ok (a', MkFieldReader tl (at_ + length p)), w2').

Lemma carries_taken random ty d p tl at_ : carries nan ty d p -> Forall is_byte p -> Forall is_byte tl ->
  get_arg random nan ty (MkFieldReader (p ++ tl) at_) = Ok (d, MkFieldReader tl (at_ + length p)).
Proof.
  intros Hc Hp Ht. assert (bytes_left (MkFieldReader (p ++ tl) at_)) as Hb by by apply Forall_app.
  destruct (get_arg_reads nan random ty _ Hb) as [_ H]. rewrite (H _ _ tl Hc eq_refl). unfold skip_. cbn. by rewrite drop_app_length.
Qed.

Lemma carries_bytes_ ty d p : carries nan ty d p -> Forall is_byte p.
Proof.
  intros H. pose proof (all_carry_bytes nan [MkArgDescription [] ty] [d] (p ++ []) ltac:(repeat constructor; done)) as Hb. by rewrite app_nil_r in Hb.
Qed.

Lemma answer_scalar random' slot s d p out a' (w w2 : W) : slot_answer slot = Some (AnswerScalar s) ->
  carries nan (ArgScalar s) d p ->
  match d with DecBool b => a' = AnsBool b | DecInt n => a' = AnsInt n | DecUint n => a' = AnsUint n | DecFloat f => a' = AnsFloat f | _ => False end ->
  answers random' slot (Ok (out ++ p), w) out a' w w2 w2.
Proof.
  intros Es Hc Ha. pose proof (carries_bytes_ _ _ _ Hc) as Hp. exists p. split_and!; [done..|]. intros tl at_ Ht.
  unfold get_answer. rewrite Es. pose proof (carries_taken random' _ _ _ tl at_ Hc Hp Ht) as E. cbn [get_arg] in E. rewrite E.
  cbn [mbind result_bind]. destruct d; try done; by subst a'.
Qed.

Lemma answer_tree random random' slot t v out a' (w w2 : W) : slot_answer slot = Some (AnswerTree t) -> lies v -> tree_answered t v = Some a' ->
  answers random' slot (put_tree_value out v, w) out a' w w2 w2 /\
  ((vdepth v <= MAX_DEPTH)%nat -> answers random' slot (put_walk random out v, w) out a' w w2 w2).
Proof.
  intros Es Hv Ha. destruct (put_tree_as random v out Hv) as [H1 H2].
  assert (answers random' slot (Ok (out ++ key_wire (wire v)), w) out a' w w2 w2) as H.
  { exists (key_wire (wire v)). pose proof Hv as [Hw Hf]. split_and!; [done|apply key_wire_bytes; [by apply wire_bytes|done]|]. intros tl at_ Ht.
    unfold get_answer. rewrite Es, get_value_takes by done. cbn [mbind result_bind].
    unfold tree_answered in Ha. destruct t; [by injection Ha as <-|..]; (destruct v; try done; by injection Ha as <-). }
  split; [by rewrite H1|intros Hd; by rewrite H2].
Qed.

Lemma answer_arrives random random' slot a out w w2 a' w1 w2' : answer_wf a -> (forall o w, ref_wf (export o w).1) ->
  answered_with slot a w w2 = Some (a', w1, w2') ->
  answers random' slot (encode_answer random nan slot a out export w) out a' w1 w2 w2'.
Proof.
  intros Hw Hx Ha. unfold answered_with, answered in Ha. unfold encode_answer.
  destruct (slot_answer slot) as [[s| |t|kind]|] eqn:Es.
  - assert (forall n, int_as s n (@AnsInt Obj) AnsUint = Some a' -> w1 = w -> w2' = w2 ->
      answers random' slot (match put_scalar_int out s n with Some out => Ok out | None => wrong_answer "something its slot does not" end, w) out a' w1 w2 w2') as Hi.
    { intros n E -> ->. destruct (put_scalar_int_as s n out _ _ _ E) as [(? & ? & -> & ->)|(? & ? & -> & ->)]; (eapply answer_scalar; [done|by constructor|done]). }
    assert (forall f, is_u64 f -> float_as nan s f (@AnsFloat Obj) = Some a' -> w1 = w -> w2' = w2 ->
      answers random' slot (match put_scalar_float nan out s f with Some out => Ok out | None => wrong_answer "something its slot does not" end, w) out a' w1 w2 w2') as Hf.
    { intros f Hf E -> ->. destruct (put_scalar_float_as nan s f out _ _ Hf E) as (x & p & -> & Hc & ->). by eapply answer_scalar. }
    destruct a as [|b|n|n|f| | | | |]; try (by destruct s).
    + destruct s; try done. injection Ha as <- <- <-. eapply answer_scalar; [done|constructor|done].
    + destruct (int_as s n AnsInt AnsUint) as [x|] eqn:E; [|by destruct s]. assert (Some (x, w, w2) = Some (a', w1, w2')) as [= <- <- <-] by by destruct s.
      by destruct s; apply Hi.
    + destruct (int_as s n AnsInt AnsUint) as [x|] eqn:E; [|by destruct s]. assert (Some (x, w, w2) = Some (a', w1, w2')) as [= <- <- <-] by by destruct s.
      by destruct s; apply Hi.
    + destruct (float_as nan s f AnsFloat) as [x|] eqn:E; [|by destruct s]. assert (Some (x, w, w2) = Some (a', w1, w2')) as [= <- <- <-] by by destruct s.
      by destruct s; apply Hf.
  - destruct a as [| | | | |t| | | |]; try done. injection Ha as <- <- <-. destruct Hw as [Hu Hf]. exists (key_wire t).
    unfold put_text. rewrite put_bytes_key by done. assert (Forall is_byte (key_wire t)) as Hb by (apply key_wire_bytes; [by apply utf8_bytes|done]).
    split_and!; [done..|]. intros tl at_ Ht. unfold get_answer. rewrite Es.
    rewrite (reads_takes get_text key_wire _ get_text_reads) by (done || by apply Forall_app). done.
  - assert (forall v, lies v -> (tree_answered t v ≫= λ a, Some (a, w, w2)) = Some (a', w1, w2') ->
      answers random' slot (put_tree_value out v, w) out a' w1 w2 w2' /\
      ((vdepth v <= MAX_DEPTH)%nat -> answers random' slot (put_walk random out v, w) out a' w1 w2 w2')) as H.
    { intros v Hv E. destruct (tree_answered t v) as [x|] eqn:E'; [|done]. injection E as <- <- <-. by apply answer_tree with (t := t). }
    destruct a as [| | | | | |v|m|l|]; try done.
    + by apply H.
    + destruct Hw as (H1 & H2 & H3). by apply (H (VMap m)).
    + destruct Hw as (H1 & H2 & H3). by apply (H (VList l)).
  - destruct a as [| | | | | | | | |o]; try done. specialize (Hx o w). destruct (export o w) as [r w'].
    destruct (object kind r w2) as [[o'|] w2''] eqn:Eo; [|done]. injection Ha as <- <- <-. cbn [fst] in Hx. destruct (code_leb r Hx) as [Hc Er].
    exists (leb (code r)). rewrite put_uint_leb by done. split_and!; [done|by apply leb_bytes|]. intros tl at_ Ht. unfold get_answer. rewrite Es.
    rewrite (reads_takes get_uint leb _ get_uint_reads) by (done || (apply Forall_app; split; [by apply leb_bytes|done])). by rewrite Er, Eo.
  - destruct a; try done. injection Ha as <- <- <-. exists []. rewrite app_nil_r. split_and!; [done..|]. intros tl at_ _. unfold get_answer. rewrite Es.
    cbn [app length]. by rewrite Nat.add_0_r.
Qed.

(** C34: c: The body of a reply, the answer and then what the callee wrote into what it was
    lent, gives the caller that answer, an object as the handle made of the reference
    it was registered under, and its lent trees and buffers as the callee left them;
    everything else the caller passed is untouched. *)
Theorem reply_arrives (random random' : Seeded) (slot : SlotDescription) (a a' : Answer Obj) (args args' : list (Arg Obj)) (ds : list Decoded)
    (out : bytes) (w w1 w2 w2' : W)
    (Ha : answer_wf a) (Hx : forall o w, ref_wf (export o w).1) (Hd : Forall decoded_wf ds)
    (Ea : answered_with slot a w w2 = Some (a', w1, w2')) (Eb : all_come_back (slot_args slot) args ds = Some args') :
  exists b1 b2, encode_answer random nan slot a out export w = (Ok (out ++ b1), w1) /\
    encode_writebacks random slot ds (out ++ b1) = Ok (out ++ b1 ++ b2) /\
    decode_answer random' nan slot (b1 ++ b2) args object w2 = (Ok a', args', w2').
Proof.
  destruct (answer_arrives random random' slot a out w w2 a' w1 w2' Ha Hx Ea) as (b1 & E1 & H1 & Hget).
  destruct (all_come_back_taken random random' (slot_args slot) 0 args ds args' (out ++ b1) Hd Eb) as (b2 & E2 & H2 & Htake).
  exists b1, b2. rewrite <- app_assoc in E2. split_and!; [done..|]. unfold decode_answer, field_reader.
  rewrite Hget by done. pose proof (Htake [] (0 + length b1)%nat) as H. rewrite app_nil_r in H. by rewrite H.
Qed.
End exchange.
End replies.

(** ** At work *)

Definition ex_slot : SlotDescription :=
  MkSlotDescription (bs "write") true true
    [MkArgDescription (bs "at") (ArgScalar SI32); MkArgDescription (bs "scale") (ArgScalar SF32); MkArgDescription (bs "text") ArgStr;
     MkArgDescription (bs "opts") (ArgTree TreeMap Lent false); MkArgDescription (bs "into") ArgBytesMut;
     MkArgDescription (bs "hint") (ArgTree TreeValue Borrowed true); MkArgDescription (bs "sink") (ArgObject (bs "sink") Taken)]
    (Some (AnswerObject (bs "cursor"))) false None.
Definition ex_args : list (Arg Z) :=
  [PassInt (-3); PassFloat 0x3fb999999999999a; PassStr (bs "hi"); LentMap [(bs "a", VBool true)]; PassBuffer [7; 7; 7]; PassValue None; PassObject 5].
Definition ex_refs : list (option ObjectRef) := [None; None; None; None; None; None; Some (Senders 2)].
Definition ex_decoded : list Decoded :=
  [DecInt (-3); DecFloat 0x3fb99999a0000000; DecStr (bs "hi"); DecMap [(bs "a", VBool true)]; DecBuffer [0; 0; 0]; DecValue None; DecObject (Senders 2)].

Lemma ex_walks b : walks (VMap [(bs "a", VBool b)]).
Proof.
  split_and!; [|destruct b; vm_compute; discriminate|vm_compute; lia]. apply value_wf_map. split_and!.
  - vm_compute. discriminate.
  - apply NoDup_singleton.
  - apply Forall_singleton. split_and!; [done|vm_compute; discriminate|done].
Qed.

Lemma arguments_arrive_witness : exists b,
  encode_args (MkSeeded 1 2) id ex_slot ex_args ex_refs [9] = Ok ([9] ++ b) /\ decode_args (MkSeeded 3 4) id ex_slot b = Ok ex_decoded.
Proof.
  apply (arguments_arrive id (MkSeeded 1 2) (MkSeeded 3 4) ex_slot ex_args ex_refs ex_decoded [9]); [| |reflexivity].
  - repeat (apply Forall_cons; split); try apply Forall_nil; try exact I; try apply ex_walks; try (vm_compute; split; (reflexivity || discriminate)).
    split; [vm_compute; discriminate|repeat constructor; discriminate].
  - intros i r H. do 7 (destruct i as [|i]; [cbn in H; (done || injection H as <-; cbn; lia)|]). done.
Defined.

Lemma arguments_exact_witness :
  decode_args (MkSeeded 1 2) id ex_slot [5; 0; 0; 0; 64; 1; 104; 2; 7; 0; 1; 1; 0; 4] =
    Ok [DecInt (-3); DecFloat 0x4000000000000000; DecStr (bs "h"); DecMap []; DecBuffer [0]; DecValue None; DecObject (Senders 2)] /\
  all_carry id (slot_args ex_slot)
    [DecInt (-3); DecFloat 0x4000000000000000; DecStr (bs "h"); DecMap []; DecBuffer [0]; DecValue None; DecObject (Senders 2)]
    [5; 0; 0; 0; 64; 1; 104; 2; 7; 0; 1; 1; 0; 4].
Proof.
  assert (Forall is_byte [5; 0; 0; 0; 64; 1; 104; 2; 7; 0; 1; 1; 0; 4]) as Hb by (repeat constructor; discriminate).
  pose proof (arguments_exact id (MkSeeded 1 2) ex_slot _ Hb) as H.
  replace (decode_args _ _ _ _)
    with (Ok (E := fault ProtocolError) [DecInt (-3); DecFloat 0x4000000000000000; DecStr (bs "h"); DecMap []; DecBuffer [0]; DecValue None; DecObject (Senders 2)])
    in * by (vm_compute; reflexivity).
  by split.
Defined.

Lemma reply_arrives_witness : exists b1 b2,
  encode_answer (MkSeeded 1 2) id ex_slot (AnsObject 5) [9] (λ o w, (Senders 3, o :: w)) ([] : list Z) = (Ok ([9] ++ b1), [5]) /\
  encode_writebacks (MkSeeded 1 2) ex_slot
    [DecInt (-3); DecFloat 0; DecStr (bs "hi"); DecMap [(bs "a", VBool false)]; DecBuffer [1; 2]; DecValue None; DecObject (Senders 2)] ([9] ++ b1) = Ok ([9] ++ b1 ++ b2) /\
  decode_answer (MkSeeded 3 4) id ex_slot (b1 ++ b2) ex_args (λ _ r w, (Ok 8, w)) ([] : list Z) =
    (Ok (AnsObject 8), [PassInt (-3); PassFloat 0x3fb999999999999a; PassStr (bs "hi"); LentMap [(bs "a", VBool false)]; PassBuffer [1; 2; 7]; PassValue None; PassObject 5], []).
Proof.
  apply (reply_arrives id (λ o w, (Senders 3, o :: w)) (λ _ r w, (Ok 8, w)) (MkSeeded 1 2) (MkSeeded 3 4) ex_slot (AnsObject 5) (AnsObject 8) ex_args).
  - exact I.
  - intros o w. cbn. lia.
  - repeat (apply Forall_cons; split); try apply Forall_nil; try exact I; try apply ex_walks.
    split; [vm_compute; discriminate|repeat constructor; discriminate].
  - reflexivity.
  - reflexivity.
Defined.
