(* ===== verification/Catalog.v ===== *)
(** * A server's catalog

    [protocol/catalog.rs] of the remote source: what a LIST is answered with, written
    as a value and read back. A refusal keeps the place it names and what was wrong
    there. *)

From S2P Require Import Prelude Decimal Number Value Maps Float64 SchemaRead KindDescription KindLaws.

#[local] Arguments bs _ : simpl never.

(** ** Data *)

Record TableEntry := MkTableEntry { te_kind : bytes; te_table : Z; te_slots : list bytes }.
Record ProviderEntry := MkProviderEntry { pe_id : bytes; pe_name : bytes; pe_meta : option Map; pe_tables : list TableEntry }.
Record LibraryEntry := MkLibraryEntry { le_id : bytes; le_version : bytes; le_stamp : bytes; le_providers : list ProviderEntry }.
Record Catalog := MkCatalog { cat_kinds : list Value; cat_libraries : list LibraryEntry }.

(** What was wrong, after the place it says it of. *)
Inductive CatalogWrong : Type :=
  | CatalogNotAMap
  | KeyNotText (key : bytes) | KeyNotAList (key : bytes)
  | EntryNotAMap | TableNotANumber | SlotNotText.
Definition CatalogError : Type := bytes * CatalogWrong.

(** ** Writing *)

(** [Catalog::to_value], a turn of each loop by itself. *)
Definition table_value (t : TableEntry) : Value :=
  let m := set_ [] (bs "kind") (VString (te_kind t)) in
  let m := set_ m (bs "table") (VNumber (dec (te_table t))) in
  VMap (set_ m (bs "slots") (VList (map VString (te_slots t)))).
Definition provider_value (p : ProviderEntry) : Value :=
  let m := set_ [] (bs "id") (VString (pe_id p)) in
  let m := set_ m (bs "name") (VString (pe_name p)) in
  let m := match pe_meta p with Some meta => set_ m (bs "meta") (VMap meta) | None => m end in
  VMap (set_ m (bs "tables") (VList (map table_value (pe_tables p)))).
Definition library_value (l : LibraryEntry) : Value :=
  let m := set_ [] (bs "id") (VString (le_id l)) in
  let m := set_ m (bs "version") (VString (le_version l)) in
  let m := set_ m (bs "stamp") (VString (le_stamp l)) in
  VMap (set_ m (bs "providers") (VList (map provider_value (le_providers l)))).
Definition catalog_value (c : Catalog) : Value :=
  let m := set_ [] (bs "kinds") (VList (cat_kinds c)) in
  VMap (set_ m (bs "libraries") (VList (map library_value (cat_libraries c)))).

(** ** Reading *)

(** [text], [list] and [maps]. *)
Definition cat_text (m : Map) (key at_ : bytes) : result CatalogError bytes :=
  match get m key ≫= as_text with Some t => Ok t | None => Err (at_, KeyNotText key) end.
Definition cat_list (m : Map) (key at_ : bytes) : result CatalogError (list Value) :=
  match get m key ≫= as_list with Some l => Ok l | None => Err (at_, KeyNotAList key) end.
Definition collected {A B} (f : A -> option B) (l : list A) (e : CatalogError) : result CatalogError (list B) :=
  match mapM f l with Some l => Ok l | None => Err e end.
Definition cat_maps (l : list Value) (at_ : bytes) : result CatalogError (list Map) := collected as_map l (at_, EntryNotAMap).

(** A loop that reads one entry after another. *)
Fixpoint each_entry {A B} (f : A -> result CatalogError B) (l : list A) : result CatalogError (list B) :=
  match l with [] => Ok [] | x :: l => y ← f x; ys ← each_entry f l; Ok (y :: ys) end.

(** [Catalog::from_value]. *)
Definition table_from (pat : bytes) (t : Map) : result CatalogError TableEntry :=
  table ← match get t (bs "table") ≫= int_from_value 0 u64_max with Some n => Ok n | None => Err (pat, TableNotANumber) end;
  slots ← cat_list t (bs "slots") pat;
  slots ← collected as_text slots (pat, SlotNotText);
  kind ← cat_text t (bs "kind") pat;
  Ok (MkTableEntry kind table slots).
Definition provider_from (at_ : bytes) (p : Map) : result CatalogError ProviderEntry :=
  pid ← cat_text p (bs "id") at_;
  let pat := bs "provider `" ++ pid ++ bs "`" in
  tables ← cat_list p (bs "tables") pat;
  tables ← cat_maps tables pat;
  tables ← each_entry (table_from pat) tables;
  Ok (MkProviderEntry pid (default [] (get p (bs "name") ≫= as_text)) (get p (bs "meta") ≫= as_map) tables).
Definition library_from (l : Map) : result CatalogError LibraryEntry :=
  id ← cat_text l (bs "id") (bs "a library");
  let at_ := bs "library `" ++ id ++ bs "`" in
  providers ← cat_list l (bs "providers") at_;
  providers ← cat_maps providers at_;
  providers ← each_entry (provider_from at_) providers;
  version ← cat_text l (bs "version") at_;
  stamp ← cat_text l (bs "stamp") at_;
  Ok (MkLibraryEntry id version stamp providers).
Definition catalog_from (value : Value) : result CatalogError Catalog :=
  match as_map value with
  | None => Err (bs "the catalog", CatalogNotAMap)
  | Some m =>
      kinds ← cat_list m (bs "kinds") (bs "the catalog");
      libraries ← cat_list m (bs "libraries") (bs "the catalog");
      libraries ← cat_maps libraries (bs "libraries");
      libraries ← each_entry library_from libraries;
      Ok (MkCatalog kinds libraries)
  end.

(** ** A catalog is read back *)

(** A catalog of texts, numbers and maps, as its types have it. *)
Definition table_ok (t : TableEntry) : Prop :=
  is_utf8 (te_kind t) = true /\ 0 <= te_table t <= u64_max /\ Forall (λ s, is_utf8 s = true) (te_slots t).
Definition provider_ok (p : ProviderEntry) : Prop :=
  is_utf8 (pe_id p) = true /\ is_utf8 (pe_name p) = true /\ (forall m, pe_meta p = Some m -> keys_are_text m = true) /\ Forall table_ok (pe_tables p).
Definition library_ok (l : LibraryEntry) : Prop :=
  is_utf8 (le_id l) = true /\ is_utf8 (le_version l) = true /\ is_utf8 (le_stamp l) = true /\ Forall provider_ok (le_providers l).
Definition catalog_ok (c : Catalog) : Prop := Forall library_ok (cat_libraries c).

Lemma cat_text_Ok m key at_ t : cat_text m key at_ = Ok t <-> exists v, get m key = Some v /\ as_text v = Some t.
Proof.
  unfold cat_text. destruct (get m key) as [v|]; [|split; [done|naive_solver]]. cbn. destruct (as_text v) eqn:E; split; naive_solver.
Qed.
Lemma cat_text_is m key at_ t : get m key = Some (VString t) -> is_utf8 t = true -> cat_text m key at_ = Ok t.
Proof. intros E H. apply cat_text_Ok. exists (VString t). split; [done|]. cbn. by rewrite H. Qed.
Lemma cat_text_utf8 m key at_ t : cat_text m key at_ = Ok t -> is_utf8 t = true.
Proof. intros (v & _ & E)%cat_text_Ok. by apply as_text_Some in E as [_ ?]. Qed.
Lemma cat_list_is m key at_ l : get m key = Some (VList l) -> cat_list m key at_ = Ok l.
Proof. unfold cat_list. by intros ->. Qed.

Lemma collected_is {A B} (f : A -> option B) (g : B -> A) l e : Forall (λ b, f (g b) = Some b) l -> collected f (map g l) e = Ok l.
Proof.
  intros H. unfold collected. assert (mapM f (map g l) = Some l) as ->; [|done].
  apply mapM_Some. induction H as [|b l Hb _ IH]; constructor; done.
Qed.
Lemma collected_Ok {A B} (f : A -> option B) (P : B -> Prop) l e l' : (forall a b, f a = Some b -> P b) -> collected f l e = Ok l' -> Forall P l'.
Proof.
  unfold collected. intros H. destruct (mapM f l) as [k|] eqn:E; [|done]. intros [= <-]. apply mapM_Some in E.
  induction E as [|a b l k Hab _ IH]; constructor; [by eapply H|done].
Qed.
Lemma each_entry_is {A B} (f : A -> result CatalogError B) (g : B -> A) l : Forall (λ b, f (g b) = Ok b) l -> each_entry f (map g l) = Ok l.
Proof. induction 1 as [|b l Hb _ IH]; [done|]. cbn. by rewrite Hb, IH. Qed.
Lemma each_entry_Ok {A B} (f : A -> result CatalogError B) (P : B -> Prop) l l' : (forall a b, f a = Ok b -> P b) -> each_entry f l = Ok l' -> Forall P l'.
Proof.
  intros H. revert l'. induction l as [|a l IH]; intros l'; cbn; [intros [= <-]; constructor|].
  intros (b & Hb & H')%bind_Ok. apply bind_Ok in H' as (k & Hk & H'). injection H' as <-. constructor; [by eapply H|by apply IH].
Qed.

(** The maps an entry of a list is written as. *)
Definition entries_of (v : Value) : Map := match v with VMap m => m | _ => [] end.
Lemma cat_maps_is {A} (f : A -> Value) l at_ : (forall a, as_map (f a) = Some (entries_of (f a))) ->
  cat_maps (map f l) at_ = Ok (map (entries_of ∘ f) l).
Proof.
  intros H. unfold cat_maps, collected. assert (mapM as_map (map f l) = Some (map (entries_of ∘ f) l)) as ->; [|done].
  apply mapM_Some. induction l as [|a l IH]; constructor; [apply H|done].
Qed.

Ltac at_key key := first [erewrite (cat_text_is _ key); [|by look|done] | erewrite (cat_list_is _ key); [|by look]]; cbn [mbind result_bind].

Lemma table_map t : as_map (table_value t) = Some (entries_of (table_value t)).
Proof. unfold table_value. cbn [as_map entries_of]. by rewrite text_keys by auto 20 with kinds. Qed.
Lemma provider_map p : as_map (provider_value p) = Some (entries_of (provider_value p)).
Proof. unfold provider_value. cbn [as_map entries_of]. destruct (pe_meta p); by rewrite text_keys by auto 20 with kinds. Qed.
Lemma library_map l : as_map (library_value l) = Some (entries_of (library_value l)).
Proof. unfold library_value. cbn [as_map entries_of]. by rewrite text_keys by auto 20 with kinds. Qed.

Lemma table_back pat t : table_ok t -> table_from pat (entries_of (table_value t)) = Ok t.
Proof.
  destruct t as [k n s]. intros (Hk & Hn & Hs). unfold table_from, table_value. cbn [entries_of te_kind te_table te_slots] in *.
  look. cbn [mbind option_bind]. rewrite int_back by done. cbn [mbind result_bind]. at_key (bs "slots").
  rewrite collected_is by (eapply Forall_impl; [exact Hs|]; cbn; by intros x ->). cbn [mbind result_bind]. by at_key (bs "kind").
Qed.

Lemma provider_back at_ p : provider_ok p -> provider_from at_ (entries_of (provider_value p)) = Ok p.
Proof.
  destruct p as [i n meta ts]. intros (Hi & Hn & Hm & Ht). unfold provider_from, provider_value. cbn [entries_of pe_id pe_name pe_meta pe_tables] in *.
  assert (forall m v, get (match meta with Some meta => set_ m (bs "meta") (VMap meta) | None => m end) v =
    if decide (bs "meta" = v) then match meta with Some meta => Some (VMap meta) | None => get m v end else get m v) as Eg.
  { intros m v. destruct meta; [by rewrite get_set|by destruct (decide _)]. }
  rewrite (cat_text_is _ (bs "id") at_ i) by (rewrite ?get_set, ?Eg; look; done). cbn [mbind result_bind]. at_key (bs "tables").
  rewrite cat_maps_is by apply table_map. cbn [mbind result_bind].
  rewrite each_entry_is by (eapply Forall_impl; [exact Ht|]; intros t; apply table_back). cbn [mbind result_bind]. do 2 f_equal.
  - rewrite ?get_set, ?Eg. look. cbn. by rewrite Hn.
  - rewrite ?get_set, ?Eg. look. destruct meta as [m|]; [|by look]. cbn. by rewrite Hm.
Qed.

Lemma library_back l : library_ok l -> library_from (entries_of (library_value l)) = Ok l.
Proof.
  destruct l as [i v s ps]. intros (Hi & Hv & Hs & Hp). unfold library_from, library_value. cbn [entries_of le_id le_version le_stamp le_providers] in *.
  at_key (bs "id"). at_key (bs "providers"). rewrite cat_maps_is by apply provider_map. cbn [mbind result_bind].
  rewrite each_entry_is by (eapply Forall_impl; [exact Hp|]; intros p; apply provider_back). cbn [mbind result_bind].
  at_key (bs "version"). by at_key (bs "stamp").
Qed.

Lemma as_map_keys v m : as_map v = Some m -> keys_are_text m = true.
Proof. destruct v as [| | | | | | |m'|]; try done. cbn. destruct (keys_are_text m') eqn:E; [|done]. by intros [= <-]. Qed.

Lemma table_read_ok pat m t : table_from pat m = Ok t -> table_ok t.
Proof.
  unfold table_from. intros (n & Hn & H)%bind_Ok. apply bind_Ok in H as (l & _ & H). apply bind_Ok in H as (s & Hs & H).
  apply bind_Ok in H as (k & Hk & H). injection H as <-. split_and!; cbn.
  - by eapply cat_text_utf8.
  - destruct (get m (bs "table") ≫= int_from_value 0 u64_max) as [x|] eqn:E; [|done]. injection Hn as <-.
    destruct (get m (bs "table")) as [v|]; [|done]. by destruct (int_bounds _ _ _ _ E).
  - destruct (get m (bs "table") ≫= int_from_value 0 u64_max) as [x|] eqn:E; [|done]. injection Hn as <-.
    destruct (get m (bs "table")) as [v|]; [|done]. by destruct (int_bounds _ _ _ _ E).
  - eapply collected_Ok; [|exact Hs]. intros v t E. by apply as_text_Some in E as [_ ?].
Qed.

Lemma provider_read_ok at_ m p : provider_from at_ m = Ok p -> provider_ok p.
Proof.
  unfold provider_from. intros (i & Hi & H)%bind_Ok. apply bind_Ok in H as (l & _ & H). apply bind_Ok in H as (ms & _ & H).
  apply bind_Ok in H as (ts & Ht & H). injection H as <-. split_and!; cbn.
  - by eapply cat_text_utf8.
  - destruct (get m (bs "name")) as [v|]; [|done]. cbn. destruct (as_text v) as [t|] eqn:E; [|done]. by apply as_text_Some in E as [_ ?].
  - intros k. destruct (get m (bs "meta")) as [v|]; [|done]. apply as_map_keys.
  - eapply each_entry_Ok; [|exact Ht]. apply table_read_ok.
Qed.

Lemma library_read_ok m l : library_from m = Ok l -> library_ok l.
Proof.
  unfold library_from. intros (i & Hi & H)%bind_Ok. do 2 apply bind_Ok in H as (? & _ & H). apply bind_Ok in H as (ps & Hp & H).
  apply bind_Ok in H as (v & Hv & H). apply bind_Ok in H as (s & Hs & H). injection H as <-. split_and!; cbn; [by eapply cat_text_utf8..|].
  eapply each_entry_Ok; [|exact Hp]. apply provider_read_ok.
Qed.

(** C: A catalog written as a value is read back as it was, whatever its libraries,
    providers and tables are; and what is read of any value is a catalog that is
    written and read back so. *)
Theorem catalog_is_read_back (c : Catalog) (v : Value) :
  (catalog_ok c -> catalog_from (catalog_value c) = Ok c) /\
  (catalog_from v = Ok c -> catalog_ok c /\ catalog_from (catalog_value c) = Ok c).
Proof.
  assert (catalog_ok c -> catalog_from (catalog_value c) = Ok c) as Hback.
  { destruct c as [ks ls]. unfold catalog_ok. cbn [cat_libraries]. intros Hl. unfold catalog_from, catalog_value. cbn [as_map cat_kinds cat_libraries].
    rewrite text_keys by auto 20 with kinds. at_key (bs "kinds"). at_key (bs "libraries"). rewrite cat_maps_is by apply library_map. cbn [mbind result_bind].
    by rewrite each_entry_is by (eapply Forall_impl; [exact Hl|]; intros l; apply library_back). }
  split; [done|]. intros H. assert (catalog_ok c) as Hc; [|auto].
  unfold catalog_from in H. destruct (as_map v) as [m|]; [|done]. do 3 apply bind_Ok in H as (? & _ & H).
  apply bind_Ok in H as (ls & Hl & H). injection H as <-. eapply each_entry_Ok; [|exact Hl]. apply library_read_ok.
Qed.

Lemma catalog_is_read_back_witness :
  let c := MkCatalog [VNull] [MkLibraryEntry (bs "lib") (bs "1.0.0") (bs "s") [MkProviderEntry (bs "p") (bs "P") (Some [(bs "k", VBool true)])
    [MkTableEntry (bs "greeter") 3 [bs "greet"]]]] in
  catalog_from (catalog_value c) = Ok c /\ catalog_ok c.
Proof.
  set (c := MkCatalog _ _). cbv zeta. assert (catalog_from (catalog_value c) = Ok c) as H by (vm_compute; reflexivity).
  destruct (catalog_is_read_back c (catalog_value c)) as [_ H2]. destruct (H2 H) as [Hc _]. by split.
Defined.
