(* ===== verification/Build.v ===== *)
(** * Writing a schema

    [schema/build.rs]: the builders a schema is written with, each holding what it has
    written or the first error that stopped it. Allocation does not fail, so the forms
    that name an allocator are the forms that do not. *)

From Stdlib Require Import SpecFloat.
From S2P Require Import Prelude Decimal Errors SchemaErrors Number Value Maps JsonNumber Float64 Vocab SchemaRead.

(** ** Numbers as text *)

(** [i64::to_string]. *)
Definition signed_dec (n : Z) : bytes := if n <? 0 then 45 :: dec (- n) else dec n.

(** [f64]'s [Display]: the fewest digits that are read back as the float, the nearest to
    it where several are, and never an exponent. [positional d e] writes [d * 10 ^ e]. *)
Definition positional (d e : Z) : bytes :=
  let ds := dec d in
  if 0 <=? e then ds ++ replicate (Z.to_nat e) 48
  else
    let point := Z.to_nat (- e) in
    if decide (length ds <= point)%nat then bs "0." ++ replicate (point - length ds) 48 ++ ds
    else take (length ds - point) ds ++ bs "." ++ drop (length ds - point) ds.
(** [m * 2 ^ e], times [10 ^ k], to the nearest integer. *)
Definition scaled (m : positive) (e k : Z) : Z :=
  let num := Z.pos m * 2 ^ Z.max e 0 * 10 ^ Z.max k 0 in
  let den := 2 ^ Z.max (- e) 0 * 10 ^ Z.max (- k) 0 in
  (2 * num + den) / (2 * den).
Definition digits_before (m : positive) (e : Z) : Z :=
  let whole := Z.pos m * 2 ^ Z.max e 0 * 10 ^ 400 / 2 ^ Z.max (- e) 0 in
  Z.of_nat (length (dec whole)) - 400.
Definition fewest_digits (m : positive) (e : Z) : bytes :=
  let k := digits_before m e in
  let at_ n := positional (scaled m e (n - k)) (k - n) in
  match List.find (λ n, bool_decide (parse_f64 (at_ n) = Some (S754_finite false m e))) (seqZ 1 16) with
  | Some n => at_ n
  | None => at_ 17
  end.
Definition float_display (x : f64) : bytes :=
  match x with
  | S754_zero s => (if s then bs "-" else []) ++ bs "0"
  | S754_infinity s => (if s then bs "-" else []) ++ bs "inf"
  | S754_nan => bs "NaN"
  | S754_finite s m e => (if s then bs "-" else []) ++ fewest_digits m e
  end.

Example float_display_ex :
  map (λ t, option_map float_display (parse_f64 (bs t))) ["0.1"; "1e21"; "-2.5"; "5e-7"; "123456789.125"; "-0"] =
  map (λ t, Some (bs t)) ["0.1"; "1000000000000000000000"; "-2.5"; "0.0000005"; "123456789.125"; "-0"]%string.
Proof. vm_compute. reflexivity. Qed.
Example float_display_ends : forallb (λ t, bool_decide ((parse_f64 (bs t) ≫= λ x, parse_f64 (float_display x)) = parse_f64 (bs t)))
  ["1.7976931348623157e308"; "4.9e-324"; "2.2250738585072014e-308"; "9007199254740993"; "0.30000000000000004"] = true.
Proof. vm_compute. reflexivity. Qed.

(** [Number::new_in], and [float_text] and [Number::float_in] of [value/types/number.rs]. *)
Definition number_new (text : bytes) : result ValueError Value := if is_number text then Ok (VNumber text) else Err NotANumber.
Definition float_text (x : f64) : result ValueError bytes := if is_finite x then Ok (float_display x) else Err NotANumber.
Definition number_float (x : f64) : result ValueError Value := text ← float_text x; number_new text.

(** ** What a builder holds *)

Abbreviation State := (result ValueError Value) (only parsing).

(** [put], [push] and [push_name]. *)
Definition put (state : State) (key : bytes) (value : State) : State :=
  node ← state;
  v ← value;
  m ← ok_or (as_map node) WrongKind;
  Ok (VMap (set_ m key v)).
Definition push (state : State) (key : bytes) (value : State) : State :=
  node ← state;
  v ← value;
  m ← ok_or (as_map node) WrongKind;
  m ← push_into m key v;
  Ok (VMap m).
Definition push_name (list : State) (name : bytes) : State :=
  node ← list;
  l ← ok_or (as_list node) WrongKind;
  Ok (VList (l ++ [VString name])).

(** [FieldBuilder], [KindBuilder], [ArmBuilder] and [SchemaBuilder]. *)
Record FieldBuilder := MkFieldBuilder { fb_state : State; fb_key : bytes; fb_required : bool }.
Abbreviation KindBuilder := (result ValueError Value) (only parsing).
Record ArmBuilder := MkArmBuilder { ab_state : State; ab_discriminant : State; ab_value : bytes; ab_fields : list FieldBuilder }.
Record SchemaBuilder := MkSchemaBuilder { sb_state : State; sb_fields : list FieldBuilder }.

(** The two loops of [seal]. *)
Definition repeats (seen : list bytes) (keys : list bytes) : bool :=
  snd (foldl (λ '(seen, repeated) key, (seen ++ [key], repeated || bool_decide (key ∈ seen))) (seen, false) keys).
Definition declared (acc : State * State * bool) (f : FieldBuilder) : State * State * bool :=
  let '(properties, required, any) := acc in
  let properties := put properties (fb_key f) (fb_state f) in
  if fb_required f then (properties, push_name required (fb_key f), true) else (properties, required, any).

(** [seal]. *)
Definition seal (state : State) (tag : option (bytes * State)) (fields : list FieldBuilder) : State :=
  let start : State * State * bool :=
    match tag with
    | Some (tag, discriminant) => (put (Ok (VMap [])) tag discriminant, push_name (Ok (VList [])) tag, true)
    | None => (Ok (VMap []), Ok (VList []), false)
    end in
  let state :=
    match state with
    | Ok v => if repeats (match tag with Some (tag, _) => [tag] | None => [] end) (map fb_key fields) then Err DuplicateKey else Ok v
    | Err e => Err e
    end in
  let '(properties, required, any) := foldl declared start fields in
  let state := put state PROPERTIES properties in
  let state := put state ADDITIONAL_PROPERTIES (Ok (VBool false)) in
  if any then put state REQUIRED required else state.

(** ** Schemas *)

Definition text_value (t : bytes) : State := Ok (VString t).

(** [SchemaBuilder::new_in], [field], [title], [description], [option], [extra] and
    [finish]. *)
Definition sb_new : SchemaBuilder :=
  MkSchemaBuilder (put (put (Ok (VMap [])) SCHEMA (text_value DIALECT)) TYPE (text_value TYPE_OBJECT)) [].
Definition sb_field (b : SchemaBuilder) (f : FieldBuilder) : SchemaBuilder := MkSchemaBuilder (sb_state b) (sb_fields b ++ [f]).
Definition sb_extra (b : SchemaBuilder) (key : bytes) (v : State) : SchemaBuilder := MkSchemaBuilder (put (sb_state b) key v) (sb_fields b).
Definition sb_title (b : SchemaBuilder) (t : bytes) : SchemaBuilder := sb_extra b TITLE (text_value t).
Definition sb_description (b : SchemaBuilder) (t : bytes) : SchemaBuilder := sb_extra b DESCRIPTION (text_value t).
Definition sb_option (b : SchemaBuilder) (key : bytes) (v : Value) : SchemaBuilder := sb_extra b key (Ok v).
Definition sb_finish (b : SchemaBuilder) : State := seal (sb_state b) None (sb_fields b).

(** ** Fields *)

(** [FieldBuilder::new_in] and what is chained onto it. *)
Definition fb_new (key : bytes) (kind : KindBuilder) : FieldBuilder := MkFieldBuilder kind key false.
Definition fb_extra (f : FieldBuilder) (key : bytes) (v : State) : FieldBuilder := MkFieldBuilder (put (fb_state f) key v) (fb_key f) (fb_required f).
Definition fb_default_checked (f : FieldBuilder) (v : State) : FieldBuilder := fb_extra f DEFAULT v.
Definition fb_default (f : FieldBuilder) (v : Value) : FieldBuilder := fb_extra f DEFAULT (Ok v).
Definition fb_require (f : FieldBuilder) : FieldBuilder := MkFieldBuilder (fb_state f) (fb_key f) true.
Definition fb_title (f : FieldBuilder) (t : bytes) : FieldBuilder := fb_extra f TITLE (text_value t).
Definition fb_description (f : FieldBuilder) (t : bytes) : FieldBuilder := fb_extra f DESCRIPTION (text_value t).
Definition fb_sensitive (f : FieldBuilder) : FieldBuilder := fb_extra (fb_extra f X_SENSITIVE (Ok (VBool true))) WRITE_ONLY (Ok (VBool true)).
Definition fb_read_only (f : FieldBuilder) : FieldBuilder := fb_extra f READ_ONLY (Ok (VBool true)).
Definition fb_deprecated (f : FieldBuilder) : FieldBuilder := fb_extra f DEPRECATED (Ok (VBool true)).
Definition fb_examples (f : FieldBuilder) (l : list Value) : FieldBuilder := fb_extra f EXAMPLES (Ok (VList l)).
Definition fb_option (f : FieldBuilder) (key : bytes) (v : Value) : FieldBuilder := fb_extra f key (Ok v).

(** ** Kinds *)

(** [typed], [count], [text], [keyword] and [number]. *)
Definition kb_typed (ty : bytes) : KindBuilder := put (Ok (VMap [])) TYPE (text_value ty).
Definition kb_keyword (k : KindBuilder) (key : bytes) (v : State) : KindBuilder := put k key v.
Definition kb_count (k : KindBuilder) (key : bytes) (n : Z) : KindBuilder := put k key (number_new (dec n)).
Definition kb_text (k : KindBuilder) (key t : bytes) : KindBuilder := put k key (text_value t).
Definition kb_number (k : KindBuilder) (key t : bytes) : KindBuilder := put k key (number_new t).

Definition kb_min_length (k : KindBuilder) (n : Z) : KindBuilder := kb_count k MIN_LENGTH n.
Definition kb_max_length (k : KindBuilder) (n : Z) : KindBuilder := kb_count k MAX_LENGTH n.
Definition kb_pattern (k : KindBuilder) (t : bytes) : KindBuilder := kb_text k PATTERN t.
Definition kb_format (k : KindBuilder) (t : bytes) : KindBuilder := kb_text k FORMAT t.
Definition kb_multiple_of (k : KindBuilder) (step : f64) : KindBuilder := put k MULTIPLE_OF (number_float step).
Definition kb_min_items (k : KindBuilder) (n : Z) : KindBuilder := kb_count k MIN_ITEMS n.
Definition kb_max_items (k : KindBuilder) (n : Z) : KindBuilder := kb_count k MAX_ITEMS n.
Definition kb_title (k : KindBuilder) (t : bytes) : KindBuilder := kb_text k TITLE t.
Definition kb_description (k : KindBuilder) (t : bytes) : KindBuilder := kb_text k DESCRIPTION t.

Definition kb_any : KindBuilder := Ok (VMap []).
Definition kb_bool : KindBuilder := kb_typed TYPE_BOOLEAN.
Definition kb_string : KindBuilder := kb_typed TYPE_STRING.
Definition kb_int : KindBuilder := kb_typed TYPE_INTEGER.
Definition kb_int_range (min max : Z) : KindBuilder :=
  put (put (kb_typed TYPE_INTEGER) MINIMUM (number_new (signed_dec min))) MAXIMUM (number_new (signed_dec max)).
Definition kb_int_bounds (min max : option Z) : KindBuilder :=
  let k := kb_typed TYPE_INTEGER in
  let k := match min with Some min => put k MINIMUM (number_new (signed_dec min)) | None => k end in
  match max with Some max => put k MAXIMUM (number_new (signed_dec max)) | None => k end.
Definition kb_float : KindBuilder := kb_typed TYPE_NUMBER.
Definition kb_float_bounds (min max : option f64) : KindBuilder :=
  let k := kb_typed TYPE_NUMBER in
  let k := match min with Some min => put k MINIMUM (number_float min) | None => k end in
  match max with Some max => put k MAXIMUM (number_float max) | None => k end.
Definition kb_bytes : KindBuilder := kb_typed TYPE_BYTES.
Definition kb_null : KindBuilder := kb_typed TYPE_NULL.
Definition kb_list (items : KindBuilder) : KindBuilder := put (kb_typed TYPE_ARRAY) ITEMS items.
Definition kb_map (fields : list FieldBuilder) : KindBuilder := seal (kb_typed TYPE_OBJECT) None fields.
Definition kb_map_of (values : KindBuilder) : KindBuilder := put (kb_typed TYPE_OBJECT) ADDITIONAL_PROPERTIES values.
Definition kb_property_names (k names : KindBuilder) : KindBuilder := put k PROPERTY_NAMES names.
Definition kb_unique_items (k : KindBuilder) : KindBuilder := put k UNIQUE_ITEMS (Ok (VBool true)).
Definition kb_tuple (positions : list KindBuilder) : KindBuilder :=
  let n := Z.of_nat (length positions) in
  let k := put (kb_typed TYPE_ARRAY) PREFIX_ITEMS (Ok (VList [])) in
  let k := foldl (λ k position, push k PREFIX_ITEMS position) k positions in
  let k := put k ITEMS (Ok (VBool false)) in
  kb_max_items (kb_min_items k n) n.

(** [names_in], for a closed and an open enumeration. *)
Definition named (acc : State * State * bool) (choice : bytes * bytes) : State * State * bool :=
  let '(values, labels, any) := acc in
  let '(value, label) := choice in
  let values := push_name values value in
  if decide (label <> [] /\ label <> value) then (values, put labels value (text_value label), true) else (values, labels, any).
Definition kb_names (key : bytes) (choices : list (bytes * bytes)) : KindBuilder :=
  let '(values, labels, any) := foldl named (Ok (VList []), Ok (VMap []), false) choices in
  let k := put (kb_typed TYPE_STRING) key values in
  if any then put k X_ENUM_LABELS labels else k.
Definition kb_enumeration (choices : list (bytes * bytes)) : KindBuilder := kb_names ENUM choices.
Definition kb_open_enumeration (choices : list (bytes * bytes)) : KindBuilder := kb_names EXAMPLES choices.

Definition kb_union (arms : list KindBuilder) : KindBuilder :=
  foldl (λ k arm, push k ANY_OF arm) (put (Ok (VMap [])) ANY_OF (Ok (VList []))) arms.

(** [ArmBuilder::new_in], [field], [title], [description] and [extra]. *)
Definition ab_new (value title : bytes) : ArmBuilder :=
  let state := Ok (VMap []) in
  let state := if decide (title <> [] /\ title <> value) then put state TITLE (text_value title) else state in
  MkArmBuilder state (put (Ok (VMap [])) CONST (text_value value)) value [].
Definition ab_field (a : ArmBuilder) (f : FieldBuilder) : ArmBuilder := MkArmBuilder (ab_state a) (ab_discriminant a) (ab_value a) (ab_fields a ++ [f]).
Definition ab_extra (a : ArmBuilder) (key : bytes) (v : State) : ArmBuilder := MkArmBuilder (put (ab_state a) key v) (ab_discriminant a) (ab_value a) (ab_fields a).
Definition ab_title (a : ArmBuilder) (t : bytes) : ArmBuilder := ab_extra a TITLE (text_value t).
Definition ab_description (a : ArmBuilder) (t : bytes) : ArmBuilder := ab_extra a DESCRIPTION (text_value t).

Definition kb_variant (tag : bytes) (arms : list ArmBuilder) : KindBuilder :=
  let k := put (kb_typed TYPE_OBJECT) X_VARIANT_TAG (text_value tag) in
  let k := put k ONE_OF (Ok (VList [])) in
  let k := match k with
           | Ok v => if repeats [] (map ab_value arms) then Err DuplicateKey else Ok v
           | Err e => Err e
           end in
  foldl (λ k arm, push k ONE_OF (seal (ab_state arm) (Some (tag, ab_discriminant arm)) (ab_fields arm))) k arms.

(** [into_fields]. *)
Definition into_fields (k : KindBuilder) : list FieldBuilder :=
  let refused e := [MkFieldBuilder (Err e) [] false] in
  match k with
  | Err e => refused e
  | Ok kind =>
      match under kind PROPERTIES ≫= as_map with
      | None => refused WrongKind
      | Some properties =>
          let required := omap as_text (list_items (under kind REQUIRED)) in
          map (λ e, MkFieldBuilder (Ok e.2) e.1 (bool_decide (e.1 ∈ required))) properties
      end
  end.

(** [nullable]. *)
Definition or_null (kind : Value) : KindBuilder :=
  let state := put (Ok (VMap [])) ANY_OF (Ok (VList [])) in
  push (push state ANY_OF (Ok kind)) ANY_OF (kb_typed TYPE_NULL).
Definition kb_nullable (k : KindBuilder) : KindBuilder :=
  kind ← k;
  match as_map kind with
  | Some [] => Ok kind
  | Some m =>
      let constrained := existsb (λ key, contains_key m key) [ENUM; CONST; ANY_OF; ONE_OF; ALL_OF; X_VARIANT_TAG] in
      match constrained, get m TYPE ≫= as_text with
      | false, Some name =>
          if decide (name = TYPE_NULL) then Ok kind
          else put (Ok kind) TYPE (push_name (push_name (Ok (VList [])) name) TYPE_NULL)
      | _, _ => or_null kind
      end
  | None => or_null kind
  end.
