(* ===== verification/BuildLaws.v ===== *)
(** * A schema says what was declared

    Whatever kinds and fields are declared through the builders, reading the schema they
    write finds each of them as declared; and a schema that cannot be written is refused
    with what stopped it. *)

From Stdlib Require Import SpecFloat.
From S2P Require Import Prelude Decimal Errors Number Value Maps JsonNumber Float64 KindDescription KindLaws Vocab SchemaRead Build.

(** ** Maps written with the vocabulary *)

Lemma contains_get m k : contains_key m k = bool_decide (is_Some (get m k)).
Proof.
  unfold contains_key, get. apply bool_decide_ext. destruct (position m k) as [i|] eqn:E; [|cbn; split; by intros []].
  apply position_entry in E as [v E]. cbn. rewrite E. cbn. split; eauto.
Qed.
Lemma contains_in m k : contains_key m k = bool_decide (k ∈ keys m).
Proof.
  apply bool_decide_ext. unfold position. split.
  - intros [i H]. destruct (list_find _ m) as [[j e]|] eqn:E; [|done]. apply list_find_Some in E as (E & <- & _).
    unfold keys. apply list_elem_of_In, in_map, list_elem_of_In. by eapply list_elem_of_lookup_2.
  - intros H. unfold keys in H. apply list_elem_of_fmap in H as (e & -> & He).
    destruct (list_find_elem_of (λ e', e'.1 = e.1) m e He eq_refl) as [x ->]. by eexists.
Qed.

(** Each lookup of a map written key by key, and each key's being there. *)
Lemma is_some_none : bool_decide (is_Some (@None Value)) = false.
Proof. by apply bool_decide_eq_false_2; intros []. Qed.
Lemma is_some_some (v : Value) : bool_decide (is_Some (Some v)) = true.
Proof. by apply bool_decide_eq_true_2; eauto. Qed.
Ltac vocab := first [rewrite decide_True by reflexivity | rewrite decide_False by (vm_compute; discriminate)].
Ltac reads_ := rewrite ?contains_get, ?get_set; repeat vocab; rewrite ?get_nil, ?is_some_none, ?is_some_some.

Definition text_map (v : Value) : Prop := exists m, v = VMap m /\ keys_are_text m = true.

Lemma put_Ok m k v : keys_are_text m = true -> put (Ok (VMap m)) k (Ok v) = Ok (VMap (set_ m k v)).
Proof. intros H. unfold put. cbn. by rewrite H. Qed.
Lemma push_Ok m k l v : keys_are_text m = true -> get m k = Some (VList l) -> push (Ok (VMap m)) k (Ok v) = Ok (VMap (set_ m k (VList (l ++ [v])))).
Proof.
  intros H Hg. unfold push. cbn [mbind result_bind as_map]. rewrite H. cbn [ok_or mbind result_bind]. unfold push_into.
  rewrite contains_get, bool_decide_true by (rewrite Hg; eauto). rewrite Hg. cbn [ok_or mbind result_bind as_list]. unfold set_.
  unfold get in Hg. by destruct (position m k).
Qed.
Lemma push_name_Ok l n : push_name (Ok (VList l)) n = Ok (VList (l ++ [VString n])).
Proof. done. Qed.

Create HintDb schema.
#[export] Hint Resolve text_keys : schema.
#[export] Hint Extern 1 (keys_are_text [] = true) => reflexivity : schema.
#[export] Hint Extern 2 (is_utf8 _ = true) => (vm_compute; reflexivity) : schema.
#[export] Hint Extern 1 (is_utf8 _ = true) => assumption : schema.

(** ** Numbers *)

Lemma number_dec n : 0 <= n -> number_new (dec n) = Ok (VNumber (dec n)).
Proof. intros H. unfold number_new. by rewrite (proj2 (is_number_spec _) (dec_number n H)). Qed.

Lemma signed_number n : json_number (signed_dec n).
Proof.
  unfold signed_dec. destruct (Z.ltb_spec n 0); [|by apply dec_number].
  destruct (dec_number (- n) ltac:(lia)) as (m & i & f & e & E & Hm & Hi & Hf & He).
  destruct Hm as [->| ->].
  - exists (bs "-"), i, f, e. rewrite E. split_and!; try done. by right.
  - exfalso. pose proof (dec_digits (- n) ltac:(lia)) as Hd. rewrite E in Hd. apply Forall_cons in Hd as [Hd _]. by vm_compute in Hd.
Qed.
Lemma number_signed n : number_new (signed_dec n) = Ok (VNumber (signed_dec n)).
Proof. unfold number_new. by rewrite (proj2 (is_number_spec _) (signed_number n)). Qed.

Lemma parse_digits lo hi n : 0 <= n -> lo <= n <= hi -> parse_int lo hi (dec n) = Some n.
Proof.
  intros Hn H. pose proof (dec_digits n Hn) as Hd. destruct (dec_cons n Hn) as (d & ds & E & Hdig). apply is_digit_spec in Hdig.
  unfold parse_int. rewrite E. destruct (Z.eqb_spec d 43); [lia|]. destruct (Z.eqb_spec d 45); [lia|]. cbn [andb]. rewrite <- E.
  rewrite bool_decide_false by (by rewrite E). cbn [negb andb]. rewrite (proj2 (digits_forallb _) Hd), num_dec by lia.
  destruct (Z.leb_spec lo (1 * n)); [|lia]. destruct (Z.leb_spec (1 * n) hi); [|lia]. cbn. f_equal. lia.
Qed.
Lemma parse_signed lo hi n : lo < 0 -> lo <= n <= hi -> parse_int lo hi (signed_dec n) = Some n.
Proof.
  intros Hlo H. unfold signed_dec. destruct (Z.ltb_spec n 0); [|by apply parse_digits].
  pose proof (dec_digits (- n) ltac:(lia)) as Hd. destruct (dec_cons (- n) ltac:(lia)) as (d & ds & E & Hdig).
  unfold parse_int. cbn [Z.eqb]. destruct (Z.ltb_spec lo 0); [|lia]. cbn [andb Pos.eqb].
  rewrite bool_decide_false by (by rewrite E). cbn [negb andb]. rewrite (proj2 (digits_forallb _) Hd), num_dec by lia.
  destruct (Z.leb_spec lo (-1 * - n)); [|lia]. destruct (Z.leb_spec (-1 * - n) hi); [|lia]. cbn. f_equal. lia.
Qed.

(** A float whose text is read back: what printing the fewest digits promises of every
    finite one. *)
Definition float_back (x : f64) : Prop := is_finite x = true /\ parse_f64 (float_display x) = Some x.
Lemma number_floats x : float_back x -> number_float x = Ok (VNumber (float_display x)) /\ is_number (float_display x) = true.
Proof.
  intros [Hf Hp]. unfold number_float, float_text, number_new. rewrite Hf. cbn [mbind result_bind].
  unfold parse_f64 in Hp. by destruct (is_number (float_display x)).
Qed.

(** ** Objects *)

(** A field that was written. *)
Definition written (f : FieldBuilder) (v : Value) : Prop := fb_state f = Ok v.

Lemma repeats_from (seen ks : list bytes) : foldl (λ '(seen, repeated) key, (seen ++ [key], repeated || bool_decide (key ∈ seen))) (seen, true) ks = (seen ++ ks, true).
Proof. revert seen. induction ks as [|k ks IH]; intros seen; cbn; [by rewrite app_nil_r|]. by rewrite IH, <- app_assoc. Qed.
Lemma repeats_spec (ks : list bytes) : forall seen, NoDup seen -> repeats seen ks = false <-> NoDup (seen ++ ks).
Proof.
  unfold repeats. induction ks as [|k ks IH]; intros seen Hs; cbn [foldl snd]; [by rewrite app_nil_r|]. cbn [orb].
  destruct (bool_decide_reflect (k ∈ seen)) as [Hk|Hk].
  - rewrite repeats_from. split; [done|]. intros (_ & H & _)%NoDup_app. destruct (H k Hk). by left.
  - rewrite IH; [by rewrite <- app_assoc|]. apply NoDup_app. split_and!; [done| |apply NoDup_singleton]. by intros x Hx ->%list_elem_of_singleton.
Qed.

Definition entries (fs : list FieldBuilder) (vs : list Value) : Map := zip (map fb_key fs) vs.
Definition needed (fs : list FieldBuilder) : list bytes := map fb_key (List.filter fb_required fs).

Lemma declared_fold fs : forall vs ps rs any, Forall2 written fs vs -> keys_are_text ps = true -> Forall (λ f, is_utf8 (fb_key f) = true) fs ->
  NoDup (keys ps ++ map fb_key fs) ->
  foldl declared (Ok (VMap ps), Ok (VList rs), any) fs =
    (Ok (VMap (ps ++ entries fs vs)), Ok (VList (rs ++ map VString (needed fs))), any || negb (bool_decide (needed fs = []))).
Proof.
  induction fs as [|f fs IH]; intros vs ps rs any Hw Ht Hu Hn; inversion Hw as [|? v ? vs' Hf Hfs]; subst.
  { cbn. by rewrite !app_nil_r, orb_false_r. }
  apply Forall_cons in Hu as [Hu1 Hu]. cbn [foldl declared]. rewrite !Hf. rewrite !put_Ok by done. cbn [map] in Hn.
  assert (fb_key f ∉ keys ps) as Hk by (apply NoDup_app in Hn as (_ & H & _); intros Hin; by destruct (H _ Hin); left).
  assert (keys_are_text (set_ ps (fb_key f) v) = true) as Ht' by by apply text_keys.
  rewrite set_fresh in * by done.
  assert (NoDup (keys (ps ++ [(fb_key f, v)]) ++ map fb_key fs)) as Hn' by (unfold keys in *; rewrite map_app, <- app_assoc; exact Hn).
  unfold needed, entries. cbn [List.filter map]. destruct (fb_required f).
  - rewrite push_name_Ok, (IH _ _ _ _ Hfs Ht' Hu Hn'). unfold needed, entries. cbn [map zip_with app]. rewrite <- !app_assoc. cbn [app].
    rewrite (bool_decide_false (_ :: _ = [])) by done. cbn [negb orb]. by rewrite orb_true_r.
  - rewrite (IH _ _ _ _ Hfs Ht' Hu Hn'). unfold needed, entries. by rewrite <- app_assoc.
Qed.

(** What [seal] writes onto a map, of fields that were written. *)
Definition sealed (m : Map) (props : Map) (required : list bytes) : Map :=
  let m := set_ (set_ m PROPERTIES (VMap props)) ADDITIONAL_PROPERTIES (VBool false) in
  if decide (required = []) then m else set_ m REQUIRED (VList (map VString required)).

Lemma seal_Ok m tag fs vs : keys_are_text m = true -> Forall2 written fs vs -> Forall (λ f, is_utf8 (fb_key f) = true) fs ->
  match tag with
  | None => NoDup (map fb_key fs)
  | Some (t, d) => NoDup (t :: map fb_key fs) /\ is_utf8 t = true /\ exists v, d = Ok v
  end ->
  exists first : Map, seal (Ok (VMap m)) tag fs = Ok (VMap (sealed m (first ++ entries fs vs) (map fst first ++ needed fs))) /\
    match tag with None => first = [] | Some (t, d) => exists v, d = Ok v /\ first = [(t, v)] end.
Proof.
  intros Hm Hw Hu Htag. unfold seal.
  assert (forall props req any, (let state := put (put (Ok (VMap m)) PROPERTIES (Ok (VMap props))) ADDITIONAL_PROPERTIES (Ok (VBool false)) in
    if any : bool then put state REQUIRED (Ok (VList (map VString req))) else state) =
    Ok (VMap (let m := set_ (set_ m PROPERTIES (VMap props)) ADDITIONAL_PROPERTIES (VBool false) in if any then set_ m REQUIRED (VList (map VString req)) else m))) as Hput.
  { intros props req any. cbv zeta. rewrite !put_Ok by auto with schema. by destruct any. }
  destruct tag as [[t d]|].
  - destruct Htag as (Hn & Ht & v & ->). rewrite (proj2 (repeats_spec (map fb_key fs) [t] (NoDup_singleton _)) Hn).
    rewrite put_Ok, push_name_Ok by done. change (set_ [] t v) with [(t, v)]. cbn [app]. exists [(t, v)]. split; [|by exists v].
    rewrite (declared_fold fs vs [(t, v)] [VString t] true) by (done || by cbn; rewrite Ht). cbn [orb].
    change ([VString t] ++ map VString (needed fs)) with (map VString (t :: needed fs)). rewrite (Hput _ _ true).
    unfold sealed. cbn [map fst app]. by rewrite decide_False by done.
  - rewrite (proj2 (repeats_spec (map fb_key fs) [] (NoDup_nil_2)) Htag). exists []. split; [|done].
    rewrite (declared_fold fs vs [] [] false) by done. cbn [orb app map fst]. rewrite (Hput _ _ _). unfold sealed.
    by destruct (decide (needed fs = [])) as [->|Hne]; [rewrite bool_decide_true by done|rewrite bool_decide_false by done].
Qed.

(** ** What a written kind is read as *)

Lemma as_map_text m : keys_are_text m = true -> as_map (VMap m) = Some m.
Proof. intros H. cbn. by rewrite H. Qed.
Lemma under_text m k : keys_are_text m = true -> under (VMap m) k = get m k.
Proof. intros H. unfold under. by rewrite as_map_text. Qed.

Lemma peel_typed m x : keys_are_text m = true -> get m TYPE = Some x -> peel (VMap m) = VMap m.
Proof.
  intros Hm Ht. apply peel_id. unfold peel_once. rewrite as_map_text by done. cbn [mbind option_bind]. rewrite Ht. unfold lone_all_of.
  cbn [existsb]. by rewrite contains_get, bool_decide_true by (rewrite Ht; eauto).
Qed.

Lemma not_enumeration m : keys_are_text m = true -> get m ENUM = None -> get m CONST = None ->
  is_Some (get m X_VARIANT_TAG) \/ get m ONE_OF = None -> is_enumeration (VMap m) = false.
Proof.
  intros Hm He Hc Ho. unfold is_enumeration. rewrite as_map_text, He, !contains_get, Hc by done. cbn [orb].
  destruct Ho as [Ho|Ho]; [by rewrite (bool_decide_true _ Ho)|]. rewrite Ho. by rewrite andb_false_r.
Qed.

Lemma kind_typed m x ty : keys_are_text m = true -> get m TYPE = Some x -> declared_type (VMap m) = Named ty ->
  get m REF = None -> is_enumeration (VMap m) = false -> kind_read (Some (VMap m)) = read_type ty (VMap m) m.
Proof.
  intros Hm Hx Ht Hr He. unfold kind_read. rewrite (peel_typed m x) by done. cbv zeta. change (is_true_schema (VMap m)) with false. cbn iota.
  by rewrite as_map_text, contains_get, Hr, He, Ht by done.
Qed.

Lemma declared_named m ty : keys_are_text m = true -> get m TYPE = Some (VString ty) -> is_utf8 ty = true -> declared_type (VMap m) = Named ty.
Proof. intros Hm Ht Hu. unfold declared_type. rewrite under_text, Ht by done. cbn. by rewrite Hu. Qed.

Lemma kind_named m ty : keys_are_text m = true -> get m TYPE = Some (VString ty) -> is_utf8 ty = true ->
  get m REF = None -> get m ENUM = None -> get m CONST = None -> is_Some (get m X_VARIANT_TAG) \/ get m ONE_OF = None ->
  kind_read (Some (VMap m)) = read_type ty (VMap m) m.
Proof. intros. eapply kind_typed; [done|done|by apply declared_named|done|by apply not_enumeration]. Qed.

(** ** Declarations *)

(** What the builders declare: a kind of each, nested as they nest. *)
Inductive Shape : Type :=
  | SAny | SNull | SBoolean | SBytes
  | SInt (min max : option Z)
  | SFloat (min max : option f64)
  | SStr (min max : option Z) (pattern format : option bytes)
  | SList (items : Shape)
  | STuple (positions : list Shape)
  | SMap (fields : list (bytes * bool * Shape))
  | SMapOf (values : Shape)
  | SEnum (choices : list (bytes * bytes))
  | SOpen (choices : list (bytes * bytes))
  | SUnion (arms : list Shape)
  | SVariant (tag : bytes) (arms : list (bytes * bytes * list (bytes * bool * Shape)))
  | SNullable (s : Shape).

Definition opt_chain {A} (o : option A) (f : KindBuilder -> A -> KindBuilder) (k : KindBuilder) : KindBuilder :=
  match o with Some x => f k x | None => k end.
Definition field_builder (key : bytes) (required : bool) (kind : KindBuilder) : FieldBuilder :=
  if required then fb_require (fb_new key kind) else fb_new key kind.
Fixpoint build (s : Shape) : KindBuilder :=
  match s with
  | SAny => kb_any | SNull => kb_null | SBoolean => kb_bool | SBytes => kb_bytes
  | SInt min max => kb_int_bounds min max
  | SFloat min max => kb_float_bounds min max
  | SStr min max pattern format =>
      opt_chain format kb_format (opt_chain pattern kb_pattern (opt_chain max kb_max_length (opt_chain min kb_min_length kb_string)))
  | SList items => kb_list (build items)
  | STuple ps => kb_tuple (map build ps)
  | SMap fields => kb_map (map (λ d, field_builder d.1.1 d.1.2 (build d.2)) fields)
  | SMapOf values => kb_map_of (build values)
  | SEnum choices => kb_enumeration choices
  | SOpen choices => kb_open_enumeration choices
  | SUnion arms => kb_union (map build arms)
  | SVariant tag arms =>
      kb_variant tag (map (λ a, foldl ab_field (ab_new a.1.1 a.1.2) (map (λ d, field_builder d.1.1 d.1.2 (build d.2)) a.2)) arms)
  | SNullable s => kb_nullable (build s)
  end.

(** The kinds that null alone is of. *)
Fixpoint null_shape (s : Shape) : bool := match s with SNull => true | SNullable s => null_shape s | _ => false end.

Definition count_ok (o : option Z) : Prop := match o with Some n => 0 <= n <= u64_max | None => True end.
Definition bound_ok (o : option Z) : Prop := match o with Some n => i64_min <= n <= i64_max | None => True end.
Definition text_ok (o : option bytes) : Prop := match o with Some t => is_utf8 t = true | None => True end.
Definition float_ok (o : option f64) : Prop := match o with Some x => float_back x | None => True end.
Definition choices_ok (l : list (bytes * bytes)) : Prop :=
  NoDup (map fst l) /\ Forall (λ c, is_utf8 c.1 = true /\ is_utf8 c.2 = true) l.

(** Declarations that can be written: numbers of their width, texts, and no name twice
    in one object, no value twice in one enumeration and no discriminant twice in one
    variant. A union of two kinds one of which is null alone is the other, nullable. *)
Inductive shape_ok : Shape -> Prop :=
  | ok_any : shape_ok SAny
  | ok_null : shape_ok SNull
  | ok_boolean : shape_ok SBoolean
  | ok_bytes : shape_ok SBytes
  | ok_int min max : bound_ok min -> bound_ok max -> shape_ok (SInt min max)
  | ok_float min max : float_ok min -> float_ok max -> shape_ok (SFloat min max)
  | ok_str min max p f : count_ok min -> count_ok max -> text_ok p -> text_ok f -> shape_ok (SStr min max p f)
  | ok_list s : shape_ok s -> shape_ok (SList s)
  | ok_tuple l : Forall shape_ok l -> shape_ok (STuple l)
  | ok_map l : fields_ok l -> shape_ok (SMap l)
  | ok_map_of s : shape_ok s -> shape_ok (SMapOf s)
  | ok_enum l : choices_ok l -> shape_ok (SEnum l)
  | ok_open l : choices_ok l -> shape_ok (SOpen l)
  | ok_union l : Forall shape_ok l -> (forall a b, l = [a; b] -> null_shape a = null_shape b) -> shape_ok (SUnion l)
  | ok_variant tag arms : is_utf8 tag = true -> NoDup (map (λ a, a.1.1) arms) ->
      Forall (λ a, is_utf8 a.1.1 = true /\ is_utf8 a.1.2 = true /\ (tag ∉ map (λ d, d.1.1) a.2) /\ fields_ok a.2) arms -> shape_ok (SVariant tag arms)
  | ok_nullable s : shape_ok s -> shape_ok (SNullable s)
with fields_ok : list (bytes * bool * Shape) -> Prop :=
  | fields_are_ok l : NoDup (map (λ d, d.1.1) l) -> Forall (λ d, is_utf8 d.1.1 = true /\ shape_ok d.2) l -> fields_ok l.

(** ** Readings *)

Definition label_shown (c : bytes * bytes) : bytes := if decide (c.2 = []) then c.1 else c.2.
Definition shown (c : bytes * bytes) (r : ChoiceRef) : Prop := choice_value r = c.1 /\ choice_label r = label_shown c.
Definition takes_null (v : Value) : Prop := is_nullable v = true \/ kind_read (Some v) = KNull \/ v = VMap [].

(** A schema is read as a declaration: the readers answer what was declared, of the kind
    and of everything in it. *)
Inductive seen : Shape -> Value -> Prop :=
  | seen_any v : kind_read (Some v) = KUnknown TYPE -> seen SAny v
  | seen_null v : kind_read (Some v) = KNull -> seen SNull v
  | seen_boolean v : kind_read (Some v) = KBool -> seen SBoolean v
  | seen_bytes v : kind_read (Some v) = KBytes -> seen SBytes v
  | seen_int min max v : kind_read (Some v) = KInt min max None -> seen (SInt min max) v
  | seen_float min max v : kind_read (Some v) = KFloat min max None -> seen (SFloat min max) v
  | seen_str min max p f v : kind_read (Some v) = KStr min max p f -> seen (SStr min max p f) v
  | seen_list s items v : kind_read (Some v) = KList items None None -> seen s items -> seen (SList s) v
  | seen_tuple l v : kind_read (Some v) = KTuple (peel v) -> Forall2 seen l (prefix_items (peel v)) -> seen (STuple l) v
  | seen_map l v : kind_read (Some v) = KMap (peel v) -> Forall2 field_seen l (fields_of (peel v)) -> seen (SMap l) v
  | seen_map_of s x v : kind_read (Some v) = KMapOf (peel v) -> under (peel v) ADDITIONAL_PROPERTIES = Some x -> seen s x -> seen (SMapOf s) v
  | seen_enum l v : kind_read (Some v) = KEnum (peel v) -> Forall2 shown l (choices (KEnum (peel v))) -> seen (SEnum l) v
  | seen_open l v : kind_read (Some v) = KStr None None None None -> Forall2 shown l (suggestions (MkField [] (peel v) false)) -> seen (SOpen l) v
  | seen_union l a v : kind_read (Some v) = KUnion a -> Forall2 seen l (list_items (Some a)) -> seen (SUnion l) v
  | seen_variant tag arms_ a v : kind_read (Some v) = KVariant tag a -> Forall2 arm_seen arms_ (arms (KVariant tag a)) -> seen (SVariant tag arms_) v
  | seen_nullable s v : takes_null v -> seen s v -> seen (SNullable s) v
with field_seen : bytes * bool * Shape -> FieldRef -> Prop :=
  | a_field_seen key required s f : fkey f = key -> frequired f = required -> seen s (fschema f) -> field_seen (key, required, s) f
with arm_seen : bytes * bytes * list (bytes * bool * Shape) -> ArmRef -> Prop :=
  | an_arm_seen value title fields a : arm_value a = value -> arm_title a = label_shown (value, title) ->
      Forall2 field_seen fields (arm_fields a) -> arm_seen (value, title, fields) a.

(** ** Nullable kinds *)

(** The same kind, of another schema. *)
Definition of_schema (k : Value) (kd : Kind) : Kind :=
  match kd with KTuple _ => KTuple k | KMap _ => KMap k | KMapOf _ => KMapOf k | KEnum _ => KEnum k | kd => kd end.

Lemma seen_moves s v w : seen s v -> peel w = peel v -> is_nullable w = true -> seen s w.
Proof.
  intros H Hp Hn. assert (kind_read (Some w) = kind_read (Some v)) as Hk by by rewrite <- (kind_read_peel w), Hp, kind_read_peel.
  induction H; try (econstructor; rewrite ?Hk, ?Hp; eassumption). apply seen_nullable; [by left|auto].
Qed.

Section retyped.
Context (m : Map) (ty : bytes) (Hm : keys_are_text m = true) (Hty : is_utf8 ty = true) (Hnn : ty <> TYPE_NULL)
  (Ht : get m TYPE = Some (VString ty)) (Hr : get m REF = None) (He : get m ENUM = None) (Hc : get m CONST = None)
  (Ho : get m ONE_OF = None).
Let m' := set_ m TYPE (VList [VString ty; VString TYPE_NULL]).

Lemma retyped_get k : k <> TYPE -> get m' k = get m k.
Proof. intros Hk. unfold m'. rewrite get_set. by rewrite decide_False by congruence. Qed.
Lemma retyped_text : keys_are_text m' = true.
Proof. by apply text_keys. Qed.
Lemma retyped_under k : k <> TYPE -> under (VMap m') k = under (VMap m) k.
Proof. intros Hk. rewrite !under_text by (done || apply retyped_text). by apply retyped_get. Qed.
Lemma retyped_type : get m' TYPE = Some (VList [VString ty; VString TYPE_NULL]).
Proof. unfold m'. by rewrite get_set, decide_True. Qed.
Lemma retyped_not_enumeration : is_enumeration (VMap m') = false.
Proof.
  apply not_enumeration; [apply retyped_text|..]; try (rewrite retyped_get; [done|vm_compute; discriminate]).
  right. rewrite retyped_get; [done|vm_compute; discriminate].
Qed.
Lemma retyped_nullable : is_nullable (VMap m') = true.
Proof.
  rewrite nullable_unfold, as_map_text, retyped_type by apply retyped_text. cbn [as_list]. rewrite retyped_not_enumeration. cbn [negb orb].
  rewrite andb_true_r. cbn. rewrite Hty. cbn. by destruct (bool_decide (ty = TYPE_NULL)).
Qed.
Lemma retyped_kind : kind_read (Some (VMap m')) = of_schema (VMap m') (kind_read (Some (VMap m))).
Proof.
  rewrite (kind_named m ty) by auto. rewrite (kind_typed m' _ ty) by
    (apply retyped_text || apply retyped_type || apply retyped_not_enumeration || (rewrite retyped_get; [done|vm_compute; discriminate]) ||
     (unfold declared_type; rewrite under_text, retyped_type by apply retyped_text; cbn; rewrite Hty; cbn; by rewrite decide_False by done)).
  assert (forall k, k <> TYPE -> get m' k = get m k) as Hg by apply retyped_get.
  assert (forall k, k <> TYPE -> under (VMap m') k = under (VMap m) k) as Hu by apply retyped_under.
  assert (forall k, k <> TYPE -> contains_key m' k = contains_key m k) as Hk by (intros k H; by rewrite !contains_get, Hg).
  assert (forall k, k <> TYPE -> opt_count (VMap m') k = opt_count (VMap m) k) as H1 by (intros k H; unfold opt_count; by rewrite Hu).
  assert (forall k, k <> TYPE -> opt_float (VMap m') k = opt_float (VMap m) k) as H2 by (intros k H; unfold opt_float; by rewrite Hu).
  assert (forall k r, k <> TYPE -> opt_bound (VMap m') k r = opt_bound (VMap m) k r) as H3 by (intros k r H; unfold opt_bound; by rewrite Hu).
  assert (forall k, k <> TYPE -> opt_str (VMap m') k = opt_str (VMap m) k) as H4 by (intros k H; unfold opt_str; by rewrite Hu).
  assert (opt_step (VMap m') = opt_step (VMap m)) as H5 by (unfold opt_step; by rewrite H2 by (vm_compute; discriminate)).
  unfold read_type. repeat (destruct (decide _); [|]); try done.
  - by rewrite !H1, !H4 by (vm_compute; discriminate).
  - unfold read_array. rewrite !Hg, !H1 by (vm_compute; discriminate).
    destruct (get m PREFIX_ITEMS ≫= as_list); [done|]. by destruct (get m ITEMS).
  - unfold read_object. rewrite !Hg, !Hk by (vm_compute; discriminate). destruct (get m X_VARIANT_TAG ≫= as_text).
    + by destruct (get m ONE_OF).
    + by destruct (_ && _).
  - by rewrite !H3, !H5 by (vm_compute; discriminate).
  - by rewrite !H2, !H5 by (vm_compute; discriminate).
Qed.

Lemma seen_retyped s : seen s (VMap m) -> seen s (VMap m').
Proof.
  pose proof (peel_typed m' _ retyped_text retyped_type) as Hp'. pose proof (peel_typed m _ Hm Ht) as Hp. pose proof retyped_kind as Hk.
  assert (forall k, k <> TYPE -> under (VMap m') k = under (VMap m) k) as Hu by apply retyped_under.
  remember (VMap m) as v eqn:Ev. intros H. induction H; subst; try (econstructor; rewrite Hk; rewrite H; try done; reflexivity).
  - econstructor; [rewrite Hk, H; reflexivity|done].
  - apply seen_tuple; [by rewrite Hk, H, Hp'|]. rewrite Hp'. rewrite Hp in H0. unfold prefix_items in *. by rewrite Hu by (vm_compute; discriminate).
  - apply seen_map; [by rewrite Hk, H, Hp'|]. rewrite Hp'. rewrite Hp in H0. unfold fields_of, field_at, is_required_in in *. by rewrite !Hu by (vm_compute; discriminate).
  - apply (seen_map_of _ x); [by rewrite Hk, H, Hp'| |done]. rewrite Hp'. rewrite Hp in H0. by rewrite Hu by (vm_compute; discriminate).
  - apply seen_enum; [by rewrite Hk, H, Hp'|]. exfalso. assert (is_enumeration (VMap m) = false) as Hn by (apply not_enumeration; auto).
    rewrite (kind_named m ty) in H by auto. clear -H. unfold read_type, read_array, read_object in H. repeat case_match; congruence.
  - apply seen_open; [by rewrite Hk, H|]. rewrite Hp'. rewrite Hp in H0. unfold suggestions, examples in *. cbn [fschema] in *. by rewrite !Hu by (vm_compute; discriminate).
  - eapply seen_union; [rewrite Hk, H; reflexivity|done].
  - eapply seen_variant; [rewrite Hk, H; reflexivity|done].
  - apply seen_nullable; [left; apply retyped_nullable|auto].
Qed.
End retyped.

(** ** Every declaration is written, and read back *)

Record good (s : Shape) (m : Map) : Prop := Good {
  g_text : keys_are_text m = true;
  g_const : get m CONST = None; g_all : get m ALL_OF = None; g_ref : get m REF = None;
  g_null : null_shape s = true -> m = [(TYPE, VString TYPE_NULL)];
  g_other : null_shape s = false -> is_null_schema (VMap m) = false;
  g_seen : seen s (VMap m) }.
Definition builds (s : Shape) : Prop := exists m, build s = Ok (VMap m) /\ good s m.

(** A map written under a type of its own is good when it is read as declared. *)
Lemma typed_good s m ty : keys_are_text m = true -> get m TYPE = Some (VString ty) -> ty <> TYPE_NULL -> get m CONST = None -> get m ALL_OF = None ->
  get m REF = None -> null_shape s = false -> seen s (VMap m) -> good s m.
Proof.
  intros Hm Ht Hn Hc Ha Hr Hs Hseen. split; try done; [by rewrite Hs|]. intros _. unfold is_null_schema. rewrite as_map_text, Ht, Hc by done. cbn.
  destruct (is_utf8 ty); [|done]. by rewrite bool_decide_false by congruence.
Qed.

Ltac texted := solve [auto 20 with schema].
Ltac looked := first [reads_; reflexivity | vm_compute; discriminate | texted].

Lemma built_null : builds SNull.
Proof.
  exists [(TYPE, VString TYPE_NULL)]. split; [done|]. split; try done. by apply seen_null.
Qed.
Lemma built_plain s m ty kd : build s = Ok (VMap m) -> keys_are_text m = true -> get m TYPE = Some (VString ty) -> is_utf8 ty = true -> ty <> TYPE_NULL ->
  Forall (λ k, get m k = None) [CONST; ALL_OF; REF; ENUM; ONE_OF] -> null_shape s = false ->
  read_type ty (VMap m) m = kd -> (kind_read (Some (VMap m)) = kd -> peel (VMap m) = VMap m -> seen s (VMap m)) -> builds s.
Proof.
  intros Hb Hm Ht Hu Hn Hf Hs Hk Hseen. repeat (apply Forall_cons in Hf as [? Hf]). exists m. split; [done|]. eapply typed_good; try done.
  apply Hseen; [by rewrite (kind_named m ty) by auto|by eapply peel_typed].
Qed.

Ltac absent := repeat (apply Forall_cons; split); try apply Forall_nil; reads_; reflexivity.
Ltac plain m ty := eapply (built_plain _ m ty); [|texted|reads_; reflexivity|reflexivity|vm_compute; discriminate|absent|reflexivity|reflexivity|].

Lemma built_boolean : builds SBoolean.
Proof. plain (set_ [] TYPE (VString TYPE_BOOLEAN)) TYPE_BOOLEAN; [reflexivity|]. intros Hk _. by apply seen_boolean. Qed.
Lemma built_bytes : builds SBytes.
Proof. plain (set_ [] TYPE (VString TYPE_BYTES)) TYPE_BYTES; [reflexivity|]. intros Hk _. by apply seen_bytes. Qed.
Lemma built_any : builds SAny.
Proof. exists []. split; [done|]. split; try done. by apply seen_any. Qed.

Definition set_opt (m : Map) (k : bytes) (o : option Value) : Map := match o with Some v => set_ m k v | None => m end.
Lemma get_set_opt m k o k' : get (set_opt m k o) k' = if decide (k = k') then match o with Some v => Some v | None => get m k' end else get m k'.
Proof. unfold set_opt. destruct o; [by rewrite get_set|]. by destruct (decide _). Qed.
Lemma text_set_opt m k o : keys_are_text m = true -> is_utf8 k = true -> keys_are_text (set_opt m k o) = true.
Proof. destruct o; [apply text_keys|done]. Qed.
#[export] Hint Resolve text_set_opt : schema.
Lemma put_opt m k {A} (o : option A) (f : A -> Value) (g : A -> State) : keys_are_text m = true -> (forall x, o = Some x -> g x = Ok (f x)) ->
  match o with Some x => put (Ok (VMap m)) k (g x) | None => Ok (VMap m) end = Ok (VMap (set_opt m k (f <$> o))).
Proof. intros Hm Hg. destruct o as [x|]; [|done]. rewrite (Hg x eq_refl). by apply put_Ok. Qed.
Ltac reads_ ::= rewrite ?contains_get, ?get_set_opt, ?get_set; repeat vocab; rewrite ?get_nil, ?is_some_none, ?is_some_some.

Lemma built_int min max : bound_ok min -> bound_ok max -> builds (SInt min max).
Proof.
  intros Hmin Hmax. set (num n := VNumber (signed_dec n)).
  plain (set_opt (set_opt (set_ [] TYPE (VString TYPE_INTEGER)) MINIMUM (num <$> min)) MAXIMUM (num <$> max)) TYPE_INTEGER.
  - cbn [build]. unfold kb_int_bounds, kb_typed, text_value. rewrite put_Ok by texted.
    rewrite (put_opt _ MINIMUM min num) by (texted || (intros; apply number_signed)). by rewrite (put_opt _ MAXIMUM max num) by (texted || (intros; apply number_signed)).
  - intros Hk _. apply seen_int. rewrite Hk.
    assert (forall o, bound_ok o -> forall r k m, keys_are_text m = true -> get m k = num <$> o -> opt_bound (VMap m) k r = o) as H.
    { intros o Ho r k m Hm Hg. unfold opt_bound. rewrite under_text, Hg by done. destruct o as [n|]; [|done]. cbn [fmap option_fmap option_map]. unfold num. cbn [mbind option_bind as_number].
      rewrite (proj2 (is_number_spec _) (signed_number n)). cbn [mbind option_bind]. cbn [bound_ok] in Ho. by rewrite parse_signed. }
    cbn [read_type]. unfold read_type. repeat vocab. f_equal.
    + apply H; [done|texted|reads_; by destruct min].
    + apply H; [done|texted|reads_; by destruct max].
    + unfold opt_step, opt_float. rewrite under_text by texted. by reads_.
Qed.

Lemma built_float min max : float_ok min -> float_ok max -> builds (SFloat min max).
Proof.
  intros Hmin Hmax. set (num x := VNumber (float_display x)).
  assert (forall o x, float_ok o -> o = Some x -> number_float x = Ok (num x)) as Hnum by (intros o x Ho ->; by apply number_floats).
  plain (set_opt (set_opt (set_ [] TYPE (VString TYPE_NUMBER)) MINIMUM (num <$> min)) MAXIMUM (num <$> max)) TYPE_NUMBER.
  - cbn [build]. unfold kb_float_bounds, kb_typed, text_value. rewrite put_Ok by texted.
    rewrite (put_opt _ MINIMUM min num) by (texted || (intros; by apply (Hnum min))). by rewrite (put_opt _ MAXIMUM max num) by (texted || (intros; by apply (Hnum max))).
  - intros Hk _. apply seen_float. rewrite Hk.
    assert (forall o, float_ok o -> forall k m, keys_are_text m = true -> get m k = num <$> o -> opt_float (VMap m) k = o) as H.
    { intros o Ho k m Hm Hg. unfold opt_float. rewrite under_text, Hg by done. destruct o as [x|]; [|done]. cbn [fmap option_fmap option_map]. unfold num.
      destruct Ho as [Hf Hp]. cbn [mbind option_bind as_number]. destruct (number_floats x (conj Hf Hp)) as [_ ->]. cbn [mbind option_bind]. rewrite Hp. cbn. by rewrite Hf. }
    unfold read_type. repeat vocab. f_equal.
    + apply H; [done|texted|reads_; by destruct min].
    + apply H; [done|texted|reads_; by destruct max].
    + unfold opt_step, opt_float. rewrite under_text by texted. by reads_.
Qed.

Lemma built_str min max p f : count_ok min -> count_ok max -> text_ok p -> text_ok f -> builds (SStr min max p f).
Proof.
  intros Hmin Hmax Hp Hf. set (num n := VNumber (dec n)).
  assert (forall o x, count_ok o -> o = Some x -> number_new (dec x) = Ok (num x)) as Hnum by (intros o x Ho ->; apply number_dec; cbn in Ho; lia).
  plain (set_opt (set_opt (set_opt (set_opt (set_ [] TYPE (VString TYPE_STRING)) MIN_LENGTH (num <$> min)) MAX_LENGTH (num <$> max))
    PATTERN (VString <$> p)) FORMAT (VString <$> f)) TYPE_STRING.
  - cbn [build]. unfold opt_chain, kb_format, kb_pattern, kb_max_length, kb_min_length, kb_string, kb_typed, kb_text, kb_count, text_value. rewrite put_Ok by texted.
    rewrite (put_opt _ MIN_LENGTH min num) by (texted || (intros; by apply (Hnum min))). rewrite (put_opt _ MAX_LENGTH max num) by (texted || (intros; by apply (Hnum max))).
    rewrite (put_opt _ PATTERN p VString) by (texted || done). by rewrite (put_opt _ FORMAT f VString) by (texted || done).
  - intros Hk _. apply seen_str. rewrite Hk.
    assert (forall o, count_ok o -> forall k m, keys_are_text m = true -> get m k = num <$> o -> opt_count (VMap m) k = o) as H.
    { intros o Ho k m Hm Hg. unfold opt_count. rewrite under_text, Hg by done. destruct o as [n|]; [|done]. cbn [fmap option_fmap option_map]. unfold num. cbn in Ho.
      cbn [mbind option_bind as_number]. rewrite (proj2 (is_number_spec _) (dec_number n ltac:(lia))). cbn [mbind option_bind]. apply parse_digits; lia. }
    assert (forall o, text_ok o -> forall k m, keys_are_text m = true -> get m k = VString <$> o -> opt_str (VMap m) k = o) as H'.
    { intros o Ho k m Hm Hg. unfold opt_str. rewrite under_text, Hg by done. destruct o as [t|]; [|done]. cbn in Ho |- *. by rewrite Ho. }
    unfold read_type. repeat vocab. f_equal.
    + apply H; [done|texted|reads_; by destruct min].
    + apply H; [done|texted|reads_; by destruct max].
    + apply H'; [done|texted|reads_; by destruct p].
    + apply H'; [done|texted|reads_; by destruct f].
Qed.

Lemma built_list s : builds s -> builds (SList s).
Proof.
  intros (m & Hb & Hg). plain (set_ (set_ [] TYPE (VString TYPE_ARRAY)) ITEMS (VMap m)) TYPE_ARRAY.
  - cbn [build]. unfold kb_list, kb_typed, text_value. by rewrite Hb, !put_Ok by texted.
  - intros Hk _. apply (seen_list _ (VMap m)); [|apply Hg]. rewrite Hk. unfold read_type. repeat vocab. unfold read_array. reads_. cbn [mbind option_bind].
    unfold opt_count. rewrite !under_text by texted. by reads_.
Qed.

Lemma built_map_of s : builds s -> builds (SMapOf s).
Proof.
  intros (m & Hb & Hg). plain (set_ (set_ [] TYPE (VString TYPE_OBJECT)) ADDITIONAL_PROPERTIES (VMap m)) TYPE_OBJECT.
  - cbn [build]. unfold kb_map_of, kb_typed, text_value. by rewrite Hb, !put_Ok by texted.
  - intros Hk Hp. apply (seen_map_of _ (VMap m)); [| |apply Hg].
    + rewrite Hk, Hp. unfold read_type. repeat vocab. unfold read_object. reads_. cbn [mbind option_bind].
      unfold is_map_. rewrite as_map_text by apply Hg. by rewrite (bool_decide_true (is_Some (Some m))) by eauto.
    + rewrite Hp, under_text by texted. by reads_.
Qed.

(** *** Lists pushed *)

Lemma pushed k bs : is_utf8 k = true -> forall vs m l, Forall2 (λ (b : State) v, b = Ok v) bs vs -> keys_are_text m = true -> get m k = Some (VList l) ->
  exists m', foldl (λ s b, push s k b) (Ok (VMap m)) bs = Ok (VMap m') /\ keys_are_text m' = true /\
    forall k', get m' k' = if decide (k = k') then Some (VList (l ++ vs)) else get m k'.
Proof.
  intros Hk. induction bs as [|b bs IH]; intros vs m l Hv Hm Hg; inversion Hv as [|? v ? vs' Hb Hbs]; subst.
  - exists m. split_and!; [done..|]. intros k'. rewrite app_nil_r. by destruct (decide (k = k')) as [<-|].
  - cbn [foldl]. rewrite (push_Ok m k l v) by done.
    destruct (IH vs' (set_ m k (VList (l ++ [v]))) (l ++ [v]) Hbs) as (m' & -> & Hm' & Hg'); [by apply text_keys|by rewrite get_set, decide_True|].
    exists m'. split_and!; [done..|]. intros k'. rewrite Hg', get_set, <- app_assoc. by destruct (decide (k = k')).
Qed.

Lemma all_built l : Forall builds l -> exists ms, Forall2 (λ (b : State) v, b = Ok v) (map build l) (map VMap ms) /\ Forall2 good l ms.
Proof.
  induction 1 as [|s l (m & Hb & Hg) _ (ms & H1 & H2)]; [by exists []|]. exists (m :: ms). by split; constructor.
Qed.
Lemma all_seen l ms : Forall2 good l ms -> Forall2 seen l (map VMap ms).
Proof. induction 1 as [|s m l ms Hg _ IH]; constructor; [apply Hg|done]. Qed.

Ltac rewritten Hg := repeat first [rewrite Hg | progress reads_].

Lemma built_tuple l : Forall builds l -> builds (STuple l).
Proof.
  intros (ms & Hb & Hg)%all_built.
  destruct (pushed PREFIX_ITEMS (map build l) eq_refl (map VMap ms) (set_ (set_ [] TYPE (VString TYPE_ARRAY)) PREFIX_ITEMS (VList [])) []) as (m & Em & Hm & Hget);
    [done|texted|by reads_|]. cbn [app] in Hget. set (n := Z.of_nat (length l)).
  eapply (built_plain _ (set_ (set_ (set_ m ITEMS (VBool false)) MIN_ITEMS (VNumber (dec n))) MAX_ITEMS (VNumber (dec n))) TYPE_ARRAY);
    [|texted|rewritten Hget; reflexivity|reflexivity|vm_compute; discriminate| |reflexivity|reflexivity|].
  - cbn [build]. unfold kb_tuple, kb_typed, kb_max_items, kb_min_items, kb_count, text_value. rewrite !put_Ok, Em by texted.
    rewrite length_map. fold n. rewrite put_Ok, number_dec by (texted || lia). by rewrite !put_Ok by texted.
  - repeat (apply Forall_cons; split); try apply Forall_nil; rewritten Hget; reflexivity.
  - intros Hk Hp. assert (under (VMap (set_ (set_ (set_ m ITEMS (VBool false)) MIN_ITEMS (VNumber (dec n))) MAX_ITEMS (VNumber (dec n)))) PREFIX_ITEMS
      = Some (VList (map VMap ms))) as Hu by (rewrite under_text by texted; rewritten Hget; reflexivity).
    apply seen_tuple; rewrite Hp.
    + rewrite Hk. unfold read_type. repeat vocab. unfold read_array. rewritten Hget. done.
    + unfold prefix_items. rewrite Hu. cbn. by apply all_seen.
Qed.

Lemma built_union l : Forall builds l -> (forall a b, l = [a; b] -> null_shape a = null_shape b) -> builds (SUnion l).
Proof.
  intros (ms & Hb & Hg)%all_built Hnull.
  destruct (pushed ANY_OF (map build l) eq_refl (map VMap ms) (set_ [] ANY_OF (VList [])) []) as (m & Em & Hm & Hget); [done|reflexivity|by reads_|]. cbn [app] in Hget.
  exists m. split; [cbn [build]; unfold kb_union; by rewrite put_Ok by texted|].
  assert (get m TYPE = None) as Ht by (rewritten Hget; reflexivity). assert (get m CONST = None) as Hc by (rewritten Hget; reflexivity).
  split; try (rewritten Hget; reflexivity); [done|done|..].
  { intros _. unfold is_null_schema. rewrite as_map_text, Ht, Hc by done. done. }
  assert (peel_once (VMap m) = None) as Hp.
  { unfold peel_once. rewrite as_map_text by done. cbn [mbind option_bind]. rewrite Ht. rewritten Hget. cbn [mbind option_bind].
    assert (lone_all_of m = None) as -> by (unfold lone_all_of; cbn [existsb]; rewritten Hget; cbn [orb]; done).
    unfold nullable_pair. cbn [as_list]. destruct Hg as [|a ma l1 ms1 Ga [|b mb l2 ms2 Gb [|]]]; try done. cbn [map].
    assert (forall s x, good s x -> is_null_schema (VMap x) = null_shape s) as H.
    { intros s x Gx. destruct (null_shape s) eqn:E; [by rewrite (g_null _ _ Gx E)|by apply (g_other _ _ Gx)]. }
    rewrite (H _ _ Ga), (H _ _ Gb), (Hnull a b eq_refl). by destruct (null_shape b). }
  apply seen_union with (a := VList (map VMap ms)); [|by apply all_seen].
  unfold kind_read. rewrite peel_id by done. cbv zeta. change (is_true_schema (VMap m)) with false. cbn iota. rewrite as_map_text by done.
  assert (is_enumeration (VMap m) = false) as -> by (apply not_enumeration; [done|..]; try (rewritten Hget; reflexivity); right; rewritten Hget; reflexivity).
  assert (declared_type (VMap m) = Absent) as -> by (unfold declared_type; by rewrite under_text, Ht by done).
  rewritten Hget. unfold read_untyped. by rewritten Hget.
Qed.

(** *** Enumerations *)

Definition labelled (c : bytes * bytes) : Prop := c.2 <> [] /\ c.2 <> c.1.
#[export] Instance labelled_dec c : Decision (labelled c).
Proof. unfold labelled. apply _. Defined.

Lemma named_fold cs : forall vs lm any, Forall (λ c, is_utf8 c.1 = true /\ is_utf8 c.2 = true) cs -> NoDup (map fst cs) -> keys_are_text lm = true ->
  exists lm' any', foldl named (Ok (VList vs), Ok (VMap lm), any) cs = (Ok (VList (vs ++ map (VString ∘ fst) cs)), Ok (VMap lm'), any') /\
    keys_are_text lm' = true /\ (any' = false -> any = false /\ Forall (λ c, ~ labelled c) cs) /\
    (forall k, k ∉ map fst cs -> get lm' k = get lm k) /\
    Forall (λ c, get lm' c.1 = if decide (labelled c) then Some (VString c.2) else get lm c.1) cs.
Proof.
  induction cs as [|[v t] cs IH]; intros vs lm any Hu Hn Hm.
  { exists lm, any. cbn. rewrite app_nil_r. by split_and!. }
  apply Forall_cons in Hu as [[Hv Ht] Hu]. cbn [map fst snd] in *. apply NoDup_cons in Hn as [Hv' Hn]. cbn [foldl named]. rewrite push_name_Ok.
  change (t <> [] /\ t <> v) with (labelled (v, t)).
  set (lm1 := if decide (labelled (v, t)) then set_ lm v (VString t) else lm).
  assert (keys_are_text lm1 = true) as Hm1 by (unfold lm1; destruct (decide _); [by apply text_keys|done]).
  assert (forall k, k <> v -> get lm1 k = get lm k) as Hg1.
  { intros k Hk. unfold lm1. destruct (decide _); [|done]. by rewrite get_set, decide_False by congruence. }
  assert (get lm1 v = if decide (labelled (v, t)) then Some (VString t) else get lm v) as Hg2.
  { unfold lm1. destruct (decide _); [|done]. by rewrite get_set, decide_True. }
  destruct (IH (vs ++ [VString v]) lm1 (if decide (labelled (v, t)) then true else any) Hu Hn Hm1) as (lm' & any' & E & Hm' & Hany & Hout & Hin).
  exists lm', any'. split_and!.
  - transitivity (foldl named (Ok (VList (vs ++ [VString v])), Ok (VMap lm1), if decide (labelled (v, t)) then true else any) cs).
    + f_equal. unfold lm1. destruct (decide (labelled (v, t))); [|done]. unfold text_value. by rewrite put_Ok.
    + rewrite E, <- app_assoc. done.
  - done.
  - intros H. apply Hany in H as [Ha Hc]. destruct (decide (labelled (v, t))); [done|]. by split; [|constructor].
  - intros k Hk. apply not_elem_of_cons in Hk as [Hk1 Hk2]. rewrite Hout by done. by apply Hg1.
  - constructor; [cbn [fst snd]; by rewrite Hout|]. rewrite Forall_forall in Hin |- *. intros c Hc. rewrite (Hin c Hc). destruct (decide (labelled c)); [done|].
    apply Hg1. intros <-. apply Hv'. apply list_elem_of_In, in_map. by apply list_elem_of_In.
Qed.

(** The name and label each choice is shown with. *)
Lemma shown_is (labels : option Map) c : is_utf8 c.2 = true ->
  (m ← labels; get m c.1) = (if decide (labelled c) then Some (VString c.2) else None) ->
  shown c (MkChoice c.1 (default [] (m ← labels; v ← get m c.1; as_text v))).
Proof.
  intros Hu Hg. assert ((m ← labels; v ← get m c.1; as_text v) = (v ← (m ← labels; get m c.1); as_text v)) as -> by by destruct labels.
  rewrite Hg. split; [done|]. unfold choice_label, label_shown. cbn [choice_label_ choice_value]. destruct c as [v t]. cbn [fst snd] in *.
  destruct (decide (labelled (v, t))) as [[Ht Hv]|Hn]; cbn [mbind option_bind as_text fst snd] in *.
  - rewrite Hu. cbn. rewrite decide_False by done. by destruct t.
  - cbn. destruct (decide (t = [])); [done|]. unfold labelled in Hn. cbn in Hn. destruct (decide (t = v)); [done|]. naive_solver.
Qed.

Lemma kb_names_is key cs : is_utf8 key = true -> choices_ok cs -> exists labels,
  kb_names key cs = Ok (VMap (set_opt (set_ (set_ [] TYPE (VString TYPE_STRING)) key (VList (map (VString ∘ fst) cs))) X_ENUM_LABELS (VMap <$> labels))) /\
  (forall lm, labels = Some lm -> keys_are_text lm = true) /\
  Forall (λ c, is_utf8 c.1 = true /\ shown c (MkChoice c.1 (default [] (m ← labels; v ← get m c.1; as_text v)))) cs.
Proof.
  intros Hk [Hn Hu]. destruct (named_fold cs [] [] false Hu Hn eq_refl) as (lm & any & E & Hm & Hany & _ & Hin).
  unfold kb_names. rewrite E. exists (if any then Some lm else None). unfold kb_typed, text_value. rewrite !put_Ok by texted. split_and!.
  - by destruct any.
  - by destruct any; [intros lm' [= <-]|].
  - rewrite Forall_forall in Hin, Hu |- *. intros c Hc. destruct (Hu c Hc) as [H1 H2]. split; [done|]. apply shown_is; [done|].
    specialize (Hin c Hc). rewrite get_nil in Hin. destruct any; [exact Hin|]. destruct (Hany eq_refl) as [_ Hf]. rewrite Forall_forall in Hf.
    by rewrite decide_False by by apply Hf.
Qed.

Lemma built_open l : choices_ok l -> builds (SOpen l).
Proof.
  intros (labels & E & Hl & Hs)%(kb_names_is EXAMPLES); [|done].
  plain (set_opt (set_ (set_ [] TYPE (VString TYPE_STRING)) EXAMPLES (VList (map (VString ∘ fst) l))) X_ENUM_LABELS (VMap <$> labels)) TYPE_STRING; [exact E|].
  intros Hk Hp. apply seen_open.
  - rewrite Hk. unfold read_type. repeat vocab. unfold opt_count, opt_str. rewrite !under_text by texted. by reads_.
  - rewrite Hp. unfold suggestions, examples. cbn [fschema]. rewrite !under_text by texted. reads_. cbn [list_items mbind option_bind as_list default].
    assert (((VMap <$> labels) ≫= as_map) = labels) as El by (destruct labels as [lm|]; [cbn; by rewrite (Hl lm eq_refl)|done]).
    assert (match VMap <$> labels with Some v => Some v | None => None end ≫= as_map = labels) as -> by by destruct labels.
    unfold list_items. cbn [mbind option_bind as_list default]. change (id (map (VString ∘ fst) l)) with (map (VString ∘ fst) l).
    assert (omap as_text (map (VString ∘ fst) l) = map fst l) as ->.
    { clear -Hs. induction Hs as [|c cs [Hu Hc] _ IH]; [done|]. cbn. by rewrite Hu, IH. }
    clear -Hs. induction Hs as [|c cs [Hu Hc] _ IH]; [constructor|]. by constructor.
Qed.

Lemma built_enum l : choices_ok l -> builds (SEnum l).
Proof.
  intros (labels & E & Hl & Hs)%(kb_names_is ENUM); [|done].
  set (m := set_opt (set_ (set_ [] TYPE (VString TYPE_STRING)) ENUM (VList (map (VString ∘ fst) l))) X_ENUM_LABELS (VMap <$> labels)) in *.
  assert (keys_are_text m = true) as Hm by (unfold m; texted). assert (get m TYPE = Some (VString TYPE_STRING)) as Ht by (unfold m; by reads_).
  assert (get m ENUM = Some (VList (map (VString ∘ fst) l))) as He by (unfold m; by reads_).
  exists m. split; [exact E|]. apply (typed_good _ m TYPE_STRING); try done; try (unfold m; reads_; reflexivity).
  pose proof (peel_typed m _ Hm Ht) as Hp. apply seen_enum; rewrite Hp.
  - unfold kind_read. rewrite Hp. cbv zeta. change (is_true_schema (VMap m)) with false. cbn iota. rewrite as_map_text by done.
    assert (contains_key m REF = false) as -> by (unfold m; by reads_). unfold is_enumeration. rewrite as_map_text, He by done. cbn [as_list].
    rewrite (bool_decide_true (is_Some (Some _))) by eauto. done.
  - unfold choices. assert (under (VMap m) X_ENUM_LABELS ≫= as_map = labels) as ->.
    { rewrite under_text by done. unfold m. reads_. destruct labels as [lm|]; [cbn; by rewrite (Hl lm eq_refl)|done]. }
    unfold members. rewrite as_map_text, He by done. cbn [mbind option_bind as_list]. clear -Hs. induction Hs as [|c cs [Hu Hc] _ IH]; [constructor|].
    cbn. unfold member_text at 1. cbn [as_text]. rewrite Hu. cbn. constructor; [exact Hc|exact IH].
Qed.

(** *** Objects and variants *)

Definition builders (fs : list (bytes * bool * Shape)) : list FieldBuilder := map (λ d, field_builder d.1.1 d.1.2 (build d.2)) fs.
Definition field_names (fs : list (bytes * bool * Shape)) : list bytes := map (λ d, d.1.1) fs.
Definition required_names (fs : list (bytes * bool * Shape)) : list bytes := map (λ d, d.1.1) (List.filter (λ d, d.1.2) fs).

Lemma builder_parts key required k : fb_key (field_builder key required k) = key /\ fb_state (field_builder key required k) = k /\
  fb_required (field_builder key required k) = required.
Proof. by destruct required. Qed.

Lemma builders_written fs : Forall (λ d, builds d.2) fs -> exists ms, Forall2 written (builders fs) (map VMap ms) /\ Forall2 (λ d m, good d.2 m) fs ms.
Proof.
  induction 1 as [|d fs (m & Hb & Hg) _ (ms & H1 & H2)]; [by exists []; split; constructor|]. exists (m :: ms). split; constructor; try done.
  unfold written. destruct (builder_parts d.1.1 d.1.2 (build d.2)) as (_ & -> & _). done.
Qed.
Lemma builders_keys fs : map fb_key (builders fs) = field_names fs.
Proof. unfold builders, field_names. rewrite map_map. apply map_ext. intros d. apply builder_parts. Qed.
Lemma builders_needed fs : needed (builders fs) = required_names fs.
Proof.
  unfold needed, required_names. induction fs as [|d fs IH]; [done|]. unfold builders in *. cbn [map List.filter].
  destruct (builder_parts d.1.1 d.1.2 (build d.2)) as (Hk & _ & ->). destruct (d.1.2); [|done]. cbn [map]. by rewrite Hk, IH.
Qed.
Lemma builders_text fs : Forall (λ d, is_utf8 d.1.1 = true) fs -> Forall (λ f, is_utf8 (fb_key f) = true) (builders fs).
Proof.
  intros H. apply Forall_map. eapply Forall_impl; [exact H|]. intros d Hd. cbn. by destruct (builder_parts d.1.1 d.1.2 (build d.2)) as (-> & _).
Qed.

Lemma required_iff fs d : NoDup (field_names fs) -> d ∈ fs -> d.1.1 ∈ required_names fs <-> d.1.2 = true.
Proof.
  intros Hn Hd. unfold required_names, field_names in *. split.
  - intros H. apply list_elem_of_In, in_map_iff in H as (e & E & He). apply filter_In in He as [He Hr]. apply list_elem_of_In in He.
    assert (e = d) as ->; [|done]. apply list_elem_of_lookup in He as [i Hi], Hd as [j Hj].
    assert (i = j) as ->; [|congruence]. apply (NoDup_lookup _ i j e.1.1 Hn); [by rewrite list_lookup_fmap, Hi|by rewrite list_lookup_fmap, Hj, E].
  - intros H. apply list_elem_of_In, in_map_iff. exists d. split; [done|]. apply filter_In. split; [by apply list_elem_of_In|done].
Qed.

(** What a sealed object's readers find. *)
Lemma sealed_get m props req k : get (sealed m props req) k =
  if decide (PROPERTIES = k) then Some (VMap props) else if decide (ADDITIONAL_PROPERTIES = k) then Some (VBool false)
  else if decide (REQUIRED = k) then (if decide (req = []) then get m k else Some (VList (map VString req))) else get m k.
Proof.
  unfold sealed. destruct (decide (req = [])); rewrite !get_set; repeat (destruct (decide (_ = k)) as [?|?]; subst; try done).
Qed.
Lemma sealed_text m props req : keys_are_text m = true -> keys_are_text (sealed m props req) = true.
Proof. intros H. unfold sealed. destruct (decide (req = [])); texted. Qed.
#[local] Hint Resolve sealed_text : schema.

Lemma texts_read l : Forall (λ t, is_utf8 t = true) l -> omap as_text (map VString l) = l.
Proof. induction 1 as [|t l Ht _ IH]; [done|]. cbn. by rewrite Ht, IH. Qed.

Lemma is_required_read owner key req : keys_are_text owner = true -> Forall (λ t, is_utf8 t = true) req ->
  get owner REQUIRED = (if decide (req = []) then None else Some (VList (map VString req))) ->
  is_required_in (VMap owner) key = bool_decide (key ∈ req).
Proof.
  intros Hm Hu Hg. unfold is_required_in. rewrite under_text, Hg by done.
  assert (omap as_text (list_items (if decide (req = []) then None else Some (VList (map VString req)))) = req) as ->.
  { destruct (decide (req = [])) as [->|]; [done|]. unfold list_items. cbn. by apply texts_read. }
  apply eq_iff_eq_true. rewrite existsb_exists, bool_decide_eq_true. split.
  - intros (x & Hx & E). apply bool_decide_eq_true in E as ->. by apply list_elem_of_In.
  - intros H. exists key. split; [by apply list_elem_of_In|by apply bool_decide_eq_true].
Qed.

Lemma fields_read owner first fs ms : keys_are_text owner = true -> keys_are_text (first ++ entries (builders fs) (map VMap ms)) = true ->
  get owner PROPERTIES = Some (VMap (first ++ entries (builders fs) (map VMap ms))) ->
  get owner REQUIRED = (if decide (map fst first ++ required_names fs = []) then None else Some (VList (map VString (map fst first ++ required_names fs)))) ->
  NoDup (map fst first ++ field_names fs) -> Forall (λ t, is_utf8 t = true) (map fst first ++ field_names fs) -> Forall2 (λ d m, good d.2 m) fs ms ->
  exists l, fields_of (VMap owner) = omap (field_at (VMap owner)) first ++ l /\ Forall2 field_seen fs l.
Proof.
  intros Hm Ht Hp Hr Hn Hu Hg. unfold fields_of. rewrite under_text, Hp by done. unfold map_entries. cbn [mbind option_bind]. rewrite as_map_text by done. cbn [default from_option].
  unfold id. rewrite omap_app. eexists. split; [reflexivity|].
  assert (forall d, d ∈ fs -> is_required_in (VMap owner) d.1.1 = d.1.2) as Hreq.
  { intros d Hd. rewrite (is_required_read owner _ (map fst first ++ required_names fs)); [|done| |done].
    - apply eq_iff_eq_true. rewrite bool_decide_eq_true. apply NoDup_app in Hn as (_ & Hn & Hnf). rewrite elem_of_app, (required_iff fs d Hnf Hd). split; [|by right].
      intros [H|H]; [|done]. destruct (Hn _ H). unfold field_names. apply list_elem_of_In, in_map_iff. exists d. split; [done|by apply list_elem_of_In].
    - apply Forall_app in Hu as [H1 H2]. apply Forall_app. split; [done|]. rewrite Forall_forall in H2 |- *. intros x Hx. apply H2.
      unfold required_names in Hx. apply list_elem_of_In, in_map_iff in Hx as (e & <- & He). apply filter_In in He as [He _]. apply list_elem_of_In, in_map_iff. by exists e. }
  clear -Hg Hreq. induction Hg as [|d m fs ms Gd _ IH]; [constructor|]. unfold entries, builders in *. cbn [map zip_with omap list_omap].
  destruct (builder_parts d.1.1 d.1.2 (build d.2)) as (-> & _). unfold field_at at 1. cbn [fst snd]. unfold is_schema, is_map_.
  rewrite as_map_text by apply Gd. rewrite bool_decide_true by eauto. cbn [orb]. constructor.
  - destruct d as [[k r] s]. constructor; cbn [fkey frequired fschema]; [done|by apply (Hreq (k, r, s)); left|apply Gd].
  - apply IH. intros d' Hd'. apply Hreq. by right.
Qed.

Lemma props_text fs vs : Forall (λ d, is_utf8 d.1.1 = true) fs -> keys_are_text (entries (builders fs) vs) = true.
Proof.
  unfold entries, keys_are_text. rewrite builders_keys. intros H. revert vs. induction H as [|d fs Hd _ IH]; intros [|v vs]; try done. cbn. by rewrite Hd, IH.
Qed.

Lemma built_map fs : NoDup (field_names fs) -> Forall (λ d, is_utf8 d.1.1 = true) fs -> Forall (λ d, builds d.2) fs -> builds (SMap fs).
Proof.
  intros Hn Hu (ms & Hw & Hg)%builders_written.
  destruct (seal_Ok (set_ [] TYPE (VString TYPE_OBJECT)) None (builders fs) (map VMap ms)) as (first & E & ->);
    [texted|done|by apply builders_text|by rewrite builders_keys|]. cbn [app map] in E. rewrite builders_needed in E.
  set (props := entries (builders fs) (map VMap ms)) in *.
  eapply (built_plain _ (sealed (set_ [] TYPE (VString TYPE_OBJECT)) props (required_names fs)) TYPE_OBJECT);
    [|texted|by rewrite sealed_get|reflexivity|vm_compute; discriminate| |reflexivity|reflexivity|].
  - cbn [build]. unfold kb_map, kb_typed, text_value. rewrite put_Ok by texted. exact E.
  - by repeat constructor; rewrite sealed_get.
  - intros Hk Hp. apply seen_map; rewrite Hp.
    + rewrite Hk. unfold read_type. repeat vocab. unfold read_object. rewrite contains_get, !sealed_get. done.
    + destruct (fields_read (sealed (set_ [] TYPE (VString TYPE_OBJECT)) props (required_names fs)) [] fs ms) as (l & -> & Hl); try done.
      * texted.
      * by apply props_text.
      * by rewrite sealed_get.
      * rewrite sealed_get. repeat vocab. cbn [map app]. by destruct (decide (required_names fs = [])).
      * cbn [map app]. unfold field_names. by apply Forall_map.
Qed.

Lemma ab_fields_fold fbs : forall a, foldl ab_field a fbs = MkArmBuilder (ab_state a) (ab_discriminant a) (ab_value a) (ab_fields a ++ fbs).
Proof. induction fbs as [|f fbs IH]; intros [s d v l]; cbn; [by rewrite app_nil_r|]. rewrite IH. cbn. by rewrite <- app_assoc. Qed.

Lemma get_head k v (m : Map) : get ((k, v) :: m) k = Some v.
Proof. unfold get, position. cbn. by rewrite decide_True. Qed.

Definition discriminant_of (value : bytes) : Value := VMap [(CONST, VString value)].

Lemma arm_built tag value title fs : is_utf8 tag = true -> is_utf8 value = true -> is_utf8 title = true -> tag ∉ field_names fs ->
  NoDup (field_names fs) -> Forall (λ d, is_utf8 d.1.1 = true) fs -> Forall (λ d, builds d.2) fs ->
  exists m, (let a := foldl ab_field (ab_new value title) (builders fs) in seal (ab_state a) (Some (tag, ab_discriminant a)) (ab_fields a)) = Ok (VMap m) /\
    keys_are_text m = true /\ arm_seen (value, title, fs) (MkArm tag (VMap m)).
Proof.
  intros Htag Hv Ht Hn1 Hn Hu (ms & Hw & Hg)%builders_written. rewrite ab_fields_fold. cbn [ab_state ab_discriminant ab_fields ab_new app].
  set (m0 := if decide (labelled (value, title)) then set_ [] TITLE (VString title) else []).
  assert (keys_are_text m0 = true) as Hm0 by (unfold m0; destruct (decide _); [texted|done]).
  assert ((if decide (title <> [] /\ title <> value) then put (Ok (VMap [])) TITLE (text_value title) else Ok (VMap [])) = Ok (VMap m0)) as ->.
  { unfold m0. change (title <> [] /\ title <> value) with (labelled (value, title)). destruct (decide (labelled (value, title))); [|done]. unfold text_value. by rewrite put_Ok. }
  destruct (seal_Ok m0 (Some (tag, put (Ok (VMap [])) CONST (text_value value))) (builders fs) (map VMap ms) Hm0 Hw) as (first & E & v & Hfirst & ->).
  { by apply builders_text. } { rewrite builders_keys. split_and!; [by constructor|done|]. unfold text_value. rewrite put_Ok by done. eauto. }
  cbv zeta. rewrite E. cbn [map fst app] in *. rewrite builders_needed. unfold text_value in Hfirst. rewrite put_Ok in Hfirst by done. injection Hfirst as <-.
  change (set_ [] CONST (VString value)) with [(CONST, VString value)] in *. fold (discriminant_of value) in *.
  set (props := (tag, discriminant_of value) :: entries (builders fs) (map VMap ms)) in *.
  assert (keys_are_text props = true) as Hprops by (unfold props; cbn; rewrite Htag; by apply props_text).
  eexists. split; [done|]. set (m := sealed m0 props (tag :: required_names fs)). assert (keys_are_text m = true) as Hm by (unfold m; texted). split; [done|].
  assert (get m PROPERTIES = Some (VMap props)) as Hp by (unfold m; by rewrite sealed_get).
  assert (arm_value (MkArm tag (VMap m)) = value) as Hval.
  { unfold arm_value. cbn [arm_schema arm_tag]. rewrite under_text, Hp by done. cbn [mbind option_bind]. rewrite as_map_text by done. cbn [mbind option_bind].
    unfold props. rewrite get_head. cbn [mbind option_bind]. unfold discriminant_of. rewrite under_text by done. rewrite get_head. cbn. by rewrite Hv. }
  constructor.
  - done.
  - unfold arm_title. rewrite Hval. cbn [arm_schema]. unfold SchemaRead.text_. rewrite under_text by done. unfold m. rewrite sealed_get. repeat vocab.
    unfold m0, label_shown. cbn [fst snd]. destruct (decide (labelled (value, title))) as [[H1 H2]|Hl]; cbn [fst snd] in *.
    + rewrite get_set. repeat vocab. cbn. rewrite Ht. cbn. by destruct title.
    + rewrite get_nil. cbn. destruct (decide (title = [])); [done|]. destruct (decide (title = value)) as [->|]; [done|]. destruct Hl. by split.
  - destruct (fields_read m [(tag, discriminant_of value)] fs ms) as (l & El & Hl); try done.
    + unfold m. rewrite sealed_get. repeat vocab. cbn [map fst app]. by destruct (decide (tag :: required_names fs = [])).
    + cbn. by constructor.
    + cbn. constructor; [done|]. unfold field_names. by apply Forall_map.
    + unfold arm_fields. cbn [arm_schema arm_tag]. rewrite El.
      change (omap (field_at (VMap m)) [(tag, discriminant_of value)]) with [MkField tag (discriminant_of value) (is_required_in (VMap m) tag)].
      cbn [app List.filter fkey].
      rewrite bool_decide_true by done. cbn [negb].
      assert (List.filter (λ f, negb (bool_decide (fkey f = tag))) l = l) as ->; [|done].
      clear -Hl Hn1. induction Hl as [|d f fs l Hd _ IH]; [done|]. cbn [List.filter]. inversion Hd as [key req s f' Hk]; subst. cbn in Hn1.
      rewrite bool_decide_false by (intros E; apply Hn1; rewrite E; left). cbn [negb]. f_equal. apply IH. intros H. apply Hn1. by right.
Qed.

Lemma foldl_pushes {A} (f : A -> State) k l : forall s, foldl (λ s a, push s k (f a)) s l = foldl (λ s b, push s k b) s (map f l).
Proof. induction l as [|a l IH]; intros s; [done|]. apply IH. Qed.

Definition arm_builds (tag : bytes) (a : bytes * bytes * list (bytes * bool * Shape)) : Prop :=
  is_utf8 a.1.1 = true /\ is_utf8 a.1.2 = true /\ (tag ∉ field_names a.2) /\ NoDup (field_names a.2) /\ Forall (λ d, is_utf8 d.1.1 = true) a.2 /\ Forall (λ d, builds d.2) a.2.

Lemma built_variant tag arms_ : is_utf8 tag = true -> NoDup (map (λ a, a.1.1) arms_) -> Forall (arm_builds tag) arms_ -> builds (SVariant tag arms_).
Proof.
  intros Htag Hn Ha.
  set (arm_of (a : bytes * bytes * list (bytes * bool * Shape)) := foldl ab_field (ab_new a.1.1 a.1.2) (builders a.2)).
  set (seal_of a := seal (ab_state (arm_of a)) (Some (tag, ab_discriminant (arm_of a))) (ab_fields (arm_of a))).
  assert (exists ms, Forall2 (λ (b : State) v, b = Ok v) (map seal_of arms_) (map VMap ms) /\
    Forall2 arm_seen arms_ (map (λ m, MkArm tag (VMap m)) ms) /\ Forall (λ m, keys_are_text m = true) ms) as (ms & Hs & Hseen & Hms).
  { clear Hn. induction Ha as [|[[v t] fs] arms_ (H1 & H2 & H3 & H4 & H5 & H6) _ (ms & I1 & I2 & I3)]; [exists []; by split_and!; constructor|].
    destruct (arm_built tag v t fs Htag H1 H2 H3 H4 H5 H6) as (m & E & Hm & Hsm). exists (m :: ms). split_and!; constructor; done. }
  set (m1 := set_ (set_ (set_ [] TYPE (VString TYPE_OBJECT)) X_VARIANT_TAG (VString tag)) ONE_OF (VList [])).
  destruct (pushed ONE_OF (map seal_of arms_) eq_refl (map VMap ms) m1 [] Hs) as (m & Em & Hm & Hget); [unfold m1; texted|unfold m1; by reads_|]. cbn [app] in Hget.
  assert (map ab_value (map arm_of arms_) = map (λ a, a.1.1) arms_) as Hvals.
  { rewrite map_map. apply map_ext. intros [[v t] fs]. unfold arm_of. by rewrite ab_fields_fold. }
  exists m. split.
  { cbn [build]. unfold kb_variant, kb_typed, text_value. rewrite !put_Ok by texted. fold m1.
    change (map (λ a, foldl ab_field (ab_new a.1.1 a.1.2) (map (λ d, field_builder d.1.1 d.1.2 (build d.2)) a.2)) arms_) with (map arm_of arms_).
    rewrite Hvals. rewrite (proj2 (repeats_spec _ [] NoDup_nil_2) Hn).
    rewrite (foldl_pushes (λ arm, seal (ab_state arm) (Some (tag, ab_discriminant arm)) (ab_fields arm))). rewrite map_map. exact Em. }
  assert (get m TYPE = Some (VString TYPE_OBJECT)) as Ht by (rewritten Hget; unfold m1; by reads_).
  apply (typed_good _ m TYPE_OBJECT); try done; try (rewritten Hget; unfold m1; reads_; reflexivity).
  apply (seen_variant tag arms_ (VList (map VMap ms))).
  - rewrite (kind_named m TYPE_OBJECT); try done; try (rewritten Hget; unfold m1; reads_; reflexivity).
    + unfold read_type. repeat vocab. unfold read_object. rewritten Hget. unfold m1. reads_. cbn. rewrite Htag. done.
    + left. rewritten Hget. unfold m1. reads_. eauto.
  - unfold arms, list_items. cbn [mbind option_bind as_list default]. change (id (map VMap ms)) with (map VMap ms).
    assert (List.filter is_map_ (map VMap ms) = map VMap ms) as ->.
    { clear -Hms. induction Hms as [|m ms Hm _ IH]; [done|]. cbn. unfold is_map_ at 1. rewrite as_map_text by done. rewrite bool_decide_true by eauto. by rewrite IH. }
    change (Forall2 arm_seen arms_ (map (λ s, MkArm tag s) (map VMap ms))). by rewrite map_map.
Qed.

(** *** Nullable *)

Lemma or_null_is kind : or_null kind = Ok (VMap [(ANY_OF, VList [kind; VMap [(TYPE, VString TYPE_NULL)]])]).
Proof. reflexivity. Qed.

Lemma wrapped s m : good s m -> null_shape s = false -> good (SNullable s) [(ANY_OF, VList [VMap m; VMap [(TYPE, VString TYPE_NULL)]])].
Proof.
  intros Hg Hn. set (w := [(ANY_OF, VList [VMap m; VMap [(TYPE, VString TYPE_NULL)]])]).
  assert (get w TYPE = None /\ get w ANY_OF = Some (VList [VMap m; VMap [(TYPE, VString TYPE_NULL)]]) /\ get w CONST = None) as (Ht & Ha & Hc) by done.
  assert (nullable_pair (VList [VMap m; VMap [(TYPE, VString TYPE_NULL)]]) = Some (VMap m)) as Hp.
  { unfold nullable_pair. cbn [as_list]. rewrite (g_other _ _ Hg Hn). change (is_null_schema (VMap [(TYPE, VString TYPE_NULL)])) with true. cbn iota.
    unfold is_map_. by rewrite as_map_text, bool_decide_true by (apply Hg || eauto). }
  split; try done; [by cbn; rewrite Hn|].
  assert (is_nullable (VMap w) = true) as Hnull.
  { rewrite nullable_unfold, as_map_text, Ht, Ha by done. cbn [mbind option_bind]. by rewrite Hp. }
  apply seen_nullable; [by left|]. apply (seen_moves s (VMap m)); [apply Hg| |done].
  rewrite peel_unfold. unfold peel_once. rewrite as_map_text by done. cbn [mbind option_bind]. by rewrite Ht, Ha; cbn [mbind option_bind]; rewrite Hp.
Qed.

Lemma built_nullable s : builds s -> builds (SNullable s).
Proof.
  intros (m & Hb & Hg). unfold builds. cbn [build]. rewrite Hb. unfold kb_nullable. cbn [mbind result_bind]. rewrite as_map_text by apply Hg.
  destruct (decide (m = [])) as [->|Hne].
  { exists []. split; [done|]. split; try done; [intros Hn; by apply Hg|]. apply seen_nullable; [by right; right|apply Hg]. }
  assert (forall X, match m with [] => X | _ => match existsb (λ key, contains_key m key) [ENUM; CONST; ANY_OF; ONE_OF; ALL_OF; X_VARIANT_TAG], get m TYPE ≫= as_text with
      | false, Some name => if decide (name = TYPE_NULL) then Ok (VMap m) else put (Ok (VMap m)) TYPE (push_name (push_name (Ok (VList [])) name) TYPE_NULL)
      | _, _ => or_null (VMap m) end end =
    match existsb (λ key, contains_key m key) [ENUM; CONST; ANY_OF; ONE_OF; ALL_OF; X_VARIANT_TAG], get m TYPE ≫= as_text with
      | false, Some name => if decide (name = TYPE_NULL) then Ok (VMap m) else put (Ok (VMap m)) TYPE (push_name (push_name (Ok (VList [])) name) TYPE_NULL)
      | _, _ => or_null (VMap m) end) as E by by destruct m. rewrite E. clear E.
  assert (null_shape s = false -> exists m', or_null (VMap m) = Ok (VMap m') /\ good (SNullable s) m') as Hwrap.
  { intros Hn. eexists. split; [apply or_null_is|by apply wrapped]. }
  destruct (existsb _ _) eqn:Ec.
  { apply Hwrap. destruct (null_shape s) eqn:En; [|done]. exfalso. rewrite (g_null _ _ Hg En) in Ec. by vm_compute in Ec. }
  cbn [existsb] in Ec. rewrite !contains_get in Ec. repeat (apply orb_false_iff in Ec as [?%bool_decide_eq_false Ec]).
  assert (forall k, ~ is_Some (get m k) -> get m k = None) as Hnone by (intros k; apply eq_None_not_Some).
  destruct (get m TYPE ≫= as_text) as [name|] eqn:Et.
  - destruct (get m TYPE) as [x|] eqn:Ex; [|done]. cbn in Et. apply as_text_Some in Et as [-> Hu]. destruct (decide (name = TYPE_NULL)) as [->|Hnn].
    + exists m. split; [done|]. split; try apply Hg. apply seen_nullable; [|apply Hg]. right; left.
      rewrite (kind_named m TYPE_NULL) by (apply Hg || auto). done.
    + eexists. rewrite !push_name_Ok. cbn [app]. rewrite put_Ok by apply Hg. split; [done|].
      assert (null_shape s = false) as Hn.
      { destruct (null_shape s) eqn:En; [|done]. rewrite (g_null _ _ Hg En) in Ex. injection Ex as <-. done. }
      pose proof (g_text _ _ Hg) as Hm. assert (keys_are_text (set_ m TYPE (VList [VString name; VString TYPE_NULL])) = true) as Hm' by texted.
      split; [done|..].
      * reads_. apply Hg.
      * reads_. apply Hg.
      * reads_. apply Hg.
      * cbn [null_shape]. by rewrite Hn.
      * intros _. unfold is_null_schema. rewrite as_map_text by done. reads_. cbn [mbind option_bind as_text]. rewrite (g_const _ _ Hg). done.
      * apply seen_nullable; [left; apply (retyped_nullable m name); auto|apply (seen_retyped m name); auto; apply Hg].
  - apply Hwrap. destruct (null_shape s) eqn:En; [|done]. by rewrite (g_null _ _ Hg En) in Et.
Qed.

(** *** All declarations *)

Section induction.
Context (P : Shape -> Prop).
Context (leaf : forall s, match s with SList _ | STuple _ | SMap _ | SMapOf _ | SUnion _ | SVariant _ _ | SNullable _ => True | s => P s end)
  (list_ : forall s, P s -> P (SList s)) (tuple : forall l, Forall P l -> P (STuple l)) (map_ : forall l, Forall (λ d, P d.2) l -> P (SMap l))
  (map_of : forall s, P s -> P (SMapOf s)) (union : forall l, Forall P l -> P (SUnion l))
  (variant : forall t l, Forall (λ a, Forall (λ d, P d.2) a.2) l -> P (SVariant t l)) (nullable : forall s, P s -> P (SNullable s)).
Fixpoint shape_induction (s : Shape) : P s :=
  let fields := fix go (l : list (bytes * bool * Shape)) : Forall (λ d, P d.2) l :=
    match l with [] => Forall_nil_2 _ | d :: l => Forall_cons_2 _ d l (shape_induction d.2) (go l) end in
  let all := fix go (l : list Shape) : Forall P l :=
    match l with [] => Forall_nil_2 _ | x :: l => Forall_cons_2 _ x l (shape_induction x) (go l) end in
  match s as s return P s with
  | SList x => list_ x (shape_induction x)
  | STuple l => tuple l (all l)
  | SMap l => map_ l (fields l)
  | SMapOf x => map_of x (shape_induction x)
  | SUnion l => union l (all l)
  | SVariant t l => variant t l ((fix go (l : list (bytes * bytes * list (bytes * bool * Shape))) : Forall (λ a, Forall (λ d, P d.2) a.2) l :=
      match l with [] => Forall_nil_2 _ | a :: l => Forall_cons_2 _ a l (fields a.2) (go l) end) l)
  | SNullable x => nullable x (shape_induction x)
  | SAny => leaf SAny | SNull => leaf SNull | SBoolean => leaf SBoolean | SBytes => leaf SBytes
  | SInt a b => leaf (SInt a b) | SFloat a b => leaf (SFloat a b) | SStr a b c d => leaf (SStr a b c d)
  | SEnum l => leaf (SEnum l) | SOpen l => leaf (SOpen l)
  end.
End induction.

Lemma fields_parts fs : fields_ok fs -> Forall (λ d, shape_ok d.2 -> builds d.2) fs ->
  NoDup (field_names fs) /\ Forall (λ d, is_utf8 d.1.1 = true) fs /\ Forall (λ d, builds d.2) fs.
Proof.
  intros [l Hn Hf] Hb. unfold field_names. split_and!; [done|..]; rewrite Forall_forall in *; intros d Hd; destruct (Hf d Hd); [done|auto].
Qed.

Lemma shape_builds s : shape_ok s -> builds s.
Proof.
  revert s. apply (shape_induction (λ s, shape_ok s -> builds s)).
  - intros s; destruct s; try exact I; inversion 1; subst.
    + apply built_any.
    + apply built_null.
    + apply built_boolean.
    + apply built_bytes.
    + by apply built_int.
    + by apply built_float.
    + by apply built_str.
    + by apply built_enum.
    + by apply built_open.
  - intros s IH. inversion 1; subst. apply built_list; auto.
  - intros l IH. inversion 1; subst. apply built_tuple. rewrite Forall_forall in *. auto.
  - intros l IH. inversion 1 as [| | | | | | | | |? Hf| | | | | |]; subst. destruct (fields_parts l Hf IH) as (H1 & H2 & H3). by apply built_map.
  - intros s IH. inversion 1; subst. apply built_map_of; auto.
  - intros l IH. inversion 1; subst. apply built_union; [|done]. rewrite Forall_forall in *. auto.
  - intros t l IH. inversion 1 as [| | | | | | | | | | | | | |? ? Ht Hn Ha|]; subst. apply built_variant; [done|done|]. rewrite Forall_forall in *. intros a Hin.
    destruct (Ha a Hin) as (H1 & H2 & H3 & H4). destruct (fields_parts a.2 H4 (IH a Hin)) as (F1 & F2 & F3). by split_and!.
  - intros s IH. inversion 1; subst. apply built_nullable; auto.
Qed.

(** ** Schemas *)

Definition schema_of (fields : list FieldBuilder) : State := sb_finish (foldl sb_field sb_new fields).

Lemma sb_fold fbs : forall b, foldl sb_field b fbs = MkSchemaBuilder (sb_state b) (sb_fields b ++ fbs).
Proof. induction fbs as [|f fbs IH]; intros [s l]; cbn; [by rewrite app_nil_r|]. rewrite IH. cbn. by rewrite <- app_assoc. Qed.
Definition root : Map := set_ (set_ [] SCHEMA (VString DIALECT)) TYPE (VString TYPE_OBJECT).
Lemma sb_root : sb_state sb_new = Ok (VMap root).
Proof. reflexivity. Qed.


Definition field_error (f : FieldBuilder) : option ValueError := match fb_state f with Err e => Some e | Ok _ => None end.
Definition first_error (fs : list FieldBuilder) : option ValueError := head (omap field_error fs).

Lemma declared_failed e fs : forall rs any, exists rs' any', foldl declared (Err e, rs, any) fs = (Err e, rs', any').
Proof.
  induction fs as [|f fs IH]; intros rs any; [by eexists _, _|]. cbn [foldl declared]. destruct (fb_required f); apply IH.
Qed.

Lemma declared_error fs : forall ps rs any, keys_are_text ps = true -> Forall (λ f, is_utf8 (fb_key f) = true) fs ->
  match first_error fs with
  | Some e => exists rs' any', foldl declared (Ok (VMap ps), rs, any) fs = (Err e, rs', any')
  | None => exists vs, Forall2 written fs vs
  end.
Proof.
  unfold first_error. induction fs as [|f fs IH]; intros ps rs any Hm Hu; [by exists []; constructor|]. apply Forall_cons in Hu as [Hf Hu].
  cbn [omap list_omap foldl declared]. unfold field_error at 1. destruct (fb_state f) as [v|e] eqn:Es; cbn [head].
  - rewrite put_Ok by done. specialize (IH (set_ ps (fb_key f) v) (if fb_required f then push_name rs (fb_key f) else rs) (if fb_required f then true else any)
      ltac:(by apply text_keys) Hu).
    destruct (head _) as [e|]; [|destruct IH as [vs Hvs]; exists (v :: vs); by constructor].
    by destruct (fb_required f).
  - change (put (Ok (VMap ps)) (fb_key f) (Err e)) with (Err e : State). destruct (fb_required f); apply declared_failed.
Qed.

(** C: A schema is written exactly when every field was and no two have one name; else
    it is refused: as repeating a key where a name is repeated, whatever else failed
    before, and with the first field's failure otherwise. *)
Theorem finish_exact (fields : list FieldBuilder) (Hu : Forall (λ f, is_utf8 (fb_key f) = true) fields) :
  match schema_of fields with
  | Ok _ => NoDup (map fb_key fields) /\ first_error fields = None
  | Err e => if decide (NoDup (map fb_key fields)) then first_error fields = Some e else e = DuplicateKey
  end.
Proof.
  unfold schema_of, sb_finish. rewrite sb_fold. cbn [sb_state sb_fields app]. rewrite sb_root. change (sb_fields sb_new) with (@nil FieldBuilder). cbn [app].
  destruct (decide (NoDup (map fb_key fields))) as [Hn|Hn].
  - pose proof (declared_error fields [] (Ok (VList [])) false eq_refl Hu) as He. destruct (first_error fields) as [e|] eqn:Ef.
    + destruct He as (rs & any & E). unfold seal. rewrite (proj2 (repeats_spec _ [] NoDup_nil_2) Hn), E.
      change (put (Ok (VMap root)) PROPERTIES (Err e)) with (Err e : State). by destruct any.
    + destruct He as (vs & Hw). by destruct (seal_Ok root None fields vs eq_refl Hw Hu Hn) as (first & -> & _).
  - assert (repeats [] (map fb_key fields) = true) as Hr.
    { destruct (repeats [] (map fb_key fields)) eqn:E; [done|]. by apply (repeats_spec _ [] NoDup_nil_2) in E. }
    unfold seal. rewrite Hr. destruct (foldl declared _ fields) as [[props req] any]. by destruct any.
Qed.

(** ** At work *)

Definition ex_fields : list (bytes * bool * Shape) :=
  [(bs "host", true, SStr (Some 1) (Some 255) None (Some (bs "hostname")));
   (bs "port", false, SNullable (SInt (Some 1) (Some 65535)));
   (bs "level", true, SEnum [(bs "lo", bs "Low"); (bs "hi", [])]);
   (bs "auth", true, SNullable (SVariant (bs "kind") [(bs "none", [], []); (bs "token", bs "A token", [(bs "token", true, SStr None None None None)])]))].

Lemma ex_fields_ok : fields_ok ex_fields.
Proof.
  assert (forall l : list bytes, bool_decide (NoDup l) = true -> NoDup l) as Hd by (intros l H; by apply bool_decide_eq_true in H).
  constructor; [by apply Hd|]. repeat apply Forall_cons_2; try apply Forall_nil_2; (split; [reflexivity|]).
  - constructor; cbn; try done; split; discriminate.
  - constructor. constructor; cbn; split; discriminate.
  - constructor. split; [by apply Hd|]. by repeat constructor.
  - constructor. constructor; [done|by apply Hd|]. repeat apply Forall_cons_2; try apply Forall_nil_2; split_and!; try done;
      try (apply (bool_decide_unpack _); vm_compute; exact I); (constructor; [by apply Hd|]); repeat constructor.
Qed.


Lemma finish_exact_witness :
  schema_of [fb_new (bs "a") (kb_float_bounds (Some S754_nan) None); fb_new (bs "a") kb_any] = Err DuplicateKey.
Proof.
  assert (Forall (λ f, is_utf8 (fb_key f) = true) [fb_new (bs "a") (kb_float_bounds (Some S754_nan) None); fb_new (bs "a") kb_any]) as Hu by by repeat constructor.
  pose proof (finish_exact _ Hu) as H. destruct (schema_of _) as [v|e].
  - destruct H as [H _]. exfalso. inversion H as [|? ? Hin _]; subst. apply Hin. left.
  - destruct (decide _) as [Hn|_]; [|by rewrite H]. exfalso. inversion Hn as [|? ? Hin _]; subst. apply Hin. left.
Defined.
