(* ===== verification/Convert.v ===== *)
(** * Rust types as values

    [value/convert.rs] and the files under it: writing a Rust type to a value and
    reading one back, by the type. [ToValue] and [FromValue] are the two traits, whose
    instances are the types the crate gives them to; pointers, [Cow] and [Secret] cross
    as what they hold, and borrow what is here of that. *)

From Stdlib Require Import SpecFloat.
From stdpp Require Import sorting.
From S2P Require Import Prelude Order Decimal Calendar Errors Reader TextForm Span Civil Instants SpanParse Number Value Maps Walk JsonNumber Float64 Build.

#[local] Arguments bs _ : simpl never.

(** ** Kinds *)

(** [Kinds], a set of the stored kinds as the bits of a byte. *)
Record Kinds := MkKinds { kinds_bits : Z }.
#[export] Instance Kinds_eq_dec : EqDecision Kinds.
Proof. solve_decision. Defined.

(** [Kinds::of], each kind's bit at its tag's number; [NONE] and [ANY]. *)
Definition kinds_of (t : Tag) : Kinds :=
  match t with GUATIAO_ABSENT => MkKinds 0 | t => MkKinds (Z.shiftl 1 (tag_code t)) end.
Definition kinds_none : Kinds := MkKinds 0.
Definition kinds_any : Kinds := MkKinds 254.
Definition kinds_union (a b : Kinds) : Kinds := MkKinds (Z.lor (kinds_bits a) (kinds_bits b)).
Definition intersects (a b : Kinds) : bool := negb (Z.land (kinds_bits a) (kinds_bits b) =? 0).
Definition kinds_contains (k : Kinds) (t : Tag) : bool := intersects k (kinds_of t).

(** [Kinds]'s [Display]. *)
Definition STORED : list Tag :=
  [GUATIAO_NULL; GUATIAO_BOOL; GUATIAO_NUMBER; GUATIAO_STRING; GUATIAO_BYTES; GUATIAO_LIST; GUATIAO_MAP].
Definition kind_name (t : Tag) : bytes :=
  match t with
  | GUATIAO_ABSENT => [] | GUATIAO_NULL => bs "null" | GUATIAO_BOOL => bs "a boolean" | GUATIAO_NUMBER => bs "a number"
  | GUATIAO_STRING => bs "a string" | GUATIAO_BYTES => bs "bytes" | GUATIAO_LIST => bs "a list" | GUATIAO_MAP => bs "a map"
  end.
Fixpoint joined (sep : bytes) (l : list bytes) : bytes :=
  match l with [] => [] | [x] => x | x :: l => x ++ sep ++ joined sep l end.
Definition kinds_display (k : Kinds) : bytes :=
  let names := map kind_name (filter (λ t, intersects k (kinds_of t) = true) STORED) in
  match last names with
  | None => bs "nothing"
  | Some name =>
      match removelast names with [] => name | rest => joined (bs ", ") rest ++ bs " or " ++ name end
  end.

Example kinds_display_ex :
  map kinds_display [kinds_none; kinds_of GUATIAO_MAP; kinds_union (kinds_of GUATIAO_LIST) (kinds_union (kinds_of GUATIAO_MAP) (kinds_of GUATIAO_STRING))] =
  [bs "nothing"; bs "a map"; bs "a string, a list or a map"].
Proof. reflexivity. Qed.

(** ** Why a value could not be read *)

(** [MapError], each with the path of the key it is about. *)
Inductive MapError : Type :=
  | MissingKey (key : bytes)
  | WrongType (key : bytes) (expected : Tag) (found : option Tag)
  | BadValue (key : bytes) (expected : bytes)
  | Stopped (key : bytes).

(** Reading, and writing: a refusal, or what the code would panic at. *)
Abbreviation reading A := (result (fault MapError) A) (only parsing).
Abbreviation writing A := (result (fault ValueError) A) (only parsing).

Definition missing (key : bytes) : MapError := MissingKey key.
Definition bad_value (expected : bytes) : MapError := BadValue [] expected.
Definition ok_tag (v : Value) : option Tag := match tag v with Ok t => Some t | Err _ => None end.
Definition wrong_type (expected : Tag) (v : Value) : MapError := WrongType [] expected (ok_tag v).
Definition wrong_kind (expected : Kinds) (found : Tag) : MapError :=
  match List.find (λ t, bool_decide (expected = kinds_of t)) STORED with
  | Some t => WrongType [] t (Some found)
  | None => bad_value (kinds_display expected)
  end.

(** [describe]. *)
Definition describe (t : option Tag) : bytes :=
  match t with
  | None => bs "a kind this build does not know"
  | Some GUATIAO_ABSENT => bs "absent"
  | Some GUATIAO_BYTES => bs "a byte string"
  | Some t => kind_name t
  end.
Definition refused_as (expected : Tag) (v : Value) : MapError :=
  if bool_decide (ok_tag v <> Some expected) then wrong_type expected v
  else bad_value (match expected with
    | GUATIAO_STRING => bs "text that is UTF-8"
    | GUATIAO_NUMBER => bs "a number in the JSON number grammar"
    | GUATIAO_MAP => bs "a map whose keys are text that is UTF-8"
    | _ => describe (Some expected)
    end).

(** [key], [rekey], [under], [at] and [at_key]: an error is placed on the way out. *)
Definition error_key (e : MapError) : bytes :=
  match e with MissingKey k | WrongType k _ _ | BadValue k _ | Stopped k => k end.
Definition rekey (f : bytes -> bytes) (e : MapError) : MapError :=
  match e with
  | MissingKey k => MissingKey (f k)
  | WrongType k expected found => WrongType (f k) expected found
  | BadValue k expected => BadValue (f k) expected
  | Stopped k => Stopped (f k)
  end.
Definition under_key (prefix : bytes) : MapError -> MapError :=
  rekey (λ key, match key with
    | [] => prefix
    | b :: _ => if b =? 91 then prefix ++ key else prefix ++ bs "." ++ key
    end).
Definition bracketed (t : bytes) : MapError -> MapError := rekey (λ key, bs "[" ++ t ++ bs "]" ++ key).
Definition at_index (i : nat) : MapError -> MapError := bracketed (dec (Z.of_nat i)).
Definition at_entry (entry : bytes) : MapError -> MapError := bracketed entry.

(** [map_err] of what a nested read answered; a panic passes. *)
Definition placed_at {A} (f : MapError -> MapError) (m : reading A) : reading A := map_err (fault_map f) m.

Example placed_ex :
  map error_key [under_key (bs "tls") (under_key (bs "verify") (bad_value [])); under_key (bs "tags") (at_index 2 (bad_value []));
    under_key (bs "env") (at_entry (bs "PATH") (missing (bs "x")))] = [bs "tls.verify"; bs "tags[2]"; bs "env[PATH]x"].
Proof. reflexivity. Qed.

(** ** The traits *)

Class ToValue (A : Type) := to_value : A -> writing Value.
Class FromValue (A : Type) := { KINDS : Kinds; from_value : Value -> reading A }.
Arguments KINDS A {_}.

(** What borrows from a value: [&str], [&[u8]], [&List] and [&Map], and a number's text. *)
Definition refuse_as {A} (o : option A) (e : MapError) : reading A := ok_or o (Refuse e).
Definition str_of (v : Value) : reading bytes := refuse_as (as_text v) (refused_as GUATIAO_STRING v).
Definition bytes_of (v : Value) : reading bytes := refuse_as (as_buffer v) (wrong_type GUATIAO_BYTES v).
Definition list_in (v : Value) : reading (list Value) := refuse_as (as_list v) (refused_as GUATIAO_LIST v).
Definition map_in (v : Value) : reading Map := refuse_as (as_map v) (refused_as GUATIAO_MAP v).
Definition number_text (v : Value) : reading bytes := refuse_as (as_number v) (refused_as GUATIAO_NUMBER v).
(** [Map::required]. *)
Definition required (m : Map) (key : bytes) : reading Value := refuse_as (get m key) (missing key).

(** Writing a text, and a number from its text. *)
Definition write_text (t : bytes) : writing Value := Ok (VString t).
Definition write_number (t : bytes) : writing Value := map_err Refuse (number_new t).

(** ** Scalars *)

#[export] Instance bool_to : ToValue bool := λ b, Ok (VBool b).
#[export] Instance bool_from : FromValue bool :=
  {| KINDS := kinds_of GUATIAO_BOOL; from_value v := refuse_as (as_bool v) (wrong_type GUATIAO_BOOL v) |}.

(** The integer types, on a target whose pointers are 64 bits wide. *)
Inductive IntType : Type := I8 | I16 | I32 | I64 | I128 | Isize | U8 | U16 | U32 | U64 | U128 | Usize.
#[export] Instance IntType_eq_dec : EqDecision IntType.
Proof. solve_decision. Defined.
Definition int_bits (w : IntType) : Z :=
  match w with I8 | U8 => 8 | I16 | U16 => 16 | I32 | U32 => 32 | I64 | U64 | Isize | Usize => 64 | I128 | U128 => 128 end.
Definition int_signed (w : IntType) : bool :=
  match w with I8 | I16 | I32 | I64 | I128 | Isize => true | _ => false end.
Definition int_min (w : IntType) : Z := if int_signed w then - 2 ^ (int_bits w - 1) else 0.
Definition int_max (w : IntType) : Z := if int_signed w then 2 ^ (int_bits w - 1) - 1 else 2 ^ int_bits w - 1.
Definition int_name (w : IntType) : bytes :=
  bs (match w with
    | I8 => "i8" | I16 => "i16" | I32 => "i32" | I64 => "i64" | I128 => "i128" | Isize => "isize"
    | U8 => "u8" | U16 => "u16" | U32 => "u32" | U64 => "u64" | U128 => "u128" | Usize => "usize"
    end).

(** An integer of a type, and [to_string] and [str::parse] of it. *)
Record int (w : IntType) := MkInt { int_val : Z }.
Arguments MkInt {w} int_val.
Arguments int_val {w} _.
#[export] Instance int_eq_dec w : EqDecision (int w).
Proof. solve_decision. Defined.
#[export] Instance int_countable w : Countable (int w).
Proof. apply (inj_countable' int_val MkInt). by intros []. Defined.
Definition int_text {w} (n : int w) : bytes := signed_dec (int_val n).
Definition int_parse (w : IntType) (t : bytes) : option (int w) := MkInt <$> parse_int (int_min w) (int_max w) t.

(** [integer_to_value] and [integer_from_value]. *)
#[export] Instance int_to w : ToValue (int w) := λ n, write_number (int_text n).
Definition integer_from_value (w : IntType) (v : Value) : reading (int w) :=
  text ← number_text v;
  if existsb (λ b, (b =? 46) || is_exp_mark b) text
  then Err (Refuse (bad_value (bs "an integer written plainly -- a fractional or exponent spelling is refused rather than rounded into a " ++ int_name w)))
  else refuse_as (int_parse w text) (bad_value (bs "an integer a " ++ int_name w ++ bs " can hold")).
#[export] Instance int_from w : FromValue (int w) := {| KINDS := kinds_of GUATIAO_NUMBER; from_value := integer_from_value w |}.

(** [NonZero*]: [non_zero]. *)
Record NonZero (w : IntType) := MkNonZero { nz_get : int w }.
Arguments MkNonZero {w} nz_get.
Arguments nz_get {w} _.
#[export] Instance nonzero_to w : ToValue (NonZero w) := λ n, to_value (nz_get n).
#[export] Instance nonzero_from w : FromValue (NonZero w) :=
  {| KINDS := kinds_of GUATIAO_NUMBER;
     from_value v :=
       n ← from_value v;
       if int_val n =? 0 then Err (Refuse (bad_value (bs "an integer other than 0"))) else Ok (MkNonZero (w := w) n) |}.

(** [f64]. *)
#[export] Instance f64_to : ToValue spec_float := λ x, map_err Refuse (number_float x).
#[export] Instance f64_from : FromValue spec_float :=
  {| KINDS := kinds_of GUATIAO_NUMBER;
     from_value v :=
       text ← number_text v;
       refuse_as (x ← parse_f64 text; if is_finite x then Some x else None) (bad_value (bs "a number with a finite f64 value")) |}.

(** [String], [Bytes] and [PathBuf]. A path is bytes, and crosses when it is text. *)
Record String_ := MkString { str_bytes : bytes }.
Record Bytes := MkBytes { bytes_bytes : bytes }.
Record PathBuf := MkPathBuf { path_bytes : bytes }.
#[export] Instance String_eq_dec : EqDecision String_.
Proof. solve_decision. Defined.
#[export] Instance String_countable : Countable String_.
Proof. apply (inj_countable' str_bytes MkString). by intros []. Defined.
#[export] Instance PathBuf_eq_dec : EqDecision PathBuf.
Proof. solve_decision. Defined.
#[export] Instance PathBuf_countable : Countable PathBuf.
Proof. apply (inj_countable' path_bytes MkPathBuf). by intros []. Defined.

#[export] Instance string_to : ToValue String_ := λ s, write_text (str_bytes s).
#[export] Instance string_from : FromValue String_ :=
  {| KINDS := kinds_of GUATIAO_STRING; from_value v := t ← str_of v; Ok (MkString t) |}.
#[export] Instance bytes_to : ToValue Bytes := λ b, Ok (VBytes (bytes_bytes b)).
#[export] Instance bytes_from : FromValue Bytes :=
  {| KINDS := kinds_of GUATIAO_BYTES; from_value v := b ← bytes_of v; Ok (MkBytes b) |}.
#[export] Instance path_to : ToValue PathBuf := λ p,
  if is_utf8 (path_bytes p) then write_text (path_bytes p) else Err (Refuse NotUtf8).
#[export] Instance path_from : FromValue PathBuf :=
  {| KINDS := kinds_of GUATIAO_STRING; from_value v := t ← str_of v; Ok (MkPathBuf t) |}.

(** [char], a scalar value; [chars().next()] of text, with what is after it. *)
Record char := MkChar { code : Z }.
#[export] Instance char_eq_dec : EqDecision char.
Proof. solve_decision. Defined.
#[export] Instance char_countable : Countable char.
Proof. apply (inj_countable' code MkChar). by intros []. Defined.
Definition next_char (l : bytes) : option (char * bytes) :=
  match l with
  | [] => None
  | a :: l =>
      if a <? 128 then Some (MkChar a, l)
      else match l with
        | b :: l =>
            if a <? 224 then Some (MkChar (Z.lor (Z.shiftl (Z.land a 31) 6) (Z.land b 63)), l)
            else match l with
              | c :: l =>
                  let y_z := Z.lor (Z.shiftl (Z.land b 63) 6) (Z.land c 63) in
                  if a <? 240 then Some (MkChar (Z.lor (Z.shiftl (Z.land a 31) 12) y_z), l)
                  else match l with
                    | d :: l => Some (MkChar (Z.lor (Z.shiftl (Z.land a 7) 18) (Z.lor (Z.shiftl y_z 6) (Z.land d 63))), l)
                    | [] => None
                    end
              | [] => None
              end
        | [] => None
        end
  end.
(** [(chars.next(), chars.next())] of text one character long. *)
Definition one_char (t : bytes) : option char :=
  match next_char t with Some (c, []) => Some c | _ => None end.
#[export] Instance char_to : ToValue char := λ c, write_text (char_utf8 (code c)).
#[export] Instance char_from : FromValue char :=
  {| KINDS := kinds_of GUATIAO_STRING;
     from_value v := t ← str_of v; refuse_as (one_char t) (bad_value (bs "text of exactly one character")) |}.

Example one_char_ex : map one_char [bs "a"; [195; 169]; [226; 130; 172]; [240; 159; 152; 128]; bs "ab"; []] =
  [Some (MkChar 97); Some (MkChar 233); Some (MkChar 8364); Some (MkChar 128512); None; None].
Proof. reflexivity. Qed.

(** The unit. *)
#[export] Instance unit_to : ToValue unit := λ _, Ok VNull.
#[export] Instance unit_from : FromValue unit :=
  {| KINDS := kinds_of GUATIAO_NULL;
     from_value v := if bool_decide (tag v = Ok GUATIAO_NULL) then Ok tt else Err (Refuse (wrong_type GUATIAO_NULL v)) |}.

(** ** Types with a text form

    [convert/calendar.rs], and [Span] of [convert/durations.rs]: the text the type
    shows, and what a refusal says of text it does not read. *)

Definition unparsed (what : bytes) (e : ValueError) : MapError :=
  match e with
  | Unparsed at_ expected => bad_value (what ++ bs ": " ++ bs expected ++ bs " at byte " ++ dec (Z.of_nat at_))
  | _ => bad_value what
  end.
Class Spoken (A : Type) := what_is : bytes.
#[export] Instance Date_spoken : Spoken Date := bs "an RFC 3339 full-date".
#[export] Instance Time_spoken : Spoken Time := bs "a time of day, HH:MM:SS".
#[export] Instance DateTime_spoken : Spoken DateTime := bs "a date and time with no offset".
#[export] Instance Timestamp_spoken : Spoken Timestamp := bs "an RFC 3339 date-time".
#[export] Instance Span_spoken : Spoken Span := bs "an ISO 8601 duration or a span such as 1h 30m".

#[export] Instance text_form_to `{TextForm A, Spoken A} : ToValue A := λ a, write_text (to_text a).
#[export] Instance text_form_from `{TextForm A, Spoken A} : FromValue A :=
  {| KINDS := kinds_of GUATIAO_STRING;
     from_value v := t ← str_of v; map_err (λ e, Refuse (unparsed what_is e)) (of_text t) |}.

(** ** Values, and the crate's own containers *)

(** [copied]: a copy that failed is content this build refuses. *)
Definition copied_as {A} (m : result (fault ValueError) A) : reading A :=
  map_err (fault_map (λ _, bad_value (bs "a value this build can read"))) m.

#[export] Instance value_to : ToValue Value := copy_value.
#[export] Instance value_from : FromValue Value := {| KINDS := kinds_any; from_value v := copied_as (copy_value v) |}.

(** [own_container]. *)
Record OwnMap := MkOwnMap { own_map : list (bytes * Value) }.
Record OwnList := MkOwnList { own_list : list Value }.
Record OwnText := MkOwnText { own_text : bytes }.
Record OwnNumber := MkOwnNumber { own_number : bytes }.
Record OwnBuffer := MkOwnBuffer { own_buffer : bytes }.
#[export] Instance own_map_to : ToValue OwnMap := λ m, VMap <$> copy_map (own_map m).
#[export] Instance own_map_from : FromValue OwnMap :=
  {| KINDS := kinds_of GUATIAO_MAP; from_value v := m ← map_in v; MkOwnMap <$> copied_as (copy_map m) |}.
#[export] Instance own_list_to : ToValue OwnList := λ l, VList <$> copy_list (own_list l).
#[export] Instance own_list_from : FromValue OwnList :=
  {| KINDS := kinds_of GUATIAO_LIST; from_value v := l ← list_in v; MkOwnList <$> copied_as (copy_list l) |}.
#[export] Instance own_text_to : ToValue OwnText := λ t, write_text (own_text t).
#[export] Instance own_text_from : FromValue OwnText :=
  {| KINDS := kinds_of GUATIAO_STRING; from_value v := t ← str_of v; Ok (MkOwnText t) |}.
#[export] Instance own_number_to : ToValue OwnNumber := λ n, Ok (VNumber (own_number n)).
#[export] Instance own_number_from : FromValue OwnNumber :=
  {| KINDS := kinds_of GUATIAO_NUMBER; from_value v := t ← number_text v; Ok (MkOwnNumber t) |}.
#[export] Instance own_buffer_to : ToValue OwnBuffer := λ b, Ok (VBytes (own_buffer b)).
#[export] Instance own_buffer_from : FromValue OwnBuffer :=
  {| KINDS := kinds_of GUATIAO_BYTES;
     from_value v := MkOwnBuffer <$> refuse_as (as_buffer v) (refused_as GUATIAO_BYTES v) |}.

(** ** Options and sequences *)

#[export] Instance option_to `{ToValue A} : ToValue (option A) := λ o,
  match o with Some a => to_value a | None => Ok VNull end.
#[export] Instance option_from `{FromValue A} : FromValue (option A) :=
  {| KINDS := kinds_union (KINDS A) (kinds_of GUATIAO_NULL);
     from_value v := if bool_decide (tag v = Ok GUATIAO_NULL) then Ok None else a ← from_value v; Ok (Some a) |}.

(** [list_of], and the loop of [[T]]'s [to_value_in], which is the same: each item written
    and pushed. *)
Fixpoint items_to `{ToValue A} (out : list Value) (l : list A) : writing (list Value) :=
  match l with [] => Ok out | a :: l => v ← to_value a; items_to (out ++ [v]) l end.
Definition list_of `{ToValue A} (l : list A) : writing Value := VList <$> items_to [] l.

(** The loop of [Vec]'s [from_value]. *)
Fixpoint vec_items `{FromValue A} (i : nat) (out : list A) (l : list Value) : reading (list A) :=
  match l with
  | [] => Ok out
  | v :: l => a ← placed_at (at_index i) (from_value v); vec_items (S i) (out ++ [a]) l
  end.
#[export] Instance vec_to `{ToValue A} : ToValue (list A) := list_of.
#[export] Instance vec_from `{FromValue A} : FromValue (list A) :=
  {| KINDS := kinds_of GUATIAO_LIST; from_value v := l ← list_in v; vec_items 0 [] l |}.

(** [read_each]: [keep] is the closure over what has been kept, and says whether the
    element is one it had not. *)
Fixpoint each_item `{FromValue A} {St} (keep : A -> St -> bool * St) (i : nat) (l : list Value) (s : St) : reading St :=
  match l with
  | [] => Ok s
  | v :: l =>
      a ← placed_at (at_index i) (from_value v);
      let '(new, s) := keep a s in
      if new then each_item keep (S i) l s
      else Err (Refuse (at_index i (bad_value (bs "an element equal to no earlier one"))))
  end.
Definition read_each `{FromValue A} {St} (v : Value) (keep : A -> St -> bool * St) (s : St) : reading St :=
  l ← list_in v; each_item keep 0 l s.
Definition push_back {A} (a : A) (s : list A) : bool * list A := (true, s ++ [a]).
Definition set_insert `{Countable A} (a : A) (s : gset A) : bool * gset A := (bool_decide (a ∉ s), {[a]} ∪ s).

(** [VecDeque]. *)
Record VecDeque (A : Type) := MkVecDeque { deque_items : list A }.
Arguments MkVecDeque {A} deque_items.
Arguments deque_items {A} _.
#[export] Instance deque_to `{ToValue A} : ToValue (VecDeque A) := λ d, list_of (deque_items d).
#[export] Instance deque_from `{FromValue A} : FromValue (VecDeque A) :=
  {| KINDS := kinds_of GUATIAO_LIST; from_value v := MkVecDeque <$> read_each v push_back [] |}.

(** [BTreeSet], whose order is the type's, and [HashSet], whose order is whatever its
    hasher makes of it: [Iterates] lists what a set holds, each once. *)
Class Ordered (A : Type) := {
  ord_le : A -> A -> Prop;
  ord_dec : RelDecision ord_le;
  ord_trans : Transitive ord_le;
  ord_total : Total ord_le;
  ord_antisymm : AntiSymm (=) ord_le;
}.
#[export] Existing Instances ord_dec ord_trans ord_total ord_antisymm.
Definition in_order_of `{Ordered A, Countable A} (s : gset A) : list A := merge_sort ord_le (elements s).

#[export] Instance set_to `{ToValue A, Ordered A, Countable A} : ToValue (gset A) := λ s, list_of (in_order_of s).
#[export] Instance set_from `{FromValue A, Countable A} : FromValue (gset A) :=
  {| KINDS := kinds_of GUATIAO_LIST; from_value v := read_each v set_insert ∅ |}.
(** [HashSet]'s [to_value_in], iterating in the order [items]. *)
Definition hash_set_to `{ToValue A} (items : list A) : writing Value := list_of items.

(** [[T; N]]: the [expect] is a panic. *)
Record Array (n : nat) (A : Type) := MkArray { array_items : list A }.
Arguments MkArray {n A} array_items.
Arguments array_items {n A} _.
Definition exactly (n : nat) : MapError := bad_value (bs "a list of exactly " ++ dec (Z.of_nat n) ++ bs " items").
#[export] Instance array_to n `{ToValue A} : ToValue (Array n A) := λ a, list_of (array_items a).
Definition array_from_value (n : nat) `{FromValue A} (v : Value) : reading (Array n A) :=
  l ← list_in v;
  if negb (bool_decide (length l = n)) then Err (Refuse (exactly n))
  else
    out ← read_each v push_back [];
    if bool_decide (length out = n) then Ok (MkArray out) else Err Panic.
#[export] Instance array_from n `{FromValue A} : FromValue (Array n A) :=
  {| KINDS := kinds_of GUATIAO_LIST; from_value := array_from_value n |}.

(** [tuple]: positions, one after another; an index past the list is a panic. *)
Class Positions (P : Type) := {
  positions : nat;
  write_positions : list Value -> P -> writing (list Value);
  read_positions : list Value -> nat -> reading P;
}.
Arguments positions P {_}.
#[export] Instance no_positions : Positions unit :=
  {| positions := 0; write_positions out _ := Ok out; read_positions _ _ := Ok tt |}.
#[export] Instance one_position `{ToValue A, FromValue A, Positions P} : Positions (A * P) :=
  {| positions := S (positions P);
     write_positions out p := v ← to_value p.1; write_positions (out ++ [v]) p.2;
     read_positions l i :=
       match l !! i with
       | Some v => a ← placed_at (at_index i) (from_value v); p ← read_positions l (S i); Ok (a, p)
       | None => Err Panic
       end |}.
Record Tuple (P : Type) := MkTuple { tuple_items : P }.
Arguments MkTuple {P} tuple_items.
Arguments tuple_items {P} _.
#[export] Instance tuple_to `{Positions P} : ToValue (Tuple P) := λ t, VList <$> write_positions [] (tuple_items t).
#[export] Instance tuple_from `{Positions P} : FromValue (Tuple P) :=
  {| KINDS := kinds_of GUATIAO_LIST;
     from_value v :=
       l ← list_in v;
       if negb (bool_decide (length l = positions P)) then Err (Refuse (exactly (positions P)))
       else MkTuple <$> read_positions l 0 |}.

(** ** Maps whose keys are data *)

(** [MapKey]. *)
Class MapKey (K : Type) := {
  to_key : K -> result ValueError bytes;
  from_key : bytes -> result MapError K;
}.
#[export] Instance string_key : MapKey String_ := {| to_key s := Ok (str_bytes s); from_key t := Ok (MkString t) |}.
#[export] Instance path_key : MapKey PathBuf :=
  {| to_key p := if is_utf8 (path_bytes p) then Ok (path_bytes p) else Err NotUtf8; from_key t := Ok (MkPathBuf t) |}.

Definition is_integer_key (key : bytes) : bool :=
  let ds := default key (strip_byte 45 key) in
  negb (bool_decide (ds = [])) && forallb is_digit ds &&
    (bool_decide (ds = bs "0") || negb (bool_decide (head ds = Some 48))).
#[export] Instance int_key w : MapKey (int w) :=
  {| to_key n := Ok (int_text n);
     from_key t :=
       ok_or (if is_integer_key t then int_parse w t else None)
         (bad_value (bs "a key that is an integer a " ++ int_name w ++ bs " can hold")) |}.
#[export] Instance char_key : MapKey char :=
  {| to_key c := Ok (char_utf8 (code c)); from_key t := ok_or (one_char t) (bad_value (bs "a key of exactly one character")) |}.
#[export] Instance bool_key : MapKey bool :=
  {| to_key (b : bool) := Ok (bs (if b then "true" else "false"));
     from_key t :=
       if bool_decide (t = bs "true") then Ok true
       else if bool_decide (t = bs "false") then Ok false
       else Err (bad_value (bs "a key that is true or false")) |}.
#[export] Instance text_form_key `{TextForm K, Spoken K} : MapKey K :=
  {| to_key k := Ok (to_text k); from_key t := map_err (unparsed (bs "a key that is " ++ what_is)) (of_text t) |}.

(** [entries_to_value]. What [Filling] makes of a run of [set_in] is what [set_] does
    ([map_fill_refines]). *)
Fixpoint entries_to `{MapKey K, ToValue V} (out : list (bytes * Value)) (l : list (K * V)) : writing (list (bytes * Value)) :=
  match l with
  | [] => Ok out
  | e :: l => k ← map_err Refuse (to_key e.1); v ← to_value e.2; entries_to (set_ out k v) l
  end.
Definition entries_to_value `{MapKey K, ToValue V} (l : list (K * V)) : writing Value := VMap <$> entries_to [] l.

(** [entries_from_value], over what [insert] keeps. *)
Fixpoint entries_from `{MapKey K, FromValue V} {St} (insert : K -> V -> St -> bool * St) (m : list (bytes * Value)) (s : St) : reading St :=
  match m with
  | [] => Ok s
  | e :: m =>
      key ← map_err (λ x, Refuse (at_entry e.1 x)) (from_key e.1);
      read ← placed_at (at_entry e.1) (from_value e.2);
      let '(new, s) := insert key read s in
      if new then entries_from insert m s
      else Err (Refuse (at_entry e.1 (bad_value (bs "a key naming no entry an earlier key named"))))
  end.
Definition entries_from_value `{MapKey K, FromValue V} {St} (v : Value) (insert : K -> V -> St -> bool * St) (s : St) : reading St :=
  m ← map_in v; entries_from insert m s.
Definition map_insert_new `{Countable K} {V} (k : K) (v : V) (s : gmap K V) : bool * gmap K V :=
  (bool_decide (s !! k = None), <[k := v]> s).

(** [BTreeMap], and [HashMap] iterating in the order [entries]. *)
Definition key_le `{Ordered K} {V} (a b : K * V) : Prop := ord_le a.1 b.1.
#[export] Instance key_le_dec `{Ordered K} {V} : RelDecision (key_le (K := K) (V := V)) := λ a b, ord_dec a.1 b.1.
Definition entries_in_order `{Ordered K, Countable K} {V} (m : gmap K V) : list (K * V) := merge_sort key_le (map_to_list m).
#[export] Instance map_to `{MapKey K, Ordered K, Countable K, ToValue V} : ToValue (gmap K V) := λ m, entries_to_value (entries_in_order m).
#[export] Instance map_from `{MapKey K, Countable K, FromValue V} : FromValue (gmap K V) :=
  {| KINDS := kinds_of GUATIAO_MAP; from_value v := entries_from_value v map_insert_new ∅ |}.
Definition hash_map_to `{MapKey K, ToValue V} (entries : list (K * V)) : writing Value := entries_to_value entries.

(** What orders the types a set or a map is keyed by. *)
#[export] Program Instance int_ordered w : Ordered (int w) := {| ord_le a b := int_val a <= int_val b |}.
Next Obligation. intros w a b. apply _. Defined.
Next Obligation. intros w a b c. simpl. lia. Qed.
Next Obligation. intros w a b. simpl. lia. Qed.
Next Obligation. intros w [a] [b]. simpl. intros. f_equal. lia. Qed.
#[export] Program Instance char_ordered : Ordered char := {| ord_le a b := code a <= code b |}.
Next Obligation. intros a b. apply _. Defined.
Next Obligation. intros a b c. simpl. lia. Qed.
Next Obligation. intros a b. simpl. lia. Qed.
Next Obligation. intros [a] [b]. simpl. intros. f_equal. lia. Qed.
#[export] Program Instance string_ordered : Ordered String_ := {| ord_le a b := text_order (str_bytes a) (str_bytes b) |}.
Next Obligation. intros a b. apply _. Defined.
Next Obligation. intros a b c. simpl. apply transitivity. Qed.
Next Obligation. intros a b. simpl. apply total. apply _. Qed.
Next Obligation. intros [a] [b]. simpl. intros H H'. f_equal. by apply (anti_symm text_order). Qed.
#[export] Program Instance bool_ordered : Ordered bool := {| ord_le a b := a = false \/ b = true |}.
Next Obligation. intros a b. apply _. Defined.
Next Obligation. intros [] [] []; naive_solver. Qed.
Next Obligation. intros [] []; naive_solver. Qed.
Next Obligation. intros [] []; naive_solver. Qed.

(** ** Durations *)

Definition checked_i64 (n : Z) : option Z := if (i64_min <=? n) && (n <=? i64_max) then Some n else None.
Definition u128_max : Z := 2 ^ 128 - 1.
Definition checked_u128 (n : Z) : option Z := if n <=? u128_max then Some n else None.
(** [for _ in 0..n { nanos = nanos.checked_mul(10)?; }]. Of something, thirty-nine rounds
    are more than a [u128] holds ([tens_past]), so no more are run. *)
Fixpoint tens (n : nat) (nanos : Z) : option Z :=
  match n with O => Some nanos | S n => nanos ← checked_u128 (nanos * 10); tens n nanos end.

(** [seconds_of]. *)
Definition seconds_of (text : bytes) : option (Z * Z) :=
  let '(negative, rest) := match strip_byte 45 text with Some rest => (true, rest) | None => (false, text) end in
  '(mantissa, exponent) ←
    match split_first is_exp_mark rest with
    | Some (mantissa, e) => parse_int i64_min i64_max e ≫= λ e, Some (mantissa, e)
    | None => Some (rest, 0)
    end;
  let '(whole, fraction) := match split_first (λ b, b =? 46) mantissa with Some (w, f) => (w, f) | None => (mantissa, []) end in
  let ds := whole ++ fraction in
  let ds := drop (leading_zeros ds) ds in
  let trimmed := pop_zeros ds in
  if bool_decide (trimmed = []) then Some (0, 0)
  else if (negative : bool) then None
  else
    shift ← checked_i64 (exponent - Z.of_nat (length fraction));
    shift ← checked_i64 (shift + 9);
    shift ← checked_i64 (shift + Z.of_nat (length ds - length trimmed));
    if shift <? 0 then None
    else
      nanos ← parse_int 0 u128_max trimmed;
      nanos ← tens (Z.to_nat (Z.min shift 39)) nanos;
      let secs := nanos / 1000000000 in
      if secs <=? u64_max then Some (secs, nanos mod 1000000000) else None.

Example seconds_ex : map seconds_of [bs "1.5"; bs "2e-3"; bs "-0.0"; bs "-1"; bs "1e-10"; bs "0.10e1"; bs "18446744073709551615.999999999"; bs "18446744073709551616"] =
  [Some (1, 500000000); Some (0, 2000000); Some (0, 0); None; None; Some (1, 0); Some (u64_max, 999999999); None].
Proof. vm_compute. reflexivity. Qed.

Definition DURATION : bytes := bs "a duration: [seconds, nanoseconds], a non-negative number of seconds no finer than a nanosecond, or {" ++
  [34] ++ bs "secs" ++ [34] ++ bs ", " ++ [34] ++ bs "nanos" ++ [34] ++ bs "}".
Definition u64_of (v : Value) : reading Z := int_val <$> integer_from_value U64 v.
Definition u32_of (v : Value) : reading Z := int_val <$> integer_from_value U32 v.
Definition duration_from_value (v : Value) : reading Duration :=
  let refused : fault MapError := Refuse (bad_value DURATION) in
  '(secs, nanos) ←
    match tag v with
    | Ok GUATIAO_LIST =>
        l ← list_in v;
        match l with
        | [secs; nanos] =>
            secs ← placed_at (at_index 0) (u64_of secs);
            nanos ← placed_at (at_index 1) (u32_of nanos);
            Ok (secs, nanos)
        | _ => Err refused
        end
    | Ok GUATIAO_MAP =>
        m ← map_in v;
        secs ← required m (bs "secs");
        secs ← placed_at (under_key (bs "secs")) (u64_of secs);
        nanos ← required m (bs "nanos");
        nanos ← placed_at (under_key (bs "nanos")) (u32_of nanos);
        Ok (secs, nanos)
    | Ok GUATIAO_NUMBER => t ← ok_or (as_number v) refused; ok_or (seconds_of t) refused
    | _ => Err refused
    end;
  if 1000000000 <=? nanos then Err (Refuse (at_index 1 (bad_value (bs "nanoseconds below 1000000000"))))
  else Ok (MkDuration secs nanos).
#[export] Instance duration_to : ToValue Duration := λ d,
  secs ← to_value (MkInt (w := U64) (as_secs d));
  nanos ← to_value (MkInt (w := U32) (subsec_nanos d));
  Ok (VList [secs; nanos]).
#[export] Instance duration_from : FromValue Duration :=
  {| KINDS := kinds_union (kinds_union (kinds_of GUATIAO_NUMBER) (kinds_of GUATIAO_LIST)) (kinds_of GUATIAO_MAP);
     from_value := duration_from_value |}.

Example duration_ex :
  map from_value [VNumber (bs "1.5"); VList [VNumber (bs "1"); VNumber (bs "5")]; VMap [(bs "nanos", VNumber (bs "7")); (bs "secs", VNumber (bs "2"))];
    VMap [(bs "secs", VNumber (bs "2"))]] =
  [Ok (MkDuration 1 500000000); Ok (MkDuration 1 5); Ok (MkDuration 2 7); Err (Refuse (MissingKey (bs "nanos")))].
Proof. vm_compute. reflexivity. Qed.
Example nested_ex :
  from_value (A := gmap String_ (list (int U8))) (VMap [(bs "a", VList [VNumber (bs "1"); VNumber (bs "300")])]) =
  Err (Refuse (BadValue (bs "[a][1]") (bs "an integer a u8 can hold"))).
Proof. vm_compute. reflexivity. Qed.
