(* ===== verification/ConvertLaws.v ===== *)
(** * A type crosses and comes back

    What every conversion of [Convert] promises: a value of the type is written, and
    what was written is read back as it was; nothing off the type's invariant is read;
    and only the kinds the type says are. The laws of a container follow from those of
    what it holds. *)

From Stdlib Require Import SpecFloat.
From stdpp Require Import sorting.
From S2P Require Import Prelude Order Decimal Calendar Errors Reader TextForm Span Civil Instants SpanParse Number Value Maps Encode Walk JsonNumber Float64 KindDescription KindLaws Build BuildLaws Convert.

#[local] Arguments bs _ : simpl never.

(** ** The laws *)

(** A value of one of the kinds. ABSENT is no stored kind, and is in no set of them. *)
Definition of_kinds (k : Kinds) (v : Value) : Prop :=
  v = VAbsent \/ exists t, tag v = Ok t /\ kinds_contains k t = true.

Class Crosses (A : Type) `{ToValue A, FromValue A} := {
  holds : A -> Prop;
  crosses a : holds a -> exists v, to_value a = Ok v /\ from_value v = Ok a;
  writes_kind a v : to_value a = Ok v -> of_kinds (KINDS A) v;
  reads_kind v (a : A) : from_value v = Ok a -> of_kinds (KINDS A) v;
  reads_held v a : from_value v = Ok a -> holds a;
  reads_calm v : from_value (A := A) v <> Err Panic;
}.
Arguments holds {A _ _ _} a.

(** A key, as text. *)
Class KeyCrosses (K : Type) `{MapKey K} := {
  key_holds : K -> Prop;
  key_crosses k : key_holds k -> exists t, to_key k = Ok t /\ is_utf8 t = true /\ from_key t = Ok k;
  key_reads t k : is_utf8 t = true -> from_key t = Ok k -> key_holds k;
}.
Arguments key_holds {K _ _} k.

(** ** Reading what borrows *)

Lemma refuse_as_Ok {A} (o : option A) e a : refuse_as o e = Ok a <-> o = Some a.
Proof. unfold refuse_as. by rewrite ok_or_Ok. Qed.
Lemma refuse_as_calm {A} (o : option A) e : refuse_as o e <> Err Panic.
Proof. by destruct o. Qed.
Lemma placed_at_Ok {A} f (m : reading A) a : placed_at f m = Ok a <-> m = Ok a.
Proof. apply map_err_Ok. Qed.
Lemma placed_at_calm {A} f (m : reading A) : m <> Err Panic -> placed_at f m <> Err Panic.
Proof. by destruct m as [|[]]. Qed.
Lemma bind_calm {A B} (m : reading A) (f : A -> reading B) : m <> Err Panic -> (forall a, m = Ok a -> f a <> Err Panic) -> (m ≫= f) <> Err Panic.
Proof. intros Hm Hf. destruct m as [a|e]; cbn; [by apply Hf|congruence]. Qed.
Lemma fmap_calm {A B} (f : A -> B) (m : reading A) : m <> Err Panic -> (f <$> m) <> Err Panic.
Proof. destruct m; cbn; congruence. Qed.
Lemma fmap_Ok {E A B} (f : A -> B) (m : result E A) b : (f <$> m) = Ok b <-> exists a, m = Ok a /\ b = f a.
Proof. destruct m; cbn; naive_solver. Qed.

Lemma contains_self t : t <> GUATIAO_ABSENT -> kinds_contains (kinds_of t) t = true.
Proof. by destruct t. Qed.
Lemma kinds_contains_union a b t : kinds_contains (kinds_union a b) t = kinds_contains a t || kinds_contains b t.
Proof.
  unfold kinds_contains, intersects, kinds_union. cbn. rewrite Z.land_lor_distr_l, <- negb_andb. f_equal.
  apply eq_true_iff_eq. by rewrite andb_true_iff, !Z.eqb_eq, Z.lor_eq_0_iff.
Qed.

Lemma str_of_Ok v t : str_of v = Ok t <-> v = VString t /\ is_utf8 t = true.
Proof. unfold str_of. rewrite refuse_as_Ok. destruct v; cbn; try naive_solver. destruct (is_utf8 text) eqn:E; (split; [by intros [= <-]|intros [[= <-] ?]; congruence]). Qed.
Lemma bytes_of_Ok v b : bytes_of v = Ok b <-> v = VBytes b.
Proof. unfold bytes_of. rewrite refuse_as_Ok. destruct v; cbn; naive_solver. Qed.
Lemma list_in_Ok v l : list_in v = Ok l <-> v = VList l.
Proof. unfold list_in. rewrite refuse_as_Ok. destruct v; cbn; naive_solver. Qed.
Lemma map_in_Ok v m : map_in v = Ok m <-> v = VMap m /\ keys_are_text m = true.
Proof. unfold map_in. rewrite refuse_as_Ok. destruct v; cbn; try naive_solver. destruct (keys_are_text entries) eqn:E; (split; [by intros [= <-]|intros [[= <-] ?]; congruence]). Qed.
Lemma number_text_Ok v t : number_text v = Ok t <-> v = VNumber t /\ is_number t = true.
Proof. unfold number_text. rewrite refuse_as_Ok. destruct v; cbn; try naive_solver. destruct (is_number text) eqn:E; (split; [by intros [= <-]|intros [[= <-] ?]; congruence]). Qed.

Lemma of_kind v t : tag v = Ok t -> t <> GUATIAO_ABSENT -> of_kinds (kinds_of t) v.
Proof. intros Ht Hn. right. exists t. split; [done|]. by apply contains_self. Qed.

(** The laws of a conversion that takes one arm of the value: what is written is that
    arm, and what is read is what is under it. *)
Ltac one_kind := intros; match goal with |- of_kinds _ ?v => eapply of_kind; [reflexivity|done] end.

(** ** Scalars *)

#[export] Program Instance bool_crosses : Crosses bool := {| holds _ := True |}.
Next Obligation. intros b _. by eexists. Qed.
Next Obligation. intros b v [= <-]. one_kind. Qed.
Next Obligation. intros v b. destruct v; try done. one_kind. Qed.
Next Obligation. done. Qed.
Next Obligation. intros v. apply refuse_as_calm. Qed.

Definition int_holds {w} (n : int w) : Prop := int_min w <= int_val n <= int_max w.

Lemma signed_plain n : existsb (λ b, (b =? 46) || is_exp_mark b) (signed_dec n) = false.
Proof.
  apply not_true_is_false. intros (b & Hin & Hb)%existsb_exists. rewrite <- list_elem_of_In in Hin.
  assert (forall k, 0 <= k -> b ∈ dec k -> 48 <= b <= 57) as Hd.
  { intros k Hk Hin'. pose proof (dec_digits k Hk) as Hd. unfold digits in Hd. rewrite Forall_forall in Hd. by apply Hd, is_digit_spec in Hin'. }
  unfold is_exp_mark in Hb. unfold signed_dec in Hin. destruct (Z.ltb_spec n 0).
  - apply elem_of_cons in Hin as [->|Hin]; [done|]. apply Hd in Hin; lia.
  - apply Hd in Hin; lia.
Qed.

Lemma int_parse_text {w} (n : int w) : int_holds n -> int_parse w (int_text n) = Some n.
Proof.
  destruct n as [n]. unfold int_holds, int_parse, int_text. cbn [int_val]. intros H. destruct (Z.ltb_spec n 0) as [Hn|Hn].
  - rewrite parse_signed by (destruct w; unfold int_min, int_max in *; cbn in *; lia). done.
  - unfold signed_dec. destruct (Z.ltb_spec n 0); [lia|]. by rewrite parse_digits.
Qed.
Lemma parse_int_bounds lo hi t n : parse_int lo hi t = Some n -> lo <= n <= hi.
Proof. unfold parse_int. destruct (match t with [] => _ | _ => _ end) as [s ds]. destruct (_ && _); [|done]. destruct (_ && _) eqn:E; [|done]. intros [= <-]. lia. Qed.
Lemma int_parse_holds w t (n : int w) : int_parse w t = Some n -> int_holds n.
Proof. unfold int_parse. intros (k & H & ->)%fmap_Some. by apply parse_int_bounds in H. Qed.

Lemma write_int {w} (n : int w) : to_value n = Ok (VNumber (int_text n)).
Proof. unfold to_value, int_to, write_number, int_text. by rewrite number_signed. Qed.
Lemma read_int {w} (n : int w) : int_holds n -> integer_from_value w (VNumber (int_text n)) = Ok n.
Proof.
  intros H. unfold integer_from_value, number_text. cbn [as_number]. unfold int_text at 1. rewrite (proj2 (is_number_spec _) (signed_number _)).
  cbn [refuse_as ok_or mbind result_bind]. unfold int_text at 1. rewrite signed_plain. rewrite int_parse_text by done. done.
Qed.
Lemma read_int_Ok w v (n : int w) : integer_from_value w v = Ok n -> int_holds n /\ exists t, v = VNumber t.
Proof.
  unfold integer_from_value. intros (t & [-> Hn]%number_text_Ok & H)%bind_Ok. destruct (existsb _ _); [done|].
  apply refuse_as_Ok, int_parse_holds in H. eauto.
Qed.
Lemma read_int_calm w v : integer_from_value w v <> Err Panic.
Proof. unfold integer_from_value. apply bind_calm; [apply refuse_as_calm|]. intros t _. destruct (existsb _ _); [done|]. apply refuse_as_calm. Qed.

#[export] Program Instance int_crosses w : Crosses (int w) := {| holds := int_holds |}.
Next Obligation. intros w n H. rewrite write_int. eexists. split; [done|]. by apply read_int. Qed.
Next Obligation. intros w n v. rewrite write_int. intros [= <-]. one_kind. Qed.
Next Obligation. intros w v n (_ & t & ->)%read_int_Ok. one_kind. Qed.
Next Obligation. by intros w v n [H _]%read_int_Ok. Qed.
Next Obligation. intros w v. apply read_int_calm. Qed.

Definition nonzero_holds {w} (n : NonZero w) : Prop := int_holds (nz_get n) /\ int_val (nz_get n) <> 0.
Lemma read_nonzero_Ok w v (n : NonZero w) : from_value v = Ok n <-> integer_from_value w v = Ok (nz_get n) /\ int_val (nz_get n) <> 0.
Proof.
  cbn. rewrite bind_Ok. split.
  - intros (k & Hk & H). destruct (Z.eqb_spec (int_val k) 0); [done|]. injection H as <-. done.
  - intros [Hk Hn]. exists (nz_get n). split; [done|]. destruct (Z.eqb_spec (int_val (nz_get n)) 0); [done|]. by destruct n.
Qed.
#[export] Program Instance nonzero_crosses w : Crosses (NonZero w) := {| holds := nonzero_holds |}.
Next Obligation.
  intros w n [H Hn]. unfold to_value, nonzero_to. rewrite write_int. eexists. split; [done|]. apply read_nonzero_Ok. by rewrite read_int.
Qed.
Next Obligation. intros w n v. unfold to_value, nonzero_to. rewrite write_int. intros [= <-]. one_kind. Qed.
Next Obligation. intros w v n [(_ & t & ->)%read_int_Ok _]%read_nonzero_Ok. one_kind. Qed.
Next Obligation. intros w v n [[H _]%read_int_Ok Hn]%read_nonzero_Ok. by split. Qed.
Next Obligation. intros w v. apply bind_calm; [apply read_int_calm|]. intros n _. by destruct (_ =? _). Qed.

(** Text, and what reads a text. *)
Lemma write_read_text {A} (f : bytes -> reading A) t a : is_utf8 t = true -> f t = Ok a -> (t ← str_of (VString t); f t) = Ok a.
Proof. intros Hu Hf. by rewrite (proj2 (str_of_Ok _ t) (conj eq_refl Hu)). Qed.
Lemma read_text_Ok {A} (f : bytes -> reading A) v a : (t ← str_of v; f t) = Ok a -> exists t, v = VString t /\ is_utf8 t = true /\ f t = Ok a.
Proof. intros (t & [-> Hu]%str_of_Ok & H)%bind_Ok. eauto. Qed.
Lemma read_text_calm {A} (f : bytes -> reading A) v : (forall t, f t <> Err Panic) -> (t ← str_of v; f t) <> Err Panic.
Proof. intros Hf. apply bind_calm; [apply refuse_as_calm|]. auto. Qed.

#[export] Program Instance string_crosses : Crosses String_ := {| holds s := is_utf8 (str_bytes s) = true |}.
Next Obligation. intros [t] H. eexists. split; [done|]. by apply (write_read_text (λ t, Ok (MkString t))). Qed.
Next Obligation. intros s v [= <-]. one_kind. Qed.
Next Obligation. intros v s (t & -> & _)%read_text_Ok. one_kind. Qed.
Next Obligation. intros v s (t & -> & Hu & [= <-])%read_text_Ok. done. Qed.
Next Obligation. intros v. by apply read_text_calm. Qed.

#[export] Program Instance path_crosses : Crosses PathBuf := {| holds p := is_utf8 (path_bytes p) = true |}.
Next Obligation.
  intros [t] H. unfold to_value, path_to. cbn in H |- *. rewrite H. eexists. split; [done|]. by apply (write_read_text (λ t, Ok (MkPathBuf t))).
Qed.
Next Obligation. intros p v. unfold to_value, path_to. destruct (is_utf8 _); [|done]. intros [= <-]. one_kind. Qed.
Next Obligation. intros v s (t & -> & _)%read_text_Ok. one_kind. Qed.
Next Obligation. intros v s (t & -> & Hu & [= <-])%read_text_Ok. done. Qed.
Next Obligation. intros v. by apply read_text_calm. Qed.

#[export] Program Instance bytes_crosses : Crosses Bytes := {| holds _ := True |}.
Next Obligation. intros [b] _. by eexists. Qed.
Next Obligation. intros b v [= <-]. one_kind. Qed.
Next Obligation. intros v b (b' & ->%bytes_of_Ok & _)%bind_Ok. one_kind. Qed.
Next Obligation. done. Qed.
Next Obligation. intros v. apply bind_calm; [apply refuse_as_calm|done]. Qed.

#[export] Program Instance unit_crosses : Crosses unit := {| holds _ := True |}.
Next Obligation. intros [] _. by eexists. Qed.
Next Obligation. intros [] v [= <-]. one_kind. Qed.
Next Obligation. intros v a. cbn. destruct (bool_decide_reflect (tag v = Ok GUATIAO_NULL)) as [E|]; [|done]. intros _. by apply (of_kind v GUATIAO_NULL). Qed.
Next Obligation. done. Qed.
Next Obligation. intros v. cbn. by destruct (bool_decide _). Qed.

(** ** Characters *)

Definition char_holds (c : char) : Prop := is_Some (char_from_u32 (code c)).

Lemma low_bits a k : 0 <= k -> Z.land a (2 ^ k - 1) = a mod 2 ^ k.
Proof. intros Hk. rewrite <- Z.land_ones by done. by rewrite Z.ones_equiv, Z.sub_1_r. Qed.
Lemma join_bits a b k : 0 <= k -> 0 <= a -> 0 <= b < 2 ^ k -> Z.lor (Z.shiftl a k) b = a * 2 ^ k + b.
Proof. intros Hk Ha Hb. rewrite Z.lor_comm, lor_high by done. lia. Qed.

(** The next character of text, in arithmetic. *)
Definition two (a b : Z) : Z := (a mod 32) * 64 + b mod 64.
Definition three (a b c : Z) : Z := (a mod 32) * 4096 + (b mod 64 * 64 + c mod 64).
Definition four (a b c d : Z) : Z := (a mod 8) * 262144 + ((b mod 64 * 64 + c mod 64) * 64 + d mod 64).
Lemma next_char_bytes l : next_char l =
  match l with
  | a :: l =>
      if a <? 128 then Some (MkChar a, l)
      else match l with
        | b :: l =>
            if a <? 224 then Some (MkChar (two a b), l)
            else match l with
              | c :: l =>
                  if a <? 240 then Some (MkChar (three a b c), l)
                  else match l with d :: l => Some (MkChar (four a b c d), l) | [] => None end
              | [] => None
              end
        | [] => None
        end
  | [] => None
  end.
Proof.
  assert (forall k, 0 <= k mod 64 < 64) as H64 by (intros k; by apply Z.mod_pos_bound).
  assert (forall k, 0 <= k mod 32 < 32) as H32 by (intros k; by apply Z.mod_pos_bound).
  assert (forall k, 0 <= k mod 8 < 8) as H8 by (intros k; by apply Z.mod_pos_bound).
  destruct l as [|a [|b [|c [|d l]]]]; cbn [next_char]; try done;
    destruct (a <? 128); try done; destruct (a <? 224); try done; try destruct (a <? 240); try done;
    repeat f_equal; unfold two, three, four;
    repeat match goal with |- context [Z.land ?x 63] => change (Z.land x 63) with (Z.land x (2 ^ 6 - 1)); rewrite (low_bits x 6) by lia end;
    try (change (Z.land a 31) with (Z.land a (2 ^ 5 - 1)); rewrite (low_bits a 5) by lia);
    try (change (Z.land a 7) with (Z.land a (2 ^ 3 - 1)); rewrite (low_bits a 3) by lia);
    change (2 ^ 6) with 64; change (2 ^ 5) with 32; change (2 ^ 3) with 8;
    pose proof (H64 b); try pose proof (H64 c); try pose proof (H64 d); pose proof (H32 a); pose proof (H8 a);
    try rewrite (join_bits (b mod 64) (c mod 64) 6) by lia;
    try rewrite (join_bits (b mod 64 * 2 ^ 6 + c mod 64) (d mod 64) 6) by lia;
    rewrite join_bits by lia; lia.
Qed.

Ltac dm := Z.to_euclidean_division_equations; lia.
Ltac decided c v := replace c with v by lia.

Lemma char_back c : char_holds c -> one_char (char_utf8 (code c)) = Some c /\ is_utf8 (char_utf8 (code c)) = true.
Proof.
  destruct c as [n]. unfold char_holds, char_from_u32. cbn [code]. intros H.
  assert (0 <= n <= 0x10ffff /\ ~ (0xd800 <= n < 0xe000)) as [Hn Hs] by (destruct (_ || _) eqn:E in H; [lia|by destruct H]).
  clear H. unfold one_char. rewrite next_char_bytes. unfold char_utf8. rewrite !Z.shiftr_div_pow2 by lia.
  change (2 ^ 6) with 64; change (2 ^ 12) with 4096; change (2 ^ 18) with 262144.
  destruct (Z.ltb_spec n 0x80); [|destruct (Z.ltb_spec n 0x800); [|destruct (Z.ltb_spec n 0x10000)]].
  - destruct (Z.ltb_spec n 128); [|lia]. split; [done|]. cbn. by replace ((0 <=? n) && (n <=? 127)) with true by lia.
  - pose proof (Z.div_mod n 64 ltac:(done)) as E. pose proof (Z.mod_pos_bound n 64 ltac:(done)) as Hr.
    set (q := n / 64) in *. set (r := n mod 64) in *. assert (2 <= q < 32) by lia.
    decided (192 + q <? 128) false. decided (192 + q <? 224) true. split.
    + do 2 f_equal. unfold two. dm.
    + cbn [is_utf8]. unfold is_cont. decided ((0 <=? 192 + q) && (192 + q <=? 127)) false.
      decided ((194 <=? 192 + q) && (192 + q <=? 223)) true. by decided ((128 <=? 128 + r) && (128 + r <=? 191)) true.
  - assert (n = n / 4096 * 4096 + n / 64 mod 64 * 64 + n mod 64) as E by dm.
    assert (0 <= n / 64 mod 64 < 64 /\ 0 <= n mod 64 < 64) as [Hr Ht] by (split; by apply Z.mod_pos_bound).
    assert (0 <= n / 4096 < 16) as Hq by dm.
    set (q := n / 4096) in *. set (r := n / 64 mod 64) in *. set (t := n mod 64) in *.
    decided (224 + q <? 128) false. decided (224 + q <? 224) false. decided (224 + q <? 240) true. split.
    + do 2 f_equal. unfold three. dm.
    + cbn [is_utf8]. unfold is_cont. decided ((0 <=? 224 + q) && (224 + q <=? 127)) false.
      decided ((194 <=? 224 + q) && (224 + q <=? 223)) false. decided ((224 <=? 224 + q) && (224 + q <=? 239)) true.
      decided ((128 <=? 128 + t) && (128 + t <=? 191)) true. rewrite !andb_true_r.
      destruct (Z.eqb_spec (224 + q) 224); [lia|]. destruct (Z.eqb_spec (224 + q) 237); lia.
  - assert (n = n / 262144 * 262144 + n / 4096 mod 64 * 4096 + n / 64 mod 64 * 64 + n mod 64) as E by dm.
    assert (0 <= n / 4096 mod 64 < 64 /\ 0 <= n / 64 mod 64 < 64 /\ 0 <= n mod 64 < 64) as (Hr & Hs' & Ht) by (split_and!; by apply Z.mod_pos_bound).
    assert (0 <= n / 262144 <= 4) as Hq by dm.
    set (q := n / 262144) in *. set (r := n / 4096 mod 64) in *. set (u := n / 64 mod 64) in *. set (t := n mod 64) in *.
    decided (240 + q <? 128) false. decided (240 + q <? 224) false. decided (240 + q <? 240) false. split.
    + do 2 f_equal. unfold four. dm.
    + cbn [is_utf8]. unfold is_cont. decided ((0 <=? 240 + q) && (240 + q <=? 127)) false.
      decided ((194 <=? 240 + q) && (240 + q <=? 223)) false. decided ((224 <=? 240 + q) && (240 + q <=? 239)) false.
      decided ((240 <=? 240 + q) && (240 + q <=? 244)) true. decided ((128 <=? 128 + t) && (128 + t <=? 191)) true.
      decided ((128 <=? 128 + u) && (128 + u <=? 191)) true. rewrite !andb_true_r.
      destruct (Z.eqb_spec (240 + q) 240); [lia|]. destruct (Z.eqb_spec (240 + q) 244); lia.
Qed.

(** What is read of text is a character. *)
Definition scalar (n : Z) : Prop := 0 <= n < 0xd800 \/ 0xe000 <= n <= 0x10ffff.
Lemma char_holds_scalar n : scalar n -> char_holds (MkChar n).
Proof. unfold scalar, char_holds, char_from_u32. cbn. intros H. by replace (_ || _) with true by lia. Qed.
Lemma three_scalar a b c : 224 <= a <= 239 -> 128 <= b <= 191 -> 128 <= c <= 191 -> (a = 237 -> b <= 159) -> scalar (three a b c).
Proof.
  intros Ha Hb Hc Hs. unfold scalar, three. replace (a mod 32) with (a - 224) by dm. replace (b mod 64) with (b - 128) by dm.
  replace (c mod 64) with (c - 128) by dm. lia.
Qed.
Lemma four_scalar a b c d : 240 <= a <= 244 -> 128 <= b <= 191 -> 128 <= c <= 191 -> 128 <= d <= 191 -> (a = 240 -> 144 <= b) -> (a = 244 -> b <= 143) ->
  scalar (four a b c d).
Proof.
  intros Ha Hb Hc Hd Hlo Hhi. unfold scalar, four. replace (a mod 8) with (a - 240) by dm. replace (b mod 64) with (b - 128) by dm.
  replace (c mod 64) with (c - 128) by dm. replace (d mod 64) with (d - 128) by dm. lia.
Qed.

Lemma next_char_holds l c r : is_utf8 l = true -> next_char l = Some (c, r) -> char_holds c.
Proof.
  intros Hu H. rewrite next_char_bytes in H. destruct l as [|a l]; [done|]. cbn [is_utf8] in Hu. unfold is_cont in Hu.
  destruct ((0 <=? a) && (a <=? 127)) eqn:E1.
  { destruct (Z.ltb_spec a 128); [|lia]. injection H as <- _. apply char_holds_scalar. left. lia. }
  destruct ((194 <=? a) && (a <=? 223)) eqn:E2; [|destruct ((224 <=? a) && (a <=? 239)) eqn:E3; [|destruct ((240 <=? a) && (a <=? 244)) eqn:E4; [|done]]].
  - destruct (Z.ltb_spec a 128); [lia|]. destruct l as [|b l]; [done|]. destruct (Z.ltb_spec a 224); [|lia]. injection H as <- _.
    apply char_holds_scalar. left. unfold two. dm.
  - destruct (Z.ltb_spec a 128); [lia|]. destruct l as [|b [|c' l]]; try done. destruct (Z.ltb_spec a 224); [lia|]. destruct (Z.ltb_spec a 240); [|lia].
    injection H as <- _. rewrite !andb_true_iff in Hu. destruct Hu as [[Hb Hc] _].
    destruct (Z.eqb_spec a 224), (Z.eqb_spec a 237); apply char_holds_scalar, three_scalar; lia.
  - destruct (Z.ltb_spec a 128); [lia|]. destruct l as [|b [|c' [|d l]]]; try done; destruct (Z.ltb_spec a 224); try lia; destruct (Z.ltb_spec a 240); try lia; try done.
    injection H as <- _. rewrite !andb_true_iff in Hu. destruct Hu as [[[Hb Hc] Hd] _].
    destruct (Z.eqb_spec a 240), (Z.eqb_spec a 244); apply char_holds_scalar, four_scalar; lia.
Qed.

Lemma one_char_holds t c : is_utf8 t = true -> one_char t = Some c -> char_holds c.
Proof.
  intros Hu. unfold one_char. destruct (next_char t) as [[c' [|? ?]]|] eqn:E; try done. intros [= <-]. by apply next_char_holds in E.
Qed.
#[export] Program Instance char_crosses : Crosses char := {| holds := char_holds |}.
Next Obligation.
  intros c H. destruct (char_back c H) as [Hb Hu]. eexists. split; [done|]. apply (write_read_text (λ t, refuse_as (one_char t) _)); [done|].
  by apply refuse_as_Ok.
Qed.
Next Obligation. intros c v [= <-]. one_kind. Qed.
Next Obligation. intros v s (t & -> & _)%(read_text_Ok (λ t, refuse_as (one_char t) _)). one_kind. Qed.
Next Obligation. intros v c (t & -> & Hu & H%refuse_as_Ok)%(read_text_Ok (λ t, refuse_as (one_char t) _)). by eapply one_char_holds. Qed.
Next Obligation. intros v. apply (read_text_calm (λ t, refuse_as (one_char t) _)). intros t. apply refuse_as_calm. Qed.

(** ** Types with a text form *)

(** What they write is ASCII. *)
Class TextUtf8 (A : Type) `{TextForm A} : Prop := to_text_utf8 : forall a, tf_wf a -> is_utf8 (to_text a) = true.

Definition ascii (l : bytes) : Prop := Forall (λ b, 0 <= b <= 127) l.
Lemma ascii_utf8 l : ascii l -> is_utf8 l = true.
Proof. induction 1 as [|b l Hb _ IH]; [done|]. cbn. by decided ((0 <=? b) && (b <=? 127)) true. Qed.
Lemma ascii_app a b : ascii (a ++ b) <-> ascii a /\ ascii b.
Proof. apply Forall_app. Qed.
Lemma ascii_digits l : digits l -> ascii l.
Proof. intros H. eapply Forall_impl; [done|]. intros b Hb%is_digit_spec. lia. Qed.
Lemma ascii_dec n : 0 <= n -> ascii (dec n).
Proof. intros H. by apply ascii_digits, dec_digits. Qed.
Lemma ascii_pad w n : 0 <= n -> ascii (pad w n).
Proof. intros H. by apply ascii_digits, pad_digits. Qed.
Lemma ascii_fraction n : 0 <= n < NANOS_PER_SECOND -> ascii (write_fraction [] n).
Proof.
  intros H. apply write_fraction_text in H as [[-> _]|(ds & -> & Hd & _)]; [constructor|]. constructor; [lia|]. by apply ascii_digits.
Qed.
Lemma ascii_known l : forallb (λ b, (0 <=? b) && (b <=? 127)) l = true -> ascii l.
Proof. rewrite forallb_forall. intros H. apply List.Forall_forall. intros b Hb%H. lia. Qed.
Ltac ascii_all := repeat match goal with |- ascii (_ ++ _) => apply ascii_app; split end; first [apply ascii_pad; lia|apply ascii_dec; lia|by apply ascii_fraction|apply ascii_known; reflexivity|idtac].

Lemma ascii_date d : date_wf d -> ascii (show_date d).
Proof. intros (Hy & Hm & Hd). unfold show_date. ascii_all. Qed.
Lemma ascii_time t : time_wf t -> ascii (show_time t).
Proof. intros (Hh & Hm & Hs & Hn). unfold show_time. ascii_all. Qed.
Lemma ascii_datetime x : datetime_wf x -> ascii (show_datetime x).
Proof. intros [Hd Ht]. unfold show_datetime. ascii_all; [by apply ascii_date|by apply ascii_time]. Qed.
#[export] Instance Date_utf8 : TextUtf8 Date.
Proof. intros d Hd. by apply ascii_utf8, ascii_date. Qed.
#[export] Instance Time_utf8 : TextUtf8 Time.
Proof. intros d Hd. by apply ascii_utf8, ascii_time. Qed.
#[export] Instance DateTime_utf8 : TextUtf8 DateTime.
Proof. intros d Hd. by apply ascii_utf8, ascii_datetime. Qed.
#[export] Instance Timestamp_utf8 : TextUtf8 Timestamp.
Proof. intros t Ht. apply ascii_utf8. apply utc_spec in Ht as [Hw _]. apply ascii_app. split; [by apply ascii_datetime|by ascii_all]. Qed.
Lemma ascii_unit us c : Forall (λ u, 0 <= u <= i64_max) us -> 0 <= c.2 <= 127 -> ascii (unit_text us c).
Proof.
  intros Hu Hc. unfold unit_text. destruct (_ =? 0); [constructor|]. apply ascii_app. split; [|by apply Forall_singleton].
  apply ascii_dec. destruct (decide (c.1 < length us)%nat) as [Hl|Hl].
  - rewrite Forall_forall in Hu. apply Hu. by apply list_elem_of_lookup_total_2.
  - by rewrite list_lookup_total_alt, lookup_ge_None_2 by lia.
Qed.
#[export] Instance Span_utf8 : TextUtf8 Span.
Proof.
  intros s (Hl & Hu & Hn & Hz). apply ascii_utf8. change (to_text s) with (show_span s). unfold show_span.
  apply ascii_app. split; [destruct (Span.negative s); by ascii_all|]. apply ascii_app. split; [by ascii_all|].
  destruct (is_zero s); [by ascii_all|].
  assert (forall l, Forall (λ c : nat * byte, 0 <= c.2 <= 127) l -> ascii (concat (map (unit_text (units s)) l))) as Hc.
  { induction 1 as [|c l Hc _ IH]; [constructor|]. apply ascii_app. split; [by apply ascii_unit|done]. }
  apply ascii_app. split; [apply Hc; repeat (apply Forall_cons_2; [cbn; lia|]); apply Forall_nil_2|]. destruct (existsb _ _); [|constructor]. apply ascii_app. split; [by ascii_all|].
  apply ascii_app. split; [apply Hc; repeat (apply Forall_cons_2; [cbn; lia|]); apply Forall_nil_2|]. unfold seconds_text. destruct (_ && _); [constructor|].
  rewrite write_fraction_app. rewrite Forall_forall in Hu. unfold unit_at in Hn.
  assert (forall i, (i < 8)%nat -> 0 <= units s !!! i) as Hi by (intros i Hi; apply Hu, list_elem_of_lookup_total_2; lia).
  ascii_all; [apply ascii_dec, Hi; vm_compute; lia|]. apply ascii_fraction. split; [apply Hi; vm_compute; lia|done].
Qed.

Section text_forms.
Context {A} `{TextFormLaws A, !TextUtf8 A, Spoken A}.
#[export] Program Instance text_form_crosses : Crosses A := {| holds := tf_wf |}.
Next Obligation.
  intros a Ha. eexists. split; [done|]. apply (write_read_text (λ t, map_err _ (of_text t))); [by apply to_text_utf8|].
  apply map_err_Ok. by apply of_to_text.
Qed.
Next Obligation. intros c v [= <-]. one_kind. Qed.
Next Obligation. intros v s (t & -> & _)%(read_text_Ok (λ t, map_err _ (of_text t))). one_kind. Qed.
Next Obligation. intros v c (t & -> & Hu & Hm%map_err_Ok)%(read_text_Ok (λ t, map_err _ (of_text t))). by eapply of_text_wf. Qed.
Next Obligation. intros v. apply (read_text_calm (λ t, map_err _ (of_text t))). intros t. by destruct (of_text t). Qed.
End text_forms.

(** ** Values, and the crate's own containers *)

Lemma copied_as_Ok {A} (m : result (fault ValueError) A) a : copied_as m = Ok a <-> m = Ok a.
Proof. apply map_err_Ok. Qed.
Lemma copied_as_calm {A} (m : result (fault ValueError) A) : m <> Err Panic -> copied_as m <> Err Panic.
Proof. by destruct m as [|[]]. Qed.
Lemma copy_value_Ok v w : copy_value v = Ok w <-> w = v /\ uncopiable v = None.
Proof. rewrite copy_value_spec. unfold copied. destruct (uncopiable v); naive_solver. Qed.
Lemma copiable_kind v : uncopiable v = None -> of_kinds kinds_any v.
Proof.
  intros H. destruct v; try (by left); try (right; eexists; by split).
Qed.

#[export] Program Instance value_crosses : Crosses Value := {| holds v := uncopiable v = None |}.
Next Obligation. intros v H. exists v. split; [by apply copy_value_Ok|]. by apply copied_as_Ok, copy_value_Ok. Qed.
Next Obligation. intros v w [-> H]%copy_value_Ok. by apply copiable_kind. Qed.
Next Obligation. intros v w H%copied_as_Ok. apply copy_value_Ok in H as [_ H]. by apply copiable_kind. Qed.
Next Obligation. intros v w H%copied_as_Ok. by apply copy_value_Ok in H as [-> H]. Qed.
Next Obligation. intros v. apply copied_as_calm. rewrite copy_value_spec. unfold copied. by destruct (uncopiable v). Qed.

Lemma copy_list_Ok l l' : copy_list l = Ok l' <-> l' = l /\ uncopiable_all l = None.
Proof. rewrite copy_list_spec. destruct (uncopiable_all l); naive_solver. Qed.
Lemma copy_map_Ok m m' : copy_map m = Ok m' <-> m' = m /\ uncopiable_all (map snd m) = None.
Proof. rewrite copy_map_spec. destruct (uncopiable_all _); naive_solver. Qed.

#[export] Program Instance own_map_crosses : Crosses OwnMap :=
  {| holds m := keys_are_text (own_map m) = true /\ uncopiable_all (map snd (own_map m)) = None |}.
Next Obligation.
  intros [m] [Hk H]. exists (VMap m). split; [by apply fmap_Ok; exists m; split; [apply copy_map_Ok|]|].
  apply bind_Ok. exists m. split; [by apply map_in_Ok|]. apply fmap_Ok. exists m. split; [|done]. by apply copied_as_Ok, copy_map_Ok.
Qed.
Next Obligation. intros m v (m' & _ & ->)%fmap_Ok. one_kind. Qed.
Next Obligation. intros v m (m' & [-> _]%map_in_Ok & _)%bind_Ok. one_kind. Qed.
Next Obligation. intros v m (m' & [-> Hk]%map_in_Ok & (m2 & H%copied_as_Ok & ->)%fmap_Ok)%bind_Ok. by apply copy_map_Ok in H as [-> H]. Qed.
Next Obligation.
  intros v. apply bind_calm; [apply refuse_as_calm|]. intros m _. apply fmap_calm, copied_as_calm. rewrite copy_map_spec. by destruct (uncopiable_all _).
Qed.

#[export] Program Instance own_list_crosses : Crosses OwnList := {| holds l := uncopiable_all (own_list l) = None |}.
Next Obligation.
  intros [l] H. exists (VList l). split; [by apply fmap_Ok; exists l; split; [apply copy_list_Ok|]|].
  apply bind_Ok. exists l. split; [by apply list_in_Ok|]. apply fmap_Ok. exists l. split; [|done]. by apply copied_as_Ok, copy_list_Ok.
Qed.
Next Obligation. intros m v (m' & _ & ->)%fmap_Ok. one_kind. Qed.
Next Obligation. intros v m (m' & ->%list_in_Ok & _)%bind_Ok. one_kind. Qed.
Next Obligation. intros v m (m' & ->%list_in_Ok & (m2 & H%copied_as_Ok & ->)%fmap_Ok)%bind_Ok. by apply copy_list_Ok in H as [-> H]. Qed.
Next Obligation.
  intros v. apply bind_calm; [apply refuse_as_calm|]. intros m _. apply fmap_calm, copied_as_calm. rewrite copy_list_spec. by destruct (uncopiable_all _).
Qed.

#[export] Program Instance own_text_crosses : Crosses OwnText := {| holds t := is_utf8 (own_text t) = true |}.
Next Obligation. intros [t] H. eexists. split; [done|]. by apply (write_read_text (λ t, Ok (MkOwnText t))). Qed.
Next Obligation. intros s v [= <-]. one_kind. Qed.
Next Obligation. intros v s (t & -> & _)%read_text_Ok. one_kind. Qed.
Next Obligation. intros v s (t & -> & Hu & [= <-])%read_text_Ok. done. Qed.
Next Obligation. intros v. by apply read_text_calm. Qed.

#[export] Program Instance own_number_crosses : Crosses OwnNumber := {| holds t := is_number (own_number t) = true |}.
Next Obligation. intros [t] H. eexists. split; [done|]. apply bind_Ok. exists t. split; [by apply number_text_Ok|done]. Qed.
Next Obligation. intros s v [= <-]. one_kind. Qed.
Next Obligation. intros v s (t & [-> _]%number_text_Ok & _)%bind_Ok. one_kind. Qed.
Next Obligation. intros v s (t & [-> Hn]%number_text_Ok & [= <-])%bind_Ok. done. Qed.
Next Obligation. intros v. by apply bind_calm; [apply refuse_as_calm|]. Qed.

#[export] Program Instance own_buffer_crosses : Crosses OwnBuffer := {| holds _ := True |}.
Next Obligation. intros [b] _. by eexists. Qed.
Next Obligation. intros s v [= <-]. one_kind. Qed.
Next Obligation. intros v b (b' & H%refuse_as_Ok & _)%fmap_Ok. destruct v; try done. one_kind. Qed.
Next Obligation. done. Qed.
Next Obligation. intros v. apply fmap_calm, refuse_as_calm. Qed.

(** ** Options

    What a type writes for one of its own values may not be null, or it is read as none. *)

Section options.
Context `{Crosses A}.

Lemma option_null v : of_kinds (KINDS A) v -> kinds_contains (KINDS A) GUATIAO_NULL = false -> bool_decide (tag v = Ok GUATIAO_NULL) = false.
Proof. intros [->|(t & Ht & Hc)] Hn; [done|]. apply bool_decide_eq_false. intros E. congruence. Qed.

Definition option_holds (o : option A) : Prop := match o with Some a => holds a | None => True end.
#[export] Program Instance option_crosses {Hplain : @TCEq bool (kinds_contains (KINDS A) GUATIAO_NULL) false} : Crosses (option A) :=
  {| holds := option_holds |}.
Next Obligation.
  intros Hplain [a|] Ho; [|by eexists]. destruct (crosses a Ho) as (v & Hw & Hr). exists v. split; [done|]. unfold from_value. cbn [option_from].
  rewrite option_null; [by rewrite Hr|by eapply writes_kind|]. by apply TCEq_eq.
Qed.
Next Obligation.
  intros Hplain [a|] v Hw; [|injection Hw as <-; right; exists GUATIAO_NULL; split; [done|]; cbn [KINDS option_from]; rewrite kinds_contains_union; by destruct (kinds_contains _ _)].
  change (to_value a = Ok v) in Hw.
  apply writes_kind in Hw as [->|(t & Ht & Hc)]; [by left|]. right. exists t. split; [done|]. cbn [KINDS option_from]. by rewrite kinds_contains_union, Hc.
Qed.
Next Obligation.
  intros Hplain v o. unfold from_value. cbn [option_from KINDS]. destruct (bool_decide_reflect (tag v = Ok GUATIAO_NULL)) as [E|E].
  - intros _. right. exists GUATIAO_NULL. split; [done|]. rewrite kinds_contains_union. by destruct (kinds_contains _ _).
  - intros (a & Hr & _)%bind_Ok. apply reads_kind in Hr as [->|(t & Ht & Hc)]; [by left|]. right. exists t. split; [done|]. by rewrite kinds_contains_union, Hc.
Qed.
Next Obligation.
  intros Hplain v o. unfold from_value. cbn [option_from]. destruct (bool_decide _); [by intros [= <-]|].
  intros (a & Hr & [= <-])%bind_Ok. by eapply reads_held.
Qed.
Next Obligation.
  intros Hplain v. unfold from_value. cbn [option_from]. destruct (bool_decide _); [done|]. by apply bind_calm; [apply reads_calm|].
Qed.
End options.

(** ** Sequences *)

Definition crossed `{ToValue A, FromValue A} (a : A) (v : Value) : Prop := to_value a = Ok v /\ from_value v = Ok a.

Section sequences.
Context {A : Type} {TA : ToValue A} {FA : FromValue A} {HA : Crosses A}.

Lemma crosses_all (l : list A) : Forall holds l -> exists vs, Forall2 crossed l vs.
Proof.
  induction 1 as [|a l Ha _ [vs IH]]; [by exists []|]. destruct (crosses a Ha) as (v & Hw & Hr). exists (v :: vs). constructor; [by split|done].
Qed.
Lemma items_to_Ok (l : list A) : forall out vs, Forall2 crossed l vs -> items_to out l = Ok (out ++ vs).
Proof.
  induction l as [|a l IH]; intros out vs H; inversion_clear H as [|? v ? vs' [Hw _] H']; cbn; [by rewrite app_nil_r|].
  rewrite Hw. cbn [mbind result_bind]. rewrite (IH (out ++ [v]) vs') by done. by rewrite <- app_assoc.
Qed.
Lemma list_of_Ok (l : list A) vs : Forall2 crossed l vs -> list_of l = Ok (VList vs).
Proof. intros H. unfold list_of. by rewrite (items_to_Ok l [] vs). Qed.
Lemma list_of_kind (l : list A) v : list_of l = Ok v -> of_kinds (kinds_of GUATIAO_LIST) v.
Proof. intros (vs & _ & ->)%fmap_Ok. one_kind. Qed.

Lemma vec_items_Ok (l : list A) : forall i out vs, Forall2 crossed l vs -> vec_items i out vs = Ok (out ++ l).
Proof.
  induction l as [|a l IH]; intros i out vs H; inversion_clear H as [|? v ? vs' [_ Hr] H']; cbn [vec_items]; [by rewrite app_nil_r|].
  rewrite Hr. cbn [placed_at map_err mbind result_bind]. rewrite (IH (S i) (out ++ [a]) vs') by done. by rewrite <- app_assoc.
Qed.
Lemma vec_items_held vs : forall i (out l : list A), vec_items i out vs = Ok l -> Forall holds out -> Forall holds l /\ length l = (length out + length vs)%nat.
Proof.
  induction vs as [|v vs IH]; intros i out l; cbn [vec_items].
  - intros [= <-] Ho. split; [done|cbn; lia].
  - intros (a & Hr%placed_at_Ok & H)%bind_Ok Ho. apply IH in H as [Hh Hl]; [|apply Forall_app; split; [done|]; apply Forall_singleton; by eapply reads_held].
    split; [done|]. rewrite length_app in Hl. cbn in *. lia.
Qed.
Lemma vec_items_calm vs : forall i (out : list A), vec_items i out vs <> Err Panic.
Proof. induction vs as [|v vs IH]; intros i out; cbn [vec_items]; [done|]. apply bind_calm; [apply placed_at_calm, reads_calm|]. intros a _. apply IH. Qed.

Lemma each_push vs : forall i (out : list A), each_item push_back i vs out = vec_items i out vs.
Proof. induction vs as [|v vs IH]; intros i out; cbn [each_item vec_items push_back]; [done|]. destruct (placed_at _ _); cbn; [apply IH|done]. Qed.
Lemma read_each_push v (out : list A) : read_each v push_back out = l ← list_in v; vec_items 0 out l.
Proof. unfold read_each. destruct (list_in v) as [l|]; cbn; [apply each_push|done]. Qed.

#[export] Program Instance vec_crosses : Crosses (list A) := {| holds := Forall holds |}.
Next Obligation.
  intros l (vs & Hv)%crosses_all. exists (VList vs). split; [by apply list_of_Ok|]. apply bind_Ok. exists vs.
  split; [by apply list_in_Ok|]. by apply (vec_items_Ok l 0 []).
Qed.
Next Obligation. intros l v. apply list_of_kind. Qed.
Next Obligation. intros v l (vs & ->%list_in_Ok & _)%bind_Ok. one_kind. Qed.
Next Obligation. intros v l (vs & ->%list_in_Ok & Hr)%bind_Ok. by apply vec_items_held in Hr as [Hr _]. Qed.
Next Obligation. intros v. apply bind_calm; [apply refuse_as_calm|]. intros l _. apply vec_items_calm. Qed.

#[export] Program Instance deque_crosses : Crosses (VecDeque A) := {| holds d := Forall holds (deque_items d) |}.
Next Obligation.
  intros [l] (vs & Hv)%crosses_all. exists (VList vs). split; [by apply list_of_Ok|]. cbn [from_value deque_from]. rewrite read_each_push.
  cbn. by rewrite (vec_items_Ok l 0 [] vs).
Qed.
Next Obligation. intros l v. apply list_of_kind. Qed.
Next Obligation. intros v d. cbn [from_value deque_from KINDS]. rewrite read_each_push. intros (l & (vs & ->%list_in_Ok & _)%bind_Ok & _)%fmap_Ok. one_kind. Qed.
Next Obligation. intros v d. cbn [from_value deque_from]. rewrite read_each_push. intros (l & (vs & _ & Hr)%bind_Ok & ->)%fmap_Ok. by apply vec_items_held in Hr as [Hr _]. Qed.
Next Obligation.
  intros v. cbn [from_value deque_from]. rewrite read_each_push. apply fmap_calm, bind_calm; [apply refuse_as_calm|]. intros l _. apply vec_items_calm.
Qed.

Definition array_holds {n} (a : Array n A) : Prop := length (array_items a) = n /\ Forall holds (array_items a).
Lemma read_array n v : array_from_value n v =
  l ← list_in v; if bool_decide (length l = n) then MkArray <$> vec_items 0 [] l else Err (Refuse (exactly n)).
Proof.
  unfold array_from_value. destruct (list_in v) as [l|e] eqn:E; [|done]. cbn [mbind result_bind]. rewrite read_each_push, E. cbn [mbind result_bind].
  destruct (bool_decide_reflect (length l = n)) as [Hl|Hl]; cbn [negb]; [|done]. destruct (vec_items 0 [] l) as [out|e'] eqn:Ev; [|done]. cbn.
  apply vec_items_held in Ev as [_ Ev]; [|constructor]. by rewrite bool_decide_eq_true_2 by (cbn in Ev; lia).
Qed.
#[export] Program Instance array_crosses n : Crosses (Array n A) := {| holds := array_holds |}.
Next Obligation.
  intros n [l] [Hl Hh]. destruct (crosses_all l Hh) as (vs & Hv). exists (VList vs). split; [by apply list_of_Ok|].
  cbn [from_value array_from]. rewrite read_array. cbn. apply Forall2_length in Hv as Hn. cbn in Hl.
  rewrite bool_decide_eq_true_2 by lia. by rewrite (vec_items_Ok l 0 [] vs).
Qed.
Next Obligation. intros n l v. apply list_of_kind. Qed.
Next Obligation. intros n v d. cbn [from_value array_from KINDS]. rewrite read_array. intros (vs & ->%list_in_Ok & _)%bind_Ok. one_kind. Qed.
Next Obligation.
  intros n v d. cbn [from_value array_from]. rewrite read_array. intros (vs & _ & H)%bind_Ok.
  destruct (bool_decide_reflect (length vs = n)); [|done]. apply fmap_Ok in H as (l & H & ->). apply vec_items_held in H as [Hh Hl]; [|constructor].
  split; [cbn in *; lia|done].
Qed.
Next Obligation.
  intros n v. cbn [from_value array_from]. rewrite read_array. apply bind_calm; [apply refuse_as_calm|]. intros l _.
  destruct (bool_decide _); [|done]. apply fmap_calm, vec_items_calm.
Qed.
End sequences.

(** ** Sets *)

Section sets.
Context {A : Type} {TA : ToValue A} {FA : FromValue A} {HA : Crosses A} `{Countable A}.

Lemma each_insert_Ok (l : list A) : forall i vs (s : gset A), Forall2 crossed l vs -> NoDup l -> (forall a, a ∈ l -> a ∉ s) ->
  each_item set_insert i vs s = Ok (list_to_set l ∪ s).
Proof.
  induction l as [|a l IH]; intros i vs s Hv Hn Hs; inversion_clear Hv as [|? v ? vs' [_ Hr] Hv']; cbn [each_item].
  { f_equal. set_solver. }
  apply NoDup_cons in Hn as [Ha Hn]. rewrite Hr. cbn [placed_at map_err mbind result_bind set_insert].
  rewrite bool_decide_eq_true_2 by (apply Hs; set_solver). rewrite (IH (S i)); [f_equal; set_solver|done|done|set_solver].
Qed.
Lemma each_insert_held vs : forall i (s s' : gset A), each_item set_insert i vs s = Ok s' -> set_Forall holds s -> set_Forall holds s'.
Proof.
  induction vs as [|v vs IH]; intros i s s'; cbn [each_item]; [by intros [= <-]|].
  intros (a & Hr%placed_at_Ok & Hi)%bind_Ok Hs. cbn [set_insert] in Hi. destruct (bool_decide _); [|done].
  apply IH in Hi; [done|]. apply set_Forall_union; [|done]. apply set_Forall_singleton. by eapply reads_held.
Qed.
Lemma each_insert_calm vs : forall i (s : gset A), each_item set_insert i vs s <> Err Panic.
Proof.
  induction vs as [|v vs IH]; intros i s; cbn [each_item]; [done|]. apply bind_calm; [apply placed_at_calm, reads_calm|]. intros a _.
  cbn [set_insert]. by destruct (bool_decide _).
Qed.

(** Whatever order a set is iterated in, the same set is read. *)
Lemma hash_set_back (items : list A) : NoDup items -> Forall holds items ->
  exists v, hash_set_to items = Ok v /\ from_value v = Ok (list_to_set items : gset A).
Proof.
  intros Hn (vs & Hv)%crosses_all. exists (VList vs). split; [by apply list_of_Ok|]. cbn. unfold read_each. cbn.
  rewrite (each_insert_Ok items) by set_solver. f_equal. set_solver.
Qed.

Lemma in_order_of_perm `{Ordered A} (s : gset A) : in_order_of s ≡ₚ elements s.
Proof. apply merge_sort_Permutation. Qed.

#[export] Program Instance set_crosses `{Ordered A} : Crosses (gset A) := {| holds := set_Forall holds |}.
Next Obligation.
  intros HO s Hs. destruct (hash_set_back (in_order_of s)) as (v & Hw & Hr).
  - rewrite in_order_of_perm. apply NoDup_elements.
  - rewrite in_order_of_perm. by apply set_Forall_elements.
  - exists v. split; [done|]. rewrite Hr. f_equal. rewrite in_order_of_perm. apply list_to_set_elements_L.
Qed.
Next Obligation. intros HO s v. apply list_of_kind. Qed.
Next Obligation. intros HO v s (l & ->%list_in_Ok & _)%bind_Ok. one_kind. Qed.
Next Obligation. intros HO v s (l & _ & Hr)%bind_Ok. by apply each_insert_held in Hr. Qed.
Next Obligation. intros HO v. apply bind_calm; [apply refuse_as_calm|]. intros l _. apply each_insert_calm. Qed.
End sets.

(** ** Tuples *)

Class PositionsCross (P : Type) `{Positions P} := {
  all_hold : P -> Prop;
  positions_cross p : all_hold p -> exists vs, length vs = positions P /\
    (forall out, write_positions out p = Ok (out ++ vs)) /\ (forall pre, read_positions (pre ++ vs) (length pre) = Ok p);
  positions_held l i p : read_positions l i = Ok p -> all_hold p;
  positions_calm l i : length l = (i + positions P)%nat -> read_positions (P := P) l i <> Err Panic;
}.
#[export] Program Instance no_positions_cross : PositionsCross unit := {| all_hold _ := True |}.
Next Obligation. intros [] _. exists []. split_and!; [done| |done]. intros out. by rewrite app_nil_r. Qed.
Next Obligation. done. Qed.
Next Obligation. done. Qed.
#[export] Program Instance one_position_cross `{Crosses A, PositionsCross P} : PositionsCross (A * P) :=
  {| all_hold p := holds p.1 /\ all_hold p.2 |}.
Next Obligation.
  intros A ?? HA P ? HP [a p] [Ha Hp]. cbn [fst snd] in *. destruct (crosses a Ha) as (v & Hw & Hr). destruct (positions_cross p Hp) as (vs & Hl & Hws & Hrs).
  exists (v :: vs). split_and!; [cbn; lia| |].
  - intros out. cbn. rewrite Hw. cbn. rewrite Hws. by rewrite <- app_assoc.
  - intros pre. cbn [read_positions one_position]. rewrite list_lookup_middle by done. rewrite Hr. cbn.
    specialize (Hrs (pre ++ [v])). rewrite <- app_assoc, length_app in Hrs. cbn in Hrs. rewrite Nat.add_1_r in Hrs. by rewrite Hrs.
Qed.
Next Obligation.
  intros A ?? HA P ? HP l i p. cbn [read_positions one_position]. destruct (l !! i); [|done].
  intros (a & Hr%placed_at_Ok & (p' & Hp & [= <-])%bind_Ok)%bind_Ok. split; [by eapply reads_held|by eapply positions_held].
Qed.
Next Obligation.
  intros A ?? HA P ? HP l i Hl. cbn [read_positions one_position positions] in *. destruct (lookup_lt_is_Some_2 l i) as [v ->]; [lia|].
  apply bind_calm; [apply placed_at_calm, reads_calm|]. intros a _. apply bind_calm; [apply positions_calm; lia|done].
Qed.

#[export] Program Instance tuple_crosses `{PositionsCross P} : Crosses (Tuple P) := {| holds t := all_hold (tuple_items t) |}.
Next Obligation.
  intros P ? HP [p] Hp. destruct (positions_cross p Hp) as (vs & Hl & Hw & Hr). exists (VList vs). split.
  - apply fmap_Ok. exists vs. split; [apply Hw|done].
  - cbn. rewrite bool_decide_eq_true_2 by done. cbn. specialize (Hr []). cbn in Hr. by rewrite Hr.
Qed.
Next Obligation. intros P ? HP t v (vs & _ & ->)%fmap_Ok. one_kind. Qed.
Next Obligation. intros P ? HP v t (vs & ->%list_in_Ok & _)%bind_Ok. one_kind. Qed.
Next Obligation.
  intros P ? HP v t (vs & _ & Hr)%bind_Ok. destruct (negb _); [done|]. apply fmap_Ok in Hr as (p & Hr & ->). by eapply positions_held.
Qed.
Next Obligation.
  intros P ? HP v. apply bind_calm; [apply refuse_as_calm|]. intros l _. destruct (bool_decide_reflect (length l = positions P)); cbn; [|done].
  apply fmap_calm. by apply positions_calm.
Qed.

(** ** Keys *)

#[export] Program Instance string_key_crosses : KeyCrosses String_ := {| key_holds s := is_utf8 (str_bytes s) = true |}.
Next Obligation. intros [t] H. by exists t. Qed.
Next Obligation. by intros t s Hu [= <-]. Qed.
#[export] Program Instance path_key_crosses : KeyCrosses PathBuf := {| key_holds s := is_utf8 (path_bytes s) = true |}.
Next Obligation. intros [t] H. exists t. cbn in H |- *. by rewrite H. Qed.
Next Obligation. by intros t s Hu [= <-]. Qed.
#[export] Program Instance char_key_crosses : KeyCrosses char := {| key_holds := char_holds |}.
Next Obligation. intros c H. destruct (char_back c H) as [Hb Hu]. eexists. split_and!; [done|done|]. cbn. by rewrite Hb. Qed.
Next Obligation. intros t c Hu Hc%ok_or_Ok. by eapply one_char_holds. Qed.
#[export] Program Instance bool_key_crosses : KeyCrosses bool := {| key_holds _ := True |}.
Next Obligation. intros [] _; eexists; split_and!; reflexivity. Qed.
Next Obligation. done. Qed.
#[export] Program Instance text_form_key_crosses `{TextFormLaws K, !TextUtf8 K, Spoken K} : KeyCrosses K := {| key_holds := tf_wf |}.
Next Obligation. intros K ??? HS k Hk. eexists. split_and!; [done|by apply to_text_utf8|]. apply map_err_Ok. by apply of_to_text. Qed.
Next Obligation. intros K ??? HS t k Hu Hk%map_err_Ok. by eapply of_text_wf. Qed.

(** The text of an integer is a key, and the only one. *)
Lemma dec_key k : 0 <= k ->
  negb (bool_decide (dec k = [])) && forallb is_digit (dec k) && (bool_decide (dec k = bs "0") || negb (bool_decide (head (dec k) = Some 48))) = true.
Proof.
  intros Hk. rewrite !andb_true_iff, orb_true_iff, !negb_true_iff, !bool_decide_eq_false, bool_decide_eq_true. split_and!.
  - by apply dec_nonempty.
  - by apply digits_forallb, dec_digits.
  - destruct (dec_spec k Hk) as (_ & _ & [[Hk' E]|(Hk' & d & ds & E & Hl)]); rewrite E; cbn [head].
    + destruct (Z.eq_dec k 0) as [->|Hn]; [by left|right]. intros [=]. lia.
    + right. intros [=]. lia.
Qed.
Lemma integer_key_text n : is_integer_key (signed_dec n) = true.
Proof.
  unfold signed_dec, is_integer_key. destruct (Z.ltb_spec n 0).
  - cbn [strip_byte Z.eqb Pos.eqb default]. apply dec_key. lia.
  - assert (strip_byte 45 (dec n) = None) as ->; [|by apply dec_key].
    destruct (dec_cons n ltac:(lia)) as (d & ds & -> & Hdig). apply is_digit_spec in Hdig. cbn. by decided (d =? 45) false.
Qed.

#[export] Program Instance int_key_crosses w : KeyCrosses (int w) := {| key_holds := int_holds |}.
Next Obligation.
  intros w n H. exists (int_text n). split_and!; [done| |].
  - apply ascii_utf8. unfold int_text, signed_dec. destruct (Z.ltb_spec (int_val n) 0); [|apply ascii_dec; lia].
    constructor; [lia|]. apply ascii_dec. lia.
  - apply ok_or_Ok. unfold int_text at 1. rewrite integer_key_text. by apply int_parse_text.
Qed.
Next Obligation. intros w t n _ H%ok_or_Ok. destruct (is_integer_key t); [|done]. by apply int_parse_holds in H. Qed.

(** ** Maps *)

Section maps.
Context {K : Type} {TK : MapKey K} {HK : KeyCrosses K} `{Countable K}.
Context {V : Type} {TV : ToValue V} {FV : FromValue V} {HV : Crosses V}.

Definition entry_holds (e : K * V) : Prop := key_holds e.1 /\ holds e.2.
Definition entry_crossed (e : K * V) (w : bytes * Value) : Prop :=
  to_key e.1 = Ok w.1 /\ is_utf8 w.1 = true /\ from_key w.1 = Ok e.1 /\ crossed e.2 w.2.

Lemma entries_cross (l : list (K * V)) : Forall entry_holds l -> exists ws, Forall2 entry_crossed l ws.
Proof.
  induction 1 as [|[k v] l [Hk Hv] _ [ws IH]]; [by exists []|]. destruct (key_crosses k Hk) as (t & Ht & Hu & Hb).
  destruct (crosses v Hv) as (w & Hw & Hr). exists ((t, w) :: ws). constructor; [|done]. by split_and!.
Qed.
(** Keys of their own write texts of their own. *)
Lemma crossed_fresh (l : list (K * V)) ws e w : Forall2 entry_crossed l ws -> entry_crossed e w -> e.1 ∉ l.*1 -> w.1 ∉ keys ws.
Proof.
  intros Hl (_ & _ & Hb & _) Hn Hin. apply Hn. clear Hn. induction Hl as [|e' w' l ws (_ & _ & Hb' & _) _ IH]; cbn in *; [by apply not_elem_of_nil in Hin|].
  apply elem_of_cons in Hin as [E|Hin]; [|apply elem_of_cons; right; by apply IH]. rewrite <- E in Hb'. apply elem_of_cons. left. congruence.
Qed.
Lemma crossed_nodup (l : list (K * V)) ws : Forall2 entry_crossed l ws -> NoDup l.*1 -> NoDup (keys ws).
Proof.
  induction 1 as [|e w l ws Hw Hl IH]; cbn; [constructor|]. intros [He Hn]%NoDup_cons. constructor; [by eapply crossed_fresh|auto].
Qed.
Lemma entries_to_Ok (l : list (K * V)) : forall ws out, Forall2 entry_crossed l ws -> NoDup (keys (out ++ ws)) -> entries_to out l = Ok (out ++ ws).
Proof.
  induction l as [|e l IH]; intros ws out Hl Hn; inversion Hl as [|? [t v] ? ws' (Ht & _ & _ & Hw & _) Hl']; subst; cbn [entries_to]; [by rewrite app_nil_r|].
  cbn [fst snd] in *. rewrite Ht, Hw. cbn [map_err mbind result_bind]. rewrite set_fresh.
  - rewrite (IH ws'); [by rewrite <- app_assoc|done|by rewrite <- app_assoc].
  - unfold keys in Hn |- *. rewrite map_app in Hn. apply NoDup_app in Hn as (_ & Hn & _). intros Hin. apply (Hn t); [done|]. cbn. by left.
Qed.
Lemma entries_from_Ok (l : list (K * V)) : forall ws (s : gmap K V), Forall2 entry_crossed l ws -> NoDup l.*1 -> (forall k, k ∈ l.*1 -> s !! k = None) ->
  entries_from map_insert_new ws s = Ok (list_to_map l ∪ s).
Proof.
  induction l as [|[k v] l IH]; intros ws s Hl Hn Hs; inversion Hl as [|? [t w] ? ws' (Ht & _ & Hb & _ & Hr) Hl']; subst; cbn [entries_from].
  { cbn. by rewrite (left_id_L ∅ (∪)). }
  cbn [fst snd] in *. rewrite Hb, Hr. cbn [placed_at map_err mbind result_bind map_insert_new].
  rewrite bool_decide_eq_true_2 by (apply Hs; by left). apply NoDup_cons in Hn as [Hk Hn]. rewrite (IH ws'); [|done|done|].
  - f_equal. cbn [list_to_map foldr]. rewrite <- insert_union_l, <- insert_union_r; [done|]. by apply not_elem_of_list_to_map_1.
  - intros k' Hk'. rewrite lookup_insert_ne by (intros ->; by apply Hk). apply Hs. by right.
Qed.
Lemma entries_from_held m : forall (s s' : gmap K V), Forall (λ e, is_utf8 e.1 = true) m -> entries_from map_insert_new m s = Ok s' ->
  map_Forall (λ k v, entry_holds (k, v)) s -> map_Forall (λ k v, entry_holds (k, v)) s'.
Proof.
  induction m as [|[t w] m IH]; intros s s' Hm; cbn [entries_from]; [by intros [= <-]|]. apply Forall_cons in Hm as [Ht Hm].
  intros (k & Hk%map_err_Ok & (v & Hv%placed_at_Ok & Hi)%bind_Ok)%bind_Ok Hs. cbn [map_insert_new] in Hi. destruct (bool_decide _); [|done].
  eapply IH; [done|done|]. apply map_Forall_insert_2; [|done]. split; [by eapply key_reads|by eapply reads_held].
Qed.
Lemma entries_from_calm m : forall (s : gmap K V), entries_from map_insert_new m s <> Err Panic.
Proof.
  induction m as [|[t w] m IH]; intros s; cbn [entries_from]; [done|]. apply bind_calm; [by destruct (from_key _)|]. intros k _.
  apply bind_calm; [apply placed_at_calm, reads_calm|]. intros v _. cbn [map_insert_new]. by destruct (bool_decide _).
Qed.

(** Whatever order a map is iterated in, the same map is read. *)
Lemma hash_map_back (l : list (K * V)) : NoDup l.*1 -> Forall entry_holds l ->
  exists v, hash_map_to l = Ok v /\ from_value v = Ok (list_to_map l : gmap K V).
Proof.
  intros Hn (ws & Hw)%entries_cross. exists (VMap ws). unfold hash_map_to, entries_to_value. split.
  - apply fmap_Ok. exists ws. split; [|done]. apply (entries_to_Ok l ws []); [done|]. cbn. by eapply crossed_nodup.
  - cbn. apply bind_Ok. exists ws. split.
    + apply map_in_Ok. split; [done|]. apply keys_are_text_spec. clear Hn. induction Hw as [|e w l ws (_ & Hu & _) _ IH]; by constructor.
    + rewrite (entries_from_Ok l) by done. f_equal. apply (right_id_L ∅ (∪)).
Qed.

Lemma entries_in_order_perm `{Ordered K} (m : gmap K V) : entries_in_order m ≡ₚ map_to_list m.
Proof. apply merge_sort_Permutation. Qed.

#[export] Program Instance map_crosses `{Ordered K} : Crosses (gmap K V) := {| holds := map_Forall (λ k v, entry_holds (k, v)) |}.
Next Obligation.
  intros HO m Hm. pose proof (entries_in_order_perm m) as Hp. destruct (hash_map_back (entries_in_order m)) as (v & Hw & Hr).
  - rewrite Hp. apply NoDup_fst_map_to_list.
  - rewrite Hp. apply map_Forall_to_list in Hm. eapply Forall_impl; [done|]. by intros [k v].
  - exists v. split; [done|]. rewrite Hr. f_equal. rewrite <- (list_to_map_to_list m) at 2. apply list_to_map_proper; [|done].
    rewrite Hp. apply NoDup_fst_map_to_list.
Qed.
Next Obligation. intros HO m v (es & _ & ->)%fmap_Ok. one_kind. Qed.
Next Obligation. intros HO v m (es & [-> _]%map_in_Ok & _)%bind_Ok. one_kind. Qed.
Next Obligation.
  intros HO v m (es & [-> Hk]%map_in_Ok & Hr)%bind_Ok. apply entries_from_held in Hr; [done| |apply map_Forall_empty]. by apply keys_are_text_spec.
Qed.
Next Obligation. intros HO v. apply bind_calm; [apply refuse_as_calm|]. intros l _. apply entries_from_calm. Qed.
End maps.
