(* ===== verification/DurationLaws.v ===== *)
(** * A length of time, however it is spelled

    [convert/durations.rs]: what [seconds_of] makes of a number's text is what the
    text denotes, exactly, and a duration is read back from what it is written as. *)

From S2P Require Import Prelude Decimal Calendar Errors Reader Span Number Value Maps JsonNumber Float64 KindLaws Build BuildLaws Convert ConvertLaws.

#[local] Arguments bs _ : simpl never.

(** ** [seconds_of], over the parts a number is written in *)

Definition written_exponent (p : Parts) : Z := if exp_minus p then - num (exp_digits p) else num (exp_digits p).
Definition exponent_fits (text : bytes) : Prop := i64_min <= written_exponent (parts_of text) <= i64_max.

(** What is left to do once the parts are known. *)
Definition seconds_parts (p : Parts) : option (Z * Z) :=
  let ds := whole p ++ fraction p in
  let ds := drop (leading_zeros ds) ds in
  let trimmed := pop_zeros ds in
  if bool_decide (trimmed = []) then Some (0, 0)
  else if minus p then None
  else
    shift ← checked_i64 (written_exponent p - Z.of_nat (length (fraction p)));
    shift ← checked_i64 (shift + 9);
    shift ← checked_i64 (shift + Z.of_nat (length ds - length trimmed));
    if shift <? 0 then None
    else
      nanos ← parse_int 0 u128_max trimmed;
      nanos ← tens (Z.to_nat (Z.min shift 39)) nanos;
      let secs := nanos / 1000000000 in
      if secs <=? u64_max then Some (secs, nanos mod 1000000000) else None.

Lemma parse_int_digits lo hi ds : digits ds -> ds <> [] -> lo <= 0 -> parse_int lo hi ds = if num ds <=? hi then Some (num ds) else None.
Proof.
  intros Hd Hne Hlo. destruct ds as [|d ds]; [done|]. inversion Hd as [|? ? Hb _]; subst. apply is_digit_spec in Hb as Hb'.
  unfold parse_int. decided (d =? 43) false. decided (d =? 45) false. cbn [andb]. rewrite bool_decide_eq_false_2 by done.
  rewrite (proj2 (digits_forallb _) Hd). cbn [negb andb]. rewrite Z.mul_1_l. pose proof (num_bound _ Hd).
  by decided (lo <=? num (d :: ds)) true.
Qed.

(** The exponent, with its sign. *)
Lemma parse_exponent (neg : bool) s ds : digits ds -> ds <> [] -> (if neg then s = bs "-" else s = [] \/ s = bs "+") ->
  i64_min <= (if neg then - num ds else num ds) <= i64_max -> parse_int i64_min i64_max (s ++ ds) = Some (if neg then - num ds else num ds).
Proof.
  intros Hd Hne Hs Hb. pose proof (num_bound _ Hd) as Hn.
  assert (forall k, i64_min <= k * num ds <= i64_max -> (if negb (bool_decide (ds = [])) && forallb is_digit ds then
    let n := k * num ds in if (i64_min <=? n) && (n <=? i64_max) then Some n else None else None) = Some (k * num ds)) as Hp.
  { intros k Hk. rewrite bool_decide_eq_false_2 by done. rewrite (proj2 (digits_forallb _) Hd). cbn. by decided ((i64_min <=? k * num ds) && (k * num ds <=? i64_max)) true. }
  destruct neg.
  - subst s. unfold parse_int. cbn [app]. change (bs "-" ++ ds) with (45 :: ds). cbn [Z.eqb Pos.eqb]. change (i64_min <? 0) with true. cbn [andb].
    rewrite Hp by lia. f_equal; lia.
  - destruct Hs as [->| ->].
    + cbn [app]. rewrite parse_int_digits by done. by decided (num ds <=? i64_max) true.
    + change (bs "+" ++ ds) with (43 :: ds). unfold parse_int. cbn [Z.eqb Pos.eqb]. rewrite Hp by lia. f_equal; lia.
Qed.

Lemma seconds_of_parts text : json_number text -> exponent_fits text -> seconds_of text = seconds_parts (parts_of text).
Proof.
  intros Hn He. unfold exponent_fits in He. pose proof (parts_of_written _ Hn) as (f & x & E & Hi & Hf & Hx).
  set (p := parts_of text) in *. clearbody p. subst text. unfold seconds_of. rewrite (strip_minus _ _ _ Hi).
  pose proof (int_text_digits _ Hi) as Hd.
  assert (HM : Forall (λ b, is_exp_mark b = false) (whole p ++ f)).
  { apply Forall_app. split; [by apply (digits_not _ _ exp_mark_not_digit)|].
    destruct Hf as [[-> _]|(-> & Hfd & _)]; [done|]. constructor; [done|]. by apply (digits_not _ _ exp_mark_not_digit). }
  assert (HF : match split_first (λ b, b =? 46) (whole p ++ f) with Some (w, f0) => (w, f0) | None => (whole p ++ f, []) end = (whole p, fraction p)).
  { destruct Hf as [[-> ->]|(-> & _ & _)].
    - rewrite app_nil_r, split_first_None; [done|]. by apply (digits_not _ _ point_not_digit).
    - change (bs "." ++ fraction p) with (46 :: fraction p). by rewrite split_first_Some by (first [by apply (digits_not _ _ point_not_digit)|done]). }
  assert (HS : match split_first is_exp_mark (whole p ++ f ++ x) with
      | Some (mantissa, e) => parse_int i64_min i64_max e ≫= λ e, Some (mantissa, e)
      | None => Some (whole p ++ f ++ x, 0) end = Some (whole p ++ f, written_exponent p)).
  { destruct Hx as [(-> & Hm & Hed)|(c & s & -> & Hc & Hs & Hed & Hne)].
    - rewrite !app_nil_r, split_first_None by done. unfold written_exponent. by rewrite Hm, Hed.
    - rewrite app_assoc, split_first_Some by (first [done|by destruct Hc as [->| ->]]). unfold written_exponent in *.
      by rewrite (parse_exponent (exp_minus p)). }
  rewrite HS. cbn [mbind option_bind]. by rewrite HF.
Qed.

(** ** The arithmetic *)

Lemma tens_spec k : forall n, 0 < n -> tens k n = if n * 10 ^ Z.of_nat k <=? u128_max then Some (n * 10 ^ Z.of_nat k) else if decide (k = 0%nat) then Some n else None.
Proof.
  induction k as [|k IH]; intros n Hn.
  - cbn [tens]. change (10 ^ Z.of_nat 0) with 1. rewrite Z.mul_1_r. by destruct (_ <=? _).
  - cbn [tens]. unfold checked_u128. rewrite Nat2Z.inj_succ, Z.pow_succ_r, Z.mul_assoc by lia. pose proof (pow10_pos (Z.of_nat k) ltac:(lia)) as Hp.
    destruct (Z.leb_spec (n * 10) u128_max); cbn [mbind option_bind].
    + rewrite IH by lia. destruct (Z.leb_spec (n * 10 * 10 ^ Z.of_nat k) u128_max) as [|Hk]; [done|].
      destruct (decide (k = 0%nat)) as [->|]; [|done]. change (10 ^ Z.of_nat 0) with 1 in Hk. lia.
    + destruct (Z.leb_spec (n * 10 * 10 ^ Z.of_nat k) u128_max); [nia|done].
Qed.
(** Of something, thirty-nine rounds are more than a [u128] holds. *)
Lemma tens_past k n : 0 < n -> (39 <= k)%nat -> tens k n = None.
Proof.
  intros Hn Hk. rewrite tens_spec by done. rewrite decide_False by lia. destruct (Z.leb_spec (n * 10 ^ Z.of_nat k) u128_max) as [H|]; [|done].
  assert (10 ^ 39 <= 10 ^ Z.of_nat k) by (apply Z.pow_le_mono_r; lia). assert (u128_max < 10 ^ 39) by done. nia.
Qed.

Definition SECOND : Z := 1000000000.
(** What [n] nanoseconds are. *)
Definition in_seconds (n : Z) : option (Z * Z) := if n / SECOND <=? u64_max then Some (n / SECOND, n mod SECOND) else None.

Lemma in_seconds_Some n s f : 0 <= n -> in_seconds n = Some (s, f) <-> 0 <= s <= u64_max /\ 0 <= f < SECOND /\ s * SECOND + f = n.
Proof.
  intros Hn. unfold in_seconds. pose proof (Z.div_mod n SECOND ltac:(done)). pose proof (Z.mod_pos_bound n SECOND ltac:(done)).
  assert (0 <= n / SECOND) by by apply Z.div_pos. split.
  - destruct (Z.leb_spec (n / SECOND) u64_max); [|done]. intros [= <- <-]. lia.
  - intros (Hs & Hf & E). assert (n / SECOND = s) as -> by (unfold SECOND in *; dm). assert (n mod SECOND = f) as -> by (unfold SECOND in *; dm).
    by decided (s <=? u64_max) true.
Qed.

(** The last steps, of digits that are not all zeros. *)
Lemma last_steps g shift : 0 < g -> 0 <= shift ->
  (nanos ← (if g <=? u128_max then Some g else None); nanos ← tens (Z.to_nat (Z.min shift 39)) nanos;
   if nanos / 1000000000 <=? u64_max then Some (nanos / 1000000000, nanos mod 1000000000) else None) = in_seconds (g * 10 ^ shift).
Proof.
  intros Hg Hs. pose proof (pow10_pos shift Hs) as Hp.
  assert (forall N, u128_max < N -> in_seconds N = None) as Hbig.
  { intros N HN. unfold in_seconds. destruct (Z.leb_spec (N / SECOND) u64_max) as [H|]; [|done].
    pose proof (Z.div_mod N SECOND ltac:(done)). pose proof (Z.mod_pos_bound N SECOND ltac:(done)). assert (u128_max = 2 ^ 128 - 1) by done. unfold u64_max, SECOND in *. lia. }
  destruct (Z.leb_spec g u128_max) as [Hle|Hgt]; cbn [mbind option_bind]; [|by rewrite Hbig by nia].
  destruct (Z.le_gt_cases shift 38) as [Hs'|Hs'].
  - rewrite Z.min_l by lia. rewrite tens_spec by done. rewrite Z2Nat.id by done.
    destruct (Z.leb_spec (g * 10 ^ shift) u128_max) as [|H]; [done|]. rewrite (Hbig _ H). destruct (decide _) as [E|]; [|done].
    assert (shift = 0) as -> by lia. lia.
  - rewrite Z.min_r by lia. rewrite tens_past by (done || lia). rewrite Hbig; [done|].
    assert (10 ^ 39 <= 10 ^ shift) by (apply Z.pow_le_mono_r; lia). assert (u128_max < 10 ^ 39) by done. nia.
Qed.

(** The checked additions refuse only what is out of range whichever way it is counted. *)
Lemma shift_checked e lf t A (f : Z -> option A) : i64_min <= e <= i64_max -> 0 <= lf < 2 ^ 62 -> 0 <= t < 2 ^ 62 ->
  (shift ← checked_i64 (e - lf); shift ← checked_i64 (shift + 9); shift ← checked_i64 (shift + t); f shift) = f (e - lf + 9 + t) \/
  ((shift ← checked_i64 (e - lf); shift ← checked_i64 (shift + 9); shift ← checked_i64 (shift + t); f shift) = None /\
    (e - lf + 9 + t < 0 \/ 39 <= e - lf + 9 + t)).
Proof.
  intros He Hl Ht. unfold checked_i64.
  destruct ((i64_min <=? e - lf) && (e - lf <=? i64_max)) eqn:E1; cbn [mbind option_bind]; [|right; split; [done|unfold i64_min, i64_max in *; lia]].
  destruct ((i64_min <=? e - lf + 9) && (e - lf + 9 <=? i64_max)) eqn:E2; cbn [mbind option_bind]; [|right; split; [done|unfold i64_min, i64_max in *; lia]].
  destruct ((i64_min <=? e - lf + 9 + t) && (e - lf + 9 + t <=? i64_max)) eqn:E3; cbn [mbind option_bind]; [by left|right; split; [done|unfold i64_min, i64_max in *; lia]].
Qed.

Lemma in_seconds_big g shift : 0 < g -> 39 <= shift -> in_seconds (g * 10 ^ shift) = None.
Proof.
  intros Hg Hs. rewrite <- last_steps by lia. rewrite Z.min_r by lia. destruct (g <=? u128_max); [|done]. cbn [mbind option_bind].
  by rewrite tens_past by (done || lia).
Qed.

(** ** What the text denotes *)

Lemma denotes_nanos g shift N : 0 <= shift -> value_cmp (g, shift - 9) (N, -9) = Eq <-> g * 10 ^ shift = N.
Proof.
  intros Hs. unfold value_cmp. cbn [fst snd]. rewrite Z.min_r by lia. replace (shift - 9 - -9) with shift by lia.
  change (-9 - -9) with 0. rewrite Z.compare_eq_iff. lia.
Qed.
Lemma finer_than_nanos g shift N : shift < 0 -> ~ (10 | g) -> value_cmp (g, shift - 9) (N, -9) <> Eq.
Proof.
  intros Hs Hg. unfold value_cmp. cbn [fst snd]. rewrite Z.min_l by lia. replace (shift - 9 - (shift - 9)) with 0 by lia.
  replace (-9 - (shift - 9)) with (Z.succ (- shift - 1)) by lia. rewrite Z.pow_succ_r by lia. intros E%Z.compare_eq. apply Hg.
  exists (N * 10 ^ (- shift - 1)). lia.
Qed.

(** [seconds_of] answers what the number is in whole seconds and nanoseconds, and
    nothing when it is negative, finer than a nanosecond or past a [u64] of seconds. *)
Lemma seconds_parts_exact text p s n : JsonNumber.written text p -> i64_min <= written_exponent p <= i64_max -> Z.of_nat (length text) < 2 ^ 62 ->
  seconds_parts p = Some (s, n) <-> 0 <= s <= u64_max /\ 0 <= n < SECOND /\ value_cmp (parts_value p) (s * SECOND + n, -9) = Eq.
Proof.
  intros (f & x & -> & Hi & Hf & Hx) He Hlen. unfold seconds_parts. set (ds := whole p ++ fraction p).
  assert (Hds : digits ds).
  { apply digits_app. split; [by apply int_text_digits|]. destruct Hf as [[_ ->]|(_ & Hf & _)]; [constructor|done]. }
  destruct (leading_zeros_split ds) as [E Hh]. set (k := leading_zeros ds) in *.
  destruct (pop_zeros_split (drop k ds)) as (t & E' & Hl). set (dg := pop_zeros (drop k ds)) in *.
  assert (Hdg : digits dg) by (rewrite E, E' in Hds; by apply digits_app in Hds as [_ [? _]%digits_app]).
  assert (Hm : num ds = num dg * 10 ^ Z.of_nat t) by (rewrite E, E', num_zeros, num_app, num_replicate0, length_replicate; lia).
  assert (Ht : (length (drop k ds) - length dg = t)%nat) by (rewrite E' at 1; rewrite length_app, length_replicate; lia).
  assert (Hfr : (length (fraction p) <= length f)%nat) by (destruct Hf as [[-> ->]|(-> & _)]; [cbn; lia|rewrite length_app; lia]).
  rewrite !length_app, !Nat2Z.inj_add in Hlen.
  assert (Htd : (t <= length ds)%nat).
  { pose proof (f_equal length E') as El. rewrite length_app, length_replicate, length_drop in El. lia. }
  unfold ds in Htd. rewrite length_app in Htd.
  set (sg := if minus p then -1 else 1). set (e := written_exponent p) in *. set (lf := Z.of_nat (length (fraction p))) in *.
  set (shift := e - lf + 9 + Z.of_nat t).
  assert (Hv : forall N, value_cmp (parts_value p) (N, -9) = value_cmp (sg * num dg, shift - 9) (N, -9)).
  { intros N. apply same_value_cmp; [|by exists 0; cbn; lia]. exists (Z.of_nat t). unfold parts_value. fold ds. cbn [fst snd]. rewrite Hm. unfold sg, shift, e, lf, written_exponent.
    split_and!; [lia|destruct (minus p); lia|destruct (exp_minus p); lia]. }
  rewrite Hv. destruct (bool_decide_reflect (dg = [])) as [Hn|Hn].
  { rewrite Hn. change (num []) with 0. rewrite Z.mul_0_r. assert (value_cmp (0, shift - 9) (s * SECOND + n, -9) = Eq <-> s * SECOND + n = 0) as ->.
    { unfold value_cmp. cbn [fst snd]. rewrite Z.mul_0_l, Z.compare_eq_iff. pose proof (pow10_pos (-9 - Z.min (shift - 9) (-9)) ltac:(lia)). nia. }
    unfold SECOND, u64_max. split; [intros [= <- <-]; lia|]. intros (Hs & Hn' & H0). f_equal. f_equal; lia. }
  pose proof (num_pos_last _ Hdg Hl Hn) as Hpos. pose proof (num_last_10 _ Hdg Hl Hn) as Hten.
  destruct (minus p) eqn:Em.
  { split; [done|]. intros (Hs & Hn' & H0). exfalso. unfold sg in H0. destruct (Z.le_gt_cases 0 shift) as [Hsh|Hsh].
    - apply denotes_nanos in H0; [|done]. pose proof (pow10_pos shift Hsh). unfold SECOND in *. nia.
    - apply finer_than_nanos in H0; [done|done|]. intros Hd. apply Hten. replace (-1 * num dg) with (- num dg) in Hd by lia. by rewrite Z.divide_opp_r in Hd. }
  unfold sg in *. rewrite Z.mul_1_l in *. clear Hv.
  rewrite parse_int_digits by done.
  destruct (shift_checked e lf (Z.of_nat t) _ (λ shift, if shift <? 0 then None else
      nanos ← (if num dg <=? u128_max then Some (num dg) else None); nanos ← tens (Z.to_nat (Z.min shift 39)) nanos;
      if nanos / 1000000000 <=? u64_max then Some (nanos / 1000000000, nanos mod 1000000000) else None)) as [Hc|[Hc Hout]]; [done|unfold lf; lia|lia| |];
    rewrite Ht; rewrite Hc.
  - cbv beta. change (e - lf + 9 + Z.of_nat t) with shift. destruct (Z.ltb_spec shift 0).
    + split; [done|]. intros (_ & _ & H0). by apply finer_than_nanos in H0.
    + rewrite last_steps by done. rewrite denotes_nanos by done. pose proof (pow10_pos shift ltac:(done)).
      rewrite in_seconds_Some by nia. naive_solver.
  - split; [done|]. intros (Hs & Hn' & H0). exfalso. change (e - lf + 9 + Z.of_nat t) with shift in Hout. destruct Hout as [Hout|Hout]; [by apply finer_than_nanos in H0|].
    apply denotes_nanos in H0; [|lia]. pose proof (in_seconds_big (num dg) shift Hpos Hout) as Hb.
    assert (in_seconds (num dg * 10 ^ shift) = Some (s, n)) as Hc'; [|congruence]. apply in_seconds_Some; [|done].
    pose proof (pow10_pos shift ltac:(lia)). nia.
Qed.

(** ** Durations cross *)

Lemma u64_of_Ok v n : u64_of v = Ok n -> 0 <= n <= u64_max.
Proof. intros (k & Hk & ->)%fmap_Ok. apply read_int_Ok in Hk as [Hk _]. done. Qed.
Lemma u32_of_Ok v n : u32_of v = Ok n -> 0 <= n <= u32_max.
Proof. intros (k & Hk & ->)%fmap_Ok. apply read_int_Ok in Hk as [Hk _]. done. Qed.
Lemma u64_of_calm v : u64_of v <> Err Panic.
Proof. apply fmap_calm, read_int_calm. Qed.
Lemma u32_of_calm v : u32_of v <> Err Panic.
Proof. apply fmap_calm, read_int_calm. Qed.
Lemma u64_of_back n : 0 <= n <= u64_max -> u64_of (VNumber (signed_dec n)) = Ok n.
Proof. intros H. unfold u64_of. change (signed_dec n) with (int_text (MkInt (w := U64) n)). by rewrite read_int. Qed.
Lemma u32_of_back n : 0 <= n <= u32_max -> u32_of (VNumber (signed_dec n)) = Ok n.
Proof. intros H. unfold u32_of. change (signed_dec n) with (int_text (MkInt (w := U32) n)). by rewrite read_int. Qed.

(** What each spelling gives before its nanoseconds are checked. *)
Definition duration_parts (v : Value) : reading (Z * Z) :=
  let refused : fault MapError := Refuse (bad_value DURATION) in
  match v with
  | VList [secs; nanos] =>
      secs ← placed_at (at_index 0) (u64_of secs); nanos ← placed_at (at_index 1) (u32_of nanos); Ok (secs, nanos)
  | VMap _ =>
      m ← map_in v;
      secs ← required m (bs "secs"); secs ← placed_at (under_key (bs "secs")) (u64_of secs);
      nanos ← required m (bs "nanos"); nanos ← placed_at (under_key (bs "nanos")) (u32_of nanos); Ok (secs, nanos)
  | VNumber _ => t ← ok_or (as_number v) refused; ok_or (seconds_of t) refused
  | _ => Err refused
  end.
Definition duration_checked (p : Z * Z) : reading Duration :=
  if 1000000000 <=? p.2 then Err (Refuse (at_index 1 (bad_value (bs "nanoseconds below 1000000000")))) else Ok (MkDuration p.1 p.2).
Lemma duration_by_spelling v : duration_from_value v = duration_parts v ≫= duration_checked.
Proof.
  unfold duration_from_value, duration_parts, duration_checked. destruct v as [| |b|t|t|b|l|m|n]; cbn [tag raw_tag]; try done.
  - change (tag (VNumber t)) with (@Ok ValueError Tag GUATIAO_NUMBER). destruct (as_number (VNumber t)) as [t'|]; [|done]. cbn. by destruct (seconds_of t') as [[]|].
  - destruct l as [|a [|b [|c l]]]; try done. cbn. destruct (u64_of a); [|done]. cbn. by destruct (u32_of b).
  - change (tag (VMap m)) with (@Ok ValueError Tag GUATIAO_MAP). destruct (map_in (VMap m)) as [m'|]; [|done]. cbn.
    destruct (required m' (bs "secs")) as [vs|]; [|done]. cbn. destruct (u64_of vs); [|done]. cbn. destruct (required m' (bs "nanos")) as [vn|]; [|done]. cbn. by destruct (u32_of vn).
  - by rewrite tag_unknown.
Qed.

Lemma tens_nonneg k : forall n m, 0 <= n -> tens k n = Some m -> 0 <= m.
Proof.
  induction k as [|k IH]; intros n m Hn; cbn [tens]; [by intros [= <-]|]. unfold checked_u128. destruct (_ <=? _); [|done]. cbn. apply IH. lia.
Qed.
Lemma seconds_of_bound t s n : seconds_of t = Some (s, n) -> 0 <= s <= u64_max /\ 0 <= n < SECOND.
Proof.
  unfold seconds_of. destruct (match strip_byte 45 t with Some _ => _ | None => _ end) as [neg rest].
  intros ([mantissa e] & _ & H)%bind_Some. destruct (match split_first _ mantissa with Some _ => _ | None => _ end) as [w fr].
  destruct (bool_decide _); [by injection H as <- <-|]. destruct neg; [done|].
  apply bind_Some in H as (s1 & _ & H). apply bind_Some in H as (s2 & _ & H). apply bind_Some in H as (s3 & _ & H).
  destruct (s3 <? 0); [done|]. apply bind_Some in H as (a & Ha & H). apply bind_Some in H as (b & Hb & H).
  apply parse_int_bounds in Ha. apply tens_nonneg in Hb; [|lia]. destruct (Z.leb_spec (b / 1000000000) u64_max); [|done]. injection H as <- <-.
  split; [split; [by apply Z.div_pos|done]|by apply Z.mod_pos_bound].
Qed.
Lemma duration_parts_bound v s n : duration_parts v = Ok (s, n) -> 0 <= s <= u64_max /\ 0 <= n.
Proof.
  destruct v as [| |b|t|t|b|l|m|k]; cbn [duration_parts]; try done.
  - intros (t' & _ & H)%bind_Ok. apply ok_or_Ok, seconds_of_bound in H. lia.
  - destruct l as [|a [|b [|c l]]]; try done. intros (s' & H1%placed_at_Ok & (n' & H2%placed_at_Ok & [= <- <-])%bind_Ok)%bind_Ok.
    apply u64_of_Ok in H1. apply u32_of_Ok in H2. lia.
  - intros (m' & _ & (vs & _ & (s' & H1%placed_at_Ok & (vn & _ & (n' & H2%placed_at_Ok & [= <- <-])%bind_Ok)%bind_Ok)%bind_Ok)%bind_Ok)%bind_Ok.
    apply u64_of_Ok in H1. apply u32_of_Ok in H2. lia.
Qed.

#[export] Program Instance duration_crosses : Crosses Duration := {| holds := duration_wf |}.
Next Obligation.
  intros [s n] [Hs Hn]. cbn in Hs, Hn. unfold to_value, duration_to. cbn [as_secs subsec_nanos]. rewrite !write_int. cbn [mbind result_bind].
  eexists. split; [done|]. cbn [from_value duration_from]. rewrite duration_by_spelling. cbn [duration_parts int_text int_val]. unfold int_text. cbn [int_val].
  rewrite u64_of_back by done. rewrite u32_of_back by (unfold u32_max, NANOS_PER_SECOND in *; lia). cbn. unfold duration_checked. cbn [fst snd].
  unfold NANOS_PER_SECOND in Hn. by decided (1000000000 <=? n) false.
Qed.
Next Obligation.
  intros d v. unfold to_value, duration_to. rewrite !write_int. intros [= <-]. right. exists GUATIAO_LIST. by split.
Qed.
Next Obligation.
  intros v d. cbn [from_value duration_from]. rewrite duration_by_spelling. intros (p & Hp & _)%bind_Ok. right.
  destruct v; try done; eexists; by split.
Qed.
Next Obligation.
  intros v d. cbn [from_value duration_from]. rewrite duration_by_spelling. intros ([s n] & Hp%duration_parts_bound & Hd)%bind_Ok.
  unfold duration_checked in Hd. cbn [fst snd] in Hd. destruct (Z.leb_spec 1000000000 n); [done|]. injection Hd as <-. split; cbn; [lia|]. unfold NANOS_PER_SECOND. lia.
Qed.
Next Obligation.
  intros v. cbn [from_value duration_from]. rewrite duration_by_spelling. apply bind_calm.
  - destruct v as [| |b|t|t|b|l|m|k]; cbn [duration_parts]; try done.
    + apply bind_calm; [by destruct (as_number _)|]. intros t' _. by destruct (seconds_of t').
    + destruct l as [|a [|b [|c l]]]; try done. repeat (apply bind_calm; [apply placed_at_calm; first [apply u64_of_calm|apply u32_of_calm]|intros ? _]). done.
    + apply bind_calm; [apply refuse_as_calm|]. intros m' _. repeat (apply bind_calm; [first [apply refuse_as_calm|apply placed_at_calm; first [apply u64_of_calm|apply u32_of_calm]]|intros ? _]). done.
  - intros [s n] _. unfold duration_checked. by destruct (_ <=? _).
Qed.

(** ** Properties *)


(** A zero whose exponent is past an [i64] is refused, though it is zero seconds. *)
Example zero_past_the_exponent : seconds_of (bs "0e99999999999999999999") = None /\ seconds_of (bs "0e999") = Some (0, 0).
Proof. split; vm_compute; reflexivity. Qed.
