(* ===== verification/FieldTypes.v ===== *)
(** * The types a field can have

    The conversions of [Convert] put together: the types that are built from the scalars,
    the keys and the containers whose conversions are modelled, as data, and that every
    one of them crosses; and what an integer is read from, at each width. *)

From S2P Require Import Prelude Decimal Errors Calendar TextForm Span Civil Instants SpanParse Number Value Maps Encode Walk JsonNumber Float64 BuildLaws Convert ConvertLaws DurationLaws.

#[local] Arguments bs _ : simpl never.

(** ** Types *)

(** What a map or a set is keyed by. *)
Inductive Key : Type := KString | KInt (w : IntType) | KChar | KBool.
Inductive Scalar : Type :=
  | SBool | SInt (w : IntType) | SNonZero (w : IntType) | SString | SPath | SBytes | SChar | SUnit
  | SDate | STime | SDateTime | STimestamp | SSpan | SDuration | SValue.
Inductive Ty : Type :=
  | TScalar (s : Scalar)
  | TOption (t : Ty)
  | TVec (t : Ty)
  | TDeque (t : Ty)
  | TArray (n : nat) (t : Ty)
  | TSet (k : Key)
  | TMap (k : Key) (t : Ty)
  | TTuple (ts : Tys)
with Tys : Type := TNil | TCons (t : Ty) (ts : Tys).

Definition key_type (k : Key) : Type := match k with KString => String_ | KInt w => int w | KChar => char | KBool => bool end.
#[export] Instance key_type_eq_dec k : EqDecision (key_type k).
Proof. destruct k; cbn; apply _. Defined.
#[export] Instance key_type_countable k : Countable (key_type k).
Proof. destruct k; cbn; apply _. Defined.
#[export] Instance key_type_ordered k : Ordered (key_type k) :=
  match k with KString => string_ordered | KInt w => int_ordered w | KChar => char_ordered | KBool => bool_ordered end.
#[export] Instance key_type_key k : MapKey (key_type k) :=
  match k with KString => string_key | KInt w => int_key w | KChar => char_key | KBool => bool_key end.
#[export] Instance key_type_to k : ToValue (key_type k) :=
  match k with KString => string_to | KInt w => int_to w | KChar => char_to | KBool => bool_to end.
#[export] Instance key_type_from k : FromValue (key_type k) :=
  match k with KString => string_from | KInt w => int_from w | KChar => char_from | KBool => bool_from end.

Definition scalar_type (s : Scalar) : Type :=
  match s with
  | SBool => bool | SInt w => int w | SNonZero w => NonZero w | SString => String_ | SPath => PathBuf | SBytes => Bytes
  | SChar => char | SUnit => unit | SDate => Date | STime => Time | SDateTime => DateTime | STimestamp => Timestamp
  | SSpan => Span | SDuration => Duration | SValue => Value
  end.
#[export] Instance scalar_to s : ToValue (scalar_type s).
Proof. destruct s; cbn; apply _. Defined.
#[export] Instance scalar_from s : FromValue (scalar_type s).
Proof. destruct s; cbn; apply _. Defined.

Fixpoint type_of (t : Ty) : Type :=
  match t with
  | TScalar s => scalar_type s
  | TOption t => option (type_of t)
  | TVec t => list (type_of t)
  | TDeque t => VecDeque (type_of t)
  | TArray n t => Array n (type_of t)
  | TSet k => gset (key_type k)
  | TMap k t => gmap (key_type k) (type_of t)
  | TTuple ts => Tuple (types_of ts)
  end
with types_of (ts : Tys) : Type := match ts with TNil => unit | TCons t ts => type_of t * types_of ts end.

(** The conversions of each: the instances of its parts, put together. *)
Fixpoint ty_to (t : Ty) : ToValue (type_of t) :=
  match t with
  | TScalar s => scalar_to s
  | TOption t => @option_to _ (ty_to t)
  | TVec t => @vec_to _ (ty_to t)
  | TDeque t => @deque_to _ (ty_to t)
  | TArray n t => @array_to n _ (ty_to t)
  | TSet k => set_to
  | TMap k t => @map_to _ _ _ _ _ _ (ty_to t)
  | TTuple ts => @tuple_to _ (ty_positions ts)
  end
with ty_from (t : Ty) : FromValue (type_of t) :=
  match t with
  | TScalar s => scalar_from s
  | TOption t => @option_from _ (ty_from t)
  | TVec t => @vec_from _ (ty_from t)
  | TDeque t => @deque_from _ (ty_from t)
  | TArray n t => @array_from n _ (ty_from t)
  | TSet k => set_from
  | TMap k t => @map_from _ _ _ _ _ (ty_from t)
  | TTuple ts => @tuple_from _ (ty_positions ts)
  end
with ty_positions (ts : Tys) : Positions (types_of ts) :=
  match ts with
  | TNil => no_positions
  | TCons t ts => @one_position _ (ty_to t) (ty_from t) _ (ty_positions ts)
  end.
#[export] Existing Instances ty_to ty_from ty_positions.

(** A [None] is told from what it would hold: no [Option] is of a type that reads a null
    ([Option<()>], [Option<Option<T>>], [Option<Value>]). *)
Fixpoint separable (t : Ty) : bool :=
  match t with
  | TScalar _ | TSet _ => true
  | TOption t => negb (kinds_contains (KINDS (type_of t)) GUATIAO_NULL) && separable t
  | TVec t | TDeque t | TArray _ t | TMap _ t => separable t
  | TTuple ts => all_separable ts
  end
with all_separable (ts : Tys) : bool := match ts with TNil => true | TCons t ts => separable t && all_separable ts end.

(** ** Values of a type *)

Definition key_type_holds (k : Key) : key_type k -> Prop :=
  match k with KString => λ s, is_utf8 (str_bytes s) = true | KInt w => int_holds | KChar => char_holds | KBool => λ _, True end.
Definition scalar_holds (s : Scalar) : scalar_type s -> Prop :=
  match s with
  | SBool | SBytes | SUnit => λ _, True
  | SInt w => int_holds
  | SNonZero w => nonzero_holds
  | SString => λ s, is_utf8 (str_bytes s) = true
  | SPath => λ p, is_utf8 (path_bytes p) = true
  | SChar => char_holds
  | SDate => date_wf | STime => time_wf | SDateTime => datetime_wf | STimestamp => tf_wf | SSpan => tf_wf
  | SDuration => duration_wf
  | SValue => λ v, uncopiable v = None
  end.
Fixpoint ty_holds (t : Ty) : type_of t -> Prop :=
  match t with
  | TScalar s => scalar_holds s
  | TOption t => λ o, match o with Some a => ty_holds t a | None => True end
  | TVec t => Forall (ty_holds t)
  | TDeque t => λ d, Forall (ty_holds t) (deque_items d)
  | TArray n t => λ a, length (array_items a) = n /\ Forall (ty_holds t) (array_items a)
  | TSet k => set_Forall (key_type_holds k)
  | TMap k t => map_Forall (λ x a, key_type_holds k x /\ ty_holds t a)
  | TTuple ts => λ x, tys_hold ts (tuple_items x)
  end
with tys_hold (ts : Tys) : types_of ts -> Prop :=
  match ts with TNil => λ _, True | TCons t ts => λ x, ty_holds t x.1 /\ tys_hold ts x.2 end.

(** ** They cross *)

Definition ty_crosses (t : Ty) : Prop := exists C : Crosses (type_of t), forall a, ty_holds t a <-> @holds _ _ _ C a.
Definition tys_cross (ts : Tys) : Prop := exists C : PositionsCross (types_of ts), forall a, tys_hold ts a <-> @all_hold _ _ C a.

Lemma scalar_crosses s : ty_crosses (TScalar s).
Proof.
  unfold ty_crosses. cbn [type_of ty_to ty_from ty_holds].
  destruct s; cbn [scalar_type scalar_to scalar_from scalar_holds]; eexists; intros a; first [exact (iff_refl _)|reflexivity].
Qed.
Lemma key_type_crosses k : exists C : Crosses (key_type k), forall a, key_type_holds k a <-> @holds _ _ _ C a.
Proof. destruct k; eexists; intros a; exact (iff_refl _). Qed.
Lemma key_type_key_crosses k : exists C : KeyCrosses (key_type k), forall a, key_type_holds k a <-> @key_holds _ _ C a.
Proof. destruct k; eexists; intros a; exact (iff_refl _). Qed.

Scheme ty_induction := Induction for Ty Sort Prop with tys_induction := Induction for Tys Sort Prop.
Combined Scheme types_induction from ty_induction, tys_induction.

Lemma types_compose : (forall t, separable t = true -> ty_crosses t) /\ (forall ts, all_separable ts = true -> tys_cross ts).
Proof.
  assert (forall A (P Q : A -> Prop) l, (forall a, P a <-> Q a) -> Forall P l <-> Forall Q l) as HF.
  { intros A P Q l H. split; rewrite !Forall_forall; naive_solver. }
  apply types_induction; unfold ty_crosses, tys_cross; cbn [separable all_separable type_of types_of ty_to ty_from ty_positions ty_holds tys_hold].
  - intros s _. apply scalar_crosses.
  - intros t IH [Hn Hs]%andb_true_iff. destruct (IH Hs) as [C HC]. apply negb_true_iff in Hn.
    assert (TCEq (A := bool) (kinds_contains (KINDS (type_of t)) GUATIAO_NULL) false) as HT by (by rewrite Hn).
    exists (option_crosses (Hplain := HT)). intros [a|]; [apply HC|done].
  - intros t IH Hs. destruct (IH Hs) as [C HC]. exists vec_crosses. intros a. by apply HF.
  - intros t IH Hs. destruct (IH Hs) as [C HC]. exists deque_crosses. intros a. by apply HF.
  - intros n t IH Hs. destruct (IH Hs) as [C HC]. exists (array_crosses n). intros a. cbn. unfold array_holds. by rewrite (HF _ _ _ _ HC).
  - intros k _. destruct (key_type_crosses k) as [C HC]. exists set_crosses. intros a. cbn. unfold set_Forall. naive_solver.
  - intros k t IH Hs. destruct (IH Hs) as [C HC]. destruct (key_type_key_crosses k) as [K HK]. exists map_crosses. intros a. cbn.
    unfold map_Forall, entry_holds. cbn. naive_solver.
  - intros ts IH Hs. destruct (IH Hs) as [C HC]. exists tuple_crosses. intros a. apply HC.
  - intros _. exists no_positions_cross. done.
  - intros t IH ts IHs [Hs Hss]%andb_true_iff. destruct (IH Hs) as [C HC]. destruct (IHs Hss) as [D HD]. exists one_position_cross.
    intros a. cbn. by rewrite HC, HD.
Qed.

(** ** Integers, written plainly *)

Definition plainly (text : bytes) : bool := negb (existsb (λ b, (b =? 46) || is_exp_mark b) text).

(** A number with neither a point nor an exponent is its digits, with or without a minus. *)
Lemma plain_number text : json_number text -> plainly text = true ->
  exists (neg : bool) ds, text = (if neg then [45] else []) ++ ds /\ digits ds /\ ds <> [] /\ number_value text = (if neg then - num ds else num ds, 0).
Proof.
  intros Hj Hp. destruct (parts_of_written _ Hj) as (f & x & E & Hi & Hf & Hx). unfold number_value. set (p := parts_of text) in *. clearbody p.
  unfold plainly in Hp. apply negb_true_iff in Hp.
  assert (forall b, b ∈ text -> (b =? 46) || is_exp_mark b = false) as Hno.
  { intros b Hb. destruct ((b =? 46) || is_exp_mark b) eqn:Eb; [|done]. rewrite <- Hp. symmetry. apply existsb_exists. exists b. by rewrite <- list_elem_of_In. }
  assert (x = [] /\ exp_minus p = false /\ exp_digits p = []) as (-> & Em & Ed).
  { destruct Hx as [Hx|(c & s & -> & Hc & _)]; [done|]. exfalso. assert (c ∈ text) as Hin by (rewrite E; set_solver). apply Hno in Hin. by destruct Hc as [->| ->]. }
  assert (f = [] /\ fraction p = []) as (-> & Ef).
  { destruct Hf as [Hf|(-> & _)]; [done|]. exfalso. assert (46 ∈ text) as Hin by (rewrite E; set_solver). by apply Hno in Hin. }
  exists (minus p), (whole p). split_and!; [by rewrite E, !app_nil_r|by apply int_text_digits|by destruct Hi as [->|(? & ? & -> & _)]|].
  unfold parts_value. by rewrite Em, Ed, Ef, app_nil_r.
Qed.

Lemma parse_int_plain lo hi (neg : bool) ds : digits ds -> ds <> [] -> lo <= 0 ->
  parse_int lo hi ((if neg then [45] else []) ++ ds) =
  let n := if neg then - num ds else num ds in if (negb neg || (lo <? 0)) && (lo <=? n) && (n <=? hi) then Some n else None.
Proof.
  intros Hd Hne Hlo. pose proof (num_bound _ Hd) as Hb. destruct neg; cbn [app negb orb].
  - unfold parse_int. cbn [Z.eqb Pos.eqb andb]. destruct (lo <? 0); cbn [andb].
    + rewrite bool_decide_eq_false_2 by done. rewrite (proj2 (digits_forallb _) Hd). cbn [negb andb]. by replace (-1 * num ds) with (- num ds) by lia.
    + rewrite bool_decide_eq_false_2 by done. cbn [forallb negb andb]. done.
  - rewrite parse_int_digits by done. cbv zeta. by decided (lo <=? num ds) true.
Qed.

(** ** Properties *)


(** A map from ports to pairs of an optional list of characters and a length of time. *)
Definition ports_type : Ty := TMap (KInt U16) (TTuple (TCons (TOption (TVec (TScalar SChar))) (TCons (TScalar SDuration) TNil))).
Definition ports : type_of ports_type :=
  <[MkInt 80 := MkTuple (Some [MkChar 233; MkChar 97], (MkDuration 1 500000000, tt))]> (<[MkInt 8080 := MkTuple (None, (MkDuration 0 7, tt))]> ∅).

