(* ===== verification/Derive.v ===== *)
(** * What the derives write

    The conversions [#[derive(ToValue)]] and [#[derive(FromValue)]] generate, as the
    templates of [guatiao-derive] put them together from a declaration: [expand.rs]
    (structs, enums of names, tagged enums), [shapes.rs], [untagged.rs] and
    [rename.rs], and what generated code calls of [guatiao/src/lib.rs]. A declaration
    is a plan; a value of the declared type is a tuple of its fields, or a sum of its
    variants. *)

From S2P Require Import Prelude Decimal Errors Number Value Maps Convert.

#[local] Arguments bs _ : simpl never.

(** ** Names

    [rename.rs], of names that are ASCII. *)

Inductive RenameRule : Type := Lower | Snake | Kebab | ScreamingSnake.
Definition rule_parse (lit : bytes) : option RenameRule :=
  if bool_decide (lit = bs "lowercase") then Some Lower
  else if bool_decide (lit = bs "snake_case") then Some Snake
  else if bool_decide (lit = bs "kebab-case") then Some Kebab
  else if bool_decide (lit = bs "SCREAMING_SNAKE_CASE") then Some ScreamingSnake
  else None.
Definition lowered (b : byte) : byte := if is_upper b then b + 32 else b.
Definition dashed (name : bytes) : bytes := map (λ b, if b =? 95 then 45 else b) name.
Definition rule_field (rule : RenameRule) (name : bytes) : bytes :=
  match rule with Lower | Snake => name | Kebab => dashed name | ScreamingSnake => map to_upper name end.
Definition snake (name : bytes) : bytes :=
  concat (imap (λ i c, (if is_upper c && bool_decide (0 < i)%nat then [95] else []) ++ [lowered c]) name).
Definition rule_variant (rule : RenameRule) (name : bytes) : bytes :=
  match rule with
  | Lower => map lowered name
  | Snake => snake name
  | Kebab => dashed (snake name)
  | ScreamingSnake => map to_upper (snake name)
  end.

Example rules_ex :
  map (λ r, (rule_variant r (bs "HighDynamicRange"), rule_field r (bs "view_only"))) [Lower; Snake; Kebab; ScreamingSnake] =
  [(bs "highdynamicrange", bs "view_only"); (bs "high_dynamic_range", bs "view_only"); (bs "high-dynamic-range", bs "view-only");
   (bs "HIGH_DYNAMIC_RANGE", bs "VIEW_ONLY")] /\ rule_variant Kebab (bs "H264") = bs "h264".
Proof. split; vm_compute; reflexivity. Qed.

(** ** Fields *)

(** [flatten_into]: the entries of a map moved into another. *)
Fixpoint flat_entries (m flat : list (bytes * Value)) : writing (list (bytes * Value)) :=
  match flat with
  | [] => Ok m
  | e :: flat => if contains_key m e.1 then Err (Refuse DuplicateKey) else flat_entries (set_ m e.1 e.2) flat
  end.
Definition flatten_into (m : list (bytes * Value)) (flat : Value) : writing (list (bytes * Value)) :=
  flat ← ok_or (as_map flat) (Refuse WrongKind); flat_entries m flat.

(** [FieldPlan], as what its attributes make of a field: [skip] and its default;
    [flatten]; or a key, what [skip_serializing_if] asks, how the field is written and
    read, and what an absent key reads as. [write] is nothing for a [None]. *)
Inductive FieldPlan (A : Type) : Type :=
  | Skipped (default : A)
  | Flattened (to : A -> writing Value) (from : Value -> reading A)
  | Keyed (key : bytes) (skip_if : option (A -> bool)) (write : A -> option (writing Value)) (read : Value -> reading A) (absent : option A).
Arguments Skipped {A} default.
Arguments Flattened {A} to from.
Arguments Keyed {A} key skip_if write read absent.

(** The fields [set_value] and [read_field] tell apart: a plain one, an [Option]'s, one
    [with] a module of its own, and those [as_text], whose type shows and parses text
    ([text_of], [from_text] and [from_text_or_null]). *)
Definition plain_field {A} `{ToValue A, FromValue A} (key : bytes) (default : option A) (skip_if : option (A -> bool)) : FieldPlan A :=
  Keyed key skip_if (λ a, Some (to_value a)) from_value default.
Definition option_field {A} `{ToValue A, FromValue A} (key : bytes) (skip_if : option (option A -> bool)) : FieldPlan (option A) :=
  Keyed key skip_if (λ o, match o with Some a => Some (to_value a) | None => None end) from_value (Some None).
Definition with_field {A} (to : A -> writing Value) (from : Value -> reading A) (key : bytes) (default : option A) (skip_if : option (A -> bool)) : FieldPlan A :=
  Keyed key skip_if (λ a, Some (to a)) from default.
Record Texted (A : Type) := MkTexted { display : A -> bytes; from_str : bytes -> result bytes A }.
Arguments MkTexted {A} display from_str.
Arguments display {A} _.
Arguments from_str {A} _.
Definition from_text {A} (t : Texted A) (v : Value) : reading A :=
  s ← str_of v; map_err (λ e, Refuse (bad_value (bs "text this field reads (" ++ e ++ bs ")"))) (from_str t s).
Definition from_text_or_null {A} (t : Texted A) (v : Value) : reading (option A) :=
  if bool_decide (tag v = Ok GUATIAO_NULL) then Ok None else Some <$> from_text t v.
Definition text_field {A} (t : Texted A) (key : bytes) (default : option A) (skip_if : option (A -> bool)) : FieldPlan A :=
  Keyed key skip_if (λ a, Some (write_text (display t a))) (from_text t) default.
Definition text_option_field {A} (t : Texted A) (key : bytes) (skip_if : option (option A -> bool)) : FieldPlan (option A) :=
  Keyed key skip_if (λ o, match o with Some a => Some (write_text (display t a)) | None => None end) (from_text_or_null t) (Some None).

(** [set_field], and [read_field] of the map [m] of the value [v]. *)
Definition set_field {A} (f : FieldPlan A) (a : A) (m : list (bytes * Value)) : writing (list (bytes * Value)) :=
  match f with
  | Skipped _ => Ok m
  | Flattened to _ => v ← to a; flatten_into m v
  | Keyed key skip_if write _ _ =>
      if match skip_if with Some says => says a | None => false end then Ok m
      else match write a with Some w => v ← w; Ok (set_ m key v) | None => Ok m end
  end.
Definition read_field {A} (f : FieldPlan A) (v : Value) (m : list (bytes * Value)) : reading A :=
  match f with
  | Skipped default => Ok default
  | Flattened _ from => from v
  | Keyed key _ _ read absent =>
      match get m key with
      | Some field => placed_at (under_key key) (read field)
      | None => match absent with Some default => Ok default | None => Err (Refuse (missing key)) end
      end
  end.

(** ** Structs *)

(** The fields of a struct, in the order they are declared. *)
Inductive Plan : Type -> Type :=
  | PNil : Plan unit
  | PCons {A P : Type} (f : FieldPlan A) (rest : Plan P) : Plan (A * P).
Fixpoint set_fields {S} (p : Plan S) : S -> list (bytes * Value) -> writing (list (bytes * Value)) :=
  match p with
  | PNil => λ _ m, Ok m
  | PCons f rest => λ s m, m ← set_field f s.1 m; set_fields rest s.2 m
  end.
Fixpoint read_fields {S} (p : Plan S) (v : Value) (m : list (bytes * Value)) : reading S :=
  match p with
  | PNil => Ok tt
  | PCons f rest => a ← read_field f v m; s ← read_fields rest v m; Ok (a, s)
  end.
(** The key of each field that is written under one of its own. *)
Definition field_key {A} (f : FieldPlan A) : list bytes := match f with Keyed key _ _ _ _ => [key] | _ => [] end.
Fixpoint field_keys {S} (p : Plan S) : list bytes := match p with PNil => [] | PCons f rest => field_key f ++ field_keys rest end.
Fixpoint flattens {S} (p : Plan S) : bool :=
  match p with PNil => false | PCons f rest => match f with Flattened _ _ => true | _ => false end || flattens rest end.

(** [reject_duplicate_keys], and what [expand_struct] refuses beside it: whether the
    declaration compiles. *)
Fixpoint repeated (seen l : list bytes) : bool :=
  match l with [] => false | k :: l => bool_decide (k ∈ seen) || repeated (seen ++ [k]) l end.
Definition reject_duplicate_keys {S} (p : Plan S) : bool := repeated [] (field_keys p).
Definition compiles {S} (p : Plan S) (deny_unknown : bool) : bool :=
  negb (reject_duplicate_keys p) && negb (deny_unknown && flattens p).

(** [emit_to] and [emit_from]. *)
Definition struct_to {S} (p : Plan S) (s : S) : writing Value := VMap <$> set_fields p s [].
Definition undeclared {S} (p : Plan S) (m : list (bytes * Value)) : option (bytes * Value) :=
  List.find (λ e, negb (bool_decide (e.1 ∈ field_keys p))) m.
Definition struct_from {S} (p : Plan S) (deny_unknown : bool) (v : Value) : reading S :=
  m ← map_in v;
  match (if deny_unknown then undeclared p m else None) with
  | Some e => Err (Refuse (under_key e.1 (bad_value (bs "a declared field"))))
  | None => read_fields p v m
  end.

(** A struct of one field that crosses as the field does, and whose other fields are all
    skipped ([emit_transparent]); several unnamed fields are a [Tuple] and none the unit. *)
Definition transparent_to {A D} `{ToValue A} (s : A * D) : writing Value := to_value s.1.
Definition transparent_from {A D} `{FromValue A} (skipped : D) (v : Value) : reading (A * D) := a ← from_value v; Ok (a, skipped).

(** ** Enums *)

(** [one_of]. *)
Definition one_of (names : list bytes) : bytes := bs "one of " ++ joined (bs ", ") names.

(** An enum of unit variants, by the name each is stored as, with [#[map(other)]] or
    without: [emit_choice_to] and [emit_choice_from]. *)
Inductive Choice : Type := Named (i : nat) | OtherName (t : bytes).
Definition position_of (names : list bytes) (t : bytes) : option nat := fst <$> list_find (λ n, n = t) names.
Definition choice_to (names : list bytes) (c : Choice) : writing Value :=
  match c with
  | Named i => match names !! i with Some n => write_text n | None => Err Panic end
  | OtherName t => write_text t
  end.
Definition choice_from (names : list bytes) (other : bool) (v : Value) : reading Choice :=
  t ← str_of v;
  match position_of names t with
  | Some i => Ok (Named i)
  | None => if other then Ok (OtherName t) else Err (Refuse (bad_value (one_of names)))
  end.

(** A variant of a tagged enum: its stored name, and the fields beside the tag, or the
    one type whose map is written there. *)
Inductive Payload (A : Type) : Type :=
  | Fields (p : Plan A)
  | Newtype (to : A -> writing Value) (from : Value -> reading A).
Arguments Fields {A} p.
Arguments Newtype {A} to from.
Record Variant (A : Type) := MkVariant { stored : bytes; payload : Payload A }.
Arguments MkVariant {A} stored payload.
Arguments stored {A} _.
Arguments payload {A} _.
Inductive Variants : Type -> Type :=
  | VNil : Variants Empty_set
  | VCons {A V : Type} (v : Variant A) (rest : Variants V) : Variants (A + V).
Fixpoint names {V} (vs : Variants V) : list bytes := match vs with VNil => [] | VCons v rest => stored v :: names rest end.

(** [reject_duplicate_variants] and [reject_fields_on_the_tag]. *)
Definition reject_duplicate_variants {V} (vs : Variants V) : bool := repeated [] (names vs).
Fixpoint reject_fields_on_the_tag {V} (tag : bytes) (vs : Variants V) : bool :=
  match vs with
  | VNil => false
  | VCons v rest =>
      match payload v with Fields p => bool_decide (tag ∈ field_keys p) | Newtype _ _ => false end || reject_fields_on_the_tag tag rest
  end.

(** [emit_arm_to] and [emit_arm_from]. *)
Definition payload_to {A} (p : Payload A) (a : A) (m : list (bytes * Value)) : writing (list (bytes * Value)) :=
  match p with Fields p => set_fields p a m | Newtype to _ => v ← to a; flatten_into m v end.
Definition payload_from {A} (p : Payload A) (v : Value) (m : list (bytes * Value)) : reading A :=
  match p with Fields p => read_fields p v m | Newtype _ from => from v end.
Fixpoint arm_to {V} (tag : bytes) (vs : Variants V) : V -> writing (list (bytes * Value)) :=
  match vs with
  | VNil => λ x, match x with end
  | VCons v rest => λ x,
      match x with
      | inl a => payload_to (payload v) a (set_ [] tag (VString (stored v)))
      | inr x => arm_to tag rest x
      end
  end.
Fixpoint arm_from {V} (vs : Variants V) (name : bytes) (unknown : MapError) (v : Value) (m : list (bytes * Value)) : reading V :=
  match vs with
  | VNil => Err (Refuse unknown)
  | VCons arm rest =>
      if bool_decide (stored arm = name) then inl <$> payload_from (payload arm) v m else inr <$> arm_from rest name unknown v m
  end.
Definition tagged_to {V} (tag : bytes) (vs : Variants V) (x : V) : writing Value := VMap <$> arm_to tag vs x.
Definition tagged_from {V} (tag : bytes) (vs : Variants V) (v : Value) : reading V :=
  m ← map_in v;
  field ← required m tag;
  name ← placed_at (under_key tag) (str_of field);
  arm_from vs name (under_key tag (bad_value (one_of (names vs)))) v m.

(** An arm of an untagged enum ([Arm]): all its unit variants, a variant with named
    fields, or one that holds a type. *)
Inductive Arm : Type -> Type :=
  | Names (names : list bytes) : Arm nat
  | ARecord {S} (p : Plan S) : Arm S
  | Holds {A} (kinds : Kinds) (to : A -> writing Value) (from : Value -> reading A) : Arm A.
Definition arm_kinds {A} (a : Arm A) : Kinds :=
  match a with Names _ => kinds_of GUATIAO_STRING | ARecord _ => kinds_of GUATIAO_MAP | Holds kinds _ _ => kinds end.
Inductive Arms : Type -> Type :=
  | ANil : Arms Empty_set
  | ACons {A V : Type} (a : Arm A) (rest : Arms V) : Arms (A + V).
Fixpoint arms_kinds {V} (arms : Arms V) : Kinds :=
  match arms with ANil => kinds_none | ACons a rest => kinds_union (arm_kinds a) (arms_kinds rest) end.

(** [emit_to] and [emit_from] of [untagged.rs], and what its [checks] assert. *)
Definition untagged_arm_to {A} (a : Arm A) : A -> writing Value :=
  match a with
  | Names names => λ i, match names !! i with Some n => write_text n | None => Err Panic end
  | ARecord p => struct_to p
  | Holds _ to _ => to
  end.
Definition untagged_arm_from {A} (a : Arm A) (v : Value) : reading A :=
  match a with
  | Names names =>
      t ← str_of v;
      match position_of names t with Some i => Ok i | None => Err (Refuse (bad_value (one_of names))) end
  | ARecord p => m ← map_in v; read_fields p v m
  | Holds _ _ from => from v
  end.
Fixpoint untagged_to {V} (arms : Arms V) : V -> writing Value :=
  match arms with
  | ANil => λ x, match x with end
  | ACons a rest => λ x, match x with inl y => untagged_arm_to a y | inr x => untagged_to rest x end
  end.
(** [kinds_of] of [lib.rs]. *)
Definition value_kinds (v : Value) : Kinds := match tag v with Ok t => kinds_of t | Err _ => kinds_none end.
Fixpoint untagged_tries {V} (arms : Arms V) (found expected : Kinds) (v : Value) : reading V :=
  match arms with
  | ANil => Err (Refuse (bad_value (kinds_display expected)))
  | ACons a rest => if intersects (arm_kinds a) found then inl <$> untagged_arm_from a v else inr <$> untagged_tries rest found expected v
  end.
Definition untagged_from {V} (arms : Arms V) (v : Value) : reading V := untagged_tries arms (value_kinds v) (arms_kinds arms) v.
Definition is_holds {A} (a : Arm A) : bool := match a with Holds _ _ _ => true | _ => false end.
Definition is_record {A} (a : Arm A) : bool := match a with ARecord _ => true | _ => false end.
Definition is_names {A} (a : Arm A) : bool := match a with Names _ => true | _ => false end.
Fixpoint no_arm {V} (bad : forall A, Arm A -> bool) (arms : Arms V) : bool :=
  match arms with ANil => true | ACons b rest => negb (bad _ b) && no_arm bad rest end.
Fixpoint checks {V} (arms : Arms V) : bool :=
  match arms with
  | ANil => true
  | ACons a rest =>
      no_arm (λ _ b, (is_holds a || is_holds b) && intersects (arm_kinds a) (arm_kinds b)) rest && checks rest
  end.
(** [expand] refuses a second variant with named fields, and [arms] makes one arm of all
    the unit variants. *)
Fixpoint one_each {V} (arms : Arms V) : bool :=
  match arms with
  | ANil => true
  | ACons a rest => no_arm (λ _ b, (is_record a && is_record b) || (is_names a && is_names b)) rest && one_each rest
  end.
