(* ===== verification/DeriveLaws.v ===== *)
(** * A derived type crosses and comes back

    What the derives write of a declaration that compiles is read back as it was,
    whatever the types of its fields, so long as each of them crosses; and what a
    flattened member does to a key that is another field's. *)

From S2P Require Import Prelude Decimal Errors Number Value Maps Walk KindLaws Convert ConvertLaws Derive.

#[local] Arguments bs _ : simpl never.

(** ** Looking up what was written *)

Lemma get_app m ms k : get (m ++ ms) k = match get m k with Some v => Some v | None => get ms k end.
Proof.
  rewrite !get_contents. unfold contents. rewrite list_to_map_app, lookup_union. destruct (list_to_map m !! k) as [v|]; [|by rewrite (left_id_L None _)].
  by destruct (list_to_map ms !! k).
Qed.
Lemma get_fresh m k : k ∉ keys m -> get m k = None.
Proof. intros H. unfold get. by rewrite (proj2 (position_None m k) H). Qed.
Lemma get_cons k v m k' : get ((k, v) :: m) k' = if decide (k = k') then Some v else get m k'.
Proof. rewrite !get_contents. unfold contents. cbn. destruct (decide (k = k')) as [->|Hn]; [apply lookup_insert_eq|by rewrite lookup_insert_ne]. Qed.
Lemma keys_app m ms : keys (m ++ ms) = keys m ++ keys ms.
Proof. apply map_app. Qed.
Lemma text_cons k v m : keys_are_text ((k, v) :: m) = is_utf8 k && keys_are_text m.
Proof. done. Qed.
Lemma text_app m ms : keys_are_text (m ++ ms) = keys_are_text m && keys_are_text ms.
Proof. apply forallb_app. Qed.

(** Two maps that say the same of the keys of [ks]. *)
Definition agree_on (ks : list bytes) (m m' : Map) : Prop := forall k, k ∈ ks -> get m k = get m' k.

(** ** Fields *)

(** What a field is asked for: the keys it may write, and which of its type's values
    cross. A skipped field reads as its default; one whose key is left out has an
    absent key that reads as it; a flattened member writes a map of its own keys, and
    reads nothing but them. *)
Inductive field_ok {A : Type} : FieldPlan A -> list bytes -> (A -> Prop) -> Prop :=
  | ok_skipped d : field_ok (Skipped d) [] (λ a, a = d)
  | ok_keyed key skip_if write read absent (P : A -> Prop) :
      is_utf8 key = true ->
      (forall a, P a -> (match skip_if with Some says => says a = true | None => False end \/ write a = None) -> absent = Some a) ->
      (forall a w, P a -> write a = Some w -> exists v, w = Ok v /\ read v = Ok a) ->
      (forall v a, read v = Ok a -> P a) -> (forall a, absent = Some a -> P a) -> (forall v, read v <> Err Panic) ->
      field_ok (Keyed key skip_if write read absent) [key] P
  | ok_flattened to from ks (P : A -> Prop) :
      (forall a, P a -> exists m, to a = Ok (VMap m) /\ from (VMap m) = Ok a /\ keys_are_text m = true /\ NoDup (keys m) /\ keys m ⊆ ks) ->
      (forall m m', keys_are_text m = true -> keys_are_text m' = true -> agree_on ks m m' -> from (VMap m) = from (VMap m')) ->
      (forall v a, from v = Ok a -> P a) -> (forall v, from v <> Err Panic) ->
      field_ok (Flattened to from) ks P.

Inductive plan_ok : forall {S : Type}, Plan S -> list bytes -> (S -> Prop) -> Prop :=
  | ok_nil : plan_ok PNil [] (λ _, True)
  | ok_cons {A P} (f : FieldPlan A) (rest : Plan P) ks ks' (Q : A -> Prop) (R : P -> Prop) :
      field_ok f ks Q -> plan_ok rest ks' R -> plan_ok (PCons f rest) (ks ++ ks') (λ s, Q s.1 /\ R s.2).

Lemma flat_entries_Ok flat : forall m, NoDup (keys (m ++ flat)) -> flat_entries m flat = Ok (m ++ flat).
Proof.
  induction flat as [|[k v] flat IH]; intros m Hn; cbn [flat_entries]; [by rewrite app_nil_r|]. cbn [fst snd].
  assert (k ∉ keys m) as Hk.
  { rewrite keys_app in Hn. apply NoDup_app in Hn as (_ & Hn & _). intros Hin. apply (Hn k Hin). cbn. by left. }
  assert (contains_key m k = false) as -> by (apply not_true_iff_false; by rewrite contains_key_spec). rewrite set_fresh by done. rewrite IH by (by rewrite <- app_assoc).
  by rewrite <- app_assoc.
Qed.
Lemma flatten_into_Ok m flat : keys_are_text flat = true -> NoDup (keys (m ++ flat)) -> flatten_into m (VMap flat) = Ok (m ++ flat).
Proof. intros Ht Hn. unfold flatten_into. cbn. rewrite Ht. cbn. by apply flat_entries_Ok. Qed.

Lemma nodup_keys_app m ms : NoDup (keys m) -> NoDup (keys ms) -> (forall k, k ∈ keys m -> k ∉ keys ms) -> NoDup (keys (m ++ ms)).
Proof. intros Hm Hs Hd. rewrite keys_app. by apply NoDup_app. Qed.

(** What a field adds to the map, after whatever was written, and how it is read from any
    map that says the same of its keys. *)
Definition adds (ks : list bytes) (set : Map -> writing Map) (read : Value -> Map -> Prop) : Prop :=
  exists ms, keys_are_text ms = true /\ NoDup (keys ms) /\ keys ms ⊆ ks /\
    (forall m, NoDup (keys m) -> (forall k, k ∈ ks -> k ∉ keys m) -> set m = Ok (m ++ ms)) /\
    (forall m, keys_are_text m = true -> agree_on ks m ms -> read (VMap m) m).

Lemma field_adds {A} (f : FieldPlan A) ks P a : field_ok f ks P -> P a -> adds ks (set_field f a) (λ v m, read_field f v m = Ok a).
Proof.
  intros Hf. destruct Hf as [d|key skip_if write read absent P Hu Hout Hin _ _ _|to from ks P Hto Hfrom _ _]; intros Ha; cbn [set_field read_field].
  - subst a. exists []. split_and!; [done|by apply NoDup_nil|set_solver| |done]. intros m _ _. by rewrite app_nil_r.
  - assert (forall ms, (match skip_if with Some says => says a | None => false end = true \/ write a = None) -> keys ms = [] ->
      forall m, agree_on [key] m ms -> read_field (Keyed key skip_if write read absent) (VMap m) m = Ok a) as Hleft.
    { intros ms Hs Hk m Hg. cbn [read_field]. rewrite (Hg key) by (by left). rewrite get_fresh by (rewrite Hk; apply not_elem_of_nil).
      rewrite (Hout a Ha); [done|]. destruct skip_if; naive_solver. }
    destruct (match skip_if with Some says => says a | None => false end) eqn:Es.
    { exists []. split_and!; [done|by apply NoDup_nil|set_solver|intros m _ _; cbn [set_field]; by rewrite Es, app_nil_r|]. intros m _ Hg. apply (Hleft []); auto. }
    destruct (write a) as [w|] eqn:Ew.
    2: { exists []. split_and!; [done|by apply NoDup_nil|set_solver|intros m _ _; cbn [set_field]; by rewrite Es, Ew, app_nil_r|]. intros m _ Hg. apply (Hleft []); auto. }
    destruct (Hin a w Ha Ew) as (v & -> & Hr). exists [(key, v)]. split_and!.
    + cbn. by rewrite Hu.
    + by apply NoDup_singleton.
    + cbn. set_solver.
    + intros m Hm Hk. cbn [set_field]. rewrite Es, Ew. cbn. rewrite set_fresh; [done|]. apply Hk. by left.
    + intros m Hm Hg. rewrite (Hg key) by (by left). rewrite get_cons, decide_True by done. cbn [read_field]. by rewrite Hr.
  - destruct (Hto a Ha) as (ms & Hw & Hr & Ht & Hn & Hk). exists ms. split_and!; [done..| |].
    + intros m Hm Hd. cbn [set_field]. rewrite Hw. cbn. apply flatten_into_Ok; [done|]. apply nodup_keys_app; [done|done|]. intros k Hin Hin'. by apply (Hd k); [apply Hk|].
    + intros m Hm Hg. cbn [read_field]. by rewrite (Hfrom m ms).
Qed.

Lemma agree_sub ks ks' m m' : ks ⊆ ks' -> agree_on ks' m m' -> agree_on ks m m'.
Proof. intros Hs H k Hk. apply H. by apply Hs. Qed.

Lemma plan_adds {S} (p : Plan S) ks P : plan_ok p ks P -> NoDup ks -> forall s, P s -> adds ks (set_fields p s) (λ v m, read_fields p v m = Ok s).
Proof.
  induction 1 as [|A S f rest ks ks' Q R Hf _ IH]; intros Hn s; cbn [set_fields read_fields].
  - intros _. destruct s. exists []. split_and!; [done|by apply NoDup_nil|set_solver| |done]. intros m _ _. by rewrite app_nil_r.
  - apply NoDup_app in Hn as (Hn1 & Hd & Hn2). intros [HQ HR]. destruct s as [a s]. cbn [fst snd] in *.
    destruct (field_adds f ks Q a Hf HQ) as (ms & Ht & Hnm & Hk & Hs & Hr). destruct (IH Hn2 s HR) as (ms' & Ht' & Hnm' & Hk' & Hs' & Hr').
    assert (forall k, k ∈ keys ms -> k ∉ keys ms') as Hdis by (intros k H1 H2; by apply (Hd k); [apply Hk|apply Hk']).
    exists (ms ++ ms'). split_and!.
    + by rewrite text_app, Ht, Ht'.
    + by apply nodup_keys_app.
    + rewrite keys_app. set_solver.
    + intros m Hm Hf'. rewrite Hs by (try done; intros k Hin; apply Hf'; set_solver). cbn [mbind result_bind].
      rewrite Hs'; [by rewrite <- app_assoc| |].
      * apply nodup_keys_app; [done..|]. intros k H1 H2. apply (Hf' k); [apply elem_of_app; left; by apply Hk|done].
      * intros k Hin. rewrite keys_app. apply not_elem_of_app. split; [apply Hf'; set_solver|]. intros H2. by apply (Hd k); [apply Hk|].
    + intros m Hm Hg. rewrite Hr, Hr'; [done|done| |done|].
      * intros k Hin. rewrite (Hg k) by set_solver. rewrite get_app, (get_fresh ms); [done|]. intros H2. by apply (Hd k); [apply Hk|].
      * intros k Hin. rewrite (Hg k) by set_solver. rewrite get_app. destruct (get ms k); [done|]. apply get_fresh. intros H2. by apply (Hd k); [|apply Hk'].
Qed.

(** What is read depends on nothing but those keys, is of the type, and is no panic. *)
Lemma field_frame {A} (f : FieldPlan A) ks P m m' : field_ok f ks P -> keys_are_text m = true -> keys_are_text m' = true -> agree_on ks m m' ->
  read_field f (VMap m) m = read_field f (VMap m') m'.
Proof. intros [] Ht Ht' Ha; cbn [read_field]; [done| |by auto]. by rewrite (Ha key) by (by left). Qed.
Lemma plan_frame {S} (p : Plan S) ks P m m' : plan_ok p ks P -> keys_are_text m = true -> keys_are_text m' = true -> agree_on ks m m' ->
  read_fields p (VMap m) m = read_fields p (VMap m') m'.
Proof.
  induction 1 as [|A S f rest ks ks' Q R Hf _ IH]; intros Ht Ht' Ha; cbn [read_fields]; [done|].
  rewrite (field_frame f ks Q m m') by (first [done|eapply agree_sub; [|done]; set_solver]). rewrite IH; [done..|]. eapply agree_sub; [|done]. set_solver.
Qed.
Lemma field_held {A} (f : FieldPlan A) ks P v m a : field_ok f ks P -> read_field f v m = Ok a -> P a.
Proof.
  intros []; cbn [read_field]; [by intros [= ->]| |by eauto]. destruct (get m key); [intros H'%placed_at_Ok; eauto|].
  destruct absent; [intros [= ->]; auto|done].
Qed.
Lemma field_calm {A} (f : FieldPlan A) ks P v m : field_ok f ks P -> read_field f v m <> Err Panic.
Proof. intros []; cbn [read_field]; [done| |by auto]. destruct (get m key); [by apply placed_at_calm|]. by destruct absent. Qed.
Lemma plan_held {S} (p : Plan S) ks P v m s : plan_ok p ks P -> read_fields p v m = Ok s -> P s.
Proof.
  intros H. revert s. induction H as [|A S f rest ks ks' Q R Hf _ IH]; intros s; cbn [read_fields]; [done|].
  intros (a & Ha & (s' & Hs & [= <-])%bind_Ok)%bind_Ok. split; [by eapply field_held|by apply IH].
Qed.
Lemma plan_calm {S} (p : Plan S) ks P v m : plan_ok p ks P -> read_fields p v m <> Err Panic.
Proof.
  induction 1 as [|A S f rest ks ks' Q R Hf _ IH]; cbn [read_fields]; [done|]. apply bind_calm; [by eapply field_calm|]. intros a _.
  by apply bind_calm.
Qed.

(** ** The fields a declaration can have *)

Lemma plain_ok `{Crosses A} key default skip_if : is_utf8 key = true -> (forall d, default = Some d -> holds d) ->
  (forall says a, skip_if = Some says -> says a = true -> default = Some a) -> field_ok (plain_field key default skip_if) [key] holds.
Proof.
  intros Hu Hd Hs. constructor; [done| | |by intros; eapply reads_held|done|by apply reads_calm].
  - intros a _ [Hk|Hk]; [|done]. destruct skip_if as [says|]; [by eapply Hs|done].
  - intros a w Ha [= <-]. apply (crosses a Ha).
Qed.
Lemma option_ok `{Crosses A} key skip_if : is_utf8 key = true -> kinds_contains (KINDS A) GUATIAO_NULL = false ->
  (forall says a, skip_if = Some says -> says a = true -> a = None) -> field_ok (option_field (A := A) key skip_if) [key] option_holds.
Proof.
  intros Hu Hn Hs. assert (TCEq (A := bool) (kinds_contains (KINDS A) GUATIAO_NULL) false) as HT by by rewrite Hn.
  constructor; [done| | | | |].
  - intros o _ [Hk|Hk]; [|by destruct o]. destruct skip_if as [says|]; [f_equal; symmetry; by eapply Hs|done].
  - intros [a|] w Ha [= <-]. exact (crosses (A := option A) (Some a) Ha).
  - intros v o Hr. exact (reads_held (A := option A) v o Hr).
  - by intros o [= <-].
  - intros v. exact (reads_calm (A := option A) v).
Qed.

(** A module of the caller's, and a type that shows and parses text. *)
Lemma with_ok {A} to from (P : A -> Prop) key default skip_if : is_utf8 key = true -> (forall d, default = Some d -> P d) ->
  (forall says a, skip_if = Some says -> says a = true -> default = Some a) ->
  (forall a, P a -> exists v, to a = Ok v /\ from v = Ok a) -> (forall v a, from v = Ok a -> P a) -> (forall v, from v <> Err Panic) ->
  field_ok (with_field to from key default skip_if) [key] P.
Proof.
  intros Hu Hd Hs Hto Hfrom Hc. constructor; [done| | |done..].
  - intros a _ [Hk|Hk]; [|done]. destruct skip_if as [says|]; [by eapply Hs|done].
  - intros a w Ha [= <-]. by apply Hto.
Qed.
Record texted_ok {A} (t : Texted A) (P : A -> Prop) : Prop := {
  display_utf8 a : P a -> is_utf8 (display t a) = true;
  display_parsed a : P a -> from_str t (display t a) = Ok a;
  parsed_held s a : from_str t s = Ok a -> P a }.
Lemma from_text_back {A} (t : Texted A) P a : texted_ok t P -> P a -> from_text t (VString (display t a)) = Ok a.
Proof. intros Ht Ha. unfold from_text. apply (write_read_text (λ s, map_err _ (from_str t s))); [by eapply display_utf8|]. apply map_err_Ok. by eapply display_parsed. Qed.
Lemma from_text_held {A} (t : Texted A) P v a : texted_ok t P -> from_text t v = Ok a -> P a.
Proof. intros Ht (s & _ & _ & Hs%map_err_Ok)%(read_text_Ok (λ s, map_err _ (from_str t s))). by eapply parsed_held. Qed.
Lemma from_text_calm {A} (t : Texted A) v : from_text t v <> Err Panic.
Proof. apply (read_text_calm (λ s, map_err _ (from_str t s))). intros s. by destruct (from_str t s). Qed.
Lemma text_ok {A} (t : Texted A) P key default skip_if : is_utf8 key = true -> (forall d, default = Some d -> P d) ->
  (forall says a, skip_if = Some says -> says a = true -> default = Some a) -> texted_ok t P -> field_ok (text_field t key default skip_if) [key] P.
Proof.
  intros Hu Hd Hs Ht. constructor; [done| | |by intros; eapply from_text_held|done|by apply from_text_calm].
  - intros a _ [Hk|Hk]; [|done]. destruct skip_if as [says|]; [by eapply Hs|done].
  - intros a w Ha [= <-]. eexists. split; [done|]. by eapply from_text_back.
Qed.
Lemma text_option_ok {A} (t : Texted A) P key skip_if : is_utf8 key = true ->
  (forall says a, skip_if = Some says -> says a = true -> a = None) -> texted_ok t P ->
  field_ok (text_option_field t key skip_if) [key] (λ o, match o with Some a => P a | None => True end).
Proof.
  intros Hu Hs Ht. constructor; [done| | | | |].
  - intros o _ [Hk|Hk]; [|by destruct o]. destruct skip_if as [says|]; [f_equal; symmetry; by eapply Hs|done].
  - intros [a|] w Ha [= <-]. eexists. split; [done|]. unfold from_text_or_null. cbn. by rewrite (from_text_back t P).
  - intros v o. unfold from_text_or_null. destruct (bool_decide _); [by intros [= <-]|]. intros (a & Ha & ->)%fmap_Ok. by eapply from_text_held.
  - by intros o [= <-].
  - intros v. unfold from_text_or_null. destruct (bool_decide _); [done|]. apply fmap_calm, from_text_calm.
Qed.

(** ** Declarations that compile *)

Lemma repeated_false l : forall seen, repeated seen l = false -> NoDup l /\ (forall k, k ∈ l -> k ∉ seen).
Proof.
  induction l as [|k l IH]; intros seen; cbn [repeated]; [split; [constructor|set_solver]|].
  rewrite orb_false_iff, bool_decide_eq_false. intros [Hk (Hn & Hl)%IH]. split.
  - constructor; [|done]. intros Hin. apply (Hl k Hin). set_solver.
  - intros k' [->|Hin]%elem_of_cons; [done|]. intros H'. apply (Hl k' Hin). set_solver.
Qed.

(** Where nothing is flattened, the keys a field may write are those it is declared
    with, and the compiler has checked that none is another's. *)
Lemma field_ok_keys {A} (f : FieldPlan A) ks P : field_ok f ks P -> match f with Flattened _ _ => True | _ => ks = field_key f end.
Proof. by intros []. Qed.
Lemma plan_ok_keys {S} (p : Plan S) ks P : plan_ok p ks P -> flattens p = false -> ks = field_keys p.
Proof.
  induction 1 as [|A S f rest ks ks' Q R Hf _ IH]; cbn [flattens field_keys]; [done|]. intros [Hn Hr]%orb_false_iff.
  apply field_ok_keys in Hf. rewrite IH by done. f_equal. by destruct f.
Qed.
Lemma compiles_nodup {S} (p : Plan S) deny ks P : plan_ok p ks P -> flattens p = false -> compiles p deny = true -> NoDup ks.
Proof.
  intros Hp Hf. rewrite (plan_ok_keys p ks P Hp Hf). unfold compiles, reject_duplicate_keys. rewrite andb_true_iff, negb_true_iff.
  by intros [[H _]%repeated_false _].
Qed.

(** ** Structs *)

Section structs.
Context {S : Type} {p : Plan S} {ks : list bytes} {P : S -> Prop} (Hp : plan_ok p ks P) (Hn : NoDup ks).

(** What a struct writes, and that it is read back from it; with [deny_unknown_fields]
    where nothing is flattened. *)
Lemma struct_written deny s : compiles p deny = true -> P s ->
  exists m, struct_to p s = Ok (VMap m) /\ struct_from p deny (VMap m) = Ok s /\ keys_are_text m = true /\ NoDup (keys m) /\ keys m ⊆ ks.
Proof.
  intros Hc Hs. destruct (plan_adds p ks P Hp Hn s Hs) as (m & Ht & Hnm & Hk & Hw & Hr). exists m. split_and!; [| |done..].
  - unfold struct_to. rewrite (Hw []); [done|by apply NoDup_nil|]. intros k _. apply not_elem_of_nil.
  - unfold struct_from. rewrite (proj2 (map_in_Ok (VMap m) m)) by done. cbn [mbind result_bind].
    assert ((if deny then undeclared p m else None) = None) as ->; [|by apply Hr].
    destruct deny; [|done]. unfold compiles in Hc. apply andb_true_iff in Hc as [_ Hf]. cbn in Hf. apply negb_true_iff in Hf.
    rewrite (plan_ok_keys p ks P Hp Hf) in Hk. unfold undeclared. destruct (List.find _ m) as [e|] eqn:E; [|done].
    apply List.find_some in E as [Hin He]. apply negb_true_iff, bool_decide_eq_false in He. exfalso. apply He, Hk.
    unfold keys. apply list_elem_of_In, in_map. done.
Qed.
Lemma struct_kind s v : struct_to p s = Ok v -> of_kinds (kinds_of GUATIAO_MAP) v.
Proof. intros (m & _ & ->)%fmap_Ok. one_kind. Qed.
Lemma struct_reads_kind deny v s : struct_from p deny v = Ok s -> of_kinds (kinds_of GUATIAO_MAP) v.
Proof. intros (m & [-> _]%map_in_Ok & _)%bind_Ok. one_kind. Qed.
Lemma struct_held deny v s : struct_from p deny v = Ok s -> P s.
Proof. intros (m & _ & Hr)%bind_Ok. destruct (if deny then _ else _); [done|]. by eapply plan_held. Qed.
Lemma struct_calm deny v : struct_from p deny v <> Err Panic.
Proof. apply bind_calm; [apply refuse_as_calm|]. intros m _. destruct (if deny then _ else _); [done|]. by eapply plan_calm. Qed.

(** A struct is a type that crosses, and one that may be flattened into another. *)
Definition struct_crosses deny (Hc : compiles p deny = true) :
  @Crosses S (struct_to p) {| KINDS := kinds_of GUATIAO_MAP; from_value := struct_from p deny |}.
Proof.
  refine (@Build_Crosses S (struct_to p) {| KINDS := kinds_of GUATIAO_MAP; from_value := struct_from p deny |} P _ struct_kind
    (struct_reads_kind deny) (struct_held deny) (struct_calm deny)).
  intros s Hs. destruct (struct_written deny s Hc Hs) as (m & Hw & Hr & _). by exists (VMap m).
Defined.
Lemma struct_flattens : compiles p false = true -> field_ok (Flattened (struct_to p) (struct_from p false)) ks P.
Proof.
  intros Hc. constructor.
  - intros s Hs. apply (struct_written false s Hc Hs).
  - intros m m' Ht Ht' Ha. unfold struct_from. rewrite (proj2 (map_in_Ok (VMap m) m)), (proj2 (map_in_Ok (VMap m') m')) by done. cbn.
    by eapply plan_frame.
  - apply struct_held.
  - apply struct_calm.
Qed.
End structs.

(** ** Variants *)

Inductive payload_ok {A} : Payload A -> list bytes -> (A -> Prop) -> Prop :=
  | ok_fields p ks P : plan_ok p ks P -> NoDup ks -> payload_ok (Fields p) ks P
  | ok_newtype to from ks P : field_ok (Flattened to from) ks P -> payload_ok (Newtype to from) ks P.

Lemma payload_adds {A} (p : Payload A) ks P a : payload_ok p ks P -> P a -> adds ks (payload_to p a) (λ v m, payload_from p v m = Ok a).
Proof. intros [p' ks' P' Hp Hn|to from ks' P' Hf] Ha; [by apply (plan_adds p' ks' P')|]. apply (field_adds (Flattened to from) ks' P' a Hf Ha). Qed.

Inductive variants_ok (tag : bytes) : forall {V : Type}, Variants V -> (V -> Prop) -> Prop :=
  | ok_vnil : variants_ok tag VNil (λ _, True)
  | ok_vcons {A V} (v : Variant A) (rest : Variants V) ks (Q : A -> Prop) (R : V -> Prop) :
      payload_ok (payload v) ks Q -> tag ∉ ks -> is_utf8 (stored v) = true -> variants_ok tag rest R ->
      variants_ok tag (VCons v rest) (λ x, match x with inl a => Q a | inr y => R y end).

Lemma arm_written tag {V} (vs : Variants V) P : is_utf8 tag = true -> variants_ok tag vs P -> NoDup (names vs) -> forall x, P x ->
  exists ms name, name ∈ names vs /\ keys_are_text ms = true /\ is_utf8 name = true /\ (tag ∉ keys ms) /\ NoDup (keys ms) /\
    arm_to tag vs x = Ok ((tag, VString name) :: ms) /\
    (forall unknown, arm_from vs name unknown (VMap ((tag, VString name) :: ms)) ((tag, VString name) :: ms) = Ok x).
Proof.
  intros Hu. induction 1 as [|A V v rest ks Q R Hpay Htag Hs _ IH]; intros Hn x; [by destruct x|].
  cbn [names] in Hn. apply NoDup_cons in Hn as [Hfresh Hn]. destruct x as [a|y]; intros Hx.
  - destruct (payload_adds _ ks Q a Hpay Hx) as (ms & Ht & Hnm & Hk & Hw & Hr). exists ms, (stored v).
    assert (tag ∉ keys ms) as Hnt by (intros H; by apply Htag, Hk). split_and!; [by left|done..| |].
    + cbn [arm_to]. change (set_ [] tag (VString (stored v))) with [(tag, VString (stored v))]. rewrite Hw; [done|by apply NoDup_singleton|].
      intros k Hin. cbn. intros ->%list_elem_of_singleton. done.
    + intros unknown. cbn [arm_from]. rewrite bool_decide_eq_true_2 by done. rewrite Hr; [done| |].
      * by rewrite text_cons, Hu, Ht.
      * intros k Hin. rewrite get_cons, decide_False; [done|]. by intros ->.
  - destruct (IH Hn y Hx) as (ms & name & Hin & Ht & Hu' & Hnt & Hnm & Hw & Hr). exists ms, name. split_and!; [by right|done..|].
    intros unknown. cbn [arm_from]. rewrite bool_decide_eq_false_2 by (intros E; apply Hfresh; by rewrite E). by rewrite Hr.
Qed.
Lemma tagged_written tag {V} (vs : Variants V) P x : is_utf8 tag = true -> variants_ok tag vs P -> reject_duplicate_variants vs = false -> P x ->
  exists m name, name ∈ names vs /\ tagged_to tag vs x = Ok (VMap m) /\ m !! 0%nat = Some (tag, VString name) /\ tagged_from tag vs (VMap m) = Ok x.
Proof.
  intros Hu Hv Hd Hx. apply repeated_false in Hd as [Hn _]. destruct (arm_written tag vs P Hu Hv Hn x Hx) as (ms & name & Hin & Ht & Hu' & _ & _ & Hw & Hr).
  exists ((tag, VString name) :: ms), name. split_and!; [done| |done|].
  - unfold tagged_to. by rewrite Hw.
  - unfold tagged_from. rewrite (proj2 (map_in_Ok _ ((tag, VString name) :: ms))) by (split; [done|by rewrite text_cons, Hu, Ht]). cbn [mbind result_bind].
    unfold required. rewrite get_cons, decide_True by done. cbn [refuse_as ok_or mbind result_bind]. rewrite (proj2 (str_of_Ok _ name)) by done. apply Hr.
Qed.

(** ** Choices *)

Lemma position_named names i n : NoDup names -> names !! i = Some n -> position_of names n = Some i.
Proof.
  intros Hn Hi. unfold position_of. destruct (list_find_elem_of (λ m, m = n) names n (list_elem_of_lookup_2 _ _ _ Hi) eq_refl) as [[j x] E].
  rewrite E. cbn. f_equal. apply list_find_Some in E as (Hj & -> & _). by eapply NoDup_lookup.
Qed.
Lemma position_of_absent names n : position_of names n = None <-> n ∉ names.
Proof.
  unfold position_of. split.
  - intros H Hin. destruct (list_find_elem_of (λ m, m = n) names n Hin eq_refl) as [x E]. by rewrite E in H.
  - intros H. destruct (list_find _ names) as [[j x]|] eqn:E; [|done]. apply list_find_Some in E as (Hj & -> & _). exfalso. apply H. by eapply list_elem_of_lookup_2.
Qed.

(** ** Kinds a value can be told apart by *)

Lemma kinds_contains_bit k t : t <> GUATIAO_ABSENT -> kinds_contains k t = Z.testbit (kinds_bits k) (tag_code t).
Proof.
  intros Ht. unfold kinds_contains, intersects. assert (kinds_bits (kinds_of t) = Z.shiftl 1 (tag_code t)) as -> by by destruct t.
  rewrite Z.shiftl_1_l. assert (0 <= tag_code t) as H0 by by destruct t. apply eq_true_iff_eq. rewrite negb_true_iff, Z.eqb_neq. split.
  - intros H. destruct (Z.testbit (kinds_bits k) (tag_code t)) eqn:E; [done|]. exfalso. apply H. apply Z.bits_inj'. intros n Hn.
    rewrite Z.land_spec, Z.bits_0, Z.pow2_bits_eqb by done. destruct (Z.eqb_spec (tag_code t) n) as [<-|]; [by rewrite E|by rewrite andb_false_r].
  - intros E H. assert (Z.testbit (Z.land (kinds_bits k) (2 ^ tag_code t)) (tag_code t) = true) as H'; [|by rewrite H, Z.bits_0 in H'].
    by rewrite Z.land_spec, E, Z.pow2_bits_true.
Qed.
Lemma kinds_meet k k' t : kinds_contains k t = true -> kinds_contains k' t = true -> intersects k k' = true.
Proof.
  destruct (decide (t = GUATIAO_ABSENT)) as [->|Ht].
  - unfold kinds_contains, intersects. cbn. by rewrite Z.land_0_r.
  - rewrite !kinds_contains_bit by done. intros H H'. unfold intersects. apply negb_true_iff, Z.eqb_neq. intros E.
    assert (Z.testbit (Z.land (kinds_bits k) (kinds_bits k')) (tag_code t) = true) as H2 by (by rewrite Z.land_spec, H, H'). by rewrite E, Z.bits_0 in H2.
Qed.

(** What an arm of an untagged enum is asked for. *)
Inductive arm_ok : forall {A : Type}, Arm A -> (A -> Prop) -> Prop :=
  | ok_names names : NoDup names -> Forall (λ n, is_utf8 n = true) names -> arm_ok (Names names) (λ i, (i < length names)%nat)
  | ok_record {S} (p : Plan S) ks P : plan_ok p ks P -> NoDup ks -> arm_ok (ARecord p) P
  | ok_holds {A} kinds to from (P : A -> Prop) :
      (forall a, P a -> exists v t, to a = Ok v /\ from v = Ok a /\ tag v = Ok t /\ kinds_contains kinds t = true) -> arm_ok (Holds kinds to from) P.
Inductive arms_ok : forall {V : Type}, Arms V -> (V -> Prop) -> Prop :=
  | ok_anil : arms_ok ANil (λ _, True)
  | ok_acons {A V} (a : Arm A) (rest : Arms V) Q R : arm_ok a Q -> arms_ok rest R ->
      arms_ok (ACons a rest) (λ x, match x with inl y => Q y | inr y => R y end).

Lemma holds_ok `{Crosses A} : arm_ok (Holds (KINDS A) to_value from_value) (λ a, holds a /\ to_value a <> Ok VAbsent).
Proof.
  constructor. intros a [Ha Hn]. destruct (crosses a Ha) as (v & Hw & Hr). destruct (writes_kind a v Hw) as [->|(t & Ht & Hc)]; [done|].
  by exists v, t.
Qed.

Lemma arm_crosses {A} (a : Arm A) Q y : arm_ok a Q -> Q y ->
  exists v t, untagged_arm_to a y = Ok v /\ untagged_arm_from a v = Ok y /\ tag v = Ok t /\ kinds_contains (arm_kinds a) t = true.
Proof.
  destruct 1 as [names Hn Hu|S p ks P Hp Hn|A kinds to from P Hk]; intros Hy; cbn [untagged_arm_to untagged_arm_from arm_kinds].
  - destruct (lookup_lt_is_Some_2 names y Hy) as [n Hi]. rewrite Hi. exists (VString n), GUATIAO_STRING. split_and!; [done| |done|done].
    rewrite (proj2 (str_of_Ok _ n)); [cbn; by rewrite (position_named names y)|]. split; [done|]. rewrite Forall_forall in Hu. apply Hu. by eapply list_elem_of_lookup_2.
  - destruct (plan_adds p ks P Hp Hn y Hy) as (m & Ht & Hnm & Hk & Hw & Hr). exists (VMap m), GUATIAO_MAP. split_and!; [| |done|done].
    + unfold struct_to. rewrite (Hw []); [done|by apply NoDup_nil|]. intros k _. apply not_elem_of_nil.
    + rewrite (proj2 (map_in_Ok _ m)) by done. cbn. by apply Hr.
  - by apply Hk.
Qed.

(** The kinds of arms that [expand] lets stand together differ. *)
Lemma arms_apart {A B} (a : Arm A) (b : Arm B) : (is_holds a || is_holds b) && intersects (arm_kinds a) (arm_kinds b) = false ->
  (is_record a && is_record b) || (is_names a && is_names b) = false -> intersects (arm_kinds a) (arm_kinds b) = false.
Proof. destruct a, b; try done; cbn; intros H _; done. Qed.
Lemma no_arm_false {V} (bad : forall A, Arm A -> bool) (arms : Arms V) t : no_arm bad arms = true ->
  kinds_contains (arms_kinds arms) t = true -> exists A (a : Arm A), bad A a = false /\ kinds_contains (arm_kinds a) t = true.
Proof.
  induction arms as [|A V a rest IH]; cbn [no_arm arms_kinds].
  - intros _. unfold kinds_contains, intersects. by cbn.
  - rewrite andb_true_iff, negb_true_iff, kinds_contains_union, orb_true_iff. intros [Ha Hr] [Hc|Hc]; [by exists A, a|by apply IH].
Qed.

Lemma untagged_written {V} (arms : Arms V) P x : arms_ok arms P -> checks arms = true -> one_each arms = true -> P x ->
  exists v t, untagged_to arms x = Ok v /\ tag v = Ok t /\ kinds_contains (arms_kinds arms) t = true /\
    (forall expected, untagged_tries arms (kinds_of t) expected v = Ok x).
Proof.
  induction 1 as [|A V a rest Q R Ha _ IH]; cbn [checks one_each]; [by destruct x|]. rewrite !andb_true_iff. intros [Hc Hcs] [Ho Hos] Hx.
  destruct x as [y|y].
  - destruct (arm_crosses a Q y Ha Hx) as (v & t & Hw & Hr & Ht & Hk). exists v, t. split_and!; [done..| |].
    + cbn [arms_kinds]. by rewrite kinds_contains_union, Hk.
    + intros expected. cbn [untagged_tries]. change (intersects (arm_kinds a) (kinds_of t)) with (kinds_contains (arm_kinds a) t). by rewrite Hk, Hr.
  - destruct (IH y Hcs Hos Hx) as (v & t & Hw & Ht & Hk & Hr). exists v, t. split_and!; [done..| |].
    + cbn [arms_kinds]. by rewrite kinds_contains_union, Hk, orb_true_r.
    + intros expected. cbn [untagged_tries]. change (intersects (arm_kinds a) (kinds_of t)) with (kinds_contains (arm_kinds a) t).
      destruct (kinds_contains (arm_kinds a) t) eqn:E; [|by rewrite Hr]. exfalso.
      assert (no_arm (λ _ b, intersects (arm_kinds a) (arm_kinds b)) rest = true) as Hno.
      { clear -Hc Ho. revert Hc Ho. induction rest as [|B W b rest IH]; cbn [no_arm]; [done|]. rewrite !andb_true_iff, !negb_true_iff.
        intros [H1 H2] [H3 H4]. split; [by apply arms_apart|by apply IH]. }
      destruct (no_arm_false _ rest t Hno Hk) as (B & b & Hb & Hkb). by rewrite (kinds_meet _ _ t E Hkb) in Hb.
Qed.

(** ** Properties *)


(** A struct of a name, an optional number, a skipped count and a member whose keys
    stand beside the others. *)
Definition tls_plan : Plan (bool * (option String_ * unit)) :=
  PCons (plain_field (bs "verify") (Some true) None) (PCons (option_field (bs "ca") None) PNil).
Definition server_plan : Plan (String_ * (int U16 * (Z * ((bool * (option String_ * unit)) * unit)))) :=
  PCons (plain_field (bs "host") None None) (PCons (plain_field (bs "port") (Some (MkInt 5900)) (Some (λ n, int_val n =? 5900)))
    (PCons (Skipped 0) (PCons (Flattened (struct_to tls_plan) (struct_from tls_plan false)) PNil))).
Definition server : String_ * (int U16 * (Z * ((bool * (option String_ * unit)) * unit))) :=
  (MkString (bs "h"), (MkInt 5901, (0, ((false, (Some (MkString (bs "x")), tt)), tt)))).
Lemma tls_ok : exists P, plan_ok tls_plan [bs "verify"; bs "ca"] P /\ forall s, is_utf8 (str_bytes s) = true -> P (false, (Some s, tt)).
Proof.
  eexists. split.
  - unfold tls_plan. apply (ok_cons _ _ [bs "verify"] [bs "ca"]); [by apply plain_ok|]. apply (ok_cons _ _ [bs "ca"] []); [by apply option_ok|constructor].
  - intros s Hs. by split_and!.
Qed.
Lemma server_ok : exists P, plan_ok server_plan [bs "host"; bs "port"; bs "verify"; bs "ca"] P /\
  P server.
Proof.
  destruct tls_ok as (P & HP & Hin). eexists. split.
  - unfold server_plan. apply (ok_cons _ _ [bs "host"] [bs "port"; bs "verify"; bs "ca"]); [by apply plain_ok|].
    apply (ok_cons _ _ [bs "port"] [bs "verify"; bs "ca"]).
    + apply plain_ok; [done|intros d [= <-]; by vm_compute|]. intros says [a] [= <-] Ha%Z.eqb_eq. cbn in Ha. by rewrite Ha.
    + apply (ok_cons _ _ [] [bs "verify"; bs "ca"]); [constructor|]. apply (ok_cons _ _ [bs "verify"; bs "ca"] []); [|constructor].
      eapply struct_flattens; [done| |done]. apply (bool_decide_unpack _). by vm_compute.
  - unfold server. cbn. split_and!; try done. by apply Hin.
Qed.

(** C37: a tagged enum writes the name of its variant first, then what the variant holds, and
    is read back as the variant it was; a name that is no variant's is refused, saying
    which there are. *)
Theorem tagged_enum_crosses {V} (tag : bytes) (vs : Variants V) (P : V -> Prop) (x : V)
    (Hu : is_utf8 tag = true) (Hv : variants_ok tag vs P) (Hd : reject_duplicate_variants vs = false) (Hx : P x) :
  (exists m name, name ∈ names vs /\ tagged_to tag vs x = Ok (VMap m) /\ m !! 0%nat = Some (tag, VString name) /\
    tagged_from tag vs (VMap m) = Ok x) /\
  (forall m name, keys_are_text m = true -> get m tag = Some (VString name) -> is_utf8 name = true -> name ∉ names vs ->
    tagged_from tag vs (VMap m) = Err (Refuse (BadValue tag (one_of (names vs))))).
Proof.
  split; [by apply (tagged_written tag vs P x)|]. intros m name Ht Hg Hn Hin. unfold tagged_from.
  rewrite (proj2 (map_in_Ok _ m)) by done. cbn [mbind result_bind]. unfold required. rewrite Hg. cbn [refuse_as ok_or mbind result_bind].
  rewrite (proj2 (str_of_Ok _ name)) by done. cbn [placed_at map_err mbind result_bind].
  generalize (under_key tag (bad_value (one_of (names vs)))) (eq_refl : under_key tag (bad_value (one_of (names vs))) = BadValue tag (one_of (names vs))).
  intros e He. rewrite <- He. clear He Hv Hd Hx P x. revert Hin. generalize (VMap m). intros v.
  induction vs as [|A V w rest IH]; cbn [names arm_from]; [done|]. intros [Hw Hr]%not_elem_of_cons.
  rewrite bool_decide_eq_false_2 by congruence. by rewrite IH.
Qed.

Definition shape_variants : Variants ((int U32 * unit) + ((bool * (option String_ * unit)) + Empty_set)) :=
  VCons (MkVariant (bs "circle") (Fields (PCons (plain_field (bs "radius") None None) PNil)))
    (VCons (MkVariant (bs "tls") (Newtype (struct_to tls_plan) (struct_from tls_plan false))) VNil).
Lemma tagged_enum_crosses_witness :
  exists P, variants_ok (bs "type") shape_variants P /\
  tagged_to (bs "type") shape_variants (inl (MkInt 7, tt)) = Ok (VMap [(bs "type", VString (bs "circle")); (bs "radius", VNumber (bs "7"))]) /\
  exists m, tagged_from (bs "type") shape_variants (VMap m) = Ok (inl (MkInt 7, tt)).
Proof.
  assert (exists P, variants_ok (bs "type") shape_variants P /\ P (inl (MkInt 7, tt))) as (P & HP & Hx).
  { destruct tls_ok as (Q & HQ & _). eexists. split.
    - unfold shape_variants. apply (ok_vcons _ _ _ [bs "radius"]); [| | |apply (ok_vcons _ _ _ [bs "verify"; bs "ca"]); [| | |constructor]].
      + apply ok_fields; [|by apply NoDup_singleton]. apply (ok_cons _ _ [bs "radius"] []); [by apply plain_ok|constructor].
      + apply (bool_decide_unpack _). vm_compute. exact I.
      + reflexivity.
      + apply ok_newtype. eapply struct_flattens; [exact HQ| |reflexivity]. apply (bool_decide_unpack _). vm_compute. exact I.
      + apply (bool_decide_unpack _). vm_compute. exact I.
      + reflexivity.
    - cbn. split; [|exact I]. unfold int_holds. vm_compute. split; intros H; discriminate H. }
  exists P. split; [exact HP|]. split; [vm_compute; reflexivity|].
  destruct (tagged_enum_crosses (bs "type") shape_variants P (inl (MkInt 7, tt)) ltac:(reflexivity) HP ltac:(reflexivity) Hx) as [(m & name & _ & _ & _ & Hr) _].
  exists m. exact Hr.
Defined.


Lemma untagged_refuses {V} (arms : Arms V) t expected v : kinds_contains (arms_kinds arms) t = false ->
  untagged_tries arms (kinds_of t) expected v = Err (Refuse (bad_value (kinds_display expected))).
Proof.
  induction arms as [|A V a rest IH]; cbn [arms_kinds untagged_tries]; [done|]. rewrite kinds_contains_union. intros [Ha Hr]%orb_false_iff.
  change (intersects (arm_kinds a) (kinds_of t)) with (kinds_contains (arm_kinds a) t). by rewrite Ha, IH.
Qed.

(** C38: an untagged enum that compiles is read back as the variant that was written, told
    apart by the kind of the value alone; a value of a kind no variant takes is refused,
    naming the kinds they do. *)
Theorem untagged_enum_crosses {V} (arms : Arms V) (P : V -> Prop) (Ha : arms_ok arms P) (Hc : checks arms = true) (Ho : one_each arms = true) :
  (forall x, P x -> exists v, untagged_to arms x = Ok v /\ untagged_from arms v = Ok x) /\
  (forall v t, tag v = Ok t -> kinds_contains (arms_kinds arms) t = false ->
    untagged_from arms v = Err (Refuse (bad_value (kinds_display (arms_kinds arms))))).
Proof.
  split.
  - intros x Hx. destruct (untagged_written arms P x Ha Hc Ho Hx) as (v & t & Hw & Ht & _ & Hr). exists v. split; [done|].
    unfold untagged_from, value_kinds. by rewrite Ht.
  - intros v t Ht Hk. unfold untagged_from, value_kinds. rewrite Ht. by apply untagged_refuses.
Qed.

(** Two names, a record, or a number. *)
Definition limit_arms : Arms (nat + ((int U32 * unit) + (int U8 + Empty_set))) :=
  ACons (Names [bs "none"; bs "all"])
    (ACons (ARecord (PCons (plain_field (bs "upto") None None) PNil)) (ACons (Holds (KINDS (int U8)) to_value from_value) ANil)).
Lemma untagged_enum_crosses_witness :
  exists P, arms_ok limit_arms P /\ checks limit_arms = true /\ one_each limit_arms = true /\
  (exists v, untagged_to limit_arms (inr (inl (MkInt 7, tt))) = Ok v /\ untagged_from limit_arms v = Ok (inr (inl (MkInt 7, tt)))) /\
  untagged_from limit_arms (VBool true) = Err (Refuse (bad_value (bs "a number, a string or a map"))).
Proof.
  assert (exists P, arms_ok limit_arms P /\ P (inr (inl (MkInt 7, tt)))) as (P & HP & Hx).
  { eexists. split.
    - unfold limit_arms. apply ok_acons; [|apply ok_acons; [|apply ok_acons; [|constructor]]].
      + constructor; [apply (bool_decide_unpack _); vm_compute; exact I|repeat constructor].
      + eapply (ok_record _ [bs "upto"]); [|by apply NoDup_singleton]. apply (ok_cons _ _ [bs "upto"] []); [by apply plain_ok|constructor].
      + apply holds_ok.
    - cbn. split; [|exact I]. unfold int_holds. vm_compute. split; intros H; discriminate H. }
  destruct (untagged_enum_crosses limit_arms P HP ltac:(reflexivity) ltac:(reflexivity)) as [Hback Hrefused].
  exists P. split; [exact HP|]. split; [reflexivity|]. split; [reflexivity|]. split; [exact (Hback _ Hx)|].
  exact (Hrefused (VBool true) GUATIAO_BOOL ltac:(reflexivity) ltac:(reflexivity)).
Defined.

(** An enum of unit variants is read back from its stored name. With [#[map(other)]] a
    name no variant is stored as is kept, and one that a variant is stored as becomes
    that variant; without it such a name is refused, naming those there are. *)
Theorem choice_crosses (names : list bytes) (other : bool) (Hn : repeated [] names = false) (Hu : Forall (λ n, is_utf8 n = true) names) :
  (forall i, (i < length names)%nat -> exists n, choice_to names (Named i) = Ok (VString n) /\ choice_from names other (VString n) = Ok (Named i)) /\
  (forall t i, names !! i = Some t -> exists v, choice_to names (OtherName t) = Ok v /\ choice_from names other v = Ok (Named i)) /\
  (forall t, is_utf8 t = true -> t ∉ names ->
    choice_to names (OtherName t) = Ok (VString t) /\
    choice_from names other (VString t) = if other then Ok (OtherName t) else Err (Refuse (bad_value (one_of names)))).
Proof.
  apply repeated_false in Hn as [Hn _]. rewrite Forall_forall in Hu.
  assert (forall i n, names !! i = Some n -> choice_from names other (VString n) = Ok (Named i)) as Hback.
  { intros i n Hi. unfold choice_from. rewrite (proj2 (str_of_Ok _ n)) by (split; [done|]; apply Hu; by eapply list_elem_of_lookup_2).
    cbn. by rewrite (position_named names i). }
  split_and!.
  - intros i Hi. destruct (lookup_lt_is_Some_2 names i Hi) as [n E]. exists n. split; [|by apply Hback]. unfold choice_to. by rewrite E.
  - intros t i Hi. exists (VString t). split; [done|by apply Hback].
  - intros t Ht Hin. split; [done|]. unfold choice_from. rewrite (proj2 (str_of_Ok _ t)) by done. cbn.
    by rewrite (proj2 (position_of_absent names t) Hin).
Qed.
Lemma choice_crosses_witness :
  choice_from [bs "raw"; bs "zlib"] true (VString (bs "tight")) = Ok (OtherName (bs "tight")) /\
  choice_from [bs "raw"; bs "zlib"] false (VString (bs "tight")) = Err (Refuse (bad_value (bs "one of raw, zlib"))).
Proof.
  assert (bs "tight" ∉ [bs "raw"; bs "zlib"]) as Hin by (apply (bool_decide_unpack _); vm_compute; exact I).
  split.
  - destruct (choice_crosses [bs "raw"; bs "zlib"] true ltac:(reflexivity) ltac:(repeat constructor)) as (_ & _ & H).
    exact (proj2 (H (bs "tight") eq_refl Hin)).
  - destruct (choice_crosses [bs "raw"; bs "zlib"] false ltac:(reflexivity) ltac:(repeat constructor)) as (_ & _ & H).
    exact (proj2 (H (bs "tight") eq_refl Hin)).
Defined.

(** ** Two fields on one key *)

Lemma flat_entries_clash flat k : forall m, k ∈ keys m -> k ∈ keys flat -> flat_entries m flat = Err (Refuse DuplicateKey).
Proof.
  induction flat as [|[k' v] flat IH]; intros m Hm; cbn [flat_entries]; [by intros ?%elem_of_nil|]. cbn [fst snd]. intros Hf.
  destruct (contains_key m k') eqn:E; [done|]. apply IH.
  - rewrite set_keys, E. set_solver.
  - apply elem_of_cons in Hf as [Hk|]; [|done]. cbn in Hk. subst k. apply contains_key_spec in Hm. congruence.
Qed.

(** A keyed field and a flattened member on one key: declared in either order, the
    struct compiles. With the keyed field first, writing is refused with [DuplicateKey];
    with the member first it is not, and the member's value is replaced by the field's. *)
Theorem flatten_clash `{ToValue A, FromValue A} {M} (to : M -> writing Value) (from : Value -> reading M) (key : bytes) (a : A) (x : M) (v : Value)
    (flat : list (bytes * Value)) (Ha : to_value a = Ok v) (Hx : to x = Ok (VMap flat)) (Ht : keys_are_text flat = true)
    (Hn : NoDup (keys flat)) (Hk : key ∈ keys flat) :
  let field := plain_field (A := A) key None None in let member := Flattened to from in
  compiles (PCons field (PCons member PNil)) false = true /\ compiles (PCons member (PCons field PNil)) false = true /\
  struct_to (PCons field (PCons member PNil)) (a, (x, tt)) = Err (Refuse DuplicateKey) /\
  (exists m, struct_to (PCons member (PCons field PNil)) (x, (a, tt)) = Ok (VMap m) /\ keys m = keys flat /\
    get m key = Some v /\ (forall k, k <> key -> get m k = get flat k)).
Proof.
  intros field member. assert (flatten_into [] (VMap flat) = Ok flat) as Hflat by by apply (flatten_into_Ok []).
  split; [done|]. split; [done|]. split.
  - unfold struct_to. cbn. rewrite Ha, Hx. cbn. unfold flatten_into. cbn. rewrite Ht. cbn. by rewrite (flat_entries_clash flat key) by (done || by left).
  - exists (set_ flat key v). split_and!.
    + unfold struct_to. cbn [set_fields set_field fst snd member field plain_field]. rewrite Hx. cbn [mbind result_bind]. rewrite Hflat. cbn. by rewrite Ha.
    + rewrite set_keys. by rewrite (proj2 (contains_key_spec flat key) Hk).
    + rewrite get_set. by rewrite decide_True.
    + intros k Hne. rewrite get_set. by rewrite decide_False by congruence.
Qed.
Lemma flatten_clash_witness :
  struct_to (PCons (Flattened (struct_to tls_plan) (struct_from tls_plan false)) (PCons (plain_field (bs "ca") None None) PNil))
    ((true, (Some (MkString (bs "theirs")), tt)), (MkString (bs "mine"), tt)) = Ok (VMap [(bs "verify", VBool true); (bs "ca", VString (bs "mine"))]) /\
  struct_to (PCons (plain_field (bs "ca") None None) (PCons (Flattened (struct_to tls_plan) (struct_from tls_plan false)) PNil))
    (MkString (bs "mine"), ((true, (Some (MkString (bs "theirs")), tt)), tt)) = Err (Refuse DuplicateKey).
Proof.
  split; [vm_compute; reflexivity|].
  apply (flatten_clash (struct_to tls_plan) (struct_from tls_plan false) (bs "ca") (MkString (bs "mine")) (true, (Some (MkString (bs "theirs")), tt))
    (VString (bs "mine")) [(bs "verify", VBool true); (bs "ca", VString (bs "theirs"))]); try (vm_compute; reflexivity).
  - apply (bool_decide_unpack _); vm_compute; exact I.
  - apply (bool_decide_unpack _); vm_compute; exact I.
Defined.
